(* ===== verification/_CoqProject ===== *)
-Q . S2P
Prelude.v
Memory.v
Values.v
Common.v
CText.v
CSort.v
CVector.v
CString.v
CStringRfind.v
CBstKeys.v
CBstTree.v
CBstMap.v
CBstMapSpec.v
CPinTable.v
CHash.v
COaProbe.v
COaMap.v
COaRefine.v
COaSpec.v
CLinks.v
CScMap.v
CScRefine.v
CScRelink.v
CScResize.v
CScOps.v
CScSpec.v
CHashMap.v
CHashMapRefine.v
CHashMapIter.v
CHashMapSpec.v
CHttp1.v
CHttp1Lines.v
CHttp1Grammar.v
CHttp1Parser.v
CHttp1Exec.v
CHttp1Split.v
CHttp1Wire.v
CLruCache.v
CLruSpec.v
CLruSegment.v
CLruOrder.v
CLruInv.v
CLruPrims.v
CLruEvict.v
CLruOpen.v
CLruMoves.v
CLruCalls.v
CLruGets.v
CLruStores.v
CLruSets.v
CLruThreads.v
CLruSystem.v
CLruMain.v
CLruRouter.v
