(* ===== verification/Prelude.v ===== *)
(** * A verification development for the C Collections library

    The repository is a C11 library of containers and services.  This
    development models its core containers, its cache and its HTTP/1 parser, translated
    function by function from [src/src/*.c] and the headers they use, and proves
    that they do what their documentation promises.

    ** The parts and where they are modelled

    - [Prelude]: [size_t] arithmetic modulo [2^64], lists indexed by [Z], the
      tactics and hint databases of the development.
    - [Memory]: [include/common.h].  The return codes, [_ccol_assert] and the
      [_ccol_mem_*] macros, as computations over an allocator state; pointers
      a caller passes in; ownership of blocks.
    - [Values]: [include/common.h].  Data types, [_ccol_typed_cmp], the
      decoding of stored bytes, the NaN rule, and the interface [TotalCmp]
      that every comparator has to meet.
    - [Common]: [common.c], [cgrowbuf.h].  The rounding to a power of two and
      the growth buffer.
    - [CText]: [cascii.h], [cutf8.h].  ASCII classification and UTF-8
      validation.
    - [CSort]: [csort.c].  The bottom-up merge sort with a getter and its
      contiguous twin, and the default comparators.
    - [CVector]: [cvector.c].  The dynamic array; its sort is that of [CSort].
    - [CString], [CStringRfind]: [cstring.c].  The string, its split, which
      builds a [CVector], and the three searches for the last occurrence.
    - [CBstKeys], [CBstTree], [CBstMap], [CBstMapSpec]: [cbstmap.c].  The
      order of the keys, the AVL tree and its rebalancing walks, the map with
      its nodes in memory, and the histories and properties of the map.
    - [CPinTable]: [cpintable.c], [cpintable.h].  The table of pinned handles,
      sequentially and as steps of threads that interleave.
    - [CHash]: [chashmap.c].  The hash functions, the choice between them and
      the secret of the process.
    - [COaProbe], [COaMap], [COaRefine], [COaSpec]: [chashmap.c].  Linear
      probing on a ring, the open-addressing backend of the hash map, its
      representation of a finite map, and its histories.
    - [CLinks], [CScMap], [CScRefine], [CScRelink], [CScResize], [CScOps],
      [CScSpec]: [chashmap.c].  Linked lists in memory, the separate-chaining
      backend of the hash map, its nodes and their storage, the relinking of
      all nodes, resizes, the operations, and the histories with the bounds
      the backend keeps to.

    - [CHashMap], [CHashMapRefine], [CHashMapIter], [CHashMapSpec]:
      [chashmap.c], [chashinsert.h].  The functions a caller of the hash map
      sees, their argument checks and the dispatch between the backends; what
      each does to one abstract list of pairs; iterators, walks and the
      destruction with a destructor; creation and histories.
    - [CHttp1], [CHttp1Lines], [CHttp1Grammar], [CHttp1Parser], [CHttp1Exec],
      [CHttp1Split], [CHttp1Wire]: [chttp1_parser.c], [chttp1_parser.h].  The
      push parser of HTTP/1 messages; numbers and transfer codings; the
      grammars of chunk extensions and hosts; the invariant of the parser and
      its line operations; runs of the state machine; runs on input that is
      cut into pieces; and the parsing of printed requests.
    - [CLruCache], [CLruSpec], [CLruSegment], [CLruOrder], [CLruInv]:
      [clrucache.c].  A segment of the cache with its entries, its eviction
      order as linked nodes, its map (a hash map of [CHashMap]) and the
      critical sections of its operations as steps of threads; the abstract
      list with a least-recently-used order; the map as an association of keys
      with entries; the links; the invariant with a token for each reference a
      thread holds.
    - [CLruPrims], [CLruEvict], [CLruOpen], [CLruMoves], [CLruCalls],
      [CLruGets], [CLruStores], [CLruSets], [CLruThreads], [CLruSystem],
      [CLruMain]: proofs about [CLruCache], from the primitives over
      eviction, gets, stores and sets to a step of any thread, any
      interleaving, and the theorems.
    - [CLruRouter]: [clrucache.c].  A cache over its segments: creation, the
      choice of a segment for a key, size, destruction.

    ** How state and operations correspond to the code

    A struct is a [Record] that carries the block identifier of the struct
    and, for each buffer, the block with its bytes; a handle is an [option],
    [None] for NULL.  An operation is a Rocq function with the name of the C
    function, in the monad [Memory.M]; it takes the object and returns it as
    the call leaves it.  Out-parameters are components of the result, and
    [const char *] and [const void *] arguments are [Memory.ptr]: memory of
    the caller's, or an offset of a block, so that a source that aliases the
    object is visible to the code and a pointer kept across a reallocation
    dangles.  Every access goes through a function that is [Undefined] out
    of bounds or after a free.

    A loop is [Memory.loop] or [Memory.while] with a fuel computed from the
    sizes involved (the number of elements plus one, three steps per node of
    a tree for the destroy walk, 65 doublings of a run length, one step per
    slot for a probe, one eviction for each entry of a segment and one more,
    two passes per byte of HTTP/1 input and two more, and for
    a backward shift the sum of all displacements, which every step
    reduces, below capacity * (capacity + 1)).  [wp c m Q]
    excludes [OutOfFuel] together with [Aborted] and [Undefined], so every
    theorem stated with it says that the loops terminate within their fuel,
    that no assertion fires and that no access is out of bounds.

    Addition, subtraction and multiplication of [size_t] values are [⊕], [⊖]
    and [⊗], which wrap; a height stored in a [uint8_t] is reduced modulo
    256.  The platform is x86-64: LP64, little-endian, a signed plain [char]
    and an x87 [long double].

    ** What the theorems show

    - [CSort]: the sort is stable and sorts, for every comparator that is a
      total preorder; its two drivers agree; the default comparators are
      total preorders, NaN included.
    - [Common], [CText]: the growth buffer, the rounding and the text helpers
      compute what they are specified to.
    - [CVector.vector_history], [CString.string_history],
      [CBstMapSpec.map_history]: the vector, the string and the tree map
      refine an abstract list, byte string and sorted list of pairs through
      any history of operations, whatever requests the allocator refuses, and
      give back every block.  Single operations are specified on every
      branch, sources that alias the object included.
    - [CBstMapSpec.map_stacks_bounded]: after any history the walks of a tree
      map need at most 90 of the 128 entries of their fixed stacks.
    - [CPinTable]: the pin table refines a map from handles to occupancies;
      however its threads interleave, an object that is pinned is not freed
      and a drain can finish.  These runs are sequentially consistent and
      assume fewer than 2^60 threads, each of which releases on the stripe it
      pinned on.
    - [CStringRfind.string_rfind]: the search for the last occurrence of a
      text finds it on every path.
    - [CHash]: a hash reads its key and nothing else, and word hashes collide
      only by reduction.
    - [COaSpec]: the open-addressing map refines a finite map through any
      history, including refused requests, switches between hash modes and
      values given as pointers into the map; its growth and its window bound
      are what their comments say, in exact arithmetic.
    - [CScSpec]: the separate-chaining map refines an association list in the
      order of insertion through any history, for any equality of keys that
      is one and any hash that agrees with it; a switch of the hash moves no
      node; in the fast mode no chain outgrows its cap; an attempt at the fast
      hash costs work linear in the count; the window bound is within two
      counts of the real-valued one.

    - [CHashMapSpec]: the hash map as a caller sees it refines a list of pairs
      through any history of its public functions, with any arguments, for
      both backends; a creation fails exactly as specified; the public hash
      agrees on the keys a map takes for one.

    - [CHttp1Exec]: on any bytes, with any callbacks, the parser has no
      undefined behaviour, ends, keeps to its limits and gives back its line
      buffer; a message has one framing past its headers; the end of the
      connection tells a whole message from a truncated one; chunks are framed
      within an allowance of their data.
    - [CHttp1Lines], [CHttp1Grammar]: transfer codings mean the list they merge
      to; chunk extensions are those of the RFC's grammar; hosts are those of
      a grammar that takes in every host of the RFC's but the empty one and
      reads IPv6 addresses by their characters.
    - [CHttp1Split.execute_split]: the pieces the input comes in do not matter.
    - [CLruMain]: in every interleaving of threads in a segment of a cache no
      step has undefined behaviour or fails an assertion, no wake-up is lost, a
      key has one remote operation at a time, the contents stay within the
      capacity and change as those of a list with a least-recently-used order,
      whose losses the eviction callback is told, and the destruction gives
      every block back.
    - [CLruRouter]: the segments share out the capacity, a key has one segment,
      and calls to a segment keep the cache sound.
    - [CHttp1Wire.request_roundtrip]: a printed request is parsed back.

    ** Parameters

    The allocator is [Memory.Allocator]: which requests it grants and what a
    fresh block holds.  Comparators are functions on the bytes of the two
    operands, required to be total preorders where an order is needed.
    Whether procs are interned is an argument of the creation functions.  A
    custom hashing procedure is a function from the bytes of a key to a 64-bit
    word.  The secret of the hash functions is a parameter: what the random
    source and the clocks gave.  The callbacks of an
    HTTP/1 parser are functions that read the parser, thread a state of their
    own and do not write the parser, as those of the client and the server;
    the pieces theorems ask that [on_body] takes its bytes additively.

    Of a cache the environment decides, step by step, which thread runs, its
    calls, whether a condition variable can be initialised, what the remote
    callbacks answer, and wake-ups without a broadcast.  A value the remote
    getter hands over is a block it got from the segment's allocator.  The
    callbacks do not call the cache from inside the eviction callback, which
    runs with the mutex held.  The theorems ask for fewer than 2^31 threads,
    because [waiters] is an [int], and that the identifiers of blocks, which
    stand for addresses in the map and are never used twice, stay below
    2^64.

    ** Not modelled

    In the containers: the text of error strings (an error is an enumeration
    of the cases), the counters for tests, and what happens when a container
    is changed while an iterator over it is live.  A part of a split result
    is an opaque eight-byte element of the vector that holds it.

    Of the cache, the table of handles is left out: its pins are those of
    [CPinTable], and the destruction is modelled from where they have
    drained.  Its hooks for tests are left out too.  Interleavings are those
    of the threads in one segment; segments share nothing but the allocator.

    Of the HTTP/1 parser, [chttp1_stream_t], which reads a diverted body from
    a socket, is left out.  The remaining parts of [src/src] are not modelled:
    the client, the server, the TLS layer, the logger, the pools, the threads
    and the debug log are mostly system calls, threads and libraries that the
    sources only call; JSON, YAML and the URL helpers compose the
    containers above and are left out of this development. *)
From stdpp Require Export base tactics list list_numbers gmap sets.
From Stdlib Require Export ZArith Lia Sorted Permutation.

#[export] Set Default Goal Selector "!".
#[export] Set Warnings "-clear-no-such-hyp".
#[export] Set Warnings "-implicit-create-rewrite-hint-db".
#[global] Open Scope Z_scope.

(** ** The machine: a 64-bit [size_t]

    Every size, count and index of the C code is a [Z] in [[0, 2^64)], and
    every addition, subtraction and multiplication of [size_t] values goes
    through [wrap], the reduction modulo [2^64] that C prescribes. *)
Declare Scope size_scope.
Delimit Scope size_scope with size.

Definition two64 : Z := 18446744073709551616.
Definition SIZE_MAX : Z := 18446744073709551615.
Definition wrap (x : Z) : Z := x `mod` two64.

Notation "a ⊕ b" := (wrap (a + b)) (at level 50, left associativity) : size_scope.
Notation "a ⊖ b" := (wrap (a - b)) (at level 50, left associativity) : size_scope.
Notation "a ⊗ b" := (wrap (a * b)) (at level 40, left associativity) : size_scope.
#[global] Open Scope size_scope.

Lemma wrap_small x : 0 <= x < two64 -> wrap x = x.
Proof. apply Z.mod_small. Qed.

Lemma wrap_range x : 0 <= wrap x < two64.
Proof. unfold wrap, two64. apply Z.mod_pos_bound. lia. Qed.

Lemma wrap_add_l a b : wrap (wrap a + b) = wrap (a + b).
Proof. apply Z.add_mod_idemp_l. done. Qed.
Lemma wrap_add_r a b : wrap (a + wrap b) = wrap (a + b).
Proof. apply Z.add_mod_idemp_r. done. Qed.

(** A sum that wrapped is smaller than either operand: the overflow test
    [a + b < a] of the C code is exact. *)
Lemma wrap_add_overflow a b :
  0 <= a < two64 -> 0 <= b < two64 -> wrap (a + b) < a <-> two64 <= a + b.
Proof.
  unfold wrap, two64. intros Ha Hb. split; intros H.
  - destruct (Z_lt_le_dec (a + b) 18446744073709551616); [|done].
    rewrite Z.mod_small in H; lia.
  - rewrite (Z.mod_eq (a + b)) by lia.
    assert ((a + b) `div` 18446744073709551616 = 1) as ->; [|lia].
    symmetry. apply Z.div_unique with (a + b - 18446744073709551616); lia.
Qed.

(** [sz] removes every [wrap] whose argument [lia] shows to be in range. *)
Ltac sz_in_range := unfold two64, SIZE_MAX in *; lia.
Ltac sz :=
  repeat match goal with
  | |- context [wrap ?x] => rewrite (wrap_small x) by sz_in_range
  | H : context [wrap ?x] |- _ => rewrite (wrap_small x) in H by sz_in_range
  end.

(** Turns every boolean comparison among the hypotheses and the goal into the
    proposition it decides. *)
Create HintDb zbool.
#[export] Hint Rewrite Z.leb_le Z.leb_gt Z.ltb_lt Z.ltb_ge Z.eqb_eq Z.eqb_neq
  Nat.eqb_eq Nat.eqb_neq Nat.leb_le Nat.ltb_lt negb_true_iff negb_false_iff
  andb_true_iff orb_false_iff bool_decide_eq_true bool_decide_eq_false
  Z.geb_leb Z.gtb_ltb : zbool.
Ltac zbool := autorewrite with zbool in *; destruct_and?.

(** Case analysis on a [Z] comparison in the goal, leaving propositions. *)
Ltac zcase :=
  match goal with
  | |- context [Z.leb ?a ?b] => destruct (Z.leb_spec a b)
  | |- context [Z.ltb ?a ?b] => destruct (Z.ltb_spec a b)
  | |- context [Z.eqb ?a ?b] => destruct (Z.eqb_spec a b)
  end.

(** ** Lists indexed by [Z] *)
Section ZLists.
Context {A : Type}.
Implicit Types (l : list A) (x : A).

Definition zlen l : Z := Z.of_nat (length l).
Definition ztake (n : Z) l : list A := take (Z.to_nat n) l.
Definition zdrop (n : Z) l : list A := drop (Z.to_nat n) l.

(** [l[i]], with [None] for an index out of range. *)
Definition zget l (i : Z) : option A :=
  if (0 <=? i) then l !! Z.to_nat i else None.

(** [l[i] = x], with [None] for an index out of range. *)
Definition zset l (i : Z) x : option (list A) :=
  if (0 <=? i) && (i <? zlen l) then Some (<[Z.to_nat i := x]> l) else None.

(** The [n] elements from index [i]. *)
Definition slice l (i n : Z) : list A := ztake n (zdrop i l).

(** [l] with [src] written from index [i]. *)
Definition splice l (i : Z) (src : list A) : list A :=
  ztake i l ++ src ++ zdrop (i + zlen src) l.

Lemma zlen_nonneg l : 0 <= zlen l.
Proof. unfold zlen. lia. Qed.
Lemma zlen_nil : zlen (@nil A) = 0.
Proof. done. Qed.
Lemma zlen_cons x l : zlen (x :: l) = 1 + zlen l.
Proof. unfold zlen. cbn [length]. lia. Qed.
Lemma zlen_app l1 l2 : zlen (l1 ++ l2) = zlen l1 + zlen l2.
Proof. unfold zlen. rewrite length_app. lia. Qed.
Lemma zlen_ztake n l : 0 <= n -> zlen (ztake n l) = Z.min n (zlen l).
Proof. unfold zlen, ztake. rewrite length_take. lia. Qed.
Lemma zlen_zdrop n l : 0 <= n -> zlen (zdrop n l) = Z.max 0 (zlen l - n).
Proof. unfold zlen, zdrop. rewrite length_drop. lia. Qed.
Lemma zlen_0_nil l : zlen l = 0 -> l = [].
Proof. destruct l; [done|]. rewrite zlen_cons. pose proof (zlen_nonneg l). lia. Qed.

Lemma ztake_app_exact l1 l2 n : n = zlen l1 -> ztake n (l1 ++ l2) = l1.
Proof. intros ->. unfold ztake, zlen. rewrite Nat2Z.id. apply take_app_length. Qed.
Lemma zdrop_app_exact l1 l2 n : n = zlen l1 -> zdrop n (l1 ++ l2) = l2.
Proof. intros ->. unfold zdrop, zlen. rewrite Nat2Z.id. apply drop_app_length. Qed.
Lemma ztake_all l n : zlen l <= n -> ztake n l = l.
Proof. unfold ztake, zlen. intros. apply take_ge. lia. Qed.
Lemma zdrop_all l n : zlen l <= n -> zdrop n l = [].
Proof. unfold zdrop, zlen. intros. apply drop_ge. lia. Qed.
Lemma ztake_0 l : ztake 0 l = [].
Proof. done. Qed.
Lemma zdrop_0 l : zdrop 0 l = l.
Proof. done. Qed.
Lemma ztake_zdrop n l : ztake n l ++ zdrop n l = l.
Proof. apply take_drop. Qed.
Lemma zdrop_zdrop a b l : 0 <= a -> 0 <= b -> zdrop a (zdrop b l) = zdrop (b + a) l.
Proof. intros. unfold zdrop. rewrite drop_drop. f_equal. lia. Qed.
Lemma ztake_ztake a b l : 0 <= a -> 0 <= b -> ztake a (ztake b l) = ztake (Z.min a b) l.
Proof. intros. unfold ztake. rewrite take_take. f_equal. lia. Qed.

Lemma zget_app_mid l1 x l2 i : i = zlen l1 -> zget (l1 ++ x :: l2) i = Some x.
Proof.
  intros ->. unfold zget. pose proof (zlen_nonneg l1).
  destruct (Z.leb_spec 0 (zlen l1)); [|lia].
  unfold zlen. rewrite Nat2Z.id. by apply list_lookup_middle.
Qed.
Lemma zset_app_mid l1 x y l2 i :
  i = zlen l1 -> zset (l1 ++ x :: l2) i y = Some (l1 ++ y :: l2).
Proof.
  intros ->. unfold zset. pose proof (zlen_nonneg l1). pose proof (zlen_nonneg l2).
  rewrite zlen_app, zlen_cons.
  destruct (Z.leb_spec 0 (zlen l1)); [|lia].
  destruct (Z.ltb_spec (zlen l1) (zlen l1 + (1 + zlen l2))); [|lia]. cbn.
  unfold zlen. rewrite Nat2Z.id. f_equal.
  by rewrite insert_app_r_alt, Nat.sub_diag by lia.
Qed.

(** The same up to reassociation, for [eapply] with the pieces given. *)
Lemma zget_mid l1 x l2 l i : l = l1 ++ x :: l2 -> i = zlen l1 -> zget l i = Some x.
Proof. intros -> ?. by apply zget_app_mid. Qed.
Lemma zset_mid l1 x l2 y l l' i :
  l = l1 ++ x :: l2 -> i = zlen l1 -> l' = l1 ++ y :: l2 -> zset l i y = Some l'.
Proof. intros -> ? ->. by apply zset_app_mid. Qed.

Lemma zget_Some_lt l i x : zget l i = Some x -> 0 <= i < zlen l.
Proof.
  unfold zget. destruct (Z.leb_spec 0 i); [|done].
  intros Hl%lookup_lt_Some. unfold zlen. lia.
Qed.
Lemma zget_is_Some l i : 0 <= i < zlen l -> is_Some (zget l i).
Proof.
  unfold zget, zlen. intros. destruct (Z.leb_spec 0 i); [|lia].
  apply lookup_lt_is_Some. lia.
Qed.
Lemma zget_app_l l1 l2 i : i < zlen l1 -> zget (l1 ++ l2) i = zget l1 i.
Proof.
  unfold zget, zlen. intros. destruct (Z.leb_spec 0 i); [|done].
  apply lookup_app_l. lia.
Qed.
Lemma zget_app_r l1 l2 i : zlen l1 <= i -> zget (l1 ++ l2) i = zget l2 (i - zlen l1).
Proof.
  unfold zget, zlen. intros.
  destruct (Z.leb_spec 0 i); [|lia].
  destruct (Z.leb_spec 0 (i - Z.of_nat (length l1))); [|lia].
  rewrite lookup_app_r by lia. f_equal. lia.
Qed.
Lemma zget_split l i x :
  zget l i = Some x -> l = ztake i l ++ x :: zdrop (i + 1) l.
Proof.
  intros H. pose proof (zget_Some_lt _ _ _ H). unfold zget in H.
  destruct (Z.leb_spec 0 i); [|done].
  unfold ztake, zdrop. rewrite <- (take_drop_middle l (Z.to_nat i) x) at 1 by done.
  repeat f_equal. lia.
Qed.

Lemma zset_spec l i x l' :
  zset l i x = Some l' ->
  0 <= i < zlen l /\ zlen l' = zlen l /\
  forall j, zget l' j = if decide (j = i) then Some x else zget l j.
Proof.
  unfold zset. destruct (Z.leb_spec 0 i); [|done]. destruct (Z.ltb_spec i (zlen l)); [|done].
  cbn. intros [= <-]. split; [lia|]. unfold zlen, zget in *. split; [by rewrite length_insert|].
  intros j. destruct (decide (j = i)) as [->|Hne].
  - destruct (Z.leb_spec 0 i); [|lia]. apply list_lookup_insert_eq. lia.
  - destruct (Z.leb_spec 0 j); [|done]. apply list_lookup_insert_ne. lia.
Qed.
Lemma zset_is_Some l i x : 0 <= i < zlen l -> is_Some (zset l i x).
Proof.
  intros. unfold zset. destruct (Z.leb_spec 0 i), (Z.ltb_spec i (zlen l)); cbn; try lia. by eexists.
Qed.
(** A list with its element [i] replaced, by the pieces around it. *)
Lemma zset_split l i x y l' :
  zget l i = Some x -> zset l i y = Some l' ->
  exists l1 l2, l = l1 ++ x :: l2 /\ l' = l1 ++ y :: l2 /\ i = zlen l1.
Proof.
  intros Hg Hs. pose proof (zget_Some_lt _ _ _ Hg). exists (ztake i l), (zdrop (i + 1) l).
  assert (i = zlen (ztake i l)) as Hi by (rewrite zlen_ztake; lia).
  split; [by apply zget_split|]. split; [|done].
  rewrite (zget_split l i x Hg) in Hs. rewrite (zset_app_mid _ x y _ i Hi) in Hs. by injection Hs.
Qed.

Lemma zlen_splice l i src :
  0 <= i -> i + zlen src <= zlen l -> zlen (splice l i src) = zlen l.
Proof.
  intros. pose proof (zlen_nonneg src). unfold splice.
  rewrite !zlen_app, zlen_ztake, zlen_zdrop; lia.
Qed.
Lemma zlen_slice l i n :
  0 <= i -> 0 <= n -> i + n <= zlen l -> zlen (slice l i n) = n.
Proof. intros. unfold slice. rewrite zlen_ztake, zlen_zdrop; lia. Qed.
Lemma slice_app_exact l1 l2 l3 i n :
  i = zlen l1 -> n = zlen l2 -> slice (l1 ++ l2 ++ l3) i n = l2.
Proof.
  intros. unfold slice. rewrite zdrop_app_exact by done.
  by apply ztake_app_exact.
Qed.
Lemma splice_app_exact l1 l2 l3 src i :
  i = zlen l1 -> zlen src = zlen l2 -> splice (l1 ++ l2 ++ l3) i src = l1 ++ src ++ l3.
Proof.
  intros -> Hs. unfold splice. rewrite ztake_app_exact by done. do 2 f_equal.
  rewrite app_assoc. apply zdrop_app_exact. rewrite zlen_app. lia.
Qed.

Lemma slice_splice_same l i src :
  0 <= i -> i + zlen src <= zlen l -> slice (splice l i src) i (zlen src) = src.
Proof. intros. pose proof (zlen_nonneg src). apply slice_app_exact; [|done]. rewrite zlen_ztake; lia. Qed.

Lemma slice_take_drop l i n : 0 <= i -> 0 <= n -> slice l i n = zdrop i (ztake (i + n) l).
Proof.
  intros. unfold slice, ztake, zdrop. rewrite skipn_firstn_comm. f_equal. lia.
Qed.

Lemma slice_splice_before l i src at_ n :
  0 <= at_ -> 0 <= n -> at_ + n <= i -> i + zlen src <= zlen l ->
  slice (splice l i src) at_ n = slice l at_ n.
Proof.
  intros. pose proof (zlen_nonneg src). rewrite !slice_take_drop by done. f_equal. unfold splice, ztake, zlen in *.
  rewrite take_app_le by (rewrite length_take; lia). rewrite take_take. f_equal. lia.
Qed.
End ZLists.

Create HintDb zlen.
#[export] Hint Rewrite @zlen_nil @zlen_cons @zlen_app : zlen.
#[export] Hint Rewrite @zlen_ztake @zlen_zdrop using lia : zlen.
#[export] Hint Rewrite @zlen_splice @zlen_slice using lia : zlen.

(** Non-negativity of every list length mentioned, then [lia]. *)
Ltac zlen_facts :=
  repeat match goal with
  | |- context [zlen ?l] => learn_hyp (zlen_nonneg l)
  | H : context [zlen ?l] |- _ => learn_hyp (zlen_nonneg l)
  end.
Ltac zlia := zlen_facts; autorewrite with zlen in *; zlen_facts; lia.

Lemma zlen_fmap {A B} (f : A -> B) (l : list A) : zlen (f <$> l) = zlen l.
Proof. unfold zlen. by rewrite length_fmap. Qed.
Lemma zlen_replicate {A} n (x : A) : 0 <= n -> zlen (replicate (Z.to_nat n) x) = n.
Proof. intros. unfold zlen. rewrite length_replicate. lia. Qed.
#[export] Hint Rewrite @zlen_fmap : zlen.
#[export] Hint Rewrite @zlen_replicate using lia : zlen.

(** ** Elements of [n] bytes in a row *)
Section Chunks.
Context {A : Type}.

Fixpoint chunks (n : Z) (count : nat) (l : list A) : list (list A) :=
  match count with
  | O => []
  | S k => ztake n l :: chunks n k (zdrop n l)
  end.

Lemma length_chunks n k (l : list A) : length (chunks n k l) = k.
Proof. revert l. induction k as [|k IH]; intros l; cbn; [done|]. by rewrite IH. Qed.

Lemma zlen_chunks n k (l : list A) : zlen (chunks n k l) = Z.of_nat k.
Proof. unfold zlen. by rewrite length_chunks. Qed.

(** Reading back the elements of a concatenation. *)
Lemma chunks_concat n (ls : list (list A)) rest :
  Forall (fun e => zlen e = n) ls -> chunks n (length ls) (concat ls ++ rest) = ls.
Proof.
  induction 1 as [|e ls He Hls IH]; [done|]. cbn [length concat chunks].
  rewrite <- app_assoc, ztake_app_exact, zdrop_app_exact by done. by rewrite IH.
Qed.

Lemma concat_chunks n k (l : list A) :
  0 <= n -> Z.of_nat k * n <= zlen l -> concat (chunks n k l) = ztake (Z.of_nat k * n) l.
Proof.
  intros Hn. revert l. induction k as [|k IH]; intros l Hl; [done|]. cbn [chunks concat].
  assert (0 <= Z.of_nat k * n) by nia. assert (Z.of_nat (S k) * n = n + Z.of_nat k * n) as E by lia.
  rewrite IH by (rewrite zlen_zdrop; lia).
  rewrite E. rewrite <- (ztake_zdrop n (ztake (n + Z.of_nat k * n) l)).
  rewrite ztake_ztake by lia. f_equal; [f_equal; lia|].
  unfold ztake, zdrop. rewrite skipn_firstn_comm. f_equal. lia.
Qed.

Lemma Forall_chunks n k (l : list A) :
  0 <= n -> Z.of_nat k * n <= zlen l -> Forall (fun e => zlen e = n) (chunks n k l).
Proof.
  intros Hn. revert l. induction k as [|k IH]; intros l Hl; cbn [chunks]; [done|].
  assert (Z.of_nat (S k) * n = n + Z.of_nat k * n) as E by lia. rewrite E in Hl.
  assert (0 <= Z.of_nat k * n) by nia.
  constructor; [rewrite zlen_ztake; lia|]. apply IH. rewrite zlen_zdrop; lia.
Qed.

Lemma zlen_concat n (ls : list (list A)) :
  Forall (fun e => zlen e = n) ls -> zlen (concat ls) = zlen ls * n.
Proof.
  induction 1 as [|e ls He Hls IH]; [done|]. cbn [concat]. rewrite zlen_app, zlen_cons. lia.
Qed.
End Chunks.

(** Equality of lists up to reassociation of [++]. *)
Ltac app_eq := repeat (progress (rewrite ?fmap_app, <- ?app_assoc, ?app_nil_r; cbn [app fmap list_fmap])); reflexivity.
