(* ===== verification/Memory.v ===== *)
(** * The memory the containers work on

    [include/common.h]: the return codes, [_ccol_assert] and the
    [_ccol_mem_*] macros, as a small monad of computations that thread the
    state of the allocator.

    A computation ends in one of four ways: it returns ([Done]), it stops the
    process through [_ccol_assert] ([Aborted]), it reaches undefined behaviour
    such as an access outside a buffer, a free of a block that is not
    allocated, or a [memcpy] of overlapping ranges ([Undefined]), or a loop
    exceeds the fuel its translation gives it ([OutOfFuel]).  [wp c m Q] says
    that [c], started in the state [m], returns and its result satisfies [Q]:
    it excludes the three other outcomes, so every theorem stated with [wp] is
    a statement of termination, absence of aborts and memory safety. *)
From S2P Require Import Prelude.

(** ** Return codes *)
Inductive ccol_retval_t :=
  | ccol_unexpected_failure | ccol_http_connection_failed
  | ccol_http_host_resolution_failed | ccol_http_tls_handshake_failed
  | ccol_http_tls_cert_verification_failed | ccol_http_tls_cert_load_failed
  | ccol_http_too_many_redirects | ccol_http_invalid_url
  | ccol_http_transfer_aborted | ccol_msg_too_large | ccol_container_empty
  | ccol_container_full | ccol_timed_out | ccol_not_permitted
  | ccol_invalid_args | ccol_key_not_found | ccol_key_already_present
  | ccol_not_enough_memory | ccol_success.

#[export] Instance ccol_retval_t_eq_dec : EqDecision ccol_retval_t.
Proof. solve_decision. Defined.

Definition ccol_invalid_size : Z := SIZE_MAX.
Definition ccol_max_elem_count : Z := 9223372036854775808.

(** ** The allocator

    The allocator behind [_ccol_mem_alloc] and its siblings is either the C
    library's or the caller's, so it is a parameter: [grant k n] says whether
    the [k]-th request of the process, for [n] bytes, succeeds, and [junk k]
    gives the indeterminate contents of the block it returns. *)
Class Allocator := {
  grant : nat -> Z -> bool;
  junk : nat -> nat -> Z;
}.

Record mem := Mem { m_next : nat; m_live : gset nat }.

(** A block a pointer of the program points at the start of. *)
Record block := Block { b_id : nat; b_bytes : list Z }.

Inductive outcome (A : Type) :=
  | Done (a : A) (m : mem)
  | Aborted
  | Undefined
  | OutOfFuel.
Arguments Done {A} a m.
Arguments Aborted {A}.
Arguments Undefined {A}.
Arguments OutOfFuel {A}.

Definition M (A : Type) : Type := mem -> outcome A.

#[export] Instance M_ret : MRet M := fun A a m => Done a m.
#[export] Instance M_bind : MBind M := fun A B f c m =>
  match c m with
  | Done a m' => f a m'
  | Aborted => Aborted
  | Undefined => Undefined
  | OutOfFuel => OutOfFuel
  end.

Definition abort {A} : M A := fun _ => Aborted.
Definition undefined {A} : M A := fun _ => Undefined.
Definition out_of_fuel {A} : M A := fun _ => OutOfFuel.

(** [_ccol_assert(cond)]. *)
Definition _ccol_assert (cond : bool) : M unit := if cond then mret tt else abort.

(** The guard [if (!p) _ccol_assert(false)] of a handle, then the handle. *)
Definition deref {A} (p : option A) : M A :=
  match p with Some a => mret a | None => abort end.

(** A partial operation on memory: [None] is an access out of bounds. *)
Definition ub {A} (o : option A) : M A :=
  match o with Some a => mret a | None => undefined end.

Section Allocation.
Context {alloc : Allocator}.

Definition junk_bytes (k : nat) (n : Z) : list Z := junk k <$> seq 0 (Z.to_nat n).

Definition _ccol_mem_alloc (n : Z) : M (option block) := fun m =>
  let k := m_next m in
  if grant k n
  then Done (Some (Block k (junk_bytes k n))) (Mem (S k) ({[k]} ∪ m_live m))
  else Done None (Mem (S k) (m_live m)).

Definition _ccol_mem_calloc (count size : Z) : M (option block) := fun m =>
  let k := m_next m in
  if grant k (count * size)
  then Done (Some (Block k (replicate (Z.to_nat (count * size)) 0)))
            (Mem (S k) ({[k]} ∪ m_live m))
  else Done None (Mem (S k) (m_live m)).

Definition _ccol_mem_realloc (b : block) (n : Z) : M (option block) := fun m =>
  let k := m_next m in
  if decide (b_id b ∈ m_live m) then
    if grant k n
    then Done (Some (Block k (ztake n (b_bytes b ++ junk_bytes k n))))
              (Mem (S k) ({[k]} ∪ (m_live m ∖ {[b_id b]})))
    else Done None (Mem (S k) (m_live m))
  else Undefined.

Definition _ccol_mem_free (id : nat) : M unit := fun m =>
  if decide (id ∈ m_live m) then Done tt (Mem (m_next m) (m_live m ∖ {[id]}))
  else Undefined.
End Allocation.

(** ** Loops

    [loop fuel body s] runs [body] from [s] until it leaves the loop with
    [inr]; [while] is the loop whose test is [cond]. *)
Fixpoint loop {S R} (fuel : nat) (body : S -> M (S + R)) (s : S) : M R :=
  match fuel with
  | O => out_of_fuel
  | S fuel' =>
      r ← body s;
      match r with inl s' => loop fuel' body s' | inr x => mret x end
  end.

Definition while {S} (fuel : nat) (cond : S -> bool) (body : S -> M S) : S -> M S :=
  loop fuel (fun s => if cond s then s' ← body s; mret (inl s') else mret (inr s)).

(** ** Weakest preconditions *)
Definition wp {A} (c : M A) (m : mem) (Q : A -> mem -> Prop) : Prop :=
  match c m with Done a m' => Q a m' | _ => False end.

Section Wp.
Context {A B : Type}.

Lemma wp_ret (a : A) m (Q : A -> mem -> Prop) : Q a m -> wp (mret a) m Q.
Proof. done. Qed.

Lemma wp_bind (c : M A) (f : A -> M B) m Q :
  wp c m (fun a m' => wp (f a) m' Q) -> wp (c ≫= f) m Q.
Proof. unfold wp, mbind, M_bind. destruct (c m); done. Qed.

Lemma wp_mono (c : M A) m (P Q : A -> mem -> Prop) :
  wp c m P -> (forall a m', P a m' -> Q a m') -> wp c m Q.
Proof. unfold wp. destruct (c m); naive_solver. Qed.

Lemma wp_ub (o : option A) (a : A) m (Q : A -> mem -> Prop) :
  o = Some a -> Q a m -> wp (ub o) m Q.
Proof. by intros ->. Qed.

Lemma wp_assert b m (Q : unit -> mem -> Prop) :
  b = true -> Q tt m -> wp (_ccol_assert b) m Q.
Proof. by intros ->. Qed.

Lemma wp_run (c : M A) m Q :
  wp c m Q -> exists a m', c m = Done a m' /\ Q a m'.
Proof. unfold wp. destruct (c m); naive_solver. Qed.
End Wp.

Section WpLoop.
Context {A B : Type}.

(** Total correctness of a loop: an invariant, and a measure that bounds
    the number of iterations below the fuel. *)
Lemma wp_loop (I : A -> mem -> Prop) (μ : A -> nat) fuel (body : A -> M (A + B)) s m Q :
  (forall s m, I s m ->
    wp (body s) m (fun r m' =>
      match r with
      | inl s' => I s' m' /\ (μ s' < μ s)%nat
      | inr x => Q x m'
      end)) ->
  I s m -> (μ s < fuel)%nat -> wp (loop fuel body s) m Q.
Proof.
  intros Hbody. revert s m. induction fuel as [|fuel IH]; [lia|].
  intros s m HI Hμ. cbn [loop]. apply wp_bind. eapply wp_mono; [by apply Hbody|].
  intros [s'|x] m'; cbn; [|done]. intros [HI' Hlt]. apply IH; [done|lia].
Qed.
End WpLoop.

Lemma wp_while {S} (I : S -> mem -> Prop) (μ : S -> nat) fuel cond (body : S -> M S) s m
    (Q : S -> mem -> Prop) :
  (forall s m, I s m -> cond s = true ->
    wp (body s) m (fun s' m' => I s' m' /\ (μ s' < μ s)%nat)) ->
  (forall s m, I s m -> cond s = false -> Q s m) ->
  I s m -> (μ s < fuel)%nat -> wp (while fuel cond body s) m Q.
Proof.
  intros Hbody Hexit HI Hμ. apply (wp_loop I μ); [|done|done]. clear s m HI Hμ.
  intros s m HI. destruct (cond s) eqn:E; [|by apply wp_ret, Hexit].
  apply wp_bind. eapply wp_mono; [by apply Hbody|]. done.
Qed.

(** A loop that consumes a list, one element an iteration: the invariant is on
    the elements to come. *)
Lemma wp_loop_list {A S R} (I : list A -> S -> mem -> Prop) xs fuel (body : S -> M (S + R)) s m (Q : R -> mem -> Prop) :
  (forall s m, I [] s m -> wp (body s) m (fun r m' => exists x, r = inr x /\ Q x m')) ->
  (forall x xs s m, I (x :: xs) s m ->
    wp (body s) m (fun r m' => match r with inl s' => I xs s' m' | inr x => Q x m' end)) ->
  I xs s m -> (length xs < fuel)%nat -> wp (loop fuel body s) m Q.
Proof.
  intros Hnil Hcons. revert s m fuel. induction xs as [|x xs IH]; intros s m [|fuel] HI Hf; cbn in Hf; try lia;
    cbn [loop]; apply wp_bind.
  - eapply wp_mono; [by apply Hnil|]. intros r m' (y & -> & HQ). by apply wp_ret.
  - eapply wp_mono; [by eapply Hcons|]. intros [s'|y] m' H; [|by apply wp_ret]. apply IH; [done|lia].
Qed.

Lemma zlen_junk_bytes `{Allocator} k n : 0 <= n -> zlen (junk_bytes k n) = n.
Proof. unfold zlen, junk_bytes. rewrite length_fmap, length_seq. lia. Qed.
#[export] Hint Rewrite @zlen_junk_bytes using lia : zlen.

(** Every block of the state was issued by an earlier request, so a fresh
    block is never one of them. *)
Definition mem_wf (m : mem) : Prop := forall k, k ∈ m_live m -> (k < m_next m)%nat.

Section WpAllocation.
Context {alloc : Allocator}.

(** A request either fails and changes nothing but the request counter, or
    returns a fresh block of the size asked for. *)
Lemma wp_alloc n m (Q : option block -> mem -> Prop) :
  (grant (m_next m) n = false -> Q None (Mem (S (m_next m)) (m_live m))) ->
  (grant (m_next m) n = true ->
   Q (Some (Block (m_next m) (junk_bytes (m_next m) n)))
     (Mem (S (m_next m)) ({[m_next m]} ∪ m_live m))) ->
  wp (_ccol_mem_alloc n) m Q.
Proof. unfold wp, _ccol_mem_alloc. destruct (grant _ _); auto. Qed.

Lemma wp_calloc c n m (Q : option block -> mem -> Prop) :
  (grant (m_next m) (c * n) = false -> Q None (Mem (S (m_next m)) (m_live m))) ->
  (grant (m_next m) (c * n) = true ->
   Q (Some (Block (m_next m) (replicate (Z.to_nat (c * n)) 0)))
     (Mem (S (m_next m)) ({[m_next m]} ∪ m_live m))) ->
  wp (_ccol_mem_calloc c n) m Q.
Proof. unfold wp, _ccol_mem_calloc. destruct (grant _ _); auto. Qed.

Lemma wp_realloc b n m (Q : option block -> mem -> Prop) :
  b_id b ∈ m_live m ->
  (grant (m_next m) n = false -> Q None (Mem (S (m_next m)) (m_live m))) ->
  (grant (m_next m) n = true ->
   Q (Some (Block (m_next m) (ztake n (b_bytes b ++ junk_bytes (m_next m) n))))
     (Mem (S (m_next m)) ({[m_next m]} ∪ (m_live m ∖ {[b_id b]})))) ->
  wp (_ccol_mem_realloc b n) m Q.
Proof.
  intros Hin ??. unfold wp, _ccol_mem_realloc. rewrite decide_True by done.
  destruct (grant _ _); auto.
Qed.

Lemma wp_free id m (Q : unit -> mem -> Prop) :
  id ∈ m_live m -> Q tt (Mem (m_next m) (m_live m ∖ {[id]})) ->
  wp (_ccol_mem_free id) m Q.
Proof. intros. unfold wp, _ccol_mem_free. by rewrite decide_True. Qed.
End WpAllocation.

(** ** Byte copies within one buffer or between two *)

(** [memcpy(dst + at, src, n)] for a source in another object. *)
Definition memcpy_in (dst : list Z) (pos : Z) (src : list Z) : M (list Z) :=
  if (0 <=? pos) && (pos + zlen src <=? zlen dst) then mret (splice dst pos src)
  else undefined.

(** Reads [n] bytes at [from]. *)
Definition read_bytes (src : list Z) (from n : Z) : M (list Z) :=
  if (0 <=? from) && (0 <=? n) && (from + n <=? zlen src) then mret (slice src from n)
  else undefined.

(** [memmove] inside one buffer, and [memcpy] inside one buffer, which is
    undefined when the two ranges overlap. *)
Definition memmove_within (buf : list Z) (dst src n : Z) : M (list Z) :=
  bytes ← read_bytes buf src n; memcpy_in buf dst bytes.

Definition memcpy_within (buf : list Z) (dst src n : Z) : M (list Z) :=
  if (dst <? src + n) && (src <? dst + n) then undefined
  else memmove_within buf dst src n.

Lemma wp_memcpy_in dst pos src m (Q : list Z -> mem -> Prop) :
  0 <= pos -> pos + zlen src <= zlen dst -> Q (splice dst pos src) m ->
  wp (memcpy_in dst pos src) m Q.
Proof.
  intros. unfold memcpy_in. destruct (Z.leb_spec 0 pos), (Z.leb_spec (pos + zlen src) (zlen dst));
    cbn; try lia; by apply wp_ret.
Qed.

Lemma wp_read_bytes src from n m (Q : list Z -> mem -> Prop) :
  0 <= from -> 0 <= n -> from + n <= zlen src -> Q (slice src from n) m ->
  wp (read_bytes src from n) m Q.
Proof.
  intros. unfold read_bytes.
  destruct (Z.leb_spec 0 from), (Z.leb_spec 0 n), (Z.leb_spec (from + n) (zlen src));
    cbn; try lia; by apply wp_ret.
Qed.

Lemma wp_memmove_within buf dst src n m (Q : list Z -> mem -> Prop) :
  0 <= dst -> 0 <= src -> 0 <= n -> src + n <= zlen buf -> dst + n <= zlen buf ->
  Q (splice buf dst (slice buf src n)) m -> wp (memmove_within buf dst src n) m Q.
Proof.
  intros. apply wp_bind, wp_read_bytes; try done.
  apply wp_memcpy_in; [done| |done]. rewrite zlen_slice; lia.
Qed.

Lemma wp_memcpy_within buf dst src n m (Q : list Z -> mem -> Prop) :
  0 <= dst -> 0 <= src -> 0 <= n -> src + n <= zlen buf -> dst + n <= zlen buf ->
  src + n <= dst \/ dst + n <= src ->
  Q (splice buf dst (slice buf src n)) m -> wp (memcpy_within buf dst src n) m Q.
Proof.
  intros. unfold memcpy_within.
  destruct (Z.ltb_spec dst (src + n)), (Z.ltb_spec src (dst + n)); cbn; try lia;
    by apply wp_memmove_within.
Qed.

(** Steps through the administrative part of a [wp] goal. *)
Ltac wp_pure :=
  repeat first
    [ apply wp_bind | apply wp_ret | progress cbn [deref ub _ccol_assert] ].

(** ** Ownership of blocks

    [owns m own F]: the live blocks of [m] are those in [own], which the
    component at hand holds, and those in [F], which belong to the rest of the
    program.  A specification that takes [owns m own F] to [owns m' own' F]
    says that the operation leaks nothing, frees nothing twice and touches no
    block of the rest of the program. *)
Record owns (m : mem) (own F : gset nat) : Prop := Owns {
  owns_live : m_live m = own ∪ F;
  owns_disj : own ## F;
  owns_wf : mem_wf m;
}.

Lemma owns_fresh m own F : owns m own F -> m_next m ∉ own ∪ F.
Proof. intros [Hl _ Hwf] Hin. rewrite <- Hl in Hin. apply Hwf in Hin. lia. Qed.

Lemma owns_change m own own' F : owns m own F -> own = own' -> owns m own' F.
Proof. by intros ? <-. Qed.

(** Moves blocks between the component and the rest of the program. *)
Lemma owns_split m own1 own2 F :
  owns m (own1 ∪ own2) F -> own1 ## own2 -> owns m own1 (own2 ∪ F).
Proof. intros [Hl Hd Hw] H. split; [rewrite Hl; set_solver|set_solver|done]. Qed.
Lemma owns_join m own1 own2 F :
  owns m own1 (own2 ∪ F) -> own2 ## F -> owns m (own1 ∪ own2) F.
Proof. intros [Hl Hd Hw] H. split; [rewrite Hl; set_solver|set_solver|done]. Qed.

(** A request leaves the frame alone; a refused one changes nothing. *)
Lemma owns_refused m own F : owns m own F -> owns (Mem (S (m_next m)) (m_live m)) own F.
Proof.
  intros [Hl Hd Hw]. split; [done|done|].
  intros k Hk%Hw. cbn. lia.
Qed.

Lemma owns_granted m own F rest :
  owns m own F -> rest ⊆ own ->
  owns (Mem (S (m_next m)) ({[m_next m]} ∪ (m_live m ∖ rest)))
       ({[m_next m]} ∪ (own ∖ rest)) F.
Proof.
  intros Ho Hr. pose proof (owns_fresh _ _ _ Ho). destruct Ho as [Hl Hd Hw].
  split; cbn; [|set_solver|].
  - rewrite Hl. apply set_eq. intros x. destruct (decide (x ∈ F)); set_solver.
  - intros k Hk. apply elem_of_union in Hk as [->%elem_of_singleton|Hk]; [cbn; lia|].
    apply elem_of_difference in Hk as [Hk%Hw _]. cbn. lia.
Qed.

Section WpOwns.
Context {alloc : Allocator}.

Lemma wp_alloc_owns n m own F (Q : option block -> mem -> Prop) :
  owns m own F -> 0 <= n ->
  (forall m', owns m' own F -> grant (m_next m) n = false -> Q None m') ->
  (forall b m', owns m' ({[b_id b]} ∪ own) F -> b_id b ∉ own -> b_id b ∉ F ->
    zlen (b_bytes b) = n -> grant (m_next m) n = true -> Q (Some b) m') ->
  wp (_ccol_mem_alloc n) m Q.
Proof.
  intros Ho Hn Hf Hs. pose proof (owns_fresh _ _ _ Ho).
  apply wp_alloc; intros Hg.
  - apply Hf; [by apply owns_refused|done].
  - apply Hs; cbn; [|set_solver|set_solver| |done].
    + pose proof (owns_granted m own F ∅ Ho ltac:(set_solver)) as Hgr.
      by rewrite !difference_empty_L in Hgr.
    + by rewrite zlen_junk_bytes.
Qed.

Lemma wp_calloc_owns c n m own F (Q : option block -> mem -> Prop) :
  owns m own F -> 0 <= c * n ->
  (forall m', owns m' own F -> grant (m_next m) (c * n) = false -> Q None m') ->
  (forall b m', owns m' ({[b_id b]} ∪ own) F -> b_id b ∉ own -> b_id b ∉ F ->
    b_bytes b = replicate (Z.to_nat (c * n)) 0 ->
    grant (m_next m) (c * n) = true -> Q (Some b) m') ->
  wp (_ccol_mem_calloc c n) m Q.
Proof.
  intros Ho Hn Hf Hs. pose proof (owns_fresh _ _ _ Ho).
  apply wp_calloc; intros Hg.
  - apply Hf; [by apply owns_refused|done].
  - apply Hs; cbn; [|set_solver|set_solver|done|done].
    pose proof (owns_granted m own F ∅ Ho ltac:(set_solver)) as Hgr.
    by rewrite !difference_empty_L in Hgr.
Qed.

Lemma wp_realloc_owns b n m own F (Q : option block -> mem -> Prop) :
  owns m own F -> b_id b ∈ own -> 0 <= n ->
  (forall m', owns m' own F -> grant (m_next m) n = false -> Q None m') ->
  (forall b' m', owns m' ({[b_id b']} ∪ (own ∖ {[b_id b]})) F ->
    b_id b' ∉ own -> b_id b' ∉ F -> zlen (b_bytes b') = n ->
    ztake (Z.min n (zlen (b_bytes b))) (b_bytes b') =
    ztake (Z.min n (zlen (b_bytes b))) (b_bytes b) ->
    grant (m_next m) n = true -> Q (Some b') m') ->
  wp (_ccol_mem_realloc b n) m Q.
Proof.
  intros Ho Hb Hn Hf Hs. pose proof (owns_fresh _ _ _ Ho).
  pose proof (zlen_nonneg (b_bytes b)).
  apply wp_realloc; [destruct Ho as [-> ? ?]; set_solver| |]; intros Hg.
  - apply Hf; [by apply owns_refused|done].
  - apply Hs; cbn; [|set_solver|set_solver| | |done].
    + apply (owns_granted m own F {[b_id b]} Ho). set_solver.
    + rewrite zlen_ztake, zlen_app, zlen_junk_bytes; lia.
    + rewrite ztake_ztake by lia.
      unfold ztake. rewrite take_app_le; [f_equal; lia|]. unfold zlen in *. lia.
Qed.

Lemma wp_free_owns id m own F (Q : unit -> mem -> Prop) :
  owns m own F -> id ∈ own ->
  (forall m', owns m' (own ∖ {[id]}) F -> Q tt m') ->
  wp (_ccol_mem_free id) m Q.
Proof.
  intros [Hl Hd Hw] Hin HQ. apply wp_free; [set_solver|]. apply HQ. split; cbn.
  - rewrite Hl. set_solver.
  - set_solver.
  - intros k Hk. apply Hw. set_solver.
Qed.
End WpOwns.

(** Equality of unions that only differ in order. *)
Ltac union_tac :=
  clear; apply set_eq; intros ?; rewrite ?elem_of_union, ?elem_of_singleton, ?elem_of_empty; tauto.

(** Closes an [owns] goal from a hypothesis about an equal set of blocks. *)
Ltac owns_tac :=
  match goal with
  | H : owns ?m _ ?F |- owns ?m _ ?F =>
      first [exact H | apply (owns_change _ _ _ _ H); first [union_tac | set_solver]]
  end.

(** ** The procs a container is created with

    A [ccol_memmgmt_procs_t] is four function pointers; what the code asks of
    it is which of them are given. *)
Record ccol_memmgmt_procs_t := MemmgmtProcs {
  malloc_given : bool; calloc_given : bool; realloc_given : bool; free_given : bool;
}.

Definition _ccol_verify_memmgmt_procs (mmgt_procs : option ccol_memmgmt_procs_t) : bool :=
  match mmgt_procs with
  | Some p => negb (negb (malloc_given p) || negb (calloc_given p) ||
                    negb (realloc_given p) || negb (free_given p))
  | None => true
  end.

(** ** Pointers a caller passes in

    A source argument points into memory of the caller's own, [Foreign], with
    the bytes readable there, or at an offset of some block, [At]: an
    operation can then tell whether the pointer aliases its own buffer, and a
    pointer into a block that was moved is dangling. *)
Inductive ptr :=
  | Foreign (bytes : list Z)
  | At (blk : nat) (off : Z).

#[export] Instance ptr_eq_dec : EqDecision ptr.
Proof. solve_decision. Defined.

(** The [n] bytes readable at [p], where [d] is the buffer of the object. *)
Definition ptr_bytes (d : block) (p : ptr) (n : Z) : option (list Z) :=
  match p with
  | Foreign bs => if (0 <=? n) && (n <=? zlen bs) then Some (ztake n bs) else None
  | At b off =>
      if bool_decide (b = b_id d) && (0 <=? off) && (0 <=? n) && (off + n <=? zlen (b_bytes d))
      then Some (slice (b_bytes d) off n) else None
  end.

(** [memcpy(d + pos, p, n)] and [memmove(d + pos, p, n)]. *)
Definition memmove_ptr (d : block) (pos : Z) (p : ptr) (n : Z) : M block :=
  bytes ← ub (ptr_bytes d p n);
  bs ← memcpy_in (b_bytes d) pos bytes;
  mret (Block (b_id d) bs).

Definition ptr_overlaps (d : block) (pos : Z) (p : ptr) (n : Z) : bool :=
  match p with
  | Foreign _ => false
  | At b off => bool_decide (b = b_id d) && (pos <? off + n) && (off <? pos + n)
  end.

Definition memcpy_ptr (d : block) (pos : Z) (p : ptr) (n : Z) : M block :=
  if ptr_overlaps d pos p n then undefined else memmove_ptr d pos p n.

Lemma ptr_bytes_len d p n bs : ptr_bytes d p n = Some bs -> zlen bs = n /\ 0 <= n.
Proof.
  destruct p; cbn; case_match; intros [= <-]; zbool; zlen_facts; split; zlia.
Qed.

Lemma ptr_bytes_At d b off n bs :
  ptr_bytes d (At b off) n = Some bs <->
  b = b_id d /\ 0 <= off /\ 0 <= n /\ off + n <= zlen (b_bytes d) /\ bs = slice (b_bytes d) off n.
Proof.
  cbn. destruct (bool_decide_reflect (b = b_id d)), (Z.leb_spec 0 off), (Z.leb_spec 0 n),
    (Z.leb_spec (off + n) (zlen (b_bytes d))); cbn; split; intros Hx; destruct_and?; try done || lia.
  - by injection Hx as <-.
  - by subst.
Qed.

Lemma wp_memmove_ptr d pos p n bs m (Q : block -> mem -> Prop) :
  ptr_bytes d p n = Some bs -> 0 <= pos -> pos + n <= zlen (b_bytes d) ->
  Q (Block (b_id d) (splice (b_bytes d) pos bs)) m -> wp (memmove_ptr d pos p n) m Q.
Proof.
  intros Hp ???. destruct (ptr_bytes_len _ _ _ _ Hp). unfold memmove_ptr. rewrite Hp.
  wp_pure. apply wp_memcpy_in; [lia|lia|by apply wp_ret].
Qed.

Lemma wp_memcpy_ptr d pos p n bs m (Q : block -> mem -> Prop) :
  ptr_bytes d p n = Some bs -> ptr_overlaps d pos p n = false ->
  0 <= pos -> pos + n <= zlen (b_bytes d) ->
  Q (Block (b_id d) (splice (b_bytes d) pos bs)) m -> wp (memcpy_ptr d pos p n) m Q.
Proof. intros ? Ho ???. unfold memcpy_ptr. rewrite Ho. by eapply wp_memmove_ptr. Qed.

(** A move of the buffer keeps what an offset of it reads. *)
Lemma ptr_bytes_moved d d' off n bs :
  ptr_bytes d (At (b_id d) off) n = Some bs ->
  zlen (b_bytes d) <= zlen (b_bytes d') ->
  ztake (zlen (b_bytes d)) (b_bytes d') = b_bytes d ->
  ptr_bytes d' (At (b_id d') off) n = Some bs.
Proof.
  intros H Hl Ht. rewrite <- H. cbn in *. rewrite !bool_decide_true in * by done. cbn [andb] in *.
  destruct (Z.leb_spec 0 off), (Z.leb_spec 0 n), (Z.leb_spec (off + n) (zlen (b_bytes d)));
    try done. cbn. destruct (Z.leb_spec (off + n) (zlen (b_bytes d'))); [|lia]. f_equal.
  rewrite <- Ht. unfold slice, ztake, zdrop. rewrite skipn_firstn_comm, take_take.
  f_equal. lia.
Qed.

(** ** Nodes in memory

    A container of nodes reads through a pointer by looking among its nodes
    for the bytes there. *)

(** Reading a block that was freed is undefined. *)
Definition touch (id : nat) : M unit := fun m =>
  if decide (id ∈ m_live m) then Done tt m else Undefined.

(** [len] bytes at [off], in bytes that start at [start]. *)
Definition within (start : Z) (bytes : list Z) (off len : Z) : option (list Z) :=
  if (start <=? off) && (0 <=? len) && (off + len <=? start + zlen bytes)
  then Some (slice bytes (off - start) len) else None.

Fixpoint first_some {A B} (f : A -> option B) (l : list A) : option B :=
  match l with
  | [] => None
  | x :: l => match f x with Some y => Some y | None => first_some f l end
  end.

Lemma wp_touch id m (Q : unit -> mem -> Prop) : id ∈ m_live m -> Q tt m -> wp (touch id) m Q.
Proof. intros ??. unfold wp, touch. by rewrite decide_True. Qed.

Lemma within_prefix start bs len :
  0 <= len <= zlen bs -> within start bs start len = Some (ztake len bs).
Proof.
  intros Hlen. unfold within. rewrite Z.leb_refl, Z.sub_diag. zcase; [|lia]. cbn [andb].
  destruct (Z.leb_spec (start + len) (start + zlen bs)); [|lia].
  unfold slice. by rewrite zdrop_0.
Qed.

Lemma within_all start bs len : len = zlen bs -> within start bs start len = Some bs.
Proof. intros ->. zlen_facts. rewrite within_prefix by lia. by rewrite ztake_all. Qed.

Lemma within_beyond start bs off len :
  start + zlen bs < off + len -> within start bs off len = None.
Proof.
  intros H. unfold within. destruct (Z.leb_spec (off + len) (start + zlen bs)); [lia|].
  by rewrite andb_false_r.
Qed.

Lemma within_len start bytes off len bs : within start bytes off len = Some bs -> zlen bs = len /\ 0 <= len.
Proof.
  unfold within. destruct (_ && _) eqn:E; [|done]. intros [= <-]. zbool. zlen_facts.
  split; [rewrite zlen_slice; lia|done].
Qed.

Lemma within_range start bytes off len bs : within start bytes off len = Some bs -> start <= off /\ off + len <= start + zlen bytes.
Proof. unfold within. destruct (_ && _) eqn:E; [|done]. intros _. zbool. done. Qed.

Lemma within_none start bytes off len : off < start \/ start + zlen bytes < off + len -> within start bytes off len = None.
Proof. intros H. unfold within. destruct (_ && _) eqn:E; [|done]. zbool. lia. Qed.

Lemma within_less start bytes off len k bs : within start bytes off len = Some bs -> 0 <= k <= len ->
  within start bytes off k = Some (ztake k bs).
Proof.
  intros H Hk. pose proof (within_range _ _ _ _ _ H) as [H1 H2]. unfold within in *. destruct (_ && _) eqn:E; [|done].
  injection H as <-. destruct (Z.leb_spec start off), (Z.leb_spec 0 k), (Z.leb_spec (off + k) (start + zlen bytes)); try lia.
  cbn [andb]. unfold slice. rewrite ztake_ztake by lia. by rewrite Z.min_l by lia.
Qed.

(** ** Concrete instances, for evaluating the definitions

    An allocator that grants every request up to a size, and the memory
    before the first request. *)
Definition grant_up_to (limit : Z) : Allocator :=
  {| grant _ n := n <=? limit; junk _ _ := 170 |}.
Definition mem0 : mem := Mem 0 ∅.

Lemma owns_mem0 : owns mem0 ∅ ∅.
Proof. split; cbn; set_solver. Qed.
