(* ===== verification/Values.v ===== *)
(** * Typed values and three-way comparators

    [include/common.h]: the data types a container can be told about, their
    widths, [_ccol_typed_cmp]; the contract every comparator of the library
    has to meet ([TotalCmp]), which [CSort] and [CBstMap] are verified
    against; and the decoding of stored bytes that the default comparators
    perform when they [memcpy] an operand into a variable of its type.

    The platform is x86-64 (LP64, little-endian, signed plain [char], x87
    [long double] in 16 bytes), one of those the library supports. *)
From S2P Require Import Prelude.

Inductive ccol_data_type :=
  | ccol_char | ccol_short | ccol_int | ccol_long | ccol_long_long
  | ccol_unsigned_char | ccol_unsigned_short | ccol_unsigned_int
  | ccol_unsigned_long | ccol_unsigned_long_long | ccol_float | ccol_double
  | ccol_long_double | ccol_pointer | ccol_string | ccol_other_types
  | ccol_signed_char.

#[export] Instance ccol_data_type_eq_dec : EqDecision ccol_data_type.
Proof. solve_decision. Defined.

Definition ccol_fixed_width_data_type_size (type : ccol_data_type) : Z :=
  match type with
  | ccol_char | ccol_signed_char | ccol_unsigned_char => 1
  | ccol_short | ccol_unsigned_short => 2
  | ccol_int | ccol_unsigned_int => 4
  | ccol_long | ccol_unsigned_long => 8
  | ccol_long_long | ccol_unsigned_long_long => 8
  | ccol_float => 4
  | ccol_double => 8
  | ccol_long_double => 16
  | ccol_pointer => 8
  | ccol_string | ccol_other_types => 0
  end.

(** ** Comparators *)

(** [(a > b) - (a < b)]. *)
Definition three_way (a b : Z) : Z :=
  (if a >? b then 1 else 0) - (if a <? b then 1 else 0).

(** What a comparison procedure has to be for the sort and the map to work:
    the sign of its result is a total preorder. *)
Class TotalCmp {A} (cmp : A -> A -> Z) : Prop := {
  cmp_total : forall x y, cmp x y <= 0 \/ cmp y x <= 0;
  cmp_trans : forall x y z, cmp x y <= 0 -> cmp y z <= 0 -> cmp x z <= 0;
  cmp_flip : forall x y, cmp x y < 0 <-> 0 < cmp y x;
}.

Section TotalCmpFacts.
Context {A} (cmp : A -> A -> Z) `{!TotalCmp cmp}.

Lemma cmp_refl x : cmp x x = 0.
Proof. destruct (cmp_total x x); pose proof (cmp_flip x x); lia. Qed.
Lemma cmp_eq_sym x y : cmp x y = 0 <-> cmp y x = 0.
Proof. pose proof (cmp_flip x y). pose proof (cmp_flip y x). lia. Qed.
Lemma cmp_le_ge x y : cmp x y <= 0 <-> 0 <= cmp y x.
Proof. pose proof (cmp_flip x y). pose proof (cmp_flip y x). lia. Qed.
Lemma cmp_lt_trans x y z : cmp x y < 0 -> cmp y z < 0 -> cmp x z < 0.
Proof.
  intros H1 H2. pose proof (cmp_flip x z). pose proof (cmp_flip x y).
  destruct (Z_lt_le_dec (cmp x z) 0); [done|].
  assert (cmp z x <= 0) by (apply cmp_le_ge; lia).
  assert (cmp z y <= 0) by (eapply cmp_trans; [done|lia]).
  pose proof (cmp_flip y z). lia.
Qed.
Lemma cmp_lt_le_trans x y z : cmp x y < 0 -> cmp y z <= 0 -> cmp x z < 0.
Proof.
  intros H1 H2. destruct (Z_lt_le_dec (cmp x z) 0); [done|].
  assert (cmp z x <= 0) by (apply cmp_le_ge; lia).
  assert (cmp y x <= 0) by (by eapply cmp_trans).
  pose proof (cmp_flip x y). lia.
Qed.
Lemma cmp_le_lt_trans x y z : cmp x y <= 0 -> cmp y z < 0 -> cmp x z < 0.
Proof.
  intros H1 H2. destruct (Z_lt_le_dec (cmp x z) 0); [done|].
  assert (cmp z x <= 0) by (apply cmp_le_ge; lia).
  assert (cmp z y <= 0) by (by eapply cmp_trans).
  pose proof (cmp_flip y z). lia.
Qed.
Lemma cmp_eq_trans x y z : cmp x y = 0 -> cmp y z = 0 -> cmp x z = 0.
Proof.
  intros H1 H2. pose proof (proj1 (cmp_eq_sym _ _) H1). pose proof (proj1 (cmp_eq_sym _ _) H2).
  assert (cmp x z <= 0) by (eapply (cmp_trans x y); lia).
  assert (cmp z x <= 0) by (eapply (cmp_trans z y); lia).
  pose proof (cmp_le_ge z x). lia.
Qed.
End TotalCmpFacts.

Lemma three_way_spec a b :
  (a < b /\ three_way a b = -1) \/ (a = b /\ three_way a b = 0) \/
  (b < a /\ three_way a b = 1).
Proof. unfold three_way. destruct (Z.gtb_spec a b), (Z.ltb_spec a b); lia. Qed.

(** A comparator that reads a [Z] out of each operand is a total preorder. *)
Lemma three_way_total {A} (f : A -> Z) : TotalCmp (fun x y => three_way (f x) (f y)).
Proof.
  split; intros x y; [| intros z|];
    pose proof (three_way_spec (f x) (f y)); pose proof (three_way_spec (f y) (f x));
    [lia| |lia].
  pose proof (three_way_spec (f y) (f z)). pose proof (three_way_spec (f x) (f z)). lia.
Qed.

(** The NaN rule shared by [csort]'s floating-point comparators and
    [cbstmap]'s [cmp_float_val]: a NaN ([None]) is above every number and
    equal to every other NaN; a number is the [Z] its value scales to. *)
Definition cmp_float_val (x y : option Z) : Z :=
  match x, y with
  | Some a, Some b => three_way a b
  | None, None => 0
  | None, Some _ => 1
  | Some _, None => -1
  end.

#[export] Instance cmp_float_total : TotalCmp cmp_float_val.
Proof.
  split; intros [a|] [b|]; try (intros [c|]); cbn; try lia;
    repeat match goal with
    | |- context [three_way ?x ?y] => learn_hyp (three_way_spec x y)
    end; lia.
Qed.

Lemma total_cmp_map {A B} (f : A -> B) (cmp : B -> B -> Z) `{!TotalCmp cmp} :
  TotalCmp (fun x y => cmp (f x) (f y)).
Proof. split; intros; [apply cmp_total|by eapply cmp_trans|apply cmp_flip]. Qed.

(** ** Byte strings *)

(** [memcmp] over two operands of the same length, and [strcmp] on the bytes
    before the terminator: the difference of the first two bytes that
    differ.  The C standard fixes only its sign. *)
Fixpoint memcmp (a b : list Z) : Z :=
  match a, b with
  | x :: a', y :: b' => if x =? y then memcmp a' b' else x - y
  | _, _ => 0
  end.

Fixpoint strcmp (a b : list Z) : Z :=
  match a, b with
  | [], [] => 0
  | [], y :: _ => 0 - y
  | x :: _, [] => x
  | x :: a', y :: b' => if x =? y then strcmp a' b' else x - y
  end.

Definition is_byte (b : Z) : Prop := 0 <= b < 256.
(** The bytes of a C string: no byte is the terminator. *)
Definition is_char (b : Z) : Prop := 0 < b < 256.

Lemma strcmp_antisym a b : Forall is_char a -> Forall is_char b -> strcmp a b = - strcmp b a.
Proof.
  intros Ha. revert b. induction Ha as [|x a Hx Ha IH]; intros b Hb;
    destruct Hb as [|y b Hy Hb]; cbn; try lia.
  rewrite (Z.eqb_sym y x). destruct (Z.eqb_spec x y); [by apply IH|lia].
Qed.

Lemma strcmp_0 a b : Forall is_char a -> Forall is_char b -> strcmp a b = 0 <-> a = b.
Proof.
  intros Ha. revert b. induction Ha as [|x a Hx Ha IH]; intros b Hb;
    destruct Hb as [|y b Hy Hb]; cbn; unfold is_char in *;
    [done|split; [lia|done]|split; [lia|done]|].
  destruct (Z.eqb_spec x y) as [->|]; [rewrite IH by done; naive_solver|].
  split; [lia|naive_solver].
Qed.

Lemma strcmp_trans a b c :
  Forall is_char a -> Forall is_char b -> Forall is_char c ->
  strcmp a b <= 0 -> strcmp b c <= 0 -> strcmp a c <= 0.
Proof.
  intros Ha. revert b c. induction Ha as [|x a Hx Ha IH]; intros b c Hb Hc;
    destruct Hb as [|y b Hy Hb], Hc as [|z c Hz Hc]; cbn; unfold is_char in *; try lia.
  destruct (Z.eqb_spec x y), (Z.eqb_spec y z), (Z.eqb_spec x z); subst; try lia.
  by apply IH.
Qed.

(** ** Reading a typed operand out of its bytes *)

(** The unsigned integer of the little-endian bytes [bs]. *)
Fixpoint le_unsigned (bs : list Z) : Z :=
  match bs with [] => 0 | b :: bs' => b + 256 * le_unsigned bs' end.

(** The two's complement reading of [w] bits. *)
Definition to_signed (w x : Z) : Z := if x <? 2 ^ (w - 1) then x else x - 2 ^ w.

Definition le_signed (bs : list Z) : Z := to_signed (8 * zlen bs) (le_unsigned bs).

(** The value of an IEEE 754 number with [ebits] exponent bits and [mbits]
    fraction bits, scaled to an integer by the weight of its least subnormal;
    infinities scale to the first value past the largest finite one.  [None]
    is a NaN.  Both zeros give 0. *)
Definition ieee_value (ebits mbits bits : Z) : option Z :=
  let e := Z.land (Z.shiftr bits mbits) (2 ^ ebits - 1) in
  let f := Z.land bits (2 ^ mbits - 1) in
  if (e =? 2 ^ ebits - 1) && negb (f =? 0) then None
  else
    let mag := if e =? 0 then f else (2 ^ mbits + f) * 2 ^ (e - 1) in
    Some (if Z.testbit bits (ebits + mbits) then - mag else mag).

(** The x87 extended format: the leading bit of the 64-bit significand is
    explicit, and an encoding with that bit clear and a non-zero exponent is
    not a number. *)
Definition x87_value (bits : Z) : option Z :=
  let e := Z.land (Z.shiftr bits 64) (2 ^ 15 - 1) in
  let f := Z.land bits (2 ^ 64 - 1) in
  if negb (e =? 0) && negb (Z.testbit f 63) then None
  else if (e =? 2 ^ 15 - 1) && negb (f =? 2 ^ 63) then None
  else
    let mag := if e =? 0 then f else f * 2 ^ (e - 1) in
    Some (if Z.testbit bits 79 then - mag else mag).

Definition float_value (bs : list Z) : option Z := ieee_value 8 23 (le_unsigned bs).
Definition double_value (bs : list Z) : option Z := ieee_value 11 52 (le_unsigned bs).
Definition long_double_value (bs : list Z) : option Z := x87_value (le_unsigned (ztake 10 bs)).

(** The doubles of the comment on [csort]'s float comparators decode and
    compare as IEEE 754 says: 1.0 < 4.0, -0.0 = 0.0, and NaN above +inf. *)
Example double_one_four :
  cmp_float_val (double_value [0;0;0;0;0;0;240;63]) (double_value [0;0;0;0;0;0;16;64]) = -1.
Proof. vm_compute. reflexivity. Qed.
Example double_zeros :
  cmp_float_val (double_value [0;0;0;0;0;0;0;128]) (double_value [0;0;0;0;0;0;0;0]) = 0.
Proof. vm_compute. reflexivity. Qed.
Example double_nan_inf :
  cmp_float_val (double_value [0;0;0;0;0;0;248;127]) (double_value [0;0;0;0;0;0;240;127]) = 1.
Proof. vm_compute. reflexivity. Qed.
Example float_inf_max :
  cmp_float_val (float_value [0;0;128;127]) (float_value [255;255;127;127]) = 1.
Proof. vm_compute. reflexivity. Qed.
