(* ===== verification/Common.v ===== *)
(** * Shared helpers ([src/common.c], [include/internal/])

    The power-of-two rounding every container sizes its storage with, the
    growable byte buffer the serializers write to, the conversion of
    microsecond timeouts into deadlines, and the ASCII case folding and UTF-8
    checks of the text modules. *)
From S2P Require Import Prelude Memory.

(** ** [_ccol_find_nearest_gte_power_of_two] *)
Module Pow2.
(** [__builtin_clzl], for a non-zero operand. *)
Definition builtin_clzl (x : Z) : Z := 63 - Z.log2 x.

Definition _ccol_find_nearest_gte_power_of_two (input : Z) : Z :=
  if input <=? 1 then 1 else
  let below := input ⊖ 1 in
  let bits := 64 - builtin_clzl below in
  if bits >=? 64 then ccol_invalid_size else Z.shiftl 1 bits.

(** [r] is the least power of two that is at least [x]. *)
Definition least_pow2_above (x r : Z) : Prop :=
  (exists k, 0 <= k /\ r = 2 ^ k) /\ x <= r /\ forall k, 0 <= k -> x <= 2 ^ k -> r <= 2 ^ k.

Lemma pow2_ok x :
  0 <= x <= ccol_max_elem_count ->
  least_pow2_above x (_ccol_find_nearest_gte_power_of_two x).
Proof.
  unfold ccol_max_elem_count, _ccol_find_nearest_gte_power_of_two, builtin_clzl. intros Hx.
  destruct (Z.leb_spec x 1).
  { split; [by exists 0|]. split; [lia|]. intros k Hk _. pose proof (Z.pow_pos_nonneg 2 k). lia. }
  sz. replace (64 - (63 - Z.log2 (x - 1))) with (Z.succ (Z.log2 (x - 1))) by lia.
  pose proof (Z.log2_spec (x - 1) ltac:(lia)) as [Hlo Hhi]. pose proof (Z.log2_nonneg (x - 1)).
  rewrite Z.geb_leb. destruct (Z.leb_spec 64 (Z.succ (Z.log2 (x - 1)))) as [Hb|Hb].
  { assert (Z.log2 (x - 1) <= Z.log2 9223372036854775807) as Hl by (apply Z.log2_le_mono; lia).
    change (Z.log2 9223372036854775807) with 62 in Hl. lia. }
  rewrite Z.shiftl_1_l. split; [eexists; split; [|done]; lia|]. split; [lia|].
  intros k Hk Hxk. apply Z.pow_le_mono_r; [lia|].
  apply Z.le_succ_l. apply (Z.pow_lt_mono_r_iff 2); lia.
Qed.

Lemma pow2_too_large x :
  ccol_max_elem_count < x < two64 ->
  _ccol_find_nearest_gte_power_of_two x = ccol_invalid_size.
Proof.
  unfold ccol_max_elem_count, _ccol_find_nearest_gte_power_of_two, builtin_clzl. intros Hx.
  destruct (Z.leb_spec x 1); [lia|]. sz.
  assert (Z.log2 9223372036854775808 <= Z.log2 (x - 1)) as Hl by (apply Z.log2_le_mono; lia).
  change (Z.log2 9223372036854775808) with 63 in Hl.
  rewrite Z.geb_leb. zcase; [done|lia].
Qed.

(** The form the containers use: the result is in range and is at least the
    request, or the request is refused. *)
Lemma pow2_cases x :
  0 <= x < two64 ->
  (x <= ccol_max_elem_count /\ x <= _ccol_find_nearest_gte_power_of_two x <= ccol_max_elem_count
    /\ 1 <= _ccol_find_nearest_gte_power_of_two x) \/
  (ccol_max_elem_count < x /\ _ccol_find_nearest_gte_power_of_two x = ccol_invalid_size).
Proof.
  intros Hx. destruct (Z_le_gt_dec x ccol_max_elem_count); [left|right].
  - pose proof (pow2_ok x ltac:(lia)) as ((k & Hk & Er) & Hle & Hmin).
    pose proof (Hmin 63 ltac:(lia)) as Hm. unfold ccol_max_elem_count in *.
    change (2 ^ 63) with 9223372036854775808 in Hm.
    pose proof (Z.pow_pos_nonneg 2 k). lia.
  - split; [lia|]. apply pow2_too_large. lia.
Qed.
End Pow2.

(** ** The growable buffer *)
Module GrowBuf.
Section GrowBuf.
Context {alloc : Allocator}.

Record ccol_growbuf_t := GrowbufT {
  buf : option block;
  len : Z;
  cap : Z;
  oom : bool;
}.

(** [b->buf[at] = 0]. *)
Definition put_nul (bl : block) (pos : Z) : M block :=
  bytes ← memcpy_in (b_bytes bl) pos [0]; mret (Block (b_id bl) bytes).

Definition ccol_growbuf_init : M ccol_growbuf_t :=
  b ← _ccol_mem_alloc 256;
  match b with
  | None => mret (GrowbufT None 0 0 true)
  | Some bl => bl ← put_nul bl 0; mret (GrowbufT (Some bl) 0 256 false)
  end.

Definition ccol_growbuf_init_hint (hint : Z) : M ccol_growbuf_t :=
  if hint =? SIZE_MAX then mret (GrowbufT None 0 0 true) else
  let cap := if hint ⊕ 1 >? 64 then hint ⊕ 1 else 64 in
  b ← _ccol_mem_alloc cap;
  match b with
  | None => mret (GrowbufT None 0 0 true)
  | Some bl => bl ← put_nul bl 0; mret (GrowbufT (Some bl) 0 cap false)
  end.

Definition set_oom (b : ccol_growbuf_t) : ccol_growbuf_t :=
  GrowbufT (buf b) (len b) (cap b) true.

(** The doubling loop: [None] when the capacity can't double any more. *)
Definition grown_capacity (cap needed : Z) : M (option Z) :=
  loop 66 (fun new_cap =>
    if negb (new_cap <? needed) then mret (inr (Some new_cap))
    else if new_cap >? SIZE_MAX `div` 2 then mret (inr None)
    else mret (inl (new_cap ⊗ 2)))
    (if cap =? 0 then 256 else if cap >? SIZE_MAX `div` 2 then SIZE_MAX else cap ⊗ 2).

Definition growbuf_grow (b : ccol_growbuf_t) (needed : Z) : M ccol_growbuf_t :=
  if oom b then mret b else
  new_cap ← grown_capacity (cap b) needed;
  match new_cap with
  | None => mret (set_oom b)
  | Some new_cap =>
      p ← match buf b with
          | Some bl => _ccol_mem_realloc bl new_cap
          | None => _ccol_mem_alloc new_cap
          end;
      match p with
      | None => mret (set_oom b)
      | Some bl => mret (GrowbufT (Some bl) (len b) new_cap (oom b))
      end
  end.

(** [memcpy(b->buf + b->len, data, n)], the new length and its terminator. *)
Definition put_data (b : ccol_growbuf_t) (data : list Z) : M ccol_growbuf_t :=
  bl ← ub (buf b);
  bytes ← memcpy_in (b_bytes bl) (len b) data;
  let new_len := len b ⊕ zlen data in
  bl ← put_nul (Block (b_id bl) bytes) new_len;
  mret (GrowbufT (Some bl) new_len (cap b) (oom b)).

Definition ccol_growbuf_append_slow (b : ccol_growbuf_t) (data : list Z) : M ccol_growbuf_t :=
  let n := zlen data in
  if oom b then mret b else
  if n >? (SIZE_MAX ⊖ 1) ⊖ len b then mret (set_oom b) else
  let needed := (len b ⊕ n) ⊕ 1 in
  b ← (if needed >? cap b then growbuf_grow b needed else mret b);
  if oom b then mret b else
  if n =? 0 then mret b else
  put_data b data.

Definition PTRDIFF_MAX : Z := 9223372036854775807.

Definition ccol_growbuf_append (b : ccol_growbuf_t) (data : list Z) : M ccol_growbuf_t :=
  let n := zlen data in
  if negb (oom b) && negb (n =? 0) && (n <=? PTRDIFF_MAX) && (n <? cap b ⊖ len b)
  then put_data b data
  else ccol_growbuf_append_slow b data.

Definition ccol_growbuf_append_c (b : ccol_growbuf_t) (c : Z) : M ccol_growbuf_t :=
  ccol_growbuf_append b [c].

(** [None] is a NULL string. *)
Definition ccol_growbuf_append_cstr (b : ccol_growbuf_t) (s : option (list Z))
    : M ccol_growbuf_t :=
  match s with None => mret b | Some s => ccol_growbuf_append b s end.

Definition ccol_growbuf_destroy (b : ccol_growbuf_t) : M unit :=
  match buf b with None => mret tt | Some bl => _ccol_mem_free (b_id bl) end.

(** *** Invariant

    A buffer that is not out of memory has a block of [cap] bytes, its
    content is the first [len] of them and a NUL follows. *)
Definition content (b : ccol_growbuf_t) : list Z :=
  match buf b with None => [] | Some bl => ztake (len b) (b_bytes bl) end.

Definition blocks (b : ccol_growbuf_t) : gset nat :=
  match buf b with None => ∅ | Some bl => {[b_id bl]} end.

Definition growbuf_wf (b : ccol_growbuf_t) : Prop :=
  match buf b with
  | None => oom b = true /\ len b = 0
  | Some bl => 0 <= len b < cap b /\ cap b <= SIZE_MAX /\ zlen (b_bytes bl) = cap b /\
               zget (b_bytes bl) (len b) = Some 0
  end.

Lemma wp_put_nul bl pos m (Q : block -> mem -> Prop) :
  0 <= pos < zlen (b_bytes bl) ->
  Q (Block (b_id bl) (splice (b_bytes bl) pos [0])) m -> wp (put_nul bl pos) m Q.
Proof.
  intros. unfold put_nul. apply wp_bind, wp_memcpy_in; [lia|zlia|by apply wp_ret].
Qed.

Lemma splice_nul l pos :
  0 <= pos < zlen l ->
  zlen (splice l pos [0]) = zlen l /\ zget (splice l pos [0]) pos = Some 0 /\
  ztake pos (splice l pos [0]) = ztake pos l.
Proof.
  intros. split; [apply zlen_splice; zlia|]. unfold splice. cbn [app]. split.
  - apply zget_app_mid. zlia.
  - apply ztake_app_exact. zlia.
Qed.

Lemma wp_growbuf_init_hint hint m F (Q : ccol_growbuf_t -> mem -> Prop) :
  0 <= hint < two64 -> owns m ∅ F ->
  (forall b m', growbuf_wf b -> content b = [] -> owns m' (blocks b) F -> Q b m') ->
  wp (ccol_growbuf_init_hint hint) m Q.
Proof.
  intros Hh Ho HQ. unfold ccol_growbuf_init_hint.
  destruct (Z.eqb_spec hint SIZE_MAX).
  { by apply wp_ret, HQ. }
  sz. rewrite Z.gtb_ltb. set (c := if 64 <? hint + 1 then hint + 1 else 64).
  assert (64 <= c <= SIZE_MAX) by (unfold c; zcase; unfold SIZE_MAX, two64 in *; lia).
  apply wp_bind, (wp_alloc_owns _ _ _ _ _ Ho); [lia| |].
  - intros m' Ho' _. by apply wp_ret, HQ.
  - intros bl m' Ho' Hid _ Hl _. apply wp_bind, wp_put_nul; [lia|]. apply wp_ret.
    destruct (splice_nul (b_bytes bl) 0) as (H1 & H2 & H3); [lia|].
    apply HQ; cbn; [|done|owns_tac]. split_and!; try done; lia.
Qed.

Lemma wp_growbuf_init m F (Q : ccol_growbuf_t -> mem -> Prop) :
  owns m ∅ F ->
  (forall b m', growbuf_wf b -> content b = [] -> owns m' (blocks b) F -> Q b m') ->
  wp ccol_growbuf_init m Q.
Proof.
  intros Ho HQ. unfold ccol_growbuf_init.
  apply wp_bind, (wp_alloc_owns _ _ _ _ _ Ho); [lia| |].
  - intros m' Ho' _. by apply wp_ret, HQ.
  - intros bl m' Ho' Hid _ Hl _. apply wp_bind, wp_put_nul; [lia|]. apply wp_ret.
    destruct (splice_nul (b_bytes bl) 0) as (H1 & H2 & H3); [lia|].
    apply HQ; cbn; [|done|owns_tac]. unfold SIZE_MAX. split_and!; try done; lia.
Qed.

(** Doubling reaches a capacity that is enough, or stops before it would
    overflow. *)
Lemma wp_grown_capacity cap needed m (Q : option Z -> mem -> Prop) :
  0 <= cap <= SIZE_MAX -> 0 <= needed <= SIZE_MAX ->
  (Q None m) -> (forall c, needed <= c <= SIZE_MAX -> Q (Some c) m) ->
  wp (grown_capacity cap needed) m Q.
Proof.
  unfold SIZE_MAX. intros Hcap Hn Hnone Hsome. unfold grown_capacity, SIZE_MAX.
  change (18446744073709551615 `div` 2) with 9223372036854775807.
  apply (wp_loop (fun c m' => m' = m /\ 1 <= c <= 18446744073709551615)
           (fun c => Z.to_nat (64 - Z.log2 c))).
  - intros c m' (-> & Hc). destruct (Z.ltb_spec c needed); cbn [negb].
    2:{ apply wp_ret, Hsome. lia. }
    rewrite Z.gtb_ltb.
    destruct (Z.ltb_spec 9223372036854775807 c); apply wp_ret; [done|]. sz.
    rewrite Z.mul_comm, Z.log2_double by lia.
    assert (Z.log2 c <= 62); [|split; [split; [done|]|]; lia].
    change 62 with (Z.log2 9223372036854775807). apply Z.log2_le_mono. lia.
  - split; [done|]. rewrite Z.gtb_ltb. repeat zcase; sz; lia.
  - match goal with |- context [Z.log2 ?x] => pose proof (Z.log2_nonneg x) end. lia.
Qed.

(** A buffer that is not out of memory has a block. *)
Lemma growbuf_wf_inv b :
  growbuf_wf b -> oom b = false ->
  exists bl, buf b = Some bl /\ blocks b = {[b_id bl]} /\ 0 <= len b < cap b /\
    cap b <= SIZE_MAX /\ zlen (b_bytes bl) = cap b /\ zget (b_bytes bl) (len b) = Some 0.
Proof.
  unfold growbuf_wf, blocks. intros Hwf Hoom. destruct (buf b); [naive_solver|].
  destruct Hwf; congruence.
Qed.

Lemma growbuf_wf_oom b : growbuf_wf b -> growbuf_wf (set_oom b).
Proof. destruct b as [[bl|] ???]; cbn; naive_solver. Qed.

(** Growth keeps the content and makes room, or latches [oom]. *)
Lemma wp_growbuf_grow b needed m F (Q : ccol_growbuf_t -> mem -> Prop) :
  growbuf_wf b -> oom b = false -> owns m (blocks b) F -> cap b < needed <= SIZE_MAX ->
  (forall m', owns m' (blocks b) F -> Q (set_oom b) m') ->
  (forall b' m', growbuf_wf b' -> oom b' = false -> needed <= cap b' ->
     len b' = len b -> content b' = content b -> owns m' (blocks b') F -> Q b' m') ->
  wp (growbuf_grow b needed) m Q.
Proof.
  intros Hwf Hoom Ho Hneeded Hfail Hok. unfold growbuf_grow. rewrite Hoom.
  destruct (growbuf_wf_inv b Hwf Hoom) as (bl & Hb & Hbl & Hlen & Hcap & Hbytes & Hnul).
  rewrite Hbl, Hb in *. apply wp_bind, wp_grown_capacity; [lia|lia|by apply wp_ret, Hfail|].
  intros c Hc. apply wp_bind, (wp_realloc_owns _ _ _ _ _ _ Ho); [set_solver|lia| |].
  - intros m' Ho' _. by apply wp_ret, Hfail.
  - intros bl' m' Ho' _ _ Hl Htake _. apply wp_ret.
    rewrite Z.min_r, Hbytes in Htake by lia.
    assert (b_bytes bl' = b_bytes bl ++ zdrop (cap b) (b_bytes bl')) as Hsplit.
    { rewrite <- (ztake_all (b_bytes bl) (cap b)) at 1 by lia.
      by rewrite <- Htake, ztake_zdrop. }
    apply Hok; cbn; try done; try lia; [| |owns_tac].
    + split_and!; try done; try lia. rewrite Hsplit, zget_app_l by lia. done.
    + unfold content. cbn. rewrite Hb, Hsplit. unfold ztake, zlen in *.
      by rewrite take_app_le by lia.
Qed.

(** What an append does to the content: all of it, or nothing and [oom]. *)
Definition appended (b : ccol_growbuf_t) (data : list Z) (b' : ccol_growbuf_t) : Prop :=
  growbuf_wf b' /\ (oom b = true -> b' = b) /\
  content b' = (if oom b' then content b else content b ++ data).

Lemma wp_put_data b data m (Q : ccol_growbuf_t -> mem -> Prop) :
  growbuf_wf b -> oom b = false -> len b + zlen data < cap b ->
  (forall b', appended b data b' -> oom b' = false -> blocks b' = blocks b -> Q b' m) ->
  wp (put_data b data) m Q.
Proof.
  intros Hwf Hoom Hroom HQ. unfold put_data.
  destruct (growbuf_wf_inv b Hwf Hoom) as (bl & Hb & Hbl & Hlen & Hcap & Hbytes & Hnul).
  rewrite Hb. zlen_facts. wp_pure. apply wp_memcpy_in; [lia..|]. cbv zeta.
  unfold SIZE_MAX in *. sz. apply wp_bind.
  assert (zlen (splice (b_bytes bl) (len b) data) = cap b) as Hs by zlia.
  apply wp_put_nul; cbn [b_bytes]; [lia|]. apply wp_ret.
  destruct (splice_nul (splice (b_bytes bl) (len b) data) (len b + zlen data)) as (H1 & H2 & H3); [lia|].
  apply HQ; [|done|by rewrite Hbl].
  split; [cbn; unfold SIZE_MAX; split_and!; try done; lia|]. split; [congruence|].
  cbn. rewrite Hoom. unfold content. cbn. rewrite Hb, H3. unfold splice.
  rewrite app_assoc. apply ztake_app_exact. zlia.
Qed.

(** The end of an append, once there is room. *)
Lemma wp_append_room b data m (Q : ccol_growbuf_t -> mem -> Prop) :
  growbuf_wf b -> oom b = false -> len b + zlen data < cap b ->
  (forall b', appended b data b' -> blocks b' = blocks b -> Q b' m) ->
  wp (if zlen data =? 0 then mret b else put_data b data) m Q.
Proof.
  intros Hwf Hoom Hroom HQ. destruct (Z.eqb_spec (zlen data) 0) as [E|E].
  - apply wp_ret, HQ; [|done]. apply zlen_0_nil in E as ->.
    split; [done|]. split; [congruence|]. by rewrite Hoom, app_nil_r.
  - apply wp_put_data; auto.
Qed.

Lemma wp_append_slow b data m F (Q : ccol_growbuf_t -> mem -> Prop) :
  growbuf_wf b -> owns m (blocks b) F -> zlen data <= SIZE_MAX ->
  (forall b' m', appended b data b' -> owns m' (blocks b') F -> Q b' m') ->
  wp (ccol_growbuf_append_slow b data) m Q.
Proof.
  intros Hwf Ho Hdata HQ. unfold ccol_growbuf_append_slow. zlen_facts.
  destruct (oom b) eqn:Hoom.
  { apply wp_ret, HQ; [|done]. split; [done|]. split; [done|]. by rewrite Hoom. }
  assert (appended b data (set_oom b)) as Hset.
  { split; [by apply growbuf_wf_oom|]. split; [congruence|]. done. }
  destruct (growbuf_wf_inv b Hwf Hoom) as (bl & Hb & Hbl & Hlen & Hcap & Hbytes & Hnul).
  unfold SIZE_MAX in *. sz. rewrite Z.gtb_ltb.
  destruct (Z.ltb_spec (18446744073709551615 - 1 - len b) (zlen data)); [by apply wp_ret, HQ|].
  sz. rewrite Z.gtb_ltb. apply wp_bind.
  destruct (Z.ltb_spec (cap b) (len b + zlen data + 1)).
  - apply (wp_growbuf_grow _ _ _ F); [done..|unfold SIZE_MAX; lia| |].
    + intros m' Ho'. by apply wp_ret, HQ.
    + intros b1 m' Hwf1 Hoom1 Hcap1 Hlen1 Hc1 Ho1. rewrite Hoom1.
      apply wp_append_room; [done|done|lia|]. intros b2 (Hwf2 & _ & Hc2) Hbl2.
      rewrite Hc1 in Hc2. apply HQ; [|by rewrite Hbl2]. split; [done|]. split; [congruence|done].
  - apply wp_ret. rewrite Hoom. apply wp_append_room; [done|done|lia|].
    intros b2 Ha Hbl2. apply HQ; [done|]. by rewrite Hbl2.
Qed.

(** The inline fast path and the slow path agree on what an append is. *)
Lemma wp_growbuf_append b data m F (Q : ccol_growbuf_t -> mem -> Prop) :
  growbuf_wf b -> owns m (blocks b) F -> zlen data <= SIZE_MAX ->
  (forall b' m', appended b data b' -> owns m' (blocks b') F -> Q b' m') ->
  wp (ccol_growbuf_append b data) m Q.
Proof.
  intros Hwf Ho Hdata HQ. unfold ccol_growbuf_append.
  destruct (_ && (zlen data <? cap b ⊖ len b)) eqn:Hfast; [|by eapply wp_append_slow].
  zbool. zlen_facts.
  destruct (growbuf_wf_inv b) as (bl & Hb & Hbl & Hlen & Hcap & Hbytes & Hnul); [done..|].
  unfold SIZE_MAX in *. sz. apply wp_put_data; [done..|lia|].
  intros b' Ha Hoom' Hbl'. apply HQ; [done|]. by rewrite Hbl'.
Qed.

(** A build pass: a sequence of appends with no check in between. *)
Fixpoint append_all (b : ccol_growbuf_t) (pieces : list (list Z)) : M ccol_growbuf_t :=
  match pieces with
  | [] => mret b
  | p :: ps => b ← ccol_growbuf_append b p; append_all b ps
  end.

Lemma wp_append_all b pieces m F (Q : ccol_growbuf_t -> mem -> Prop) :
  growbuf_wf b -> owns m (blocks b) F -> Forall (fun p => zlen p <= SIZE_MAX) pieces ->
  (forall b' m' kept dropped, growbuf_wf b' -> owns m' (blocks b') F ->
     pieces = kept ++ dropped -> content b' = content b ++ concat kept ->
     (oom b' = false -> dropped = []) -> (oom b = true -> b' = b) -> Q b' m') ->
  wp (append_all b pieces) m Q.
Proof.
  revert b m Q. induction pieces as [|p ps IH]; intros b m Q Hwf Ho Hps HQ.
  { apply wp_ret, (HQ b m [] []); rewrite ?app_nil_r; done. }
  apply Forall_cons in Hps as [Hp Hps]. cbn [append_all]. apply wp_bind.
  apply (wp_growbuf_append _ _ _ F); [done..|]. intros b1 m1 (Hwf1 & Hlatch & Hc1) Ho1.
  apply IH; [done..|]. intros b' m' kept dropped Hwf' Ho' -> Hc' Hd Hl.
  destruct (oom b1) eqn:Hoom1.
  - rewrite (Hl eq_refl) in *. apply (HQ b1 m' [] (p :: kept ++ dropped)); try done.
    + by rewrite app_nil_r.
    + congruence.
  - apply (HQ b' m' (p :: kept) dropped); try done.
    + by rewrite Hc', Hc1, <- app_assoc.
    + intros E. rewrite Hlatch in Hoom1 by done. congruence.
Qed.
End GrowBuf.
End GrowBuf.

(** ** Properties *)

(** A whole build pass over a growable buffer that starts empty, with no
    check between the appends, terminates without touching a byte outside the
    buffer; at its end the content is exactly the pieces in order when [oom]
    is clear, and otherwise the pieces before the first one that could not be
    stored; the buffer is NUL-terminated and destroying it leaves nothing
    allocated. *)
Theorem growbuf_build_pass `{Allocator} (hint : Z) (pieces : list (list Z)) m F :
  0 <= hint < two64 -> Forall (fun p => zlen p <= SIZE_MAX) pieces -> owns m ∅ F ->
  wp (b ← GrowBuf.ccol_growbuf_init_hint hint; GrowBuf.append_all b pieces) m (fun b m' =>
    (exists kept dropped, pieces = kept ++ dropped /\ GrowBuf.content b = concat kept /\
       (GrowBuf.oom b = false -> dropped = [])) /\
    GrowBuf.growbuf_wf b /\
    wp (GrowBuf.ccol_growbuf_destroy b) m' (fun _ m'' => owns m'' ∅ F)).
Proof.
  intros Hh Hp Ho. apply wp_bind, (GrowBuf.wp_growbuf_init_hint _ _ F); [done..|].
  intros b m1 Hwf Hc Ho1. apply (GrowBuf.wp_append_all _ _ _ F); [done..|].
  intros b' m' kept dropped Hwf' Ho' -> Hc' Hd _. split.
  { exists kept, dropped. by rewrite Hc', Hc. }
  split; [done|]. unfold GrowBuf.ccol_growbuf_destroy. unfold GrowBuf.blocks in Ho'.
  destruct (GrowBuf.buf b') as [bl|]; [|by apply wp_ret].
  apply (wp_free_owns _ _ _ _ _ Ho'); [set_solver|]. intros m'' Ho''. owns_tac.
Qed.

Example growbuf_build_pass_witness :
  let alloc := grant_up_to 100 in
  let pieces := [[72; 105]; []; replicate 70 33; replicate 70 34] in
  wp (b ← GrowBuf.ccol_growbuf_init_hint 10; GrowBuf.append_all b pieces) mem0 (fun b m' =>
    (exists kept dropped, pieces = kept ++ dropped /\ GrowBuf.content b = concat kept /\
       (GrowBuf.oom b = false -> dropped = [])) /\
    GrowBuf.growbuf_wf b /\
    wp (GrowBuf.ccol_growbuf_destroy b) m' (fun _ m'' => owns m'' ∅ ∅)).
Proof.
  intros alloc pieces. apply (growbuf_build_pass 10 pieces mem0 ∅);
    [split; reflexivity || discriminate| |apply owns_mem0].
  repeat constructor; vm_compute; discriminate.
Defined.

(** The rounding every container sizes its storage with gives the least
    power of two that is at least the request, for every request up to
    [ccol_max_elem_count], and [ccol_invalid_size] for every larger
    [size_t]. *)
Theorem pow2_rounding (x : Z) :
  0 <= x < two64 ->
  if x <=? ccol_max_elem_count
  then Pow2.least_pow2_above x (Pow2._ccol_find_nearest_gte_power_of_two x)
  else Pow2._ccol_find_nearest_gte_power_of_two x = ccol_invalid_size.
Proof.
  intros Hx. destruct (Z.leb_spec x ccol_max_elem_count).
  - apply Pow2.pow2_ok. lia.
  - apply Pow2.pow2_too_large. lia.
Qed.

Example pow2_rounding_witness :
  Pow2.least_pow2_above 100 (Pow2._ccol_find_nearest_gte_power_of_two 100) /\
  Pow2._ccol_find_nearest_gte_power_of_two 100 = 128.
Proof.
  split; [|reflexivity]. apply (pow2_rounding 100). split; [discriminate|reflexivity].
Defined.
