(* ===== verification/CText.v ===== *)
(** * ASCII and UTF-8 text ([include/internal/cascii.h], [cutf8.h])

    The locale-independent case folding, and the UTF-8 check that [cjson] and
    [cyaml] share, verified against the encoding of Unicode scalar values. *)
From S2P Require Import Prelude Memory Values.

(** ** ASCII *)
Module Ascii.
Definition ccol_ascii_tolower (c : Z) : Z :=
  if (c >=? 65) && (c <=? 90) then c + (97 - 65) else c.

Definition ccol_ascii_toupper (c : Z) : Z :=
  if (c >=? 97) && (c <=? 122) then c - (97 - 65) else c.

Definition ccol_ascii_isspace (c : Z) : bool :=
  (c =? 32) || ((c >=? 9) && (c <=? 13)).

(** The operands are C strings: reading at the end gives the terminator. *)
Definition c_char (s : list Z) : Z := match s with [] => 0 | c :: _ => c end.

Fixpoint ccol_ascii_casecmp (a b : list Z) : Z :=
  let x := ccol_ascii_tolower (c_char a) in
  let y := ccol_ascii_tolower (c_char b) in
  if negb (x =? y) || (x =? 0) then x - y
  else match a, b with
       | _ :: a', _ :: b' => ccol_ascii_casecmp a' b'
       | _, _ => 0
       end.

Fixpoint ccol_ascii_ncasecmp (a b : list Z) (n : nat) : Z :=
  match n with
  | O => 0
  | S n' =>
      let x := ccol_ascii_tolower (c_char a) in
      let y := ccol_ascii_tolower (c_char b) in
      if negb (x =? y) || (x =? 0) then x - y
      else ccol_ascii_ncasecmp (tail a) (tail b) n'
  end.

(** Evaluates the folding functions on a symbolic byte. *)
Ltac ascii_cases :=
  unfold ccol_ascii_tolower, ccol_ascii_toupper, is_char in *;
  rewrite ?Z.geb_leb in *;
  repeat zcase; cbn [andb orb negb] in *; try lia.

Lemma tolower_char c : is_char c -> is_char (ccol_ascii_tolower c).
Proof. intros. ascii_cases. Qed.
Lemma toupper_char c : is_char c -> is_char (ccol_ascii_toupper c).
Proof. intros. ascii_cases. Qed.
Lemma tolower_idem c : ccol_ascii_tolower (ccol_ascii_tolower c) = ccol_ascii_tolower c.
Proof. ascii_cases. Qed.
Lemma tolower_toupper c : ccol_ascii_tolower (ccol_ascii_toupper c) = ccol_ascii_tolower c.
Proof. ascii_cases. Qed.

(** The comparison is [strcmp] on the folded strings. *)
Lemma casecmp_strcmp a b :
  Forall is_char a -> Forall is_char b ->
  ccol_ascii_casecmp a b = strcmp (ccol_ascii_tolower <$> a) (ccol_ascii_tolower <$> b).
Proof.
  intros Ha. revert b. induction Ha as [|x a Hx Ha IH]; intros [|y b] Hb;
    inversion_clear Hb as [|?? Hy Hb']; [done|..];
    try pose proof (tolower_char _ Hx); try pose proof (tolower_char y ltac:(done));
    cbn [ccol_ascii_casecmp c_char fmap list_fmap strcmp]; unfold is_char in *;
    change (ccol_ascii_tolower 0) with 0.
  - destruct (Z.eqb_spec 0 (ccol_ascii_tolower y)); [lia|done].
  - destruct (Z.eqb_spec (ccol_ascii_tolower x) 0); cbn; lia.
  - destruct (Z.eqb_spec (ccol_ascii_tolower x) (ccol_ascii_tolower y)) as [E|]; [|done].
    destruct (Z.eqb_spec (ccol_ascii_tolower x) 0); [lia|]. cbn. by apply IH.
Qed.
End Ascii.

(** ** UTF-8 *)
Module Utf8.
(** The trailing bytes a lead byte needs and the range of the first. *)
Definition lead_class (b0 : Z) : option (Z * Z * Z) :=
  if (b0 >=? 194) && (b0 <=? 223) then Some (1, 128, 191)
  else if b0 =? 224 then Some (2, 160, 191)
  else if b0 =? 237 then Some (2, 128, 159)
  else if (b0 >=? 225) && (b0 <=? 239) then Some (2, 128, 191)
  else if b0 =? 240 then Some (3, 144, 191)
  else if b0 =? 244 then Some (3, 128, 143)
  else if (b0 >=? 241) && (b0 <=? 243) then Some (3, 128, 191)
  else None.

(** [for (i = 2; i <= trail; i++)]: the remaining continuation bytes. *)
Fixpoint check_trail (fuel : nat) (s : list Z) (trail i : Z) : bool * Z :=
  match fuel with
  | O => (true, trail + 1)
  | S fuel' =>
      if i <=? trail then
        match zget s i with
        | Some b => if (b <? 128) || (b >? 191) then (false, i)
                    else check_trail fuel' s trail (i + 1)
        | None => (false, i)
        end
      else (true, trail + 1)
  end.

(** One sequence at the start of [s]: whether it is well formed, and its
    length or that of its maximal subpart.  [None] reads an empty buffer. *)
Definition ccol_utf8_step (s : list Z) : option (bool * Z) :=
  match s with
  | [] => None
  | b0 :: _ =>
      Some (
        if b0 <? 128 then (true, 1) else
        match lead_class b0 with
        | None => (false, 1)
        | Some (trail, lo, hi) =>
            match zget s 1 with
            | None => (false, 1)
            | Some b1 =>
                if (b1 <? lo) || (b1 >? hi) then (false, 1)
                else check_trail 3 s trail 2
            end
        end)
  end.

(** The offset of the first ill-formed sequence, or the length. *)
Fixpoint first_ill_formed_from (fuel : nat) (s : list Z) (i : Z) : option Z :=
  match fuel with
  | O => None
  | S fuel' =>
      match s with
      | [] => Some i
      | b :: s' =>
          if b <? 128 then first_ill_formed_from fuel' s' (i + 1)
          else
            '(ok, step) ← ccol_utf8_step s;
            if (ok : bool) then first_ill_formed_from fuel' (zdrop step s) (i + step)
            else Some i
      end
  end.

Definition ccol_utf8_first_ill_formed (s : list Z) : option Z :=
  first_ill_formed_from (S (length s)) s 0.

Fixpoint is_valid_from (fuel : nat) (s : list Z) : option bool :=
  match fuel with
  | O => None
  | S fuel' =>
      match s with
      | [] => Some true
      | b :: s' =>
          if b <? 128 then is_valid_from fuel' s'
          else
            '(ok, step) ← ccol_utf8_step s;
            if (ok : bool) then is_valid_from fuel' (zdrop step s) else Some false
      end
  end.

(** [None] would be a loop that does not end. *)
Definition ccol_utf8_is_valid (s : list Z) : option bool := is_valid_from (S (length s)) s.

(** *** The specification: the encoding form of Unicode *)
Definition scalar_value (cp : Z) : Prop := 0 <= cp < 55296 \/ 57344 <= cp <= 1114111.

Definition encode (cp : Z) : list Z :=
  if cp <? 128 then [cp]
  else if cp <? 2048 then [192 + cp `div` 64; 128 + cp `mod` 64]
  else if cp <? 65536 then
    [224 + cp `div` 4096; 128 + (cp `div` 64) `mod` 64; 128 + cp `mod` 64]
  else [240 + cp `div` 262144; 128 + (cp `div` 4096) `mod` 64;
        128 + (cp `div` 64) `mod` 64; 128 + cp `mod` 64].

Inductive well_formed : list Z -> Prop :=
  | wf_nil : well_formed []
  | wf_cons cp s : scalar_value cp -> well_formed s -> well_formed (encode cp ++ s).

Ltac byte_cases :=
  repeat match goal with
  | |- context [if ?b then _ else _] => destruct b eqn:?
  | H : context [if ?b then _ else _] |- _ => destruct b eqn:?
  end; rewrite ?Z.geb_leb, ?Z.gtb_ltb in *;
  repeat match goal with
  | H : (_ || _) = false |- _ => apply orb_false_iff in H as [??]
  | H : (_ && _) = true |- _ => apply andb_true_iff in H as [??]
  | H : (_ && _) = false |- _ => apply andb_false_iff in H
  | H : (_ || _) = true |- _ => apply orb_true_iff in H
  end; rewrite ?Z.leb_le, ?Z.leb_gt, ?Z.ltb_lt, ?Z.ltb_ge, ?Z.eqb_eq, ?Z.eqb_neq in *.

(** A lead byte and its continuation bytes are the encoding of one scalar
    value exactly when they pass the table. *)
Lemma lead_class_2 b0 b1 :
  is_byte b0 -> is_byte b1 -> lead_class b0 = Some (1, 128, 191) -> 128 <= b1 <= 191 ->
  exists cp, scalar_value cp /\ [b0; b1] = encode cp.
Proof.
  unfold lead_class, is_byte. intros H0 H1 Hl Hb. byte_cases; simplify_eq.
  exists ((b0 - 192) * 64 + (b1 - 128)). unfold scalar_value, encode.
  split; [lia|]. repeat zcase; try lia.
  f_equal; [|f_equal]; Z.div_mod_to_equations; lia.
Qed.

Lemma lead_class_3 b0 b1 b2 lo hi :
  is_byte b0 -> lead_class b0 = Some (2, lo, hi) -> lo <= b1 <= hi -> 128 <= b2 <= 191 ->
  exists cp, scalar_value cp /\ [b0; b1; b2] = encode cp.
Proof.
  unfold lead_class, is_byte. intros H0 Hl Hb1 Hb2.
  exists ((b0 - 224) * 4096 + (b1 - 128) * 64 + (b2 - 128)). unfold scalar_value, encode.
  byte_cases; simplify_eq; (split; [lia|]); repeat zcase; try lia;
    (f_equal; [|f_equal; [|f_equal]]); Z.div_mod_to_equations; lia.
Qed.

Lemma lead_class_4 b0 b1 b2 b3 lo hi :
  is_byte b0 -> lead_class b0 = Some (3, lo, hi) -> lo <= b1 <= hi ->
  128 <= b2 <= 191 -> 128 <= b3 <= 191 ->
  exists cp, scalar_value cp /\ [b0; b1; b2; b3] = encode cp.
Proof.
  unfold lead_class, is_byte. intros H0 Hl Hb1 Hb2 Hb3.
  exists ((b0 - 240) * 262144 + (b1 - 128) * 4096 + (b2 - 128) * 64 + (b3 - 128)).
  unfold scalar_value, encode.
  byte_cases; simplify_eq; (split; [lia|]); repeat zcase; try lia;
    (f_equal; [|f_equal; [|f_equal; [|f_equal]]]); Z.div_mod_to_equations; lia.
Qed.

Lemma encode_ascii cp : 0 <= cp < 128 -> encode cp = [cp].
Proof. intros. unfold encode. zcase; [done|lia]. Qed.

(** The shape of every multi-byte encoding, as the lead byte table sees it. *)
Lemma encode_shape cp :
  scalar_value cp -> 128 <= cp ->
  exists b0 b1 rest trail lo hi, encode cp = b0 :: b1 :: rest /\ 128 <= b0 /\
    lead_class b0 = Some (trail, lo, hi) /\ lo <= b1 <= hi /\ zlen rest = trail - 1 /\
    1 <= trail <= 3 /\ Forall (fun b => 128 <= b <= 191) rest.
Proof.
  unfold scalar_value, encode. intros Hcp Hge. destruct (Z.ltb_spec cp 128); [lia|].
  destruct (Z.ltb_spec cp 2048); [|destruct (Z.ltb_spec cp 65536)].
  - eexists _, _, [], 1, 128, 191. split; [reflexivity|]. unfold lead_class.
    byte_cases; repeat split; try done; Z.div_mod_to_equations; lia.
  - eexists _, _, [_]. unfold lead_class. byte_cases;
      (eexists _, _, _; split; [reflexivity|]; repeat split; [..|repeat constructor]);
      try done; Z.div_mod_to_equations; lia.
  - eexists _, _, [_; _]. unfold lead_class. byte_cases;
      (eexists _, _, _; split; [reflexivity|]; repeat split; [..|repeat constructor]);
      try done; Z.div_mod_to_equations; lia.
Qed.

(** Evaluates the small literals that index the bytes of a sequence. *)
Ltac small_nats :=
  cbn -[Z.to_nat zlen];
  change (2 + 1) with 3; change (3 + 1) with 4;
  change (2 - 2) with 0; change (3 - 2) with 1;
  change (1 - 1) with 0; change (2 - 1) with 1; change (3 - 1) with 2;
  change (Z.to_nat 0) with 0%nat; change (Z.to_nat 1) with 1%nat;
  change (Z.to_nat 2) with 2%nat; change (Z.to_nat 3) with 3%nat;
  cbn -[Z.to_nat zlen].

(** What the check of the remaining continuation bytes answers. *)
Lemma check_trail_spec b0 b1 trail s :
  1 <= trail <= 3 ->
  let is_cont b := 128 <= b <= 191 in
  match check_trail 3 (b0 :: b1 :: s) trail 2 with
  | (true, k) => k = trail + 1 /\ trail - 1 <= zlen s /\ Forall is_cont (ztake (trail - 1) s)
  | (false, k) => 2 <= k <= trail /\ k - 2 <= zlen s /\ Forall is_cont (ztake (k - 2) s) /\
      (forall b, zget s (k - 2) = Some b -> ~ is_cont b)
  end.
Proof.
  intros Ht. zlen_facts. destruct s as [|b2 [|b3 s]];
    assert (trail = 1 \/ trail = 2 \/ trail = 3) as [->|[->| ->]] by lia;
    unfold check_trail, zget; small_nats;
    repeat match goal with
    | |- context [if ?b then _ else _] => destruct b eqn:?
    end; rewrite ?Z.gtb_ltb in *; zbool; unfold ztake; small_nats;
    rewrite ?zlen_cons, ?zlen_nil;
    zlen_facts; split_and?; try lia; try (by repeat constructor; lia);
    try (intros b Hb; cbn in Hb; simplify_eq; lia).
Qed.

(** A step over a well-formed sequence consumes exactly it. *)
Lemma step_encode cp s :
  scalar_value cp -> ccol_utf8_step (encode cp ++ s) = Some (true, zlen (encode cp)).
Proof.
  intros Hcp. destruct (Z_lt_le_dec cp 128).
  { rewrite encode_ascii by (unfold scalar_value in Hcp; lia). cbn. zcase; [done|lia]. }
  destruct (encode_shape cp) as (b0 & b1 & rest & trail & lo & hi & -> & H0 & Hl & H1 & Hr & Ht & Hc);
    [done..|].
  cbn [app ccol_utf8_step]. destruct (Z.ltb_spec b0 128); [lia|]. rewrite Hl.
  change (zget (b0 :: b1 :: rest ++ s) 1) with (Some b1). cbv beta iota zeta.
  rewrite Z.gtb_ltb. destruct (Z.ltb_spec b1 lo), (Z.ltb_spec hi b1); try lia. cbn [orb].
  pose proof (check_trail_spec b0 b1 trail (rest ++ s) Ht) as Hct.
  destruct (check_trail _ _ _ _) as [[|] k]; cbn in Hct.
  - destruct Hct as (-> & _ & _). do 2 f_equal. zlia.
  - exfalso. destruct Hct as (Hk & _ & _ & Hbad).
    destruct (zget_is_Some rest (k - 2)) as [b Hb]; [lia|].
    apply (Hbad b); [by rewrite zget_app_l by lia|].
    rewrite Forall_forall in Hc. apply Hc. unfold zget in Hb.
    destruct (0 <=? k - 2); [|done]. by apply list_elem_of_lookup_2 in Hb.
Qed.

(** A step that answers true is over a well-formed sequence. *)
Lemma step_true s k :
  Forall is_byte s -> ccol_utf8_step s = Some (true, k) ->
  exists cp rest, scalar_value cp /\ s = encode cp ++ rest /\ k = zlen (encode cp).
Proof.
  intros Hs. destruct s as [|b0 s]; [done|]. apply Forall_cons in Hs as [H0 Hs].
  cbn [ccol_utf8_step]. destruct (Z.ltb_spec b0 128).
  { intros [= <-]. exists b0, s. rewrite encode_ascii by (unfold is_byte in *; lia).
    unfold scalar_value, is_byte in *. split; [lia|done]. }
  destruct (lead_class b0) as [[[trail lo] hi]|] eqn:Hl; [|done].
  destruct s as [|b1 s]; [done|]. change (zget (b0 :: b1 :: s) 1) with (Some b1).
  cbv beta iota zeta. rewrite Z.gtb_ltb. apply Forall_cons in Hs as [H1 Hs].
  destruct (Z.ltb_spec b1 lo), (Z.ltb_spec hi b1); try done. cbn [orb].
  assert (1 <= trail <= 3) as Ht by (unfold lead_class in Hl; byte_cases; simplify_eq; lia).
  pose proof (check_trail_spec b0 b1 trail s Ht) as Hct.
  destruct (check_trail _ _ _ _) as [[|] k']; [|done]. intros [= <-].
  destruct Hct as (-> & Hlen & Hc).
  assert (trail = 1 \/ trail = 2 \/ trail = 3) as [->|[->| ->]] by lia.
  - assert (lo = 128 /\ hi = 191) as [-> ->]
      by (unfold lead_class in Hl; byte_cases; simplify_eq; done).
    destruct (lead_class_2 b0 b1) as (cp & ? & E); try done; try lia.
    exists cp, s. by rewrite <- E.
  - destruct s as [|b2 s]; [zlia|].
    change (ztake (2 - 1) (b2 :: s)) with [b2] in Hc. rewrite Forall_singleton in Hc.
    destruct (lead_class_3 b0 b1 b2 lo hi) as (cp & ? & E); try done.
    exists cp, s. by rewrite <- E.
  - destruct s as [|b2 [|b3 s]]; [zlia..|].
    change (ztake (3 - 1) (b2 :: b3 :: s)) with [b2; b3] in Hc.
    rewrite !Forall_cons in Hc. destruct Hc as (? & ? & _).
    destruct (lead_class_4 b0 b1 b2 b3 lo hi) as (cp & ? & E); try done.
    exists cp, s. by rewrite <- E.
Qed.

Lemma step_range s ok k :
  ccol_utf8_step s = Some (ok, k) -> 1 <= k.
Proof.
  destruct s as [|b0 s]; [done|]. cbn [ccol_utf8_step].
  destruct (b0 <? 128); [by intros [= <- <-]|].
  destruct (lead_class b0) as [[[trail lo] hi]|] eqn:Hl; [|by intros [= <- <-]].
  destruct s as [|b1 s]; [by intros [= <- <-]|]. change (zget (b0 :: b1 :: s) 1) with (Some b1).
  cbv beta iota zeta. destruct (_ || _); [by intros [= <- <-]|].
  assert (1 <= trail <= 3) as Ht by (unfold lead_class in Hl; byte_cases; simplify_eq; lia).
  pose proof (check_trail_spec b0 b1 trail s Ht) as Hct.
  destruct (check_trail _ _ _ _) as [[|] k']; intros [= <- <-]; destruct Hct as [Hk _]; lia.
Qed.

Lemma well_formed_app_inv cp s :
  scalar_value cp -> well_formed (encode cp ++ s) -> well_formed s.
Proof.
  intros Hcp Hw. inversion Hw as [E|cp' s' Hcp' Hs' E].
  - pose proof (step_encode cp s Hcp) as H. rewrite <- E in H. done.
  - pose proof (step_encode cp s Hcp) as H1. pose proof (step_encode cp' s' Hcp') as H2.
    rewrite <- E, H2 in H1. simplify_eq.
    assert (s' = s) as ->; [|done].
    rewrite <- (zdrop_app_exact (encode cp') s' _ eq_refl), E.
    by apply zdrop_app_exact.
Qed.

(** What is left after a sequence is shorter, so the scans end. *)
Lemma zdrop_shorter (s : list Z) k n :
  1 <= k -> s <> [] -> (length s < S n)%nat -> (length (zdrop k s) < n)%nat.
Proof. intros Hk Hs Hn. unfold zdrop. rewrite length_drop. destruct s; [done|]. cbn in *. lia. Qed.

Lemma step_Some b s : exists ok k, ccol_utf8_step (b :: s) = Some (ok, k).
Proof. cbn [ccol_utf8_step]. destruct (if b <? 128 then _ else _) as [ok k]. eauto. Qed.

(** One iteration of either scan. *)
Lemma scan_cases b s :
  Forall is_byte (b :: s) ->
  (exists cp rest, scalar_value cp /\ b :: s = encode cp ++ rest /\ 1 <= zlen (encode cp) /\
     if b <? 128 then s = rest /\ zlen (encode cp) = 1
     else ccol_utf8_step (b :: s) = Some (true, zlen (encode cp))) \/
  ((b <? 128) = false /\ exists k, ccol_utf8_step (b :: s) = Some (false, k) /\
     ~ well_formed (b :: s)).
Proof.
  intros Hs. destruct (step_Some b s) as (ok & k & E). destruct ok.
  - left. destruct (step_true _ _ Hs E) as (cp & rest & Hcp & Es & ->).
    exists cp, rest. pose proof (step_range _ _ _ E). repeat split; try done.
    destruct (b <? 128) eqn:Hb; [|done].
    assert (zlen (encode cp) = 1) as H1 by (cbn [ccol_utf8_step] in E; rewrite Hb in E; congruence).
    split; [|done]. destruct (encode cp) as [|c [|]]; [done| |zlia]. by injection Es.
  - right. destruct (b <? 128) eqn:Hb; [cbn [ccol_utf8_step] in E; rewrite Hb in E; done|].
    split; [done|]. exists k. split; [done|]. intros Hw. inversion Hw as [|cp s' Hcp _ Es].
    pose proof (step_encode cp s' Hcp) as Ee. rewrite Es, E in Ee. done.
Qed.

Lemma first_ill_formed_from_spec fuel s pos :
  Forall is_byte s -> (length s < fuel)%nat ->
  exists i, first_ill_formed_from fuel s pos = Some (pos + i) /\
    0 <= i <= zlen s /\ well_formed (ztake i s) /\
    (i < zlen s -> exists k, ccol_utf8_step (zdrop i s) = Some (false, k) /\ ~ well_formed s) /\
    is_valid_from fuel s = Some (i =? zlen s).
Proof.
  revert s pos. induction fuel as [|fuel IH]; intros s pos Hs Hlen; [lia|].
  destruct s as [|b s]; cbn [first_ill_formed_from is_valid_from].
  { exists 0. rewrite Z.add_0_r. repeat split; try done. constructor. }
  destruct (scan_cases b s Hs) as [(cp & rest & Hcp & Es & H1 & Hstep)|(Hb & k & Hstep & Hnot)].
  - assert (zdrop (zlen (encode cp)) (b :: s) = rest) as Hd by (rewrite Es; by apply zdrop_app_exact).
    assert (length rest < fuel)%nat as Hl by (rewrite <- Hd; by apply zdrop_shorter).
    assert (Forall is_byte rest) as Hr by (rewrite Es in Hs; apply Forall_app in Hs; tauto).
    destruct (IH rest (pos + zlen (encode cp)) Hr Hl) as (i & E1 & Hi & Hw & Hbad & E2).
    assert (first_ill_formed_from fuel rest (pos + zlen (encode cp)) = Some (pos + (zlen (encode cp) + i)) /\
            is_valid_from fuel rest = Some (zlen (encode cp) + i =? zlen (b :: s))) as [F1 F2].
    { rewrite E1, E2, Es, zlen_app. split; [f_equal; lia|]. f_equal. repeat zcase; lia. }
    exists (zlen (encode cp) + i). split_and!.
    + destruct (b <? 128); [destruct Hstep as [-> H]; by rewrite H in F1 |- *|].
      rewrite Hstep. cbn. by rewrite Hd.
    + lia.
    + rewrite Es, zlen_app. lia.
    + rewrite Es. unfold ztake. rewrite take_app_ge by (unfold zlen; lia).
      constructor; [done|]. replace (_ - _)%nat with (Z.to_nat i) by (unfold zlen; lia). done.
    + intros Hlt. rewrite Es in *. rewrite zlen_app in Hlt.
      rewrite <- zdrop_zdrop, zdrop_app_exact by (done || lia).
      destruct Hbad as (k & Hk & Hnw); [lia|]. exists k. split; [done|].
      intros Hall. by apply Hnw, (well_formed_app_inv cp).
    + destruct (b <? 128); [destruct Hstep as [-> H]; done|]. rewrite Hstep. cbn. by rewrite Hd.
  - exists 0. rewrite Hb, Hstep, Z.add_0_r. cbn. rewrite zlen_cons. zlen_facts.
    repeat split; try done; try lia; [constructor|eauto|]. destruct (1 + zlen s) eqn:E; [lia|done|done].
Qed.

(** [s] starts like the encoding of a scalar value for [n] bytes. *)
Definition could_start (n : Z) (s : list Z) : Prop :=
  exists cp, scalar_value cp /\ ztake n s `prefix_of` encode cp.

(** Two bytes or more of an encoding pass the table as far as they go. *)
Lemma could_start_inv n b0 b1 s :
  2 <= n <= zlen (b0 :: b1 :: s) -> could_start n (b0 :: b1 :: s) ->
  128 <= b0 /\ exists trail lo hi, lead_class b0 = Some (trail, lo, hi) /\ lo <= b1 <= hi /\
    n <= trail + 1 /\ Forall (fun b => 128 <= b <= 191) (ztake (n - 2) s).
Proof.
  intros Hn (cp & Hcp & Hp).
  assert (ztake n (b0 :: b1 :: s) = b0 :: b1 :: ztake (n - 2) s) as Ht.
  { unfold ztake. replace (Z.to_nat n) with (S (S (Z.to_nat (n - 2)))) by lia. done. }
  rewrite Ht in Hp. destruct (Z_lt_le_dec cp 128).
  { rewrite encode_ascii in Hp by (unfold scalar_value in Hcp; lia).
    apply prefix_cons_inv_2, prefix_nil_inv in Hp. done. }
  destruct (encode_shape cp) as (c0 & c1 & rest & trail & lo & hi & E & H0 & Hl & H1 & Hr & Htr & Hc);
    [done..|].
  rewrite E in Hp. pose proof (prefix_cons_inv_1 _ _ _ _ Hp) as ->. apply prefix_cons_inv_2 in Hp.
  pose proof (prefix_cons_inv_1 _ _ _ _ Hp) as ->. apply prefix_cons_inv_2 in Hp.
  split; [done|]. exists trail, lo, hi. split; [done|]. split; [done|].
  destruct Hp as [k ->]. rewrite zlen_app in Hr. apply Forall_app in Hc as [Hc _].
  split; [|done]. autorewrite with zlen in *. zlen_facts. lia.
Qed.

(** The subpart a failed step reports could still start a sequence. *)
Lemma trail_could_start b0 b1 trail lo hi s k :
  is_byte b0 -> lead_class b0 = Some (trail, lo, hi) -> lo <= b1 <= hi ->
  2 <= k <= trail -> trail <= 3 -> k - 2 <= zlen s ->
  Forall (fun b => 128 <= b <= 191) (ztake (k - 2) s) ->
  could_start k (b0 :: b1 :: s).
Proof.
  intros H0 Hl H1 Hk Ht Hlen Hc.
  assert ((trail = 2 /\ k = 2) \/ (trail = 3 /\ k = 2) \/ (trail = 3 /\ k = 3)) as [[-> ->]|[[-> ->]|[-> ->]]]
    by lia.
  - destruct (lead_class_3 b0 b1 128 lo hi) as (cp & Hcp & E); try done; try lia.
    exists cp. split; [done|]. rewrite <- E. by exists [128].
  - destruct (lead_class_4 b0 b1 128 128 lo hi) as (cp & Hcp & E); try done; try lia.
    exists cp. split; [done|]. rewrite <- E. by exists [128; 128].
  - destruct s as [|b2 s]; [zlia|]. change (ztake (3 - 2) (b2 :: s)) with [b2] in Hc.
    rewrite Forall_singleton in Hc.
    destruct (lead_class_4 b0 b1 b2 128 lo hi) as (cp & Hcp & E); try done; try lia.
    exists cp. split; [done|]. rewrite <- E. by exists [128].
Qed.

(** The answer of a failed step, by the table. *)
Lemma step_false_spec s k :
  Forall is_byte s -> ccol_utf8_step s = Some (false, k) ->
  1 <= k <= zlen s /\ (1 < k -> could_start k s) /\
  (forall n, k < n <= zlen s -> ~ could_start n s).
Proof.
  intros Hs. destruct s as [|b0 s]; [done|]. apply Forall_cons in Hs as [H0 Hs].
  cbn [ccol_utf8_step]. rewrite zlen_cons. zlen_facts.
  destruct (Z.ltb_spec b0 128) as [|Hge]; [done|].
  destruct s as [|b1 s].
  { change (zget [b0] 1) with (@None Z). rewrite zlen_nil.
    destruct (lead_class b0) as [[[trail lo] hi]|]; intros [= <-]; repeat split; lia. }
  rewrite zlen_cons in *. change (zget (b0 :: b1 :: s) 1) with (Some b1). cbv beta iota zeta.
  assert (forall n, 1 < n <= 1 + (1 + zlen s) -> could_start n (b0 :: b1 :: s) ->
    exists trail lo hi, lead_class b0 = Some (trail, lo, hi) /\ lo <= b1 <= hi /\
      n <= trail + 1 /\ Forall (fun b => 128 <= b <= 191) (ztake (n - 2) s)) as Hinv.
  { intros n Hn Hc. apply could_start_inv in Hc; [tauto|]. rewrite !zlen_cons. lia. }
  destruct (lead_class b0) as [[[trail lo] hi]|] eqn:Hl.
  2:{ intros [= <-]. repeat split; try lia.
      intros n Hn Hc. destruct (Hinv n Hn Hc) as (? & ? & ? & ? & _). done. }
  assert (1 <= trail <= 3) as Ht by (unfold lead_class in Hl; byte_cases; simplify_eq; lia).
  rewrite Z.gtb_ltb. destruct (Z.ltb_spec b1 lo), (Z.ltb_spec hi b1); cbn [orb];
    try (intros [= <-]; repeat split; try lia; intros n Hn Hc;
         destruct (Hinv n Hn Hc) as (? & ? & ? & ? & ? & _); simplify_eq; lia).
  pose proof (check_trail_spec b0 b1 trail s Ht) as Hct.
  destruct (check_trail _ _ _ _) as [[|] k']; intros [= <-].
  destruct Hct as (Hk & Hlen & Hc & Hbad). repeat split; try lia.
  - intros _. eapply (trail_could_start b0 b1 trail lo hi); try done; lia.
  - intros n Hn Hcs. destruct (Hinv n ltac:(lia) Hcs) as (? & ? & ? & ? & ? & Hnt & Hall). simplify_eq.
    destruct (zget_is_Some s (k' - 2)) as [b Hb]; [lia|]. apply (Hbad b Hb).
    rewrite Forall_forall in Hall. apply Hall. unfold zget in Hb. destruct (0 <=? k' - 2); [|done].
    apply (list_elem_of_lookup_2 _ (Z.to_nat (k' - 2))). unfold ztake. by rewrite lookup_take_lt by lia.
Qed.
End Utf8.

(** ** Properties *)

(** C23: [ccol_utf8_is_valid] and [ccol_utf8_first_ill_formed] terminate on
    every byte string.  The first answers true exactly for the concatenations
    of encoded Unicode scalar values (so overlong forms, surrogates and values
    past U+10FFFF are all refused); the second gives the end of the longest
    run of whole sequences, where the next step fails, and the length exactly
    when the string is valid. *)
Theorem utf8_valid_iff (s : list Z) :
  Forall is_byte s ->
  exists i, Utf8.ccol_utf8_first_ill_formed s = Some i /\ 0 <= i <= zlen s /\
    Utf8.well_formed (ztake i s) /\
    (i < zlen s -> exists k, Utf8.ccol_utf8_step (zdrop i s) = Some (false, k)) /\
    Utf8.ccol_utf8_is_valid s = Some (i =? zlen s) /\
    (Utf8.ccol_utf8_is_valid s = Some true <-> Utf8.well_formed s).
Proof.
  intros Hs.
  destruct (Utf8.first_ill_formed_from_spec (S (length s)) s 0 Hs ltac:(lia))
    as (i & E1 & Hi & Hw & Hbad & E2).
  exists i. unfold Utf8.ccol_utf8_first_ill_formed, Utf8.ccol_utf8_is_valid. rewrite E1, E2.
  repeat split; try done; try lia; [naive_solver|..].
  - intros [= E]. apply Z.eqb_eq in E as ->. by rewrite ztake_all in Hw.
  - intros Hall. f_equal. apply Z.eqb_eq.
    destruct (Z_lt_le_dec i (zlen s)); [|lia]. naive_solver.
Qed.

Example utf8_valid_iff_witness :
  exists i, Utf8.ccol_utf8_first_ill_formed [65; 226; 130; 172; 237; 160; 128] = Some i /\
    0 <= i <= zlen [65; 226; 130; 172; 237; 160; 128] /\
    Utf8.well_formed (ztake i [65; 226; 130; 172; 237; 160; 128]) /\
    (i < zlen [65; 226; 130; 172; 237; 160; 128] ->
       exists k, Utf8.ccol_utf8_step (zdrop i [65; 226; 130; 172; 237; 160; 128]) = Some (false, k)) /\
    Utf8.ccol_utf8_is_valid [65; 226; 130; 172; 237; 160; 128] =
      Some (i =? zlen [65; 226; 130; 172; 237; 160; 128]) /\
    (Utf8.ccol_utf8_is_valid [65; 226; 130; 172; 237; 160; 128] = Some true <->
     Utf8.well_formed [65; 226; 130; 172; 237; 160; 128]).
Proof. apply utf8_valid_iff. repeat constructor; unfold is_byte; lia. Defined.

(** The surrogate of the example above is refused; the Euro sign is accepted. *)
Example utf8_surrogate : Utf8.ccol_utf8_first_ill_formed [65; 226; 130; 172; 237; 160; 128] = Some 4.
Proof. vm_compute. reflexivity. Qed.

(** When a sequence is ill formed, [ccol_utf8_step] gives the length of
    its maximal subpart, the unit "U+FFFD Substitution of Maximal Subparts"
    replaces: a length within the buffer that could still start the encoding
    of a scalar value (or one byte when none could), and that no longer prefix
    of the buffer could. *)
Theorem utf8_maximal_subpart (s : list Z) (k : Z) :
  Forall is_byte s -> Utf8.ccol_utf8_step s = Some (false, k) ->
  1 <= k <= zlen s /\ (1 < k -> Utf8.could_start k s) /\
  (forall n, k < n <= zlen s -> ~ Utf8.could_start n s).
Proof. apply Utf8.step_false_spec. Qed.

Example utf8_maximal_subpart_witness :
  1 <= 3 <= zlen [240; 159; 152; 65] /\ (1 < 3 -> Utf8.could_start 3 [240; 159; 152; 65]) /\
  (forall n, 3 < n <= zlen [240; 159; 152; 65] -> ~ Utf8.could_start n [240; 159; 152; 65]).
Proof.
  apply utf8_maximal_subpart; [repeat constructor; unfold is_byte; lia|vm_compute; reflexivity].
Defined.
