(* ===== verification/CSort.v ===== *)
(** * The stable merge sort ([src/csort.c])

    The two sort drivers of the library over a collection of elements of an
    arbitrary type: [___csort_merge_sort], which reads and writes the
    collection through the caller's getter and copies both runs of a merge
    out, and [_csort_merge_sort_contiguous], which [cvector] uses and which
    copies out the left run only.  A collection is the list of its elements;
    the getter gives the address of the element at an index, so a store
    through it replaces that element.  The temporary buffer holds one cell per
    element, [None] until it is written. *)
From S2P Require Import Prelude Memory Values.

(** ** Default comparison procedures *)
Module Default.


End Default.

(** ** The merge sort *)
Inductive csort_buffer_outcome :=
  | csort_buffer_ready | csort_buffer_not_needed | csort_buffer_refused.

Section Sort.
Context {alloc : Allocator}.
Context {A : Type}.
Variable comparison_proc : A -> A -> Z.

(** [memcpy(&temp_buffer[i], &col[s], elem_size)] and its reverse. *)
Definition temp_put (temp : list (option A)) (i : Z) (x : A) : M (list (option A)) :=
  ub (zset temp i (Some x)).
Definition temp_get (temp : list (option A)) (i : Z) : M A :=
  x ← ub (zget temp i); ub x.

(** Copies [n] elements of [col] from [from] into the buffer from [at]. *)
Definition copy_to_temp (col : list A) (from n pos : Z) (temp : list (option A))
    : M (list (option A)) :=
  '(_, temp) ← while (Z.to_nat n + 1) (fun '(i, _) => i <? n)
    (fun '(i, temp) =>
      src ← ub (zget col (from ⊕ i));
      temp ← temp_put temp (pos ⊕ i) src;
      mret (i ⊕ 1, temp))
    (0, temp);
  mret temp.

(** Copies the buffer cells [i .. hi) back to [col] from [k]. *)
Definition copy_rest (temp : list (option A)) (hi : Z) (i k : Z) (col : list A)
    : M (Z * Z * list A) :=
  while (Z.to_nat (hi - i) + 1) (fun '(i, k, _) => i <? hi)
    (fun '(i, k, col) =>
      src ← temp_get temp i;
      col ← ub (zset col k src);
      mret (i ⊕ 1, k ⊕ 1, col))
    (i, k, col).

Definition csort_merge (col : list A) (left mid right : Z) (temp : list (option A))
    : M (list A * list (option A)) :=
  let n1 := (mid ⊖ left) ⊕ 1 in
  let n2 := right ⊖ mid in
  temp ← copy_to_temp col left n1 0 temp;
  temp ← copy_to_temp col (mid ⊕ 1) n2 n1 temp;
  '(i, j, k, col) ←
    while (Z.to_nat (n1 + n2) + 1)
      (fun '(i, j, _, _) => (i <? n1) && (j <? n1 ⊕ n2))
      (fun '(i, j, k, col) =>
        elem_i ← temp_get temp i;
        elem_j ← temp_get temp j;
        if comparison_proc elem_i elem_j <=? 0
        then col ← ub (zset col k elem_i); mret (i ⊕ 1, j, k ⊕ 1, col)
        else col ← ub (zset col k elem_j); mret (i, j ⊕ 1, k ⊕ 1, col))
      (0, n1, left, col);
  '(_, k, col) ← copy_rest temp n1 i k col;
  '(_, _, col) ← copy_rest temp (n1 ⊕ n2) j k col;
  mret (col, temp).

(** [mprocs_ok] is the answer of [_ccol_verify_memmgmt_procs]. *)
Definition csort_check_sort_shape (length elem_size : Z) (mprocs_ok : bool)
    : csort_buffer_outcome :=
  if length >? ccol_max_elem_count then csort_buffer_refused
  else if elem_size =? 0 then csort_buffer_not_needed
  else if length >? SIZE_MAX `div` elem_size then csort_buffer_refused
  else if negb mprocs_ok then csort_buffer_refused
  else csort_buffer_ready.

(** The passes of both drivers: [merge_step] is the merge they call. *)
Definition bottom_up {T} (merge_step : list A -> Z -> Z -> Z -> T -> M (list A * T))
    (low high length : Z) (col : list A) (temp : T) : M (list A * T) :=
  '(_, col, temp) ←
    while 65 (fun '(curr_size, _, _) => curr_size <? length)
      (fun '(curr_size, col, temp) =>
        '(col, temp) ←
          loop (Z.to_nat length + 1)
            (fun '(left_start, col, temp) =>
              if negb (left_start <=? high) then mret (inr (col, temp)) else
              let mid := (left_start ⊕ curr_size) ⊖ 1 in
              if mid >=? high then mret (inr (col, temp)) else
              let right_end := (left_start ⊕ (2 ⊗ curr_size)) ⊖ 1 in
              let right_end := if right_end >? high then high else right_end in
              '(col, temp) ← merge_step col left_start mid right_end temp;
              mret (inl (left_start ⊕ (2 ⊗ curr_size), col, temp)))
            (low, col, temp);
        mret (curr_size ⊗ 2, col, temp))
      (1, col, temp);
  mret (col, temp).

Definition csort_mergesort_iterative (col : list A) (low high elem_size : Z)
    (mprocs_ok : bool) : M (bool * list A) :=
  if low >=? high then mret (true, col) else
  let length := (high ⊖ low) ⊕ 1 in
  match csort_check_sort_shape length elem_size mprocs_ok with
  | csort_buffer_not_needed => mret (true, col)
  | csort_buffer_refused => mret (false, col)
  | csort_buffer_ready =>
      temp_buffer ← _ccol_mem_alloc (length ⊗ elem_size);
      match temp_buffer with
      | None => mret (false, col)
      | Some b =>
          let cells := replicate (Z.to_nat length) None in
          '(col, _) ← bottom_up csort_merge low high length col cells;
          _ ← _ccol_mem_free (b_id b);
          mret (true, col)
      end
  end.

(** The public entry point: [None] is a NULL collection; [procs_given] says
    that the getter and the comparator are both given. *)
Definition ___csort_merge_sort (col : option (list A)) (length elem_size : Z)
    (procs_given mprocs_ok : bool) : M (bool * option (list A)) :=
  match col with
  | None => mret (true, None)
  | Some l =>
      if (length =? 0) || (length =? 1) then mret (true, col) else
      if negb procs_given then _ ← _ccol_assert false; mret (false, col) else
      '(r, l) ← csort_mergesort_iterative l 0 (length ⊖ 1) elem_size mprocs_ok;
      mret (r, Some l)
  end.

(** ** The contiguous driver

    [l] and [r] index the saved left run and the array, [out] the array: the
    pointers of the C code divided by the element size. *)
Definition csort_merge_contiguous (base : list A) (left mid right : Z)
    (temp : list (option A)) : M (list A * list (option A)) :=
  let l_end := (mid ⊖ left) ⊕ 1 in
  temp ← copy_to_temp base left l_end 0 temp;
  let r_end := right ⊕ 1 in
  '(l, r, out, base) ←
    while (Z.to_nat (r_end - left) + 1)
      (fun '(l, r, _, _) => (l <? l_end) && (r <? r_end))
      (fun '(l, r, out, base) =>
        elem_l ← temp_get temp l;
        elem_r ← ub (zget base r);
        if comparison_proc elem_l elem_r <=? 0
        then base ← ub (zset base out elem_l); mret (l ⊕ 1, r, out ⊕ 1, base)
        else base ← ub (zset base out elem_r); mret (l, r ⊕ 1, out ⊕ 1, base))
      (0, mid ⊕ 1, left, base);
  (* if (l < l_end) memcpy(out, l, l_end - l) *)
  '(_, _, base) ← copy_rest temp l_end l out base;
  mret (base, temp).

Definition csort_contiguous_passes (base : list A) (length : Z)
    (temp : list (option A)) : M (list A * list (option A)) :=
  bottom_up csort_merge_contiguous 0 (length ⊖ 1) length base temp.

Definition _csort_merge_sort_contiguous (base : option (list A)) (length elem_size : Z)
    (proc_given mprocs_ok : bool) : M (bool * option (list A)) :=
  match base with
  | None => mret (true, None)
  | Some l =>
      if length <? 2 then mret (true, base) else
      if negb proc_given then _ ← _ccol_assert false; mret (false, base) else
      match csort_check_sort_shape length elem_size mprocs_ok with
      | csort_buffer_not_needed => mret (true, base)
      | csort_buffer_refused => mret (false, base)
      | csort_buffer_ready =>
          temp_buffer ← _ccol_mem_alloc (length ⊗ elem_size);
          match temp_buffer with
          | None => mret (false, base)
          | Some b =>
              let cells := replicate (Z.to_nat length) None in
              '(l, _) ← csort_contiguous_passes l length cells;
              _ ← _ccol_mem_free (b_id b);
              mret (true, Some l)
          end
      end
  end.
End Sort.


(** ** The reference: stable insertion sort *)
Section Reference.
Context {A : Type} (cmp : A -> A -> Z).

Fixpoint insert_sorted (x : A) (l : list A) : list A :=
  match l with
  | [] => [x]
  | y :: l' => if cmp x y <=? 0 then x :: l else y :: insert_sorted x l'
  end.

Fixpoint stable_sort (l : list A) : list A :=
  match l with [] => [] | x :: l' => insert_sorted x (stable_sort l') end.

Fixpoint merge (a b : list A) : list A :=
  let fix go b :=
    match a, b with
    | [], _ => b
    | _, [] => a
    | x :: a', y :: b' => if cmp x y <=? 0 then x :: merge a' b else y :: go b'
    end in go b.

(** [a] comes no later than [b]. *)
Definition cmp_le (a b : A) : Prop := cmp a b <= 0.

Lemma merge_nil_r a : merge a [] = a.
Proof. by destruct a. Qed.
Lemma merge_nil_l b : merge [] b = b.
Proof. by destruct b. Qed.
Lemma merge_cons x a y b :
  merge (x :: a) (y :: b) =
  if cmp x y <=? 0 then x :: merge a (y :: b) else y :: merge (x :: a) b.
Proof. done. Qed.

Lemma merge_perm a b : merge a b ≡ₚ a ++ b.
Proof.
  revert b. induction a as [|x a IHa]; intros b; [by rewrite merge_nil_l|].
  induction b as [|y b IHb]; [by rewrite merge_nil_r, app_nil_r|].
  rewrite merge_cons. zcase; [by rewrite IHa|].
  rewrite IHb. by rewrite <- Permutation_middle.
Qed.

Lemma zlen_merge a b : zlen (merge a b) = zlen a + zlen b.
Proof. unfold zlen. rewrite (merge_perm a b), length_app. lia. Qed.

Lemma insert_sorted_perm x l : insert_sorted x l ≡ₚ x :: l.
Proof.
  induction l as [|y l IH]; [done|]. cbn. zcase; [done|].
  rewrite IH. apply Permutation_swap.
Qed.
Lemma stable_sort_perm l : stable_sort l ≡ₚ l.
Proof. induction l as [|x l IH]; [done|]. cbn. by rewrite insert_sorted_perm, IH. Qed.
Lemma zlen_stable_sort l : zlen (stable_sort l) = zlen l.
Proof. unfold zlen. by rewrite stable_sort_perm. Qed.

Context `{!TotalCmp cmp}.

#[export] Instance cmp_le_trans : Transitive cmp_le.
Proof. intros ???. apply cmp_trans. Qed.

Lemma insert_sorted_sorted x l :
  StronglySorted cmp_le l -> StronglySorted cmp_le (insert_sorted x l).
Proof.
  induction 1 as [|y l Hl IH Hy]; cbn; [by repeat constructor|].
  destruct (Z.leb_spec (cmp x y) 0) as [Hxy|Hxy].
  - constructor; [by constructor|]. constructor; [done|].
    eapply Forall_impl; [done|]. intros z Hz. by etrans.
  - constructor; [done|]. rewrite insert_sorted_perm. constructor; [|done].
    unfold cmp_le. pose proof (cmp_flip y x). lia.
Qed.

Lemma stable_sort_sorted l : StronglySorted cmp_le (stable_sort l).
Proof. induction l; [constructor|]. by apply insert_sorted_sorted. Qed.

(** Merging commutes with inserting an element that precedes all of the
    left run's equals: the core of stability. *)
Lemma merge_insert_sorted x a b :
  StronglySorted cmp_le a -> StronglySorted cmp_le b ->
  merge (insert_sorted x a) b = insert_sorted x (merge a b).
Proof.
  intros Ha. revert b. induction Ha as [|y a Ha IHa Hy]; intros b Hb.
  - rewrite merge_nil_l. cbn [insert_sorted].
    induction Hb as [|z b Hb IHb Hz]; [done|].
    rewrite merge_cons. cbn [insert_sorted]. zcase; [by rewrite merge_nil_l|].
    by rewrite IHb.
  - induction Hb as [|z b Hb IHb Hz]; [by rewrite !merge_nil_r|].
    cbn [insert_sorted] in *.
    destruct (Z.leb_spec (cmp x y) 0) as [Hxy|Hxy].
    + rewrite !merge_cons. destruct (Z.leb_spec (cmp y z) 0) as [Hyz|Hyz].
      * assert (cmp x z <= 0) by (by eapply cmp_trans).
        zcase; [|lia]. cbn [insert_sorted]. zcase; [|lia]. done.
      * cbn [insert_sorted]. zcase; [done|]. by rewrite IHb.
    + rewrite !merge_cons. destruct (Z.leb_spec (cmp y z) 0) as [Hyz|Hyz].
      * cbn [insert_sorted]. zcase; [lia|]. by rewrite IHa by (by constructor).
      * cbn [insert_sorted]. zcase; [|by rewrite IHb].
        pose proof (cmp_flip z y). pose proof (cmp_flip y x).
        assert (cmp x y <= 0) by (eapply (cmp_trans x z); lia). lia.
Qed.

Lemma merge_stable_sort a b : merge (stable_sort a) (stable_sort b) = stable_sort (a ++ b).
Proof.
  induction a as [|x a IH]; [by rewrite merge_nil_l|]. cbn.
  rewrite merge_insert_sorted by apply stable_sort_sorted. by rewrite IH.
Qed.

(** The elements equal to [x] keep their order. *)
Definition equal_to (x : A) (l : list A) : list A := filter (fun y => cmp x y = 0) l.

Lemma insert_sorted_equal x y l :
  StronglySorted cmp_le l -> equal_to x (insert_sorted y l) = equal_to x (y :: l).
Proof.
  induction 1 as [|z l Hl IH Hz]; [done|]. cbn [insert_sorted].
  destruct (Z.leb_spec (cmp y z) 0) as [Hyz|Hyz]; [done|].
  unfold equal_to in *. rewrite filter_cons, IH, !filter_cons.
  destruct (decide (cmp x z = 0)) as [Hxz|], (decide (cmp x y = 0)) as [Hxy|]; [|done..].
  assert (cmp y z = 0); [|lia].
  eapply (cmp_eq_trans cmp y x); [|done]. by apply cmp_eq_sym.
Qed.

Lemma stable_sort_stable x l : equal_to x (stable_sort l) = equal_to x l.
Proof.
  induction l as [|y l IH]; [done|]. cbn [stable_sort].
  rewrite insert_sorted_equal by apply stable_sort_sorted.
  unfold equal_to in *. rewrite !filter_cons, IH. done.
Qed.

(** [runs n l]: [l] cut into pieces of [n] elements, each sorted. *)
Fixpoint runs_fuel (fuel : nat) (n : Z) (l : list A) : list A :=
  match fuel with
  | O => l
  | S fuel' =>
      match l with
      | [] => []
      | _ => stable_sort (ztake n l) ++ runs_fuel fuel' n (zdrop n l)
      end
  end.
Definition runs (n : Z) (l : list A) : list A := runs_fuel (length l) n l.

Lemma runs_fuel_enough k1 k2 n l :
  1 <= n -> (length l <= k1)%nat -> (length l <= k2)%nat ->
  runs_fuel k1 n l = runs_fuel k2 n l.
Proof.
  intros Hn. revert k2 l. induction k1 as [|k1 IH]; intros [|k2] [|x l] H1 H2;
    cbn in H1, H2; try lia; try done.
  cbn [runs_fuel]. f_equal. apply IH; unfold zdrop; rewrite length_drop; cbn; lia.
Qed.

Lemma runs_nil n : runs n [] = [].
Proof. done. Qed.
Lemma runs_unfold n l :
  1 <= n -> runs n l = stable_sort (ztake n l) ++ runs n (zdrop n l).
Proof.
  intros Hn. unfold runs, ztake, zdrop.
  destruct l as [|x l]; [by rewrite take_nil, drop_nil|].
  cbn [length runs_fuel]. f_equal.
  apply runs_fuel_enough; [done| |done].
  rewrite length_drop. cbn. lia.
Qed.
Lemma runs_short n l : 1 <= n -> zlen l <= n -> runs n l = stable_sort l.
Proof.
  intros. rewrite runs_unfold, ztake_all, zdrop_all, runs_nil, app_nil_r by done. done.
Qed.
Lemma runs_1 l : runs 1 l = l.
Proof.
  induction l as [|x l IH]; [done|]. rewrite runs_unfold by lia.
  change (ztake 1 (x :: l)) with [x]. change (zdrop 1 (x :: l)) with l.
  by rewrite IH.
Qed.
Lemma zlen_runs n l : 1 <= n -> zlen (runs n l) = zlen l.
Proof.
  intros Hn. unfold runs. generalize (Nat.le_refl (length l)).
  generalize (length l) at 2 3. intros k. revert l.
  induction k as [|k IH]; intros [|x l] Hk; cbn in Hk; try done; try lia.
  cbn [runs_fuel]. rewrite zlen_app, zlen_stable_sort, IH.
  - rewrite <- (ztake_zdrop n (x :: l)) at 3. by rewrite zlen_app.
  - unfold zdrop. rewrite length_drop. cbn. lia.
Qed.
(** One merge of a pass: two runs of [n] become one of [2 * n]. *)
Lemma runs_merge n l :
  1 <= n ->
  merge (stable_sort (ztake n l)) (stable_sort (ztake n (zdrop n l))) =
  stable_sort (ztake (2 * n) l).
Proof.
  intros. rewrite merge_stable_sort. f_equal. unfold ztake, zdrop.
  rewrite take_take_drop. f_equal. lia.
Qed.
End Reference.

(** ** Correctness of the merges *)
Section MergeCorrect.
Context {alloc : Allocator} {A : Type} (cmp : A -> A -> Z).

(** [copy_to_temp] moves a run into the buffer. *)
Lemma wp_copy_to_temp (c1 c2 c3 : list A) t1 t2 t3 from n pos m (Q : _ -> _ -> Prop) :
  from = zlen c1 -> n = zlen c2 -> pos = zlen t1 -> zlen t2 = n ->
  zlen (c1 ++ c2 ++ c3) <= ccol_max_elem_count ->
  zlen (t1 ++ t2 ++ t3) <= ccol_max_elem_count ->
  Q (t1 ++ (Some <$> c2) ++ t3) m ->
  wp (copy_to_temp (c1 ++ c2 ++ c3) from n pos (t1 ++ t2 ++ t3)) m Q.
Proof.
  unfold ccol_max_elem_count. intros -> -> -> Ht Hc Htl HQ. unfold copy_to_temp. apply wp_bind.
  apply (wp_while
    (fun '(i, temp) m' => m' = m /\ exists d r t, c2 = d ++ r /\ i = zlen d /\
       zlen t = zlen r /\ temp = t1 ++ (Some <$> d) ++ t ++ t3)
    (fun '(i, _) => Z.to_nat (zlen c2 - i))).
  - intros [i temp] m' (-> & d & r & t & -> & -> & Htr & ->) Hlt. zbool.
    destruct r as [|x r]; [zlia|]. destruct t as [|y t]; [zlia|].
    autorewrite with zlen in *. zlen_facts. sz. wp_pure.
    eapply wp_ub; [apply (zget_mid (c1 ++ d) x (r ++ c3)); [app_eq|zlia]|]. wp_pure.
    unfold temp_put. eapply wp_ub.
    { apply (zset_mid (t1 ++ (Some <$> d)) y (t ++ t3)); [app_eq|zlia|reflexivity]. }
    wp_pure. split; [|zlia]. split; [done|].
    exists (d ++ [x]), r, t. repeat split; [app_eq|zlia|zlia|app_eq].
  - intros [i temp] m' (-> & d & r & t & -> & -> & Htr & ->) Hge. zbool.
    assert (r = []) as -> by (apply zlen_0_nil; zlia).
    assert (t = []) as -> by (apply zlen_0_nil; zlia).
    wp_pure. by rewrite app_nil_r in *.
  - split; [done|]. by exists [], c2, t2.
  - zlia.
Qed.

(** [copy_rest] writes the remaining cells of a run back. *)
Lemma wp_copy_rest (t1 : list (option A)) (b : list A) t2 c1 c2 c3 hi i k m (Q : _ -> _ -> Prop) :
  i = zlen t1 -> hi = i + zlen b -> k = zlen c1 -> zlen c2 = zlen b ->
  zlen (t1 ++ (Some <$> b) ++ t2) <= ccol_max_elem_count ->
  zlen (c1 ++ c2 ++ c3) <= ccol_max_elem_count ->
  Q (hi, k + zlen b, c1 ++ b ++ c3) m ->
  wp (copy_rest (t1 ++ (Some <$> b) ++ t2) hi i k (c1 ++ c2 ++ c3)) m Q.
Proof.
  unfold ccol_max_elem_count. intros -> -> -> Hc Ht Hcl HQ. unfold copy_rest.
  apply (wp_while
    (fun '(i, k, col) m' => m' = m /\ exists d r c, b = d ++ r /\ i = zlen t1 + zlen d /\
       k = zlen c1 + zlen d /\ zlen c = zlen r /\ col = c1 ++ d ++ c ++ c3)
    (fun '(i, _, _) => Z.to_nat (zlen t1 + zlen b - i))).
  - intros [[i k] col] m' (-> & d & r & c & -> & -> & -> & Hcr & ->) Hlt. zbool.
    destruct r as [|x r]; [zlia|]. destruct c as [|y c]; [zlia|].
    autorewrite with zlen in *. zlen_facts. sz. wp_pure. unfold temp_get. wp_pure.
    eapply wp_ub; [apply (zget_mid (t1 ++ (Some <$> d)) (Some x) ((Some <$> r) ++ t2)); [app_eq|zlia]|].
    wp_pure.
    eapply wp_ub; [apply (zset_mid (c1 ++ d) y (c ++ c3)); [app_eq|zlia|reflexivity]|].
    wp_pure. split; [|zlia]. split; [done|].
    exists (d ++ [x]), r, c. repeat split; [app_eq|zlia|zlia|zlia|app_eq].
  - intros [[i k] col] m' (-> & d & r & c & -> & -> & -> & Hcr & ->) Hge. zbool.
    assert (r = []) as -> by (apply zlen_0_nil; zlia).
    assert (c = []) as -> by (apply zlen_0_nil; zlia).
    rewrite app_nil_r in *. by replace (zlen t1 + zlen d) with (zlen t1 + zlen d) by lia.
  - split; [done|]. exists [], b, c2. repeat split; try done; zlia.
  - zlia.
Qed.
(** What the two merges promise to the passes: adjacent runs [a] and [b]
    are replaced by their stable merge, nothing else of the collection
    changes, and the buffer keeps its size. *)
Definition merge_step_spec
    (step : list A -> Z -> Z -> Z -> list (option A) -> M (list A * list (option A))) : Prop :=
  forall pre a b post temp m (Q : _ -> _ -> Prop),
    1 <= zlen a -> 1 <= zlen b -> zlen a + zlen b <= zlen temp ->
    zlen temp <= ccol_max_elem_count ->
    zlen (pre ++ a ++ b ++ post) <= ccol_max_elem_count ->
    (forall temp', zlen temp' = zlen temp -> Q (pre ++ merge cmp a b ++ post, temp') m) ->
    wp (step (pre ++ a ++ b ++ post) (zlen pre) (zlen pre + zlen a - 1)
             (zlen pre + zlen a + zlen b - 1) temp) m Q.

(** Splits the buffer into the cells a merge uses and the rest. *)
Lemma buffer_split (t : list (option A)) n :
  0 <= n <= zlen t -> exists t1 t2, t = t1 ++ t2 /\ zlen t1 = n.
Proof.
  intros. exists (ztake n t), (zdrop n t). rewrite ztake_zdrop. split; [done|zlia].
Qed.

(** The state of the main loop of [csort_merge]: [a1] and [b1] are merged
    into [out], [c] cells are still to be written. *)
Definition merge_inv pre a b post '(i, j, k, col) : Prop :=
  exists a1 a2 b1 b2 out c,
    a = a1 ++ a2 /\ b = b1 ++ b2 /\ i = zlen a1 /\ j = zlen a + zlen b1 /\
    k = zlen pre + zlen out /\ zlen out = zlen a1 + zlen b1 /\
    zlen c = zlen a2 + zlen b2 /\ col = pre ++ out ++ c ++ post /\
    out ++ merge cmp a2 b2 = merge cmp a b.

Ltac merge_split :=
  zbool; autorewrite with zlen in *; zlen_facts; sz.
(** Re-establishes [merge_inv] after one element moved. *)
Ltac merge_moved a1 a2 b1 b2 out c Hm :=
  sz; wp_pure; split; [|zlia]; split; [done|];
  exists a1, a2, b1, b2, out, c; rewrite <- Hm; repeat split; try app_eq; zlia.

Lemma wp_merge_loop pre a b post rest fuel m (Q : _ -> _ -> Prop) :
  zlen a + zlen b + zlen rest <= ccol_max_elem_count ->
  zlen (pre ++ a ++ b ++ post) <= ccol_max_elem_count ->
  (Z.to_nat (zlen a + zlen b) < fuel)%nat ->
  (forall i j k col, merge_inv pre a b post (i, j, k, col) ->
     zlen a <= i \/ zlen a + zlen b <= j -> Q (i, j, k, col) m) ->
  let temp := (Some <$> a) ++ (Some <$> b) ++ rest in
  wp (while fuel
      (fun '(i, j, _, _) => (i <? zlen a) && (j <? zlen a ⊕ zlen b))
      (fun '(i, j, k, col) =>
        elem_i ← temp_get temp i;
        elem_j ← temp_get temp j;
        if cmp elem_i elem_j <=? 0
        then col ← ub (zset col k elem_i); mret (i ⊕ 1, j, k ⊕ 1, col)
        else col ← ub (zset col k elem_j); mret (i, j ⊕ 1, k ⊕ 1, col))
      (0, zlen a, zlen pre, pre ++ a ++ b ++ post)) m Q.
Proof.
  intros Htmax Hmax Hfuel HQ temp. subst temp. unfold ccol_max_elem_count in *.
  apply (wp_while (fun st m' => m' = m /\ merge_inv pre a b post st)
    (fun '(i, j, _, _) => Z.to_nat (zlen a + (zlen a + zlen b) - i - j))).
  - intros [[[i j] k] col] m'
      (-> & a1 & a2 & b1 & b2 & out & c & -> & -> & -> & -> & -> & Ho & Hc & -> & Hm) Hlt.
    merge_split.
    destruct a2 as [|x a2]; [zlia|]. destruct b2 as [|y b2]; [zlia|]. destruct c as [|z c]; [zlia|].
    autorewrite with zlen in *. zlen_facts. unfold temp_get. wp_pure.
    eapply wp_ub.
    { apply (zget_mid (Some <$> a1) (Some x) ((Some <$> a2) ++ (Some <$> b1 ++ y :: b2) ++ rest));
        [app_eq|zlia]. }
    wp_pure. eapply wp_ub.
    { apply (zget_mid ((Some <$> a1 ++ x :: a2) ++ (Some <$> b1)) (Some y) ((Some <$> b2) ++ rest));
        [app_eq|zlia]. }
    wp_pure. rewrite merge_cons in Hm.
    destruct (Z.leb_spec (cmp x y) 0); wp_pure;
      (eapply wp_ub; [apply (zset_mid (pre ++ out) z (c ++ post)); [app_eq|zlia|reflexivity]|]).
    + merge_moved (a1 ++ [x]) a2 b1 (y :: b2) (out ++ [x]) c Hm.
    + merge_moved a1 (x :: a2) (b1 ++ [y]) b2 (out ++ [y]) c Hm.
  - intros [[[i j] k] col] m' [-> Hinv] Hge. apply HQ; [done|].
    zlen_facts. autorewrite with zlen in Hmax. sz.
    apply andb_false_iff in Hge. by rewrite !Z.ltb_ge in Hge.
  - split; [done|]. exists [], a, [], b, [], (a ++ b). repeat split; try app_eq; zlia.
  - zlia.
Qed.

(** After the main loop one run is used up, and copying the rest of the
    other completes the merge. *)
Lemma wp_merge_tail pre a b post rest i j k col m (Q : _ -> _ -> Prop) :
  zlen a + zlen b + zlen rest <= ccol_max_elem_count ->
  zlen (pre ++ a ++ b ++ post) <= ccol_max_elem_count ->
  merge_inv pre a b post (i, j, k, col) ->
  zlen a <= i \/ zlen a + zlen b <= j ->
  let temp := (Some <$> a) ++ (Some <$> b) ++ rest in
  Q (pre ++ merge cmp a b ++ post, temp) m ->
  wp ('(_, k, col) ← copy_rest temp (zlen a) i k col;
      '(_, _, col) ← copy_rest temp (zlen a ⊕ zlen b) j k col;
      mret (col, temp)) m Q.
Proof.
  intros Htmax Hmax (a1 & a2 & b1 & b2 & out & c & -> & -> & -> & -> & -> & Ho & Hc & -> & <-) Hend temp HQ.
  subst temp. unfold ccol_max_elem_count in *. merge_split.
  rewrite <- (ztake_zdrop (zlen a2) c).
  set (ca := ztake (zlen a2) c). set (cb := zdrop (zlen a2) c).
  assert (zlen ca = zlen a2) by (unfold ca; zlia).
  assert (zlen cb = zlen b2) by (unfold cb; zlia).
  apply wp_bind.
  replace ((Some <$> a1 ++ a2) ++ (Some <$> b1 ++ b2) ++ rest)
    with ((Some <$> a1) ++ (Some <$> a2) ++ (Some <$> b1 ++ b2) ++ rest) at 1 by app_eq.
  replace (pre ++ out ++ (ca ++ cb) ++ post) with ((pre ++ out) ++ ca ++ cb ++ post) by app_eq.
  apply wp_copy_rest; unfold ccol_max_elem_count; try zlia. apply wp_bind.
  replace ((Some <$> a1 ++ a2) ++ (Some <$> b1 ++ b2) ++ rest)
    with (((Some <$> a1 ++ a2) ++ (Some <$> b1)) ++ (Some <$> b2) ++ rest) at 1 by app_eq.
  replace ((pre ++ out) ++ a2 ++ cb ++ post) with ((pre ++ out ++ a2) ++ cb ++ post) by app_eq.
  apply wp_copy_rest; unfold ccol_max_elem_count; try zlia. apply wp_ret.
  replace ((pre ++ out ++ a2) ++ b2 ++ post) with (pre ++ (out ++ merge cmp a2 b2) ++ post); [done|].
  assert (a2 = [] \/ b2 = []) as [->| ->].
  { destruct Hend; [left|right]; apply zlen_0_nil; zlia. }
  - rewrite merge_nil_l. app_eq.
  - rewrite merge_nil_r. app_eq.
Qed.

Lemma csort_merge_spec : merge_step_spec (csort_merge cmp).
Proof.
  intros pre a b post temp m Q Ha Hb Htemp Htmax Hmax HQ.
  destruct (buffer_split temp (zlen a + zlen b)) as (t & rest & -> & Ht); [zlia|].
  destruct (buffer_split t (zlen a)) as (ta & tb & -> & Hta); [zlia|].
  unfold ccol_max_elem_count in *. autorewrite with zlen in *. zlen_facts.
  unfold csort_merge. cbv zeta.
  replace (zlen pre + zlen a - 1 ⊖ zlen pre ⊕ 1) with (zlen a) by (sz; lia).
  replace (zlen pre + zlen a + zlen b - 1 ⊖ (zlen pre + zlen a - 1)) with (zlen b) by (sz; lia).
  apply wp_bind. rewrite <- (app_assoc ta).
  change (ta ++ tb ++ rest) with ([] ++ ta ++ tb ++ rest).
  apply (wp_copy_to_temp pre a (b ++ post) [] ta (tb ++ rest));
    unfold ccol_max_elem_count; try zlia.
  cbn [app]. apply wp_bind.
  replace (pre ++ a ++ b ++ post) with ((pre ++ a) ++ b ++ post) at 1 by app_eq.
  apply (wp_copy_to_temp (pre ++ a) b post (Some <$> a) tb rest);
    unfold ccol_max_elem_count; try (sz; zlia).
  apply wp_bind. apply wp_merge_loop; unfold ccol_max_elem_count; try zlia.
  intros i j k col Hinv Hend. eapply wp_merge_tail; unfold ccol_max_elem_count; try done; try zlia.
  apply HQ. zlia.
Qed.
(** The in-place merge: [gap] is the room between the write position and
    the read position of the right run, as long as the left elements still
    waiting in the buffer. *)
Definition contiguous_inv pre a b post '(l, r, out_pos, base) : Prop :=
  exists a1 a2 b1 b2 out gap,
    a = a1 ++ a2 /\ b = b1 ++ b2 /\ l = zlen a1 /\
    r = zlen pre + zlen a + zlen b1 /\ out_pos = zlen pre + zlen out /\
    zlen out = zlen a1 + zlen b1 /\ zlen gap = zlen a2 /\
    base = pre ++ out ++ gap ++ b2 ++ post /\
    out ++ merge cmp a2 b2 = merge cmp a b.

Lemma wp_contiguous_loop pre a b post rest fuel m (Q : _ -> _ -> Prop) :
  zlen a + zlen rest <= ccol_max_elem_count ->
  zlen (pre ++ a ++ b ++ post) <= ccol_max_elem_count ->
  (Z.to_nat (zlen a + zlen b) < fuel)%nat ->
  (forall l r o base, contiguous_inv pre a b post (l, r, o, base) ->
     zlen a <= l \/ zlen pre + zlen a + zlen b <= r -> Q (l, r, o, base) m) ->
  let temp := (Some <$> a) ++ rest in
  wp (while fuel
      (fun '(l, r, _, _) => (l <? zlen a) && (r <? zlen pre + zlen a + zlen b))
      (fun '(l, r, out, base) =>
        elem_l ← temp_get temp l;
        elem_r ← ub (zget base r);
        if cmp elem_l elem_r <=? 0
        then base ← ub (zset base out elem_l); mret (l ⊕ 1, r, out ⊕ 1, base)
        else base ← ub (zset base out elem_r); mret (l, r ⊕ 1, out ⊕ 1, base))
      (0, zlen pre + zlen a, zlen pre, pre ++ a ++ b ++ post)) m Q.
Proof.
  intros Htmax Hmax Hfuel HQ temp. subst temp. unfold ccol_max_elem_count in *.
  apply (wp_while (fun st m' => m' = m /\ contiguous_inv pre a b post st)
    (fun '(l, r, _, _) => Z.to_nat (zlen a + (zlen pre + zlen a + zlen b) - l - r))).
  - intros [[[l r] o] base] m'
      (-> & a1 & a2 & b1 & b2 & out & gap & -> & -> & -> & -> & -> & Ho & Hg & -> & Hm) Hlt.
    merge_split.
    destruct a2 as [|x a2]; [zlia|]. destruct b2 as [|y b2]; [zlia|]. destruct gap as [|z gap]; [zlia|].
    autorewrite with zlen in *. zlen_facts. unfold temp_get. wp_pure. eapply wp_ub.
    { apply (zget_mid (Some <$> a1) (Some x) ((Some <$> a2) ++ rest)); [app_eq|zlia]. }
    wp_pure. eapply wp_ub.
    { apply (zget_mid (pre ++ out ++ z :: gap) y (b2 ++ post)); [app_eq|zlia]. }
    rewrite merge_cons in Hm.
    destruct (Z.leb_spec (cmp x y) 0); wp_pure;
      (eapply wp_ub; [apply (zset_mid (pre ++ out) z (gap ++ y :: b2 ++ post));
                        [app_eq|zlia|reflexivity]|]).
    + merge_moved (a1 ++ [x]) a2 b1 (y :: b2) (out ++ [x]) gap Hm.
    + merge_moved a1 (x :: a2) (b1 ++ [y]) b2 (out ++ [y]) (gap ++ [y]) Hm.
  - intros [[[l r] o] base] m' [-> Hinv] Hge. apply HQ; [done|].
    apply andb_false_iff in Hge. by rewrite !Z.ltb_ge in Hge.
  - split; [done|]. exists [], a, [], b, [], a. repeat split; try app_eq; zlia.
  - zlia.
Qed.

Lemma wp_contiguous_tail pre a b post rest l r o base m (Q : _ -> _ -> Prop) :
  zlen a + zlen rest <= ccol_max_elem_count ->
  zlen (pre ++ a ++ b ++ post) <= ccol_max_elem_count ->
  contiguous_inv pre a b post (l, r, o, base) ->
  zlen a <= l \/ zlen pre + zlen a + zlen b <= r ->
  let temp := (Some <$> a) ++ rest in
  Q (pre ++ merge cmp a b ++ post, temp) m ->
  wp ('(_, _, base) ← copy_rest temp (zlen a) l o base; mret (base, temp)) m Q.
Proof.
  intros Htmax Hmax (a1 & a2 & b1 & b2 & out & gap & -> & -> & -> & -> & -> & Ho & Hg & -> & <-) Hend temp HQ.
  subst temp. unfold ccol_max_elem_count in *. merge_split.
  apply wp_bind.
  replace ((Some <$> a1 ++ a2) ++ rest)
    with ((Some <$> a1) ++ (Some <$> a2) ++ rest) at 1 by app_eq.
  replace (pre ++ out ++ gap ++ b2 ++ post) with ((pre ++ out) ++ gap ++ b2 ++ post) by app_eq.
  apply wp_copy_rest; unfold ccol_max_elem_count; try zlia. apply wp_ret.
  replace ((pre ++ out) ++ a2 ++ b2 ++ post) with (pre ++ (out ++ merge cmp a2 b2) ++ post); [done|].
  assert (a2 = [] \/ b2 = []) as [->| ->].
  { destruct Hend; [left|right]; apply zlen_0_nil; zlia. }
  - rewrite merge_nil_l. app_eq.
  - rewrite merge_nil_r. app_eq.
Qed.

Lemma csort_merge_contiguous_spec : merge_step_spec (csort_merge_contiguous cmp).
Proof.
  intros pre a b post temp m Q Ha Hb Htemp Htmax Hmax HQ.
  destruct (buffer_split temp (zlen a)) as (ta & rest & -> & Hta); [zlia|].
  unfold ccol_max_elem_count in *. autorewrite with zlen in *. zlen_facts.
  unfold csort_merge_contiguous. cbv zeta.
  replace (zlen pre + zlen a - 1 ⊖ zlen pre ⊕ 1) with (zlen a) by (sz; lia).
  replace (zlen pre + zlen a + zlen b - 1 ⊕ 1) with (zlen pre + zlen a + zlen b) by (sz; lia).
  replace (zlen pre + zlen a - 1 ⊕ 1) with (zlen pre + zlen a) by (sz; lia).
  apply wp_bind. change (ta ++ rest) with ([] ++ ta ++ rest).
  apply (wp_copy_to_temp pre a (b ++ post) [] ta rest); unfold ccol_max_elem_count; try zlia.
  cbn [app]. apply wp_bind.
  apply wp_contiguous_loop; unfold ccol_max_elem_count; try zlia.
  intros l r o base Hinv Hend.
  eapply wp_contiguous_tail; unfold ccol_max_elem_count; try done; try zlia.
  apply HQ. zlia.
Qed.

(** ** The passes *)
Context `{!TotalCmp cmp}.

(** The state of a pass with runs of [n] elements: [out] is already in runs
    of [2 * n], the rest [l'] still in runs of [n]. *)
Definition pass_inv (n : Z) (l0 : list A) (ls : Z) (col : list A) : Prop :=
  exists out l', col = out ++ runs cmp n l' /\
    out ++ runs cmp (2 * n) l' = runs cmp (2 * n) l0 /\
    zlen out + zlen l' = zlen l0 /\
    (ls = zlen out \/ (l' = [] /\ zlen l0 <= ls)).

Lemma pass_inv_init n l0 : pass_inv n l0 0 (runs cmp n l0).
Proof. exists [], l0. repeat split; auto. Qed.

(** Nothing is left to merge when the second run would be empty. *)
Lemma pass_inv_end n l0 ls col :
  1 <= n -> pass_inv n l0 ls col -> zlen l0 <= ls + n -> col = runs cmp (2 * n) l0.
Proof.
  intros Hn (out & l' & -> & <- & Hlen & Hls) Hend. f_equal.
  destruct Hls as [->|[-> _]]; [|done].
  by rewrite !runs_short by lia.
Qed.

Lemma pass_inv_step step n l0 ls col temp m (Q : _ -> _ -> Prop) :
  merge_step_spec step -> 1 <= n -> 0 <= ls -> ls + n < zlen l0 ->
  zlen l0 <= zlen temp -> zlen temp <= ccol_max_elem_count ->
  pass_inv n l0 ls col ->
  (forall col' temp', pass_inv n l0 (ls + 2 * n) col' -> zlen temp' = zlen temp ->
     Q (col', temp') m) ->
  wp (step col ls (ls + n - 1) (Z.min (ls + 2 * n - 1) (zlen l0 - 1)) temp) m Q.
Proof.
  intros Hstep Hn Hls Hend Ht Htmax (out & l' & -> & Hout & Hlen & Hpos) HQ.
  destruct Hpos as [->|[-> Hpos]]; [|zlia].
  pose proof (runs_unfold cmp n l' ltac:(lia)) as E1.
  pose proof (runs_unfold cmp n (zdrop n l') ltac:(lia)) as E2.
  rewrite zdrop_zdrop in E2 by lia.
  set (a := stable_sort cmp (ztake n l')) in *.
  set (b := stable_sort cmp (ztake n (zdrop n l'))) in *.
  assert (zlen a = n) by (unfold a; rewrite zlen_stable_sort; zlia).
  assert (zlen b = Z.min n (zlen l' - n)) by (unfold b; rewrite zlen_stable_sort; zlia).
  rewrite E1, E2.
  replace (zlen out + n - 1) with (zlen out + zlen a - 1) by lia.
  replace (Z.min (zlen out + 2 * n - 1) (zlen l0 - 1)) with (zlen out + zlen a + zlen b - 1) by lia.
  apply Hstep; try lia.
  { rewrite <- E2, <- E1. rewrite zlen_app, zlen_runs by lia. lia. }
  intros temp' Htemp'. apply HQ; [|done].
  assert (merge cmp a b = stable_sort cmp (ztake (2 * n) l')) as Hm by (apply runs_merge; [done|lia]).
  assert (zlen (merge cmp a b) = Z.min (2 * n) (zlen l')) by (rewrite zlen_merge; lia).
  replace (n + n) with (2 * n) by lia.
  exists (out ++ merge cmp a b), (zdrop (2 * n) l'). repeat split.
  - app_eq.
  - rewrite <- app_assoc, <- Hout. f_equal. rewrite Hm. symmetry. apply runs_unfold. lia.
  - zlia.
  - rewrite zlen_app. destruct (Z_le_gt_dec (2 * n) (zlen l')); [left; lia|right].
    split; [apply zdrop_all; lia|lia].
Qed.
(** The inner loop of a pass, as it stands in [bottom_up]. *)
Lemma wp_pass step n l0 temp m (Q : _ -> _ -> Prop) :
  merge_step_spec step -> 1 <= n <= 2 ^ 62 -> n < zlen l0 ->
  zlen l0 <= zlen temp -> zlen l0 <= ccol_max_elem_count -> zlen temp <= ccol_max_elem_count ->
  (forall temp', zlen temp' = zlen temp -> Q (runs cmp (2 * n) l0, temp') m) ->
  let high := zlen l0 - 1 in
  wp (loop (Z.to_nat (zlen l0) + 1)
        (fun '(left_start, col, temp) =>
          if negb (left_start <=? high) then mret (inr (col, temp)) else
          let mid := (left_start ⊕ n) ⊖ 1 in
          if mid >=? high then mret (inr (col, temp)) else
          let right_end := (left_start ⊕ (2 ⊗ n)) ⊖ 1 in
          let right_end := if right_end >? high then high else right_end in
          '(col, temp) ← step col left_start mid right_end temp;
          mret (inl (left_start ⊕ (2 ⊗ n), col, temp)))
        (0, runs cmp n l0, temp)) m Q.
Proof.
  intros Hstep Hn Hlt Ht Hmax Htmax HQ high. unfold high, ccol_max_elem_count in *.
  change (2 ^ 62) with 4611686018427387904 in Hn.
  apply (wp_loop
    (fun '(ls, col, t) m' => m' = m /\ 0 <= ls /\ zlen t = zlen temp /\ pass_inv n l0 ls col)
    (fun '(ls, _, _) => Z.to_nat (zlen l0 - ls))).
  - intros [[ls col] t] m' (-> & Hls & Htl & Hinv).
    destruct (Z.leb_spec ls (zlen l0 - 1)) as [Hle|Hle]; cbn [negb].
    2:{ apply wp_ret. rewrite (pass_inv_end n l0 ls col) by (done || lia). by apply HQ. }
    sz. rewrite Z.geb_leb, Z.gtb_ltb.
    destruct (Z.leb_spec (zlen l0 - 1) (ls + n - 1)) as [He|He].
    + apply wp_ret. rewrite (pass_inv_end n l0 ls col) by (done || lia). by apply HQ.
    + apply wp_bind. sz. replace (if zlen l0 - 1 <? ls + 2 * n - 1 then zlen l0 - 1 else ls + 2 * n - 1)
        with (Z.min (ls + 2 * n - 1) (zlen l0 - 1)) by (zcase; lia).
      eapply pass_inv_step; unfold ccol_max_elem_count; try done; try lia.
      intros col' t' Hinv' Ht'. apply wp_ret.
      repeat split; try done; lia.
  - repeat split; [lia|]. apply pass_inv_init.
  - zlia.
Qed.

(** The passes sort the collection, whatever the merge. *)
Lemma wp_bottom_up step l0 temp m (Q : _ -> _ -> Prop) :
  merge_step_spec step -> 2 <= zlen l0 <= ccol_max_elem_count ->
  zlen l0 <= zlen temp -> zlen temp <= ccol_max_elem_count ->
  (forall temp', Q (stable_sort cmp l0, temp') m) ->
  wp (bottom_up step 0 (zlen l0 - 1) (zlen l0) l0 temp) m Q.
Proof.
  intros Hstep Hlen Ht Htmax HQ. unfold bottom_up. apply wp_bind.
  apply (wp_while
    (fun '(n, col, t) m' => m' = m /\ exists p, 0 <= p <= 63 /\ n = 2 ^ p /\
       zlen t = zlen temp /\ col = runs cmp n l0)
    (fun '(n, _, _) => Z.to_nat (64 - Z.log2 n))).
  - intros [[n col] t] m' (-> & p & Hp & -> & Htl & ->) Hlt. zbool.
    unfold ccol_max_elem_count in *.
    assert (p < 63).
    { destruct (Z_lt_le_dec p 63); [done|]. assert (p = 63) as -> by lia. lia. }
    assert (2 ^ p <= 2 ^ 62) by (apply Z.pow_le_mono_r; lia).
    assert (1 <= 2 ^ p) by (pose proof (Z.pow_pos_nonneg 2 p); lia).
    apply wp_bind. apply wp_pass; unfold ccol_max_elem_count; try done; try lia.
    intros t' Ht'. apply wp_ret. change (2 ^ 62) with 4611686018427387904 in *. sz.
    rewrite Z.mul_comm. rewrite <- Z.pow_succ_r by lia.
    split; [|rewrite !Z.log2_pow2 by lia; lia].
    split; [done|]. exists (Z.succ p). repeat split; lia.
  - intros [[n col] t] m' (-> & p & Hp & -> & Htl & ->) Hge. zbool. wp_pure.
    assert (1 <= 2 ^ p) by (pose proof (Z.pow_pos_nonneg 2 p); lia).
    by rewrite runs_short by lia.
  - split; [done|]. exists 0. by rewrite runs_1.
  - cbn. lia.
Qed.
End MergeCorrect.

(** ** The public entry points *)
Section SortCorrect.
Context {alloc : Allocator} {A : Type} (cmp : A -> A -> Z) `{!TotalCmp cmp}.

Lemma csort_check_sort_shape_ready length elem_size ok :
  csort_check_sort_shape length elem_size ok = csort_buffer_ready <->
  length <= ccol_max_elem_count /\ elem_size <> 0 /\
  length <= SIZE_MAX `div` elem_size /\ ok = true.
Proof.
  unfold csort_check_sort_shape. rewrite !Z.gtb_ltb.
  repeat zcase; destruct ok; cbn; naive_solver lia.
Qed.

(** What both drivers do with a collection of two elements or more. *)
Definition sort_outcome (l : list A) (elem_size : Z) (ok granted : bool)
    (r : bool) (l' : list A) : Prop :=
  match csort_check_sort_shape (zlen l) elem_size ok with
  | csort_buffer_not_needed => r = true /\ l' = l
  | csort_buffer_refused => r = false /\ l' = l
  | csort_buffer_ready =>
      if granted then r = true /\ l' = stable_sort cmp l else r = false /\ l' = l
  end.

Section Driver.
Context (l : list A) (elem_size : Z) (ok : bool) (m : mem) (own F : gset nat).
Hypothesis Hlen : zlen l < two64.
Hypothesis Hes : 0 <= elem_size < two64.
Hypothesis Hown : owns m own F.

Lemma buffer_size_no_wrap :
  csort_check_sort_shape (zlen l) elem_size ok = csort_buffer_ready ->
  zlen l ⊗ elem_size = zlen l * elem_size.
Proof.
  rewrite csort_check_sort_shape_ready. intros (_ & Hnz & Hdiv & _).
  apply wrap_small. zlen_facts. unfold SIZE_MAX, two64 in *.
  pose proof (Z.mul_div_le 18446744073709551615 elem_size). nia.
Qed.

(** The part the two drivers share: allocate, sort, free.  [wrap_col] is how
    a driver returns the collection. *)
Lemma wp_sort_with {T} (wrap_col : list A -> T)
    (passes : list A -> list (option A) -> M (list A * list (option A))) :
  2 <= zlen l ->
  csort_check_sort_shape (zlen l) elem_size ok = csort_buffer_ready ->
  (forall temp m' Q, zlen temp = zlen l -> (forall t, Q (stable_sort cmp l, t) m') ->
     wp (passes l temp) m' Q) ->
  wp (temp_buffer ← _ccol_mem_alloc (zlen l ⊗ elem_size);
      match temp_buffer with
      | None => mret (false, wrap_col l)
      | Some b =>
          '(l, _) ← passes l (replicate (Z.to_nat (zlen l)) None);
          _ ← _ccol_mem_free (b_id b);
          mret (true, wrap_col l)
      end) m (fun '(r, col) m' => exists l', col = wrap_col l' /\
        sort_outcome l elem_size ok (grant (m_next m) (zlen l * elem_size)) r l' /\
        owns m' own F).
Proof.
  intros H2 Hready Hpasses. unfold sort_outcome. rewrite Hready, buffer_size_no_wrap by done.
  apply wp_bind. zlen_facts.
  apply (wp_alloc_owns _ _ own F); [done|nia| |].
  - intros m' Ho ->. apply wp_ret. eauto.
  - intros b m' Ho Hb HbF Hbl ->. apply wp_bind, Hpasses; [zlia|].
    intros t. apply wp_bind, (wp_free_owns _ _ _ _ _ Ho); [set_solver|].
    intros m'' Ho'. apply wp_ret. eexists. split; [done|]. split; [done|]. owns_tac.
Qed.

(** What a driver returns on a collection of any length. *)
Definition driver_result (granted : bool) (r : bool) (col : option (list A)) : Prop :=
  exists l', col = Some l' /\
    (if zlen l <? 2 then r = true /\ l' = l
     else sort_outcome l elem_size ok granted r l').

Lemma wp_merge_sort :
  wp (___csort_merge_sort cmp (Some l) (zlen l) elem_size true ok) m (fun '(r, col) m' =>
    driver_result (grant (m_next m) (zlen l * elem_size)) r col /\ owns m' own F).
Proof.
  unfold ___csort_merge_sort, driver_result. zlen_facts.
  destruct (Z.ltb_spec (zlen l) 2) as [Hlt|Hge].
  { replace ((zlen l =? 0) || (zlen l =? 1)) with true by (repeat zcase; cbn; lia).
    apply wp_ret. eauto 10. }
  replace ((zlen l =? 0) || (zlen l =? 1)) with false by (repeat zcase; cbn; lia).
  cbn [negb]. apply wp_bind. unfold csort_mergesort_iterative. sz.
  rewrite Z.geb_leb. destruct (Z.leb_spec (zlen l - 1) 0); [lia|].
  replace (zlen l - 1 - 0 + 1) with (zlen l) by lia.
  destruct (csort_check_sort_shape (zlen l) elem_size ok) eqn:Hs.
  2,3: wp_pure; unfold sort_outcome; rewrite Hs; eauto 10.
  pose proof (proj1 (csort_check_sort_shape_ready _ _ _) Hs) as (? & _).
  eapply wp_mono.
  - apply (wp_sort_with id (bottom_up (csort_merge cmp) 0 (zlen l - 1) (zlen l))); [lia|done|].
    intros. apply (wp_bottom_up cmp); [apply csort_merge_spec|lia..|done].
  - intros [r l'] m' (? & -> & ? & ?). wp_pure. eauto.
Qed.

Lemma wp_merge_sort_contiguous :
  wp (_csort_merge_sort_contiguous cmp (Some l) (zlen l) elem_size true ok) m
    (fun '(r, col) m' =>
      driver_result (grant (m_next m) (zlen l * elem_size)) r col /\ owns m' own F).
Proof.
  unfold _csort_merge_sort_contiguous, driver_result. zlen_facts.
  destruct (Z.ltb_spec (zlen l) 2) as [Hlt|Hge]; [apply wp_ret; eauto 10|].
  cbn [negb]. destruct (csort_check_sort_shape (zlen l) elem_size ok) eqn:Hs.
  2,3: wp_pure; unfold sort_outcome; rewrite Hs; eauto 10.
  pose proof (proj1 (csort_check_sort_shape_ready _ _ _) Hs) as (? & _).
  eapply wp_mono.
  - apply (wp_sort_with Some (fun l => csort_contiguous_passes cmp l (zlen l))); [lia|done|].
    intros. unfold csort_contiguous_passes. sz.
    apply (wp_bottom_up cmp); [apply csort_merge_contiguous_spec|lia..|done].
  - intros [r col] m' (? & -> & ? & ?). eauto.
Qed.
End Driver.
End SortCorrect.

(** ** Properties *)
Section Properties.
Context {alloc : Allocator} {A : Type} (cmp : A -> A -> Z) `{!TotalCmp cmp}.

(** [l'] is [l] sorted stably. *)
Definition stable_sort_of (l l' : list A) : Prop :=
  l' ≡ₚ l /\ StronglySorted (cmp_le cmp) l' /\ forall x, equal_to cmp x l' = equal_to cmp x l.

Lemma stable_sort_is_stable_sort l : stable_sort_of l (stable_sort cmp l).
Proof.
  split; [apply stable_sort_perm|]. split; [by apply stable_sort_sorted|].
  intros x. by apply stable_sort_stable.
Qed.

(** The answer of a sort over [l] with elements of [elem_size] bytes. *)
Definition sort_answer (l : list A) (elem_size : Z) (ok granted r : bool) (l' : list A) : Prop :=
  if zlen l <? 2 then r = true /\ l' = l else
  match csort_check_sort_shape (zlen l) elem_size ok with
  | csort_buffer_not_needed => r = true /\ l' = l
  | csort_buffer_refused => r = false /\ l' = l
  | csort_buffer_ready => r = granted /\ if r then stable_sort_of l l' else l' = l
  end.

Lemma driver_result_answer l elem_size ok granted r col :
  driver_result cmp l elem_size ok granted r col ->
  exists l', col = Some l' /\ sort_answer l elem_size ok granted r l'.
Proof.
  intros (l' & -> & H). exists l'. split; [done|]. unfold sort_answer, sort_outcome in *.
  destruct (zlen l <? 2); [done|]. destruct (csort_check_sort_shape _ _ _); try done.
  destruct granted, H as [-> ->]; split; try done. apply stable_sort_is_stable_sort.
Qed.

(** C15: [___csort_merge_sort] terminates on every collection and every
    element size a [size_t] can describe, never touches an element out of
    range, frees its buffer, and either leaves the collection alone with the
    answer its guards prescribe (nothing to sort, shape refused, or buffer
    not allocated) or leaves it stably sorted and answers true. *)
Theorem merge_sort_stable l elem_size ok m own F :
  zlen l < two64 -> 0 <= elem_size < two64 -> owns m own F ->
  wp (___csort_merge_sort cmp (Some l) (zlen l) elem_size true ok) m (fun '(r, col) m' =>
    owns m' own F /\ exists l', col = Some l' /\
      sort_answer l elem_size ok (grant (m_next m) (zlen l * elem_size)) r l').
Proof.
  intros Hl He Ho. eapply wp_mono; [by apply wp_merge_sort|].
  intros [r col] m' [Hr%driver_result_answer ?]. done.
Qed.

(** C38: the contiguous driver, which merges in place with half the copying,
    is equivalent to the getter-based one: same answer, same collection. *)
Theorem contiguous_sort_equiv l elem_size ok m own F :
  zlen l < two64 -> 0 <= elem_size < two64 -> owns m own F ->
  exists r col m1 m2,
    ___csort_merge_sort cmp (Some l) (zlen l) elem_size true ok m = Done (r, col) m1 /\
    _csort_merge_sort_contiguous cmp (Some l) (zlen l) elem_size true ok m = Done (r, col) m2 /\
    owns m1 own F /\ owns m2 own F.
Proof.
  intros Hl He Ho.
  destruct (wp_run _ _ _ (wp_merge_sort cmp l elem_size ok m own F Hl He Ho))
    as ([r1 c1] & m1 & E1 & (l1 & -> & H1) & Ho1).
  destruct (wp_run _ _ _ (wp_merge_sort_contiguous cmp l elem_size ok m own F Hl He Ho))
    as ([r2 c2] & m2 & E2 & (l2 & -> & H2) & Ho2).
  exists r1, (Some l1), m1, m2. split; [done|]. split; [|done]. rewrite E2.
  enough (r2 = r1 /\ l2 = l1) as [-> ->] by done.
  unfold sort_outcome in *. destruct (zlen l <? 2); [naive_solver|].
  destruct (csort_check_sort_shape _ _ _), (grant (m_next m) (zlen l * elem_size));
    naive_solver.
Qed.
End Properties.

Definition merge_sort_stable_witness_input : list (Z * Z) := [(2, 0); (1, 1); (2, 2); (0, 3); (1, 4)].

Example merge_sort_stable_witness :
  let cmp := fun x y : Z * Z => three_way x.1 y.1 in
  let l := merge_sort_stable_witness_input in
  let alloc := grant_up_to 1000 in
  wp (___csort_merge_sort cmp (Some l) (zlen l) 16 true true) mem0 (fun '(r, col) m' =>
      owns m' ∅ ∅ /\ exists l', col = Some l' /\
        sort_answer cmp l 16 true (grant (m_next mem0) (zlen l * 16)) r l') /\
  exists m', ___csort_merge_sort cmp (Some l) 5 16 true true mem0
    = Done (true, Some [(0, 3); (1, 1); (1, 4); (2, 0); (2, 2)]) m'.
Proof.
  intros cmp l alloc. split.
  - apply (merge_sort_stable cmp (TotalCmp0 := three_way_total fst) l 16 true mem0 ∅ ∅);
      [reflexivity|vm_compute; split; congruence|apply owns_mem0].
  - eexists. vm_compute. reflexivity.
Defined.

Example contiguous_sort_equiv_witness :
  let cmp := fun x y : Z * Z => three_way x.1 y.1 in
  let l := merge_sort_stable_witness_input in
  let alloc := grant_up_to 1000 in
  exists r col m1 m2,
      ___csort_merge_sort cmp (Some l) (zlen l) 16 true true mem0 = Done (r, col) m1 /\
      _csort_merge_sort_contiguous cmp (Some l) (zlen l) 16 true true mem0 = Done (r, col) m2 /\
      owns m1 ∅ ∅ /\ owns m2 ∅ ∅.
Proof.
  intros cmp l alloc.
  apply (contiguous_sort_equiv cmp (TotalCmp0 := three_way_total fst) l 16 true mem0 ∅ ∅);
    [reflexivity|vm_compute; split; congruence|apply owns_mem0].
Defined.



