(* ===== verification/CVector.v ===== *)
(** * The dynamic array ([src/cvector.c])

    A [cvector] is a heap block for the struct and one for the elements.  A
    vector is passed as a handle, [None] for NULL, and every operation returns
    the vector as it left it.  Source arguments are pointers that may reach
    into the vector's own buffer: the code turns them into offsets before it
    lets the buffer move, and a pointer kept across a move is dangling, so
    reading through it is [Undefined]. *)
From S2P Require Import Prelude Memory Values Common CSort.

Module CVector.
Section CVector.
Context {alloc : Allocator}.

Definition _ccol_cvector_minimum_capacity : Z := 4.
Definition _ccol_cvector_scaling_factor : Z := 2.
Definition shrink_threshold_divisor : Z := 4.

(** [sizeof(struct cvector)] and [sizeof(ccol_memmgmt_procs_t)]. *)
Definition sizeof_cvector : Z := 40.
Definition sizeof_procs : Z := 32.

(** What [m_procs] points at: nothing, an interned struct, or the copy in the
    tail of the vector's own block. *)
Inductive procs_slot :=
  | procs_default
  | procs_interned (p : ccol_memmgmt_procs_t)
  | procs_tail_copy (p : ccol_memmgmt_procs_t).

Definition slot_procs (s : procs_slot) : option ccol_memmgmt_procs_t :=
  match s with
  | procs_default => None
  | procs_interned p | procs_tail_copy p => Some p
  end.

Record cvector := Cvector {
  v_addr : nat;
  elem_size : Z;
  elem_count : Z;
  capacity : Z;
  m_procs : procs_slot;
  data_ptr : option block;
}.

Definition set_data (v : cvector) (d : block) : cvector :=
  Cvector (v_addr v) (elem_size v) (elem_count v) (capacity v) (m_procs v) (Some d).
Definition set_count (v : cvector) (n : Z) : cvector :=
  Cvector (v_addr v) (elem_size v) n (capacity v) (m_procs v) (data_ptr v).
Definition set_capacity (v : cvector) (n : Z) : cvector :=
  Cvector (v_addr v) (elem_size v) (elem_count v) n (m_procs v) (data_ptr v).

Definition __cvector_destroy (v : option cvector) : M unit :=
  match v with
  | None => mret tt
  | Some v =>
      _ ← match data_ptr v with
          | Some d => _ccol_mem_free (b_id d)
          | None => mret tt
          end;
      _ccol_mem_free (v_addr v)
  end.

(** The error a refused creation reports through [err]. *)
Inductive create_error :=
  | elem_size_is_zero | elem_size_too_large | null_memory_management_function
  | failed_to_allocate_vector_container | failed_to_allocate_data_container.

Definition verify_cvector_create_inputs (elem_size : Z)
    (mmgt_procs : option ccol_memmgmt_procs_t) : option create_error :=
  if elem_size =? 0 then Some elem_size_is_zero
  else if elem_size >? SIZE_MAX `div` _ccol_cvector_minimum_capacity
  then Some elem_size_too_large
  else if negb (_ccol_verify_memmgmt_procs mmgt_procs)
  then Some null_memory_management_function
  else None.

(** [is_interned] is the answer of [ccol_procs_is_interned]. *)
Definition cvector_create_full (elem_size : Z)
    (mmgt_procs : option ccol_memmgmt_procs_t) (is_interned : bool)
    : M (option cvector * option create_error) :=
  match verify_cvector_create_inputs elem_size mmgt_procs with
  | Some e => mret (None, Some e)
  | None =>
      let copy_procs := bool_decide (mmgt_procs ≠ None) && negb is_interned in
      b ← _ccol_mem_calloc 1 (sizeof_cvector ⊕ (if copy_procs then sizeof_procs else 0));
      match b with
      | None => mret (None, Some failed_to_allocate_vector_container)
      | Some b =>
          let slot :=
            match mmgt_procs with
            | None => procs_default
            | Some p => if copy_procs then procs_tail_copy p else procs_interned p
            end in
          d ← _ccol_mem_alloc (_ccol_cvector_minimum_capacity ⊗ elem_size);
          match d with
          | None =>
              _ ← __cvector_destroy (Some (Cvector (b_id b) 0 0 0 slot None));
              mret (None, Some failed_to_allocate_data_container)
          | Some d =>
              mret (Some (Cvector (b_id b) elem_size 0 _ccol_cvector_minimum_capacity
                            slot (Some d)), None)
          end
      end
  end.

Definition cvector_get_mprocs (v : option cvector) : M procs_slot :=
  v ← deref v; mret (m_procs v).

(** [v->data_ptr = realloc(...)], with the original put back on failure. *)
Definition realloc_data (v : cvector) (n : Z) : M (option cvector) :=
  orig ← ub (data_ptr v);
  d ← _ccol_mem_realloc orig n;
  mret (set_data v <$> d).

Definition scale_the_cvector_size_up (v : option cvector) : M (ccol_retval_t * cvector) :=
  v ← deref v;
  if capacity v >? ccol_max_elem_count `div` _ccol_cvector_scaling_factor
  then mret (ccol_container_full, v) else
  let new_capacity := _ccol_cvector_scaling_factor ⊗ capacity v in
  if new_capacity >? SIZE_MAX `div` elem_size v then mret (ccol_container_full, v) else
  r ← realloc_data v (new_capacity ⊗ elem_size v);
  match r with
  | None => mret (ccol_not_enough_memory, v)
  | Some v => mret (ccol_success, set_capacity v (capacity v ⊗ _ccol_cvector_scaling_factor))
  end.

Definition scale_the_cvector_size_down (v : option cvector) : M cvector :=
  v ← deref v;
  if capacity v =? _ccol_cvector_minimum_capacity then mret v else
  r ← realloc_data v ((capacity v `div` _ccol_cvector_scaling_factor) ⊗ elem_size v);
  match r with
  | None => mret v
  | Some v => mret (set_capacity v (capacity v `div` _ccol_cvector_scaling_factor))
  end.

(** [p >= buf_start && p < buf_end], and [p - buf_start]. *)
Definition aliases_self (v : cvector) (p : ptr) : bool :=
  match data_ptr v, p with
  | Some d, At b off =>
      bool_decide (b = b_id d) && (0 <=? off) && (off <? capacity v ⊗ elem_size v)
  | _, _ => false
  end.
Definition ptr_offset (p : ptr) : Z :=
  match p with At _ off => off | Foreign _ => 0 end.

(** [if (aliases) p = v->data_ptr + offset]. *)
Definition rebase (v : cvector) (aliases : bool) (offset : Z) (p : ptr) : M ptr :=
  if aliases then d ← ub (data_ptr v); mret (At (b_id d) offset) else mret p.

(** [memcpy] of one element to the slot after the last one, [++elem_count]. *)
Definition put_back (v : cvector) (new_elem : ptr) : M cvector :=
  d ← ub (data_ptr v);
  d ← memcpy_ptr d (elem_count v ⊗ elem_size v) new_elem (elem_size v);
  mret (set_count (set_data v d) (elem_count v ⊕ 1)).

Definition cvector_push_back (v : option cvector) (new_elem : option ptr)
    : M (ccol_retval_t * cvector) :=
  v ← deref v;
  match new_elem with
  | None => mret (ccol_invalid_args, v)
  | Some new_elem =>
      if elem_count v =? ccol_max_elem_count then mret (ccol_container_full, v) else
      if elem_count v <? capacity v
      then v ← put_back v new_elem; mret (ccol_success, v)
      else
        let new_elem_aliases_self := aliases_self v new_elem in
        let new_elem_offset := if new_elem_aliases_self then ptr_offset new_elem else 0 in
        '(grow_result, v) ← scale_the_cvector_size_up (Some v);
        if decide (grow_result = ccol_success)
        then
          new_elem ← rebase v new_elem_aliases_self new_elem_offset new_elem;
          v ← put_back v new_elem;
          mret (ccol_success, v)
        else mret (grow_result, v)
  end.

(** [target_given]: [target_elem] is not NULL.  The second component is what
    was copied there. *)
Definition cvector_pop_back (v : option cvector) (target_given : bool)
    : M (ccol_retval_t * option (list Z) * cvector) :=
  v ← deref v;
  if negb target_given then mret (ccol_invalid_args, None, v) else
  if elem_count v >? 0
  then
    let v := set_count v (elem_count v ⊖ 1) in
    d ← ub (data_ptr v);
    target_elem ← read_bytes (b_bytes d) (elem_count v ⊗ elem_size v) (elem_size v);
    v ← (if elem_count v <? capacity v `div` shrink_threshold_divisor
         then scale_the_cvector_size_down (Some v) else mret v);
    mret (ccol_success, Some target_elem, v)
  else mret (ccol_container_empty, None, v).

Definition cvector_reserve (v : option cvector) (new_capacity_count : Z) : M (bool * cvector) :=
  v ← deref v;
  let refined := Pow2._ccol_find_nearest_gte_power_of_two new_capacity_count in
  let refined :=
    if refined <? _ccol_cvector_minimum_capacity
    then _ccol_cvector_minimum_capacity else refined in
  if refined >? ccol_max_elem_count then mret (false, v) else
  if refined >? SIZE_MAX `div` elem_size v then mret (false, v) else
  if refined <=? capacity v then mret (true, v) else
  r ← realloc_data v (refined ⊗ elem_size v);
  match r with
  | None => mret (false, v)
  | Some v => mret (true, set_capacity v refined)
  end.

(** [may_overlap] compares the two ranges; the count is bumped by the
    callers. *)
Definition cvector_copy_into_tail (v : cvector) (src : ptr) (n : Z) : M cvector :=
  d ← ub (data_ptr v);
  let dst := elem_count v ⊗ elem_size v in
  let may_overlap := ptr_overlaps d dst src n in
  d ← (if may_overlap then memmove_ptr d dst src n else memcpy_ptr d dst src n);
  mret (set_data v d).

Definition cvector_append_array (v : option cvector) (arr_ptr : option ptr) (count : Z)
    : M (bool * cvector) :=
  v ← deref v;
  if count =? 0 then mret (true, v) else
  match arr_ptr with
  | None => mret (false, v)
  | Some arr_ptr =>
      let new_elem_count := elem_count v ⊕ count in
      if (new_elem_count <? elem_count v) || (new_elem_count >? ccol_max_elem_count)
      then mret (false, v) else
      let buf_size := capacity v ⊗ elem_size v in
      let arr_ptr_aliases_self := aliases_self v arr_ptr in
      let arr_ptr_offset := if arr_ptr_aliases_self then ptr_offset arr_ptr else 0 in
      if arr_ptr_aliases_self && (count >? (buf_size ⊖ arr_ptr_offset) `div` elem_size v)
      then mret (false, v) else
      if new_elem_count <=? capacity v
      then
        v ← cvector_copy_into_tail v arr_ptr (count ⊗ elem_size v);
        mret (true, set_count v (elem_count v ⊕ count))
      else
        '(ok, v) ← cvector_reserve (Some v) new_elem_count;
        if negb ok then mret (false, v) else
        arr_ptr ← rebase v arr_ptr_aliases_self arr_ptr_offset arr_ptr;
        v ← cvector_copy_into_tail v arr_ptr (count ⊗ elem_size v);
        mret (true, set_count v (elem_count v ⊕ count))
  end.

(** The data of another vector is foreign memory to [v_to]; its own is its
    buffer at offset 0. *)
Definition source_of (v_to v_from : cvector) : option ptr :=
  d ← data_ptr v_from;
  Some (if bool_decide (v_addr v_to = v_addr v_from) then At (b_id d) 0
        else Foreign (b_bytes d)).

Definition cvector_append_cvector (v_to v_from : option cvector) : M (bool * cvector) :=
  match v_to, v_from with
  | Some v_to, Some v_from =>
      if negb (elem_size v_to =? elem_size v_from) then abort else
      if bool_decide (v_addr v_to = v_addr v_from)
      then
        let count := elem_count v_from in
        let new_count := elem_count v_to ⊕ count in
        if (new_count <? elem_count v_to) || (new_count >? ccol_max_elem_count)
        then mret (false, v_to) else
        '(ok, v_to) ← cvector_reserve (Some v_to) new_count;
        if negb ok then mret (false, v_to) else
        (* v_from is v_to, reallocated or not *)
        cvector_append_array (Some v_to) (source_of v_to v_to) (elem_count v_to)
      else cvector_append_array (Some v_to) (source_of v_to v_from) (elem_count v_from)
  | _, _ => abort
  end.

Definition cvector_data_ptr (v : option cvector) : M (option ptr) :=
  v ← deref v; mret ((fun d => At (b_id d) 0) <$> data_ptr v).

Definition cvector_at (v : option cvector) (index : Z) : M (option ptr) :=
  v ← deref v;
  if (elem_count v >? 0) && (index <? elem_count v)
  then d ← ub (data_ptr v); mret (Some (At (b_id d) (index ⊗ elem_size v)))
  else mret None.

Definition cvector_elem_count (v : option cvector) : M Z :=
  v ← deref v; mret (elem_count v).

Definition cvector_get_capacity (v : option cvector) : M Z :=
  v ← deref v; mret (capacity v).

Definition cvector_reset (v : option cvector) : M cvector :=
  v ← deref v;
  v ← (if negb (capacity v =? _ccol_cvector_minimum_capacity)
       then
         r ← realloc_data v (_ccol_cvector_minimum_capacity ⊗ elem_size v);
         match r with
         | None => mret v
         | Some v => mret (set_capacity v _ccol_cvector_minimum_capacity)
         end
       else mret v);
  mret (set_count v 0).

(** The live elements, each the bytes of its slot. *)
Definition elems (v : cvector) (d : block) : list (list Z) :=
  chunks (elem_size v) (Z.to_nat (elem_count v)) (b_bytes d).

(** The sort works on the live part of the buffer. *)
Definition _cvector_sort (v : option cvector) (comparison_proc : option (list Z -> list Z -> Z))
    : M (bool * cvector) :=
  v ← deref v;
  d ← ub (data_ptr v);
  '(r, l) ← _csort_merge_sort_contiguous (default (fun _ _ => 0) comparison_proc)
              (Some (elems v d)) (elem_count v) (elem_size v)
              (bool_decide (comparison_proc ≠ None))
              (_ccol_verify_memmgmt_procs (slot_procs (m_procs v)));
  l ← ub l;
  bytes ← memcpy_in (b_bytes d) 0 (concat l);
  mret (r, set_data v (Block (b_id d) bytes)).

(** The operands of [cmp] are the bytes the two pointers reach. *)
Definition cvector_find (v : option cvector) (elem : option ptr)
    (cmp : option (list Z -> list Z -> Z)) : M Z :=
  v ← deref v;
  match elem with
  | None => mret ccol_invalid_size
  | Some elem =>
      loop (Z.to_nat (elem_count v) + 1) (fun i =>
        if negb (i <? elem_count v) then mret (inr ccol_invalid_size) else
        d ← ub (data_ptr v);
        current ← ub (ptr_bytes d (At (b_id d) (i ⊗ elem_size v)) (elem_size v));
        operand ← ub (ptr_bytes d elem (elem_size v));
        let match_ := match cmp with
                      | Some cmp => cmp current operand =? 0
                      | None => memcmp current operand =? 0
                      end in
        if match_ then mret (inr i) else mret (inl (i ⊕ 1))) 0
  end.

(** The iterator: [key_pair_storage.ptr] points at [index]. *)
Record cvec_iter_impl_t := CvecIterImpl {
  it_addr : nat;
  it_index : Z;
  it_val : option ptr;
  it_val_size : Z;
}.
Definition sizeof_cvec_iter_impl_t : Z := 96.

Definition cvec_iter_impl_free (it : cvec_iter_impl_t) : M unit :=
  _ccol_mem_free (it_addr it).

(** [vec] is the vector the back-reference reaches when the call is made. *)
Definition cvec_cmap_iter_next (it : option cvec_iter_impl_t) (vec : cvector)
    : M (option cvec_iter_impl_t) :=
  impl ← deref it;
  let next_index := it_index impl ⊕ 1 in
  if next_index >=? elem_count vec
  then _ ← cvec_iter_impl_free impl; mret None
  else
    d ← ub (data_ptr vec);
    mret (Some (CvecIterImpl (it_addr impl) next_index
                  (Some (At (b_id d) (next_index ⊗ elem_size vec))) (it_val_size impl))).

(** The second component says whether an error string was set. *)
Definition cvector_begin_iter (v : option cvector) : M (option cvec_iter_impl_t * bool) :=
  match v with
  | None => mret (None, false)
  | Some v =>
      if elem_count v =? 0 then mret (None, false) else
      impl ← _ccol_mem_calloc 1 sizeof_cvec_iter_impl_t;
      match impl with
      | None => mret (None, true)
      | Some b =>
          mret (Some (CvecIterImpl (b_id b) 0 ((fun d => At (b_id d) 0) <$> data_ptr v)
                        (elem_size v)), false)
      end
  end.

(** [for (it = ccol_begin(v); it; it = ccol_iter_next(it))], collecting the
    key and the bytes of the value of each step. *)
Definition iterate (v : cvector) (it : option cvec_iter_impl_t) : M (list (Z * list Z)) :=
  loop (Z.to_nat (elem_count v) + 1) (fun '(it, seen) =>
    match it with
    | None => mret (inr seen)
    | Some impl =>
        p ← ub (it_val impl);
        d ← ub (data_ptr v);
        val ← ub (ptr_bytes d p (it_val_size impl));
        it ← cvec_cmap_iter_next (Some impl) v;
        mret (inl (it, seen ++ [(it_index impl, val)]))
    end) (it, []).

(** ** Representation

    [repr v d l]: the vector [v], whose buffer is [d], holds the elements
    [l].  The capacity is a power of two between the minimum and
    [ccol_max_elem_count] and the byte size of the buffer fits [size_t]. *)
Record vec_wf (v : cvector) : Prop := VecWf {
  wf_es : 1 <= elem_size v;
  wf_pow2 : exists k, 2 <= k <= 63 /\ capacity v = 2 ^ k;
  wf_bytes : capacity v * elem_size v <= SIZE_MAX;
  wf_count : 0 <= elem_count v <= capacity v;
  wf_procs : _ccol_verify_memmgmt_procs (slot_procs (m_procs v)) = true;
}.

Definition repr (v : cvector) (d : block) (l : list (list Z)) : Prop :=
  vec_wf v /\ data_ptr v = Some d /\ v_addr v <> b_id d /\
  zlen (b_bytes d) = capacity v * elem_size v /\
  zlen l = elem_count v /\ Forall (fun e => zlen e = elem_size v) l /\
  exists rest, b_bytes d = concat l ++ rest.

Definition blocks (v : cvector) (d : block) : gset nat := {[v_addr v; b_id d]}.

Lemma pow2_bounds c : (exists k, 2 <= k <= 63 /\ c = 2 ^ k) -> 4 <= c <= ccol_max_elem_count.
Proof.
  intros (k & Hk & ->). unfold ccol_max_elem_count.
  change 4 with (2 ^ 2). change 9223372036854775808 with (2 ^ 63).
  split; apply Z.pow_le_mono_r; lia.
Qed.

(** The arithmetic every operation needs. *)
Lemma repr_arith v d l :
  repr v d l ->
  4 <= capacity v <= ccol_max_elem_count /\ 1 <= elem_size v /\
  capacity v * elem_size v <= SIZE_MAX /\ elem_size v <= capacity v * elem_size v /\
  0 <= elem_count v <= capacity v /\ 0 <= elem_count v * elem_size v /\
  elem_count v * elem_size v <= capacity v * elem_size v /\
  (elem_count v < capacity v ->
   elem_count v * elem_size v + elem_size v <= capacity v * elem_size v) /\
  zlen (concat l) = elem_count v * elem_size v.
Proof.
  intros ([Hes Hp Hb Hc _] & _ & _ & _ & Hl & Hf & _). pose proof (pow2_bounds _ Hp).
  rewrite (zlen_concat (elem_size v)), Hl by done. split_and!; try lia; nia.
Qed.

(** [n <= SIZE_MAX / elem_size], the guard of the byte size products. *)
Lemma fits_iff v n : 1 <= elem_size v -> 0 <= n -> (n <= SIZE_MAX `div` elem_size v <-> n * elem_size v <= SIZE_MAX).
Proof.
  intros Hes Hn. split; intros H.
  - pose proof (Z.mul_div_le SIZE_MAX (elem_size v) ltac:(lia)). nia.
  - apply Z.div_le_lower_bound; lia.
Qed.

Definition moved (d d' : block) : Prop :=
  zlen (b_bytes d) <= zlen (b_bytes d') -> ztake (zlen (b_bytes d)) (b_bytes d') = b_bytes d.

Lemma wp_realloc_data v d l c n m F (Q : option cvector -> mem -> Prop) :
  repr v d l -> owns m (blocks v d) F ->
  (exists k, 2 <= k <= 63 /\ c = 2 ^ k) -> elem_count v <= c ->
  n = c * elem_size v -> n <= SIZE_MAX ->
  (forall m', owns m' (blocks v d) F -> grant (m_next m) n = false -> Q None m') ->
  (forall d' m', repr (set_capacity (set_data v d') c) d' l -> moved d d' ->
     owns m' (blocks v d') F -> Q (Some (set_data v d')) m') ->
  wp (realloc_data v n) m Q.
Proof.
  intros Hr Ho Hc Hcount -> Hn Hfail Hok. pose proof (repr_arith _ _ _ Hr).
  destruct Hr as (Hwf & Hd & Hne & Hlen & Hl & Hf & rest & Hrest).
  pose proof (pow2_bounds _ Hc). unfold realloc_data. rewrite Hd. wp_pure.
  apply (wp_realloc_owns _ _ _ _ _ _ Ho); [unfold blocks; set_solver|nia| |].
  { intros m' Ho' Hg. by apply wp_ret, Hfail. }
  intros d' m' Ho' Hid _ Hl' Ht _. apply wp_ret. cbn [fmap option_fmap option_map].
  assert (elem_count v * elem_size v <= c * elem_size v) as Hcl by nia.
  apply Hok.
  - split; [|split_and!; cbn; try done; try lia].
    + destruct Hwf. split; cbn; try done; lia.
    + unfold blocks in Hid. set_solver.
    + exists (zdrop (zlen (concat l)) (b_bytes d')).
      rewrite <- (ztake_zdrop (zlen (concat l)) (b_bytes d')) at 1. f_equal.
      apply (f_equal (ztake (zlen (concat l)))) in Ht.
      rewrite !ztake_ztake in Ht by lia. rewrite Z.min_l in Ht by lia.
      rewrite Ht, Hrest. by apply ztake_app_exact.
  - intros Hge. rewrite Z.min_r in Ht by lia. rewrite Ht. by apply ztake_all.
  - apply (owns_change _ _ _ _ Ho'). unfold blocks in *. cbn. set_solver.
Qed.

(** Setting the capacity of the moved vector. *)
Lemma set_capacity_data v d c : set_capacity (set_data v d) c = set_data (set_capacity v c) d.
Proof. done. Qed.

Definition capacity_limit (v : cvector) : Prop :=
  ccol_max_elem_count < 2 * capacity v \/ SIZE_MAX < 2 * capacity v * elem_size v.

(** Growth doubles the capacity, reports the limit, or reports a refused
    request; in the last two cases the vector is as it was. *)
Lemma wp_scale_up v d l m F (Q : ccol_retval_t * cvector -> mem -> Prop) :
  repr v d l -> owns m (blocks v d) F ->
  (capacity_limit v -> Q (ccol_container_full, v) m) ->
  (forall m', owns m' (blocks v d) F ->
     grant (m_next m) (2 * capacity v * elem_size v) = false ->
     Q (ccol_not_enough_memory, v) m') ->
  (forall d' v' m', repr v' d' l -> v' = set_capacity (set_data v d') (2 * capacity v) ->
     moved d d' -> owns m' (blocks v' d') F -> Q (ccol_success, v') m') ->
  wp (scale_the_cvector_size_up (Some v)) m Q.
Proof.
  intros Hr Ho Hfull Hrefused Hok. pose proof (repr_arith _ _ _ Hr).
  unfold scale_the_cvector_size_up, _ccol_cvector_scaling_factor. wp_pure.
  change (ccol_max_elem_count `div` 2) with 4611686018427387904.
  rewrite !Z.gtb_ltb. unfold ccol_max_elem_count, SIZE_MAX in *.
  destruct (Z.ltb_spec 4611686018427387904 (capacity v)).
  { apply wp_ret, Hfull. left. unfold ccol_max_elem_count. lia. }
  sz. destruct (Z.ltb_spec (18446744073709551615 `div` elem_size v) (2 * capacity v)) as [Hb|Hb].
  { apply wp_ret, Hfull. right. unfold SIZE_MAX.
    pose proof (fits_iff v (2 * capacity v)) as Hfit. unfold SIZE_MAX in Hfit. lia. }
  apply fits_iff in Hb; [|lia..]. unfold SIZE_MAX in Hb. assert (0 <= 2 * capacity v * elem_size v) by nia.
  sz. apply wp_bind.
  apply (wp_realloc_data v d l (2 * capacity v) _ m F); [done|done| |lia|done|unfold SIZE_MAX; lia| |].
  - destruct Hr as ([_ (k & Hk & E) _ _ _] & _). exists (k + 1).
    rewrite Z.pow_add_r, E by lia. split; [|lia].
    destruct (Z_lt_le_dec k 63); [lia|]. assert (k = 63) as -> by lia. rewrite E in *. lia.
  - intros m' Ho' Hg. by apply wp_ret, Hrefused.
  - intros d' m' Hr' Hm Ho'. apply wp_ret. cbn [capacity set_data]. sz.
    replace (capacity v * 2) with (2 * capacity v) by lia.
    by apply (Hok d' (set_capacity (set_data v d') (2 * capacity v))).
Qed.

(** The capacity after a shrink that was granted. *)
Lemma half_pow2 v d l :
  repr v d l -> capacity v <> 4 ->
  exists k, 2 <= k <= 63 /\ capacity v `div` 2 = 2 ^ k.
Proof.
  intros ([_ (k & Hk & E) _ _ _] & _) Hc. exists (k - 1). rewrite E in *.
  split; [destruct (Z.eq_dec k 2) as [->|]; [done|lia]|].
  assert (2 ^ k = 2 ^ (k - 1) * 2) as ->; [|by rewrite Z.div_mul].
  replace k with (k - 1 + 1) at 1 by lia. rewrite Z.pow_add_r by lia. lia.
Qed.

Lemma wp_scale_down v d l m F (Q : cvector -> mem -> Prop) :
  repr v d l -> owns m (blocks v d) F -> 2 * elem_count v <= capacity v ->
  (forall d' v' m', repr v' d' l -> owns m' (blocks v' d') F ->
     capacity v' = capacity v \/ capacity v' = capacity v `div` 2 -> 
     elem_size v' = elem_size v -> Q v' m') ->
  wp (scale_the_cvector_size_down (Some v)) m Q.
Proof.
  intros Hr Ho Hhalf HQ. pose proof (repr_arith _ _ _ Hr).
  unfold scale_the_cvector_size_down, _ccol_cvector_scaling_factor, _ccol_cvector_minimum_capacity.
  wp_pure. destruct (Z.eqb_spec (capacity v) 4); [apply wp_ret; eapply HQ; eauto|].
  pose proof (half_pow2 _ _ _ Hr ltac:(done)) as Hp.
  assert (elem_count v <= capacity v `div` 2) by (apply Z.div_le_lower_bound; lia).
  assert (capacity v `div` 2 <= capacity v) by (apply Z.div_le_upper_bound; lia).
  assert (0 <= capacity v `div` 2 * elem_size v <= SIZE_MAX) as Hb by nia.
  unfold SIZE_MAX in *. sz. apply wp_bind.
  apply (wp_realloc_data v d l (capacity v `div` 2) _ m F); [done|done|done|done|done|unfold SIZE_MAX;lia| |].
  - intros m' Ho' _. apply wp_ret. eapply HQ; eauto.
  - intros d' m' Hr' Hm Ho'. apply wp_ret. eapply HQ; eauto.
Qed.

(** Copying bytes to the tail appends the elements they hold. *)
Lemma repr_append v d l l' bytes bs' n :
  repr v d l -> concat l' = bytes -> Forall (fun e => zlen e = elem_size v) l' ->
  n = elem_count v + zlen l' -> n <= capacity v ->
  bs' = splice (b_bytes d) (elem_count v * elem_size v) bytes ->
  repr (set_count (set_data v (Block (b_id d) bs')) n) (Block (b_id d) bs') (l ++ l').
Proof.
  intros Hr <- Hf' -> Hn ->. pose proof (repr_arith _ _ _ Hr).
  destruct Hr as (Hwf & Hd & Hne & Hlen & Hl & Hf & rest & Hrest). zlen_facts.
  assert (zlen (concat l') = zlen l' * elem_size v) as Hcl by by apply zlen_concat.
  split; [|split_and!; cbn; try done; try lia].
  - destruct Hwf. split; cbn; try done; lia.
  - rewrite zlen_splice; [done|lia|nia].
  - rewrite zlen_app. lia.
  - by apply Forall_app.
  - unfold splice. rewrite concat_app. eexists. rewrite Hrest at 1.
    rewrite ztake_app_exact by lia. by rewrite <- app_assoc.
Qed.

(** A source that a copy of [n] bytes to the tail can use: readable, and
    not overlapping the tail. *)
Definition source_apart (v : cvector) (d : block) (p : ptr) (n : Z) : Prop :=
  ptr_overlaps d (elem_count v * elem_size v) p n = false.

Lemma wp_put_back v d l p e m (Q : cvector -> mem -> Prop) :
  repr v d l -> elem_count v < capacity v ->
  ptr_bytes d p (elem_size v) = Some e -> source_apart v d p (elem_size v) ->
  (forall d' v', repr v' d' (l ++ [e]) -> blocks v' d' = blocks v d ->
     capacity v' = capacity v -> elem_size v' = elem_size v -> Q v' m) ->
  wp (put_back v p) m Q.
Proof.
  intros Hr Hroom Hp Hap HQ. pose proof (repr_arith _ _ _ Hr).
  pose proof (proj1 (proj2 Hr)) as Hd. unfold put_back. rewrite Hd. wp_pure.
  unfold SIZE_MAX, ccol_max_elem_count in *. sz.
  assert (zlen (b_bytes d) = capacity v * elem_size v) by apply Hr.
  apply (wp_memcpy_ptr d _ p _ e); [done|done|lia|lia|]. apply wp_ret.
  destruct (ptr_bytes_len _ _ _ _ Hp) as [He _].
  eapply (HQ (Block _ _)); [|done..]. eapply (repr_append v d l [e]); [done| | | | |done].
  - cbn. apply app_nil_r.
  - by constructor.
  - done.
  - cbn. unfold zlen. cbn. lia.
Qed.

(** The aliasing test is exact on readable pointers. *)
Lemma aliases_self_readable v d l p n bs :
  repr v d l -> 0 < n -> ptr_bytes d p n = Some bs ->
  aliases_self v p = match p with At _ _ => true | Foreign _ => false end.
Proof.
  intros Hr Hn Hp. pose proof (repr_arith _ _ _ Hr). unfold SIZE_MAX in *.
  destruct Hr as (_ & Hd & _ & Hlen & _). unfold aliases_self. rewrite Hd.
  destruct p as [|b off]; [done|]. apply ptr_bytes_At in Hp as (-> & Ho & _ & Hb & _). sz.
  rewrite bool_decide_true by done. cbn.
  destruct (Z.leb_spec 0 off), (Z.ltb_spec off (capacity v * elem_size v)); done || lia.
Qed.

(** The rebased pointer reads what the caller's pointer read. *)
Lemma wp_rebase v d l v' d' p n bs m (Q : ptr -> mem -> Prop) :
  repr v d l -> 0 < n -> ptr_bytes d p n = Some bs -> data_ptr v' = Some d' ->
  moved d d' -> zlen (b_bytes d) <= zlen (b_bytes d') ->
  (forall p', ptr_bytes d' p' n = Some bs ->
     (forall pos n', ptr_overlaps d pos p n' = false -> ptr_overlaps d' pos p' n' = false) ->
     Q p' m) ->
  wp (rebase v' (aliases_self v p) (if aliases_self v p then ptr_offset p else 0) p) m Q.
Proof.
  intros Hr Hn Hp Hd' Hm Hl HQ. rewrite (aliases_self_readable v d l p n bs) by done.
  destruct p as [fb|b off]; unfold rebase.
  - by apply wp_ret, HQ.
  - rewrite Hd'. wp_pure. cbn [ptr_offset].
    assert (b = b_id d) as -> by (by apply ptr_bytes_At in Hp as [-> _]).
    apply HQ; [apply (ptr_bytes_moved d); [done|done|by apply Hm]|].
    intros pos n'. cbn.
    rewrite (bool_decide_true (b_id d = b_id d)), (bool_decide_true (b_id d' = b_id d')); done.
Qed.

(** *** What a caller holds

    [vec_is m F v l es]: in the memory [m] the caller holds a vector [v] of
    elements of [es] bytes with the contents [l], and nothing else but the
    frame [F]. *)
Definition vec_is (m : mem) (F : gset nat) (v : cvector) (l : list (list Z)) (es : Z) : Prop :=
  exists d, repr v d l /\ owns m (blocks v d) F /\ elem_size v = es.

Definition src_bytes (v : cvector) (p : ptr) (n : Z) : option (list Z) :=
  d ← data_ptr v; ptr_bytes d p n.

(** The source does not overlap the slot after the last element: true of
    foreign memory and of every live element of the vector itself. *)
Definition src_apart (v : cvector) (p : ptr) (n : Z) : Prop :=
  forall d, data_ptr v = Some d -> source_apart v d p n.

Lemma vec_is_intro m F v d l es :
  repr v d l -> owns m (blocks v d) F -> elem_size v = es -> vec_is m F v l es.
Proof. by exists d. Qed.

Lemma wp_push_back v l es p e m F (Q : ccol_retval_t * cvector -> mem -> Prop) :
  vec_is m F v l es -> src_bytes v p es = Some e -> src_apart v p es ->
  (forall v' m', vec_is m' F v' (l ++ [e]) es -> Q (ccol_success, v') m') ->
  (zlen l = capacity v -> capacity_limit v -> Q (ccol_container_full, v) m) ->
  (forall m', zlen l = capacity v -> grant (m_next m) (2 * capacity v * es) = false ->
     vec_is m' F v l es -> Q (ccol_not_enough_memory, v) m') ->
  wp (cvector_push_back (Some v) (Some p)) m Q.
Proof.
  intros (d & Hr & Ho & <-) Hp Hap Hok Hfull Hrefused. pose proof (repr_arith _ _ _ Hr) as Ha.
  pose proof Hr as (Hwf & Hd & Hne & Hlen & Hl & _). rewrite Hl in Hfull, Hrefused.
  unfold src_bytes in Hp. rewrite Hd in Hp. cbn in Hp. apply Hap in Hd as Hap'.
  unfold cvector_push_back. wp_pure. destruct (Z.eqb_spec (elem_count v) ccol_max_elem_count).
  { apply wp_ret, Hfull; [lia|]. left. unfold ccol_max_elem_count in *. lia. }
  destruct (Z.ltb_spec (elem_count v) (capacity v)).
  { apply wp_bind, (wp_put_back v d l p e); [done..|]. intros d' v' Hr' Hb Hc He. apply wp_ret, Hok.
    exists d'. by rewrite Hb. }
  apply wp_bind, (wp_scale_up v d l m F); [done|done| | |].
  - intros Hlim. rewrite decide_False by done. apply wp_ret, Hfull; [lia|done].
  - intros m' Ho' Hg. rewrite decide_False by done. apply wp_ret, Hrefused; [lia|done|by exists d].
  - intros d' v' m' Hr' -> Hm Ho'. rewrite decide_True by done. apply wp_bind.
    apply (wp_rebase v d l _ d' p (elem_size v) e); try done; try lia.
    { destruct Hr' as (_ & _ & _ & Hlen' & _). cbn in Hlen'. lia. }
    intros p' Hp' Hov. apply wp_bind, (wp_put_back _ d' l p' e); [done|cbn; lia|done|by apply Hov|].
    intros d'' v'' Hr'' Hb _ He. apply wp_ret, Hok. exists d''. by rewrite Hb.
Qed.

Lemma wp_pop_back v l es m F (Q : ccol_retval_t * option (list Z) * cvector -> mem -> Prop) :
  vec_is m F v l es ->
  (l = [] -> Q (ccol_container_empty, None, v) m) ->
  (forall l' e v' m', l = l' ++ [e] -> vec_is m' F v' l' es ->
     capacity v' = capacity v \/ capacity v' = capacity v `div` 2 ->
     Q (ccol_success, Some e, v') m') ->
  wp (cvector_pop_back (Some v) true) m Q.
Proof.
  intros (d & Hr & Ho & <-) Hempty Hok. pose proof (repr_arith _ _ _ Hr) as Ha.
  pose proof Hr as (Hwf & Hd & Hne & Hlen & Hl & Hf & rest & Hrest).
  unfold cvector_pop_back. wp_pure. cbn [negb]. rewrite Z.gtb_ltb.
  destruct (Z.ltb_spec 0 (elem_count v)).
  2:{ apply wp_ret, Hempty. apply zlen_0_nil. lia. }
  destruct l as [|e l _] using rev_ind; [rewrite zlen_nil in Hl; lia|].
  rewrite zlen_app in Hl. change (zlen [e]) with 1 in Hl. apply Forall_app in Hf as [Hf He].
  rewrite Forall_singleton in He. unfold SIZE_MAX, ccol_max_elem_count in *. sz.
  replace (elem_count v - 1) with (zlen l) by lia. zlen_facts.
  assert (0 <= zlen l * elem_size v) by nia.
  assert (zlen l * elem_size v + elem_size v <= capacity v * elem_size v) by nia.
  cbn [data_ptr set_count elem_count elem_size capacity]. rewrite Hd. wp_pure. sz.
  assert (zlen (concat l) = zlen l * elem_size v) as Hcl by by apply zlen_concat.
  rewrite concat_app in Hrest. cbn [concat] in Hrest. rewrite app_nil_r, <- app_assoc in Hrest.
  apply wp_read_bytes; [lia|lia|lia|].
  rewrite Hrest, (slice_app_exact (concat l) e rest) by lia. apply wp_bind.
  assert (repr (set_count v (zlen l)) d l) as Hr'.
  { split; [destruct Hwf; split; cbn; try done; lia|]. split_and!; try done. by exists (e ++ rest). }
  unfold shrink_threshold_divisor.
  destruct (Z.ltb_spec (zlen l) (capacity v `div` 4)) as [Hlt|].
  - apply (wp_scale_down _ d l m F); [done|done| |].
    + cbn. pose proof (Z.mul_div_le (capacity v) 4). lia.
    + intros d' v' m' Hr2 Ho2 Hc He2. apply wp_ret. eapply Hok; [done|by exists d'|done].
  - apply wp_ret, wp_ret. eapply Hok; [done|by exists d|by left].
Qed.

Lemma wp_reserve v d l n m F (Q : bool * cvector -> mem -> Prop) :
  repr v d l -> owns m (blocks v d) F -> 0 <= n < two64 ->
  (forall m', owns m' (blocks v d) F -> Q (false, v) m') ->
  (forall d' v' m', repr v' d' l -> owns m' (blocks v' d') F -> n <= capacity v' ->
     elem_size v' = elem_size v -> elem_count v' = elem_count v -> moved d d' ->
     v_addr v' = v_addr v -> capacity v <= capacity v' ->
     (n <= capacity v -> v' = v /\ d' = d) ->
     Q (true, v') m') ->
  wp (cvector_reserve (Some v) n) m Q.
Proof.
  intros Hr Ho Hn Hfail Hok. pose proof (repr_arith _ _ _ Hr).
  unfold cvector_reserve. wp_pure. unfold _ccol_cvector_minimum_capacity. rewrite !Z.gtb_ltb.
  pose proof (Pow2.pow2_ok n) as Hp2.
  destruct (Pow2.pow2_cases n Hn) as [(Hmax & Hr1 & Hr2)|(Hmax & ->)].
  2:{ change (ccol_invalid_size <? 4) with false. cbv iota.
      change (ccol_max_elem_count <? ccol_invalid_size) with true. by apply wp_ret, Hfail. }
  destruct (Hp2 ltac:(lia)) as ((k & Hk & Ek) & _ & Hleast). clear Hp2.
  set (r := if _ <? 4 then 4 else _).
  assert (exists k, 2 <= k <= 63 /\ r = 2 ^ k) as Hrp.
  { unfold r. destruct (Z.ltb_spec (Pow2._ccol_find_nearest_gte_power_of_two n) 4) as [|H4];
      [by exists 2|]. exists k. split; [|done]. rewrite Ek in *.
    unfold ccol_max_elem_count in *. change 9223372036854775808 with (2 ^ 63) in *.
    change 4 with (2 ^ 2) in H4. apply Z.pow_le_mono_r_iff in H4; [|lia..].
    destruct Hr1 as [_ Hr1]. apply Z.pow_le_mono_r_iff in Hr1; lia. }
  assert (n <= r) as Hnr by (unfold r; zcase; lia).
  assert (n <= capacity v -> r <= capacity v) as Hrc.
  { intros Hnc. destruct Hr as ([_ (kc & Hkc & Ec) _ _ _] & _). unfold r. zcase; [lia|].
    rewrite Ec in Hnc |- *. apply Hleast; lia. }
  clearbody r. pose proof (pow2_bounds _ Hrp).
  destruct (Z.ltb_spec ccol_max_elem_count r); [lia|].
  destruct (Z.ltb_spec (SIZE_MAX `div` elem_size v) r) as [|Hfit]; [by apply wp_ret, Hfail|].
  apply fits_iff in Hfit; [|lia..].
  destruct (Z.leb_spec r (capacity v)).
  { apply wp_ret, (Hok d v); try done; [lia|]. intros ?. apply ztake_all. lia. }
  assert (0 <= r * elem_size v) by nia. unfold SIZE_MAX in *. sz. apply wp_bind.
  apply (wp_realloc_data v d l r _ m F); [done|done|done|lia|done|unfold SIZE_MAX; lia| |].
  - intros m' Ho' _. by apply wp_ret, Hfail.
  - intros d' m' Hr' Hm Ho'. apply wp_ret, (Hok d'); try done; cbn; lia.
Qed.

(** The bytes of [n] elements, cut into them. *)
Lemma chunks_bytes es n (bs : list Z) :
  0 <= es -> 0 <= n -> zlen bs = n * es ->
  concat (chunks es (Z.to_nat n) bs) = bs /\
  Forall (fun e => zlen e = es) (chunks es (Z.to_nat n) bs) /\
  zlen (chunks es (Z.to_nat n) bs) = n.
Proof.
  intros Hes Hn Hl. split_and!.
  - rewrite concat_chunks by lia. apply ztake_all. lia.
  - apply Forall_chunks; lia.
  - rewrite zlen_chunks. lia.
Qed.

Lemma wp_copy_into_tail v d l p n bs m (Q : cvector -> mem -> Prop) :
  repr v d l -> 0 <= n -> elem_count v + n <= capacity v ->
  ptr_bytes d p (n * elem_size v) = Some bs ->
  (forall d' v', repr (set_count v' (elem_count v + n)) d' (l ++ chunks (elem_size v) (Z.to_nat n) bs) ->
     blocks v' d' = blocks v d -> v' = set_data v d' -> Q v' m) ->
  wp (cvector_copy_into_tail v p (n * elem_size v)) m Q.
Proof.
  intros Hr Hn Hroom Hp HQ. pose proof (repr_arith _ _ _ Hr).
  pose proof Hr as (_ & Hd & _ & Hlen & _).
  destruct (ptr_bytes_len _ _ _ _ Hp) as [Hbs Hnn].
  destruct (chunks_bytes (elem_size v) n bs) as (Hc & Hf & Hl); [lia|lia|done|].
  assert (elem_count v * elem_size v + n * elem_size v <= capacity v * elem_size v) by nia.
  unfold cvector_copy_into_tail. rewrite Hd. wp_pure. unfold SIZE_MAX in *. sz.
  set (d' := Block (b_id d) (splice (b_bytes d) (elem_count v * elem_size v) bs)).
  assert (Q (set_data v d') m) as HQ'.
  { apply (HQ d'); [|done..]. eapply repr_append; [done..|lia|lia|done]. }
  destruct (ptr_overlaps _ _ _ _) eqn:Hov.
  - apply (wp_memmove_ptr d _ p _ bs); [done|lia|lia|by apply wp_ret].
  - apply (wp_memcpy_ptr d _ p _ bs); [done|done|lia|lia|by apply wp_ret].
Qed.

(** The overflow check on the total element count. *)
Lemma count_guard a b :
  0 <= a < two64 -> 0 <= b < two64 ->
  (a ⊕ b <? a) || (a ⊕ b >? ccol_max_elem_count) = false -> a + b <= ccol_max_elem_count.
Proof.
  intros Ha Hb Hg. zbool. unfold ccol_max_elem_count in *.
  destruct (Z_lt_le_dec (a + b) two64) as [|Hw]; [by sz|].
  apply wrap_add_overflow in Hw; [lia|done..].
Qed.

Lemma wp_append_array v l es p n bs m F (Q : bool * cvector -> mem -> Prop) :
  vec_is m F v l es -> 0 < n < two64 -> src_bytes v p (n * es) = Some bs ->
  (forall m', vec_is m' F v l es -> Q (false, v) m') ->
  (forall v' m', vec_is m' F v' (l ++ chunks es (Z.to_nat n) bs) es ->
     v_addr v' = v_addr v -> Q (true, v') m') ->
  wp (cvector_append_array (Some v) (Some p) n) m Q.
Proof.
  intros (d & Hr & Ho & <-) Hn Hp Hfail Hok. pose proof (repr_arith _ _ _ Hr) as Ha.
  pose proof Hr as (Hwf & Hd & Hne & Hlen & Hl & _).
  unfold src_bytes in Hp. rewrite Hd in Hp. cbn in Hp.
  unfold cvector_append_array. wp_pure. destruct (Z.eqb_spec n 0); [lia|]. cbv zeta.
  destruct (_ || _) eqn:Hguard; [apply wp_ret, Hfail; by exists d|].
  apply count_guard in Hguard; [|unfold two64, ccol_max_elem_count in *; lia..].
  unfold ccol_max_elem_count, SIZE_MAX in *. sz.
  assert (aliases_self v p = match p with At _ _ => true | Foreign _ => false end) as Hal
    by (eapply aliases_self_readable; [done| |done]; nia).
  assert ((aliases_self v p && (n >? (capacity v * elem_size v ⊖
    (if aliases_self v p then ptr_offset p else 0)) `div` elem_size v)) = false) as ->.
  { rewrite Hal. destruct p as [|b off]; [done|]. apply ptr_bytes_At in Hp as (_ & Hp1 & Hp2 & Hp3 & _).
    cbn [ptr_offset andb]. sz. rewrite Z.gtb_ltb. apply Z.ltb_ge, Z.div_le_lower_bound; lia. }
  destruct (Z.leb_spec (elem_count v + n) (capacity v)).
  - assert (n * elem_size v <= capacity v * elem_size v) by (apply Z.mul_le_mono_nonneg_r; lia).
    assert (0 <= n * elem_size v) by (apply Z.mul_nonneg_nonneg; lia). sz. apply wp_bind.
    apply (wp_copy_into_tail v d l p n bs); [done|lia|done|done|].
    intros d' v' Hr' Hb ->. apply wp_ret. cbn. sz. apply Hok; [|done]. exists d'. split; [done|].
    split; [|done]. change (blocks (set_count (set_data v d') (elem_count v + n)) d') with (blocks (set_data v d') d').
    by rewrite Hb.
  - apply wp_bind, (wp_reserve v d l (elem_count v + n) m F); [done|done|unfold two64 in *; lia| |].
    { intros m' Ho'. cbn. apply wp_ret, Hfail. by exists d. }
    intros d' v' m' Hr' Ho' Hcap Hes Hcnt Hm Haddr Hcc _. cbn [negb]. apply wp_bind.
    apply (wp_rebase v d l v' d' p (n * elem_size v) bs); try done; [nia|apply Hr'| |].
    { destruct Hr' as (_ & _ & _ & -> & _). rewrite Hlen, Hes. nia. }
    intros p' Hp' _. rewrite <- Hes in *. pose proof (repr_arith _ _ _ Hr').
    assert (n * elem_size v' <= capacity v' * elem_size v') by (apply Z.mul_le_mono_nonneg_r; lia).
    assert (0 <= n * elem_size v') by (apply Z.mul_nonneg_nonneg; lia). unfold SIZE_MAX in *. sz.
    apply wp_bind, (wp_copy_into_tail v' d' l p' n bs); [done|lia|lia|done|].
    intros d'' v'' Hr'' Hb ->. apply wp_ret. cbn. rewrite Hcnt in *. sz. apply Hok; [|done].
    exists d''. split; [done|]. split; [|done].
    change (blocks (set_count (set_data v' d'') (elem_count v + n)) d'') with (blocks (set_data v' d'') d'').
    by rewrite Hb.
Qed.

(** A source range that starts in the buffer and runs past its end is
    refused before any byte is read. *)
Lemma wp_append_array_overrun v d l off n m (Q : bool * cvector -> mem -> Prop) :
  repr v d l -> 0 < n < two64 -> 0 <= off < capacity v * elem_size v ->
  capacity v * elem_size v < off + n * elem_size v ->
  Q (false, v) m ->
  wp (cvector_append_array (Some v) (Some (At (b_id d) off)) n) m Q.
Proof.
  intros Hr Hn Hoff Hover HQ. pose proof (repr_arith _ _ _ Hr) as Ha.
  pose proof Hr as (_ & Hd & _).
  unfold cvector_append_array, aliases_self. wp_pure. destruct (Z.eqb_spec n 0); [lia|]. cbv zeta.
  destruct (_ || _); [by apply wp_ret|]. rewrite Hd, bool_decide_true by done.
  unfold SIZE_MAX in *. sz. cbn [andb ptr_offset].
  destruct (Z.leb_spec 0 off), (Z.ltb_spec off (capacity v * elem_size v)); try lia. cbn [andb].
  rewrite Z.gtb_ltb. sz. destruct (Z.ltb_spec ((capacity v * elem_size v - off) `div` elem_size v) n) as [|Hle].
  - by apply wp_ret.
  - pose proof (Z.mul_div_le (capacity v * elem_size v - off) (elem_size v) ltac:(lia)).
    apply (Z.mul_le_mono_nonneg_r _ _ (elem_size v)) in Hle; lia.
Qed.

Lemma wp_append_self v l es m F (Q : bool * cvector -> mem -> Prop) :
  vec_is m F v l es ->
  (forall m' v', vec_is m' F v' l es -> Q (false, v') m') ->
  (forall v' m', vec_is m' F v' (l ++ l) es -> Q (true, v') m') ->
  wp (cvector_append_cvector (Some v) (Some v)) m Q.
Proof.
  intros (d & Hr & Ho & Hes) Hfail Hok. pose proof (repr_arith _ _ _ Hr) as Ha.
  unfold cvector_append_cvector. rewrite Z.eqb_refl, bool_decide_true by done. cbn [negb]. cbv zeta.
  destruct (_ || _) eqn:Hguard; [apply wp_ret, Hfail; by exists d|].
  apply count_guard in Hguard; [|unfold two64, ccol_max_elem_count in *; lia..].
  unfold ccol_max_elem_count in *. sz.
  apply wp_bind, (wp_reserve v d l (elem_count v + elem_count v) m F); [done|done|unfold two64; lia| |].
  { intros m' Ho'. apply wp_ret, Hfail. by exists d. }
  intros d' v' m' Hr' Ho' Hcap Hes' Hcnt Hm Haddr Hcc _. cbn [negb].
  pose proof (repr_arith _ _ _ Hr') as Ha'.
  pose proof Hr' as (_ & Hd' & _ & Hlen' & Hl' & Hf' & rest & Hrest).
  unfold source_of. rewrite Hd', bool_decide_true by done. cbn [mbind option_bind].
  destruct (Z.eq_dec (elem_count v') 0) as [E0|].
  { rewrite E0. apply wp_ret. assert (l = []) as -> by (apply zlen_0_nil; lia).
    apply Hok. exists d'. split; [done|]. split; [done|congruence]. }
  apply (wp_append_array v' l es (At (b_id d') 0) (elem_count v') (concat l) _ F).
  - exists d'. split; [done|]. split; [done|congruence].
  - unfold ccol_max_elem_count, two64 in *. lia.
  - unfold src_bytes. rewrite Hd'. cbn [mbind option_bind]. apply ptr_bytes_At.
    rewrite <- Hes, <- Hes'. split_and!; try done; try lia.
    rewrite Hrest. unfold slice. rewrite zdrop_0. symmetry. apply ztake_app_exact. lia.
  - intros m'' Hv. by apply Hfail.
  - intros v'' m'' Hv _. apply Hok.
    assert (chunks es (Z.to_nat (elem_count v')) (concat l) = l) as E; [|by rewrite E in Hv].
    rewrite <- (app_nil_r (concat l)), <- Hl'. unfold zlen. rewrite Nat2Z.id.
    apply chunks_concat. rewrite <- Hes, <- Hes'. done.
Qed.

(** A reallocation does not look at the element count. *)
Lemma wp_realloc_count v k n m (Q : option cvector -> mem -> Prop) :
  wp (realloc_data (set_count v k) n) m
    (fun r m' => Q (v' ← r; set_data v <$> data_ptr v') m') ->
  wp (realloc_data v n) m Q.
Proof.
  unfold wp, realloc_data. cbn. unfold mbind, M_bind. destruct (data_ptr v) as [d|]; [|done]. cbn.
  by destruct (_ccol_mem_realloc d n m) as [[?|] ?| | |].
Qed.

Lemma wp_reset v l es m F (Q : cvector -> mem -> Prop) :
  vec_is m F v l es ->
  (forall v' m', vec_is m' F v' [] es -> Q v' m') ->
  wp (cvector_reset (Some v)) m Q.
Proof.
  intros (d & Hr & Ho & Hes) HQ. pose proof (repr_arith _ _ _ Hr).
  assert (repr (set_count v 0) d []) as Hr0.
  { destruct Hr as (Hwf & Hd & Hne & Hlen & _). destruct Hwf.
    split; [split; cbn; try done; lia|]. split_and!; try done. by eexists. }
  unfold cvector_reset, _ccol_cvector_minimum_capacity. wp_pure.
  destruct (Z.eqb_spec (capacity v) 4); cbn [negb].
  { apply wp_ret, wp_ret, HQ. by exists d. }
  assert (4 * elem_size v <= capacity v * elem_size v) by nia. unfold SIZE_MAX in *. sz.
  apply wp_bind, (wp_realloc_count _ 0), (wp_realloc_data (set_count v 0) d [] 4 _ m F); [done|done|by exists 2|cbn; lia|done|unfold SIZE_MAX; cbn; lia| |].
  - intros m' Ho' _. apply wp_ret, wp_ret, HQ. by exists d.
  - intros d' m' Hr' _ Ho'. apply wp_ret, wp_ret, HQ. by exists d'.
Qed.

Lemma wp_destroy v l es m F (Q : unit -> mem -> Prop) :
  vec_is m F v l es -> (forall m', owns m' ∅ F -> Q tt m') ->
  wp (__cvector_destroy (Some v)) m Q.
Proof.
  intros (d & Hr & Ho & _) HQ. destruct Hr as (_ & Hd & Hne & _).
  unfold __cvector_destroy, blocks in *. rewrite Hd.
  apply wp_bind, (wp_free_owns _ _ _ _ _ Ho); [set_solver|]. intros m1 Ho1.
  apply (wp_free_owns _ _ _ _ _ Ho1); [set_solver|]. intros m2 Ho2. apply HQ. owns_tac.
Qed.

(** Creation succeeds exactly when its arguments are sensible and both
    requests are granted; otherwise everything is given back. *)
Definition create_sizes (es : Z) (procs : option ccol_memmgmt_procs_t) (interned : bool) : Z * Z :=
  (if bool_decide (procs ≠ None) && negb interned then 72 else 40, 4 * es).

Lemma wp_create es procs interned m F
    (Q : option cvector * option create_error -> mem -> Prop) :
  0 <= es < two64 -> owns m ∅ F ->
  let sizes := create_sizes es procs interned in
  (forall e, verify_cvector_create_inputs es procs = Some e -> Q (None, Some e) m) ->
  (forall m', verify_cvector_create_inputs es procs = None -> owns m' ∅ F ->
     grant (m_next m) sizes.1 = false -> Q (None, Some failed_to_allocate_vector_container) m') ->
  (forall m', verify_cvector_create_inputs es procs = None -> owns m' ∅ F ->
     (exists k, grant k sizes.2 = false) -> Q (None, Some failed_to_allocate_data_container) m') ->
  (forall v m', verify_cvector_create_inputs es procs = None -> vec_is m' F v [] es ->
     slot_procs (m_procs v) = procs -> capacity v = 4 -> Q (Some v, None) m') ->
  wp (cvector_create_full es procs interned) m Q.
Proof.
  intros Hes Ho sizes Hbad Hcont Hdata Hok. unfold cvector_create_full.
  destruct (verify_cvector_create_inputs es procs) as [e|] eqn:Hv; [by apply wp_ret, Hbad|].
  assert (1 <= es /\ 4 * es <= SIZE_MAX /\ _ccol_verify_memmgmt_procs procs = true) as (Hes1 & Hes4 & Hpr).
  { unfold verify_cvector_create_inputs, _ccol_cvector_minimum_capacity in Hv.
    rewrite Z.gtb_ltb in Hv. destruct (Z.eqb_spec es 0); [done|].
    destruct (Z.ltb_spec (SIZE_MAX `div` 4) es) as [|Hle]; [done|].
    destruct (_ccol_verify_memmgmt_procs procs); [|done]. unfold SIZE_MAX in *.
    change (18446744073709551615 `div` 4) with 4611686018427387903 in Hle. lia. }
  set (copy := bool_decide (procs ≠ None) && negb interned) in *.
  assert (1 * (sizeof_cvector ⊕ (if copy then sizeof_procs else 0)) = sizes.1) as Hsz
    by (unfold sizes, create_sizes; fold copy; destruct copy; done).
  assert (0 <= sizes.1) by (unfold sizes, create_sizes; fold copy; cbn; destruct copy; lia).
  apply wp_bind, (wp_calloc_owns _ _ _ _ _ _ Ho); rewrite Hsz; [done| |].
  { intros m' Ho' Hg. by apply wp_ret, Hcont. }
  intros b m1 Ho1 Hb HbF _ Hg1. unfold _ccol_cvector_minimum_capacity, SIZE_MAX in *. sz.
  cbv zeta. set (slot := match procs with None => _ | _ => _ end).
  assert (slot_procs slot = procs) as Hslot.
  { unfold slot, copy. destruct procs, interned; done. }
  clearbody slot. apply wp_bind, (wp_alloc_owns _ _ _ _ _ Ho1); [lia| |].
  - intros m2 Ho2 Hg2. apply wp_bind. unfold __cvector_destroy. cbn [data_ptr v_addr].
    apply wp_bind, wp_ret, (wp_free_owns _ _ _ _ _ Ho2); [set_solver|]. intros m3 Ho3.
    apply wp_ret, Hdata; [done|owns_tac|by eexists].
  - intros d m2 Ho2 Hd HdF Hl _. apply wp_ret, Hok; [done| |done|done].
    exists d. split; [|split; [|done]].
    + split; [split; cbn; try done; try lia; [by exists 2|congruence]|].
      split_and!; try done; [set_solver|]. by exists (b_bytes d).
    + apply (owns_change _ _ _ _ Ho2). unfold blocks. cbn. set_solver.
Qed.

(** The address of a live element, and the bytes there. *)
Lemma slot_bytes v d l i x :
  repr v d l -> zget l i = Some x ->
  0 <= i < elem_count v /\ 0 <= i * elem_size v /\
  i * elem_size v + elem_size v <= elem_count v * elem_size v /\
  i ⊗ elem_size v = i * elem_size v /\
  ptr_bytes d (At (b_id d) (i * elem_size v)) (elem_size v) = Some x.
Proof.
  intros Hr Hx. pose proof (repr_arith _ _ _ Hr). pose proof (zget_Some_lt _ _ _ Hx) as Hi.
  destruct Hr as (_ & _ & _ & Hlen & Hl & Hf & rest & Hrest).
  assert (0 <= i * elem_size v) by nia.
  assert (i * elem_size v + elem_size v <= elem_count v * elem_size v) by nia.
  split; [lia|]. split; [done|]. split; [done|]. split; [apply wrap_small; unfold SIZE_MAX, two64 in *; lia|].
  apply ptr_bytes_At. split_and!; try done; try lia.
  pose proof (zget_split _ _ _ Hx) as Hs. rewrite Hs in Hf, Hrest.
  apply Forall_app in Hf as [Hf1 [Hx' Hf2]%Forall_cons].
  rewrite concat_app in Hrest. cbn [concat] in Hrest. rewrite Hrest, <- !app_assoc.
  symmetry. apply slice_app_exact; [|done].
  rewrite (zlen_concat (elem_size v)), zlen_ztake by (done || lia). lia.
Qed.

(** The test of [cvector_find]. *)
Definition matches (cmp : option (list Z -> list Z -> Z)) (current elem : list Z) : bool :=
  match cmp with Some cmp => cmp current elem =? 0 | None => memcmp current elem =? 0 end.

(** The first index whose element matches. *)
Definition first_match (cmp : option (list Z -> list Z -> Z)) (e : list Z) (l : list (list Z))
    (r : Z) : Prop :=
  (forall j x, 0 <= j < Z.min r (zlen l) -> zget l j = Some x -> matches cmp x e = false) /\
  if bool_decide (r = ccol_invalid_size) then True
  else exists x, zget l r = Some x /\ matches cmp x e = true.

Lemma wp_find v d l p e cmp m (Q : Z -> mem -> Prop) :
  repr v d l -> ptr_bytes d p (elem_size v) = Some e ->
  (forall r, first_match cmp e l r -> Q r m) ->
  wp (cvector_find (Some v) (Some p) cmp) m Q.
Proof.
  intros Hr Hp HQ. pose proof (repr_arith _ _ _ Hr).
  pose proof Hr as (_ & Hd & _ & _ & Hl & _). unfold cvector_find. wp_pure.
  apply (wp_loop (fun i m' => m' = m /\ 0 <= i <= elem_count v /\
           forall j x, 0 <= j < i -> zget l j = Some x -> matches cmp x e = false)
         (fun i => Z.to_nat (elem_count v - i))).
  - intros i m' (-> & Hi & Hno). destruct (Z.ltb_spec i (elem_count v)); cbn [negb].
    2:{ apply wp_ret, HQ. split; [|done]. intros j x Hj. apply Hno. lia. }
    destruct (zget_is_Some l i) as [x Hx]; [lia|].
    destruct (slot_bytes _ _ _ _ _ Hr Hx) as (_ & _ & _ & -> & Hb).
    rewrite Hd. wp_pure. rewrite Hb. wp_pure. rewrite Hp. wp_pure. fold (matches cmp x e).
    destruct (matches cmp x e) eqn:Hm; apply wp_ret.
    + apply HQ. split; [intros j y Hj; apply Hno; lia|]. case_match; [done|]. by exists x.
    + unfold ccol_max_elem_count in *. sz. split; [|lia]. split; [done|]. split; [lia|].
      intros j y Hj Hy. destruct (Z.eq_dec j i) as [->|]; [congruence|]. eapply Hno; [|done]. lia.
  - split; [done|]. split; [lia|]. lia.
  - lia.
Qed.

(** Iteration visits every element once, in order, with its index, and gives
    the iterator back. *)
Definition indexed (l : list (list Z)) : list (Z * list Z) :=
  imap (fun i x => (Z.of_nat i, x)) l.

Lemma indexed_snoc l x : indexed (l ++ [x]) = indexed l ++ [(zlen l, x)].
Proof. unfold indexed. rewrite imap_app. cbn. by rewrite Nat.add_0_r. Qed.

Definition iterate_all (v : cvector) : M (option (list (Z * list Z))) :=
  '(it, failed) ← cvector_begin_iter (Some v);
  if failed : bool then mret None else
  seen ← iterate v it; mret (Some seen).

Lemma wp_iterate v d l id m F Q :
  repr v d l -> 0 < elem_count v -> owns m ({[id]} ∪ blocks v d) F -> id ∉ blocks v d ->
  (forall m', owns m' (blocks v d) F -> Q (indexed l) m') ->
  wp (iterate v (Some (CvecIterImpl id 0 (Some (At (b_id d) 0)) (elem_size v)))) m Q.
Proof.
  intros Hr Hn Ho Hid HQ. pose proof (repr_arith _ _ _ Hr).
  pose proof Hr as (_ & Hd & _ & _ & Hl & _). unfold iterate.
  apply (wp_loop (fun '(it, seen) m' =>
      match it with
      | Some impl => exists i, impl = CvecIterImpl id i (Some (At (b_id d) (i * elem_size v))) (elem_size v)
          /\ 0 <= i < elem_count v /\ seen = indexed (ztake i l)
          /\ owns m' ({[id]} ∪ blocks v d) F
      | None => seen = indexed l /\ owns m' (blocks v d) F
      end)
    (fun '(it, _) => match it with Some impl => Z.to_nat (elem_count v - it_index impl) | None => 0%nat end)).
  - intros [[impl|] seen] m'; [|by intros [-> Ho']; apply wp_ret, HQ].
    intros (i & -> & Hi & -> & Ho'). cbn [it_val it_val_size it_index]. wp_pure.
    destruct (zget_is_Some l i) as [x Hx]; [lia|].
    destruct (slot_bytes _ _ _ _ _ Hr Hx) as (_ & _ & _ & _ & Hb).
    rewrite Hd. wp_pure. rewrite Hb. wp_pure. unfold cvec_cmap_iter_next.
    assert (ztake (i + 1) l = ztake i l ++ [x]) as Htake.
    { rewrite (zget_split _ _ _ Hx) at 1. change (x :: zdrop (i + 1) l) with ([x] ++ zdrop (i + 1) l).
      rewrite app_assoc. apply ztake_app_exact. rewrite zlen_app, zlen_ztake, Z.min_l by lia. done. }
    assert (zlen (ztake i l) = i) as Hti by (rewrite zlen_ztake; lia).
    wp_pure. cbn [it_index]. unfold ccol_max_elem_count in *. sz. rewrite Z.geb_leb.
    destruct (Z.leb_spec (elem_count v) (i + 1)).
    + apply wp_bind, (wp_free_owns _ _ _ _ _ Ho'); [set_solver|]. intros m2 Ho2.
      wp_pure. split; [|lia]. split; [|owns_tac].
      transitivity (indexed (ztake (i + 1) l)); [by rewrite Htake, indexed_snoc, Hti|by rewrite ztake_all by lia].
    + rewrite Hd. wp_pure. cbn [it_index]. split; [|lia]. exists (i + 1).
      destruct (zget_is_Some l (i + 1)) as [y Hy]; [lia|].
      destruct (slot_bytes _ _ _ _ _ Hr Hy) as (_ & _ & _ & -> & _).
      split; [done|]. split; [lia|]. split; [|done]. by rewrite Htake, indexed_snoc, Hti.
  - exists 0. split_and!; done || lia.
  - cbn. lia.
Qed.

Lemma elems_repr v d l : repr v d l -> elems v d = l.
Proof.
  intros (_ & _ & _ & _ & Hl & Hf & rest & Hrest). unfold elems. rewrite Hrest, <- Hl.
  unfold zlen. rewrite Nat2Z.id. by apply chunks_concat.
Qed.

(** Writing back a rearrangement of the elements. *)
Lemma repr_rewrite v d l l' :
  repr v d l -> l' ≡ₚ l ->
  let d' := Block (b_id d) (splice (b_bytes d) 0 (concat l')) in
  repr (set_data v d') d' l'.
Proof.
  intros Hr Hp d'. pose proof (repr_arith _ _ _ Hr).
  destruct Hr as (Hwf & Hd & Hne & Hlen & Hl & Hf & rest & Hrest).
  assert (Forall (fun e => zlen e = elem_size v) l') as Hf' by by rewrite Hp.
  assert (zlen l' = zlen l) as Hl' by (unfold zlen; by rewrite Hp).
  assert (zlen (concat l') = elem_count v * elem_size v) as Hc
    by (rewrite (zlen_concat (elem_size v)) by done; lia).
  split; [destruct Hwf; split; done|]. split_and!; cbn; try done; try lia.
  - rewrite zlen_splice; lia.
  - exists rest. unfold splice. rewrite ztake_0. cbn [app]. f_equal.
    rewrite Hrest. apply zdrop_app_exact. lia.
Qed.

Lemma wp_sort v l es cmp m F `{!TotalCmp cmp} (Q : bool * cvector -> mem -> Prop) :
  vec_is m F v l es ->
  (forall v' m', 2 <= zlen l -> grant (m_next m) (zlen l * es) = false ->
     vec_is m' F v' l es -> Q (false, v') m') ->
  (forall v' m', vec_is m' F v' (stable_sort cmp l) es -> Q (true, v') m') ->
  wp (_cvector_sort (Some v) (Some cmp)) m Q.
Proof.
  intros (d & Hr & Ho & Hes) Hfail Hok. pose proof (repr_arith _ _ _ Hr).
  pose proof Hr as (Hwf & Hd & _ & Hlen & Hl & _). destruct Hwf as [_ _ _ _ Hpr].
  unfold _cvector_sort. wp_pure. rewrite Hd, Hpr. wp_pure. cbn [default].
  rewrite bool_decide_true by done. rewrite (elems_repr v d l) by done. rewrite <- Hl.
  assert (sort_outcome cmp l (elem_size v) true = fun granted r l' =>
    if granted then r = true /\ l' = stable_sort cmp l else r = false /\ l' = l) as Hout.
  { unfold sort_outcome. rewrite (proj2 (csort_check_sort_shape_ready _ _ _)); [done|].
    split_and!; try done; try lia. apply fits_iff; lia. }
  unfold ccol_max_elem_count, SIZE_MAX in *.
  eapply wp_mono; [apply (wp_merge_sort_contiguous cmp l (elem_size v) true m (blocks v d) F);
    [unfold two64; lia|unfold two64; lia|done]|].
  intros [r col] m' [(l' & -> & Hres) Ho']. wp_pure.
  rewrite Hout in Hres. rewrite Hes in Hres.
  assert (l' ≡ₚ l) as Hperm.
  { destruct (zlen l <? 2); [by destruct Hres as [_ ->]|].
    destruct (grant _ _), Hres as [_ ->]; [apply stable_sort_perm|done]. }
  pose proof (repr_rewrite v d l l' Hr Hperm) as Hr'. cbv zeta in Hr'.
  apply wp_memcpy_in; [lia| |].
  { assert (zlen (concat l') = zlen (concat l)) as -> by (unfold zlen; by rewrite Hperm). lia. }
  apply wp_ret. set (d' := Block _ _) in *.
  assert (vec_is m' F (set_data v d') l' es) as Hv by by exists d'.
  destruct (Z.ltb_spec (zlen l) 2).
  - destruct Hres as [-> ->]. apply Hok.
    assert (stable_sort cmp l = l) as ->; [|done]. destruct l as [|x [|y l]]; [done|done|].
    rewrite !zlen_cons in *. zlen_facts. lia.
  - destruct (grant _ _) eqn:Hg, Hres as [-> ->]; [by apply Hok|by apply Hfail].
Qed.

End CVector.

(** ** Histories

    A client of the vector as a list of operations; sources are memory of the
    client's, or elements of the vector itself. *)
Section History.
Context {alloc : Allocator}.
Variable cmp : list Z -> list Z -> Z.
Context `{!TotalCmp cmp}.

Inductive vop :=
  | VPush (e : list Z)
  | VPushAt (i : Z)
  | VPop
  | VReserve (n : Z)
  | VAppend (arr : list (list Z))
  | VAppendRange (i n : Z)
  | VAppendSelf
  | VReset
  | VSort.

Inductive vres :=
  | RCode (r : ccol_retval_t)
  | RPopped (r : ccol_retval_t) (e : option (list Z))
  | RBool (b : bool)
  | RNone.

Definition run_op (v : cvector) (op : vop) : M (vres * cvector) :=
  match op with
  | VPush e =>
      '(r, v) ← cvector_push_back (Some v) (Some (Foreign e)); mret (RCode r, v)
  | VPushAt i =>
      p ← cvector_at (Some v) i;
      '(r, v) ← cvector_push_back (Some v) p; mret (RCode r, v)
  | VPop => '(r, e, v) ← cvector_pop_back (Some v) true; mret (RPopped r e, v)
  | VReserve n => '(b, v) ← cvector_reserve (Some v) n; mret (RBool b, v)
  | VAppend arr =>
      '(b, v) ← cvector_append_array (Some v) (Some (Foreign (concat arr))) (zlen arr);
      mret (RBool b, v)
  | VAppendRange i n =>
      p ← cvector_at (Some v) i;
      count ← cvector_elem_count (Some v);
      '(b, v) ← cvector_append_array (Some v) p (Z.max 0 (Z.min n (count - i)));
      mret (RBool b, v)
  | VAppendSelf => '(b, v) ← cvector_append_cvector (Some v) (Some v); mret (RBool b, v)
  | VReset => v ← cvector_reset (Some v); mret (RNone, v)
  | VSort => '(b, v) ← _cvector_sort (Some v) (Some cmp); mret (RBool b, v)
  end.

Fixpoint run_ops (v : cvector) (ops : list vop) : M (list vres * cvector) :=
  match ops with
  | [] => mret ([], v)
  | op :: ops =>
      '(r, v) ← run_op v op;
      '(rs, v) ← run_ops v ops;
      mret (r :: rs, v)
  end.

(** The abstract vector: a list, and what each operation may answer. *)
Definition pushed (l : list (list Z)) (e : list Z) (r : ccol_retval_t) (l' : list (list Z)) : Prop :=
  (r = ccol_success /\ l' = l ++ [e]) \/
  ((r = ccol_container_full \/ r = ccol_not_enough_memory) /\ l' = l).

Definition vspec (l : list (list Z)) (op : vop) (r : vres) (l' : list (list Z)) : Prop :=
  match op, r with
  | VPush e, RCode r => pushed l e r l'
  | VPushAt i, RCode r =>
      match zget l i with
      | Some e => pushed l e r l'
      | None => r = ccol_invalid_args /\ l' = l
      end
  | VPop, RPopped r e =>
      (r = ccol_container_empty /\ e = None /\ l = [] /\ l' = []) \/
      (exists x, r = ccol_success /\ e = Some x /\ l = l' ++ [x])
  | VReserve _, RBool _ => l' = l
  | VAppend arr, RBool b => l' = if b then l ++ arr else l
  | VAppendRange i n, RBool b => l' = if b then l ++ slice l i n else l
  | VAppendSelf, RBool b => l' = if b then l ++ l else l
  | VReset, RNone => l' = []
  | VSort, RBool b => if b then stable_sort_of cmp l l' else l' = l
  | _, _ => False
  end.

Inductive vspecs : list (list Z) -> list vop -> list vres -> list (list Z) -> Prop :=
  | vspecs_nil l : vspecs l [] [] l
  | vspecs_cons l op r l1 ops rs l2 :
      vspec l op r l1 -> vspecs l1 ops rs l2 -> vspecs l (op :: ops) (r :: rs) l2.

(** The arguments fit the types of the C functions. *)
Definition vop_wf (es : Z) (op : vop) : Prop :=
  match op with
  | VPush e => zlen e = es
  | VPushAt i => 0 <= i < two64
  | VReserve n => 0 <= n < two64
  | VAppend arr => Forall (fun e => zlen e = es) arr /\ zlen arr < two64
  | VAppendRange i n => 0 <= i < two64 /\ 0 <= n < two64
  | _ => True
  end.

Lemma wp_at v d l i m (Q : option ptr -> mem -> Prop) :
  repr v d l -> 0 <= i ->
  (forall x, zget l i = Some x -> Q (Some (At (b_id d) (i * elem_size v))) m) ->
  (zget l i = None -> Q None m) ->
  wp (cvector_at (Some v) i) m Q.
Proof.
  intros Hr Hi Hin Hout. pose proof Hr as (_ & Hd & _ & _ & Hl & _). unfold cvector_at. wp_pure.
  rewrite Z.gtb_ltb. zlen_facts.
  destruct (Z.ltb_spec i (elem_count v)), (Z.ltb_spec 0 (elem_count v)); cbn [andb]; try lia.
  - destruct (zget_is_Some l i) as [x Hx]; [lia|]. rewrite Hd. wp_pure.
    destruct (slot_bytes _ _ _ _ _ Hr Hx) as (_ & _ & _ & -> & _). by eapply Hin.
  - apply wp_ret, Hout. destruct (zget l i) eqn:E; [apply zget_Some_lt in E; lia|done].
  - apply wp_ret, Hout. destruct (zget l i) eqn:E; [apply zget_Some_lt in E; lia|done].
Qed.

Lemma src_bytes_own v d l n off bs :
  repr v d l -> ptr_bytes d (At (b_id d) off) n = Some bs ->
  src_bytes v (At (b_id d) off) n = Some bs.
Proof. intros (_ & Hd & _) H. unfold src_bytes. by rewrite Hd. Qed.

Lemma src_bytes_foreign v d l bs n :
  repr v d l -> zlen bs = n -> src_bytes v (Foreign bs) n = Some bs.
Proof.
  intros (_ & Hd & _) <-. unfold src_bytes. rewrite Hd. cbn. zlen_facts.
  destruct (Z.leb_spec 0 (zlen bs)); [|lia]. rewrite Z.leb_refl. cbn. f_equal.
  by apply ztake_all.
Qed.

Lemma src_apart_foreign v bs n : src_apart v (Foreign bs) n.
Proof. by intros d Hd. Qed.

Lemma src_apart_own v d l off n :
  repr v d l -> off + n <= elem_count v * elem_size v -> src_apart v (At (b_id d) off) n.
Proof.
  intros (_ & Hd & _) Hoff d' [= <-]%(eq_trans (eq_sym Hd)). unfold source_apart. cbn.
  destruct (Z.ltb_spec (elem_count v * elem_size v) (off + n)); [lia|]. by rewrite andb_false_r.
Qed.

(** A range of live elements of the vector itself. *)
Lemma range_bytes v d l i n :
  repr v d l -> 0 <= i -> 0 <= n -> i + n <= zlen l ->
  ptr_bytes d (At (b_id d) (i * elem_size v)) (n * elem_size v) = Some (concat (slice l i n)) /\
  Forall (fun e => zlen e = elem_size v) (slice l i n).
Proof.
  intros Hr Hi Hn Hin. pose proof (repr_arith _ _ _ Hr).
  destruct Hr as (_ & _ & _ & Hlen & Hl & Hf & rest & Hrest).
  assert (l = ztake i l ++ slice l i n ++ zdrop (i + n) l) as Hs.
  { unfold slice. rewrite <- (zdrop_zdrop n i), ztake_zdrop, ztake_zdrop by lia. done. }
  rewrite Hs in Hf. apply Forall_app in Hf as [Hf1 [Hf2 _]%Forall_app].
  assert (zlen (concat (slice l i n)) = n * elem_size v) as Hc
    by (rewrite (zlen_concat (elem_size v)), zlen_slice by (done || lia); done).
  assert (zlen (concat (ztake i l)) = i * elem_size v) as Hci
    by (rewrite (zlen_concat (elem_size v)), zlen_ztake, Z.min_l by (done || lia); done).
  split; [|done]. apply ptr_bytes_At.
  rewrite Hs, !concat_app, <- !app_assoc in Hrest.
  split_and!; [done|lia|nia| |].
  - assert (i * elem_size v + n * elem_size v <= zlen l * elem_size v) by nia. rewrite Hl in *. lia.
  - rewrite Hrest. symmetry. apply slice_app_exact; done.
Qed.

Lemma chunks_of_concat es (ls : list (list Z)) n :
  Forall (fun e => zlen e = es) ls -> n = zlen ls -> chunks es (Z.to_nat n) (concat ls) = ls.
Proof.
  intros Hf ->. rewrite <- (app_nil_r (concat ls)). unfold zlen. rewrite Nat2Z.id.
  by apply chunks_concat.
Qed.

Lemma wp_append_array_0 v p m (Q : bool * cvector -> mem -> Prop) :
  Q (true, v) m -> wp (cvector_append_array (Some v) p 0) m Q.
Proof. done. Qed.

(** One operation refines the abstract vector. *)
Definition refines (es : Z) (F : gset nat) (l : list (list Z)) (op : vop) :
    vres * cvector -> mem -> Prop :=
  fun '(r, v') m' => exists l', vspec l op r l' /\ vec_is m' F v' l' es.

Lemma wp_push_refines v l es p e op m F :
  vec_is m F v l es -> src_bytes v p es = Some e -> src_apart v p es ->
  (forall r l', pushed l e r l' -> vspec l op (RCode r) l') ->
  wp ('(r, v) ← cvector_push_back (Some v) (Some p); mret (RCode r, v)) m (refines es F l op).
Proof.
  intros Hv Hp Ha Hop. apply wp_bind, (wp_push_back v l es p e m F); [done..| | |].
  - intros v' m' Hv'. apply wp_ret. eexists. split; [apply Hop; by left|done].
  - intros _ _. apply wp_ret. eexists. split; [apply Hop; right; auto|done].
  - intros m' _ _ Hv'. apply wp_ret. eexists. split; [apply Hop; right; auto|done].
Qed.

Lemma wp_append_refines v l es p ls n op m F :
  vec_is m F v l es -> n = zlen ls -> 0 <= n < two64 -> Forall (fun e => zlen e = es) ls ->
  (0 < n -> exists p', p = Some p' /\ src_bytes v p' (n * es) = Some (concat ls)) ->
  (forall b, vspec l op (RBool b) (if b then l ++ ls else l)) ->
  wp ('(b, v) ← cvector_append_array (Some v) p n; mret (RBool b, v)) m (refines es F l op).
Proof.
  intros Hv Hn Hr Hf Hp Hop. apply wp_bind. destruct (Z.eq_dec n 0) as [->|].
  { apply wp_append_array_0, wp_ret. exists l. split; [|done].
    assert (ls = []) as -> by (apply zlen_0_nil; lia). specialize (Hop true). by rewrite app_nil_r in Hop. }
  destruct (Hp ltac:(lia)) as (p' & -> & Hb).
  apply (wp_append_array v l es p' n (concat ls) m F); [done|lia|done| |].
  - intros m' Hv'. apply wp_ret. exists l. split; [apply (Hop false)|done].
  - intros v' m' Hv' _. apply wp_ret. rewrite chunks_of_concat in Hv' by done.
    exists (l ++ ls). split; [apply (Hop true)|done].
Qed.

Lemma wp_run_op v l es op m F :
  vec_is m F v l es -> vop_wf es op -> wp (run_op v op) m (refines es F l op).
Proof.
  intros Hv Hop. pose proof Hv as (d & Hr & Ho & He). pose proof (repr_arith _ _ _ Hr) as Ha.
  assert (zlen l = elem_count v) as Hl by apply Hr. destruct op; cbn [run_op vop_wf] in *.
  - apply (wp_push_refines _ _ _ _ e); [done|by eapply src_bytes_foreign|apply src_apart_foreign|done].
  - apply wp_bind, (wp_at v d l i); [done|lia| |].
    + intros x Hx. destruct (slot_bytes _ _ _ _ _ Hr Hx) as (_ & _ & Hle & _ & Hb).
      apply (wp_push_refines _ _ _ _ x); [done| | |].
      * rewrite <- He. by eapply src_bytes_own.
      * rewrite <- He. by eapply src_apart_own.
      * cbn. by rewrite Hx.
    + intros Hx. apply wp_ret. exists l. split; [|done]. cbn. by rewrite Hx.
  - apply wp_bind, (wp_pop_back v l es m F); [done| |].
    + intros ->. apply wp_ret. exists []. split; [left; done|done].
    + intros l' e v' m' -> Hv' _. apply wp_ret. exists l'. split; [right; by exists e|done].
  - apply wp_bind, (wp_reserve v d l n m F); [done..| |].
    + intros m' Ho'. apply wp_ret. exists l. split; [done|by exists d].
    + intros d' v' m' Hr' Ho' _ He' _ _ _ _ _. apply wp_ret. exists l. split; [done|].
      exists d'. split; [done|]. split; [done|congruence].
  - destruct Hop as [Hf Hlt]. zlen_facts.
    apply (wp_append_refines _ _ _ _ arr); [done|done|lia|done| |done].
    intros _. eexists. split; [done|]. eapply src_bytes_foreign; [done|]. by apply zlen_concat.
  - apply wp_bind, (wp_at v d l i); [done|lia| |].
    + intros x Hx. pose proof (zget_Some_lt _ _ _ Hx).
      apply wp_bind, (wp_ret (elem_count v)). rewrite <- Hl.
      replace (Z.max 0 (Z.min n (zlen l - i))) with (Z.min n (zlen l - i)) by lia.
      assert (slice l i n = slice l i (Z.min n (zlen l - i))) as Hs.
      { unfold slice. destruct (Z.min_spec n (zlen l - i)) as [[_ ->]|[? ->]]; [done|].
        rewrite !ztake_all; [done|zlia..]. }
      destruct (range_bytes v d l i (Z.min n (zlen l - i)) Hr) as [Hb Hf]; [lia..|].
      rewrite <- He in *. unfold ccol_max_elem_count, two64 in *.
      apply (wp_append_refines _ _ _ _ (slice l i (Z.min n (zlen l - i)))).
      * done.
      * rewrite zlen_slice; lia.
      * unfold two64. lia.
      * done.
      * intros _. eexists. split; [done|]. by eapply src_bytes_own.
      * intros [|]; cbn; by rewrite ?Hs.
    + intros Hx. apply wp_bind, (wp_ret (elem_count v)).
      assert (zlen l <= i) as Hle.
      { destruct (Z_lt_le_dec i (zlen l)); [|done]. destruct (zget_is_Some l i); [lia|congruence]. }
      replace (Z.max 0 (Z.min n (elem_count v - i))) with 0 by lia.
      assert (slice l i n = []) as Hs.
      { unfold slice. rewrite zdrop_all by done. unfold ztake. by rewrite take_nil. }
      apply wp_bind, wp_append_array_0, wp_ret. exists l. split; [|done].
      cbn. by rewrite Hs, app_nil_r.
  - apply wp_bind, (wp_append_self v l es m F); [done| |].
    + intros m' v' Hv'. apply wp_ret. by exists l.
    + intros v' m' Hv'. apply wp_ret. by exists (l ++ l).
  - apply wp_bind, (wp_reset v l es m F); [done|]. intros v' m' Hv'. apply wp_ret. by exists [].
  - apply wp_bind, (wp_sort v l es cmp m F); [done| |].
    + intros v' m' _ _ Hv'. apply wp_ret. by exists l.
    + intros v' m' Hv'. apply wp_ret. exists (stable_sort cmp l). split; [|done].
      cbn. by apply stable_sort_is_stable_sort.
Qed.

Lemma wp_run_ops v l es ops m F :
  vec_is m F v l es -> Forall (vop_wf es) ops ->
  wp (run_ops v ops) m (fun '(rs, v') m' =>
    exists l', vspecs l ops rs l' /\ vec_is m' F v' l' es).
Proof.
  intros Hv Hops. revert v l m Hv. induction Hops as [|op ops Hop Hops IH]; intros v l m Hv.
  { apply wp_ret. exists l. split; [constructor|done]. }
  cbn [run_ops]. apply wp_bind. eapply wp_mono; [by apply wp_run_op|].
  intros [r v1] m1 (l1 & Hs1 & Hv1). apply wp_bind. eapply wp_mono; [by apply IH|].
  intros [rs v2] m2 (l2 & Hs2 & Hv2). apply wp_ret. exists l2. split; [by econstructor|done].
Qed.
End History.
End CVector.

(** ** Properties *)
Section Properties.
Context {alloc : Allocator}.
Import CVector.

(** C9: whatever the allocator refuses, every history of a vector, from its
    creation through any sequence of operations (pushes and appends from
    foreign memory, from elements of the vector itself and of the vector as
    a whole, pops, reservations, resets, sorts), terminates, never accesses
    a byte out of bounds or through a moved buffer, and answers as the
    abstract list does; the live elements are that list, and destroying the
    vector gives back every block. *)
Theorem vector_history cmp `{!TotalCmp cmp} es procs interned ops m F :
  0 <= es < two64 -> Forall (vop_wf es) ops -> owns m ∅ F ->
  wp (created ← cvector_create_full es procs interned;
      match created with
      | (None, _) => mret None
      | (Some v, _) => r ← run_ops cmp v ops; mret (Some r)
      end) m (fun result m' =>
    match result with
    | None => owns m' ∅ F
    | Some (rs, v) => exists d l,
        vspecs cmp [] ops rs l /\ data_ptr v = Some d /\ elems v d = l /\
        elem_count v = zlen l /\ zlen l <= capacity v /\ repr v d l /\
        wp (__cvector_destroy (Some v)) m' (fun _ m'' => owns m'' ∅ F)
    end).
Proof.
  intros Hes Hops Ho. apply wp_bind.
  apply (wp_create es procs interned m F); [done|done|..].
  - intros e _. by apply wp_ret.
  - intros m' _ Ho' _. by apply wp_ret.
  - intros m' _ Ho' _. by apply wp_ret.
  - intros v m1 _ Hv _ _. apply wp_bind. eapply wp_mono; [by apply wp_run_ops|].
    intros [rs v2] m2 (l & Hs & Hv2). apply wp_ret.
    pose proof Hv2 as (d & Hr & Ho2 & He). pose proof (repr_arith _ _ _ Hr).
    pose proof (elems_repr _ _ _ Hr). pose proof Hr as (_ & Hd & _ & _ & Hl & _).
    exists d, l. split_and!; try done; try lia.
    eapply wp_destroy; [done|]. done.
Qed.

(** A push stores a copy of the element, wherever the caller's pointer
    points, foreign memory or an element of the vector that the growth may
    move; it fails only on a full buffer, with [ccol_container_full] exactly
    when doubling the capacity would pass a limit and with
    [ccol_not_enough_memory] exactly when the reallocation was refused, and
    then the vector is what it was. *)
Theorem vector_push_back v l es p e m F :
  vec_is m F v l es -> src_bytes v p es = Some e -> src_apart v p es ->
  wp (cvector_push_back (Some v) (Some p)) m (fun '(r, v') m' =>
    match r with
    | ccol_success => vec_is m' F v' (l ++ [e]) es
    | ccol_container_full => v' = v /\ m' = m /\ zlen l = capacity v /\ capacity_limit v
    | ccol_not_enough_memory =>
        v' = v /\ vec_is m' F v l es /\ zlen l = capacity v /\
        grant (m_next m) (2 * capacity v * es) = false
    | _ => False
    end).
Proof.
  intros Hv Hp Ha. by apply (wp_push_back v l es p e m F).
Qed.

(** An append whose source lies in the vector's own buffer, live
    elements or reserved room, copies the bytes that were there before the
    call even when the buffer moves or the ranges overlap; a range that runs
    past the buffer is refused with nothing read and nothing changed. *)
Theorem vector_append_alias v d l off n m F :
  repr v d l -> owns m (blocks v d) F -> 0 < n < two64 ->
  0 <= off < capacity v * elem_size v ->
  wp (cvector_append_array (Some v) (Some (At (b_id d) off)) n) m (fun '(ok, v') m' =>
    match ptr_bytes d (At (b_id d) off) (n * elem_size v) with
    | Some bs =>
        vec_is m' F v' (if ok then l ++ chunks (elem_size v) (Z.to_nat n) bs else l) (elem_size v)
    | None => ok = false /\ v' = v /\ m' = m
    end).
Proof.
  intros Hr Ho Hn Hoff. destruct (ptr_bytes d _ _) as [bs|] eqn:Hb.
  - apply (wp_append_array v l (elem_size v) (At (b_id d) off) n bs m F); [by exists d|done| | |].
    + by eapply src_bytes_own.
    + done.
    + done.
  - pose proof (repr_arith _ _ _ Hr).
    apply (wp_append_array_overrun v d l); try done.
    destruct (Z_lt_le_dec (capacity v * elem_size v) (off + n * elem_size v)) as [|Hle]; [done|].
    assert (zlen (b_bytes d) = capacity v * elem_size v) by apply Hr.
    assert (ptr_bytes d (At (b_id d) off) (n * elem_size v)
            = Some (slice (b_bytes d) off (n * elem_size v))) as Hs; [|congruence].
    apply ptr_bytes_At. split_and!; try done; nia.
Qed.

(** An iteration over a vector either fails to allocate its iterator or
    visits every live element exactly once, in order, with its index, and
    frees the iterator at the end. *)
Theorem vector_iteration v d l m F :
  repr v d l -> owns m (blocks v d) F ->
  wp ('(it, failed) ← cvector_begin_iter (Some v);
      if failed : bool then mret None else seen ← iterate v it; mret (Some seen)) m
    (fun seen m' => owns m' (blocks v d) F /\
      match seen with
      | Some s => s = imap (fun i x => (Z.of_nat i, x)) l
      | None => grant (m_next m) (1 * sizeof_cvec_iter_impl_t) = false
      end).
Proof.
  intros Hr Ho. pose proof (repr_arith _ _ _ Hr). pose proof Hr as (_ & Hd & _ & _ & Hl & _).
  apply wp_bind. unfold cvector_begin_iter. destruct (Z.eqb_spec (elem_count v) 0) as [E|].
  { apply wp_ret, wp_bind. assert (l = []) as -> by (apply zlen_0_nil; lia).
    unfold iterate. rewrite E. by apply wp_ret. }
  apply wp_bind, (wp_calloc_owns _ _ _ _ _ _ Ho); [done| |].
  - intros m' Ho' Hg. by apply wp_ret, wp_ret.
  - intros b m' Ho' Hb _ _ _. apply wp_ret, wp_bind. rewrite Hd. cbn [fmap option_fmap option_map].
    apply (wp_iterate v d l (b_id b) m' F); [done|lia|done|done|]. intros m2 Ho2. by apply wp_ret.
Qed.

(** [cvector_find] terminates with the index of the first element that
    matches, by the given comparator or byte for byte, and with
    [ccol_invalid_size] when none does. *)
Theorem vector_find v d l p e cmp m :
  repr v d l -> ptr_bytes d p (elem_size v) = Some e ->
  wp (cvector_find (Some v) (Some p) cmp) m (fun r m' => m' = m /\ first_match cmp e l r).
Proof. intros Hr Hp. by apply (wp_find v d l p e). Qed.
End Properties.

(** ** Witnesses

    A full vector of four two-byte elements in a memory of two blocks. *)
Section Witnesses.
Import CVector.

Definition demo_d : block := Block 1 [1; 0; 2; 0; 3; 0; 4; 0].
Definition demo_v : cvector := Cvector 0 2 4 4 procs_default (Some demo_d).
Definition demo_l : list (list Z) := [[1; 0]; [2; 0]; [3; 0]; [4; 0]].
Definition demo_mem : mem := Mem 2 {[0%nat; 1%nat]}.

Lemma demo_repr : repr demo_v demo_d demo_l.
Proof.
  split; [split; cbn; try done; by exists 2|].
  split_and!; try done; [by repeat constructor|by exists []].
Qed.

Lemma demo_owns : owns demo_mem (blocks demo_v demo_d) ∅.
Proof.
  split; cbn; [set_solver|set_solver|]. intros k Hk. cbn in *.
  apply elem_of_union in Hk as [->%elem_of_singleton| ->%elem_of_singleton]; lia.
Qed.

Definition demo_cmp (a b : list Z) : Z := three_way (le_unsigned a) (le_unsigned b).
Definition demo_ops : list vop :=
  [VPush [5; 1]; VPush [2; 0]; VPushAt 0; VAppendSelf; VSort; VAppendRange 1 2; VPop].

Example vector_history_witness :
  let alloc := grant_up_to 1000 in
  wp (created ← cvector_create_full 2 None false;
      match created with
      | (None, _) => mret None
      | (Some v, _) => r ← run_ops demo_cmp v demo_ops; mret (Some r)
      end) mem0 (fun result m' =>
    match result with
    | None => owns m' ∅ ∅
    | Some (rs, v) => exists d l,
        vspecs demo_cmp [] demo_ops rs l /\ data_ptr v = Some d /\ elems v d = l /\
        elem_count v = zlen l /\ zlen l <= capacity v /\ repr v d l /\
        wp (__cvector_destroy (Some v)) m' (fun _ m'' => owns m'' ∅ ∅)
    end).
Proof.
  intros alloc. apply (vector_history demo_cmp (TotalCmp0 := three_way_total le_unsigned)
    2 None false demo_ops mem0 ∅); [split; [discriminate|reflexivity]| |apply owns_mem0].
  repeat constructor; discriminate.
Defined.

Example vector_push_back_witness :
  let alloc := grant_up_to 1000 in
  wp (cvector_push_back (Some demo_v) (Some (At 1 2))) demo_mem (fun '(r, v') m' =>
    match r with
    | ccol_success => vec_is m' ∅ v' (demo_l ++ [[2; 0]]) 2
    | ccol_container_full => v' = demo_v /\ m' = demo_mem /\ zlen demo_l = capacity demo_v /\ capacity_limit demo_v
    | ccol_not_enough_memory =>
        v' = demo_v /\ vec_is m' ∅ demo_v demo_l 2 /\ zlen demo_l = capacity demo_v /\
        grant (m_next demo_mem) (2 * capacity demo_v * 2) = false
    | _ => False
    end).
Proof.
  intros alloc. apply (vector_push_back demo_v demo_l 2 (At 1 2) [2; 0] demo_mem ∅).
  - exists demo_d. split; [apply demo_repr|]. split; [apply demo_owns|reflexivity].
  - reflexivity.
  - apply (src_apart_own demo_v demo_d demo_l 2 2 demo_repr). discriminate.
Defined.

Example vector_append_alias_witness :
  let alloc := grant_up_to 1000 in
  wp (cvector_append_array (Some demo_v) (Some (At (b_id demo_d) 2)) 3) demo_mem (fun '(ok, v') m' =>
    match ptr_bytes demo_d (At (b_id demo_d) 2) (3 * elem_size demo_v) with
    | Some bs =>
        vec_is m' ∅ v' (if ok then demo_l ++ chunks (elem_size demo_v) (Z.to_nat 3) bs else demo_l)
          (elem_size demo_v)
    | None => ok = false /\ v' = demo_v /\ m' = demo_mem
    end).
Proof.
  intros alloc. apply (vector_append_alias demo_v demo_d demo_l 2 3 demo_mem ∅).
  - apply demo_repr.
  - apply demo_owns.
  - split; reflexivity.
  - split; [discriminate|reflexivity].
Defined.

Example vector_iteration_witness :
  let alloc := grant_up_to 1000 in
  wp ('(it, failed) ← cvector_begin_iter (Some demo_v);
      if failed : bool then mret None else seen ← iterate demo_v it; mret (Some seen)) demo_mem
    (fun seen m' => owns m' (blocks demo_v demo_d) ∅ /\
      match seen with
      | Some s => s = imap (fun i x => (Z.of_nat i, x)) demo_l
      | None => grant (m_next demo_mem) (1 * sizeof_cvec_iter_impl_t) = false
      end).
Proof.
  intros alloc. apply (vector_iteration demo_v demo_d demo_l demo_mem ∅);
    [apply demo_repr|apply demo_owns].
Defined.

Example vector_find_witness :
  wp (cvector_find (Some demo_v) (Some (Foreign [3; 0])) (Some demo_cmp)) demo_mem
    (fun r m' => m' = demo_mem /\ first_match (Some demo_cmp) [3; 0] demo_l r) /\
  cvector_find (Some demo_v) (Some (Foreign [3; 0])) (Some demo_cmp) demo_mem = Done 2 demo_mem.
Proof.
  split; [|vm_compute; reflexivity].
  apply (vector_find demo_v demo_d demo_l (Foreign [3; 0]) [3; 0] (Some demo_cmp));
    [apply demo_repr|reflexivity].
Defined.

(** The history above, evaluated. *)
Example demo_history_result :
  (let alloc := grant_up_to 1000 in
   match (created ← cvector_create_full 2 None false;
          match created with
          | (None, _) => mret None
          | (Some v, _) => r ← run_ops demo_cmp v demo_ops; mret (Some r)
          end) mem0 with
   | Done (Some (rs, v)) _ => (elem_count v, capacity v, (fun d => elems v d) <$> data_ptr v)
   | _ => (0, 0, None)
   end)
  = (7, 8, Some [[2; 0]; [2; 0]; [5; 1]; [5; 1]; [5; 1]; [5; 1]; [2; 0]]).
Proof. vm_compute. reflexivity. Qed.
End Witnesses.
