(* ===== verification/CString.v ===== *)
(** * The dynamic string ([src/cstring.c])

    A [cstring] is a heap block for the struct and one for the characters,
    with a NUL after the last one.  Arguments of type [const char *] are
    pointers that may reach into the string's own buffer; the length of such
    an argument is found by scanning for its NUL, as [strlen] does. *)
From S2P Require Import Prelude Memory Values Common CText CVector.

(** ** What the code uses of [<string.h>] *)
Module Str.
(** The characters before the first NUL; [None] when there is no NUL, so
    that reading on is out of bounds. *)
Fixpoint until_nul (bs : list Z) : option (list Z) :=
  match bs with
  | [] => None
  | b :: bs => if b =? 0 then Some [] else cons b <$> until_nul bs
  end.

Fixpoint is_prefix (p l : list Z) : bool :=
  match p, l with
  | [], _ => true
  | a :: p, b :: l => (a =? b) && is_prefix p l
  | _ :: _, [] => false
  end.

(** [strstr]: the offset of the first occurrence. *)
Fixpoint strstr (hay needle : list Z) : option Z :=
  if is_prefix needle hay then Some 0
  else match hay with
       | [] => None
       | _ :: hay => Z.succ <$> strstr hay needle
       end.

(** [strncmp] of C strings. *)
Fixpoint strncmp (a b : list Z) (n : nat) {struct n} : Z :=
  match n with
  | O => 0
  | S n =>
      match a, b with
      | [], [] => 0
      | [], y :: _ => - y
      | x :: _, [] => x
      | x :: a, y :: b => if x =? y then strncmp a b n else x - y
      end
  end.

(** [memrchr] over [n] bytes: the offset of the last one equal to [c]. *)
Fixpoint memrchr (s : list Z) (c : Z) (n : nat) {struct n} : option Z :=
  match n with
  | O => None
  | S n => if bool_decide (s !! n = Some c) then Some (Z.of_nat n) else memrchr s c n
  end.
End Str.
Import Str.

(** Facts about them. *)
Section StrFacts.
Implicit Types (a b l hay needle u t : list Z).

Lemma until_nul_Some bs u :
  until_nul bs = Some u <-> Forall (fun c => c <> 0) u /\ exists r, bs = u ++ 0 :: r.
Proof.
  revert u. induction bs as [|b bs IH]; intros u; cbn.
  { split; [done|]. intros (_ & r & E). by destruct u. }
  destruct (Z.eqb_spec b 0) as [->|Hb].
  - split; [intros [= <-]; by eauto|]. intros (Hu & r & E). destruct u as [|c u]; [done|].
    apply Forall_cons in Hu as [Hc _]. by injection E as <- _.
  - destruct (until_nul bs) as [u'|]; cbn.
    + split.
      * intros [= <-]. destruct (proj1 (IH u') eq_refl) as (Hu & r & ->). split; [by constructor|by eexists].
      * intros (Hu & r & E). destruct u as [|c u]; [by injection E|]. injection E as <- ->.
        apply Forall_cons in Hu as [_ Hu].
        assert (Some u' = Some u) as [= ->] by (apply IH; eauto). done.
    + split; [done|]. intros (Hu & r & E). destruct u as [|c u]; [by injection E|]. injection E as <- ->.
      apply Forall_cons in Hu as [_ Hu]. assert (None = Some u) by (apply IH; eauto). done.
Qed.

Lemma is_char_nonzero u : Forall is_char u -> Forall (fun c => c <> 0) u.
Proof. intros Hu. eapply Forall_impl; [exact Hu|]. unfold is_char. cbn. lia. Qed.

Lemma until_nul_text u r : Forall is_char u -> until_nul (u ++ 0 :: r) = Some u.
Proof. intros Hu. apply until_nul_Some. split; [by apply is_char_nonzero|by eexists]. Qed.

Lemma is_prefix_spec p l : is_prefix p l = true <-> exists r, l = p ++ r.
Proof.
  revert l. induction p as [|a p IH]; intros l; cbn; [by split; eauto|].
  destruct l as [|b l]; [by split; [|intros [? ?]]|].
  rewrite andb_true_iff, Z.eqb_eq, IH. split.
  - intros [-> [r ->]]. by eexists.
  - intros [r [= -> ->]]. eauto.
Qed.

(** [needle] occurs in [l] at [i]. *)
Definition occurs needle l (i : Z) : Prop :=
  exists x y, l = x ++ needle ++ y /\ zlen x = i.

Lemma occurs_cons needle c l i : 0 < i -> occurs needle (c :: l) i <-> occurs needle l (i - 1).
Proof.
  intros Hi. split.
  - intros (x & y & E & Hx). destruct x as [|c' x]; [rewrite zlen_nil in Hx; lia|].
    injection E as -> ->. exists x, y. split; [done|]. rewrite zlen_cons in Hx. lia.
  - intros (x & y & -> & Hx). exists (c :: x), y. split; [done|]. rewrite zlen_cons. lia.
Qed.

Lemma occurs_0 needle l : occurs needle l 0 <-> is_prefix needle l = true.
Proof.
  rewrite is_prefix_spec. split.
  - intros (x & y & -> & Hx). apply zlen_0_nil in Hx as ->. by exists y.
  - intros [r ->]. by exists [], r.
Qed.

Lemma occurs_range needle l i : occurs needle l i -> 0 <= i /\ i + zlen needle <= zlen l.
Proof. intros (x & y & -> & <-). zlia. Qed.

(** [strstr] finds the least occurrence. *)
Lemma strstr_spec hay needle :
  match strstr hay needle with
  | Some i => occurs needle hay i /\ forall j, j < i -> ~ occurs needle hay j
  | None => forall j, ~ occurs needle hay j
  end.
Proof.
  assert (forall l j, occurs needle l j -> 0 <= j) as Hnn by (by intros l j [? _]%occurs_range).
  induction hay as [|c hay IH]; cbn; destruct (is_prefix needle _) eqn:Hp.
  1,3: split; [by apply occurs_0|intros j Hj H; apply Hnn in H; lia].
  - intros j H. pose proof (occurs_range _ _ _ H) as [Hj1 Hj2]. rewrite zlen_nil in Hj2.
    zlen_facts. replace j with 0 in H by lia. apply occurs_0 in H. congruence.
  - destruct (strstr hay needle) as [i|]; cbn.
    + destruct IH as [Ho Hl]. pose proof (Hnn _ _ Ho). split.
      * apply occurs_cons; [lia|]. replace (Z.succ i - 1) with i by lia. done.
      * intros j Hj Hj'. pose proof (Hnn _ _ Hj'). destruct (Z.eq_dec j 0) as [->|].
        { apply occurs_0 in Hj'. congruence. }
        apply occurs_cons in Hj'; [|lia]. apply (Hl (j - 1)); [lia|done].
    + intros j Hj'. pose proof (Hnn _ _ Hj'). destruct (Z.eq_dec j 0) as [->|].
      { apply occurs_0 in Hj'. congruence. }
      apply occurs_cons in Hj'; [|lia]. by apply (IH (j - 1)).
Qed.

Lemma strstr_Some hay needle i :
  strstr hay needle = Some i ->
  hay = ztake i hay ++ needle ++ zdrop (i + zlen needle) hay /\ 0 <= i /\
  i + zlen needle <= zlen hay.
Proof.
  intros E. pose proof (strstr_spec hay needle) as H. rewrite E in H. destruct H as [Ho _].
  pose proof (occurs_range _ _ _ Ho) as Hr. split; [|done].
  destruct Ho as (x & y & Ex & Hx). rewrite Ex at 1 2 3.
  rewrite ztake_app_exact by done. do 2 f_equal. rewrite app_assoc, zdrop_app_exact; [done|].
  rewrite zlen_app. lia.
Qed.

Lemma strncmp_prefix l p :
  Forall is_char l -> Forall is_char p ->
  strncmp l p (length p) = 0 <-> exists r, l = p ++ r.
Proof.
  intros Hl Hp. rewrite <- is_prefix_spec. revert l Hl.
  induction Hp as [|x p Hx Hp IH]; intros l Hl; [by split|]. cbn [length strncmp is_prefix].
  destruct Hl as [|y l Hy Hl]; unfold is_char in *; [split; [lia|done]|].
  rewrite (Z.eqb_sym x y). destruct (Z.eqb_spec y x); cbn [andb]; [by apply IH|].
  split; [lia|done].
Qed.
End StrFacts.

(** ** Splitting a text at a needle, and joining the pieces *)
Section Tokens.
Variable needle : list Z.
Hypothesis Hneedle : needle <> [].

Fixpoint tokens_fuel (n : nat) (sep t : list Z) : list (list Z) :=
  match n with
  | O => [t]
  | S n =>
      match strstr t sep with
      | None => [t]
      | Some i => ztake i t :: tokens_fuel n sep (zdrop (i + zlen sep) t)
      end
  end.
Definition tokens (sep t : list Z) : list (list Z) := tokens_fuel (S (length t)) sep t.

Fixpoint join (sep : list Z) (ls : list (list Z)) : list Z :=
  match ls with
  | [] => []
  | [l] => l
  | l :: ls => l ++ sep ++ join sep ls
  end.

Lemma needle_pos : 1 <= zlen needle.
Proof. destruct needle; [done|]. rewrite zlen_cons. zlen_facts. lia. Qed.

Lemma tokens_fuel_enough n n' t :
  zlen t < Z.of_nat n -> zlen t < Z.of_nat n' -> tokens_fuel n needle t = tokens_fuel n' needle t.
Proof.
  revert n' t. induction n as [|n IH]; intros [|n'] t Hn Hn'; zlen_facts; try lia.
  cbn [tokens_fuel]. destruct (strstr t needle) as [i|] eqn:E; [|done]. f_equal.
  apply strstr_Some in E as (_ & Hi & Hin). pose proof needle_pos.
  apply IH; rewrite zlen_zdrop; lia.
Qed.

Lemma tokens_eq t :
  tokens needle t =
  match strstr t needle with
  | None => [t]
  | Some i => ztake i t :: tokens needle (zdrop (i + zlen needle) t)
  end.
Proof.
  unfold tokens at 1. cbn [tokens_fuel]. destruct (strstr t needle) as [i|] eqn:E; [|done].
  f_equal. apply strstr_Some in E as (_ & Hi & Hin). pose proof needle_pos.
  apply tokens_fuel_enough; unfold zdrop, zlen in *; rewrite length_drop; lia.
Qed.

Lemma tokens_nonempty t : exists l ls, tokens needle t = l :: ls.
Proof. rewrite tokens_eq. destruct (strstr t needle); eauto. Qed.

Lemma join_cons sep l ls : ls <> [] -> join sep (l :: ls) = l ++ sep ++ join sep ls.
Proof. by destruct ls. Qed.

(** Induction over the tokens of a text. *)
Lemma tokens_ind (P : list Z -> list (list Z) -> Prop) :
  (forall t, strstr t needle = None -> P t [t]) ->
  (forall t i, strstr t needle = Some i -> P (zdrop (i + zlen needle) t) (tokens needle (zdrop (i + zlen needle) t)) ->
     P t (ztake i t :: tokens needle (zdrop (i + zlen needle) t))) ->
  forall t, P t (tokens needle t).
Proof.
  intros Hbase Hstep t. remember (length t) as n eqn:Hn. revert t Hn.
  induction (lt_wf n) as [n _ IH]. intros t ->. rewrite tokens_eq.
  destruct (strstr t needle) as [i|] eqn:E; [|by apply Hbase]. apply Hstep; [done|].
  eapply IH; [|done]. apply strstr_Some in E as (_ & Hi & Hin). pose proof needle_pos.
  unfold zdrop, zlen in *. rewrite length_drop. lia.
Qed.

Lemma join_tokens t : join needle (tokens needle t) = t.
Proof.
  pattern t, (tokens needle t). apply tokens_ind; clear t; [done|]. intros t i E IH.
  destruct (tokens_nonempty (zdrop (i + zlen needle) t)) as (l & ls & Et).
  rewrite join_cons by (rewrite Et; done). rewrite IH.
  by apply strstr_Some in E as (<- & _).
Qed.

(** No piece but the last holds an occurrence that the next separator does
    not end, and the last holds none. *)
Fixpoint split_leftmost (ls : list (list Z)) : Prop :=
  match ls with
  | [] => False
  | [l] => forall j, ~ occurs needle l j
  | l :: ls => (forall j, j < zlen l -> ~ occurs needle (l ++ needle ++ join needle ls) j) /\ split_leftmost ls
  end.

Lemma tokens_leftmost t : split_leftmost (tokens needle t).
Proof.
  pattern t, (tokens needle t). apply tokens_ind; clear t.
  - intros t E. pose proof (strstr_spec t needle) as H. by rewrite E in H.
  - intros t i E IH. pose proof (strstr_spec t needle) as H. rewrite E in H. destruct H as [_ Hleast].
    destruct (tokens_nonempty (zdrop (i + zlen needle) t)) as (l & ls & Et).
    pose proof (join_tokens (zdrop (i + zlen needle) t)) as Hj. rewrite Et in Hj, IH |- *.
    cbn [split_leftmost]. split; [|done].
    apply strstr_Some in E as (Ht & Hi & Hin). zlen_facts.
    intros j Hjlt. rewrite Hj, <- Ht. apply Hleast. rewrite zlen_ztake in Hjlt; lia.
Qed.

Lemma zlen_join sep ls :
  ls <> [] -> zlen (join sep ls) = zlen (concat ls) + (zlen ls - 1) * zlen sep.
Proof.
  induction ls as [|l ls IH]; [done|]. intros _. destruct ls as [|l' ls].
  - cbn [join concat]. rewrite app_nil_r. change (zlen [l]) with 1. lia.
  - rewrite join_cons by done. cbn [concat] in *. rewrite !zlen_app, IH, !zlen_cons by done. 
    cbn [concat]. rewrite zlen_app. lia.
Qed.

Lemma Forall_join (P : Z -> Prop) sep ls :
  Forall P sep -> Forall (Forall P) ls -> Forall P (join sep ls).
Proof.
  intros Hs. induction 1 as [|l ls Hl Hls IH]; [done|]. destruct ls as [|l' ls]; [done|].
  rewrite join_cons by done. by rewrite !Forall_app.
Qed.

Lemma Forall_tokens (P : Z -> Prop) t : Forall P t -> Forall (Forall P) (tokens needle t).
Proof.
  pattern t, (tokens needle t). apply tokens_ind; clear t.
  - intros t _ Ht. by constructor.
  - intros t i E IH Ht. constructor; [by apply Forall_take|]. by apply IH, Forall_drop.
Qed.
End Tokens.

Module CString.
Section CString.
Context {alloc : Allocator}.

Definition cstring_minimum_capacity : Z := 16.

(** [sizeof(struct cstring)]. *)
Definition sizeof_cstring : Z := 32.

Record cstring := Cstring {
  s_addr : nat;
  s_data : option block;
  s_length : Z;
  s_capacity : Z;
  s_procs : CVector.procs_slot;
}.

Definition with_data (s : cstring) (d : block) (length : Z) : cstring :=
  Cstring (s_addr s) (Some d) length (s_capacity s) (s_procs s).
Definition with_buffer (s : cstring) (d : block) (capacity : Z) : cstring :=
  Cstring (s_addr s) (Some d) (s_length s) capacity (s_procs s).

(** The C string at [p], where [d] is the buffer of the object. *)
Definition c_str_at (d : block) (p : ptr) : option (list Z) :=
  match p with
  | Foreign bs => until_nul bs
  | At b off =>
      if bool_decide (b = b_id d) && (0 <=? off) then until_nul (zdrop off (b_bytes d)) else None
  end.

Definition __cstring_destroy (s : option cstring) : M unit :=
  match s with
  | None => mret tt
  | Some s =>
      _ ← match s_data s with
          | Some d => _ccol_mem_free (b_id d)
          | None => mret tt
          end;
      _ccol_mem_free (s_addr s)
  end.

Definition cstring_length_fits_with_terminator (length : Z) : bool :=
  negb (length =? ccol_invalid_size).

Definition cstring_grow_to (s : cstring) (needed_capacity : Z) : M (bool * cstring) :=
  if needed_capacity <=? s_capacity s then mret (true, s) else
  let new_cap := Pow2._ccol_find_nearest_gte_power_of_two needed_capacity in
  if new_cap =? ccol_invalid_size then mret (false, s) else
  let new_cap := if new_cap <? cstring_minimum_capacity then cstring_minimum_capacity else new_cap in
  orig ← ub (s_data s);
  d ← _ccol_mem_realloc orig new_cap;
  match d with
  | None => mret (false, s)
  | Some d => mret (true, with_buffer s d new_cap)
  end.

Inductive cstring_error :=
  | null_memory_management_function
  | failed_to_allocate_cstring_container
  | initial_string_too_large
  | failed_to_allocate_cstring_data_buffer.

(** [initial] is the span, [init_len] bytes of it are used; [None] is a NULL
    span, and [is_interned] the answer of [ccol_procs_is_interned]. *)
Definition cstring_create_from_span (initial : option (list Z)) (init_len : Z)
    (m_procs : option ccol_memmgmt_procs_t) (is_interned : bool)
    : M (option cstring * option cstring_error) :=
  if negb (_ccol_verify_memmgmt_procs m_procs)
  then mret (None, Some null_memory_management_function) else
  let copy_procs := bool_decide (m_procs ≠ None) && negb is_interned in
  b ← _ccol_mem_calloc 1 (sizeof_cstring ⊕ (if copy_procs then CVector.sizeof_procs else 0));
  match b with
  | None => mret (None, Some failed_to_allocate_cstring_container)
  | Some b =>
      let slot :=
        match m_procs with
        | None => CVector.procs_default
        | Some p => if copy_procs then CVector.procs_tail_copy p else CVector.procs_interned p
        end in
      let s := Cstring (b_id b) None 0 0 slot in
      if negb (cstring_length_fits_with_terminator init_len)
      then _ ← __cstring_destroy (Some s); mret (None, Some initial_string_too_large) else
      let init_cap := Pow2._ccol_find_nearest_gte_power_of_two (init_len ⊕ 1) in
      if init_cap =? ccol_invalid_size
      then _ ← __cstring_destroy (Some s); mret (None, Some initial_string_too_large) else
      let init_cap :=
        if init_cap <? cstring_minimum_capacity then cstring_minimum_capacity else init_cap in
      d ← _ccol_mem_alloc init_cap;
      match d with
      | None =>
          _ ← __cstring_destroy (Some s);
          mret (None, Some failed_to_allocate_cstring_data_buffer)
      | Some d =>
          d ← (if init_len >? 0
               then src ← ub initial;
                    bytes ← read_bytes src 0 init_len;
                    bs ← memcpy_in (b_bytes d) 0 bytes;
                    mret (Block (b_id d) bs)
               else mret d);
          d ← GrowBuf.put_nul d init_len;
          mret (Some (Cstring (b_id b) (Some d) init_len init_cap slot), None)
      end
  end.

(** [initial] is a C string of the caller's, with its NUL, or NULL. *)
Definition cstring_create_full (initial : option (list Z))
    (m_procs : option ccol_memmgmt_procs_t) (is_interned : bool)
    : M (option cstring * option cstring_error) :=
  init_len ← match initial with
             | Some bs => t ← ub (until_nul bs); mret (zlen t)
             | None => mret 0
             end;
  cstring_create_from_span initial init_len m_procs is_interned.

Definition cstring_get_mprocs (s : option cstring) : M CVector.procs_slot :=
  s ← deref s; mret (s_procs s).

Definition cstring_length (s : option cstring) : M Z :=
  s ← deref s; mret (s_length s).

Definition cstring_c_str (s : option cstring) : M (option ptr) :=
  s ← deref s; mret ((fun d => At (b_id d) 0) <$> s_data s).

Definition cstring_at (s : option cstring) (idx : Z) : M Z :=
  s ← deref s;
  if idx >=? s_length s then mret 0 else
  d ← ub (s_data s); ub (zget (b_bytes d) idx).

Definition cstring_is_empty (s : option cstring) : M bool :=
  s ← deref s; mret (s_length s =? 0).

Definition _cstring_get_capacity (s : option cstring) : M Z :=
  s ← deref s; mret (s_capacity s).

(** *** Modification *)

(** [(str >= s->data && str < s->data + s->capacity) ? str - s->data : -1]. *)
Definition alias_off (s : cstring) (str : ptr) : Z :=
  match s_data s, str with
  | Some d, At b off =>
      if bool_decide (b = b_id d) && (0 <=? off) && (off <? s_capacity s) then off else -1
  | _, _ => -1
  end.

(** [if (alias_off >= 0) str = s->data + alias_off]. *)
Definition rebase_str (s : cstring) (off : Z) (str : ptr) : M ptr :=
  if off >=? 0 then d ← ub (s_data s); mret (At (b_id d) off) else mret str.

(** [memmove(s->data + dst, s->data + src, n)]. *)
Definition move_data (s : cstring) (dst src n : Z) : M block :=
  d ← ub (s_data s);
  bs ← memmove_within (b_bytes d) dst src n;
  mret (Block (b_id d) bs).

Definition cstring_append (s : option cstring) (str : option ptr) : M (ccol_retval_t * cstring) :=
  s ← deref s;
  match str with
  | None => mret (ccol_invalid_args, s)
  | Some str =>
      d ← ub (s_data s);
      text ← ub (c_str_at d str);
      let str_len := zlen text in
      if str_len =? 0 then mret (ccol_success, s) else
      let new_len := s_length s ⊕ str_len in
      if (new_len <? s_length s) || negb (cstring_length_fits_with_terminator new_len)
      then mret (ccol_container_full, s) else
      let off := alias_off s str in
      '(ok, s) ← cstring_grow_to s (new_len ⊕ 1);
      if negb ok then mret (ccol_not_enough_memory, s) else
      str ← rebase_str s off str;
      d ← ub (s_data s);
      d ← memcpy_ptr d (s_length s) str str_len;
      d ← GrowBuf.put_nul d new_len;
      mret (ccol_success, with_data s d new_len)
  end.

Definition cstring_prepend (s : option cstring) (str : option ptr) : M (ccol_retval_t * cstring) :=
  s ← deref s;
  match str with
  | None => mret (ccol_invalid_args, s)
  | Some str =>
      d ← ub (s_data s);
      text ← ub (c_str_at d str);
      let str_len := zlen text in
      if str_len =? 0 then mret (ccol_success, s) else
      let new_len := s_length s ⊕ str_len in
      if (new_len <? s_length s) || negb (cstring_length_fits_with_terminator new_len)
      then mret (ccol_container_full, s) else
      let off := alias_off s str in
      '(ok, s) ← cstring_grow_to s (new_len ⊕ 1);
      if negb ok then mret (ccol_not_enough_memory, s) else
      str ← rebase_str s off str;
      d ← move_data s str_len 0 (s_length s ⊕ 1);
      let str := if off >? 0 then At (b_id d) (off ⊕ str_len) else str in
      d ← memmove_ptr d 0 str str_len;
      mret (ccol_success, with_data s d new_len)
  end.

Definition cstring_insert (s : option cstring) (pos : Z) (str : option ptr)
    : M (ccol_retval_t * cstring) :=
  s ← deref s;
  match str with
  | None => mret (ccol_invalid_args, s)
  | Some str =>
      if pos >? s_length s then mret (ccol_invalid_args, s) else
      d ← ub (s_data s);
      text ← ub (c_str_at d str);
      let str_len := zlen text in
      if str_len =? 0 then mret (ccol_success, s) else
      let new_len := s_length s ⊕ str_len in
      if (new_len <? s_length s) || negb (cstring_length_fits_with_terminator new_len)
      then mret (ccol_container_full, s) else
      let off := alias_off s str in
      '(ok, s) ← cstring_grow_to s (new_len ⊕ 1);
      if negb ok then mret (ccol_not_enough_memory, s) else
      str ← rebase_str s off str;
      d ← move_data s (pos ⊕ str_len) pos ((s_length s ⊖ pos) ⊕ 1);
      let str := if (off >=? 0) && (off >? pos) then At (b_id d) (off ⊕ str_len) else str in
      d ← memmove_ptr d pos str str_len;
      mret (ccol_success, with_data s d new_len)
  end.

Definition cstring_set (s : option cstring) (str : option ptr) : M (ccol_retval_t * cstring) :=
  s ← deref s;
  match str with
  | None => mret (ccol_invalid_args, s)
  | Some str =>
      d ← ub (s_data s);
      text ← ub (c_str_at d str);
      let str_len := zlen text in
      if negb (cstring_length_fits_with_terminator str_len)
      then mret (ccol_container_full, s) else
      let off := alias_off s str in
      '(ok, s) ← cstring_grow_to s (str_len ⊕ 1);
      if negb ok then mret (ccol_not_enough_memory, s) else
      str ← rebase_str s off str;
      d ← ub (s_data s);
      d ← memmove_ptr d 0 str (str_len ⊕ 1);
      mret (ccol_success, with_data s d str_len)
  end.

Definition cstring_reset (s : option cstring) : M cstring :=
  s ← deref s;
  s ← (if negb (s_capacity s =? cstring_minimum_capacity)
       then
         orig ← ub (s_data s);
         d ← _ccol_mem_realloc orig cstring_minimum_capacity;
         match d with
         | None => mret s
         | Some d => mret (with_buffer s d cstring_minimum_capacity)
         end
       else mret s);
  d ← ub (s_data s);
  d ← GrowBuf.put_nul d 0;
  mret (with_data s d 0).

Definition cstring_reserve (s : option cstring) (min_capacity : Z) : M (bool * cstring) :=
  s ← deref s;
  let needed :=
    if min_capacity <? cstring_minimum_capacity then cstring_minimum_capacity else min_capacity in
  cstring_grow_to s needed.

(** The loop of [cstring_to_upper] and [cstring_to_lower]. *)
Definition map_chars (f : Z -> Z) (s : cstring) : M cstring :=
  d ← ub (s_data s);
  '(_, bs) ← while (Z.to_nat (s_length s) + 1) (fun '(i, _) => i <? s_length s)
    (fun '(i, bs) =>
      c ← ub (zget bs i);
      bs ← ub (zset bs i (f c));
      mret (i ⊕ 1, bs))
    (0, b_bytes d);
  mret (with_data s (Block (b_id d) bs) (s_length s)).

Definition cstring_to_upper (s : option cstring) : M cstring :=
  s ← deref s; map_chars Ascii.ccol_ascii_toupper s.
Definition cstring_to_lower (s : option cstring) : M cstring :=
  s ← deref s; map_chars Ascii.ccol_ascii_tolower s.

Definition cstring_trim (s : option cstring) : M cstring :=
  s ← deref s;
  if s_length s =? 0 then mret s else
  d ← ub (s_data s);
  length ← loop (Z.to_nat (s_length s) + 1) (fun length =>
    if length >? 0
    then c ← ub (zget (b_bytes d) (length ⊖ 1));
         if Ascii.ccol_ascii_isspace c then mret (inl (length ⊖ 1)) else mret (inr length)
    else mret (inr length)) (s_length s);
  d ← GrowBuf.put_nul d length;
  start ← loop (Z.to_nat length + 1) (fun start =>
    if start <? length
    then c ← ub (zget (b_bytes d) start);
         if Ascii.ccol_ascii_isspace c then mret (inl (start ⊕ 1)) else mret (inr start)
    else mret (inr start)) 0;
  let s := with_data s d length in
  if start >? 0
  then
    d ← move_data s 0 start ((length ⊖ start) ⊕ 1);
    mret (with_data s d (length ⊖ start))
  else mret s.

(** The second component is [*new_len_out]. *)
Definition compute_replace_new_length (orig_length nlen rlen count : Z)
    : M (ccol_retval_t * option Z) :=
  _ ← _ccol_assert (count >? 0);
  if rlen >=? nlen then
    let added := (rlen ⊖ nlen) ⊗ count in
    if negb (added `div` count =? rlen ⊖ nlen) then mret (ccol_container_full, None) else
    let new_len := orig_length ⊕ added in
    if (new_len <? orig_length) || negb (cstring_length_fits_with_terminator new_len)
    then mret (ccol_container_full, None)
    else mret (ccol_success, Some new_len)
  else mret (ccol_success, Some (orig_length ⊖ ((nlen ⊖ rlen) ⊗ count))).

(** [strstr(s->data + from, needle) - s->data]. *)
Definition strstr_at (d : block) (from : Z) (needle : list Z) : M (option Z) :=
  text ← ub (c_str_at d (At (b_id d) from));
  mret (Z.add from <$> strstr text needle).

Definition count_occurrences (d : block) (fuel : nat) (needle : list Z) : M Z :=
  loop fuel (fun '(ptr, count) =>
    found ← strstr_at d ptr needle;
    match found with
    | None => mret (inr count)
    | Some f => mret (inl (f ⊕ zlen needle, count ⊕ 1))
    end) (0, 0).

(** The loop that builds the result; [src] and [dst] are offsets. *)
Definition build_replaced (d : block) (fuel : nat) (needle replacement : list Z) (buf : list Z)
    : M (Z * Z * list Z) :=
  loop fuel (fun '(src, dst, buf) =>
    found ← strstr_at d src needle;
    match found with
    | None => mret (inr (src, dst, buf))
    | Some f =>
        let before := f ⊖ src in
        bytes ← read_bytes (b_bytes d) src before;
        buf ← memcpy_in buf dst bytes;
        let dst := dst ⊕ before in
        buf ← memcpy_in buf dst replacement;
        mret (inl (f ⊕ zlen needle, dst ⊕ zlen replacement, buf))
    end) (0, 0, buf).

Definition cstring_replace (s : option cstring) (needle replacement : option ptr)
    : M (ccol_retval_t * cstring) :=
  s ← deref s;
  match needle, replacement with
  | Some needle, Some replacement =>
      d ← ub (s_data s);
      needle ← ub (c_str_at d needle);
      if bool_decide (needle = []) then mret (ccol_invalid_args, s) else
      replacement ← ub (c_str_at d replacement);
      let nlen := zlen needle in
      let rlen := zlen replacement in
      let fuel := (Z.to_nat (s_length s) + 1)%nat in
      count ← count_occurrences d fuel needle;
      if count =? 0 then mret (ccol_success, s) else
      '(len_rv, new_len) ← compute_replace_new_length (s_length s) nlen rlen count;
      match new_len with
      | None => mret (len_rv, s)
      | Some new_len =>
          let new_cap := Pow2._ccol_find_nearest_gte_power_of_two (new_len ⊕ 1) in
          if new_cap =? ccol_invalid_size then mret (ccol_container_full, s) else
          let new_cap :=
            if new_cap <? cstring_minimum_capacity then cstring_minimum_capacity else new_cap in
          new_buf ← _ccol_mem_alloc new_cap;
          match new_buf with
          | None => mret (ccol_not_enough_memory, s)
          | Some nb =>
              '(src, dst, buf) ← build_replaced d fuel needle replacement (b_bytes nb);
              rest ← ub (c_str_at d (At (b_id d) src));
              bytes ← read_bytes (b_bytes d) src (zlen rest ⊕ 1);
              buf ← memcpy_in buf dst bytes;
              _ ← _ccol_mem_free (b_id d);
              mret (ccol_success,
                    Cstring (s_addr s) (Some (Block (b_id nb) buf)) new_len new_cap (s_procs s))
          end
      end
  | _, _ => mret (ccol_invalid_args, s)
  end.

(** *** Search and comparison *)

(** The string itself as a C string. *)
Definition own_text (s : cstring) : M (list Z) :=
  d ← ub (s_data s); ub (c_str_at d (At (b_id d) 0)).
Definition arg_text (s : cstring) (str : ptr) : M (list Z) :=
  d ← ub (s_data s); ub (c_str_at d str).

Definition cstring_compare (s : option cstring) (str : option ptr) : M Z :=
  s ← deref s;
  match str with
  | None => mret 1
  | Some str => a ← own_text s; b ← arg_text s str; mret (strcmp a b)
  end.

Definition cstring_equals (s : option cstring) (str : option ptr) : M bool :=
  s ← deref s;
  match str with
  | None => mret false
  | Some str => a ← own_text s; b ← arg_text s str; mret (strcmp a b =? 0)
  end.

Definition cstring_starts_with (s : option cstring) (prefix : option ptr) : M bool :=
  s ← deref s;
  match prefix with
  | None => mret false
  | Some prefix =>
      p ← arg_text s prefix;
      let plen := zlen p in
      if plen >? s_length s then mret false else
      a ← own_text s;
      mret (strncmp a p (Z.to_nat plen) =? 0)
  end.

Definition cstring_ends_with (s : option cstring) (suffix : option ptr) : M bool :=
  s ← deref s;
  match suffix with
  | None => mret false
  | Some suffix =>
      p ← arg_text s suffix;
      let slen := zlen p in
      if slen >? s_length s then mret false else
      d ← ub (s_data s);
      a ← ub (c_str_at d (At (b_id d) (s_length s ⊖ slen)));
      mret (strncmp a p (Z.to_nat slen) =? 0)
  end.

Definition cstring_find (s : option cstring) (needle : option ptr) : M Z :=
  s ← deref s;
  match needle with
  | None => mret ccol_invalid_size
  | Some needle =>
      n ← arg_text s needle;
      d ← ub (s_data s);
      found ← strstr_at d 0 n;
      mret (default ccol_invalid_size found)
  end.

(** *** Substring, copy and split *)
Definition is_interned_slot (p : CVector.procs_slot) : bool :=
  match p with CVector.procs_interned _ => true | _ => false end.

(** A span of the string's own buffer, for the new string to copy. *)
Definition create_part (s : cstring) (from len : Z) : M (option cstring * option cstring_error) :=
  d ← ub (s_data s);
  cstring_create_from_span (Some (zdrop from (b_bytes d))) len
    (CVector.slot_procs (s_procs s)) (is_interned_slot (s_procs s)).

Definition cstring_substring (s : option cstring) (start length : Z)
    : M (option cstring * option cstring_error) :=
  s ← deref s;
  if start >=? s_length s
  then cstring_create_from_span None 0 (CVector.slot_procs (s_procs s)) (is_interned_slot (s_procs s))
  else create_part s start (Z.min length (s_length s ⊖ start)).

Definition cstring_copy (s : option cstring) : M (option cstring * option cstring_error) :=
  s ← deref s;
  d ← ub (s_data s);
  cstring_create_full (Some (b_bytes d)) (CVector.slot_procs (s_procs s)) (is_interned_slot (s_procs s)).

(** The bytes of a [cstr] value; the [i]-th element of a token vector is the
    pointer to the [i]-th string of [parts]. *)
Definition sizeof_cstr : Z := 8.
Definition cstr_bytes (s : cstring) : list Z :=
  (fun i => (Z.of_nat (s_addr s) `div` 256 ^ Z.of_nat i) `mod` 256) <$> seq 0 8.

Definition destroy_cstr_vector (v : option CVector.cvector) (parts : list cstring) : M unit :=
  match v with
  | None => mret tt
  | Some v =>
      count ← CVector.cvector_elem_count (Some v);
      _ ← while (Z.to_nat count + 1) (fun i => i <? count) (fun i =>
            part ← CVector.cvector_at (Some v) i;
            _ ← match part with
                | Some _ => __cstring_destroy (zget parts i)
                | None => mret tt
                end;
            mret (i ⊕ 1)) 0;
      CVector.__cvector_destroy (Some v)
  end.

Inductive split_error :=
  | delimiter_must_be_a_non_empty_string
  | split_vector_error (e : CVector.create_error)
  | split_part_error (e : cstring_error)
  | failed_to_push_split_token
  | failed_to_push_last_split_token.

(** Creates the token of [len] bytes at [from] and pushes it; on failure
    everything is rolled back. *)
Definition push_token (push_error : split_error) (s : cstring) (v : CVector.cvector)
    (parts : list cstring) (from len : Z)
    : M (split_error + CVector.cvector * list cstring) :=
  '(part, err) ← create_part s from len;
  match part with
  | None =>
      _ ← destroy_cstr_vector (Some v) parts;
      err ← ub err;
      mret (inl (split_part_error err))
  | Some part =>
      '(rv, v) ← CVector.cvector_push_back (Some v) (Some (Foreign (cstr_bytes part)));
      if decide (rv = ccol_success)
      then mret (inr (v, parts ++ [part]))
      else
        _ ← __cstring_destroy (Some part);
        _ ← destroy_cstr_vector (Some v) parts;
        mret (inl push_error)
  end.

Definition cstring_split (s : option cstring) (delimiter : option ptr)
    : M (split_error + CVector.cvector * list cstring) :=
  s ← deref s;
  match delimiter with
  | None => mret (inl delimiter_must_be_a_non_empty_string)
  | Some delimiter =>
      delim ← arg_text s delimiter;
      if bool_decide (delim = []) then mret (inl delimiter_must_be_a_non_empty_string) else
      '(result, err) ← CVector.cvector_create_full sizeof_cstr (CVector.slot_procs (s_procs s))
                         (is_interned_slot (s_procs s));
      match result with
      | None => err ← ub err; mret (inl (split_vector_error err))
      | Some v =>
          d ← ub (s_data s);
          loop (Z.to_nat (s_length s) + 1) (fun '(current, v, parts) =>
            found ← strstr_at d current delim;
            match found with
            | Some f =>
                r ← push_token failed_to_push_split_token s v parts current (f ⊖ current);
                match r with
                | inl e => mret (inr (inl e))
                | inr (v, parts) => mret (inl (f ⊕ zlen delim, v, parts))
                end
            | None =>
                r ← push_token failed_to_push_last_split_token s v parts current (s_length s ⊖ current);
                mret (inr r)
            end) (0, v, [])
      end
  end.

(** ** Representation

    [repr s d t]: the string [s], whose buffer is [d], holds the text [t],
    NUL-terminated; the capacity is a power of two that is at least the
    minimum. *)
Definition repr (s : cstring) (d : block) (t : list Z) : Prop :=
  s_data s = Some d /\ s_addr s <> b_id d /\ Forall is_char t /\ zlen t = s_length s /\
  s_length s < s_capacity s /\ (exists k, 4 <= k <= 63 /\ s_capacity s = 2 ^ k) /\
  zlen (b_bytes d) = s_capacity s /\ (exists rest, b_bytes d = t ++ 0 :: rest) /\
  _ccol_verify_memmgmt_procs (CVector.slot_procs (s_procs s)) = true.

Definition blocks (s : cstring) (d : block) : gset nat := {[s_addr s; b_id d]}.

Lemma str_pow2_bounds c : (exists k, 4 <= k <= 63 /\ c = 2 ^ k) -> 16 <= c <= ccol_max_elem_count.
Proof.
  intros (k & Hk & ->). unfold ccol_max_elem_count.
  change 16 with (2 ^ 4). change 9223372036854775808 with (2 ^ 63).
  split; apply Z.pow_le_mono_r; lia.
Qed.

Lemma repr_bounds s d t :
  repr s d t -> 0 <= s_length s < s_capacity s /\ 16 <= s_capacity s <= ccol_max_elem_count /\
  zlen t = s_length s.
Proof.
  intros (_ & _ & _ & Hl & Hlt & Hp & _). pose proof (str_pow2_bounds _ Hp). zlen_facts. lia.
Qed.

(** The least sufficient capacity the rounding gives, in range. *)
Lemma rounded_capacity n :
  0 <= n < two64 ->
  let c := Pow2._ccol_find_nearest_gte_power_of_two n in
  let c' := if c <? cstring_minimum_capacity then cstring_minimum_capacity else c in
  (c = ccol_invalid_size /\ ccol_max_elem_count < n) \/
  (c <> ccol_invalid_size /\ n <= c' /\ exists k, 4 <= k <= 63 /\ c' = 2 ^ k).
Proof.
  intros Hn c c'. unfold c', c, cstring_minimum_capacity.
  destruct (Pow2.pow2_cases n Hn) as [(Hmax & Hr1 & Hr2)|(Hmax & ->)]; [right|left; done].
  destruct (Pow2.pow2_ok n ltac:(lia)) as ((k & Hk & Ek) & _ & _).
  unfold ccol_invalid_size, SIZE_MAX, ccol_max_elem_count in *. split; [lia|]. split; [zcase; lia|].
  destruct (Z.ltb_spec (Pow2._ccol_find_nearest_gte_power_of_two n) 16) as [|H16]; [by exists 4|].
  exists k. split; [|done]. rewrite Ek in *. change 16 with (2 ^ 4) in H16.
  apply Z.pow_le_mono_r_iff in H16; [|lia..]. destruct Hr1 as [_ Hr1].
  change 9223372036854775808 with (2 ^ 63) in Hr1. apply Z.pow_le_mono_r_iff in Hr1; lia.
Qed.

(** Replacing the buffer of a string. *)
Lemma repr_with_buffer s d t d' c :
  repr s d t -> s_addr s <> b_id d' -> (exists k, 4 <= k <= 63 /\ c = 2 ^ k) ->
  s_length s < c -> zlen (b_bytes d') = c -> (exists rest, b_bytes d' = t ++ 0 :: rest) ->
  repr (with_buffer s d' c) d' t.
Proof. intros (? & ? & ? & ? & ? & ? & ? & ? & ?) ?????. by split_and!. Qed.

Lemma wp_grow_to s d t n m F (Q : bool * cstring -> mem -> Prop) :
  repr s d t -> owns m (blocks s d) F -> 0 <= n < two64 ->
  (forall m', owns m' (blocks s d) F -> s_capacity s < n ->
     ccol_max_elem_count < n \/ (exists k c, grant k c = false) -> Q (false, s) m') ->
  (forall d' s' m', repr s' d' t -> owns m' (blocks s' d') F -> n <= s_capacity s' ->
     s_addr s' = s_addr s -> s_length s' = s_length s -> s_procs s' = s_procs s ->
     zlen (b_bytes d) <= zlen (b_bytes d') ->
     Q (true, s') m') ->
  wp (cstring_grow_to s n) m Q.
Proof.
  intros Hr Ho Hn Hfail Hok. pose proof (repr_bounds _ _ _ Hr) as Hb.
  pose proof Hr as (Hd & Hne & Hch & Hl & Hlt & Hp & Hlen & (rest & Hrest) & Hpr).
  unfold cstring_grow_to. destruct (Z.leb_spec n (s_capacity s)).
  { by apply wp_ret, (Hok d s). }
  pose proof (rounded_capacity n Hn) as Hround. cbv zeta in Hround.
  destruct Hround as [[E Hmax]|(Hne' & Hge & Hpow)].
  { rewrite E. apply wp_ret, Hfail; auto. }
  destruct (Z.eqb_spec (Pow2._ccol_find_nearest_gte_power_of_two n) ccol_invalid_size); [done|].
  set (c := if _ <? _ then _ else _) in *. clearbody c. pose proof (str_pow2_bounds _ Hpow).
  rewrite Hd. wp_pure. apply (wp_realloc_owns _ _ _ _ _ _ Ho); [unfold blocks; set_solver|lia| |].
  - intros m' Ho' Hg. apply wp_ret, Hfail; eauto.
  - intros d' m' Ho' Hid _ Hl' Ht _. apply wp_ret.
    assert (repr (with_buffer s d' c) d' t) as Hr'.
    { eapply repr_with_buffer; [done| |done|lia|done|].
      - unfold blocks in Hid. set_solver.
      - rewrite Z.min_r in Ht by lia. rewrite (ztake_all (b_bytes d)) in Ht by lia.
        exists (rest ++ zdrop (zlen (b_bytes d)) (b_bytes d')).
        rewrite <- (ztake_zdrop (zlen (b_bytes d)) (b_bytes d')) at 1.
        rewrite Ht, Hrest at 1. by rewrite <- app_assoc. }
    apply (Hok d' (with_buffer s d' c)); cbn; try done; try lia.
    apply (owns_change _ _ _ _ Ho'). unfold blocks. cbn. unfold blocks in Hid. set_solver.
Qed.

(** ** Arguments

    [arg_is s d t p u]: the argument [p] is the C string [u], foreign or a
    tail of the string's own text. *)
Definition arg_is (s : cstring) (d : block) (t : list Z) (p : ptr) (u : list Z) : Prop :=
  match p with
  | Foreign bs => Forall is_char u /\ exists r, bs = u ++ 0 :: r
  | At b off => b = b_id d /\ 0 <= off <= s_length s /\ u = zdrop off t
  end.

Lemma arg_chars s d t p u : repr s d t -> arg_is s d t p u -> Forall is_char u.
Proof.
  intros (_ & _ & Hch & _). destruct p; cbn; [naive_solver|]. intros (_ & _ & ->).
  by apply Forall_drop.
Qed.

Lemma own_tail s d t off :
  repr s d t -> 0 <= off <= s_length s ->
  exists rest, zdrop off (b_bytes d) = zdrop off t ++ 0 :: rest.
Proof.
  intros (_ & _ & _ & Hl & _ & _ & _ & (rest & Hrest) & _) Hoff. exists rest. rewrite Hrest.
  unfold zdrop. apply drop_app_le. unfold zlen in *. lia.
Qed.

Lemma arg_text_is s d t p u : repr s d t -> arg_is s d t p u -> c_str_at d p = Some u.
Proof.
  intros Hr Ha. pose proof (arg_chars _ _ _ _ _ Hr Ha) as Hch. destruct p as [bs|b off]; cbn.
  - destruct Ha as (_ & r & ->). by apply until_nul_text.
  - destruct Ha as (-> & Hoff & ->). rewrite bool_decide_true by done.
    destruct (Z.leb_spec 0 off); [|lia]. cbn.
    destruct (own_tail s d t off Hr Hoff) as [rest ->]. by apply until_nul_text.
Qed.

Lemma own_text_is s d t : repr s d t -> c_str_at d (At (b_id d) 0) = Some t.
Proof.
  intros Hr. pose proof (repr_bounds _ _ _ Hr). apply (arg_text_is s d t); [done|].
  cbn. split; [done|]. split; [lia|]. by rewrite zdrop_0.
Qed.

(** The bytes of an argument, without and with its NUL. *)
Lemma arg_bytes s d t p u :
  repr s d t -> arg_is s d t p u ->
  ptr_bytes d p (zlen u) = Some u /\ ptr_bytes d p (zlen u + 1) = Some (u ++ [0]).
Proof.
  intros Hr Ha. pose proof (repr_bounds _ _ _ Hr). zlen_facts.
  destruct p as [bs|b off].
  - destruct Ha as (_ & r & ->). cbn. rewrite zlen_app, zlen_cons. zlen_facts.
    destruct (Z.leb_spec 0 (zlen u)), (Z.leb_spec (zlen u) (zlen u + (1 + zlen r))),
      (Z.leb_spec 0 (zlen u + 1)), (Z.leb_spec (zlen u + 1) (zlen u + (1 + zlen r))); try lia.
    cbn. split; f_equal; [by apply ztake_app_exact|].
    change (0 :: r) with ([0] ++ r). rewrite app_assoc. apply ztake_app_exact. zlia.
  - destruct Ha as (-> & Hoff & ->). destruct (own_tail s d t off Hr Hoff) as [rest Hrest].
    pose proof Hr as (_ & _ & _ & Hl & Hlt & _ & Hlen & _).
    assert (zlen (zdrop off t) = s_length s - off) as Hz by zlia.
    split; apply ptr_bytes_At; rewrite Hz; split_and!; try done; try lia; unfold slice; rewrite Hrest.
    + symmetry. by apply ztake_app_exact.
    + symmetry. change (0 :: rest) with ([0] ++ rest). rewrite app_assoc.
      apply ztake_app_exact. rewrite zlen_app, Hz. done.
Qed.

(** An argument's length fits: foreign text may be longer than any string. *)
Lemma alias_off_arg s d t p u :
  repr s d t -> arg_is s d t p u ->
  alias_off s p = match p with At _ off => off | Foreign _ => -1 end.
Proof.
  intros Hr Ha. pose proof (repr_bounds _ _ _ Hr). unfold alias_off.
  destruct Hr as (-> & _). destruct p as [bs|b off]; [done|].
  destruct Ha as (-> & Hoff & _). rewrite bool_decide_true by done.
  destruct (Z.leb_spec 0 off), (Z.ltb_spec off (s_capacity s)); done || lia.
Qed.

(** The argument after the buffer moved. *)
Definition moved_arg (d' : block) (p : ptr) : ptr :=
  match p with At _ off => At (b_id d') off | Foreign bs => Foreign bs end.

Lemma wp_rebase_str s d t p u s' d' m (Q : ptr -> mem -> Prop) :
  repr s d t -> arg_is s d t p u -> repr s' d' t -> s_length s' = s_length s ->
  (arg_is s' d' t (moved_arg d' p) u -> Q (moved_arg d' p) m) ->
  wp (rebase_str s' (alias_off s p) p) m Q.
Proof.
  intros Hr Ha Hr' Hl HQ. rewrite (alias_off_arg s d t p u) by done. unfold rebase_str.
  destruct p as [bs|b off]; [by apply wp_ret, HQ|]. destruct Ha as (-> & Hoff & ->).
  rewrite Z.geb_leb. destruct (Z.leb_spec 0 off); [|lia].
  pose proof Hr' as (-> & _). wp_pure. apply HQ. cbn. split; [done|]. rewrite Hl. done.
Qed.

Lemma repr_of_bytes s d t d' t' rest n :
  repr s d t -> b_id d' = b_id d -> b_bytes d' = t' ++ 0 :: rest -> Forall is_char t' ->
  n = zlen t' -> zlen (b_bytes d') = s_capacity s ->
  repr (with_data s d' n) d' t'.
Proof.
  intros (Hd & Hne & Hch & Hl & Hlt & Hp & Hlen & Hex & Hpr) Hid Hb Hch' -> Hlen'.
  assert (zlen t' < s_capacity s).
  { rewrite <- Hlen', Hb, zlen_app, zlen_cons. zlen_facts. lia. }
  split_and!; try done; [by rewrite Hid|by eexists].
Qed.

(** Opening a gap of [n] bytes at [pos] and filling it with the argument,
    which the move may have shifted: the body of insert and prepend. *)
Definition open_gap (s : cstring) (pos n : Z) (p : ptr) (off : Z) : M (ccol_retval_t * cstring) :=
  d ← move_data s (pos + n) pos (s_length s - pos + 1);
  let str := if (off >=? 0) && (off >? pos) then At (b_id d) (off + n) else p in
  d ← memmove_ptr d pos str n;
  mret (ccol_success, with_data s d (s_length s + n)).

Lemma wp_open_gap s d t p u pos m (Q : ccol_retval_t * cstring -> mem -> Prop) :
  repr s d t -> arg_is s d t p u -> 0 <= pos <= s_length s ->
  s_length s + zlen u < s_capacity s ->
  (forall d' s', repr s' d' (ztake pos t ++ u ++ zdrop pos t) -> blocks s' d' = blocks s d ->
     Q (ccol_success, s') m) ->
  wp (open_gap s pos (zlen u) p (match p with At _ off => off | Foreign _ => -1 end)) m Q.
Proof.
  intros Hr Ha Hpos Hroom HQ. pose proof (repr_bounds _ _ _ Hr) as Hb.
  pose proof (arg_chars _ _ _ _ _ Hr Ha) as Hchu. pose proof (arg_bytes _ _ _ _ _ Hr Ha) as [Hbu _].
  pose proof Hr as (Hd & Hne & Hch & Hl & Hlt & Hp & Hlen & (rest & Hrest) & Hpr). zlen_facts.
  set (a := ztake pos t) in *. set (b := zdrop pos t) in *.
  assert (t = a ++ b) as Ht by (symmetry; apply ztake_zdrop).
  assert (zlen a = pos) as Hza by (unfold a; zlia).
  assert (zlen b = s_length s - pos) as Hzb by (unfold b; zlia).
  unfold open_gap, move_data. apply wp_bind, wp_bind. rewrite Hd. apply wp_ret. cbn [ub].
  apply wp_bind, wp_memmove_within; [lia..|]. apply wp_ret.
  assert (slice (b_bytes d) pos (s_length s - pos + 1) = b ++ [0]) as ->.
  { rewrite Hrest, Ht. replace ((a ++ b) ++ 0 :: rest) with (a ++ (b ++ [0]) ++ rest) by app_eq.
    apply slice_app_exact; [done|]. rewrite zlen_app, Hzb. done. }
  set (bs1 := splice _ _ _). set (x := ztake (pos + zlen u) (b_bytes d)).
  assert (zlen x = pos + zlen u) as Hx by (unfold x; zlia).
  assert (exists rest', bs1 = x ++ b ++ 0 :: rest') as [rest' Hbs1].
  { unfold bs1, splice. fold x. eexists. rewrite <- app_assoc. done. }
  assert (zlen bs1 = s_capacity s) as Hlen1.
  { unfold bs1. rewrite zlen_splice, Hlen; [done|lia|]. rewrite zlen_app, Hzb, Hlen. change (zlen [0]) with 1. lia. }
  set (p' := if _ && _ then _ else _). set (d1 := Block (b_id d) bs1) in *.
  assert (ptr_bytes d1 p' (zlen u) = Some u) as Hbu1.
  { unfold p'. destruct p as [fb|b' off].
    - change ((-1 >=? 0) && (-1 >? pos)) with false. done.
    - destruct Ha as (-> & Hoff & Hu). rewrite Z.geb_leb, Z.gtb_ltb.
      assert (zlen u = s_length s - off) as Hzu by (rewrite Hu; zlia).
      destruct (Z.leb_spec 0 off), (Z.ltb_spec pos off); try lia; cbn [andb].
      + (* the text after the gap, shifted *)
        apply ptr_bytes_At. cbn [b_bytes b_id d1]. split_and!; [done|lia|lia|lia|].
        assert (b = ztake (off - pos) b ++ u) as Hbs.
        { rewrite Hu. rewrite <- (ztake_zdrop (off - pos) b) at 1. f_equal. unfold b.
          rewrite zdrop_zdrop by lia. f_equal. lia. }
        rewrite Hbs1, Hbs.
        replace (x ++ (ztake (off - pos) b ++ u) ++ 0 :: rest')
          with ((x ++ ztake (off - pos) b) ++ u ++ 0 :: rest') by app_eq.
        symmetry. apply slice_app_exact; [|done]. rewrite zlen_app, Hx, zlen_ztake by lia. lia.
      + (* the text before the gap's end, in place *)
        apply ptr_bytes_At in Hbu as (_ & _ & _ & Hin & Hs).
        apply ptr_bytes_At. cbn [b_bytes b_id d1]. split_and!; [done|lia|lia|lia|].
        rewrite Hs at 1. unfold slice. rewrite Hbs1. unfold x.
        rewrite <- (ztake_zdrop (pos + zlen u) (b_bytes d)) at 1. unfold ztake, zdrop, zlen in *.
        rewrite !drop_app_le, !take_app_le; [done|rewrite ?length_drop, ?length_take; lia..]. }
  apply wp_bind, (wp_memmove_ptr d1 pos p' _ u); [done|lia|cbn [b_bytes d1]; lia|].
  apply wp_ret. set (d2 := Block (b_id d1) _).
  assert (b_bytes d2 = (a ++ u ++ b) ++ 0 :: rest') as Hd2.
  { cbn [b_bytes d2 d1]. rewrite Hbs1.
    assert (x = a ++ zdrop pos x) as Hxa.
    { rewrite <- (ztake_zdrop pos x) at 1. f_equal. unfold x. rewrite ztake_ztake, Z.min_l by lia.
      rewrite Hrest, Ht, <- app_assoc. by apply ztake_app_exact. }
    rewrite Hxa, <- app_assoc, (splice_app_exact a); [app_eq|done|]. rewrite zlen_zdrop; lia. }
  apply (HQ d2); [|done].
  apply (repr_of_bytes s d t d2 _ rest'); [done|done|done| | |].
  - rewrite Ht in Hch. apply Forall_app in Hch as [??]. by rewrite !Forall_app.
  - rewrite !zlen_app. lia.
  - cbn [b_bytes d2 d1]. rewrite zlen_splice; lia.
Qed.

(** ** What a caller holds, and what an edit may answer *)
Definition str_is (m : mem) (F : gset nat) (s : cstring) (t : list Z) : Prop :=
  exists d, repr s d t /\ owns m (blocks s d) F.

(** An edit from [t] to [t'] of [n] bytes: it succeeds, or reports the exact
    reason why it can't and leaves the string alone. *)
Definition edited (F : gset nat) (s : cstring) (t t' : list Z) (n : Z) :
    ccol_retval_t * cstring -> mem -> Prop :=
  fun '(r, s') m' =>
    match r with
    | ccol_success => str_is m' F s' t'
    | ccol_container_full => s' = s /\ str_is m' F s t /\ SIZE_MAX <= n
    | ccol_not_enough_memory =>
        s' = s /\ str_is m' F s t /\ (ccol_max_elem_count <= n \/ exists k c, grant k c = false)
    | _ => False
    end.

Lemma length_guard len n :
  0 <= len <= ccol_max_elem_count -> 0 <= n < two64 ->
  (len ⊕ n <? len) || negb (cstring_length_fits_with_terminator (len ⊕ n)) = negb (len + n <? SIZE_MAX).
Proof.
  unfold cstring_length_fits_with_terminator, ccol_invalid_size, SIZE_MAX, ccol_max_elem_count. intros Hl Hn.
  destruct (Z.ltb_spec (len + n) 18446744073709551615); cbn [negb].
  - sz. destruct (Z.ltb_spec (len + n) len); [lia|]. destruct (Z.eqb_spec (len + n) 18446744073709551615); [lia|done].
  - destruct (Z.eq_dec (len + n) 18446744073709551615) as [E|].
    { sz. rewrite E. cbn. by rewrite orb_true_r. }
    assert (len ⊕ n < len) as Hlt by (apply wrap_add_overflow; unfold two64 in *; lia).
    apply Z.ltb_lt in Hlt. by rewrite Hlt.
Qed.

(** The part every edit shares: the overflow guard, the growth and the
    argument rebased; [body] finishes the edit. *)
Lemma wp_edit s d t p u t' m F body :
  repr s d t -> owns m (blocks s d) F -> arg_is s d t p u -> zlen u <= SIZE_MAX ->
  (forall s' d' m', repr s' d' t -> arg_is s' d' t (moved_arg d' p) u ->
     owns m' (blocks s' d') F -> s_length s' = s_length s -> s_length s + zlen u < s_capacity s' ->
     s_length s + zlen u < SIZE_MAX ->
     wp (body s' (moved_arg d' p)) m' (edited F s t t' (s_length s + zlen u))) ->
  wp (let new_len := s_length s ⊕ zlen u in
      if (new_len <? s_length s) || negb (cstring_length_fits_with_terminator new_len)
      then mret (ccol_container_full, s) else
      let off := alias_off s p in
      '(ok, s') ← cstring_grow_to s (new_len ⊕ 1);
      if negb ok then mret (ccol_not_enough_memory, s') else
      str ← rebase_str s' off p; body s' str) m (edited F s t t' (s_length s + zlen u)).
Proof.
  intros Hr Ho Ha Hu Hbody. pose proof (repr_bounds _ _ _ Hr) as Hb. zlen_facts. cbv zeta.
  rewrite length_guard by (unfold two64, SIZE_MAX in *; lia).
  destruct (Z.ltb_spec (s_length s + zlen u) SIZE_MAX); cbn [negb].
  2:{ apply wp_ret. split; [done|]. split; [by exists d|lia]. }
  unfold SIZE_MAX, ccol_max_elem_count in *. sz. apply wp_bind, (wp_grow_to s d t _ m F); [done|done|unfold two64; lia| |].
  - intros m' Ho' _ Hg. apply wp_ret. split; [done|]. split; [by exists d|].
    unfold ccol_max_elem_count in *. destruct Hg; [left; lia|by right].
  - intros d' s' m' Hr' Ho' Hcap Haddr Hlen Hpr Hdd. cbn [negb]. apply wp_bind.
    apply (wp_rebase_str s d t p u s' d'); [done..|]. intros Ha'.
    apply Hbody; try done; unfold SIZE_MAX; lia.
Qed.

Lemma wp_insert s d t p u pos m F :
  repr s d t -> owns m (blocks s d) F -> arg_is s d t p u -> zlen u <= SIZE_MAX ->
  0 <= pos <= s_length s ->
  wp (cstring_insert (Some s) pos (Some p)) m
    (edited F s t (ztake pos t ++ u ++ zdrop pos t) (s_length s + zlen u)).
Proof.
  intros Hr Ho Ha Hu Hpos. pose proof (repr_bounds _ _ _ Hr) as Hb.
  unfold cstring_insert. apply wp_bind, wp_ret. rewrite Z.gtb_ltb.
  destruct (Z.ltb_spec (s_length s) pos); [lia|]. pose proof Hr as (Hd & _). rewrite Hd.
  apply wp_bind, wp_ret. rewrite (arg_text_is s d t p u) by done. apply wp_bind, wp_ret.
  destruct (Z.eqb_spec (zlen u) 0) as [E|].
  { apply wp_ret. apply zlen_0_nil in E as ->. exists d. cbn [app]. by rewrite ztake_zdrop. }
  apply (wp_edit s d t p u _ m F (fun s' str => 
    d ← move_data s' (pos ⊕ zlen u) pos ((s_length s' ⊖ pos) ⊕ 1);
    let str := if (alias_off s p >=? 0) && (alias_off s p >? pos)
               then At (b_id d) (alias_off s p ⊕ zlen u) else str in
    d ← memmove_ptr d pos str (zlen u);
    mret (ccol_success, with_data s' d (s_length s ⊕ zlen u)))); [done..|].
  intros s' d' m' Hr' Ha' Ho' Hl' Hroom Hfit. rewrite (alias_off_arg s d t p u) by done.
  zlen_facts. unfold SIZE_MAX, ccol_max_elem_count in *. rewrite <- Hl' in *.
  pose proof (repr_bounds _ _ _ Hr') as Hb'. unfold ccol_max_elem_count in *. sz.
  assert (match p with At _ off => 0 <= off <= s_length s' | Foreign _ => True end) as Hoff
    by (destruct p; [done|]; destruct Ha as (_ & ? & _); lia).
  pose proof (wp_open_gap s' d' t (moved_arg d' p) u pos m' (edited F s t (ztake pos t ++ u ++ zdrop pos t) (s_length s' + zlen u))
    Hr' Ha' Hpos Hroom) as Hgap.
  destruct p as [bs|b off]; cbn [moved_arg] in *.
  - apply Hgap. intros d2 s2 Hr2 Hb2. exists d2. by rewrite Hb2.
  - destruct (Z.geb_spec off 0); [|lia]. sz. 
    assert (off + zlen u < 18446744073709551616) by (destruct Ha as (_ & _ & ->); zlia). sz.
    unfold open_gap in Hgap. destruct (Z.geb_spec off 0); [|lia].
    apply Hgap. intros d2 s2 Hr2 Hb2. exists d2. by rewrite Hb2.
Qed.

Lemma wp_prepend s d t p u m F :
  repr s d t -> owns m (blocks s d) F -> arg_is s d t p u -> zlen u <= SIZE_MAX ->
  wp (cstring_prepend (Some s) (Some p)) m (edited F s t (u ++ t) (s_length s + zlen u)).
Proof.
  intros Hr Ho Ha Hu. pose proof (repr_bounds _ _ _ Hr) as Hb.
  unfold cstring_prepend. apply wp_bind, wp_ret. pose proof Hr as (Hd & _). rewrite Hd.
  apply wp_bind, wp_ret. rewrite (arg_text_is s d t p u) by done. apply wp_bind, wp_ret.
  destruct (Z.eqb_spec (zlen u) 0) as [E|].
  { apply wp_ret. apply zlen_0_nil in E as ->. by exists d. }
  apply (wp_edit s d t p u _ m F (fun s' str =>
    d ← move_data s' (zlen u) 0 (s_length s' ⊕ 1);
    let str := if alias_off s p >? 0 then At (b_id d) (alias_off s p ⊕ zlen u) else str in
    d ← memmove_ptr d 0 str (zlen u);
    mret (ccol_success, with_data s' d (s_length s ⊕ zlen u)))); [done..|].
  intros s' d' m' Hr' Ha' Ho' Hl' Hroom Hfit. rewrite (alias_off_arg s d t p u) by done.
  zlen_facts. unfold SIZE_MAX, ccol_max_elem_count in *. rewrite <- Hl' in *.
  pose proof (repr_bounds _ _ _ Hr') as Hb'. unfold ccol_max_elem_count in *. sz.
  assert (match p with At _ off => 0 <= off /\ off + zlen u < two64 | Foreign _ => True end) as Hoff
    by (destruct p; [done|]; destruct Ha as (_ & ? & ->); unfold two64 in *; zlia).
  pose proof (wp_open_gap s' d' t (moved_arg d' p) u 0 m' (edited F s t (u ++ t) (s_length s' + zlen u))
    Hr' Ha' ltac:(lia) Hroom) as Hgap.
  rewrite ztake_0, zdrop_0 in Hgap. unfold open_gap in Hgap. rewrite Z.sub_0_r, Z.add_0_l in Hgap.
  destruct p as [bs|b off]; cbn [moved_arg] in *.
  - apply Hgap. intros d2 s2 Hr2 Hb2. exists d2. by rewrite Hb2.
  - destruct (Z.geb_spec off 0); [|lia]. unfold two64 in *. sz.
    apply Hgap. intros d2 s2 Hr2 Hb2. exists d2. by rewrite Hb2.
Qed.

Lemma wp_append s d t p u m F :
  repr s d t -> owns m (blocks s d) F -> arg_is s d t p u -> zlen u <= SIZE_MAX ->
  wp (cstring_append (Some s) (Some p)) m (edited F s t (t ++ u) (s_length s + zlen u)).
Proof.
  intros Hr Ho Ha Hu. pose proof (repr_bounds _ _ _ Hr) as Hb.
  unfold cstring_append. apply wp_bind, wp_ret. pose proof Hr as (Hd & _). rewrite Hd.
  apply wp_bind, wp_ret. rewrite (arg_text_is s d t p u) by done. apply wp_bind, wp_ret.
  destruct (Z.eqb_spec (zlen u) 0) as [E|].
  { apply wp_ret. apply zlen_0_nil in E as ->. rewrite app_nil_r. by exists d. }
  apply (wp_edit s d t p u _ m F (fun s' str =>
    d ← ub (s_data s');
    d ← memcpy_ptr d (s_length s') str (zlen u);
    d ← GrowBuf.put_nul d (s_length s ⊕ zlen u);
    mret (ccol_success, with_data s' d (s_length s ⊕ zlen u)))); [done..|].
  intros s' d' m' Hr' Ha' Ho' Hl' Hroom Hfit.
  zlen_facts. unfold SIZE_MAX, ccol_max_elem_count in *. rewrite <- Hl' in *.
  pose proof (repr_bounds _ _ _ Hr') as Hb'. unfold ccol_max_elem_count in *. sz.
  pose proof (arg_chars _ _ _ _ _ Hr Ha) as Hchu.
  pose proof (arg_bytes _ _ _ _ _ Hr' Ha') as [Hbu _].
  pose proof Hr' as (Hd' & _ & Hch' & Hlt & _ & _ & Hlen' & (rest & Hrest) & _). rewrite Hd'.
  apply wp_bind, wp_ret, wp_bind, (wp_memcpy_ptr d' _ _ _ u); [done| |lia|lia|].
  { destruct p as [bs|b off]; [done|]. destruct Ha' as (_ & Hoff & ->). cbn.
    destruct (Z.ltb_spec (s_length s') (off + zlen (zdrop off t))); [zlia|]. by rewrite andb_false_r. }
  apply wp_bind, GrowBuf.wp_put_nul; cbn [b_bytes].
  { rewrite zlen_splice; lia. }
  apply wp_ret. set (d2 := Block _ (splice (splice _ _ _) _ _)).
  exists d2. split; [|done].
  set (tl := zdrop (s_length s' + zlen u) (b_bytes d')).
  assert (splice (b_bytes d') (s_length s') u = (t ++ u) ++ tl) as Hsp.
  { unfold splice. fold tl. rewrite <- app_assoc. f_equal. rewrite Hrest. by apply ztake_app_exact. }
  assert (exists c tl', tl = c :: tl') as (c & tl' & Etl).
  { assert (zlen tl <> 0) as Hz by (unfold tl; rewrite zlen_zdrop; lia).
    destruct tl as [|c tl']; [done|by eauto]. }
  apply (repr_of_bytes s' d' t d2 _ tl'); try done.
  - cbn [b_bytes d2]. rewrite Hsp, Etl. change (c :: tl') with ([c] ++ tl').
    rewrite (splice_app_exact (t ++ u) [c] tl' [0]); [app_eq|rewrite zlen_app; lia|done].
  - by apply Forall_app.
  - rewrite zlen_app. lia.
  - cbn [b_bytes d2]. rewrite zlen_splice; rewrite ?zlen_splice; try lia. change (zlen [0]) with 1. lia.
Qed.

Lemma wp_set s d t p u m F :
  repr s d t -> owns m (blocks s d) F -> arg_is s d t p u -> zlen u <= SIZE_MAX ->
  wp (cstring_set (Some s) (Some p)) m (edited F s t u (zlen u)).
Proof.
  intros Hr Ho Ha Hu. pose proof (repr_bounds _ _ _ Hr) as Hb. zlen_facts.
  unfold cstring_set. apply wp_bind, wp_ret. pose proof Hr as (Hd & _). rewrite Hd.
  apply wp_bind, wp_ret. rewrite (arg_text_is s d t p u) by done. apply wp_bind, wp_ret.
  unfold cstring_length_fits_with_terminator, ccol_invalid_size.
  destruct (Z.eqb_spec (zlen u) SIZE_MAX); cbn [negb].
  { apply wp_ret. split; [done|]. split; [by exists d|lia]. }
  unfold SIZE_MAX, ccol_max_elem_count in *. sz.
  apply wp_bind, (wp_grow_to s d t _ m F); [done|done|unfold two64; lia| |].
  { intros m' Ho' _ Hg. apply wp_ret. split; [done|]. split; [by exists d|].
    unfold ccol_max_elem_count in *. destruct Hg; [left; lia|by right]. }
  intros d' s' m' Hr' Ho' Hcap Haddr Hlen Hpr Hdd. cbn [negb]. apply wp_bind.
  apply (wp_rebase_str s d t p u s' d'); [done..|]. intros Ha'.
  pose proof (arg_chars _ _ _ _ _ Hr Ha) as Hchu.
  pose proof (arg_bytes _ _ _ _ _ Hr' Ha') as [_ Hbu].
  pose proof Hr' as (Hd' & _ & Hch' & Hlt & _ & _ & Hlen' & (rest & Hrest) & _). rewrite Hd'.
  apply wp_bind, wp_ret, wp_bind, (wp_memmove_ptr d' _ _ _ (u ++ [0])); [done|lia|lia|].
  apply wp_ret. set (d2 := Block _ _). exists d2. split; [|done].
  apply (repr_of_bytes s' d' t d2 u (zdrop (zlen u + 1) (b_bytes d'))); try done.
  - cbn [b_bytes d2]. unfold splice. rewrite ztake_0, zlen_app. change (zlen [0]) with 1.
    cbn [app]. rewrite <- app_assoc. done.
  - cbn [b_bytes d2]. rewrite zlen_splice; rewrite ?zlen_app; change (zlen [0]) with 1; lia.
Qed.

Lemma wp_str_reset s d t m F (Q : cstring -> mem -> Prop) :
  repr s d t -> owns m (blocks s d) F ->
  (forall s' m', str_is m' F s' [] -> Q s' m') ->
  wp (cstring_reset (Some s)) m Q.
Proof.
  intros Hr Ho HQ. pose proof (repr_bounds _ _ _ Hr) as Hb.
  assert (forall s' d' m', s_data s' = Some d' -> s_addr s' = s_addr s -> s_addr s <> b_id d' ->
    s_procs s' = s_procs s -> zlen (b_bytes d') = s_capacity s' ->
    (exists k, 4 <= k <= 63 /\ s_capacity s' = 2 ^ k) -> owns m' (blocks s d') F ->
    wp (d ← ub (s_data s'); d ← GrowBuf.put_nul d 0; mret (with_data s' d 0)) m' Q) as Hend.
  { intros s' d' m' Hd' Haddr Hne Hpr Hlen Hpow Ho'. pose proof (str_pow2_bounds _ Hpow).
    rewrite Hd'. apply wp_bind, wp_ret, wp_bind, GrowBuf.wp_put_nul; [lia|]. apply wp_ret, HQ.
    exists (Block (b_id d') (splice (b_bytes d') 0 [0])).
    split; [|unfold blocks in *; cbn; by rewrite Haddr].
    destruct Hr as (_ & _ & _ & _ & _ & _ & _ & _ & Hv).
    split_and!; cbn; try done; [by rewrite Haddr|lia| | |by rewrite Hpr].
    - rewrite zlen_splice; change (zlen [0]) with 1; lia.
    - eexists. unfold splice. rewrite ztake_0. done. }
  unfold cstring_reset. apply wp_bind, wp_ret. apply wp_bind.
  pose proof Hr as (Hd & Hne & _ & _ & _ & Hpow & Hlen & _).
  destruct (Z.eqb_spec (s_capacity s) cstring_minimum_capacity); cbn [negb].
  { by apply wp_ret, (Hend s d). }
  rewrite Hd. wp_pure. apply (wp_realloc_owns _ _ _ _ _ _ Ho); [unfold blocks; set_solver|done| |].
  - intros m' Ho' _. by apply wp_ret, (Hend s d).
  - intros d' m' Ho' Hid _ Hl' _ _. apply wp_ret, (Hend _ d'); try done.
    + unfold blocks in Hid. set_solver.
    + by exists 4.
    + apply (owns_change _ _ _ _ Ho'). unfold blocks in *. set_solver.
Qed.

Lemma wp_str_reserve s d t n m F (Q : bool * cstring -> mem -> Prop) :
  repr s d t -> owns m (blocks s d) F -> 0 <= n < two64 ->
  (forall b s' m', str_is m' F s' t -> (b = true -> n <= s_capacity s') -> 
     (b = false -> s' = s) -> Q (b, s') m') ->
  wp (cstring_reserve (Some s) n) m Q.
Proof.
  intros Hr Ho Hn HQ. unfold cstring_reserve. apply wp_bind, wp_ret.
  set (c := if n <? cstring_minimum_capacity then _ else n).
  assert (n <= c /\ 0 <= c < two64) as [Hnc Hc]
    by (unfold c, cstring_minimum_capacity, two64 in *; zcase; lia).
  apply (wp_grow_to s d t c m F); [done..| |].
  - intros m' Ho' _ _. apply HQ; [by exists d|done|done].
  - intros d' s' m' Hr' Ho' Hcap _ _ _ _. apply HQ; [by exists d'|lia|done].
Qed.

(** Case conversion. *)
Lemma wp_map_chars f s d t m F (Q : cstring -> mem -> Prop) :
  repr s d t -> owns m (blocks s d) F -> (forall c, is_char c -> is_char (f c)) ->
  (forall s' m', str_is m' F s' (f <$> t) -> Q s' m') ->
  wp (map_chars f s) m Q.
Proof.
  intros Hr Ho Hf HQ. pose proof (repr_bounds _ _ _ Hr) as Hb.
  pose proof Hr as (Hd & Hne & Hch & Hl & _ & _ & Hlen & (rest & Hrest) & _).
  unfold map_chars. rewrite Hd. apply wp_bind, wp_ret, wp_bind.
  apply (wp_while (fun '(i, bs) m' => m' = m /\ 0 <= i <= s_length s /\
           bs = (f <$> ztake i t) ++ zdrop i t ++ 0 :: rest)
         (fun '(i, _) => Z.to_nat (s_length s - i))).
  - intros [i bs] m' (-> & Hi & ->) Hlt. zbool.
    destruct (zget_is_Some t i) as [c Hc]; [lia|]. pose proof (zget_split _ _ _ Hc) as Hs.
    assert (zlen (f <$> ztake i t) = i) as Hzi by (rewrite zlen_fmap, zlen_ztake; lia).
    assert (zdrop i t = c :: zdrop (i + 1) t) as Hdrop.
    { rewrite Hs at 1. rewrite zdrop_app_exact; [done|]. rewrite zlen_ztake; lia. }
    rewrite Hdrop. cbn [app]. apply wp_bind. eapply wp_ub; [by apply zget_app_mid|].
    apply wp_bind. eapply wp_ub; [by apply zset_app_mid|]. apply wp_ret.
    unfold ccol_max_elem_count in *. sz. split; [|lia]. split; [done|]. split; [lia|].
    assert (ztake (i + 1) t = ztake i t ++ [c]) as ->.
    { rewrite Hs at 1. change (c :: zdrop (i + 1) t) with ([c] ++ zdrop (i + 1) t).
      rewrite app_assoc. apply ztake_app_exact. rewrite zlen_app, zlen_ztake by lia.
      change (zlen [c]) with 1. lia. }
    rewrite fmap_app, <- app_assoc. done.
  - intros [i bs] m' (-> & Hi & ->) Hge. zbool. assert (i = s_length s) as -> by lia.
    apply wp_ret, HQ. set (d' := Block _ _). exists d'. split; [|done].
    apply (repr_of_bytes s d t d' _ rest); try done; cbn [b_bytes d'].
    + rewrite <- Hl, ztake_all, zdrop_all by lia. done.
    + apply Forall_fmap. eapply Forall_impl; [exact Hch|done].
    + by rewrite zlen_fmap.
    + rewrite <- Hlen, Hrest, <- Hl, ztake_all, zdrop_all by lia. cbn [app].
      rewrite !zlen_app, zlen_fmap. done.
  - cbn. rewrite ztake_0, zdrop_0. split; [done|]. split; [lia|]. done.
  - lia.
Qed.

(** Trimming, as a function of the text. *)
Fixpoint ltrim (t : list Z) : list Z :=
  match t with
  | c :: t' => if Ascii.ccol_ascii_isspace c then ltrim t' else t
  | [] => []
  end.
Definition rtrim (t : list Z) : list Z := reverse (ltrim (reverse t)).

Lemma rtrim_snoc t c :
  rtrim (t ++ [c]) = if Ascii.ccol_ascii_isspace c then rtrim t else t ++ [c].
Proof.
  unfold rtrim. rewrite reverse_snoc. cbn [ltrim]. destruct (Ascii.ccol_ascii_isspace c); [done|].
  by rewrite reverse_cons, reverse_involutive.
Qed.

(** The two loops of [cstring_trim]. *)
Lemma wp_trim_end t rest m (Q : Z -> mem -> Prop) :
  zlen t <= ccol_max_elem_count ->
  (forall k, 0 <= k <= zlen t -> ztake k t = rtrim t -> Q k m) ->
  wp (loop (Z.to_nat (zlen t) + 1) (fun length =>
    if length >? 0
    then c ← ub (zget (t ++ rest) (length ⊖ 1));
         if Ascii.ccol_ascii_isspace c then mret (inl (length ⊖ 1)) else mret (inr length)
    else mret (inr length)) (zlen t)) m Q.
Proof.
  intros Hmax HQ. zlen_facts. unfold ccol_max_elem_count in *.
  apply (wp_loop (fun k m' => m' = m /\ 0 <= k <= zlen t /\ rtrim (ztake k t) = rtrim t) Z.to_nat).
  - intros k m' (-> & Hk & Ht). rewrite Z.gtb_ltb. destruct (Z.ltb_spec 0 k).
    2:{ apply wp_ret, HQ; [done|]. assert (k = 0) as -> by lia. by rewrite <- Ht. }
    sz. destruct (zget_is_Some t (k - 1)) as [c Hc]; [lia|].
    assert (ztake k t = ztake (k - 1) t ++ [c]) as E.
    { pose proof (zget_split _ _ _ Hc) as Hs. rewrite Hs at 1.
      change (c :: zdrop (k - 1 + 1) t) with ([c] ++ zdrop (k - 1 + 1) t).
      rewrite app_assoc. apply ztake_app_exact. rewrite zlen_app, zlen_ztake by lia.
      change (zlen [c]) with 1. lia. }
    rewrite E, rtrim_snoc in Ht.
    apply wp_bind. eapply wp_ub; [rewrite zget_app_l by lia; exact Hc|].
    destruct (Ascii.ccol_ascii_isspace c); apply wp_ret; [|apply HQ; [done|congruence]].
    split; [|lia]. split; [done|]. split; [lia|done].
  - split; [done|]. split; [lia|]. by rewrite ztake_all by lia.
  - lia.
Qed.

Lemma wp_trim_start t rest m (Q : Z -> mem -> Prop) :
  zlen t <= ccol_max_elem_count ->
  (forall k, 0 <= k <= zlen t -> zdrop k t = ltrim t -> Q k m) ->
  wp (loop (Z.to_nat (zlen t) + 1) (fun start =>
    if start <? zlen t
    then c ← ub (zget (t ++ rest) start);
         if Ascii.ccol_ascii_isspace c then mret (inl (start ⊕ 1)) else mret (inr start)
    else mret (inr start)) 0) m Q.
Proof.
  intros Hmax HQ. zlen_facts. unfold ccol_max_elem_count in *.
  apply (wp_loop (fun k m' => m' = m /\ 0 <= k <= zlen t /\ ltrim (zdrop k t) = ltrim t)
           (fun k => Z.to_nat (zlen t - k))).
  - intros k m' (-> & Hk & Ht). destruct (Z.ltb_spec k (zlen t)).
    2:{ apply wp_ret, HQ; [done|]. rewrite <- Ht, !zdrop_all by lia. done. }
    destruct (zget_is_Some t k) as [c Hc]; [lia|].
    assert (zdrop k t = c :: zdrop (k + 1) t) as E.
    { rewrite (zget_split _ _ _ Hc) at 1. rewrite zdrop_app_exact; [done|]. rewrite zlen_ztake; lia. }
    apply wp_bind. eapply wp_ub; [rewrite zget_app_l by lia; exact Hc|].
    rewrite E in Ht. cbn [ltrim] in Ht. destruct (Ascii.ccol_ascii_isspace c); apply wp_ret.
    + sz. split; [|lia]. split; [done|]. split; [lia|done].
    + apply HQ; [done|congruence].
  - split; [done|]. split; [lia|]. by rewrite zdrop_0.
  - lia.
Qed.

Lemma wp_trim s d t m F (Q : cstring -> mem -> Prop) :
  repr s d t -> owns m (blocks s d) F ->
  (forall s' m', str_is m' F s' (ltrim (rtrim t)) -> Q s' m') ->
  wp (cstring_trim (Some s)) m Q.
Proof.
  intros Hr Ho HQ. pose proof (repr_bounds _ _ _ Hr) as Hb.
  pose proof Hr as (Hd & Hne & Hch & Hl & Hlt & _ & Hlen & (rest & Hrest) & _).
  unfold cstring_trim. apply wp_bind, wp_ret.
  destruct (Z.eqb_spec (s_length s) 0) as [E|].
  { apply wp_ret, HQ. rewrite E in Hl. apply zlen_0_nil in Hl as ->. by exists d. }
  rewrite Hd. apply wp_bind, wp_ret, wp_bind. rewrite Hrest, <- Hl.
  apply wp_trim_end; [lia|]. intros k Hk Ek. apply wp_bind, GrowBuf.wp_put_nul; [lia|].
  set (t1 := rtrim t) in *. assert (zlen t1 = k) as Hz1 by (rewrite <- Ek; zlia).
  assert (exists rest1, splice (b_bytes d) k [0] = t1 ++ 0 :: rest1) as [rest1 Hb1].
  { unfold splice. rewrite Hrest. eexists. f_equal. rewrite <- Ek.
    unfold ztake. apply take_app_le. unfold zlen in *. lia. }
  cbn [b_bytes]. rewrite Hb1, <- Hz1. apply wp_bind, wp_trim_start; [lia|].
  intros j Hj Ej. set (d1 := Block (b_id d) (t1 ++ 0 :: rest1)).
  assert (zlen (b_bytes d1) = s_capacity s) as Hlen1
    by (cbn [b_bytes d1]; rewrite <- Hb1, zlen_splice; change (zlen [0]) with 1; lia).
  assert (Forall is_char t1) as Hch1 by (rewrite <- Ek; by apply Forall_take).
  assert (repr (with_data s d1 (zlen t1)) d1 t1) as Hr1 by (by eapply repr_of_bytes).
  rewrite Z.gtb_ltb. destruct (Z.ltb_spec 0 j).
  2:{ apply wp_ret, HQ. exists d1. split; [|done]. assert (j = 0) as -> by lia.
      rewrite zdrop_0 in Ej. by rewrite <- Ej. }
  unfold ccol_max_elem_count in *. sz.
  cbn [b_bytes d1] in Hlen1. rewrite zlen_app, zlen_cons in Hlen1. zlen_facts.
  unfold move_data. apply wp_bind, wp_bind. cbn [with_data s_data]. apply wp_ret, wp_bind.
  apply wp_memmove_within; cbn [b_bytes d1]; rewrite ?zlen_app, ?zlen_cons; [lia..|].
  apply wp_ret, wp_ret, HQ.
  set (d2 := Block _ _). exists d2. split; [|done].
  assert (slice (t1 ++ 0 :: rest1) j (zlen t1 - j + 1) = ltrim t1 ++ [0]) as Hsl.
  { rewrite <- Ej. rewrite <- (ztake_zdrop j t1) at 1.
    replace ((ztake j t1 ++ zdrop j t1) ++ 0 :: rest1)
      with (ztake j t1 ++ (zdrop j t1 ++ [0]) ++ rest1) by app_eq.
    apply slice_app_exact; [zlia|]. rewrite zlen_app. change (zlen [0]) with 1. zlia. }
  assert (zlen (ltrim t1) = zlen t1 - j) as Hzl by (rewrite <- Ej; zlia).
  assert (b_bytes d2 = ltrim t1 ++ 0 :: zdrop (zlen t1 - j + 1) (t1 ++ 0 :: rest1)) as Hb2.
  { cbn [b_bytes d2]. rewrite Hsl. unfold splice. rewrite ztake_0, zlen_app, Hzl.
    change (zlen [0]) with 1. cbn [app]. rewrite <- app_assoc. done. }
  apply (repr_of_bytes s d t d2 _ _ (zlen t1 - j) Hr) in Hb2; [done|done| |lia|].
  - rewrite <- Ej. by apply Forall_drop.
  - cbn [b_bytes d2]. rewrite Hsl, zlen_splice; autorewrite with zlen; lia.
Qed.

(** ** Replacement *)

(** The arithmetic of the new length is exact: it refuses exactly the sizes
    that do not leave room for the NUL in a [size_t]. *)
Lemma wp_compute_replace_new_length orig nlen rlen count m (Q : ccol_retval_t * option Z -> mem -> Prop) :
  0 <= orig < two64 -> 0 <= nlen < two64 -> 0 <= rlen < two64 -> 0 < count < two64 ->
  count * nlen <= orig ->
  let n := orig + (rlen - nlen) * count in
  (n < SIZE_MAX -> Q (ccol_success, Some n) m) ->
  (SIZE_MAX <= n -> Q (ccol_container_full, None) m) ->
  wp (compute_replace_new_length orig nlen rlen count) m Q.
Proof.
  intros Horig Hnl Hrl Hcount Hfit n Hok Hfull. unfold compute_replace_new_length.
  unfold cstring_length_fits_with_terminator, ccol_invalid_size, SIZE_MAX, two64 in *.
  rewrite Z.gtb_ltb, Z.geb_leb. apply wp_bind, wp_assert; [apply Z.ltb_lt; lia|].
  destruct (Z.leb_spec nlen rlen).
  - sz. set (p := (rlen - nlen) * count) in *. assert (0 <= p) by (unfold p; nia).
    destruct (Z_lt_le_dec p 18446744073709551616) as [Hp|Hp].
    + sz. replace (p `div` count) with (rlen - nlen) by (unfold p; by rewrite Z.div_mul by lia).
      rewrite Z.eqb_refl. cbn [negb].
      destruct (Z_lt_le_dec (orig + p) 18446744073709551616) as [Hs|Hs].
      * sz. destruct (Z.ltb_spec (orig + p) orig); [lia|]. cbn [orb].
        destruct (Z.eqb_spec (orig + p) 18446744073709551615); cbn [negb]; apply wp_ret;
          [apply Hfull; lia|apply Hok; lia].
      * assert (orig ⊕ p < orig) as Hlt by (apply wrap_add_overflow; unfold two64; lia).
        apply Z.ltb_lt in Hlt. rewrite Hlt. cbn [orb]. apply wp_ret, Hfull. lia.
    + assert (wrap p `div` count <> rlen - nlen) as Hneq.
      { intros E. pose proof (wrap_range p) as Hw. unfold two64 in Hw.
        pose proof (Z.mul_div_le (wrap p) count ltac:(lia)) as Hd. rewrite E in Hd.
        assert (count * (rlen - nlen) = p) by (unfold p; lia). lia. }
      destruct (Z.eqb_spec (wrap p `div` count) (rlen - nlen)); [done|]. cbn [negb].
      apply wp_ret, Hfull. lia.
  - sz. assert (1 <= (nlen - rlen) * count <= orig) by nia. sz. apply wp_ret.
    replace (orig - (nlen - rlen) * count) with n by (unfold n; lia). apply Hok. unfold n. lia.
Qed.

Lemma wp_strstr_at s d t from needle m (Q : option Z -> mem -> Prop) :
  repr s d t -> 0 <= from <= s_length s ->
  Q (Z.add from <$> strstr (zdrop from t) needle) m ->
  wp (strstr_at d from needle) m Q.
Proof.
  intros Hr Hf HQ. unfold strstr_at. apply wp_bind.
  eapply wp_ub; [apply (arg_text_is s d t); [done|]|by apply wp_ret]. cbn. done.
Qed.

Lemma wp_count_occurrences s d t needle m (Q : Z -> mem -> Prop) :
  repr s d t -> needle <> [] -> Q (zlen (tokens needle t) - 1) m ->
  wp (count_occurrences d (Z.to_nat (s_length s) + 1) needle) m Q.
Proof.
  intros Hr Hn HQ. pose proof (repr_bounds _ _ _ Hr) as Hb. pose proof (needle_pos needle Hn) as Hnp.
  unfold count_occurrences, ccol_max_elem_count in *.
  apply (wp_loop (fun '(ptr, count) m' => m' = m /\ 0 <= ptr <= s_length s /\ 0 <= count <= ptr /\
           count + zlen (tokens needle (zdrop ptr t)) = zlen (tokens needle t))
         (fun '(ptr, _) => Z.to_nat (s_length s - ptr))).
  - intros [p count] m' (-> & Hp & Hc & Heq). apply wp_bind, (wp_strstr_at s d t); [done|done|].
    rewrite tokens_eq in Heq by done.
    destruct (strstr (zdrop p t) needle) as [i|] eqn:E; cbn [fmap option_fmap option_map]; apply wp_ret.
    + apply strstr_Some in E as (_ & Hi & Hin). rewrite zlen_zdrop in Hin by lia. sz.
      rewrite zlen_cons, zdrop_zdrop in Heq by lia.
      replace (p + (i + zlen needle)) with (p + i + zlen needle) in Heq by lia.
      split; [split_and!; (done || lia)|lia].
    + change (zlen [_]) with 1 in Heq. by replace count with (zlen (tokens needle t) - 1) by lia.
  - rewrite zdrop_0. split_and!; done || lia.
  - lia.
Qed.

(** The loop that copies the pieces and the replacements between them. *)
Lemma wp_build_replaced s d t needle repl buf m (Q : Z * Z * list Z -> mem -> Prop) :
  repr s d t -> needle <> [] ->
  zlen (join repl (tokens needle t)) < zlen buf -> zlen buf <= ccol_max_elem_count ->
  (forall src w rest, 0 <= src <= s_length s ->
     join repl (tokens needle t) = w ++ zdrop src t ->
     zlen (w ++ rest) = zlen buf ->
     Q (src, zlen w, w ++ rest) m) ->
  wp (build_replaced d (Z.to_nat (s_length s) + 1) needle repl buf) m Q.
Proof.
  intros Hr Hn Hfit Hmax HQ. pose proof (repr_bounds _ _ _ Hr) as Hb.
  pose proof (needle_pos needle Hn) as Hnp. unfold build_replaced, ccol_max_elem_count in *.
  pose proof Hr as (Hd & _ & Hch & Hl & Hlt & _ & Hlen & (drest & Hrest) & _).
  apply (wp_loop (fun '(src, dst, b) m' => m' = m /\ 0 <= src <= s_length s /\
           exists w rest, b = w ++ rest /\ dst = zlen w /\ zlen b = zlen buf /\
             w ++ join repl (tokens needle (zdrop src t)) = join repl (tokens needle t))
         (fun '(src, _, _) => Z.to_nat (s_length s - src))).
  - intros [[src dst] b] m' (-> & Hp & w & rest & -> & -> & Hzb & Heq).
    apply wp_bind, (wp_strstr_at s d t); [done|done|].
    assert (zlen w + zlen (join repl (tokens needle (zdrop src t))) < zlen buf) as Hfit'
      by (rewrite <- zlen_app, Heq; done).
    rewrite (tokens_eq needle Hn) in Heq, Hfit'.
    destruct (strstr (zdrop src t) needle) as [i|] eqn:E; cbn [fmap option_fmap option_map].
    2:{ apply wp_ret. apply HQ; [done|by rewrite <- Heq|done]. }
    apply strstr_Some in E as (_ & Hi & Hin). rewrite zlen_zdrop in Hin by lia.
    destruct (tokens_nonempty needle Hn (zdrop (i + zlen needle) (zdrop src t))) as (l0 & ls0 & Et).
    rewrite join_cons in Heq, Hfit' by (rewrite Et; done).
    rewrite zdrop_zdrop in Heq, Hfit' by lia.
    rewrite !zlen_app, zlen_ztake, zlen_zdrop in Hfit' by lia. rewrite zlen_app in Hzb. zlen_facts. sz.
    replace (src + i - src) with i by lia.
    assert (slice (b_bytes d) src i = ztake i (zdrop src t)) as Hsl.
    { rewrite Hrest. unfold slice, ztake, zdrop. rewrite drop_app_le, take_app_le; [done|..];
        rewrite ?length_drop; unfold zlen in *; lia. }
    apply wp_bind, wp_read_bytes; [lia..|]. rewrite Hsl.
    set (x := ztake i (zdrop src t)) in *. assert (zlen x = i) as Hx by (unfold x; zlia).
    apply wp_bind, wp_memcpy_in; [lia|rewrite zlen_app; lia|].
    assert (splice (w ++ rest) (zlen w) x = w ++ x ++ zdrop i rest) as ->.
    { rewrite <- (ztake_zdrop i rest) at 1. apply splice_app_exact; [done|]. rewrite zlen_ztake; lia. }
    apply wp_bind, wp_memcpy_in; [lia|rewrite !zlen_app, zlen_zdrop; lia|]. apply wp_ret.
    set (rest1 := zdrop i rest). assert (zlen rest1 = zlen rest - i) as Hr1 by (unfold rest1; zlia).
    assert (splice (w ++ x ++ rest1) (zlen w + i) repl = (w ++ x ++ repl) ++ zdrop (zlen repl) rest1) as ->.
    { rewrite <- (ztake_zdrop (zlen repl) rest1) at 1. rewrite (app_assoc w x).
      rewrite splice_app_exact; [app_eq|rewrite zlen_app; lia|rewrite zlen_ztake; lia]. }
    sz. split; [|lia]. split; [done|]. split; [lia|].
    exists (w ++ x ++ repl), (zdrop (zlen repl) rest1). split; [done|].
    split; [rewrite !zlen_app; lia|]. split; [rewrite !zlen_app, zlen_zdrop; lia|].
    rewrite <- Heq. replace (src + (i + zlen needle)) with (src + i + zlen needle) by lia.
    by rewrite <- !app_assoc.
  - split; [done|]. split; [lia|]. exists [], buf. by rewrite zdrop_0.
  - lia.
Qed.

Lemma replaced_length needle repl t :
  needle <> [] ->
  let count := zlen (tokens needle t) - 1 in
  0 <= count /\ count * zlen needle <= zlen t /\
  zlen (join repl (tokens needle t)) = zlen t + (zlen repl - zlen needle) * count /\
  (count = 0 -> join repl (tokens needle t) = t).
Proof.
  intros Hn count. destruct (tokens_nonempty needle Hn t) as (l & ls & Et).
  assert (tokens needle t <> []) as Hne by (rewrite Et; done).
  pose proof (zlen_join needle (tokens needle t) Hne) as H1. rewrite join_tokens in H1 by done.
  pose proof (zlen_join repl (tokens needle t) Hne) as H2. fold count in H1, H2.
  assert (0 <= count) by (unfold count; rewrite Et, zlen_cons; zlen_facts; lia).
  zlen_facts. split_and!; [done|lia|lia|]. intros E. pose proof (join_tokens needle Hn t) as Hj.
  unfold count in E. rewrite Et in *. rewrite zlen_cons in E.
  assert (ls = []) as -> by (apply zlen_0_nil; lia). done.
Qed.

Definition replaced (F : gset nat) (s : cstring) (t t' : list Z) : ccol_retval_t * cstring -> mem -> Prop :=
  fun '(r, s') m' =>
    match r with
    | ccol_success => str_is m' F s' t'
    | ccol_container_full => s' = s /\ str_is m' F s t /\ ccol_max_elem_count <= zlen t'
    | ccol_not_enough_memory => s' = s /\ str_is m' F s t /\ exists k c, grant k c = false
    | _ => False
    end.

Lemma wp_replace s d t pn needle pr repl m F :
  repr s d t -> owns m (blocks s d) F -> arg_is s d t pn needle -> arg_is s d t pr repl ->
  zlen needle <= SIZE_MAX -> zlen repl <= SIZE_MAX -> needle <> [] ->
  wp (cstring_replace (Some s) (Some pn) (Some pr)) m
    (replaced F s t (join repl (tokens needle t))).
Proof.
  intros Hr Ho Hn Hrp Hnl Hrl Hne. pose proof (repr_bounds _ _ _ Hr) as Hb.
  pose proof Hr as (Hd & Haddr & Hch & Hl & Hlt & _ & Hlen & (rest & Hrest) & Hpr).
  pose proof (arg_chars _ _ _ _ _ Hr Hrp) as Hchr.
  unfold cstring_replace. apply wp_bind, wp_ret. rewrite Hd. apply wp_bind, wp_ret.
  rewrite (arg_text_is s d t pn needle), (arg_text_is s d t pr repl) by done.
  apply wp_bind, wp_ret. rewrite bool_decide_false by done. apply wp_bind, wp_ret.
  apply wp_bind, (wp_count_occurrences s d t); [done|done|].
  destruct (replaced_length needle repl t Hne) as (Hc & Hcn & Hlen' & Hzero).
  set (count := zlen (tokens needle t) - 1) in *. set (t' := join repl (tokens needle t)) in *.
  destruct (Z.eqb_spec count 0) as [E|].
  { apply wp_ret. rewrite Hzero by done. by exists d. }
  pose proof (needle_pos needle Hne). zlen_facts.
  assert (count * 1 <= count * zlen needle) by (apply Z.mul_le_mono_nonneg_l; lia).
  assert (count < two64) as Hc64 by (unfold ccol_max_elem_count, two64 in *; lia).
  unfold SIZE_MAX, ccol_max_elem_count in *.
  apply wp_bind, wp_compute_replace_new_length; unfold two64 in *; [lia..| |]; rewrite <- Hl, <- Hlen';
    unfold SIZE_MAX, ccol_max_elem_count.
  2:{ intros Hbig. apply wp_ret. split; [done|]. split; [by exists d|]. unfold ccol_max_elem_count. lia. }
  intros Hfits. sz. pose proof (rounded_capacity (zlen t' + 1) ltac:(unfold two64; lia)) as Hround.
  cbv zeta in Hround. unfold ccol_max_elem_count in *.
  destruct Hround as [[E Hmax]|(Hne' & Hge & Hpow)].
  { rewrite E. apply wp_ret. split; [done|]. split; [by exists d|]. unfold ccol_max_elem_count. lia. }
  destruct (Z.eqb_spec (Pow2._ccol_find_nearest_gte_power_of_two (zlen t' + 1)) ccol_invalid_size); [done|].
  set (cap := if _ <? _ then _ else _) in *. clearbody cap. pose proof (str_pow2_bounds _ Hpow).
  unfold ccol_max_elem_count in *.
  apply wp_bind, (wp_alloc_owns _ _ _ _ _ Ho); [lia| |].
  { intros m' Ho' Hg. apply wp_ret. split; [done|]. split; [by exists d|eauto]. }
  intros nb m1 Ho1 Hnb HnbF Hnbl _.
  rewrite Hl. apply wp_bind, (wp_build_replaced s d t); [done|done|fold t'; lia|unfold ccol_max_elem_count; lia|].
  fold t'. intros src w rest' Hsrc Et' Hw. rewrite zlen_app in Hw.
  assert (c_str_at d (At (b_id d) src) = Some (zdrop src t)) as ->
    by (apply (arg_text_is s d t); done).
  apply wp_bind, wp_ret. zlen_facts.
  assert (zlen (zdrop src t) = s_length s - src) as Hz by zlia. rewrite Hz. sz.
  assert (zlen t' = zlen w + (s_length s - src)) as Hlt' by (rewrite Et', zlen_app; lia).
  assert (slice (b_bytes d) src (s_length s - src + 1) = zdrop src t ++ [0]) as Hsl.
  { destruct (own_tail s d t src Hr Hsrc) as [rr Hrr]. unfold slice. rewrite Hrr.
    change (0 :: rr) with ([0] ++ rr). rewrite app_assoc. apply ztake_app_exact.
    rewrite zlen_app, Hz. done. }
  apply wp_bind, wp_read_bytes; [lia..|]. rewrite Hsl.
  assert (zlen (zdrop src t ++ [0]) = s_length s - src + 1) as Hz1 by (rewrite zlen_app, Hz; done).
  apply wp_bind, wp_memcpy_in; [lia|rewrite Hz1, zlen_app; lia|].
  set (buf := splice _ _ _).
  assert (buf = t' ++ 0 :: zdrop (s_length s - src + 1) rest') as Hbuf.
  { unfold buf. rewrite <- (ztake_zdrop (s_length s - src + 1) rest') at 1.
    rewrite (splice_app_exact w); [|done|rewrite zlen_ztake; lia].
    rewrite Et', <- !app_assoc. done. }
  apply wp_bind, (wp_free_owns _ _ _ _ _ Ho1); [unfold blocks; set_solver|].
  intros m2 Ho2. apply wp_ret. set (d' := Block (b_id nb) buf). exists d'.
  unfold blocks in *. split.
  - split_and!; cbn [s_data s_addr s_length s_capacity s_procs b_id b_bytes d']; try done; try lia;
      try (eexists; exact Hbuf); [set_solver| |].
    + unfold t'. apply Forall_join; [done|]. apply Forall_tokens; done.
    + unfold buf. rewrite zlen_splice; rewrite ?Hz1, ?zlen_app; lia.
  - cbn. apply (owns_change _ _ _ _ Ho2). set_solver.
Qed.

(** ** Creation and destruction *)
Definition own_blocks (s : cstring) : gset nat :=
  match s_data s with Some d => {[s_addr s; b_id d]} | None => {[s_addr s]} end.

Lemma own_blocks_repr s d t : repr s d t -> own_blocks s = blocks s d.
Proof. intros (Hd & _). unfold own_blocks. by rewrite Hd. Qed.

Lemma wp_str_destroy s d t own m F (Q : unit -> mem -> Prop) :
  repr s d t -> owns m (blocks s d ∪ own) F -> blocks s d ## own ->
  (forall m', owns m' own F -> Q tt m') ->
  wp (__cstring_destroy (Some s)) m Q.
Proof.
  intros (Hd & Hne & _) Ho Hdisj HQ. unfold __cstring_destroy, blocks in *. rewrite Hd.
  apply wp_bind, (wp_free_owns _ _ _ _ _ Ho); [set_solver|]. intros m1 Ho1.
  apply (wp_free_owns _ _ _ _ _ Ho1); [set_solver|]. intros m2 Ho2. apply HQ. owns_tac.
Qed.

(** A creation, from memory in which the caller holds [own]. *)
Lemma wp_create_span initial n procs interned text own m F
    (Q : option cstring * option cstring_error -> mem -> Prop) :
  owns m own F -> 0 <= n < two64 -> zlen text = n -> Forall is_char text ->
  (0 < n -> exists src, initial = Some src /\ n <= zlen src /\ ztake n src = text) ->
  (forall e m', owns m' own F -> Q (None, Some e) m') ->
  (forall s d m', repr s d text -> owns m' (blocks s d ∪ own) F -> blocks s d ## own ->
     CVector.slot_procs (s_procs s) = procs -> Q (Some s, None) m') ->
  wp (cstring_create_from_span initial n procs interned) m Q.
Proof.
  intros Ho Hn Hl Hch Hinit Hfail Hok. unfold cstring_create_from_span.
  destruct (_ccol_verify_memmgmt_procs procs) eqn:Hv; cbn [negb]; [|by apply wp_ret, Hfail].
  set (copy := bool_decide (procs ≠ None) && negb interned).
  apply wp_bind, (wp_calloc_owns _ _ _ _ _ _ Ho); [by destruct copy| |].
  { intros m' Ho' _. by apply wp_ret, Hfail. }
  intros b m1 Ho1 Hb HbF _ _. cbv zeta. set (slot := match procs with None => _ | _ => _ end).
  assert (CVector.slot_procs slot = procs) as Hslot
    by (unfold slot, copy; destruct procs, interned; done).
  clearbody slot copy.
  assert (forall e m2, owns m2 ({[b_id b]} ∪ own) F ->
    wp (_ ← __cstring_destroy (Some (Cstring (b_id b) None 0 0 slot)); mret (None, Some e)) m2 Q) as Hrollback.
  { intros e m2 Ho2. apply wp_bind. unfold __cstring_destroy. cbn [s_data s_addr].
    apply wp_bind, wp_ret, (wp_free_owns _ _ _ _ _ Ho2); [set_solver|]. intros m3 Ho3.
    apply wp_ret, Hfail. owns_tac. }
  unfold cstring_length_fits_with_terminator, ccol_invalid_size at 1.
  destruct (Z.eqb_spec n SIZE_MAX); cbn [negb]; [by apply Hrollback|].
  unfold SIZE_MAX, two64 in *. sz.
  pose proof (rounded_capacity (n + 1) ltac:(unfold two64; lia)) as Hround. cbv zeta in Hround.
  destruct Hround as [[E Hmax]|(Hne' & Hge & Hpow)].
  { rewrite E. by apply Hrollback. }
  destruct (Z.eqb_spec (Pow2._ccol_find_nearest_gte_power_of_two (n + 1)) ccol_invalid_size); [done|].
  set (cap := if _ <? _ then _ else _) in *. clearbody cap. pose proof (str_pow2_bounds _ Hpow).
  apply wp_bind, (wp_alloc_owns _ _ _ _ _ Ho1); [lia| |].
  { intros m' Ho' _. by apply Hrollback. }
  intros d m2 Ho2 Hd HdF Hdl _. assert (b_id b <> b_id d) as Hne by set_solver.
  assert (forall d' rest, b_id d' = b_id d -> zlen (b_bytes d') = cap -> b_bytes d' = text ++ rest ->
    wp (d ← GrowBuf.put_nul d' n; mret (Some (Cstring (b_id b) (Some d) n cap slot), None)) m2 Q) as Hend.
  { intros d' rest Hid Hz Hd'. apply wp_bind, GrowBuf.wp_put_nul; [lia|]. apply wp_ret.
    rewrite Hd', zlen_app in Hz. destruct rest as [|c rest]; [rewrite zlen_nil in Hz; lia|].
    assert (splice (b_bytes d') n [0] = text ++ 0 :: rest) as Hsp.
    { rewrite Hd'. change (c :: rest) with ([c] ++ rest). by rewrite splice_app_exact. }
    rewrite Hsp. apply (Hok _ (Block (b_id d') (text ++ 0 :: rest))); [| | |done].
    - rewrite zlen_cons in Hz. zlen_facts. unfold repr. cbn [s_data s_addr s_length s_capacity s_procs b_id b_bytes].
      rewrite Hslot, zlen_app, zlen_cons, Hid. split_and!; (done || lia || by eexists).
    - apply (owns_change _ _ _ _ Ho2). unfold blocks. cbn [s_addr b_id]. rewrite Hid. set_solver +.
    - unfold blocks. cbn [s_addr b_id]. rewrite Hid. set_solver + Hd Hb. }
  rewrite Z.gtb_ltb. apply wp_bind. destruct (Z.ltb_spec 0 n).
  - destruct Hinit as (src & -> & Hsrc & <-); [lia|]. apply wp_bind, wp_ret.
    apply wp_bind, wp_read_bytes; [lia..|]. unfold slice. rewrite zdrop_0.
    apply wp_bind, wp_memcpy_in; [lia|lia|]. apply wp_ret.
    apply (Hend _ (zdrop (0 + zlen (ztake n src)) (b_bytes d))); cbn; [done| |done].
    rewrite zlen_splice; lia.
  - apply wp_ret. assert (text = []) as -> by (apply zlen_0_nil; lia).
    by apply (Hend d (b_bytes d)).
Qed.

(** A part of the string's own text. *)
Lemma wp_create_part s d t from n own m F (Q : option cstring * option cstring_error -> mem -> Prop) :
  repr s d t -> owns m own F -> 0 <= from -> 0 <= n -> from + n <= s_length s ->
  (forall e m', owns m' own F -> Q (None, Some e) m') ->
  (forall s' d' m', repr s' d' (slice t from n) -> owns m' (blocks s' d' ∪ own) F ->
     blocks s' d' ## own -> Q (Some s', None) m') ->
  wp (create_part s from n) m Q.
Proof.
  intros Hr Ho Hf Hn Hin Hfail Hok. pose proof (repr_bounds _ _ _ Hr) as Hb.
  pose proof Hr as (Hd & _ & Hch & Hl & _ & _ & Hlen & (rest & Hrest) & _).
  unfold create_part. rewrite Hd. apply wp_bind, wp_ret. unfold ccol_max_elem_count in *.
  apply (wp_create_span _ _ _ _ (slice t from n) own m F); [done|unfold two64; lia| | | |done|].
  - rewrite zlen_slice; lia.
  - unfold slice. by apply Forall_take, Forall_drop.
  - intros _. eexists. split; [done|]. split; [rewrite zlen_zdrop; lia|]. rewrite Hrest.
    unfold slice, ztake, zdrop, zlen in *. rewrite drop_app_le by lia. apply take_app_le.
    rewrite length_drop. lia.
  - intros s' d' m' Hr' Ho' Hd' _. by eapply Hok.
Qed.

Lemma wp_substring s d t start n own m F (Q : option cstring * option cstring_error -> mem -> Prop) :
  repr s d t -> owns m own F -> 0 <= start < two64 -> 0 <= n < two64 ->
  (forall e m', owns m' own F -> Q (None, Some e) m') ->
  (forall s' d' m', repr s' d' (slice t start n) -> owns m' (blocks s' d' ∪ own) F ->
     blocks s' d' ## own -> Q (Some s', None) m') ->
  wp (cstring_substring (Some s) start n) m Q.
Proof.
  intros Hr Ho Hf Hn Hfail Hok. pose proof (repr_bounds _ _ _ Hr) as Hb.
  unfold cstring_substring. apply wp_bind, wp_ret. rewrite Z.geb_leb.
  destruct (Z.leb_spec (s_length s) start).
  - assert (slice t start n = []) as Hs.
    { unfold slice. rewrite zdrop_all by lia. unfold ztake. by rewrite take_nil. }
    rewrite Hs in Hok. apply (wp_create_span _ _ _ _ [] own m F); [done|done|done|done|lia|done|].
    intros s' d' m' Hr' Ho' Hd' _. by eapply Hok.
  - unfold ccol_max_elem_count in *. sz.
    assert (slice t start (Z.min n (s_length s - start)) = slice t start n) as Hs.
    { unfold slice. destruct (Z.min_spec n (s_length s - start)) as [[_ ->]|[? ->]]; [done|].
      rewrite !ztake_all; [done|zlia..]. }
    apply (wp_create_part s d t _ _ own m F); [done|done|lia|lia|lia|done|]. rewrite Hs. done.
Qed.

Lemma wp_copy s d t own m F (Q : option cstring * option cstring_error -> mem -> Prop) :
  repr s d t -> owns m own F ->
  (forall e m', owns m' own F -> Q (None, Some e) m') ->
  (forall s' d' m', repr s' d' t -> owns m' (blocks s' d' ∪ own) F ->
     blocks s' d' ## own -> Q (Some s', None) m') ->
  wp (cstring_copy (Some s)) m Q.
Proof.
  intros Hr Ho Hfail Hok. pose proof (repr_bounds _ _ _ Hr) as Hb.
  pose proof Hr as (Hd & _ & Hch & Hl & _ & _ & Hlen & (rest & Hrest) & _).
  unfold cstring_copy, cstring_create_full. apply wp_bind, wp_ret. rewrite Hd. apply wp_bind, wp_ret.
  apply wp_bind, wp_bind. eapply wp_ub; [rewrite Hrest; by apply until_nul_text|]. apply wp_ret.
  unfold ccol_max_elem_count in *.
  apply (wp_create_span _ _ _ _ t own m F); [done|unfold two64; lia|done|done| |done|].
  - intros _. exists (b_bytes d). split; [done|]. split; [lia|]. rewrite Hrest. by apply ztake_app_exact.
  - intros s' d' m' Hr' Ho' Hd' _. by eapply Hok.
Qed.

(** ** Splitting *)

(** The tokens a split has made: strings with the given texts, in blocks of
    their own. *)
Inductive parts_are : list cstring -> list (list Z) -> gset nat -> Prop :=
  | parts_nil : parts_are [] [] ∅
  | parts_snoc ps ts own p d t :
      parts_are ps ts own -> repr p d t -> blocks p d ## own ->
      parts_are (ps ++ [p]) (ts ++ [t]) (blocks p d ∪ own).

Lemma parts_length ps ts own : parts_are ps ts own -> zlen ps = zlen ts.
Proof. induction 1; [done|]. rewrite !zlen_app. by f_equal. Qed.

(** The first token can be given back. *)
Lemma parts_uncons p ps ts own :
  parts_are (p :: ps) ts own ->
  exists d t ts' own', ts = t :: ts' /\ repr p d t /\ parts_are ps ts' own' /\
    own = blocks p d ∪ own' /\ blocks p d ## own'.
Proof.
  intros H. remember (p :: ps) as pps eqn:E. revert ps E.
  induction H as [|ps0 ts own p0 d t Hp IH Hr Hd]; intros ps E; [done|].
  destruct ps0 as [|p' ps0].
  - injection E as <- <-. inversion Hp; subst; [|by destruct ps].
    exists d, t, [], ∅. by split_and!.
  - injection E as <- <-. destruct (IH ps0 eq_refl) as (d' & t' & ts' & own' & -> & Hr' & Hp' & -> & Hd').
    exists d', t', (ts' ++ [t]), (blocks p0 d ∪ own'). split_and!; try done.
    + constructor; [done|done|]. set_solver + Hd.
    + set_solver +.
    + set_solver + Hd Hd'.
Qed.

(** What a split holds while it runs: the vector of pointers and the tokens. *)
Definition split_is (m : mem) (F : gset nat) (v : CVector.cvector) (ps : list cstring)
    (ts : list (list Z)) : Prop :=
  exists dv pown, CVector.repr v dv (cstr_bytes <$> ps) /\ parts_are ps ts pown /\
    owns m (CVector.blocks v dv ∪ pown) F /\ CVector.blocks v dv ## pown /\
    CVector.elem_size v = sizeof_cstr.

Lemma zlen_cstr_bytes s : zlen (cstr_bytes s) = sizeof_cstr.
Proof. done. Qed.

Lemma wp_destroy_cstr_vector v ps ts m F (Q : unit -> mem -> Prop) :
  split_is m F v ps ts -> (forall m', owns m' ∅ F -> Q tt m') ->
  wp (destroy_cstr_vector (Some v) ps) m Q.
Proof.
  intros (dv & pown & Hrv & Hps & Ho & Hdisj & Hes) HQ.
  pose proof (CVector.repr_arith _ _ _ Hrv) as Ha.
  assert (CVector.elem_count v = zlen ps) as Hcnt.
  { destruct Hrv as (_ & _ & _ & _ & <- & _). by rewrite zlen_fmap. }
  unfold destroy_cstr_vector. apply wp_bind, (wp_ret (CVector.elem_count v)), wp_bind.
  apply (wp_while (fun i m' => 0 <= i <= zlen ps /\
           exists ts' own', parts_are (zdrop i ps) ts' own' /\
             owns m' (CVector.blocks v dv ∪ own') F /\ CVector.blocks v dv ## own')
         (fun i => Z.to_nat (zlen ps - i))).
  - intros i m' (Hi & ts' & own' & Hp' & Ho' & Hd') Hlt. zbool.
    destruct (zget_is_Some ps i) as [p Hp]; [lia|].
    assert (zget (cstr_bytes <$> ps) i = Some (cstr_bytes p)) as Hpb.
    { revert Hp. unfold zget. destruct (0 <=? i); [|done]. intros Hp. by rewrite list_lookup_fmap, Hp. }
    apply wp_bind, (CVector.wp_at v dv (cstr_bytes <$> ps) i); [done|lia| |congruence].
    intros x Hx. rewrite Hp.
    assert (zdrop i ps = p :: zdrop (i + 1) ps) as Hdrop.
    { rewrite (zget_split _ _ _ Hp) at 1. rewrite zdrop_app_exact; [done|]. rewrite zlen_ztake; lia. }
    rewrite Hdrop in Hp'. apply parts_uncons in Hp' as (d & t & ts1 & own1 & -> & Hr & Hp1 & -> & Hd1).
    apply wp_bind, (wp_str_destroy p d t (CVector.blocks v dv ∪ own1) m' F); [done| | |].
    + apply (owns_change _ _ _ _ Ho'). set_solver +.
    + set_solver + Hd1 Hd'.
    + intros m2 Ho2. apply wp_ret. unfold ccol_max_elem_count in *. sz. split; [|lia].
      split; [lia|]. exists ts1, own1. split; [done|]. split; [done|]. set_solver + Hd'.
  - intros i m' (Hi & ts' & own' & Hp' & Ho' & Hd') Hge. zbool.
    rewrite zdrop_all in Hp' by lia. inversion Hp'; subst; [|by destruct ps0].
    apply (CVector.wp_destroy v (cstr_bytes <$> ps) sizeof_cstr m' F); [|done].
    exists dv. split; [done|]. split; [|done]. by rewrite union_empty_r_L in Ho'.
  - zlen_facts. split; [lia|]. exists ts, pown. by rewrite zdrop_0.
  - lia.
Qed.

Lemma owns_frame m own1 own2 F :
  owns m (own1 ∪ own2) F -> own2 ## F.
Proof. intros [_ Hd _]. set_solver + Hd. Qed.

Lemma wp_push_token err s d t v ps ts from n m F
    (Q : split_error + CVector.cvector * list cstring -> mem -> Prop) :
  repr s d t -> split_is m F v ps ts -> 0 <= from -> 0 <= n -> from + n <= s_length s ->
  (forall e m', owns m' ∅ F -> Q (inl e) m') ->
  (forall v' p m', split_is m' F v' (ps ++ [p]) (ts ++ [slice t from n]) ->
     Q (inr (v', ps ++ [p])) m') ->
  wp (push_token err s v ps from n) m Q.
Proof.
  intros Hr Hs Hf Hn Hin Hfail Hok. pose proof Hs as (dv & pown & Hrv & Hps & Ho & Hdisj & Hes).
  unfold push_token. apply wp_bind.
  apply (wp_create_part s d t from n (CVector.blocks v dv ∪ pown) m F); [done..| |].
  { intros e m1 Ho1. apply wp_bind, (wp_destroy_cstr_vector v ps ts m1 F); [by exists dv, pown|].
    intros m2 Ho2. apply wp_bind, wp_ret, wp_ret, Hfail. done. }
  intros p dp m1 Hrp Ho1 Hdp.
  set (F' := (blocks p dp ∪ pown) ∪ F).
  assert (owns m1 (CVector.blocks v dv) F') as Hov.
  { apply owns_split; [|set_solver + Hdp Hdisj]. apply (owns_change _ _ _ _ Ho1). set_solver +. }
  pose proof (owns_frame m1 (CVector.blocks v dv) (blocks p dp ∪ pown) F) as HF.
  assert (blocks p dp ∪ pown ## F) as HpF.
  { apply HF. apply (owns_change _ _ _ _ Ho1). set_solver +. }
  apply wp_bind.
  apply (CVector.wp_push_back v (cstr_bytes <$> ps) sizeof_cstr (Foreign (cstr_bytes p)) (cstr_bytes p) m1 F').
  - by exists dv.
  - by eapply CVector.src_bytes_foreign.
  - apply CVector.src_apart_foreign.
  - intros v' m2 (dv' & Hrv' & Ho2 & Hes'). rewrite decide_True by done. apply wp_ret, Hok.
    exists dv', (blocks p dp ∪ pown).
    assert (CVector.blocks v' dv' ## blocks p dp ∪ pown) as Hd2.
    { destruct Ho2 as [_ Hd2 _]. set_solver + Hd2. }
    split_and!; [by rewrite fmap_app| |by apply owns_join|done|done].
    apply parts_snoc; [done|done|set_solver + Hdp].
  - intros _ _. rewrite decide_False by done. apply wp_bind.
    apply (wp_str_destroy p dp (slice t from n) (CVector.blocks v dv ∪ pown) m1 F); [done|done|done|].
    intros m3 Ho3. apply wp_bind, (wp_destroy_cstr_vector v ps ts m3 F); [by exists dv, pown|].
    intros m4 Ho4. by apply wp_ret, Hfail.
  - intros m2 _ _ (dv2 & Hrv2 & Ho2 & _). rewrite decide_False by done. apply wp_bind.
    assert (dv2 = dv) as ->.
    { destruct Hrv2 as (_ & E2 & _), Hrv as (_ & E1 & _). congruence. }
    apply (wp_str_destroy p dp (slice t from n) (CVector.blocks v dv ∪ pown) m2 F); [done| |done|].
    { apply owns_join in Ho2; [|done]. apply (owns_change _ _ _ _ Ho2). set_solver +. }
    intros m3 Ho3. apply wp_bind, (wp_destroy_cstr_vector v ps ts m3 F); [by exists dv, pown|].
    intros m4 Ho4. by apply wp_ret, Hfail.
Qed.

Lemma wp_split s d t p delim m F
    (Q : split_error + CVector.cvector * list cstring -> mem -> Prop) :
  repr s d t -> arg_is s d t p delim -> delim <> [] -> owns m ∅ F ->
  (forall e m', owns m' ∅ F -> Q (inl e) m') ->
  (forall v ps m', split_is m' F v ps (tokens delim t) -> Q (inr (v, ps)) m') ->
  wp (cstring_split (Some s) (Some p)) m Q.
Proof.
  intros Hr Ha Hne Ho Hfail Hok. pose proof (repr_bounds _ _ _ Hr) as Hb.
  pose proof Hr as (Hd & _ & Hch & Hl & _ & _ & Hlen & _). pose proof (needle_pos delim Hne) as Hnp.
  unfold cstring_split. apply wp_bind, wp_ret. unfold arg_text. rewrite Hd.
  apply wp_bind, wp_bind, wp_ret. rewrite (arg_text_is s d t p delim) by done. apply wp_ret.
  rewrite bool_decide_false by done. apply wp_bind.
  apply (CVector.wp_create _ _ _ m F); [done|done|..].
  - intros e _. apply wp_bind, wp_ret, wp_ret, Hfail. done.
  - intros m' _ Ho' _. apply wp_bind, wp_ret, wp_ret, Hfail. done.
  - intros m' _ Ho' _. apply wp_bind, wp_ret, wp_ret, Hfail. done.
  - intros v m1 _ (dv & Hrv & Ho1 & Hes) _ _. apply wp_bind, wp_ret.
    apply (wp_loop (fun '(cur, v, ps) m' => 0 <= cur <= s_length s /\
             exists ts, split_is m' F v ps ts /\ ts ++ tokens delim (zdrop cur t) = tokens delim t)
           (fun '(cur, _, _) => Z.to_nat (s_length s - cur))).
    + intros [[cur v'] ps] m' (Hcur & ts & Hs & Hts). unfold ccol_max_elem_count in *.
      apply wp_bind, (wp_strstr_at s d t); [done|done|].
      rewrite tokens_eq in Hts by done.
      destruct (strstr (zdrop cur t) delim) as [i|] eqn:E; cbn [fmap option_fmap option_map].
      * apply strstr_Some in E as (_ & Hi & Hin). rewrite zlen_zdrop in Hin by lia. sz.
        replace (cur + i - cur) with i by lia.
        apply wp_bind, (wp_push_token _ s d t v' ps ts cur i m' F); [done|done|lia|lia|lia| |].
        { intros e m2 Ho2. by apply wp_ret, Hfail. }
        intros v2 q m2 Hs2. apply wp_ret. sz. split; [|lia]. split; [lia|].
        eexists. split; [exact Hs2|]. rewrite <- app_assoc, <- Hts. f_equal. cbn [app]. f_equal.
        rewrite zdrop_zdrop by lia. do 2 f_equal. lia.
      * sz. apply wp_bind, (wp_push_token _ s d t v' ps ts cur (s_length s - cur) m' F); [done|done|lia|lia|lia| |].
        { intros e m2 Ho2. by apply wp_ret, Hfail. }
        intros v2 q m2 Hs2. apply wp_ret, Hok. rewrite <- Hts.
        assert (slice t cur (s_length s - cur) = zdrop cur t) as Hsl
          by (unfold slice; apply ztake_all; rewrite zlen_zdrop; lia).
        by rewrite Hsl in Hs2.
    + split; [lia|]. exists []. rewrite zdrop_0. split; [|done].
      exists dv, ∅. split_and!; try done; [apply parts_nil|by rewrite union_empty_r_L].
    + lia.
Qed.

(** ** Queries *)
Lemma own_text_run s d t m (Q : list Z -> mem -> Prop) :
  repr s d t -> Q t m -> wp (own_text s) m Q.
Proof.
  intros Hr HQ. pose proof Hr as (Hd & _). unfold own_text. rewrite Hd. apply wp_bind, wp_ret.
  eapply wp_ub; [by eapply own_text_is|done].
Qed.

Lemma arg_text_run s d t p u m (Q : list Z -> mem -> Prop) :
  repr s d t -> arg_is s d t p u -> Q u m -> wp (arg_text s p) m Q.
Proof.
  intros Hr Ha HQ. pose proof Hr as (Hd & _). unfold arg_text. rewrite Hd. apply wp_bind, wp_ret.
  eapply wp_ub; [by eapply arg_text_is|done].
Qed.

Lemma wp_starts_with s d t p u m :
  repr s d t -> arg_is s d t p u -> zlen u <= SIZE_MAX ->
  wp (cstring_starts_with (Some s) (Some p)) m
    (fun b m' => m' = m /\ (b = true <-> exists r, t = u ++ r)).
Proof.
  intros Hr Ha Hu. pose proof (repr_bounds _ _ _ Hr) as Hb. unfold cstring_starts_with.
  apply wp_bind, wp_ret, wp_bind, (arg_text_run s d t p u); [done..|].
  rewrite Z.gtb_ltb. destruct (Z.ltb_spec (s_length s) (zlen u)).
  { apply wp_ret. split; [done|]. split; [done|]. intros [r ->]. rewrite zlen_app in *. zlen_facts. lia. }
  apply wp_bind, (own_text_run s d t); [done|]. apply wp_ret. split; [done|].
  unfold zlen. rewrite Nat2Z.id, Z.eqb_eq. apply strncmp_prefix; [apply Hr|by eapply arg_chars].
Qed.

Lemma wp_ends_with s d t p u m :
  repr s d t -> arg_is s d t p u -> zlen u <= SIZE_MAX ->
  wp (cstring_ends_with (Some s) (Some p)) m
    (fun b m' => m' = m /\ (b = true <-> exists r, t = r ++ u)).
Proof.
  intros Hr Ha Hu. pose proof (repr_bounds _ _ _ Hr) as Hb. unfold cstring_ends_with.
  pose proof Hr as (Hd & _ & Hch & Hl & _). zlen_facts.
  apply wp_bind, wp_ret, wp_bind, (arg_text_run s d t p u); [done..|].
  rewrite Z.gtb_ltb. destruct (Z.ltb_spec (s_length s) (zlen u)).
  { apply wp_ret. split; [done|]. split; [done|]. intros [r ->]. rewrite zlen_app in *. zlen_facts. lia. }
  rewrite Hd. apply wp_bind, wp_ret. unfold ccol_max_elem_count in *. sz. apply wp_bind.
  eapply wp_ub; [apply (arg_text_is s d t); [done|]; cbn; split_and!; done || lia|].
  apply wp_ret. split; [done|]. unfold zlen at 2. rewrite Nat2Z.id, Z.eqb_eq.
  rewrite strncmp_prefix; [|by apply Forall_drop|by eapply arg_chars]. split.
  - intros [r E]. assert (r = []) as ->.
    { apply zlen_0_nil. apply (f_equal zlen) in E. rewrite zlen_app, zlen_zdrop in E by lia. lia. }
    rewrite app_nil_r in E. exists (ztake (s_length s - zlen u) t).
    rewrite <- (ztake_zdrop (s_length s - zlen u) t) at 1. by rewrite E.
  - intros [r ->]. exists []. rewrite app_nil_r. apply zdrop_app_exact. rewrite zlen_app in *. lia.
Qed.

Lemma wp_str_find s d t p u m :
  repr s d t -> arg_is s d t p u ->
  wp (cstring_find (Some s) (Some p)) m
    (fun r m' => m' = m /\
      match strstr t u with Some i => r = i /\ 0 <= i <= s_length s | None => r = ccol_invalid_size end).
Proof.
  intros Hr Ha. pose proof (repr_bounds _ _ _ Hr) as Hb. unfold cstring_find.
  pose proof Hr as (Hd & _). zlen_facts.
  apply wp_bind, wp_ret, wp_bind, (arg_text_run s d t p u); [done..|].
  rewrite Hd. apply wp_bind, wp_ret, wp_bind, (wp_strstr_at s d t); [done|lia|].
  rewrite zdrop_0. apply wp_ret. split; [done|].
  destruct (strstr t u) as [i|] eqn:E; [|done]. apply strstr_Some in E as (_ & ? & ?).
  zlen_facts. split; [done|lia].
Qed.
End CString.

(** ** Histories *)
Section History.
Context {alloc : Allocator}.

(** A source is text of the client's, or a tail of the string's own text. *)
Inductive src :=
  | SrcText (u : list Z)
  | SrcOwn (off : Z).

Inductive sop :=
  | SAppend (x : src)
  | SPrepend (x : src)
  | SInsert (pos : Z) (x : src)
  | SSet (x : src)
  | SReplace (needle replacement : src)
  | SUpper | SLower | STrim | SReset
  | SReserve (n : Z).

Definition src_ptr (s : cstring) (x : src) : M (option ptr) :=
  match x with
  | SrcText u => mret (Some (Foreign (u ++ [0])))
  | SrcOwn off => d ← ub (s_data s); mret (Some (At (b_id d) (Z.min off (s_length s))))
  end.

Definition run_sop (s : cstring) (op : sop) : M (option ccol_retval_t * cstring) :=
  match op with
  | SAppend x =>
      p ← src_ptr s x; '(r, s) ← cstring_append (Some s) p; mret (Some r, s)
  | SPrepend x =>
      p ← src_ptr s x; '(r, s) ← cstring_prepend (Some s) p; mret (Some r, s)
  | SInsert pos x =>
      p ← src_ptr s x; '(r, s) ← cstring_insert (Some s) pos p; mret (Some r, s)
  | SSet x => p ← src_ptr s x; '(r, s) ← cstring_set (Some s) p; mret (Some r, s)
  | SReplace x y =>
      p ← src_ptr s x; q ← src_ptr s y;
      '(r, s) ← cstring_replace (Some s) p q; mret (Some r, s)
  | SUpper => s ← cstring_to_upper (Some s); mret (None, s)
  | SLower => s ← cstring_to_lower (Some s); mret (None, s)
  | STrim => s ← cstring_trim (Some s); mret (None, s)
  | SReset => s ← cstring_reset (Some s); mret (None, s)
  | SReserve n => '(b, s) ← cstring_reserve (Some s) n; mret (None, s)
  end.

Fixpoint run_sops (s : cstring) (ops : list sop) : M (list (option ccol_retval_t) * cstring) :=
  match ops with
  | [] => mret ([], s)
  | op :: ops =>
      '(r, s) ← run_sop s op;
      '(rs, s) ← run_sops s ops;
      mret (r :: rs, s)
  end.

(** The abstract string: its text, and what each operation may answer. *)
Definition src_text (t : list Z) (x : src) : list Z :=
  match x with SrcText u => u | SrcOwn off => zdrop off t end.

(** A code and the text: the edit, or a refusal that changed nothing. *)
Definition edit_spec (r : option ccol_retval_t) (t t1 t' : list Z) : Prop :=
  (r = Some ccol_success /\ t' = t1) \/
  ((r = Some ccol_container_full \/ r = Some ccol_not_enough_memory) /\ t' = t).

Definition sspec (t : list Z) (op : sop) (r : option ccol_retval_t) (t' : list Z) : Prop :=
  match op with
  | SAppend x => edit_spec r t (t ++ src_text t x) t'
  | SPrepend x => edit_spec r t (src_text t x ++ t) t'
  | SInsert pos x =>
      if pos <=? zlen t then edit_spec r t (ztake pos t ++ src_text t x ++ zdrop pos t) t'
      else r = Some ccol_invalid_args /\ t' = t
  | SSet x => edit_spec r t (src_text t x) t'
  | SReplace x y =>
      if bool_decide (src_text t x = []) then r = Some ccol_invalid_args /\ t' = t
      else edit_spec r t (join (src_text t y) (tokens (src_text t x) t)) t'
  | SUpper => r = None /\ t' = Ascii.ccol_ascii_toupper <$> t
  | SLower => r = None /\ t' = Ascii.ccol_ascii_tolower <$> t
  | STrim => r = None /\ t' = ltrim (rtrim t)
  | SReset => r = None /\ t' = []
  | SReserve _ => r = None /\ t' = t
  end.

Inductive sspecs : list Z -> list sop -> list (option ccol_retval_t) -> list Z -> Prop :=
  | sspecs_nil t : sspecs t [] [] t
  | sspecs_cons t op r t1 ops rs t2 :
      sspec t op r t1 -> sspecs t1 ops rs t2 -> sspecs t (op :: ops) (r :: rs) t2.

Definition src_wf (x : src) : Prop :=
  match x with
  | SrcText u => Forall is_char u /\ zlen u <= SIZE_MAX
  | SrcOwn off => 0 <= off
  end.
Definition sop_wf (op : sop) : Prop :=
  match op with
  | SAppend x | SPrepend x | SSet x => src_wf x
  | SInsert pos x => 0 <= pos < two64 /\ src_wf x
  | SReplace x y => src_wf x /\ src_wf y
  | SReserve n => 0 <= n < two64
  | _ => True
  end.

Lemma wp_src_ptr s d t x m (Q : option ptr -> mem -> Prop) :
  repr s d t -> src_wf x ->
  (forall p, arg_is s d t p (src_text t x) -> zlen (src_text t x) <= SIZE_MAX -> Q (Some p) m) ->
  wp (src_ptr s x) m Q.
Proof.
  intros Hr Hx HQ. pose proof (repr_bounds _ _ _ Hr) as Hb. pose proof Hr as (Hd & _).
  destruct x as [u|off]; cbn [src_ptr src_wf src_text] in *.
  - destruct Hx. apply wp_ret, HQ; [|done]. split; [done|by exists []].
  - rewrite Hd. apply wp_bind, wp_ret, wp_ret, HQ.
    + split; [done|]. split; [lia|]. destruct (Z.min_spec off (s_length s)) as [[_ ->]|[? ->]]; [done|].
      rewrite !zdrop_all; done || lia.
    + unfold SIZE_MAX, ccol_max_elem_count in *. zlen_facts. zlia.
Qed.

Definition sop_refines (F : gset nat) (t : list Z) (op : sop) : option ccol_retval_t * cstring -> mem -> Prop :=
  fun '(r, s') m' => exists t', sspec t op r t' /\ str_is m' F s' t'.

Lemma edited_refines s t t1 n F op (c : M (ccol_retval_t * cstring)) m :
  (forall r t', edit_spec r t t1 t' -> sspec t op r t') ->
  wp c m (edited F s t t1 n) ->
  wp ('(r, s) ← c; mret (Some r, s)) m (sop_refines F t op).
Proof.
  intros Hop Hc. apply wp_bind. eapply wp_mono; [exact Hc|]. intros [r s'] m' H. apply wp_ret.
  unfold sop_refines. destruct r; try done.
  - destruct H as (-> & Hs & _). exists t. split; [apply Hop; right; auto|done].
  - destruct H as (-> & Hs & _). exists t. split; [apply Hop; right; auto|done].
  - exists t1. split; [apply Hop; by left|done].
Qed.

Lemma wp_run_sop s t op m F :
  str_is m F s t -> sop_wf op -> wp (run_sop s op) m (sop_refines F t op).
Proof.
  intros (d & Hr & Ho) Hop. pose proof (repr_bounds _ _ _ Hr) as Hb.
  destruct op; cbn [run_sop sop_wf] in *.
  - apply wp_bind, (wp_src_ptr s d t); [done..|]. intros p Ha Hu.
    eapply edited_refines; [|by apply (wp_append s d)]. done.
  - apply wp_bind, (wp_src_ptr s d t); [done..|]. intros p Ha Hu.
    eapply edited_refines; [|by apply (wp_prepend s d)]. done.
  - destruct Hop as [Hpos Hx]. apply wp_bind, (wp_src_ptr s d t); [done..|]. intros p Ha Hu.
    destruct (Z.leb_spec pos (zlen t)) as [Hle|Hlt].
    + eapply edited_refines; [|apply (wp_insert s d t p (src_text t x) pos m F); done || lia].
      intros r t' H. cbn. destruct (Z.leb_spec pos (zlen t)); [done|lia].
    + unfold cstring_insert. apply wp_bind, wp_bind, wp_ret. rewrite Z.gtb_ltb.
      destruct (Z.ltb_spec (s_length s) pos); [|lia]. apply wp_ret, wp_ret. exists t.
      split; [|by exists d]. cbn. destruct (Z.leb_spec pos (zlen t)); [lia|done].
  - apply wp_bind, (wp_src_ptr s d t); [done..|]. intros p Ha Hu.
    eapply edited_refines; [|by apply (wp_set s d)]. done.
  - destruct Hop as [Hx Hy]. apply wp_bind, (wp_src_ptr s d t); [done..|]. intros p Hp Hpl.
    apply wp_bind, (wp_src_ptr s d t); [done..|]. intros q Hq Hql. apply wp_bind.
    destruct (decide (src_text t needle = [])) as [E|Hne].
    + unfold cstring_replace. pose proof Hr as (Hd & _). apply wp_bind, wp_ret. rewrite Hd.
      apply wp_bind, wp_ret. rewrite (arg_text_is s d t p (src_text t needle)) by done.
      apply wp_bind, wp_ret. rewrite bool_decide_true by done. apply wp_ret, wp_ret.
      exists t. split; [|by exists d]. cbn. by rewrite bool_decide_true.
    + eapply wp_mono; [by apply (wp_replace s d t p (src_text t needle) q)|]. intros [r s'] m' H. apply wp_ret.
      unfold sop_refines. cbn [sspec]. rewrite bool_decide_false by done.
      destruct r; try done.
      * destruct H as (-> & Hs & _). exists t. split; [right; auto|done].
      * destruct H as (-> & Hs & _). exists t. split; [right; auto|done].
      * eexists. split; [by left|done].
  - apply wp_bind, wp_bind, wp_ret, (wp_map_chars _ s d t m F); [done|done|apply Ascii.toupper_char|].
    intros s' m' Hs. apply wp_ret. by eexists.
  - apply wp_bind, wp_bind, wp_ret, (wp_map_chars _ s d t m F); [done|done|apply Ascii.tolower_char|].
    intros s' m' Hs. apply wp_ret. by eexists.
  - apply wp_bind, (wp_trim s d t m F); [done..|]. intros s' m' Hs. apply wp_ret. by eexists.
  - apply wp_bind, (wp_str_reset s d t m F); [done..|]. intros s' m' Hs. apply wp_ret. by eexists.
  - apply wp_bind, (wp_str_reserve s d t n m F); [done..|]. intros b s' m' Hs _ _. apply wp_ret. by eexists.
Qed.

Lemma wp_run_sops s t ops m F :
  str_is m F s t -> Forall sop_wf ops ->
  wp (run_sops s ops) m (fun '(rs, s') m' => exists t', sspecs t ops rs t' /\ str_is m' F s' t').
Proof.
  intros Hs Hops. revert s t m Hs. induction Hops as [|op ops Hop Hops IH]; intros s t m Hs.
  { apply wp_ret. exists t. split; [constructor|done]. }
  cbn [run_sops]. apply wp_bind. eapply wp_mono; [by apply wp_run_sop|].
  intros [r s1] m1 (t1 & H1 & Hs1). apply wp_bind. eapply wp_mono; [by apply IH|].
  intros [rs s2] m2 (t2 & H2 & Hs2). apply wp_ret. exists t2. split; [by econstructor|done].
Qed.
End History.
End CString.

(** ** Properties *)
Section Properties.
Context {alloc : Allocator}.
Import CString.

(** C10: whatever the allocator refuses, every history of a string, from its
    creation through any sequence of edits (whose arguments may be tails of
    the string itself), terminates, reads and writes only inside its buffer
    and the arguments, keeps the buffer NUL-terminated, and answers as the
    abstract text does; destroying it gives back every block. *)
Theorem string_history init procs interned ops m F :
  Forall is_char init -> zlen init < two64 -> Forall sop_wf ops -> owns m ∅ F ->
  wp (created ← cstring_create_full (Some (init ++ [0])) procs interned;
      match created with
      | (None, _) => mret None
      | (Some s, _) => r ← run_sops s ops; mret (Some r)
      end) m (fun result m' =>
    match result with
    | None => owns m' ∅ F
    | Some (rs, s) => exists d t,
        sspecs init ops rs t /\ s_data s = Some d /\
        c_str_at d (At (b_id d) 0) = Some t /\ s_length s = zlen t /\ repr s d t /\
        wp (__cstring_destroy (Some s)) m' (fun _ m'' => owns m'' ∅ F)
    end).
Proof.
  intros Hi Hl Hops Ho. unfold cstring_create_full. zlen_facts.
  apply wp_bind, wp_bind, wp_bind. eapply wp_ub; [by apply until_nul_text|]. apply wp_ret.
  apply (wp_create_span _ _ _ _ init ∅ m F); [done|done|done|done| | |].
  - intros _. exists (init ++ [0]). split; [done|]. split; [rewrite zlen_app; zlen_facts; lia|].
    by apply ztake_app_exact.
  - intros e m' Ho'. by apply wp_ret.
  - intros s d m1 Hr Ho1 _ _. apply wp_bind. rewrite union_empty_r_L in Ho1.
    eapply wp_mono; [apply (wp_run_sops s init ops m1 F); [by exists d|done]|].
    intros [rs s2] m2 (t & Hs & d2 & Hr2 & Ho2). apply wp_ret.
    pose proof Hr2 as (Hd2 & _ & _ & Hl2 & _). pose proof (own_text_is _ _ _ Hr2).
    exists d2, t. split_and!; try done.
    apply (wp_str_destroy s2 d2 t ∅ m2 F); [done| |set_solver +|done].
    by rewrite union_empty_r_L.
Qed.

(** Inserting at any position a foreign text or a tail of the string
    itself, on whichever side of the position it starts, gives the text with
    the argument (as it was before the call) between the two halves; the
    only refusals are a length that leaves no room for the NUL and a
    reallocation that is refused or could not be rounded up, and then
    nothing changed. *)
Theorem string_insert_alias s d t p u pos m F :
  repr s d t -> owns m (blocks s d) F -> arg_is s d t p u -> zlen u <= SIZE_MAX ->
  0 <= pos <= s_length s ->
  wp (cstring_insert (Some s) pos (Some p)) m (fun '(r, s') m' =>
    match r with
    | ccol_success => str_is m' F s' (ztake pos t ++ u ++ zdrop pos t)
    | ccol_container_full => s' = s /\ str_is m' F s t /\ SIZE_MAX <= zlen t + zlen u
    | ccol_not_enough_memory =>
        s' = s /\ str_is m' F s t /\
        (ccol_max_elem_count <= zlen t + zlen u \/ exists k c, grant k c = false)
    | _ => False
    end).
Proof.
  intros Hr Ho Ha Hu Hpos. pose proof (repr_bounds _ _ _ Hr) as (_ & _ & ->).
  by apply (wp_insert s d).
Qed.

(** C35: [cstring_replace] replaces every occurrence the left-to-right scan
    meets: the pieces between them, joined by the replacement, where joined
    by the needle they are the text; it never writes past the new buffer,
    whose size it computed in advance. *)
Theorem string_replace s d t pn needle pr repl m F :
  repr s d t -> owns m (blocks s d) F -> arg_is s d t pn needle -> arg_is s d t pr repl ->
  zlen needle <= SIZE_MAX -> zlen repl <= SIZE_MAX -> needle <> [] ->
  exists pieces, join needle pieces = t /\ split_leftmost needle pieces /\
    wp (cstring_replace (Some s) (Some pn) (Some pr)) m (fun '(r, s') m' =>
      match r with
      | ccol_success => str_is m' F s' (join repl pieces)
      | ccol_container_full =>
          s' = s /\ str_is m' F s t /\ ccol_max_elem_count <= zlen (join repl pieces)
      | ccol_not_enough_memory => s' = s /\ str_is m' F s t /\ exists k c, grant k c = false
      | _ => False
      end).
Proof.
  intros Hr Ho Hn Hp Hnl Hrl Hne. exists (tokens needle t).
  split; [by apply join_tokens|]. split; [by apply tokens_leftmost|]. by apply (wp_replace s d t pn needle).
Qed.

(** The length arithmetic of a replacement is exact on every input a
    scan can produce: the result when it leaves room for the NUL in a
    [size_t], and a refusal exactly when it does not, although the product
    and the sum wrap. *)
Theorem replace_length_exact orig nlen rlen count m :
  0 <= orig < two64 -> 0 <= nlen < two64 -> 0 <= rlen < two64 -> 0 < count < two64 ->
  count * nlen <= orig ->
  let n := orig + (rlen - nlen) * count in
  compute_replace_new_length orig nlen rlen count m =
    Done (if n <? SIZE_MAX then (ccol_success, Some n) else (ccol_container_full, None)) m.
Proof.
  intros Ho Hn Hr Hc Hfit n.
  assert (wp (compute_replace_new_length orig nlen rlen count) m (fun r m' => m' = m /\
    r = if n <? SIZE_MAX then (ccol_success, Some n) else (ccol_container_full, None))) as H.
  { apply wp_compute_replace_new_length; try done; fold n; intros Hcmp; split; try done.
    - by apply Z.ltb_lt in Hcmp as ->.
    - by apply Z.ltb_ge in Hcmp as ->. }
  apply wp_run in H as (r & m' & E & -> & ->). done.
Qed.

(** The queries decide what they are named after: [cstring_equals]
    equality, [cstring_starts_with] and [cstring_ends_with] being a prefix
    or a suffix, and [cstring_find] gives the least offset at which the
    needle occurs, or [ccol_invalid_size]. *)
Theorem string_queries s d t p u m :
  repr s d t -> arg_is s d t p u -> zlen u <= SIZE_MAX ->
  wp (cstring_equals (Some s) (Some p)) m (fun b m' => m' = m /\ (b = true <-> t = u)) /\
  wp (cstring_compare (Some s) (Some p)) m (fun c m' => m' = m /\ c = strcmp t u) /\
  wp (cstring_starts_with (Some s) (Some p)) m
    (fun b m' => m' = m /\ (b = true <-> exists r, t = u ++ r)) /\
  wp (cstring_ends_with (Some s) (Some p)) m
    (fun b m' => m' = m /\ (b = true <-> exists r, t = r ++ u)) /\
  wp (cstring_find (Some s) (Some p)) m (fun i m' => m' = m /\
    ((i = ccol_invalid_size /\ forall j, ~ occurs u t j) \/
     (occurs u t i /\ forall j, j < i -> ~ occurs u t j))).
Proof.
  intros Hr Ha Hu. pose proof Hr as (_ & _ & Hch & _). pose proof (arg_chars _ _ _ _ _ Hr Ha) as Hchu.
  split_and!.
  - apply wp_bind, wp_ret, wp_bind, (own_text_run s d t); [done|].
    apply wp_bind, (arg_text_run s d t p u); [done..|]. apply wp_ret. split; [done|].
    rewrite Z.eqb_eq. by apply strcmp_0.
  - apply wp_bind, wp_ret, wp_bind, (own_text_run s d t); [done|].
    by apply wp_bind, (arg_text_run s d t p u).
  - by apply (wp_starts_with s d).
  - by apply (wp_ends_with s d).
  - eapply wp_mono; [by apply (wp_str_find s d)|]. intros i m' [-> H]. split; [done|].
    pose proof (strstr_spec t u) as Hs. destruct (strstr t u); [right|by left].
    by destruct H as [-> _].
Qed.

(** C34: a split gives the pieces between the occurrences of the delimiter,
    each a string of its own, one at least: joined by the delimiter they are
    the text.  When any request fails it gives nothing, and everything it
    had built is given back; so does destroying its result. *)
Theorem string_split s d t p delim m F :
  repr s d t -> arg_is s d t p delim -> delim <> [] -> owns m ∅ F ->
  wp (cstring_split (Some s) (Some p)) m (fun r m' =>
    match r with
    | inl _ => owns m' ∅ F
    | inr (v, ps) => exists pieces, split_is m' F v ps pieces /\
        join delim pieces = t /\ split_leftmost delim pieces /\ zlen ps = zlen pieces /\
        wp (destroy_cstr_vector (Some v) ps) m' (fun _ m'' => owns m'' ∅ F)
    end).
Proof.
  intros Hr Ha Hne Ho. apply (wp_split s d t p delim m F); try done.
  intros v ps m' Hs. exists (tokens delim t). split; [done|].
  split; [by apply join_tokens|]. split; [by apply tokens_leftmost|].
  split; [destruct Hs as (? & ? & _ & Hp & _); by eapply parts_length|].
  by eapply wp_destroy_cstr_vector.
Qed.

(** A substring or a copy is a string of its own, in blocks disjoint
    from those of the original, holding exactly the bytes asked for that
    exist; when it fails nothing is left allocated. *)
Theorem string_substring_copy s d t start n m F :
  repr s d t -> owns m (blocks s d) F -> 0 <= start < two64 -> 0 <= n < two64 ->
  let result text := fun (r : option cstring * option cstring_error) m' =>
    match r with
    | (None, _) => owns m' (blocks s d) F
    | (Some s', _) => exists d', repr s' d' text /\ blocks s' d' ## blocks s d /\
        owns m' (blocks s' d' ∪ blocks s d) F
    end in
  wp (cstring_substring (Some s) start n) m (result (slice t start n)) /\
  wp (cstring_copy (Some s)) m (result t).
Proof.
  intros Hr Ho Hst Hn result. split.
  - apply (wp_substring s d t start n (blocks s d) m F); try done.
    intros s' d' m' Hr' Ho' Hd'. by exists d'.
  - apply (wp_copy s d t (blocks s d) m F); try done.
    intros s' d' m' Hr' Ho' Hd'. by exists d'.
Qed.
End Properties.

(** ** Witnesses

    The string ["a,bc,"] in a memory of two blocks. *)
Section Witnesses.
Import CString.

Definition demo_text : list Z := [97; 44; 98; 99; 44].
Definition demo_buf : block := Block 1 (demo_text ++ [0] ++ replicate 10 170).
Definition demo_str : cstring := Cstring 0 (Some demo_buf) 5 16 CVector.procs_default.
Definition demo_str_mem : mem := Mem 2 {[0%nat; 1%nat]}.

Lemma demo_chars (l : list Z) : forallb (fun c => (0 <? c) && (c <? 256)) l = true -> Forall is_char l.
Proof.
  induction l as [|c l IH]; cbn [forallb]; [done|]. intros H. zbool.
  constructor; [unfold is_char; lia|by apply IH].
Qed.

Lemma demo_str_repr : repr demo_str demo_buf demo_text.
Proof.
  split_and!; try done; [by apply demo_chars|by exists 4|by exists (replicate 10 170)].
Qed.

Lemma demo_str_owns : owns demo_str_mem (blocks demo_str demo_buf) ∅.
Proof.
  split; cbn; [set_solver|set_solver|]. intros k Hk. cbn in *.
  apply elem_of_union in Hk as [->%elem_of_singleton| ->%elem_of_singleton]; lia.
Qed.

(** The same memory, with the string in the frame. *)
Lemma demo_str_frame : owns demo_str_mem ∅ (blocks demo_str demo_buf).
Proof. pose proof demo_str_owns as [H1 H2 H3]. split; [set_solver|set_solver|done]. Qed.

Definition demo_sops : list sop :=
  [SAppend (SrcOwn 0); SInsert 3 (SrcOwn 1); SPrepend (SrcText [32; 32]); STrim; SUpper;
   SReplace (SrcText [44]) (SrcText [45; 62]); SReserve 100].

Example string_history_witness :
  let alloc := grant_up_to 1000 in
  wp (created ← cstring_create_full (Some (demo_text ++ [0])) None false;
      match created with
      | (None, _) => mret None
      | (Some s, _) => r ← run_sops s demo_sops; mret (Some r)
      end) mem0 (fun result m' =>
    match result with
    | None => owns m' ∅ ∅
    | Some (rs, s) => exists d t,
        sspecs demo_text demo_sops rs t /\ s_data s = Some d /\
        c_str_at d (At (b_id d) 0) = Some t /\ s_length s = zlen t /\ repr s d t /\
        wp (__cstring_destroy (Some s)) m' (fun _ m'' => owns m'' ∅ ∅)
    end).
Proof.
  intros alloc. apply (string_history demo_text None false demo_sops mem0 ∅);
    [by apply demo_chars|reflexivity| |apply owns_mem0].
  repeat constructor; discriminate.
Defined.

Example string_insert_alias_witness :
  let alloc := grant_up_to 1000 in
  wp (cstring_insert (Some demo_str) 1 (Some (At 1 2))) demo_str_mem (fun '(r, s') m' =>
    match r with
    | ccol_success => str_is m' ∅ s' (ztake 1 demo_text ++ [98; 99; 44] ++ zdrop 1 demo_text)
    | ccol_container_full =>
        s' = demo_str /\ str_is m' ∅ demo_str demo_text /\ SIZE_MAX <= zlen demo_text + zlen [98; 99; 44]
    | ccol_not_enough_memory =>
        s' = demo_str /\ str_is m' ∅ demo_str demo_text /\
        (ccol_max_elem_count <= zlen demo_text + zlen [98; 99; 44] \/ exists k c, grant k c = false)
    | _ => False
    end).
Proof.
  intros alloc. apply (string_insert_alias demo_str demo_buf demo_text (At 1 2) [98; 99; 44] 1 demo_str_mem ∅).
  - apply demo_str_repr.
  - apply demo_str_owns.
  - split; [reflexivity|]. split; [split; discriminate|reflexivity].
  - discriminate.
  - split; discriminate.
Defined.

Example string_replace_witness :
  let alloc := grant_up_to 1000 in
  exists pieces, join [44] pieces = demo_text /\ split_leftmost [44] pieces /\
    wp (cstring_replace (Some demo_str) (Some (Foreign [44; 0])) (Some (Foreign [45; 62; 0])))
      demo_str_mem (fun '(r, s') m' =>
      match r with
      | ccol_success => str_is m' ∅ s' (join [45; 62] pieces)
      | ccol_container_full =>
          s' = demo_str /\ str_is m' ∅ demo_str demo_text /\
          ccol_max_elem_count <= zlen (join [45; 62] pieces)
      | ccol_not_enough_memory =>
          s' = demo_str /\ str_is m' ∅ demo_str demo_text /\ exists k c, grant k c = false
      | _ => False
      end).
Proof.
  intros alloc. apply (string_replace demo_str demo_buf demo_text (Foreign [44; 0]) [44]
    (Foreign [45; 62; 0]) [45; 62] demo_str_mem ∅).
  - apply demo_str_repr.
  - apply demo_str_owns.
  - split; [by apply demo_chars|by exists []].
  - split; [by apply demo_chars|by exists []].
  - discriminate.
  - discriminate.
  - discriminate.
Defined.

(** A product that wraps around to a small length is refused. *)
Example replace_length_exact_witness :
  let n := 4 + (9223372036854775810 - 2) * 2 in
  compute_replace_new_length 4 2 9223372036854775810 2 mem0 =
    Done (if n <? SIZE_MAX then (ccol_success, Some n) else (ccol_container_full, None)) mem0.
Proof.
  apply (replace_length_exact 4 2 9223372036854775810 2 mem0);
    first [split; [discriminate|reflexivity]|split; reflexivity|discriminate].
Defined.

Example string_queries_witness :
  wp (cstring_equals (Some demo_str) (Some (Foreign [98; 0]))) demo_str_mem
    (fun b m' => m' = demo_str_mem /\ (b = true <-> demo_text = [98])) /\
  wp (cstring_compare (Some demo_str) (Some (Foreign [98; 0]))) demo_str_mem
    (fun c m' => m' = demo_str_mem /\ c = strcmp demo_text [98]) /\
  wp (cstring_starts_with (Some demo_str) (Some (Foreign [98; 0]))) demo_str_mem
    (fun b m' => m' = demo_str_mem /\ (b = true <-> exists r, demo_text = [98] ++ r)) /\
  wp (cstring_ends_with (Some demo_str) (Some (Foreign [98; 0]))) demo_str_mem
    (fun b m' => m' = demo_str_mem /\ (b = true <-> exists r, demo_text = r ++ [98])) /\
  wp (cstring_find (Some demo_str) (Some (Foreign [98; 0]))) demo_str_mem
    (fun i m' => m' = demo_str_mem /\
      ((i = ccol_invalid_size /\ forall j, ~ occurs [98] demo_text j) \/
       (occurs [98] demo_text i /\ forall j, j < i -> ~ occurs [98] demo_text j))).
Proof.
  apply (string_queries demo_str demo_buf demo_text (Foreign [98; 0]) [98] demo_str_mem).
  - apply demo_str_repr.
  - split; [by apply demo_chars|by exists []].
  - discriminate.
Defined.

Example string_split_witness :
  let alloc := grant_up_to 1000 in
  wp (cstring_split (Some demo_str) (Some (Foreign [44; 0]))) demo_str_mem (fun r m' =>
    match r with
    | inl _ => owns m' ∅ (blocks demo_str demo_buf)
    | inr (v, ps) => exists pieces, split_is m' (blocks demo_str demo_buf) v ps pieces /\
        join [44] pieces = demo_text /\ split_leftmost [44] pieces /\ zlen ps = zlen pieces /\
        wp (destroy_cstr_vector (Some v) ps) m' (fun _ m'' => owns m'' ∅ (blocks demo_str demo_buf))
    end).
Proof.
  intros alloc. apply (string_split demo_str demo_buf demo_text (Foreign [44; 0]) [44]
    demo_str_mem (blocks demo_str demo_buf)).
  - apply demo_str_repr.
  - split; [by apply demo_chars|by exists []].
  - discriminate.
  - apply demo_str_frame.
Defined.

Example string_substring_copy_witness :
  let alloc := grant_up_to 1000 in
  let result text := fun (r : option cstring * option cstring_error) m' =>
    match r with
    | (None, _) => owns m' (blocks demo_str demo_buf) ∅
    | (Some s', _) => exists d', repr s' d' text /\ blocks s' d' ## blocks demo_str demo_buf /\
        owns m' (blocks s' d' ∪ blocks demo_str demo_buf) ∅
    end in
  wp (cstring_substring (Some demo_str) 2 100) demo_str_mem (result (slice demo_text 2 100)) /\
  wp (cstring_copy (Some demo_str)) demo_str_mem (result demo_text).
Proof.
  intros alloc. apply (string_substring_copy demo_str demo_buf demo_text 2 100 demo_str_mem ∅).
  - apply demo_str_repr.
  - apply demo_str_owns.
  - split; [discriminate|reflexivity].
  - split; [discriminate|reflexivity].
Defined.

(** The history above, evaluated: ["A->B->BC->A->BC->C->A->BC->"]. *)
Example demo_sops_result :
  (let alloc := grant_up_to 1000 in
   match (created ← cstring_create_full (Some (demo_text ++ [0])) None false;
          match created with
          | (None, _) => mret None
          | (Some s, _) => r ← run_sops s demo_sops; mret (Some r)
          end) mem0 with
   | Done (Some (_, s)) _ =>
       (s_capacity s, d ← s_data s; c_str_at d (At (b_id d) 0))
   | _ => (0, None)
   end)
  = (128, Some [65; 45; 62; 66; 45; 62; 66; 67; 45; 62; 65; 45; 62; 66; 67; 45; 62; 67; 45; 62; 65; 45; 62; 66; 67; 45; 62]).
Proof. vm_compute. reflexivity. Qed.
End Witnesses.
