(* ===== verification/CStringRfind.v ===== *)
(** * The search for the last occurrence ([src/cstring.c])

    [cstring_rfind] searches a short string forward with [strstr], and scans
    a long one backward: a filter of 16-byte vector compares finds the
    starts whose first and last byte match, each of them is charged against
    a budget, and once the budget is spent the rest goes to a
    Knuth-Morris-Pratt search that runs from right to left.

    The first part is the theory of that search: the failure table of the
    needle read backward, and the longest match a scan carries along.  The
    last part shows that every path gives the last occurrence. *)
From S2P Require Import Prelude Memory Values Common CText CVector CString.
Import Str CString.

Section Search.
Context {alloc : Allocator}.

(** ** The code *)
Definition CSTRING_RFIND_STACK_TABLE_LEN : Z := 128.
Definition CSTRING_RFIND_SHORT : Z := 256.

(** [fail[i]], an entry that must have been written. *)
Definition fail_get (fail : list (option Z)) (i : Z) : M Z := x ← ub (zget fail i); ub x.

(** [while (k > 0 && c != needle[tail - k]) k = fail[k - 1];] *)
Definition fall_back (needle : list Z) (tail : Z) (fail : list (option Z)) (c : Z) (k : Z) : M Z :=
  loop (Z.to_nat k + 1) (fun k =>
    if k >? 0
    then n ← ub (zget needle (tail ⊖ k));
         if c =? n then mret (inr k)
         else k ← fail_get fail (k ⊖ 1); mret (inl k)
    else mret (inr k)) k.

Definition build_fail_table (needle : list Z) (nlen tail : Z) (fail : list (option Z))
    : M (list (option Z)) :=
  fail ← ub (zset fail 0 (Some 0));
  '(_, _, fail) ← while (Z.to_nat nlen + 1) (fun '(q, _, _) => q <? nlen)
    (fun '(q, k, fail) =>
      c ← ub (zget needle (tail ⊖ q));
      k ← fall_back needle tail fail c k;
      n ← ub (zget needle (tail ⊖ k));
      let k := if c =? n then k ⊕ 1 else k in
      fail ← ub (zset fail q (Some k));
      mret (q ⊕ 1, k, fail))
    (1, 0, fail);
  mret fail.

(** The scan; [i] is the loop variable before its decrement. *)
Definition linear_scan (hay : list Z) (limit : Z) (needle : list Z) (nlen tail : Z)
    (fail : list (option Z)) : M Z :=
  loop (Z.to_nat limit + 1) (fun '(i, j) =>
    if i =? 0 then mret (inr ccol_invalid_size) else
    let i := i ⊖ 1 in
    c ← ub (zget hay i);
    j ← fall_back needle tail fail c j;
    n ← ub (zget needle (tail ⊖ j));
    if c =? n
    then let j := j ⊕ 1 in
         if j =? nlen then mret (inr i) else mret (inl (i, j))
    else mret (inl (i, j))) (limit, 0).

(** The answer and [*table_ok]. *)
Definition cstring_rfind_linear (hay : list Z) (limit : Z) (needle : list Z) (nlen : Z)
    : M (Z * bool) :=
  let tail := nlen ⊖ 1 in
  if nlen >? CSTRING_RFIND_STACK_TABLE_LEN
  then
    table ← (if nlen <=? SIZE_MAX `div` 8 then _ccol_mem_alloc (nlen ⊗ 8) else mret None);
    match table with
    | None => mret (ccol_invalid_size, false)
    | Some t =>
        fail ← build_fail_table needle nlen tail (replicate (Z.to_nat nlen) None);
        found ← linear_scan hay limit needle nlen tail fail;
        _ ← _ccol_mem_free (b_id t);
        mret (found, true)
    end
  else
    fail ← build_fail_table needle nlen tail
             (replicate (Z.to_nat CSTRING_RFIND_STACK_TABLE_LEN) None);
    found ← linear_scan hay limit needle nlen tail fail;
    mret (found, true).

(** The state of a backward scan; [m_procs] is the allocator's. *)
Record cstring_rfind_scan := RfindScan {
  sc_hay : list Z;
  sc_length : Z;
  sc_needle : list Z;
  sc_nlen : Z;
  sc_charged : Z;
  sc_budget : bool;
}.
Definition set_charged (sc : cstring_rfind_scan) (c : Z) : cstring_rfind_scan :=
  RfindScan (sc_hay sc) (sc_length sc) (sc_needle sc) (sc_nlen sc) c (sc_budget sc).
Definition set_budget (sc : cstring_rfind_scan) (b : bool) : cstring_rfind_scan :=
  RfindScan (sc_hay sc) (sc_length sc) (sc_needle sc) (sc_nlen sc) (sc_charged sc) b.

(** [Some r] is the settled answer [*result]. *)
Definition cstring_rfind_candidate (sc : cstring_rfind_scan) (st : Z)
    : M (option Z * cstring_rfind_scan) :=
  a ← read_bytes (sc_hay sc) (st ⊕ 1) (sc_nlen sc ⊖ 2);
  b ← read_bytes (sc_needle sc) 1 (sc_nlen sc ⊖ 2);
  if memcmp a b =? 0 then mret (Some st, sc) else
  let sc := set_charged sc (sc_charged sc ⊕ sc_nlen sc) in
  if sc_budget sc && (sc_charged sc >? 4 ⊗ (sc_length sc ⊖ st))
  then
    '(r, table_ok) ←
      cstring_rfind_linear (sc_hay sc) ((st ⊕ sc_nlen sc) ⊖ 1) (sc_needle sc) (sc_nlen sc);
    if table_ok : bool then mret (Some r, sc)
    else mret (None, set_budget sc false)
  else mret (None, sc).

(** A vector of 16 lanes is the list of its truth values: lane [k] of the
    filter at [b] compares the needle's ends with [hay[b + k]] and
    [hay[b + tail + k]]. *)
Definition filter_lanes (hay : list Z) (b tail : Z) (first last : Z) : M (list bool) :=
  f ← read_bytes hay b 16;
  l ← read_bytes hay (b ⊕ tail) 16;
  mret (zip_with (fun x y => (x =? first) && (y =? last)) f l).

Definition cstring_bytes16_any (v : list bool) : bool := existsb id v.

(** The lanes from the highest one down. *)
Definition cstring_rfind_block (sc : cstring_rfind_scan) (b : Z) (hit : list bool)
    : M (option Z * cstring_rfind_scan) :=
  loop 17 (fun '(k, sc) =>
    if k =? 0 then mret (inr (None, sc)) else
    let k := k ⊖ 1 in
    lane ← ub (zget hit k);
    if lane : bool
    then '(r, sc) ← cstring_rfind_candidate sc (b ⊕ k);
         match r with
         | Some _ => mret (inr (r, sc))
         | None => mret (inl (k, sc))
         end
    else mret (inl (k, sc))) (16, sc).

(** The main loop: [inl pos] when fewer than 16 starts are left. *)
Definition rfind_vector_loop (fuel : nat) (sc : cstring_rfind_scan) (tail first last pos : Z)
    : M (option Z * (Z * cstring_rfind_scan)) :=
  loop fuel (fun '(pos, sc) =>
    if negb (pos >=? 16) then mret (inr (None, (pos, sc))) else
    skip ← (if pos >=? 64
            then
              let b := pos ⊖ 64 in
              m0 ← filter_lanes (sc_hay sc) b tail first last;
              m1 ← filter_lanes (sc_hay sc) (b ⊕ 16) tail first last;
              m2 ← filter_lanes (sc_hay sc) (b ⊕ 32) tail first last;
              m3 ← filter_lanes (sc_hay sc) (b ⊕ 48) tail first last;
              let any := zip_with orb (zip_with orb (zip_with orb m0 m1) m2) m3 in
              mret (negb (cstring_bytes16_any any))
            else mret false);
    if skip : bool then mret (inl (pos ⊖ 64, sc)) else
    let b := pos ⊖ 16 in
    hit ← filter_lanes (sc_hay sc) b tail first last;
    if cstring_bytes16_any hit
    then
      '(r, sc) ← cstring_rfind_block sc b hit;
      match r with
      | Some _ => mret (inr (r, (b, sc)))
      | None => mret (inl (b, sc))
      end
    else mret (inl (b, sc))) (pos, sc).

(** The byte loop over the last starts. *)
Definition rfind_tail_loop (fuel : nat) (sc : cstring_rfind_scan) (tail first last pos : Z)
    : M (option Z) :=
  loop fuel (fun '(pos, sc) =>
    if pos =? 0 then mret (inr None) else
    let pos := pos ⊖ 1 in
    f ← ub (zget (sc_hay sc) pos);
    if f =? first
    then
      l ← ub (zget (sc_hay sc) (pos ⊕ tail));
      if l =? last
      then
        '(r, sc) ← cstring_rfind_candidate sc pos;
        match r with
        | Some _ => mret (inr r)
        | None => mret (inl (pos, sc))
        end
      else mret (inl (pos, sc))
    else mret (inl (pos, sc))) (pos, sc).

Definition cstring_rfind_backward (s : cstring) (needle : list Z) : M Z :=
  d ← ub (s_data s);
  let hay := b_bytes d in
  let nlen := zlen needle in
  if nlen =? 0 then mret (s_length s) else
  if nlen >? s_length s then mret ccol_invalid_size else
  if nlen =? 1
  then
    c ← ub (zget needle 0);
    mret (default ccol_invalid_size (memrchr hay c (Z.to_nat (s_length s))))
  else
    let tail := nlen ⊖ 1 in
    first ← ub (zget needle 0);
    last ← ub (zget needle tail);
    let sc := RfindScan hay (s_length s) needle nlen 0 true in
    let fuel := (Z.to_nat (s_length s) + 1)%nat in
    '(r, (pos, sc)) ← rfind_vector_loop fuel sc tail first last (s_length s ⊖ tail);
    match r with
    | Some r => mret r
    | None =>
        r ← rfind_tail_loop fuel sc tail first last pos;
        mret (default ccol_invalid_size r)
    end.

Definition cstring_rfind (s : option cstring) (needle : option ptr) : M Z :=
  s ← deref s;
  match needle with
  | None => mret ccol_invalid_size
  | Some needle =>
      n ← arg_text s needle;
      if s_length s >=? CSTRING_RFIND_SHORT then cstring_rfind_backward s n else
      d ← ub (s_data s);
      match n with
      | [] => mret (s_length s)
      | [c] => mret (default ccol_invalid_size (memrchr (b_bytes d) c (Z.to_nat (s_length s))))
      | _ =>
          loop (Z.to_nat (s_length s) + 1) (fun '(ptr, last) =>
            found ← strstr_at d ptr n;
            match found with
            | None => mret (inr last)
            | Some f => mret (inl (f ⊕ 1, f))
            end) (0, ccol_invalid_size)
      end
  end.

End Search.

(** ** The theory of the failure table

    [P] is the needle read backward, [S] the characters a scan meets.
    [suffix_match S n j]: the last [j] of the first [n] characters are the
    first [j] of the pattern. *)
Section Kmp.
Variable P : Z -> Z.
Variable m : Z.

Definition suffix_match (S : Z -> Z) (n j : Z) : Prop :=
  0 <= j <= n /\ forall t, 0 <= t < j -> P t = S (n - j + t).

(** [k] is a proper border of the first [q] characters of the pattern. *)
Definition border (q k : Z) : Prop := suffix_match (fun t => P (t + 1)) (q - 1) k.

Definition longest_border (q k : Z) : Prop := border q k /\ forall k', border q k' -> k' <= k.

(** The longest match shorter than the pattern. *)
Definition longest_match (S : Z -> Z) (n j : Z) : Prop :=
  suffix_match S n j /\ forall j', suffix_match S n j' -> j' < m -> j' <= j.

Lemma match_border S n j k : suffix_match S n j -> suffix_match S n k -> k < j -> border j k.
Proof.
  intros [Hj HPj] [Hk HPk] Hlt. split; [lia|]. intros t Ht. rewrite HPk by lia.
  rewrite HPj by lia. f_equal. lia.
Qed.

Lemma border_match S n j k : suffix_match S n j -> border j k -> suffix_match S n k.
Proof.
  intros [Hj HPj] [Hk HPk]. split; [lia|]. intros t Ht. rewrite HPk by lia.
  rewrite HPj by lia. f_equal. lia.
Qed.

(** Where a mismatch on [c] leads: the longest match, of length [k0] at
    most, that [c] extends, or the empty one. *)
Definition falls_to (S : Z -> Z) (n c k0 k1 : Z) : Prop :=
  suffix_match S n k1 /\ k1 <= k0 /\ (k1 = 0 \/ P k1 = c) /\
  forall k', suffix_match S n k' -> k' <= k0 -> P k' = c -> k' <= k1.

Lemma falls_further S n c k0 k f :
  suffix_match S n k -> 0 < k -> P k <> c ->
  (forall k', suffix_match S n k' -> k' <= k0 -> P k' = c -> k' <= k) ->
  longest_border k f ->
  suffix_match S n f /\ f < k /\
  forall k', suffix_match S n k' -> k' <= k0 -> P k' = c -> k' <= f.
Proof.
  intros Hk Hpos Hc Hmax [Hf Hlf]. split; [by eapply border_match|].
  split; [destruct Hf; lia|]. intros k' Hk' Hle Heq. pose proof (Hmax k' Hk' Hle Heq).
  apply Hlf. apply (match_border S n); [done|done|].
  destruct (Z.eq_dec k' k) as [->|]; [congruence|lia].
Qed.

(** One character more. *)
Lemma longest_match_step S n c j k1 :
  longest_match S n j -> j < m -> 0 <= n -> c = S n -> falls_to S n c j k1 ->
  let j1 := if c =? P k1 then k1 + 1 else k1 in
  suffix_match S (n + 1) j1 /\ forall j', suffix_match S (n + 1) j' -> j' <= m -> j' <= j1.
Proof.
  intros [Hj Hlj] Hjm Hn Hc (Hk1 & Hle & Hor & Hmax) j1.
  assert (forall j', suffix_match S (n + 1) (j' + 1) -> 0 <= j' -> suffix_match S n j' /\ P j' = c) as Hdown.
  { intros j' [Hr HP] Hj'. split; [split; [lia|]|].
    - intros t Ht. rewrite HP by lia. f_equal. lia.
    - rewrite HP by lia. rewrite Hc. f_equal. lia. }
  assert (forall j', suffix_match S (n + 1) j' -> j' <= m -> j' <= k1 + 1 /\ (0 < j' -> P k1 = c \/ j' <= k1)) as Hup.
  { intros j' Hj' Hjm'. destruct (Z.eq_dec j' 0) as [->|].
    - destruct Hk1 as [? _]. lia.
    - assert (0 <= j' - 1) as H0 by (destruct Hj'; lia). replace j' with (j' - 1 + 1) in Hj' by lia.
      destruct (Hdown _ Hj' H0) as [Hs HP].
      assert (j' - 1 <= k1) as Hlk. { apply Hmax; [done| |done]. apply Hlj; [done|lia]. }
      split; [lia|]. intros _. destruct (Z.eq_dec (j' - 1) k1) as [E|]; [left; by rewrite <- E|right; lia]. }
  subst j1. destruct (Z.eqb_spec c (P k1)) as [E|Hne].
  - split; [|intros; by apply Hup]. destruct Hk1 as [Hr HP]. split; [lia|]. intros t Ht.
    destruct (Z.eq_dec t k1) as [->|]; [rewrite <- E, Hc; f_equal; lia|].
    rewrite HP by lia. f_equal. lia.
  - destruct Hor as [->|]; [|congruence]. split; [split; [lia|]; intros; lia|].
    intros j' Hj' Hjm'. destruct (Hup j' Hj' Hjm') as [_ H]. destruct (Z.le_gt_cases j' 0); [done|].
    destruct H as [|]; [lia|congruence|done].
Qed.
End Kmp.

(** ** The right-to-left search *)
Section Linear.
Context {alloc : Allocator}.
Variable needle : list Z.
Abbreviation nlen := (zlen needle).
Hypothesis Hn : 0 < nlen < two64.

Definition byte_at (l : list Z) (i : Z) : Z := default 0 (zget l i).

Lemma zget_byte_at l i : 0 <= i < zlen l -> zget l i = Some (byte_at l i).
Proof. intros Hi. unfold byte_at. by destruct (zget_is_Some l i Hi) as [x ->]. Qed.

(** The needle read backward. *)
Definition pattern (k : Z) : Z := byte_at needle (nlen - 1 - k).

Lemma needle_at k : 0 <= k < nlen -> zget needle (nlen - 1 ⊖ k) = Some (pattern k).
Proof. intros Hk. rewrite wrap_small by lia. apply zget_byte_at. lia. Qed.

(** The first [q] entries of the table. *)
Definition table_ok (fail : list (option Z)) (q : Z) : Prop :=
  forall i, 0 <= i < q -> exists f, zget fail i = Some (Some f) /\ longest_border pattern (i + 1) f.

Lemma wp_fall_back fail S n c k0 q m (Q : Z -> mem -> Prop) :
  table_ok fail q -> k0 <= q -> k0 < nlen -> suffix_match pattern S n k0 ->
  (forall k1, falls_to pattern S n c k0 k1 -> 0 <= k1 -> Q k1 m) ->
  wp (fall_back needle (nlen - 1) fail c k0) m Q.
Proof.
  intros Ht Hq Hk0 Hs HQ. unfold fall_back.
  apply (wp_loop (fun k m' => m' = m /\ suffix_match pattern S n k /\ k <= k0 /\
    forall k', suffix_match pattern S n k' -> k' <= k0 -> pattern k' = c -> k' <= k) Z.to_nat);
    [|by split_and!|lia].
  intros k m' (-> & Hk & Hle & Hmax). assert (0 <= k) as Hk_ by (by destruct Hk as [[? _] _]).
  rewrite Z.gtb_ltb. destruct (Z.ltb_spec 0 k) as [Hpos|Hz].
  - rewrite needle_at by lia. apply wp_bind, wp_ret. destruct (Z.eqb_spec c (pattern k)) as [E|Hne].
    + apply wp_ret, HQ; [|done]. split_and!; try done. by right.
    + rewrite wrap_small by lia. destruct (Ht (k - 1) ltac:(lia)) as (f & Hf & Hlb).
      replace (k - 1 + 1) with k in Hlb by lia.
      unfold fail_get. rewrite Hf. apply wp_bind, wp_bind, wp_ret, wp_ret, wp_ret.
      destruct (falls_further pattern S n c k0 k f Hk Hpos ltac:(congruence) Hmax Hlb)
        as (Hsf & Hlt & Hmax').
      assert (0 <= f) by (by destruct Hsf as [[? _] _]). split_and!; try done; lia.
  - apply wp_ret, HQ; [|done]. split_and!; try done. left. lia.
Qed.

Lemma table_ok_set fail q f fail' :
  table_ok fail q -> zset fail q (Some f) = Some fail' -> longest_border pattern (q + 1) f ->
  table_ok fail' (q + 1).
Proof.
  intros Ht Hs Hf i Hi. destruct (zset_spec _ _ _ _ Hs) as (_ & _ & Hg). rewrite Hg.
  case_decide as E; [subst; by exists f|]. apply Ht. lia.
Qed.

Lemma wp_build_fail_table fail m (Q : list (option Z) -> mem -> Prop) :
  nlen <= zlen fail -> (forall fail', table_ok fail' nlen -> Q fail' m) ->
  wp (build_fail_table needle nlen (nlen - 1) fail) m Q.
Proof.
  intros Hlen HQ. unfold build_fail_table.
  destruct (zset_is_Some fail 0 (Some 0) ltac:(lia)) as [fail0 H0]. rewrite H0.
  apply wp_bind, wp_ret, wp_bind. destruct (zset_spec _ _ _ _ H0) as (_ & Hl0 & _).
  apply (wp_while (fun '(q, k, fl) m' => m' = m /\ 1 <= q <= nlen /\ zlen fl = zlen fail /\
     table_ok fl q /\ longest_border pattern q k) (fun '(q, _, _) => Z.to_nat (nlen - q))).
  - intros [[q k] fl] m' (-> & Hq & Hl & Ht & Hb & Hlb) Hc. apply Z.ltb_lt in Hc.
    rewrite needle_at by lia. apply wp_bind, wp_ret, wp_bind.
    assert (k <= q - 1) as Hk by (destruct Hb; lia).
    eapply wp_fall_back; [done| | |exact Hb|]; [lia|lia|]. intros k1 Hf Hk1.
    destruct Hf as (Hs1 & Hle1 & Hrest). rewrite needle_at by lia. apply wp_bind, wp_ret.
    pose proof (longest_match_step pattern nlen (fun t => pattern (t + 1)) (q - 1) (pattern q) k k1) as Hstep.
    destruct Hstep as [Hs2 Hmax2]; [|lia|lia|f_equal; lia|done|].
    { split; [done|]. intros j' Hj' _. by apply Hlb. }
    set (k2 := if pattern q =? pattern k1 then k1 + 1 else k1) in *.
    assert ((if pattern q =? pattern k1 then k1 ⊕ 1 else k1) = k2) as ->.
    { subst k2. case_match; [|done]. apply wrap_small. lia. }
    destruct (zset_is_Some fl q (Some k2) ltac:(lia)) as [fl' Hfl]. rewrite Hfl.
    apply wp_bind, wp_ret, wp_ret. rewrite wrap_small by lia. split; [|lia].
    replace (q - 1 + 1) with q in * by lia.
    assert (longest_border pattern (q + 1) k2) as Hnew.
    { split; unfold border; replace (q + 1 - 1) with q by lia; [done|].
      intros k' Hk'. apply Hmax2; [done|]. destruct Hk'. lia. }
    destruct (zset_spec _ _ _ _ Hfl) as (_ & Hl' & _).
    split; [done|]. split; [lia|]. split; [congruence|]. split; [by eapply table_ok_set|done].
  - intros [[q k] fl] m' (-> & Hq & Hl & Ht & _) Hc. apply Z.ltb_ge in Hc.
    apply wp_ret, HQ. by replace nlen with q by lia.
  - assert (longest_border pattern 1 0) as Hb1.
    { split; [split; [lia|intros; lia]|]. intros k' [? _]. lia. }
    split; [done|]. split; [lia|]. split; [done|]. split; [|done].
    apply (table_ok_set fail 0 0); [intros i Hi; lia|done|done].
  - lia.
Qed.

(** [needle] at the start [i] of [hay]. *)
Definition matches (hay : list Z) (i : Z) : Prop :=
  0 <= i /\ forall t, 0 <= t < nlen -> byte_at hay (i + t) = byte_at needle t.

(** The last match that ends at [limit] at the latest. *)
Definition last_match (hay : list Z) (limit r : Z) : Prop :=
  (r = ccol_invalid_size /\ forall i, i + nlen <= limit -> ~ matches hay i) \/
  (matches hay r /\ r + nlen <= limit /\ forall i, r < i -> i + nlen <= limit -> ~ matches hay i).

Lemma matches_suffix hay limit i :
  i + nlen <= limit ->
  matches hay i <-> 0 <= i /\ suffix_match pattern (fun t => byte_at hay (limit - 1 - t)) (limit - i) nlen.
Proof.
  intros Hi. unfold matches, suffix_match, pattern. split; intros [H0 H]; (split; [done|]).
  - split; [lia|]. intros t Ht. rewrite <- H by lia. f_equal. lia.
  - destruct H as [Hr H]. intros t Ht. specialize (H (nlen - 1 - t) ltac:(lia)).
    replace (nlen - 1 - (nlen - 1 - t)) with t in H by lia. rewrite H. f_equal. lia.
Qed.

Lemma wp_linear_scan hay limit fail m (Q : Z -> mem -> Prop) :
  table_ok fail nlen -> 0 <= limit <= zlen hay -> limit < two64 ->
  (forall r, last_match hay limit r -> Q r m) ->
  wp (linear_scan hay limit needle nlen (nlen - 1) fail) m Q.
Proof.
  intros Ht Hlim Hl64 HQ. unfold linear_scan. set (S := fun t => byte_at hay (limit - 1 - t)).
  apply (wp_loop (fun '(i, j) m' => m' = m /\ 0 <= i <= limit /\ j < nlen /\
    longest_match pattern nlen S (limit - i) j /\
    forall i', i <= i' -> i' + nlen <= limit -> ~ matches hay i') (fun '(i, _) => Z.to_nat i)).
  - intros [i j] m' (-> & Hi & Hj & Hlong & Hno). destruct (Z.eqb_spec i 0) as [->|Hi0].
    { apply wp_ret, HQ. left. split; [done|]. intros i' Hi'. destruct (Z.le_gt_cases 0 i').
      - by apply Hno.
      - intros [? _]. lia. }
    rewrite wrap_small by lia. rewrite (zget_byte_at hay) by lia. apply wp_bind, wp_ret, wp_bind.
    eapply wp_fall_back; [done| |done|apply Hlong|]; [lia|]. intros k1 Hf Hk1.
    pose proof Hf as (_ & Hle1 & _). rewrite needle_at by lia. apply wp_bind, wp_ret.
    pose proof (longest_match_step pattern nlen S (limit - i) (byte_at hay (i - 1)) j k1) as Hstep.
    destruct Hstep as [Hs2 Hmax2]; [done|done|lia|unfold S; f_equal; lia|done|].
    replace (limit - i + 1) with (limit - (i - 1)) in * by lia.
    assert (forall j1, longest_match pattern nlen S (limit - (i - 1)) j1 -> j1 < nlen ->
      ~ suffix_match pattern S (limit - (i - 1)) nlen ->
      forall i', i - 1 <= i' -> i' + nlen <= limit -> ~ matches hay i') as Hgo.
    { intros j1 _ _ Hns i' Hi' Hl'. destruct (Z.eq_dec i' (i - 1)) as [->|]; [|apply Hno; lia].
      intros [_ Hm]%(matches_suffix hay limit); done. }
    assert (forall j1, suffix_match pattern S (limit - (i - 1)) j1 ->
      (forall j', suffix_match pattern S (limit - (i - 1)) j' -> j' <= nlen -> j' <= j1) -> j1 < nlen ->
      (0 <= i - 1 <= limit /\ j1 < nlen /\ longest_match pattern nlen S (limit - (i - 1)) j1 /\
       forall i', i - 1 <= i' -> i' + nlen <= limit -> ~ matches hay i')) as Hinv.
    { intros j1 Hs1 Hm1 Hlt1. assert (longest_match pattern nlen S (limit - (i - 1)) j1) as Hl1.
      { split; [done|]. intros j' Hj' Hlt'. apply Hm1; [done|lia]. }
      split; [lia|]. split; [done|]. split; [done|]. apply (Hgo j1); [done|done|].
      intros Hfull. specialize (Hm1 _ Hfull). lia. }
    destruct (byte_at hay (i - 1) =? pattern k1) eqn:Ec.
    + rewrite wrap_small by lia. destruct (Z.eqb_spec (k1 + 1) nlen) as [Efull|Hnf]; apply wp_ret.
      * apply HQ. right. rewrite Efull in Hs2. destruct Hs2 as [[? ?] HP].
        assert (matches hay (i - 1)) as Hm.
        { apply (matches_suffix hay limit); [lia|]. split; [lia|]. split; [lia|done]. }
        split; [done|]. split; [lia|]. intros i' Hi' Hl'. apply Hno; lia.
      * destruct (Hinv (k1 + 1) Hs2 Hmax2 ltac:(lia)) as (? & ? & ? & ?). split_and!; try done; lia.
    + apply wp_ret. destruct (Hinv k1 Hs2 Hmax2 ltac:(lia)) as (? & ? & ? & ?). split_and!; try done; lia.
  - split; [done|]. split; [lia|]. split; [lia|]. split.
    + replace (limit - limit) with 0 by lia. split; [split; [lia|intros; lia]|]. intros j' [? _]. lia.
    + intros. lia.
  - lia.
Qed.
End Linear.

(** ** Slices byte by byte *)
Lemma memcmp_0 (a b : list Z) : zlen a = zlen b -> memcmp a b = 0 <-> a = b.
Proof.
  revert b. induction a as [|x a IH]; intros [|y b] Hl; rewrite ?zlen_cons, ?zlen_nil in Hl;
    [done|zlen_facts; lia|zlen_facts; lia|]. cbn.
  destruct (Z.eqb_spec x y) as [->|Hne]; [rewrite IH by lia; naive_solver|].
  split; [lia|naive_solver].
Qed.

Lemma zget_slice (l : list Z) i n t : 0 <= i -> 0 <= t < n -> i + n <= zlen l ->
  zget (slice l i n) t = Some (byte_at l (i + t)).
Proof.
  intros Hi Ht Hl. rewrite <- zget_byte_at by lia. unfold zget, slice, ztake, zdrop.
  destruct (Z.leb_spec 0 t), (Z.leb_spec 0 (i + t)); try lia.
  rewrite lookup_take_lt by lia. rewrite lookup_drop. f_equal. lia.
Qed.

Lemma slice_ext (a b : list Z) i j n : 0 <= i -> 0 <= j -> 0 <= n -> i + n <= zlen a -> j + n <= zlen b ->
  slice a i n = slice b j n <-> forall t, 0 <= t < n -> byte_at a (i + t) = byte_at b (j + t).
Proof.
  intros Hi Hj Hn0 Ha Hb. split.
  - intros E t Ht. pose proof (zget_slice a i n t Hi Ht Ha) as E1. rewrite E, zget_slice in E1 by done.
    by injection E1.
  - intros H. apply list_eq. intros k. destruct (decide (Z.of_nat k < n)) as [Hk|Hk].
    + pose proof (zget_slice a i n (Z.of_nat k) Hi ltac:(lia) Ha) as E1.
      pose proof (zget_slice b j n (Z.of_nat k) Hj ltac:(lia) Hb) as E2.
      unfold zget in E1, E2. destruct (Z.leb_spec 0 (Z.of_nat k)); [|lia]. rewrite Nat2Z.id in E1, E2.
      rewrite E1, E2, H by lia. done.
    + pose proof (zlen_slice a i n Hi Hn0 Ha). pose proof (zlen_slice b j n Hj Hn0 Hb).
      unfold zlen in *. rewrite !lookup_ge_None_2 by lia. done.
Qed.

(** ** The backward scan *)
Section Scan.
Context {alloc : Allocator}.
Variable needle hay : list Z.
Variable length : Z.
Abbreviation nlen := (zlen needle).
Abbreviation matches := (matches needle hay).
Abbreviation last_match := (last_match needle hay length).
Hypothesis Hn : 2 <= nlen.
Hypothesis Hlen : nlen <= length.
Hypothesis Hhay : length <= zlen hay.
Hypothesis Hmax : zlen hay <= ccol_max_elem_count.

#[local] Ltac small := unfold ccol_max_elem_count, two64 in *; lia.

Lemma wp_rfind_linear limit m own F (Q : Z * bool -> mem -> Prop) :
  owns m own F -> 0 <= limit <= length ->
  (forall r m', owns m' own F -> CStringRfind.last_match needle hay limit r -> Q (r, true) m') ->
  (forall r m', owns m' own F -> Q (r, false) m') ->
  wp (cstring_rfind_linear hay limit needle nlen) m Q.
Proof.
  intros Ho Hl Hok Hno. unfold cstring_rfind_linear. rewrite wrap_small by small.
  assert (forall m' fail (Q' : Z -> mem -> Prop), nlen <= zlen fail ->
    (forall r, CStringRfind.last_match needle hay limit r -> Q' r m') ->
    wp (fail ← build_fail_table needle nlen (nlen - 1) fail;
        linear_scan hay limit needle nlen (nlen - 1) fail) m' Q') as Hscan.
  { intros m' fail Q' Hf HQ'. apply wp_bind, wp_build_fail_table; [small|done|]. intros fail' Ht.
    apply wp_linear_scan; [small|done|small|small|done]. }
  rewrite Z.gtb_ltb. destruct (Z.ltb_spec CSTRING_RFIND_STACK_TABLE_LEN nlen) as [Hbig|Hsmall].
  - destruct (Z.leb_spec nlen (SIZE_MAX `div` 8)) as [Hfit|]; [|by apply wp_bind, wp_ret, wp_ret, (Hno _ m)].
    assert (nlen * 8 <= SIZE_MAX) as Hfit8.
    { unfold SIZE_MAX in *. change (18446744073709551615 `div` 8) with 2305843009213693951 in Hfit. lia. }
    rewrite wrap_small by (unfold SIZE_MAX, two64 in *; lia).
    apply wp_bind. eapply wp_alloc_owns; [done|lia|..].
    + intros m' Ho' _. apply wp_ret. by apply Hno.
    + intros b m' Ho' Hb HbF _ _.
      pose proof (Hscan m' (replicate (Z.to_nat nlen) None) (fun r m'' => m'' = m' /\ CStringRfind.last_match needle hay limit r)) as Hs.
      rewrite zlen_replicate in Hs by lia. specialize (Hs ltac:(lia) ltac:(done)).
      unfold wp, mbind, M_bind in Hs. unfold wp, mbind, M_bind.
      destruct (build_fail_table _ _ _ _ m') as [fail m1| | |]; [|done..].
      destruct (linear_scan _ _ _ _ _ _ m1) as [r m2| | |]; [|done..]. destruct Hs as [-> Hr].
      apply (wp_bind (_ccol_mem_free (b_id b)) (fun _ => mret (r, true)) m' Q).
      eapply wp_free_owns; [done|set_solver|]. intros m'' Ho''. apply wp_ret, Hok; [|done].
      apply (owns_change _ _ _ _ Ho''). set_solver.
  - pose proof (Hscan m (replicate (Z.to_nat CSTRING_RFIND_STACK_TABLE_LEN) None)
      (fun r m'' => m'' = m /\ CStringRfind.last_match needle hay limit r)) as Hs.
    rewrite zlen_replicate in Hs by done. specialize (Hs ltac:(lia) ltac:(done)).
    unfold wp, mbind, M_bind in Hs. unfold wp, mbind, M_bind.
    destruct (build_fail_table _ _ _ _ m) as [fail m1| | |]; [|done..].
    destruct (linear_scan _ _ _ _ _ _ m1) as [r m2| | |]; [|done..]. destruct Hs as [-> Hr].
    by apply Hok.
Qed.

(** Every start from [pos] on has been ruled out. *)
Definition none_from (pos : Z) : Prop := forall i, pos <= i -> i + nlen <= length -> ~ matches i.

Definition scan_ok (sc : cstring_rfind_scan) : Prop :=
  sc_hay sc = hay /\ sc_length sc = length /\ sc_needle sc = needle /\ sc_nlen sc = nlen.

(** A piece of the scan settles the answer, or rules out one more stretch. *)
Definition scanned (own F : gset nat) (pos : Z) (r : option Z) (sc : cstring_rfind_scan) (m : mem) : Prop :=
  owns m own F /\ match r with Some r => last_match r | None => none_from pos /\ scan_ok sc end.

Lemma none_from_pred pos : none_from (pos + 1) -> ~ matches pos -> none_from pos.
Proof. intros H Hm i Hi Hl. destruct (Z.eq_dec i pos) as [->|]; [done|]. apply H; lia. Qed.

Lemma last_match_below st r :
  none_from st -> st + nlen <= length ->
  CStringRfind.last_match needle hay (st + nlen - 1) r -> last_match r.
Proof.
  intros Hno Hst [[-> H]|(Hm & Hr & H)]; [left|right].
  - split; [done|]. intros i Hi. destruct (Z.le_gt_cases st i); [by apply Hno|apply H; lia].
  - split; [done|]. split; [|intros i Hi Hl; destruct (Z.le_gt_cases st i); [by apply Hno|apply H; lia]].
    lia.
Qed.

(** What the filter looks at. *)
Definition ends_match (st : Z) : bool :=
  (byte_at hay st =? byte_at needle 0) && (byte_at hay (st + (nlen - 1)) =? byte_at needle (nlen - 1)).

Lemma ends_mismatch st : ends_match st = false -> ~ matches st.
Proof.
  intros He [_ Hm]. pose proof (Hm 0 ltac:(lia)) as H0. pose proof (Hm (nlen - 1) ltac:(lia)) as H1.
  unfold ends_match in He. rewrite Z.add_0_r in H0. by rewrite H0, H1, !Z.eqb_refl in He.
Qed.

Lemma wp_candidate sc st m own F (Q : option Z * cstring_rfind_scan -> mem -> Prop) :
  owns m own F -> scan_ok sc -> 0 <= st -> st + nlen <= length ->
  ends_match st = true -> none_from (st + 1) ->
  (forall r sc' m', scanned own F st r sc' m' -> Q (r, sc') m') ->
  wp (cstring_rfind_candidate sc st) m Q.
Proof.
  intros Ho (E1 & E2 & E3 & E4) Hst Hfit He Hno HQ. unfold cstring_rfind_candidate.
  rewrite E1, E3, E4, (wrap_small (st + 1)), (wrap_small (nlen - 2)) by small.
  apply wp_bind, wp_read_bytes; [lia..|]. apply wp_bind, wp_read_bytes; [lia..|].
  assert (memcmp (slice hay (st + 1) (nlen - 2)) (slice needle 1 (nlen - 2)) = 0 <-> matches st) as Hcmp.
  { rewrite memcmp_0 by (rewrite !zlen_slice; lia). rewrite slice_ext by lia.
    apply andb_true_iff in He as [He0%Z.eqb_eq He1%Z.eqb_eq]. split.
    - intros H. split; [done|]. intros t Ht.
      destruct (Z.eq_dec t 0) as [->|]; [by rewrite Z.add_0_r|].
      destruct (Z.eq_dec t (nlen - 1)) as [->|]; [done|].
      specialize (H (t - 1) ltac:(lia)). replace (st + 1 + (t - 1)) with (st + t) in H by lia.
      by replace (1 + (t - 1)) with t in H by lia.
    - intros [_ H] t Ht. rewrite <- Z.add_assoc. apply H. lia. }
  destruct (Z.eqb_spec (memcmp (slice hay (st + 1) (nlen - 2)) (slice needle 1 (nlen - 2))) 0) as [Hz|Hnz].
  { apply wp_ret, HQ. split; [done|]. right. split; [by apply Hcmp|]. split; [done|].
    intros i Hi. apply Hno. lia. }
  assert (none_from st) as Hno' by (apply none_from_pred; [done|by rewrite <- Hcmp]).
  destruct (_ && _).
  - cbn [sc_hay set_charged sc_nlen sc_needle]. rewrite E1, E3, E4, (wrap_small (st + nlen)), (wrap_small (st + nlen - 1)) by small.
    apply wp_bind. apply (wp_rfind_linear _ _ own F); [done|lia| |].
    + intros r m' Ho' Hr. apply wp_ret, HQ. split; [done|]. by eapply last_match_below.
    + intros r m' Ho'. apply wp_ret, HQ. done.
  - apply wp_ret, HQ. done.
Qed.
(** Sixteen lanes of the filter at [b]. *)
Definition lanes_ok (b : Z) (hit : list bool) : Prop :=
  zlen hit = 16 /\ forall k, 0 <= k < 16 -> zget hit k = Some (ends_match (b + k)).

Lemma wp_filter_lanes b m (Q : list bool -> mem -> Prop) :
  0 <= b -> b + 16 + (nlen - 1) <= length ->
  (forall hit, lanes_ok b hit -> Q hit m) ->
  wp (filter_lanes hay b (nlen - 1) (byte_at needle 0) (byte_at needle (nlen - 1))) m Q.
Proof.
  intros Hb Hfit HQ. unfold filter_lanes. rewrite wrap_small by small.
  apply wp_bind, wp_read_bytes; [lia..|]. apply wp_bind, wp_read_bytes; [lia..|].
  apply wp_ret, HQ. split.
  - unfold zlen. rewrite length_zip_with. pose proof (zlen_slice hay b 16 Hb ltac:(lia) ltac:(lia)).
    pose proof (zlen_slice hay (b + (nlen - 1)) 16 ltac:(lia) ltac:(lia) ltac:(lia)). unfold zlen in *. lia.
  - intros k Hk. pose proof (zget_slice hay b 16 k Hb ltac:(lia) ltac:(lia)) as E1.
    pose proof (zget_slice hay (b + (nlen - 1)) 16 k ltac:(lia) ltac:(lia) ltac:(lia)) as E2.
    unfold zget in *. destruct (Z.leb_spec 0 k); [|lia]. rewrite lookup_zip_with, E1, E2. cbn.
    unfold ends_match. do 2 f_equal. f_equal. f_equal. lia.
Qed.

Lemma any_false (v : list bool) k x : cstring_bytes16_any v = false -> zget v k = Some x -> x = false.
Proof.
  unfold cstring_bytes16_any, zget. destruct (0 <=? k); [|done]. generalize (Z.to_nat k). clear.
  induction v as [|y v IH]; intros n H Hk; [done|]. cbn in H. apply orb_false_iff in H as [Hy Hv].
  destruct n as [|n]; cbn in Hk; [by injection Hk as <-|by eapply IH].
Qed.

Lemma none_from_lanes b hit : lanes_ok b hit -> cstring_bytes16_any hit = false ->
  none_from (b + 16) -> none_from b.
Proof.
  intros [_ Hl] Hany Hno i Hi Hfit. destruct (Z.le_gt_cases (b + 16) i); [by apply Hno|].
  apply ends_mismatch. specialize (Hl (i - b) ltac:(lia)). replace (b + (i - b)) with i in Hl by lia.
  by eapply any_false.
Qed.

(** The filter of four vectors at once misses nothing. *)
Lemma any_or (u v : list bool) : zlen u = 16 -> zlen v = 16 ->
  zlen (zip_with orb u v) = 16 /\
  (cstring_bytes16_any (zip_with orb u v) = false ->
   cstring_bytes16_any u = false /\ cstring_bytes16_any v = false).
Proof.
  intros Hu Hv. split.
  - unfold zlen in *. rewrite length_zip_with. lia.
  - assert (List.length u = List.length v) as Hl by (unfold zlen in *; lia). clear -Hl.
    unfold cstring_bytes16_any. revert v Hl. induction u as [|x u IH]; intros [|y v] Hl; try done.
    cbn. injection Hl as Hl. specialize (IH v Hl).
    destruct x, y; cbn; done || exact IH.
Qed.

Lemma wp_rfind_block sc b hit m own F (Q : option Z * cstring_rfind_scan -> mem -> Prop) :
  owns m own F -> scan_ok sc -> 0 <= b -> b + 16 + (nlen - 1) <= length ->
  lanes_ok b hit -> none_from (b + 16) ->
  (forall r sc' m', scanned own F b r sc' m' -> Q (r, sc') m') ->
  wp (cstring_rfind_block sc b hit) m Q.
Proof.
  intros Ho Hsc Hb Hfit [_ Hl] Hno HQ. unfold cstring_rfind_block.
  apply (wp_loop (fun '(k, sc) m' => owns m' own F /\ scan_ok sc /\ 0 <= k <= 16 /\ none_from (b + k))
    (fun '(k, _) => Z.to_nat k)); [|by split_and!|cbn; lia].
  clear sc m Ho Hsc Hno. intros [k sc] m (Ho & Hsc & Hk & Hno). destruct (Z.eqb_spec k 0) as [->|Hk0].
  { apply wp_ret, HQ. split; [done|]. split; [|done]. by rewrite Z.add_0_r in Hno. }
  rewrite (wrap_small (k - 1)) by small. rewrite Hl by lia. apply wp_bind, wp_ret.
  assert (forall sc' m', owns m' own F -> scan_ok sc' -> none_from (b + (k - 1)) ->
    (owns m' own F /\ scan_ok sc' /\ 0 <= k - 1 <= 16 /\ none_from (b + (k - 1))) /\
    (Z.to_nat (k - 1) < Z.to_nat k)%nat) as Hgo.
  { intros sc' m' ? ? ?. split_and!; try done; lia. }
  destruct (ends_match (b + (k - 1))) eqn:He.
  - rewrite wrap_small by small. apply wp_bind.
    eapply wp_candidate; [done|done|lia|lia|done| |].
    + by replace (b + (k - 1) + 1) with (b + k) by lia.
    + intros r sc' m' [Ho' Hr]. destruct r as [r|]; apply wp_ret.
      * apply HQ. done.
      * destruct Hr as [? ?]. by apply Hgo.
  - apply wp_ret, Hgo; [done|done|]. apply none_from_pred; [|by apply ends_mismatch].
    by replace (b + (k - 1) + 1) with (b + k) by lia.
Qed.

Lemma wp_skip_test pos m (Q : bool -> mem -> Prop) :
  16 <= pos -> pos + (nlen - 1) <= length -> none_from pos ->
  (forall skip : bool, (skip = true -> 64 <= pos /\ none_from (pos - 64)) -> Q skip m) ->
  wp (if pos >=? 64
      then
        let b := pos ⊖ 64 in
        m0 ← filter_lanes hay b (nlen - 1) (byte_at needle 0) (byte_at needle (nlen - 1));
        m1 ← filter_lanes hay (b ⊕ 16) (nlen - 1) (byte_at needle 0) (byte_at needle (nlen - 1));
        m2 ← filter_lanes hay (b ⊕ 32) (nlen - 1) (byte_at needle 0) (byte_at needle (nlen - 1));
        m3 ← filter_lanes hay (b ⊕ 48) (nlen - 1) (byte_at needle 0) (byte_at needle (nlen - 1));
        let any := zip_with orb (zip_with orb (zip_with orb m0 m1) m2) m3 in
        mret (negb (cstring_bytes16_any any))
      else mret false) m Q.
Proof.
  intros Hpos Hfit Hno HQ. rewrite Z.geb_leb. destruct (Z.leb_spec 64 pos) as [H64|]; [|by apply wp_ret, HQ].
  cbv zeta. rewrite (wrap_small (pos - 64)), (wrap_small (pos - 64 + 16)), (wrap_small (pos - 64 + 32)),
    (wrap_small (pos - 64 + 48)) by small.
  apply wp_bind, wp_filter_lanes; [lia|lia|]. intros h0 L0.
  apply wp_bind, wp_filter_lanes; [lia|lia|]. intros h1 L1.
  apply wp_bind, wp_filter_lanes; [lia|lia|]. intros h2 L2.
  apply wp_bind, wp_filter_lanes; [lia|lia|]. intros h3 L3.
  apply wp_ret, HQ. intros Hany. split; [done|]. apply negb_true_iff in Hany.
  destruct (any_or h0 h1) as [Z1 A1]; [apply L0|apply L1|].
  destruct (any_or (zip_with orb h0 h1) h2) as [Z2 A2]; [done|apply L2|].
  destruct (any_or (zip_with orb (zip_with orb h0 h1) h2) h3) as [_ A3]; [done|apply L3|].
  destruct (A3 Hany) as [B3 C3]. destruct (A2 B3) as [B2 C2]. destruct (A1 B2) as [C0 C1].
  apply (none_from_lanes _ h0); [done..|]. apply (none_from_lanes _ h1); [done..|].
  replace (pos - 64 + 16 + 16) with (pos - 64 + 32) by lia. apply (none_from_lanes _ h2); [done..|].
  replace (pos - 64 + 32 + 16) with (pos - 64 + 48) by lia. apply (none_from_lanes _ h3); [done..|].
  by replace (pos - 64 + 48 + 16) with pos by lia.
Qed.

Lemma wp_vector_loop fuel sc pos m own F (Q : option Z * (Z * cstring_rfind_scan) -> mem -> Prop) :
  owns m own F -> scan_ok sc -> 0 <= pos -> pos + (nlen - 1) <= length -> none_from pos ->
  (Z.to_nat pos < fuel)%nat ->
  (forall r pos' sc' m', scanned own F pos' r sc' m' -> 0 <= pos' -> pos' + (nlen - 1) <= length ->
    Q (r, (pos', sc')) m') ->
  wp (rfind_vector_loop fuel sc (nlen - 1) (byte_at needle 0) (byte_at needle (nlen - 1)) pos) m Q.
Proof.
  intros Ho Hsc Hpos Hfit Hno Hfuel HQ. unfold rfind_vector_loop.
  apply (wp_loop (fun '(pos, sc) m' => owns m' own F /\ scan_ok sc /\ 0 <= pos /\
    pos + (nlen - 1) <= length /\ none_from pos) (fun '(pos, _) => Z.to_nat pos)); [|by split_and!|done].
  clear sc pos m Ho Hsc Hpos Hfit Hno Hfuel. intros [pos sc] m (Ho & Hsc & Hpos & Hfit & Hno).
  rewrite Z.geb_leb. destruct (Z.leb_spec 16 pos) as [H16|]; cbn [negb]; [|by apply wp_ret, HQ].
  destruct Hsc as (E1 & Hsc'). rewrite E1. apply wp_bind, wp_skip_test; [done..|].
  assert (scan_ok sc) as Hsc by by split.
  intros skip Hskip. destruct skip.
  { destruct (Hskip eq_refl) as [H64 Hno']. rewrite wrap_small by small. apply wp_ret.
    split_and!; try done; lia. }
  rewrite (wrap_small (pos - 16)) by small. apply wp_bind, wp_filter_lanes; [lia|lia|]. intros hit Hl.
  assert (none_from (pos - 16 + 16)) as Hno16 by (by replace (pos - 16 + 16) with pos by lia).
  destruct (cstring_bytes16_any hit) eqn:Hany.
  - apply wp_bind. eapply wp_rfind_block; [done|done|lia|lia|done|done|].
    intros r sc' m' Hr. destruct r as [r|]; apply wp_ret; [apply HQ; [done|lia|lia]|].
    destruct Hr as [Ho' [Hno' Hsc2]]. split_and!; try done; lia.
  - apply wp_ret. pose proof (none_from_lanes _ _ Hl Hany Hno16). split_and!; try done; lia.
Qed.

Lemma wp_tail_loop fuel sc pos m own F (Q : option Z -> mem -> Prop) :
  owns m own F -> scan_ok sc -> 0 <= pos -> pos + (nlen - 1) <= length -> none_from pos ->
  (Z.to_nat pos < fuel)%nat ->
  (forall r m', owns m' own F -> last_match (default ccol_invalid_size r) -> Q r m') ->
  wp (rfind_tail_loop fuel sc (nlen - 1) (byte_at needle 0) (byte_at needle (nlen - 1)) pos) m Q.
Proof.
  intros Ho Hsc Hpos Hfit Hno Hfuel HQ. unfold rfind_tail_loop.
  apply (wp_loop (fun '(pos, sc) m' => owns m' own F /\ scan_ok sc /\ 0 <= pos /\
    pos + (nlen - 1) <= length /\ none_from pos) (fun '(pos, _) => Z.to_nat pos)); [|by split_and!|done].
  clear sc pos m Ho Hsc Hpos Hfit Hno Hfuel. intros [pos sc] m (Ho & Hsc & Hpos & Hfit & Hno).
  destruct (Z.eqb_spec pos 0) as [->|Hp0].
  { apply wp_ret, HQ; [done|]. left. split; [done|]. intros i Hi Hm. pose proof Hm as [? _]. by apply (Hno i). }
  pose proof Hsc as (E1 & _). rewrite (wrap_small (pos - 1)) by small. rewrite E1.
  rewrite (zget_byte_at _ (pos - 1)) by lia. apply wp_bind, wp_ret.
  assert (forall sc' m', owns m' own F -> scan_ok sc' -> none_from (pos - 1) ->
    (owns m' own F /\ scan_ok sc' /\ 0 <= pos - 1 /\ pos - 1 + (nlen - 1) <= length /\ none_from (pos - 1)) /\
    (Z.to_nat (pos - 1) < Z.to_nat pos)%nat) as Hgo.
  { intros sc' m' ? ? ?. split_and!; try done; lia. }
  assert (ends_match (pos - 1) = false -> none_from (pos - 1)) as Hskip.
  { intros He. apply none_from_pred; [by replace (pos - 1 + 1) with pos by lia|by apply ends_mismatch]. }
  unfold ends_match in Hskip at 1.
  destruct (byte_at hay (pos - 1) =? byte_at needle 0) eqn:E0; [|apply wp_ret, Hgo; auto].
  rewrite wrap_small by small. rewrite zget_byte_at by lia. apply wp_bind, wp_ret.
  destruct (byte_at hay (pos - 1 + (nlen - 1)) =? byte_at needle (nlen - 1)) eqn:El; [|apply wp_ret, Hgo; auto].
  apply wp_bind. eapply wp_candidate; [done|done|lia|lia| | |].
  - unfold ends_match. by rewrite E0, El.
  - by replace (pos - 1 + 1) with pos by lia.
  - intros r sc' m' [Ho' Hr]. destruct r as [r|]; apply wp_ret; [by apply HQ|].
    destruct Hr as [? ?]. by apply Hgo.
Qed.
End Scan.

(** ** The whole search *)
Section Rfind.
Context {alloc : Allocator}.

(** The offset of the last occurrence, or the invalid size. *)
Definition last_occurrence (needle text : list Z) (r : Z) : Prop :=
  (r = ccol_invalid_size /\ forall j, ~ occurs needle text j) \/
  (occurs needle text r /\ forall j, r < j -> ~ occurs needle text j).

Lemma byte_at_app (a b : list Z) i : 0 <= i < zlen a -> byte_at (a ++ b) i = byte_at a i.
Proof. intros Hi. unfold byte_at. by rewrite zget_app_l by lia. Qed.

Lemma occurs_matches needle text rest i :
  occurs needle text i <-> matches needle (text ++ rest) i /\ i + zlen needle <= zlen text.
Proof.
  zlen_facts. split.
  - intros (x & y & -> & <-). rewrite !zlen_app. zlen_facts. split; [|lia]. split; [lia|].
    intros t Ht. unfold byte_at. rewrite <- !app_assoc, zget_app_r by lia.
    replace (zlen x + t - zlen x) with t by lia. by rewrite zget_app_l by lia.
  - intros [[Hi0 Hm] Hfit]. exists (ztake i text), (zdrop (i + zlen needle) text).
    split; [|rewrite zlen_ztake; lia].
    assert (slice text i (zlen needle) = slice needle 0 (zlen needle)) as Hs.
    { apply slice_ext; [lia|lia|lia|lia|lia|]. intros t Ht. rewrite Z.add_0_l, <- Hm by done.
      symmetry. apply byte_at_app. lia. }
    assert (slice needle 0 (zlen needle) = needle) as E by (apply ztake_all; lia). rewrite E in Hs.
    rewrite <- Hs at 1. unfold slice. rewrite <- (ztake_zdrop i text) at 1. f_equal.
    rewrite <- (ztake_zdrop (zlen needle) (zdrop i text)) at 1. f_equal. apply zdrop_zdrop; lia.
Qed.

Lemma occurs_zdrop needle text pos j :
  0 <= pos <= zlen text -> 0 <= j -> occurs needle (zdrop pos text) j <-> occurs needle text (pos + j).
Proof.
  intros Hpos Hj. split.
  - intros (x & y & E & <-). exists (ztake pos text ++ x), y. split.
    + rewrite <- (ztake_zdrop pos text) at 1. by rewrite E, <- app_assoc.
    + rewrite zlen_app, zlen_ztake; lia.
  - intros (x & y & -> & Hx). exists (zdrop pos x), y. split; [|rewrite zlen_zdrop; lia].
    unfold zdrop. rewrite drop_app_le; [done|]. unfold zlen in *. lia.
Qed.

Lemma last_match_occurrence needle text rest r :
  last_match needle (text ++ rest) (zlen text) r -> last_occurrence needle text r.
Proof.
  intros [[-> H]|(Hm & Hfit & H)]; [left|right].
  - split; [done|]. intros j [Hj Hf]%(occurs_matches _ _ rest). by eapply H.
  - split; [by apply (occurs_matches _ _ rest)|]. intros j Hj [Hm' Hf]%(occurs_matches _ _ rest).
    by eapply H.
Qed.

Lemma occurs_one c text j : occurs [c] text j <-> zget text j = Some c.
Proof.
  split.
  - intros (x & y & -> & <-). by apply zget_app_mid.
  - intros H. exists (ztake j text), (zdrop (j + 1) text). pose proof (zget_Some_lt _ _ _ H).
    split; [by apply zget_split|rewrite zlen_ztake; lia].
Qed.

Lemma memrchr_last text rest c :
  last_occurrence [c] text (default ccol_invalid_size (memrchr (text ++ rest) c (length text))).
Proof.
  assert (forall n, (n <= length text)%nat ->
    match memrchr (text ++ rest) c n with
    | Some r => 0 <= r < Z.of_nat n /\ zget text r = Some c /\
        forall j, r < j < Z.of_nat n -> zget text j <> Some c
    | None => forall j, j < Z.of_nat n -> zget text j <> Some c
    end) as H.
  { intros n. induction n as [|n IH]; intros Hn; cbn [memrchr].
    - intros j Hj E. apply zget_Some_lt in E. lia.
    - rewrite lookup_app_l by lia. specialize (IH ltac:(lia)). case_bool_decide as Hc.
      + split; [lia|]. split; [|intros; lia]. unfold zget.
        destruct (Z.leb_spec 0 (Z.of_nat n)); [|lia]. by rewrite Nat2Z.id.
      + assert (zget text (Z.of_nat n) <> Some c) as Hne.
        { unfold zget. destruct (Z.leb_spec 0 (Z.of_nat n)); [|lia]. by rewrite Nat2Z.id. }
        destruct (memrchr _ _ n) as [r|].
        * destruct IH as (Hr & E & Hlast). split; [lia|]. split; [done|]. intros j Hj.
          destruct (Z.eq_dec j (Z.of_nat n)) as [->|]; [done|]. apply Hlast. lia.
        * intros j Hj. destruct (Z.eq_dec j (Z.of_nat n)) as [->|]; [done|]. apply IH. lia. }
  specialize (H _ (le_n _)). destruct (memrchr _ _ _) as [r|]; cbn; [right|left].
  - destruct H as (Hr & E & Hlast). split; [by apply occurs_one|]. intros j Hj Ho%occurs_one.
    pose proof (zget_Some_lt _ _ _ Ho). apply (Hlast j); [unfold zlen in *; lia|done].
  - split; [done|]. intros j Ho%occurs_one. pose proof (zget_Some_lt _ _ _ Ho).
    apply (H j); [unfold zlen in *; lia|done].
Qed.

Lemma nil_last text : last_occurrence [] text (zlen text).
Proof.
  right. split; [by exists text, []; rewrite app_nil_r|]. intros j Hj [_ H]%occurs_range.
  change (zlen (@nil Z)) with 0 in H. lia.
Qed.

Lemma wp_rfind_backward s d t u m own F (Q : Z -> mem -> Prop) :
  repr s d t -> owns m own F ->
  (forall r m', owns m' own F -> last_occurrence u t r -> Q r m') ->
  wp (cstring_rfind_backward s u) m Q.
Proof.
  intros Hr Ho HQ. pose proof (repr_bounds _ _ _ Hr) as Hb.
  destruct Hr as (Hd & _ & _ & Hl & _ & _ & Hlen & (rest & Hrest) & _).
  unfold cstring_rfind_backward. rewrite Hd. apply wp_bind, wp_ret. cbv zeta. zlen_facts.
  destruct (Z.eqb_spec (zlen u) 0) as [Hu0|].
  { apply wp_ret, HQ; [done|]. apply zlen_0_nil in Hu0 as ->. rewrite <- Hl. apply nil_last. }
  rewrite Z.gtb_ltb. destruct (Z.ltb_spec (s_length s) (zlen u)).
  { apply wp_ret, HQ; [done|]. left. split; [done|]. intros j Hj%occurs_range. lia. }
  destruct (Z.eqb_spec (zlen u) 1) as [Hu1|].
  { destruct u as [|c [|c' u]]; rewrite ?zlen_cons, ?zlen_nil in *; try (zlen_facts; lia).
    apply wp_bind, wp_ret, wp_ret, HQ; [done|]. rewrite Hrest, <- Hl. unfold zlen. rewrite Nat2Z.id.
    apply memrchr_last. }
  assert (zlen (b_bytes d) <= ccol_max_elem_count) as Hmax by lia.
  assert (s_length s <= zlen (b_bytes d)) as Hin by lia.
  assert (forall r, last_match u (b_bytes d) (s_length s) r -> last_occurrence u t r) as Hlast.
  { intros r Hr. apply (last_match_occurrence _ _ (0 :: rest)). by rewrite <- Hrest, Hl. }
  unfold ccol_max_elem_count in *. rewrite (wrap_small (zlen u - 1)) by (unfold two64; lia).
  rewrite (zget_byte_at u 0), (zget_byte_at u (zlen u - 1)) by lia. apply wp_bind, wp_ret, wp_bind, wp_ret.
  rewrite (wrap_small (s_length s - (zlen u - 1))) by (unfold two64; lia). apply wp_bind.
  apply (wp_vector_loop u (b_bytes d) (s_length s)) with own F; try done || lia.
  - intros i Hi Hfit. lia.
  - intros r pos sc m' [Ho' Hr] Hpos Hfit. destruct r as [r|]; [by apply wp_ret, HQ; auto|].
    destruct Hr as [Hno Hsc]. apply wp_bind.
    apply (wp_tail_loop u (b_bytes d) (s_length s)) with own F; try done || lia.
    intros r m'' Ho'' Hr. apply wp_ret, HQ; auto.
Qed.

(** C22: [cstring_rfind] gives the offset of the last occurrence of the
    needle, overlapping ones and those of the empty needle included, or the
    invalid size when there is none: by the forward search of a short
    string, the vector scan of a long one and the search with a failure
    table alike, with no access out of bounds, and it gives back the table
    it may have allocated; the allocator refusing it changes nothing. *)
Theorem string_rfind s d t p u m own F :
  repr s d t -> arg_is s d t p u -> owns m own F ->
  wp (cstring_rfind (Some s) (Some p)) m
    (fun r m' => owns m' own F /\ last_occurrence u t r).
Proof.
  intros Hr Ha Ho. pose proof (repr_bounds _ _ _ Hr) as Hb.
  pose proof Hr as (Hd & _ & _ & Hl & _ & _ & Hlen & (rest & Hrest) & _).
  unfold cstring_rfind. apply wp_bind, wp_ret, wp_bind, (arg_text_run s d t p u); [done..|].
  destruct (s_length s >=? CSTRING_RFIND_SHORT).
  { by eapply wp_rfind_backward. }
  rewrite Hd. apply wp_bind, wp_ret. destruct u as [|c [|c' u]].
  - apply wp_ret. split; [done|]. rewrite <- Hl. apply nil_last.
  - apply wp_ret. split; [done|]. rewrite Hrest, <- Hl. unfold zlen. rewrite Nat2Z.id. apply memrchr_last.
  - set (w := c :: c' :: u) in *. assert (2 <= zlen w) as Hw by (unfold w; rewrite !zlen_cons; zlen_facts; lia).
    clearbody w. clear c c' u.
    apply (wp_loop (fun '(pos, last) m' => m' = m /\ 0 <= pos <= s_length s /\
      ((last = ccol_invalid_size /\ forall j, j < pos -> ~ occurs w t j) \/
       (occurs w t last /\ forall j, last < j < pos -> ~ occurs w t j)))
      (fun '(pos, _) => Z.to_nat (s_length s - pos))).
    + intros [pos last] m' (-> & Hpos & Hinv). apply wp_bind, (wp_strstr_at s d t); [done|lia|].
      pose proof (strstr_spec (zdrop pos t) w) as Hs.
      destruct (strstr (zdrop pos t) w) as [i|]; cbn [fmap option_fmap option_map].
      * destruct Hs as [Hoc Hfirst]. pose proof (occurs_range _ _ _ Hoc) as [Hi0 Hi].
        rewrite zlen_zdrop in Hi by lia. apply wp_ret. unfold ccol_max_elem_count in *.
        rewrite wrap_small by (unfold two64; lia).
        split; [|lia]. split; [done|]. split; [lia|]. right.
        split; [by apply occurs_zdrop; [lia|lia|]|intros; lia].
      * apply wp_ret. split; [done|].
        assert (forall j, pos <= j -> ~ occurs w t j) as Hrest'.
        { intros j Hj Hoj. apply (Hs (j - pos)). apply occurs_zdrop; [lia|lia|].
          by replace (pos + (j - pos)) with j by lia. }
        destruct Hinv as [[-> Hn]|[Hoc Hn]]; [left|right]; (split; [done|]).
        -- intros j. destruct (Z.le_gt_cases pos j); auto.
        -- intros j Hj. destruct (Z.le_gt_cases pos j); auto.
    + split; [done|]. split; [lia|]. left. split; [done|]. intros j Hj Hoj.
      apply occurs_range in Hoj. lia.
    + lia.
Qed.
End Rfind.

(** ** Concrete searches

    A text of 300 letters [a]; a needle of 40 of them around a [b] spends
    the budget of the scan, a needle of 200 of them is found at the last
    start possible. *)
Section Witnesses.
Definition long_text : list Z := replicate 300 97.
Definition long_buf : block := Block 1 (long_text ++ 0 :: replicate 211 170).
Definition long_str : cstring := Cstring 0 (Some long_buf) 300 512 CVector.procs_default.
Definition long_mem : mem := Mem 2 {[0%nat; 1%nat]}.
Definition absent_needle : list Z := replicate 20 97 ++ 98 :: replicate 20 97.

Lemma long_str_repr : repr long_str long_buf long_text.
Proof.
  split; [done|]. split; [done|]. split; [by apply Forall_replicate|]. split; [done|].
  split; [done|]. split; [exists 9; split; [lia|done]|]. split; [done|]. split; [|done].
  by exists (replicate 211 170).
Qed.

Lemma long_mem_owns : owns long_mem {[0%nat; 1%nat]} ∅.
Proof. split; cbn; [set_solver|set_solver|]. intros k Hk. cbn in *. set_solver by lia. Qed.

Example rfind_runs :
  let alloc := grant_up_to 4096 in
  let run n := match cstring_rfind (Some long_str) (Some (Foreign (n ++ [0]))) long_mem with
               | Done r _ => r
               | _ => -1
               end in
  run (replicate 200 97) = 100 /\ run absent_needle = ccol_invalid_size /\ run [] = 300 /\ run [97] = 299.
Proof. vm_compute. done. Qed.

Lemma string_rfind_witness :
  let alloc := grant_up_to 4096 in
  wp (cstring_rfind (Some long_str) (Some (Foreign (absent_needle ++ [0])))) long_mem
    (fun r m' => owns m' {[0%nat; 1%nat]} ∅ /\ last_occurrence absent_needle long_text r).
Proof.
  intros alloc.
  apply (string_rfind long_str long_buf long_text (Foreign (absent_needle ++ [0])) absent_needle).
  - apply long_str_repr.
  - split; [|by exists []]. apply Forall_app_2; [by apply Forall_replicate|].
    constructor; [done|by apply Forall_replicate].
  - apply long_mem_owns.
Defined.
End Witnesses.
