(* ===== verification/CBstKeys.v ===== *)
(** * Keys of the tree map ([src/cbstmap.c])

    How a map compares two keys: [compare_keys], which dispatches on the key
    type and handles keys of different sizes, and the typed comparison a
    descent makes for integer keys, chosen once when the map is created. *)
From S2P Require Import Prelude Memory Values.

Definition cbmap_key_alignment (type : ccol_data_type) : Z :=
  match type with
  | ccol_char | ccol_signed_char | ccol_unsigned_char | ccol_string => 1
  | ccol_short | ccol_unsigned_short => 2
  | ccol_int | ccol_unsigned_int => 4
  | ccol_long | ccol_unsigned_long => 8
  | ccol_long_long | ccol_unsigned_long_long => 8
  | ccol_float => 4
  | ccol_double => 8
  | ccol_long_double => 16
  | ccol_pointer => 8
  | ccol_other_types => 16
  end.

(** [((n) + (a) - 1u) & ~(size_t)((a) - 1u)]. *)
Definition CBMAP_ALIGN_UP_TO (n a : Z) : Z :=
  Z.land ((n ⊕ a) ⊖ 1) (SIZE_MAX - (a - 1)).
Definition CBMAP_NODE_VAL_ALIGN : Z := 16.

Inductive cmp_kind_t :=
  | CBMAP_CMP_GENERIC | CBMAP_CMP_CHAR
  | CBMAP_CMP_S8 | CBMAP_CMP_S16 | CBMAP_CMP_S32 | CBMAP_CMP_S64
  | CBMAP_CMP_U8 | CBMAP_CMP_U16 | CBMAP_CMP_U32 | CBMAP_CMP_U64.

Definition custom_proc_t : Type := option (list Z -> list Z -> Z).

Definition signed_kind (width : Z) : cmp_kind_t :=
  if width =? 1 then CBMAP_CMP_S8 else if width =? 2 then CBMAP_CMP_S16
  else if width =? 4 then CBMAP_CMP_S32 else if width =? 8 then CBMAP_CMP_S64
  else CBMAP_CMP_GENERIC.
Definition unsigned_kind (width : Z) : cmp_kind_t :=
  if width =? 1 then CBMAP_CMP_U8 else if width =? 2 then CBMAP_CMP_U16
  else if width =? 4 then CBMAP_CMP_U32 else if width =? 8 then CBMAP_CMP_U64
  else CBMAP_CMP_GENERIC.

Definition cbmap_cmp_kind (key_type : ccol_data_type) (custom_proc : custom_proc_t) : cmp_kind_t :=
  match custom_proc with
  | Some _ => CBMAP_CMP_GENERIC
  | None =>
      let width := ccol_fixed_width_data_type_size key_type in
      match key_type with
      | ccol_char => CBMAP_CMP_CHAR
      | ccol_signed_char | ccol_short | ccol_int | ccol_long | ccol_long_long => signed_kind width
      | ccol_unsigned_char | ccol_unsigned_short | ccol_unsigned_int | ccol_unsigned_long
      | ccol_unsigned_long_long | ccol_pointer => unsigned_kind width
      | _ => CBMAP_CMP_GENERIC
      end
  end.

(** ** [compare_keys]

    The operands are the bytes of the two keys, as many as their sizes say. *)
Definition cmp_signed_small (ptr1 ptr2 : list Z) (size : Z) : M Z :=
  if (size =? 1) || (size =? 2) || (size =? 4) || (size =? 8)
  then mret (three_way (le_signed (ztake size ptr1)) (le_signed (ztake size ptr2)))
  else abort.

Definition cmp_unsigned_small (ptr1 ptr2 : list Z) (size : Z) : M Z :=
  if (size =? 1) || (size =? 2) || (size =? 4) || (size =? 8)
  then mret (three_way (le_unsigned (ztake size ptr1)) (le_unsigned (ztake size ptr2)))
  else mret (memcmp (ztake size ptr1) (ztake size ptr2)).

Definition cmp_float_small (key_type : ccol_data_type) (ptr1 ptr2 : list Z) : M Z :=
  match key_type with
  | ccol_float => mret (cmp_float_val (float_value (ztake 4 ptr1)) (float_value (ztake 4 ptr2)))
  | ccol_double => mret (cmp_float_val (double_value (ztake 8 ptr1)) (double_value (ztake 8 ptr2)))
  | ccol_long_double =>
      mret (cmp_float_val (long_double_value (ztake 16 ptr1)) (long_double_value (ztake 16 ptr2)))
  | _ => abort
  end.

Definition compare_keys (key_type : ccol_data_type) (custom_proc : custom_proc_t)
    (key1 key2 : list Z) : M Z :=
  match custom_proc with
  | Some proc => mret (proc key1 key2)
  | None =>
      let size1 := zlen key1 in
      let size2 := zlen key2 in
      if negb (size1 =? size2)
      then
        let min_size := Z.min size1 size2 in
        let cmp := if min_size =? 0 then 0 else memcmp (ztake min_size key1) (ztake min_size key2) in
        if negb (cmp =? 0) then mret cmp
        else mret (three_way size1 size2)
      else
        match key_type with
        | ccol_string => mret (memcmp key1 key2)
        | ccol_char => mret (three_way (le_signed (ztake 1 key1)) (le_signed (ztake 1 key2)))
        | ccol_signed_char | ccol_short | ccol_int | ccol_long | ccol_long_long =>
            cmp_signed_small key1 key2 size1
        | ccol_unsigned_char | ccol_unsigned_short | ccol_unsigned_int | ccol_unsigned_long
        | ccol_unsigned_long_long | ccol_pointer => cmp_unsigned_small key1 key2 size1
        | ccol_float | ccol_double | ccol_long_double => cmp_float_small key_type key1 key2
        | ccol_other_types => if size1 =? 0 then mret 0 else mret (memcmp key1 key2)
        end
  end.

(** ** The typed comparison of a descent *)

(** The type [T] of a kind: its width, and the value [memcpy] reads. *)
Definition kind_width (k : cmp_kind_t) : Z :=
  match k with
  | CBMAP_CMP_GENERIC => 0
  | CBMAP_CMP_CHAR | CBMAP_CMP_S8 | CBMAP_CMP_U8 => 1
  | CBMAP_CMP_S16 | CBMAP_CMP_U16 => 2
  | CBMAP_CMP_S32 | CBMAP_CMP_U32 => 4
  | CBMAP_CMP_S64 | CBMAP_CMP_U64 => 8
  end.

Definition kind_value (k : cmp_kind_t) (key : list Z) : Z :=
  match k with
  | CBMAP_CMP_U8 | CBMAP_CMP_U16 | CBMAP_CMP_U32 | CBMAP_CMP_U64 =>
      le_unsigned (ztake (kind_width k) key)
  | _ => le_signed (ztake (kind_width k) key)
  end.

(** The comparison a descent makes at one node: [want == have] and
    [want < have] of the typed values, or [compare_keys]. *)
Definition descent_cmp (kind : cmp_kind_t) (key_type : ccol_data_type) (custom_proc : custom_proc_t)
    (want have : list Z) : M Z :=
  match kind with
  | CBMAP_CMP_GENERIC => compare_keys key_type custom_proc want have
  | k =>
      let w := kind_value k want in
      let h := kind_value k have in
      if w =? h then mret 0 else mret (if w <? h then -1 else 1)
  end.

(** [key_size_is_valid_for_type], on the size of the pair. *)
Definition key_size_is_valid_for_type (key_type : ccol_data_type) (size : Z) : bool :=
  let fixed_width := ccol_fixed_width_data_type_size key_type in
  if negb (fixed_width =? 0) then size =? fixed_width
  else negb (size =? 0) || negb (match key_type with ccol_string => true | _ => false end).

(** ** The order of the keys of a map *)
Section Order.
Variable key_type : ccol_data_type.
Variable custom_proc : custom_proc_t.

(** Bytes first, then length. *)
Definition lex_cmp (a b : list Z) : Z :=
  if memcmp a b =? 0 then three_way (zlen a) (zlen b) else memcmp a b.

(** The order every comparison of the map agrees on. *)
Definition key_cmp (a b : list Z) : Z :=
  match custom_proc with
  | Some proc => proc a b
  | None =>
      match key_type with
      | ccol_char | ccol_signed_char | ccol_short | ccol_int | ccol_long | ccol_long_long =>
          three_way (le_signed a) (le_signed b)
      | ccol_unsigned_char | ccol_unsigned_short | ccol_unsigned_int | ccol_unsigned_long
      | ccol_unsigned_long_long | ccol_pointer => three_way (le_unsigned a) (le_unsigned b)
      | ccol_float => cmp_float_val (float_value a) (float_value b)
      | ccol_double => cmp_float_val (double_value a) (double_value b)
      | ccol_long_double => cmp_float_val (long_double_value a) (long_double_value b)
      | ccol_string | ccol_other_types => lex_cmp a b
      end
  end.

Definition key_wf (k : list Z) : Prop := key_size_is_valid_for_type key_type (zlen k) = true.

Definition same_sign (a b : Z) : Prop := (a < 0 <-> b < 0) /\ (a = 0 <-> b = 0).

Lemma memcmp_take n a b :
  n = Z.min (zlen a) (zlen b) -> memcmp (ztake n a) (ztake n b) = memcmp a b.
Proof.
  revert n b. induction a as [|x a IH]; intros n [|y b] ->; rewrite ?zlen_nil, ?zlen_cons.
  1-3: zlen_facts; unfold ztake; rewrite ?take_nil; try done; by destruct (take _ _).
  unfold ztake. zlen_facts.
  replace (Z.to_nat (Z.min (1 + zlen a) (1 + zlen b))) with (S (Z.to_nat (Z.min (zlen a) (zlen b)))) by lia.
  cbn [take memcmp]. destruct (x =? y); [|done]. by apply IH.
Qed.

Lemma memcmp_nil_l b : memcmp [] b = 0.
Proof. by destruct b. Qed.
Lemma memcmp_nil_r a : memcmp a [] = 0.
Proof. by destruct a. Qed.

(** Two keys of different sizes are ordered as [lex_cmp] orders them. *)
Lemma compare_sizes_lex a b :
  zlen a <> zlen b ->
  let min_size := Z.min (zlen a) (zlen b) in
  let cmp := if min_size =? 0 then 0 else memcmp (ztake min_size a) (ztake min_size b) in
  (if negb (cmp =? 0) then cmp else three_way (zlen a) (zlen b)) = lex_cmp a b.
Proof.
  intros Hne min_size cmp. unfold lex_cmp. assert (cmp = memcmp a b) as ->.
  { unfold cmp, min_size. destruct (Z.eqb_spec (Z.min (zlen a) (zlen b)) 0) as [E|].
    - zlen_facts. destruct (Z.min_spec (zlen a) (zlen b)) as [[_ Em]|[_ Em]]; rewrite Em in E.
      + apply zlen_0_nil in E as ->. by rewrite memcmp_nil_l.
      + apply zlen_0_nil in E as ->. by rewrite memcmp_nil_r.
    - by apply memcmp_take. }
  destruct (memcmp a b =? 0); done.
Qed.

Lemma key_wf_fixed w a :
  ccol_fixed_width_data_type_size key_type = w -> w <> 0 -> key_wf a -> zlen a = w.
Proof.
  unfold key_wf, key_size_is_valid_for_type. intros -> Hw.
  destruct (Z.eqb_spec w 0); [done|]. cbn [negb]. by intros ?%Z.eqb_eq.
Qed.

Lemma ztake_whole (w : Z) (a : list Z) : zlen a = w -> ztake w a = a.
Proof. intros <-. by apply ztake_all. Qed.

(** The dispatch never aborts on keys the map accepts, and its answer is
    that of [key_cmp]. *)
Lemma compare_keys_ok a b m :
  key_wf a -> key_wf b -> compare_keys key_type custom_proc a b m = Done (key_cmp a b) m.
Proof.
  intros Ha Hb. unfold compare_keys, key_cmp. destruct custom_proc as [proc|]; [done|].
  destruct (Z.eq_dec (ccol_fixed_width_data_type_size key_type) 0) as [Hw|Hw].
  - assert (key_type = ccol_string \/ key_type = ccol_other_types) as Ht
      by (destruct key_type; cbn in Hw; try discriminate; auto).
    destruct (Z.eqb_spec (zlen a) (zlen b)) as [E|Hne]; cbn [negb].
    + assert (memcmp a b = lex_cmp a b) as El.
      { unfold lex_cmp. destruct (Z.eqb_spec (memcmp a b) 0) as [->|]; [|done].
        rewrite E. unfold three_way. rewrite Z.gtb_ltb, Z.ltb_irrefl. done. }
      destruct Ht as [-> | ->]; [by rewrite El|]. rewrite <- El.
      destruct (Z.eqb_spec (zlen a) 0) as [Ez|]; [|done].
      apply zlen_0_nil in Ez as ->. by rewrite memcmp_nil_l.
    + pose proof (compare_sizes_lex a b Hne) as Hlex. cbv zeta in Hlex.
      destruct Ht as [-> | ->]; rewrite <- Hlex; by destruct (negb _).
  - pose proof (key_wf_fixed _ a eq_refl Hw Ha) as Hla.
    pose proof (key_wf_fixed _ b eq_refl Hw Hb) as Hlb.
    rewrite Hla, Hlb, Z.eqb_refl. cbn [negb].
    destruct key_type; cbn in Hla, Hlb, Hw; try done;
      cbn [ccol_fixed_width_data_type_size cmp_signed_small cmp_unsigned_small cmp_float_small];
      unfold cmp_signed_small, cmp_unsigned_small;
      cbn [Z.eqb Pos.eqb orb]; by rewrite !ztake_whole by done.
Qed.

(** The typed descent agrees with [compare_keys] on every pair of keys the
    map accepts. *)
Lemma descent_cmp_ok a b m :
  key_wf a -> key_wf b ->
  exists c, descent_cmp (cbmap_cmp_kind key_type custom_proc) key_type custom_proc a b m = Done c m /\
    same_sign c (key_cmp a b).
Proof.
  intros Ha Hb. pose proof (compare_keys_ok a b m Ha Hb) as Hg.
  assert (forall x y : Z, exists c, (if x =? y then mret 0 else mret (if x <? y then -1 else 1) : M Z) m = Done c m
    /\ same_sign c (three_way x y)) as Htyped.
  { intros x y. pose proof (three_way_spec x y).
    destruct (Z.eqb_spec x y), (Z.ltb_spec x y); eexists; (split; [done|]); split; lia. }
  unfold cbmap_cmp_kind. unfold key_wf, key_size_is_valid_for_type in Ha, Hb. unfold key_cmp in *.
  destruct custom_proc as [proc|].
  { eexists. split; [exact Hg|]. done. }
  destruct key_type; cbn [ccol_fixed_width_data_type_size signed_kind unsigned_kind Z.eqb Pos.eqb] in *;
    cbn [signed_kind unsigned_kind Z.eqb Pos.eqb descent_cmp];
    first
      [ cbn [negb] in Ha, Hb; apply Z.eqb_eq in Ha, Hb;
        unfold kind_value; cbn [kind_width]; rewrite !ztake_whole by done; apply Htyped
      | eexists; split; [exact Hg|done] ].
Qed.

(** [lex_cmp] by recursion on the keys. *)
Fixpoint slex (a b : list Z) : Z :=
  match a, b with
  | [], [] => 0
  | [], _ :: _ => -1
  | _ :: _, [] => 1
  | x :: a, y :: b => if x =? y then slex a b else x - y
  end.

Lemma lex_slex a b : lex_cmp a b = slex a b.
Proof.
  unfold lex_cmp. revert b. induction a as [|x a IH]; intros [|y b]; cbn [memcmp slex];
    rewrite ?Z.eqb_refl, ?zlen_nil, ?zlen_cons; zlen_facts.
  - done.
  - pose proof (three_way_spec 0 (1 + zlen b)). lia.
  - pose proof (three_way_spec (1 + zlen a) 0). lia.
  - destruct (Z.eqb_spec x y) as [|Hne].
    + rewrite <- IH. destruct (memcmp a b =? 0); [|done].
      pose proof (three_way_spec (1 + zlen a) (1 + zlen b)). pose proof (three_way_spec (zlen a) (zlen b)). lia.
    + destruct (Z.eqb_spec (x - y) 0); [lia|done].
Qed.

#[local] Instance slex_total : TotalCmp slex.
Proof.
  split.
  - intros a. induction a as [|x a IH]; intros [|y b]; cbn [slex]; try lia.
    rewrite (Z.eqb_sym y x). destruct (Z.eqb_spec x y); [apply IH|lia].
  - intros a. induction a as [|x a IH]; intros [|y b] [|z c]; cbn [slex]; try lia.
    destruct (Z.eqb_spec x y), (Z.eqb_spec y z), (Z.eqb_spec x z); subst; try lia. apply IH.
  - intros a. induction a as [|x a IH]; intros [|y b]; cbn [slex]; try lia.
    rewrite (Z.eqb_sym y x). destruct (Z.eqb_spec x y); [apply IH|lia].
Qed.

Lemma total_cmp_ext {A} (f g : A -> A -> Z) :
  (forall x y, f x y = g x y) -> TotalCmp g -> TotalCmp f.
Proof.
  intros E Hg. split; intros; rewrite !E in *; [apply cmp_total|by eapply cmp_trans|apply cmp_flip].
Qed.

Definition custom_total : Prop :=
  match custom_proc with Some proc => TotalCmp proc | None => True end.

(** The order of a map is a total preorder, provided its custom comparator,
    if there is one, is. *)
Lemma key_cmp_total : custom_total -> TotalCmp key_cmp.
Proof.
  unfold custom_total, key_cmp. destruct custom_proc as [proc|]; [done|]. intros _.
  assert (TotalCmp lex_cmp) by (eapply total_cmp_ext; [apply lex_slex|apply slex_total]).
  destruct key_type; try done; try apply three_way_total;
    first [exact (total_cmp_map float_value cmp_float_val)
          |exact (total_cmp_map double_value cmp_float_val)
          |exact (total_cmp_map long_double_value cmp_float_val)].
Qed.
End Order.

(** For every key type and every pair of keys the map admits, the
    comparison a descent makes, typed or through [compare_keys], does not
    abort and has the sign of one total preorder, the order of the map. *)
Theorem descent_comparison kt cp a b m :
  custom_total cp -> key_wf kt a -> key_wf kt b ->
  TotalCmp (key_cmp kt cp) /\ compare_keys kt cp a b m = Done (key_cmp kt cp a b) m /\
  exists s, descent_cmp (cbmap_cmp_kind kt cp) kt cp a b m = Done s m /\ same_sign s (key_cmp kt cp a b).
Proof.
  intros Hcp Ha Hb. split_and!; [by apply key_cmp_total|by apply compare_keys_ok|by apply descent_cmp_ok].
Qed.

Example descent_comparison_witness :
  TotalCmp (key_cmp ccol_short None) /\
  compare_keys ccol_short None [255; 255] [1; 0] mem0 = Done (key_cmp ccol_short None [255; 255] [1; 0]) mem0 /\
  exists s, descent_cmp (cbmap_cmp_kind ccol_short None) ccol_short None [255; 255] [1; 0] mem0 = Done s mem0 /\
    same_sign s (key_cmp ccol_short None [255; 255] [1; 0]).
Proof. apply (descent_comparison ccol_short None [255; 255] [1; 0] mem0); [exact I|reflexivity|reflexivity]. Defined.

