(* ===== verification/CBstTree.v ===== *)
(** * The tree of the tree map ([src/cbstmap.c])

    The nodes, their heights and balance, the four rotations of
    [check_node_balance], the recorded path of a descent, and the walks that
    restore the balance from the bottom of a path to its top.

    A [tree] is what a [bmap_node] pointer reaches, [Leaf] being NULL.  A
    path entry holds the node it passed and, since the descent left it through
    one of its two links, the subtree of the other link; storing through the
    entry's [parent_link] is plugging a subtree back into the path. *)
From S2P Require Import Prelude Memory Values CBstKeys.

Definition CBMAP_MAX_TREE_HEIGHT : Z := 128.

(** A node without its links and height: its block, the key and value bytes,
    and the block of the value when [val_is_external]. *)
Record bmap_node := BmapNode {
  n_addr : nat;
  n_key : list Z;
  n_val : list Z;
  n_ext : option nat;
}.

Inductive tree :=
  | Leaf
  | Node (height : Z) (n : bmap_node) (left right : tree).

Definition node_height (node : tree) : Z :=
  match node with Leaf => 0 | Node h _ _ _ => h end.

(** The difference is of [int]s. *)
Definition node_balance (node : tree) : Z :=
  match node with Leaf => 0 | Node _ _ l r => node_height r - node_height l end.

Definition maximum (x y : Z) : Z := if x >=? y then x else y.

(** The height is stored in a [uint8_t]. *)
Definition recalculate_node_height (node : tree) : tree :=
  match node with
  | Leaf => Leaf
  | Node _ n l r => Node ((maximum (node_height l) (node_height r) ⊕ 1) `mod` 256) n l r
  end.

Definition is_leaf (t : tree) : bool := match t with Leaf => true | _ => false end.

Definition check_node_balance (parent : tree) : M tree :=
  let parent := recalculate_node_height parent in
  let balance := node_balance parent in
  parent ←
    (if (balance >? 1) || (balance <? -1)
     then
       match parent with
       | Leaf => undefined
       | Node h p pl pr =>
           if balance >? 1
           then
             match pr with
             | Leaf => undefined
             | Node rh rn rl rr =>
                 if (node_balance pr >=? 0) || is_leaf rl
                 then (* simple left rotation *)
                   mret (recalculate_node_height
                           (Node rh rn (recalculate_node_height (Node h p pl rl)) rr))
                 else
                   match rl with
                   | Leaf => undefined
                   | Node rlh rln rl_left rl_right => (* right-left double rotation *)
                       mret (recalculate_node_height
                               (Node rlh rln
                                  (recalculate_node_height (Node h p pl rl_left))
                                  (recalculate_node_height (Node rh rn rl_right rr))))
                   end
             end
           else
             match pl with
             | Leaf => undefined
             | Node lh ln ll lr =>
                 if (node_balance pl <=? 0) || is_leaf lr
                 then (* simple right rotation *)
                   mret (recalculate_node_height
                           (Node lh ln ll (recalculate_node_height (Node h p lr pr))))
                 else
                   match lr with
                   | Leaf => undefined
                   | Node lrh lrn lr_left lr_right => (* left-right double rotation *)
                       mret (recalculate_node_height
                               (Node lrh lrn
                                  (recalculate_node_height (Node lh ln ll lr_left))
                                  (recalculate_node_height (Node h p lr_right pr))))
                   end
             end
       end
     else mret parent);
  let final_balance := node_balance parent in
  _ ← _ccol_assert (negb ((final_balance >? 1) || (final_balance <? -1)));
  mret parent.

(** ** Paths *)
Inductive dir := went_left | went_right.

(** An entry of [path]: the node, and the subtree of its other link. *)
Record node_stack_entry := Entry {
  e_dir : dir;
  e_height : Z;
  e_node : bmap_node;
  e_other : tree;
}.

Definition plug_entry (e : node_stack_entry) (t : tree) : tree :=
  match e_dir e with
  | went_left => Node (e_height e) (e_node e) t (e_other e)
  | went_right => Node (e_height e) (e_node e) (e_other e) t
  end.

(** A path, its last entry first. *)
Fixpoint plug (path : list node_stack_entry) (t : tree) : tree :=
  match path with
  | [] => t
  | e :: path => plug path (plug_entry e t)
  end.

(** [path[len++] = ...], after the bound check. *)
Definition push_entry (e : node_stack_entry) (path : list node_stack_entry)
    : M (list node_stack_entry) :=
  _ ← _ccol_assert (zlen path <? CBMAP_MAX_TREE_HEIGHT); mret (e :: path).

(** [cmp have] compares the key looked for with a node's key. *)
Fixpoint cbmap_descend_with_path (cmp : list Z -> M Z) (current : tree)
    (path : list node_stack_entry) : M (list node_stack_entry * tree) :=
  match current with
  | Leaf => mret (path, Leaf)
  | Node h n l r =>
      comparison ← cmp (n_key n);
      if comparison =? 0 then mret (path, current) else
      if comparison >? 0
      then path ← push_entry (Entry went_right h n l) path; cbmap_descend_with_path cmp r path
      else path ← push_entry (Entry went_left h n r) path; cbmap_descend_with_path cmp l path
  end.

Fixpoint cbmap_find_node (cmp : list Z -> M Z) (tracker : tree) : M (option bmap_node) :=
  match tracker with
  | Leaf => mret None
  | Node _ n l r =>
      comparison ← cmp (n_key n);
      if comparison =? 0 then mret (Some n) else
      if comparison <? 0 then cbmap_find_node cmp l else cbmap_find_node cmp r
  end.

Definition root_addr (t : tree) : option nat :=
  match t with Leaf => None | Node _ n _ _ => Some (n_addr n) end.

(** The rebalancing loop of an insert: [t] is the subtree below the path. *)
Fixpoint rebalance_insert (path : list node_stack_entry) (t : tree) : M tree :=
  match path with
  | [] => mret t
  | e :: path =>
      let height_before := e_height e in
      balanced ← check_node_balance (plug_entry e t);
      if negb (bool_decide (root_addr balanced = Some (n_addr (e_node e))))
         || (node_height balanced =? height_before)
      then mret (plug path balanced)
      else rebalance_insert path balanced
  end.

(** The rebalancing loop of a delete. *)
Fixpoint rebalance_delete (path : list node_stack_entry) (t : tree) : M tree :=
  match path with
  | [] => mret t
  | e :: path =>
      let height_before := e_height e in
      balanced ← check_node_balance (plug_entry e t);
      if node_height balanced =? height_before
      then mret (plug path balanced)
      else rebalance_delete path balanced
  end.

(** The loop of [cbmap_detach_extreme_iter], which goes all the way up. *)
Fixpoint rebalance_all (path : list node_stack_entry) (t : tree) : M tree :=
  match path with
  | [] => mret t
  | e :: path => balanced ← check_node_balance (plug_entry e t); rebalance_all path balanced
  end.

(** The walk to the extreme node. *)
Fixpoint extreme_path (max : bool) (current : tree) (path : list node_stack_entry)
    : M (list node_stack_entry * tree) :=
  match current with
  | Leaf => mret (path, Leaf)
  | Node h n l r =>
      if max
      then
        match r with
        | Leaf => mret (path, current)
        | _ => path ← push_entry (Entry went_right h n l) path; extreme_path max r path
        end
      else
        match l with
        | Leaf => mret (path, current)
        | _ => path ← push_entry (Entry went_left h n r) path; extreme_path max l path
        end
  end.

Definition cbmap_detach_extreme_iter (root : tree) (max : bool) : M (tree * bmap_node) :=
  _ ← _ccol_assert (negb (is_leaf root));
  '(path, extreme) ← extreme_path max root [];
  match extreme with
  | Leaf => undefined
  | Node _ n l r =>
      let replacement := if max then l else r in
      root ← rebalance_all path replacement;
      mret (root, n)
  end.

(** ** Invariants *)

(** The nodes from left to right. *)
Fixpoint nodes (t : tree) : list bmap_node :=
  match t with Leaf => [] | Node _ n l r => nodes l ++ n :: nodes r end.

(** The AVL invariant, with the stored heights right. *)
Fixpoint avl (t : tree) : Prop :=
  match t with
  | Leaf => True
  | Node h _ l r =>
      avl l /\ avl r /\ h = 1 + Z.max (node_height l) (node_height r) /\
      -1 <= node_height r - node_height l <= 1
  end.

Lemma avl_height_nonneg t : avl t -> 0 <= node_height t.
Proof.
  induction t as [|h n l IHl r IHr]; cbn; [done|]. intros (Hl & Hr & -> & _).
  specialize (IHl Hl). specialize (IHr Hr). lia.
Qed.

(** A tree of height [h] has at least [fib (h + 2) - 1] nodes. *)
Fixpoint fib_pair (n : nat) : Z * Z :=
  match n with O => (1, 2) | S n => let '(a, b) := fib_pair n in (b, a + b) end.
Definition min_nodes (h : nat) : Z := fst (fib_pair h).

Lemma min_nodes_rec h : min_nodes (S (S h)) = min_nodes h + min_nodes (S h).
Proof. unfold min_nodes. cbn. by destruct (fib_pair h). Qed.
Lemma min_nodes_mono h : 1 <= min_nodes h /\ min_nodes h <= min_nodes (S h).
Proof.
  induction h as [|h [IH1 IH2]]; [done|]. rewrite min_nodes_rec. lia.
Qed.
Lemma min_nodes_le a b : (a <= b)%nat -> min_nodes a <= min_nodes b.
Proof.
  induction 1 as [|b Hab IH]; [done|]. pose proof (min_nodes_mono b). lia.
Qed.

Lemma avl_size t : avl t -> min_nodes (Z.to_nat (node_height t)) <= zlen (nodes t) + 1.
Proof.
  induction t as [|h n l IHl r IHr]; cbn [avl nodes node_height]; [done|].
  intros (Hl & Hr & -> & Hbal). specialize (IHl Hl). specialize (IHr Hr).
  pose proof (avl_height_nonneg _ Hl). pose proof (avl_height_nonneg _ Hr).
  rewrite zlen_app, zlen_cons. zlen_facts.
  set (a := node_height l) in *. set (b := node_height r) in *.
  destruct (Z.eq_dec (Z.max a b) 0) as [E|].
  { rewrite E. change (min_nodes (Z.to_nat (1 + 0))) with 2. lia. }
  replace (Z.to_nat (1 + Z.max a b)) with (S (S (Z.to_nat (Z.max a b - 1)))) by lia.
  rewrite min_nodes_rec. replace (S (Z.to_nat (Z.max a b - 1))) with (Z.to_nat (Z.max a b)) by lia.
  destruct (Z.max_spec a b) as [[_ Em]|[_ Em]]; rewrite Em.
  - pose proof (min_nodes_le (Z.to_nat (b - 1)) (Z.to_nat a)). lia.
  - pose proof (min_nodes_le (Z.to_nat (a - 1)) (Z.to_nat b)). lia.
Qed.

(** No map can hold a tree taller than 90 levels. *)
Lemma avl_height_bound t :
  avl t -> zlen (nodes t) <= ccol_max_elem_count -> node_height t <= 90.
Proof.
  intros Ha Hs. destruct (Z_le_gt_dec (node_height t) 90) as [|Hgt]; [done|].
  pose proof (avl_size t Ha) as Hmin.
  pose proof (min_nodes_le 91 (Z.to_nat (node_height t)) ltac:(lia)) as Hle.
  assert (min_nodes 91 = 12200160415121876738) as E by (vm_compute; reflexivity).
  unfold ccol_max_elem_count in *. lia.
Qed.

(** ** Rotations *)

Ltac tree_heights :=
  repeat match goal with
  | H : avl ?t |- _ => learn_hyp (avl_height_nonneg t H)
  end.

Lemma maximum_max x y : maximum x y = Z.max x y.
Proof. unfold maximum. destruct (Z.geb_spec x y); lia. Qed.

(** The narrow height field never truncates below 255. *)
Lemma recalculate_small h n l r :
  0 <= node_height l < 255 -> 0 <= node_height r < 255 ->
  recalculate_node_height (Node h n l r) = Node (1 + Z.max (node_height l) (node_height r)) n l r.
Proof.
  intros Hl Hr. unfold recalculate_node_height. rewrite maximum_max. sz.
  rewrite Z.mod_small by lia. f_equal. lia.
Qed.

(** A subtree whose two sides are balanced and differ by at most two comes out
    balanced with the same nodes; its height is that of its taller side or
    one more. *)
Lemma check_node_balance_ok h n l r m (Q : tree -> mem -> Prop) :
  avl l -> avl r -> -2 <= node_height r - node_height l <= 2 ->
  node_height l <= 200 -> node_height r <= 200 ->
  (forall t', avl t' -> nodes t' = nodes l ++ n :: nodes r ->
     (-1 <= node_height r - node_height l <= 1 ->
        t' = Node (1 + Z.max (node_height l) (node_height r)) n l r) ->
     (2 <= Z.abs (node_height r - node_height l) ->
        Z.max (node_height l) (node_height r) <= node_height t' <= 1 + Z.max (node_height l) (node_height r) /\
        (node_height r < node_height l -> node_balance l <> 0 -> node_height t' = node_height l) /\
        (node_height l < node_height r -> node_balance r <> 0 -> node_height t' = node_height r)) ->
     Q t' m) ->
  wp (check_node_balance (Node h n l r)) m Q.
Proof.
  intros Hl Hr Hbal Hbl Hbr HQ. tree_heights. unfold check_node_balance.
  rewrite recalculate_small by lia. cbv zeta. cbn [node_balance].
  assert (forall t', avl t' -> t' <> Leaf -> wp (_ ← _ccol_assert (negb ((node_balance t' >? 1) || (node_balance t' <? -1))); mret t') m Q
    <-> Q t' m) as Hend.
  { intros t' Ht' Hne. destruct t' as [|h' n' l' r']; [done|]. destruct Ht' as (_ & _ & _ & Hb').
    cbn [node_balance]. rewrite Z.gtb_ltb.
    destruct (Z.ltb_spec 1 (node_height r' - node_height l')), (Z.ltb_spec (node_height r' - node_height l') (-1)); try lia.
    done. }
  apply wp_bind. rewrite Z.gtb_ltb.
  destruct (Z.ltb_spec 1 (node_height r - node_height l)) as [Hgt|Hngt]; cbn [orb].
  - (* right heavy *)
    destruct r as [|rh rn rl rr]; [cbn in *; lia|].
    destruct Hr as (Hrl & Hrr & Erh & Hrb). cbn [node_height] in *. tree_heights.
    destruct ((node_balance (Node rh rn rl rr) >=? 0) || is_leaf rl) eqn:Hcase.
    + assert (node_height rl <= node_height rr) as Hle.
      { apply orb_true_iff in Hcase as [Hc|Hc]; [rewrite Z.geb_leb in Hc; apply Z.leb_le in Hc; cbn in Hc; lia|].
        destruct rl; [|done]. cbn. lia. }
      rewrite (recalculate_small _ n l rl) by lia. rewrite recalculate_small by (cbn [node_height]; lia).
      apply wp_ret. apply Hend; [|done|].
      * cbn [avl node_height]. split_and!; try done; lia.
      * apply HQ; cbn [avl node_height nodes node_balance]; [split_and!; try done; lia|app_eq|lia|]. lia.
    + apply orb_false_iff in Hcase as [Hc1 Hc2]. rewrite Z.geb_leb in Hc1. apply Z.leb_gt in Hc1.
      cbn [node_balance] in Hc1. destruct rl as [|rlh rln rll rlr]; [done|].
      destruct Hrl as (Hrll & Hrlr & Erlh & Hrlb). cbn [node_height] in *. tree_heights.
      rewrite (recalculate_small _ n l rll), (recalculate_small rh rn rlr rr) by lia.
      rewrite recalculate_small by (cbn [node_height]; lia).
      apply wp_ret. apply Hend; [|done|].
      * cbn [avl node_height]. split_and!; try done; lia.
      * apply HQ; cbn [avl node_height nodes node_balance]; [split_and!; try done; lia|app_eq|lia|]. lia.
  - destruct (Z.ltb_spec (node_height r - node_height l) (-1)) as [Hlt|Hnlt].
    2:{ apply wp_ret. apply Hend; [cbn [avl]; split_and!; done || lia|done|].
        apply HQ; [cbn [avl]; split_and!; done || lia|done|done|lia]. }
    destruct l as [|lh ln ll lr]; [cbn in *; lia|].
    destruct Hl as (Hll & Hlr & Elh & Hlb). cbn [node_height] in *. tree_heights.
    destruct ((node_balance (Node lh ln ll lr) <=? 0) || is_leaf lr) eqn:Hcase.
    + assert (node_height lr <= node_height ll) as Hle.
      { apply orb_true_iff in Hcase as [Hc|Hc]; [apply Z.leb_le in Hc; cbn in Hc; lia|].
        destruct lr; [|done]. cbn. lia. }
      rewrite (recalculate_small _ n lr r) by lia. rewrite recalculate_small by (cbn [node_height]; lia).
      apply wp_ret. apply Hend; [|done|].
      * cbn [avl node_height]. split_and!; try done; lia.
      * apply HQ; cbn [avl node_height nodes node_balance]; [split_and!; try done; lia|app_eq|lia|]. lia.
    + apply orb_false_iff in Hcase as [Hc1 Hc2]. apply Z.leb_gt in Hc1.
      cbn [node_balance] in Hc1. destruct lr as [|lrh lrn lrl lrr]; [done|].
      destruct Hlr as (Hlrl & Hlrr & Elrh & Hlrb). cbn [node_height] in *. tree_heights.
      rewrite (recalculate_small lh ln ll lrl), (recalculate_small _ n lrr r) by lia.
      rewrite recalculate_small by (cbn [node_height]; lia).
      apply wp_ret. apply Hend; [|done|].
      * cbn [avl node_height]. split_and!; try done; lia.
      * apply HQ; cbn [avl node_height nodes node_balance]; [split_and!; try done; lia|app_eq|lia|]. lia.
Qed.

(** ** Paths and what is plugged into them *)

Fixpoint left_of (path : list node_stack_entry) : list bmap_node :=
  match path with
  | [] => []
  | e :: path =>
      match e_dir e with
      | went_left => left_of path
      | went_right => left_of path ++ nodes (e_other e) ++ [e_node e]
      end
  end.

Fixpoint right_of (path : list node_stack_entry) : list bmap_node :=
  match path with
  | [] => []
  | e :: path =>
      match e_dir e with
      | went_left => e_node e :: nodes (e_other e) ++ right_of path
      | went_right => right_of path
      end
  end.

Lemma nodes_plug path t : nodes (plug path t) = left_of path ++ nodes t ++ right_of path.
Proof.
  revert t. induction path as [|e path IH]; intros t; cbn [plug left_of right_of]; [by rewrite app_nil_r|].
  rewrite IH. unfold plug_entry. destruct (e_dir e); cbn [nodes]; app_eq.
Qed.

(** The path is balanced around a subtree of height [h]. *)
Fixpoint path_ok (path : list node_stack_entry) (h : Z) : Prop :=
  match path with
  | [] => True
  | e :: path =>
      avl (e_other e) /\ e_height e = 1 + Z.max h (node_height (e_other e)) /\
      -1 <= node_height (e_other e) - h <= 1 /\ path_ok path (e_height e)
  end.

Fixpoint top_height (path : list node_stack_entry) (h : Z) : Z :=
  match path with [] => h | e :: path => top_height path (e_height e) end.

Lemma top_height_plug path t : node_height (plug path t) = top_height path (node_height t).
Proof.
  revert t. induction path as [|e path IH]; intros t; cbn [plug top_height]; [done|].
  rewrite IH. unfold plug_entry. by destruct (e_dir e).
Qed.

Lemma avl_plug path t : avl (plug path t) <-> avl t /\ path_ok path (node_height t).
Proof.
  revert t. induction path as [|e path IH]; intros t; cbn [plug path_ok]; [tauto|].
  rewrite IH. unfold plug_entry. destruct (e_dir e); cbn [avl node_height]; rewrite ?(Z.max_comm (node_height t));
    intuition lia.
Qed.

Lemma path_height path h : path_ok path h -> h + zlen path <= top_height path h.
Proof.
  revert h. induction path as [|e path IH]; intros h; cbn [path_ok top_height]; [rewrite zlen_nil; lia|].
  intros (_ & He & _ & Hp). apply IH in Hp. rewrite zlen_cons. lia.
Qed.

(** Plugging a subtree [t], whose height is next to the one the path was
    balanced around, and rebalancing its parent. *)
Lemma check_entry_ok e path h0 t m (Q : tree -> mem -> Prop) :
  path_ok (e :: path) h0 -> top_height (e :: path) h0 <= 90 -> 0 <= h0 ->
  avl t -> -1 <= node_height t - h0 <= 1 ->
  (forall t', avl t' -> nodes t' = nodes (plug_entry e t) ->
     (* no rotation, the parent stays on top *)
     (root_addr t' = Some (n_addr (e_node e)) /\
      node_height t' = 1 + Z.max (node_height t) (node_height (e_other e)) /\
      node_balance t' = match e_dir e with
                        | went_left => node_height (e_other e) - node_height t
                        | went_right => node_height t - node_height (e_other e)
                        end) \/
     (* the subtree grew and tipped its parent *)
     (node_height t = h0 + 1 /\ node_height (e_other e) = h0 - 1 /\
      (node_balance t <> 0 -> node_height t' = e_height e)) \/
     (* the subtree shrank below its sibling *)
     (node_height t = h0 - 1 /\ e_height e - 1 <= node_height t' <= e_height e) ->
     Q t' m) ->
  wp (check_node_balance (plug_entry e t)) m Q.
Proof.
  cbn [path_ok top_height]. intros (Ho & He & Hbal & Hp) Htop Hh0 Ht Hht HQ.
  pose proof (path_height _ _ Hp). zlen_facts. tree_heights. unfold plug_entry in *.
  destruct (e_dir e); apply check_node_balance_ok; try done || lia;
    intros t' Hav Hn Hsame Hrot; (apply HQ; [done|by rewrite Hn|]);
    destruct (Z_le_gt_dec (Z.abs (node_height (e_other e) - node_height t)) 1) as [Hle|Hgt];
    try (left; rewrite (Hsame ltac:(lia)); cbn [root_addr node_height node_balance]; split_and!; done || lia);
    destruct (Hrot ltac:(lia)) as (Hb & Hl & Hr);
    destruct (Z.eq_dec (node_height t) (h0 + 1));
    [right; left|right; right|right; left|right; right]; split_and!; lia.
Qed.

(** The loop of an insert: the new subtree is one higher than the empty link
    it was stored in, or leans to the side that grew. *)
Lemma wp_rebalance_insert path t h0 m (Q : tree -> mem -> Prop) :
  path_ok path h0 -> top_height path h0 <= 90 -> 0 <= h0 ->
  avl t -> node_height t = h0 + 1 -> h0 = 0 \/ node_balance t <> 0 ->
  (forall t', avl t' -> nodes t' = nodes (plug path t) -> Q t' m) ->
  wp (rebalance_insert path t) m Q.
Proof.
  revert t h0. induction path as [|e path IH]; intros t h0 Hp Htop Hh0 Ht Hht Hlean HQ; cbn [rebalance_insert plug] in *.
  { by apply wp_ret, HQ. }
  apply wp_bind. eapply check_entry_ok; [done|done|done|done|lia|].
  intros t' Hav Hn Hcase. cbn [path_ok top_height] in Hp, Htop. destruct Hp as (Ho & He & Hbal & Hp). tree_heights.
  assert (avl t' -> node_height t' = e_height e -> wp (mret (plug path t')) m Q) as Hstop.
  { intros Ha' Eh. apply wp_ret, HQ; [apply avl_plug; rewrite Eh; done|]. rewrite !nodes_plug, Hn. reflexivity. }
  destruct Hcase as [(Er & Eh & Eb)|[(E1 & E2 & E3)|(E1 & _)]]; [| |lia].
  - rewrite bool_decide_true by done. cbn [negb orb].
    destruct (Z.eqb_spec (node_height t') (e_height e)) as [E|Hne]; [by apply Hstop|].
    apply (IH t' (e_height e)); try done; try lia.
    + right. destruct (e_dir e); lia.
    + intros t'' Ha'' Hn''. apply HQ; [done|]. rewrite Hn'', !nodes_plug, Hn. done.
  - assert (node_height t' = e_height e) as E by (apply E3; destruct Hlean; [lia|done]).
    rewrite E, Z.eqb_refl, orb_true_r. by apply Hstop.
Qed.

(** The loop of a delete: the subtree kept its height or lost one level. *)
Lemma wp_rebalance_delete path t h0 m (Q : tree -> mem -> Prop) :
  path_ok path h0 -> top_height path h0 <= 90 -> 0 <= h0 ->
  avl t -> h0 - 1 <= node_height t <= h0 ->
  (forall t', avl t' -> nodes t' = nodes (plug path t) -> Q t' m) ->
  wp (rebalance_delete path t) m Q.
Proof.
  revert t h0. induction path as [|e path IH]; intros t h0 Hp Htop Hh0 Ht Hht HQ; cbn [rebalance_delete plug] in *.
  { by apply wp_ret, HQ. }
  apply wp_bind. eapply check_entry_ok; [done|done|done|done|lia|].
  intros t' Hav Hn Hcase. cbn [path_ok top_height] in Hp, Htop. destruct Hp as (Ho & He & Hbal & Hp). tree_heights.
  destruct (Z.eqb_spec (node_height t') (e_height e)) as [E|Hne].
  { apply wp_ret, HQ; [apply avl_plug; rewrite E; done|]. rewrite !nodes_plug, Hn. reflexivity. }
  apply (IH t' (e_height e)); try done; try lia.
  intros t'' Ha'' Hn''. apply HQ; [done|]. rewrite Hn'', !nodes_plug, Hn. done.
Qed.

(** The loop that goes all the way up: the whole tree keeps its height or
    loses one level. *)
Lemma wp_rebalance_all path t h0 m (Q : tree -> mem -> Prop) :
  path_ok path h0 -> top_height path h0 <= 90 -> 0 <= h0 ->
  avl t -> h0 - 1 <= node_height t <= h0 ->
  (forall t', avl t' -> nodes t' = nodes (plug path t) ->
     top_height path h0 - 1 <= node_height t' <= top_height path h0 -> Q t' m) ->
  wp (rebalance_all path t) m Q.
Proof.
  revert t h0. induction path as [|e path IH]; intros t h0 Hp Htop Hh0 Ht Hht HQ; cbn [rebalance_all plug] in *.
  { apply wp_ret, HQ; done. }
  apply wp_bind. eapply check_entry_ok; [done|done|done|done|lia|].
  intros t' Hav Hn Hcase. cbn [path_ok top_height] in *. destruct Hp as (Ho & He & Hbal & Hp). tree_heights.
  apply (IH t' (e_height e)); try done; try lia.
  intros t'' Ha'' Hn''. apply HQ; [done|]. rewrite Hn'', !nodes_plug, Hn. done.
Qed.

(** A path is no longer than the tree is high. *)
Lemma plug_length path t : avl (plug path t) -> zlen path + node_height t <= node_height (plug path t).
Proof.
  revert t. induction path as [|e path IH]; intros t Ha; [rewrite zlen_nil; cbn; lia|].
  rewrite zlen_cons. specialize (IH (plug_entry e t) Ha). cbn [plug] in *. apply avl_plug in Ha as [Ha _].
  unfold plug_entry in *. destruct (e_dir e); cbn [avl node_height] in *; tree_heights; lia.
Qed.

(** ** The walk to an extreme node *)

Lemma wp_push_entry e path m (Q : list node_stack_entry -> mem -> Prop) :
  zlen path < CBMAP_MAX_TREE_HEIGHT -> Q (e :: path) m -> wp (push_entry e path) m Q.
Proof.
  intros H HQ. unfold push_entry. apply wp_bind, wp_assert; [by apply Z.ltb_lt|by apply wp_ret].
Qed.

Lemma wp_extreme_path (max : bool) t path m (Q : list node_stack_entry * tree -> mem -> Prop) :
  avl t -> t <> Leaf -> zlen path + node_height t <= CBMAP_MAX_TREE_HEIGHT ->
  (forall path' h n l r,
     plug path' (Node h n l r) = plug path t -> (if max then r else l) = Leaf ->
     (max = false -> left_of path' = left_of path) ->
     (max = true -> right_of path' = right_of path) ->
     Q (path', Node h n l r) m) ->
  wp (extreme_path max t path) m Q.
Proof.
  revert path. induction t as [|h n l IHl r IHr]; intros path Ht Hne Hlen HQ; [done|].
  cbn [extreme_path avl node_height] in *. destruct Ht as (Hl & Hr & Eh & _). tree_heights.
  destruct max.
  - destruct r as [|rh rn rl rr]; [by apply wp_ret, HQ|].
    apply wp_bind, wp_push_entry; [zlen_facts; cbn [node_height] in *; lia|]. apply IHr; [done|done|rewrite zlen_cons; lia|].
    intros path' h' n' l' r' Hplug Hx Hpl Hpr. by apply HQ.
  - destruct l as [|lh ln ll lr]; [by apply wp_ret, HQ|].
    apply wp_bind, wp_push_entry; [zlen_facts; cbn [node_height] in *; lia|]. apply IHl; [done|done|rewrite zlen_cons; lia|].
    intros path' h' n' l' r' Hplug Hx Hpl Hpr. by apply HQ.
Qed.

(** The detached node is the first, or the last, of the subtree; the rest stays
    balanced and is at most one level lower. *)
Lemma wp_detach_extreme root (max : bool) m (Q : tree * bmap_node -> mem -> Prop) :
  avl root -> root <> Leaf -> node_height root <= 90 ->
  (forall root' n, avl root' ->
     nodes root = (if max then nodes root' ++ [n] else n :: nodes root') ->
     node_height root - 1 <= node_height root' <= node_height root ->
     Q (root', n) m) ->
  wp (cbmap_detach_extreme_iter root max) m Q.
Proof.
  intros Ha Hne Hh HQ. unfold cbmap_detach_extreme_iter.
  apply wp_bind, wp_assert; [by destruct root|]. apply wp_bind.
  apply wp_extreme_path; [done|done|unfold CBMAP_MAX_TREE_HEIGHT; rewrite zlen_nil; lia|].
  intros path h n l r Hplug Hx Hpl Hpr. cbn [plug] in Hplug.
  pose proof Ha as Ha0. rewrite <- Hplug in Ha. apply avl_plug in Ha as [Hav Hp].
  pose proof (top_height_plug path (Node h n l r)) as Htop. rewrite Hplug in Htop.
  pose proof (nodes_plug path (Node h n l r)) as Hn. rewrite Hplug in Hn.
  cbn [node_height avl] in *. destruct Hav as (Hl & Hr & Eh & Hb). tree_heights.
  apply wp_bind. eapply (wp_rebalance_all path _ h); [done|lia|lia| | |].
  - by destruct max.
  - destruct max; subst; cbn [node_height] in *; lia.
  - intros t' Hav' Hn' Hh'. apply wp_ret, HQ; [done| |lia].
    rewrite Hn', nodes_plug, Hn. cbn [nodes].
    destruct max; subst; cbn [nodes]; [rewrite (Hpr eq_refl)|rewrite (Hpl eq_refl)]; cbn [left_of right_of]; app_eq.
Qed.

(** ** Descents

    [ck n] is the sign of the comparison of the key looked for with the key
    of [n]; along the nodes from left to right it goes from positive to
    negative and is zero at one node at most. *)
Section Descent.
Variable cmp : list Z -> M Z.
Variable ck : bmap_node -> Z.
Variable m : mem.

Definition answers (n : bmap_node) : Prop :=
  wp (cmp (n_key n)) m (fun c m' => m' = m /\ same_sign c (ck n)).

Definition crosses (a b : bmap_node) : Prop := (0 <= ck b -> 0 < ck a) /\ (ck a <= 0 -> ck b < 0).

Lemma crosses_split l n r :
  StronglySorted crosses (l ++ n :: r) ->
  (0 <= ck n -> Forall (fun a => 0 < ck a) l) /\ (ck n <= 0 -> Forall (fun b => ck b < 0) r).
Proof.
  intros Hs. split; intros Hn.
  - clear - Hs Hn. induction l as [|a l IH]; [constructor|].
    cbn in Hs. apply StronglySorted_inv in Hs as [Hs Ha]. constructor; [|by apply IH].
    apply Forall_app in Ha as [_ Ha]. apply Forall_cons in Ha as [[Ha _] _]. auto.
  - induction l as [|a l IH]; cbn in Hs; apply StronglySorted_inv in Hs as [Hs Ha]; [|by apply IH].
    apply (Forall_impl _ _ _ Ha). intros b [_ Hb]. auto.
Qed.

Lemma sorted_app_inv {A} (R : A -> A -> Prop) l1 l2 :
  StronglySorted R (l1 ++ l2) -> StronglySorted R l1 /\ StronglySorted R l2.
Proof.
  induction l1 as [|a l1 IH]; cbn; [split; [constructor|done]|].
  intros [Hs Ha]%StronglySorted_inv. destruct (IH Hs). split; [|done].
  constructor; [done|]. by apply Forall_app in Ha as [? _].
Qed.

(** Either the node of the key, or the empty link where it belongs: all the
    keys to the left are smaller and all the keys to the right greater. *)
Definition descent_to (path' : list node_stack_entry) (t' : tree) : Prop :=
  Forall (fun a => 0 < ck a) (left_of path') /\ Forall (fun b => ck b < 0) (right_of path') /\
  match t' with
  | Leaf => True
  | Node _ n l r => ck n = 0 /\ Forall (fun a => 0 < ck a) (nodes l) /\ Forall (fun b => ck b < 0) (nodes r)
  end.

Lemma wp_descend t path (Q : list node_stack_entry * tree -> mem -> Prop) :
  Forall answers (nodes t) -> StronglySorted crosses (nodes t) -> avl t ->
  zlen path + node_height t <= CBMAP_MAX_TREE_HEIGHT ->
  Forall (fun a => 0 < ck a) (left_of path) -> Forall (fun b => ck b < 0) (right_of path) ->
  (forall path' t', plug path' t' = plug path t -> descent_to path' t' -> Q (path', t') m) ->
  wp (cbmap_descend_with_path cmp t path) m Q.
Proof.
  revert path. induction t as [|h n l IHl r IHr]; intros path Hans Hs Ha Hlen Hpl Hpr HQ.
  { by apply wp_ret, HQ. }
  cbn [nodes avl node_height cbmap_descend_with_path] in *. destruct Ha as (Hl & Hr & Eh & _). tree_heights.
  apply Forall_app in Hans as [Hal [Han Har]%Forall_cons].
  destruct (crosses_split _ _ _ Hs) as [Hcl Hcr].
  apply sorted_app_inv in Hs as [Hsl [Hsr _]%StronglySorted_inv].
  apply wp_bind. eapply wp_mono; [exact Han|]. intros c m' [-> [Hneg Hzero]]. rewrite Z.gtb_ltb.
  destruct (Z.eqb_spec c 0) as [Ec|]; [|destruct (Z.ltb_spec 0 c)].
  - apply wp_ret, HQ; [done|]. split_and!; [done|done|lia|apply Hcl; lia|apply Hcr; lia].
  - apply wp_bind, wp_push_entry; [lia|]. apply IHr; try done.
    + rewrite zlen_cons. lia.
    + cbn. rewrite !Forall_app, Forall_singleton. split_and!; [done|apply Hcl; lia|lia].
  - apply wp_bind, wp_push_entry; [lia|]. apply IHl; try done.
    + rewrite zlen_cons. lia.
    + cbn. rewrite Forall_cons, Forall_app. split_and!; [lia|apply Hcr; lia|done].
Qed.

Lemma wp_find_node t (Q : option bmap_node -> mem -> Prop) :
  Forall answers (nodes t) -> StronglySorted crosses (nodes t) ->
  (forall l n r, nodes t = l ++ n :: r -> ck n = 0 -> Q (Some n) m) ->
  (Forall (fun n => ck n <> 0) (nodes t) -> Q None m) ->
  wp (cbmap_find_node cmp t) m Q.
Proof.
  intros Hans Hs. revert Hans Hs Q.
  induction t as [|h n l IHl r IHr]; intros Hans Hs Q HS HN; cbn [nodes cbmap_find_node] in *.
  { by apply wp_ret, HN. }
  apply Forall_app in Hans as [Hal [Han Har]%Forall_cons].
  destruct (crosses_split _ _ _ Hs) as [Hcl Hcr].
  apply sorted_app_inv in Hs as [Hsl [Hsr _]%StronglySorted_inv].
  apply wp_bind. eapply wp_mono; [exact Han|]. intros c m' [-> [Hneg Hzero]].
  destruct (Z.eqb_spec c 0) as [Ec|]; [|destruct (Z.ltb_spec c 0)].
  - apply wp_ret. apply (HS (nodes l) n (nodes r)); [done|lia].
  - apply IHl; [done|done| |].
    + intros l1 n1 r1 E E1. apply (HS l1 n1 (r1 ++ n :: nodes r)); [rewrite E; app_eq|done].
    + intros HF. apply HN. apply Forall_app. split; [done|]. constructor; [lia|].
      eapply Forall_impl; [apply Hcr; lia|]. cbn. lia.
  - apply IHr; [done|done| |].
    + intros l1 n1 r1 E E1. apply (HS (nodes l ++ n :: l1) n1 r1); [rewrite E; app_eq|done].
    + intros HF. apply HN. apply Forall_app. split; [|constructor; [lia|done]].
      eapply Forall_impl; [apply Hcl; lia|]. cbn. lia.
Qed.
End Descent.
