(* ===== verification/CBstMap.v ===== *)
(** * The tree map ([src/cbstmap.c])

    The map itself: its nodes are blocks that hold the key and value bytes
    behind the node struct, its pairs are pointers with sizes, and the source
    of a value may be the storage of a value of the map.  Pointers are
    resolved against the nodes of the map and against the set of live blocks,
    so a read of a freed block is [Undefined]. *)
From S2P Require Import Prelude Memory Values CBstKeys CBstTree.

(** ** The specification: a list of pairs sorted by key

    [cmp k k'] compares the key asked for with a stored one.  An update keeps
    the stored key. *)
Section Assoc.
Variable cmp : list Z -> list Z -> Z.

Fixpoint assoc_find (k : list Z) (l : list (list Z * list Z)) : option (list Z * list Z) :=
  match l with
  | [] => None
  | (k', v) :: l => if cmp k k' =? 0 then Some (k', v) else assoc_find k l
  end.

Fixpoint assoc_insert (k v : list Z) (l : list (list Z * list Z)) : list (list Z * list Z) :=
  match l with
  | [] => [(k, v)]
  | (k', v') :: l' =>
      if cmp k k' =? 0 then (k', v) :: l'
      else if cmp k k' <? 0 then (k, v) :: l
      else (k', v') :: assoc_insert k v l'
  end.

Fixpoint assoc_delete (k : list Z) (l : list (list Z * list Z)) : list (list Z * list Z) :=
  match l with
  | [] => []
  | (k', v') :: l => if cmp k k' =? 0 then l else (k', v') :: assoc_delete k l
  end.

(** Pairs whose keys are below [k] are passed over. *)
Lemma assoc_skip k v l1 l2 :
  Forall (fun e => 0 < cmp k (fst e)) l1 ->
  assoc_find k (l1 ++ l2) = assoc_find k l2 /\
  assoc_insert k v (l1 ++ l2) = l1 ++ assoc_insert k v l2 /\
  assoc_delete k (l1 ++ l2) = l1 ++ assoc_delete k l2.
Proof.
  induction 1 as [|[k' v'] l1 Hk Hl (IH1 & IH2 & IH3)]; [done|]. cbn in *.
  destruct (Z.eqb_spec (cmp k k') 0), (Z.ltb_spec (cmp k k') 0); try lia.
  by rewrite IH1, IH2, IH3.
Qed.

Lemma assoc_above k v l :
  Forall (fun e => cmp k (fst e) < 0) l ->
  assoc_find k l = None /\ assoc_insert k v l = (k, v) :: l /\ assoc_delete k l = l.
Proof.
  induction 1 as [|[k' v'] l Hk Hl (IH1 & _ & IH3)]; [done|]. cbn in *.
  destruct (Z.eqb_spec (cmp k k') 0), (Z.ltb_spec (cmp k k') 0); try lia. by rewrite IH1, IH3.
Qed.

Lemma assoc_find_none k l : assoc_find k l = None <-> Forall (fun e => cmp k (fst e) <> 0) l.
Proof.
  induction l as [|[k' v'] l IH]; [by split|]. cbn. rewrite Forall_cons. cbn.
  destruct (Z.eqb_spec (cmp k k') 0); [naive_solver|]. rewrite IH. naive_solver.
Qed.
End Assoc.

Lemma sorted_insert {A} (R : A -> A -> Prop) l1 n l2 :
  StronglySorted R (l1 ++ l2) -> Forall (fun a => R a n) l1 -> Forall (R n) l2 ->
  StronglySorted R (l1 ++ n :: l2).
Proof.
  intros Hs H1 H2. induction l1 as [|a l1 IH]; cbn in *; [by constructor|].
  apply StronglySorted_inv in Hs as [Hs Ha]. apply Forall_cons in H1 as [Han H1].
  constructor; [by apply IH|]. apply Forall_app in Ha as [Ha1 Ha2].
  apply Forall_app. split; [done|]. by constructor.
Qed.

Lemma sorted_remove {A} (R : A -> A -> Prop) l1 n l2 :
  StronglySorted R (l1 ++ n :: l2) -> StronglySorted R (l1 ++ l2).
Proof.
  induction l1 as [|a l1 IH]; cbn; intros [Hs Ha]%StronglySorted_inv; [done|].
  constructor; [by apply IH|]. rewrite !Forall_app in *. rewrite Forall_cons in Ha. tauto.
Qed.

Module CBstMap.
Section CBstMap.
Context {alloc : Allocator}.

(** [sizeof] of the structs. *)
Definition sizeof_bmap_node : Z := 56.
Definition sizeof_cbstmap : Z := 64.
Definition sizeof_procs : Z := 32.
Definition sizeof_iterator : Z := 1080.

(** [m_procs] is the copy of the caller's procs and its block. *)
Record cbstmap := Cbstmap {
  c_addr : nat;
  elem_count : Z;
  root : tree;
  m_procs : option (ccol_memmgmt_procs_t * nat);
  key_type : ccol_data_type;
  key_alignment : Z;
  custom_comparison_proc : custom_proc_t;
  key_offset : Z;
  cmp_kind : cmp_kind_t;
}.

Definition set_root (c : cbstmap) (t : tree) : cbstmap :=
  Cbstmap (c_addr c) (elem_count c) t (m_procs c) (key_type c) (key_alignment c)
    (custom_comparison_proc c) (key_offset c) (cmp_kind c).
Definition set_count (c : cbstmap) (n : Z) : cbstmap :=
  Cbstmap (c_addr c) n (root c) (m_procs c) (key_type c) (key_alignment c)
    (custom_comparison_proc c) (key_offset c) (cmp_kind c).

(** A pair: [ptr], [None] being NULL, and [size]. *)
Record cmap_pair := CmapPair { ptr_of : option ptr; size : Z }.

Inductive create_error :=
  | null_memory_management_function | failed_to_allocate_cbstmap_area
  | failed_to_allocate_memory_management_procs.

Definition verify_cbmap_create_inputs (mmgmt_procs : option ccol_memmgmt_procs_t) : bool :=
  if negb (_ccol_verify_memmgmt_procs mmgmt_procs) then false else true.

(** [_ccol_populate_mem_mgmt_procs]: the block of the copy of the procs, if
    there are procs; [None] when it cannot be allocated. *)
Definition _ccol_populate_mem_mgmt_procs (mmgmt_procs : option ccol_memmgmt_procs_t)
    : M (option (option (ccol_memmgmt_procs_t * nat))) :=
  match mmgmt_procs with
  | None => mret (Some None)
  | Some p => b ← _ccol_mem_alloc sizeof_procs; mret ((fun b => Some (p, b_id b)) <$> b)
  end.

Definition cbstmap_create_full (key_type : ccol_data_type)
    (mmgmt_procs : option ccol_memmgmt_procs_t) (custom_comparison_proc : custom_proc_t)
    : M (option cbstmap * option create_error) :=
  if negb (verify_cbmap_create_inputs mmgmt_procs)
  then mret (None, Some null_memory_management_function) else
  cbm ← _ccol_mem_alloc sizeof_cbstmap;
  match cbm with
  | None => mret (None, Some failed_to_allocate_cbstmap_area)
  | Some b =>
      procs ← _ccol_populate_mem_mgmt_procs mmgmt_procs;
      match procs with
      | None =>
          _ ← _ccol_mem_free (b_id b);
          mret (None, Some failed_to_allocate_memory_management_procs)
      | Some procs =>
          let alignment := cbmap_key_alignment key_type in
          mret (Some (Cbstmap (b_id b) 0 Leaf procs key_type alignment custom_comparison_proc
                        (CBMAP_ALIGN_UP_TO sizeof_bmap_node alignment)
                        (cbmap_cmp_kind key_type custom_comparison_proc)), None)
      end
  end.

(** [if (node->val_is_external) _ccol_mem_free(node->val_pair.ptr)]. *)
Definition free_external (node : bmap_node) : M unit :=
  match n_ext node with Some b => _ccol_mem_free b | None => mret tt end.

Definition destroy_bmap_node (node : bmap_node) : M unit :=
  _ ← touch (n_addr node);
  _ ← free_external node;
  _ccol_mem_free (n_addr node).

(** One iteration of the walk of [_clear_nodes]; the state is [stack], its
    top first, [current] and [last_visited]. *)
Definition clear_step (s : list tree * tree * option nat)
    : M (list tree * tree * option nat + unit) :=
  let '(stack, current, last_visited) := s in
  match current with
  | Node _ n l _ =>
      _ ← _ccol_assert (zlen stack <? CBMAP_MAX_TREE_HEIGHT);
      _ ← touch (n_addr n);
      mret (inl (current :: stack, l, last_visited))
  | Leaf =>
      match stack with
      | [] => mret (inr tt)
      | Leaf :: _ => undefined
      | Node _ n _ r :: rest =>
          _ ← touch (n_addr n);
          if negb (is_leaf r) && negb (bool_decide (root_addr r = last_visited))
          then mret (inl (stack, r, last_visited))
          else
            _ ← destroy_bmap_node n;
            mret (inl (rest, Leaf, Some (n_addr n)))
      end
  end.

Definition _clear_nodes (c : cbstmap) : M cbstmap :=
  match root c with
  | Leaf => mret c
  | Node _ _ _ _ =>
      _ ← loop (3 * length (nodes (root c)) + 1) clear_step ([], root c, None);
      mret (set_count (set_root c Leaf) 0)
  end.

Definition __cbstmap_destroy (c : option cbstmap) : M unit :=
  match c with
  | None => mret tt
  | Some c =>
      c ← _clear_nodes c;
      _ ← match m_procs c with
          | Some (_, b) => _ccol_mem_free b
          | None => mret tt
          end;
      _ccol_mem_free (c_addr c)
  end.

Definition cbstmap_elem_count (c : option cbstmap) : M Z := c ← deref c; mret (elem_count c).

Definition cbstmap_reset (c : option cbstmap) : M (ccol_retval_t * cbstmap) :=
  c ← deref c; c ← _clear_nodes c; mret (ccol_success, c).

(** ** Where the bytes of a node are *)

Definition val_offset (c : cbstmap) (key_size : Z) : Z :=
  CBMAP_ALIGN_UP_TO (key_offset c ⊕ key_size) CBMAP_NODE_VAL_ALIGN.

(** [node->key_pair] and [node->val_pair]. *)
Definition node_key_pair (c : cbstmap) (n : bmap_node) : cmap_pair :=
  CmapPair (if zlen (n_key n) >? 0 then Some (At (n_addr n) (key_offset c)) else None)
    (zlen (n_key n)).
Definition node_val_pair (c : cbstmap) (n : bmap_node) : cmap_pair :=
  CmapPair
    (match n_ext n with
     | Some b => Some (At b 0)
     | None =>
         if zlen (n_val n) >? 0
         then Some (At (n_addr n) (val_offset c (zlen (n_key n)))) else None
     end)
    (zlen (n_val n)).

(** [len] bytes at [off] of the block [b], as far as [n] has them there. *)
Definition node_bytes (c : cbstmap) (n : bmap_node) (b : nat) (off len : Z) : option (list Z) :=
  if bool_decide (b = n_addr n)
  then
    match within (key_offset c) (n_key n) off len with
    | Some bs => Some bs
    | None =>
        match n_ext n with
        | None => within (val_offset c (zlen (n_key n))) (n_val n) off len
        | Some _ => None
        end
    end
  else if bool_decide (n_ext n = Some b) then within 0 (n_val n) off len else None.

(** The bytes a pointer argument reaches, the caller's or the map's. *)
Definition resolve (c : cbstmap) (p : ptr) (len : Z) : option (list Z) :=
  match p with
  | Foreign bs => if (0 <=? len) && (len <=? zlen bs) then Some (ztake len bs) else None
  | At b off => first_some (fun n => node_bytes c n b off len) (nodes (root c))
  end.

Definition read_ptr (c : cbstmap) (p : ptr) (len : Z) : M (list Z) :=
  _ ← match p with At b _ => touch b | Foreign _ => mret tt end;
  ub (resolve c p len).

(** [memcpy] from the bytes of a pair; no call is made for size 0. *)
Definition read_pair (c : cbstmap) (pair : cmap_pair) : M (list Z) :=
  if size pair >? 0 then p ← ub (ptr_of pair); read_ptr c p (size pair) else mret [].

Definition pair_bytes_are_readable (pair : cmap_pair) : bool :=
  bool_decide (ptr_of pair ≠ None) || (size pair =? 0).

(** ** Nodes *)

Definition create_new_node (c : cbstmap) (key_pair val_pair : cmap_pair)
    : M (option bmap_node) :=
  let key_offset := key_offset c in
  if size key_pair >? (SIZE_MAX ⊖ key_offset) ⊖ CBMAP_NODE_VAL_ALIGN then mret None else
  let val_offset := CBMAP_ALIGN_UP_TO (key_offset ⊕ size key_pair) CBMAP_NODE_VAL_ALIGN in
  if size val_pair >? SIZE_MAX ⊖ val_offset then mret None else
  new_node ← _ccol_mem_alloc (val_offset ⊕ size val_pair);
  match new_node with
  | None => mret None
  | Some b =>
      key ← read_pair c key_pair;
      bytes ← memcpy_in (b_bytes b) key_offset key;
      val ← read_pair c val_pair;
      bytes ← memcpy_in bytes val_offset val;
      mret (Some (BmapNode (b_id b) (slice bytes key_offset (size key_pair))
                    (slice bytes val_offset (size val_pair)) None))
  end.

(** The result is [None] for a failed allocation, which leaves the caller's
    [*result] alone. *)
Definition update_bmap_node_value (c : cbstmap) (node : bmap_node) (val_pair : cmap_pair)
    : M (option ccol_retval_t * bmap_node) :=
  if negb (zlen (n_val node) =? size val_pair)
  then
    if size val_pair =? 0
    then
      _ ← free_external node;
      mret (Some ccol_key_already_present, BmapNode (n_addr node) (n_key node) [] None)
    else
      new_ptr ← _ccol_mem_alloc (size val_pair);
      match new_ptr with
      | None => mret (None, node)
      | Some b =>
          val ← read_pair c val_pair;
          bytes ← memcpy_in (b_bytes b) 0 val;
          _ ← free_external node;
          mret (Some ccol_key_already_present,
                BmapNode (n_addr node) (n_key node) bytes (Some (b_id b)))
      end
  else
    bytes ←
      (if negb (bool_decide (ptr_of (node_val_pair c node) = ptr_of val_pair)) && (size val_pair >? 0)
       then val ← read_pair c val_pair; memcpy_in (n_val node) 0 val
       else mret (n_val node) : M (list Z));
    mret (Some ccol_key_already_present, BmapNode (n_addr node) (n_key node) bytes (n_ext node)).

(** ** Descents

    The comparison is picked once per call: a typed descent reads the wanted
    key once, [compare_keys] reads it at every node. *)
Definition key_comparison (c : cbstmap) (key_pair : cmap_pair) : M (list Z -> M Z) :=
  match cmp_kind c with
  | CBMAP_CMP_GENERIC =>
      mret (fun have =>
        want ← read_pair c key_pair;
        compare_keys (key_type c) (custom_comparison_proc c) want have)
  | kind =>
      p ← ub (ptr_of key_pair);
      want ← read_ptr c p (kind_width kind);
      mret (descent_cmp kind (key_type c) (custom_comparison_proc c) want)
  end.

Definition find_node (c : cbstmap) (key_pair : cmap_pair) : M (option bmap_node) :=
  cmp ← key_comparison c key_pair; cbmap_find_node cmp (root c).

Definition descend (c : cbstmap) (key_pair : cmap_pair) : M (list node_stack_entry * tree) :=
  cmp ← key_comparison c key_pair; cbmap_descend_with_path cmp (root c) [].

(** ** Operations *)

Definition cbstmap_insert_elem (c : option cbstmap) (key_pair val_pair : option cmap_pair)
    : M (ccol_retval_t * cbstmap) :=
  c ← deref c;
  match key_pair, val_pair with
  | Some key_pair, Some val_pair =>
      if negb (pair_bytes_are_readable key_pair) || negb (pair_bytes_are_readable val_pair)
      then mret (ccol_invalid_args, c) else
      if negb (key_size_is_valid_for_type (key_type c) (size key_pair))
      then mret (ccol_invalid_args, c) else
      match root c with
      | Leaf =>
          new_node ← create_new_node c key_pair val_pair;
          match new_node with
          | None => mret (ccol_not_enough_memory, c)
          | Some n =>
              mret (ccol_success, set_count (set_root c (Node 1 n Leaf Leaf)) (elem_count c ⊕ 1))
          end
      | Node _ _ _ _ =>
          '(path, existing) ← descend c key_pair;
          match existing with
          | Node h n l r =>
              '(result, n) ← update_bmap_node_value c n val_pair;
              mret (default ccol_not_enough_memory result,
                    set_root c (plug path (Node h n l r)))
          | Leaf =>
              if elem_count c =? ccol_max_elem_count then mret (ccol_container_full, c) else
              new_node ← create_new_node c key_pair val_pair;
              match new_node with
              | None => mret (ccol_not_enough_memory, c)
              | Some n =>
                  root ← rebalance_insert path (Node 1 n Leaf Leaf);
                  mret (ccol_success, set_count (set_root c root) (elem_count c ⊕ 1))
              end
          end
      end
  | _, _ => mret (ccol_invalid_args, c)
  end.

(** The second component is what was copied into [target_buf]. *)
Definition cbstmap_get_elem_copy (c : option cbstmap) (key_pair : option cmap_pair)
    (target_given : bool) (target_buf_size : Z) : M (ccol_retval_t * option (list Z)) :=
  c ← deref c;
  match key_pair with
  | None => mret (ccol_invalid_args, None)
  | Some key_pair =>
      if negb (pair_bytes_are_readable key_pair) then mret (ccol_invalid_args, None) else
      if negb target_given && negb (target_buf_size =? 0) then mret (ccol_invalid_args, None) else
      if negb (key_size_is_valid_for_type (key_type c) (size key_pair))
      then mret (ccol_invalid_args, None) else
      tracker ← find_node c key_pair;
      match tracker with
      | None => mret (ccol_key_not_found, None)
      | Some n =>
          if negb (target_buf_size =? size (node_val_pair c n)) then mret (ccol_invalid_args, None)
          else val ← read_pair c (node_val_pair c n); mret (ccol_success, Some val)
      end
  end.

Definition cbmap_lookup_checked (c : cbstmap) (key_pair : option cmap_pair)
    : M (ccol_retval_t * option bmap_node) :=
  match key_pair with
  | None => mret (ccol_invalid_args, None)
  | Some key_pair =>
      if negb (pair_bytes_are_readable key_pair)
         || negb (key_size_is_valid_for_type (key_type c) (size key_pair))
      then mret (ccol_invalid_args, None) else
      tracker ← find_node c key_pair;
      match tracker with
      | Some n => mret (ccol_success, Some n)
      | None => mret (ccol_key_not_found, None)
      end
  end.

(** [val_given]: [val_pair] is not NULL; the second component is what it is
    set to. *)
Definition cbstmap_get_elem_ref (c : option cbstmap) (key_pair : option cmap_pair)
    (val_given : bool) : M (ccol_retval_t * option cmap_pair) :=
  c ← deref c;
  if negb val_given then mret (ccol_invalid_args, None) else
  '(ret, tracker) ← cbmap_lookup_checked c key_pair;
  match tracker with
  | None => mret (ret, Some (CmapPair None 0))
  | Some n => mret (ccol_success, Some (node_val_pair c n))
  end.

(** [*val_accessor] is the address of the pair inside the node. *)
Definition _cbstmap_get_val_accessor (c : option cbstmap) (key_pair : option cmap_pair)
    (accessor_given : bool) : M (ccol_retval_t * option bmap_node) :=
  c ← deref c;
  if negb accessor_given then mret (ccol_invalid_args, None) else
  '(ret, tracker) ← cbmap_lookup_checked c key_pair;
  mret (ret, tracker).

(** The subtree without the node at its root. *)
Definition perform_element_removal (n : bmap_node) (l r : tree) : M tree :=
  _ ← destroy_bmap_node n;
  match l, r with
  | Leaf, _ => mret r
  | _, Leaf => mret l
  | _, _ =>
      if node_height r >=? node_height l
      then
        '(r, right_min) ← cbmap_detach_extreme_iter r false;
        mret (recalculate_node_height (Node 0 right_min l r))
      else
        '(l, left_max) ← cbmap_detach_extreme_iter l true;
        mret (recalculate_node_height (Node 0 left_max l r))
  end.

Definition cbstmap_delete_elem (c : option cbstmap) (key_pair : option cmap_pair)
    : M (ccol_retval_t * cbstmap) :=
  c ← deref c;
  match key_pair with
  | None => mret (ccol_invalid_args, c)
  | Some key_pair =>
      if negb (pair_bytes_are_readable key_pair) then mret (ccol_invalid_args, c) else
      if negb (key_size_is_valid_for_type (key_type c) (size key_pair))
      then mret (ccol_invalid_args, c) else
      match root c with
      | Leaf => mret (ccol_key_not_found, c)
      | Node _ _ _ _ =>
          '(path, current) ← descend c key_pair;
          match current with
          | Leaf => mret (ccol_key_not_found, c)
          | Node _ n l r =>
              replacement ← perform_element_removal n l r;
              root ← rebalance_delete path replacement;
              mret (ccol_success, set_count (set_root c root) (elem_count c ⊖ 1))
          end
      end
  end.

(** ** The iterator

    The stack holds node pointers, here the subtrees below them. *)
Record cbmap_cmap_iterator := Iterator {
  it_addr : nat;
  it_stack : list tree;
  it_key : option cmap_pair;
  it_val : option cmap_pair;
}.

Fixpoint push_all_lefts_into_iter_stack (stack : list tree) (node : tree) : M (list tree) :=
  match node with
  | Leaf => mret stack
  | Node _ n l _ =>
      _ ← _ccol_assert (zlen stack <? CBMAP_MAX_TREE_HEIGHT);
      _ ← touch (n_addr n);
      push_all_lefts_into_iter_stack (node :: stack) l
  end.

Definition __cbstmap_iterator_destroy (it : option cbmap_cmap_iterator) : M unit :=
  match it with None => mret tt | Some it => _ccol_mem_free (it_addr it) end.

(** The pairs of the iterator point into the node; [c] is the map whose node
    it is. *)
Definition cmap_real_iter_next (c : cbstmap) (it : cbmap_cmap_iterator)
    : M (option cbmap_cmap_iterator) :=
  match it_stack it with
  | [] => _ ← __cbstmap_iterator_destroy (Some it); mret None
  | Leaf :: _ => undefined
  | Node _ n _ r :: stack =>
      _ ← touch (n_addr n);
      stack ← (if negb (is_leaf r) then push_all_lefts_into_iter_stack stack r else mret stack);
      mret (Some (Iterator (it_addr it) stack (Some (node_key_pair c n)) (Some (node_val_pair c n))))
  end.

(** The second component says whether an error string was set. *)
Definition cbstmap_begin_iter (c : option cbstmap) : M (option cbmap_cmap_iterator * bool) :=
  match c with
  | None => mret (None, false)
  | Some c =>
      if is_leaf (root c) then mret (None, false) else
      b ← _ccol_mem_alloc sizeof_iterator;
      match b with
      | None => mret (None, true)
      | Some b =>
          stack ← push_all_lefts_into_iter_stack [] (root c);
          it ← cmap_real_iter_next c (Iterator (b_id b) stack None None);
          mret (it, false)
      end
  end.

Definition cbmap_iter_next (c : cbstmap) (it : option cbmap_cmap_iterator)
    : M (option cbmap_cmap_iterator) :=
  it ← deref it; cmap_real_iter_next c it.

(** [for (it = begin; it; it = next(it))], reading the pair of each step. *)
Definition iterate (c : cbstmap) (it : option cbmap_cmap_iterator)
    : M (list (list Z * list Z)) :=
  loop (length (nodes (root c)) + 1) (fun '(it, seen) =>
    match it with
    | None => mret (inr seen)
    | Some i =>
        key ← ub (it_key i) ≫= read_pair c;
        val ← ub (it_val i) ≫= read_pair c;
        it ← cbmap_iter_next c (Some i);
        mret (inl (it, seen ++ [(key, val)]))
    end) (it, []).

(** One iteration of [cbmap_debug_validate_avl]: [stack] holds the subtrees
    still to visit. *)
Definition validate_step (stack : list tree) : M (list tree + bool) :=
  match stack with
  | [] => mret (inr true)
  | Leaf :: _ => undefined
  | (Node h _ l r as node) :: stack =>
      let expected_height :=
        1 + (if node_height l >? node_height r then node_height l else node_height r) in
      if negb (h =? expected_height) then mret (inr false) else
      let balance := node_balance node in
      if (balance >? 1) || (balance <? -1) then mret (inr false) else
      if negb (is_leaf l) && (zlen stack >=? CBMAP_MAX_TREE_HEIGHT) then mret (inr false) else
      let stack := if is_leaf l then stack else l :: stack in
      if negb (is_leaf r) && (zlen stack >=? CBMAP_MAX_TREE_HEIGHT) then mret (inr false) else
      mret (inl (if is_leaf r then stack else r :: stack))
  end.

Definition cbmap_debug_validate_avl (c : option cbstmap) : M bool :=
  match c with
  | None => mret true
  | Some c =>
      if is_leaf (root c) then mret true
      else loop (length (nodes (root c)) + 1) validate_step [root c]
  end.

(** ** The invariant of a map *)

(** The blocks of the nodes, and of the whole map. *)
Definition ids_of (n : bmap_node) : list nat := n_addr n :: option_list (n_ext n).
Fixpoint ids (ns : list bmap_node) : list nat :=
  match ns with [] => [] | n :: ns => ids_of n ++ ids ns end.
Definition procs_ids (p : option (ccol_memmgmt_procs_t * nat)) : list nat :=
  match p with Some (_, b) => [b] | None => [] end.
Definition map_ids (c : cbstmap) : list nat := c_addr c :: procs_ids (m_procs c).
Definition own_blocks (c : cbstmap) : list nat := map_ids c ++ ids (nodes (root c)).
Definition blocks (c : cbstmap) : gset nat := list_to_set (own_blocks c).

Definition order (c : cbstmap) : list Z -> list Z -> Z :=
  key_cmp (key_type c) (custom_comparison_proc c).
Definition before (c : cbstmap) (a b : bmap_node) : Prop := order c (n_key a) (n_key b) < 0.

(** A node holds a valid key, its layout fits [size_t], and only a value of
    at least one byte is outside the node. *)
Record node_wf (c : cbstmap) (n : bmap_node) : Prop := NodeWf {
  nw_key : key_wf (key_type c) (n_key n);
  nw_fits : zlen (n_key n) <= SIZE_MAX - key_offset c - CBMAP_NODE_VAL_ALIGN;
  nw_val : zlen (n_val n) < two64;
  nw_ext : forall b, n_ext n = Some b -> 0 < zlen (n_val n);
}.

(** What creation fixes. *)
Record config_ok (c : cbstmap) : Prop := ConfigOk {
  co_custom : custom_total (custom_comparison_proc c);
  co_align : key_alignment c = cbmap_key_alignment (key_type c);
  co_offset : key_offset c = CBMAP_ALIGN_UP_TO sizeof_bmap_node (key_alignment c);
  co_kind : cmp_kind c = cbmap_cmp_kind (key_type c) (custom_comparison_proc c);
  co_procs : forall p b, m_procs c = Some (p, b) -> _ccol_verify_memmgmt_procs (Some p) = true;
}.

Record map_ok (c : cbstmap) : Prop := MapOk {
  mo_config : config_ok c;
  mo_avl : avl (root c);
  mo_count : elem_count c = zlen (nodes (root c));
  mo_max : elem_count c <= ccol_max_elem_count;
  mo_sorted : StronglySorted (before c) (nodes (root c));
  mo_nodes : Forall (node_wf c) (nodes (root c));
  mo_blocks : NoDup (own_blocks c);
}.

(** The map holds the pairs [l], in the order of its keys. *)
Definition entry (n : bmap_node) : list Z * list Z := (n_key n, n_val n).
Definition repr (c : cbstmap) (l : list (list Z * list Z)) : Prop :=
  map_ok c /\ entry <$> nodes (root c) = l.

Lemma ids_app a b : ids (a ++ b) = ids a ++ ids b.
Proof. induction a as [|n a IH]; cbn [ids app]; [done|]. by rewrite IH, app_assoc. Qed.

Lemma node_in_ids n ns x : n ∈ ns -> x ∈ ids_of n -> x ∈ ids ns.
Proof.
  intros (l1 & l2 & ->)%list_elem_of_split Hx. rewrite ids_app. cbn [ids].
  rewrite !elem_of_app. auto.
Qed.

(** ** Layout *)

Lemma land_align k x :
  0 <= x < two64 -> Z.land x (Z.ldiff (Z.ones 64) (Z.ones k)) = Z.ldiff x (Z.ones k).
Proof.
  intros Hx. assert (x = Z.land x (Z.ones 64)) as E.
  { rewrite Z.land_ones by lia. rewrite Z.mod_small; [done|]. exact Hx. }
  rewrite E at 2. apply Z.bits_inj'. intros i Hi.
  rewrite Z.land_spec, !Z.ldiff_spec, Z.land_spec. by rewrite andb_assoc.
Qed.

Lemma align_up n a :
  a ∈ [1; 2; 4; 8; 16] -> 0 <= n -> n + a <= SIZE_MAX ->
  n <= CBMAP_ALIGN_UP_TO n a < n + a /\ (a | CBMAP_ALIGN_UP_TO n a).
Proof.
  intros Ha Hn Hle. unfold CBMAP_ALIGN_UP_TO.
  assert (exists k, 0 <= k <= 4 /\ a = 2 ^ k /\ SIZE_MAX - (a - 1) = Z.ldiff (Z.ones 64) (Z.ones k))
    as (k & Hk & Ea & ->).
  { repeat (apply elem_of_cons in Ha as [->|Ha]); [exists 0|exists 1|exists 2|exists 3|exists 4|]; try done.
    by apply elem_of_nil in Ha. }
  assert (0 < 2 ^ k) by (apply Z.pow_pos_nonneg; lia).
  sz. rewrite land_align by (unfold two64, SIZE_MAX in *; lia).
  rewrite Z.ldiff_ones_r, Z.shiftr_div_pow2, Z.shiftl_mul_pow2, <- Ea by lia.
  pose proof (Z.div_mod (n + a - 1) a ltac:(lia)). pose proof (Z.mod_pos_bound (n + a - 1) a ltac:(lia)).
  split; [lia|]. by eexists.
Qed.

Lemma key_alignment_cases t : cbmap_key_alignment t ∈ [1; 2; 4; 8; 16].
Proof. destruct t; cbn; set_solver. Qed.

Lemma key_offset_bounds c : config_ok c -> sizeof_bmap_node <= key_offset c < 72.
Proof.
  intros [_ Ha -> _ _]. rewrite Ha. pose proof (key_alignment_cases (key_type c)) as Hc.
  destruct (align_up sizeof_bmap_node _ Hc) as [Hb _];
    [done|destruct (key_type c); done|].
  assert (cbmap_key_alignment (key_type c) <= 16) by (destruct (key_type c); cbn; lia).
  unfold sizeof_bmap_node in *. lia.
Qed.

(** The key fits before the value, and the value is aligned. *)
Lemma val_offset_bounds c n :
  config_ok c -> 0 <= n <= SIZE_MAX - key_offset c - CBMAP_NODE_VAL_ALIGN ->
  key_offset c + n <= val_offset c n <= key_offset c + n + 15 /\ (16 | val_offset c n).
Proof.
  intros Hc Hn. pose proof (key_offset_bounds c Hc). unfold val_offset, CBMAP_NODE_VAL_ALIGN, sizeof_bmap_node in *.
  sz. destruct (align_up (key_offset c + n) 16) as [? ?]; [set_solver|lia|lia|]. split; [lia|done].
Qed.

(** ** Reading through pointers *)

Lemma node_bytes_other c n b off len : b ∉ ids_of n -> node_bytes c n b off len = None.
Proof.
  intros Hb. unfold node_bytes, ids_of in *. rewrite bool_decide_false by set_solver.
  rewrite bool_decide_false; [done|]. intros E. rewrite E in Hb. set_solver.
Qed.

Lemma first_some_node c ns n b off len bs :
  NoDup (ids ns) -> n ∈ ns -> b ∈ ids_of n -> node_bytes c n b off len = Some bs ->
  first_some (fun n => node_bytes c n b off len) ns = Some bs.
Proof.
  intros Hd Hin Hb Hbs. induction ns as [|x ns IH]; [by apply elem_of_nil in Hin|].
  cbn [first_some ids] in *. apply NoDup_app in Hd as (_ & Hd1 & Hd2).
  apply elem_of_cons in Hin as [<-|Hin]; [by rewrite Hbs|].
  rewrite node_bytes_other; [by apply IH|]. intros Hx. by apply (Hd1 b Hx), (node_in_ids n).
Qed.

(** A pointer the map resolves is into one of its blocks. *)
Lemma resolve_live c b off len bs :
  resolve c (At b off) len = Some bs -> b ∈ ids (nodes (root c)).
Proof.
  cbn. induction (nodes (root c)) as [|n ns IH]; cbn [first_some ids]; [done|]. intros H.
  destruct (decide (b ∈ ids_of n)); [by apply elem_of_app; left|].
  rewrite node_bytes_other in H by done. apply elem_of_app. auto.
Qed.

Lemma resolve_len c p len bs : resolve c p len = Some bs -> zlen bs = len /\ 0 <= len.
Proof.
  assert (forall start l off, within start l off len = Some bs -> zlen bs = len /\ 0 <= len) as Hw.
  { intros start l off. unfold within. destruct (_ && _) eqn:E; [|done]. intros [= <-].
    zbool. zlen_facts. split; [rewrite zlen_slice; lia|done]. }
  destruct p as [l|b off]; cbn.
  - destruct (_ && _) eqn:E; [|done]. intros [= <-]. zbool. zlen_facts. split; [zlia|done].
  - induction (nodes (root c)) as [|n ns IH]; cbn [first_some]; [done|].
    destruct (node_bytes c n b off len) eqn:E; [|done]. intros [= ->].
    unfold node_bytes in E. repeat case_match; simplify_eq; eauto.
Qed.

(** [reads c pair bs]: the pair describes the bytes [bs]. *)
Definition reads (c : cbstmap) (pair : cmap_pair) (bs : list Z) : Prop :=
  size pair = zlen bs /\ zlen bs < two64 /\
  (0 < size pair -> exists p, ptr_of pair = Some p /\ resolve c p (size pair) = Some bs).

Definition node_blocks_live (c : cbstmap) (m : mem) : Prop :=
  forall x, x ∈ ids (nodes (root c)) -> x ∈ m_live m.


Lemma wp_read_ptr c p len bs m (Q : list Z -> mem -> Prop) :
  resolve c p len = Some bs -> node_blocks_live c m -> Q bs m -> wp (read_ptr c p len) m Q.
Proof.
  intros Hr Hl HQ. unfold read_ptr. apply wp_bind. destruct p as [l|b off].
  - apply wp_ret. by eapply wp_ub.
  - apply wp_touch; [by apply Hl, (resolve_live c b off len bs)|]. by eapply wp_ub.
Qed.

Lemma wp_read_pair c pair bs m (Q : list Z -> mem -> Prop) :
  reads c pair bs -> node_blocks_live c m -> Q bs m -> wp (read_pair c pair) m Q.
Proof.
  intros (Hs & _ & Hp) Hl HQ. unfold read_pair. zlen_facts. rewrite Z.gtb_ltb.
  destruct (Z.ltb_spec 0 (size pair)) as [Hpos|Hle].
  - destruct (Hp Hpos) as (p & -> & Hr). cbn [ub]. apply wp_bind, wp_ret. by eapply wp_read_ptr.
  - apply wp_ret. assert (bs = []) as -> by (apply zlen_0_nil; lia). done.
Qed.

Lemma reads_readable c pair bs : reads c pair bs -> pair_bytes_are_readable pair = true.
Proof.
  intros (Hs & _ & Hp). unfold pair_bytes_are_readable. zlen_facts.
  destruct (Z.eqb_spec (size pair) 0); [by rewrite orb_true_r|].
  destruct (Hp ltac:(lia)) as (p & -> & _). done.
Qed.

(** The pairs the map hands out describe the key and the value. *)
Lemma node_val_prefix c n k :
  map_ok c -> n ∈ nodes (root c) -> 0 <= k <= zlen (n_val n) ->
  reads c (CmapPair (ptr_of (node_val_pair c n)) k) (ztake k (n_val n)).
Proof.
  intros Hok Hin Hk0. pose proof (mo_nodes _ Hok) as Hwf. rewrite Forall_forall in Hwf.
  destruct (Hwf n Hin) as [Hk Hf Hv He]. pose proof (mo_blocks _ Hok) as Hd.
  unfold own_blocks in Hd. apply NoDup_app in Hd as (_ & _ & Hd).
  assert (zlen (ztake k (n_val n)) = k) as Ek by (rewrite zlen_ztake; lia).
  split_and!; [done|rewrite Ek; lia|]. unfold node_val_pair. cbn [ptr_of size]. intros Hpos.
  pose proof (key_offset_bounds _ (mo_config _ Hok)). zlen_facts.
  destruct (n_ext n) as [b|] eqn:E; rewrite ?Z.gtb_ltb.
  - eexists. split; [done|]. cbn [resolve]. apply (first_some_node c _ n); [done|done|unfold ids_of; rewrite E; set_solver|].
    assert (b <> n_addr n) as Hne.
    { apply list_elem_of_split in Hin as (l1 & l2 & El). rewrite El, ids_app in Hd. cbn [ids] in Hd.
      apply NoDup_app in Hd as (_ & _ & [Hd _]%NoDup_app). unfold ids_of in Hd. rewrite E in Hd. cbn in Hd.
      apply NoDup_cons in Hd as [Hd _]. set_solver. }
    unfold node_bytes. rewrite bool_decide_false by done. rewrite E, bool_decide_true by done.
    apply within_prefix; lia.
  - destruct (Z.ltb_spec 0 (zlen (n_val n))); [|lia]. eexists. split; [done|]. cbn [resolve].
    apply (first_some_node c _ n); [done|done|unfold ids_of; set_solver|].
    destruct (val_offset_bounds c (zlen (n_key n)) (mo_config _ Hok)) as [Hvo _]; [lia|].
    unfold node_bytes. rewrite bool_decide_true by done. rewrite within_beyond by lia. rewrite E.
    apply within_prefix; lia.
Qed.

Lemma node_val_reads c n :
  map_ok c -> n ∈ nodes (root c) -> reads c (node_val_pair c n) (n_val n).
Proof.
  intros Hok Hin. pose proof (node_val_prefix c n (zlen (n_val n)) Hok Hin) as H. zlen_facts.
  rewrite ztake_all in H by lia. apply H. lia.
Qed.

Lemma node_key_reads c n :
  map_ok c -> n ∈ nodes (root c) -> reads c (node_key_pair c n) (n_key n).
Proof.
  intros Hok Hin. pose proof (mo_nodes _ Hok) as Hwf. rewrite Forall_forall in Hwf.
  destruct (Hwf n Hin) as [Hk Hf Hv He]. pose proof (mo_blocks _ Hok) as Hd.
  unfold own_blocks in Hd. apply NoDup_app in Hd as (_ & _ & Hd).
  pose proof (key_offset_bounds _ (mo_config _ Hok)). unfold CBMAP_NODE_VAL_ALIGN, sizeof_bmap_node in *.
  split_and!; [done|unfold two64, SIZE_MAX in *; lia|]. unfold node_key_pair. cbn [size ptr_of]. intros Hpos.
  rewrite Z.gtb_ltb. destruct (Z.ltb_spec 0 (zlen (n_key n))); [|lia]. eexists. split; [done|]. cbn [resolve].
  apply (first_some_node c _ n); [done|done|unfold ids_of; set_solver|].
  unfold node_bytes. rewrite bool_decide_true by done. by rewrite within_all.
Qed.

(** ** Comparisons *)

(** Whatever kind of descent the map makes, its comparisons have the sign
    the order of the map gives them. *)
Lemma wp_key_comparison c key_pair k m (Q : (list Z -> M Z) -> mem -> Prop) :
  config_ok c -> reads c key_pair k -> key_wf (key_type c) k -> node_blocks_live c m ->
  (forall cmp,
     (forall have, key_wf (key_type c) have ->
        wp (cmp have) m (fun s m' => m' = m /\ same_sign s (order c k have))) ->
     Q cmp m) ->
  wp (key_comparison c key_pair) m Q.
Proof.
  intros Hc Hr Hk Hl HQ. unfold key_comparison.
  assert (forall kind, kind = cmp_kind c -> forall have, key_wf (key_type c) have ->
    wp (descent_cmp kind (key_type c) (custom_comparison_proc c) k have) m
      (fun s m' => m' = m /\ same_sign s (order c k have))) as Hcmp.
  { intros kind -> have Hh. rewrite (co_kind _ Hc).
    destruct (descent_cmp_ok (key_type c) (custom_comparison_proc c) k have m Hk Hh) as (s & Hs & Hsign).
    unfold wp. by rewrite Hs. }
  assert (cmp_kind c <> CBMAP_CMP_GENERIC -> kind_width (cmp_kind c) = size key_pair /\ 0 < size key_pair) as Hw.
  { intros Hg. destruct Hr as [-> _]. unfold key_wf, key_size_is_valid_for_type in Hk.
    rewrite (co_kind _ Hc) in *. unfold cbmap_cmp_kind in *. destruct (custom_comparison_proc c); [done|].
    destruct (key_type c); cbn in Hg, Hk |- *; try done; apply Z.eqb_eq in Hk; lia. }
  destruct (cmp_kind c) eqn:Ek;
    [apply wp_ret, HQ; intros have Hh; apply wp_bind; eapply wp_read_pair; [done|done|];
     by apply (Hcmp CBMAP_CMP_GENERIC)|..];
    (destruct (Hw ltac:(done)) as [Ew Hpos]; destruct Hr as (Hs & _ & Hp);
     destruct (Hp Hpos) as (p & -> & Hres); cbn [ub]; apply wp_bind, wp_ret, wp_bind;
     rewrite Ew; eapply wp_read_ptr; [done|done|]; apply wp_ret, HQ; intros have Hh; by apply Hcmp).
Qed.

Lemma map_order_total c : config_ok c -> TotalCmp (order c).
Proof. intros Hc. apply key_cmp_total, (co_custom _ Hc). Qed.

Lemma before_crosses c k a b :
  config_ok c -> before c a b -> crosses (fun n => order c k (n_key n)) a b.
Proof.
  intros Hc Hab. pose proof (map_order_total c Hc) as HT. unfold before in Hab.
  pose proof (cmp_flip (n_key a) (n_key b) (cmp := order c)).
  split; intros H0.
  - apply (cmp_flip (n_key a) k). apply (cmp_lt_le_trans (order c) _ (n_key b)); [done|]. apply (cmp_le_ge (order c)). lia.
  - apply (cmp_le_lt_trans (order c) _ (n_key a)); [lia|done].
Qed.

Lemma sorted_weaken {A} (R S : A -> A -> Prop) l :
  (forall a b, R a b -> S a b) -> StronglySorted R l -> StronglySorted S l.
Proof.
  intros HRS. induction 1 as [|a l Hs IH Ha]; constructor; [done|].
  eapply Forall_impl; [done|]. auto.
Qed.

Lemma map_height c : map_ok c -> 0 <= node_height (root c) <= 90.
Proof.
  intros Hok. split; [apply avl_height_nonneg, (mo_avl _ Hok)|].
  apply avl_height_bound; [apply (mo_avl _ Hok)|]. rewrite <- (mo_count _ Hok). apply (mo_max _ Hok).
Qed.

Definition toward (c : cbstmap) (k : list Z) (n : bmap_node) : Z := order c k (n_key n).

Lemma wp_descend_map c key_pair k m (Q : list node_stack_entry * tree -> mem -> Prop) :
  map_ok c -> reads c key_pair k -> key_wf (key_type c) k -> node_blocks_live c m ->
  (forall path t, plug path t = root c -> descent_to (toward c k) path t -> Q (path, t) m) ->
  wp (descend c key_pair) m Q.
Proof.
  intros Hok Hr Hk Hl HQ. unfold descend. apply wp_bind. eapply wp_key_comparison; [apply Hok|done|done|done|].
  intros cmp Hcmp. pose proof (map_height _ Hok).
  apply (wp_descend cmp (toward c k)); [| |apply Hok| |done|done|].
  - apply (Forall_impl _ _ _ (mo_nodes _ Hok)). intros n [Hn _ _ _]. by apply Hcmp.
  - eapply sorted_weaken; [|apply (mo_sorted _ Hok)]. intros a b. apply before_crosses, Hok.
  - rewrite zlen_nil. unfold CBMAP_MAX_TREE_HEIGHT. lia.
  - intros path t Hp. by apply HQ.
Qed.

Lemma wp_find_map c key_pair k m (Q : option bmap_node -> mem -> Prop) :
  map_ok c -> reads c key_pair k -> key_wf (key_type c) k -> node_blocks_live c m ->
  (forall l n r, nodes (root c) = l ++ n :: r -> order c k (n_key n) = 0 -> Q (Some n) m) ->
  (Forall (fun n => order c k (n_key n) <> 0) (nodes (root c)) -> Q None m) ->
  wp (find_node c key_pair) m Q.
Proof.
  intros Hok Hr Hk Hl HS HN. unfold find_node. apply wp_bind. eapply wp_key_comparison; [apply Hok|done|done|done|].
  intros cmp Hcmp. apply (wp_find_node cmp (toward c k)); [| |done|done].
  - apply (Forall_impl _ _ _ (mo_nodes _ Hok)). intros n [Hn _ _ _]. by apply Hcmp.
  - eapply sorted_weaken; [|apply (mo_sorted _ Hok)]. intros a b. apply before_crosses, Hok.
Qed.

(** ** Rebuilding the invariant *)

Definition with_nodes (c : cbstmap) (t : tree) : cbstmap :=
  set_count (set_root c t) (zlen (nodes t)).

Lemma node_wf_config c t k n : node_wf c n -> node_wf (set_count (set_root c t) k) n.
Proof. intros [? ? ? ?]. by split. Qed.

Lemma map_ok_rebuild c t k :
  map_ok c -> avl t -> k = zlen (nodes t) -> k <= ccol_max_elem_count ->
  StronglySorted (before c) (nodes t) -> Forall (node_wf c) (nodes t) ->
  NoDup (map_ids c ++ ids (nodes t)) -> map_ok (set_count (set_root c t) k).
Proof.
  intros [Hc Ha _ _ _ _ _] ? -> ? ? Hn Hd. split; try done.
  - by destruct Hc.
  - eapply Forall_impl; [exact Hn|]. intros n. apply node_wf_config.
Qed.

Lemma sorted_by_key c ns :
  StronglySorted (before c) ns <-> StronglySorted (fun a b => order c a b < 0) (n_key <$> ns).
Proof.
  induction ns as [|n ns IH]; cbn; [split; constructor|].
  split; intros [Hs Ha]%StronglySorted_inv; constructor; try by apply IH.
  - by apply Forall_fmap.
  - by apply Forall_fmap in Ha.
Qed.

(** The blocks of a map around one of its nodes. *)
Definition rest_blocks (c : cbstmap) (l1 l2 : list bmap_node) : list nat :=
  map_ids c ++ ids l1 ++ ids l2.

Lemma blocks_around c l1 n l2 :
  map_ids c ++ ids (l1 ++ n :: l2) ≡ₚ ids_of n ++ rest_blocks c l1 l2.
Proof.
  unfold rest_blocks. rewrite ids_app. cbn [ids].
  rewrite (Permutation_app_comm (ids_of n) (map_ids c ++ _)), <- !app_assoc.
  do 2 apply Permutation_app_head. apply Permutation_app_comm.
Qed.

Lemma blocks_eq c l1 n l2 :
  nodes (root c) = l1 ++ n :: l2 ->
  blocks c = list_to_set (ids_of n) ∪ list_to_set (rest_blocks c l1 l2).
Proof.
  intros E. unfold blocks, own_blocks. rewrite E.
  apply set_eq. intros x. rewrite elem_of_list_to_set, (blocks_around c l1 n l2). set_solver.
Qed.

Lemma blocks_disjoint c l1 n l2 :
  map_ok c -> nodes (root c) = l1 ++ n :: l2 ->
  NoDup (ids_of n) /\ NoDup (rest_blocks c l1 l2) /\
  list_to_set (C := gset nat) (ids_of n) ## list_to_set (rest_blocks c l1 l2).
Proof.
  intros Hok E. pose proof (mo_blocks _ Hok) as Hd. unfold own_blocks in Hd.
  rewrite E, (blocks_around c l1 n l2) in Hd. apply NoDup_app in Hd as (H1 & H2 & H3).
  split_and!; [done|done|]. intros x Hx Hy. rewrite elem_of_list_to_set in Hx, Hy. by apply (H2 x).
Qed.

Lemma owned_live c m F : owns m (blocks c) F -> node_blocks_live c m.
Proof.
  intros [Hl _ _] x Hx. rewrite Hl. apply elem_of_union_l, elem_of_list_to_set.
  unfold own_blocks. apply elem_of_app. by right.
Qed.

Lemma owned_live_more c m X F : owns m (X ∪ blocks c) F -> node_blocks_live c m.
Proof.
  intros [Hl _ _] x Hx. rewrite Hl. apply elem_of_union_l, elem_of_union_r, elem_of_list_to_set.
  unfold own_blocks. apply elem_of_app. by right.
Qed.

(** ** Creating a node *)

(** The request a new node makes, when its size does not overflow. *)
Definition layout_fits (c : cbstmap) (k v : list Z) : Prop :=
  zlen k <= SIZE_MAX - key_offset c - CBMAP_NODE_VAL_ALIGN /\
  val_offset c (zlen k) + zlen v <= SIZE_MAX.
Definition node_request (c : cbstmap) (k v : list Z) : Z := val_offset c (zlen k) + zlen v.

Lemma wp_create_new_node c key_pair val_pair k v m F (Q : option bmap_node -> mem -> Prop) :
  config_ok c -> reads c key_pair k -> reads c val_pair v -> owns m (blocks c) F ->
  (forall m', owns m' (blocks c) F ->
     ~ layout_fits c k v \/ grant (m_next m) (node_request c k v) = false -> Q None m') ->
  (forall n m', owns m' ({[n_addr n]} ∪ blocks c) F -> n_addr n ∉ blocks c ->
     n_key n = k -> n_val n = v -> n_ext n = None -> layout_fits c k v ->
     grant (m_next m) (node_request c k v) = true -> Q (Some n) m') ->
  wp (create_new_node c key_pair val_pair) m Q.
Proof.
  intros Hc Hk Hv Ho Hnone Hsome. unfold create_new_node. cbv zeta.
  pose proof (key_offset_bounds c Hc). unfold sizeof_bmap_node in *.
  pose proof (proj1 Hk) as Eks. pose proof (proj1 Hv) as Evs. zlen_facts.
  rewrite Eks, Evs, !Z.gtb_ltb.
  assert (SIZE_MAX ⊖ key_offset c ⊖ CBMAP_NODE_VAL_ALIGN = SIZE_MAX - key_offset c - CBMAP_NODE_VAL_ALIGN) as ->
    by (unfold CBMAP_NODE_VAL_ALIGN; sz; done).
  destruct (Z.ltb_spec (SIZE_MAX - key_offset c - CBMAP_NODE_VAL_ALIGN) (zlen k)) as [Hbig|Hfit].
  { apply wp_ret, Hnone; [done|]. left. intros [? _]. lia. }
  destruct (val_offset_bounds c (zlen k) Hc) as [Hvo _]; [lia|].
  fold (val_offset c (zlen k)). unfold CBMAP_NODE_VAL_ALIGN in *.
  assert (SIZE_MAX ⊖ val_offset c (zlen k) = SIZE_MAX - val_offset c (zlen k)) as -> by (sz; done).
  destruct (Z.ltb_spec (SIZE_MAX - val_offset c (zlen k)) (zlen v)) as [Hbig|Hfit2].
  { apply wp_ret, Hnone; [done|]. left. intros [_ ?]. lia. }
  assert (layout_fits c k v) as Hlay by (split; unfold CBMAP_NODE_VAL_ALIGN; lia).
  apply wp_bind. sz. fold (node_request c k v).
  eapply wp_alloc_owns; [done|unfold node_request; lia| |].
  { intros m' Ho' Hg. apply wp_ret, Hnone; auto. }
  intros b m' Ho' Hb _ Hlen Hg. pose proof (owned_live_more _ _ _ _ Ho') as Hlive.
  unfold node_request in Hlen.
  apply wp_bind. apply (wp_read_pair c _ k); [done|done|].
  apply wp_bind, wp_memcpy_in; [lia|lia|].
  apply wp_bind. apply (wp_read_pair c _ v); [done|done|].
  apply wp_bind, wp_memcpy_in; [lia|rewrite zlen_splice; lia|].
  apply wp_ret, Hsome; cbn [n_addr n_key n_val n_ext]; try done.
  - rewrite slice_splice_before by (rewrite ?zlen_splice; lia). apply slice_splice_same; lia.
  - apply slice_splice_same; rewrite ?zlen_splice; lia.
Qed.

(** ** Updating a value *)

Lemma wp_free_external n rest m F (Q : unit -> mem -> Prop) :
  owns m (list_to_set (ids_of n) ∪ rest) F -> NoDup (ids_of n) -> list_to_set (ids_of n) ## rest ->
  (forall m', owns m' ({[n_addr n]} ∪ rest) F -> Q tt m') ->
  wp (free_external n) m Q.
Proof.
  unfold free_external, ids_of. intros Ho Hd Hr HQ. destruct (n_ext n) as [b|]; cbn in *.
  - apply NoDup_cons in Hd as [Hd _]. eapply wp_free_owns; [exact Ho|set_solver|].
    intros m' Ho'. apply HQ. apply (owns_change _ _ _ _ Ho'). set_solver.
  - apply wp_ret, HQ. apply (owns_change _ _ _ _ Ho). set_solver.
Qed.

(** The value bytes may come from the very storage that is replaced. *)
Lemma wp_update c l1 n l2 val_pair v m F (Q : option ccol_retval_t * bmap_node -> mem -> Prop) :
  map_ok c -> nodes (root c) = l1 ++ n :: l2 -> reads c val_pair v -> owns m (blocks c) F ->
  (forall m', owns m' (blocks c) F -> 0 < zlen v -> zlen v <> zlen (n_val n) ->
     grant (m_next m) (zlen v) = false -> Q (None, n) m') ->
  (forall n' m', n_addr n' = n_addr n -> n_key n' = n_key n -> n_val n' = v ->
     (forall b, n_ext n' = Some b -> 0 < zlen v) ->
     owns m' (list_to_set (ids_of n') ∪ list_to_set (rest_blocks c l1 l2)) F ->
     NoDup (ids_of n') ->
     list_to_set (C := gset nat) (ids_of n') ## list_to_set (rest_blocks c l1 l2) ->
     Q (Some ccol_key_already_present, n') m') ->
  wp (update_bmap_node_value c n val_pair) m Q.
Proof.
  intros Hok En Hv Ho Hfail Hsucc. pose proof (proj1 Hv) as Evs. zlen_facts.
  destruct (blocks_disjoint c l1 n l2 Hok En) as (Hd1 & Hd2 & Hd3).
  pose proof (blocks_eq c l1 n l2 En) as Eb.
  set (rest := list_to_set (rest_blocks c l1 l2) : gset nat) in *.
  assert (n ∈ nodes (root c)) as Hin by (rewrite En; set_solver).
  unfold update_bmap_node_value. rewrite Evs.
  destruct (Z.eqb_spec (zlen (n_val n)) (zlen v)) as [Esz|Hsz]; cbn [negb].
  - (* the same size, in place *)
    apply wp_bind. set (K := fun (bytes : list Z) (m' : mem) => _).
    assert (K v m) as HK.
    { apply wp_ret, Hsucc; cbn [n_addr n_key n_val n_ext]; try done.
      - intros b Hb. pose proof (mo_nodes _ Hok) as Hwf. rewrite Forall_forall in Hwf.
        rewrite <- Esz. by apply (nw_ext _ _ (Hwf n Hin) b).
      - unfold ids_of in *. cbn [n_addr n_ext]. by rewrite Eb in Ho. }
    destruct (bool_decide_reflect (ptr_of (node_val_pair c n) = ptr_of val_pair)) as [Ep|Hp];
      cbn [negb andb]; rewrite ?Z.gtb_ltb.
    + assert (n_val n = v) as Env.
      { destruct (Z.eq_dec (zlen v) 0) as [E0|].
        - rewrite E0 in Esz. apply zlen_0_nil in E0, Esz. congruence.
        - destruct (node_val_reads c n Hok Hin) as (Es & _ & Hr1). destruct Hv as (_ & _ & Hr2).
          destruct (Hr1 ltac:(lia)) as (p1 & E1 & R1). destruct (Hr2 ltac:(lia)) as (p2 & E2 & R2).
          rewrite Es, Esz in R1. rewrite Evs in R2. congruence. }
      apply wp_ret. by rewrite Env.
    + destruct (Z.ltb_spec 0 (zlen v)).
      * apply wp_bind. apply (wp_read_pair c _ v); [done|by eapply owned_live|].
        apply wp_memcpy_in; [lia|lia|].
        replace (splice (n_val n) 0 v) with v; [done|].
        unfold splice. rewrite ztake_0, zdrop_all by lia. by rewrite app_nil_r.
      * apply wp_ret. assert (n_val n = v) as ->; [|done].
        assert (zlen v = 0) as E0 by lia. rewrite E0 in Esz. apply zlen_0_nil in E0, Esz. congruence.
  - destruct (Z.eqb_spec (zlen v) 0) as [E0|Hne].
    + (* the empty value *)
      apply wp_bind. rewrite Eb in Ho. eapply wp_free_external; [done|done|done|]. intros m' Ho'.
      apply wp_ret, Hsucc; cbn [n_addr n_key n_val n_ext]; try done.
      * by apply zlen_0_nil in E0.
      * unfold ids_of. cbn. apply (owns_change _ _ _ _ Ho'). set_solver +.
      * unfold ids_of. cbn. apply NoDup_singleton.
      * unfold ids_of in *. cbn in *. set_solver + Hd3.
    + (* a buffer of its own *)
      apply wp_bind. eapply wp_alloc_owns; [done|lia| |].
      { intros m' Ho' Hg. apply wp_ret, Hfail; try done; lia. }
      intros b m' Ho' Hb _ Hlen _. apply wp_bind.
      apply (wp_read_pair c _ v); [done|by eapply owned_live_more|].
      apply wp_bind, wp_memcpy_in; [lia|lia|].
      assert (splice (b_bytes b) 0 v = v) as ->.
      { unfold splice. rewrite ztake_0, zdrop_all by lia. by rewrite app_nil_r. }
      rewrite Eb in *. apply wp_bind.
      eapply (wp_free_external n ({[b_id b]} ∪ rest)); [|done| |].
      * apply (owns_change _ _ _ _ Ho'). set_solver +.
      * set_solver + Hb Hd3.
      * intros m2 Ho2. unfold ids_of in Hd3, Hb. cbn in Hd3, Hb.
        apply wp_ret, Hsucc; cbn [n_addr n_key n_val n_ext]; try done; unfold ids_of; cbn [option_list n_addr n_ext].
        -- intros. lia.
        -- apply (owns_change _ _ _ _ Ho2). set_solver +.
        -- apply NoDup_cons. split; [set_solver + Hb|apply NoDup_singleton].
        -- set_solver + Hb Hd3.
Qed.

(** ** The representation after a change *)

Definition same_map (c c' : cbstmap) : Prop :=
  c_addr c' = c_addr c /\ m_procs c' = m_procs c /\ key_type c' = key_type c /\
  custom_comparison_proc c' = custom_comparison_proc c.

Lemma same_map_refl c : same_map c c.
Proof. done. Qed.

Lemma toward_entries c k ns (P : Z -> Prop) :
  Forall (fun n => P (toward c k n)) ns <-> Forall (fun e => P (order c k (fst e))) (entry <$> ns).
Proof. by rewrite Forall_fmap. Qed.

(** The list specification at the place where a descent ends. *)
Lemma assoc_at c k v ls rs :
  Forall (fun a => 0 < toward c k a) ls -> Forall (fun b => toward c k b < 0) rs ->
  assoc_find (order c) k (entry <$> (ls ++ rs)) = None /\
  assoc_insert (order c) k v (entry <$> (ls ++ rs)) = (entry <$> ls) ++ (k, v) :: (entry <$> rs) /\
  assoc_delete (order c) k (entry <$> (ls ++ rs)) = entry <$> (ls ++ rs).
Proof.
  intros Hl%(toward_entries c k ls (fun z => 0 < z)) Hr%(toward_entries c k rs (fun z => z < 0)).
  rewrite fmap_app. destruct (assoc_skip (order c) k v _ (entry <$> rs) Hl) as (-> & -> & ->).
  destruct (assoc_above (order c) k v _ Hr) as (-> & -> & ->). done.
Qed.

Lemma assoc_hit c k v ls n rs :
  Forall (fun a => 0 < toward c k a) ls -> toward c k n = 0 ->
  assoc_find (order c) k (entry <$> (ls ++ n :: rs)) = Some (entry n) /\
  assoc_insert (order c) k v (entry <$> (ls ++ n :: rs)) =
    (entry <$> ls) ++ (n_key n, v) :: (entry <$> rs) /\
  assoc_delete (order c) k (entry <$> (ls ++ n :: rs)) = entry <$> (ls ++ rs).
Proof.
  intros Hl%(toward_entries c k ls (fun z => 0 < z)) Hn. rewrite !fmap_app.
  destruct (assoc_skip (order c) k v _ (entry <$> n :: rs) Hl) as (-> & -> & ->).
  cbn. unfold toward in Hn. by rewrite Hn.
Qed.

Lemma before_of_toward c k n ls rs :
  config_ok c -> n_key n = k ->
  Forall (fun a => 0 < toward c k a) ls -> Forall (fun b => toward c k b < 0) rs ->
  Forall (fun a => before c a n) ls /\ Forall (before c n) rs.
Proof.
  intros Hc <- Hl Hr. pose proof (map_order_total c Hc).
  split; (eapply Forall_impl; [eassumption|]); unfold before, toward; intros x Hx; [|done].
  by apply (cmp_flip (cmp := order c)).
Qed.

Lemma repr_insert c l k v ls rs n t :
  repr c l -> nodes (root c) = ls ++ rs ->
  Forall (fun a => 0 < toward c k a) ls -> Forall (fun b => toward c k b < 0) rs ->
  n_key n = k -> n_val n = v -> n_ext n = None -> n_addr n ∉ blocks c ->
  key_wf (key_type c) k -> zlen v < two64 -> layout_fits c k v ->
  avl t -> nodes t = ls ++ n :: rs -> elem_count c <> ccol_max_elem_count ->
  let c' := set_count (set_root c t) (elem_count c ⊕ 1) in
  repr c' (assoc_insert (order c) k v l) /\ blocks c' = {[n_addr n]} ∪ blocks c /\
  assoc_find (order c) k l = None.
Proof.
  intros [Hok <-] En Hl Hr Ek Ev Ee Hnew Hk Hv Hlay Ha Et Hmax c'.
  destruct (assoc_at c k v ls rs Hl Hr) as (Hf & Hi & _). rewrite En.
  pose proof (mo_count _ Hok) as Hcnt. pose proof (mo_max _ Hok). rewrite En, zlen_app in Hcnt.
  assert (elem_count c ⊕ 1 = zlen (nodes t)) as Ec.
  { zlen_facts. unfold ccol_max_elem_count in *. rewrite Et, zlen_app, zlen_cons. sz. lia. }
  assert (map_ids c ++ ids (nodes t) ≡ₚ n_addr n :: own_blocks c) as Hp.
  { rewrite Et, blocks_around. unfold ids_of. rewrite Ee. cbn. constructor.
    unfold own_blocks, rest_blocks. by rewrite En, ids_app. }
  assert (blocks c' = {[n_addr n]} ∪ blocks c) as Hb.
  { apply set_eq. intros x. unfold blocks. rewrite elem_of_union, !elem_of_list_to_set.
    change (own_blocks c') with (map_ids c ++ ids (nodes t)). rewrite Hp. set_solver. }
  split_and!; [split| |]; [|change (nodes (root c')) with (nodes t); rewrite Et, Hi; cbn; rewrite fmap_app; cbn|done|done].
  - apply map_ok_rebuild; [done|done|done|unfold ccol_max_elem_count in *; zlen_facts; sz; lia| | |].
    + rewrite Et. destruct (before_of_toward c k n ls rs (mo_config _ Hok) Ek Hl Hr).
      apply sorted_insert; [rewrite <- En; apply (mo_sorted _ Hok)|done|done].
    + pose proof (mo_nodes _ Hok) as Hwf. rewrite En in Hwf. apply Forall_app in Hwf as [? ?].
      rewrite Et. apply Forall_app. split; [done|]. constructor; [|done].
      split; rewrite ?Ek, ?Ev; [done|apply Hlay|done|]. intros b Hb'. by rewrite Ee in Hb'.
    + rewrite Hp. apply NoDup_cons. split; [|apply (mo_blocks _ Hok)].
      intros Hx. apply Hnew. by apply elem_of_list_to_set.
  - by unfold entry at 2; rewrite Ek, Ev.
Qed.

Lemma repr_update c l k v ls rs n n' t :
  repr c l -> nodes (root c) = ls ++ n :: rs ->
  Forall (fun a => 0 < toward c k a) ls -> toward c k n = 0 ->
  n_key n' = n_key n -> n_val n' = v -> (forall b, n_ext n' = Some b -> 0 < zlen v) ->
  zlen v < two64 -> NoDup (ids_of n') ->
  list_to_set (C := gset nat) (ids_of n') ## list_to_set (rest_blocks c ls rs) ->
  avl t -> nodes t = ls ++ n' :: rs ->
  let c' := set_root c t in
  repr c' (assoc_insert (order c) k v l) /\
  blocks c' = list_to_set (ids_of n') ∪ list_to_set (rest_blocks c ls rs) /\
  assoc_find (order c) k l <> None.
Proof.
  intros [Hok <-] En Hl Hn Ek Ev Ee Hv Hd1 Hd2 Ha Et c'.
  destruct (assoc_hit c k v ls n rs Hl Hn) as (Hf & Hi & _). rewrite En.
  pose proof (mo_count _ Hok) as Hcnt. pose proof (mo_max _ Hok). rewrite En, zlen_app, zlen_cons in Hcnt.
  pose proof (blocks_disjoint c ls n rs Hok En) as (_ & Hd3 & _).
  assert (map_ids c ++ ids (nodes t) ≡ₚ ids_of n' ++ rest_blocks c ls rs) as Hp by (by rewrite Et, blocks_around).
  split_and!; [split| |].
  - apply (map_ok_rebuild c t (elem_count c)); [done|done|rewrite Et, zlen_app, zlen_cons; lia|done| | |].
    + apply sorted_by_key. rewrite Et. replace (n_key <$> ls ++ n' :: rs) with (n_key <$> ls ++ n :: rs).
      * rewrite <- En. apply sorted_by_key, (mo_sorted _ Hok).
      * rewrite !fmap_app. cbn. by rewrite Ek.
    + pose proof (mo_nodes _ Hok) as Hwf. rewrite En in Hwf. apply Forall_app in Hwf as [? [[? ? ? ?] ?]%Forall_cons].
      rewrite Et. apply Forall_app. split; [done|]. constructor; [|done].
      split; rewrite ?Ek, ?Ev; done.
    + rewrite Hp. apply NoDup_app. split_and!; [done| |done].
      intros x Hx Hy. apply (Hd2 x); by apply elem_of_list_to_set.
  - change (nodes (root c')) with (nodes t). rewrite Et, Hi, fmap_app. cbn. unfold entry at 2. by rewrite Ek, Ev.
  - apply set_eq. intros x. unfold blocks. rewrite elem_of_union, !elem_of_list_to_set.
    change (own_blocks c') with (map_ids c ++ ids (nodes t)). rewrite Hp. apply elem_of_app.
  - by rewrite Hf.
Qed.

Lemma repr_delete c l k ls rs n t :
  repr c l -> nodes (root c) = ls ++ n :: rs ->
  Forall (fun a => 0 < toward c k a) ls -> toward c k n = 0 ->
  avl t -> nodes t = ls ++ rs ->
  let c' := set_count (set_root c t) (elem_count c ⊖ 1) in
  repr c' (assoc_delete (order c) k l) /\ blocks c' = list_to_set (rest_blocks c ls rs) /\
  assoc_find (order c) k l <> None.
Proof.
  intros [Hok <-] En Hl Hn Ha Et c'.
  destruct (assoc_hit c k [] ls n rs Hl Hn) as (Hf & _ & Hi). rewrite En.
  pose proof (mo_count _ Hok) as Hcnt. pose proof (mo_max _ Hok). rewrite En, zlen_app, zlen_cons in Hcnt.
  pose proof (blocks_disjoint c ls n rs Hok En) as (_ & Hd3 & _).
  assert (map_ids c ++ ids (nodes t) = rest_blocks c ls rs) as Hp by (by rewrite Et, ids_app).
  assert (elem_count c ⊖ 1 = zlen (nodes t)) as Ec.
  { zlen_facts. unfold ccol_max_elem_count in *. rewrite Et, zlen_app. sz. lia. }
  split_and!; [split| |].
  - apply map_ok_rebuild; [done|done|done|rewrite Ec, Et, zlen_app; lia| | |].
    + rewrite Et. apply (sorted_remove _ _ n). rewrite <- En. apply (mo_sorted _ Hok).
    + pose proof (mo_nodes _ Hok) as Hwf. rewrite En in Hwf. apply Forall_app in Hwf as [? [_ ?]%Forall_cons].
      rewrite Et. by apply Forall_app.
    + by rewrite Hp.
  - change (nodes (root c')) with (nodes t). by rewrite Et, Hi.
  - unfold blocks. change (own_blocks c') with (map_ids c ++ ids (nodes t)). by rewrite Hp.
  - by rewrite Hf.
Qed.

(** ** What the operations answer *)

(** The request an insert makes is refused, or its size overflows. *)
Definition insert_refused (c : cbstmap) (m : mem) (k v : list Z) (found : bool) : Prop :=
  if found then grant (m_next m) (zlen v) = false
  else ~ layout_fits c k v \/ grant (m_next m) (node_request c k v) = false.

Definition insert_answer (c : cbstmap) (m : mem) (l : list (list Z * list Z)) (k v : list Z)
    (r : ccol_retval_t) (l' : list (list Z * list Z)) : Prop :=
  if negb (key_size_is_valid_for_type (key_type c) (zlen k))
  then r = ccol_invalid_args /\ l' = l
  else
    match assoc_find (order c) k l with
    | Some _ =>
        (r = ccol_key_already_present /\ l' = assoc_insert (order c) k v l) \/
        (r = ccol_not_enough_memory /\ l' = l /\ insert_refused c m k v true)
    | None =>
        (r = ccol_success /\ l' = assoc_insert (order c) k v l /\ zlen l < ccol_max_elem_count) \/
        (r = ccol_container_full /\ l' = l /\ zlen l = ccol_max_elem_count) \/
        (r = ccol_not_enough_memory /\ l' = l /\ insert_refused c m k v false)
    end.

Definition insert_post (c : cbstmap) (m : mem) F l k v : ccol_retval_t * cbstmap -> mem -> Prop :=
  fun '(r, c') m' =>
    exists l', insert_answer c m l k v r l' /\ repr c' l' /\ same_map c c' /\ owns m' (blocks c') F.

Lemma repr_zlen c l : repr c l -> zlen l = elem_count c.
Proof. intros [Hok <-]. by rewrite zlen_fmap, (mo_count _ Hok). Qed.

Lemma repr_max c l : repr c l -> zlen l <= ccol_max_elem_count.
Proof. intros Hr. rewrite (repr_zlen c l Hr). destruct Hr as [Hok _]. apply (mo_max _ Hok). Qed.

(** A new node, once it is stored and the tree rebalanced. *)
Lemma insert_new_post c m m' F l k v ls rs n t :
  repr c l -> nodes (root c) = ls ++ rs ->
  Forall (fun a => 0 < toward c k a) ls -> Forall (fun b => toward c k b < 0) rs ->
  key_wf (key_type c) k -> zlen v < two64 -> elem_count c <> ccol_max_elem_count ->
  n_key n = k -> n_val n = v -> n_ext n = None -> n_addr n ∉ blocks c -> layout_fits c k v ->
  owns m' ({[n_addr n]} ∪ blocks c) F -> avl t -> nodes t = ls ++ n :: rs ->
  insert_post c m F l k v (ccol_success, set_count (set_root c t) (elem_count c ⊕ 1)) m'.
Proof.
  intros Hr En Hl Hrs Hk Hv Hmax ? ? ? ? ? Ho Ha Et.
  edestruct (repr_insert c l k v ls rs n t) as (Hr' & Hb & Hf); try done.
  eexists. split_and!; [|exact Hr'|done|by rewrite Hb].
  unfold insert_answer. unfold key_wf in Hk. rewrite Hk, Hf. cbn [negb]. left. split_and!; [done|done|].
  pose proof (repr_max c l Hr). pose proof (repr_zlen c l Hr). lia.
Qed.

Lemma insert_none_post c m m' F l k v r :
  repr c l -> key_wf (key_type c) k -> owns m' (blocks c) F ->
  match assoc_find (order c) k l with
  | Some _ => r = ccol_not_enough_memory /\ insert_refused c m k v true
  | None =>
      (r = ccol_container_full /\ zlen l = ccol_max_elem_count) \/
      (r = ccol_not_enough_memory /\ insert_refused c m k v false)
  end -> insert_post c m F l k v (r, c) m'.
Proof.
  intros Hr Hk Ho Hcase. exists l. split_and!; [|done|done|done].
  unfold insert_answer. unfold key_wf in Hk. rewrite Hk. cbn [negb].
  destruct (assoc_find (order c) k l); naive_solver.
Qed.

(** Inserting: a new key goes where the order puts it, a present key keeps
    its place and its stored bytes and gets the new value, and a refused
    request changes nothing. *)
Lemma wp_map_insert c l key_pair val_pair k v m F :
  repr c l -> reads c key_pair k -> reads c val_pair v -> owns m (blocks c) F ->
  wp (cbstmap_insert_elem (Some c) (Some key_pair) (Some val_pair)) m (insert_post c m F l k v).
Proof.
  intros Hr Hk Hv Ho. pose proof Hr as [Hok El]. pose proof (mo_config _ Hok) as Hc.
  unfold cbstmap_insert_elem. cbn [deref]. apply wp_bind, wp_ret.
  rewrite (reads_readable c key_pair k), (reads_readable c val_pair v) by done. cbn [negb orb].
  rewrite (proj1 Hk). pose proof (proj1 (proj2 Hv)) as Hv64.
  destruct (key_size_is_valid_for_type (key_type c) (zlen k)) eqn:Ekw; cbn [negb].
  2:{ apply wp_ret. exists l. split_and!; [|done|done|done]. unfold insert_answer. by rewrite Ekw. }
  pose proof Hv as Hv0. pose proof (owned_live c m F Ho) as Hlive.
  destruct (root c) as [|h0 n0 l0 r0] eqn:Eroot.
  - rewrite <- Eroot in El. assert (nodes (root c) = [] ++ []) as En by (by rewrite Eroot).
    destruct (assoc_at c k v [] [] ltac:(constructor) ltac:(constructor)) as (Hf & _ & _).
    rewrite <- En, El in Hf.
    apply wp_bind. eapply (wp_create_new_node c _ _ k v); [done|done|done|done| |].
    + intros m' Ho' Hno. apply wp_ret, insert_none_post; [done|done|done|]. rewrite Hf. by right.
    + intros n m' Ho' Hn Enk Env Ene Hlay _. apply wp_ret.
      apply (insert_new_post _ _ _ _ _ _ _ [] [] n); try done.
      rewrite (mo_count _ Hok), Eroot. done.
  - rewrite <- Eroot in *. apply wp_bind. eapply (wp_descend_map c _ k); [done|done|done|done|].
    intros path t Hplug (Hls & Hrs & Ht). pose proof (nodes_plug path t) as En. rewrite Hplug in En.
    pose proof (mo_avl _ Hok) as Ha. rewrite <- Hplug in Ha. apply avl_plug in Ha as [Hat Hpath].
    destruct t as [|h n tl tr].
    + (* a new key *)
      cbn [nodes app] in En. destruct (assoc_at c k v _ _ Hls Hrs) as (Hf & _ & _).
      rewrite <- En, El in Hf. destruct (Z.eqb_spec (elem_count c) ccol_max_elem_count) as [Emax|Hmax].
      { apply wp_ret, insert_none_post; [done|done|done|]. rewrite Hf. left.
        by rewrite (repr_zlen c l Hr). }
      apply wp_bind. eapply (wp_create_new_node c _ _ k v); [done|done|done|done| |].
      * intros m' Ho' Hno. apply wp_ret, insert_none_post; [done|done|done|]. rewrite Hf. by right.
      * intros nn m' Ho' Hn Enk Env Ene Hlay _. apply wp_bind.
        eapply (wp_rebalance_insert path _ 0); [done| |done| |done|by left|].
        -- pose proof (top_height_plug path Leaf) as Htop. rewrite Hplug in Htop. cbn in Htop.
           rewrite <- Htop. apply map_height, Hok.
        -- cbn [avl node_height]. split_and!; done || lia.
        -- intros t' Ha' Hn'. apply wp_ret. rewrite nodes_plug in Hn'.
           by apply (insert_new_post _ _ _ _ _ _ _ (left_of path) (right_of path) nn).
    + (* the key is there *)
      cbn [nodes] in En. destruct Ht as (Hn0 & Htl & Htr).
      assert (nodes (root c) = (left_of path ++ nodes tl) ++ n :: (nodes tr ++ right_of path)) as En'
        by (rewrite En; app_eq).
      assert (Forall (fun a => 0 < toward c k a) (left_of path ++ nodes tl)) as Hls' by (by apply Forall_app).
      destruct (assoc_hit c k v _ n (nodes tr ++ right_of path) Hls' Hn0) as (Hf & _ & _).
      rewrite <- En', El in Hf.
      apply wp_bind. eapply (wp_update c _ n _ _ v); [done|exact En'|done|done| |].
      * intros m' Ho' Hpos Hne Hg. apply wp_ret. cbn [default].
        rewrite Hplug. replace (set_root c (root c)) with c by (by destruct c).
        apply insert_none_post; [done|done|done|]. rewrite Hf. done.
      * intros n' m' Ea Ek' Ev' Ee' Ho' Hd1 Hd2. apply wp_ret. cbn [default].
        destruct (repr_update c l k v _ _ n n' (plug path (Node h n' tl tr)) Hr En' Hls' Hn0)
          as (Hr' & Hb & Hf'); try done.
        { apply avl_plug. done. }
        { rewrite nodes_plug. cbn [nodes]. app_eq. }
        eexists. split_and!; [|exact Hr'|done|by rewrite Hb].
        unfold insert_answer. rewrite Ekw, Hf. cbn [negb]. by left.
Qed.

(** ** Removing a node *)

Lemma wp_destroy_node n rest m F (Q : unit -> mem -> Prop) :
  owns m (list_to_set (ids_of n) ∪ rest) F -> NoDup (ids_of n) -> list_to_set (ids_of n) ## rest ->
  (forall m', owns m' rest F -> Q tt m') ->
  wp (destroy_bmap_node n) m Q.
Proof.
  intros Ho Hd Hr HQ. unfold destroy_bmap_node. apply wp_bind, wp_touch.
  { rewrite (owns_live _ _ _ Ho). unfold ids_of. cbn. set_solver +. }
  apply wp_bind. eapply wp_free_external; [done|done|done|]. intros m1 Ho1.
  unfold ids_of in Hr. cbn in Hr.
  eapply wp_free_owns; [exact Ho1|set_solver +|]. intros m2 Ho2. apply HQ.
  apply (owns_change _ _ _ _ Ho2). set_solver + Hr.
Qed.

(** The deeper side gives its extreme node, so the subtree left behind is
    balanced and at most one level lower. *)
Lemma wp_removal h n l r rest m F (Q : tree -> mem -> Prop) :
  avl (Node h n l r) -> h <= 90 ->
  owns m (list_to_set (ids_of n) ∪ rest) F -> NoDup (ids_of n) -> list_to_set (ids_of n) ## rest ->
  (forall t m', owns m' rest F -> avl t -> nodes t = nodes l ++ nodes r ->
     h - 1 <= node_height t <= h -> Q t m') ->
  wp (perform_element_removal n l r) m Q.
Proof.
  intros (Hl & Hr & Eh & Hb) Hh Ho Hd Hdr HQ. tree_heights. unfold perform_element_removal.
  apply wp_bind. eapply wp_destroy_node; [done|done|done|]. intros m' Ho'.
  destruct l as [|lh ln ll lr].
  { apply wp_ret, HQ; [done|done|done|]. cbn [node_height] in *. lia. }
  destruct r as [|rh rn rl rr].
  { apply wp_ret, HQ; [done|done|cbn [nodes]; by rewrite app_nil_r|]. cbn [node_height] in *. lia. }
  set (l := Node lh ln ll lr) in *. set (r := Node rh rn rl rr) in *.
  rewrite Z.geb_leb. destruct (Z.leb_spec (node_height l) (node_height r)) as [Hle|Hgt]; apply wp_bind.
  - apply wp_detach_extreme; [done|done|lia|]. intros r' x Har Hn Hhr. tree_heights.
    apply wp_ret. rewrite recalculate_small by lia.
    apply HQ; [done|cbn [avl]; split_and!; done || lia|cbn [nodes]; by rewrite Hn|cbn [node_height]; lia].
  - apply wp_detach_extreme; [done|done|lia|]. intros l' x Hal Hn Hhl. tree_heights.
    apply wp_ret. rewrite recalculate_small by lia.
    apply HQ; [done|cbn [avl]; split_and!; done || lia|cbn [nodes]; rewrite Hn; app_eq|cbn [node_height]; lia].
Qed.

Definition delete_answer (c : cbstmap) (l : list (list Z * list Z)) (k : list Z)
    (r : ccol_retval_t) (l' : list (list Z * list Z)) : Prop :=
  l' = (if key_size_is_valid_for_type (key_type c) (zlen k) then assoc_delete (order c) k l else l) /\
  r = (if key_size_is_valid_for_type (key_type c) (zlen k)
       then match assoc_find (order c) k l with Some _ => ccol_success | None => ccol_key_not_found end
       else ccol_invalid_args).

Definition delete_post (c : cbstmap) F l k : ccol_retval_t * cbstmap -> mem -> Prop :=
  fun '(r, c') m' =>
    exists l', delete_answer c l k r l' /\ repr c' l' /\ same_map c c' /\ owns m' (blocks c') F.

Lemma wp_delete c l key_pair k m F :
  repr c l -> reads c key_pair k -> owns m (blocks c) F ->
  wp (cbstmap_delete_elem (Some c) (Some key_pair)) m (delete_post c F l k).
Proof.
  intros Hr Hk Ho. pose proof Hr as [Hok El]. pose proof (mo_config _ Hok) as Hc.
  unfold cbstmap_delete_elem. cbn [deref]. apply wp_bind, wp_ret.
  rewrite (reads_readable c key_pair k) by done. cbn [negb]. rewrite (proj1 Hk).
  destruct (key_size_is_valid_for_type (key_type c) (zlen k)) eqn:Ekw; cbn [negb].
  2:{ apply wp_ret. exists l. unfold delete_answer. by rewrite Ekw. }
  pose proof (owned_live c m F Ho) as Hlive.
  destruct (root c) as [|h0 n0 l0 r0] eqn:Eroot.
  { apply wp_ret. exists l. unfold delete_answer. rewrite Ekw. cbn in El. subst l. done. }
  rewrite <- Eroot in *. apply wp_bind. eapply (wp_descend_map c _ k); [done|done|done|done|].
  intros path t Hplug (Hls & Hrs & Ht). pose proof (nodes_plug path t) as En. rewrite Hplug in En.
  pose proof (mo_avl _ Hok) as Ha. rewrite <- Hplug in Ha. apply avl_plug in Ha as [Hat Hpath].
  destruct t as [|h n tl tr].
  { cbn [nodes app] in En. destruct (assoc_at c k [] _ _ Hls Hrs) as (Hf & _ & Hd).
    rewrite <- En, El in Hf, Hd. apply wp_ret. exists l. unfold delete_answer. by rewrite Ekw, Hf, Hd. }
  cbn [nodes] in En. destruct Ht as (Hn0 & Htl & Htr).
  assert (nodes (root c) = (left_of path ++ nodes tl) ++ n :: (nodes tr ++ right_of path)) as En'
    by (rewrite En; app_eq).
  assert (Forall (fun a => 0 < toward c k a) (left_of path ++ nodes tl)) as Hls' by (by apply Forall_app).
  destruct (blocks_disjoint c _ n _ Hok En') as (Hd1 & _ & Hd3).
  rewrite (blocks_eq c _ n _ En') in Ho.
  pose proof (map_height c Hok) as Hh. pose proof (top_height_plug path (Node h n tl tr)) as Htop.
  rewrite Hplug in Htop. pose proof (path_height _ _ Hpath). cbn [node_height] in *. zlen_facts.
  apply wp_bind. eapply (wp_removal h); [done|lia|done|done|done|].
  intros t m' Ho' Hat' Hnt Hht. pose proof (avl_height_nonneg _ Hat).
  apply wp_bind. eapply (wp_rebalance_delete path _ h); [done|lia|done|done|done|].
  intros t' Ha' Hn'. apply wp_ret.
  destruct (repr_delete c l k _ _ n t' Hr En' Hls' Hn0) as (Hr' & Hb & Hf); [done| |].
  { rewrite Hn', nodes_plug, Hnt. app_eq. }
  eexists. split_and!; [|exact Hr'|done|by rewrite Hb].
  unfold delete_answer. rewrite Ekw. destruct (assoc_find (order c) k l); done.
Qed.

(** ** Lookups *)

Lemma assoc_found c l k :
  repr c l ->
  (forall ls n rs, nodes (root c) = ls ++ n :: rs -> order c k (n_key n) = 0 ->
     assoc_find (order c) k l = Some (entry n)) /\
  (Forall (fun n => order c k (n_key n) <> 0) (nodes (root c)) -> assoc_find (order c) k l = None).
Proof.
  intros [Hok <-]. split.
  - intros ls n rs En Hn. rewrite En.
    destruct (assoc_hit c k [] ls n rs) as (Hf & _ & _); [|done|done].
    assert (StronglySorted (crosses (toward c k)) (ls ++ n :: rs)) as Hs.
    { rewrite <- En. eapply sorted_weaken; [|apply (mo_sorted _ Hok)]. intros a b.
      apply before_crosses, Hok. }
    apply crosses_split in Hs as [Hs _]. apply Hs. unfold toward. lia.
  - intros HF. apply assoc_find_none. by apply Forall_fmap.
Qed.

Definition lookup_answer (c : cbstmap) (l : list (list Z * list Z)) (k : list Z) : option (list Z * list Z) :=
  if key_size_is_valid_for_type (key_type c) (zlen k) then assoc_find (order c) k l else None.
Definition lookup_code (c : cbstmap) (l : list (list Z * list Z)) (k : list Z) : ccol_retval_t :=
  if key_size_is_valid_for_type (key_type c) (zlen k)
  then match assoc_find (order c) k l with Some _ => ccol_success | None => ccol_key_not_found end
  else ccol_invalid_args.

Lemma wp_lookup_checked c l key_pair k m (Q : ccol_retval_t * option bmap_node -> mem -> Prop) :
  repr c l -> reads c key_pair k -> node_blocks_live c m ->
  (forall n, n ∈ nodes (root c) -> lookup_answer c l k = Some (entry n) ->
     Q (ccol_success, Some n) m) ->
  (lookup_answer c l k = None -> Q (lookup_code c l k, None) m) ->
  wp (cbmap_lookup_checked c (Some key_pair)) m Q.
Proof.
  intros Hr Hk Hl HS HN. pose proof Hr as [Hok _]. unfold cbmap_lookup_checked, lookup_answer, lookup_code in *.
  rewrite (reads_readable c key_pair k) by done. cbn [negb orb]. rewrite (proj1 Hk).
  destruct (key_size_is_valid_for_type (key_type c) (zlen k)) eqn:Ekw; cbn [negb].
  2:{ by apply wp_ret, HN. }
  destruct (assoc_found c l k Hr) as [Hin Hout].
  apply wp_bind. eapply (wp_find_map c _ k); [done|done|done|done| |].
  - intros ls n rs En Hn. apply wp_ret, HS; [rewrite En; set_solver +|]. by eapply Hin.
  - intros HF. apply wp_ret. specialize (Hout HF). rewrite Hout in HN. by apply HN.
Qed.

(** [cbstmap_get_elem_copy] copies the value when the size given is its
    size. *)
Lemma wp_get_copy c l key_pair k given size m F :
  repr c l -> reads c key_pair k -> owns m (blocks c) F ->
  wp (cbstmap_get_elem_copy (Some c) (Some key_pair) given size) m (fun '(r, out) m' =>
    m' = m /\
    if negb given && negb (size =? 0) then r = ccol_invalid_args /\ out = None
    else match lookup_answer c l k with
         | Some (_, v) =>
             if size =? zlen v then r = ccol_success /\ out = Some v
             else r = ccol_invalid_args /\ out = None
         | None => r = lookup_code c l k /\ out = None
         end).
Proof.
  intros Hr Hk Ho. pose proof Hr as [Hok _]. pose proof (owned_live c m F Ho) as Hlive.
  unfold cbstmap_get_elem_copy, lookup_answer, lookup_code. cbn [deref]. apply wp_bind, wp_ret.
  rewrite (reads_readable c key_pair k) by done. cbn [negb]. rewrite (proj1 Hk).
  destruct (negb given && negb (size =? 0)); [by apply wp_ret|].
  destruct (key_size_is_valid_for_type (key_type c) (zlen k)) eqn:Ekw; cbn [negb]; [|by apply wp_ret].
  destruct (assoc_found c l k Hr) as [Hin Hout].
  apply wp_bind. eapply (wp_find_map c _ k); [done|done|done|done| |].
  - intros ls n rs En Hn. rewrite (Hin ls n rs En Hn). cbn [entry]. unfold entry.
    change (CBstMap.size (node_val_pair c n)) with (zlen (n_val n)).
    destruct (size =? zlen (n_val n)); cbn [negb]; [|by apply wp_ret].
    apply wp_bind. eapply (wp_read_pair c _ (n_val n)); [|done|by apply wp_ret].
    apply node_val_reads; [done|]. rewrite En. set_solver +.
  - intros HF. rewrite (Hout HF). by apply wp_ret.
Qed.

(** [cbstmap_get_elem_ref] hands out a pair that describes the value, and
    clears the caller's pair on every failure. *)
Lemma wp_get_ref c l key_pair k m F :
  repr c l -> reads c key_pair k -> owns m (blocks c) F ->
  wp (cbstmap_get_elem_ref (Some c) (Some key_pair) true) m (fun '(r, out) m' =>
    m' = m /\
    match lookup_answer c l k with
    | Some (_, v) =>
        r = ccol_success /\ exists p, out = Some p /\ size p = zlen v /\ reads c p v /\
          forall k, 0 <= k <= zlen v -> reads c (CmapPair (ptr_of p) k) (ztake k v)
    | None => r = lookup_code c l k /\ out = Some (CmapPair None 0)
    end).
Proof.
  intros Hr Hk Ho. pose proof Hr as [Hok _]. unfold cbstmap_get_elem_ref. cbn [deref negb].
  apply wp_bind, wp_ret, wp_bind. eapply (wp_lookup_checked c l _ k); [done|done|by eapply owned_live| |].
  - intros n Hin ->. apply wp_ret. split; [done|]. cbn. split; [done|]. eexists.
    split_and!; [done|done|by apply node_val_reads|]. intros k0. by apply node_val_prefix.
  - intros ->. by apply wp_ret.
Qed.

(** ** Clearing and destroying *)

Lemma wp_loop_step {S R} fuel (body : S -> M (S + R)) s m (Q : R -> mem -> Prop) :
  wp (body s) m (fun r m' =>
    match r with inl s' => wp (loop fuel body s') m' Q | inr x => Q x m' end) ->
  wp (loop (Datatypes.S fuel) body s) m Q.
Proof.
  intros H. cbn [loop]. apply wp_bind. eapply wp_mono; [exact H|]. intros [s'|x] m'; done.
Qed.

Lemma wp_loop_more {S R} fuel fuel' (body : S -> M (S + R)) s m (Q : R -> mem -> Prop) :
  (fuel <= fuel')%nat -> wp (loop fuel body s) m Q -> wp (loop fuel' body s) m Q.
Proof.
  revert fuel' s m. induction fuel as [|fuel IH]; intros fuel' s m Hle H; [done|].
  destruct fuel' as [|fuel']; [lia|]. apply wp_loop_step.
  unfold wp in *. cbn [loop] in H. unfold mbind, M_bind in H.
  destruct (body s m) as [[s'|x] m'| | |]; try done. apply IH; [lia|done].
Qed.

Definition visited (t : tree) (last : option nat) : option nat :=
  match t with Leaf => last | Node _ n _ _ => Some (n_addr n) end.

Lemma addr_in_ids n ns : n ∈ ns -> n_addr n ∈ ids ns.
Proof. intros H. apply (node_in_ids n); [done|]. unfold ids_of. set_solver +. Qed.

Lemma visited_cases t last :
  (t = Leaf /\ visited t last = last) \/
  (exists n, n ∈ nodes t /\ visited t last = Some (n_addr n) /\ root_addr t = Some (n_addr n)).
Proof.
  destruct t as [|h n l r]; [by left|]. right. exists n. split_and!; [|done|done]. cbn. set_solver +.
Qed.

(** The walk frees the blocks of a subtree, each exactly once, and comes
    back to the stack it started from. *)
Lemma clear_subtree t : forall stack last m X F f (Q : unit -> mem -> Prop),
  avl t -> zlen stack + node_height t <= CBMAP_MAX_TREE_HEIGHT ->
  NoDup (ids (nodes t)) -> (forall n, n ∈ nodes t -> last <> Some (n_addr n)) ->
  list_to_set (ids (nodes t)) ## X -> owns m (list_to_set (ids (nodes t)) ∪ X) F ->
  (forall m', owns m' X F -> wp (loop f clear_step (stack, Leaf, visited t last)) m' Q) ->
  wp (loop (3 * length (nodes t) + f) clear_step (stack, t, last)) m Q.
Proof.
  induction t as [|h n l IHl r IHr]; intros stack last m X F f Q Ha Hlen Hd Hlast Hdx Ho HQ.
  { apply HQ. apply (owns_change _ _ _ _ Ho). cbn. set_solver +. }
  cbn [nodes avl node_height] in *. destruct Ha as (Hl & Hr & Eh & _). tree_heights.
  rewrite ids_app in *. cbn [ids] in *. rewrite !list_to_set_app_L in *.
  apply NoDup_app in Hd as (Hdl & Hdn & [Hdo [Hdnr Hdr]]%NoDup_app).
  set (L := list_to_set (ids (nodes l)) : gset nat) in *.
  set (N := list_to_set (ids_of n) : gset nat) in *.
  set (R := list_to_set (ids (nodes r)) : gset nat) in *.
  assert (n_addr n ∈ N) as HnN by (apply elem_of_list_to_set; unfold ids_of; set_solver +).
  assert (L ## N ∪ R) as HLNR.
  { intros x Hx Hy. unfold L, N, R in Hx, Hy.
    rewrite elem_of_union, !elem_of_list_to_set in Hy. rewrite elem_of_list_to_set in Hx.
    apply (Hdn x); [done|]. by apply elem_of_app. }
  assert (N ## R) as HNR.
  { intros x Hx Hy. unfold N, R in Hx, Hy. rewrite elem_of_list_to_set in Hx, Hy. by apply (Hdnr x). }
  assert (r = Leaf -> R = ∅) as HRe by (unfold R; by intros ->).
  assert (N = list_to_set (ids_of n)) as EN by done. clearbody L N R.
  rewrite length_app. cbn [length].
  replace (3 * (length (nodes l) + S (length (nodes r))) + f)%nat
    with (S (3 * length (nodes l) + S (3 * length (nodes r) + S f)))%nat by lia.
  apply wp_loop_step. cbn [clear_step]. apply wp_bind, wp_assert; [apply Z.ltb_lt; lia|].
  apply wp_bind, wp_touch; [rewrite (owns_live _ _ _ Ho); set_solver + HnN|]. apply wp_ret.
  assert (forall m' last' fuel, (S f <= fuel)%nat -> owns m' (N ∪ X) F -> last' = root_addr r \/ r = Leaf ->
    wp (loop fuel clear_step (Node h n l r :: stack, Leaf, last')) m' Q) as Hpop.
  { intros m' last' fuel Hf Ho' Hv. destruct fuel as [|fuel]; [lia|].
    apply wp_loop_step. cbn [clear_step]. apply wp_bind, wp_touch; [rewrite (owns_live _ _ _ Ho'); set_solver + HnN|].
    assert (negb (is_leaf r) && negb (bool_decide (root_addr r = last')) = false) as ->.
    { destruct Hv as [-> | ->]; [|done]. by rewrite bool_decide_true, andb_false_r. }
    apply wp_bind. eapply wp_destroy_node; [rewrite <- EN; exact Ho'|done|rewrite <- EN; set_solver + Hdx|]. intros m2 Ho2.
    apply wp_ret. apply (wp_loop_more f); [lia|]. by apply HQ. }
  apply (IHl _ _ _ (N ∪ R ∪ X) F); [done|rewrite zlen_cons; lia|done| |set_solver + Hdx HLNR| |].
  - intros x Hx. apply Hlast. set_solver + Hx.
  - apply (owns_change _ _ _ _ Ho). set_solver +.
  - intros m' Ho'.
    assert (forall x, x ∈ nodes r -> visited l last <> Some (n_addr x)) as Hvl.
    { intros x Hx E. destruct (visited_cases l last) as [[_ Ev]|(ln & Hln & Ev & _)]; rewrite Ev in E.
      - apply (Hlast x); [|done]. set_solver + Hx.
      - injection E as E. apply (Hdn (n_addr ln)); [by apply addr_in_ids|].
        rewrite E. apply elem_of_app. right. by apply addr_in_ids. }
    destruct (visited_cases r (visited l last)) as [[Er _]|(rn & Hrn & Ev & Err)].
    { apply Hpop; [lia| |by right]. apply (owns_change _ _ _ _ Ho'). rewrite (HRe Er). set_solver +. }
    apply wp_loop_step. cbn [clear_step].
    apply wp_bind, wp_touch; [rewrite (owns_live _ _ _ Ho'); set_solver + HnN|].
    assert (negb (is_leaf r) && negb (bool_decide (root_addr r = visited l last)) = true) as ->.
    { rewrite bool_decide_false; [by destruct r|]. rewrite Err. intros E. by apply (Hvl rn). }
    apply wp_ret. apply (IHr _ _ _ (N ∪ X) F); [done|rewrite zlen_cons; lia|done|done|set_solver + Hdx HNR| |].
    + apply (owns_change _ _ _ _ Ho'). set_solver +.
    + intros m2 Ho2. apply Hpop; [lia|done|]. left. by rewrite Ev, Err.
Qed.

Definition map_blocks (c : cbstmap) : gset nat := list_to_set (map_ids c).

Lemma wp_clear c l m F (Q : cbstmap -> mem -> Prop) :
  repr c l -> owns m (blocks c) F ->
  (forall c' m', repr c' [] -> same_map c c' -> blocks c' = map_blocks c -> owns m' (map_blocks c) F -> Q c' m') ->
  wp (_clear_nodes c) m Q.
Proof.
  intros [Hok El] Ho HQ. pose proof (mo_blocks _ Hok) as Hd. unfold own_blocks in Hd.
  apply NoDup_app in Hd as (Hd1 & Hd2 & Hd3).
  assert (blocks c = list_to_set (ids (nodes (root c))) ∪ map_blocks c) as Eb.
  { unfold blocks, own_blocks, map_blocks. rewrite list_to_set_app_L. by rewrite (comm_L (∪)). }
  unfold _clear_nodes. destruct (root c) as [|h n tl tr] eqn:Eroot.
  - apply wp_ret, HQ; [split; [done|by rewrite Eroot]|done| |].
    + rewrite Eb. cbn. set_solver +.
    + apply (owns_change _ _ _ _ Ho). rewrite Eb. cbn. set_solver +.
  - rewrite <- Eroot in *. apply wp_bind. pose proof (map_height c Hok). rewrite Eb in Ho.
    eapply clear_subtree; [apply Hok|rewrite zlen_nil; unfold CBMAP_MAX_TREE_HEIGHT; lia|done|done| |exact Ho|].
    + intros x Hx Hy. unfold map_blocks in Hy. rewrite elem_of_list_to_set in Hx, Hy. by apply (Hd2 x).
    + intros m' Ho'. apply wp_loop_step. cbn [clear_step]. apply wp_ret, wp_ret, HQ; [|done| |done].
      * split; [|done]. apply map_ok_rebuild; try done.
        -- constructor.
        -- cbn. by rewrite app_nil_r.
      * unfold blocks, own_blocks. cbn. by rewrite app_nil_r.
Qed.

Lemma wp_map_destroy c l m F :
  repr c l -> owns m (blocks c) F ->
  wp (__cbstmap_destroy (Some c)) m (fun _ m' => owns m' ∅ F).
Proof.
  intros Hr Ho. unfold __cbstmap_destroy. apply wp_bind. eapply wp_clear; [done|done|].
  intros c' m' Hr' (Ea & Ep & _ & _) Hb Ho'. rewrite Ea, Ep.
  assert (NoDup (map_ids c)) as Hd.
  { destruct Hr as [Hok _]. pose proof (mo_blocks _ Hok) as Hd. unfold own_blocks in Hd.
    by apply NoDup_app in Hd as (? & _). }
  unfold map_blocks, map_ids, procs_ids in *. apply wp_bind.
  destruct (m_procs c) as [[p b]|]; cbn in Ho', Hd.
  - apply NoDup_cons in Hd as [Hd _].
    eapply wp_free_owns; [exact Ho'|set_solver +|]. intros m2 Ho2.
    eapply wp_free_owns; [exact Ho2|set_solver + Hd|]. intros m3 Ho3.
    apply (owns_change _ _ _ _ Ho3). set_solver +.
  - apply wp_ret. eapply wp_free_owns; [exact Ho'|set_solver +|]. intros m3 Ho3.
    apply (owns_change _ _ _ _ Ho3). set_solver +.
Qed.

(** ** Creating *)

Lemma wp_map_create kt procs cp m F (Q : option cbstmap * option create_error -> mem -> Prop) :
  owns m ∅ F -> custom_total cp ->
  (forall e m', owns m' ∅ F -> Q (None, Some e) m') ->
  (forall c m', repr c [] -> owns m' (blocks c) F -> key_type c = kt ->
     custom_comparison_proc c = cp -> (fst <$> m_procs c) = procs -> Q (Some c, None) m') ->
  wp (cbstmap_create_full kt procs cp) m Q.
Proof.
  intros Ho Hcp Hno Hyes. unfold cbstmap_create_full, verify_cbmap_create_inputs.
  destruct (_ccol_verify_memmgmt_procs procs) eqn:Ev; cbn [negb]; [|by apply wp_ret, Hno].
  apply wp_bind. eapply wp_alloc_owns; [exact Ho|done| |].
  { intros m' Ho' _. by apply wp_ret, Hno. }
  intros b m1 Ho1 _ _ _ _. apply wp_bind. unfold _ccol_populate_mem_mgmt_procs.
  assert (forall ps m', NoDup (b_id b :: procs_ids ps) -> (fst <$> ps) = procs ->
    owns m' (list_to_set (b_id b :: procs_ids ps)) F ->
    Q (Some (Cbstmap (b_id b) 0 Leaf ps kt (cbmap_key_alignment kt) cp
               (CBMAP_ALIGN_UP_TO sizeof_bmap_node (cbmap_key_alignment kt)) (cbmap_cmp_kind kt cp)), None) m') as Hdone.
  { intros ps m' Hd Eps Ho'. apply Hyes; [| |done|done|done].
    - split; [|done]. split; try done; cbn; [|constructor|by rewrite app_nil_r].
      split; try done. cbn. intros p b' ->. cbn in Eps. by rewrite <- Eps in Ev.
    - unfold blocks, own_blocks, map_ids. cbn. by rewrite app_nil_r. }
  destruct procs as [p|].
  - apply wp_bind. eapply wp_alloc_owns; [exact Ho1|done| |].
    + intros m2 Ho2 _. apply wp_ret. apply wp_bind.
      eapply wp_free_owns; [exact Ho2|set_solver +|]. intros m3 Ho3. apply wp_ret, Hno.
      apply (owns_change _ _ _ _ Ho3). set_solver +.
    + intros b2 m2 Ho2 Hb2 _ _ _. apply wp_ret, wp_ret, (Hdone (Some (p, b_id b2))); [|done|].
      * cbn. apply NoDup_cons. split; [set_solver + Hb2|apply NoDup_singleton].
      * apply (owns_change _ _ _ _ Ho2). cbn. set_solver +.
  - apply wp_ret, wp_ret, (Hdone None); [apply NoDup_singleton|done|].
    apply (owns_change _ _ _ _ Ho1). cbn. set_solver +.
Qed.

(** ** Walks with a stack of subtrees *)

(** Every entry leaves room for its own subtree above those below it, in a
    stack of [bound] entries. *)
Fixpoint stack_fits (bound : Z) (stack : list tree) : Prop :=
  match stack with
  | [] => True
  | t :: rest =>
      t <> Leaf /\ avl t /\ zlen rest + node_height t <= bound /\ stack_fits bound rest
  end.
Abbreviation stack_ok := (stack_fits CBMAP_MAX_TREE_HEIGHT).

Lemma stack_fits_length bound stack : 0 <= bound -> stack_fits bound stack -> zlen stack <= bound.
Proof.
  intros Hb. destruct stack as [|t rest]; cbn [stack_fits]; [rewrite zlen_nil; lia|].
  intros (Hne & Ha & Hle & _). rewrite zlen_cons. destruct t as [|h n l r]; [done|].
  cbn [avl node_height] in *. destruct Ha as (Hl & Hr & -> & _).
  pose proof (avl_height_nonneg l Hl). pose proof (avl_height_nonneg r Hr). lia.
Qed.

(** What an iterator has left: each pending node and its right subtree. *)
Fixpoint pending (stack : list tree) : list bmap_node :=
  match stack with
  | [] => []
  | Leaf :: rest => pending rest
  | Node _ n _ r :: rest => n :: nodes r ++ pending rest
  end.

Lemma wp_push_all_lefts_fits bound t stack m (Q : list tree -> mem -> Prop) :
  bound <= CBMAP_MAX_TREE_HEIGHT -> avl t -> stack_fits bound stack -> zlen stack + node_height t <= bound ->
  (forall n, n ∈ nodes t -> n_addr n ∈ m_live m) ->
  (forall stack', stack_fits bound stack' -> pending stack' = nodes t ++ pending stack -> Q stack' m) ->
  wp (push_all_lefts_into_iter_stack stack t) m Q.
Proof.
  intros Hb. revert stack. induction t as [|h n l IHl r IHr]; intros stack Ha Hs Hlen Hlive HQ.
  { by apply wp_ret, HQ. }
  pose proof Ha as (Hl & Hr & Eh & Hbal). cbn [node_height nodes push_all_lefts_into_iter_stack] in *. tree_heights.
  apply wp_bind, wp_assert; [apply Z.ltb_lt; lia|].
  apply wp_bind, wp_touch; [apply Hlive; set_solver +|].
  apply IHl; [done| |rewrite zlen_cons; lia|intros x Hx; apply Hlive; set_solver + Hx|].
  - cbn [stack_fits node_height]. by split_and!.
  - intros stack' Hs' Hp. apply HQ; [done|]. rewrite Hp. cbn [pending]. app_eq.
Qed.

Lemma wp_push_all_lefts t stack m (Q : list tree -> mem -> Prop) :
  avl t -> stack_ok stack -> zlen stack + node_height t <= CBMAP_MAX_TREE_HEIGHT ->
  (forall n, n ∈ nodes t -> n_addr n ∈ m_live m) ->
  (forall stack', stack_ok stack' -> pending stack' = nodes t ++ pending stack -> Q stack' m) ->
  wp (push_all_lefts_into_iter_stack stack t) m Q.
Proof. by apply wp_push_all_lefts_fits. Qed.

(** One step: the next pending node, or the end and the free of the
    iterator. *)
Lemma wp_real_iter_next_fits bound c it m own F (Q : option cbmap_cmap_iterator -> mem -> Prop) :
  bound <= CBMAP_MAX_TREE_HEIGHT -> stack_fits bound (it_stack it) -> owns m ({[it_addr it]} ∪ own) F -> it_addr it ∉ own ->
  (forall n, n ∈ pending (it_stack it) -> n_addr n ∈ own) ->
  (forall n rest stack', pending (it_stack it) = n :: rest -> stack_fits bound stack' -> pending stack' = rest ->
     Q (Some (Iterator (it_addr it) stack' (Some (node_key_pair c n)) (Some (node_val_pair c n)))) m) ->
  (forall m', pending (it_stack it) = [] -> owns m' own F -> Q None m') ->
  wp (cmap_real_iter_next c it) m Q.
Proof.
  intros Hb Hs Ho Hid Hlive HS HN. unfold cmap_real_iter_next. destruct (it_stack it) as [|t stack].
  { unfold __cbstmap_iterator_destroy. apply wp_bind.
    eapply wp_free_owns; [exact Ho|set_solver +|]. intros m' Ho'. apply wp_ret, HN; [done|].
    apply (owns_change _ _ _ _ Ho'). set_solver + Hid. }
  destruct Hs as (Hne & Ha & Hlen & Hs). destruct t as [|h n l r]; [done|].
  cbn [pending avl node_height] in *. destruct Ha as (Hl & Hr & Eh & _). tree_heights.
  assert (forall x, x ∈ n :: nodes r -> n_addr x ∈ m_live m) as Hl'.
  { intros x Hx. rewrite (owns_live _ _ _ Ho). assert (n_addr x ∈ own); [|set_solver].
    apply Hlive. set_solver + Hx. }
  apply wp_bind, wp_touch; [apply Hl'; set_solver +|]. apply wp_bind.
  destruct r as [|rh rn rl rr]; cbn [is_leaf negb].
  - apply wp_ret, wp_ret. by apply (HS n (pending stack)).
  - apply (wp_push_all_lefts_fits bound); [done|done|done|lia|intros x Hx; apply Hl'; set_solver + Hx|].
    intros stack' Hs' Hp. apply wp_ret. by eapply HS.
Qed.

Lemma wp_real_iter_next c it m own F (Q : option cbmap_cmap_iterator -> mem -> Prop) :
  stack_ok (it_stack it) -> owns m ({[it_addr it]} ∪ own) F -> it_addr it ∉ own ->
  (forall n, n ∈ pending (it_stack it) -> n_addr n ∈ own) ->
  (forall n rest stack', pending (it_stack it) = n :: rest -> stack_ok stack' -> pending stack' = rest ->
     Q (Some (Iterator (it_addr it) stack' (Some (node_key_pair c n)) (Some (node_val_pair c n)))) m) ->
  (forall m', pending (it_stack it) = [] -> owns m' own F -> Q None m') ->
  wp (cmap_real_iter_next c it) m Q.
Proof. by apply wp_real_iter_next_fits. Qed.

Lemma wp_iterate_rest c l b m F fuel (Q : list (list Z * list Z) -> mem -> Prop) :
  repr c l -> b ∉ blocks c ->
  (forall m', owns m' (blocks c) F -> Q l m') ->
  forall it seen rest,
  (length rest < fuel)%nat ->
  match it with
  | None => owns m (blocks c) F /\ seen ++ (entry <$> rest) = l /\ rest = []
  | Some i => exists n tl, rest = n :: tl /\ n ∈ nodes (root c) /\ seen ++ (entry <$> rest) = l /\
      it_addr i = b /\ it_key i = Some (node_key_pair c n) /\ it_val i = Some (node_val_pair c n) /\
      stack_ok (it_stack i) /\ pending (it_stack i) = tl /\
      (forall x, x ∈ tl -> x ∈ nodes (root c)) /\ owns m ({[b]} ∪ blocks c) F
  end ->
  wp (loop fuel (fun '(it, seen) =>
    match it with
    | None => mret (inr seen)
    | Some i =>
        key ← ub (it_key i) ≫= read_pair c;
        val ← ub (it_val i) ≫= read_pair c;
        it ← cbmap_iter_next c (Some i);
        mret (inl (it, seen ++ [(key, val)]))
    end) (it, seen)) m Q.
Proof.
  intros Hr Hb HQ. pose proof Hr as [Hok _]. revert m.
  induction fuel as [|fuel IH]; intros m it seen rest Hf Hit; [lia|]. apply wp_loop_step.
  destruct it as [i|].
  2:{ destruct Hit as (Ho & El & ->). apply wp_ret. rewrite app_nil_r in El. subst seen. by apply HQ. }
  destruct Hit as (n & tl & -> & Hin & El & Ei & Ek & Ev & Hs & Hp & Htl & Ho).
  rewrite Ek, Ev. cbn [ub]. pose proof (owned_live_more c m {[b]} F Ho) as Hlive.
  apply wp_bind, wp_bind, wp_ret. eapply wp_read_pair; [by apply node_key_reads|done|].
  apply wp_bind, wp_bind, wp_ret. eapply wp_read_pair; [by apply node_val_reads|done|].
  apply wp_bind. unfold cbmap_iter_next. cbn [deref]. apply wp_bind, wp_ret.
  assert (seen ++ [(n_key n, n_val n)] ++ (entry <$> tl) = l) as El' by (rewrite <- El; done).
  rewrite app_assoc in El'. cbn [length] in Hf.
  eapply (wp_real_iter_next c i m (blocks c) F); [done|by rewrite Ei|by rewrite Ei| | |].
  - rewrite Hp. intros x Hx. apply elem_of_list_to_set, elem_of_app. right. by apply addr_in_ids, Htl.
  - intros n' rest' stack' Hp' Hs' Hr'. rewrite Hp in Hp'. apply wp_ret. apply (IH _ _ _ tl); [lia|].
    exists n', rest'. cbn. split_and!; try done.
    + apply Htl. rewrite Hp'. set_solver +.
    + intros x Hx. apply Htl. rewrite Hp'. set_solver + Hx.
  - intros m' Hp' Ho'. rewrite Hp in Hp'. subst tl. rewrite Hp' in El', Hf. apply wp_ret. apply (IH _ _ _ []); [cbn in *; lia|]. by split_and!.
Qed.

Lemma wp_iteration c l m F :
  repr c l -> owns m (blocks c) F ->
  wp ('(it, failed) ← cbstmap_begin_iter (Some c);
      if failed : bool then mret None else seen ← iterate c it; mret (Some seen)) m
    (fun seen m' => owns m' (blocks c) F /\
      match seen with
      | Some s => s = l
      | None => grant (m_next m) sizeof_iterator = false
      end).
Proof.
  intros Hr Ho. pose proof Hr as [Hok El]. apply wp_bind. unfold cbstmap_begin_iter.
  destruct (is_leaf (root c)) eqn:Eleaf.
  { apply wp_ret, wp_bind. destruct (root c) eqn:Er; [|done]. cbn in El.
    eapply (wp_iterate_rest c l (S (m_next m)) m F); [done| | | |].
    - intros Hx. pose proof (owns_wf _ _ _ Ho) as Hwf. specialize (Hwf (S (m_next m))).
      rewrite (owns_live _ _ _ Ho) in Hwf. assert (S (m_next m) ∈ blocks c ∪ F) as Hy by set_solver.
      specialize (Hwf Hy). lia.
    - intros m' Ho'. by apply wp_ret.
    - instantiate (1 := []). rewrite Er. cbn. lia.
    - by split_and!. }
  apply wp_bind. eapply wp_alloc_owns; [exact Ho|done| |].
  { intros m' Ho' Hg. by apply wp_ret, wp_ret. }
  intros b m' Ho' Hb _ _ _. pose proof (map_height c Hok). apply wp_bind.
  assert (forall n, n ∈ nodes (root c) -> n_addr n ∈ blocks c) as Hown.
  { intros n Hn. apply elem_of_list_to_set, elem_of_app. right. by apply addr_in_ids. }
  apply wp_push_all_lefts; [apply Hok|done|rewrite zlen_nil; unfold CBMAP_MAX_TREE_HEIGHT; lia| |].
  { intros n Hn%Hown. rewrite (owns_live _ _ _ Ho'). set_solver + Hn. }
  intros stack Hs Hp. cbn [pending] in Hp. rewrite app_nil_r in Hp. apply wp_bind.
  eapply (wp_real_iter_next c _ m' (blocks c) F); cbn [it_stack it_addr]; [done|done|done|by rewrite Hp| |].
  - intros n rest stack' Hp' Hs' Hr'. apply wp_ret, wp_bind. rewrite Hp in Hp'.
    apply (wp_iterate_rest c l (b_id b) m' F _ _ Hr Hb) with (rest := n :: rest).
    + intros m2 Ho2. by apply wp_ret.
    + rewrite Hp'. lia.
    + exists n, rest. cbn [it_addr it_key it_val it_stack app].
      split_and!; try done; [rewrite Hp'; set_solver +|by rewrite <- Hp'|].
      intros x Hx. rewrite Hp'. set_solver + Hx.
  - intros m2 Hp'. rewrite Hp in Hp'. destruct (root c); [done|]. cbn in Hp'. by apply app_eq_nil in Hp' as [_ ?].
Qed.

(** The debug validator accepts the trees of the map and no other. *)
Lemma wp_validate c m :
  map_ok c -> wp (cbmap_debug_validate_avl (Some c)) m (fun b m' => b = true /\ m' = m).
Proof.
  intros Hok. unfold cbmap_debug_validate_avl. destruct (is_leaf (root c)) eqn:El; [by apply wp_ret|].
  pose proof (map_height c Hok) as Hh.
  assert (stack_ok [root c]) as Hs.
  { cbn [stack_fits]. rewrite zlen_nil. unfold CBMAP_MAX_TREE_HEIGHT.
    split_and!; [by destruct (root c)|apply Hok|lia|done]. }
  assert (length (concat (nodes <$> [root c])) < length (nodes (root c)) + 1)%nat as Hf
    by (cbn; rewrite app_nil_r; lia).
  revert Hs Hf. generalize (length (nodes (root c)) + 1)%nat as fuel. generalize [root c] as stack.
  clear. intros stack fuel. revert stack.
  induction fuel as [|fuel IH]; intros stack Hs Hf; [lia|]. apply wp_loop_step.
  destruct stack as [|t rest]; [by apply wp_ret|]. cbn [validate_step].
  destruct Hs as (Hne & Ha & Hlen & Hs). destruct t as [|h n l r]; [done|].
  cbn [avl node_height fmap list_fmap concat nodes] in *. rewrite !length_app in Hf. cbn [length] in Hf.
  destruct Ha as (Hl & Hr & Eh & Hb). tree_heights. zlen_facts. rewrite !Z.gtb_ltb.
  assert (1 + (if node_height r <? node_height l then node_height l else node_height r) = h) as ->
    by (destruct (Z.ltb_spec (node_height r) (node_height l)); lia).
  rewrite Z.eqb_refl. cbn [negb node_balance].
  assert ((1 <? node_height r - node_height l) || (node_height r - node_height l <? -1) = false) as ->
    by (destruct (Z.ltb_spec 1 (node_height r - node_height l)), (Z.ltb_spec (node_height r - node_height l) (-1)); done || lia).
  assert (forall t, avl t -> t <> Leaf -> 1 <= node_height t) as Hpos.
  { intros t Ht Hne'. destruct t as [|h' n' l' r']; [done|]. destruct Ht as (? & ? & -> & _). tree_heights. cbn. lia. }
  rewrite !Z.geb_leb.
  destruct l as [|lh ln ll lr], r as [|rh rn rl rr]; cbn [is_leaf negb andb];
    repeat match goal with
    | H : avl (Node ?a ?b ?x ?y) |- _ =>
        let t := constr:(Node a b x y) in learn_hyp (Hpos t H ltac:(discriminate))
    end;
    rewrite ?zlen_cons;
    repeat match goal with
    | |- context [CBMAP_MAX_TREE_HEIGHT <=? ?x] =>
        destruct (Z.leb_spec CBMAP_MAX_TREE_HEIGHT x); [lia|]
    end;
    apply wp_ret, IH; cbn [stack_fits fmap list_fmap concat]; rewrite ?zlen_cons, ?length_app; try done;
    try (split_and!; done || lia); cbn [nodes] in *; rewrite ?length_app in *; cbn [length] in *; lia.
Qed.

(** A validated tree is balanced with the right heights. *)
Lemma validate_sound fuel stack m m' :
  loop fuel validate_step stack m = Done true m' -> Forall avl stack.
Proof.
  revert stack m. induction fuel as [|fuel IH]; intros stack m H; [done|].
  cbn [loop] in H. destruct stack as [|t rest]; [constructor|]. destruct t as [|h n l r]; [done|].
  cbn [validate_step] in H.
  cbn [node_balance] in H. rewrite !Z.gtb_ltb in H.
  destruct (Z.eqb_spec h (1 + (if node_height r <? node_height l then node_height l else node_height r)))
    as [Eh|]; cbn [negb] in H; [|done].
  destruct (Z.ltb_spec 1 (node_height r - node_height l)); cbn [orb] in H; [done|].
  destruct (Z.ltb_spec (node_height r - node_height l) (-1)); [done|].
  destruct (negb (is_leaf l) && _); [done|]. destruct (negb (is_leaf r) && _); [done|].
  unfold mbind, M_bind, mret, M_ret in H. apply IH in H.
  assert (avl l /\ avl r /\ Forall avl rest) as (Hl & Hr & Hrest).
  { destruct (is_leaf r) eqn:Er, (is_leaf l) eqn:El; rewrite ?Forall_cons in H;
      try (destruct l; [|done]); try (destruct r; [|done]); cbn; tauto. }
  constructor; [|done]. cbn [avl]. split_and!; [done|done| |lia|lia].
  destruct (Z.ltb_spec (node_height r) (node_height l)); lia.
Qed.
(** A pair of the caller's own memory. *)
Definition foreign (bs : list Z) : cmap_pair := CmapPair (Some (Foreign bs)) (zlen bs).

Lemma reads_foreign c bs : zlen bs < two64 -> reads c (foreign bs) bs.
Proof.
  intros Hs. zlen_facts. split_and!; [done|done|]. cbn. intros _. eexists. split; [done|]. cbn.
  rewrite Z.leb_refl. destruct (Z.leb_spec 0 (zlen bs)); [|lia]. cbn. by rewrite ztake_all.
Qed.

End CBstMap.
End CBstMap.

(** ** Properties of the operations *)
Section Properties.
Context {alloc : Allocator}.
Import CBstMap.

(** C27: an insertion refuses a key whose size its type excludes, stores a
    new pair where the order puts it, gives a present key the new value and
    keeps its stored bytes, whether the value comes from the caller's memory
    or from storage of the map that the update frees; it fails only for a
    full map or when the one request it makes is refused or overflows
    [size_t], and then nothing changes. *)
Theorem map_insert c l key_pair val_pair k v m F :
  repr c l -> reads c key_pair k -> reads c val_pair v -> owns m (blocks c) F ->
  wp (cbstmap_insert_elem (Some c) (Some key_pair) (Some val_pair)) m (fun '(r, c') m' =>
    exists l', insert_answer c m l k v r l' /\ repr c' l' /\ same_map c c' /\ owns m' (blocks c') F).
Proof. intros. by apply wp_map_insert. Qed.

(** C26: a deletion removes exactly the pair whose key compares equal, gives
    back its blocks and no other, and rebalances; it needs no memory, so it
    never fails for lack of it. *)
Theorem map_delete c l key_pair k m F :
  repr c l -> reads c key_pair k -> owns m (blocks c) F ->
  wp (cbstmap_delete_elem (Some c) (Some key_pair)) m (fun '(r, c') m' =>
    exists l', delete_answer c l k r l' /\ repr c' l' /\ same_map c c' /\ owns m' (blocks c') F).
Proof. intros. by apply wp_delete. Qed.

(** The pair [cbstmap_get_elem_ref] hands out describes the stored value
    of the key, and reading through it gives what
    [cbstmap_get_elem_copy] copies for the same size; a key that is absent
    or of a wrong size is answered with its code and a cleared pair. *)
Theorem map_lookup c l key_pair k m F :
  repr c l -> reads c key_pair k -> owns m (blocks c) F ->
  wp ('(r, out) ← cbstmap_get_elem_ref (Some c) (Some key_pair) true;
      match out with
      | None => mret (r, None, None)
      | Some p =>
          '(r', copy) ← cbstmap_get_elem_copy (Some c) (Some key_pair) true (size p);
          direct ← read_pair c p;
          mret (r, Some (p, direct), Some (r', copy))
      end) m (fun '(r, ref, copied) m' => m' = m /\ exists p direct, ref = Some (p, direct) /\
    match lookup_answer c l k with
    | Some (_, v) => r = ccol_success /\ direct = v /\ copied = Some (ccol_success, Some v)
    | None => r = lookup_code c l k /\ p = CmapPair None 0 /\ copied = Some (r, None)
    end).
Proof.
  intros Hr Hk Ho. pose proof (owned_live c m F Ho). apply wp_bind.
  eapply wp_mono; [by apply (wp_get_ref c l _ k m F)|]. intros [r out] m' [-> Hout].
  destruct (lookup_answer c l k) as [[k' v]|] eqn:El.
  - destruct Hout as (-> & p & -> & Es & Hp & _). apply wp_bind.
    eapply wp_mono; [by apply (wp_get_copy c l _ k true _ m F)|]. intros [r2 copy] m2 [-> Hcopy]. cbn [negb andb] in Hcopy.
    rewrite El, Es, Z.eqb_refl in Hcopy. destruct Hcopy as [-> ->].
    apply wp_bind. eapply wp_read_pair; [done|done|]. apply wp_ret. split; [done|]. by exists p, v.
  - destruct Hout as (-> & ->). apply wp_bind.
    eapply wp_mono; [by apply (wp_get_copy c l _ k true _ m F)|]. intros [r2 copy] m2 [-> Hcopy]. cbn [negb andb] in Hcopy.
    rewrite El in Hcopy. destruct Hcopy as [-> ->]. apply wp_bind, wp_ret, wp_ret.
    split; [done|]. by exists (CmapPair None 0), [].
Qed.

(** An iteration over a map either fails to allocate its iterator or
    visits every pair exactly once, in ascending order of the keys, with a
    fixed stack that never overflows, and frees the iterator at the end. *)
Theorem map_iteration c l m F :
  repr c l -> owns m (blocks c) F ->
  wp ('(it, failed) ← cbstmap_begin_iter (Some c);
      if failed : bool then mret None else seen ← iterate c it; mret (Some seen)) m
    (fun seen m' => owns m' (blocks c) F /\
      match seen with
      | Some s => s = l
      | None => grant (m_next m) sizeof_iterator = false
      end).
Proof. intros. by apply wp_iteration. Qed.

(** The debug validator accepts every map the operations can build, and
    what it accepts is an AVL tree with correct heights. *)
Theorem validator_sound_complete c m :
  (map_ok c -> cbmap_debug_validate_avl (Some c) m = Done true m) /\
  (forall m', cbmap_debug_validate_avl (Some c) m = Done true m' -> avl (root c)).
Proof.
  split.
  - intros Hok. destruct (wp_run _ _ _ (wp_validate c m Hok)) as (b & m' & -> & -> & ->). done.
  - intros m' H. unfold cbmap_debug_validate_avl in H. destruct (is_leaf (root c)) eqn:El.
    { by destruct (root c). }
    apply validate_sound in H. by apply Forall_cons in H as [? _].
Qed.

(** A node is one block in which the node struct, the key and the value
    do not overlap: the key starts at the alignment of its type behind the
    struct, the value at a multiple of 16 behind the key; a size that makes
    the sum overflow is refused without a request. *)
Theorem node_layout c l key_pair val_pair k v m F :
  repr c l -> reads c key_pair k -> reads c val_pair v -> owns m (blocks c) F ->
  sizeof_bmap_node <= key_offset c /\ (cbmap_key_alignment (key_type c) | key_offset c) /\
  (layout_fits c k v ->
     key_offset c + zlen k <= val_offset c (zlen k) /\ (CBMAP_NODE_VAL_ALIGN | val_offset c (zlen k)) /\
     node_request c k v = val_offset c (zlen k) + zlen v /\ node_request c k v <= SIZE_MAX) /\
  wp (create_new_node c key_pair val_pair) m (fun n m' =>
    match n with
    | Some n => layout_fits c k v /\ n_key n = k /\ n_val n = v /\ owns m' ({[n_addr n]} ∪ blocks c) F
    | None => owns m' (blocks c) F /\
              (layout_fits c k v -> grant (m_next m) (node_request c k v) = false)
    end).
Proof.
  intros [Hok _] Hk Hv Ho. pose proof (mo_config _ Hok) as Hc. pose proof (key_offset_bounds c Hc).
  split_and!; [lia| | |].
  - rewrite (co_offset _ Hc), (co_align _ Hc).
    apply align_up; [apply key_alignment_cases|done|destruct (key_type c); done].
  - intros [Hf1 Hf2]. zlen_facts. destruct (val_offset_bounds c (zlen k) Hc) as [? ?]; [lia|].
    unfold node_request. split_and!; [lia|done|done|done].
  - eapply (wp_create_new_node c _ _ k v m F); try done.
    intros m' Ho' [Hno|Hno]; (split; [done|]); [by intros|done].
Qed.

(** A NULL pair, or one that promises bytes at a NULL pointer, is
    answered with [ccol_invalid_args] before anything is read or changed,
    by every operation that takes pairs. *)
Theorem map_invalid_pairs c key_pair val_pair m :
  match key_pair with Some p => pair_bytes_are_readable p | None => false end
    && match val_pair with Some p => pair_bytes_are_readable p | None => false end = false ->
  cbstmap_insert_elem (Some c) key_pair val_pair m = Done (ccol_invalid_args, c) m /\
  (match key_pair with Some p => pair_bytes_are_readable p | None => false end = false ->
   cbstmap_delete_elem (Some c) key_pair m = Done (ccol_invalid_args, c) m /\
   (forall given n, cbstmap_get_elem_copy (Some c) key_pair given n m = Done (ccol_invalid_args, None) m) /\
   cbstmap_get_elem_ref (Some c) key_pair true m = Done (ccol_invalid_args, Some (CmapPair None 0)) m /\
   _cbstmap_get_val_accessor (Some c) key_pair true m = Done (ccol_invalid_args, None) m).
Proof.
  intros H. split.
  - destruct key_pair as [kp|], val_pair as [vp|]; try done. unfold cbstmap_insert_elem. cbn.
    apply andb_false_iff in H as [-> | ->]; cbn; [done|]. by rewrite orb_true_r.
  - intros Hk. destruct key_pair as [kp|]; [|by split_and!].
    unfold cbstmap_delete_elem, cbstmap_get_elem_copy, cbstmap_get_elem_ref, _cbstmap_get_val_accessor,
      cbmap_lookup_checked. cbn. by rewrite Hk.
Qed.
End Properties.

(** ** Witnesses

    A map of three [int] keys, one of whose values is outside its node. *)
Section Witnesses.
Import CBstMap.

Definition tree_n (addr : nat) (key : Z) (val : list Z) (ext : option nat) : bmap_node :=
  BmapNode addr [key; 0; 0; 0] val ext.
Definition tree_c : cbstmap :=
  Cbstmap 0 3 (Node 2 (tree_n 1 2 [20; 21] (Some 4%nat))
                 (Node 1 (tree_n 2 1 [10] None) Leaf Leaf) (Node 1 (tree_n 3 3 [] None) Leaf Leaf))
    None ccol_int 4 None 56 CBMAP_CMP_S32.
Definition tree_l : list (list Z * list Z) :=
  [([1; 0; 0; 0], [10]); ([2; 0; 0; 0], [20; 21]); ([3; 0; 0; 0], [])].
Definition tree_mem : mem := Mem 5 {[0; 1; 2; 3; 4]}%nat.

Lemma tree_repr : repr tree_c tree_l.
Proof.
  split; [|reflexivity]. split; try reflexivity.
  - split; try reflexivity. done.
  - cbn. lia.
  - cbn. unfold ccol_max_elem_count. lia.
  - repeat constructor.
  - repeat constructor; try reflexivity; cbn; try discriminate;
      intros; simplify_eq; reflexivity.
  - apply (bool_decide_unpack _). vm_compute. exact I.
Qed.

Lemma tree_owns : owns tree_mem (blocks tree_c) ∅.
Proof.
  split; [|apply disjoint_empty_r|].
  - apply (bool_decide_unpack _). vm_compute. exact I.
  - intros k. cbn. rewrite !elem_of_union, !elem_of_singleton. lia.
Qed.

Definition key2 : cmap_pair := foreign [2; 0; 0; 0].
Lemma tree_key : reads tree_c key2 [2; 0; 0; 0].
Proof. by apply reads_foreign. Qed.

(** The second byte of the value that is replaced. *)
Definition own_byte : cmap_pair := CmapPair (Some (At 4 1)) 1.
Lemma tree_val : reads tree_c own_byte [21].
Proof. split_and!; [done|done|]. intros _. by exists (At 4 1). Qed.

Example map_insert_witness :
  let alloc := grant_up_to 1000 in
  wp (cbstmap_insert_elem (Some tree_c) (Some key2) (Some own_byte)) tree_mem (fun '(r, c') m' =>
    exists l', insert_answer tree_c tree_mem tree_l [2; 0; 0; 0] [21] r l' /\ repr c' l' /\
      same_map tree_c c' /\ owns m' (blocks c') ∅) /\
  (match cbstmap_insert_elem (Some tree_c) (Some key2) (Some own_byte) tree_mem with
   | Done (r, c') _ => (r, assoc_find (order c') [2; 0; 0; 0] (entry <$> nodes (root c')))
   | _ => (ccol_unexpected_failure, None)
   end) = (ccol_key_already_present, Some ([2; 0; 0; 0], [21])).
Proof.
  intros alloc. split; [|vm_compute; reflexivity].
  apply (map_insert tree_c tree_l key2 own_byte [2; 0; 0; 0] [21] tree_mem ∅);
    [apply tree_repr|apply tree_key|apply tree_val|apply tree_owns].
Defined.

Example map_delete_witness :
  wp (cbstmap_delete_elem (Some tree_c) (Some key2)) tree_mem (fun '(r, c') m' =>
    exists l', delete_answer tree_c tree_l [2; 0; 0; 0] r l' /\ repr c' l' /\
      same_map tree_c c' /\ owns m' (blocks c') ∅).
Proof.
  apply (map_delete tree_c tree_l key2 [2; 0; 0; 0] tree_mem ∅);
    [apply tree_repr|apply tree_key|apply tree_owns].
Defined.

Example map_lookup_witness :
  wp ('(r, out) ← cbstmap_get_elem_ref (Some tree_c) (Some key2) true;
      match out with
      | None => mret (r, None, None)
      | Some p =>
          '(r', copy) ← cbstmap_get_elem_copy (Some tree_c) (Some key2) true (size p);
          direct ← read_pair tree_c p;
          mret (r, Some (p, direct), Some (r', copy))
      end) tree_mem (fun '(r, ref, copied) m' => m' = tree_mem /\ exists p direct, ref = Some (p, direct) /\
    match lookup_answer tree_c tree_l [2; 0; 0; 0] with
    | Some (_, v) => r = ccol_success /\ direct = v /\ copied = Some (ccol_success, Some v)
    | None => r = lookup_code tree_c tree_l [2; 0; 0; 0] /\ p = CmapPair None 0 /\ copied = Some (r, None)
    end).
Proof.
  apply (map_lookup tree_c tree_l key2 [2; 0; 0; 0] tree_mem ∅);
    [apply tree_repr|apply tree_key|apply tree_owns].
Defined.

Example map_iteration_witness :
  let alloc := grant_up_to 2000 in
  wp ('(it, failed) ← cbstmap_begin_iter (Some tree_c);
      if failed : bool then mret None else seen ← iterate tree_c it; mret (Some seen)) tree_mem
    (fun seen m' => owns m' (blocks tree_c) ∅ /\
      match seen with
      | Some s => s = tree_l
      | None => grant (m_next tree_mem) sizeof_iterator = false
      end).
Proof. intros alloc. apply (map_iteration tree_c tree_l tree_mem ∅); [apply tree_repr|apply tree_owns]. Defined.

Example validator_sound_complete_witness :
  cbmap_debug_validate_avl (Some tree_c) tree_mem = Done true tree_mem /\ avl (root tree_c).
Proof.
  destruct (validator_sound_complete tree_c tree_mem) as [Hc Hs].
  assert (cbmap_debug_validate_avl (Some tree_c) tree_mem = Done true tree_mem) as H by apply Hc, tree_repr.
  split; [exact H|exact (Hs _ H)].
Defined.

Example node_layout_witness :
  let alloc := grant_up_to 1000 in
  sizeof_bmap_node <= key_offset tree_c /\ (cbmap_key_alignment (key_type tree_c) | key_offset tree_c) /\
  (layout_fits tree_c [2; 0; 0; 0] [21] ->
     key_offset tree_c + zlen [2; 0; 0; 0] <= val_offset tree_c (zlen [2; 0; 0; 0]) /\
     (CBMAP_NODE_VAL_ALIGN | val_offset tree_c (zlen [2; 0; 0; 0])) /\
     node_request tree_c [2; 0; 0; 0] [21] = val_offset tree_c (zlen [2; 0; 0; 0]) + zlen [21] /\
     node_request tree_c [2; 0; 0; 0] [21] <= SIZE_MAX) /\
  wp (create_new_node tree_c key2 own_byte) tree_mem (fun n m' =>
    match n with
    | Some n => layout_fits tree_c [2; 0; 0; 0] [21] /\ n_key n = [2; 0; 0; 0] /\ n_val n = [21] /\
                owns m' ({[n_addr n]} ∪ blocks tree_c) ∅
    | None => owns m' (blocks tree_c) ∅ /\
              (layout_fits tree_c [2; 0; 0; 0] [21] ->
               grant (m_next tree_mem) (node_request tree_c [2; 0; 0; 0] [21]) = false)
    end).
Proof.
  intros alloc. apply (node_layout tree_c tree_l key2 own_byte [2; 0; 0; 0] [21] tree_mem ∅);
    [apply tree_repr|apply tree_key|apply tree_val|apply tree_owns].
Defined.

Example map_invalid_pairs_witness :
  let alloc := grant_up_to 1000 in
  let bad := Some (CmapPair None 4) in
  cbstmap_insert_elem (Some tree_c) bad (Some own_byte) tree_mem = Done (ccol_invalid_args, tree_c) tree_mem /\
  (match bad with Some p => pair_bytes_are_readable p | None => false end = false ->
   cbstmap_delete_elem (Some tree_c) bad tree_mem = Done (ccol_invalid_args, tree_c) tree_mem /\
   (forall given n, cbstmap_get_elem_copy (Some tree_c) bad given n tree_mem = Done (ccol_invalid_args, None) tree_mem) /\
   cbstmap_get_elem_ref (Some tree_c) bad true tree_mem = Done (ccol_invalid_args, Some (CmapPair None 0)) tree_mem /\
   _cbstmap_get_val_accessor (Some tree_c) bad true tree_mem = Done (ccol_invalid_args, None) tree_mem).
Proof. intros alloc bad. apply (map_invalid_pairs tree_c bad (Some own_byte) tree_mem). reflexivity. Defined.
End Witnesses.
