(* ===== verification/CBstMapSpec.v ===== *)
(** * Histories of the tree map ([src/cbstmap.c])

    The abstract map, a list of pairs sorted by key, and the refinement of it
    by every history of the operations of [CBstMap]. *)
From S2P Require Import Prelude Memory Values CBstKeys CBstTree CBstMap.
Import CBstMap.

Module CBstHistory.
(** ** Histories *)
Section History.
Context {alloc : Allocator}.
Variable kt : ccol_data_type.
Variable cp : custom_proc_t.

(** [MInsertFrom k k2 n] gives [k] the first [n] bytes of the value of [k2],
    read through the pointer [cbstmap_get_elem_ref] hands out. *)
Inductive mop :=
  | MInsert (k v : list Z)
  | MInsertFrom (k k2 : list Z) (n : Z)
  | MDelete (k : list Z)
  | MGet (k : list Z) (n : Z)
  | MCount
  | MReset.

Inductive mres :=
  | RCode (r : ccol_retval_t)
  | RGot (r : ccol_retval_t) (v : option (list Z))
  | RCount (n : Z).

Definition run_op (c : cbstmap) (op : mop) : M (mres * cbstmap) :=
  match op with
  | MInsert k v =>
      '(r, c) ← cbstmap_insert_elem (Some c) (Some (foreign k)) (Some (foreign v));
      mret (RCode r, c)
  | MInsertFrom k k2 n =>
      '(r, out) ← cbstmap_get_elem_ref (Some c) (Some (foreign k2)) true;
      match r, out with
      | ccol_success, Some p =>
          '(r, c) ← cbstmap_insert_elem (Some c) (Some (foreign k))
                      (Some (CmapPair (ptr_of p) (Z.min n (size p))));
          mret (RCode r, c)
      | r, _ => mret (RCode r, c)
      end
  | MDelete k =>
      '(r, c) ← cbstmap_delete_elem (Some c) (Some (foreign k)); mret (RCode r, c)
  | MGet k n =>
      '(r, v) ← cbstmap_get_elem_copy (Some c) (Some (foreign k)) true n; mret (RGot r v, c)
  | MCount => n ← cbstmap_elem_count (Some c); mret (RCount n, c)
  | MReset => '(r, c) ← cbstmap_reset (Some c); mret (RCode r, c)
  end.

Fixpoint run_ops (c : cbstmap) (ops : list mop) : M (list mres * cbstmap) :=
  match ops with
  | [] => mret ([], c)
  | op :: ops =>
      '(r, c) ← run_op c op;
      '(rs, c) ← run_ops c ops;
      mret (r :: rs, c)
  end.

(** The abstract map: a list of pairs sorted by the order of the keys. *)
Definition ord : list Z -> list Z -> Z := key_cmp kt cp.
Definition valid (k : list Z) : bool := key_size_is_valid_for_type kt (zlen k).
Definition found (k : list Z) (l : list (list Z * list Z)) : option (list Z * list Z) :=
  if valid k then assoc_find ord k l else None.
Definition miss (k : list Z) : ccol_retval_t :=
  if valid k then ccol_key_not_found else ccol_invalid_args.

Definition inserted (l : list (list Z * list Z)) (k v : list Z) (r : ccol_retval_t)
    (l' : list (list Z * list Z)) : Prop :=
  if negb (valid k) then r = ccol_invalid_args /\ l' = l
  else
    (l' = assoc_insert ord k v l /\
     r = match assoc_find ord k l with Some _ => ccol_key_already_present | None => ccol_success end) \/
    (l' = l /\ r = ccol_not_enough_memory) \/
    (l' = l /\ r = ccol_container_full /\ assoc_find ord k l = None /\ zlen l = ccol_max_elem_count).

Definition mspec (l : list (list Z * list Z)) (op : mop) (r : mres) (l' : list (list Z * list Z)) : Prop :=
  match op, r with
  | MInsert k v, RCode r => inserted l k v r l'
  | MInsertFrom k k2 n, RCode r =>
      match found k2 l with
      | Some (_, v) => inserted l k (ztake n v) r l'
      | None => r = miss k2 /\ l' = l
      end
  | MDelete k, RCode r =>
      match found k l with
      | Some _ => r = ccol_success /\ l' = assoc_delete ord k l
      | None => r = miss k /\ l' = l
      end
  | MGet k n, RGot r v =>
      l' = l /\
      match found k l with
      | Some (_, v0) =>
          if n =? zlen v0 then r = ccol_success /\ v = Some v0 else r = ccol_invalid_args /\ v = None
      | None => r = miss k /\ v = None
      end
  | MCount, RCount n => l' = l /\ n = zlen l
  | MReset, RCode r => r = ccol_success /\ l' = []
  | _, _ => False
  end.

Inductive mspecs : list (list Z * list Z) -> list mop -> list mres -> list (list Z * list Z) -> Prop :=
  | mspecs_nil l : mspecs l [] [] l
  | mspecs_cons l op r l1 ops rs l2 :
      mspec l op r l1 -> mspecs l1 ops rs l2 -> mspecs l (op :: ops) (r :: rs) l2.

(** The arguments are bytes and counts that fit [size_t]. *)
Definition mop_wf (op : mop) : Prop :=
  match op with
  | MInsert k v => zlen k < two64 /\ zlen v < two64
  | MInsertFrom k k2 n => zlen k < two64 /\ zlen k2 < two64 /\ 0 <= n < two64
  | MDelete k => zlen k < two64
  | MGet k n => zlen k < two64 /\ 0 <= n < two64
  | _ => True
  end.

Definition is_map (m : mem) (F : gset nat) (c : cbstmap) (l : list (list Z * list Z)) : Prop :=
  repr c l /\ owns m (blocks c) F /\ key_type c = kt /\ custom_comparison_proc c = cp.

Lemma same_is_map c c' l m F :
  key_type c = kt -> custom_comparison_proc c = cp -> same_map c c' -> repr c' l ->
  owns m (blocks c') F -> is_map m F c' l.
Proof. intros Hk Hc (_ & _ & Ek & Ec) Hr Ho. unfold is_map. rewrite Ek, Ec. tauto. Qed.

Lemma insert_inserted c m l k v r l' :
  key_type c = kt -> custom_comparison_proc c = cp ->
  insert_answer c m l k v r l' -> inserted l k v r l'.
Proof.
  unfold insert_answer, inserted, valid, ord, order. intros <- <- H.
  destruct (negb _); [done|]. destruct (assoc_find _ k l); naive_solver.
Qed.

Lemma found_lookup c l k :
  key_type c = kt -> custom_comparison_proc c = cp ->
  lookup_answer c l k = found k l /\ (found k l = None -> lookup_code c l k = miss k).
Proof.
  intros Hk Hc. unfold lookup_answer, lookup_code, found, miss, valid, ord, order. rewrite Hk, Hc. split; [done|].
  destruct (key_size_is_valid_for_type _ _); [|done]. by intros ->.
Qed.

Lemma wp_insert_op c l k pair v m F :
  is_map m F c l -> zlen k < two64 -> reads c pair v ->
  wp ('(r, c) ← cbstmap_insert_elem (Some c) (Some (foreign k)) (Some pair); mret (RCode r, c)) m
    (fun '(r, c') m' => exists l' r', r = RCode r' /\ inserted l k v r' l' /\ is_map m' F c' l').
Proof.
  intros (Hr & Ho & Hk & Hc) Hs Hp. apply wp_bind. eapply wp_mono.
  { apply (wp_map_insert c l (foreign k) pair k v m F); [done|by apply reads_foreign|done|done]. }
  intros [r c'] m' (l' & Ha & Hr' & Hsame & Ho'). apply wp_ret. exists l', r.
  split_and!; [done|by eapply insert_inserted|by eapply same_is_map].
Qed.

Lemma wp_map_run_op c l op m F :
  is_map m F c l -> mop_wf op ->
  wp (run_op c op) m (fun '(r, c') m' => exists l', mspec l op r l' /\ is_map m' F c' l').
Proof.
  intros Hm Hop. pose proof Hm as (Hr & Ho & Hkt & Hcp).
  destruct op as [k v|k k2 n|k|k n| |]; cbn [run_op mop_wf] in *; destruct_and?.
  - eapply wp_mono; [apply (wp_insert_op c l k _ v m F); [done|done|by apply reads_foreign]|].
    intros [r c'] m' (l' & r' & -> & ? & ?). by exists l'.
  - apply wp_bind. eapply wp_mono; [apply (wp_get_ref c l _ k2 m F); [done|by apply reads_foreign|done]|].
    intros [r out] m' [-> Hout]. destruct (found_lookup c l k2 Hkt Hcp) as [Ef Em].
    rewrite Ef in Hout. cbn [mspec].
    destruct (found k2 l) as [[k' v]|] eqn:Efound.
    + destruct Hout as (-> & p & -> & Es & _ & Hpre). zlen_facts.
      eapply wp_mono; [apply (wp_insert_op c l k _ (ztake (Z.min n (size p)) v) m F); [done|done|]|].
      * apply Hpre. lia.
      * intros [r c'] m' (l' & r' & -> & Hi & ?). exists l'. split; [|done].
        replace (ztake n v) with (ztake (Z.min n (size p)) v); [done|]. unfold ztake, zlen in *. rewrite Es.
        destruct (Z.min_spec n (Z.of_nat (length v))) as [[? ->]|[? ->]]; [done|]. rewrite !take_ge by lia. done.
    + destruct Hout as (-> & ->). rewrite (Em eq_refl). unfold miss.
      destruct (valid k2) eqn:Ev; apply wp_ret; exists l; by (split; [|done]).
  - apply wp_bind. eapply wp_mono; [apply (wp_delete c l _ k m F); [done|by apply reads_foreign|done]|].
    intros [r c'] m' (l' & [-> ->] & Hr' & Hsame & Ho'). apply wp_ret. eexists. split; [|by eapply same_is_map].
    cbn [mspec]. unfold found, miss, valid, ord, order in *. rewrite Hkt, Hcp.
    destruct (key_size_is_valid_for_type kt (zlen k)); [|done].
    destruct (assoc_find (key_cmp kt cp) k l) eqn:Ef; [done|]. split; [done|].
    apply assoc_find_none in Ef. clear - Ef. induction Ef as [|[k' v'] l Hk Hl IH]; [done|]. cbn in *.
    destruct (Z.eqb_spec (key_cmp kt cp k k') 0); [done|]. by rewrite IH.
  - apply wp_bind. eapply wp_mono; [apply (wp_get_copy c l _ k true n m F); [done|by apply reads_foreign|done]|].
    intros [r v] m' [-> Hv]. apply wp_ret. exists l. split; [|done]. cbn [mspec negb andb] in *. split; [done|].
    destruct (found_lookup c l k Hkt Hcp) as [Ef Em]. rewrite Ef in Hv.
    destruct (found k l) as [[k' v']|]; [done|]. destruct Hv as [-> ->]. by rewrite Em.
  - unfold cbstmap_elem_count. cbn [deref]. apply wp_bind, wp_bind, wp_ret, wp_ret, wp_ret. exists l.
    split; [|done]. cbn. by rewrite (repr_zlen c l Hr).
  - unfold cbstmap_reset. cbn [deref]. apply wp_bind, wp_bind, wp_ret, wp_bind. eapply wp_clear; [done|done|].
    intros c' m' Hr' Hsame Hb Ho'. apply wp_ret, wp_ret. exists []. split; [done|].
    eapply same_is_map; [done|done|done|done|]. by rewrite Hb.
Qed.

Lemma wp_map_run_ops c l ops m F :
  is_map m F c l -> Forall mop_wf ops ->
  wp (run_ops c ops) m (fun '(rs, c') m' => exists l', mspecs l ops rs l' /\ is_map m' F c' l').
Proof.
  intros Hm Hops. revert c l m Hm. induction Hops as [|op ops Hop Hops IH]; intros c l m Hm.
  { apply wp_ret. exists l. split; [constructor|done]. }
  cbn [run_ops]. apply wp_bind. eapply wp_mono; [by apply wp_map_run_op|].
  intros [r c1] m1 (l1 & Hs1 & Hm1). apply wp_bind. eapply wp_mono; [by apply IH|].
  intros [rs c2] m2 (l2 & Hs2 & Hm2). apply wp_ret. exists l2. split; [by econstructor|done].
Qed.
End History.
End CBstHistory.
Import CBstHistory.

(** ** Properties *)
Section Properties.
Context {alloc : Allocator}.

(** C11: whatever the allocator refuses, every history of a map, from its
    creation through any sequence of insertions (of foreign bytes or of a
    prefix of a value of the map itself), deletions, lookups, counts and
    resets, terminates without an abort or an access to a freed block, and
    answers as the list of pairs sorted by key does, for every key type and
    every comparator that is a total preorder; the tree stays an AVL tree in
    the order of its keys, and destroying the map gives back every block. *)
Theorem map_history kt procs cp ops m F :
  custom_total cp -> Forall mop_wf ops -> owns m ∅ F ->
  wp (created ← cbstmap_create_full kt procs cp;
      match created with
      | (None, _) => mret None
      | (Some c, _) => r ← run_ops c ops; mret (Some r)
      end) m (fun result m' =>
    match result with
    | None => owns m' ∅ F
    | Some (rs, c) => exists l,
        mspecs kt cp [] ops rs l /\ entry <$> nodes (root c) = l /\ elem_count c = zlen l /\
        StronglySorted (fun a b => key_cmp kt cp (fst a) (fst b) < 0) l /\ avl (root c) /\
        wp (__cbstmap_destroy (Some c)) m' (fun _ m'' => owns m'' ∅ F)
    end).
Proof.
  intros Hcp Hops Ho. apply wp_bind. apply (wp_map_create kt procs cp m F); [done|done|..].
  - intros e m' Ho'. by apply wp_ret.
  - intros c m1 Hr Ho1 Hk Hc _. apply wp_bind. eapply wp_mono.
    { apply (wp_map_run_ops kt cp c [] ops m1 F); [by split_and!|done]. }
    intros [rs c2] m2 (l & Hs & Hr2 & Ho2 & Hk2 & Hc2). apply wp_ret. exists l.
    pose proof Hr2 as [Hok El]. split_and!; [done|done|by rewrite (repr_zlen c2 l Hr2)| |apply Hok|by eapply wp_map_destroy].
    rewrite <- El. pose proof (mo_sorted _ Hok) as Hsort. rewrite sorted_by_key in Hsort.
    unfold order in Hsort. rewrite Hk2, Hc2 in Hsort. clear - Hsort.
    induction (nodes (root c2)) as [|n ns IH]; cbn in *; [constructor|].
    apply StronglySorted_inv in Hsort as [Hs Ha]. constructor; [by apply IH|].
    rewrite Forall_fmap in Ha. by apply Forall_fmap.
Qed.

(** The iterator after [n] steps. *)
Fixpoint advance (n : nat) (c : cbstmap) (it : option cbmap_cmap_iterator) : M (option cbmap_cmap_iterator) :=
  match n, it with
  | S n, Some i => it ← cbmap_iter_next c (Some i); advance n c it
  | _, _ => mret it
  end.
Definition iterator_after (n : nat) (c : cbstmap) : M (option cbmap_cmap_iterator) :=
  '(it, _) ← cbstmap_begin_iter (Some c); advance n c it.

Definition iterator_low (c : cbstmap) (F : gset nat) (it : option cbmap_cmap_iterator) (m : mem) : Prop :=
  match it with
  | None => True
  | Some i => stack_fits 90 (it_stack i) /\ owns m ({[it_addr i]} ∪ blocks c) F /\ (it_addr i ∉ blocks c) /\
      forall n, n ∈ pending (it_stack i) -> n_addr n ∈ blocks c
  end.

Lemma wp_next_low c i m F : iterator_low c F (Some i) m -> wp (cmap_real_iter_next c i) m (iterator_low c F).
Proof.
  intros (Hs & Ho & Hb & Hp). eapply (wp_real_iter_next_fits 90); [done|done|exact Ho|done|done| |done].
  intros n rest stack' Hn Hs' Hp'. split_and!; [done|done|done|]. cbn [it_stack]. rewrite Hp'.
  intros x Hx. apply Hp. rewrite Hn. by right.
Qed.

Lemma wp_iterator_after n c m F : map_ok c -> owns m (blocks c) F -> wp (iterator_after n c) m (iterator_low c F).
Proof.
  intros Hok Ho. assert (forall n it m, iterator_low c F it m -> wp (advance n c it) m (iterator_low c F)) as Hadv.
  { clear n m Ho. induction n as [|n IH]; intros [i|] m Hi; try by apply wp_ret. cbn [advance]. unfold cbmap_iter_next. cbn [deref].
    apply wp_bind, wp_bind, wp_ret. eapply wp_mono; [by apply wp_next_low|]. intros it m' Hit. by apply IH. }
  unfold iterator_after, cbstmap_begin_iter. apply wp_bind.
  destruct (is_leaf (root c)); [by apply wp_ret, Hadv|]. apply wp_bind. eapply wp_alloc_owns; [exact Ho|done| |].
  { intros m' Ho' Hg. by apply wp_ret, Hadv. }
  intros b m' Ho' Hb _ _ _. pose proof (map_height c Hok). apply wp_bind.
  assert (forall x, x ∈ nodes (root c) -> n_addr x ∈ blocks c) as Hown.
  { intros x Hx. apply elem_of_list_to_set, elem_of_app. right. by apply addr_in_ids. }
  apply (wp_push_all_lefts_fits 90); [done|apply Hok|done|rewrite zlen_nil; lia| |].
  { intros x Hx%Hown. rewrite (owns_live _ _ _ Ho'). set_solver + Hx. }
  intros stack Hs Hp. cbn [pending] in Hp. rewrite app_nil_r in Hp. apply wp_bind. eapply wp_mono.
  { apply (wp_next_low c _ m' F). split_and!; [done|done|done|]. cbn [it_stack]. by rewrite Hp. }
  intros it m2 Hit. by apply wp_ret, Hadv.
Qed.

(** C36: no history of a map, from its creation on, makes a tree whose walks
    need more than 90 of the 128 entries of their stacks: the path of the
    descent of an insertion or a deletion to any key, the path to the in-order
    neighbour a deletion detaches, which starts on a subtree of the node
    found, and the stack of an iterator after any number of steps.  The
    validator and the destruction find room for theirs too. *)
Theorem map_stacks_bounded kt procs cp ops m F :
  custom_total cp -> Forall mop_wf ops -> owns m ∅ F ->
  wp (created ← cbstmap_create_full kt procs cp;
      match created with
      | (None, _) => mret None
      | (Some c, _) => '(_, c) ← run_ops c ops; mret (Some c)
      end) m (fun result m' =>
    match result with
    | None => owns m' ∅ F
    | Some c =>
        (forall k, zlen k < two64 -> key_size_is_valid_for_type kt (zlen k) = true ->
           wp (descend c (foreign k)) m' (fun '(path, t) _ =>
             plug path t = root c /\ zlen path <= 90 /\
             match t with
             | Leaf => True
             | Node _ _ l r => forall (max : bool) child, child = l \/ child = r -> child <> Leaf ->
                 wp (extreme_path max child []) m' (fun '(path', _) _ => zlen path + zlen path' < 90)
             end)) /\
        (forall n, wp (iterator_after n c) m' (fun it _ => match it with Some i => zlen (it_stack i) <= 90 | None => True end)) /\
        wp (cbmap_debug_validate_avl (Some c)) m' (fun valid _ => valid = true) /\
        wp (__cbstmap_destroy (Some c)) m' (fun _ m'' => owns m'' ∅ F)
    end).
Proof.
  intros Hcp Hops Ho. apply wp_bind. apply (wp_map_create kt procs cp m F); [done|done|..].
  { intros e m' Ho'. by apply wp_ret. }
  intros c0 m1 Hr Ho1 Hk Hc _. apply wp_bind. eapply wp_mono.
  { apply (wp_map_run_ops kt cp c0 [] ops m1 F); [by split_and!|done]. }
  intros [rs c] m2 (l & _ & Hr2 & Ho2 & Hk2 & Hc2). apply wp_ret. pose proof Hr2 as [Hok _].
  pose proof (map_height c Hok) as Hh. pose proof (mo_avl _ Hok) as Ha. split_and!.
  - intros k Hl Hv. eapply (wp_descend_map c _ k); [done|by apply reads_foreign|by unfold key_wf; rewrite Hk2|by eapply owned_live|].
    intros path t Hp _. rewrite <- Hp in Ha, Hh. pose proof (plug_length path t Ha). apply avl_plug in Ha as [Ha _].
    split_and!; [done|pose proof (avl_height_nonneg t Ha); lia|]. destruct t as [|h n l' r]; [done|]. intros max child Hch Hne.
    cbn [avl node_height] in *. destruct Ha as (Hal & Har & Eh & _).
    assert (avl child /\ node_height child < h) as [Hac Hhc].
    { pose proof (avl_height_nonneg _ Hal). pose proof (avl_height_nonneg _ Har). destruct Hch as [->| ->]; (split; [done|lia]). }
    apply wp_extreme_path; [done|done|rewrite zlen_nil; unfold CBMAP_MAX_TREE_HEIGHT; pose proof (zlen_nonneg path); lia|].
    intros path' h' n' l2 r2 Hp' _ _ _. cbn [plug] in Hp'. rewrite <- Hp' in Hac, Hhc.
    pose proof (plug_length path' _ Hac). apply avl_plug in Hac as [Hac _]. pose proof (avl_height_nonneg _ Hac). lia.
  - intros n. eapply wp_mono; [by apply (wp_iterator_after n c m2 F)|]. intros [i|] m' Hi; [|done].
    by apply stack_fits_length, Hi.
  - eapply wp_mono; [by apply wp_validate|]. by intros b m' [? _].
  - by eapply wp_map_destroy.
Qed.

End Properties.

(** ** Witnesses

    A history of a map of [int] keys. *)
Section Witnesses.
Definition tree_ops : list mop :=
  [MInsert [5; 0; 0; 0] [1]; MInsert [255; 255; 255; 255] [7; 8]; MInsert [1; 0; 0; 0] [];
   MInsertFrom [5; 0; 0; 0] [255; 255; 255; 255] 2; MDelete [1; 0; 0; 0]; MGet [5; 0; 0; 0] 2; MCount].

Example map_history_witness :
  let alloc := grant_up_to 1000 in
  wp (created ← cbstmap_create_full ccol_int None None;
      match created with
      | (None, _) => mret None
      | (Some c, _) => r ← run_ops c tree_ops; mret (Some r)
      end) mem0 (fun result m' =>
    match result with
    | None => owns m' ∅ ∅
    | Some (rs, c) => exists l,
        mspecs ccol_int None [] tree_ops rs l /\ entry <$> nodes (root c) = l /\ elem_count c = zlen l /\
        StronglySorted (fun a b => key_cmp ccol_int None (fst a) (fst b) < 0) l /\ avl (root c) /\
        wp (__cbstmap_destroy (Some c)) m' (fun _ m'' => owns m'' ∅ ∅)
    end).
Proof.
  intros alloc. apply (map_history ccol_int None None tree_ops mem0 ∅); [exact I| |apply owns_mem0].
  repeat constructor; discriminate.
Defined.

Example map_stacks_bounded_witness :
  let alloc := grant_up_to 1000 in
  wp (created ← cbstmap_create_full ccol_int None None;
      match created with
      | (None, _) => mret None
      | (Some c, _) => '(_, c) ← run_ops c tree_ops; mret (Some c)
      end) mem0 (fun result m' =>
    match result with
    | None => owns m' ∅ ∅
    | Some c =>
        (forall k, zlen k < two64 -> key_size_is_valid_for_type ccol_int (zlen k) = true ->
           wp (descend c (foreign k)) m' (fun '(path, t) _ =>
             plug path t = root c /\ zlen path <= 90 /\
             match t with
             | Leaf => True
             | Node _ _ l r => forall (max : bool) child, child = l \/ child = r -> child <> Leaf ->
                 wp (extreme_path max child []) m' (fun '(path', _) _ => zlen path + zlen path' < 90)
             end)) /\
        (forall n, wp (iterator_after n c) m' (fun it _ => match it with Some i => zlen (it_stack i) <= 90 | None => True end)) /\
        wp (cbmap_debug_validate_avl (Some c)) m' (fun valid _ => valid = true) /\
        wp (__cbstmap_destroy (Some c)) m' (fun _ m'' => owns m'' ∅ ∅)
    end).
Proof.
  intros alloc. apply (map_stacks_bounded ccol_int None None tree_ops mem0 ∅); [exact I| |apply owns_mem0].
  repeat constructor; discriminate.
Defined.

(** The history above, evaluated: -1 sorts before 5. *)
Example tree_history_result :
  (let alloc := grant_up_to 1000 in
   match (created ← cbstmap_create_full ccol_int None None;
          match created with
          | (None, _) => mret None
          | (Some c, _) => r ← run_ops c tree_ops; mret (Some r)
          end) mem0 with
   | Done (Some (rs, c)) _ => (rs, entry <$> nodes (root c))
   | _ => ([], [])
   end)
  = ([RCode ccol_success; RCode ccol_success; RCode ccol_success; RCode ccol_key_already_present;
      RCode ccol_success; RGot ccol_success (Some [7; 8]); RCount 2],
     [([255; 255; 255; 255], [7; 8]); ([5; 0; 0; 0], [7; 8])]).
Proof. vm_compute. reflexivity. Qed.

End Witnesses.
