(* ===== verification/CPinTable.v ===== *)
(** * The pin table

    [cpintable.c] and [internal/cpintable.h]: the index that turns a handle
    into a pointer and holds the object against a concurrent destroy.

    The first half translates the operations one by one: the directory is the
    array of 1024 chunk pointers, a chunk an array of 64 slots, a slot its
    state word, its pointer and its block of eight counters.  Histories of
    operations by any number of threads refine a map from indices to
    occupancies with one pin count each, and disposing of the table frees
    every block.  The test hooks of [RUNNING_UNIT_TESTS] are left out: a
    shipped library does not define them.

    The second half, [Module Drain], is about what the table is for.  A slot
    is shared by threads that pin and unpin and by an owner that publishes,
    retires, polls the pin count and frees; every atomic access of the code
    is one step, and the steps of all of them interleave.  The object is
    never freed while a thread holds it, and a destroy can always finish.
    Accesses are sequentially consistent in the model, as the four that
    matter are in the code; the weaker orders of the others are not
    modelled. *)
From S2P Require Import Prelude Memory Values.

(** ** Data *)
Definition CCOL_PIN_CHUNK_SLOTS : Z := 64.
Definition CCOL_PIN_MAX_CHUNKS : Z := 1024.
Definition CCOL_PIN_MAX_SLOTS : Z := CCOL_PIN_MAX_CHUNKS * CCOL_PIN_CHUNK_SLOTS.
Definition CCOL_PIN_STRIPES : Z := 8.
Definition CCOL_PIN_LINE : Z := 64.

(** The counters of a slot, in their block. *)
Record ccol_pin_stripes := PinStripes { ps_id : nat; counts : list Z }.

(** A pointer of the program is a number, 0 for NULL. *)
Record ccol_pin_slot := PinSlot {
  state : Z;
  sl_ptr : Z;
  stripes : option ccol_pin_stripes;
}.

Record ccol_pin_chunk := PinChunk { pc_id : nat; slots : list ccol_pin_slot }.

Definition ccol_pintable : Type := list (option ccol_pin_chunk).

Definition sizeof_pin_slot : Z := 24.
Definition sizeof_pin_chunk : Z := CCOL_PIN_CHUNK_SLOTS * sizeof_pin_slot.
Definition sizeof_pin_stripe : Z := CCOL_PIN_LINE.

(** What a zeroed slot and the zeroed table of static storage hold. *)
Definition zero_slot : ccol_pin_slot := PinSlot 0 0 None.
Definition zero_slots : list ccol_pin_slot := replicate (Z.to_nat CCOL_PIN_CHUNK_SLOTS) zero_slot.
Definition zero_table : ccol_pintable := replicate (Z.to_nat CCOL_PIN_MAX_CHUNKS) None.

(** The counter [_pin_stripe_next] and the thread-local [_pin_stripe_id]. *)
Record pin_tls := PinTls { _pin_stripe_next : Z; _pin_stripe_id : gmap nat Z }.

Definition tls0 : pin_tls := PinTls 1 ∅.

(** ** Operations *)
Definition pin_stripe_claim (self : nat) (g : pin_tls) : Z * pin_tls :=
  let id := _pin_stripe_next g in
  let next := (id + 1) `mod` 2 ^ 32 in
  let id := if id =? 0 then 1 else id in
  (id, PinTls next (<[self := id]> (_pin_stripe_id g))).

Definition pin_stripe_self (self : nat) (g : pin_tls) : Z * pin_tls :=
  let id := default 0 (_pin_stripe_id g !! self) in
  let '(id, g) := if id =? 0 then pin_stripe_claim self g else (id, g) in
  ((id - 1) `mod` CCOL_PIN_STRIPES, g).

Definition pin_state (gen : Z) (live : bool) : Z :=
  Z.lor (Z.shiftl gen 1) (if live then 1 else 0).

(** A pointer to a slot: the chunk of the directory and the slot in it. *)
Definition slot_ref : Type := Z * Z.

Definition load_slot (t : ccol_pintable) (r : slot_ref) : M ccol_pin_slot :=
  chunk ← ub (mjoin (zget t r.1));
  ub (zget (slots chunk) r.2).

Definition store_slot (t : ccol_pintable) (r : slot_ref) (s : ccol_pin_slot) : M ccol_pintable :=
  chunk ← ub (mjoin (zget t r.1));
  ss ← ub (zset (slots chunk) r.2 s);
  ub (zset t r.1 (Some (PinChunk (pc_id chunk) ss))).

Definition pin_slot_lookup (t : ccol_pintable) (idx : Z) : M (option slot_ref) :=
  let chunk_idx := idx `div` CCOL_PIN_CHUNK_SLOTS in
  if CCOL_PIN_MAX_CHUNKS <=? chunk_idx then mret None else
  chunk ← ub (zget t chunk_idx);
  match chunk with
  | None => mret None
  | Some _ => mret (Some (chunk_idx, idx `mod` CCOL_PIN_CHUNK_SLOTS))
  end.

(** [_Atomic ptrdiff_t] arithmetic wraps. *)
Definition atomic_add (c d : Z) : Z := to_signed 64 (wrap (c + d)).

(** [atomic_fetch_add(&stripes[stripe].count, d)] on the block of the slot at [r]. *)
Definition add_count (t : ccol_pintable) (r : slot_ref) (stripe d : Z) : M ccol_pintable :=
  s ← load_slot t r;
  st ← ub (stripes s);
  c ← ub (zget (counts st) stripe);
  cs ← ub (zset (counts st) stripe (atomic_add c d));
  store_slot t r (PinSlot (state s) (sl_ptr s) (Some (PinStripes (ps_id st) cs))).

Section Publish.
Context {alloc : Allocator}.

Definition ccol_pintable_publish (t : ccol_pintable) (idx gen ptr : Z) : M (bool * ccol_pintable) :=
  if gen =? 0 then mret (false, t) else
  let chunk_idx := idx `div` CCOL_PIN_CHUNK_SLOTS in
  if CCOL_PIN_MAX_CHUNKS <=? chunk_idx then mret (false, t) else
  chunk ← ub (zget t chunk_idx);
  ot ← match chunk with
       | Some _ => mret (Some t)
       | None =>
           b ← _ccol_mem_calloc 1 sizeof_pin_chunk;
           match b with
           | None => mret None
           | Some b =>
               t ← ub (zset t chunk_idx (Some (PinChunk (b_id b) zero_slots)));
               mret (Some t)
           end
       end;
  match ot with
  | None => mret (false, t)
  | Some t =>
      let slot := (chunk_idx, idx `mod` CCOL_PIN_CHUNK_SLOTS) in
      s ← load_slot t slot;
      ost ← match stripes s with
            | Some st => mret (Some st)
            | None =>
                b ← _ccol_mem_calloc CCOL_PIN_STRIPES sizeof_pin_stripe;
                mret ((fun b => PinStripes (b_id b) (replicate (Z.to_nat CCOL_PIN_STRIPES) 0)) <$> b)
            end;
      match ost with
      | None => mret (false, t)
      | Some st =>
          t ← store_slot t slot (PinSlot (state s) (sl_ptr s) (Some st));
          t ← store_slot t slot (PinSlot (state s) ptr (Some st));
          t ← store_slot t slot (PinSlot (pin_state gen true) ptr (Some st));
          mret (true, t)
      end
  end.
End Publish.

Definition ccol_pintable_retire (t : ccol_pintable) (idx : Z) : M ccol_pintable :=
  slot ← pin_slot_lookup t idx;
  match slot with
  | None => mret t
  | Some slot =>
      s ← load_slot t slot;
      store_slot t slot (PinSlot (Z.ldiff (state s) 1) (sl_ptr s) (stripes s))
  end.

Definition handle_idx (handle : Z) : Z := Z.shiftr handle 32.
Definition handle_gen (handle : Z) : Z := Z.land handle (Z.ones 32).

Definition ccol_pintable_pin (self : nat) (g : pin_tls) (t : ccol_pintable) (handle : Z)
    : M (Z * pin_tls * ccol_pintable) :=
  if handle =? 0 then mret (0, g, t) else
  let idx := handle_idx handle in
  let gen := handle_gen handle in
  slot ← pin_slot_lookup t idx;
  match slot with
  | None => mret (0, g, t)
  | Some slot =>
      let want := pin_state gen true in
      s ← load_slot t slot;
      if negb (state s =? want) then mret (0, g, t) else
      match stripes s with
      | None => mret (0, g, t)
      | Some _ =>
          let '(stripe, g) := pin_stripe_self self g in
          t ← add_count t slot stripe 1;
          s ← load_slot t slot;
          if negb (state s =? want) then
            t ← add_count t slot stripe (-1);
            mret (0, g, t)
          else mret (sl_ptr s, g, t)
      end
  end.

Definition ccol_pintable_unpin (self : nat) (g : pin_tls) (t : ccol_pintable) (handle : Z)
    : M (pin_tls * ccol_pintable) :=
  if handle =? 0 then mret (g, t) else
  let idx := handle_idx handle in
  slot ← pin_slot_lookup t idx;
  match slot with
  | None => mret (g, t)
  | Some slot =>
      s ← load_slot t slot;
      match stripes s with
      | None => mret (g, t)
      | Some _ =>
          let '(stripe, g) := pin_stripe_self self g in
          t ← add_count t slot stripe (-1);
          mret (g, t)
      end
  end.

(** One iteration of the summing loop, and what the sum is taken to mean. *)
Definition accumulate (cs : list Z) (i acc : Z) : M Z :=
  c ← ub (zget cs i); mret (acc ⊕ wrap c).

Definition clamp_total (accumulated : Z) : Z :=
  let total := to_signed 64 accumulated in
  if 0 <? total then total else 0.

(** [for (unsigned i = first; i < first + count; ++i)]. *)
Fixpoint for_range {S} (first : Z) (count : nat) (body : Z -> S -> M S) (s : S) : M S :=
  match count with
  | O => mret s
  | Datatypes.S k => s ← body first s; for_range (first + 1) k body s
  end.

Definition ccol_pintable_pins (t : ccol_pintable) (idx : Z) : M Z :=
  slot ← pin_slot_lookup t idx;
  match slot with
  | None => mret 0
  | Some slot =>
      s ← load_slot t slot;
      match stripes s with
      | None => mret 0
      | Some st =>
          accumulated ← for_range 0 (Z.to_nat CCOL_PIN_STRIPES) (accumulate (counts st)) 0;
          mret (clamp_total accumulated)
      end
  end.

Definition ccol_pintable_pins_for (t : ccol_pintable) (handle : Z) : M Z :=
  if handle =? 0 then mret 0 else ccol_pintable_pins t (handle_idx handle).

(** [stripes[i].count = 0]. *)
Definition clear_count (i : Z) (cs : list Z) : M (list Z) := ub (zset cs i 0).

Definition ccol_pintable_reset (t : ccol_pintable) (idx : Z) : M ccol_pintable :=
  slot ← pin_slot_lookup t idx;
  match slot with
  | None => mret t
  | Some slot =>
      s ← load_slot t slot;
      match stripes s with
      | None => mret t
      | Some st =>
          cs ← for_range 0 (Z.to_nat CCOL_PIN_STRIPES) clear_count (counts st);
          store_slot t slot (PinSlot (state s) (sl_ptr s) (Some (PinStripes (ps_id st) cs)))
      end
  end.

Definition ccol_pintable_reset_for (t : ccol_pintable) (handle : Z) : M ccol_pintable :=
  if handle =? 0 then mret t else ccol_pintable_reset t (handle_idx handle).

(** [free] of the stripes of slot [i]; [free(NULL)] does nothing. *)
Definition dispose_slot (i : Z) (ss : list ccol_pin_slot) : M (list ccol_pin_slot) :=
  s ← ub (zget ss i);
  ss ← ub (zset ss i (PinSlot (state s) (sl_ptr s) None));
  _ ← match stripes s with Some st => _ccol_mem_free (ps_id st) | None => mret tt end;
  mret ss.

Definition dispose_chunk (c : Z) (t : ccol_pintable) : M ccol_pintable :=
  chunk ← ub (zget t c);
  match chunk with
  | None => mret t
  | Some chunk =>
      t ← ub (zset t c None);
      _ ← for_range 0 (Z.to_nat CCOL_PIN_CHUNK_SLOTS) dispose_slot (slots chunk);
      _ ← _ccol_mem_free (pc_id chunk);
      mret t
  end.

Definition ccol_pintable_dispose (t : ccol_pintable) : M ccol_pintable :=
  for_range 0 (Z.to_nat CCOL_PIN_MAX_CHUNKS) dispose_chunk t.

(** ** Histories of the table *)

Inductive pin_cmd :=
  | PubCmd (idx gen ptr : Z)
  | RetireCmd (idx : Z)
  | PinCmd (self : nat) (handle : Z)
  | UnpinCmd (self : nat) (handle : Z)
  | PinsCmd (idx : Z)
  | PinsForCmd (handle : Z)
  | ResetCmd (idx : Z)
  | ResetForCmd (handle : Z).

Inductive pin_reply := RBool (b : bool) | RPtr (p : Z) | RCount (n : Z) | RUnit.

Section History.
Context {alloc : Allocator}.

Definition run_cmd (c : pin_cmd) (s : pin_tls * ccol_pintable)
    : M (pin_reply * (pin_tls * ccol_pintable)) :=
  let '(g, t) := s in
  match c with
  | PubCmd idx gen ptr =>
      '(b, t) ← ccol_pintable_publish t idx gen ptr; mret (RBool b, (g, t))
  | RetireCmd idx => t ← ccol_pintable_retire t idx; mret (RUnit, (g, t))
  | PinCmd self h => '(p, g, t) ← ccol_pintable_pin self g t h; mret (RPtr p, (g, t))
  | UnpinCmd self h => '(g, t) ← ccol_pintable_unpin self g t h; mret (RUnit, (g, t))
  | PinsCmd idx => n ← ccol_pintable_pins t idx; mret (RCount n, (g, t))
  | PinsForCmd h => n ← ccol_pintable_pins_for t h; mret (RCount n, (g, t))
  | ResetCmd idx => t ← ccol_pintable_reset t idx; mret (RUnit, (g, t))
  | ResetForCmd h => t ← ccol_pintable_reset_for t h; mret (RUnit, (g, t))
  end.

Fixpoint run_cmds (cs : list pin_cmd) (s : pin_tls * ccol_pintable)
    : M (list pin_reply * (pin_tls * ccol_pintable)) :=
  match cs with
  | [] => mret ([], s)
  | c :: cs =>
      '(r, s) ← run_cmd c s;
      '(rs, s) ← run_cmds cs s;
      mret (r :: rs, s)
  end.
End History.

(** The width of the arguments. *)
Definition is_u32 (x : Z) : Prop := 0 <= x < 2 ^ 32.
Definition is_u64 (x : Z) : Prop := 0 <= x < 2 ^ 64.
Definition cmd_ok (c : pin_cmd) : Prop :=
  match c with
  | PubCmd idx gen _ => is_u32 idx /\ is_u32 gen
  | RetireCmd idx | PinsCmd idx | ResetCmd idx => is_u32 idx
  | PinCmd _ h | UnpinCmd _ h | PinsForCmd h | ResetForCmd h => is_u64 h
  end.

(** ** The abstract table: one occupancy and one pin count per index *)
Record occupancy := Occupancy { o_gen : Z; o_live : bool; o_ptr : Z; o_pins : Z }.

Abbreviation spec_table := (gmap Z occupancy).

Definition set_pins (f : Z -> Z) (o : occupancy) : occupancy :=
  Occupancy (o_gen o) (o_live o) (o_ptr o) (f (o_pins o)).

(** The occupancy a handle resolves to. *)
Definition resolves (o : occupancy) (handle : Z) : bool :=
  o_live o && (o_gen o =? handle_gen handle).

Definition spec_pins (s : spec_table) (idx : Z) : Z :=
  match s !! idx with Some o => clamp_total (wrap (o_pins o)) | None => 0 end.

(** One operation: [granted] says whether the requests a publish makes are
    granted, every other answer is determined. *)
Definition spec_cmd (granted : bool) (c : pin_cmd) (s : spec_table) : pin_reply * spec_table :=
  match c with
  | PubCmd idx gen ptr =>
      if (gen =? 0) || (CCOL_PIN_MAX_SLOTS <=? idx) || negb granted then (RBool false, s)
      else (RBool true, <[idx := Occupancy gen true ptr (from_option o_pins 0 (s !! idx))]> s)
  | RetireCmd idx =>
      (RUnit, alter (fun o => Occupancy (o_gen o) false (o_ptr o) (o_pins o)) idx s)
  | PinCmd _ h =>
      match s !! handle_idx h with
      | Some o => if negb (h =? 0) && resolves o h
                  then (RPtr (o_ptr o), alter (set_pins Z.succ) (handle_idx h) s)
                  else (RPtr 0, s)
      | None => (RPtr 0, s)
      end
  | UnpinCmd _ h => (RUnit, if h =? 0 then s else alter (set_pins Z.pred) (handle_idx h) s)
  | PinsCmd idx => (RCount (spec_pins s idx), s)
  | PinsForCmd h => (RCount (if h =? 0 then 0 else spec_pins s (handle_idx h)), s)
  | ResetCmd idx => (RUnit, alter (set_pins (fun _ => 0)) idx s)
  | ResetForCmd h => (RUnit, if h =? 0 then s else alter (set_pins (fun _ => 0)) (handle_idx h) s)
  end.

(** The reply of the abstract table: a request that is not granted was one
    the allocator refused. *)
Definition answers `{Allocator} (c : pin_cmd) (s : spec_table) (r : pin_reply) (s' : spec_table) : Prop :=
  exists granted, (granted = false -> exists k n, grant k n = false) /\
    spec_cmd granted c s = (r, s').

Inductive spec_run `{Allocator} : list pin_cmd -> spec_table -> list pin_reply -> spec_table -> Prop :=
  | spec_run_nil s : spec_run [] s [] s
  | spec_run_cons c cs s r s' rs s'' :
      answers c s r s' -> spec_run cs s' rs s'' -> spec_run (c :: cs) s (r :: rs) s''.

(** ** The state word and the sums *)
Lemma pin_state_value gen (live : bool) : pin_state gen live = 2 * gen + (if live then 1 else 0).
Proof.
  unfold pin_state. rewrite Z.shiftl_mul_pow2 by lia. change (2 ^ 1) with 2.
  replace (gen * 2) with (2 * gen) by lia.
  destruct live; [|rewrite Z.lor_0_r; lia].
  apply Z.bits_inj'. intros n Hn. rewrite Z.lor_spec.
  destruct (Z.eq_dec n 0) as [->|Hne].
  - by rewrite Z.testbit_even_0, Z.testbit_odd_0.
  - replace n with (Z.succ (Z.pred n)) by lia.
    rewrite Z.testbit_odd_succ, Z.testbit_even_succ by lia.
    assert (Z.testbit 1 (Z.succ (Z.pred n)) = false) as ->; [|by rewrite orb_false_r].
    apply Z.bits_above_log2; [lia|cbn; lia].
Qed.

Lemma pin_state_retired gen live : Z.ldiff (pin_state gen live) 1 = pin_state gen false.
Proof.
  rewrite !pin_state_value. change 1 with (Z.ones 1) at 2.
  rewrite Z.ldiff_ones_r by lia. rewrite Z.shiftr_div_pow2, Z.shiftl_mul_pow2 by lia.
  change (2 ^ 1) with 2. replace (2 * gen + (if live then 1 else 0)) with ((if live then 1 else 0) + gen * 2) by lia.
  rewrite Z.div_add by lia.
  destruct live; [change (1 `div` 2) with 0|change (0 `div` 2) with 0]; lia.
Qed.

Lemma pin_state_want gen live gen' :
  (pin_state gen live =? pin_state gen' true) = live && (gen =? gen').
Proof.
  rewrite !pin_state_value. destruct live; cbn;
  destruct (Z.eqb_spec gen gen'); apply eq_true_iff_eq; rewrite Z.eqb_eq; lia.
Qed.

Definition total (cs : list Z) : Z := foldr Z.add 0 cs.

Lemma wrap_wrap_add a b : wrap (a + wrap b) = wrap (a + b).
Proof. unfold wrap. by rewrite Zplus_mod_idemp_r. Qed.
Lemma wrap_add_wrap a b : wrap (wrap a + b) = wrap (a + b).
Proof. unfold wrap. by rewrite Zplus_mod_idemp_l. Qed.
Lemma wrap_to_signed x : 0 <= x < two64 -> wrap (to_signed 64 x) = x.
Proof.
  intros. unfold to_signed. change (2 ^ (64 - 1)) with 9223372036854775808. change (2 ^ 64) with two64.
  case_match; [by apply wrap_small|]. unfold wrap.
  replace (x - two64) with (x + (-1) * two64) by lia.
  rewrite Z_mod_plus_full. by apply Z.mod_small.
Qed.
Lemma wrap_atomic_add c d : wrap (atomic_add c d) = wrap (c + d).
Proof. apply wrap_to_signed, wrap_range. Qed.

Lemma total_app a b : total (a ++ b) = total a + total b.
Proof. unfold total. induction a; cbn; lia. Qed.

(** The sum modulo [2^64] follows a change of one counter. *)
Lemma wrap_total_set cs i c x cs' :
  zget cs i = Some c -> zset cs i x = Some cs' ->
  wrap (total cs') = wrap (total cs - c + x).
Proof.
  intros Hg Hs. destruct (zset_split _ _ _ _ _ Hg Hs) as (l1 & l2 & -> & -> & _).
  rewrite !total_app. cbn [total foldr]. f_equal. fold (total l2). lia.
Qed.

Lemma cons_snoc {A} (l1 : list A) x l2 : l1 ++ x :: l2 = (l1 ++ [x]) ++ l2.
Proof. by rewrite <- app_assoc. Qed.

Lemma wp_accumulate cs pre acc m (Q : Z -> mem -> Prop) :
  (Q (acc ⊕ wrap (total cs)) m) -> acc = wrap acc ->
  wp (for_range (zlen pre) (length cs) (accumulate (pre ++ cs)) acc) m Q.
Proof.
  revert pre acc. induction cs as [|c cs IH]; intros pre acc HQ Hacc; cbn [for_range length].
  - apply wp_ret. cbn [total foldr] in HQ. rewrite wrap_wrap_add, Z.add_0_r, <- Hacc in HQ. done.
  - apply wp_bind. unfold accumulate at 1. rewrite zget_app_mid by done. wp_pure.
    rewrite cons_snoc. replace (zlen pre + 1) with (zlen (pre ++ [c])) by zlia.
    apply IH.
    + rewrite !wrap_wrap_add, wrap_add_wrap in *. cbn [total foldr] in HQ.
      fold (total cs) in HQ. by rewrite <- Z.add_assoc.
    + rewrite !wrap_wrap_add. symmetry. apply wrap_small, wrap_range.
Qed.

Lemma wp_clear_counts cs pre m (Q : list Z -> mem -> Prop) :
  Q (pre ++ replicate (length cs) 0) m ->
  wp (for_range (zlen pre) (length cs) clear_count (pre ++ cs)) m Q.
Proof.
  revert pre. induction cs as [|c cs IH]; intros pre HQ; cbn [for_range length].
  - by apply wp_ret.
  - wp_pure. unfold clear_count at 1. rewrite (zset_app_mid pre c 0 cs) by done. wp_pure.
    rewrite cons_snoc. replace (zlen pre + 1) with (zlen (pre ++ [0])) by zlia.
    apply IH. by rewrite <- app_assoc.
Qed.

Lemma total_zeros n : total (replicate n 0) = 0.
Proof. unfold total. induction n; cbn; lia. Qed.

(** ** Stripes of threads *)

Lemma pin_stripe_range self g stripe g' :
  pin_stripe_self self g = (stripe, g') -> 0 <= stripe < CCOL_PIN_STRIPES.
Proof.
  unfold pin_stripe_self. repeat case_match; intros [= <- <-]; apply Z.mod_pos_bound; done.
Qed.

(** Any number of threads asks for its stripe, in any order. *)
Definition ask_stripes (asks : list nat) (g : pin_tls) : pin_tls :=
  foldl (fun g self => (pin_stripe_self self g).2) g asks.

Lemma stripe_sticky self g : exists id, id <> 0 /\
  _pin_stripe_id (pin_stripe_self self g).2 !! self = Some id /\
  (pin_stripe_self self g).1 = (id - 1) `mod` CCOL_PIN_STRIPES.
Proof.
  unfold pin_stripe_self, pin_stripe_claim.
  destruct (_pin_stripe_id g !! self) as [id|] eqn:E; cbn.
  - destruct (Z.eqb_spec id 0) as [->|Hne]; cbn; [|by exists id].
    rewrite lookup_insert_eq. eexists; split; [|done]. case_match; zbool; lia.
  - cbn. rewrite lookup_insert_eq. eexists; split; [|done]. case_match; zbool; lia.
Qed.

Lemma stripe_id_kept self other g id :
  id <> 0 -> _pin_stripe_id g !! self = Some id ->
  _pin_stripe_id (pin_stripe_self other g).2 !! self = Some id.
Proof.
  intros Hid Hg. unfold pin_stripe_self, pin_stripe_claim.
  destruct (decide (other = self)) as [->|Hne].
  - rewrite Hg. cbn. by rewrite (proj2 (Z.eqb_neq id 0) Hid).
  - destruct (default 0 (_pin_stripe_id g !! other) =? 0); cbn; [by rewrite lookup_insert_ne|done].
Qed.

Lemma stripe_ids_kept self asks g id :
  id <> 0 -> _pin_stripe_id g !! self = Some id ->
  _pin_stripe_id (ask_stripes asks g) !! self = Some id.
Proof.
  intros Hid. unfold ask_stripes. revert g. induction asks as [|o asks IH]; intros g Hg; [done|].
  apply IH. by apply stripe_id_kept.
Qed.

(** ** The table as a function from indices to slots *)

Definition slot_index (idx : Z) : slot_ref :=
  (idx `div` CCOL_PIN_CHUNK_SLOTS, idx `mod` CCOL_PIN_CHUNK_SLOTS).

Definition slot_at (t : ccol_pintable) (idx : Z) : option ccol_pin_slot :=
  chunk ← mjoin (zget t (slot_index idx).1); zget (slots chunk) (slot_index idx).2.

Definition table_wf (t : ccol_pintable) : Prop :=
  zlen t = CCOL_PIN_MAX_CHUNKS /\
  forall c chunk, zget t c = Some (Some chunk) -> zlen (slots chunk) = CCOL_PIN_CHUNK_SLOTS.

(** The blocks of the table. *)
Definition slot_ids (s : ccol_pin_slot) : list nat :=
  match stripes s with Some st => [ps_id st] | None => [] end.
Definition chunk_ids (c : option ccol_pin_chunk) : list nat :=
  match c with Some c => pc_id c :: concat (slot_ids <$> slots c) | None => [] end.
Definition table_ids (t : ccol_pintable) : list nat := concat (chunk_ids <$> t).

Lemma slot_index_inj i j : slot_index i = slot_index j -> i = j.
Proof.
  unfold slot_index, CCOL_PIN_CHUNK_SLOTS. intros [= H1 H2].
  rewrite (Z.div_mod i 64), (Z.div_mod j 64) by lia. lia.
Qed.

Lemma slot_index_small idx :
  0 <= idx -> CCOL_PIN_MAX_CHUNKS <= (slot_index idx).1 <-> CCOL_PIN_MAX_SLOTS <= idx.
Proof.
  unfold CCOL_PIN_MAX_SLOTS, CCOL_PIN_MAX_CHUNKS, slot_index, CCOL_PIN_CHUNK_SLOTS. cbn. intros Hi.
  split; intros H.
  - pose proof (Z.mul_div_le idx 64). lia.
  - change (1024) with (65536 `div` 64). by apply Z.div_le_mono.
Qed.

Lemma slot_at_chunk t idx s :
  slot_at t idx = Some s ->
  exists chunk, zget t (slot_index idx).1 = Some (Some chunk) /\ zget (slots chunk) (slot_index idx).2 = Some s.
Proof.
  unfold slot_at. intros (chunk & Hc & Hs)%bind_Some. exists chunk. split; [|done].
  by destruct (zget t _) as [[]|]; cbn in Hc; simplify_eq.
Qed.

Lemma wp_load_slot t idx s m (Q : ccol_pin_slot -> mem -> Prop) :
  slot_at t idx = Some s -> Q s m -> wp (load_slot t (slot_index idx)) m Q.
Proof.
  intros (chunk & Hc & Hs)%slot_at_chunk HQ. unfold load_slot. rewrite Hc. wp_pure.
  rewrite Hs. by wp_pure.
Qed.

Lemma zset_ids {A} (f : A -> list nat) l i x y l' :
  zget l i = Some x -> zset l i y = Some l' ->
  concat (f <$> l') ++ f x ≡ₚ concat (f <$> l) ++ f y.
Proof.
  intros Hg Hs. destruct (zset_split _ _ _ _ _ Hg Hs) as (l1 & l2 & -> & -> & _).
  rewrite !fmap_app, !concat_app. cbn. solve_Permutation.
Qed.

Definition put_in (t : ccol_pintable) (idx : Z) (s : ccol_pin_slot) (t' : ccol_pintable) : Prop :=
  table_wf t' /\
  forall j, slot_at t' j = if decide (j = idx) then Some s else slot_at t j.

Lemma wp_store_slot t idx s s' m (Q : ccol_pintable -> mem -> Prop) :
  table_wf t -> slot_at t idx = Some s ->
  (forall t', put_in t idx s' t' ->
    table_ids t' ++ slot_ids s ≡ₚ table_ids t ++ slot_ids s' -> Q t' m) ->
  wp (store_slot t (slot_index idx) s') m Q.
Proof.
  intros [Hlen Hwf] (chunk & Hc & Hs)%slot_at_chunk HQ. unfold store_slot. rewrite Hc. wp_pure.
  destruct (zset_is_Some (slots chunk) (slot_index idx).2 s' (zget_Some_lt _ _ _ Hs)) as [ss Hss].
  rewrite Hss. wp_pure.
  destruct (zset_is_Some t (slot_index idx).1 (Some (PinChunk (pc_id chunk) ss)) (zget_Some_lt _ _ _ Hc)) as [t' Ht'].
  rewrite Ht'. wp_pure. destruct (zset_spec _ _ _ _ Hss) as (_ & Hlss & Hgss).
  destruct (zset_spec _ _ _ _ Ht') as (_ & Hlt & Hgt). apply HQ; [split; [split|]|].
  - by rewrite Hlt.
  - intros c chunk'. rewrite Hgt. case_decide; [intros [= <-]; cbn; by rewrite Hlss; eapply Hwf|apply Hwf].
  - intros j. unfold slot_at. rewrite Hgt. destruct (decide (j = idx)) as [->|Hne].
    + rewrite decide_True by done. cbn. by rewrite Hgss, decide_True.
    + case_decide as E1; [|done]. rewrite E1, Hc. cbn -[slot_index]. rewrite Hgss.
      rewrite decide_False; [done|]. intros E2. apply Hne, slot_index_inj.
      rewrite (surjective_pairing (slot_index j)), (surjective_pairing (slot_index idx)). congruence.
  - pose proof (zset_ids chunk_ids _ _ _ _ _ Hc Ht') as P1.
    pose proof (zset_ids slot_ids _ _ _ _ _ Hs Hss) as P2. cbn [chunk_ids pc_id slots] in P1.
    unfold table_ids.
    apply (Permutation_app_inv_r (pc_id chunk :: concat (slot_ids <$> slots chunk))).
    rewrite <- app_assoc, (Permutation_app_comm (slot_ids s)), app_assoc, P1.
    rewrite <- !app_assoc, <- (app_comm_cons _ (slot_ids s)), P2. solve_Permutation.
Qed.

#[local] Opaque load_slot store_slot.

(** ** What a table represents *)

Definition slot_repr (s : ccol_pin_slot) (o : option occupancy) : Prop :=
  match o with
  | None => s = zero_slot
  | Some o =>
      o_gen o <> 0 /\ state s = pin_state (o_gen o) (o_live o) /\ sl_ptr s = o_ptr o /\
      exists st, stripes s = Some st /\ zlen (counts st) = CCOL_PIN_STRIPES /\
        wrap (total (counts st)) = wrap (o_pins o)
  end.

Definition index_repr (t : ccol_pintable) (s : spec_table) (idx : Z) : Prop :=
  match slot_at t idx with
  | Some sl => slot_repr sl (s !! idx)
  | None => s !! idx = None
  end.

Record table_repr (t : ccol_pintable) (s : spec_table) (m : mem) (F : gset nat) : Prop := {
  tr_wf : table_wf t;
  tr_slots : forall idx, 0 <= idx -> index_repr t s idx;
  tr_nodup : NoDup (table_ids t);
  tr_owns : owns m (list_to_set (table_ids t)) F;
}.

Lemma alter_present (f : occupancy -> occupancy) idx (s : spec_table) o :
  s !! idx = Some o -> alter f idx s = <[idx := f o]> s.
Proof.
  intros Ho. apply map_eq. intros j. destruct (decide (idx = j)) as [<-|Hne].
  - by rewrite lookup_alter_eq, lookup_insert_eq, Ho.
  - by rewrite lookup_alter_ne, lookup_insert_ne.
Qed.
Lemma alter_absent (f : occupancy -> occupancy) idx (s : spec_table) :
  s !! idx = None -> alter f idx s = s.
Proof.
  intros Ho. apply map_eq. intros j. destruct (decide (idx = j)) as [<-|Hne].
  - by rewrite lookup_alter_eq, Ho.
  - by rewrite lookup_alter_ne.
Qed.

(** Replacing the slot of one index by one with the same blocks. *)
Lemma repr_put t s m F idx sl sl' o t' :
  table_repr t s m F -> slot_at t idx = Some sl -> put_in t idx sl' t' ->
  table_ids t' ++ slot_ids sl ≡ₚ table_ids t ++ slot_ids sl' ->
  slot_ids sl' = slot_ids sl -> slot_repr sl' (Some o) ->
  table_repr t' (<[idx := o]> s) m F.
Proof.
  intros [Hwf Hs Hnd Ho] Hsl [Hwf' Hat] Hp Hids Hr. rewrite Hids in Hp.
  apply Permutation_app_inv_r in Hp. split; [done| |by rewrite Hp|by rewrite Hp].
  intros j Hj. unfold index_repr. rewrite Hat. destruct (decide (j = idx)) as [->|Hne].
  - by rewrite lookup_insert_eq.
  - rewrite lookup_insert_ne by done. by apply Hs.
Qed.

Lemma slot_at_lookup t idx :
  table_wf t -> 0 <= idx -> CCOL_PIN_MAX_CHUNKS <= (slot_index idx).1 -> slot_at t idx = None.
Proof.
  intros [Hl _] Hi Hc. unfold slot_at. destruct (zget t (slot_index idx).1) eqn:E; [|done].
  apply zget_Some_lt in E. lia.
Qed.

Lemma slot_index_range idx : 0 <= idx -> 0 <= (slot_index idx).1 /\ 0 <= (slot_index idx).2 < CCOL_PIN_CHUNK_SLOTS.
Proof. intros. split; [by apply Z.div_pos|by apply Z.mod_pos_bound]. Qed.

Lemma wp_pin_slot_lookup t idx m (Q : option slot_ref -> mem -> Prop) :
  table_wf t -> 0 <= idx ->
  (slot_at t idx = None -> Q None m) ->
  (forall s, slot_at t idx = Some s -> Q (Some (slot_index idx)) m) ->
  wp (pin_slot_lookup t idx) m Q.
Proof.
  intros Hwf Hi Hn Hs. unfold pin_slot_lookup. destruct (slot_index_range idx Hi) as [H1 H2].
  destruct (Z.leb_spec CCOL_PIN_MAX_CHUNKS (idx `div` CCOL_PIN_CHUNK_SLOTS)) as [Hle|Hlt].
  - apply wp_ret, Hn. by apply slot_at_lookup.
  - destruct Hwf as [Hl Hc].
    destruct (zget_is_Some t (idx `div` CCOL_PIN_CHUNK_SLOTS)) as [c E]; [by rewrite Hl|].
    rewrite E. wp_pure. destruct c as [chunk|]; apply wp_ret.
    + destruct (zget_is_Some (slots chunk) (slot_index idx).2) as [s Es]; [by rewrite (Hc _ _ E)|].
      apply (Hs s). unfold slot_at. cbn [slot_index fst] in *. by rewrite E.
    + apply Hn. unfold slot_at. cbn [slot_index fst] in *. by rewrite E.
Qed.

(** [put_count s cs]: the slot with other counters in its block. *)
Definition put_count (s : ccol_pin_slot) (st : ccol_pin_stripes) (cs : list Z) : ccol_pin_slot :=
  PinSlot (state s) (sl_ptr s) (Some (PinStripes (ps_id st) cs)).

Lemma wp_add_count t s m F idx sl o stripe d (Q : ccol_pintable -> mem -> Prop) :
  table_repr t s m F -> slot_at t idx = Some sl -> s !! idx = Some o -> 0 <= idx ->
  0 <= stripe < CCOL_PIN_STRIPES ->
  (forall t' sl', table_repr t' (<[idx := set_pins (Z.add d) o]> s) m F ->
    slot_at t' idx = Some sl' -> state sl' = state sl -> sl_ptr sl' = sl_ptr sl -> Q t' m) ->
  wp (add_count t (slot_index idx) stripe d) m Q.
Proof.
  intros Hr Hat Ho Hi Hst HQ. pose proof (tr_slots _ _ _ _ Hr idx Hi) as Hsl.
  unfold index_repr in Hsl. rewrite Hat, Ho in Hsl.
  destruct Hsl as (Hg & Hstate & Hptr & st & Est & Hlen & Htot).
  unfold add_count. wp_pure. eapply wp_load_slot; [done|]. rewrite Est. wp_pure.
  destruct (zget_is_Some (counts st) stripe) as [c Hc]; [by rewrite Hlen|]. rewrite Hc. wp_pure.
  destruct (zset_is_Some (counts st) stripe (atomic_add c d)) as [cs Hcs]; [by rewrite Hlen|].
  rewrite Hcs. wp_pure. destruct (zset_spec _ _ _ _ Hcs) as (_ & Hlcs & _).
  eapply wp_store_slot; [apply Hr|done|]. intros t' Hput Hids. eapply HQ.
  - eapply repr_put; [done|done|done|done| |].
    + unfold slot_ids. by rewrite Est.
    + split; [done|]. split; [done|]. split; [done|]. eexists. split; [done|].
      cbn [o_pins set_pins counts]. split; [congruence|]. rewrite (wrap_total_set _ _ _ _ _ Hc Hcs).
      rewrite <- wrap_wrap_add, wrap_atomic_add, wrap_wrap_add.
      rewrite <- (wrap_wrap_add d (o_pins o)), <- Htot, wrap_wrap_add. f_equal. lia.
  - rewrite (proj2 Hput), decide_True; done.
  - done.
  - done.
Qed.

(** ** Each operation keeps the representation *)

Lemma put_in_trans t idx a t1 b t2 : put_in t idx a t1 -> put_in t1 idx b t2 -> put_in t idx b t2.
Proof.
  intros [_ H1] [Hwf H2]. split; [done|]. intros j. rewrite H2. case_decide; [done|].
  rewrite H1. by rewrite decide_False.
Qed.

Lemma put_in_at t idx a t1 : put_in t idx a t1 -> slot_at t1 idx = Some a.
Proof. intros [_ H]. rewrite H. by rewrite decide_True. Qed.

(** The three stores of a publish, as one replacement of the slot. *)
Lemma wp_store_three {A} t idx s s1 s2 s3 (k : ccol_pintable -> M A) m (Q : A -> mem -> Prop) :
  table_wf t -> slot_at t idx = Some s ->
  (forall t', put_in t idx s3 t' ->
    table_ids t' ++ slot_ids s ≡ₚ table_ids t ++ slot_ids s3 -> wp (k t') m Q) ->
  wp (t ← store_slot t (slot_index idx) s1; t ← store_slot t (slot_index idx) s2;
      t ← store_slot t (slot_index idx) s3; k t) m Q.
Proof.
  intros Hwf Hs HQ. apply wp_bind. eapply wp_store_slot; [done|done|]. intros t1 P1 I1.
  apply wp_bind. eapply wp_store_slot; [apply P1|by apply put_in_at in P1|]. intros t2 P2 I2.
  apply wp_bind. eapply wp_store_slot; [apply P2|by apply put_in_at in P2|]. intros t3 P3 I3.
  apply HQ; [eapply put_in_trans; [|done]; by eapply put_in_trans|].
  apply (Permutation_app_inv_r (slot_ids s1 ++ slot_ids s2)).
  transitivity ((table_ids t3 ++ slot_ids s2) ++ slot_ids s ++ slot_ids s1); [solve_Permutation|].
  rewrite I3. transitivity ((table_ids t2 ++ slot_ids s1) ++ slot_ids s ++ slot_ids s3); [solve_Permutation|].
  rewrite I2. transitivity ((table_ids t1 ++ slot_ids s) ++ slot_ids s2 ++ slot_ids s3); [solve_Permutation|].
  rewrite I1. solve_Permutation.
Qed.

Lemma zget_zero_slots i : 0 <= i < CCOL_PIN_CHUNK_SLOTS -> zget zero_slots i = Some zero_slot.
Proof.
  intros Hi. unfold zget. destruct (Z.leb_spec 0 i); [|lia].
  apply lookup_replicate_2. unfold CCOL_PIN_CHUNK_SLOTS in *. lia.
Qed.

Lemma repr_new_chunk t s m m' F c id t' :
  table_repr t s m F -> zget t c = Some None ->
  zset t c (Some (PinChunk id zero_slots)) = Some t' ->
  owns m' ({[id]} ∪ list_to_set (table_ids t)) F -> id ∉ (list_to_set (table_ids t) : gset nat) ->
  table_repr t' s m' F.
Proof.
  intros [Hwf Hs Hnd Ho] Hc Ht' Ho' Hid. rewrite elem_of_list_to_set in Hid.
  destruct (zset_spec _ _ _ _ Ht') as (Hrange & Hlen & Hget).
  assert (table_ids t' ≡ₚ id :: table_ids t) as Hids.
  { pose proof (zset_ids chunk_ids _ _ _ _ _ Hc Ht') as P. cbn [chunk_ids pc_id slots] in P.
    rewrite app_nil_r in P. unfold table_ids. rewrite P.
    rewrite (Permutation_app_comm (concat _)). done. }
  split.
  - split; [by rewrite Hlen, (proj1 Hwf)|]. intros c' chunk. rewrite Hget. case_decide; [|apply Hwf].
    by intros [= <-].
  - intros idx Hi. pose proof (Hs idx Hi) as Hx. pose proof (slot_index_range idx Hi) as [_ Hr].
    unfold index_repr, slot_at in *. rewrite Hget. case_decide as E; [|done].
    rewrite E, Hc in Hx. cbn in Hx. cbn [mjoin option_join mbind option_bind slots].
    rewrite zget_zero_slots by done. cbn. by rewrite Hx.
  - rewrite Hids. by constructor.
  - by rewrite Hids.
Qed.

(** Publishing into a slot: the counters it had stay, new ones are zero. *)
Lemma repr_publish t s m m' F idx sl st gen p t' :
  table_repr t s m F -> slot_at t idx = Some sl -> 0 <= idx -> gen <> 0 ->
  put_in t idx (PinSlot (pin_state gen true) p (Some st)) t' ->
  table_ids t' ++ slot_ids sl ≡ₚ table_ids t ++ [ps_id st] ->
  owns m' ({[ps_id st]} ∪ list_to_set (table_ids t)) F ->
  match stripes sl with
  | Some st' => st' = st
  | None => counts st = replicate 8 0 /\ ps_id st ∉ (list_to_set (table_ids t) : gset nat)
  end ->
  table_repr t' (<[idx := Occupancy gen true p (from_option o_pins 0 (s !! idx))]> s) m' F.
Proof.
  intros Hr Hat Hi Hg Hput Hids Ho Hst. destruct Hr as [Hwf Hs Hnd Ho'].
  pose proof (Hs idx Hi) as Hx. unfold index_repr in Hx. rewrite Hat in Hx.
  assert (slot_repr (PinSlot (pin_state gen true) p (Some st))
            (Some (Occupancy gen true p (from_option o_pins 0 (s !! idx))))) as Hnew.
  { split; [done|]. split; [done|]. split; [done|]. exists st. split; [done|]. cbn.
    destruct (s !! idx) as [o|]; cbn in *.
    - destruct Hx as (_ & _ & _ & st' & Est & ? & ?). rewrite Est in Hst. by subst.
    - rewrite Hx in Hst. cbn in Hst. destruct Hst as [-> _]. done. }
  assert (exists extra, table_ids t' ≡ₚ extra ++ table_ids t /\ NoDup (extra ++ table_ids t) /\
    (list_to_set (extra ++ table_ids t) : gset nat) = {[ps_id st]} ∪ list_to_set (table_ids t))
    as (extra & Hp & Hnd' & Hset).
  { unfold slot_ids in Hids. destruct (stripes sl) as [st'|] eqn:E.
    - subst st'. exists []. apply Permutation_app_inv_r in Hids. split; [done|]. split; [done|].
      assert (ps_id st ∈ table_ids t); [|cbn; set_solver].
      apply slot_at_chunk in Hat as (chunk & Hc & Hsl).
      unfold table_ids. apply zget_split in Hc, Hsl. rewrite Hc, fmap_app, concat_app. cbn.
      rewrite Hsl, fmap_app, concat_app. cbn. unfold slot_ids. rewrite E. set_solver.
    - exists [ps_id st]. destruct Hst as [_ Hn]. rewrite elem_of_list_to_set in Hn.
      rewrite app_nil_r in Hids. rewrite Hids. split; [solve_Permutation|]. split; [by constructor|].
      cbn. set_solver. }
  split; [apply Hput| |by rewrite Hp|by rewrite Hp, Hset].
  intros j Hj. unfold index_repr. rewrite (proj2 Hput). case_decide as E.
  - by rewrite E, lookup_insert_eq.
  - rewrite lookup_insert_ne by done. by apply Hs.
Qed.

Section Operations.
Context {alloc : Allocator}.
Implicit Types (t : ccol_pintable) (s : spec_table).

Lemma answers_eq c s r s' : spec_cmd true c s = (r, s') -> answers c s r s'.
Proof. intros E. exists true. by split. Qed.

Lemma wp_publish_slot t s m F idx gen p (Q : bool * ccol_pintable -> mem -> Prop) sl :
  table_repr t s m F -> slot_at t idx = Some sl -> 0 <= idx -> gen <> 0 ->
  (forall t' m', table_repr t' (<[idx := Occupancy gen true p (from_option o_pins 0 (s !! idx))]> s) m' F ->
    Q (true, t') m') ->
  (forall m', grant (m_next m) (CCOL_PIN_STRIPES * sizeof_pin_stripe) = false ->
    table_repr t s m' F -> Q (false, t) m') ->
  wp (sl ← load_slot t (slot_index idx);
      ost ← match stripes sl with
            | Some st => mret (Some st)
            | None =>
                b ← _ccol_mem_calloc CCOL_PIN_STRIPES sizeof_pin_stripe;
                mret ((fun b => PinStripes (b_id b) (replicate (Z.to_nat CCOL_PIN_STRIPES) 0)) <$> b)
            end;
      match ost with
      | None => mret (false, t)
      | Some st =>
          t ← store_slot t (slot_index idx) (PinSlot (state sl) (sl_ptr sl) (Some st));
          t ← store_slot t (slot_index idx) (PinSlot (state sl) p (Some st));
          t ← store_slot t (slot_index idx) (PinSlot (pin_state gen true) p (Some st));
          mret (true, t)
      end) m Q.
Proof.
  intros Hr Hat Hi Hg HQ Hfail. apply wp_bind. eapply wp_load_slot; [done|].
  assert (forall st m', owns m' ({[ps_id st]} ∪ list_to_set (table_ids t)) F ->
    match stripes sl with
    | Some st' => st' = st
    | None => counts st = replicate 8 0 /\ ps_id st ∉ (list_to_set (table_ids t) : gset nat)
    end ->
    wp (t ← store_slot t (slot_index idx) (PinSlot (state sl) (sl_ptr sl) (Some st));
        t ← store_slot t (slot_index idx) (PinSlot (state sl) p (Some st));
        t ← store_slot t (slot_index idx) (PinSlot (pin_state gen true) p (Some st));
        mret (true, t)) m' Q) as Hstore.
  { intros st m' Ho' Hst.
    eapply wp_store_three; [apply Hr|done|]. intros t' Hput Hids. apply wp_ret, HQ.
    by eapply repr_publish. }
  destruct (stripes sl) as [st|] eqn:E.
  - apply wp_bind, wp_ret. apply Hstore; [|done].
    apply (owns_change _ _ _ _ (tr_owns _ _ _ _ Hr)).
    assert (ps_id st ∈ table_ids t); [|set_solver].
    apply slot_at_chunk in Hat as (chunk & Hc & Hsl). apply zget_split in Hc, Hsl.
    unfold table_ids. rewrite Hc, fmap_app, concat_app. cbn.
    rewrite Hsl, fmap_app, concat_app. cbn. unfold slot_ids. rewrite E. set_solver.
  - apply wp_bind, wp_bind. eapply wp_calloc_owns; [apply Hr|done| |].
    + intros m' Ho' Hgr. apply wp_ret. cbn. apply wp_ret, Hfail; [done|]. destruct Hr. by split.
    + intros b m' Ho' Hb _ _ _. apply wp_ret. cbn [fmap option_fmap option_map]. by apply Hstore.
Qed.
Lemma wp_publish t s m F idx gen p (Q : bool * ccol_pintable -> mem -> Prop) :
  table_repr t s m F -> 0 <= idx ->
  (forall b t' s' m', answers (PubCmd idx gen p) s (RBool b) s' -> table_repr t' s' m' F -> Q (b, t') m') ->
  wp (ccol_pintable_publish t idx gen p) m Q.
Proof.
  intros Hr Hi HQ. unfold ccol_pintable_publish.
  assert (forall k n t' m', grant k n = false -> table_repr t' s m' F -> Q (false, t') m') as Hfail.
  { intros k n t' m' Hk Hr'. eapply HQ; [|done]. exists false. split; [by exists k, n|].
    cbn. by rewrite orb_true_r. }
  destruct (Z.eqb_spec gen 0) as [->|Hg]; [apply wp_ret; eapply HQ; [by apply answers_eq|done]|].
  destruct (Z.leb_spec CCOL_PIN_MAX_CHUNKS (idx `div` CCOL_PIN_CHUNK_SLOTS)) as [Hle|Hlt].
  { apply wp_ret. eapply HQ; [apply answers_eq|done]. cbn.
    apply (slot_index_small idx Hi) in Hle. rewrite (proj2 (Z.leb_le _ _) Hle). by rewrite orb_true_r. }
  assert (idx < CCOL_PIN_MAX_SLOTS) as Hsmall.
  { apply Z.nle_gt. rewrite <- slot_index_small by done. cbn. lia. }
  assert (forall t' m', table_repr t' (<[idx := Occupancy gen true p (from_option o_pins 0 (s !! idx))]> s) m' F ->
    Q (true, t') m') as Hok.
  { intros t' m' Hr'. eapply HQ; [apply answers_eq|done]. cbn. rewrite (proj2 (Z.eqb_neq gen 0) Hg).
    destruct (Z.leb_spec CCOL_PIN_MAX_SLOTS idx); [lia|done]. }
  pose proof (slot_index_range idx Hi) as [H1 H2].
  destruct (zget_is_Some t (slot_index idx).1) as [c Hc].
  { rewrite (proj1 (tr_wf _ _ _ _ Hr)). cbn in *. lia. }
  cbn [slot_index fst] in Hc. rewrite Hc. apply wp_bind, wp_ret. destruct c as [chunk|].
  - apply wp_bind, wp_ret.
    destruct (zget_is_Some (slots chunk) (slot_index idx).2) as [sl Hsl].
    { by rewrite (proj2 (tr_wf _ _ _ _ Hr) _ _ Hc). }
    eapply wp_publish_slot; [done| |done|done|done|by intros; eapply Hfail].
    unfold slot_at. cbn [slot_index fst]. rewrite Hc. exact Hsl.
  - apply wp_bind, wp_bind. eapply wp_calloc_owns; [apply Hr|done| |].
    + intros m' Ho Hgr. apply wp_ret, wp_ret. eapply Hfail; [done|]. destruct Hr. by split.
    + intros b m' Ho Hb _ _ _.
      destruct (zset_is_Some t (slot_index idx).1 (Some (PinChunk (b_id b) zero_slots)) (zget_Some_lt _ _ _ Hc))
        as [t' Ht'].
      cbn [slot_index fst] in Ht'. rewrite Ht'. apply wp_bind, wp_ret, wp_ret.
      assert (table_repr t' s m' F) as Hr' by by eapply repr_new_chunk.
      eapply wp_publish_slot; [done| |done|done|done|by intros; eapply Hfail].
      unfold slot_at. cbn [slot_index fst]. destruct (zset_spec _ _ _ _ Ht') as (_ & _ & ->).
      rewrite decide_True by done. cbn [mjoin option_join mbind option_bind slots].
      by apply zget_zero_slots.
Qed.

(** The slot and the occupancy of an index, in the three cases there are. *)
Lemma index_cases t s m F idx :
  table_repr t s m F -> 0 <= idx ->
  (slot_at t idx = None /\ s !! idx = None) \/
  (slot_at t idx = Some zero_slot /\ s !! idx = None) \/
  (exists sl o, slot_at t idx = Some sl /\ s !! idx = Some o /\ slot_repr sl (Some o)).
Proof.
  intros Hr Hi. pose proof (tr_slots _ _ _ _ Hr idx Hi) as Hx. unfold index_repr in Hx.
  destruct (slot_at t idx) as [sl|]; [|by left]. right.
  destruct (s !! idx) as [o|]; [right; by eauto|left]. cbn in Hx. by subst.
Qed.

Lemma table_wf_repr t s m F : table_repr t s m F -> table_wf t.
Proof. apply tr_wf. Qed.
#[local] Hint Resolve table_wf_repr : core.

Lemma wp_retire t s m F idx (Q : ccol_pintable -> mem -> Prop) :
  table_repr t s m F -> 0 <= idx ->
  (forall t' s', answers (RetireCmd idx) s RUnit s' -> table_repr t' s' m F -> Q t' m) ->
  wp (ccol_pintable_retire t idx) m Q.
Proof.
  intros Hr Hi HQ. unfold ccol_pintable_retire. apply wp_bind.
  assert (answers (RetireCmd idx) s RUnit
    (alter (fun o => Occupancy (o_gen o) false (o_ptr o) (o_pins o)) idx s)) as Hans by by apply answers_eq.
  eapply wp_pin_slot_lookup; [by eauto|done| |].
  - intros Hn. apply wp_ret. eapply HQ; [exact Hans|].
    pose proof (tr_slots _ _ _ _ Hr idx Hi) as Hx. unfold index_repr in Hx. rewrite Hn in Hx.
    by rewrite alter_absent.
  - intros sl Hsl. apply wp_bind. eapply wp_load_slot; [done|].
    eapply wp_store_slot; [by eauto|done|]. intros t' Hput Hids.
    destruct (index_cases _ _ _ _ _ Hr Hi) as [[? _]|[[Hz Hs]|(sl' & o & Hsl' & Ho & Hrep)]]; [congruence| |].
    + assert (sl = zero_slot) as -> by congruence. eapply HQ; [exact Hans|]. rewrite (alter_absent _ _ _ Hs).
      destruct Hr as [Hwf Hss Hnd How]. cbn in Hids. rewrite !app_nil_r in Hids.
      split; [apply Hput| |by rewrite Hids|by rewrite Hids].
      intros j Hj. unfold index_repr. rewrite (proj2 Hput). case_decide as E; [|by apply Hss].
      by rewrite E, Hs.
    + assert (sl' = sl) as -> by congruence. eapply HQ; [exact Hans|].
      rewrite (alter_present _ _ _ _ Ho). eapply repr_put; [done|done|done|done|done|].
      destruct Hrep as (? & Hst & ? & ?). split; [done|]. split; [|done].
      cbn [state o_live o_gen]. by rewrite Hst, pin_state_retired.
Qed.
Lemma handle_idx_nonneg h : is_u64 h -> 0 <= handle_idx h.
Proof. intros [? _]. by apply Z.shiftr_nonneg. Qed.

Lemma set_pins_succ o : set_pins (Z.add 1) o = set_pins Z.succ o.
Proof. unfold set_pins. f_equal. lia. Qed.
Lemma set_pins_pred o : set_pins (Z.add (-1)) o = set_pins Z.pred o.
Proof. unfold set_pins. f_equal. lia. Qed.

Lemma wp_pin t s m F self g h (Q : Z * pin_tls * ccol_pintable -> mem -> Prop) :
  table_repr t s m F -> is_u64 h ->
  (forall p g' t' s', answers (PinCmd self h) s (RPtr p) s' -> table_repr t' s' m F -> Q (p, g', t') m) ->
  wp (ccol_pintable_pin self g t h) m Q.
Proof.
  intros Hr Hh HQ. pose proof (handle_idx_nonneg h Hh) as Hi. unfold ccol_pintable_pin.
  destruct (Z.eqb_spec h 0) as [->|Hh0].
  { apply wp_ret, (HQ _ _ _ s); [|done]. apply answers_eq. cbn. by case_match. }
  apply wp_bind. assert (s !! handle_idx h = None -> Q (0, g, t) m) as Hnone.
  { intros Hs. eapply HQ; [apply answers_eq|done]. cbn. by rewrite Hs. }
  apply wp_pin_slot_lookup; [by eauto|done| |].
  - intros Hn. apply wp_ret, Hnone.
    destruct (index_cases _ _ _ _ _ Hr Hi) as [[_ ?]|[[Hz Hs]|(? & ? & ? & _)]]; congruence.
  - intros sl Hsl. apply wp_bind. eapply wp_load_slot; [done|].
    destruct (index_cases _ _ _ _ _ Hr Hi) as [[? _]|[[Hz Hs]|(sl' & o & Hsl' & Ho & Hrep)]]; [congruence| |].
    + assert (sl = zero_slot) as -> by congruence.
      assert ((state zero_slot =? pin_state (handle_gen h) true) = false) as ->;
        [|by apply wp_ret, Hnone]. apply Z.eqb_neq. rewrite pin_state_value. cbn. lia.
    + assert (sl' = sl) as -> by congruence.
      destruct Hrep as (Hgen & Hst & Hptr & st & Est & _).
      rewrite Hst, pin_state_want. fold (resolves o h).
      destruct (resolves o h) eqn:Eres; cbn [negb].
      * rewrite Est. destruct (pin_stripe_self self g) as [stripe g'] eqn:Eg.
        apply wp_bind. eapply wp_add_count; [done|done|done|done|by eapply pin_stripe_range|].
        intros t' sl' Hr' Hat' Hst' Hptr'. apply wp_bind. eapply wp_load_slot; [done|].
        rewrite Hst', Hst, pin_state_want. fold (resolves o h). rewrite Eres. cbn [negb].
        apply wp_ret. eapply HQ; [apply answers_eq|done]. cbn. rewrite Ho, Eres.
        rewrite (proj2 (Z.eqb_neq h 0) Hh0). cbn. rewrite (alter_present _ _ _ _ Ho).
        by rewrite Hptr', Hptr, <- set_pins_succ.
      * apply wp_ret. eapply HQ; [apply answers_eq|done]. cbn. by rewrite Ho, Eres, andb_false_r.
Qed.

Lemma wp_unpin t s m F self g h (Q : pin_tls * ccol_pintable -> mem -> Prop) :
  table_repr t s m F -> is_u64 h ->
  (forall g' t' s', answers (UnpinCmd self h) s RUnit s' -> table_repr t' s' m F -> Q (g', t') m) ->
  wp (ccol_pintable_unpin self g t h) m Q.
Proof.
  intros Hr Hh HQ. pose proof (handle_idx_nonneg h Hh) as Hi. unfold ccol_pintable_unpin.
  assert (answers (UnpinCmd self h) s RUnit
    (if h =? 0 then s else alter (set_pins Z.pred) (handle_idx h) s)) as Hans by by apply answers_eq.
  destruct (Z.eqb_spec h 0) as [->|Hh0]; [apply wp_ret; eapply HQ; [by apply Hans|done]|].
  assert (s !! handle_idx h = None -> Q (g, t) m) as Hnone.
  { intros Hs. eapply HQ; [exact Hans|by rewrite alter_absent]. }
  apply wp_bind, wp_pin_slot_lookup; [by eauto|done| |].
  - intros Hn. apply wp_ret, Hnone.
    destruct (index_cases _ _ _ _ _ Hr Hi) as [[_ ?]|[[Hz Hs]|(? & ? & ? & _)]]; congruence.
  - intros sl Hsl. apply wp_bind. eapply wp_load_slot; [done|].
    destruct (index_cases _ _ _ _ _ Hr Hi) as [[? _]|[[Hz Hs]|(sl' & o & Hsl' & Ho & Hrep)]]; [congruence| |].
    + assert (sl = zero_slot) as -> by congruence. by apply wp_ret, Hnone.
    + assert (sl' = sl) as -> by congruence. destruct Hrep as (Hgen & Hst & Hptr & st & Est & _).
      rewrite Est. destruct (pin_stripe_self self g) as [stripe g'] eqn:Eg.
      apply wp_bind. eapply wp_add_count; [done|done|done|done|by eapply pin_stripe_range|].
      intros t' sl' Hr' _ _ _. apply wp_ret. eapply HQ; [exact Hans|].
      by rewrite (alter_present _ _ _ _ Ho), <- set_pins_pred.
Qed.

Lemma wp_pins t s m F idx (Q : Z -> mem -> Prop) :
  table_repr t s m F -> 0 <= idx -> Q (spec_pins s idx) m -> wp (ccol_pintable_pins t idx) m Q.
Proof.
  intros Hr Hi HQ. unfold ccol_pintable_pins, spec_pins in *.
  apply wp_bind, wp_pin_slot_lookup; [by eauto|done| |].
  - intros Hn. apply wp_ret.
    destruct (index_cases _ _ _ _ _ Hr Hi) as [[_ Hs]|[[Hz _]|(? & ? & ? & _)]]; try congruence.
    by rewrite Hs in HQ.
  - intros sl Hsl. apply wp_bind. eapply wp_load_slot; [done|].
    destruct (index_cases _ _ _ _ _ Hr Hi) as [[? _]|[[Hz Hs]|(sl' & o & Hsl' & Ho & Hrep)]]; [congruence| |].
    + assert (sl = zero_slot) as -> by congruence. apply wp_ret. by rewrite Hs in HQ.
    + assert (sl' = sl) as -> by congruence.
      destruct Hrep as (Hgen & Hst & Hptr & st & Est & Hlen & Htot). rewrite Est, Ho in *.
      assert (Z.to_nat CCOL_PIN_STRIPES = length (counts st)) as -> by (unfold zlen in Hlen; lia).
      apply wp_bind, (wp_accumulate (counts st) []); [|done]. apply wp_ret.
      by rewrite wrap_wrap_add, Z.add_0_l, Htot.
Qed.

Lemma wp_pin_reset t s m F idx (Q : ccol_pintable -> mem -> Prop) :
  table_repr t s m F -> 0 <= idx ->
  (forall t', table_repr t' (alter (set_pins (fun _ => 0)) idx s) m F -> Q t' m) ->
  wp (ccol_pintable_reset t idx) m Q.
Proof.
  intros Hr Hi HQ. unfold ccol_pintable_reset.
  assert (s !! idx = None -> Q t m) as Hnone.
  { intros Hs. apply HQ. by rewrite alter_absent. }
  apply wp_bind, wp_pin_slot_lookup; [by eauto|done| |].
  - intros Hn. apply wp_ret, Hnone.
    destruct (index_cases _ _ _ _ _ Hr Hi) as [[_ ?]|[[Hz Hs]|(? & ? & ? & _)]]; congruence.
  - intros sl Hsl. apply wp_bind. eapply wp_load_slot; [done|].
    destruct (index_cases _ _ _ _ _ Hr Hi) as [[? _]|[[Hz Hs]|(sl' & o & Hsl' & Ho & Hrep)]]; [congruence| |].
    + assert (sl = zero_slot) as -> by congruence. by apply wp_ret, Hnone.
    + assert (sl' = sl) as -> by congruence.
      destruct Hrep as (Hgen & Hst & Hptr & st & Est & Hlen & Htot). rewrite Est.
      assert (Z.to_nat CCOL_PIN_STRIPES = length (counts st)) as -> by (unfold zlen in Hlen; lia).
      apply wp_bind, (wp_clear_counts (counts st) []). cbn [app].
      eapply wp_store_slot; [by eauto|done|]. intros t' Hput Hids. apply HQ.
      rewrite (alter_present _ _ _ _ Ho).
      eapply repr_put; [done|done|done|done| |].
      * unfold slot_ids. by rewrite Est.
      * split; [done|]. split; [done|]. split; [done|]. eexists. split; [done|].
        cbn [counts o_pins set_pins]. rewrite total_zeros. split; [|done].
        unfold zlen in *. by rewrite length_replicate.
Qed.
End Operations.

Section Dispose.

(** Freeing the first of a list of distinct blocks. *)
Lemma wp_free_first id l m F (Q : unit -> mem -> Prop) :
  owns m (list_to_set (id :: l)) F -> NoDup (id :: l) ->
  (forall m', owns m' (list_to_set l) F -> Q tt m') ->
  wp (_ccol_mem_free id) m Q.
Proof.
  intros Ho [Hn Hl]%NoDup_cons HQ. eapply wp_free_owns; [done|cbn; set_solver|].
  intros m' Ho'. apply HQ. apply (owns_change _ _ _ _ Ho').
  assert (id ∉ (list_to_set l : gset nat)) by (by rewrite elem_of_list_to_set).
  cbn. set_solver.
Qed.

Lemma wp_dispose_slots ss pre l m F (Q : list ccol_pin_slot -> mem -> Prop) :
  owns m (list_to_set (concat (slot_ids <$> ss) ++ l)) F -> NoDup (concat (slot_ids <$> ss) ++ l) ->
  (forall ss' m', owns m' (list_to_set l) F -> Q ss' m') ->
  wp (for_range (zlen pre) (length ss) dispose_slot (pre ++ ss)) m Q.
Proof.
  revert pre m. induction ss as [|s ss IH]; intros pre m Ho Hnd HQ; cbn [for_range length].
  { apply wp_ret. by apply HQ. }
  apply wp_bind. unfold dispose_slot at 1. rewrite zget_app_mid by done. apply wp_bind, wp_ret.
  rewrite (zset_app_mid pre s (PinSlot (state s) (sl_ptr s) None) ss) by done. apply wp_bind, wp_ret.
  assert (forall m', owns m' (list_to_set (concat (slot_ids <$> ss) ++ l)) F ->
    NoDup (concat (slot_ids <$> ss) ++ l) ->
    wp (for_range (zlen pre + 1) (length ss) dispose_slot (pre ++ PinSlot (state s) (sl_ptr s) None :: ss)) m' Q)
    as Hrest.
  { intros m' Ho' Hnd'.
    rewrite cons_snoc. replace (zlen pre + 1) with (zlen (pre ++ [PinSlot (state s) (sl_ptr s) None])) by zlia.
    by apply IH. }
  cbn [fmap list_fmap concat] in Ho, Hnd. unfold slot_ids at 1 in Ho. unfold slot_ids at 1 in Hnd.
  destruct (stripes s) as [st|]; cbn [app] in *; apply wp_bind.
  - eapply wp_free_first; [done|done|]. intros m' Ho'. apply wp_ret, Hrest; [done|].
    by apply NoDup_cons in Hnd as [_ ?].
  - apply wp_ret, wp_ret, Hrest; done.
Qed.

Lemma wp_dispose_chunks t pre l m F (Q : ccol_pintable -> mem -> Prop) :
  (forall c, Some c ∈ t -> zlen (slots c) = CCOL_PIN_CHUNK_SLOTS) ->
  owns m (list_to_set (table_ids t ++ l)) F -> NoDup (table_ids t ++ l) ->
  (forall m', owns m' (list_to_set l) F -> Q (pre ++ replicate (length t) None) m') ->
  wp (for_range (zlen pre) (length t) dispose_chunk (pre ++ t)) m Q.
Proof.
  revert pre m. induction t as [|c t IH]; intros pre m Hwf Ho Hnd HQ; cbn [for_range length].
  { apply wp_ret. by apply HQ. }
  apply wp_bind. unfold dispose_chunk at 1. rewrite zget_app_mid by done. apply wp_bind, wp_ret.
  assert (forall m', owns m' (list_to_set (table_ids t ++ l)) F -> NoDup (table_ids t ++ l) ->
    wp (for_range (zlen pre + 1) (length t) dispose_chunk (pre ++ None :: t)) m' Q) as Hrest.
  { intros m' Ho' Hnd'. rewrite cons_snoc. replace (zlen pre + 1) with (zlen (pre ++ [@None ccol_pin_chunk])) by zlia.
    apply IH; [|done|done|].
    - intros c' Hc'. apply Hwf. by right.
    - intros m'' Ho''. rewrite <- app_assoc. by apply HQ. }
  unfold table_ids in Ho, Hnd. cbn [fmap list_fmap concat] in Ho, Hnd. fold (table_ids t) in Ho, Hnd.
  rewrite <- app_assoc in Ho, Hnd. destruct c as [chunk|]; [|by apply wp_ret, Hrest].
  rewrite (zset_app_mid pre (Some chunk) None t) by done. apply wp_bind, wp_ret, wp_bind.
  assert (Z.to_nat CCOL_PIN_CHUNK_SLOTS = length (slots chunk)) as ->.
  { pose proof (Hwf chunk ltac:(by left)) as Hz. unfold zlen in Hz. lia. }
  assert (chunk_ids (Some chunk) ++ table_ids t ++ l ≡ₚ
          concat (slot_ids <$> slots chunk) ++ pc_id chunk :: (table_ids t ++ l)) as Hp.
  { cbn. apply Permutation_middle. }
  rewrite Hp in Ho, Hnd. apply (wp_dispose_slots _ [] (pc_id chunk :: table_ids t ++ l) _ F); [done|done|].
  intros _ m' Ho'. apply NoDup_app in Hnd as (_ & _ & Hnd). apply wp_bind.
  eapply wp_free_first; [done|done|]. intros m'' Ho''. apply wp_ret, Hrest; [done|].
  by apply NoDup_cons in Hnd as [_ ?].
Qed.

Lemma wp_dispose t s m F (Q : ccol_pintable -> mem -> Prop) :
  table_repr t s m F -> (forall m', owns m' ∅ F -> Q zero_table m') ->
  wp (ccol_pintable_dispose t) m Q.
Proof.
  intros [[Hl Hwf] _ Hnd Ho] HQ. unfold ccol_pintable_dispose.
  assert (Z.to_nat CCOL_PIN_MAX_CHUNKS = length t) as Hn by (unfold zlen in Hl; lia). rewrite Hn.
  apply (wp_dispose_chunks t [] [] _ F).
  - intros c (i & Hi)%list_elem_of_lookup. apply (Hwf (Z.of_nat i)). unfold zget.
    destruct (Z.leb_spec 0 (Z.of_nat i)); [|lia]. by rewrite Nat2Z.id.
  - by rewrite app_nil_r.
  - by rewrite app_nil_r.
  - intros m' Ho'. cbn [app]. rewrite <- Hn. by apply HQ.
Qed.
End Dispose.

Section Histories.
Context {alloc : Allocator}.

Lemma wp_run_cmd c g t s m F (Q : pin_reply * (pin_tls * ccol_pintable) -> mem -> Prop) :
  table_repr t s m F -> cmd_ok c ->
  (forall r g' t' s' m', answers c s r s' -> table_repr t' s' m' F -> Q (r, (g', t')) m') ->
  wp (run_cmd c (g, t)) m Q.
Proof.
  intros Hr Hok HQ. destruct c as [idx gen p|idx|self h|self h|idx|h|idx|h]; cbn [run_cmd cmd_ok] in *;
    try apply wp_bind.
  - apply wp_publish with s F; [done|apply Hok|]. intros. apply wp_ret. by eapply HQ.
  - apply wp_retire with s F; [done|apply Hok|]. intros. apply wp_ret. by eapply HQ.
  - apply wp_pin with s F; [done|done|]. intros. apply wp_ret. by eapply HQ.
  - apply wp_unpin with s F; [done|done|]. intros. apply wp_ret. by eapply HQ.
  - apply wp_pins with s F; [done|apply Hok|]. apply wp_ret. eapply HQ; [by apply answers_eq|done].
  - unfold ccol_pintable_pins_for. destruct (Z.eqb_spec h 0) as [->|Hh].
    + apply wp_ret, wp_ret. eapply HQ; [by apply answers_eq|done].
    + apply wp_pins with s F; [done|by apply handle_idx_nonneg|]. apply wp_ret.
      eapply HQ; [apply answers_eq|done]. cbn. by rewrite (proj2 (Z.eqb_neq h 0) Hh).
  - apply wp_pin_reset with s F; [done|apply Hok|]. intros t' Hr'. apply wp_ret.
    eapply HQ; [by apply answers_eq|done].
  - unfold ccol_pintable_reset_for. destruct (Z.eqb_spec h 0) as [->|Hh].
    + apply wp_ret, wp_ret. eapply HQ; [by apply answers_eq|done].
    + apply wp_pin_reset with s F; [done|by apply handle_idx_nonneg|]. intros t' Hr'. apply wp_ret.
      eapply HQ; [apply answers_eq|done]. cbn. by rewrite (proj2 (Z.eqb_neq h 0) Hh).
Qed.

Lemma wp_run_cmds cs g t s m F
    (Q : list pin_reply * (pin_tls * ccol_pintable) -> mem -> Prop) :
  table_repr t s m F -> Forall cmd_ok cs ->
  (forall rs g' t' s' m', spec_run cs s rs s' -> table_repr t' s' m' F -> Q (rs, (g', t')) m') ->
  wp (run_cmds cs (g, t)) m Q.
Proof.
  intros Hr Hok. revert g t s m Hr Q.
  induction Hok as [|c cs Hc Hok IH]; intros g t s m Hr Q HQ; cbn [run_cmds].
  { apply wp_ret. eapply HQ; [constructor|done]. }
  apply wp_bind. eapply wp_run_cmd; [done|done|]. intros r g' t' s' m' Ha Hr'.
  apply wp_bind. eapply IH; [done|]. intros rs g'' t'' s'' m'' Hs Hr''.
  apply wp_ret. eapply HQ; [by econstructor|done].
Qed.

Lemma zero_table_repr m F : owns m ∅ F -> table_repr zero_table ∅ m F.
Proof.
  intros Ho. assert (forall c, zget zero_table c = None \/ zget zero_table c = Some None) as Hz.
  { intros c. unfold zget. destruct (0 <=? c); [|by left].
    destruct (decide (Z.to_nat c < Z.to_nat CCOL_PIN_MAX_CHUNKS)%nat).
    - right. by apply lookup_replicate_2.
    - left. apply lookup_replicate_None. lia. }
  assert (table_ids zero_table = []) as Hids.
  { unfold table_ids, zero_table. generalize (Z.to_nat CCOL_PIN_MAX_CHUNKS). intros n.
    induction n as [|n IH]; [done|]. cbn. by rewrite IH. }
  split.
  - split; [by apply zlen_replicate|]. intros c chunk Hc. destruct (Hz c); congruence.
  - intros idx _. unfold index_repr, slot_at.
    destruct (Hz (slot_index idx).1) as [-> | ->]; apply lookup_empty.
  - rewrite Hids. constructor.
  - by rewrite Hids.
Qed.

(** C33: any history of operations of any number of threads on a pin table
    answers as one map from indices to occupancies does, with one pin count
    per index, whatever requests the allocator refuses and even when a
    counter wraps; an operation on the zero handle does nothing; and
    disposing of the table empties the directory and frees every block. *)
Theorem pin_table_history cs m F :
  Forall cmd_ok cs -> owns m ∅ F ->
  wp ('(rs, (_, t)) ← run_cmds cs (tls0, zero_table);
      t ← ccol_pintable_dispose t;
      mret (rs, t)) m
     (fun '(rs, t) m' => (exists s, spec_run cs ∅ rs s) /\ t = zero_table /\ owns m' ∅ F).
Proof.
  intros Hok Ho. apply wp_bind. eapply wp_run_cmds; [by apply zero_table_repr|done|].
  intros rs g t s m' Hs Hr. apply wp_bind. eapply wp_dispose; [done|]. intros m'' Ho'.
  apply wp_ret. split; [by exists s|done].
Qed.
End Histories.

(** Thread 7 pins, publishes fail past the ceiling, and thread 8 releases a
    pin it never took. *)
Definition sample_cmds : list pin_cmd :=
  [PubCmd 65 3 4096; PinCmd 7 (65 * 2 ^ 32 + 3); PinCmd 8 (65 * 2 ^ 32 + 3); PinsCmd 65;
   RetireCmd 65; PinCmd 8 (65 * 2 ^ 32 + 3); UnpinCmd 7 (65 * 2 ^ 32 + 3);
   PinsForCmd (65 * 2 ^ 32 + 3); PubCmd 65536 1 8; PubCmd 0 0 8; UnpinCmd 7 0; ResetCmd 65; PinsCmd 65].

Example sample_replies :
  match @run_cmds (grant_up_to 4096) sample_cmds (tls0, zero_table) mem0 with
  | Done (rs, _) _ => rs
  | _ => []
  end =
  [RBool true; RPtr 4096; RPtr 4096; RCount 2; RUnit; RPtr 0; RUnit; RCount 1; RBool false;
   RBool false; RUnit; RUnit; RCount 0].
Proof. vm_compute. reflexivity. Qed.

Lemma pin_table_history_witness :
  Forall cmd_ok sample_cmds /\ owns mem0 ∅ ∅ /\
  wp ('(rs, (_, t)) ← @run_cmds (grant_up_to 4096) sample_cmds (tls0, zero_table);
      t ← ccol_pintable_dispose t;
      mret (rs, t)) mem0
     (fun '(rs, t) m' => (exists s, @spec_run (grant_up_to 4096) sample_cmds ∅ rs s) /\ t = zero_table /\ owns m' ∅ ∅).
Proof.
  assert (Forall cmd_ok sample_cmds) as Hok.
  { repeat constructor; cbn; unfold is_u32, is_u64; lia. }
  split; [exact Hok|]. split; [apply owns_mem0|].
  apply (@pin_table_history (grant_up_to 4096)); [exact Hok|apply owns_mem0].
Defined.

(** ** One slot, its threads and its owner

    The atomic accesses of [ccol_pintable_pin], [ccol_pintable_unpin],
    [ccol_pintable_retire], [ccol_pintable_pins] and
    [ccol_pintable_publish] on one slot, as the steps of a system in which
    they interleave.  A thread pins and unpins on the stripe it was given
    and unpins only what it pinned, as [cpintable.h] asks; the owner frees
    the object once a poll of the pin count answered zero.  Handles are of
    any generation, an address may be published again after it was freed,
    and any number of threads may share a stripe. *)
Module Drain.

(** Where a thread is inside [ccol_pintable_pin], or what it holds. *)
Inductive pin_pc :=
  | PIdle
  | PChecked (want : Z)
  | PAdded (want : Z)
  | PBacking
  | PPinned
  | PHolding (p : Z).

Record thread := Thread { th_stripe : Z; th_pc : pin_pc }.

(** The owner between two of its accesses to the slot. *)
Inductive owner :=
  | OVacant
  | OPublishing (gen p : Z)
  | OLive (gen p : Z)
  | OScanning (p i acc : Z)
  | ODrained (p : Z).

Record config := Config {
  cf_state : Z;
  cf_ptr : Z;
  cf_counts : list Z;
  cf_alive : gset Z;
  cf_owner : owner;
  cf_threads : list thread;
}.

Definition with_thread (i : nat) (th : thread) (c : config) : config :=
  Config (cf_state c) (cf_ptr c) (cf_counts c) (cf_alive c) (cf_owner c) (<[i := th]> (cf_threads c)).
Definition with_owner (o : owner) (c : config) : config :=
  Config (cf_state c) (cf_ptr c) (cf_counts c) (cf_alive c) o (cf_threads c).
Definition with_counts (cs : list Z) (c : config) : config :=
  Config (cf_state c) (cf_ptr c) cs (cf_alive c) (cf_owner c) (cf_threads c).
Definition with_state (s : Z) (c : config) : config :=
  Config s (cf_ptr c) (cf_counts c) (cf_alive c) (cf_owner c) (cf_threads c).

(** [stripes[stripe].count += d] as one atomic access. *)
Definition bump (cs : list Z) (stripe d : Z) : option (list Z) :=
  x ← zget cs stripe; zset cs stripe (atomic_add x d).

Inductive step : config -> config -> Prop :=
  (* ccol_pintable_pin: the first load of the state, for any handle *)
  | step_check c i st gen :
      cf_threads c !! i = Some (Thread st PIdle) ->
      let want := pin_state gen true in
      step c (with_thread i (Thread st (if cf_state c =? want then PChecked want else PIdle)) c)
  (* the increment *)
  | step_add c i st want cs :
      cf_threads c !! i = Some (Thread st (PChecked want)) ->
      bump (cf_counts c) st 1 = Some cs ->
      step c (with_thread i (Thread st (PAdded want)) (with_counts cs c))
  (* the second load of the state *)
  | step_recheck c i st want :
      cf_threads c !! i = Some (Thread st (PAdded want)) ->
      step c (with_thread i (Thread st (if negb (cf_state c =? want) then PBacking else PPinned)) c)
  | step_back c i st cs :
      cf_threads c !! i = Some (Thread st PBacking) ->
      bump (cf_counts c) st (-1) = Some cs ->
      step c (with_thread i (Thread st PIdle) (with_counts cs c))
  | step_load c i st :
      cf_threads c !! i = Some (Thread st PPinned) ->
      step c (with_thread i (Thread st (PHolding (cf_ptr c))) c)
  (* ccol_pintable_unpin *)
  | step_unpin c i st p cs :
      cf_threads c !! i = Some (Thread st (PHolding p)) ->
      bump (cf_counts c) st (-1) = Some cs ->
      step c (with_thread i (Thread st PIdle) (with_counts cs c))
  (* ccol_pintable_publish of a new object: the pointer, then the state *)
  | step_store_ptr c gen p :
      cf_owner c = OVacant -> gen <> 0 -> p ∉ cf_alive c ->
      step c (Config (cf_state c) p (cf_counts c) ({[p]} ∪ cf_alive c) (OPublishing gen p) (cf_threads c))
  | step_go_live c gen p :
      cf_owner c = OPublishing gen p ->
      step c (with_owner (OLive gen p) (with_state (pin_state gen true) c))
  (* ccol_pintable_retire *)
  | step_retire c gen p :
      cf_owner c = OLive gen p ->
      step c (with_owner (OScanning p 0 0) (with_state (Z.ldiff (cf_state c) 1) c))
  (* ccol_pintable_pins: one stripe, and the answer *)
  | step_read c p i acc x :
      cf_owner c = OScanning p i acc -> i < CCOL_PIN_STRIPES -> zget (cf_counts c) i = Some x ->
      step c (with_owner (OScanning p (i + 1) (acc ⊕ wrap x)) c)
  | step_answer c p i acc :
      cf_owner c = OScanning p i acc -> CCOL_PIN_STRIPES <= i ->
      step c (with_owner (if clamp_total acc =? 0 then ODrained p else OScanning p 0 0) c)
  (* the owner frees the object *)
  | step_free c p :
      cf_owner c = ODrained p ->
      step c (Config (cf_state c) (cf_ptr c) (cf_counts c) (cf_alive c ∖ {[p]}) OVacant (cf_threads c)).

(** A slot as its first publish finds it: no counts, every thread idle on
    the stripe it was given. *)
Definition initial (alive : gset Z) (stripes_of : list Z) : config :=
  Config 0 0 (replicate (Z.to_nat CCOL_PIN_STRIPES) 0) alive OVacant ((fun st => Thread st PIdle) <$> stripes_of).

Definition stripes_ok (stripes_of : list Z) : Prop :=
  Forall (fun st => 0 <= st < CCOL_PIN_STRIPES) stripes_of /\ zlen stripes_of < 2 ^ 60.

(** *** Counting threads *)
Definition tally (f : thread -> bool) (ths : list thread) : Z :=
  foldr (fun th n => Z.b2z (f th) + n) 0 ths.

Definition is_charged (pc : pin_pc) : bool :=
  match pc with PAdded _ | PBacking | PPinned | PHolding _ => true | _ => false end.
Definition is_pinned (pc : pin_pc) : bool :=
  match pc with PPinned | PHolding _ => true | _ => false end.

(** The threads a stripe counts, and those that hold the object. *)
Definition charged (st : Z) (th : thread) : bool := (th_stripe th =? st) && is_charged (th_pc th).
Definition pinned_below (i : Z) (th : thread) : bool := (th_stripe th <? i) && is_pinned (th_pc th).

Lemma tally_cons f th ths : tally f (th :: ths) = Z.b2z (f th) + tally f ths.
Proof. done. Qed.
#[global] Arguments tally : simpl never.

Lemma tally_insert f ths i th th' :
  ths !! i = Some th -> tally f (<[i := th']> ths) = tally f ths - Z.b2z (f th) + Z.b2z (f th').
Proof.
  revert i. induction ths as [|x ths IH]; intros [|i] Hi; [done..| |].
  - injection Hi as ->. change (<[0%nat := th']> (th :: ths)) with (th' :: ths). rewrite !tally_cons. lia.
  - change (<[S i := th']> (x :: ths)) with (x :: <[i := th']> ths).
    rewrite !tally_cons, (IH i Hi). lia.
Qed.
Lemma tally_bounds f ths : 0 <= tally f ths <= zlen ths.
Proof.
  induction ths as [|x ths IH]; [done|]. rewrite zlen_cons, tally_cons. destruct (f x); cbn; lia.
Qed.
Lemma tally_zero f ths i th : tally f ths <= 0 -> ths !! i = Some th -> f th = false.
Proof.
  intros Ht Hi. destruct (f th) eqn:E; [exfalso|done]. revert i Hi.
  induction ths as [|x ths IH]; intros [|i] Hi; cbn in *; simplify_eq; rewrite tally_cons in Ht;
    pose proof (tally_bounds f ths).
  - rewrite E in Ht. cbn in Ht. lia.
  - apply (IH ltac:(destruct (f x); cbn in Ht; lia) i Hi).
Qed.
Lemma tally_none f ths : (forall th, th ∈ ths -> f th = false) -> tally f ths = 0.
Proof.
  induction ths as [|x ths IH]; intros Hf; [done|].
  rewrite tally_cons, Hf by (by left). rewrite IH; [done|]. intros. apply Hf. by right.
Qed.
Lemma tally_add f g h ths :
  (forall th, th ∈ ths -> Z.b2z (h th) <= Z.b2z (f th) + Z.b2z (g th)) ->
  tally h ths <= tally f ths + tally g ths.
Proof.
  induction ths as [|x ths IH]; intros H; [done|]. rewrite !tally_cons.
  specialize (H x ltac:(by left)) as Hx. specialize (IH ltac:(intros; apply H; by right)). lia.
Qed.

(** *** The invariant *)
Definition retired (w : Z) : Prop := exists gen, w = pin_state gen false.
Definition wanted (pc : pin_pc) : Prop :=
  match pc with PChecked want | PAdded want => exists gen, want = pin_state gen true | _ => True end.

(** What the owner knows: before the drain nobody holds anything; while it
    sums, the sum so far covers the holders on the stripes already read. *)
Definition owner_inv (c : config) : Prop :=
  let ths := cf_threads c in
  match cf_owner c with
  | OVacant => retired (cf_state c) /\ tally (pinned_below CCOL_PIN_STRIPES) ths <= 0
  | OPublishing gen p =>
      retired (cf_state c) /\ tally (pinned_below CCOL_PIN_STRIPES) ths <= 0 /\
      cf_ptr c = p /\ p ∈ cf_alive c
  | OLive gen p => cf_state c = pin_state gen true /\ cf_ptr c = p /\ p ∈ cf_alive c
  | OScanning p i acc =>
      retired (cf_state c) /\ cf_ptr c = p /\ p ∈ cf_alive c /\
      0 <= i <= CCOL_PIN_STRIPES /\ 0 <= acc <= i * zlen ths /\
      tally (pinned_below i) ths <= acc
  | ODrained p =>
      retired (cf_state c) /\ cf_ptr c = p /\ p ∈ cf_alive c /\
      tally (pinned_below CCOL_PIN_STRIPES) ths <= 0
  end.

Record inv (c : config) : Prop := Inv {
  inv_few : zlen (cf_threads c) < 2 ^ 60;
  inv_threads : forall i th, cf_threads c !! i = Some th ->
    0 <= th_stripe th < CCOL_PIN_STRIPES /\ wanted (th_pc th) /\
    (forall p, th_pc th = PHolding p -> p = cf_ptr c);
  inv_len : zlen (cf_counts c) = CCOL_PIN_STRIPES;
  inv_counts : forall st, 0 <= st < CCOL_PIN_STRIPES ->
    zget (cf_counts c) st = Some (tally (charged st) (cf_threads c));
  inv_owner : owner_inv c;
}.

(** A pinned thread is one the drained states exclude. *)
Lemma no_pinned c i th :
  inv c -> tally (pinned_below CCOL_PIN_STRIPES) (cf_threads c) <= 0 ->
  cf_threads c !! i = Some th -> is_pinned (th_pc th) = false.
Proof.
  intros Hinv Ht Hi. pose proof (tally_zero _ _ _ _ Ht Hi) as Hf. unfold pinned_below in Hf.
  destruct (inv_threads c Hinv i th Hi) as [Hst _].
  destruct (Z.ltb_spec (th_stripe th) CCOL_PIN_STRIPES); [done|lia].
Qed.

Lemma to_signed_small x : 0 <= x < 2 ^ 63 -> to_signed 64 x = x.
Proof.
  intros. unfold to_signed. change (2 ^ (64 - 1)) with (2 ^ 63).
  destruct (Z.ltb_spec x (2 ^ 63)); [done|lia].
Qed.

Lemma atomic_add_small x d : 0 <= x + d < 2 ^ 63 -> atomic_add x d = x + d.
Proof.
  intros. unfold atomic_add. rewrite wrap_small by (unfold two64; lia). by apply to_signed_small.
Qed.

Lemma bump_counts c st d cs :
  inv c -> 0 <= st < CCOL_PIN_STRIPES -> bump (cf_counts c) st d = Some cs ->
  0 <= tally (charged st) (cf_threads c) + d < 2 ^ 63 ->
  zlen cs = CCOL_PIN_STRIPES /\
  forall s, 0 <= s < CCOL_PIN_STRIPES ->
    zget cs s = Some (tally (charged s) (cf_threads c) + (if s =? st then d else 0)).
Proof.
  intros Hinv Hst Hb Hr. unfold bump in Hb. rewrite (inv_counts c Hinv st Hst) in Hb. cbn in Hb.
  rewrite (atomic_add_small _ _ Hr) in Hb. destruct (zset_spec _ _ _ _ Hb) as (_ & Hl & Hg).
  split; [by rewrite Hl, inv_len|]. intros s Hs. rewrite Hg. case_decide as E.
  - subst. by rewrite Z.eqb_refl.
  - rewrite (inv_counts c Hinv s Hs), (proj2 (Z.eqb_neq s st) E). f_equal. lia.
Qed.

(** A thread moves, with the counter of its stripe. *)
Lemma inv_thread_step c i st pc pc' cs :
  inv c -> cf_threads c !! i = Some (Thread st pc) ->
  wanted pc' -> (forall p, pc' = PHolding p -> p = cf_ptr c) ->
  (is_pinned pc' = true -> is_pinned pc = true \/ exists gen p, cf_owner c = OLive gen p) ->
  (cs = cf_counts c /\ is_charged pc' = is_charged pc \/
   bump (cf_counts c) st (Z.b2z (is_charged pc') - Z.b2z (is_charged pc)) = Some cs) ->
  inv (with_thread i (Thread st pc') (with_counts cs c)).
Proof.
  intros Hinv Hi Hw Hp Hpin Hcs. destruct (inv_threads c Hinv i _ Hi) as (Hst & _ & _). cbn in Hst.
  pose proof (lookup_lt_Some _ _ _ Hi) as Hlt.
  assert (zlen (<[i := Thread st pc']> (cf_threads c)) = zlen (cf_threads c)) as Hlen
    by (unfold zlen; by rewrite length_insert).
  assert (zlen cs = CCOL_PIN_STRIPES /\ forall s, 0 <= s < CCOL_PIN_STRIPES -> zget cs s =
    Some (tally (charged s) (<[i := Thread st pc']> (cf_threads c)))) as [Hcl Hcg].
  { assert (forall s, tally (charged s) (<[i := Thread st pc']> (cf_threads c)) =
      tally (charged s) (cf_threads c) + (if s =? st then Z.b2z (is_charged pc') - Z.b2z (is_charged pc) else 0)) as Ht.
    { intros s. rewrite (tally_insert _ _ _ _ _ Hi). unfold charged. cbn [th_stripe th_pc].
      rewrite (Z.eqb_sym st). destruct (s =? st); cbn [andb]; lia. }
    destruct Hcs as [[-> E]|Hb].
    - split; [by apply inv_len|]. intros s Hs. rewrite Ht, (inv_counts c Hinv s Hs). f_equal.
      rewrite E. case_match; lia.
    - destruct (bump_counts c st _ cs Hinv Hst Hb) as [H1 H2].
      { pose proof (inv_few c Hinv). specialize (Ht st). rewrite Z.eqb_refl in Ht. rewrite <- Ht.
        pose proof (tally_bounds (charged st) (<[i := Thread st pc']> (cf_threads c))). lia. }
      split; [done|]. intros s Hs. by rewrite Ht, H2. }
  split; cbn.
  - rewrite Hlen. apply Hinv.
  - intros j th. rewrite list_lookup_insert. case_decide; [intros [= <-]; cbn; by auto|].
    by apply Hinv.
  - done.
  - done.
  - assert ((exists gen p, cf_owner c = OLive gen p) \/ forall k,
      tally (pinned_below k) (<[i := Thread st pc']> (cf_threads c)) <= tally (pinned_below k) (cf_threads c)) as Htal.
    { destruct (is_pinned pc') eqn:E'; [destruct (Hpin eq_refl) as [E|?]; [|by left]|]; right; intros k;
        rewrite (tally_insert _ _ _ _ _ Hi); unfold pinned_below; cbn [th_stripe th_pc]; rewrite ?E, E';
        destruct (st <? k), (is_pinned pc); cbn; lia. }
    pose proof (inv_owner c Hinv) as Ho. unfold owner_inv in *. cbn.
    destruct Htal as [(gen & p & E)|Htal]; [by rewrite E in *|]. rewrite Hlen.
    destruct (cf_owner c) as [|gen p|gen p|p k acc|p]; destruct_and?; split_and?; try done;
      (etrans; [apply Htal|done]).
Qed.

(** The owner moves, and with it the state word. *)
Lemma inv_owner_step c o w :
  inv c -> owner_inv (with_owner o (with_state w c)) -> inv (with_owner o (with_state w c)).
Proof. intros [] Ho. split; done. Qed.

Lemma retired_not_wanted w pc want : retired w -> wanted (PAdded want) -> pc = PAdded want -> (w =? want) = false.
Proof. intros [gen ->] [gen' ->] _. by rewrite pin_state_want. Qed.

Lemma scan_covers c i acc x :
  inv c -> 0 <= i < CCOL_PIN_STRIPES -> zget (cf_counts c) i = Some x ->
  tally (pinned_below i) (cf_threads c) <= acc ->
  0 <= x <= zlen (cf_threads c) /\ tally (pinned_below (i + 1)) (cf_threads c) <= acc + x.
Proof.
  intros Hinv Hi Hx Hacc. rewrite (inv_counts c Hinv i Hi) in Hx. injection Hx as <-.
  split; [apply tally_bounds|]. etrans; [apply (tally_add (pinned_below i) (charged i))|lia].
  intros th _. unfold pinned_below, charged.
  assert (is_pinned (th_pc th) = true -> is_charged (th_pc th) = true) by by destruct (th_pc th).
  destruct (Z.ltb_spec (th_stripe th) (i + 1)), (Z.ltb_spec (th_stripe th) i), (Z.eqb_spec (th_stripe th) i);
    try lia; destruct (is_pinned (th_pc th)), (is_charged (th_pc th)); cbn; naive_solver lia.
Qed.

Lemma inv_step c c' : inv c -> step c c' -> inv c'.
Proof.
  intros Hinv Hs. pose proof (inv_owner c Hinv) as Ho. pose proof (inv_few c Hinv) as Hfew.
  destruct Hs as [c i st gen Hi want|c i st want cs Hi Hb|c i st want Hi|c i st cs Hi Hb|c i st Hi
    |c i st p cs Hi Hb|c gen p E Hg Hp|c gen p E|c gen p E|c p i acc x E Hi Hx|c p i acc E Hi|c p E];
    unfold owner_inv in Ho; try rewrite E in Ho.
  - apply (inv_thread_step c i st PIdle); [done|done| | | |left].
    + destruct (_ =? _); [by exists gen|done].
    + intros p. by destruct (_ =? _).
    + by destruct (_ =? _).
    + split; [done|by destruct (_ =? _)].
  - destruct (inv_threads c Hinv i _ Hi) as (_ & Hw & _).
    apply (inv_thread_step c i st (PChecked want)); [done..|by right].
  - destruct (inv_threads c Hinv i _ Hi) as (_ & Hw & _). cbn in Hw.
    apply (inv_thread_step c i st (PAdded want)); [done|done|by destruct (_ =? _)|intros p; by destruct (_ =? _)| |].
    + destruct (Z.eqb_spec (cf_state c) want) as [Ew|]; cbn; [intros _; right|done].
      assert (~ retired (cf_state c)) as Hnr.
      { intros Hr. pose proof (retired_not_wanted _ _ _ Hr Hw eq_refl). by rewrite Ew, Z.eqb_refl in *. }
      destruct (cf_owner c) as [|gen p|gen p|p k acc|p]; cbn in Ho; destruct_and?; try done. by exists gen, p.
    + left. split; [done|by destruct (_ =? _)].
  - apply (inv_thread_step c i st PBacking); [done..|by right].
  - apply (inv_thread_step c i st PPinned); [done|done|done| |by left|by left].
    by intros p [= ->].
  - apply (inv_thread_step c i st (PHolding p)); [done..|by right].
  - destruct Ho as [Hr Ht]. split; cbn; try apply Hinv.
    + intros j th Hj. destruct (inv_threads c Hinv j th Hj) as (? & ? & _).
      split; [done|]. split; [done|]. intros p' Hh. pose proof (no_pinned c j th Hinv Ht Hj) as Hn. by rewrite Hh in Hn.
    + split_and!; [done..|set_solver].
  - destruct Ho as (Hr & Ht & Hptr & Hal). by apply inv_owner_step.
  - destruct Ho as (Hst & Hptr & Hal). apply inv_owner_step; [done|]. cbn.
    split_and!; try done.
    + exists gen. by rewrite Hst, pin_state_retired.
    + etrans; [|apply Z.le_refl]. rewrite tally_none; [done|]. intros th Hth.
      apply list_elem_of_lookup in Hth as [j Hj]. destruct (inv_threads c Hinv j th Hj) as [? _].
      unfold pinned_below. destruct (Z.ltb_spec (th_stripe th) 0); [lia|done].
  - destruct Ho as (Hr & Hptr & Hal & Hi' & Hacc & Ht).
    destruct (scan_covers c i acc x Hinv ltac:(lia) Hx Ht) as [Hx' Ht'].
    apply (inv_owner_step c _ (cf_state c)); [done|]. cbn.
    assert (acc ⊕ wrap x = acc + x) as ->.
    { unfold CCOL_PIN_STRIPES in *. rewrite wrap_wrap_add, wrap_small; [done|]. unfold two64. nia. }
    split_and!; try done; lia.
  - destruct Ho as (Hr & Hptr & Hal & Hi' & Hacc & Ht).
    apply (inv_owner_step c _ (cf_state c)); [done|].
    assert (i = CCOL_PIN_STRIPES) as -> by lia.
    unfold clamp_total. rewrite to_signed_small by (unfold CCOL_PIN_STRIPES in *; nia).
    assert ((if 0 <? acc then acc else 0) = acc) as -> by (case_match; zbool; lia).
    destruct (Z.eqb_spec acc 0) as [->|Hne]; unfold owner_inv; cbn; [done|].
    split_and!; try done. rewrite tally_none; [done|]. intros th Hth.
    apply list_elem_of_lookup in Hth as [j Hj]. destruct (inv_threads c Hinv j th Hj) as [? _].
    unfold pinned_below. destruct (Z.ltb_spec (th_stripe th) 0); [lia|done].
  - destruct Ho as (Hr & Hptr & Hal & Ht). split; cbn; try apply Hinv. done.
Qed.

Lemma inv_initial alive stripes_of : stripes_ok stripes_of -> inv (initial alive stripes_of).
Proof.
  intros [Hst Hfew].
  assert (forall th, th ∈ cf_threads (initial alive stripes_of) ->
    0 <= th_stripe th < CCOL_PIN_STRIPES /\ th_pc th = PIdle) as Hth.
  { intros th Hin. cbn in Hin. apply list_elem_of_fmap in Hin as (st & -> & Hin).
    rewrite Forall_forall in Hst. split; [by apply Hst|done]. }
  split.
  - cbn. by rewrite zlen_fmap.
  - intros i th Hi. apply list_elem_of_lookup_2, Hth in Hi as [Hs Hpc]. by rewrite Hpc.
  - cbn [cf_counts initial]. by apply zlen_replicate.
  - intros st Hs. rewrite tally_none.
    + cbn [cf_counts initial]. unfold zget. destruct (Z.leb_spec 0 st); [|lia].
      apply lookup_replicate_2. lia.
    + intros th Hin. apply Hth in Hin as [_ Hpc]. unfold charged. rewrite Hpc. apply andb_false_r.
  - split; [exists 0; done|]. rewrite tally_none; [done|]. intros th Hin.
    apply Hth in Hin as [_ Hpc]. unfold pinned_below. rewrite Hpc. apply andb_false_r.
Qed.

Lemma inv_steps c c' : inv c -> rtc step c c' -> inv c'.
Proof. intros Hinv Hs. induction Hs as [|c c1 c' H1 Hs IH]; [done|]. apply IH. by eapply inv_step. Qed.

(** The object the owner has published and not freed. *)
Definition owned_object (o : owner) : option Z :=
  match o with OVacant => None | OPublishing _ p | OLive _ p | OScanning p _ _ | ODrained p => Some p end.

(** C14: however the accesses of the threads and of the owner interleave, a
    thread that holds a pointer holds the object the owner published last,
    that object is alive, and the owner has not finished draining it; so no
    step frees an object while a thread holds it. *)
Theorem pinned_object_alive alive stripes_of c i th p :
  stripes_ok stripes_of -> rtc step (initial alive stripes_of) c ->
  cf_threads c !! i = Some th -> th_pc th = PHolding p ->
  p ∈ cf_alive c /\ owned_object (cf_owner c) = Some p /\ cf_owner c <> ODrained p /\
  forall c', step c c' -> p ∈ cf_alive c'.
Proof.
  intros Hok Hrun Hi Hpc. pose proof (inv_steps _ _ (inv_initial alive _ Hok) Hrun) as Hinv.
  destruct (inv_threads c Hinv i th Hi) as (_ & _ & Hptr). specialize (Hptr p Hpc).
  pose proof (inv_owner c Hinv) as Ho. unfold owner_inv in Ho.
  assert (~ tally (pinned_below CCOL_PIN_STRIPES) (cf_threads c) <= 0) as Hn.
  { intros Ht. pose proof (no_pinned c i th Hinv Ht Hi) as Hf. by rewrite Hpc in Hf. }
  assert (p ∈ cf_alive c /\ owned_object (cf_owner c) = Some p /\ cf_owner c <> ODrained p) as (Ha & Hob & Hnd).
  { destruct (cf_owner c) eqn:E; cbn in *; destruct_and?; try done; split_and?; try done; congruence. }
  split_and!; try done. intros c' Hs. destruct Hs; cbn; try done; [set_solver|].
  destruct (decide (p = p0)); [congruence|set_solver].
Qed.

(** *** A destroy can always finish *)
Lemma bump_is_some c st d :
  inv c -> 0 <= st < CCOL_PIN_STRIPES -> is_Some (bump (cf_counts c) st d).
Proof.
  intros Hinv Hst. unfold bump. rewrite (inv_counts c Hinv st Hst). cbn.
  apply zset_is_Some. by rewrite (inv_len c Hinv).
Qed.

(** The configuration with thread [i] back at rest. *)
Definition rested (i : nat) (c c' : config) : Prop :=
  rtc step c c' /\ cf_owner c' = cf_owner c /\ cf_alive c' = cf_alive c /\
  exists st, cf_threads c' = <[i := Thread st PIdle]> (cf_threads c).

Lemma thread_can_finish c i th : inv c -> cf_threads c !! i = Some th -> exists c', rested i c c'.
Proof.
  intros Hinv Hi. pose proof (lookup_lt_Some _ _ _ Hi) as Hlt. destruct th as [st pc].
  assert (forall c, inv c -> forall p, cf_threads c !! i = Some (Thread st (PHolding p)) -> exists c', rested i c c') as Hhold.
  { clear. intros c Hinv p Hi. destruct (inv_threads c Hinv i _ Hi) as (Hst & _).
    destruct (bump_is_some c st (-1) Hinv Hst) as [cs Hb].
    eexists. split; [apply rtc_once; by eapply step_unpin|]. split_and!; try done. by exists st. }
  assert (forall c, inv c -> cf_threads c !! i = Some (Thread st PBacking) -> exists c', rested i c c') as Hback.
  { clear. intros c Hinv Hi. destruct (inv_threads c Hinv i _ Hi) as (Hst & _).
    destruct (bump_is_some c st (-1) Hinv Hst) as [cs Hb].
    eexists. split; [apply rtc_once; by eapply step_back|]. split_and!; try done. by exists st. }
  assert (forall c c1 pc1, inv c -> step c c1 -> (i < length (cf_threads c))%nat ->
    cf_owner c1 = cf_owner c -> cf_alive c1 = cf_alive c ->
    cf_threads c1 = <[i := Thread st pc1]> (cf_threads c) ->
    (inv c1 -> cf_threads c1 !! i = Some (Thread st pc1) -> exists c', rested i c1 c') ->
    exists c', rested i c c') as Hmore.
  { clear. intros c c1 pc1 Hinv Hs Hl Ho Ha Ht Hk. destruct Hk as (c' & Hr & Ho' & Ha' & st' & Ht').
    - by eapply inv_step.
    - rewrite Ht. by apply list_lookup_insert_eq.
    - exists c'. split; [by eapply rtc_l|]. split_and!; try congruence. exists st'.
      by rewrite Ht', Ht, list_insert_insert_eq. }
  assert (forall c, inv c -> (i < length (cf_threads c))%nat -> cf_threads c !! i = Some (Thread st PPinned) -> exists c', rested i c c') as Hload.
  { intros c0 Hinv0 Hl Hi0. eapply Hmore; [done|by eapply step_load|done..|]. intros. by eapply Hhold. }
  assert (forall c want, inv c -> (i < length (cf_threads c))%nat -> cf_threads c !! i = Some (Thread st (PAdded want)) -> exists c', rested i c c') as Hadded.
  { intros c0 want Hinv0 Hl Hi0. eapply Hmore; [done|by eapply step_recheck|done..|].
    destruct (negb _); intros Hinv1 Hi1; [by eapply Hback|eapply Hload; [done| |done]].
    cbn. by rewrite length_insert. }
  destruct pc as [|want|want| | |p]; [|..|by eapply Hhold].
  - exists c. split; [done|]. split_and!; try done. exists st. by rewrite list_insert_id.
  - destruct (inv_threads c Hinv i _ Hi) as (Hst & _). destruct (bump_is_some c st 1 Hinv Hst) as [cs Hb].
    eapply Hmore; [done|by eapply step_add|done..|]. intros Hinv1 Hi1. eapply Hadded; [done| |done].
    cbn. by rewrite length_insert.
  - by eapply Hadded.
  - by eapply Hback.
  - by eapply Hload.
Qed.

Lemma threads_can_finish c n : inv c -> (n <= length (cf_threads c))%nat ->
  exists c', rtc step c c' /\ cf_owner c' = cf_owner c /\ cf_alive c' = cf_alive c /\
    length (cf_threads c') = length (cf_threads c) /\
    forall i th, (i < n)%nat -> cf_threads c' !! i = Some th -> th_pc th = PIdle.
Proof.
  intros Hinv. induction n as [|n IH]; intros Hn.
  { exists c. split_and!; try done. intros. lia. }
  destruct IH as (c1 & Hr1 & Ho1 & Ha1 & Hl1 & Hi1); [lia|].
  pose proof (inv_steps _ _ Hinv Hr1) as Hinv1.
  destruct (lookup_lt_is_Some_2 (cf_threads c1) n ltac:(lia)) as [th Hth].
  destruct (thread_can_finish c1 n th Hinv1 Hth) as (c2 & Hr2 & Ho2 & Ha2 & st & Ht2).
  exists c2. split_and!; try congruence.
  - by etrans.
  - by rewrite Ht2, length_insert.
  - intros i th' Hlt. rewrite Ht2, list_lookup_insert. case_decide; [by intros [= <-]|].
    intros Hi. eapply Hi1; [|done]. lia.
Qed.

(** The owner sums on, from the stripes it has read, [pre], to the last. *)
Lemma scan_run cs pre c p acc :
  zlen (cf_counts c) = CCOL_PIN_STRIPES -> cf_counts c = pre ++ cs ->
  cf_owner c = OScanning p (zlen pre) acc -> acc = wrap acc ->
  rtc step c (with_owner (OScanning p CCOL_PIN_STRIPES (acc ⊕ wrap (total cs))) c).
Proof.
  revert pre c acc. induction cs as [|x cs IH]; intros pre c acc Hl Hcs Ho Hacc.
  { rewrite wrap_wrap_add, Z.add_0_r, <- Hacc. rewrite Hcs, app_nil_r in Hl. rewrite <- Hl, <- Ho.
    by destruct c. }
  assert (zlen pre < CCOL_PIN_STRIPES) as Hlt by (rewrite <- Hl, Hcs; zlia).
  eapply rtc_l.
  - eapply step_read; [done|done|]. rewrite Hcs. by apply zget_app_mid.
  - replace (zlen pre + 1) with (zlen (pre ++ [x])) by zlia.
    assert (acc ⊕ wrap (total (x :: cs)) = acc ⊕ wrap x ⊕ wrap (total cs)) as ->.
    { rewrite !wrap_wrap_add, wrap_add_wrap. cbn. f_equal. fold (total cs). lia. }
    apply (IH (pre ++ [x]) (with_owner (OScanning p (zlen (pre ++ [x])) (acc ⊕ wrap x)) c)); try done.
    + by rewrite <- app_assoc.
    + symmetry. apply wrap_small, wrap_range.
Qed.

Lemma total_all_zero cs : (forall x, x ∈ cs -> x = 0) -> total cs = 0.
Proof.
  induction cs as [|x cs IH]; intros H0; [done|]. cbn. fold (total cs).
  rewrite (H0 x), IH; [done| |]; [intros; apply H0; by right|by left].
Qed.

Definition freed (p : Z) (c : config) : config :=
  Config (cf_state c) (cf_ptr c) (cf_counts c) (cf_alive c ∖ {[p]}) OVacant (cf_threads c).

Lemma idle_counts c : inv c ->
  (forall i th, cf_threads c !! i = Some th -> th_pc th = PIdle) ->
  forall x, x ∈ cf_counts c -> x = 0.
Proof.
  intros Hinv Hidle x (k & Hk)%list_elem_of_lookup.
  pose proof (lookup_lt_Some _ _ _ Hk) as Hlt. pose proof (inv_len c Hinv) as Hl. unfold zlen in Hl.
  pose proof (inv_counts c Hinv (Z.of_nat k) ltac:(lia)) as Hc. unfold zget in Hc.
  destruct (Z.leb_spec 0 (Z.of_nat k)); [|lia]. rewrite Nat2Z.id, Hk in Hc. injection Hc as ->.
  apply tally_none. intros th (i & Hi)%list_elem_of_lookup. unfold charged.
  rewrite (Hidle i th Hi). apply andb_false_r.
Qed.

(** One poll that begins when every thread is at rest frees the object. *)
Lemma quiet_poll_frees c p : inv c -> cf_owner c = OScanning p 0 0 ->
  (forall x, x ∈ cf_counts c -> x = 0) ->
  exists c', rtc step c c' /\ cf_owner c' = OVacant /\ cf_alive c' = cf_alive c ∖ {[p]}.
Proof.
  intros Hinv Ho H0. exists (freed p c). split; [|done].
  etrans; [by apply (scan_run (cf_counts c) [] c p 0 (inv_len c Hinv))|].
  rewrite (total_all_zero _ H0). eapply rtc_l; [by eapply step_answer|].
  apply rtc_once. by apply (step_free (with_owner (ODrained p) c)).
Qed.

(** C32: a destroy can always finish: from every reachable configuration in
    which the owner has retired the slot and polls, there is a run in which
    every thread leaves, a poll answers zero and the object is freed. *)
Theorem drain_can_finish alive stripes_of c p i acc :
  stripes_ok stripes_of -> rtc step (initial alive stripes_of) c ->
  cf_owner c = OScanning p i acc ->
  exists c', rtc step c c' /\ cf_owner c' = OVacant /\ p ∉ cf_alive c'.
Proof.
  intros Hok Hrun Ho. pose proof (inv_steps _ _ (inv_initial alive _ Hok) Hrun) as Hinv.
  destruct (threads_can_finish c (length (cf_threads c)) Hinv ltac:(lia)) as (c1 & Hr1 & Ho1 & Ha1 & Hl1 & Hi1).
  pose proof (inv_steps _ _ Hinv Hr1) as Hinv1. rewrite Ho in Ho1.
  assert (forall x, x ∈ cf_counts c1 -> x = 0) as H0.
  { apply idle_counts; [done|]. intros j th Hj. eapply Hi1; [|done].
    apply lookup_lt_Some in Hj. lia. }
  pose proof (inv_owner c1 Hinv1) as Hoi. unfold owner_inv in Hoi. rewrite Ho1 in Hoi.
  destruct Hoi as (_ & _ & _ & Hi & Hacc & _).
  assert (acc = wrap acc) as Hw.
  { pose proof (inv_few c1 Hinv1). pose proof (zlen_nonneg (cf_threads c1)).
    symmetry. apply wrap_small. unfold CCOL_PIN_STRIPES, two64 in *. nia. }
  assert (i = zlen (ztake i (cf_counts c1))) as Hiz by (rewrite zlen_ztake, inv_len; (done || lia)).
  pose proof (scan_run (zdrop i (cf_counts c1)) (ztake i (cf_counts c1)) c1 p acc
    (inv_len _ Hinv1) (eq_sym (ztake_zdrop i _))
    (eq_trans Ho1 (f_equal (fun k => OScanning p k acc) Hiz)) Hw) as Hr2. set (acc' := acc ⊕ wrap (total (zdrop i (cf_counts c1)))) in *.
  clearbody acc'. pose proof (inv_steps _ _ Hinv1 Hr2) as Hinv2.
  assert (step (with_owner (OScanning p CCOL_PIN_STRIPES acc') c1)
    (with_owner (if clamp_total acc' =? 0 then ODrained p else OScanning p 0 0) c1)) as Hs
    by (by eapply (step_answer (with_owner (OScanning p CCOL_PIN_STRIPES acc') c1))).
  pose proof (inv_step _ _ Hinv2 Hs) as Hinv3.
  assert (rtc step c (with_owner (if clamp_total acc' =? 0 then ODrained p else OScanning p 0 0) c1)) as Hr3.
  { etrans; [exact Hr1|]. etrans; [exact Hr2|]. by apply rtc_once. }
  destruct (clamp_total acc' =? 0).
  - exists (freed p c1). split; [|split; [done|set_solver +]].
    etrans; [exact Hr3|]. apply rtc_once. by apply (step_free (with_owner (ODrained p) c1)).
  - destruct (quiet_poll_frees _ p Hinv3 eq_refl H0) as (c4 & Hr4 & Ho4 & Ha4).
    exists c4. split; [by etrans|split; [done|rewrite Ha4; set_solver +]].
Qed.

(** *** The operations of the table are runs of these steps *)
Definition is_slot (t : ccol_pintable) (idx : Z) (id : nat) (c : config) : Prop :=
  slot_at t idx = Some (PinSlot (cf_state c) (cf_ptr c) (Some (PinStripes id (cf_counts c)))).

Lemma wp_add_bump t idx id c stripe d m (Q : ccol_pintable -> mem -> Prop) :
  table_wf t -> is_slot t idx id c ->
  is_Some (bump (cf_counts c) stripe d) ->
  (forall t' cs, table_wf t' -> bump (cf_counts c) stripe d = Some cs ->
    is_slot t' idx id (with_counts cs c) -> Q t' m) ->
  wp (add_count t (slot_index idx) stripe d) m Q.
Proof.
  intros Hwf Hat [cs Hb] HQ. unfold add_count. apply wp_bind. eapply wp_load_slot; [done|].
  cbn [stripes]. apply wp_bind, wp_ret. pose proof Hb as Hb'. unfold bump in Hb.
  apply bind_Some in Hb as (x & Hx & Hcs). cbn [counts]. rewrite Hx. apply wp_bind, wp_ret.
  rewrite Hcs. apply wp_bind, wp_ret. eapply wp_store_slot; [done|done|]. intros t' Hput _.
  eapply HQ; [apply Hput|done|]. by apply put_in_at in Hput.
Qed.

(** Run alone on a slot that was published before, [ccol_pintable_pin]
    is a run of the steps of its thread, with the pointer it returns as the
    one the thread then holds, or with the thread at rest when it returns
    NULL because the handle does not match; and the answer of
    [ccol_pintable_pins] is the sum the polling steps of the owner arrive
    at. *)
Theorem pin_is_run t idx id c self g stripe g' h i m :
  table_wf t -> is_u64 h -> h <> 0 -> handle_idx h = idx -> is_slot t idx id c -> inv c ->
  pin_stripe_self self g = (stripe, g') -> cf_threads c !! i = Some (Thread stripe PIdle) ->
  wp (ccol_pintable_pin self g t h) m (fun '(p, _, t') m' => m' = m /\ exists c',
    rtc step c c' /\ is_slot t' idx id c' /\ cf_owner c' = cf_owner c /\
    cf_threads c' = <[i := Thread stripe (if cf_state c =? pin_state (handle_gen h) true
                                          then PHolding p else PIdle)]> (cf_threads c)) /\
  wp (ccol_pintable_pins t idx) m (fun n m' => m' = m /\ forall p, cf_owner c = OScanning p 0 0 ->
    exists c' acc, rtc step c c' /\ cf_owner c' = OScanning p CCOL_PIN_STRIPES acc /\
      clamp_total acc = n).
Proof.
  intros Hwf Hh Hh0 Hidx Hat Hinv Hg Hi. pose proof (lookup_lt_Some _ _ _ Hi) as Hlt.
  assert (0 <= idx) as Hidx0 by (rewrite <- Hidx; by apply handle_idx_nonneg).
  destruct (inv_threads c Hinv i _ Hi) as (Hst & _). cbn in Hst. split.
  - unfold ccol_pintable_pin. rewrite (proj2 (Z.eqb_neq h 0) Hh0), Hidx.
    apply wp_bind, wp_pin_slot_lookup; [done|done|by rewrite Hat|]. intros _ _.
    apply wp_bind. eapply wp_load_slot; [done|]. cbn [state stripes].
    destruct (cf_state c =? pin_state (handle_gen h) true) eqn:E; cbn [negb].
    + rewrite Hg. apply wp_bind. eapply wp_add_bump; [done|done|by apply bump_is_some|].
      intros t' cs Hwf' Hb Hat'. apply wp_bind. eapply wp_load_slot; [done|]. cbn [state with_counts cf_state].
      rewrite E. cbn [negb]. apply wp_ret. split; [done|].
      exists (with_thread i (Thread stripe (PHolding (cf_ptr c))) (with_counts cs c)).
      split_and!; try done.
      eapply rtc_l; [by eapply (step_check c i stripe (handle_gen h))|]. rewrite E.
      eapply rtc_l; [eapply step_add; [by apply list_lookup_insert_eq|done]|].
      eapply rtc_l; [eapply step_recheck; cbn; rewrite list_insert_insert_eq; by apply list_lookup_insert_eq|].
      cbn [cf_state with_thread with_counts]. rewrite E. cbn [negb].
      eapply rtc_l; [eapply step_load; cbn; rewrite !list_insert_insert_eq; by apply list_lookup_insert_eq|].
      unfold with_thread, with_counts. cbn. by rewrite !list_insert_insert_eq.
    + apply wp_ret. split; [done|]. exists c. split_and!; try done. by rewrite list_insert_id.
  - unfold ccol_pintable_pins. apply wp_bind, wp_pin_slot_lookup; [done|done|by rewrite Hat|].
    intros _ _. apply wp_bind. eapply wp_load_slot; [done|]. cbn [stripes counts].
    assert (Z.to_nat CCOL_PIN_STRIPES = length (cf_counts c)) as ->.
    { pose proof (inv_len c Hinv) as Hl. unfold zlen in Hl. lia. }
    apply wp_bind, (wp_accumulate (cf_counts c) []); [|done]. apply wp_ret. split; [done|].
    intros p Ho. eexists _, _. split; [by apply (scan_run (cf_counts c) [] c p 0 (inv_len c Hinv))|].
    split; [done|]. reflexivity.
Qed.

(** *** Concrete runs *)
(** Two threads of stripe 0; the object at 4096 is published. *)
Definition published : config :=
  Config 3 4096 (replicate 8 0) {[4096]} (OLive 1 4096) [Thread 0 PIdle; Thread 0 PIdle].

(** The first thread holds it. *)
Definition held : config :=
  Config 3 4096 (1 :: replicate 7 0) {[4096]} (OLive 1 4096) [Thread 0 (PHolding 4096); Thread 0 PIdle].

(** The owner begins to poll while the first thread still holds it. *)
Definition polled : config :=
  Config 2 4096 (1 :: replicate 7 0) {[4096]} (OScanning 4096 0 0)
    [Thread 0 (PHolding 4096); Thread 0 PIdle].

Lemma two_ok : stripes_ok [0; 0].
Proof. split; [|done]. repeat constructor; vm_compute; congruence. Qed.

Lemma published_run : rtc step (initial ∅ [0; 0]) published.
Proof.
  eapply rtc_l; [apply (step_store_ptr _ 1 4096); [done|done|set_solver +]|].
  eapply rtc_l; [by eapply step_go_live|]. done.
Qed.

Lemma held_run : rtc step (initial ∅ [0; 0]) held.
Proof.
  etrans; [apply published_run|].
  eapply rtc_l; [by apply (step_check published 0 0 1)|].
  eapply rtc_l; [by apply (step_add _ 0 0 3 (1 :: replicate 7 0))|].
  eapply rtc_l; [by apply (step_recheck _ 0 0 3)|].
  eapply rtc_l; [by apply (step_load _ 0 0)|]. done.
Qed.

Lemma polled_run : rtc step (initial ∅ [0; 0]) polled.
Proof. etrans; [apply held_run|]. apply rtc_once. by eapply (step_retire held). Qed.

Lemma pinned_object_alive_witness :
  stripes_ok [0; 0] /\ rtc step (initial ∅ [0; 0]) polled /\
  4096 ∈ cf_alive polled /\ owned_object (cf_owner polled) = Some 4096 /\
  cf_owner polled <> ODrained 4096 /\ forall c', step polled c' -> 4096 ∈ cf_alive c'.
Proof.
  split; [apply two_ok|]. split; [apply polled_run|].
  apply (pinned_object_alive ∅ [0; 0] polled 0 (Thread 0 (PHolding 4096)) 4096);
    [apply two_ok|apply polled_run|reflexivity|reflexivity].
Defined.

Lemma drain_can_finish_witness :
  cf_owner polled = OScanning 4096 0 0 /\
  exists c', rtc step polled c' /\ cf_owner c' = OVacant /\ 4096 ∉ cf_alive c'.
Proof.
  split; [reflexivity|].
  apply (drain_can_finish ∅ [0; 0] polled 4096 0 0); [apply two_ok|apply polled_run|reflexivity].
Defined.

(** A table whose slot 0 is in the state a configuration describes. *)
Definition table_of (c : config) : ccol_pintable :=
  Some (PinChunk 0 (PinSlot (cf_state c) (cf_ptr c) (Some (PinStripes 1 (cf_counts c)))
                      :: replicate 63 zero_slot)) :: replicate 1023 None.

Lemma only_first {A} (x : option A) k n y : (x :: replicate k None) !! n = Some (Some y) -> x = Some y.
Proof. destruct n as [|n]; cbn; [congruence|]. by intros [[=] _]%lookup_replicate. Qed.

Lemma table_of_wf c : table_wf (table_of c).
Proof.
  split; [reflexivity|]. intros k chunk. unfold zget. destruct (0 <=? k); [|done].
  intros Hk%only_first. injection Hk as <-. reflexivity.
Qed.

(** The second thread pins while the object is live, and is refused while
    the owner polls; a poll then counts the first thread. *)
Lemma pin_is_run_witness :
  (is_slot (table_of published) 0 1 published /\
   wp (ccol_pintable_pin 7 tls0 (table_of published) 1) mem0 (fun '(p, _, t') m' => m' = mem0 /\ exists c',
    rtc step published c' /\ is_slot t' 0 1 c' /\ cf_owner c' = cf_owner published /\
    cf_threads c' = <[1%nat := Thread 0 (if cf_state published =? pin_state (handle_gen 1) true
                                     then PHolding p else PIdle)]> (cf_threads published))) /\
  (wp (ccol_pintable_pins (table_of polled) 0) mem0 (fun n m' => m' = mem0 /\
    forall p, cf_owner polled = OScanning p 0 0 ->
    exists c' acc, rtc step polled c' /\ cf_owner c' = OScanning p CCOL_PIN_STRIPES acc /\
      clamp_total acc = n)).
Proof.
  split.
  - split; [reflexivity|].
    apply (pin_is_run (table_of published) 0 1 published 7 tls0 0 (PinTls 2 {[7%nat := 1]}) 1 1%nat mem0);
      [apply table_of_wf|split; [discriminate|reflexivity]|discriminate|reflexivity|reflexivity
      |exact (inv_steps _ _ (inv_initial ∅ _ two_ok) published_run)|reflexivity|reflexivity].
  - apply (pin_is_run (table_of polled) 0 1 polled 7 tls0 0 (PinTls 2 {[7%nat := 1]}) 1 1%nat mem0);
      [apply table_of_wf|split; [discriminate|reflexivity]|discriminate|reflexivity|reflexivity
      |exact (inv_steps _ _ (inv_initial ∅ _ two_ok) polled_run)|reflexivity|reflexivity].
Defined.
End Drain.
