(* ===== verification/CHash.v ===== *)
(** * The hash functions of the hash map ([src/chashmap.c])

    The word mixers, SipHash-1-3, XXH64, the hash of a [long double] by its
    value, the choice between them ([hash_key_data]) and the reduction of a
    hash to an index, at the 64-bit [size_t] of the platform.  A load at a
    pointer is a partial function of the bytes readable there, so that a
    hash that read past its key would have no result. *)
From S2P Require Import Prelude Memory Values.

(** A [uint64_t] is a number below [2^64]. *)
Definition is_word (x : Z) : Prop := 0 <= x < two64.

Definition xorshift (x s : Z) : Z := Z.lxor x (Z.shiftr x s).

(** The [n] bytes of [x], the lowest first. *)
Fixpoint le_bytes (n : nat) (x : Z) : list Z :=
  match n with O => [] | S n => x `mod` 256 :: le_bytes n (x `div` 256) end.

(** ** The secret of the process *)
Record sip_state := SipState { sip_0 : Z; sip_1 : Z; sip_2 : Z; sip_3 : Z }.

Record chmap_hash_secret := HashSecretOf {
  sip_v : sip_state;
  int_seed : Z;
  byte_seed : Z;
}.

Definition chmap_seed_mix (x : Z) : Z :=
  let x := x ⊕ 0x9E3779B97F4A7C15 in
  let x := xorshift x 30 ⊗ 0xBF58476D1CE4E5B9 in
  let x := xorshift x 27 ⊗ 0x94D049BB133111EB in
  xorshift x 31.

(** The clocks, the process identifier and the three addresses it mixes are
    the environment's. *)
Definition chmap_fallback_hash_key (rt_sec rt_nsec mt_sec mt_nsec pid addr_x addr_secret addr_clock : Z)
    : Z * Z * Z * Z :=
  let x := chmap_seed_mix (rt_sec ⊗ 1000000000 ⊕ rt_nsec) in
  let x := chmap_seed_mix (Z.lxor x (mt_sec ⊗ 1000000000 ⊕ mt_nsec)) in
  let x := chmap_seed_mix (Z.lxor x pid) in
  let x := chmap_seed_mix (Z.lxor x addr_x) in
  let x := chmap_seed_mix (Z.lxor x addr_secret) in
  let x := chmap_seed_mix (Z.lxor x addr_clock) in
  let out1 := chmap_seed_mix x in
  let out2 := chmap_seed_mix out1 in
  (x, out1, out2, chmap_seed_mix out2).

Definition chmap_sip_state_from_key (k0 k1 : Z) : sip_state :=
  SipState (Z.lxor k0 0x736F6D6570736575) (Z.lxor k1 0x646F72616E646F6D)
           (Z.lxor k0 0x6C7967656E657261) (Z.lxor k1 0x7465646279746573).

(** [random] is what [ccol_random_bytes] gave, [None] when it failed. *)
Definition chmap_init_process_hash_secret (random : option (Z * Z * Z * Z)) (fallback : Z * Z * Z * Z)
    : chmap_hash_secret :=
  let '(k0, k1, k2, k3) := default fallback random in
  HashSecretOf (chmap_sip_state_from_key k0 k1) k2 k3.

(** ** Words *)
Definition hash_word_seeded (x seed : Z) : Z :=
  let r := Z.lxor x seed ⊗ 0xBF58476D1CE4E5B9 in
  let r := xorshift r 32 in
  r ⊗ 0x94D049BB133111EB.

Definition hash_u64_seeded (x seed : Z) : Z := hash_word_seeded x seed.

Definition hash_word_fast (x : Z) : Z := x ⊗ 0x9E3779B97F4A7C15.

Definition hash_u64_fast (x : Z) : Z := hash_word_fast x.

Definition hash_custom_fast (h : Z) : Z :=
  let x := xorshift h 33 in
  let x := x ⊗ 0xFF51AFD7ED558CCD in
  let x := xorshift x 33 in
  let x := x ⊗ 0xC4CEB9FE1A85EC53 in
  xorshift x 33.

Definition hash_word_mode (x : Z) (keyed : bool) (seed : Z) : Z :=
  if keyed then hash_word_seeded x seed else hash_word_fast x.

Definition hash_u64_mode (x : Z) (keyed : bool) (seed : Z) : Z :=
  if keyed then hash_u64_seeded x seed else hash_u64_fast x.

(** ** SipHash-1-3 *)
Definition sip_rotl (x b : Z) : Z := Z.lor (wrap (Z.shiftl x b)) (Z.shiftr x (64 - b)).

Definition CHMAP_SIPROUND (s : sip_state) : sip_state :=
  let '(SipState v0 v1 v2 v3) := s in
  let v0 := v0 ⊕ v1 in
  let v1 := sip_rotl v1 13 in
  let v1 := Z.lxor v1 v0 in
  let v0 := sip_rotl v0 32 in
  let v2 := v2 ⊕ v3 in
  let v3 := sip_rotl v3 16 in
  let v3 := Z.lxor v3 v2 in
  let v0 := v0 ⊕ v3 in
  let v3 := sip_rotl v3 21 in
  let v3 := Z.lxor v3 v0 in
  let v2 := v2 ⊕ v1 in
  let v1 := sip_rotl v1 17 in
  let v1 := Z.lxor v1 v2 in
  let v2 := sip_rotl v2 32 in
  SipState v0 v1 v2 v3.

(** The little-endian load of [w] bytes at [p]. *)
Definition load (w : Z) (p : list Z) : option Z :=
  if w <=? zlen p then Some (le_unsigned (ztake w p)) else None.

Definition sip_load64 (p : list Z) : option Z := load 8 p.
Definition sip_load32 (p : list Z) : option Z := load 4 p.

Definition sip_load_tail (p : list Z) (left_ : Z) : option Z :=
  if left_ >=? 4 then
    a ← sip_load32 p;
    b ← sip_load32 (zdrop (left_ - 4) p);
    Some (Z.lor a (wrap (Z.shiftl b (8 * (left_ - 4)))))
  else if left_ =? 0 then Some 0
  else
    a ← zget p 0;
    b ← zget p (Z.shiftr left_ 1);
    c ← zget p (left_ - 1);
    Some (Z.lor (Z.lor a (Z.shiftl b (8 * Z.shiftr left_ 1))) (Z.shiftl c (8 * (left_ - 1)))).

Fixpoint sip_blocks (blocks : nat) (s : sip_state) (p : list Z) : option (sip_state * list Z) :=
  match blocks with
  | O => Some (s, p)
  | S blocks =>
      m ← sip_load64 p;
      let s := CHMAP_SIPROUND (SipState (sip_0 s) (sip_1 s) (sip_2 s) (Z.lxor (sip_3 s) m)) in
      let s := SipState (Z.lxor (sip_0 s) m) (sip_1 s) (sip_2 s) (sip_3 s) in
      sip_blocks blocks s (zdrop 8 p)
  end.

Definition siphash13 (v : sip_state) (input : list Z) (len : Z) : option Z :=
  '(s, p) ← sip_blocks (Z.to_nat (Z.shiftr len 3)) v input;
  tail ← sip_load_tail p (Z.land len 7);
  let b := Z.lor (wrap (Z.shiftl len 56)) tail in
  let s := CHMAP_SIPROUND (SipState (sip_0 s) (sip_1 s) (sip_2 s) (Z.lxor (sip_3 s) b)) in
  let s := SipState (Z.lxor (sip_0 s) b) (sip_1 s) (Z.lxor (sip_2 s) 0xff) (sip_3 s) in
  let s := CHMAP_SIPROUND (CHMAP_SIPROUND (CHMAP_SIPROUND s)) in
  Some (Z.lxor (Z.lxor (Z.lxor (sip_0 s) (sip_1 s)) (sip_2 s)) (sip_3 s)).

Definition hash_bytes_keyed (v : sip_state) (input : list Z) (len : Z) : option Z := siphash13 v input len.

(** ** XXH64 *)
Definition XXH_P1 : Z := 0x9E3779B185EBCA87.
Definition XXH_P2 : Z := 0xC2B2AE3D27D4EB4F.
Definition XXH_P3 : Z := 0x165667B19E3779F9.
Definition XXH_P4 : Z := 0x85EBCA77C2B2AE63.
Definition XXH_P5 : Z := 0x27D4EB2F165667C5.

Definition xxh_round (acc input : Z) : Z :=
  let acc := acc ⊕ input ⊗ XXH_P2 in
  let acc := sip_rotl acc 31 in
  acc ⊗ XXH_P1.

Definition xxh_merge_round (h v : Z) : Z :=
  let h := Z.lxor h (xxh_round 0 v) in
  h ⊗ XXH_P1 ⊕ XXH_P4.

(** The loop over 32 bytes at a time, at least once. *)
Fixpoint xxh_stripes (fuel : nat) (v : sip_state) (p : list Z) : option (sip_state * list Z) :=
  match fuel with
  | O => None
  | S fuel =>
      a ← sip_load64 p;
      b ← sip_load64 (zdrop 8 p);
      c ← sip_load64 (zdrop 16 p);
      d ← sip_load64 (zdrop 24 p);
      let v := SipState (xxh_round (sip_0 v) a) (xxh_round (sip_1 v) b)
                        (xxh_round (sip_2 v) c) (xxh_round (sip_3 v) d) in
      let p := zdrop 32 p in
      if 32 <=? zlen p then xxh_stripes fuel v p else Some (v, p)
  end.

Fixpoint xxh_words (fuel : nat) (h : Z) (p : list Z) : option (Z * list Z) :=
  if zlen p >=? 8 then
    match fuel with
    | O => None
    | S fuel =>
        m ← sip_load64 p;
        let h := Z.lxor h (xxh_round 0 m) in
        let h := sip_rotl h 27 ⊗ XXH_P1 ⊕ XXH_P4 in
        xxh_words fuel h (zdrop 8 p)
    end
  else Some (h, p).

Fixpoint xxh_bytes (h : Z) (p : list Z) : Z :=
  match p with
  | [] => h
  | b :: p =>
      let h := Z.lxor h (b ⊗ XXH_P5) in
      let h := sip_rotl h 11 ⊗ XXH_P1 in
      xxh_bytes h p
  end.

(** The at most 31 bytes left and the avalanche. *)
Definition xxh_finish (len h : Z) (p : list Z) : option Z :=
  let h := h ⊕ len in
  '(h, p) ← xxh_words (Z.to_nat len) h p;
  '(h, p) ← (if zlen p >=? 4
    then
      m ← sip_load32 p;
      let h := Z.lxor h (m ⊗ XXH_P1) in
      let h := sip_rotl h 23 ⊗ XXH_P2 ⊕ XXH_P3 in
      Some (h, zdrop 4 p)
    else Some (h, p));
  let h := xxh_bytes h p in
  let h := xorshift h 33 in
  let h := h ⊗ XXH_P2 in
  let h := xorshift h 29 in
  let h := h ⊗ XXH_P3 in
  Some (xorshift h 32).

(** [input] is exactly the [len] bytes hashed. *)
Definition xxh64 (input : list Z) (len seed : Z) : option Z :=
  if len >=? 32 then
    '(v, p) ← xxh_stripes (Z.to_nat len)
      (SipState (seed ⊕ XXH_P1 ⊕ XXH_P2) (seed ⊕ XXH_P2) seed (seed ⊖ XXH_P1)) input;
    let h := sip_rotl (sip_0 v) 1 ⊕ sip_rotl (sip_1 v) 7 ⊕ sip_rotl (sip_2 v) 12 ⊕ sip_rotl (sip_3 v) 18 in
    let h := xxh_merge_round h (sip_0 v) in
    let h := xxh_merge_round h (sip_1 v) in
    let h := xxh_merge_round h (sip_2 v) in
    let h := xxh_merge_round h (sip_3 v) in
    xxh_finish len h p
  else xxh_finish len (seed ⊕ XXH_P5) input.

Definition hash_bytes_fast (secret : chmap_hash_secret) (input : list Z) (len : Z) : option Z :=
  xxh64 input len (byte_seed secret).

(** ** A [long double] by its value

    [v] is the exact value in units of [2^-16445], the weight of the least
    subnormal; [frexpl] and the conversion to [int64_t] are exact functions
    of it. *)
Definition long_double_inf : Z := 2 ^ 63 * 2 ^ 32766.

Definition hash_long_double_value (v : option Z) (s : sip_state) : option Z :=
  let '(p0, p1) :=
    match v with
    | None => (0, 3)
    | Some z =>
        if z =? 0 then (0, 0)
        else if Z.abs z =? long_double_inf then (0, if 0 <? z then 1 else 2)
        else
          let l := Z.log2 (Z.abs z) in
          (wrap (Z.sgn z * (Z.abs z * 2 ^ 62) `div` 2 ^ (l + 1)), wrap (l + 1 - 16445))
    end in
  let parts := le_bytes 8 p0 ++ le_bytes 8 p1 in
  hash_bytes_keyed s parts 16.

(** ** The dispatch

    A procedure and the two byte hashes are given the first [key_size] bytes
    of the key; every other case loads the width of the type. *)
Definition hash_key_data (secret : chmap_hash_secret) (key : list Z) (key_size : Z) (key_type : ccol_data_type)
    (custom_proc : option (list Z -> Z)) (keyed : bool) (seed : Z) : option Z :=
  match custom_proc with
  | Some proc =>
      if zlen key <? key_size then None else
      let h := proc (ztake key_size key) in
      Some (if keyed then hash_word_seeded h seed else hash_custom_fast h)
  | None =>
      match key_type with
      | ccol_char | ccol_signed_char | ccol_unsigned_char =>
          b ← load 1 key; Some (hash_word_mode b keyed seed)
      | ccol_short | ccol_unsigned_short => bits ← load 2 key; Some (hash_word_mode bits keyed seed)
      | ccol_int | ccol_unsigned_int => bits ← load 4 key; Some (hash_word_mode bits keyed seed)
      | ccol_long | ccol_unsigned_long => bits ← load 8 key; Some (hash_word_mode bits keyed seed)
      | ccol_long_long | ccol_unsigned_long_long => bits ← load 8 key; Some (hash_u64_mode bits keyed seed)
      | ccol_float => bits ← load 4 key; Some (hash_word_mode bits keyed seed)
      | ccol_double => bits ← load 8 key; Some (hash_u64_mode bits keyed seed)
      | ccol_pointer => bits ← load 8 key; Some (hash_word_mode bits keyed seed)
      | ccol_long_double =>
          if 16 <=? zlen key then hash_long_double_value (long_double_value (ztake 16 key)) (sip_v secret) else None
      | ccol_string | ccol_other_types =>
          if zlen key <? key_size then None else
          if keyed then hash_bytes_keyed (sip_v secret) (ztake key_size key) key_size
          else hash_bytes_fast secret (ztake key_size key) key_size
      end
  end.

(** [__builtin_clzll] is undefined at 0. *)
Definition hash_index_for (hash_val capacity : Z) : Z :=
  Z.shiftr hash_val ((63 - Z.log2 capacity) + 1).

(** ** Published test vectors *)
Example xxh64_empty : xxh64 [] 0 0 = Some 0xEF46DB3751D8E999.
Proof. vm_compute. reflexivity. Qed.
Example xxh64_abc : xxh64 [97; 98; 99] 3 0 = Some 0x44BC2CF5AD770999.
Proof. vm_compute. reflexivity. Qed.
(* "Nobody inspects the spammish repetition" *)
Example xxh64_spam :
  xxh64 [78;111;98;111;100;121;32;105;110;115;112;101;99;116;115;32;116;104;101;32;115;112;97;109;109;105;115;104;32;114;101;112;101;116;105;116;105;111;110] 39 0
  = Some 0xFBCEA83C8A378BF1.
Proof. vm_compute. reflexivity. Qed.
Example siphash13_empty :
  siphash13 (chmap_sip_state_from_key 0x0706050403020100 0x0f0e0d0c0b0a0908) [] 0 = Some 0xabac0158050fc4dc.
Proof. vm_compute. reflexivity. Qed.
Example siphash13_one :
  siphash13 (chmap_sip_state_from_key 0x0706050403020100 0x0f0e0d0c0b0a0908) [0] 1 = Some 0xc9f49bf37d57ca93.
Proof. vm_compute. reflexivity. Qed.

(** ** Words stay words *)
Lemma wrap_word x : is_word (wrap x).
Proof. apply wrap_range. Qed.

Lemma word_bits x : 0 <= x -> (forall n, 64 <= n -> Z.testbit x n = false) -> is_word x.
Proof.
  intros Hx Hb. split; [done|]. destruct (Z.lt_ge_cases x two64) as [|Hge]; [done|].
  assert (64 <= Z.log2 x) as Hl by (apply Z.log2_le_pow2; unfold two64 in *; lia).
  specialize (Hb (Z.log2 x) Hl). rewrite Z.bit_log2 in Hb; [done|unfold two64 in *; lia].
Qed.

Lemma word_high x n : is_word x -> 64 <= n -> Z.testbit x n = false.
Proof.
  intros [Hx Hlt] Hn. destruct (Z.eq_dec x 0) as [->|Hne]; [apply Z.bits_0|].
  apply Z.bits_above_log2; [done|]. apply Z.log2_lt_pow2; [lia|].
  eapply Z.lt_le_trans; [exact Hlt|]. change two64 with (2 ^ 64). by apply Z.pow_le_mono_r.
Qed.

Lemma lxor_word x y : is_word x -> is_word y -> is_word (Z.lxor x y).
Proof.
  intros Hx Hy. apply word_bits; [apply Z.lxor_nonneg; destruct Hx, Hy; lia|].
  intros n Hn. by rewrite Z.lxor_spec, (word_high x), (word_high y).
Qed.
Lemma lor_word x y : is_word x -> is_word y -> is_word (Z.lor x y).
Proof.
  intros Hx Hy. apply word_bits; [apply Z.lor_nonneg; destruct Hx, Hy; lia|].
  intros n Hn. by rewrite Z.lor_spec, (word_high x), (word_high y).
Qed.
Lemma shiftr_word x s : is_word x -> 0 <= s -> is_word (Z.shiftr x s).
Proof.
  intros Hx Hs. apply word_bits; [apply Z.shiftr_nonneg; destruct Hx; lia|].
  intros n Hn. rewrite Z.shiftr_spec by lia. apply word_high; [done|lia].
Qed.
Lemma xorshift_word x s : is_word x -> 0 <= s -> is_word (xorshift x s).
Proof. intros. by apply lxor_word, shiftr_word. Qed.
Lemma rotl_word x b : is_word x -> 0 <= b <= 64 -> is_word (sip_rotl x b).
Proof. intros. apply lor_word; [apply wrap_word|apply shiftr_word; [done|lia]]. Qed.
Create HintDb words.
#[export] Hint Resolve wrap_word lxor_word lor_word : words.

(** ** Each step of a word mixer is a bijection *)
Lemma xorshift_inj s x y : 0 < s -> 0 <= x -> 0 <= y -> xorshift x s = xorshift y s -> x = y.
Proof.
  intros Hs Hx Hy E. unfold xorshift in E.
  set (z := Z.lxor x y). assert (z = Z.shiftr z s) as Hz.
  { apply Z.bits_inj'. intros n Hn. unfold z. rewrite Z.shiftr_spec, !Z.lxor_spec by done.
    apply (f_equal (fun w => Z.testbit w n)) in E. rewrite !Z.lxor_spec, !Z.shiftr_spec in E by done.
    by destruct (Z.testbit x n), (Z.testbit y n), (Z.testbit x (n + s)), (Z.testbit y (n + s)). }
  assert (0 <= z) as Hz0 by (apply Z.lxor_nonneg; lia).
  apply Z.lxor_eq. fold z. destruct (Z.eq_dec z 0) as [|Hne]; [done|].
  rewrite Z.shiftr_div_pow2 in Hz by lia.
  assert (1 < 2 ^ s) by (apply Z.pow_gt_1; lia). assert (z `div` 2 ^ s < z) by (apply Z.div_lt; lia). lia.
Qed.

Lemma mul_inj c c' x y :
  wrap (c * c') = 1 -> is_word x -> is_word y -> x ⊗ c = y ⊗ c -> x = y.
Proof.
  intros Hc Hx Hy E. assert (forall w, is_word w -> w = wrap (wrap (w * c) * c')) as Hback.
  { intros w Hw. unfold wrap. rewrite Zmult_mod_idemp_l, <- Z.mul_assoc, <- Zmult_mod_idemp_r.
    unfold wrap in Hc. rewrite Hc, Z.mul_1_r. symmetry. by apply Z.mod_small. }
  rewrite (Hback x Hx), (Hback y Hy). by rewrite E.
Qed.

Lemma lxor_inj s x y : Z.lxor x s = Z.lxor y s -> x = y.
Proof.
  intros E. apply (f_equal (fun w => Z.lxor w s)) in E.
  by rewrite !Z.lxor_assoc, Z.lxor_nilpotent, !Z.lxor_0_r in E.
Qed.

(** The seeded mixer, the fast one and the finalizer of a custom hash
    never send two different words to the same hash, whatever the seed, so
    two keys of one width never share the whole hash; and the three stay
    within 64 bits. *)
Theorem word_hashes_injective seed x y :
  is_word seed -> is_word x -> is_word y ->
  (hash_word_seeded x seed = hash_word_seeded y seed -> x = y) /\
  (hash_word_fast x = hash_word_fast y -> x = y) /\
  (hash_custom_fast x = hash_custom_fast y -> x = y) /\
  is_word (hash_word_seeded x seed) /\ is_word (hash_word_fast x) /\ is_word (hash_custom_fast x).
Proof.
  intros Hs Hx Hy.
  assert (forall w, is_word w -> 0 <= w) as Hnn by by intros w [? _].
  split_and!.
  - unfold hash_word_seeded. intros E.
    apply (mul_inj _ 0x319642b2d24d8ec3) in E; [|done|apply xorshift_word; auto with words lia..].
    apply xorshift_inj in E; [|lia|apply wrap_range..].
    apply (mul_inj _ 0x96de1b173f119089) in E; [|done|auto with words..].
    by apply lxor_inj in E.
  - unfold hash_word_fast. intros E. by apply (mul_inj _ 0xf1de83e19937733d) in E.
  - unfold hash_custom_fast. intros E.
    apply xorshift_inj in E; [|lia|apply wrap_range..].
    apply (mul_inj _ 0x9cb4b2f8129337db) in E; [|done|apply xorshift_word; auto with words lia..].
    apply xorshift_inj in E; [|lia|apply wrap_range..].
    apply (mul_inj _ 0x4f74430c22a54005) in E; [|done|apply xorshift_word; auto with words lia..].
    apply xorshift_inj in E; auto with lia.
  - apply wrap_word.
  - apply wrap_word.
  - apply xorshift_word; [apply wrap_word|lia].
Qed.

(** ** Hashing reads the key and nothing else *)
Lemma le_unsigned_bound bs : Forall is_byte bs -> 0 <= le_unsigned bs < 256 ^ zlen bs.
Proof.
  induction 1 as [|b bs Hb Hbs IH]; [done|]. cbn [le_unsigned]. rewrite zlen_cons.
  pose proof (zlen_nonneg bs). rewrite Z.pow_add_r by lia. unfold is_byte in Hb. lia.
Qed.

Lemma load_some w p : 0 <= w <= 8 -> w <= zlen p -> Forall is_byte p -> exists x, load w p = Some x /\ is_word x.
Proof.
  intros Hw Hp Hb. unfold load. destruct (Z.leb_spec w (zlen p)); [|lia]. eexists. split; [done|].
  pose proof (le_unsigned_bound (ztake w p) (Forall_take _ _ _ Hb)) as Hl. rewrite zlen_ztake in Hl by lia.
  unfold is_word. assert (256 ^ Z.min w (zlen p) <= 256 ^ 8) by (apply Z.pow_le_mono_r; lia).
  change (256 ^ 8) with two64 in *. lia.
Qed.

Definition state_ok (s : sip_state) : Prop :=
  is_word (sip_0 s) /\ is_word (sip_1 s) /\ is_word (sip_2 s) /\ is_word (sip_3 s).

Lemma state_ok_intro a b c d : is_word a -> is_word b -> is_word c -> is_word d -> state_ok (SipState a b c d).
Proof. done. Qed.
#[local] Hint Resolve state_ok_intro : words.

Lemma sipround_ok s : state_ok s -> state_ok (CHMAP_SIPROUND s).
Proof.
  destruct s as [v0 v1 v2 v3]. intros (H0 & H1 & H2 & H3). unfold state_ok. cbn in *.
  split_and!; auto 10 using rotl_word with words lia.
Qed.

Lemma sip_blocks_some n s p :
  state_ok s -> Forall is_byte p -> 8 * Z.of_nat n <= zlen p ->
  exists s', sip_blocks n s p = Some (s', zdrop (8 * Z.of_nat n) p) /\ state_ok s'.
Proof.
  revert s p. induction n as [|n IH]; intros s p Hs Hb Hl; cbn [sip_blocks]; [by exists s|].
  unfold sip_load64. destruct (load_some 8 p) as (m & -> & Hm); [lia|lia|done|]. cbn.
  match goal with |- context [sip_blocks n ?s1 _] => assert (state_ok s1) as Hs1 end.
  { destruct (sipround_ok (SipState (sip_0 s) (sip_1 s) (sip_2 s) (Z.lxor (sip_3 s) m))) as (? & ? & ? & ?);
      [destruct Hs as (? & ? & ? & ?); auto with words|]. auto with words. }
  destruct (IH _ (zdrop 8 p) Hs1) as (s' & -> & Hs'); [by apply Forall_drop|rewrite zlen_zdrop; lia|].
  exists s'. split; [|done]. rewrite zdrop_zdrop by lia. do 2 f_equal. f_equal. lia.
Qed.

Lemma sip_tail_some p left_ : 0 <= left_ < 8 -> zlen p = left_ -> Forall is_byte p ->
  exists x, sip_load_tail p left_ = Some x /\ is_word x.
Proof.
  intros Hl Hp Hb. unfold sip_load_tail. rewrite Z.geb_leb. destruct (Z.leb_spec 4 left_).
  - destruct (load_some 4 p) as (a & Ea & Ha); [lia|lia|done|]. unfold sip_load32. rewrite Ea. cbn.
    destruct (load_some 4 (zdrop (left_ - 4) p)) as (b & Eb & Hb'); [lia|rewrite zlen_zdrop; lia|by apply Forall_drop|].
    rewrite Eb. cbn. eexists. split; [done|]. auto with words.
  - destruct (Z.eqb_spec left_ 0); [exists 0; split; [done|split; done]|].
    assert (0 <= Z.shiftr left_ 1 < left_) as Hs.
    { rewrite Z.shiftr_div_pow2 by lia. change (2 ^ 1) with 2.
      split; [apply Z.div_pos; lia|apply Z.div_lt; lia]. }
    assert (forall i, 0 <= i < left_ -> exists x, zget p i = Some x /\ 0 <= x < 256) as Hg.
    { intros i Hi. destruct (zget_is_Some p i ltac:(lia)) as [x Hx]. exists x. split; [done|].
      rewrite Forall_forall in Hb. apply Hb. unfold zget in Hx. case_match; [|done].
      by eapply list_elem_of_lookup_2. }
    destruct (Hg 0 ltac:(lia)) as (a & -> & Ha). destruct (Hg _ Hs) as (b & -> & Hb').
    destruct (Hg (left_ - 1) ltac:(lia)) as (c & -> & Hc). cbn. eexists. split; [done|].
    assert (forall x s, 0 <= x < 256 -> 0 <= s <= 2 -> is_word (Z.shiftl x (8 * s))) as Hsh.
    { intros x s Hx Hs'. rewrite Z.shiftl_mul_pow2 by lia. unfold is_word, two64.
      assert (0 < 2 ^ (8 * s) <= 2 ^ 16) by (split; [apply Z.pow_pos_nonneg; lia|apply Z.pow_le_mono_r; lia]). nia. }
    apply lor_word; [apply lor_word|]; [unfold is_word, two64; lia|apply Hsh; lia|apply Hsh; lia].
Qed.

(** The finishing rounds keep every word a word. *)
Lemma sip_finish_word s b : state_ok s -> is_word b ->
  let s1 := CHMAP_SIPROUND (SipState (sip_0 s) (sip_1 s) (sip_2 s) (Z.lxor (sip_3 s) b)) in
  let s2 := SipState (Z.lxor (sip_0 s1) b) (sip_1 s1) (Z.lxor (sip_2 s1) 0xff) (sip_3 s1) in
  let s3 := CHMAP_SIPROUND (CHMAP_SIPROUND (CHMAP_SIPROUND s2)) in
  is_word (Z.lxor (Z.lxor (Z.lxor (sip_0 s3) (sip_1 s3)) (sip_2 s3)) (sip_3 s3)).
Proof.
  intros (? & ? & ? & ?) Hb. assert (is_word 0xff) as Hff by done. intros s1 s2 s3.
  assert (state_ok s1) as (? & ? & ? & ?).
  { apply sipround_ok, state_ok_intro; try assumption. by apply lxor_word. }
  clearbody s1. assert (state_ok s2) as Hs2 by (apply state_ok_intro; try assumption; apply lxor_word; assumption).
  clearbody s2. assert (state_ok s3) as (? & ? & ? & ?) by (do 3 apply sipround_ok; assumption).
  clearbody s3. repeat apply lxor_word; assumption.
Qed.

Lemma siphash13_some v p : state_ok v -> Forall is_byte p ->
  exists h, siphash13 v p (zlen p) = Some h /\ is_word h.
Proof.
  intros Hv Hb. pose proof (zlen_nonneg p) as Hp. unfold siphash13.
  assert (Z.shiftr (zlen p) 3 = zlen p `div` 8) as Esh by by rewrite Z.shiftr_div_pow2.
  assert (Z.land (zlen p) 7 = zlen p `mod` 8) as Eland by (apply (Z.land_ones (zlen p) 3); lia).
  rewrite Esh, Eland. assert (0 <= zlen p `div` 8) as Hd by (apply Z.div_pos; lia).
  pose proof (Z.div_mod (zlen p) 8 ltac:(lia)) as Hdm. pose proof (Z.mod_pos_bound (zlen p) 8 ltac:(lia)) as Hmod.
  destruct (sip_blocks_some (Z.to_nat (zlen p `div` 8)) v p) as (s & -> & Hs); [done|done|lia|]. cbn [mbind option_bind].
  destruct (sip_tail_some (zdrop (8 * Z.of_nat (Z.to_nat (zlen p `div` 8))) p) (zlen p `mod` 8)) as (t & -> & Ht);
    [done|rewrite zlen_zdrop; lia|by apply Forall_drop|]. cbn [mbind option_bind].
  cbv zeta. eexists. split; [reflexivity|].
  pose proof (sip_finish_word s (Z.lor (wrap (Z.shiftl (zlen p) 56)) t) Hs ltac:(auto with words)) as Hf.
  cbv zeta in Hf. exact Hf.
Qed.

Lemma xxh_stripes_some fuel v p : Forall is_byte p -> 32 <= zlen p -> zlen p < Z.of_nat fuel * 32 + 32 ->
  (0 < fuel)%nat ->
  exists v' p', xxh_stripes fuel v p = Some (v', p') /\ Forall is_byte p' /\ zlen p' < 32.
Proof.
  revert v p. induction fuel as [|fuel IH]; intros v p Hb Hl Hf H0; [lia|]. cbn [xxh_stripes]. unfold sip_load64.
  assert (forall k, 0 <= k <= 24 -> exists x, load 8 (zdrop k p) = Some x) as Hld.
  { intros k Hk. destruct (load_some 8 (zdrop k p)) as (x & -> & _); [lia|rewrite zlen_zdrop; lia|by apply Forall_drop|by eexists]. }
  destruct (load_some 8 p) as (a & -> & _); [lia|lia|done|].
  destruct (Hld 8 ltac:(lia)) as [b ->], (Hld 16 ltac:(lia)) as [c ->], (Hld 24 ltac:(lia)) as [d ->].
  cbn [mbind option_bind]. cbv zeta.
  assert (zlen (zdrop 32 p) = zlen p - 32) as Ez by (rewrite zlen_zdrop; lia).
  destruct (Z.leb_spec 32 (zlen (zdrop 32 p))) as [Hge|Hlt].
  - apply IH; [by apply Forall_drop|lia..].
  - do 2 eexists. split; [reflexivity|]. split; [by apply Forall_drop|lia].
Qed.

Lemma xxh_words_some fuel h p : is_word h -> Forall is_byte p -> zlen p < Z.of_nat fuel * 8 + 8 ->
  exists h' p', xxh_words fuel h p = Some (h', p') /\ is_word h' /\ Forall is_byte p' /\ zlen p' < 8.
Proof.
  revert h p. induction fuel as [|fuel IH]; intros h p Hh Hb Hf; cbn [xxh_words]; rewrite Z.geb_leb;
    destruct (Z.leb_spec 8 (zlen p)) as [Hge|Hlt]; try lia; try (exists h, p; split_and!; auto; fail).
  unfold sip_load64. destruct (load_some 8 p) as (a & -> & _); [lia|lia|done|].
  cbn [mbind option_bind]. cbv zeta. apply IH; [apply wrap_word|by apply Forall_drop|].
  rewrite zlen_zdrop by lia. lia.
Qed.

Lemma xxh_bytes_word h p : is_word h -> is_word (xxh_bytes h p).
Proof. revert h. induction p as [|b p IH]; intros h Hh; [done|]. cbn [xxh_bytes]. cbv zeta. apply IH, wrap_word. Qed.

Lemma xxh_finish_some len h p : Forall is_byte p -> zlen p < Z.of_nat (Z.to_nat len) * 8 + 8 ->
  exists r, xxh_finish len h p = Some r /\ is_word r.
Proof.
  intros Hb Hl. unfold xxh_finish. cbv zeta.
  destruct (xxh_words_some (Z.to_nat len) (h ⊕ len) p) as (h1 & q1 & -> & Hh1 & Hb1 & Hl1);
    [apply wrap_word|done|lia|].
  cbn [mbind option_bind]. rewrite Z.geb_leb.
  destruct (Z.leb_spec 4 (zlen q1)) as [Hge|Hlt];
    [unfold sip_load32; destruct (load_some 4 q1) as (a & -> & _); [lia|lia|done|]|];
    cbn [mbind option_bind]; eexists; (split; [reflexivity|apply xorshift_word; [apply wrap_word|lia]]).
Qed.

Lemma xxh64_some p seed : Forall is_byte p -> exists h, xxh64 p (zlen p) seed = Some h /\ is_word h.
Proof.
  intros Hb. pose proof (zlen_nonneg p) as Hp. unfold xxh64. rewrite Z.geb_leb.
  destruct (Z.leb_spec 32 (zlen p)) as [Hge|Hlt]; [|apply xxh_finish_some; [done|lia]].
  match goal with |- context [xxh_stripes ?f ?v p] =>
    destruct (xxh_stripes_some f v p) as (v' & p' & -> & Hb' & Hl'); [done|lia..|] end.
  cbn [mbind option_bind]. cbv zeta. apply xxh_finish_some; [done|lia].
Qed.

Lemma le_bytes_bytes n x : Forall is_byte (le_bytes n x).
Proof.
  revert x. induction n as [|n IH]; intros x; [constructor|]. cbn [le_bytes]. constructor; [|apply IH].
  apply Z.mod_pos_bound. lia.
Qed.
Lemma le_bytes_len n x : zlen (le_bytes n x) = Z.of_nat n.
Proof. revert x. induction n as [|n IH]; intros x; [done|]. cbn [le_bytes]. rewrite zlen_cons, IH. lia. Qed.

Lemma long_double_some v s : state_ok s -> exists h, hash_long_double_value v s = Some h /\ is_word h.
Proof.
  intros Hs. unfold hash_long_double_value, hash_bytes_keyed.
  match goal with |- context [let '(p0, p1) := ?m in _] => destruct m as [p0 p1] end.
  apply (siphash13_some s (le_bytes 8 p0 ++ le_bytes 8 p1)); [done|].
  apply Forall_app; split; apply le_bytes_bytes.
Qed.

Definition secret_ok (s : chmap_hash_secret) : Prop :=
  state_ok (sip_v s) /\ is_word (int_seed s) /\ is_word (byte_seed s).

Lemma hash_word_mode_word b keyed seed : is_word (hash_word_mode b keyed seed).
Proof. destruct keyed; apply wrap_word. Qed.

Lemma hash_index_for_range h k : is_word h -> 1 <= k <= 63 -> 0 <= hash_index_for h (2 ^ k) < 2 ^ k.
Proof.
  intros [H0 H1] Hk. unfold hash_index_for. rewrite Z.log2_pow2 by lia.
  replace (63 - k + 1) with (64 - k) by lia. rewrite Z.shiftr_div_pow2 by lia.
  assert (0 < 2 ^ (64 - k)) by (apply Z.pow_pos_nonneg; lia).
  split; [apply Z.div_pos; lia|]. apply Z.div_lt_upper_bound; [lia|].
  rewrite <- Z.pow_add_r by lia. replace (64 - k + k) with 64 by lia. exact H1.
Qed.

Lemma load_prefix w n key : 0 <= w <= n -> n <= zlen key -> load w (ztake n key) = load w key.
Proof.
  intros Hw Hn. unfold load. rewrite zlen_ztake, ztake_ztake, (Z.min_l w n) by lia.
  destruct (Z.leb_spec w (Z.min n (zlen key))), (Z.leb_spec w (zlen key)); done || lia.
Qed.

(** A hash of [n] bytes sees those bytes and no others. *)
Lemma hash_key_prefix secret key n key_type custom keyed seed :
  0 <= n <= zlen key -> ccol_fixed_width_data_type_size key_type <= n ->
  hash_key_data secret key n key_type custom keyed seed =
  hash_key_data secret (ztake n key) n key_type custom keyed seed.
Proof.
  intros Hn Hw. assert (zlen (ztake n key) = n) as El by (rewrite zlen_ztake; lia).
  assert (ztake n (ztake n key) = ztake n key) as Et by (rewrite ztake_ztake by lia; f_equal; lia).
  destruct custom as [proc|]; cbn [hash_key_data].
  { rewrite El, Et. destruct (Z.ltb_spec (zlen key) n), (Z.ltb_spec n n); [lia..|done]. }
  destruct key_type; cbn in Hw; cbn [hash_key_data]; try (by rewrite load_prefix by lia);
    rewrite El, ?Et; try (destruct (Z.ltb_spec (zlen key) n), (Z.ltb_spec n n); done || lia).
  rewrite ztake_ztake, (Z.min_l 16 n) by lia. destruct (Z.leb_spec 16 (zlen key)), (Z.leb_spec 16 n); done || lia.
Qed.

Lemma hash_key_some secret key n key_type custom keyed :
  secret_ok secret -> Forall is_byte key -> 0 <= n <= zlen key ->
  from_option (fun proc => is_word (proc (ztake n key))) True custom ->
  (let w := ccol_fixed_width_data_type_size key_type in w = 0 \/ n = w) ->
  exists h, hash_key_data secret key n key_type custom keyed (int_seed secret) = Some h /\ is_word h.
Proof.
  intros (Hs & Hi & _) Hb Hn Hc Hw. assert ((zlen key <? n) = false) as Hlt by (apply Z.ltb_ge; lia).
  destruct custom as [proc|]; cbn [hash_key_data from_option] in *.
  { rewrite Hlt. eexists. split; [reflexivity|]. destruct keyed; [apply wrap_word|].
    apply xorshift_word; [apply wrap_word|lia]. }
  destruct key_type; cbn in Hw; (destruct Hw as [Hw|Hw]; [try discriminate Hw|]); cbn [hash_key_data];
    try (destruct (load_some n key) as (x & Hx & _); [lia|lia|done|];
      rewrite Hw in Hx; rewrite Hx; eexists; split; [reflexivity|apply hash_word_mode_word]).
  all: try (rewrite Hlt; unfold hash_bytes_keyed, hash_bytes_fast; pose proof (Forall_take _ (Z.to_nat n) _ Hb) as Hb';
    pose proof (siphash13_some (sip_v secret) (ztake n key) Hs Hb') as H1;
    pose proof (xxh64_some (ztake n key) (byte_seed secret) Hb') as H2;
    rewrite zlen_ztake, Z.min_l in H1, H2 by lia; by destruct keyed).
  destruct (Z.leb_spec 16 (zlen key)); [apply (long_double_some _ _ Hs)|lia].
Qed.

(** The hash of a key whose size its map has checked reads only the
    key's own bytes: every load of the word, SipHash and XXH64 paths, the
    overlapping loads of the tails included, has its bytes, and the bytes
    that follow the key don't change the result.  It ends, fits the 64 bits
    of [size_t], and [hash_index_for] takes it to a slot of a table of any
    power-of-two capacity from 2 up.  A custom procedure is the caller's: it
    is only asked for a 64-bit answer. *)
Theorem hash_key_in_bounds secret key after key_type custom keyed k :
  secret_ok secret -> Forall is_byte (key ++ after) ->
  from_option (fun proc => is_word (proc key)) True custom ->
  (let w := ccol_fixed_width_data_type_size key_type in w = 0 \/ zlen key = w) -> 1 <= k <= 63 ->
  exists h,
    hash_key_data secret key (zlen key) key_type custom keyed (int_seed secret) = Some h /\
    hash_key_data secret (key ++ after) (zlen key) key_type custom keyed (int_seed secret) = Some h /\
    is_word h /\ 0 <= hash_index_for h (2 ^ k) < 2 ^ k.
Proof.
  intros Hs Hb Hc Hw Hk. assert (0 <= zlen key <= zlen key) as Hn by zlia.
  apply Forall_app in Hb as [Hb _]. assert (ztake (zlen key) key = key) as Et by (by rewrite ztake_all).
  destruct (hash_key_some secret key (zlen key) key_type custom keyed) as (h & Eh & Hh); [done..|by rewrite Et|done|].
  exists h. split; [done|]. split; [|split; [done|by apply hash_index_for_range]].
  rewrite hash_key_prefix; [|zlia|destruct Hw as [->| ->]; zlia].
  by rewrite ztake_app_exact.
Qed.

(** ** Witnesses *)
Lemma word_hashes_injective_witness : is_word 5 /\ (hash_word_seeded 3 5 = hash_word_seeded 7 5 -> 3 = 7).
Proof.
  split; [done|].
  exact (proj1 (word_hashes_injective 5 3 7 ltac:(done) ltac:(done) ltac:(done))).
Defined.

Lemma hash_key_in_bounds_witness :
  exists h, hash_key_data (HashSecretOf (SipState 1 2 3 4) 5 6) [104; 105; 33] 3 ccol_string None true 5 = Some h /\
    hash_key_data (HashSecretOf (SipState 1 2 3 4) 5 6) [104; 105; 33; 63] 3 ccol_string None true 5 = Some h /\
    is_word h /\ 0 <= hash_index_for h (2 ^ 4) < 2 ^ 4.
Proof.
  apply (hash_key_in_bounds (HashSecretOf (SipState 1 2 3 4) 5 6) [104; 105; 33] [63] ccol_string None true 4);
    [done|by repeat constructor|done|by left|lia].
Defined.
