(* ===== verification/COaProbe.v ===== *)
(** * Linear probing on a ring of cells

    The facts about open addressing that do not depend on how [chashmap.c]
    stores a slot: distances on a ring of [C] cells, the entries of a ring,
    the invariant that every cell between an entry's home and the entry is
    occupied, and the invariant of a backward shift with its measure. *)
From S2P Require Import Prelude.

(** ** Distances on a ring *)
Section Ring.
Context (C : Z).

(** The steps from [a] forward to [b]. *)
Definition dist (a b : Z) : Z := if a <=? b then b - a else b - a + C.
Definition next (i : Z) : Z := if i + 1 =? C then 0 else i + 1.

Lemma dist_cases a b : (a <= b /\ dist a b = b - a) \/ (b < a /\ dist a b = b - a + C).
Proof. unfold dist. destruct (Z.leb_spec a b); lia. Qed.
Lemma next_cases i : (i + 1 = C /\ next i = 0) \/ (i + 1 <> C /\ next i = i + 1).
Proof. unfold next. destruct (Z.eqb_spec (i + 1) C); lia. Qed.
End Ring.

(** Arithmetic on a ring: the cases of every distance, then [lia]. *)
Ltac ring_lia :=
  repeat match goal with
  | |- context [dist ?C ?a ?b] => learn_hyp (dist_cases C a b)
  | H : context [dist ?C ?a ?b] |- _ => learn_hyp (dist_cases C a b)
  | |- context [next ?C ?a] => learn_hyp (next_cases C a)
  | H : context [next ?C ?a] |- _ => learn_hyp (next_cases C a)
  end; lia.

Section RingFacts.
Context (C : Z).
Implicit Types a b h i j x : Z.

Lemma dist_range a b : 0 <= a < C -> 0 <= b < C -> 0 <= dist C a b < C.
Proof. intros. ring_lia. Qed.
Lemma dist_refl a : dist C a a = 0.
Proof. ring_lia. Qed.
Lemma dist_zero a b : 0 <= a < C -> 0 <= b < C -> dist C a b = 0 -> a = b.
Proof. intros. ring_lia. Qed.
Lemma next_range i : 0 <= i < C -> 0 <= next C i < C.
Proof. intros. ring_lia. Qed.
Lemma dist_next a i : 0 <= a < C -> 0 <= i < C -> next C i <> a -> dist C a (next C i) = dist C a i + 1.
Proof. intros. ring_lia. Qed.
Lemma dist_around a i : 0 <= a < C -> 0 <= i < C -> next C i = a -> dist C a i = C - 1.
Proof. intros. ring_lia. Qed.
Lemma dist_inj a i j : 0 <= a < C -> 0 <= i < C -> 0 <= j < C -> dist C a i = dist C a j -> i = j.
Proof. intros. ring_lia. Qed.
(** [x] between [a] and [i] splits the way from [a] to [i]. *)
Lemma dist_split a x i : 0 <= a < C -> 0 <= x < C -> 0 <= i < C ->
  dist C a x <= dist C a i -> dist C a i = dist C a x + dist C x i.
Proof. intros. ring_lia. Qed.
Lemma dist_between a x i : 0 <= a < C -> 0 <= x < C -> 0 <= i < C ->
  dist C x i <= dist C a i -> dist C a i = dist C a x + dist C x i.
Proof. intros. ring_lia. Qed.
End RingFacts.

(** ** Scanning a ring

    [upto h i P]: every cell from [h] on, before [i], satisfies [P]. *)
Section Scan.
Context (C : Z) (P : Z -> Prop).

Definition upto (h i : Z) : Prop := forall x, 0 <= x < C -> dist C h x < dist C h i -> P x.

Lemma upto_start h : 0 <= h < C -> upto h h.
Proof. intros Hh x Hx. rewrite dist_refl. pose proof (dist_range C h x Hh Hx). lia. Qed.

Lemma upto_next h i : 0 <= h < C -> 0 <= i < C -> upto h i -> P i -> next C i <> h -> upto h (next C i).
Proof.
  intros Hh Hi Hu HP Hne x Hx Hlt. rewrite dist_next in Hlt by done.
  destruct (decide (dist C h x = dist C h i)) as [E|]; [by apply dist_inj in E as ->|]. apply Hu; [done|lia].
Qed.

Lemma upto_around h i : 0 <= h < C -> 0 <= i < C -> upto h i -> P i -> next C i = h ->
  forall x, 0 <= x < C -> P x.
Proof.
  intros Hh Hi Hu HP E x Hx. pose proof (dist_around C h i Hh Hi E). pose proof (dist_range C h x Hh Hx).
  destruct (decide (dist C h x = dist C h i)) as [E'|]; [by apply dist_inj in E' as ->|]. apply Hu; [done|lia].
Qed.
End Scan.

(** ** Cells and entries *)
Section Cells.
Context {A : Type}.
Implicit Types (l : list (option A)) (a b : A) (i j : Z).

Definition cell l i : option A := zget l i ≫= id.
Definition upd l i (c : option A) : list (option A) := <[Z.to_nat i := c]> l.
Definition entries l : list A := omap id l.

Lemma cell_Some l i a : cell l i = Some a -> 0 <= i < zlen l.
Proof. unfold cell. destruct (zget l i) eqn:E; [|done]. intros _. by eapply zget_Some_lt. Qed.

Lemma zlen_upd l i c : zlen (upd l i c) = zlen l.
Proof. unfold zlen, upd. by rewrite length_insert. Qed.

Lemma cell_upd l i j c : 0 <= i < zlen l -> cell (upd l i c) j = if decide (j = i) then c else cell l j.
Proof.
  intros Hi. unfold cell, zget, upd, zlen in *. destruct (decide (j = i)) as [->|Hne].
  - destruct (Z.leb_spec 0 i); [|lia]. by rewrite list_lookup_insert_eq by lia.
  - destruct (Z.leb_spec 0 j); [|done]. by rewrite list_lookup_insert_ne by lia.
Qed.
Lemma cell_upd_eq l i c : 0 <= i < zlen l -> cell (upd l i c) i = c.
Proof. intros. rewrite cell_upd by done. by rewrite decide_True. Qed.
Lemma cell_upd_ne l i j c : 0 <= i < zlen l -> j <> i -> cell (upd l i c) j = cell l j.
Proof. intros. rewrite cell_upd by done. by rewrite decide_False. Qed.

(** A list around one of its cells. *)
Lemma cell_split l i : 0 <= i < zlen l ->
  exists l1 l2, l = l1 ++ cell l i :: l2 /\ (forall c, upd l i c = l1 ++ c :: l2) /\ zlen l1 = i.
Proof.
  intros Hi. exists (take (Z.to_nat i) l), (drop (S (Z.to_nat i)) l).
  assert (l !! Z.to_nat i = Some (cell l i)) as Hl.
  { destruct (zget_is_Some l i Hi) as [c Hc]. unfold cell. rewrite Hc. cbn.
    unfold zget in Hc. destruct (Z.leb_spec 0 i); [by rewrite Hc|lia]. }
  split; [by rewrite take_drop_middle|]. unfold upd. split.
  - intros c. apply insert_take_drop. by eapply lookup_lt_Some.
  - apply lookup_lt_Some in Hl. unfold zlen. rewrite length_take. lia.
Qed.

Lemma entries_app l1 l2 : entries (l1 ++ l2) = entries l1 ++ entries l2.
Proof. apply omap_app. Qed.

Lemma entries_add l i a : 0 <= i < zlen l -> cell l i = None -> entries (upd l i (Some a)) ≡ₚ a :: entries l.
Proof.
  intros Hi Hc. destruct (cell_split l i Hi) as (l1 & l2 & E & Hu & Hi'). rewrite Hu, E, Hc, !entries_app. cbn.
  solve_Permutation.
Qed.
Lemma entries_del l i a : cell l i = Some a -> entries l ≡ₚ a :: entries (upd l i None).
Proof.
  intros Hc. pose proof (cell_Some _ _ _ Hc) as Hi.
  destruct (cell_split l i Hi) as (l1 & l2 & E & Hu & Hi'). rewrite Hu. rewrite E at 1. rewrite Hc, !entries_app. cbn.
  solve_Permutation.
Qed.

Lemma elem_entries l a : a ∈ entries l <-> exists i, cell l i = Some a.
Proof.
  unfold entries. rewrite list_elem_of_omap. split.
  - intros (c & (n & Hn)%list_elem_of_lookup & Ec). exists (Z.of_nat n). unfold cell, zget.
    destruct (Z.leb_spec 0 (Z.of_nat n)); [|lia]. by rewrite Nat2Z.id, Hn.
  - intros [i Hc]. unfold cell in Hc. destruct (zget l i) as [c|] eqn:E; [|done]. exists c. split; [|done].
    unfold zget in E. destruct (Z.leb_spec 0 i); [|done]. by eapply list_elem_of_lookup_2.
Qed.

Lemma zlen_entries l : zlen (entries l) <= zlen l.
Proof.
  induction l as [|[a|] l IH]; [done| |]; unfold entries in *; cbn; rewrite ?zlen_cons; lia.
Qed.

Lemma entries_free l : zlen (entries l) < zlen l -> exists i, 0 <= i < zlen l /\ cell l i = None.
Proof.
  induction l as [|[a|] l IH]; unfold entries; cbn [omap list_omap id]; rewrite ?zlen_cons; [done| |].
  - intros Hl. destruct IH as (i & Hi & Hc); [unfold entries; lia|]. exists (i + 1). split; [lia|].
    rewrite <- Hc. unfold cell, zget. destruct (Z.leb_spec 0 (i + 1)), (Z.leb_spec 0 i); try lia.
    replace (Z.to_nat (i + 1)) with (S (Z.to_nat i)) by lia. done.
  - intros _. exists 0. pose proof (zlen_nonneg l). split; [lia|done].
Qed.

Lemma entries_inj {K} (key : A -> K) l i j a b :
  NoDup (key <$> entries l) -> cell l i = Some a -> cell l j = Some b -> key a = key b -> i = j.
Proof.
  intros Hnd Hi Hj Hk. destruct (decide (i = j)) as [|Hne]; [done|exfalso].
  pose proof (cell_Some _ _ _ Hi) as Hir.
  rewrite (entries_del l i a Hi), fmap_cons, NoDup_cons in Hnd. destruct Hnd as [Hn _]. apply Hn.
  rewrite Hk. apply list_elem_of_fmap_2, elem_entries. exists j. by rewrite cell_upd_ne by done.
Qed.

(** An occupied cell gets another entry. *)
Lemma entries_upd l i a b : cell l i = Some a ->
  entries l ≡ₚ a :: entries (upd l i None) /\ entries (upd l i (Some b)) ≡ₚ b :: entries (upd l i None).
Proof.
  intros Hc. split; [by apply entries_del|]. pose proof (cell_Some _ _ _ Hc) as Hi.
  rewrite <- (entries_add (upd l i None) i b); [unfold upd; by rewrite list_insert_insert_eq| |by apply cell_upd_eq].
  by rewrite zlen_upd.
Qed.

(** The entries of a prefix, one cell at a time. *)
Lemma entries_prefix l i : 0 <= i < zlen l ->
  entries (ztake (i + 1) l) = entries (ztake i l) ++ option_list (cell l i).
Proof.
  intros Hi. destruct (cell_split l i Hi) as (l1 & l2 & E & _ & Hl1).
  assert (ztake i l = l1) as -> by (rewrite E; by apply ztake_app_exact).
  assert (ztake (i + 1) l = l1 ++ [cell l i]) as ->.
  { transitivity (ztake (i + 1) ((l1 ++ [cell l i]) ++ l2)); [rewrite <- app_assoc; cbn [app]; by rewrite <- E|].
    apply ztake_app_exact. zlia. }
  rewrite entries_app. done.
Qed.
Lemma entries_prefix_lt l i a : cell l i = Some a -> zlen (entries (ztake i l)) < zlen (entries l).
Proof.
  intros Hc. pose proof (cell_Some _ _ _ Hc) as Hi. pose proof (entries_prefix l i Hi) as E. rewrite Hc in E.
  assert (entries l = entries (ztake (i + 1) l) ++ entries (zdrop (i + 1) l)) as -> by (by rewrite <- entries_app, ztake_zdrop).
  rewrite E, !zlen_app. change (option_list (Some a)) with [a]. zlia.
Qed.
Lemma entries_prefix_incl l i a : a ∈ entries (ztake i l) -> a ∈ entries l.
Proof. intros Ha. rewrite <- (ztake_zdrop i l), entries_app. set_solver. Qed.

Lemma entries_replicate n : entries (replicate n None) = [].
Proof. induction n as [|n IH]; [done|]. exact IH. Qed.
Lemma cell_replicate n i : cell (replicate n None) i = None.
Proof.
  unfold cell, zget. destruct (0 <=? i); [|done]. destruct (replicate n None !! Z.to_nat i) eqn:E; [|done].
  apply lookup_replicate in E as [-> _]. done.
Qed.
End Cells.

(** ** Probing *)
Section Probing.
Context {A : Type} (C : Z) (home : A -> Z).
Implicit Types (l : list (option A)) (a b : A) (h i j x : Z).

(** Every cell an entry's probe passes is occupied, and it stops within the
    span. *)
Record probed (span : Z) l : Prop := Probed {
  path_full : forall i a x, cell l i = Some a -> 0 <= x < C ->
    dist C (home a) x < dist C (home a) i -> is_Some (cell l x);
  span_bound : forall i a, cell l i = Some a -> dist C (home a) i < span;
}.

Lemma probed_nothing span l : entries l = [] -> probed span l.
Proof.
  intros E. assert (forall i a, cell l i <> Some a) as Hn.
  { intros i a Hc. assert (a ∈ entries l) as Hin by (apply elem_entries; by exists i).
    rewrite E in Hin. by apply not_elem_of_nil in Hin. }
  split; intros i a; [intros x|]; intros Hc; by apply Hn in Hc.
Qed.

Context (l : list (option A)) (Hlen : zlen l = C).
Hypothesis Hhome : forall i a, cell l i = Some a -> 0 <= home a < C.

Lemma probed_wider span span' : probed span l -> span <= span' -> probed span' l.
Proof. intros [Hp Hs] Hle. split; [done|]. intros i a Hc. specialize (Hs i a Hc). lia. Qed.

(** A free cell whose probe path is full takes the entry. *)
Lemma probed_add span i a : probed span l -> cell l i = None -> 0 <= i < C ->
  (forall x, 0 <= x < C -> dist C (home a) x < dist C (home a) i -> is_Some (cell l x)) ->
  dist C (home a) i < span -> probed span (upd l i (Some a)).
Proof.
  intros [Hp Hs] Hc Hi Hpath Hd.
  assert (forall x, is_Some (cell l x) -> is_Some (cell (upd l i (Some a)) x)) as Hmono.
  { intros x Hx. rewrite cell_upd by lia. by case_decide. }
  split; intros j b; rewrite cell_upd by lia; case_decide; simplify_eq.
  - intros x [= ->] Hx Hlt. apply Hmono. by apply Hpath.
  - intros x Hb Hx Hlt. apply Hmono. by eapply Hp.
  - by intros [= ->].
  - apply Hs.
Qed.

(** An entry is replaced by one with the same home. *)
Lemma probed_upd span i a b : probed span l -> cell l i = Some a -> home b = home a ->
  probed span (upd l i (Some b)).
Proof.
  intros [Hp Hs] Hc E. pose proof (cell_Some _ _ _ Hc) as Hi.
  assert (forall j d, cell (upd l i (Some b)) j = Some d -> exists d', cell l j = Some d' /\ home d' = home d) as Hback.
  { intros j d. rewrite cell_upd by lia. case_decide; [|by eexists]. intros [= <-]. subst. by exists a. }
  split; intros j d; [intros x|]; intros Hd; destruct (Hback j d Hd) as (d' & Hd' & <-).
  - intros Hx Hlt. rewrite cell_upd by lia. case_decide; [done|]. by eapply Hp.
  - by eapply Hs.
Qed.

(** An entry found at the end of a full path is not behind a free cell. *)
Lemma probed_reaches span i a x : probed span l -> cell l i = Some a -> 0 <= x < C ->
  cell l x = None -> dist C (home a) i <= dist C (home a) x.
Proof.
  intros [Hp _] Hc Hx Hn. destruct (Z_le_gt_dec (dist C (home a) i) (dist C (home a) x)); [done|].
  destruct (Hp i a x Hc Hx ltac:(lia)) as [b Hb]. congruence.
Qed.

(** ** The backward shift

    The hole is [h] and the walk has reached [j]: the cells after the hole up
    to [j] are occupied by entries whose probes don't pass the hole, and the
    hole is the only free cell a probe may pass. *)
Record shifting (span h j : Z) l : Prop := Shifting {
  sh_range : 0 <= h < C /\ 0 <= j < C;
  sh_hole : cell l h = None;
  sh_run : forall x, 0 <= x < C -> 0 < dist C h x <= dist C h j -> is_Some (cell l x);
  sh_path : forall i a x, cell l i = Some a -> 0 <= x < C ->
    dist C (home a) x < dist C (home a) i -> is_Some (cell l x) \/ x = h;
  sh_done : forall i a, cell l i = Some a -> 0 < dist C h i <= dist C h j -> dist C (home a) i < dist C h i;
  sh_span : forall i a, cell l i = Some a -> dist C (home a) i < span;
}.

Lemma shift_start span i a : probed span l -> cell l i = Some a -> shifting span i i (upd l i None).
Proof.
  intros [Hp Hs] Hc. pose proof (cell_Some _ _ _ Hc) as Hi. rewrite Hlen in Hi.
  split; [done|by rewrite cell_upd_eq by lia| | | |].
  - intros x Hx. rewrite dist_refl. lia.
  - intros j b x Hb Hx Hlt. rewrite cell_upd in Hb |- * by lia. case_decide; [done|].
    case_decide; [by right|]. left. by eapply Hp.
  - intros j b Hb. rewrite dist_refl. lia.
  - intros j b Hb. rewrite cell_upd in Hb by lia. case_decide; [done|]. by eapply Hs.
Qed.

(** An entry whose probe passes the hole lies beyond the cells done with. *)
Lemma past_hole span h j i a : shifting span h j l -> cell l i = Some a ->
  dist C (home a) h < dist C (home a) i ->
  dist C h j < dist C h i /\ dist C (home a) i = dist C (home a) h + dist C h i.
Proof.
  intros [[Hh Hj] Hhole _ _ Hdone _] Hc Hlt. pose proof (cell_Some _ _ _ Hc) as Hi. rewrite Hlen in Hi.
  pose proof (Hhome i a Hc) as Ha. pose proof (dist_split C (home a) h i Ha Hh Hi ltac:(lia)) as E.
  split; [|done]. destruct (Z_lt_le_dec (dist C h j) (dist C h i)) as [|Hle]; [done|].
  assert (i <> h) as Hne by (intros ->; congruence).
  assert (dist C h i <> 0) by (intros E0; apply Hne; symmetry; by eapply dist_zero).
  pose proof (dist_range C h i Hh Hi). pose proof (Hdone i a Hc ltac:(lia)).
  pose proof (dist_range C (home a) h Ha Hh). lia.
Qed.

Lemma shift_closed span h j : shifting span h j l ->
  (cell l (next C j) = None \/ span <= dist C h (next C j)) -> probed span l.
Proof.
  intros Hsh Hstop. pose proof Hsh as [[Hh Hj] Hhole Hrun Hpath Hdone Hspan]. split; [|done].
  intros i a x Hc Hx Hlt. destruct (Hpath i a x Hc Hx Hlt) as [| ->]; [done|exfalso].
  pose proof (cell_Some _ _ _ Hc) as Hi. rewrite Hlen in Hi. pose proof (Hhome i a Hc) as Ha.
  destruct (past_hole span h j i a Hsh Hc Hlt) as [Hfar E].
  pose proof (next_range C j Hj) as Hn.
  destruct (decide (next C j = h)) as [Eh|Hne].
  { pose proof (dist_around C h j Hh Hj Eh). pose proof (dist_range C h i Hh Hi). lia. }
  pose proof (dist_next C h j Hh Hj Hne) as En.
  destruct Hstop as [Hnone|Hfull].
  - assert (dist C (home a) (next C j) < dist C (home a) i) as Hlt'.
    { assert (i <> next C j) as Hin by (intros ->; congruence).
      assert (dist C h i <> dist C h (next C j)) by (intros E'; by apply Hin, (dist_inj C h)).
      pose proof (dist_split C h (next C j) i Hh Hn Hi ltac:(lia)). ring_lia. }
    destruct (Hpath i a (next C j) Hc Hn Hlt') as [[b Hb]|]; congruence.
  - specialize (Hspan i a Hc). pose proof (dist_range C (home a) h Ha Hh). lia.
Qed.

Lemma shift_skip span h j a : shifting span h j l -> cell l (next C j) = Some a ->
  dist C (home a) (next C j) < dist C h (next C j) -> shifting span h (next C j) l.
Proof.
  intros [[Hh Hj] Hhole Hrun Hpath Hdone Hspan] Hc Hlt. pose proof (next_range C j Hj) as Hn.
  assert (next C j <> h) as Hne by (intros E; congruence).
  pose proof (dist_next C h j Hh Hj Hne) as En.
  assert (forall i, 0 <= i < C -> dist C h i <= dist C h (next C j) -> i = next C j \/ dist C h i <= dist C h j) as Hlast.
  { intros i Hi Hle. destruct (decide (dist C h i = dist C h (next C j))) as [E|]; [left; by apply (dist_inj C h)|right; lia]. }
  split; [done|done| |done| |done].
  - intros x Hx [H0 Hle]. destruct (Hlast x Hx Hle) as [->|]; [by exists a|]. apply Hrun; [done|lia].
  - intros i b Hb [H0 Hle]. pose proof (cell_Some _ _ _ Hb) as Hi. rewrite Hlen in Hi.
    destruct (Hlast i Hi Hle) as [->|]; [by simplify_eq|]. apply Hdone; [done|lia].
Qed.

Lemma shift_move span h j a : shifting span h j l -> cell l (next C j) = Some a ->
  dist C h (next C j) <= dist C (home a) (next C j) ->
  shifting span (next C j) (next C j) (upd (upd l h (Some a)) (next C j) None).
Proof.
  intros [[Hh Hj] Hhole Hrun Hpath Hdone Hspan] Hc Hle. pose proof (next_range C j Hj) as Hn.
  set (n := next C j) in *. assert (n <> h) as Hne by (intros E; congruence).
  pose proof (Hhome _ _ Hc) as Ha. pose proof (dist_between C (home a) h n Ha Hh Hn Hle) as E.
  pose proof (dist_range C h n Hh Hn) as Hr. assert (dist C h n <> 0) as H0 by (intros E0; apply Hne; symmetry; by eapply dist_zero).
  assert (forall i, cell (upd (upd l h (Some a)) n None) i =
    if decide (i = n) then None else if decide (i = h) then Some a else cell l i) as Hcell.
  { intros i. rewrite !cell_upd by (rewrite ?zlen_upd; lia). done. }
  split; [done|by rewrite Hcell, decide_True| | | |].
  - intros x Hx. rewrite dist_refl. lia.
  - intros i b x Hb Hx Hlt. rewrite Hcell in Hb |- *. destruct (decide (x = n)); [by right|]. left.
    destruct (decide (x = h)); [done|]. destruct (decide (i = n)); [done|].
    destruct (decide (i = h)) as [->|].
    + injection Hb as <-. destruct (Hpath n a x Hc Hx ltac:(lia)); [done|congruence].
    + destruct (Hpath i b x Hb Hx Hlt); [done|congruence].
  - intros i b Hb. rewrite dist_refl. lia.
  - intros i b Hb. rewrite Hcell in Hb. destruct (decide (i = n)); [done|].
    destruct (decide (i = h)) as [->|]; [|by apply Hspan]. injection Hb as <-.
    specialize (Hspan n a Hc). lia.
Qed.

Lemma entries_move h n a : 0 <= h < C -> cell l h = None -> cell l n = Some a ->
  entries (upd (upd l h (Some a)) n None) ≡ₚ entries l.
Proof.
  intros Hh Hn Hc. assert (n <> h) by congruence. apply (Permutation_cons_inv (a := a)).
  rewrite <- (entries_del (upd l h (Some a)) n a) by (rewrite cell_upd_ne by lia; done).
  apply entries_add; [lia|done].
Qed.
End Probing.

(** ** The measure of a backward shift: the displacements of all entries *)
Section Displacement.
Context {A : Type} (C : Z) (home : A -> Z).

Definition disp (i : Z) (c : option A) : Z := from_option (fun a => dist C (home a) i) 0 c.

Fixpoint disp_from (k : Z) (l : list (option A)) : Z :=
  match l with [] => 0 | c :: l => disp k c + disp_from (k + 1) l end.

Definition displacement (l : list (option A)) : Z := disp_from 0 l.

Lemma disp_from_app k l1 l2 : disp_from k (l1 ++ l2) = disp_from k l1 + disp_from (k + zlen l1) l2.
Proof.
  revert k. induction l1 as [|c l1 IH]; intros k; cbn [disp_from app].
  - replace (k + zlen (@nil (option A))) with k by zlia. lia.
  - rewrite IH, zlen_cons. replace (k + 1 + zlen l1) with (k + (1 + zlen l1)) by lia. lia.
Qed.

Lemma displacement_upd l i c : 0 <= i < zlen l ->
  displacement (upd l i c) = displacement l - disp i (cell l i) + disp i c.
Proof.
  intros Hi. destruct (cell_split l i Hi) as (l1 & l2 & E & Hu & Hi').
  unfold displacement. rewrite Hu. assert (disp_from 0 l = disp_from 0 (l1 ++ cell l i :: l2)) as -> by (f_equal; exact E).
  rewrite !disp_from_app. cbn [disp_from].
  replace (0 + zlen l1) with i by lia. lia.
Qed.

Lemma displacement_bound l : (forall i a, cell l i = Some a -> 0 <= home a < C) -> zlen l = C ->
  0 <= displacement l <= C * C.
Proof.
  intros Hhome Hl. assert (forall l1 l2, l = l1 ++ l2 -> 0 <= disp_from (zlen l1) l2 <= zlen l2 * C) as H.
  { intros l1 l2. revert l1. induction l2 as [|c l2 IH]; intros l1 E; cbn [disp_from]; [zlia|].
    specialize (IH (l1 ++ [c])). rewrite <- app_assoc in IH. specialize (IH E).
    replace (zlen (l1 ++ [c])) with (zlen l1 + 1) in IH by zlia. rewrite zlen_cons.
    assert (0 <= disp (zlen l1) c <= C); [|lia]. destruct c as [a|]; cbn; [|zlia].
    assert (cell l (zlen l1) = Some a) as Hc.
    { unfold cell. by rewrite E, (zget_mid l1 (Some a) l2 _ (zlen l1)). }
    pose proof (cell_Some _ _ _ Hc). pose proof (dist_range C (home a) (zlen l1)). specialize (Hhome _ _ Hc). lia. }
  specialize (H [] l eq_refl). rewrite Hl in H. exact H.
Qed.

End Displacement.
