(* ===== verification/COaMap.v ===== *)
(** * The open-addressing backend of the hash map ([src/chashmap.c])

    A power-of-two array of slots with linear probing, one metadata byte per
    slot and no tombstones: a delete shifts the entries behind it backward.
    Lookups stop after [probe_span] steps.  A map hashes with an unkeyed
    multiplication until its inserts get too long, and with the secret of the
    process from then on. *)
From S2P Require Import Prelude Memory Values Common CHash.

Module COaMap.
Section COaMap.
Context {alloc : Allocator} (secret : chmap_hash_secret).

(** ** State

    A [uint64_t] of a slot is the list of its eight bytes, the lowest first.
    The slots and the metadata share one block; [blk] is its identifier. *)
Record oa_slot := OaSlot { key_data : list Z; val_data : list Z }.

Record oa_block := OaBlock { blk : nat; slots : list oa_slot; metadata : list Z }.

Definition SLOT_OCCUPIED : Z := 1.

Inductive chmap_hash_mode := CHMAP_HASH_FAST | CHMAP_HASH_KEYED.

Record open_addr_map := OpenAddrMap {
  table : oa_block;
  capacity : Z;
  probe_span : Z;
  count : Z;
  custom_hashing_proc : option (list Z -> Z);
  key_type : ccol_data_type;
  val_type : ccol_data_type;
  key_size : Z;
  val_size : Z;
  (* of the enclosing [struct chashmap], reached through [chmap_of_oa] *)
  hash_mode : chmap_hash_mode;
  window_bound : Z;
  insert_window : Z;
}.

(** A pair whose pointer the caller has checked. *)
Record cmap_pair := CmapPair { pair_ptr : ptr; pair_size : Z }.

Definition set_table (map : open_addr_map) (t : oa_block) : open_addr_map :=
  OpenAddrMap t (capacity map) (probe_span map) (count map) (custom_hashing_proc map) (key_type map)
    (val_type map) (key_size map) (val_size map) (hash_mode map) (window_bound map) (insert_window map).
Definition set_capacity (map : open_addr_map) (c : Z) : open_addr_map :=
  OpenAddrMap (table map) c (probe_span map) (count map) (custom_hashing_proc map) (key_type map)
    (val_type map) (key_size map) (val_size map) (hash_mode map) (window_bound map) (insert_window map).
Definition set_span (map : open_addr_map) (s : Z) : open_addr_map :=
  OpenAddrMap (table map) (capacity map) s (count map) (custom_hashing_proc map) (key_type map)
    (val_type map) (key_size map) (val_size map) (hash_mode map) (window_bound map) (insert_window map).
Definition set_count (map : open_addr_map) (n : Z) : open_addr_map :=
  OpenAddrMap (table map) (capacity map) (probe_span map) n (custom_hashing_proc map) (key_type map)
    (val_type map) (key_size map) (val_size map) (hash_mode map) (window_bound map) (insert_window map).
Definition set_mode (map : open_addr_map) (mode : chmap_hash_mode) : open_addr_map :=
  OpenAddrMap (table map) (capacity map) (probe_span map) (count map) (custom_hashing_proc map) (key_type map)
    (val_type map) (key_size map) (val_size map) mode (window_bound map) (insert_window map).
Definition set_window (map : open_addr_map) (bound win : Z) : open_addr_map :=
  OpenAddrMap (table map) (capacity map) (probe_span map) (count map) (custom_hashing_proc map) (key_type map)
    (val_type map) (key_size map) (val_size map) (hash_mode map) bound win.

Definition oa_keyed (map : open_addr_map) : bool :=
  match hash_mode map with CHMAP_HASH_KEYED => true | CHMAP_HASH_FAST => false end.

(** ** The keys and values the backend holds *)
Definition is_type_integral (type : ccol_data_type) : bool :=
  match type with
  | ccol_char | ccol_signed_char | ccol_short | ccol_int | ccol_long | ccol_long_long
  | ccol_unsigned_char | ccol_unsigned_short | ccol_unsigned_int | ccol_unsigned_long
  | ccol_unsigned_long_long | ccol_float | ccol_double | ccol_pointer => true
  | _ => false
  end.

Definition get_type_size (type : ccol_data_type) : Z :=
  match type with
  | ccol_char | ccol_signed_char | ccol_unsigned_char => 1
  | ccol_short | ccol_unsigned_short => 2
  | ccol_int | ccol_unsigned_int => 4
  | ccol_long | ccol_unsigned_long => 8
  | ccol_long_long | ccol_unsigned_long_long => 8
  | ccol_pointer => 8
  | ccol_float => 4
  | ccol_double => 8
  | ccol_long_double => 16
  | _ => 8
  end.

Definition should_use_open_addressing (key_type val_type : ccol_data_type) : bool :=
  is_type_integral key_type && is_type_integral val_type &&
  (get_type_size key_type <=? 8) && (get_type_size val_type <=? 8).

(** ** The block *)
Definition occupied (t : oa_block) (i : Z) : M bool :=
  b ← ub (zget (metadata t) i); mret (negb (Z.land b SLOT_OCCUPIED =? 0)).

Definition slot_at (t : oa_block) (i : Z) : M oa_slot := ub (zget (slots t) i).

Definition set_slot (t : oa_block) (i : Z) (s : oa_slot) : M oa_block :=
  l ← ub (zset (slots t) i s); mret (OaBlock (blk t) l (metadata t)).

Definition set_meta (t : oa_block) (i b : Z) : M oa_block :=
  l ← ub (zset (metadata t) i b); mret (OaBlock (blk t) (slots t) l).

Definition OA_BLOCK_BYTES_PER_SLOT : Z := 17.

(** The bytes of the block, which the pointers the map hands out point into. *)
Definition slot_bytes (s : oa_slot) : list Z := key_data s ++ val_data s.
Definition block_of (t : oa_block) : block :=
  Block (blk t) (concat (slot_bytes <$> slots t) ++ metadata t).
Definition key_offset (i : Z) : Z := 16 * i.
Definition val_offset (i : Z) : Z := 16 * i + 8.

Definition slots_of_bytes (n : nat) (bytes : list Z) : list oa_slot :=
  (fun s => OaSlot (ztake 8 s) (zdrop 8 s)) <$> chunks 16 n bytes.

Definition oa_alloc_block (capacity : Z) : M (option oa_block) :=
  if (capacity =? 0) || (capacity >? SIZE_MAX `div` OA_BLOCK_BYTES_PER_SLOT) then mret None else
  b ← _ccol_mem_calloc 1 (capacity ⊗ OA_BLOCK_BYTES_PER_SLOT);
  mret (match b with
  | None => None
  | Some b => Some (OaBlock (b_id b) (slots_of_bytes (Z.to_nat capacity) (b_bytes b))
                            (zdrop (16 * capacity) (b_bytes b)))
  end).

(** [memset(block, 0, capacity * OA_BLOCK_BYTES_PER_SLOT)]. *)
Definition clear_block (t : oa_block) (capacity : Z) : oa_block :=
  OaBlock (blk t) (replicate (Z.to_nat capacity) (OaSlot (replicate 8 0) (replicate 8 0)))
          (replicate (Z.to_nat capacity) 0).

(** [memcpy(out, p, n)]: the bytes a pointer reads, in the caller's memory or
    in the block of the map. *)
Definition read_ptr (t : oa_block) (p : ptr) (n : Z) : M (list Z) := ub (ptr_bytes (block_of t) p n).

Definition ranges_overlap (t : oa_block) (a : ptr) (a_size b_off b_size : Z) : bool :=
  if (a_size =? 0) || (b_size =? 0) then false else
  match a with
  | Foreign _ => false
  | At b off => bool_decide (b = blk t) && (off <? b_off + b_size) && (b_off <? off + a_size)
  end.

(** [memcpy(&slots[i].key_data, p, n)] and the same for [val_data]. *)
Definition copy_to_key (t : oa_block) (i : Z) (p : ptr) (n : Z) : M oa_block :=
  if ranges_overlap t p n (key_offset i) n then undefined else
  bytes ← read_ptr t p n;
  s ← slot_at t i;
  kd ← memcpy_in (key_data s) 0 bytes;
  set_slot t i (OaSlot kd (val_data s)).

Definition copy_to_val (t : oa_block) (i : Z) (p : ptr) (n : Z) : M oa_block :=
  if ranges_overlap t p n (val_offset i) n then undefined else
  bytes ← read_ptr t p n;
  s ← slot_at t i;
  vd ← memcpy_in (val_data s) 0 bytes;
  set_slot t i (OaSlot (key_data s) vd).

(** ** Helpers *)
Definition builtin_ctzll (x : Z) : Z := Z.log2 (Z.land x (- x)).

Definition chmap_log2_pow2 (capacity : Z) : Z := builtin_ctzll capacity.

Definition chmap_load_q16 (count capacity : Z) : Z :=
  let k := chmap_log2_pow2 capacity in
  if k >=? 16 then Z.shiftr count (k - 16) else wrap (Z.shiftl count (16 - k)).

Definition two32 : Z := 4294967296.
Definition UINT16_MAX : Z := 65535.
Definition CHMAP_WINDOW_START : Z := 0x80000000.
Definition CHMAP_WINDOW_STEP : Z := 0x00800000.
Definition CHMAP_WINDOW_INSERTS : Z := 256.
Definition OA_DEEP_INSERT : Z := 32.
Definition OA_CAP_PER_DOUBLING : Z := 24.
Definition OA_CAP_LOG2_CEILING : Z := 12.
Definition OA_ATTEMPT_SLACK : Z := 64.
Definition minimum_allowed_bucket_array_size : Z := 16.

Definition chmap_window_add (map : open_addr_map) (walk : Z) : bool * open_addr_map :=
  let addend := (CHMAP_WINDOW_STEP + walk `mod` two32) `mod` two32 in
  let sum := insert_window map + addend in
  (two32 <=? sum, set_window map (window_bound map) (sum `mod` two32)).

Definition oa_widen_key (t : oa_block) (key_ptr : ptr) (key_size : Z) : M (list Z) :=
  bytes ← read_ptr t key_ptr (if key_size >? 8 then 8 else key_size);
  memcpy_in (replicate 8 0) 0 bytes.

Definition oa_keys_equal (slot : oa_slot) (probe_key : list Z) : bool := bool_decide (key_data slot = probe_key).

Definition oa_fill_val_pair (map : open_addr_map) (index : Z) : cmap_pair :=
  CmapPair (At (blk (table map)) (val_offset index)) (val_size map).

Definition oa_min_probe_span (capacity : Z) : Z :=
  if capacity <? OA_DEEP_INSERT then capacity else OA_DEEP_INSERT.

Definition oa_insert_cap (capacity : Z) : Z :=
  let k := chmap_log2_pow2 capacity in
  OA_CAP_PER_DOUBLING ⊗ (if k <? OA_CAP_LOG2_CEILING then k else OA_CAP_LOG2_CEILING).

Definition oa_max_count (capacity : Z) : Z :=
  (capacity `div` 10) ⊗ 7 ⊕ ((capacity `mod` 10) ⊗ 7) `div` 10 ⊕ 1.

Definition oa_window_bound (start_count capacity : Z) : Z :=
  let limit := oa_max_count capacity in
  let judged :=
    if (start_count <? limit) && (limit ⊖ start_count >? CHMAP_WINDOW_INSERTS)
    then start_count ⊕ CHMAP_WINDOW_INSERTS else limit in
  let a := chmap_load_q16 judged capacity in
  let a := if a >? 65535 then 65535 else a in
  let d := 65536 ⊖ a in
  let d2 := d ⊗ d in
  let mul := if capacity >=? 4096 then 640 else 768 in
  let bound := (mul ⊗ (Z.shiftl 1 32 ⊖ d2)) `div` d2 ⊕ 128 in
  if bound >? UINT16_MAX then UINT16_MAX else bound.

Definition oa_window_restart (map : open_addr_map) : open_addr_map :=
  set_window map
    (match hash_mode map with
     | CHMAP_HASH_KEYED => UINT16_MAX
     | CHMAP_HASH_FAST => oa_window_bound (count map) (capacity map)
     end) CHMAP_WINDOW_START.

Definition oa_init (capacity : Z) (key_type val_type : ccol_data_type) (key_size val_size : Z)
    (custom_hashing_proc : option (list Z -> Z)) (mode : chmap_hash_mode) (bound win : Z)
    : M (option open_addr_map) :=
  t ← oa_alloc_block capacity;
  mret (match t with
  | None => None
  | Some t =>
      Some (OpenAddrMap t capacity (oa_min_probe_span capacity) 0 custom_hashing_proc
              key_type val_type key_size val_size mode bound win)
  end).

(** [hash_key_data] of [n] bytes at a key of the map. *)
Definition map_hash (map : open_addr_map) (key : list Z) (n : Z) (keyed : bool) : M Z :=
  ub (hash_key_data secret key n (key_type map) (custom_hashing_proc map) keyed (int_seed secret)).

Definition next_index (index capacity : Z) : Z := Z.land (index ⊕ 1) (capacity ⊖ 1).
Definition displacement_from (index home capacity : Z) : Z := Z.land (index ⊖ home) (capacity ⊖ 1).

(** The walk from [index] to the first free slot. *)
Definition first_free (fuel : nat) (t : oa_block) (index capacity : Z) : M Z :=
  loop fuel (fun index =>
    occ ← occupied t index;
    mret (if (occ : bool) then inl (next_index index capacity) else inr index)) index.

(** ** Rebuilding *)
Definition place (map : open_addr_map) (new_capacity : Z) (old : oa_block) (keyed : bool)
    (i : Z) (st : oa_block * Z) : M (oa_block * Z) :=
  let '(new, largest) := st in
  occ ← occupied old i;
  if negb (occ : bool) then mret (new, largest) else
  s ← slot_at old i;
  hash_val ← map_hash map (key_data s) (key_size map) keyed;
  let home := hash_index_for hash_val new_capacity in
  index ← first_free (S (Z.to_nat new_capacity)) new home new_capacity;
  new ← set_slot new index s;
  new ← set_meta new index SLOT_OCCUPIED;
  let displacement := displacement_from index home new_capacity in
  mret (new, if displacement >? largest then displacement else largest).

Definition oa_place_all (map : open_addr_map) (new : oa_block) (new_capacity : Z) (old : oa_block)
    (old_capacity : Z) (keyed : bool) : M (oa_block * Z) :=
  '(_, new, largest) ← while (S (Z.to_nat old_capacity))
    (fun '(i, new, largest) => i <? old_capacity)
    (fun '(i, new, largest) =>
       '(new, largest) ← place map new_capacity old keyed i (new, largest);
       mret (i ⊕ 1, new, largest))
    (0, new, 0);
  mret (new, largest).

(** The walk that gives up after [cap] steps. *)
Definition first_free_within (fuel : nat) (t : oa_block) (index new_capacity cap : Z) : M (option (Z * Z)) :=
  loop fuel (fun '(index, displacement) =>
    occ ← occupied t index;
    mret (if negb (occ : bool) then inr (Some (index, displacement))
          else if displacement =? cap then inr None
          else inl (next_index index new_capacity, displacement ⊕ 1))) (index, 0).

(** [None] stands for [SIZE_MAX]. *)
Definition oa_place_all_fast_attempt (map : open_addr_map) (new : oa_block) (new_capacity : Z)
    : M (oa_block * Z) :=
  let cap := oa_insert_cap new_capacity in
  let budget := count map ⊕ OA_ATTEMPT_SLACK in
  let old := table map in
  loop (S (Z.to_nat (capacity map))) (fun '(i, new, largest, sum) =>
    if negb (i <? capacity map) then mret (inr (new, largest)) else
    occ ← occupied old i;
    if negb (occ : bool) then mret (inl (i ⊕ 1, new, largest, sum)) else
    s ← slot_at old i;
    hash_val ← ub (hash_key_data secret (key_data s) (key_size map) (key_type map)
                     (custom_hashing_proc map) false 0);
    found ← first_free_within (S (Z.to_nat new_capacity)) new (hash_index_for hash_val new_capacity)
              new_capacity cap;
    match found with
    | None => mret (inr (new, SIZE_MAX))
    | Some (index, displacement) =>
        new ← set_slot new index s;
        new ← set_meta new index SLOT_OCCUPIED;
        let largest := if displacement >? largest then displacement else largest in
        let sum := sum ⊕ displacement in
        if sum >? budget then mret (inr (new, SIZE_MAX))
        else mret (inl (i ⊕ 1, new, largest, sum))
    end) (0, new, 0, 0).

Definition oa_rebuild (map : open_addr_map) (new_capacity : Z) (keyed : bool)
    : M (ccol_retval_t * open_addr_map) :=
  new ← oa_alloc_block new_capacity;
  match new with
  | None => mret (ccol_not_enough_memory, map)
  | Some new =>
      '(new, largest) ←
        (if negb keyed && oa_keyed map then oa_place_all_fast_attempt map new new_capacity
         else oa_place_all map new new_capacity (table map) (capacity map) keyed);
      '(new, largest, keyed) ←
        (if negb keyed && (largest >? oa_insert_cap new_capacity) then
           '(new, largest) ← oa_place_all map (clear_block new new_capacity) new_capacity
                               (table map) (capacity map) true;
           mret (new, largest, true)
         else mret (new, largest, keyed));
      _ccol_mem_free (blk (table map));;
      let map := set_capacity (set_table map new) new_capacity in
      let span := oa_min_probe_span new_capacity in
      let map := set_span map (if largest ⊕ 1 >? span then largest ⊕ 1 else span) in
      let map := set_mode map (if (keyed : bool) then CHMAP_HASH_KEYED else CHMAP_HASH_FAST) in
      mret (ccol_success, oa_window_restart map)
  end.

Definition _ccol_max_power_of_two_size_t : Z := 9223372036854775808.

Definition oa_rehash_capacity_for (live_after_insert : Z) : Z :=
  if live_after_insert >? _ccol_max_power_of_two_size_t `div` 2 then _ccol_max_power_of_two_size_t else
  let wanted := Pow2._ccol_find_nearest_gte_power_of_two (2 ⊗ live_after_insert) in
  if wanted <? minimum_allowed_bucket_array_size then minimum_allowed_bucket_array_size else wanted.

Definition oa_above_grow_load (count capacity : Z) : bool :=
  if capacity <=? SIZE_MAX `div` 10 then count ⊗ 10 >? capacity ⊗ 7
  else count >? (capacity `div` 10) ⊗ 7 ⊕ ((capacity `mod` 10) ⊗ 7) `div` 10.

(** ** Inserting *)
Definition oa_find_insertion_slot (map : open_addr_map) (hash_val : Z) : M Z :=
  let start_index := hash_index_for hash_val (capacity map) in
  loop (S (Z.to_nat (capacity map))) (fun index =>
    occ ← occupied (table map) index;
    if negb (occ : bool) then mret (inr index) else
    let index := next_index index (capacity map) in
    mret (if index =? start_index then inr (capacity map) else inl index)) start_index.

(** The key is copied into a zeroed buffer of 16 bytes. *)
Definition key_buffer (word : list Z) : list Z := word ++ replicate 8 0.

Definition oa_find_stored_key (map : open_addr_map) (key : list Z) : M Z :=
  hash_val ← map_hash map (key_buffer key) (key_size map) (oa_keyed map);
  let index := hash_index_for hash_val (capacity map) in
  loop (S (Z.to_nat (probe_span map))) (fun '(index, left_) =>
    if left_ =? 0 then _ccol_assert false;; mret (inr index) else
    occ ← occupied (table map) index;
    same ← (if (occ : bool) then s ← slot_at (table map) index; mret (oa_keys_equal s key) else mret false);
    mret (if (same : bool) then inr index else inl (next_index index (capacity map), left_ ⊖ 1)))
    (index, probe_span map).

Definition oa_switch_keeping (map : open_addr_map) (index : Z) : M (Z * open_addr_map) :=
  s ← slot_at (table map) index;
  let key := key_data s in
  '(r, map) ← oa_rebuild map (capacity map) true;
  if negb (bool_decide (r = ccol_success)) then mret (index, map) else
  index ← oa_find_stored_key map key;
  mret (index, map).

Definition oa_note_deep_insert (map : open_addr_map) (index displacement : Z) : M (Z * open_addr_map) :=
  let map := if displacement >=? probe_span map then set_span map (displacement ⊕ 1) else map in
  if negb (oa_keyed map) && (displacement >? oa_insert_cap (capacity map))
  then oa_switch_keeping map index else mret (index, map).

Definition oa_window_end (map : open_addr_map) (index : Z) : M (Z * open_addr_map) :=
  let switch_now := negb (oa_keyed map) && (insert_window map >? window_bound map) in
  let map := oa_window_restart map in
  if switch_now then oa_switch_keeping map index else mret (index, map).

(** What both insertions do once the new slot is filled: the count, the
    judgement of the length of the walk, and the slot handed out. *)
Definition entry_added (map : open_addr_map) (index home : Z) (slot_out : bool)
    : M (ccol_retval_t * option cmap_pair * open_addr_map) :=
  let map := set_count map (count map ⊕ 1) in
  let displacement := displacement_from index home (capacity map) in
  '(index, map) ← (if displacement >=? OA_DEEP_INSERT then oa_note_deep_insert map index displacement
                    else mret (index, map));
  let '(ended, map) := chmap_window_add map displacement in
  '(index, map) ← (if (ended : bool) then oa_window_end map index else mret (index, map));
  mret (ccol_success, if slot_out then Some (oa_fill_val_pair map index) else None, map).

Definition oa_insert_with_growth (map : open_addr_map) (key_pair val_pair : cmap_pair) (slot_out : bool)
    (index home : Z) (found_empty : bool) : M (ccol_retval_t * option cmap_pair * open_addr_map) :=
  key_bytes ← read_ptr (table map) (pair_ptr key_pair) (pair_size key_pair);
  val_bytes ← read_ptr (table map) (pair_ptr val_pair) (pair_size val_pair);
  key_copy ← memcpy_in (replicate 8 0) 0 key_bytes;
  val_copy ← memcpy_in (replicate 8 0) 0 val_bytes;
  let fill map index home :=
    t ← set_slot (table map) index (OaSlot key_copy val_copy);
    t ← set_meta t index SLOT_OCCUPIED;
    entry_added (set_table map t) index home slot_out in
  '(r, map) ← oa_rebuild map (oa_rehash_capacity_for (count map ⊕ 1)) false;
  if bool_decide (r = ccol_success) then
    hash_val ← map_hash map (key_buffer key_copy) (pair_size key_pair) (oa_keyed map);
    let home := hash_index_for hash_val (capacity map) in
    index ← oa_find_insertion_slot map hash_val;
    if index >=? capacity map then mret (ccol_container_full, None, map) else
    fill map index home
  else if negb found_empty then mret (ccol_not_enough_memory, None, map)
  else fill map index home.

(** Where the probe of an insertion ends: at a free slot, at the key, or back
    where it started. *)
Inductive probe_end := FreeAt (index : Z) | KeyAt (index : Z) | Around (index : Z).

Definition probe_for (fuel : nat) (t : oa_block) (probe_key : list Z) (start_index capacity : Z) : M probe_end :=
  loop fuel (fun index =>
    occ ← occupied t index;
    if negb (occ : bool) then mret (inr (FreeAt index)) else
    s ← slot_at t index;
    if oa_keys_equal s probe_key then mret (inr (KeyAt index)) else
    let index := next_index index capacity in
    mret (if index =? start_index then inr (Around index) else inl index)) start_index.

(** The key is already in the map. *)
Definition oa_overwrite (map : open_addr_map) (index : Z) (val_pair : cmap_pair) (slot_out : bool)
    : M (ccol_retval_t * option cmap_pair * open_addr_map) :=
  if slot_out then mret (ccol_key_already_present, Some (oa_fill_val_pair map index), map) else
  src ← (if ranges_overlap (table map) (pair_ptr val_pair) (pair_size val_pair) (val_offset index) (val_size map)
         then bytes ← read_ptr (table map) (pair_ptr val_pair) (pair_size val_pair); mret (Foreign bytes)
         else mret (pair_ptr val_pair));
  t ← copy_to_val (table map) index src (pair_size val_pair);
  mret (ccol_key_already_present, None, set_table map t).

(** The load allows one more. *)
Definition oa_fill_free (map : open_addr_map) (key_pair val_pair : cmap_pair) (index start_index : Z)
    (slot_out : bool) : M (ccol_retval_t * option cmap_pair * open_addr_map) :=
  t ← set_slot (table map) index (OaSlot (replicate 8 0) (replicate 8 0));
  t ← copy_to_key t index (pair_ptr key_pair) (pair_size key_pair);
  t ← copy_to_val t index (pair_ptr val_pair) (pair_size val_pair);
  t ← set_meta t index SLOT_OCCUPIED;
  entry_added (set_table map t) index start_index slot_out.

Definition oa_insert_impl (map : open_addr_map) (key_pair val_pair : cmap_pair) (slot_out : bool)
    : M (ccol_retval_t * option cmap_pair * open_addr_map) :=
  key ← read_ptr (table map) (pair_ptr key_pair) (pair_size key_pair);
  hash_val ← map_hash map key (pair_size key_pair) (oa_keyed map);
  let start_index := hash_index_for hash_val (capacity map) in
  probe_key ← oa_widen_key (table map) (pair_ptr key_pair) (pair_size key_pair);
  found ← probe_for (S (Z.to_nat (capacity map))) (table map) probe_key start_index (capacity map);
  let new_key index found_empty :=
    if count map =? ccol_max_elem_count then mret (ccol_container_full, None, map) else
    if oa_above_grow_load (count map) (capacity map) && (capacity map <? _ccol_max_power_of_two_size_t)
    then oa_insert_with_growth map key_pair val_pair slot_out index start_index found_empty
    else if (found_empty : bool) then oa_fill_free map key_pair val_pair index start_index slot_out
    else mret (ccol_container_full, None, map) in
  match found with
  | KeyAt index => oa_overwrite map index val_pair slot_out
  | FreeAt index => new_key index true
  | Around index => new_key index false
  end.

Definition oa_insert (map : open_addr_map) (key_pair val_pair : cmap_pair)
    : M (ccol_retval_t * open_addr_map) :=
  '(r, _, map) ← oa_insert_impl map key_pair val_pair false; mret (r, map).

Definition oa_insert_or_get (map : open_addr_map) (key_pair val_pair : cmap_pair)
    : M (ccol_retval_t * option cmap_pair * open_addr_map) :=
  oa_insert_impl map key_pair val_pair true.

(** ** Lookup *)
Definition probe_within (fuel : nat) (t : oa_block) (probe_key : list Z) (index left_ capacity : Z)
    : M (option Z) :=
  loop fuel (fun '(index, left_) =>
    occ ← occupied t index;
    if negb (occ : bool) then mret (inr None) else
    s ← slot_at t index;
    if oa_keys_equal s probe_key then mret (inr (Some index)) else
    let index := next_index index capacity in
    let left_ := left_ ⊖ 1 in
    mret (if left_ =? 0 then inr None else inl (index, left_))) (index, left_).

(** The probe a lookup and a delete share. *)
Definition oa_probe (map : open_addr_map) (key_pair : cmap_pair) : M (option Z) :=
  key ← read_ptr (table map) (pair_ptr key_pair) (pair_size key_pair);
  hash_val ← map_hash map key (pair_size key_pair) (oa_keyed map);
  let index := hash_index_for hash_val (capacity map) in
  probe_key ← oa_widen_key (table map) (pair_ptr key_pair) (pair_size key_pair);
  probe_within (S (Z.to_nat (probe_span map))) (table map) probe_key index (probe_span map) (capacity map).

(** [None] is the pair [{NULL, 0}]. *)
Definition oa_get (map : open_addr_map) (key_pair : cmap_pair) : M (ccol_retval_t * option cmap_pair) :=
  found ← oa_probe map key_pair;
  mret (match found with
  | Some index => (ccol_success, Some (oa_fill_val_pair map index))
  | None => (ccol_key_not_found, None)
  end).

(** ** Deleting *)
Definition oa_backward_shift_walk (t : oa_block) (capacity key_size : Z) (key_type : ccol_data_type)
    (custom : option (list Z -> Z)) (keyed : bool) (int_seed span hole : Z) : M oa_block :=
  loop (Z.to_nat (capacity * capacity + capacity + 1)) (fun '(t, j, hole) =>
    let j := next_index j capacity in
    occ ← occupied t j;
    if negb (occ : bool) then mret (inr t) else
    let gap := displacement_from j hole capacity in
    if gap >=? span then mret (inr t) else
    s ← slot_at t j;
    hash_val ← ub (hash_key_data secret (key_data s) key_size key_type custom keyed int_seed);
    let home := hash_index_for hash_val capacity in
    if displacement_from j home capacity >=? gap then
      t ← set_slot t hole s;
      t ← set_meta t hole SLOT_OCCUPIED;
      t ← set_meta t j 0;
      mret (inl (t, j, j))
    else mret (inl (t, j, hole))) (t, hole, hole).

(** The types [oa_backward_shift_close_gap] has a walk of their own for: the
    walk takes the representative of the type's width, 8 for the size and no
    procedure; every other type takes the generic one. *)
Definition shift_walk_type (key_type : ccol_data_type) : option ccol_data_type :=
  match key_type with
  | ccol_char | ccol_signed_char | ccol_unsigned_char => Some ccol_char
  | ccol_short | ccol_unsigned_short => Some ccol_short
  | ccol_int | ccol_unsigned_int => Some ccol_int
  | ccol_long | ccol_unsigned_long => Some ccol_long
  | ccol_long_long | ccol_unsigned_long_long => Some ccol_long_long
  | ccol_float => Some ccol_float
  | ccol_double => Some ccol_double
  | ccol_pointer => Some ccol_pointer
  | _ => None
  end.

Definition oa_shift_walk_fast (type_enum : ccol_data_type) (t : oa_block) (capacity span hole : Z) : M oa_block :=
  oa_backward_shift_walk t capacity 8 type_enum None false 0 span hole.

Definition oa_shift_walk_keyed (type_enum : ccol_data_type) (t : oa_block) (capacity int_seed span hole : Z)
    : M oa_block :=
  oa_backward_shift_walk t capacity 8 type_enum None true int_seed span hole.

Definition oa_shift_walk_generic (map : open_addr_map) (hole : Z) : M oa_block :=
  oa_backward_shift_walk (table map) (capacity map) (key_size map) (key_type map) (custom_hashing_proc map)
    (oa_keyed map) (int_seed secret) (probe_span map) hole.

Definition oa_backward_shift_close_gap (map : open_addr_map) (hole : Z) : M oa_block :=
  match custom_hashing_proc map with
  | Some _ => oa_shift_walk_generic map hole
  | None =>
      match shift_walk_type (key_type map) with
      | Some type_enum =>
          if oa_keyed map
          then oa_shift_walk_keyed type_enum (table map) (capacity map) (int_seed secret) (probe_span map) hole
          else oa_shift_walk_fast type_enum (table map) (capacity map) (probe_span map) hole
      | None => oa_shift_walk_generic map hole
      end
  end.

Definition oa_delete (map : open_addr_map) (key_pair : cmap_pair) : M (ccol_retval_t * open_addr_map) :=
  found ← oa_probe map key_pair;
  match found with
  | None => mret (ccol_key_not_found, map)
  | Some index =>
      t ← set_meta (table map) index 0;
      let map := set_table map t in
      occ ← occupied (table map) (next_index index (capacity map));
      map ← (if (occ : bool) then t ← oa_backward_shift_close_gap map index; mret (set_table map t)
             else mret map);
      let map := set_count map (count map ⊖ 1) in
      map ← (if (count map <? Z.shiftr (capacity map) 2) && (capacity map >? minimum_allowed_bucket_array_size)
             then '(_, map) ← oa_rebuild map (capacity map `div` 2) (oa_keyed map); mret map
             else mret map);
      mret (ccol_success, map)
  end.

(** ** Destroying and resetting *)
Definition oa_destroy (map : open_addr_map) : M unit := _ccol_mem_free (blk (table map)).

Definition oa_clear_in_place (map : open_addr_map) : open_addr_map :=
  let map := set_table map (clear_block (table map) (capacity map)) in
  let map := set_count map 0 in
  let map := set_span map (oa_min_probe_span (capacity map)) in
  oa_window_restart map.

Definition oa_reset (map : open_addr_map) (new_capacity : Z) : M (ccol_retval_t * open_addr_map) :=
  if (new_capacity =? 0) || (new_capacity =? capacity map) then mret (ccol_success, oa_clear_in_place map) else
  new ← oa_alloc_block new_capacity;
  match new with
  | None => mret (ccol_not_enough_memory, oa_clear_in_place map)
  | Some new =>
      _ccol_mem_free (blk (table map));;
      let map := set_capacity (set_table map new) new_capacity in
      let map := set_count map 0 in
      let map := set_span map (oa_min_probe_span new_capacity) in
      mret (ccol_success, oa_window_restart map)
  end.

(** ** Walking over the slots *)

(** The first occupied slot from [i] on, or the capacity. *)
Definition next_occupied (map : open_addr_map) (i : Z) : M Z :=
  loop (S (Z.to_nat (capacity map))) (fun i =>
    if negb (i <? capacity map) then mret (inr i) else
    occ ← occupied (table map) i;
    mret (if (occ : bool) then inr i else inl (i ⊕ 1))) i.
End COaMap.
End COaMap.
