(* ===== verification/COaRefine.v ===== *)
(** * The open-addressing backend refines a finite map

    The representation of a finite map by the slots of [COaMap], and the
    proof that every operation of the backend maintains it. *)
From S2P Require Import Prelude Memory Values Common CHash COaProbe COaMap.
Import COaMap.

(** ** Sizes and indices *)

(** The capacities of the backend. *)
Definition is_capacity (C : Z) : Prop := exists k, 4 <= k <= 63 /\ C = 2 ^ k.

Lemma capacity_range C : is_capacity C -> 16 <= C <= 9223372036854775808.
Proof.
  intros (k & Hk & ->). split; [change 16 with (2 ^ 4)|change 9223372036854775808 with (2 ^ 63)];
    apply Z.pow_le_mono_r; lia.
Qed.

Lemma land_mask x k : 0 <= k <= 63 -> Z.land (wrap x) (2 ^ k ⊖ 1) = x `mod` 2 ^ k.
Proof.
  intros Hk. assert (0 < 2 ^ k <= 2 ^ 63) as Hp by (split; [apply Z.pow_pos_nonneg; lia|apply Z.pow_le_mono_r; lia]).
  change (2 ^ 63) with 9223372036854775808 in Hp. sz.
  replace (2 ^ k - 1) with (Z.ones k) by (rewrite Z.ones_equiv; lia). rewrite Z.land_ones by lia.
  unfold wrap. change two64 with (2 ^ 64). apply Z.mod_mod_divide. exists (2 ^ (64 - k)).
  rewrite <- Z.pow_add_r by lia. f_equal. lia.
Qed.

Lemma next_index_next C i : is_capacity C -> 0 <= i < C -> next_index i C = next C i.
Proof.
  intros HC Hi. pose proof (capacity_range C HC). destruct HC as (k & Hk & ->). unfold next_index.
  rewrite land_mask by lia. destruct (next_cases (2 ^ k) i) as [[E ->]|[E ->]].
  - rewrite E. apply Z.mod_same. lia.
  - apply Z.mod_small. lia.
Qed.

Lemma displacement_dist C h i : is_capacity C -> 0 <= h < C -> 0 <= i < C -> displacement_from i h C = dist C h i.
Proof.
  intros HC Hh Hi. pose proof (capacity_range C HC). destruct HC as (k & Hk & ->). unfold displacement_from.
  rewrite land_mask by lia. destruct (dist_cases (2 ^ k) h i) as [[? ->]|[? ->]].
  - apply Z.mod_small. lia.
  - rewrite <- (Z.mod_add _ 1) by lia. rewrite Z.mod_small by lia. lia.
Qed.

Lemma index_range h C : is_capacity C -> is_word h -> 0 <= hash_index_for h C < C.
Proof. intros (k & Hk & ->) Hh. apply hash_index_for_range; [done|lia]. Qed.

(** ** The block as a ring of cells *)
Definition cell_of (s : oa_slot) (b : Z) : option oa_slot := if Z.land b SLOT_OCCUPIED =? 0 then None else Some s.
Definition cells (t : oa_block) : list (option oa_slot) := zip_with cell_of (slots t) (metadata t).

Definition wide (s : oa_slot) : Prop := zlen (key_data s) = 8 /\ zlen (val_data s) = 8.

(** The two arrays have the capacity of the table; the metadata byte of a
    slot is 0 or [SLOT_OCCUPIED]. *)
Record block_ok (C : Z) (t : oa_block) : Prop := BlockOk {
  bo_slots : zlen (slots t) = C;
  bo_metadata : zlen (metadata t) = C;
  bo_bits : Forall (fun b => b = 0 \/ b = SLOT_OCCUPIED) (metadata t);
  bo_wide : Forall wide (slots t);
}.

Section Block.
Context {alloc : Allocator}.
Implicit Types (t : oa_block) (C i : Z) (s : oa_slot) (m : mem).

Lemma zlen_cells C t : block_ok C t -> zlen (cells t) = C.
Proof. intros [Hs Hm _ _]. unfold zlen, cells in *. rewrite length_zip_with. lia. Qed.

Lemma zget_lookup {A} (l : list A) i x : zget l i = Some x -> 0 <= i /\ l !! Z.to_nat i = Some x.
Proof. unfold zget. destruct (Z.leb_spec 0 i); [done|done]. Qed.

(** What the arrays hold at an index, and the cell it makes. *)
Lemma cell_parts C t i : block_ok C t -> 0 <= i < C ->
  exists s b, zget (slots t) i = Some s /\ zget (metadata t) i = Some b /\ cell (cells t) i = cell_of s b /\
    wide s /\ (b = 0 \/ b = 1).
Proof.
  intros [Hs Hm Hb Hw] Hi. destruct (zget_is_Some (slots t) i ltac:(lia)) as [s Es].
  destruct (zget_is_Some (metadata t) i ltac:(lia)) as [b Eb]. exists s, b. split_and!; [done..| | |].
  - destruct (zget_lookup _ _ _ Es) as [_ Es'], (zget_lookup _ _ _ Eb) as [_ Eb']. unfold cell, zget.
    destruct (Z.leb_spec 0 i); [|lia]. unfold cells. rewrite lookup_zip_with, Es', Eb'. done.
  - rewrite Forall_forall in Hw. apply Hw. apply zget_lookup in Es as [_ ?]. by eapply list_elem_of_lookup_2.
  - rewrite Forall_forall in Hb. apply Hb. apply zget_lookup in Eb as [_ ?]. by eapply list_elem_of_lookup_2.
Qed.

Lemma wp_occupied C t i m (Q : bool -> mem -> Prop) : block_ok C t -> 0 <= i < C ->
  (cell (cells t) i = None -> Q false m) -> (forall s, cell (cells t) i = Some s -> Q true m) ->
  wp (occupied t i) m Q.
Proof.
  intros Hok Hi HN HS. destruct (cell_parts C t i Hok Hi) as (s & b & _ & Eb & Ec & _ & _).
  unfold occupied. apply wp_bind. apply (wp_ub _ b); [done|]. apply wp_ret. unfold cell_of in Ec.
  destruct (Z.land b SLOT_OCCUPIED =? 0); [by apply HN|by eapply HS].
Qed.

Lemma wp_slot_at C t i s m (Q : oa_slot -> mem -> Prop) : block_ok C t -> cell (cells t) i = Some s ->
  Q s m -> wp (slot_at t i) m Q.
Proof.
  intros Hok Hc HQ. pose proof (cell_Some _ _ _ Hc) as Hi. rewrite (zlen_cells C t Hok) in Hi.
  destruct (cell_parts C t i Hok Hi) as (s' & b & Es & _ & Ec & _ & _). rewrite Ec in Hc.
  unfold cell_of in Hc. destruct (_ =? _); [done|]. injection Hc as ->. by eapply wp_ub.
Qed.

Lemma cells_wide C t i s : block_ok C t -> cell (cells t) i = Some s -> wide s.
Proof.
  intros Hok Hc. pose proof (cell_Some _ _ _ Hc) as Hi. rewrite (zlen_cells C t Hok) in Hi.
  destruct (cell_parts C t i Hok Hi) as (s' & b & _ & _ & Ec & Hw & _). rewrite Ec in Hc.
  unfold cell_of in Hc. destruct (_ =? _); [done|]. by injection Hc as <-.
Qed.

Lemma zset_upd {A} (l : list A) i x : 0 <= i < zlen l -> zset l i x = Some (<[Z.to_nat i := x]> l).
Proof. intros. unfold zset. destruct (Z.leb_spec 0 i), (Z.ltb_spec i (zlen l)); done || lia. Qed.

Lemma Forall_upd {A} (P : A -> Prop) (l : list A) n x : Forall P l -> P x -> Forall P (<[n := x]> l).
Proof. intros. by apply Forall_insert. Qed.

(** Filling a slot. *)
Definition filled t i s : oa_block := OaBlock (blk t) (<[Z.to_nat i := s]> (slots t)) (<[Z.to_nat i := SLOT_OCCUPIED]> (metadata t)).
Definition emptied t i : oa_block := OaBlock (blk t) (slots t) (<[Z.to_nat i := 0]> (metadata t)).
Definition with_slot t i s : oa_block := OaBlock (blk t) (<[Z.to_nat i := s]> (slots t)) (metadata t).

Lemma zlen_insert_nat {A} (l : list A) n x : zlen (<[n := x]> l) = zlen l.
Proof. unfold zlen. by rewrite length_insert. Qed.

Lemma with_slot_ok C t i s : block_ok C t -> wide s -> block_ok C (with_slot t i s).
Proof. intros [? ? ? ?] ?. split; cbn; rewrite ?zlen_insert_nat; [done..|by apply Forall_upd]. Qed.
Lemma filled_ok C t i s : block_ok C t -> wide s -> block_ok C (filled t i s).
Proof.
  intros [? ? ? ?] ?. split; cbn; rewrite ?zlen_insert_nat; [done..| |by apply Forall_upd].
  apply Forall_upd; [done|by right].
Qed.
Lemma emptied_ok C t i : block_ok C t -> block_ok C (emptied t i).
Proof.
  intros [? ? ? ?]. split; cbn; rewrite ?zlen_insert_nat; [done..| |done]. apply Forall_upd; [done|by left].
Qed.

Lemma cells_filled t i s : cells (filled t i s) = upd (cells t) i (Some s).
Proof. unfold cells, filled, upd. cbn. by rewrite <- insert_zip_with. Qed.

Lemma cells_emptied C t i : block_ok C t -> 0 <= i < C -> cells (emptied t i) = upd (cells t) i None.
Proof.
  intros Hok Hi. destruct (cell_parts C t i Hok Hi) as (s & b & Es & _). apply zget_lookup in Es as [_ Es].
  unfold cells, emptied, upd. cbn. rewrite <- (list_insert_id (slots t) (Z.to_nat i) s Es) at 1.
  by rewrite <- insert_zip_with.
Qed.

(** Writing into a slot keeps whether it is occupied. *)
Lemma cells_with_slot C t i s s0 : block_ok C t -> cell (cells t) i = Some s0 ->
  cells (with_slot t i s) = upd (cells t) i (Some s).
Proof.
  intros Hok Hc. pose proof (cell_Some _ _ _ Hc) as Hi. rewrite (zlen_cells C t Hok) in Hi.
  destruct (cell_parts C t i Hok Hi) as (s' & b & _ & Eb & Ec & _). rewrite Ec in Hc. apply zget_lookup in Eb as [_ Eb].
  unfold cells, with_slot, upd. cbn. rewrite <- (list_insert_id (metadata t) (Z.to_nat i) b Eb) at 1.
  rewrite <- insert_zip_with. unfold cell_of in *. by destruct (_ =? _).
Qed.
Lemma cells_with_slot_free C t i s : block_ok C t -> 0 <= i < C -> cell (cells t) i = None ->
  cells (with_slot t i s) = cells t.
Proof.
  intros Hok Hi Hc. destruct (cell_parts C t i Hok Hi) as (s' & b & Es & Eb & Ec & _). rewrite Hc in Ec.
  apply zget_lookup in Eb as [_ Eb], Es as [_ Es].
  unfold cells, with_slot. cbn. rewrite <- (list_insert_id (metadata t) (Z.to_nat i) b Eb) at 1.
  rewrite <- insert_zip_with. rewrite <- (list_insert_id (slots t) (Z.to_nat i) s' Es) at 2.
  rewrite <- (list_insert_id (metadata t) (Z.to_nat i) b Eb) at 2. rewrite <- insert_zip_with.
  f_equal. unfold cell_of in *. by destruct (_ =? _).
Qed.

Lemma wp_set_slot C t i s m (Q : oa_block -> mem -> Prop) : block_ok C t -> 0 <= i < C ->
  Q (with_slot t i s) m -> wp (set_slot t i s) m Q.
Proof. intros [Hs _ _ _] Hi HQ. unfold set_slot. by rewrite zset_upd by lia. Qed.
Lemma wp_set_empty C t i m (Q : oa_block -> mem -> Prop) : block_ok C t -> 0 <= i < C ->
  Q (emptied t i) m -> wp (set_meta t i 0) m Q.
Proof. intros [_ Hm _ _] Hi HQ. unfold set_meta. by rewrite zset_upd by lia. Qed.
Lemma wp_set_occupied C t i s m (Q : oa_block -> mem -> Prop) : block_ok C t -> 0 <= i < C ->
  Q (filled t i s) m -> wp (set_meta (with_slot t i s) i SLOT_OCCUPIED) m Q.
Proof. intros [_ Hm _ _] Hi HQ. unfold set_meta, with_slot. cbn. by rewrite zset_upd by lia. Qed.

(** [slots[i] = s; metadata[i] = SLOT_OCCUPIED]. *)
Lemma wp_fill {B} C t i s m (f : oa_block -> M B) (Q : B -> mem -> Prop) : block_ok C t -> 0 <= i < C ->
  wp (f (filled t i s)) m Q -> wp (t ← set_slot t i s; t ← set_meta t i SLOT_OCCUPIED; f t) m Q.
Proof.
  intros Hok Hi HQ. apply wp_bind, (wp_set_slot C); [done..|]. by apply wp_bind, (wp_set_occupied C).
Qed.

(** *** Reading through pointers

    Where an argument may point: into memory of the caller's, or into an
    occupied slot of the map itself. *)
Inductive source t : ptr -> Z -> list Z -> Prop :=
  | source_foreign bs n : 0 <= n <= zlen bs -> source t (Foreign bs) n (ztake n bs)
  | source_slot i s o n : cell (cells t) i = Some s -> 0 <= o -> 0 <= n -> o + n <= 16 ->
      source t (At (blk t) (16 * i + o)) n (slice (slot_bytes s) o n).

Lemma slice_app_mid {A} (l1 l2 l3 : list A) o n : 0 <= o -> 0 <= n -> o + n <= zlen l2 ->
  slice (l1 ++ l2 ++ l3) (zlen l1 + o) n = slice l2 o n.
Proof.
  intros Ho Hn Hl. pose proof (zlen_nonneg l1). unfold slice.
  rewrite <- (zdrop_zdrop o (zlen l1)) by lia. rewrite (zdrop_app_exact l1) by done.
  unfold ztake, zdrop, zlen in *. rewrite drop_app_le by lia. rewrite take_app_le; [done|].
  rewrite length_drop. lia.
Qed.

Lemma slot_slice C t i s o n : block_ok C t -> cell (cells t) i = Some s -> 0 <= o -> 0 <= n -> o + n <= 16 ->
  ptr_bytes (block_of t) (At (blk t) (16 * i + o)) n = Some (slice (slot_bytes s) o n).
Proof.
  intros Hok Hc Ho Hn Hle. pose proof (cell_Some _ _ _ Hc) as Hi. rewrite (zlen_cells C t Hok) in Hi.
  pose proof (cells_wide C t i s Hok Hc) as [Hk Hv]. pose proof (bo_slots C t Hok) as Hs.
  destruct (cell_parts C t i Hok Hi) as (s' & b & Es & _ & Ec & _). rewrite Ec in Hc. unfold cell_of in Hc.
  destruct (_ =? _); [done|]. injection Hc as ->. clear Ec.
  assert (Forall (fun e => zlen e = 16) (slot_bytes <$> slots t)) as H16.
  { apply Forall_fmap. eapply Forall_impl; [apply (bo_wide C t Hok)|]. intros x [? ?]. unfold slot_bytes. cbn. zlia. }
  pose proof (zlen_concat 16 _ H16) as Hcat. rewrite zlen_fmap in Hcat.
  pose proof (zget_split _ _ _ Es) as E. rewrite E, fmap_app in H16. apply Forall_app in H16 as [H16 _].
  pose proof (zlen_concat 16 _ H16) as Hcat1. rewrite zlen_fmap, zlen_ztake in Hcat1 by lia.
  assert (zlen (slot_bytes s) = 16) as Hsb by (unfold slot_bytes; zlia).
  apply ptr_bytes_At. cbn [block_of b_id b_bytes]. split_and!; [done|lia|done|zlia|].
  rewrite E, fmap_app, fmap_cons, concat_app. cbn [concat]. rewrite <- !app_assoc.
  replace (16 * i + o) with (zlen (concat (slot_bytes <$> ztake i (slots t))) + o) by lia.
  symmetry. apply slice_app_mid; lia.
Qed.

Lemma source_bytes C t p n bs : block_ok C t -> source t p n bs -> ptr_bytes (block_of t) p n = Some bs.
Proof.
  intros Hok [b k Hk|i s o k Hc Ho Hn Hle]; [|by eapply slot_slice]. cbn.
  destruct (Z.leb_spec 0 k), (Z.leb_spec k (zlen b)); done || lia.
Qed.

Lemma source_len t p n bs C : block_ok C t -> source t p n bs -> zlen bs = n /\ 0 <= n.
Proof. intros Hok Hs. eapply ptr_bytes_len. by eapply source_bytes. Qed.

Lemma source_prefix t p n bs k : source t p n bs -> 0 <= k <= n -> source t p k (ztake k bs).
Proof.
  intros [b n' Hn'|i s o n' Hc Ho Hn' Hle] Hk.
  - rewrite ztake_ztake by lia. rewrite Z.min_l by lia. constructor. lia.
  - unfold slice. rewrite ztake_ztake by lia. rewrite Z.min_l by lia. constructor; [done|lia..].
Qed.

Lemma wp_read_source C t p n bs m (Q : list Z -> mem -> Prop) : block_ok C t -> source t p n bs ->
  Q bs m -> wp (read_ptr t p n) m Q.
Proof. intros Hok Hs HQ. eapply wp_ub; [by eapply source_bytes|done]. Qed.

(** Nothing the map holds is in a free slot. *)
Lemma source_apart C t p n bs i off sz : block_ok C t -> source t p n bs -> cell (cells t) i = None ->
  16 * i <= off -> off + sz <= 16 * i + 16 -> ranges_overlap t p n off sz = false.
Proof.
  intros Hok Hs Hc Hlo Hhi. unfold ranges_overlap. destruct (_ || _) eqn:Ez; [done|].
  destruct Hs as [|j s o k Hj Ho Hn Hle]; [done|]. rewrite bool_decide_true by done. cbn [andb].
  assert (j <> i) as Hne by congruence.
  destruct (Z.ltb_spec (16 * j + o) (off + sz)), (Z.ltb_spec off (16 * j + o + k)); cbn; try done. exfalso.
  assert (j <= i - 1 \/ i + 1 <= j) as [?|?] by lia; lia.
Qed.

Lemma source_same t t' p n bs : blk t' = blk t -> cells t' = cells t -> source t p n bs -> source t' p n bs.
Proof. intros Hb Hc [b k Hk|i s o k Hcell Ho Hn Hle]; [by constructor|]. rewrite <- Hb. constructor; [by rewrite Hc|done..]. Qed.
End Block.
#[global] Arguments filled : simpl never.
#[global] Arguments emptied : simpl never.
#[global] Arguments with_slot : simpl never.

(** ** The configuration of a map *)
Record config := Config {
  c_proc : option (list Z -> Z);
  c_key_type : ccol_data_type;
  c_val_type : ccol_data_type;
  c_key_size : Z;
  c_val_size : Z;
}.

Definition config_of (map : open_addr_map) : config :=
  Config (custom_hashing_proc map) (key_type map) (val_type map) (key_size map) (val_size map).

(** The types are those the backend is chosen for, and a custom procedure
    answers in 64 bits. *)
Record config_ok (c : config) : Prop := ConfigOk {
  co_types : should_use_open_addressing (c_key_type c) (c_val_type c) = true;
  co_key : c_key_size c = get_type_size (c_key_type c);
  co_val : c_val_size c = get_type_size (c_val_type c);
  co_proc : from_option (fun proc => forall key, zlen key = c_key_size c -> Forall is_byte key -> is_word (proc key))
              True (c_proc c);
}.

Section Keys.
Context (secret : chmap_hash_secret) (c : config).
Hypothesis Hsecret : secret_ok secret.
Hypothesis Hc : config_ok c.

Lemma type_sizes : 1 <= c_key_size c <= 8 /\ 1 <= c_val_size c <= 8 /\
  ccol_fixed_width_data_type_size (c_key_type c) = c_key_size c.
Proof.
  destruct Hc as [Ht -> -> _]. unfold should_use_open_addressing in Ht. zbool.
  destruct (c_key_type c); try done; destruct (c_val_type c); try done; cbn; lia.
Qed.

(** A key and the eight bytes that hold it. *)
Definition valid_key (key : list Z) : Prop := zlen key = c_key_size c /\ Forall is_byte key.
Definition widen (key : list Z) : list Z := key ++ replicate (Z.to_nat (8 - zlen key)) 0.

(** The hash of a key, which ends in the home of the key. *)
Definition key_hash (keyed : bool) (word : list Z) : Z :=
  default 0 (hash_key_data secret word (c_key_size c) (c_key_type c) (c_proc c) keyed (int_seed secret)).
Definition home (keyed : bool) (C : Z) (s : oa_slot) : Z := hash_index_for (key_hash keyed (key_data s)) C.

Definition key_of (s : oa_slot) : list Z := ztake (c_key_size c) (key_data s).
Definition val_of (s : oa_slot) : list Z := ztake (c_val_size c) (val_data s).
Definition pair_of (s : oa_slot) : list Z * list Z := (key_of s, val_of s).

(** A slot in use holds a key of the map's size, zeroes behind it. *)
Definition entry_ok (s : oa_slot) : Prop := wide s /\ exists key, valid_key key /\ key_data s = widen key.

Lemma valid_key_len key : valid_key key -> zlen (widen key) = 8 /\ ztake (c_key_size c) (widen key) = key.
Proof.
  intros [Hk _]. pose proof type_sizes. unfold widen. split; [zlia|]. by apply ztake_app_exact.
Qed.
Lemma widen_inj k1 k2 : valid_key k1 -> valid_key k2 -> widen k1 = widen k2 -> k1 = k2.
Proof. intros H1 H2 E. apply valid_key_len in H1 as [_ <-], H2 as [_ <-]. by rewrite E. Qed.
Lemma widen_bytes key : valid_key key -> Forall is_byte (widen key).
Proof. intros [_ Hb]. apply Forall_app. split; [done|]. by apply Forall_replicate. Qed.

Lemma entry_key s : entry_ok s -> valid_key (key_of s) /\ key_data s = widen (key_of s).
Proof. intros (_ & key & Hk & E). unfold key_of. rewrite E. by rewrite (proj2 (valid_key_len _ Hk)). Qed.

(** The hash of the key in a slot, in a wider buffer, or as the caller gives
    it, is the same word. *)
Lemma hash_key key rest keyed : valid_key key ->
  hash_key_data secret (key ++ rest) (c_key_size c) (c_key_type c) (c_proc c) keyed (int_seed secret) =
    Some (key_hash keyed (widen key)) /\ is_word (key_hash keyed (widen key)).
Proof.
  intros Hk. pose proof Hk as [Hl Hb]. pose proof type_sizes as (Hks & _ & Hw).
  assert (forall rest, hash_key_data secret (key ++ rest) (c_key_size c) (c_key_type c) (c_proc c) keyed (int_seed secret) =
    hash_key_data secret key (c_key_size c) (c_key_type c) (c_proc c) keyed (int_seed secret)) as Hpre.
  { intros r. rewrite hash_key_prefix; [by rewrite ztake_app_exact| |lia]. zlia. }
  destruct (hash_key_some secret key (c_key_size c) (c_key_type c) (c_proc c) keyed) as (h & Eh & Hh);
    [done|done|lia| |right; lia|].
  { destruct (c_proc c) eqn:Ep; [|done]. cbn. rewrite ztake_all by lia.
    pose proof (co_proc c Hc) as Hp. rewrite Ep in Hp. cbn in Hp. by apply Hp. }
  unfold key_hash, widen. by rewrite !Hpre, Eh.
Qed.

(** The fast attempt passes 0 for the seed, which an unkeyed hash of the
    backend's types does not use. *)
Lemma hash_unkeyed key seed : hash_key_data secret key (c_key_size c) (c_key_type c) (c_proc c) false seed =
  hash_key_data secret key (c_key_size c) (c_key_type c) (c_proc c) false (int_seed secret).
Proof. unfold hash_key_data. destruct (c_proc c); [done|]. by destruct (c_key_type c). Qed.

Lemma hash_entry s keyed : entry_ok s ->
  hash_key_data secret (key_data s) (c_key_size c) (c_key_type c) (c_proc c) keyed (int_seed secret) =
    Some (key_hash keyed (key_data s)) /\ is_word (key_hash keyed (key_data s)).
Proof. intros Hs. destruct (entry_key s Hs) as [Hk ->]. by apply hash_key. Qed.

Lemma home_range s keyed C : is_capacity C -> entry_ok s -> 0 <= home keyed C s < C.
Proof. intros HC Hs. apply index_range; [done|]. by apply hash_entry. Qed.
End Keys.

(** ** Probes *)
Section Probes.
Context {alloc : Allocator}.
Context (C : Z) (HC : is_capacity C) (t : oa_block) (Ht : block_ok C t).
Implicit Types (h i : Z) (m : mem).

Abbreviation full i := (is_Some (cell (cells t) i)).

Lemma ring_measure h i : 0 <= h < C -> 0 <= i < C -> (Z.to_nat (C - dist C h i) < S (Z.to_nat C))%nat.
Proof. intros Hh Hi. pose proof (dist_range C h i Hh Hi). lia. Qed.

Lemma ring_progress h i : 0 <= h < C -> 0 <= i < C -> next C i <> h ->
  (Z.to_nat (C - dist C h (next C i)) < Z.to_nat (C - dist C h i))%nat.
Proof.
  intros Hh Hi Hne. rewrite dist_next by done. pose proof (dist_range C h i Hh Hi).
  pose proof (dist_range C h (next C i) Hh (next_range C i Hi)). rewrite dist_next in * by done. lia.
Qed.

(** A free cell somewhere stops the walk before it comes around. *)
Lemma not_around h i e (P : Z -> Prop) : 0 <= h < C -> 0 <= i < C -> upto C P h i -> P i ->
  0 <= e < C -> ~ P e -> next C i <> h.
Proof. intros Hh Hi Hu Hfull He Hn E. apply Hn. by apply (upto_around C P h i). Qed.

Lemma wp_first_free h m (Q : Z -> mem -> Prop) : 0 <= h < C ->
  (exists e, 0 <= e < C /\ cell (cells t) e = None) ->
  (forall i, 0 <= i < C -> cell (cells t) i = None -> upto C (fun x => full x) h i -> Q i m) ->
  wp (first_free (S (Z.to_nat C)) t h C) m Q.
Proof.
  intros Hh (e & He & Hn) HQ. unfold first_free.
  apply (wp_loop (fun i m' => m' = m /\ 0 <= i < C /\ upto C (fun x => full x) h i) (fun i => Z.to_nat (C - dist C h i)));
    [|split_and!; [done|lia..|by apply upto_start]|by apply ring_measure].
  intros i ? (-> & Hi & Hu). apply wp_bind, (wp_occupied C); [done..| |].
  - intros Hfree. apply wp_ret. by apply HQ.
  - intros s Hs. apply wp_ret. rewrite next_index_next by done.
    assert (next C i <> h) as Hne by (eapply (not_around h i e (fun x => full x)); [done..|by exists s|done|by rewrite Hn; intros []]).
    split; [|by apply ring_progress]. split; [done|]. split; [by apply next_range|].
    apply upto_next; [done..| |done]. by exists s.
Qed.

(** The probe of an insertion. *)
Lemma wp_probe_for word h m (Q : probe_end -> mem -> Prop) : 0 <= h < C ->
  (forall i, 0 <= i < C -> cell (cells t) i = None ->
     upto C (fun x => exists s, cell (cells t) x = Some s /\ key_data s <> word) h i -> Q (FreeAt i) m) ->
  (forall i s, cell (cells t) i = Some s -> key_data s = word -> Q (KeyAt i) m) ->
  ((forall x, 0 <= x < C -> exists s, cell (cells t) x = Some s /\ key_data s <> word) -> Q (Around h) m) ->
  wp (probe_for (S (Z.to_nat C)) t word h C) m Q.
Proof.
  intros Hh HF HK HA. unfold probe_for. set (P x := exists s, cell (cells t) x = Some s /\ key_data s <> word).
  apply (wp_loop (fun i m' => m' = m /\ 0 <= i < C /\ upto C P h i) (fun i => Z.to_nat (C - dist C h i)));
    [|split_and!; [done|lia..|by apply upto_start]|by apply ring_measure].
  intros i ? (-> & Hi & Hu). apply wp_bind, (wp_occupied C); [done..| |].
  - intros Hfree. apply wp_ret. by apply HF.
  - intros s Hs. cbn [negb]. apply wp_bind, (wp_slot_at C _ _ s); [done..|].
    unfold oa_keys_equal. case_bool_decide as Hk; [by apply wp_ret; eapply HK|].
    rewrite next_index_next by done. assert (P i) as HP by by exists s.
    apply wp_ret. destruct (Z.eqb_spec (next C i) h) as [E|Hne].
    + rewrite E. apply HA. by apply (upto_around C P h i).
    + split; [|by apply ring_progress]. split; [done|]. split; [by apply next_range|]. by apply upto_next.
Qed.

(** The probe of a lookup, which gives up after [span] steps. *)
Lemma wp_probe_within word span h m (Q : option Z -> mem -> Prop) : 0 <= h < C -> 1 <= span <= C ->
  (forall i s, cell (cells t) i = Some s -> key_data s = word -> Q (Some i) m) ->
  (forall i, 0 <= i < C -> upto C (fun x => exists s, cell (cells t) x = Some s /\ key_data s <> word) h i ->
     cell (cells t) i = None -> Q None m) ->
  ((forall x, 0 <= x < C -> dist C h x < span -> exists s, cell (cells t) x = Some s /\ key_data s <> word) -> Q None m) ->
  wp (probe_within (S (Z.to_nat span)) t word h span C) m Q.
Proof.
  intros Hh Hsp HK HF HA. pose proof (capacity_range C HC). unfold probe_within.
  set (P x := exists s, cell (cells t) x = Some s /\ key_data s <> word).
  apply (wp_loop (fun '(i, left_) m' => m' = m /\ 0 <= i < C /\ upto C P h i /\ 1 <= left_ <= span /\
    dist C h i = span - left_) (fun '(_, left_) => Z.to_nat left_));
    [|split_and!; [done|lia..|by apply upto_start|lia|lia|rewrite dist_refl; lia]|lia].
  intros [i left_] ? (-> & Hi & Hu & Hl & Hd). apply wp_bind, (wp_occupied C); [done..| |].
  - intros Hfree. apply wp_ret. by eapply HF.
  - intros s Hs. cbn [negb]. apply wp_bind, (wp_slot_at C _ _ s); [done..|].
    unfold oa_keys_equal. case_bool_decide as Hk; [by apply wp_ret; eapply HK|].
    rewrite next_index_next by done. assert (P i) as HP by by exists s. sz.
    apply wp_ret. destruct (Z.eqb_spec (left_ - 1) 0) as [E|Hne].
    + apply HA. intros x Hx Hlt. destruct (decide (dist C h x = dist C h i)) as [E'|].
      * apply dist_inj in E' as ->; done.
      * apply Hu; [done|lia].
    + assert (next C i <> h) as Hn.
      { intros E. pose proof (dist_around C h i Hh Hi E). lia. }
      split; [|lia]. split; [done|]. split; [by apply next_range|]. split; [by apply upto_next|].
      rewrite dist_next by done. lia.
Qed.

(** The walk of the fast attempt. *)
Lemma wp_first_free_within h cap m (Q : option (Z * Z) -> mem -> Prop) : 0 <= h < C -> 0 <= cap ->
  (exists e, 0 <= e < C /\ cell (cells t) e = None) ->
  (forall i, 0 <= i < C -> cell (cells t) i = None -> upto C (fun x => full x) h i -> dist C h i <= cap ->
     Q (Some (i, dist C h i)) m) ->
  Q None m ->
  wp (first_free_within (S (Z.to_nat C)) t h C cap) m Q.
Proof.
  intros Hh Hcap (e & He & Hn) HQ HN. pose proof (capacity_range C HC). unfold first_free_within.
  apply (wp_loop (fun '(i, d) m' => m' = m /\ 0 <= i < C /\ upto C (fun x => full x) h i /\ d = dist C h i /\ d <= cap)
    (fun '(i, _) => Z.to_nat (C - dist C h i)));
    [|split_and!; [done|lia..|by apply upto_start|by rewrite dist_refl|lia]|by apply ring_measure].
  intros [i d] ? (-> & Hi & Hu & Hd & Hdc). pose proof (dist_range C h i Hh Hi).
  apply wp_bind, (wp_occupied C); [done..| |].
  - intros Hfree. apply wp_ret. cbn. subst d. by apply HQ.
  - intros s Hs. apply wp_ret. cbn [negb]. destruct (Z.eqb_spec d cap); [done|].
    rewrite next_index_next by done. sz.
    assert (next C i <> h) as Hne by (eapply (not_around h i e (fun x => full x)); [done..|by exists s|done|by rewrite Hn; intros []]).
    split; [|by apply ring_progress]. split; [done|]. split; [by apply next_range|].
    split; [apply upto_next; [done..|by exists s|done]|]. rewrite dist_next by done. lia.
Qed.
End Probes.

(** ** Placing the entries of an old block into a new one *)
Section Placing.
Context {alloc : Allocator} (secret : chmap_hash_secret) (Hsecret : secret_ok secret).
Context (map : open_addr_map) (Hcfg : config_ok (config_of map)).
Context (C : Z) (HC : is_capacity C).
Context (old : oa_block) (oldC : Z) (HoldC : 0 <= oldC < two64) (Hold : block_ok oldC old).
Abbreviation c := (config_of map).
Hypothesis Hentries : Forall (entry_ok c) (entries (cells old)).
Hypothesis Hroom : zlen (entries (cells old)) <= C.
Implicit Types (m : mem) (new : oa_block) (i : Z).

Lemma old_entry i s : cell (cells old) i = Some s -> entry_ok c s.
Proof. intros Hc. rewrite Forall_forall in Hentries. apply Hentries, elem_entries. by exists i. Qed.

(** The state after the first [i] slots: the new block holds their entries,
    each within [largest] of its home. *)
Record placed (keyed : bool) (b : nat) (i : Z) new (largest : Z) : Prop := Placed {
  pl_blk : blk new = b;
  pl_block : block_ok C new;
  pl_range : 0 <= largest < C;
  pl_probed : probed C (home secret c keyed C) (largest + 1) (cells new);
  pl_entries : entries (cells new) ≡ₚ entries (ztake i (cells old));
}.

Lemma placed_entry keyed b i new largest j s : placed keyed b i new largest -> cell (cells new) j = Some s -> entry_ok c s.
Proof.
  intros [_ _ _ _ He] Hc. assert (s ∈ entries (cells new)) as Hin by (apply elem_entries; by exists j).
  rewrite He in Hin. apply entries_prefix_incl in Hin. rewrite Forall_forall in Hentries. by apply Hentries.
Qed.

Lemma placed_room keyed b i new largest s : placed keyed b i new largest -> cell (cells old) i = Some s ->
  exists e, 0 <= e < C /\ cell (cells new) e = None.
Proof.
  intros [_ Hb _ _ He] Hc. pose proof (zlen_cells C new Hb) as Hl. rewrite <- Hl. apply entries_free.
  pose proof (entries_prefix_lt _ _ _ Hc). unfold zlen in *. rewrite He. lia.
Qed.

Lemma placed_skip keyed b i new largest : placed keyed b i new largest -> 0 <= i < oldC ->
  cell (cells old) i = None -> placed keyed b (i + 1) new largest.
Proof.
  intros [? ? ? ? He] Hi Hc. split; try done. rewrite entries_prefix by (rewrite (zlen_cells oldC); done).
  by rewrite Hc, app_nil_r.
Qed.

Lemma placed_fill keyed b i new largest s j largest' : placed keyed b i new largest ->
  cell (cells old) i = Some s -> 0 <= j < C -> cell (cells new) j = None ->
  upto C (fun x => is_Some (cell (cells new) x)) (home secret c keyed C s) j ->
  largest <= largest' < C -> dist C (home secret c keyed C s) j <= largest' ->
  placed keyed b (i + 1) (filled new j s) largest'.
Proof.
  intros Hp Hc Hj Hfree Hu Hl Hd. pose proof Hp as [Hb Hok Hr Hpr He].
  pose proof (cell_Some _ _ _ Hc) as Hi. pose proof (zlen_cells C new Hok) as Hlen.
  split; [done|apply filled_ok; [done|by apply (old_entry i s)]|lia| |].
  - rewrite cells_filled. apply probed_add; [done| | |done|done|done|lia].
    + intros x a Ha. apply home_range; [done..|]. by eapply placed_entry.
    + eapply probed_wider; [exact Hpr|lia].
  - rewrite cells_filled, entries_add by (rewrite ?Hlen; done). rewrite entries_prefix by done.
    rewrite Hc, He. cbn. apply Permutation_cons_append.
Qed.

Lemma wp_map_hash keyed s m (Q : Z -> mem -> Prop) : entry_ok c s -> Q (key_hash secret c keyed (key_data s)) m ->
  wp (map_hash secret map (key_data s) (key_size map) keyed) m Q.
Proof. intros Hs HQ. eapply wp_ub; [|exact HQ]. by apply (hash_entry secret c). Qed.

Lemma wp_place keyed b i new largest m : placed keyed b i new largest -> 0 <= i < oldC ->
  wp (place secret map C old keyed i (new, largest)) m
    (fun '(new', largest') m' => m' = m /\ placed keyed b (i + 1) new' largest').
Proof.
  intros Hp Hi. pose proof Hp as [Hb Hok Hr Hpr He]. unfold place. apply wp_bind, (wp_occupied oldC); [done..| |].
  { intros Hc. apply wp_ret. split; [done|]. by apply placed_skip. }
  intros s Hc. cbn [negb]. pose proof (old_entry i s Hc) as Hs.
  apply wp_bind, (wp_slot_at oldC _ i s); [done..|]. apply wp_bind, wp_map_hash; [done|].
  fold (home secret c keyed C s). pose proof (home_range secret c Hsecret Hcfg s keyed C HC Hs) as Hh.
  apply wp_bind, (wp_first_free C HC new Hok); [done|by eapply placed_room|].
  intros j Hj Hfree Hu. apply (wp_fill C); [done..|]. rewrite displacement_dist by done.
  pose proof (dist_range C _ j Hh Hj). apply wp_ret. split; [done|]. eapply placed_fill; [done..| |];
    rewrite Z.gtb_ltb; destruct (Z.ltb_spec largest (dist C (home secret c keyed C s) j)); lia.
Qed.

(** Every entry of the old block finds a slot in the new one. *)
Lemma wp_oa_place_all keyed new m : block_ok C new -> entries (cells new) = [] ->
  wp (oa_place_all secret map new C old oldC keyed) m
    (fun '(new', largest) m' => m' = m /\ placed keyed (blk new) oldC new' largest).
Proof.
  intros Hok Hempty. pose proof (capacity_range C HC) as HCr.
  assert (placed keyed (blk new) 0 new 0) as H0.
  { split; [done|done|lia| |by rewrite Hempty].
    by apply probed_nothing. }
  unfold oa_place_all. apply wp_bind.
  apply (wp_while (fun '(i, new', largest) m' => m' = m /\ 0 <= i <= oldC /\ placed keyed (blk new) i new' largest)
    (fun '(i, _, _) => Z.to_nat (oldC - i))).
  - intros [[i new'] largest] ? (-> & Hi & Hp) Hlt%Z.ltb_lt. apply wp_bind.
    eapply wp_mono; [apply (wp_place keyed (blk new)); [done|lia]|]. intros [new1 l1] m1 [-> Hp1].
    apply wp_ret. sz. split; [|lia]. split; [done|]. split; [lia|done].
  - intros [[i new'] largest] ? (-> & Hi & Hp) Hge%Z.ltb_ge. apply wp_ret.
    assert (i = oldC) as -> by lia. done.
  - split; [done|]. split; [lia|done].
  - lia.
Qed.

(** The attempt at unkeyed hashing either places them all within the cap or
    reports [SIZE_MAX]. *)
Lemma wp_fast_attempt new m : old = table map -> oldC = capacity map -> 0 <= count map ->
  block_ok C new -> entries (cells new) = [] ->
  wp (oa_place_all_fast_attempt secret map new C) m
    (fun '(new', largest) m' => m' = m /\ blk new' = blk new /\ block_ok C new' /\
       (largest = SIZE_MAX \/ placed false (blk new) oldC new' largest)).
Proof.
  intros Eold EC Hcount Hok Hempty. pose proof (capacity_range C HC) as HCr.
  assert (placed false (blk new) 0 new 0) as H0.
  { split; [done|done|lia| |by rewrite Hempty]. by apply probed_nothing. }
  unfold oa_place_all_fast_attempt. rewrite <- Eold, <- EC.
  apply (wp_loop (fun '(i, new', largest, sum) m' => m' = m /\ 0 <= i <= oldC /\ placed false (blk new) i new' largest)
    (fun '(i, _, _, _) => Z.to_nat (oldC - i))); [|split; [done|]; split; [lia|done]|lia].
  intros [[[i new'] largest] sum] ? (-> & Hi & Hp). pose proof Hp as [Hb Hok' Hr Hpr He].
  destruct (Z.ltb_spec i oldC) as [Hlt|Hge]; cbn [negb].
  2: { apply wp_ret. split; [done|]. split; [done|]. split; [done|]. right. by replace oldC with i by lia. }
  apply wp_bind, (wp_occupied oldC); [done|lia| |].
  { intros Hc. apply wp_ret. sz. split; [|lia]. split; [done|]. split; [lia|]. apply placed_skip; [done|lia|done]. }
  intros s Hc. cbn [negb]. pose proof (old_entry i s Hc) as Hs.
  apply wp_bind, (wp_slot_at oldC _ i s); [done..|]. apply wp_bind.
  eapply wp_ub; [etransitivity; [apply (hash_unkeyed secret c)|apply (hash_entry secret c); done]|].
  fold (home secret c false C s). pose proof (home_range secret c Hsecret Hcfg s false C HC Hs) as Hh.
  apply wp_bind, (wp_first_free_within C HC new' Hok'); [done|apply wrap_range|by eapply placed_room| |].
  2: { apply wp_ret. split; [done|]. split; [done|]. split; [done|by left]. }
  intros j Hj Hfree Hu Hcap. apply (wp_fill C); [done..|]. pose proof (dist_range C _ j Hh Hj).
  set (largest' := if dist C (home secret c false C s) j >? largest then _ else _).
  assert (largest <= largest' < C /\ dist C (home secret c false C s) j <= largest') as [Hl1 Hl2].
  { subst largest'. rewrite Z.gtb_ltb. destruct (Z.ltb_spec largest (dist C (home secret c false C s) j)); lia. }
  assert (placed false (blk new) (i + 1) (filled new' j s) largest') as Hp' by (by eapply placed_fill).
  clearbody largest'. case_match.
  - apply wp_ret. split; [done|]. split; [apply Hp'|]. split; [apply Hp'|by left].
  - apply wp_ret. sz. split; [|lia]. split; [done|]. split; [lia|done].
Qed.
End Placing.

(** ** Representation *)
Section Blocks.
Context {alloc : Allocator}.
Implicit Types (m : mem) (C : Z).

Lemma entries_free_block (l : list oa_slot) n : entries (zip_with cell_of l (replicate n 0)) = [].
Proof. revert n. induction l as [|s l IH]; intros [|n]; [done..|]. exact (IH n). Qed.

Lemma clear_block_ok t C : 0 <= C -> block_ok C (clear_block t C) /\ entries (cells (clear_block t C)) = [].
Proof.
  intros HC. split; [|apply entries_free_block]. split; cbn; [zlia|zlia| |].
  - apply Forall_replicate. by left.
  - apply Forall_replicate. done.
Qed.

(** A new block is all free slots. *)
Lemma wp_oa_alloc_block C m own F (Q : option oa_block -> mem -> Prop) : is_capacity C -> owns m own F ->
  (forall m', owns m' own F -> Q None m') ->
  (forall t m', owns m' ({[blk t]} ∪ own) F -> blk t ∉ own -> block_ok C t -> entries (cells t) = [] -> Q (Some t) m') ->
  wp (oa_alloc_block C) m Q.
Proof.
  intros HC Ho HN HS. pose proof (capacity_range C HC). unfold oa_alloc_block, OA_BLOCK_BYTES_PER_SLOT.
  destruct (_ || _) eqn:Eg; [by apply wp_ret, HN|]. apply orb_false_iff in Eg as [_ Eg].
  rewrite Z.gtb_ltb, Z.ltb_ge in Eg. change (SIZE_MAX `div` 17) with 1085102592571150095 in Eg.
  rewrite (wrap_small (C * 17)) by (unfold two64; lia).
  apply wp_bind, (wp_calloc_owns 1 (C * 17) m own F); [done|lia|intros m' Ho' _; by apply wp_ret, HN|].
  intros b m' Ho' Hnew _ Eb _. apply wp_ret. rewrite Eb. replace (1 * (C * 17)) with (C * 17) by lia.
  set (bytes := replicate (Z.to_nat (C * 17)) 0).
  assert (zlen bytes = C * 17) as Hbytes by (unfold bytes; zlia).
  assert (zdrop (16 * C) bytes = replicate (Z.to_nat C) 0) as Hmeta.
  { unfold bytes, zdrop. rewrite drop_replicate. f_equal. lia. }
  apply HS; cbn; [done|done| |rewrite Hmeta; apply entries_free_block].
  split; cbn; rewrite ?Hmeta.
  - unfold slots_of_bytes. rewrite zlen_fmap, zlen_chunks. lia.
  - zlia.
  - apply Forall_replicate. by left.
  - unfold slots_of_bytes. apply Forall_fmap. eapply Forall_impl; [apply Forall_chunks; [done|lia]|].
    intros s Hs. split; cbn in *; zlia.
Qed.
End Blocks.

(** The slots in use are the pairs of the map. *)
Record holds (c : config) (C : Z) (t : oa_block) (M : gmap (list Z) (list Z)) : Prop := Holds {
  ho_block : block_ok C t;
  ho_entries : Forall (entry_ok c) (entries (cells t));
  ho_pairs : pair_of c <$> entries (cells t) ≡ₚ map_to_list M;
}.

(** [map] represents the finite map [M], from keys of the map's key size to
    values of its value size. *)
Record repr (secret : chmap_hash_secret) (map : open_addr_map) (M : gmap (list Z) (list Z)) : Prop := Repr {
  re_config : config_ok (config_of map);
  re_capacity : is_capacity (capacity map);
  re_holds : holds (config_of map) (capacity map) (table map) M;
  re_probed : probed (capacity map) (home secret (config_of map) (oa_keyed map) (capacity map))
                (probe_span map) (cells (table map));
  re_span : oa_min_probe_span (capacity map) <= probe_span map <= capacity map;
  re_count : count map = Z.of_nat (size M);
  re_window : 0 <= insert_window map < two32;
}.

Section Holds.
Context (c : config) (C : Z) (t : oa_block) (M : gmap (list Z) (list Z)).
Hypothesis Hc : config_ok c.
Hypothesis Hh : holds c C t M.

Lemma holds_size : zlen (entries (cells t)) = Z.of_nat (size M).
Proof.
  destruct Hh as [_ _ Hp]. apply Permutation_length in Hp. rewrite length_fmap, length_map_to_list in Hp.
  unfold zlen. lia.
Qed.

Lemma holds_size_le : Z.of_nat (size M) <= C.
Proof. rewrite <- holds_size. rewrite <- (zlen_cells C t (ho_block _ _ _ _ Hh)). apply zlen_entries. Qed.

Lemma holds_entry i s : cell (cells t) i = Some s -> entry_ok c s.
Proof.
  intros Hcell. pose proof (ho_entries _ _ _ _ Hh) as H. rewrite Forall_forall in H. apply H, elem_entries. by exists i.
Qed.

Lemma holds_lookup i s : cell (cells t) i = Some s -> M !! key_of c s = Some (val_of c s).
Proof.
  intros Hcell. apply elem_of_map_to_list. rewrite <- (ho_pairs _ _ _ _ Hh).
  apply (list_elem_of_fmap_2 (pair_of c)), elem_entries. by exists i.
Qed.

Lemma holds_find key v : M !! key = Some v ->
  exists i s, cell (cells t) i = Some s /\ key_data s = widen key /\ val_of c s = v /\ valid_key c key.
Proof.
  intros Hl%elem_of_map_to_list. rewrite <- (ho_pairs _ _ _ _ Hh) in Hl.
  apply list_elem_of_fmap in Hl as (s & E & (i & Hcell)%elem_entries).
  injection E as -> ->. exists i, s. destruct (entry_key c Hc s (holds_entry i s Hcell)) as [Hk E].
  by split_and!.
Qed.

(** Two slots don't hold the same key. *)
Lemma holds_inj i j s s' : cell (cells t) i = Some s -> cell (cells t) j = Some s' -> key_data s = key_data s' -> i = j.
Proof.
  intros H1 H2 H3. eapply (entries_inj key_data); [|exact H1|exact H2|exact H3]. apply (NoDup_fmap_1 (ztake (c_key_size c))).
  rewrite <- list_fmap_compose. change (ztake (c_key_size c) ∘ key_data) with (key_of c).
  change (key_of c) with (fst ∘ pair_of c). rewrite list_fmap_compose, (ho_pairs _ _ _ _ Hh).
  apply NoDup_fst_map_to_list.
Qed.

(** The slot that holds a key. *)
Lemma holds_word i s key : valid_key c key -> cell (cells t) i = Some s -> key_data s = widen key ->
  M !! key = Some (val_of c s).
Proof.
  intros Hk Hcell E. pose proof (holds_lookup i s Hcell) as Hl. unfold key_of in Hl.
  by rewrite E, (proj2 (valid_key_len c Hc key Hk)) in Hl.
Qed.
Lemma holds_absent key : valid_key c key -> (forall i s, cell (cells t) i = Some s -> key_data s <> widen key) ->
  M !! key = None.
Proof.
  intros Hk Hn. destruct (M !! key) as [v|] eqn:E; [|done]. apply holds_find in E as (i & s & Hcell & Ek & _).
  by destruct (Hn i s Hcell).
Qed.
End Holds.

(** ** Rebuilding *)
Section Rebuild.
Context {alloc : Allocator} (secret : chmap_hash_secret) (Hsecret : secret_ok secret).
Implicit Types (m : mem) (map : open_addr_map) (M : gmap (list Z) (list Z)).

(** The map before a rebuild need not be probed: a rebuild only reads which
    slots are in use. *)
Record stored map M : Prop := Stored {
  st_config : config_ok (config_of map);
  st_capacity : is_capacity (capacity map);
  st_holds : holds (config_of map) (capacity map) (table map) M;
  st_count : count map = Z.of_nat (size M);
}.

Lemma repr_stored map M : repr secret map M -> stored map M.
Proof. by intros []. Qed.

Lemma window_restart_range map : 0 <= insert_window (oa_window_restart map) < two32.
Proof. done. Qed.

(** The map made of a block that took every entry. *)
Lemma placed_repr map M C keyed new largest b : stored map M -> is_capacity C ->
  placed secret map C (table map) keyed b (capacity map) new largest ->
  repr secret
    (oa_window_restart (set_mode (set_span (set_capacity (set_table map new) C)
       (if largest ⊕ 1 >? oa_min_probe_span C then largest ⊕ 1 else oa_min_probe_span C))
       (if keyed then CHMAP_HASH_KEYED else CHMAP_HASH_FAST))) M.
Proof.
  intros [Hcfg HCm Hh Hn] HC [Hb Hok Hr Hpr He]. pose proof (capacity_range C HC) as HCr.
  destruct Hh as [Hok0 Hen Hp]. rewrite ztake_all in He by (rewrite (zlen_cells (capacity map)); done).
  sz. rewrite Z.gtb_ltb. set (span := if _ <? _ then _ else _).
  assert (largest + 1 <= span /\ oa_min_probe_span C <= span <= C) as [Hs1 Hs2].
  { subst span. unfold oa_min_probe_span, OA_DEEP_INSERT.
    destruct (Z.ltb_spec C 32); case_match eqn:E; rewrite ?Z.ltb_lt, ?Z.ltb_ge in E; lia. }
  clearbody span. split; cbn; [done|done| | |done|done|done].
  - split; cbn; [done|by rewrite He|by rewrite He].
  - apply (probed_wider _ _ _ (largest + 1)); [|done]. destruct keyed; exact Hpr.
Qed.

Lemma insert_cap_small C : is_capacity C -> 0 <= oa_insert_cap C < SIZE_MAX.
Proof.
  intros HC. unfold oa_insert_cap, SIZE_MAX. pose proof (wrap_range 0) as _.
  assert (0 <= chmap_log2_pow2 C) by apply Z.log2_nonneg.
  unfold OA_CAP_PER_DOUBLING, OA_CAP_LOG2_CEILING. destruct (Z.ltb_spec (chmap_log2_pow2 C) 12); sz; lia.
Qed.

Definition rebuild_post map M keyed C F : ccol_retval_t * open_addr_map -> mem -> Prop := fun '(r, map') m' =>
  (r = ccol_not_enough_memory /\ map' = map /\ owns m' {[blk (table map)]} F) \/
  (r = ccol_success /\ repr secret map' M /\ owns m' {[blk (table map')]} F /\ capacity map' = C /\
   config_of map' = config_of map /\ (keyed = true -> oa_keyed map' = true)).

Lemma wp_oa_rebuild map M keyed C m F : stored map M -> is_capacity C -> Z.of_nat (size M) <= C ->
  owns m {[blk (table map)]} F -> wp (oa_rebuild secret map C keyed) m (rebuild_post map M keyed C F).
Proof.
  intros Hst HC Hroom Ho. pose proof Hst as [Hcfg HCm Hh Hn]. pose proof Hh as [Hok Hen _].
  pose proof (capacity_range C HC) as HCr. pose proof (capacity_range _ HCm) as HCmr.
  rewrite <- (holds_size _ _ _ _ Hh) in Hroom.
  unfold oa_rebuild. apply wp_bind, (wp_oa_alloc_block C m {[blk (table map)]} F); [done|done| |].
  { intros m' Ho'. apply wp_ret. by left. }
  intros new m1 Ho1 Hfresh Hnew Hempty. apply wp_bind.
  assert (forall k t, blk t = blk new -> block_ok C t -> entries (cells t) = [] ->
    wp (oa_place_all secret map t C (table map) (capacity map) k) m1 (fun '(new', largest) m' => m' = m1 /\
      placed secret map C (table map) k (blk new) (capacity map) new' largest)) as Hall.
  { intros k t Eb Hok' He'. rewrite <- Eb. apply wp_oa_place_all; try done. unfold two64; lia. }
  assert (forall k new' largest, placed secret map C (table map) k (blk new) (capacity map) new' largest ->
    (keyed = true -> k = true) ->
    wp (_ccol_mem_free (blk (table map));;
      let map := set_capacity (set_table map new') C in
      let span := oa_min_probe_span C in
      let map := set_span map (if largest ⊕ 1 >? span then largest ⊕ 1 else span) in
      let map := set_mode map (if (k : bool) then CHMAP_HASH_KEYED else CHMAP_HASH_FAST) in
      mret (ccol_success, oa_window_restart map)) m1 (rebuild_post map M keyed C F)) as Hend.
  { intros k new' largest Hp Hk. apply wp_bind. eapply wp_free_owns; [exact Ho1|set_solver|].
    intros m2 Ho2. apply wp_ret. right. split; [done|]. split; [by eapply placed_repr|].
    split; [cbn; rewrite (pl_blk _ _ _ _ _ _ _ _ _ Hp); apply (owns_change _ _ _ _ Ho2); set_solver|].
    split; [done|]. split; [done|]. intros E. cbn. by rewrite (Hk E). }
  eapply (wp_mono _ _ (fun '(new', largest) m' => m' = m1 /\ blk new' = blk new /\ block_ok C new' /\
    ((keyed = false /\ largest = SIZE_MAX) \/ placed secret map C (table map) keyed (blk new) (capacity map) new' largest))).
  { destruct (negb keyed && oa_keyed map) eqn:Eb.
    - apply andb_true_iff in Eb as [Ek _]. apply negb_true_iff in Ek. subst keyed.
      eapply wp_mono; [apply (wp_fast_attempt secret Hsecret map Hcfg C HC (table map) (capacity map)); try done; unfold two64; lia|].
      intros [new' largest] m' (-> & Hb' & Hok' & Hor). split_and!; [done..|]. destruct Hor; auto.
    - eapply wp_mono; [by apply (Hall keyed new)|]. intros [new' largest] m' [-> Hp].
      split_and!; [done|apply (pl_blk _ _ _ _ _ _ _ _ _ Hp)|apply (pl_block _ _ _ _ _ _ _ _ _ Hp)|by right]. }
  intros [new' largest] ? (-> & Hb' & Hok' & Hres). apply wp_bind.
  destruct (negb keyed && (largest >? oa_insert_cap C)) eqn:Eg.
  - pose proof (clear_block_ok new' C ltac:(lia)) as [Hclr Hclre]. apply wp_bind.
    eapply wp_mono; [by apply (Hall true (clear_block new' C))|].
    intros [new2 l2] m2 [-> Hp2]. apply wp_ret. by apply (Hend true new2 l2).
  - apply wp_ret. destruct Hres as [[-> ->]|Hp]; [|by apply (Hend keyed new' largest)].
    cbn [negb andb] in Eg. rewrite Z.gtb_ltb, Z.ltb_ge in Eg. pose proof (insert_cap_small C HC). lia.
Qed.
End Rebuild.

(** ** Finding a stored key again, and judging an insertion *)
Section Keeping.
Context {alloc : Allocator} (secret : chmap_hash_secret) (Hsecret : secret_ok secret).
Implicit Types (m : mem) (map : open_addr_map) (M : gmap (list Z) (list Z)).

Lemma repr_home map M i s : repr secret map M -> cell (cells (table map)) i = Some s ->
  0 <= home secret (config_of map) (oa_keyed map) (capacity map) s < capacity map.
Proof.
  intros [Hcfg HC Hh _ _ _ _] Hc. apply home_range; [done..|]. by eapply holds_entry.
Qed.

Lemma repr_span map M : repr secret map M -> 1 <= probe_span map <= capacity map.
Proof.
  intros [_ HC _ _ Hs _ _]. pose proof (capacity_range _ HC). unfold oa_min_probe_span, OA_DEEP_INSERT in Hs.
  destruct (Z.ltb_spec (capacity map) 32); lia.
Qed.

Lemma wp_find_stored_key map M i s m (Q : Z -> mem -> Prop) : repr secret map M ->
  cell (cells (table map)) i = Some s ->
  (forall i' s', cell (cells (table map)) i' = Some s' -> key_data s' = key_data s -> Q i' m) ->
  wp (oa_find_stored_key secret map (key_data s)) m Q.
Proof.
  intros Hr Hc HQ. pose proof Hr as [Hcfg HC Hh Hp _ _ _]. pose proof (ho_block _ _ _ _ Hh) as Hok.
  pose proof (capacity_range _ HC) as HCr. pose proof (repr_span map M Hr) as Hsp.
  pose proof (holds_entry _ _ _ _ Hh i s Hc) as Hs. destruct (entry_key _ Hcfg s Hs) as [Hk Ek].
  pose proof (repr_home map M i s Hr Hc) as Hhome. unfold home in Hhome.
  pose proof (span_bound _ _ _ _ Hp i s Hc) as Hi. unfold home in Hi.
  pose proof (cell_Some _ _ _ Hc) as Hir. rewrite (zlen_cells _ _ Hok) in Hir.
  unfold oa_find_stored_key, map_hash, key_buffer. apply wp_bind. eapply wp_ub.
  { rewrite Ek. unfold widen. rewrite <- app_assoc. by apply (hash_key secret (config_of map)). }
  rewrite <- Ek. set (h := hash_index_for _ _) in *. clearbody h.
  set (P x := forall s', cell (cells (table map)) x = Some s' -> key_data s' <> key_data s).
  apply (wp_loop (fun '(x, left_) m' => m' = m /\ 0 <= x < capacity map /\ upto (capacity map) P h x /\
    0 <= left_ <= probe_span map /\ dist (capacity map) h x = probe_span map - left_ \/
    m' = m /\ left_ = 0 /\ (forall x, 0 <= x < capacity map -> dist (capacity map) h x < probe_span map -> P x))
    (fun '(_, left_) => Z.to_nat left_)).
  2: { left. split_and!; [done|lia..|by apply upto_start|lia|lia|]. rewrite dist_refl. lia. }
  2: { lia. }
  intros [x left_] m' [(-> & Hx & Hu & Hl & Hd)|(-> & -> & Hall)].
  2: { exfalso. by apply (Hall i Hir Hi s Hc). }
  destruct (Z.eqb_spec left_ 0) as [->|Hne].
  { exfalso. apply (Hu i Hir ltac:(lia) s Hc). done. }
  apply wp_bind, (wp_occupied (capacity map)); [done..| |].
  - intros Hfree. apply wp_bind, wp_ret, wp_ret. rewrite next_index_next by done. sz. split; [|lia].
    assert (P x) as HP by (intros s'; congruence).
    destruct (decide (next (capacity map) x = h)) as [E|Hn].
    + right. pose proof (upto_around _ P h x Hhome Hx Hu HP E) as Hall.
      pose proof (dist_around _ h x Hhome Hx E). split_and!; [done|lia|]. intros y Hy _. by apply Hall.
    + left. split; [done|]. split; [by apply next_range|]. split; [by apply upto_next|]. split; [lia|].
      rewrite dist_next by done. lia.
  - intros s' Hs'. apply wp_bind. apply wp_bind, (wp_slot_at (capacity map) _ x s'); [done..|]. apply wp_ret.
    unfold oa_keys_equal. case_bool_decide as Hkey; [apply wp_ret; by eapply HQ|].
    apply wp_ret. rewrite next_index_next by done. sz. split; [|lia].
    assert (P x) as HP by (intros s''; congruence).
    destruct (decide (next (capacity map) x = h)) as [E|Hn].
    + right. pose proof (upto_around _ P h x Hhome Hx Hu HP E) as Hall.
      pose proof (dist_around _ h x Hhome Hx E). split_and!; [done|lia|]. intros y Hy _. by apply Hall.
    + left. split; [done|]. split; [by apply next_range|]. split; [by apply upto_next|]. split; [lia|].
      rewrite dist_next by done. lia.
Qed.

(** The map is the same finite map afterwards, and the index follows the key
    to wherever it moved. *)
Definition kept map M F word : Z * open_addr_map -> mem -> Prop := fun '(i', map') m' =>
  repr secret map' M /\ config_of map' = config_of map /\ owns m' {[blk (table map')]} F /\
  exists s', cell (cells (table map')) i' = Some s' /\ key_data s' = word.

Lemma wp_switch_keeping map M i s m F : repr secret map M -> cell (cells (table map)) i = Some s ->
  owns m {[blk (table map)]} F -> wp (oa_switch_keeping secret map i) m (kept map M F (key_data s)).
Proof.
  intros Hr Hc Ho. pose proof Hr as [Hcfg HC Hh _ _ _ _]. pose proof (ho_block _ _ _ _ Hh) as Hok.
  unfold oa_switch_keeping. apply wp_bind, (wp_slot_at (capacity map) _ i s); [done..|]. apply wp_bind.
  eapply wp_mono.
  { apply (wp_oa_rebuild secret Hsecret map M true (capacity map) m F); [by eapply repr_stored|done| |done].
    by eapply holds_size_le. }
  intros [r map'] m' [(-> & -> & Ho')|(-> & Hr' & Ho' & HC' & Hcfg' & _)].
  - rewrite bool_decide_false by done. apply wp_ret. split_and!; [done..|]. by exists s.
  - rewrite bool_decide_true by done. cbn [negb]. pose proof Hr' as [Hc' _ Hh' _ _ _ _].
    assert (M !! key_of (config_of map) s = Some (val_of (config_of map) s)) as Hl by by eapply holds_lookup.
    destruct (holds_find _ _ _ _ Hc' Hh' _ _ Hl) as (j & s' & Hj & Ej & _ & _).
    destruct (entry_key _ Hcfg s (holds_entry _ _ _ _ Hh i s Hc)) as [_ Es]. rewrite Es, <- Ej.
    apply wp_bind, (wp_find_stored_key map' M j s'); [done..|]. intros i' s'' Hi' Es''. apply wp_ret.
    split_and!; [done..|]. by exists s''.
Qed.

Lemma set_span_repr map M span : repr secret map M -> probe_span map <= span <= capacity map ->
  repr secret (set_span map span) M.
Proof.
  intros [Hcfg HC Hh Hp Hs Hn Hw] Hspan. split; cbn; [done..| |lia|done|done].
  eapply probed_wider; [exact Hp|lia].
Qed.
Lemma set_window_repr map M b w : repr secret map M -> 0 <= w < two32 -> repr secret (set_window map b w) M.
Proof. intros [Hcfg HC Hh Hp Hs Hn Hw] H. by split. Qed.

(** A filled map: its newest entry may lie beyond the span. *)
Record filled_repr map M (i d : Z) (s : oa_slot) : Prop := FilledRepr {
  fr_repr : repr secret (set_span map (Z.max (probe_span map) (d + 1))) M;
  fr_min : oa_min_probe_span (capacity map) <= probe_span map;
  fr_cell : cell (cells (table map)) i = Some s;
  fr_disp : 0 <= d < capacity map;
}.

Lemma wp_note_deep_insert map M i d s m F : filled_repr map M i d s -> owns m {[blk (table map)]} F ->
  wp (oa_note_deep_insert secret map i d) m (kept map M F (key_data s)).
Proof.
  intros [Hr _ Hc Hd] Ho. pose proof (capacity_range _ (re_capacity _ _ _ Hr)) as HCr. cbn in HCr.
  unfold oa_note_deep_insert. rewrite Z.geb_leb. sz.
  assert ((if probe_span map <=? d then set_span map (d + 1) else map) = set_span map (Z.max (probe_span map) (d + 1))) as ->.
  { destruct (Z.leb_spec (probe_span map) d); [f_equal; lia|]. rewrite Z.max_l by lia. by destruct map. }
  set (map1 := set_span map _) in *. case_match.
  - eapply wp_mono; [by apply (wp_switch_keeping map1 M i s)|]. by intros [i' map'] m'.
  - apply wp_ret. split_and!; [done..|]. by exists s.
Qed.

Lemma wp_window_end map M i s m F : repr secret map M -> cell (cells (table map)) i = Some s ->
  owns m {[blk (table map)]} F -> wp (oa_window_end secret map i) m (kept map M F (key_data s)).
Proof.
  intros Hr Hc Ho. unfold oa_window_end. assert (repr secret (oa_window_restart map) M) as Hr' by by apply set_window_repr.
  case_match; [by apply (wp_switch_keeping (oa_window_restart map) M i s)|].
  apply wp_ret. split_and!; [done..|]. by exists s.
Qed.

(** A displacement that is not deep is within every span. *)
Lemma shallow_repr map M i d s : filled_repr map M i d s -> d < OA_DEEP_INSERT -> repr secret map M.
Proof.
  intros [Hr Hmin Hc Hd] Hlt. unfold oa_min_probe_span in Hmin. rewrite Z.max_l in Hr.
  - by destruct map.
  - destruct (Z.ltb_spec (capacity map) OA_DEEP_INSERT); lia.
Qed.

Lemma wp_entry_added map M i s m F (slot_out : bool) : 0 <= count map < two64 - 1 ->
  let d := dist (capacity map) (home secret (config_of map) (oa_keyed map) (capacity map) s) i in
  filled_repr (set_count map (count map + 1)) M i d s -> owns m {[blk (table map)]} F ->
  wp (entry_added secret map i (home secret (config_of map) (oa_keyed map) (capacity map) s) slot_out) m
    (fun '(r, out, map') m' => r = ccol_success /\ exists i',
       out = (if slot_out then Some (oa_fill_val_pair map' i') else None) /\ kept map M F (key_data s) (i', map') m').
Proof.
  intros Hcount d Hf Ho. pose proof Hf as [Hr _ Hc Hd]. pose proof (re_capacity _ _ _ Hr) as HC. cbn in HC.
  pose proof (zlen_cells _ _ (ho_block _ _ _ _ (re_holds _ _ _ Hr))) as Hlen. cbn in Hlen, Hc.
  pose proof (cell_Some _ _ _ Hc) as Hi. rewrite Hlen in Hi. pose proof (repr_home _ M i s Hr Hc) as Hhome. cbn in Hhome.
  unfold entry_added. rewrite (wrap_small (count map + 1)) by lia. cbn [capacity set_count].
  rewrite displacement_dist by done. change (dist _ _ i) with d. set (map1 := set_count map (count map + 1)) in *.
  apply wp_bind. eapply (wp_mono _ _ (kept map1 M F (key_data s))).
  { rewrite Z.geb_leb. destruct (Z.leb_spec OA_DEEP_INSERT d); [by apply wp_note_deep_insert|].
    apply wp_ret. split; [by eapply shallow_repr|]. split; [done|]. split; [done|]. by exists s. }
  intros [i1 map2] m2 (Hr2 & Hcfg2 & Ho2 & s2 & Hc2 & Es2). cbn [chmap_window_add].
  set (sum := insert_window map2 + _).
  assert (repr secret (set_window map2 (window_bound map2) (sum `mod` two32)) M) as Hr3.
  { apply set_window_repr; [done|]. apply Z.mod_pos_bound. done. }
  set (map3 := set_window _ _ _) in *. apply wp_bind.
  eapply (wp_mono _ _ (kept map M F (key_data s))).
  { case_match; [|apply wp_ret; by split_and!; [..|exists s2]].
    eapply wp_mono; [by apply (wp_window_end map3 M i1 s2)|]. rewrite Es2. intros [i3 map4] m4 (? & E & ? & ?).
    split; [done|]. split; [|done]. rewrite E. exact Hcfg2. }
  intros [i3 map4] m4 Hk. apply wp_ret. split; [done|]. by exists i3.
Qed.
End Keeping.

(** ** Changing one slot *)
Section OneSlot.
Context (c : config) (Hc : config_ok c) (C : Z) (t : oa_block) (M : gmap (list Z) (list Z)).
Hypothesis Hh : holds c C t M.

(** The slots apart from one hold the map without its key. *)
Lemma rest_pairs i s : cell (cells t) i = Some s ->
  pair_of c <$> entries (upd (cells t) i None) ≡ₚ map_to_list (delete (key_of c s) M).
Proof.
  intros Hcell. apply (Permutation_cons_inv (a := pair_of c s)). change (pair_of c s) with (key_of c s, val_of c s) at 2.
  rewrite map_to_list_delete by (by eapply holds_lookup). rewrite <- (ho_pairs _ _ _ _ Hh).
  rewrite <- fmap_cons. by rewrite <- entries_del.
Qed.

Lemma holds_update i s0 s key v : cell (cells t) i = Some s0 -> key_of c s0 = key -> pair_of c s = (key, v) ->
  entry_ok c s -> holds c C (with_slot t i s) (<[key := v]> M).
Proof.
  intros Hcell Ek Ep Hs. pose proof (ho_block _ _ _ _ Hh) as Hok.
  pose proof (cells_with_slot C t i s s0 Hok Hcell) as E.
  destruct (entries_upd (cells t) i s0 s Hcell) as [E1 E2]. split; [apply with_slot_ok; [done|apply Hs]| |].
  - rewrite E, E2. constructor; [done|]. pose proof (ho_entries _ _ _ _ Hh) as Hen. rewrite E1 in Hen.
    by apply Forall_cons in Hen as [_ Hen].
  - rewrite E, E2, fmap_cons, rest_pairs by done. rewrite Ek, Ep, <- insert_delete_eq.
    by rewrite map_to_list_insert by apply lookup_delete_eq.
Qed.

Lemma holds_insert i s key v : 0 <= i < C -> cell (cells t) i = None -> M !! key = None -> pair_of c s = (key, v) ->
  entry_ok c s -> holds c C (filled t i s) (<[key := v]> M).
Proof.
  intros Hi Hcell Hk Ep Hs. pose proof (ho_block _ _ _ _ Hh) as Hok.
  pose proof (zlen_cells C t Hok) as Hl. rewrite <- Hl in Hi.
  split; [apply filled_ok; [done|apply Hs]| |]; rewrite cells_filled, entries_add by done.
  - constructor; [done|apply Hh].
  - rewrite fmap_cons, Ep, map_to_list_insert by done. constructor. apply Hh.
Qed.

Lemma holds_delete i s : cell (cells t) i = Some s -> holds c C (emptied t i) (delete (key_of c s) M).
Proof.
  intros Hcell. pose proof (ho_block _ _ _ _ Hh) as Hok. pose proof (cell_Some _ _ _ Hcell) as Hi.
  rewrite (zlen_cells C t Hok) in Hi. pose proof (cells_emptied C t i Hok Hi) as E.
  split; [by apply emptied_ok| |]; rewrite E.
  - pose proof (ho_entries _ _ _ _ Hh) as Hen. rewrite (entries_del _ _ _ Hcell) in Hen.
    by apply Forall_cons in Hen as [_ Hen].
  - by apply rest_pairs.
Qed.
End OneSlot.

Lemma holds_same c C t t' M : holds c C t M -> block_ok C t' -> entries (cells t') ≡ₚ entries (cells t) -> holds c C t' M.
Proof. intros [Hok Hen Hp] Hok' E. split; [done|by rewrite E|by rewrite E]. Qed.

(** ** Insertion *)
Lemma splice_zeroes key : zlen key <= 8 -> splice (replicate 8 0) 0 key = widen key.
Proof.
  intros Hl. pose proof (zlen_nonneg key). unfold splice, widen.
  change (ztake 0 (replicate 8 0)) with (@nil Z). cbn [app]. apply (f_equal (app key)).
  unfold zdrop. rewrite drop_replicate. f_equal. lia.
Qed.

Section Insert.
Context {alloc : Allocator} (secret : chmap_hash_secret) (Hsecret : secret_ok secret).
Implicit Types (m : mem) (map : open_addr_map) (M : gmap (list Z) (list Z)).

(** An argument and the bytes it stands for. *)
Definition gives map (p : cmap_pair) (n : Z) (bs : list Z) : Prop :=
  pair_size p = n /\ source (table map) (pair_ptr p) n bs.

(** A pointer handed out reads the value of the key. *)
Definition points_to map (out : option cmap_pair) (v : list Z) : Prop :=
  exists p, out = Some p /\ pair_size p = val_size map /\ source (table map) (pair_ptr p) (val_size map) v.

Lemma fill_val_pair_points map M i s key v : repr secret map M -> valid_key (config_of map) key ->
  cell (cells (table map)) i = Some s -> key_data s = widen key -> M !! key = Some v ->
  points_to map (Some (oa_fill_val_pair map i)) v.
Proof.
  intros [Hcfg _ Hh _ _ _ _] Hk Hc E Hl. pose proof (holds_word _ _ _ _ Hcfg Hh i s key Hk Hc E) as Hl'.
  rewrite Hl in Hl'. injection Hl' as ->. pose proof (type_sizes _ Hcfg) as (_ & Hv & _). cbn in Hv.
  destruct (holds_entry _ _ _ _ Hh i s Hc) as [[Hkd Hvd] _].
  exists (oa_fill_val_pair map i). do 2 (split; [done|]). cbn. unfold val_offset.
  assert (val_of (config_of map) s = slice (slot_bytes s) 8 (val_size map)) as ->.
  { unfold val_of, slot_bytes, slice. by rewrite zdrop_app_exact. }
  constructor; [done|lia..].
Qed.

Lemma wp_widen map key p m (Q : list Z -> mem -> Prop) : config_ok (config_of map) ->
  block_ok (capacity map) (table map) -> gives map p (key_size map) key -> valid_key (config_of map) key ->
  Q (widen key) m -> wp (oa_widen_key (table map) (pair_ptr p) (pair_size p)) m Q.
Proof.
  intros Hcfg Hok [-> Hsrc] [Hlen _] HQ. pose proof (type_sizes _ Hcfg) as (Hks & _ & _). cbn in Hks, Hlen.
  unfold oa_widen_key. rewrite Z.gtb_ltb. destruct (Z.ltb_spec 8 (key_size map)); [lia|].
  apply wp_bind. eapply wp_read_source; [done..|]. change 8%nat with (Z.to_nat 8).
  apply wp_memcpy_in; [done|zlia|]. by rewrite splice_zeroes by lia.
Qed.

(** The state of the map with a key added, before the walk is judged. *)
Lemma add_repr map M i s key v : repr secret map M -> M !! key = None -> 0 <= i < capacity map ->
  cell (cells (table map)) i = None ->
  upto (capacity map) (fun x => is_Some (cell (cells (table map)) x))
    (home secret (config_of map) (oa_keyed map) (capacity map) s) i ->
  pair_of (config_of map) s = (key, v) -> entry_ok (config_of map) s ->
  let map1 := set_table map (filled (table map) i s) in
  filled_repr secret (set_count map1 (count map + 1)) (<[key := v]> M) i
    (dist (capacity map) (home secret (config_of map) (oa_keyed map) (capacity map) s) i) s.
Proof.
  intros Hr Hk Hi Hfree Hu Ep Hs map1. pose proof Hr as [Hcfg HC Hh Hp Hsp Hn Hw].
  pose proof (home_range secret _ Hsecret Hcfg s (oa_keyed map) _ HC Hs) as Hhome.
  pose proof (dist_range _ _ i Hhome Hi) as Hd. pose proof (zlen_cells _ _ (ho_block _ _ _ _ Hh)) as Hl.
  split; cbn; [|lia| |done].
  - split; cbn; [done|done|by apply holds_insert| | | |done].
    + rewrite cells_filled.
      apply (probed_add _ (home secret (config_of map) (oa_keyed map) (capacity map))); [done| | |done..|lia].
      * intros j s' Hj. exact (repr_home secret Hsecret map M j s' Hr Hj).
      * eapply probed_wider; [exact Hp|lia].
    + lia.
    + rewrite map_size_insert_None by done. lia.
  - rewrite cells_filled, cell_upd_eq by lia. done.
Qed.

Lemma wp_fill_added map M i s key v m F (slot_out : bool) : repr secret map M -> M !! key = None ->
  count map < ccol_max_elem_count ->
  0 <= i < capacity map -> cell (cells (table map)) i = None ->
  upto (capacity map) (fun x => is_Some (cell (cells (table map)) x))
    (home secret (config_of map) (oa_keyed map) (capacity map) s) i ->
  pair_of (config_of map) s = (key, v) -> entry_ok (config_of map) s -> owns m {[blk (table map)]} F ->
  wp (entry_added secret (set_table map (filled (table map) i s)) i
        (home secret (config_of map) (oa_keyed map) (capacity map) s) slot_out) m
    (fun '(r, out, map') m' => r = ccol_success /\ repr secret map' (<[key := v]> M) /\
       config_of map' = config_of map /\ owns m' {[blk (table map')]} F /\
       if slot_out then points_to map' out v else out = None).
Proof.
  intros Hr Hk Hn Hi Hfree Hu Ep Hs Ho. pose proof (add_repr map M i s key v Hr Hk Hi Hfree Hu Ep Hs) as Hf.
  pose proof (re_count _ _ _ Hr) as Hcount. pose proof (re_config _ _ _ Hr) as Hcfg.
  destruct (entry_key _ Hcfg s Hs) as [Hvk Ekd]. injection Ep as Ekey Eval. rewrite Ekey in Hvk, Ekd.
  unfold ccol_max_elem_count in Hn.
  eapply wp_mono; [apply (wp_entry_added secret Hsecret (set_table map (filled (table map) i s)) (<[key := v]> M) i s m F slot_out)|].
  - cbn. unfold two64. lia.
  - exact Hf.
  - done.
  - intros [[r out] map'] m' (-> & i' & -> & Hr' & Hcfg' & Ho' & s' & Hc' & Es'). cbn in Hcfg'.
    split_and!; [done..|]. destruct slot_out; [|done].
    eapply fill_val_pair_points; [done| |done|by rewrite Es'|apply lookup_insert_eq]. by rewrite Hcfg'.
Qed.

Definition new_entry (key v : list Z) : oa_slot := OaSlot (widen key) (widen v).

Lemma new_entry_ok map key v : config_ok (config_of map) -> valid_key (config_of map) key -> zlen v = val_size map ->
  pair_of (config_of map) (new_entry key v) = (key, v) /\ entry_ok (config_of map) (new_entry key v).
Proof.
  intros Hcfg Hk Hv. pose proof (type_sizes _ Hcfg) as (_ & Hvs & _). cbn in Hvs.
  destruct (valid_key_len _ Hcfg key Hk) as [Hl Et]. unfold pair_of, key_of, val_of, new_entry. cbn in Et |- *.
  rewrite Et. split; [f_equal; unfold widen; by apply ztake_app_exact|].
  split; [|by exists key]. split; [done|]. cbn. unfold widen. zlia.
Qed.

(** The copies into the free slot found read sources outside it. *)
Lemma wp_copy_to_key C t i s0 p n bs m (Q : oa_block -> mem -> Prop) : block_ok C t -> 0 <= i < C ->
  cell (cells t) i = None -> wide s0 -> source t p n bs -> n <= 8 ->
  Q (with_slot t i (OaSlot (splice (key_data s0) 0 bs) (val_data s0))) m ->
  wp (copy_to_key (with_slot t i s0) i p n) m Q.
Proof.
  intros Hok Hi Hfree Hw Hs Hn HQ. destruct (source_len t p n bs C Hok Hs) as [Hl Hn0].
  assert (block_ok C (with_slot t i s0)) as Hok1 by by apply with_slot_ok.
  assert (cells (with_slot t i s0) = cells t) as Ec by by eapply cells_with_slot_free.
  assert (source (with_slot t i s0) p n bs) as Hs1 by by apply (source_same t).
  unfold copy_to_key. rewrite (source_apart C _ _ _ bs i); [|done|done|by rewrite Ec|unfold key_offset; lia..].
  apply wp_bind. eapply wp_read_source; [done..|]. apply wp_bind. eapply wp_ub.
  { cbn. unfold with_slot, zget. cbn. destruct (Z.leb_spec 0 i); [|lia]. apply list_lookup_insert_eq.
    pose proof (bo_slots _ _ Hok). unfold zlen in *. lia. }
  destruct Hw as [Hkd Hvd]. apply wp_bind, wp_memcpy_in; [done|lia|]. apply (wp_set_slot C); [done..|].
  unfold with_slot. cbn. by rewrite list_insert_insert_eq.
Qed.

Lemma wp_copy_to_val C t i s0 p n bs m (Q : oa_block -> mem -> Prop) : block_ok C t -> 0 <= i < C ->
  cell (cells t) i = None -> wide s0 -> source t p n bs -> n <= 8 ->
  Q (with_slot t i (OaSlot (key_data s0) (splice (val_data s0) 0 bs))) m ->
  wp (copy_to_val (with_slot t i s0) i p n) m Q.
Proof.
  intros Hok Hi Hfree Hw Hs Hn HQ. destruct (source_len t p n bs C Hok Hs) as [Hl Hn0].
  assert (block_ok C (with_slot t i s0)) as Hok1 by by apply with_slot_ok.
  assert (cells (with_slot t i s0) = cells t) as Ec by by eapply cells_with_slot_free.
  assert (source (with_slot t i s0) p n bs) as Hs1 by by apply (source_same t).
  unfold copy_to_val. rewrite (source_apart C _ _ _ bs i); [|done|done|by rewrite Ec|unfold val_offset; lia..].
  apply wp_bind. eapply wp_read_source; [done..|]. apply wp_bind. eapply wp_ub.
  { cbn. unfold with_slot, zget. cbn. destruct (Z.leb_spec 0 i); [|lia]. apply list_lookup_insert_eq.
    pose proof (bo_slots _ _ Hok). unfold zlen in *. lia. }
  destruct Hw as [Hkd Hvd]. apply wp_bind, wp_memcpy_in; [done|lia|]. apply (wp_set_slot C); [done..|].
  unfold with_slot. cbn. by rewrite list_insert_insert_eq.
Qed.

(** What an insertion of a key that is not there leaves. *)
Definition added map M key v F (slot_out : bool) : ccol_retval_t * option cmap_pair * open_addr_map -> mem -> Prop :=
  fun '(r, out, map') m' =>
    r = ccol_success /\ repr secret map' (<[key := v]> M) /\
    config_of map' = config_of map /\ owns m' {[blk (table map')]} F /\
    if slot_out then points_to map' out v else out = None.

Lemma wp_oa_fill_free map M i key v kp vp m F slot_out : repr secret map M -> M !! key = None ->
  count map < ccol_max_elem_count -> valid_key (config_of map) key -> gives map kp (key_size map) key ->
  gives map vp (val_size map) v -> 0 <= i < capacity map -> cell (cells (table map)) i = None ->
  let h := home secret (config_of map) (oa_keyed map) (capacity map) (new_entry key v) in
  upto (capacity map) (fun x => is_Some (cell (cells (table map)) x)) h i -> owns m {[blk (table map)]} F ->
  wp (oa_fill_free secret map kp vp i h slot_out) m (added map M key v F slot_out).
Proof.
  intros Hr Hk Hn Hvk [Eks Hks] [Evs Hvs] Hi Hfree h Hu Ho. pose proof Hr as [Hcfg _ Hh _ _ _ _].
  pose proof (ho_block _ _ _ _ Hh) as Hok. pose proof (type_sizes _ Hcfg) as (Hk8 & Hv8 & _). cbn in Hk8, Hv8.
  destruct (source_len _ _ _ _ _ Hok Hks) as [Hlk _], (source_len _ _ _ _ _ Hok Hvs) as [Hlv _].
  destruct (new_entry_ok map key v Hcfg Hvk Hlv) as [Ep Hent].
  unfold oa_fill_free. rewrite Eks, Evs. apply wp_bind, (wp_set_slot (capacity map)); [done..|].
  apply wp_bind. eapply (wp_copy_to_key (capacity map)); [done..|lia|]. cbn [key_data val_data].
  apply wp_bind. rewrite splice_zeroes by lia.
  assert (wide (OaSlot (widen key) (replicate 8 0))) as Hw by (split; [apply Hent|done]).
  eapply (wp_copy_to_val (capacity map)); [done..|lia|]. cbn [key_data val_data]. rewrite splice_zeroes by lia.
  apply wp_bind, (wp_set_occupied (capacity map)); [done..|].
  by apply (wp_fill_added map M i (new_entry key v) key v).
Qed.

Lemma wp_oa_find_insertion_slot map hash m (Q : Z -> mem -> Prop) : is_capacity (capacity map) ->
  block_ok (capacity map) (table map) ->
  let h := hash_index_for hash (capacity map) in 0 <= h < capacity map ->
  (exists e, 0 <= e < capacity map /\ cell (cells (table map)) e = None) ->
  (forall i, 0 <= i < capacity map -> cell (cells (table map)) i = None ->
     upto (capacity map) (fun x => is_Some (cell (cells (table map)) x)) h i -> Q i m) ->
  wp (oa_find_insertion_slot map hash) m Q.
Proof.
  intros HC Hok h Hh (e & He & Hn) HQ. unfold oa_find_insertion_slot. fold h. set (C := capacity map) in *.
  set (P x := is_Some (cell (cells (table map)) x)).
  apply (wp_loop (fun i m' => m' = m /\ 0 <= i < C /\ upto C P h i) (fun i => Z.to_nat (C - dist C h i)));
    [|split_and!; [done|lia..|by apply upto_start]|by apply ring_measure].
  intros i ? (-> & Hi & Hu). apply wp_bind, (wp_occupied C); [done..| |].
  - intros Hfree. apply wp_ret. by apply HQ.
  - intros s Hs. cbn [negb]. rewrite next_index_next by done.
    assert (next C i <> h) as Hne.
    { eapply (not_around C h i e P); [done..|by exists s|done|]. unfold P. rewrite Hn. by intros []. }
    apply wp_ret. destruct (Z.eqb_spec (next C i) h); [done|].
    split; [|by apply ring_progress]. split; [done|]. split; [by apply next_range|].
    apply upto_next; [done..| |done]. by exists s.
Qed.

Lemma rehash_capacity n : 0 <= n < ccol_max_elem_count ->
  is_capacity (oa_rehash_capacity_for (n + 1)) /\ n + 1 <= oa_rehash_capacity_for (n + 1).
Proof.
  unfold ccol_max_elem_count, oa_rehash_capacity_for, _ccol_max_power_of_two_size_t. intros Hn.
  rewrite Z.gtb_ltb. change (9223372036854775808 `div` 2) with 4611686018427387904.
  destruct (Z.ltb_spec 4611686018427387904 (n + 1)); [split; [by exists 63|lia]|]. sz.
  pose proof (Pow2.pow2_ok (2 * (n + 1)) ltac:(unfold ccol_max_elem_count; lia)) as ((k & Hk & Er) & Hle & Hmin).
  pose proof (Hmin 63 ltac:(lia)) as Hm. change (2 ^ 63) with 9223372036854775808 in Hm. specialize (Hm ltac:(lia)).
  destruct (Z.ltb_spec (Pow2._ccol_find_nearest_gte_power_of_two (2 * (n + 1))) minimum_allowed_bucket_array_size) as [Hlt|Hge];
    unfold minimum_allowed_bucket_array_size in *; [split; [by exists 4|lia]|]. split; [|lia].
  exists k. split; [|done]. rewrite Er in Hge, Hm. change 16 with (2 ^ 4) in Hge.
  change 9223372036854775808 with (2 ^ 63) in Hm.
  split; [by apply (Z.pow_le_mono_r_iff 2)|by apply (Z.pow_le_mono_r_iff 2)].
Qed.

(** The value of a key that is there. *)
Definition overwritten map M key v v0 F (slot_out : bool)
    : ccol_retval_t * option cmap_pair * open_addr_map -> mem -> Prop :=
  fun '(r, out, map') m' =>
    r = ccol_key_already_present /\ config_of map' = config_of map /\ owns m' {[blk (table map')]} F /\
    if slot_out then map' = map /\ points_to map out v0
    else out = None /\ repr secret map' (<[key := v]> M).

Lemma set_value_repr map M i s vd key v : repr secret map M -> cell (cells (table map)) i = Some s ->
  valid_key (config_of map) key -> key_data s = widen key -> zlen vd = 8 -> ztake (val_size map) vd = v ->
  repr secret (set_table map (with_slot (table map) i (OaSlot (key_data s) vd))) (<[key := v]> M).
Proof.
  intros Hr Hc Hvk Ek Hvd Ev. pose proof Hr as [Hcfg HC Hh Hp Hs Hn Hw]. pose proof (ho_block _ _ _ _ Hh) as Hok.
  assert (key_of (config_of map) s = key) as Eks.
  { unfold key_of. rewrite Ek. by apply valid_key_len. }
  split; cbn; [done|done| | |done| |done].
  - eapply holds_update; [exact Hh|exact Hc|done|unfold pair_of; by f_equal|].
    split; [split; [apply (cells_wide _ _ _ _ Hok Hc)|done]|]. by exists key.
  - rewrite (cells_with_slot _ _ _ _ s Hok Hc). change (oa_keyed (set_table _ _)) with (oa_keyed map).
    eapply probed_upd; [by apply zlen_cells|intros j s' Hj; exact (repr_home secret Hsecret map M j s' Hr Hj)|exact Hp|exact Hc|done].
  - rewrite Hn, map_size_insert. by rewrite (holds_word _ _ _ _ Hcfg Hh i s key Hvk Hc Ek).
Qed.

Lemma wp_oa_overwrite map M i s key v vp v0 m F slot_out : repr secret map M ->
  cell (cells (table map)) i = Some s -> valid_key (config_of map) key -> key_data s = widen key ->
  M !! key = Some v0 -> gives map vp (val_size map) v -> owns m {[blk (table map)]} F ->
  wp (oa_overwrite map i vp slot_out) m (overwritten map M key v v0 F slot_out).
Proof.
  intros Hr Hc Hvk Ek Hl [Evs Hvs] Ho. pose proof Hr as [Hcfg _ Hh _ _ _ _]. pose proof (ho_block _ _ _ _ Hh) as Hok.
  destruct (source_len _ _ _ _ _ Hok Hvs) as [Hlv Hn0]. destruct (cells_wide _ _ _ _ Hok Hc) as [Hkd Hvd].
  pose proof (type_sizes _ Hcfg) as (_ & Hv8 & _). cbn in Hv8.
  pose proof (cell_Some _ _ _ Hc) as Hi. rewrite (zlen_cells _ _ Hok) in Hi.
  unfold oa_overwrite. destruct slot_out.
  { apply wp_ret. split_and!; [done..|]. by eapply fill_val_pair_points. }
  rewrite Evs. apply wp_bind.
  apply (wp_mono _ _ (fun src m' => m' = m /\ source (table map) src (val_size map) v /\
    ranges_overlap (table map) src (val_size map) (val_offset i) (val_size map) = false)).
  { destruct (ranges_overlap _ _ _ _ _) eqn:Eo; [|by apply wp_ret].
    apply wp_bind. eapply wp_read_source; [done..|]. apply wp_ret. split; [done|]. split.
    - rewrite <- (ztake_all v (val_size map)) at 2 by lia. constructor. lia.
    - unfold ranges_overlap. by case_match. }
  intros src ? (-> & Hsrc & Eo). apply wp_bind. unfold copy_to_val. rewrite Eo. apply wp_bind.
  eapply wp_read_source; [done..|]. apply wp_bind. eapply (wp_slot_at (capacity map)); [done..|].
  apply wp_bind, wp_memcpy_in; [done|lia|]. apply (wp_set_slot (capacity map)); [done..|]. apply wp_ret.
  split_and!; [done..|]. eapply set_value_repr; [done..|zlia|].
  unfold splice. change (ztake 0 (val_data s)) with (@nil Z). cbn [app]. by apply ztake_app_exact.
Qed.

(** *** Growth *)
Definition grown map M key v F slot_out : ccol_retval_t * option cmap_pair * open_addr_map -> mem -> Prop :=
  fun '(r, out, map') m' => added map M key v F slot_out (r, out, map') m' \/
    (r = ccol_not_enough_memory /\ out = None /\ map' = map /\ owns m' {[blk (table map)]} F /\
     Z.of_nat (size M) = capacity map).

Lemma exists_free map M : repr secret map M -> Z.of_nat (size M) < capacity map ->
  exists e, 0 <= e < capacity map /\ cell (cells (table map)) e = None.
Proof.
  intros [_ _ Hh _ _ _ _] Hlt. rewrite <- (zlen_cells _ _ (ho_block _ _ _ _ Hh)) in Hlt |- *.
  apply entries_free. by rewrite (holds_size _ _ _ _ Hh).
Qed.

Lemma all_full map M : repr secret map M -> (forall x, 0 <= x < capacity map -> is_Some (cell (cells (table map)) x)) ->
  Z.of_nat (size M) = capacity map.
Proof.
  intros Hr Hall. pose proof (holds_size_le _ _ _ _ (re_holds _ _ _ Hr)) as Hle.
  destruct (decide (Z.of_nat (size M) = capacity map)) as [|Hne]; [done|].
  destruct (exists_free map M Hr ltac:(lia)) as (e & He & Hn). apply Hall in He. rewrite Hn in He. by destruct He.
Qed.

Lemma wp_oa_insert_with_growth map M i key v kp vp m F slot_out (found_empty : bool) : repr secret map M ->
  M !! key = None -> count map < ccol_max_elem_count -> valid_key (config_of map) key ->
  gives map kp (key_size map) key -> gives map vp (val_size map) v ->
  let h := home secret (config_of map) (oa_keyed map) (capacity map) (new_entry key v) in
  (if found_empty then 0 <= i < capacity map /\ cell (cells (table map)) i = None /\
     upto (capacity map) (fun x => is_Some (cell (cells (table map)) x)) h i
   else Z.of_nat (size M) = capacity map) ->
  owns m {[blk (table map)]} F ->
  wp (oa_insert_with_growth secret map kp vp slot_out i h found_empty) m (grown map M key v F slot_out).
Proof.
  intros Hr Hk Hn Hvk [Eks Hks] [Evs Hvs] h Hfound Ho. pose proof Hr as [Hcfg HC Hh _ _ Hcount _].
  pose proof (ho_block _ _ _ _ Hh) as Hok. pose proof (type_sizes _ Hcfg) as (Hk8 & Hv8 & _). cbn in Hk8, Hv8.
  destruct (source_len _ _ _ _ _ Hok Hks) as [Hlk _], (source_len _ _ _ _ _ Hok Hvs) as [Hlv _].
  destruct (new_entry_ok map key v Hcfg Hvk Hlv) as [Ep Hent].
  unfold oa_insert_with_growth. rewrite Eks, Evs. do 2 (apply wp_bind; eapply wp_read_source; [done..|]).
  do 2 (apply wp_bind, wp_memcpy_in; [done|change (zlen (replicate 8 0)) with 8; lia|]).
  rewrite !splice_zeroes by lia. change (OaSlot (widen key) (widen v)) with (new_entry key v).
  destruct (rehash_capacity (count map)) as [HC1 HC2]; [lia|].
  unfold ccol_max_elem_count in Hn. sz.
  apply wp_bind. eapply wp_mono.
  { eapply (wp_oa_rebuild secret Hsecret map M false _ m F); [by eapply repr_stored|done|lia|done]. }
  intros [r map1] m1 [(-> & -> & Ho1)|(-> & Hr1 & Ho1 & EC & Ecfg & _)].
  - rewrite bool_decide_false by done. destruct found_empty; cbn [negb].
    2: { apply wp_ret. right. by split_and!. }
    destruct Hfound as (Hi & Hfree & Hu). apply (wp_fill (capacity map)); [done..|].
    eapply wp_mono; [by apply (wp_fill_added map M i (new_entry key v) key v)|].
    intros [[r out] map'] m' H. by left.
  - rewrite bool_decide_true by done. pose proof Hr1 as [Hcfg1 HCap1 Hh1 _ _ Hcount1 _].
    pose proof (ho_block _ _ _ _ Hh1) as Hok1. rewrite <- EC in HC2.
    assert (key_size map = key_size map1 /\ val_size map = val_size map1) as [E1 E2] by (by injection Ecfg).
    apply wp_bind. unfold map_hash, key_buffer, widen. rewrite <- app_assoc, E1. eapply wp_ub.
    { apply (hash_key secret (config_of map1)); [done..|]. by rewrite Ecfg. }
    fold (widen key). change (hash_index_for _ (capacity map1)) with
      (home secret (config_of map1) (oa_keyed map1) (capacity map1) (new_entry key v)).
    rewrite <- Ecfg in Ep, Hent, Hvk.
    pose proof (home_range secret _ Hsecret Hcfg1 _ (oa_keyed map1) _ HCap1 Hent) as Hh1r.
    apply wp_bind, wp_oa_find_insertion_slot; [done..|by apply (exists_free map1 M); [|lia]|].
    intros j Hj Hfree Hu. rewrite Z.geb_leb. destruct (Z.leb_spec (capacity map1) j); [lia|].
    apply (wp_fill (capacity map1)); [done..|].
    eapply wp_mono; [apply (wp_fill_added map1 M j (new_entry key v) key v); try done; unfold ccol_max_elem_count; lia|].
    intros [[r out] map'] m' (-> & Hr' & Ecfg' & Ho' & Hout). left. split_and!; [done..| |done|done].
    by rewrite Ecfg'.
Qed.
End Insert.
