(* ===== verification/COaSpec.v ===== *)
(** * The operations of the open-addressing backend

    Insertion, lookup, deletion, creation and reset of [COaMap] against a
    finite map, on the representation of [COaRefine], and every history of
    them. *)
From S2P Require Import Prelude Memory Values Common CHash COaProbe COaMap COaRefine.
Import COaMap.

Section Operations.
Context {alloc : Allocator} (secret : chmap_hash_secret) (Hsecret : secret_ok secret).
Implicit Types (m : mem) (map : open_addr_map) (M : gmap (list Z) (list Z)).

(** ** Lookup *)
Lemma home_of_key map s key : key_data s = widen key ->
  home secret (config_of map) (oa_keyed map) (capacity map) s =
  hash_index_for (key_hash secret (config_of map) (oa_keyed map) (widen key)) (capacity map).
Proof. intros E. unfold home. by rewrite E. Qed.

(** A free cell at the end of a probe that met no slot with the key, or the
    whole span without one, proves the key absent. *)
Lemma absent_before_free map M key i : repr secret map M -> valid_key (config_of map) key ->
  let h := hash_index_for (key_hash secret (config_of map) (oa_keyed map) (widen key)) (capacity map) in
  0 <= i < capacity map -> cell (cells (table map)) i = None ->
  upto (capacity map) (fun x => exists s, cell (cells (table map)) x = Some s /\ key_data s <> widen key) h i ->
  M !! key = None.
Proof.
  intros Hr Hk h Hi Hfree Hu. pose proof Hr as [Hcfg _ Hh Hp _ _ _]. pose proof (ho_block _ _ _ _ Hh) as Hok.
  apply (holds_absent _ _ _ _ Hcfg Hh key Hk). intros j s Hj E.
  pose proof (cell_Some _ _ _ Hj) as Hjr. rewrite (zlen_cells _ _ Hok) in Hjr.
  pose proof (home_of_key map s key E) as Eh. fold h in Eh. pose proof (repr_home secret Hsecret map M j s Hr Hj) as Hhr.
  rewrite Eh in Hhr.
  destruct (Z_lt_le_dec (dist (capacity map) h j) (dist (capacity map) h i)) as [Hlt|Hge].
  - destruct (Hu j Hjr Hlt) as (s' & Hs' & Hne). congruence.
  - assert (i <> j) as Hne by congruence.
    assert (dist (capacity map) h i <> dist (capacity map) h j) by (intros E'; by apply Hne, (dist_inj (capacity map) h)).
    destruct (path_full _ _ _ _ Hp j s i Hj Hi) as [s' Hs']; [rewrite Eh; lia|congruence].
Qed.

Lemma absent_within_span map M key : repr secret map M -> valid_key (config_of map) key ->
  let h := hash_index_for (key_hash secret (config_of map) (oa_keyed map) (widen key)) (capacity map) in
  (forall x, 0 <= x < capacity map -> dist (capacity map) h x < probe_span map ->
     exists s, cell (cells (table map)) x = Some s /\ key_data s <> widen key) ->
  M !! key = None.
Proof.
  intros Hr Hk h Hall. pose proof Hr as [Hcfg _ Hh Hp _ _ _]. pose proof (ho_block _ _ _ _ Hh) as Hok.
  apply (holds_absent _ _ _ _ Hcfg Hh key Hk). intros j s Hj E.
  pose proof (cell_Some _ _ _ Hj) as Hjr. rewrite (zlen_cells _ _ Hok) in Hjr.
  pose proof (span_bound _ _ _ _ Hp j s Hj) as Hd. rewrite (home_of_key map s key E) in Hd.
  destruct (Hall j Hjr Hd) as (s' & Hs' & Hne). congruence.
Qed.

(** The hash and the home of the key an argument gives. *)
Lemma wp_key_hash map key m (Q : Z -> mem -> Prop) : config_ok (config_of map) -> valid_key (config_of map) key ->
  Q (key_hash secret (config_of map) (oa_keyed map) (widen key)) m ->
  wp (map_hash secret map key (key_size map) (oa_keyed map)) m Q.
Proof.
  intros Hcfg Hk HQ. eapply wp_ub; [|exact HQ]. rewrite <- (app_nil_r key) at 1. by apply (hash_key secret (config_of map)).
Qed.

Lemma key_home_range map M key : repr secret map M -> valid_key (config_of map) key ->
  0 <= hash_index_for (key_hash secret (config_of map) (oa_keyed map) (widen key)) (capacity map) < capacity map.
Proof.
  intros [Hcfg HC _ _ _ _ _] Hk. apply index_range; [done|].
  by apply (hash_key secret (config_of map) Hsecret Hcfg key [] (oa_keyed map)).
Qed.

Lemma wp_oa_probe map M key kp m : repr secret map M -> valid_key (config_of map) key -> gives map kp (key_size map) key ->
  wp (oa_probe secret map kp) m (fun found m' => m' = m /\
    match found with
    | Some i => exists s, cell (cells (table map)) i = Some s /\ key_data s = widen key
    | None => M !! key = None
    end).
Proof.
  intros Hr Hk Hg. pose proof Hr as [Hcfg HC Hh _ _ _ _]. pose proof (ho_block _ _ _ _ Hh) as Hok. pose proof Hg as [Eks Hsrc].
  unfold oa_probe. rewrite Eks. apply wp_bind. eapply wp_read_source; [done..|].
  apply wp_bind, wp_key_hash; [done..|]. apply wp_bind. rewrite <- Eks. apply (wp_widen map key); [done..|].
  apply (wp_probe_within (capacity map)); [done..|by eapply key_home_range|by eapply repr_span| | |].
  - intros i s Hc E. split; [done|]. by exists s.
  - intros i Hi Hu Hfree. split; [done|]. by eapply absent_before_free.
  - intros Hall. split; [done|]. by eapply absent_within_span.
Qed.

Definition get_answer map M key : ccol_retval_t * option cmap_pair -> Prop := fun '(r, out) =>
  match M !! key with
  | Some v => r = ccol_success /\ points_to map out v
  | None => r = ccol_key_not_found /\ out = None
  end.

Lemma wp_oa_get map M key kp m : repr secret map M -> valid_key (config_of map) key -> gives map kp (key_size map) key ->
  wp (oa_get secret map kp) m (fun r m' => m' = m /\ get_answer map M key r).
Proof.
  intros Hr Hk Hg. unfold oa_get. apply wp_bind. eapply wp_mono; [by apply (wp_oa_probe map M key)|].
  intros [i|] ? [-> H]; apply wp_ret; (split; [done|]); unfold get_answer.
  - destruct H as (s & Hc & E). pose proof Hr as [Hcfg _ Hh _ _ _ _].
    pose proof (holds_word _ _ _ _ Hcfg Hh i s key Hk Hc E) as Hl. rewrite Hl. split; [done|].
    by eapply fill_val_pair_points.
  - by rewrite H.
Qed.

(** ** Insertion *)
Definition insert_answer map M key v (slot_out : bool) : ccol_retval_t * option cmap_pair * open_addr_map -> Prop :=
  fun '(r, out, map') =>
    config_of map' = config_of map /\
    match M !! key with
    | Some v0 =>
        r = ccol_key_already_present /\
        if slot_out then map' = map /\ points_to map out v0
        else out = None /\ repr secret map' (<[key := v]> M)
    | None =>
        (r = ccol_success /\ repr secret map' (<[key := v]> M) /\ if slot_out then points_to map' out v else out = None) \/
        (r = ccol_not_enough_memory /\ out = None /\ map' = map /\ Z.of_nat (size M) = capacity map) \/
        (r = ccol_container_full /\ out = None /\ map' = map /\ Z.of_nat (size M) = ccol_max_elem_count)
    end.

Lemma above_grow_full C : is_capacity C -> oa_above_grow_load C C = true.
Proof.
  intros HC. pose proof (capacity_range C HC). unfold oa_above_grow_load.
  destruct (Z.leb_spec C (SIZE_MAX `div` 10)) as [Hle|Hgt].
  - change (SIZE_MAX `div` 10) with 1844674407370955161 in Hle. sz. apply Z.gtb_lt. lia.
  - pose proof (Z.div_mod C 10 ltac:(lia)). pose proof (Z.mod_pos_bound C 10 ltac:(lia)).
    set (q := C `div` 10) in *. set (r := C `mod` 10) in *. sz.
    pose proof (Z.div_mod (r * 7) 10 ltac:(lia)). pose proof (Z.mod_pos_bound (r * 7) 10 ltac:(lia)).
    set (d := (r * 7) `div` 10) in *. sz. apply Z.gtb_lt. lia.
Qed.

Lemma wp_oa_insert_impl map M key v kp vp m F slot_out : repr secret map M -> valid_key (config_of map) key ->
  gives map kp (key_size map) key -> gives map vp (val_size map) v -> owns m {[blk (table map)]} F ->
  wp (oa_insert_impl secret map kp vp slot_out) m
    (fun a m' => insert_answer map M key v slot_out a /\ owns m' {[blk (table (snd a))]} F).
Proof.
  intros Hr Hk Hkp Hvp Ho. pose proof Hr as [Hcfg HC Hh _ _ Hn _]. pose proof (ho_block _ _ _ _ Hh) as Hok.
  pose proof Hkp as [Eks Hks]. pose proof (key_home_range map M key Hr Hk) as Hhome.
  assert (zlen v = val_size map) as Hlv by by apply (source_len _ _ _ _ (capacity map) Hok (proj2 Hvp)).
  destruct (new_entry_ok map key v Hcfg Hk Hlv) as [Ep Hent].
  unfold oa_insert_impl. rewrite Eks. apply wp_bind. eapply wp_read_source; [done..|].
  apply wp_bind, wp_key_hash; [done..|]. apply wp_bind. rewrite <- Eks. apply (wp_widen map key); [done..|]. apply wp_bind.
  change (hash_index_for _ _) with (home secret (config_of map) (oa_keyed map) (capacity map) (new_entry key v)) in *.
  set (h := home secret _ _ _ _) in *.
  assert (forall i found_empty, M !! key = None ->
    (if (found_empty : bool) then 0 <= i < capacity map /\ cell (cells (table map)) i = None /\
       upto (capacity map) (fun x => is_Some (cell (cells (table map)) x)) h i
     else Z.of_nat (size M) = capacity map) ->
    wp (if count map =? ccol_max_elem_count then mret (ccol_container_full, None, map) else
        if oa_above_grow_load (count map) (capacity map) && (capacity map <? _ccol_max_power_of_two_size_t)
        then oa_insert_with_growth secret map kp vp slot_out i h found_empty
        else if found_empty then oa_fill_free secret map kp vp i h slot_out
        else mret (ccol_container_full, None, map)) m
      (fun a m' => insert_answer map M key v slot_out a /\ owns m' {[blk (table (snd a))]} F)) as Hnew.
  { intros i fe Habs Hfe. pose proof (holds_size_le _ _ _ _ Hh) as Hle. pose proof (capacity_range _ HC) as HCr.
    unfold insert_answer. rewrite Habs. destruct (Z.eqb_spec (count map) ccol_max_elem_count) as [Hmax|Hmax].
    { apply wp_ret. split; [|done]. split; [done|]. right. right. split_and!; [done..|lia]. }
    unfold ccol_max_elem_count in Hmax. destruct (_ && _) eqn:Eg; [|destruct fe].
    - eapply wp_mono; [apply (wp_oa_insert_with_growth secret Hsecret map M i key v); try done; unfold ccol_max_elem_count; lia|].
      intros [[r out] map'] m' [(-> & Hr' & Ecfg & Ho' & Hout)|(-> & -> & -> & Ho' & Hs)]; (split; [|done]).
      + split; [done|]. by left.
      + split; [done|]. right. by left.
    - destruct Hfe as (Hi & Hfree & Hu).
      eapply wp_mono; [apply (wp_oa_fill_free secret Hsecret map M i key v); try done; unfold ccol_max_elem_count; lia|].
      intros [[r out] map'] m' (-> & Hr' & Ecfg & Ho' & Hout). split; [|done]. split; [done|]. by left.
    - exfalso. rewrite Hn, Hfe, (above_grow_full _ HC) in Eg. cbn [andb] in Eg.
      apply Z.ltb_ge in Eg. unfold _ccol_max_power_of_two_size_t in Eg. lia. }
  apply (wp_probe_for (capacity map)); [done..| | |].
  - intros i Hi Hfree Hu. apply Hnew; [by eapply absent_before_free|]. split; [done|]. split; [done|].
    intros x Hx Hlt. destruct (Hu x Hx Hlt) as (s & Hs & _). by exists s.
  - intros i s Hc E. pose proof (holds_word _ _ _ _ Hcfg Hh i s key Hk Hc E) as Hl.
    eapply wp_mono; [by apply (wp_oa_overwrite secret Hsecret map M i s key v vp (val_of (config_of map) s) m F slot_out)|].
    intros [[r out] map'] m' (-> & Ecfg & Ho' & Hout). split; [|done]. split; [done|]. by rewrite Hl.
  - intros Hall. apply Hnew.
    + apply (holds_absent _ _ _ _ Hcfg Hh key Hk). intros j s Hj E.
      pose proof (cell_Some _ _ _ Hj) as Hjr. rewrite (zlen_cells _ _ Hok) in Hjr.
      destruct (Hall j Hjr) as (s' & Hs' & Hne). congruence.
    + apply (all_full secret map M Hr). intros x Hx. destruct (Hall x Hx) as (s & Hs & _). by exists s.
Qed.

(** ** Deletion *)

(** A walk over the slots hashes as the map does. *)
Definition hashes_alike (c : config) (keyed : bool) (ks : Z) kt custom kd seed : Prop := forall s, entry_ok c s ->
  hash_key_data secret (key_data s) ks kt custom kd seed = Some (key_hash secret c keyed (key_data s)).

Lemma wp_shift_walk c keyed C t ks kt custom kd seed span hole m : config_ok c -> is_capacity C -> block_ok C t ->
  Forall (entry_ok c) (entries (cells t)) -> hashes_alike c keyed ks kt custom kd seed ->
  shifting C (home secret c keyed C) span hole hole (cells t) ->
  wp (oa_backward_shift_walk secret t C ks kt custom kd seed span hole) m (fun t' m' => m' = m /\
    blk t' = blk t /\ block_ok C t' /\ entries (cells t') ≡ₚ entries (cells t) /\
    probed C (home secret c keyed C) span (cells t')).
Proof.
  intros Hcfg HC Hok Hen Hhash Hsh. pose proof (capacity_range C HC) as HCr.
  set (hm := home secret c keyed C) in *.
  assert (forall t', entries (cells t') ≡ₚ entries (cells t) -> forall i s, cell (cells t') i = Some s ->
    entry_ok c s /\ 0 <= hm s < C) as Hent.
  { intros t' E i s Hc. assert (entry_ok c s) as Hs; [|split; [done|by apply home_range]].
    rewrite Forall_forall in Hen. apply Hen. rewrite <- E. apply elem_entries. by exists i. }
  set (μ := fun '(t', j, h) => displacement C hm (cells t') + C - dist C h j).
  assert (forall t', block_ok C t' -> entries (cells t') ≡ₚ entries (cells t) ->
    0 <= displacement C hm (cells t') <= C * C) as Hdisp.
  { intros t' Hok' E. apply displacement_bound; [|by apply zlen_cells]. intros i s Hc. by eapply Hent. }
  apply (wp_loop (fun '(t', j, h) m' => m' = m /\ blk t' = blk t /\ block_ok C t' /\
    entries (cells t') ≡ₚ entries (cells t) /\ shifting C hm span h j (cells t')) (fun s => Z.to_nat (μ s))).
  2: { by split_and!. }
  2: { cbn. rewrite dist_refl. specialize (Hdisp t Hok ltac:(done)). lia. }
  intros [[t' j] h] ? (-> & Hb & Hok' & Ee & Hs). pose proof (sh_range _ _ _ _ _ _ Hs) as [Hh Hj].
  pose proof (zlen_cells C t' Hok') as Hlen. pose proof (next_range C j Hj) as Hn.
  assert (forall i s, cell (cells t') i = Some s -> 0 <= hm s < C) as Hhm by (intros i s Hc; by eapply Hent).
  pose proof (Hdisp t' Hok' Ee) as HD. pose proof (dist_range C h j Hh Hj) as Hdj.
  rewrite next_index_next by done. apply wp_bind, (wp_occupied C); [done..| |].
  { intros Hfree. apply wp_ret. split_and!; [done..|]. eapply shift_closed; [done..|]. by left. }
  intros s Hc. cbn [negb]. rewrite displacement_dist by done. rewrite Z.geb_leb.
  destruct (Z.leb_spec span (dist C h (next C j))) as [Hge|Hlt].
  { apply wp_ret. split_and!; [done..|]. eapply shift_closed; [done..|]. by right. }
  destruct (Hent t' Ee _ _ Hc) as [Hse Hhs].
  assert (next C j <> h) as Hne by (intros E; pose proof (sh_hole _ _ _ _ _ _ Hs); congruence).
  pose proof (dist_next C h j Hh Hj Hne) as En.
  apply wp_bind, (wp_slot_at C _ _ s); [done..|]. apply wp_bind. eapply wp_ub; [by apply Hhash|].
  change (hash_index_for _ C) with (hm s). rewrite displacement_dist by done. rewrite Z.geb_leb.
  destruct (Z.leb_spec (dist C h (next C j)) (dist C (hm s) (next C j))) as [Hmove|Hstay].
  - apply (wp_fill C); [done..|]. apply wp_bind.
    assert (block_ok C (filled t' h s)) as Hok1 by (apply filled_ok; [done|apply Hse]).
    apply (wp_set_empty C); [done..|]. apply wp_ret.
    set (t2 := emptied (filled t' h s) (next C j)).
    assert (cells t2 = upd (upd (cells t') h (Some s)) (next C j) None) as E2.
    { unfold t2. by rewrite (cells_emptied C), cells_filled. }
    pose proof (sh_hole _ _ _ _ _ _ Hs) as Hhole.
    assert (entries (cells t2) ≡ₚ entries (cells t)) as Ee2.
    { rewrite E2, <- Ee. by apply (entries_move C). }
    split; [split_and!; [done|done|by apply emptied_ok|done|]|].
    { rewrite E2. by apply shift_move. }
    unfold μ. rewrite dist_refl. assert (displacement C hm (cells t2) = displacement C hm (cells t') - dist C h (next C j)) as ->.
    { rewrite E2, displacement_upd by (rewrite zlen_upd; lia). rewrite displacement_upd by lia.
      rewrite Hhole, cell_upd_ne by (lia || done). rewrite Hc. cbn.
      pose proof (dist_between C (hm s) h (next C j) Hhs Hh Hn Hmove). lia. }
    pose proof (Hdisp t2 ltac:(by apply emptied_ok) Ee2) as HD2. lia.
  - apply wp_ret. split; [split_and!; [done..|by eapply shift_skip]|]. unfold μ. rewrite En. lia.
Qed.

(** The walks of [OA_DEFINE_SHIFT_WALKS] hash as [hash_key_data] does on the
    type of the map. *)
Lemma specialized_walks_alike c keyed type_enum seed : config_ok c -> c_proc c = None ->
  shift_walk_type (c_key_type c) = Some type_enum -> (keyed = true -> seed = int_seed secret) ->
  hashes_alike c keyed 8 type_enum None keyed seed.
Proof.
  intros Hcfg Ep Et Hseed s Hs. destruct (hash_entry secret c Hsecret Hcfg s keyed Hs) as [<- _]. rewrite Ep.
  destruct keyed; [rewrite Hseed by done|]; destruct (c_key_type c); cbn in Et; by simplify_eq.
Qed.

Lemma generic_walk_alike map : config_ok (config_of map) ->
  hashes_alike (config_of map) (oa_keyed map) (key_size map) (key_type map) (custom_hashing_proc map)
    (oa_keyed map) (int_seed secret).
Proof. intros Hcfg s Hs. by apply (hash_entry secret (config_of map)). Qed.

Lemma wp_close_gap map hole m :
  config_ok (config_of map) -> is_capacity (capacity map) -> block_ok (capacity map) (table map) ->
  Forall (entry_ok (config_of map)) (entries (cells (table map))) ->
  shifting (capacity map) (home secret (config_of map) (oa_keyed map) (capacity map)) (probe_span map) hole hole (cells (table map)) ->
  wp (oa_backward_shift_close_gap secret map hole) m (fun t' m' => m' = m /\
    blk t' = blk (table map) /\ block_ok (capacity map) t' /\ entries (cells t') ≡ₚ entries (cells (table map)) /\
    probed (capacity map) (home secret (config_of map) (oa_keyed map) (capacity map)) (probe_span map) (cells t')).
Proof.
  intros Hcfg HC Hok Hen Hsh. unfold oa_backward_shift_close_gap, oa_shift_walk_generic, oa_shift_walk_keyed, oa_shift_walk_fast.
  destruct (custom_hashing_proc map) eqn:Ep.
  { rewrite <- Ep. apply (wp_shift_walk (config_of map)); try done. by apply generic_walk_alike. }
  destruct (shift_walk_type (key_type map)) as [te|] eqn:Et.
  - assert (forall seed, (oa_keyed map = true -> seed = int_seed secret) ->
      hashes_alike (config_of map) (oa_keyed map) 8 te None (oa_keyed map) seed) as Hal.
    { intros seed Hs. by apply specialized_walks_alike. }
    destruct (oa_keyed map) eqn:Ek; apply (wp_shift_walk (config_of map)); try done; by apply Hal.
  - rewrite <- Ep. apply (wp_shift_walk (config_of map)); try done. by apply generic_walk_alike.
Qed.

Definition delete_answer map M key : ccol_retval_t * open_addr_map -> Prop := fun '(r, map') =>
  config_of map' = config_of map /\
  match M !! key with
  | Some _ => r = ccol_success /\ repr secret map' (delete key M)
  | None => r = ccol_key_not_found /\ map' = map
  end.

(** The map once the gap is closed. *)
Lemma deleted_repr map M i s t' : repr secret map M -> cell (cells (table map)) i = Some s ->
  block_ok (capacity map) t' ->
  entries (cells t') ≡ₚ entries (cells (emptied (table map) i)) ->
  probed (capacity map) (home secret (config_of map) (oa_keyed map) (capacity map)) (probe_span map) (cells t') ->
  repr secret (set_count (set_table map t') (count map - 1)) (delete (key_of (config_of map) s) M).
Proof.
  intros [Hcfg HC Hh Hp Hs Hn Hw] Hc Hok' Ee Hp'.
  assert (M !! key_of (config_of map) s = Some (val_of (config_of map) s)) as Hl by by eapply holds_lookup.
  split; cbn; [done|done| |done|done| |done].
  - eapply holds_same; [by eapply holds_delete|done|done].
  - rewrite Hn. assert (size M <> 0)%nat by (intros E; apply map_size_empty_inv in E; by rewrite E in Hl).
    rewrite map_size_delete, Hl. cbn. lia.
Qed.

Lemma wp_oa_delete map M key kp m F : repr secret map M -> valid_key (config_of map) key ->
  gives map kp (key_size map) key -> owns m {[blk (table map)]} F ->
  wp (oa_delete secret map kp) m
    (fun a m' => delete_answer map M key a /\ owns m' {[blk (table (snd a))]} F).
Proof.
  intros Hr Hk Hg Ho. pose proof Hr as [Hcfg HC Hh Hp Hs Hn Hw]. pose proof (ho_block _ _ _ _ Hh) as Hok.
  pose proof (capacity_range _ HC) as HCr. unfold oa_delete. apply wp_bind.
  eapply wp_mono; [by apply (wp_oa_probe map M key)|].
  intros [i|] ? [-> H]; unfold delete_answer; [|apply wp_ret; by rewrite H].
  destruct H as (s & Hc & E). pose proof (holds_word _ _ _ _ Hcfg Hh i s key Hk Hc E) as Hl. rewrite Hl.
  assert (key_of (config_of map) s = key) as Eks.
  { unfold key_of. rewrite E. by apply valid_key_len. }
  pose proof (cell_Some _ _ _ Hc) as Hi. rewrite (zlen_cells _ _ Hok) in Hi.
  apply wp_bind, (wp_set_empty (capacity map)); [done..|]. set (t1 := emptied (table map) i).
  set (map1 := set_table map t1). assert (block_ok (capacity map) t1) as Hok1 by by apply emptied_ok.
  assert (cells t1 = upd (cells (table map)) i None) as Ec1 by by apply (cells_emptied (capacity map)).
  assert (forall j s, cell (cells (table map)) j = Some s ->
    0 <= home secret (config_of map) (oa_keyed map) (capacity map) s < capacity map) as Hhm.
  { intros j s' Hj. by eapply repr_home. }
  assert (shifting (capacity map) (home secret (config_of map) (oa_keyed map) (capacity map)) (probe_span map) i i (cells t1)) as Hsh.
  { rewrite Ec1. eapply shift_start; [by apply zlen_cells|done..]. }
  assert (Forall (entry_ok (config_of map)) (entries (cells t1))) as Hen1.
  { rewrite Ec1. pose proof (ho_entries _ _ _ _ Hh) as Hen. rewrite (entries_del _ _ _ Hc) in Hen.
    by apply Forall_cons in Hen as [_ Hen]. }
  assert (forall j s, cell (cells t1) j = Some s ->
    0 <= home secret (config_of map) (oa_keyed map) (capacity map) s < capacity map) as Hhm1.
  { intros j s' Hj. apply home_range; [done..|]. rewrite Forall_forall in Hen1. apply Hen1, elem_entries. by exists j. }
  rewrite next_index_next by done. pose proof (next_range _ _ Hi) as Hnx. apply wp_bind.
  eapply (wp_mono _ _ (fun occ m' => m' = m /\ (occ = false -> cell (cells t1) (next (capacity map) i) = None))).
  { apply (wp_occupied (capacity map)); [done..| |]; by intros. }
  intros occ ? [-> Hocc]. apply wp_bind.
  eapply (wp_mono _ _ (fun map' m' => m' = m /\ exists t', map' = set_table map t' /\ blk t' = blk (table map) /\
    block_ok (capacity map) t' /\ entries (cells t') ≡ₚ entries (cells t1) /\
    probed (capacity map) (home secret (config_of map) (oa_keyed map) (capacity map)) (probe_span map) (cells t'))).
  { destruct occ.
    - apply wp_bind. eapply wp_mono; [by apply (wp_close_gap map1 i)|].
      intros t' ? (-> & Hb & Hok' & Ee & Hp'). apply wp_ret. split; [done|]. by exists t'.
    - apply wp_ret. split; [done|]. exists t1. split_and!; [done..|].
      eapply shift_closed; [by apply zlen_cells|done..|]. left. by apply Hocc. }
  intros map' ? (-> & t' & -> & Hb & Hok' & Ee & Hp'). 
  pose proof (deleted_repr map M i s t' Hr Hc Hok' Ee Hp') as Hr'. rewrite Eks in Hr'.
  assert (count map ⊖ 1 = count map - 1) as Ec.
  { apply wrap_small. pose proof (re_count _ _ _ Hr') as Hc'. cbn in Hc'. pose proof (holds_size_le _ _ _ _ Hh).
    unfold two64. lia. }
  cbn [count set_table set_count]. rewrite Ec. set (map2 := set_count _ _) in *.
  assert (owns m {[blk (table map2)]} F) as Ho2 by (cbn; by rewrite Hb).
  apply wp_bind. eapply (wp_mono _ _ (fun map3 m' => repr secret map3 (delete key M) /\ config_of map3 = config_of map /\
    owns m' {[blk (table map3)]} F)).
  { destruct (_ && _) eqn:Eg; [|by apply wp_ret].
    apply andb_true_iff in Eg as [Eg1 Eg2]. cbn in Eg1, Eg2. apply Z.ltb_lt in Eg1. rewrite Z.gtb_ltb, Z.ltb_lt in Eg2.
    assert (is_capacity (capacity map `div` 2)) as HC2.
    { destruct HC as (k & Hk' & EC). unfold minimum_allowed_bucket_array_size in Eg2. rewrite EC in *. change 16 with (2 ^ 4) in Eg2.
      apply Z.pow_lt_mono_r_iff in Eg2; [|lia..]. exists (k - 1). split; [lia|].
      replace k with (k - 1 + 1) at 1 by lia. rewrite Z.pow_add_r by lia. by apply Z.div_mul. }
    apply wp_bind. eapply wp_mono.
    { eapply (wp_oa_rebuild secret Hsecret map2 (delete key M) _ (capacity map `div` 2) m F); [by eapply repr_stored|done| |done].
      rewrite <- (re_count _ _ _ Hr'). cbn. rewrite Z.shiftr_div_pow2 in Eg1 by lia. change (2 ^ 2) with 4 in Eg1.
      assert (capacity map `div` 4 <= capacity map `div` 2) by (apply Z.div_le_compat_l; lia). lia. }
    intros [r map3] m3 [(-> & -> & Ho3)|(-> & Hr3 & Ho3 & _ & Ecfg & _)]; by apply wp_ret. }
  intros map3 m3 (Hr3 & Ecfg & Ho3). apply wp_ret. by split_and!.
Qed.

(** ** Creation, reset and destruction *)
Lemma empty_repr map t C : config_ok (config_of map) -> is_capacity C -> block_ok C t -> entries (cells t) = [] ->
  0 <= insert_window map < two32 ->
  repr secret (set_span (set_count (set_capacity (set_table map t) C) 0) (oa_min_probe_span C)) ∅.
Proof.
  intros Hcfg HC Hok Ee Hw. pose proof (capacity_range C HC). split; cbn; [done|done| | | |done|done].
  - split; [done|by rewrite Ee|by rewrite Ee, map_to_list_empty].
  - by apply probed_nothing.
  - unfold oa_min_probe_span, OA_DEEP_INSERT. destruct (Z.ltb_spec C 32); lia.
Qed.

Lemma wp_oa_init C kt vt ks vs proc mode bound win m F : is_capacity C -> config_ok (Config proc kt vt ks vs) ->
  0 <= win < two32 -> owns m ∅ F ->
  wp (oa_init C kt vt ks vs proc mode bound win) m (fun r m' =>
    match r with
    | None => owns m' ∅ F
    | Some map => repr secret map ∅ /\ capacity map = C /\ config_of map = Config proc kt vt ks vs /\
        owns m' {[blk (table map)]} F
    end).
Proof.
  intros HC Hcfg Hw Ho. unfold oa_init. apply wp_bind, (wp_oa_alloc_block C m ∅ F); [done|done|by intros|].
  intros t m' Ho' _ Hok Ee. apply wp_ret.
  split; [|split_and!; [done|done|apply (owns_change _ _ _ _ Ho'); cbn; set_solver]].
  pose proof (empty_repr (OpenAddrMap t C 0 0 proc kt vt ks vs mode bound win) t C Hcfg HC Hok Ee Hw) as H. exact H.
Qed.

Lemma clear_repr map M : repr secret map M -> repr secret (oa_clear_in_place map) ∅.
Proof.
  intros [Hcfg HC Hh Hp Hs Hn Hw]. pose proof (capacity_range _ HC).
  destruct (clear_block_ok (table map) (capacity map) ltac:(lia)) as [Hok Ee].
  unfold oa_clear_in_place. apply set_window_repr; [|done].
  pose proof (empty_repr map _ _ Hcfg HC Hok Ee Hw) as H'. by destruct map.
Qed.

Definition reset_answer map C : ccol_retval_t * open_addr_map -> Prop := fun '(r, map') =>
  repr secret map' ∅ /\ config_of map' = config_of map /\
  ((r = ccol_success /\ capacity map' = (if C =? 0 then capacity map else C)) \/
   (r = ccol_not_enough_memory /\ capacity map' = capacity map /\ C <> 0 /\ C <> capacity map)).

Lemma wp_oa_reset map M C m F : repr secret map M -> C = 0 \/ is_capacity C -> owns m {[blk (table map)]} F ->
  wp (oa_reset map C) m (fun a m' => reset_answer map C a /\ owns m' {[blk (table (snd a))]} F).
Proof.
  intros Hr HC Ho. pose proof (clear_repr map M Hr) as Hclr. unfold oa_reset.
  destruct (_ || _) eqn:Eg.
  { apply wp_ret. split; [|done]. split_and!; [done..|]. left. split; [done|]. cbn.
    destruct (Z.eqb_spec C 0), (Z.eqb_spec C (capacity map)); done. }
  apply orb_false_iff in Eg as [E0%Z.eqb_neq E1%Z.eqb_neq]. destruct HC as [|HC]; [done|].
  apply wp_bind, (wp_oa_alloc_block C m {[blk (table map)]} F); [done|done| |].
  { intros m' Ho'. apply wp_ret. split; [|done]. split_and!; [done..|]. by right. }
  intros t m' Ho' Hfresh Hok Ee. apply wp_bind. eapply wp_free_owns; [exact Ho'|set_solver|].
  intros m2 Ho2. apply wp_ret. split; [|cbn; apply (owns_change _ _ _ _ Ho2); set_solver].
  split; [|split; [done|left; split; [done|cbn; by destruct (Z.eqb_spec C 0)]]].
  pose proof (empty_repr map t C (re_config _ _ _ Hr) HC Hok Ee (re_window _ _ _ Hr)) as H'.
  apply set_window_repr; [exact H'|done].
Qed.

Lemma wp_oa_destroy map M m F : repr secret map M -> owns m {[blk (table map)]} F ->
  wp (oa_destroy map) m (fun _ m' => owns m' ∅ F).
Proof.
  intros Hr Ho. unfold oa_destroy. eapply wp_free_owns; [exact Ho|set_solver|].
  intros m' Ho'. apply (owns_change _ _ _ _ Ho'). set_solver.
Qed.
End Operations.

(** ** Histories *)
Section History.
Context {alloc : Allocator} (secret : chmap_hash_secret) (Hsecret : secret_ok secret).

(** [OInsertFrom k k2] inserts for [k] through the pointer [oa_get] gives for
    [k2], which points into the map. *)
Inductive oop :=
  | OInsert (k v : list Z)
  | OInsertFrom (k k2 : list Z)
  | OInsertOrGet (k v : list Z)
  | OGet (k : list Z)
  | ODelete (k : list Z)
  | OReset (new_capacity : Z)
  | OCount.

Inductive ores :=
  | OCode (r : ccol_retval_t)
  | OGot (r : ccol_retval_t) (v : option (list Z))
  | ONum (n : Z).

Definition arg (bs : list Z) : cmap_pair := CmapPair (Foreign bs) (zlen bs).

(** The bytes a pair the map handed out points at. *)
Definition read_out (map : open_addr_map) (out : option cmap_pair) : M (option (list Z)) :=
  match out with
  | None => mret None
  | Some p => v ← read_ptr (table map) (pair_ptr p) (pair_size p); mret (Some v)
  end.

Definition run_oop (map : open_addr_map) (op : oop) : M (ores * open_addr_map) :=
  match op with
  | OInsert k v => '(r, map) ← oa_insert secret map (arg k) (arg v); mret (OCode r, map)
  | OInsertFrom k k2 =>
      '(r, out) ← oa_get secret map (arg k2);
      match out with
      | Some p => '(r, map) ← oa_insert secret map (arg k) p; mret (OCode r, map)
      | None => mret (OCode r, map)
      end
  | OInsertOrGet k v =>
      '(r, out, map) ← oa_insert_or_get secret map (arg k) (arg v);
      v ← read_out map out; mret (OGot r v, map)
  | OGet k => '(r, out) ← oa_get secret map (arg k); v ← read_out map out; mret (OGot r v, map)
  | ODelete k => '(r, map) ← oa_delete secret map (arg k); mret (OCode r, map)
  | OReset c => '(r, map) ← oa_reset map c; mret (OCode r, map)
  | OCount => mret (ONum (count map), map)
  end.

Fixpoint run_oops (map : open_addr_map) (ops : list oop) : M (list ores * open_addr_map) :=
  match ops with
  | [] => mret ([], map)
  | op :: ops =>
      '(r, map) ← run_oop map op;
      '(rs, map) ← run_oops map ops;
      mret (r :: rs, map)
  end.

(** The life of a map: created, used, destroyed. *)
Definition oa_life (C : Z) (c : config) (ops : list oop) : M (option (list ores)) :=
  map ← oa_init C (c_key_type c) (c_val_type c) (c_key_size c) (c_val_size c) (c_proc c)
          CHMAP_HASH_FAST UINT16_MAX CHMAP_WINDOW_START;
  match map with
  | None => mret None
  | Some map =>
      '(rs, map) ← run_oops (oa_window_restart map) ops;
      oa_destroy map;; mret (Some rs)
  end.

(** The finite map. *)
Abbreviation fmap := (gmap (list Z) (list Z)).

Definition oinserted (M : fmap) (k v : list Z) (r : ccol_retval_t) (M' : fmap) : Prop :=
  match M !! k with
  | Some _ => r = ccol_key_already_present /\ M' = <[k := v]> M
  | None =>
      (r = ccol_success /\ M' = <[k := v]> M) \/ (r = ccol_not_enough_memory /\ M' = M) \/
      (r = ccol_container_full /\ M' = M /\ Z.of_nat (size M) = ccol_max_elem_count)
  end.

Definition ospec (M : fmap) (op : oop) (r : ores) (M' : fmap) : Prop :=
  match op, r with
  | OInsert k v, OCode r => oinserted M k v r M'
  | OInsertFrom k k2, OCode r =>
      match M !! k2 with
      | Some v => oinserted M k v r M'
      | None => r = ccol_key_not_found /\ M' = M
      end
  | OInsertOrGet k v, OGot r out =>
      match M !! k with
      | Some v0 => r = ccol_key_already_present /\ out = Some v0 /\ M' = M
      | None => oinserted M k v r M' /\ out = if decide (r = ccol_success) then Some v else None
      end
  | OGet k, OGot r out =>
      M' = M /\ out = M !! k /\ r = match M !! k with Some _ => ccol_success | None => ccol_key_not_found end
  | ODelete k, OCode r =>
      M' = delete k M /\ r = match M !! k with Some _ => ccol_success | None => ccol_key_not_found end
  | OReset c, OCode r => M' = ∅ /\ (r = ccol_success \/ r = ccol_not_enough_memory)
  | OCount, ONum n => M' = M /\ n = Z.of_nat (size M)
  | _, _ => False
  end.

Inductive ospecs : fmap -> list oop -> list ores -> fmap -> Prop :=
  | ospecs_nil M : ospecs M [] [] M
  | ospecs_cons M op r M1 ops rs M2 : ospec M op r M1 -> ospecs M1 ops rs M2 -> ospecs M (op :: ops) (r :: rs) M2.

(** Keys and values have the sizes of the map and are bytes; a reset asks for
    a capacity of the backend, or 0. *)
Definition oop_wf (c : config) (op : oop) : Prop :=
  match op with
  | OInsert k v | OInsertOrGet k v => valid_key c k /\ zlen v = c_val_size c
  | OInsertFrom k k2 => valid_key c k /\ valid_key c k2
  | OGet k | ODelete k => valid_key c k
  | OReset C => C = 0 \/ is_capacity C
  | OCount => True
  end.

Lemma arg_gives map bs : gives map (arg bs) (zlen bs) bs.
Proof.
  split; [done|]. cbn. pose proof (zlen_nonneg bs). rewrite <- (ztake_all bs (zlen bs)) at 3 by done.
  constructor. lia.
Qed.
Lemma key_gives map k : valid_key (config_of map) k -> gives map (arg k) (key_size map) k.
Proof. intros [E _]. change (key_size map) with (c_key_size (config_of map)). rewrite <- E. apply arg_gives. Qed.
Lemma val_gives map v : zlen v = val_size map -> gives map (arg v) (val_size map) v.
Proof. intros E. rewrite <- E. apply arg_gives. Qed.

Lemma wp_read_out map out v m : block_ok (capacity map) (table map) -> points_to map out v ->
  wp (read_out map out) m (fun r m' => m' = m /\ r = Some v).
Proof.
  intros Hok (p & -> & Hs & Hsrc). cbn. rewrite Hs. apply wp_bind. eapply wp_read_source; [done..|]. by apply wp_ret.
Qed.

Lemma wp_oa_insert_op map M k v p m F : repr secret map M -> valid_key (config_of map) k -> gives map p (val_size map) v ->
  owns m {[blk (table map)]} F ->
  wp ('(r, map') ← oa_insert secret map (arg k) p; mret (OCode r, map')) m (fun '(r, map') m' =>
    exists r' M', r = OCode r' /\ oinserted M k v r' M' /\ repr secret map' M' /\ config_of map' = config_of map /\
      owns m' {[blk (table map')]} F).
Proof.
  intros Hr Hk Hp Ho. unfold oa_insert. apply wp_bind, wp_bind.
  eapply wp_mono; [apply (wp_oa_insert_impl secret Hsecret map M k v (arg k) p m F false); try done; by apply key_gives|].
  intros [[r out] map'] m' [[Hcfg Ha] Ho']. do 2 apply wp_ret. cbn in Ho'. unfold oinserted.
  destruct (M !! k) as [v0|] eqn:E.
  - destruct Ha as (-> & -> & Hr'). eexists _, _. by split_and!.
  - destruct Ha as [(-> & Hr' & ->)|[(-> & -> & -> & _)|(-> & -> & -> & Hs)]]; eexists _, _.
    + split_and!; [done|by left|done..].
    + split_and!; [done|right; by left|done..].
    + split_and!; [done|right; by right|done..].
Qed.

Lemma wp_run_oop map M op m F : repr secret map M -> oop_wf (config_of map) op -> owns m {[blk (table map)]} F ->
  wp (run_oop map op) m (fun '(r, map') m' => exists M', ospec M op r M' /\ repr secret map' M' /\
    config_of map' = config_of map /\ owns m' {[blk (table map')]} F).
Proof.
  intros Hr Hwf Ho. pose proof (ho_block _ _ _ _ (re_holds _ _ _ Hr)) as Hok. destruct op; cbn [run_oop ospec]; cbn in Hwf.
  - destruct Hwf as [Hk Hv]. eapply wp_mono; [apply (wp_oa_insert_op map M k v (arg v) m F); try done; by apply val_gives|].
    intros [r map'] m' (r' & M' & -> & Hi & ?). by exists M'.
  - destruct Hwf as [Hk Hk2]. apply wp_bind. eapply wp_mono; [apply (wp_oa_get secret Hsecret map M k2); try done; by apply key_gives|].
    intros [r out] ? [-> Ha]. unfold get_answer in Ha. destruct (M !! k2) as [v|] eqn:E.
    + destruct Ha as (-> & p & -> & Hs & Hsrc). eapply wp_mono; [by apply (wp_oa_insert_op map M k v p m F)|].
      intros [r map'] m' (r' & M' & -> & Hi & ?). by exists M'.
    + destruct Ha as [-> ->]. apply wp_ret. by exists M.
  - destruct Hwf as [Hk Hv]. unfold oa_insert_or_get. apply wp_bind.
    eapply wp_mono; [apply (wp_oa_insert_impl secret Hsecret map M k v (arg k) (arg v) m F true); try done;
      [by apply key_gives|by apply val_gives]|].
    intros [[r out] map'] m' [[Hcfg Ha] Ho']. cbn in Ho'. apply wp_bind. unfold oinserted. destruct (M !! k) as [v0|] eqn:E.
    + destruct Ha as (-> & -> & Hout). eapply wp_mono; [by apply (wp_read_out map out v0)|].
      intros ? ? [-> ->]. apply wp_ret. by exists M.
    + destruct Ha as [(-> & Hr' & Hout)|[(-> & -> & -> & _)|(-> & -> & -> & Hs)]].
      * eapply wp_mono; [apply (wp_read_out map' out v); [apply (ho_block _ _ _ _ (re_holds _ _ _ Hr'))|done]|].
        intros ? ? [-> ->]. apply wp_ret. exists (<[k := v]> M). split_and!; [by left|done..].
      * cbn [read_out]. apply wp_ret, wp_ret. exists M. split_and!; [right; by left|done..].
      * cbn [read_out]. apply wp_ret, wp_ret. exists M. split_and!; [right; by right|done..].
  - apply wp_bind. eapply wp_mono; [apply (wp_oa_get secret Hsecret map M k); try done; by apply key_gives|].
    intros [r out] ? [-> Ha]. apply wp_bind. unfold get_answer in Ha. destruct (M !! k) as [v|] eqn:E.
    + destruct Ha as [-> Hout]. eapply wp_mono; [by apply (wp_read_out map out v)|].
      intros ? ? [-> ->]. apply wp_ret. by exists M.
    + destruct Ha as [-> ->]. cbn [read_out]. apply wp_ret, wp_ret. by exists M.
  - apply wp_bind. eapply wp_mono; [apply (wp_oa_delete secret Hsecret map M k (arg k) m F); try done; by apply key_gives|].
    intros [r map'] m' [[Hcfg Ha] Ho']. cbn in Ho'. apply wp_ret. exists (delete k M). destruct (M !! k) as [v|] eqn:E.
    + destruct Ha as [-> Hr']. by split_and!.
    + destruct Ha as [-> ->]. rewrite delete_id by done. by split_and!.
  - apply wp_bind. eapply wp_mono; [by apply (wp_oa_reset secret Hsecret map M new_capacity m F)|].
    intros [r map'] m' [(Hr' & Hcfg & Hor) Ho']. cbn in Ho'. apply wp_ret. exists ∅.
    split_and!; [done|destruct Hor as [[-> _]|[-> _]]; auto|done..].
  - apply wp_ret. exists M. split_and!; [done|apply Hr|done..].
Qed.

Lemma wp_run_oops map M ops m F : repr secret map M -> Forall (oop_wf (config_of map)) ops -> owns m {[blk (table map)]} F ->
  wp (run_oops map ops) m (fun '(rs, map') m' => exists M', ospecs M ops rs M' /\ repr secret map' M' /\
    owns m' {[blk (table map')]} F).
Proof.
  revert map M m. induction ops as [|op ops IH]; intros map M m Hr Hwf Ho; cbn [run_oops].
  { apply wp_ret. exists M. split_and!; [constructor|done..]. }
  apply Forall_cons in Hwf as [Hop Hops]. apply wp_bind. eapply wp_mono; [by apply (wp_run_oop map M op m F)|].
  intros [r map1] m1 (M1 & Hs & Hr1 & Hcfg & Ho1). apply wp_bind. rewrite <- Hcfg in Hops.
  eapply wp_mono; [by apply (IH map1 M1 m1)|]. intros [rs map2] m2 (M2 & Hss & Hr2 & Ho2).
  apply wp_ret. exists M2. split_and!; [by econstructor|done..].
Qed.

(** C12: an open-addressing map refines a finite map through any history of
    insertions (the value given by the caller or through a pointer into the
    map itself), insert-or-gets, lookups, deletions, resets and counts,
    whatever requests the allocator refuses, whichever mode the map hashes
    in and whenever it switches: every answer is the finite map's, the value
    read through a pointer handed out is the key's, an insertion fails only
    for want of memory or at the maximal count, no probe, rebuild or backward
    shift runs out of its fuel or leaves the arrays, and destroying the map
    gives back its only block. *)
Theorem oa_history C c ops m F : is_capacity C -> config_ok c -> Forall (oop_wf c) ops -> owns m ∅ F ->
  wp (oa_life C c ops) m (fun r m' => owns m' ∅ F /\
    match r with Some rs => exists M', ospecs ∅ ops rs M' | None => True end).
Proof.
  intros HC Hcfg Hwf Ho. unfold oa_life. apply wp_bind.
  eapply wp_mono; [apply (wp_oa_init secret Hsecret C _ _ _ _ _ _ _ _ m F); [done|by destruct c|done|done]|].
  intros [map|] m1; [|intros Ho1; by apply wp_ret]. intros (Hr & HC' & Ecfg & Ho1).
  assert (config_of map = c) as Ec by (rewrite Ecfg; by destruct c). apply wp_bind.
  eapply wp_mono; [apply (wp_run_oops (oa_window_restart map) ∅ ops m1 F)|].
  - by apply set_window_repr.
  - by rewrite <- Ec in Hwf.
  - done.
  - intros [rs map'] m2 (M' & Hs & Hr' & Ho2). apply wp_bind.
    eapply wp_mono; [by eapply wp_oa_destroy|]. intros [] m3 Ho3. apply wp_ret. split; [done|]. by exists M'.
Qed.
End History.

(** ** The sizes a table goes through *)
Lemma log2_pow2 k : 0 <= k <= 63 -> chmap_log2_pow2 (2 ^ k) = k.
Proof.
  intros Hk. unfold chmap_log2_pow2, builtin_ctzll.
  replace (- 2 ^ k) with (Z.lnot (Z.ones k)) by (rewrite Z.ones_equiv; unfold Z.lnot; lia).
  rewrite <- Z.ldiff_land, Z.ldiff_ones_r by lia. rewrite Z.shiftr_div_pow2, Z.div_same by (try apply Z.pow_nonzero; lia).
  rewrite Z.shiftl_1_l. apply Z.log2_pow2. lia.
Qed.

(** The load an insertion grows at, in exact arithmetic. *)
Lemma grow_load_exact n C : is_capacity C -> 0 <= n <= C -> oa_above_grow_load n C = (C `div` 10 * 7 + (C `mod` 10 * 7) `div` 10 <? n).
Proof.
  intros HC Hn. pose proof (capacity_range C HC) as HCr. pose proof (Z.div_mod C 10 ltac:(lia)) as E.
  pose proof (Z.mod_pos_bound C 10 ltac:(lia)) as Hr. unfold oa_above_grow_load.
  set (q := C `div` 10) in *. set (r := C `mod` 10) in *. pose proof (Z.div_mod (r * 7) 10 ltac:(lia)) as E'.
  pose proof (Z.mod_pos_bound (r * 7) 10 ltac:(lia)). destruct (Z.leb_spec C (SIZE_MAX `div` 10)) as [Hle|Hgt].
  - change (SIZE_MAX `div` 10) with 1844674407370955161 in Hle. sz. rewrite Z.gtb_ltb.
    destruct (Z.ltb_spec (C * 7) (n * 10)), (Z.ltb_spec (q * 7 + (r * 7) `div` 10) n); lia.
  - sz. set (d := (r * 7) `div` 10) in *. sz. by rewrite Z.gtb_ltb.
Qed.

(** The least power of two above twice the new count. *)
Lemma rehash_between n k : 0 <= n -> 3 <= k <= 62 -> 2 ^ k < 2 * (n + 1) <= 2 ^ (k + 1) -> oa_rehash_capacity_for (n + 1) = 2 ^ (k + 1).
Proof.
  intros Hn Hk Hb. unfold oa_rehash_capacity_for, _ccol_max_power_of_two_size_t.
  assert (2 ^ (k + 1) <= 2 ^ 63) as Hk63 by (apply Z.pow_le_mono_r; lia).
  change (2 ^ 63) with 9223372036854775808 in Hk63. change (9223372036854775808 `div` 2) with 4611686018427387904.
  rewrite Z.gtb_ltb. destruct (Z.ltb_spec 4611686018427387904 (n + 1)); [lia|]. sz.
  pose proof (Pow2.pow2_ok (2 * (n + 1)) ltac:(unfold ccol_max_elem_count; lia)) as ((j & Hj & Er) & Hle & Hmin).
  specialize (Hmin (k + 1) ltac:(lia) ltac:(lia)). rewrite Er in *.
  assert (j <= k + 1) by (apply (Z.pow_le_mono_r_iff 2); lia).
  assert (k < j) by (apply (Z.pow_lt_mono_r_iff 2); lia). replace j with (k + 1) by lia.
  assert (2 ^ 4 <= 2 ^ (k + 1)) by (apply Z.pow_le_mono_r; lia). change (2 ^ 4) with 16 in *.
  unfold minimum_allowed_bucket_array_size. destruct (Z.ltb_spec (2 ^ (k + 1)) 16); [lia|done].
Qed.

(** The capacity a growth asks for, and the load it leaves. *)
Definition growth_answer (C n C' : Z) : Prop :=
  is_capacity C' /\ C' = (if n =? C then 4 * C else 2 * C) /\ 2 * (n + 1) <= C' /\
  oa_above_grow_load (n + 1) C' = false /\ (n <? Z.shiftr C' 2) = false.

(** C40: an insertion that grows the table makes room for twice the new
    count: twice the capacity, and four times when earlier growths failed
    until every slot was taken (n = C).  The table it leaves is below the
    load that grows, and deleting the new entry does not shrink it back. *)
Theorem rehash_keeps_apart C n : is_capacity C -> C <= 2 ^ 61 -> 0 <= n <= C -> oa_above_grow_load n C = true ->
  growth_answer C n (oa_rehash_capacity_for (n + 1)).
Proof.
  intros HC Hmax Hn Hg. pose proof (capacity_range C HC) as HCr. rewrite (grow_load_exact n C HC Hn) in Hg.
  apply Z.ltb_lt in Hg. pose proof (Z.div_mod C 10 ltac:(lia)). pose proof (Z.mod_pos_bound C 10 ltac:(lia)).
  pose proof (Z.div_mod (C `mod` 10 * 7) 10 ltac:(lia)). pose proof (Z.mod_pos_bound (C `mod` 10 * 7) 10 ltac:(lia)).
  pose proof HC as (k & Hk & EC). assert (2 * C = 2 ^ (k + 1)) as E2 by (rewrite EC, Z.pow_add_r by lia; lia).
  assert (4 * C = 2 ^ (k + 2)) as E4 by (rewrite EC, Z.pow_add_r by lia; lia).
  rewrite EC in Hmax. apply Z.pow_le_mono_r_iff in Hmax; [|lia..].
  assert (oa_rehash_capacity_for (n + 1) = if n =? C then 4 * C else 2 * C) as ->.
  { destruct (Z.eqb_spec n C) as [->|].
    - rewrite E4. replace (k + 2) with (k + 1 + 1) by lia. apply rehash_between; [lia..|].
      replace (k + 1 + 1) with (k + 2) by lia. lia.
    - rewrite E2. apply rehash_between; lia. }
  set (C' := if n =? C then _ else _). assert (is_capacity C') as HC'.
  { subst C'. destruct (n =? C); [exists (k + 2)|exists (k + 1)]; split; lia. }
  assert ((n = C /\ C' = 4 * C) \/ (n < C /\ C' = 2 * C)) as Hcase.
  { subst C'. destruct (Z.eqb_spec n C); [left|right]; lia. }
  split; [done|]. split; [by subst C'|]. clearbody C'. split; [lia|].
  rewrite (grow_load_exact (n + 1) C' HC') by lia. split.
  - apply Z.ltb_ge. pose proof (Z.div_mod C' 10 ltac:(lia)). pose proof (Z.mod_pos_bound C' 10 ltac:(lia)).
    pose proof (Z.div_mod (C' `mod` 10 * 7) 10 ltac:(lia)). pose proof (Z.mod_pos_bound (C' `mod` 10 * 7) 10 ltac:(lia)). lia.
  - apply Z.ltb_ge. rewrite Z.shiftr_div_pow2 by lia. change (2 ^ 2) with 4.
    pose proof (Z.div_mod C' 4 ltac:(lia)). pose proof (Z.mod_pos_bound C' 4 ltac:(lia)). lia.
Qed.

(** The bound of the insert window as the comment on [oa_window_bound] gives
    it, in exact arithmetic. *)
Definition window_bound_spec (n C : Z) : Z :=
  let judged := Z.min (n + 256) (C `div` 10 * 7 + (C `mod` 10 * 7) `div` 10 + 1) in
  let d := 65536 - Z.min 65535 ((judged * 65536) `div` C) in
  Z.min 65535 (((if C >=? 4096 then 640 else 768) * (2 ^ 32 - d * d)) `div` (d * d) + 128).

Lemma load_exact n C : is_capacity C -> 0 <= n <= C -> chmap_load_q16 n C = (n * 65536) `div` C /\ 0 <= (n * 65536) `div` C <= 65536.
Proof.
  intros HC Hn. pose proof (capacity_range C HC) as HCr.
  assert (0 <= (n * 65536) `div` C <= 65536) as Hb.
  { split; [apply Z.div_pos; lia|]. apply Z.div_le_upper_bound; lia. }
  split; [|done]. destruct HC as (k & Hk & ->). unfold chmap_load_q16. rewrite log2_pow2 by lia. rewrite Z.geb_leb.
  assert (2 ^ 16 = 65536) as E16 by done. destruct (Z.leb_spec 16 k).
  - rewrite Z.shiftr_div_pow2 by lia. replace (2 ^ k) with (2 ^ (k - 16) * 65536).
    + rewrite Z.div_mul_cancel_r by (try apply Z.pow_nonzero; lia). done.
    + rewrite <- E16, <- Z.pow_add_r by lia. f_equal. lia.
  - rewrite Z.shiftl_mul_pow2 by lia. assert ((n * 65536) `div` 2 ^ k = n * 2 ^ (16 - k)) as E.
    { rewrite <- E16. replace (2 ^ 16) with (2 ^ (16 - k) * 2 ^ k) by (rewrite <- Z.pow_add_r by lia; f_equal; lia).
      rewrite Z.mul_assoc. apply Z.div_mul. apply Z.pow_nonzero; lia. }
    rewrite E in Hb |- *. apply wrap_small. unfold two64. lia.
Qed.

(** The bound a window of 256 insertions is judged by is the formula of
    its comment in exact arithmetic: no intermediate of the 64-bit
    computation wraps, the divisor is never 0, and the result is between 128
    and 65535, so that it fits the 16 bits it is stored in and a window of
    shallow insertions never switches a map. *)
Theorem window_bound_exact n C : is_capacity C -> 0 <= n <= C ->
  oa_window_bound n C = window_bound_spec n C /\ 128 <= oa_window_bound n C <= 65535.
Proof.
  intros HC Hn. pose proof (capacity_range C HC) as HCr. unfold oa_window_bound, window_bound_spec, oa_max_count, UINT16_MAX, CHMAP_WINDOW_INSERTS.
  pose proof (Z.div_mod C 10 ltac:(lia)) as E. pose proof (Z.mod_pos_bound C 10 ltac:(lia)) as Hr.
  set (q := C `div` 10) in *. set (r := C `mod` 10) in *. pose proof (Z.div_mod (r * 7) 10 ltac:(lia)).
  pose proof (Z.mod_pos_bound (r * 7) 10 ltac:(lia)). sz. set (s := (r * 7) `div` 10) in *. sz.
  set (limit := q * 7 + s + 1) in *. assert (1 <= limit <= C) as Hlim by lia.
  assert ((if (n <? limit) && (limit ⊖ n >? 256) then n + 256 else limit) = Z.min (n + 256) limit) as ->.
  { destruct (Z.ltb_spec n limit); cbn [andb]; [|lia]. sz. rewrite Z.gtb_ltb. destruct (Z.ltb_spec 256 (limit - n)); lia. }
  set (judged := Z.min (n + 256) limit). destruct (load_exact judged C HC ltac:(lia)) as [-> Hload].
  set (a0 := (judged * 65536) `div` C) in *. set (a := if a0 >? 65535 then 65535 else a0).
  assert (a = Z.min 65535 a0) as Ea by (subst a; rewrite Z.gtb_ltb; destruct (Z.ltb_spec 65535 a0); lia).
  rewrite <- Ea. assert (0 <= a <= 65535) as Ha by lia. clearbody a. clear Ea. sz. set (d := 65536 - a).
  assert (1 <= d <= 65536) as Hd by lia. clearbody d. assert (1 <= d * d <= 4294967296) as Hdd by nia. sz.
  change (Z.shiftl 1 32) with 4294967296. change (2 ^ 32) with 4294967296. sz.
  set (mul := if C >=? 4096 then 640 else 768). assert (640 <= mul <= 768) as Hmul by (subst mul; by case_match).
  clearbody mul. assert (0 <= mul * (4294967296 - d * d) <= 768 * 4294967296) as Hprod by nia. sz.
  assert (0 <= (mul * (4294967296 - d * d)) `div` (d * d) <= 768 * 4294967296) as Hq.
  { split; [apply Z.div_pos; lia|]. apply Z.div_le_upper_bound; [lia|]. nia. }
  sz. rewrite Z.gtb_ltb. destruct (Z.ltb_spec 65535 ((mul * (4294967296 - d * d)) `div` (d * d) + 128)); lia.
Qed.

(** ** Witnesses *)
Definition config_ii : config := Config None ccol_int ccol_int 4 4.
Definition secret0 : chmap_hash_secret := HashSecretOf (SipState 1 2 3 4) 5 6.
Definition key_n (n : Z) : list Z := le_bytes 4 n.

Lemma capacity_16 : is_capacity 16.
Proof. exists 4. split; [lia|done]. Qed.
Lemma config_ii_ok : config_ok config_ii.
Proof. by split. Qed.

Lemma oa_history_witness :
  wp (@oa_life (grant_up_to 100000) secret0 16 config_ii
        [OInsert (key_n 1) (key_n 7); OInsertFrom (key_n 2) (key_n 1); OGet (key_n 2); ODelete (key_n 1); OReset 0])
    mem0 (fun r m' => owns m' ∅ ∅ /\
      match r with
      | Some rs => exists M', ospecs ∅ [OInsert (key_n 1) (key_n 7); OInsertFrom (key_n 2) (key_n 1); OGet (key_n 2);
                                        ODelete (key_n 1); OReset 0] rs M'
      | None => True
      end).
Proof.
  apply (@oa_history (grant_up_to 100000) secret0 ltac:(done) 16 config_ii); [exact capacity_16|exact config_ii_ok| |exact owns_mem0].
  repeat constructor; (done || by left).
Defined.

Lemma rehash_keeps_apart_witness : growth_answer 16 16 (oa_rehash_capacity_for (16 + 1)).
Proof. apply (rehash_keeps_apart 16 16); [exact capacity_16|by vm_compute|lia|by vm_compute]. Defined.

Lemma window_bound_exact_witness : oa_window_bound 3 16 = window_bound_spec 3 16 /\ 128 <= oa_window_bound 3 16 <= 65535.
Proof. apply (window_bound_exact 3 16); [exact capacity_16|lia]. Defined.

(** The map grows, shrinks and answers; a table that may not grow fills to
    its last slot and then reports the missing memory. *)
Definition inserts (n : nat) : list oop := (fun i => OInsert (key_n (Z.of_nat i)) (key_n (3 * Z.of_nat i))) <$> seq 0 n.
Definition deletes (n : nat) : list oop := (fun i => ODelete (key_n (Z.of_nat i))) <$> seq 0 n.

Example oa_life_runs :
  (match @oa_life (grant_up_to 100000) secret0 16 config_ii
           (inserts 40 ++ deletes 30 ++ [OCount; OGet (key_n 31); OGet (key_n 29)]) mem0 with
   | Done (Some rs) _ => drop 70 rs
   | _ => []
   end) = [ONum 10; OGot ccol_success (Some [93; 0; 0; 0]); OGot ccol_key_not_found None].
Proof. vm_compute. reflexivity. Qed.

Example oa_life_full :
  (match @oa_life (grant_up_to 300) secret0 16 config_ii (inserts 17 ++ [OCount; OGet (key_n 15)]) mem0 with
   | Done (Some rs) _ => drop 15 rs
   | _ => []
   end) = [OCode ccol_success; OCode ccol_not_enough_memory; ONum 16; OGot ccol_success (Some [45; 0; 0; 0])].
Proof. vm_compute. reflexivity. Qed.
