(* ===== verification/CLinks.v ===== *)
(** * Linked lists in memory

    What the links of a singly and a doubly linked list are, for nodes kept
    in a store keyed by their address: a list of addresses whose every
    element is linked to its neighbours.  Pushing, unlinking and frame lemmas
    for both. *)
From S2P Require Import Prelude.

Section Links.
Implicit Types (nx : gmap nat (option nat)) (rf : gmap nat (option nat * option nat)) (xs l : list nat) (x : nat).

(** ** Singly linked *)

(** [nx] links the nodes of [xs] in order, the last one to NULL. *)
Definition chain nx xs : Prop := forall l1 x l2, xs = l1 ++ x :: l2 -> nx !! x = Some (head l2).

Lemma chain_nil nx : chain nx [].
Proof. intros [|] x l2; discriminate. Qed.

Lemma chain_cons nx x xs : chain nx (x :: xs) <-> nx !! x = Some (head xs) /\ chain nx xs.
Proof.
  split.
  - intros H. split; [by apply (H [])|]. intros l1 y l2 ->. by apply (H (x :: l1)).
  - intros [Hx Hxs] [|z l1] y l2; cbn; intros [= -> ->]; [done|]. by apply (Hxs l1).
Qed.

Lemma chain_app nx l1 l2 : chain nx (l1 ++ l2) -> chain nx l2.
Proof. intros H k1 x k2 ->. apply (H (l1 ++ k1)). by rewrite <- app_assoc. Qed.

Lemma chain_ext nx nx' xs : (forall x, x ∈ xs -> nx' !! x = nx !! x) -> chain nx xs -> chain nx' xs.
Proof. intros He H l1 x l2 ->. rewrite He by set_solver. by apply (H l1). Qed.

Lemma chain_insert nx x y xs : x ∉ xs -> chain nx xs -> chain (<[x := y]> nx) xs.
Proof. intros Hx. apply chain_ext. intros z Hz. apply lookup_insert_ne. set_solver. Qed.

Lemma chain_delete nx x xs : x ∉ xs -> chain nx xs -> chain (delete x nx) xs.
Proof. intros Hx. apply chain_ext. intros z Hz. apply lookup_delete_ne. set_solver. Qed.

Lemma chain_push nx x xs : x ∉ xs -> chain nx xs -> chain (<[x := head xs]> nx) (x :: xs).
Proof.
  intros Hx H. apply chain_cons. split; [apply lookup_insert_eq|]. by apply chain_insert.
Qed.

(** The neighbour before a node is its predecessor's end of the list. *)
Lemma NoDup_middle l1 x l2 : NoDup (l1 ++ x :: l2) -> (x ∉ l1) /\ (x ∉ l2) /\ NoDup (l1 ++ l2).
Proof.
  intros H. pose proof H as (H1 & H2 & H3)%NoDup_app. apply NoDup_cons in H3 as [Hx H3].
  split_and!; [intros Hin; apply (H2 x Hin); set_solver|done|]. apply NoDup_app. split_and!; [done| |done].
  intros y Hy Hy2. apply (H2 y Hy). set_solver.
Qed.

Lemma split_app (l1 l2 k1 k2 : list nat) y : l1 ++ l2 = k1 ++ y :: k2 ->
  (exists k, l1 = k1 ++ (y :: k) /\ k2 = k ++ l2) \/ (exists k, l2 = k ++ (y :: k2) /\ k1 = l1 ++ k).
Proof.
  intros E. apply app_eq_inv in E as [(k & -> & E)|(k & -> & E)].
  - destruct k as [|z k]; cbn in E.
    + right. exists []. by rewrite !app_nil_r.
    + injection E as <- ->. left. by exists k.
  - right. by exists k.
Qed.

Lemma head_app_cons (l1 l2 : list nat) x : l1 <> [] -> head (l1 ++ x :: l2) = head l1.
Proof. by destruct l1. Qed.

(** A node leaves: its predecessor is linked to its successor. *)
Lemma chain_unlink nx l1 x l2 : NoDup (l1 ++ x :: l2) -> chain nx (l1 ++ x :: l2) ->
  chain (from_option (fun p => <[p := head l2]> nx) nx (last l1)) (l1 ++ l2).
Proof.
  intros Hd H. apply NoDup_middle in Hd as (Hx1 & Hx2 & Hd).
  intros k1 y k2 E. destruct (split_app _ _ _ _ _ E) as [(k & -> & ->)|(k & -> & ->)].
  - assert (nx !! y = Some (head (k ++ x :: l2))) as Hy by (apply (H k1); by rewrite <- app_assoc).
    destruct (decide (k = [])) as [->|Hk].
    + rewrite last_snoc. cbn. apply lookup_insert_eq.
    + destruct (exists_last Hk) as (k' & p & ->). rewrite app_comm_cons, app_assoc, last_snoc. cbn.
      rewrite lookup_insert_ne.
      { rewrite Hy. f_equal. by destruct k'. }
      intros ->. apply NoDup_app in Hd as (Hd & _). rewrite app_comm_cons, app_assoc in Hd.
      apply NoDup_app in Hd as (_ & Hd & _). eapply (Hd y); set_solver.
  - assert (nx !! y = Some (head k2)) as Hy by (apply (H (l1 ++ x :: k)); by rewrite <- app_assoc).
    destruct (last l1) as [p|] eqn:Ep; [|done]. cbn. apply last_Some in Ep as (l' & ->).
    rewrite lookup_insert_ne; [done|]. intros ->. apply NoDup_app in Hd as (_ & Hd & _).
    eapply (Hd y); set_solver.
Qed.

(** ** Doubly linked *)

(** [rf] links the nodes of [xs] to their predecessors and successors. *)
Definition dlist rf xs : Prop := forall l1 x l2, xs = l1 ++ x :: l2 -> rf !! x = Some (last l1, head l2).

Lemma dlist_nil rf : dlist rf [].
Proof. intros [|] x l2; discriminate. Qed.

Lemma dlist_ext rf rf' xs : (forall x, x ∈ xs -> rf' !! x = rf !! x) -> dlist rf xs -> dlist rf' xs.
Proof. intros He H l1 x l2 ->. rewrite He by set_solver. by apply (H l1). Qed.

Lemma dlist_insert rf x y xs : x ∉ xs -> dlist rf xs -> dlist (<[x := y]> rf) xs.
Proof. intros Hx. apply dlist_ext. intros z Hz. apply lookup_insert_ne. set_solver. Qed.

Lemma dlist_delete rf x xs : x ∉ xs -> dlist rf xs -> dlist (delete x rf) xs.
Proof. intros Hx. apply dlist_ext. intros z Hz. apply lookup_delete_ne. set_solver. Qed.

(** A node at the front, and the old front's link back to it. *)
Lemma dlist_push rf x xs : NoDup (x :: xs) -> dlist rf xs ->
  dlist (from_option (fun h => <[h := (Some x, head (List.tail xs))]> (<[x := (None, Some h)]> rf))
           (<[x := (None, None)]> rf) (head xs)) (x :: xs).
Proof.
  intros Hd H. pose proof Hd as [Hx Hd']%NoDup_cons. intros [|z l1] y l2; cbn; intros [= -> ->].
  - destruct l2 as [|h l2]; cbn; [apply lookup_insert_eq|].
    rewrite lookup_insert_ne by set_solver. apply lookup_insert_eq.
  - destruct l1 as [|h l1]; cbn.
    + by rewrite lookup_insert_eq.
    + assert (y <> h) by (intros ->; apply NoDup_cons in Hd' as [Hd' _]; set_solver).
      rewrite !lookup_insert_ne by set_solver. pose proof (H (h :: l1) y l2 eq_refl) as Hy. by rewrite Hy.
Qed.

(** A node leaves: its neighbours are linked to each other. *)
Lemma dlist_unlink rf rf' l1 x l2 : NoDup (l1 ++ x :: l2) -> dlist rf (l1 ++ x :: l2) ->
  (forall y, y ∈ l1 ++ l2 -> last l1 <> Some y -> head l2 <> Some y -> rf' !! y = rf !! y) ->
  (forall p l, l1 = l ++ [p] -> rf' !! p = Some (last l, head l2)) ->
  (forall q l, l2 = q :: l -> rf' !! q = Some (last l1, head l)) ->
  dlist rf' (l1 ++ l2).
Proof.
  intros Hd H Hsame Hp Hq. apply NoDup_middle in Hd as (Hx1 & Hx2 & Hd).
  intros k1 y k2 E. destruct (split_app _ _ _ _ _ E) as [(k & -> & ->)|(k & -> & ->)].
  - assert (rf !! y = Some (last k1, head (k ++ x :: l2))) as Hy by (apply (H k1); by rewrite <- app_assoc).
    destruct (decide (k = [])) as [->|Hk]; [by apply Hp|].
    destruct (exists_last Hk) as (k' & p & ->). rewrite Hsame; [rewrite Hy; by destruct k'|set_solver| |].
    + rewrite app_comm_cons, app_assoc, last_snoc. intros [= ->]. apply NoDup_app in Hd as (Hd & _).
      rewrite app_comm_cons, app_assoc in Hd. apply NoDup_app in Hd as (_ & Hd & _). eapply (Hd y); set_solver.
    + intros Ey. destruct l2 as [|z l2]; [done|]. injection Ey as ->.
      apply NoDup_app in Hd as (_ & Hd & _). eapply (Hd y); set_solver.
  - assert (rf !! y = Some (last (l1 ++ x :: k), head k2)) as Hy by (apply (H (l1 ++ x :: k)); by rewrite <- app_assoc).
    destruct k as [|z k]; cbn in *; [rewrite app_nil_r; by apply Hq|].
    rewrite Hsame; [rewrite Hy; f_equal; f_equal|set_solver| |].
    + rewrite !last_app. cbn. by destruct (last (z :: k)) eqn:Ez; [rewrite last_cons in Ez; destruct k|rewrite last_None in Ez].
    + intros Ey. apply last_Some in Ey as (l' & ->). apply NoDup_app in Hd as (_ & Hd & _). eapply (Hd y); set_solver.
    + intros [= ->]. apply NoDup_app in Hd as (_ & _ & Hd). apply NoDup_cons in Hd as [Hd _]. set_solver.
Qed.

(** Distinct members of a store are no more than it has. *)
Lemma NoDup_size {A} (m : gmap nat A) xs : NoDup xs -> (forall x, x ∈ xs -> is_Some (m !! x)) -> (length xs <= size m)%nat.
Proof.
  intros Hd Hin. rewrite <- size_dom, <- (size_list_to_set (C := gset nat) xs) by done.
  apply subseteq_size. intros x Hx%elem_of_list_to_set. apply elem_of_dom. by apply Hin.
Qed.
End Links.
