(* ===== verification/CScMap.v ===== *)
(** * The separate-chaining backend of the hash map ([src/chashmap.c])

    An array of buckets, each the head of a singly linked chain of nodes, and
    a doubly linked list of all nodes in the order of their insertion.  The
    nodes are in a store of the model, keyed by their address, so the links
    are the pointers of the code and an access to a freed node is
    [Undefined]. *)
From S2P Require Import Prelude Memory Values Common CHash COaMap.
Import COaMap(chmap_hash_mode(..), cmap_pair(..), pair_ptr, pair_size, chmap_load_q16, two32, UINT16_MAX,
  CHMAP_WINDOW_START, CHMAP_WINDOW_STEP, CHMAP_WINDOW_INSERTS, minimum_allowed_bucket_array_size,
  _ccol_max_power_of_two_size_t).

Module CScMap.
Section CScMap.
Context {alloc : Allocator} (secret : chmap_hash_secret).

(** ** State *)
Definition INLINE_STORAGE_THRESHOLD : Z := 23.
Definition SC_CHAIN_CAP : Z := 20.
Definition SC_ATTEMPT_SLACK : Z := 64.
Definition scale_factor : Z := 4.
Definition compact_bucket_array_size : Z := 4.

(** The union of a pointer and 24 bytes.  [inline_data] keeps the bytes last
    copied there; the others are never read. *)
Inductive storage :=
  | inline_data (bytes : list Z)
  | heap_ptr (p : option block).

(** A [cmap_pair] of [{NULL, 0}] is [None]; [prev] and [next_ref] are the two
    links of [dllist_refs], each to the [dllist_refs] of the node it names. *)
Record llist_node := LlistNode {
  key_storage : storage;
  hash_val : Z;
  val_storage : storage;
  next : option nat;
  key_pair_accessor : option cmap_pair;
  val_pair_accessor : option cmap_pair;
  prev : option nat;
  next_ref : option nat;
}.

(** Where the two unions are in a node. *)
Definition key_storage_offset : Z := 0.
Definition val_storage_offset : Z := 32.
Definition sizeof_llist_node : Z := 112.

Record dllist_root := DllistRoot { dl_head : option nat; dl_tail : option nat }.

(** A bucket array: its block, [None] for the array inside the block of the
    map, and the heads of its chains. *)
Record bucket_array := BucketArray { array_blk : option nat; heads : list (option nat) }.

(** What the creation of a map fixes. *)
Record sc_config := ScConfig {
  custom_hashing_proc : option (list Z -> Z);
  custom_key_equality_proc : option (list Z -> list Z -> bool);
  key_type : ccol_data_type;
  val_type : ccol_data_type;
  inline_buckets : Z;
}.

Record sep_chain_map := SepChainMap {
  elem_count : Z;
  bucket_arr_size : Z;
  elem_count_to_scale_up : Z;
  elem_count_to_scale_down : Z;
  bucket_arr : bucket_array;
  all_elems : dllist_root;
  conf : sc_config;
  (* of the enclosing [struct chashmap], reached through [chmap_of_sc] *)
  hash_mode : chmap_hash_mode;
  window_bound : Z;
  insert_window : Z;
  (* the nodes in memory *)
  nodes : gmap nat llist_node;
}.

Definition set_count (map : sep_chain_map) (n : Z) : sep_chain_map :=
  SepChainMap n (bucket_arr_size map) (elem_count_to_scale_up map) (elem_count_to_scale_down map)
    (bucket_arr map) (all_elems map) (conf map) (hash_mode map) (window_bound map) (insert_window map) (nodes map).
Definition set_limits (map : sep_chain_map) (up down : Z) : sep_chain_map :=
  SepChainMap (elem_count map) (bucket_arr_size map) up down
    (bucket_arr map) (all_elems map) (conf map) (hash_mode map) (window_bound map) (insert_window map) (nodes map).
Definition set_buckets (map : sep_chain_map) (arr : bucket_array) (size : Z) : sep_chain_map :=
  SepChainMap (elem_count map) size (elem_count_to_scale_up map) (elem_count_to_scale_down map)
    arr (all_elems map) (conf map) (hash_mode map) (window_bound map) (insert_window map) (nodes map).
Definition set_root (map : sep_chain_map) (r : dllist_root) : sep_chain_map :=
  SepChainMap (elem_count map) (bucket_arr_size map) (elem_count_to_scale_up map) (elem_count_to_scale_down map)
    (bucket_arr map) r (conf map) (hash_mode map) (window_bound map) (insert_window map) (nodes map).
Definition set_mode (map : sep_chain_map) (mode : chmap_hash_mode) : sep_chain_map :=
  SepChainMap (elem_count map) (bucket_arr_size map) (elem_count_to_scale_up map) (elem_count_to_scale_down map)
    (bucket_arr map) (all_elems map) (conf map) mode (window_bound map) (insert_window map) (nodes map).
Definition set_window (map : sep_chain_map) (bound win : Z) : sep_chain_map :=
  SepChainMap (elem_count map) (bucket_arr_size map) (elem_count_to_scale_up map) (elem_count_to_scale_down map)
    (bucket_arr map) (all_elems map) (conf map) (hash_mode map) bound win (nodes map).
Definition set_nodes (map : sep_chain_map) (ns : gmap nat llist_node) : sep_chain_map :=
  SepChainMap (elem_count map) (bucket_arr_size map) (elem_count_to_scale_up map) (elem_count_to_scale_down map)
    (bucket_arr map) (all_elems map) (conf map) (hash_mode map) (window_bound map) (insert_window map) ns.

Definition sc_keyed (map : sep_chain_map) : bool :=
  match hash_mode map with CHMAP_HASH_KEYED => true | CHMAP_HASH_FAST => false end.

Definition set_next (n : llist_node) (x : option nat) : llist_node :=
  LlistNode (key_storage n) (hash_val n) (val_storage n) x (key_pair_accessor n) (val_pair_accessor n) (prev n) (next_ref n).
Definition set_hash (n : llist_node) (h : Z) : llist_node :=
  LlistNode (key_storage n) h (val_storage n) (next n) (key_pair_accessor n) (val_pair_accessor n) (prev n) (next_ref n).
Definition set_refs (n : llist_node) (p x : option nat) : llist_node :=
  LlistNode (key_storage n) (hash_val n) (val_storage n) (next n) (key_pair_accessor n) (val_pair_accessor n) p x.
Definition set_key (n : llist_node) (s : storage) (a : option cmap_pair) : llist_node :=
  LlistNode s (hash_val n) (val_storage n) (next n) a (val_pair_accessor n) (prev n) (next_ref n).
Definition set_val (n : llist_node) (s : storage) (a : option cmap_pair) : llist_node :=
  LlistNode (key_storage n) (hash_val n) s (next n) (key_pair_accessor n) a (prev n) (next_ref n).

(** Reading and writing a node through its address. *)
Definition node_at (map : sep_chain_map) (a : nat) : M llist_node := ub (nodes map !! a).
Definition set_node (map : sep_chain_map) (a : nat) (n : llist_node) : sep_chain_map :=
  set_nodes map (<[a := n]> (nodes map)).
Definition update_node (map : sep_chain_map) (a : nat) (f : llist_node -> llist_node) : M sep_chain_map :=
  n ← node_at map a; mret (set_node map a (f n)).

(** ** Pointers to the bytes of the map *)
Definition storage_bytes (a : nat) (start : Z) (s : storage) (b : nat) (off len : Z) : option (list Z) :=
  match s with
  | inline_data bytes => if bool_decide (b = a) then within start bytes off len else None
  | heap_ptr (Some d) => if bool_decide (b = b_id d) then within 0 (b_bytes d) off len else None
  | heap_ptr None => None
  end.

(** [len] bytes at [off] of the block [b], as far as the node has them there. *)
Definition node_bytes (a : nat) (n : llist_node) (b : nat) (off len : Z) : option (list Z) :=
  match storage_bytes a key_storage_offset (key_storage n) b off len with
  | Some bytes => Some bytes
  | None => storage_bytes a val_storage_offset (val_storage n) b off len
  end.

(** The bytes a pointer argument reaches, the caller's or the map's. *)
Definition resolve (map : sep_chain_map) (p : ptr) (len : Z) : option (list Z) :=
  match p with
  | Foreign bs => if (0 <=? len) && (len <=? zlen bs) then Some (ztake len bs) else None
  | At b off => first_some (fun '(a, n) => node_bytes a n b off len) (map_to_list (nodes map))
  end.

Definition read_ptr (map : sep_chain_map) (p : ptr) (len : Z) : M (list Z) :=
  _ ← match p with At b _ => touch b | Foreign _ => mret tt end;
  ub (resolve map p len).

(** The bytes an accessor names. *)
Definition read_pair (map : sep_chain_map) (acc : option cmap_pair) : M (list Z) :=
  acc ← ub acc; read_ptr map (pair_ptr acc) (pair_size acc).

Definition acc_size (acc : option cmap_pair) : Z := from_option pair_size 0 acc.

(** Two ranges that begin in one block overlap when neither ends before the
    other begins; ranges of two blocks never do. *)
Definition ranges_overlap (a : ptr) (a_size : Z) (b : ptr) (b_size : Z) : bool :=
  if (a_size =? 0) || (b_size =? 0) then false else
  match a, b with
  | At i x, At j y => bool_decide (i = j) && (x <? y + b_size) && (y <? x + a_size)
  | _, _ => false
  end.

(** The storage that [n] bytes copied over an array of 24 leave. *)
Definition copy_inline (bytes : list Z) : M storage :=
  if zlen bytes <=? INLINE_STORAGE_THRESHOLD + 1 then mret (inline_data bytes) else undefined.
Definition copy_heap (b : block) (bytes : list Z) : M storage :=
  bs ← memcpy_in (b_bytes b) 0 bytes; mret (heap_ptr (Some (Block (b_id b) bs))).

(** ** The list of all nodes *)
Definition attach_node_to_dllist (map : sep_chain_map) (a : nat) : M sep_chain_map :=
  map ← update_node map a (fun n => set_refs n None (next_ref n));
  match dl_head (all_elems map) with
  | None =>
      map ← update_node map a (fun n => set_refs n (prev n) None);
      mret (set_root map (DllistRoot (Some a) (Some a)))
  | Some h =>
      map ← update_node map a (fun n => set_refs n (prev n) (Some h));
      map ← update_node map h (fun n => set_refs n (Some a) (next_ref n));
      mret (set_root map (DllistRoot (Some a) (dl_tail (all_elems map))))
  end.

Definition detach_node_from_dllist (map : sep_chain_map) (a : nat) : M sep_chain_map :=
  node ← node_at map a;
  map ← match next_ref node with
        | Some x => update_node map x (fun n => set_refs n (prev node) (next_ref n))
        | None => mret (set_root map (DllistRoot (dl_head (all_elems map)) (prev node)))
        end;
  match prev node with
  | Some p => update_node map p (fun n => set_refs n (prev n) (next_ref node))
  | None => mret (set_root map (DllistRoot (next_ref node) (dl_tail (all_elems map))))
  end.

(** ** Nodes *)
Definition free_storage (acc : option cmap_pair) (s : storage) : M unit :=
  if acc_size acc >? INLINE_STORAGE_THRESHOLD then
    match s with
    | heap_ptr (Some b) => _ccol_mem_free (b_id b)
    | heap_ptr None => mret tt
    | inline_data _ => undefined
    end
  else mret tt.

(** [listed]: [all_elems] is given. *)
Definition sc_destroy_llist_node (map : sep_chain_map) (listed : bool) (a : nat) : M sep_chain_map :=
  n ← node_at map a;
  _ ← free_storage (key_pair_accessor n) (key_storage n);
  _ ← free_storage (val_pair_accessor n) (val_storage n);
  map ← (if listed then detach_node_from_dllist map a else mret map);
  _ ← _ccol_mem_free a;
  mret (set_nodes map (delete a (nodes map))).

(** The storage and the accessor for [size] bytes at [p]; [None] when the
    buffer can't be allocated. *)
Definition store (map : sep_chain_map) (a : nat) (offset : Z) (p : ptr) (size : Z)
    : M (option (storage * option cmap_pair)) :=
  if size <=? INLINE_STORAGE_THRESHOLD then
    bytes ← read_ptr map p size;
    s ← copy_inline bytes;
    mret (Some (s, Some (CmapPair (At a offset) size)))
  else
    b ← _ccol_mem_alloc size;
    match b with
    | None => mret None
    | Some b =>
        bytes ← read_ptr map p size;
        s ← copy_heap b bytes;
        mret (Some (s, Some (CmapPair (At (b_id b) 0) size)))
    end.

Definition zeroed_node : llist_node :=
  LlistNode (inline_data (replicate 24 0)) 0 (inline_data (replicate 24 0)) None None None None None.

Definition sc_create_llist_node (map : sep_chain_map) (hash : Z) (key_pair val_pair : cmap_pair)
    : M (option nat * sep_chain_map) :=
  new_elem ← _ccol_mem_calloc 1 sizeof_llist_node;
  match new_elem with
  | None => mret (None, map)
  | Some b =>
      let a := b_id b in
      let map := set_node map a (set_hash zeroed_node hash) in
      key ← store map a key_storage_offset (pair_ptr key_pair) (pair_size key_pair);
      match key with
      | None => map ← sc_destroy_llist_node map false a; mret (None, map)
      | Some (s, acc) =>
          map ← update_node map a (fun n => set_key n s acc);
          val ← store map a val_storage_offset (pair_ptr val_pair) (pair_size val_pair);
          match val with
          | None => map ← sc_destroy_llist_node map false a; mret (None, map)
          | Some (s, acc) =>
              map ← update_node map a (fun n => set_val n s acc);
              map ← attach_node_to_dllist map a;
              map ← update_node map a (fun n => set_next n None);
              mret (Some a, map)
          end
      end
  end.

(** ** The comparison of keys *)
Definition long_double_keys_equal (a b : list Z) : bool :=
  match long_double_value a, long_double_value b with
  | Some x, Some y => x =? y
  | None, None => true
  | _, _ => false
  end.

Definition is_long_double (type : ccol_data_type) : bool :=
  match type with ccol_long_double => true | _ => false end.

Definition sc_compare_keys (map : sep_chain_map) (node : llist_node) (key : list Z) (key_size : Z) : M bool :=
  if negb (acc_size (key_pair_accessor node) =? key_size) then mret false else
  acc ← ub (key_pair_accessor node);
  let node_key_ptr := pair_ptr acc in
  if is_long_double (key_type (conf map)) then
    a ← read_ptr map node_key_ptr 16;
    if zlen key <? 16 then undefined else mret (long_double_keys_equal a (ztake 16 key))
  else if key_size =? 4 then
    a ← read_ptr map node_key_ptr 4;
    b ← ub (load 4 key);
    mret (le_unsigned a =? b)
  else if key_size =? 8 then
    a ← read_ptr map node_key_ptr 8;
    b ← ub (load 8 key);
    mret (le_unsigned a =? b)
  else
    a ← read_ptr map node_key_ptr key_size;
    mret (memcmp a key =? 0).

Definition custom_match (map : sep_chain_map) (custom_eq : list Z -> list Z -> bool) (hash : Z) (key : list Z)
    (n : llist_node) : M bool :=
  if hash_val n =? hash then k ← read_pair map (key_pair_accessor n); mret (custom_eq k key) else mret false.

Definition builtin_match (map : sep_chain_map) (hash : Z) (key : list Z) (n : llist_node) : M bool :=
  if hash_val n =? hash then sc_compare_keys map n key (zlen key) else mret false.

(** ** Searching a chain *)
Definition sc_find_in_llist_custom_eq (map : sep_chain_map) (head : option nat) (hash : Z) (key : list Z)
    (custom_eq : list Z -> list Z -> bool) : M (option nat) :=
  loop (S (size (nodes map))) (fun tracker =>
    match tracker with
    | None => mret (inr None)
    | Some a =>
        n ← node_at map a;
        same ← custom_match map custom_eq hash key n;
        mret (if (same : bool) then inr (Some a) else inl (next n))
    end) head.

Definition sc_chain_length (map : sep_chain_map) (head : option nat) : M Z :=
  loop (S (size (nodes map))) (fun '(head, length) =>
    match head with
    | None => mret (inr length)
    | Some a => n ← node_at map a; mret (inl (next n, length ⊕ 1))
    end) (head, 0).

(** The match, and without one the number of nodes met. *)
Definition sc_find_in_llist (map : sep_chain_map) (head : option nat) (hash : Z) (key : list Z)
    : M (option nat * Z) :=
  match custom_key_equality_proc (conf map) with
  | Some custom_eq =>
      found ← sc_find_in_llist_custom_eq map head hash key custom_eq;
      match found with
      | Some a => mret (Some a, 0)
      | None => walk ← sc_chain_length map head; mret (None, walk)
      end
  | None =>
      loop (S (size (nodes map))) (fun '(tracker, met) =>
        match tracker with
        | None => mret (inr (None, met))
        | Some a =>
            n ← node_at map a;
            same ← builtin_match map hash key n;
            mret (if (same : bool) then inr (Some a, 0) else inl (next n, met ⊕ 1))
        end) (head, 0)
  end.

(** ** Replacing a value *)

(** The bytes of a value as they are before the storage of the old one
    changes; [None] when the copy can't be allocated. *)
Definition val_snapshot (map : sep_chain_map) (old : cmap_pair) (val_pair : cmap_pair)
    : M (option (ptr * option nat)) :=
  if ranges_overlap (pair_ptr val_pair) (pair_size val_pair) (pair_ptr old) (pair_size old) then
    if pair_size val_pair <=? INLINE_STORAGE_THRESHOLD + 1 then
      bytes ← read_ptr map (pair_ptr val_pair) (pair_size val_pair);
      mret (Some (Foreign bytes, None))
    else
      heap_snapshot ← _ccol_mem_alloc (pair_size val_pair);
      match heap_snapshot with
      | None => mret None
      | Some b =>
          bytes ← read_ptr map (pair_ptr val_pair) (pair_size val_pair);
          bytes ← memcpy_in (b_bytes b) 0 bytes;
          mret (Some (Foreign bytes, Some (b_id b)))
      end
  else mret (Some (pair_ptr val_pair, None)).

(** [memcpy(old_ptr, val_ptr, val_size)]. *)
Definition overwrite_val (map : sep_chain_map) (a : nat) (old : cmap_pair) (src : ptr) (size : Z) : M sep_chain_map :=
  if ranges_overlap src size (pair_ptr old) (pair_size old) then undefined else
  bytes ← read_ptr map src size;
  n ← node_at map a;
  s ← match val_storage n with
      | inline_data data => data ← memcpy_in data 0 bytes; mret (inline_data data)
      | heap_ptr (Some b) => copy_heap b bytes
      | heap_ptr None => undefined
      end;
  mret (set_node map a (set_val n s (val_pair_accessor n))).

Definition sc_reset_val_of_llist_node (map : sep_chain_map) (a : nat) (val_pair : cmap_pair)
    : M (bool * sep_chain_map) :=
  n ← node_at map a;
  old ← ub (val_pair_accessor n);
  let val_size := pair_size val_pair in
  let old_inline := pair_size old <=? INLINE_STORAGE_THRESHOLD in
  snapshot ← val_snapshot map old val_pair;
  match snapshot with
  | None => mret (false, map)
  | Some (src, heap_snapshot) =>
      '(ok, map) ← (
        if val_size =? pair_size old then
          map ← overwrite_val map a old src val_size; mret (true, map)
        else if val_size <=? INLINE_STORAGE_THRESHOLD then
          _ ← (if negb old_inline then
                 match val_storage n with
                 | heap_ptr (Some b) => _ccol_mem_free (b_id b)
                 | _ => undefined
                 end
               else mret tt);
          bytes ← read_ptr map src val_size;
          s ← copy_inline bytes;
          mret (true, set_node map a (set_val n s (Some (CmapPair (At a val_storage_offset) val_size))))
        else
          b ← (if old_inline then _ccol_mem_alloc val_size
               else match val_storage n with
                    | heap_ptr (Some b) => _ccol_mem_realloc b val_size
                    | _ => undefined
                    end);
          match b with
          | None => mret (false, map)
          | Some b =>
              let map := set_node map a (set_val n (heap_ptr (Some b)) (val_pair_accessor n)) in
              bytes ← read_ptr map src val_size;
              s ← copy_heap b bytes;
              mret (true, set_node map a (set_val n s (Some (CmapPair (At (b_id b) 0) val_size))))
          end);
      _ ← match heap_snapshot with Some b => _ccol_mem_free b | None => mret tt end;
      mret (ok, map)
  end.

(** ** Deleting from a chain *)
Definition sc_unlink_and_destroy (map : sep_chain_map) (head previous : option nat) (a : nat)
    : M (option nat * sep_chain_map) :=
  n ← node_at map a;
  '(head, map) ← match previous with
    | None => mret (next n, map)
    | Some p => map ← update_node map p (fun pn => set_next pn (next n)); mret (head, map)
    end;
  map ← sc_destroy_llist_node map true a;
  mret (head, map).

(** Both loops: the chain's new head, and whether the key was found. *)
Definition delete_matching (map : sep_chain_map) (head : option nat) (matches : llist_node -> M bool)
    : M (option nat * bool * sep_chain_map) :=
  loop (S (size (nodes map))) (fun '(tracker, previous) =>
    match tracker with
    | None => mret (inr (head, false, map))
    | Some a =>
        n ← node_at map a;
        same ← matches n;
        if (same : bool) then
          '(head, map) ← sc_unlink_and_destroy map head previous a;
          mret (inr (head, true, map))
        else mret (inl (next n, Some a))
    end) (head, None).

Definition sc_delete_from_llist_custom_eq (map : sep_chain_map) (head : option nat) (hash : Z) (key : list Z)
    (custom_eq : list Z -> list Z -> bool) : M (option nat * bool * sep_chain_map) :=
  delete_matching map head (custom_match map custom_eq hash key).

Definition sc_delete_from_llist (map : sep_chain_map) (head : option nat) (hash : Z) (key : list Z)
    : M (option nat * bool * sep_chain_map) :=
  match custom_key_equality_proc (conf map) with
  | Some custom_eq => sc_delete_from_llist_custom_eq map head hash key custom_eq
  | None => delete_matching map head (builtin_match map hash key)
  end.

Definition sc_destroy_the_whole_llist (map : sep_chain_map) (head : option nat) : M sep_chain_map :=
  loop (S (size (nodes map))) (fun '(tracker, map) =>
    match tracker with
    | None => mret (inr map)
    | Some a =>
        n ← node_at map a;
        map ← sc_destroy_llist_node map true a;
        mret (inl (next n, map))
    end) (head, map).

(** ** Limits and the insert window *)
Definition sc_set_scaling_limits (map : sep_chain_map) : sep_chain_map :=
  let base_up := bucket_arr_size map ⊕ bucket_arr_size map `div` 2 in
  set_limits map (base_up ⊕ (if bucket_arr_size map `mod` 2 =? 0 then 1 else 2))
    ((bucket_arr_size map ⊕ 1) `div` 8).

Definition sc_window_bound (start_count scale_up bucket_count : Z) : Z :=
  let judged :=
    if (start_count <? scale_up) && (scale_up ⊖ start_count >? CHMAP_WINDOW_INSERTS)
    then start_count ⊕ CHMAP_WINDOW_INSERTS else scale_up in
  let lambda := chmap_load_q16 judged bucket_count in
  let bound := Z.shiftr (1152 ⊗ lambda) 16 ⊕ 128 in
  if bound >? UINT16_MAX then UINT16_MAX else bound.

Definition sc_window_restart (map : sep_chain_map) : sep_chain_map :=
  set_window map
    (match hash_mode map with
     | CHMAP_HASH_KEYED => UINT16_MAX
     | CHMAP_HASH_FAST => sc_window_bound (elem_count map) (elem_count_to_scale_up map) (bucket_arr_size map)
     end) CHMAP_WINDOW_START.

(** [chmap_window_add] on the host of a separate-chaining map. *)
Definition sc_window_add (map : sep_chain_map) (walk : Z) : bool * sep_chain_map :=
  let addend := (CHMAP_WINDOW_STEP + walk `mod` two32) `mod` two32 in
  let sum := insert_window map + addend in
  (two32 <=? sum, set_window map (window_bound map) (sum `mod` two32)).

Definition sc_hash (map : sep_chain_map) (key : list Z) (keyed : bool) : M Z :=
  ub (hash_key_data secret key (zlen key) (key_type (conf map)) (custom_hashing_proc (conf map)) keyed (int_seed secret)).

Definition sc_hash_of_node (map : sep_chain_map) (n : llist_node) (keyed : bool) : M Z :=
  key ← read_pair map (key_pair_accessor n); sc_hash map key keyed.

(** ** Relinking *)

(** [node->next = buckets[index]; buckets[index] = node]. *)
Definition link_front (map : sep_chain_map) (arr : list (option nat)) (index : Z) (a : nat)
    : M (sep_chain_map * list (option nat)) :=
  first ← ub (zget arr index);
  map ← update_node map a (fun n => set_next n first);
  arr ← ub (zset arr index (Some a));
  mret (map, arr).

(** [node->hash_val] becomes [hash], and the node goes to the front of its
    chain in [arr]. *)
Definition rehash_node (map : sep_chain_map) (arr : list (option nat)) (size : Z) (a : nat) (hash : Z)
    : M (sep_chain_map * list (option nat)) :=
  map ← update_node map a (fun n => set_hash n hash);
  link_front map arr (hash_index_for hash size) a.

Definition no_chains (size : Z) : list (option nat) := replicate (Z.to_nat size) None.

Definition sc_switch_to_keyed (map : sep_chain_map) : M sep_chain_map :=
  let map := set_mode map CHMAP_HASH_KEYED in
  let bucket_count := bucket_arr_size map in
  '(map, buckets) ← loop (S (size (nodes map))) (fun '(t, map, buckets) =>
    match t with
    | None => mret (inr (map, buckets))
    | Some a =>
        node ← node_at map a;
        hash ← sc_hash_of_node map node true;
        '(map, buckets) ← rehash_node map buckets bucket_count a hash;
        mret (inl (prev node, map, buckets))
    end) (dl_tail (all_elems map), map, no_chains bucket_count);
  mret (sc_window_restart
    (set_buckets map (BucketArray (array_blk (bucket_arr map)) buckets) bucket_count)).

Definition sc_note_long_chain (map : sep_chain_map) : M sep_chain_map :=
  if negb (sc_keyed map) then sc_switch_to_keyed map else mret map.

Definition sc_window_end (map : sep_chain_map) : M sep_chain_map :=
  let switch_now := negb (sc_keyed map) && (insert_window map >? window_bound map) in
  let map := sc_window_restart map in
  if switch_now then sc_switch_to_keyed map else mret map.

(** The walk over a chain that stops at [SC_CHAIN_CAP - 1] nodes. *)
Definition chain_within_cap (map : sep_chain_map) (first : option nat) : M Z :=
  loop (Z.to_nat SC_CHAIN_CAP) (fun '(c, chain) =>
    match c with
    | None => mret (inr chain)
    | Some a =>
        let chain := chain ⊕ 1 in
        if chain =? SC_CHAIN_CAP - 1 then mret (inr chain) else
        n ← node_at map a;
        mret (inl (next n, chain))
    end) (first, 0).

(** The first half of the attempt: the node it stops at, and the work that
    [CHMAP_NOTE_RETRY] reports. *)
Definition fast_links (map : sep_chain_map) (new_arr : list (option nat)) (new_size : Z)
    : M (option nat * Z * sep_chain_map * list (option nat)) :=
  let budget := elem_count map ⊕ SC_ATTEMPT_SLACK in
  loop (S (size (nodes map))) (fun '(t, walked, work, map, new_arr) =>
    match t with
    | None => mret (inr (None, work, map, new_arr))
    | Some a =>
        node ← node_at map a;
        hash ← sc_hash_of_node map node false;
        map ← update_node map a (fun n => set_hash n hash);
        let index := hash_index_for hash new_size in
        first ← ub (zget new_arr index);
        chain ← chain_within_cap map first;
        let work := work ⊕ (1 ⊕ chain) in
        let walked := walked ⊕ chain in
        if (chain =? SC_CHAIN_CAP - 1) || (walked >? budget) then mret (inr (Some a, work, map, new_arr)) else
        '(map, new_arr) ← link_front map new_arr index a;
        mret (inl (prev node, walked, work, map, new_arr))
    end) (dl_tail (all_elems map), 0, 0, map, new_arr).

(** The second half: the keyed hash again, in the nodes up to [stop]. *)
Definition keyed_links (map : sep_chain_map) (new_size : Z) (stop : nat)
    : M (sep_chain_map * list (option nat)) :=
  loop (S (size (nodes map))) (fun '(t, holds_fast, map, new_arr) =>
    match t with
    | None => mret (inr (map, new_arr))
    | Some a =>
        node ← node_at map a;
        hash ← (if (holds_fast : bool) then sc_hash_of_node map node true else mret (hash_val node));
        let holds_fast := if bool_decide (a = stop) then false else holds_fast in
        '(map, new_arr) ← rehash_node map new_arr new_size a hash;
        mret (inl (prev node, holds_fast, map, new_arr))
    end) (dl_tail (all_elems map), true, map, no_chains new_size).

Definition sc_relink_fast_attempt (map : sep_chain_map) (new_arr : list (option nat)) (new_size : Z)
    : M (bool * sep_chain_map * list (option nat)) :=
  '(stop, _, map, new_arr) ← fast_links map new_arr new_size;
  match stop with
  | None => mret (true, map, new_arr)
  | Some stop =>
      '(map, new_arr) ← keyed_links map new_size stop;
      mret (false, map, new_arr)
  end.

(** One bucket of the old array. *)
Definition relink_chain (map : sep_chain_map) (new_arr : list (option nat)) (new_size : Z)
    (tracker : option nat) (merged : Z) : M (sep_chain_map * list (option nat) * Z) :=
  loop (S (size (nodes map))) (fun '(tracker, map, new_arr, merged) =>
    match tracker with
    | None => mret (inr (map, new_arr, merged))
    | Some a =>
        n ← node_at map a;
        '(map, new_arr) ← link_front map new_arr (hash_index_for (hash_val n) new_size) a;
        mret (inl (next n, map, new_arr, merged ⊕ 1))
    end) (tracker, map, new_arr, merged).

Definition relink_buckets (map : sep_chain_map) (new_arr : list (option nat)) (new_size ratio_mask : Z)
    : M (sep_chain_map * list (option nat) * Z) :=
  let old := heads (bucket_arr map) in
  '(_, map, new_arr, _, longest_merged) ← while (S (Z.to_nat (bucket_arr_size map)))
    (fun '(i, _, _, _, _) => i <? bucket_arr_size map)
    (fun '(i, map, new_arr, merged, longest_merged) =>
       let merged := if Z.land i ratio_mask =? 0 then 0 else merged in
       tracker ← ub (zget old i);
       '(map, new_arr, merged) ← relink_chain map new_arr new_size tracker merged;
       mret (i ⊕ 1, map, new_arr, merged, if merged >? longest_merged then merged else longest_merged))
    (0, map, new_arr, 0, 0);
  mret (map, new_arr, longest_merged).

(** The block of an array of [new_size] NULLs, [Some None] being the array in
    the block of the map. *)
Definition new_bucket_array (map : sep_chain_map) (new_size : Z) : M (option (option nat)) :=
  if new_size =? inline_buckets (conf map) then mret (Some None) else
  b ← _ccol_mem_calloc new_size 8;
  mret ((fun b => Some (b_id b)) <$> b).

Definition free_buckets (arr : bucket_array) : M unit :=
  match array_blk arr with Some b => _ccol_mem_free b | None => mret tt end.

Definition sc_scale (map : sep_chain_map) (up : bool) : M sep_chain_map :=
  if up && (bucket_arr_size map >? _ccol_max_power_of_two_size_t `div` scale_factor) then mret map else
  let new_size := if up then bucket_arr_size map ⊗ scale_factor else bucket_arr_size map `div` scale_factor in
  let new_size :=
    if negb up && (new_size <? minimum_allowed_bucket_array_size)
    then minimum_allowed_bucket_array_size else new_size in
  blk ← new_bucket_array map new_size;
  match blk with
  | None => mret map
  | Some blk =>
      let ratio_mask := if up then 0 else bucket_arr_size map `div` new_size ⊖ 1 in
      '(map, new_arr, longest_merged) ←
        (if up && sc_keyed map then
           '(fast, map, new_arr) ← sc_relink_fast_attempt map (no_chains new_size) new_size;
           mret (if (fast : bool) then set_mode map CHMAP_HASH_FAST else map, new_arr, 0)
         else relink_buckets map (no_chains new_size) new_size ratio_mask);
      _ ← free_buckets (bucket_arr map);
      let map := set_buckets map (BucketArray blk new_arr) new_size in
      let map := sc_window_restart (sc_set_scaling_limits map) in
      if negb up && (longest_merged >=? SC_CHAIN_CAP) && negb (sc_keyed map)
      then sc_switch_to_keyed map else mret map
  end.

(** ** Operations *)
Definition sc_init (size : Z) (c : sc_config) (mode : chmap_hash_mode) (bound win : Z)
    : M (option sep_chain_map) :=
  blk ← (if size =? inline_buckets c then mret (Some None)
         else b ← _ccol_mem_calloc size 8; mret ((fun b => Some (b_id b)) <$> b));
  mret (match blk with
  | None => None
  | Some blk =>
      Some (sc_window_restart (sc_set_scaling_limits
        (SepChainMap 0 size 0 0 (BucketArray blk (no_chains size)) (DllistRoot None None) c mode bound win ∅)))
  end).

(** What follows the insertion of a new pair in [sc_insert_impl]: the answer
    to a long chain, the end of an insert window, and growth. *)
Definition sc_settle (map : sep_chain_map) (walk : Z) : M sep_chain_map :=
  map ← (if walk >=? SC_CHAIN_CAP then sc_note_long_chain map else mret map);
  let '(ended, map) := sc_window_add map walk in
  map ← (if (ended : bool) then sc_window_end map else mret map);
  if elem_count map >=? elem_count_to_scale_up map then sc_scale map true else mret map.

(** [slot_out]: the caller wants the accessors; the result names the node
    whose they are. *)
Definition sc_insert_impl (map : sep_chain_map) (key_pair val_pair : cmap_pair) (slot_out : bool)
    : M (ccol_retval_t * option nat * sep_chain_map) :=
  key ← read_ptr map (pair_ptr key_pair) (pair_size key_pair);
  hash ← sc_hash map key (sc_keyed map);
  let index := hash_index_for hash (bucket_arr_size map) in
  first ← ub (zget (heads (bucket_arr map)) index);
  '(existing, walk) ← sc_find_in_llist map first hash key;
  match existing with
  | Some a =>
      if slot_out then mret (ccol_key_already_present, Some a, map) else
      '(ok, map) ← sc_reset_val_of_llist_node map a val_pair;
      mret (if (ok : bool) then ccol_key_already_present else ccol_not_enough_memory, None, map)
  | None =>
      if elem_count map =? ccol_max_elem_count then mret (ccol_container_full, None, map) else
      '(new_node, map) ← sc_create_llist_node map hash key_pair val_pair;
      match new_node with
      | None => mret (ccol_not_enough_memory, None, map)
      | Some a =>
          '(map, arr) ← link_front map (heads (bucket_arr map)) index a;
          let map := set_buckets map (BucketArray (array_blk (bucket_arr map)) arr) (bucket_arr_size map) in
          let map := set_count map (elem_count map ⊕ 1) in
          map ← sc_settle map walk;
          mret (ccol_success, if slot_out then Some a else None, map)
      end
  end.

Definition sc_insert (map : sep_chain_map) (key_pair val_pair : cmap_pair) : M (ccol_retval_t * sep_chain_map) :=
  '(r, _, map) ← sc_insert_impl map key_pair val_pair false; mret (r, map).

(** The value accessor the node has at the end. *)
Definition sc_insert_or_get (map : sep_chain_map) (key_pair val_pair : cmap_pair)
    : M (ccol_retval_t * option cmap_pair * sep_chain_map) :=
  '(r, slot, map) ← sc_insert_impl map key_pair val_pair true;
  match slot with
  | None => mret (r, None, map)
  | Some a => n ← node_at map a; mret (r, val_pair_accessor n, map)
  end.

(** The node whose accessors [*slot_out] and [*key_slot_out] are. *)
Definition sc_insert_or_get_entry (map : sep_chain_map) (key_pair val_pair : cmap_pair)
    : M (ccol_retval_t * option nat * sep_chain_map) :=
  sc_insert_impl map key_pair val_pair true.

Definition sc_find_accessor (map : sep_chain_map) (key_pair : cmap_pair) : M (ccol_retval_t * option nat) :=
  key ← read_ptr map (pair_ptr key_pair) (pair_size key_pair);
  hash ← sc_hash map key (sc_keyed map);
  first ← ub (zget (heads (bucket_arr map)) (hash_index_for hash (bucket_arr_size map)));
  '(node, _) ← sc_find_in_llist map first hash key;
  mret (match node with Some a => (ccol_success, Some a) | None => (ccol_key_not_found, None) end).

Definition sc_get (map : sep_chain_map) (key_pair : cmap_pair) : M (ccol_retval_t * option cmap_pair) :=
  '(r, node) ← sc_find_accessor map key_pair;
  match node with
  | Some a => n ← node_at map a; mret (ccol_success, val_pair_accessor n)
  | None => mret (ccol_key_not_found, None)
  end.

Definition sc_delete (map : sep_chain_map) (key_pair : cmap_pair) : M (ccol_retval_t * sep_chain_map) :=
  key ← read_ptr map (pair_ptr key_pair) (pair_size key_pair);
  hash ← sc_hash map key (sc_keyed map);
  let index := hash_index_for hash (bucket_arr_size map) in
  let arr := heads (bucket_arr map) in
  first ← ub (zget arr index);
  '(first, found, map) ← sc_delete_from_llist map first hash key;
  arr ← ub (zset arr index first);
  let map := set_buckets map (BucketArray (array_blk (bucket_arr map)) arr) (bucket_arr_size map) in
  if (found : bool) then
    let map := set_count map (elem_count map ⊖ 1) in
    map ← (if (elem_count map <? elem_count_to_scale_down map) &&
              (bucket_arr_size map >? minimum_allowed_bucket_array_size)
           then sc_scale map false else mret map);
    mret (ccol_success, map)
  else mret (ccol_key_not_found, map).

(** *** Walking over the nodes, oldest first

    [ccol_chmap_oldest_entry] and [ccol_chmap_entry_read] on a map of this
    backend: the two accessors of a node, and the next younger one. *)
Definition sc_oldest_entry (map : sep_chain_map) : option nat := dl_tail (all_elems map).
Definition sc_entry_read (map : sep_chain_map) (a : nat) : M (option cmap_pair * option cmap_pair * option nat) :=
  n ← node_at map a; mret (key_pair_accessor n, val_pair_accessor n, prev n).

(** Every chain of the array destroyed in turn. *)
Definition destroy_chains (map : sep_chain_map) : M sep_chain_map :=
  let buckets := heads (bucket_arr map) in
  '(_, map) ← while (S (Z.to_nat (bucket_arr_size map)))
    (fun '(i, _) => i <? bucket_arr_size map)
    (fun '(i, map) =>
       first ← ub (zget buckets i);
       map ← sc_destroy_the_whole_llist map first;
       mret (i ⊕ 1, map)) (0, map);
  mret map.

Definition sc_destroy (map : sep_chain_map) : M unit :=
  map ← destroy_chains map;
  free_buckets (bucket_arr map).

(** What every path of [sc_reset] ends with. *)
Definition sc_cleared (map : sep_chain_map) (blk : option nat) (size : Z) : sep_chain_map :=
  sc_window_restart (sc_set_scaling_limits (set_count (set_buckets map (BucketArray blk (no_chains size)) size) 0)).

Definition sc_reset (map : sep_chain_map) (new_bucket_array_size : Z) : M (ccol_retval_t * sep_chain_map) :=
  map ← destroy_chains map;
  let orig := array_blk (bucket_arr map) in
  if (new_bucket_array_size >? 0) && negb (new_bucket_array_size =? bucket_arr_size map) then
    if new_bucket_array_size >? SIZE_MAX `div` 8
    then mret (ccol_not_enough_memory, sc_cleared map orig (bucket_arr_size map)) else
    blk ← (if new_bucket_array_size =? inline_buckets (conf map) then
             _ ← free_buckets (bucket_arr map); mret (Some None)
           else
             b ← match orig with
                 | None => _ccol_mem_alloc (new_bucket_array_size ⊗ 8)
                 | Some b => _ccol_mem_realloc (Block b []) (new_bucket_array_size ⊗ 8)
                 end;
             mret ((fun b => Some (b_id b)) <$> b));
    match blk with
    | None => mret (ccol_not_enough_memory, sc_cleared map orig (bucket_arr_size map))
    | Some blk => mret (ccol_success, sc_cleared map blk new_bucket_array_size)
    end
  else mret (ccol_success, sc_cleared map orig (bucket_arr_size map)).
End CScMap.
End CScMap.
