(* ===== verification/CScRefine.v ===== *)
(** * The separate-chaining backend refines an ordered map

    The representation of a list of pairs, in the order of their insertion,
    by the nodes and buckets of [CScMap], and the proof that the steps of the
    operations maintain it. *)
From S2P Require Import Prelude Memory Values Common CHash COaMap CLinks CScMap.
Import COaMap(chmap_hash_mode(..), cmap_pair(..), pair_ptr, pair_size, minimum_allowed_bucket_array_size).
Import CScMap.

(** ** The equality of keys *)
Section Keys.
Context (secret : chmap_hash_secret) (c : sc_config).

(** A key of the map's type: a fixed width is checked by the public
    functions. *)
Definition valid_key (key : list Z) : Prop :=
  1 <= zlen key < two64 /\ Forall is_byte key /\
  let w := ccol_fixed_width_data_type_size (key_type c) in w = 0 \/ zlen key = w.

Definition key_eq (a b : list Z) : bool :=
  match custom_key_equality_proc c with
  | Some custom_eq => custom_eq a b
  | None =>
      if zlen a =? zlen b then
        if is_long_double (key_type c) then long_double_keys_equal a b else bool_decide (a = b)
      else false
  end.

(** What the caller's procedures have to be: the equality is one, the hash
    agrees with it and answers in 64 bits; an equality comes with a hash. *)
Record conf_ok : Prop := ConfOk {
  co_equiv : from_option (fun e : list Z -> list Z -> bool =>
      (forall a, valid_key a -> e a a = true) /\
      (forall a b, valid_key a -> valid_key b -> e a b = true -> e b a = true) /\
      (forall a b d, valid_key a -> valid_key b -> valid_key d -> e a b = true -> e b d = true -> e a d = true))
    True (custom_key_equality_proc c);
  co_both : custom_key_equality_proc c <> None -> custom_hashing_proc c <> None;
  co_word : from_option (fun proc => forall key, valid_key key -> is_word (proc key)) True (custom_hashing_proc c);
  co_agrees : from_option (fun proc : list Z -> Z => forall a b, valid_key a -> valid_key b ->
      key_eq a b = true -> proc a = proc b) True (custom_hashing_proc c);
}.

Hypothesis Hsecret : secret_ok secret.
Hypothesis Hc : conf_ok.

Lemma long_double_equal_iff a b : long_double_keys_equal a b = true <-> long_double_value a = long_double_value b.
Proof.
  unfold long_double_keys_equal. destruct (long_double_value a), (long_double_value b); cbn; [|done..].
  rewrite Z.eqb_eq. split; [by intros ->|by intros [= ->]].
Qed.

Lemma key_eq_refl a : valid_key a -> key_eq a a = true.
Proof.
  intros Ha. unfold key_eq. pose proof (co_equiv Hc) as He.
  destruct (custom_key_equality_proc c); [destruct He as (He & _); by apply He|].
  rewrite Z.eqb_refl. destruct (is_long_double _); [by apply long_double_equal_iff|by apply bool_decide_eq_true].
Qed.

Lemma key_eq_sym a b : valid_key a -> valid_key b -> key_eq a b = true -> key_eq b a = true.
Proof.
  intros Ha Hb. unfold key_eq. pose proof (co_equiv Hc) as He.
  destruct (custom_key_equality_proc c); [destruct He as (_ & He & _); by apply He|].
  rewrite Z.eqb_sym. destruct (_ =? _); [|done].
  destruct (is_long_double _); [rewrite !long_double_equal_iff|rewrite !bool_decide_eq_true]; done.
Qed.

Lemma key_eq_trans a b d : valid_key a -> valid_key b -> valid_key d -> key_eq a b = true -> key_eq b d = true -> key_eq a d = true.
Proof.
  intros Ha Hb Hd. unfold key_eq. pose proof (co_equiv Hc) as He.
  destruct (custom_key_equality_proc c); [destruct He as (_ & _ & He); by apply (He a b d)|].
  destruct (Z.eqb_spec (zlen a) (zlen b)) as [->|]; [|done]. destruct (_ =? _); [|done].
  destruct (is_long_double _); [rewrite !long_double_equal_iff|rewrite !bool_decide_eq_true]; congruence.
Qed.

(** The hash of a key. *)
Definition key_hash (keyed : bool) (key : list Z) : Z :=
  default 0 (hash_key_data secret key (zlen key) (key_type c) (custom_hashing_proc c) keyed (int_seed secret)).

Lemma sc_hash_key key keyed : valid_key key ->
  hash_key_data secret key (zlen key) (key_type c) (custom_hashing_proc c) keyed (int_seed secret) =
    Some (key_hash keyed key) /\ is_word (key_hash keyed key).
Proof.
  intros Hk. pose proof Hk as (Hl & Hb & Hw).
  destruct (hash_key_some secret key (zlen key) (key_type c) (custom_hashing_proc c) keyed) as (h & Eh & Hh);
    [done|done|lia| |done|].
  { rewrite ztake_all by done. pose proof (co_word Hc) as Hp. destruct (custom_hashing_proc c); [|done]. cbn in *. by apply Hp. }
  unfold key_hash. by rewrite Eh.
Qed.

(** Equal keys hash alike. *)
Lemma key_eq_hash a b keyed : valid_key a -> valid_key b -> key_eq a b = true -> key_hash keyed a = key_hash keyed b.
Proof.
  intros Ha Hb E. unfold key_hash, hash_key_data. pose proof (co_agrees Hc) as Hag.
  destruct (custom_hashing_proc c) as [proc|] eqn:Ep; cbn in Hag.
  { rewrite !ztake_all by done. by rewrite !Z.ltb_irrefl, (Hag a b). }
  pose proof (co_both Hc) as Hboth. unfold key_eq in E. destruct (custom_key_equality_proc c); [by destruct Hboth|].
  destruct (Z.eqb_spec (zlen a) (zlen b)) as [El|]; [|done]. destruct (is_long_double (key_type c)) eqn:Et.
  - destruct Ha as (_ & _ & Ha), Hb as (_ & _ & Hb). destruct (key_type c); try done. cbn in Ha, Hb.
    assert (zlen a = 16) as Ea by (destruct Ha; [lia|done]). rewrite <- El, Ea. cbn [Z.leb Z.compare Pos.compare Pos.compare_cont].
    rewrite !ztake_all by lia. apply long_double_equal_iff in E. by rewrite E.
  - apply bool_decide_eq_true in E. by rewrite E.
Qed.

(** *** The built-in comparison *)
Lemma le_unsigned_inj a b : Forall is_byte a -> Forall is_byte b -> zlen a = zlen b -> le_unsigned a = le_unsigned b -> a = b.
Proof.
  intros Ha. revert b. induction Ha as [|x a Hx Ha IH]; intros b Hb El E.
  - symmetry. apply zlen_0_nil. zlia.
  - destruct Hb as [|y b Hy Hb]; [zlia|]. cbn [le_unsigned] in E. unfold is_byte in *.
    assert (x = y /\ le_unsigned a = le_unsigned b) as [-> E'].
    { apply (f_equal (fun z => (z `div` 256, z `mod` 256))) in E. injection E as E1 E2.
      rewrite !(Z.mul_comm 256), !Z.div_add, !(Z.div_small _ 256) in E1 by lia.
      rewrite !(Z.mul_comm 256), !Z.mod_add, !Z.mod_small in E2 by lia. by split. }
    f_equal. apply IH; [done|zlia|done].
Qed.

Lemma memcmp_eq a b : zlen a = zlen b -> memcmp a b = 0 <-> a = b.
Proof.
  revert b. induction a as [|x a IH]; intros [|y b] El; cbn; [done|zlia|zlia|].
  destruct (Z.eqb_spec x y) as [->|Hne].
  - rewrite IH by zlia. split; [by intros ->|by intros [= ->]].
  - split; [lia|by intros [= -> _]].
Qed.

Lemma load_all w key : w = zlen key -> load w key = Some (le_unsigned key).
Proof. intros ->. unfold load. rewrite Z.leb_refl. by rewrite ztake_all. Qed.
End Keys.

(** ** Nodes *)
Definition bytes_of (s : storage) : list Z :=
  match s with inline_data bytes => bytes | heap_ptr (Some b) => b_bytes b | heap_ptr None => [] end.
Definition node_key (n : llist_node) : list Z := bytes_of (key_storage n).
Definition node_val (n : llist_node) : list Z := bytes_of (val_storage n).
Definition pair_of (n : llist_node) : list Z * list Z := (node_key n, node_val n).

(** The buffers of a node on the heap. *)
Definition buffer (s : storage) : list nat :=
  match s with heap_ptr (Some b) => [b_id b] | _ => [] end.
Definition buffers (n : llist_node) : list nat := buffer (key_storage n) ++ buffer (val_storage n).
Definition blocks_of (a : nat) (n : llist_node) : list nat := a :: buffers n.

(** A key or a value is inline exactly when it has at most 23 bytes, and its
    accessor points at it. *)
Definition storage_ok (a : nat) (offset : Z) (s : storage) (acc : option cmap_pair) : Prop :=
  1 <= zlen (bytes_of s) < two64 /\
  match s with
  | inline_data bytes => zlen bytes <= INLINE_STORAGE_THRESHOLD /\ acc = Some (CmapPair (At a offset) (zlen bytes))
  | heap_ptr (Some b) => INLINE_STORAGE_THRESHOLD < zlen (b_bytes b) /\ acc = Some (CmapPair (At (b_id b) 0) (zlen (b_bytes b)))
  | heap_ptr None => False
  end.

Record node_ok (c : sc_config) (a : nat) (n : llist_node) : Prop := NodeOk {
  no_key : storage_ok a key_storage_offset (key_storage n) (key_pair_accessor n);
  no_val : storage_ok a val_storage_offset (val_storage n) (val_pair_accessor n);
  no_valid : valid_key c (node_key n);
  no_nodup : NoDup (blocks_of a n);
}.

(** Every block is of one node. *)
Definition apart (ns : gmap nat llist_node) : Prop := forall a n a' n' b,
  ns !! a = Some n -> ns !! a' = Some n' -> b ∈ blocks_of a n -> b ∈ blocks_of a' n' -> a = a'.

Definition owned (ns : gmap nat llist_node) : gset nat :=
  list_to_set (concat ((fun '(a, n) => blocks_of a n) <$> map_to_list ns)).

Lemma elem_owned ns b : b ∈ owned ns <-> exists a n, ns !! a = Some n /\ b ∈ blocks_of a n.
Proof.
  unfold owned. rewrite elem_of_list_to_set. setoid_rewrite list_elem_of_In. rewrite in_concat. split.
  - intros (l & Hl & Hb). apply list_elem_of_In, list_elem_of_fmap in Hl as ([a n] & -> & Hin).
    apply elem_of_map_to_list in Hin. exists a, n. by split; [|].
  - intros (a & n & Hn & Hb). exists (blocks_of a n). split; [|done].
    apply list_elem_of_In, list_elem_of_fmap. exists (a, n). split; [done|]. by apply elem_of_map_to_list.
Qed.

Lemma owned_node ns a n : ns !! a = Some n -> a ∈ owned ns.
Proof. intros H. apply elem_owned. exists a, n. split; [done|]. unfold blocks_of. set_solver. Qed.

Lemma owned_insert ns a n : owned (<[a := n]> ns) = list_to_set (blocks_of a n) ∪ owned (delete a ns).
Proof.
  apply set_eq. intros b. rewrite elem_of_union, elem_of_list_to_set, !elem_owned. split.
  - intros (a' & n' & Hl & Hb). apply lookup_insert_Some in Hl as [[-> ->]|[Hne Hl]]; [by left|].
    right. exists a', n'. by rewrite lookup_delete_ne.
  - intros [Hb|(a' & n' & Hl & Hb)]; [exists a, n; by rewrite lookup_insert_eq|].
    apply lookup_delete_Some in Hl as [Hne Hl]. exists a', n'. by rewrite lookup_insert_ne.
Qed.

Lemma owned_delete ns a n : apart ns -> ns !! a = Some n -> owned (delete a ns) = owned ns ∖ list_to_set (blocks_of a n).
Proof.
  intros Hap Hn. apply set_eq. intros b. rewrite elem_of_difference, elem_of_list_to_set, !elem_owned. split.
  - intros (a' & n' & Hl & Hb). apply lookup_delete_Some in Hl as [Hne Hl]. split; [by exists a', n'|].
    intros Hb'. apply Hne. by eapply Hap.
  - intros [(a' & n' & Hl & Hb) Hnb]. exists a', n'. split; [|done]. apply lookup_delete_Some. split; [|done].
    intros ->. rewrite Hn in Hl. by injection Hl as <-.
Qed.

Lemma owned_split ns a n : apart ns -> ns !! a = Some n -> owned ns = list_to_set (blocks_of a n) ∪ owned (delete a ns).
Proof. intros Hap Hn. rewrite <- owned_insert. by rewrite insert_id. Qed.

Lemma apart_delete ns a : apart ns -> apart (delete a ns).
Proof. intros H x n y n' b [_ Hx]%lookup_delete_Some [_ Hy]%lookup_delete_Some. by apply H. Qed.

Lemma apart_insert ns a n : apart ns -> (forall b, b ∈ blocks_of a n -> b ∉ owned (delete a ns)) -> apart (<[a := n]> ns).
Proof.
  intros H Hb x nx y ny b Hx Hy Hbx Hby.
  apply lookup_insert_Some in Hx as [[<- <-]|[Hax Hx]], Hy as [[<- <-]|[Hay Hy]]; [done| | |by eapply H].
  - destruct (Hb b Hbx). apply elem_owned. exists y, ny. by rewrite lookup_delete_ne.
  - destruct (Hb b Hby). apply elem_owned. exists x, nx. by rewrite lookup_delete_ne.
Qed.

(** Nodes that only differ in their links have the same blocks. *)
Lemma apart_blocks ns ns' : (fun n => (key_storage n, val_storage n)) <$> ns' = (fun n => (key_storage n, val_storage n)) <$> ns ->
  (apart ns -> apart ns') /\ owned ns' = owned ns.
Proof.
  intros E.
  assert (forall a n', ns' !! a = Some n' -> exists n, ns !! a = Some n /\ blocks_of a n' = blocks_of a n) as H1.
  { intros a n' Hn. apply (f_equal (fun m => m !! a)) in E. rewrite !lookup_fmap, Hn in E. cbn in E.
    destruct (ns !! a) as [n|]; [|done]. injection E as Ek Ev. exists n. split; [done|]. unfold blocks_of, buffers. congruence. }
  assert (forall a n, ns !! a = Some n -> exists n', ns' !! a = Some n' /\ blocks_of a n' = blocks_of a n) as H2.
  { intros a n Hn. apply (f_equal (fun m => m !! a)) in E. rewrite !lookup_fmap, Hn in E. cbn in E.
    destruct (ns' !! a) as [n'|]; [|done]. injection E as Ek Ev. exists n'. split; [done|]. unfold blocks_of, buffers. congruence. }
  split.
  - intros Hap x n y n' b Hx Hy Hbx Hby. destruct (H1 _ _ Hx) as (m & Hm & Em), (H1 _ _ Hy) as (m' & Hm' & Em').
    rewrite Em in Hbx. rewrite Em' in Hby. by eapply Hap.
  - apply set_eq. intros b. rewrite !elem_owned. split; intros (a & n & Hn & Hb).
    + destruct (H1 _ _ Hn) as (m & Hm & Em). exists a, m. by rewrite <- Em.
    + destruct (H2 _ _ Hn) as (m & Hm & Em). exists a, m. by rewrite Em.
Qed.

(** ** Reading through pointers *)
Section Reading.
Context {alloc : Allocator}.
Implicit Types (map : sep_chain_map) (m : mem) (p : ptr).

Lemma storage_bytes_owner a start s b off len bs : storage_bytes a start s b off len = Some bs -> b = a \/ b ∈ buffer s.
Proof.
  unfold storage_bytes, buffer. destruct s as [d|[d|]]; [| |done]; case_bool_decide; [by left|done| |done].
  right. set_solver.
Qed.

Lemma node_bytes_owner a n b off len bs : node_bytes a n b off len = Some bs -> b ∈ blocks_of a n.
Proof.
  unfold node_bytes, blocks_of, buffers. destruct (storage_bytes _ _ _ _ _ _) eqn:E.
  - intros _. apply storage_bytes_owner in E as [->|?]; set_solver.
  - intros H%storage_bytes_owner. destruct H as [->|?]; set_solver.
Qed.

Lemma first_some_elem {A B} (f : A -> option B) l y : first_some f l = Some y -> exists x, x ∈ l /\ f x = Some y.
Proof.
  induction l as [|x l IH]; cbn; [done|]. destruct (f x) eqn:E.
  - intros [= ->]. exists x. split; [set_solver|done].
  - intros (z & Hz & Ez)%IH. exists z. split; [set_solver|done].
Qed.

Lemma first_some_only {A B} (f : A -> option B) l x y : x ∈ l -> f x = Some y ->
  (forall z w, z ∈ l -> f z = Some w -> z = x) -> first_some f l = Some y.
Proof.
  intros Hin Hx Hu. induction l as [|z l IH]; [set_solver|]. cbn. destruct (f z) as [w|] eqn:E.
  - rewrite (Hu z w ltac:(set_solver) E) in E. congruence.
  - apply elem_of_cons in Hin as [->|Hin]; [congruence|]. apply IH; [done|]. intros. eapply Hu; [set_solver|done].
Qed.

(** The answer is that of the one node whose block it is. *)
Lemma resolve_At map b off len bs : apart (nodes map) ->
  resolve map (At b off) len = Some bs <-> exists a n, nodes map !! a = Some n /\ node_bytes a n b off len = Some bs.
Proof.
  intros Hap. cbn [resolve]. split.
  - intros ([a n] & Hin & E)%first_some_elem. apply elem_of_map_to_list in Hin. by exists a, n.
  - intros (a & n & Hn & E). apply (first_some_only _ _ (a, n)); [by apply elem_of_map_to_list|done|].
    intros [a' n'] w Hin E'. apply elem_of_map_to_list in Hin. apply node_bytes_owner in E, E'.
    assert (a' = a) as -> by by eapply Hap. congruence.
Qed.

Lemma sc_resolve_len map p len bs : resolve map p len = Some bs -> zlen bs = len /\ 0 <= len.
Proof.
  destruct p as [l|b off]; cbn.
  - destruct (_ && _) eqn:E; [|done]. intros [= <-]. zbool. zlen_facts. split; [zlia|done].
  - intros ([a n] & _ & E)%first_some_elem.
    assert (forall start s, storage_bytes a start s b off len = Some bs -> zlen bs = len /\ 0 <= len) as Hs.
    { intros start [d|[d|]]; cbn; [| |done]; case_bool_decide; try done; apply within_len. }
    unfold node_bytes in E. destruct (storage_bytes _ _ _ _ _ _) eqn:E'; [injection E as ->|]; by eapply Hs.
Qed.

(** What a pointer reads survives a change of the nodes that keeps it. *)
Lemma resolve_keep map map' p len bs : apart (nodes map) -> apart (nodes map') ->
  (forall a n b off, nodes map !! a = Some n -> p = At b off -> node_bytes a n b off len = Some bs ->
     exists n', nodes map' !! a = Some n' /\ node_bytes a n' b off len = Some bs) ->
  resolve map p len = Some bs -> resolve map' p len = Some bs.
Proof.
  intros Hap Hap' Hk. destruct p as [l|b off]; [done|]. rewrite !resolve_At by done.
  intros (a & n & Hn & E). destruct (Hk a n b off Hn eq_refl E) as (n' & Hn' & E'). by exists a, n'.
Qed.

Lemma wp_sc_read_ptr map p len bs m X F (Q : list Z -> mem -> Prop) : apart (nodes map) ->
  owns m (owned (nodes map) ∪ X) F -> resolve map p len = Some bs -> Q bs m -> wp (read_ptr map p len) m Q.
Proof.
  intros Hap Ho Hr HQ. unfold read_ptr. apply wp_bind. destruct p as [l|b off]; [by apply wp_ret; eapply wp_ub|].
  apply wp_touch; [|by eapply wp_ub]. pose proof Hr as (a & n & Hn & E)%resolve_At; [|done].
  rewrite (owns_live _ _ _ Ho). apply node_bytes_owner in E. apply elem_of_union. left. apply elem_of_union. left.
  apply elem_owned. by exists a, n.
Qed.

Lemma storage_bytes_all a offset s acc : storage_ok a offset s acc -> exists b off,
  acc = Some (CmapPair (At b off) (zlen (bytes_of s))) /\
  storage_bytes a offset s b off (zlen (bytes_of s)) = Some (bytes_of s) /\ (b = a /\ off = offset \/ b ∈ buffer s).
Proof.
  intros [Hl Hs]. destruct s as [d|[d|]]; cbn in *; [| |done]; destruct Hs as [_ ->]; do 2 eexists; (split; [done|]);
    rewrite bool_decide_true by done; rewrite within_all by done; split; [done|by left|done|right; set_solver].
Qed.

(** A shorter read at the same place. *)
Lemma storage_bytes_prefix a start s b off len k bs : storage_bytes a start s b off len = Some bs -> 0 <= k <= len ->
  storage_bytes a start s b off k = Some (ztake k bs).
Proof.
  unfold storage_bytes. intros H Hk. destruct s as [d|[d|]]; [| |done]; (case_bool_decide; [|done]); by apply (within_less _ _ _ len).
Qed.

Lemma storage_bytes_some a start s b off len bs : storage_bytes a start s b off len = Some bs ->
  match s with
  | inline_data d => b = a /\ within start d off len = Some bs
  | heap_ptr (Some d) => b = b_id d /\ within 0 (b_bytes d) off len = Some bs
  | heap_ptr None => False
  end.
Proof. unfold storage_bytes. destruct s as [d|[d|]]; [| |done]; by case_bool_decide. Qed.

(** The bytes of the two unions of a node have no address in common. *)
Lemma node_bytes_val c a n b off len k bs : node_ok c a n -> 0 <= len ->
  storage_bytes a val_storage_offset (val_storage n) b off len = Some bs -> 0 <= k ->
  storage_bytes a key_storage_offset (key_storage n) b off k = None.
Proof.
  intros [[_ Hk] [_ Hv] _ Hd] Hlen. unfold blocks_of, buffers, buffer in *. intros Hs Hk0. apply storage_bytes_some in Hs. unfold storage_bytes.
  destruct (key_storage n) as [dk|[dk|]], (val_storage n) as [dv|[dv|]]; cbn in *; try done; destruct Hs as [-> Hs]; case_bool_decide as E; try done.
  - apply within_range in Hs. destruct Hk as [Hk _]. apply within_none. right. unfold INLINE_STORAGE_THRESHOLD, key_storage_offset, val_storage_offset in *. lia.
  - apply NoDup_cons in Hd as [Hd _]. set_solver.
  - apply NoDup_cons in Hd as [Hd _]. set_solver.
  - apply NoDup_cons in Hd as [_ Hd]. apply NoDup_cons in Hd as [Hd _]. set_solver.
Qed.

Lemma node_bytes_prefix c a n b off len k bs : node_ok c a n -> node_bytes a n b off len = Some bs -> 0 <= k <= len ->
  node_bytes a n b off k = Some (ztake k bs).
Proof.
  intros Hok H Hk. unfold node_bytes in *. destruct (storage_bytes a key_storage_offset _ _ _ len) as [bs'|] eqn:E.
  - injection H as ->. by rewrite (storage_bytes_prefix _ _ _ _ _ _ k _ E Hk).
  - rewrite (node_bytes_val c a n b off len k bs) by (done || lia). by apply (storage_bytes_prefix _ _ _ _ _ len).
Qed.

Lemma resolve_prefix c map p len k bs : apart (nodes map) -> map_Forall (node_ok c) (nodes map) -> resolve map p len = Some bs ->
  0 <= k <= len -> resolve map p k = Some (ztake k bs).
Proof.
  intros Hap Hok H Hk. destruct p as [l|b off].
  - cbn in *. destruct (_ && _) eqn:E; [|done]. injection H as <-. zbool. rewrite ztake_ztake by lia. rewrite Z.min_l by lia.
    zcase; [|lia]. zcase; [done|lia].
  - rewrite !resolve_At in * by done. destruct H as (a & n & Hn & E). exists a, n. split; [done|]. by eapply node_bytes_prefix; [eapply Hok|..].
Qed.

(** The accessors of a node read its key and its value. *)
Lemma key_accessor c map a n : apart (nodes map) -> nodes map !! a = Some n -> node_ok c a n ->
  exists p, key_pair_accessor n = Some (CmapPair p (zlen (node_key n))) /\
    resolve map p (zlen (node_key n)) = Some (node_key n).
Proof.
  intros Hap Hn [Hk _ _ _]. destruct (storage_bytes_all _ _ _ _ Hk) as (b & off & Ea & Eb & _). exists (At b off).
  split; [done|]. apply resolve_At; [done|]. exists a, n. split; [done|].
  unfold node_bytes, node_key. by rewrite Eb.
Qed.

Lemma key_apart_val c a n off len : node_ok c a n -> 1 <= len ->
  storage_bytes a key_storage_offset (key_storage n) a (val_storage_offset + off) len = None \/ off < 0.
Proof.
  intros [[_ Hk] _ _ Hd] Hlen. destruct (Z.lt_ge_cases off 0) as [|Hoff]; [by right|]. left.
  unfold storage_bytes, blocks_of, buffers in *. destruct (key_storage n) as [d|[d|]]; [| |done].
  - rewrite bool_decide_true by done. destruct Hk as [Hk _]. apply within_beyond.
    unfold key_storage_offset, val_storage_offset, INLINE_STORAGE_THRESHOLD in *. lia.
  - rewrite bool_decide_false; [done|]. intros ->. cbn in Hd.
    apply NoDup_cons in Hd as [Hd _]. set_solver.
Qed.

Lemma val_accessor c map a n : apart (nodes map) -> nodes map !! a = Some n -> node_ok c a n ->
  exists p, val_pair_accessor n = Some (CmapPair p (zlen (node_val n))) /\
    resolve map p (zlen (node_val n)) = Some (node_val n).
Proof.
  intros Hap Hn Hok. pose proof Hok as [_ Hv _ Hd]. destruct (storage_bytes_all _ _ _ _ Hv) as (b & off & Ea & Eb & Hb).
  exists (At b off). split; [done|]. apply resolve_At; [done|]. exists a, n. split; [done|]. unfold node_bytes.
  assert (storage_bytes a key_storage_offset (key_storage n) b off (zlen (node_val n)) = None) as ->; [|done].
  destruct Hv as [Hl _]. destruct Hb as [[-> ->]|Hb].
  - rewrite <- (Z.add_0_r val_storage_offset). destruct (key_apart_val c a n 0 (zlen (node_val n)) Hok); [|done|lia].
    unfold node_val. lia.
  - destruct (storage_bytes a key_storage_offset _ _ _ _) eqn:E; [|done]. apply storage_bytes_owner in E.
    unfold blocks_of, buffers in Hd. apply NoDup_cons in Hd as [Ha Hd]. apply NoDup_app in Hd as (_ & Hd & _).
    destruct E as [->|E]; [set_solver|]. destruct (Hd b E Hb).
Qed.

Lemma wp_read_key c map a n m X F (Q : list Z -> mem -> Prop) : apart (nodes map) -> nodes map !! a = Some n ->
  node_ok c a n -> owns m (owned (nodes map) ∪ X) F -> Q (node_key n) m -> wp (read_pair map (key_pair_accessor n)) m Q.
Proof.
  intros Hap Hn Hok Ho HQ. destruct (key_accessor c map a n Hap Hn Hok) as (p & -> & Hr). unfold read_pair. cbn.
  by eapply wp_sc_read_ptr.
Qed.

(** *** Comparing the key of a node *)
Lemma wp_builtin_match c map a n hash key m X F (Q : bool -> mem -> Prop) : conf map = c ->
  custom_key_equality_proc c = None -> apart (nodes map) ->
  nodes map !! a = Some n -> node_ok c a n -> valid_key c key -> owns m (owned (nodes map) ∪ X) F ->
  Q ((hash_val n =? hash) && key_eq c (node_key n) key) m -> wp (builtin_match map hash key n) m Q.
Proof.
  intros Ec Enone Hap Hn Hok Hv Ho HQ. unfold builtin_match, key_eq in *. rewrite Enone in HQ.
  destruct (_ =? hash); [|by apply wp_ret]. cbn [andb] in HQ.
  destruct (key_accessor c map a n Hap Hn Hok) as (p & Ea & Hr). unfold sc_compare_keys. rewrite Ea, Ec.
  cbn [acc_size from_option pair_size pair_ptr ub mbind M_bind mret M_ret].
  destruct (Z.eqb_spec (zlen (node_key n)) (zlen key)) as [El|Hne]; [|by apply wp_ret]. cbn [negb].
  pose proof (no_valid _ _ _ Hok) as (_ & Hnb & Hnw). destruct Hv as (_ & Hb & Hw).
  apply wp_bind, wp_ret. cbn [pair_ptr].
  destruct (is_long_double _) eqn:Et.
  - assert (zlen key = 16) as E16 by (destruct (key_type c); try done; destruct Hw; done).
    rewrite El, E16 in Hr. apply wp_bind. eapply wp_sc_read_ptr; [done..|].
    rewrite E16. cbn [Z.ltb Z.compare Pos.compare Pos.compare_cont]. apply wp_ret. by rewrite ztake_all by lia.
  - assert (forall l1 l2 : list Z, Forall is_byte l1 -> Forall is_byte l2 -> zlen l1 = zlen l2 ->
      (le_unsigned l1 =? le_unsigned l2) = bool_decide (l1 = l2)) as Hle.
    { intros l1 l2 H1 H2 H12. apply Bool.eq_iff_eq_true. rewrite Z.eqb_eq, bool_decide_eq_true.
      split; [by apply le_unsigned_inj|by intros ->]. }
    rewrite <- El in *. destruct (Z.eqb_spec (zlen (node_key n)) 4) as [E4|_]; [|destruct (Z.eqb_spec (zlen (node_key n)) 8) as [E8|_]].
    + rewrite E4 in Hr. apply wp_bind. eapply wp_sc_read_ptr; [done..|]. rewrite (load_all 4 key) by lia. apply wp_ret. by rewrite Hle.
    + rewrite E8 in Hr. apply wp_bind. eapply wp_sc_read_ptr; [done..|]. rewrite (load_all 8 key) by lia. apply wp_ret. by rewrite Hle.
    + apply wp_bind. eapply wp_sc_read_ptr; [done..|]. apply wp_ret.
      replace (memcmp (node_key n) key =? 0) with (bool_decide (node_key n = key)); [done|].
      apply Bool.eq_iff_eq_true. by rewrite Z.eqb_eq, bool_decide_eq_true, memcmp_eq.
Qed.

Lemma wp_custom_match c map a n custom_eq hash key m X F (Q : bool -> mem -> Prop) :
  custom_key_equality_proc c = Some custom_eq -> apart (nodes map) ->
  nodes map !! a = Some n -> node_ok c a n -> owns m (owned (nodes map) ∪ X) F ->
  Q ((hash_val n =? hash) && key_eq c (node_key n) key) m -> wp (custom_match map custom_eq hash key n) m Q.
Proof.
  intros Ee Hap Hn Hok Ho HQ. unfold custom_match, key_eq in *. rewrite Ee in HQ.
  destruct (_ =? hash); [|by apply wp_ret]. apply wp_bind. by eapply wp_read_key.
Qed.
End Reading.

(** ** Views of the nodes

    What only depends on one field of every node is stated on that field, so
    it survives every change of the others. *)
Definition nexts (map : sep_chain_map) : gmap nat (option nat) := next <$> nodes map.
Definition refs (map : sep_chain_map) : gmap nat (option nat * option nat) := (fun n => (prev n, next_ref n)) <$> nodes map.

(** A node without its links in the list of all nodes, and without those of
    its chain and its hash. *)
Definition no_refs (n : llist_node) : llist_node := set_refs n None None.
Definition no_links (n : llist_node) : llist_node := set_next (set_hash n 0) None.

Lemma fmap_through {A} (f : llist_node -> llist_node) (g : llist_node -> A) (ns ns' : gmap nat llist_node) :
  (forall n, g (f n) = g n) -> f <$> ns' = f <$> ns -> g <$> ns' = g <$> ns.
Proof.
  intros Hg E. apply map_eq. intros a. apply (f_equal (fun m => m !! a)) in E. rewrite !lookup_fmap in *.
  destruct (ns' !! a), (ns !! a); cbn in *; try done. injection E as E. by rewrite <- Hg, E, Hg.
Qed.

Lemma fmap_upd {A} (g : llist_node -> A) (ns : gmap nat llist_node) a n n' :
  ns !! a = Some n -> g n' = g n -> g <$> <[a := n']> ns = g <$> ns.
Proof. intros Hn E. rewrite fmap_insert, E, <- fmap_insert. by rewrite insert_id. Qed.

Lemma fmap_lookup_same {A} (g : llist_node -> A) (ns ns' : gmap nat llist_node) a n :
  g <$> ns' = g <$> ns -> ns !! a = Some n -> exists n', ns' !! a = Some n' /\ g n' = g n.
Proof.
  intros E Hn. apply (f_equal (fun m => m !! a)) in E. rewrite !lookup_fmap, Hn in E.
  destruct (ns' !! a) as [n'|]; [|done]. injection E as E. by exists n'.
Qed.

Lemma chain_node (ns : gmap nat llist_node) x xs : chain (next <$> ns) (x :: xs) ->
  exists n, ns !! x = Some n /\ next n = head xs /\ chain (next <$> ns) xs.
Proof.
  intros [Hx Hxs]%chain_cons. rewrite lookup_fmap in Hx. destruct (ns !! x) as [n|]; [|done].
  injection Hx as Hx. by exists n.
Qed.

(** The nodes [es], the newest first, are those of the list. *)
Definition listed (map : sep_chain_map) (es : list nat) : Prop :=
  dlist (refs map) es /\ all_elems map = DllistRoot (head es) (last es).

Lemma listed_node map e1 a e2 : listed map (e1 ++ a :: e2) ->
  exists n, nodes map !! a = Some n /\ prev n = last e1 /\ next_ref n = head e2.
Proof.
  intros [Hl _]. pose proof (Hl e1 a e2 eq_refl) as H. unfold refs in H. rewrite lookup_fmap in H.
  destruct (nodes map !! a) as [n|]; [|done]. injection H as H1 H2. by exists n.
Qed.

(** The map but for its nodes and the ends of their list. *)
Definition same_frame (map map' : sep_chain_map) : Prop := map' = set_root (set_nodes map (nodes map')) (all_elems map').

Lemma same_frame_refl map : same_frame map map.
Proof. by destruct map. Qed.
Lemma same_frame_trans map1 map2 map3 : same_frame map1 map2 -> same_frame map2 map3 -> same_frame map1 map3.
Proof. unfold same_frame. intros H1 H2. rewrite H2. cbn. rewrite H1. done. Qed.

Section Nodes.
Context {alloc : Allocator}.
Implicit Types (map : sep_chain_map) (m : mem) (p : ptr) (es xs : list nat) (Q : sep_chain_map -> mem -> Prop).

Lemma wp_node_at map a n m (Q : llist_node -> mem -> Prop) : nodes map !! a = Some n -> Q n m -> wp (node_at map a) m Q.
Proof. intros Hn HQ. unfold node_at. by rewrite Hn. Qed.

Lemma wp_update_node map a n f m Q : nodes map !! a = Some n -> Q (set_node map a (f n)) m -> wp (update_node map a f) m Q.
Proof. intros Hn HQ. unfold update_node. apply wp_bind, (wp_node_at _ _ n); [done|]. by apply wp_ret. Qed.

(** *** The list of all nodes *)
Lemma wp_attach map es a n m Q : listed map es -> NoDup (a :: es) -> nodes map !! a = Some n ->
  (forall map', same_frame map map' -> no_refs <$> nodes map' = no_refs <$> nodes map -> listed map' (a :: es) -> Q map' m) ->
  wp (attach_node_to_dllist map a) m Q.
Proof.
  intros Hl Hd Hn HQ. pose proof Hl as [Hdl Hroot]. unfold attach_node_to_dllist.
  apply wp_bind, (wp_update_node _ _ n); [done|]. cbn [all_elems set_node set_nodes]. rewrite Hroot. cbn [dl_head dl_tail].
  set (n1 := set_refs n None (next_ref n)).
  pose proof (dlist_push (refs map) a es Hd Hdl) as Hp. pose proof Hd as [Ha Hd']%NoDup_cons.
  destruct es as [|h es]; cbn [head hd_error List.tail from_option] in *.
  - apply wp_bind, (wp_update_node _ _ n1); [by cbn; rewrite lookup_insert_eq|]. apply wp_ret.
    apply HQ; [done| |].
    + cbn. rewrite insert_insert_eq. by apply (fmap_upd _ _ _ n).
    + split; [|done]. unfold refs. cbn. rewrite insert_insert_eq, fmap_insert. cbn. done.
  - assert (h <> a) as Hne by set_solver.
    destruct (listed_node map [] h es Hl) as (nh & Hh & _ & Ehn).
    apply wp_bind, (wp_update_node _ _ n1); [by cbn; rewrite lookup_insert_eq|].
    apply wp_bind, (wp_update_node _ _ nh); [cbn; by rewrite !lookup_insert_ne by done|]. apply wp_ret.
    apply HQ; [done| |].
    + cbn. rewrite insert_insert_eq. rewrite (fmap_upd _ _ _ nh); [by apply (fmap_upd _ _ _ n)|by rewrite lookup_insert_ne|done].
    + split; [|cbn; by rewrite Hroot]. unfold refs. cbn. rewrite insert_insert_eq, !fmap_insert. cbn. by rewrite Ehn.
Qed.

Lemma wp_detach map e1 a e2 m Q : listed map (e1 ++ a :: e2) -> NoDup (e1 ++ a :: e2) ->
  (forall map', same_frame map map' -> no_refs <$> nodes map' = no_refs <$> nodes map -> listed map' (e1 ++ e2) -> Q map' m) ->
  wp (detach_node_from_dllist map a) m Q.
Proof.
  intros Hl Hd HQ. pose proof Hl as [Hdl Hroot].
  destruct (listed_node map e1 a e2 Hl) as (n & Hn & Ep & Ex). unfold detach_node_from_dllist.
  apply wp_bind, (wp_node_at _ _ n); [done|]. rewrite Ep, Ex. apply wp_bind.
  pose proof (NoDup_middle _ _ _ Hd) as (Ha1 & Ha2 & Hd').
  (* the link of the successor, or the tail *)
  set (P := fun (map1 : sep_chain_map) (m1 : mem) => m1 = m /\ same_frame map map1 /\
    no_refs <$> nodes map1 = no_refs <$> nodes map /\ dl_head (all_elems map1) = dl_head (all_elems map) /\
    dl_tail (all_elems map1) = last (e1 ++ e2) /\
    (forall y, head e2 <> Some y -> refs map1 !! y = refs map !! y) /\
    (forall q l, e2 = q :: l -> refs map1 !! q = Some (last e1, head l))).
  assert (forall map1, P map1 m -> wp
    (match last e1 with
     | Some p => update_node map1 p (fun n0 => set_refs n0 (prev n0) (head e2))
     | None => mret (set_root map1 (DllistRoot (head e2) (dl_tail (all_elems map1))))
     end) m Q) as Hrest.
  { intros map1 (_ & Hf & Enr & Eh & Et & Hsame & Hq).
    destruct (last e1) as [p|] eqn:El.
    - pose proof El as [l' ->]%last_Some.
      assert (head e2 <> Some p) as Hpne.
      { intros E. destruct e2 as [|q e2]; [done|]. injection E as ->. apply NoDup_app in Hd' as (_ & Hd' & _). eapply (Hd' p); set_solver. }
      assert (refs map !! p = Some (last l', Some a)) as Hrp by (apply (Hdl l' p (a :: e2)); by rewrite <- app_assoc).
      rewrite <- Hsame in Hrp by done. unfold refs in Hrp. rewrite lookup_fmap in Hrp.
      destruct (nodes map1 !! p) as [np|] eqn:Hnp; [|done]. injection Hrp as Epp _.
      apply (wp_update_node _ _ np); [done|]. apply HQ.
      + eapply same_frame_trans; [done|]. done.
      + rewrite <- Enr. cbn. by apply (fmap_upd _ _ _ np).
      + split.
        * apply (dlist_unlink (refs map) _ (l' ++ [p]) a e2); [done|done| | |].
          -- intros y Hy Hyp Hyq. unfold refs at 1. cbn. rewrite fmap_insert, lookup_insert_ne; [by apply Hsame|].
             intros ->. apply Hyp. by rewrite last_snoc.
          -- intros p0 l0 E0. apply app_inj_2 in E0 as [<- [= <-]]; [|done]. unfold refs. cbn. rewrite fmap_insert, lookup_insert_eq.
             cbn. by rewrite Epp.
          -- intros q l0 E0. unfold refs at 1. cbn. rewrite fmap_insert, lookup_insert_ne; [rewrite last_snoc; by apply Hq|].
             intros ->. by rewrite E0 in Hpne.
        * cbn. destruct (all_elems map1) as [h1 t1]; cbn in *. rewrite Eh, Et, Hroot. cbn. f_equal. by destruct l'.
    - apply last_None in El as ->. cbn [app] in *. apply wp_ret, HQ.
      + eapply same_frame_trans; [done|]. done.
      + done.
      + split; [|cbn; by rewrite Et]. unfold refs. cbn. fold (refs map1).
        apply (dlist_unlink (refs map) _ [] a e2); [done|done| |by intros p [|]|done].
        intros y _ _ Hy. by apply Hsame. }
  destruct e2 as [|q e2]; cbn [head hd_error].
  - apply wp_ret, Hrest. split_and!; [done|done|done|done|cbn; by rewrite app_nil_r|done|done].
  - destruct (listed_node map (e1 ++ [a]) q e2) as (nq & Hnq & Epq & Exq); [by rewrite <- app_assoc|].
    apply (wp_update_node _ _ nq); [done|]. apply Hrest. split_and!; [done|done| |done| | |].
    + cbn. by apply (fmap_upd _ _ _ nq).
    + cbn. rewrite Hroot. cbn. rewrite !last_app. cbn. done.
    + intros y Hy. unfold refs. cbn. rewrite fmap_insert, lookup_insert_ne; [done|]. intros ->. done.
    + intros q' l [= <- <-]. unfold refs. cbn. rewrite fmap_insert, lookup_insert_eq. cbn. by rewrite Exq.
Qed.

(** *** Creating and destroying nodes *)

(** The size in the accessor says where the bytes are. *)
Definition accounted (s : storage) (acc : option cmap_pair) : Prop :=
  if acc_size acc >? INLINE_STORAGE_THRESHOLD then exists b, s = heap_ptr (Some b) else buffer s = [].

Lemma storage_accounted a offset s acc : storage_ok a offset s acc -> accounted s acc.
Proof.
  intros [_ Hs]. unfold accounted. destruct s as [d|[d|]]; [| |done]; destruct Hs as [Hl ->]; cbn; rewrite Z.gtb_ltb.
  - destruct (Z.ltb_spec INLINE_STORAGE_THRESHOLD (zlen d)); [lia|done].
  - destruct (Z.ltb_spec INLINE_STORAGE_THRESHOLD (zlen (b_bytes d))); [by eexists|lia].
Qed.

Lemma wp_free_storage acc s m Y F (Q : unit -> mem -> Prop) : accounted s acc -> owns m Y F ->
  (forall b, b ∈ buffer s -> b ∈ Y) ->
  (forall m', owns m' (Y ∖ list_to_set (buffer s)) F -> Q tt m') -> wp (free_storage acc s) m Q.
Proof.
  unfold accounted, free_storage. intros Hacc Ho Hin HQ. destruct (_ >? _).
  - destruct Hacc as [b ->]. cbn in *. apply (wp_free_owns _ _ _ _ _ Ho); [apply Hin; set_solver|].
    intros m' Ho'. apply HQ. owns_tac.
  - apply wp_ret, HQ. rewrite Hacc. cbn. owns_tac.
Qed.

Lemma wp_sc_destroy_node map (flag : bool) a n (R : sep_chain_map -> Prop) m X F Q :
  apart (nodes map) -> nodes map !! a = Some n ->
  accounted (key_storage n) (key_pair_accessor n) -> accounted (val_storage n) (val_pair_accessor n) ->
  NoDup (blocks_of a n) -> X ## owned (nodes map) -> owns m (owned (nodes map) ∪ X) F ->
  (forall m, wp (if flag then detach_node_from_dllist map a else mret map) m (fun map1 m' => m' = m /\
     same_frame map map1 /\ no_refs <$> nodes map1 = no_refs <$> nodes map /\ R map1)) ->
  (forall map1 m', same_frame map map1 -> no_refs <$> nodes map1 = no_refs <$> nodes map -> R map1 ->
     owns m' (owned (delete a (nodes map)) ∪ X) F -> Q (set_nodes map1 (delete a (nodes map1))) m') ->
  wp (sc_destroy_llist_node map flag a) m Q.
Proof.
  intros Hap Hn Hk Hv Hd HX Ho Hdet HQ. pose proof (owned_delete _ _ _ Hap Hn) as Edel.
  assert (forall b, b ∈ blocks_of a n -> b ∈ owned (nodes map)) as Hin by (intros b Hb; apply elem_owned; by exists a, n).
  unfold blocks_of, buffers in *. apply NoDup_cons in Hd as [Ha Hd]. apply NoDup_app in Hd as (_ & Hd & _).
  unfold sc_destroy_llist_node. apply wp_bind, (wp_node_at _ _ n); [done|].
  apply wp_bind, (wp_free_storage _ _ _ _ F _ Hk Ho). { intros b Hb. apply elem_of_union_l, Hin. set_solver. }
  intros m1 Ho1. apply wp_bind, (wp_free_storage _ _ _ _ F _ Hv Ho1).
  { intros b Hb. apply elem_of_difference. split; [apply elem_of_union_l, Hin; set_solver|]. rewrite elem_of_list_to_set.
    intros Hb'. by apply (Hd b). }
  intros m2 Ho2. apply wp_bind. eapply wp_mono; [apply Hdet|]. intros map1 ? (-> & Hf & Enr & HR).
  apply wp_bind, (wp_free_owns _ _ _ _ _ Ho2).
  { rewrite !elem_of_difference, !elem_of_list_to_set. split_and!; [apply elem_of_union_l, Hin; set_solver|set_solver..]. }
  intros m3 Ho3. apply wp_ret, HQ; [done..|]. apply (owns_change _ _ _ _ Ho3). rewrite Edel.
  apply set_eq. intros b. rewrite !elem_of_union, !elem_of_difference, !elem_of_union, !elem_of_list_to_set, elem_of_singleton.
  specialize (Hin b). set_solver.
Qed.

(** A fresh storage for bytes a pointer reads. *)
Lemma wp_store map a offset p size bs m X F (Q : option (storage * option cmap_pair) -> mem -> Prop) :
  apart (nodes map) -> owns m (owned (nodes map) ∪ X) F -> resolve map p size = Some bs -> 1 <= size < two64 ->
  (forall m', owns m' (owned (nodes map) ∪ X) F -> Q None m') ->
  (forall s acc m', bytes_of s = bs -> storage_ok a offset s acc -> NoDup (buffer s) ->
     (forall b, b ∈ buffer s -> (b ∉ owned (nodes map)) /\ (b ∉ X)) ->
     owns m' (list_to_set (buffer s) ∪ (owned (nodes map) ∪ X)) F -> Q (Some (s, acc)) m') ->
  wp (store map a offset p size) m Q.
Proof.
  intros Hap Ho Hr Hs HN HS. pose proof (sc_resolve_len _ _ _ _ Hr) as [Hl _]. unfold store.
  destruct (Z.leb_spec size INLINE_STORAGE_THRESHOLD) as [Hle|Hgt].
  - apply wp_bind. eapply wp_sc_read_ptr; [done..|]. apply wp_bind. unfold copy_inline. rewrite Hl.
    destruct (Z.leb_spec size (INLINE_STORAGE_THRESHOLD + 1)); [|lia]. apply wp_ret, wp_ret. apply HS; [done| |constructor|set_solver|].
    + split; cbn; [lia|]. split; [lia|]. by rewrite Hl.
    + cbn. owns_tac.
  - apply wp_bind, (wp_alloc_owns _ _ _ F _ Ho); [lia| |].
    + intros m' Ho' _. apply wp_ret. by apply HN.
    + intros b m' Ho' Hb1 Hb2 Hlb _. apply wp_bind. eapply (wp_sc_read_ptr map _ _ _ _ ({[b_id b]} ∪ X) F); [done| |done|].
      { owns_tac. }
      apply wp_bind. unfold copy_heap. apply wp_bind, wp_memcpy_in; [lia|lia|]. apply wp_ret, wp_ret.
      assert (splice (b_bytes b) 0 bs = bs) as Esp.
      { unfold splice. rewrite ztake_0, zdrop_all by lia. by rewrite app_nil_r. }
      rewrite Esp. apply HS; cbn; [done| |apply NoDup_singleton| |].
      * split; cbn; [lia|]. split; [lia|]. by rewrite Hl.
      * intros x ->%list_elem_of_singleton. set_solver.
      * owns_tac.
Qed.

Lemma resolve_other map a n p len bs : apart (nodes map) -> apart (<[a := n]> (nodes map)) ->
  nodes map !! a = None -> resolve map p len = Some bs -> resolve (set_node map a n) p len = Some bs.
Proof.
  intros Hap Hap' Hn. apply resolve_keep; [done|done|]. intros x nx b off Hx _ Hb. exists nx. split; [|done].
  cbn. rewrite lookup_insert_ne; [done|congruence].
Qed.

(** What a map gives an operation: a key or a value in memory of the caller's
    or of the map. *)
Definition gives map (pair : cmap_pair) (bs : list Z) : Prop :=
  pair_size pair = zlen bs /\ 1 <= zlen bs < two64 /\ resolve map (pair_ptr pair) (pair_size pair) = Some bs.

Lemma set_nodes_undo map a n : nodes map !! a = None -> set_nodes (set_node map a n) (delete a (nodes (set_node map a n))) = map.
Proof. intros Hn. destruct map. cbn in *. unfold set_nodes. cbn. by rewrite delete_insert_id. Qed.

Record created c map map' es a (k v : list Z) hash : Prop := Created {
  cr_fresh : nodes map !! a = None;
  cr_frame : same_frame map map';
  cr_listed : listed map' (a :: es);
  cr_node : exists n, no_refs <$> nodes map' = no_refs <$> <[a := n]> (nodes map) /\
    node_ok c a n /\ pair_of n = (k, v) /\ hash_val n = hash;
  cr_apart : apart (nodes map');
}.

Lemma apart_add map a n ids : apart (nodes map) -> blocks_of a n ⊆ ids -> (forall b, b ∈ ids -> b ∉ owned (delete a (nodes map))) ->
  apart (nodes (set_node map a n)).
Proof. intros Hap Hs Hi. cbn. apply apart_insert; [done|]. intros b Hb. apply Hi, Hs, Hb. Qed.

Lemma no_refs_apart ns ns' : no_refs <$> ns' = no_refs <$> ns -> (apart ns -> apart ns') /\ owned ns' = owned ns.
Proof. intros E. apply apart_blocks. by apply (fmap_through no_refs). Qed.

Lemma wp_create_node c map es hash kp vp k v m X F (Q : option nat * sep_chain_map -> mem -> Prop) :
  apart (nodes map) -> listed map es -> NoDup es -> (forall x, x ∈ es -> is_Some (nodes map !! x)) ->
  X ## owned (nodes map) -> owns m (owned (nodes map) ∪ X) F -> gives map kp k -> gives map vp v -> valid_key c k ->
  (forall m', owns m' (owned (nodes map) ∪ X) F -> Q (None, map) m') ->
  (forall a map' m', created c map map' es a k v hash -> X ## owned (nodes map') ->
     owns m' (owned (nodes map') ∪ X) F -> Q (Some a, map') m') ->
  wp (sc_create_llist_node map hash kp vp) m Q.
Proof.
  intros Hap Hl Hd Hdom HX Ho (Eks & Hks & Hkr) (Evs & Hvs & Hvr) Hvalid HN HS.
  assert (forall a, a ∉ owned (nodes map) -> nodes map !! a = None) as Hfresh.
  { intros a Ha. destruct (nodes map !! a) eqn:E; [|done]. by apply owned_node in E. }
  unfold sc_create_llist_node. apply wp_bind, (wp_calloc_owns _ _ _ _ F _ Ho); [done| |].
  { intros m' Ho' _. apply wp_ret. by apply HN. }
  intros [a bytes] m1 Ho1 Ha1 Ha2 _ _. cbn [b_id] in *. apply not_elem_of_union in Ha1 as [Ha1 HaX].
  pose proof (Hfresh a Ha1) as Hn. set (n0 := set_hash zeroed_node hash).
  assert (delete a (nodes map) = nodes map) as Edel by by apply delete_id.
  set (map1 := set_node map a n0).
  assert (apart (nodes map1)) as Hap1.
  { apply apart_insert; [done|]. rewrite Edel. intros b Hb. unfold blocks_of, buffers in Hb. cbn in Hb. set_solver. }
  assert (owned (nodes map1) = {[a]} ∪ owned (nodes map)) as Eo1.
  { unfold map1. cbn. rewrite owned_insert, Edel. unfold blocks_of, buffers. cbn. set_solver. }
  assert (resolve map1 (pair_ptr kp) (pair_size kp) = Some k) as Hkr1 by by apply resolve_other.
  assert (owns m1 (owned (nodes map1) ∪ X) F) as Ho1' by (rewrite Eo1; owns_tac).
  (* the node abandoned *)
  assert (forall (map2 : sep_chain_map) n2 m2, map2 = set_node map1 a n2 -> apart (nodes map2) ->
    accounted (key_storage n2) (key_pair_accessor n2) -> accounted (val_storage n2) (val_pair_accessor n2) ->
    NoDup (blocks_of a n2) -> X ## owned (nodes map2) -> owns m2 (owned (nodes map2) ∪ X) F ->
    wp (map ← sc_destroy_llist_node map2 false a; mret (None, map)) m2 Q) as Habandon.
  { intros map2 n2 m2 -> Hap2 Hk2 Hv2 Hd2 HX2 Ho2. apply wp_bind.
    eapply (wp_sc_destroy_node _ false a n2 (fun map' => map' = set_node map1 a n2)); try done; [cbn; by rewrite lookup_insert_eq|].
    intros map' m' _ _ -> Ho'. apply wp_ret.
    assert (set_nodes (set_node map1 a n2) (delete a (nodes (set_node map1 a n2))) = map) as ->.
    { rewrite <- (set_nodes_undo map a n2 Hn). unfold map1, set_node. cbn. by rewrite insert_insert_eq. }
    apply HN. apply (owns_change _ _ _ _ Ho'). unfold map1. cbn. rewrite insert_insert_eq, delete_insert_id; done. }
  apply wp_bind. eapply (wp_store map1 a _ _ _ k m1 X F); [done..|lia| |].
  { intros m' Ho'. eapply (Habandon map1 n0); try done.
    - unfold map1, set_node. cbn. by rewrite insert_insert_eq.
    - cbn. apply NoDup_singleton.
    - rewrite Eo1. set_solver. }
  intros ks kacc m2 Ekb Hks_ok Hkd Hkn Ho2. rewrite Eo1 in Hkn.
  set (n1 := set_key n0 ks kacc). apply wp_bind, (wp_update_node _ _ n0); [unfold map1; cbn; by rewrite lookup_insert_eq|].
  fold n1. set (map2 := set_node map1 a n1).
  assert (nodes map2 = <[a := n1]> (nodes map)) as En2 by (unfold map2, map1; cbn; by rewrite insert_insert_eq).
  assert (blocks_of a n1 = a :: buffer ks) as Eb1 by (unfold blocks_of, buffers; cbn; by rewrite app_nil_r).
  assert (apart (nodes map2)) as Hap2.
  { rewrite En2. apply apart_insert; [done|]. rewrite Edel, Eb1. intros b [->|Hb]%elem_of_cons; [done|]. apply Hkn in Hb. set_solver. }
  assert (owned (nodes map2) = {[a]} ∪ list_to_set (buffer ks) ∪ owned (nodes map)) as Eo2.
  { rewrite En2, owned_insert, Edel, Eb1. cbn. done. }
  assert (owns m2 (owned (nodes map2) ∪ X) F) as Ho2' by (rewrite Eo2; rewrite Eo1 in Ho2; owns_tac).
  assert (resolve map2 (pair_ptr vp) (pair_size vp) = Some v) as Hvr2.
  { apply (resolve_keep map); [done|done| |done]. intros x nx b off Hx _ Hb. exists nx. split; [|done].
    rewrite En2, lookup_insert_ne; [done|congruence]. }
  assert (X ## owned (nodes map2)) as HX2.
  { rewrite Eo2. intros b Hb. rewrite !elem_of_union, elem_of_singleton, elem_of_list_to_set.
    intros [[->|Hb']|Hb']; [done| |by apply (HX b)]. apply Hkn in Hb'. set_solver. }
  apply wp_bind. eapply (wp_store map2 a _ _ _ v m2 X F); [done..|lia| |].
  { intros m' Ho'. eapply (Habandon map2 n1); try done.
    - cbn. by eapply storage_accounted.
    - rewrite Eb1. apply NoDup_cons. split; [|done]. intros Hb. apply Hkn in Hb. set_solver. }
  intros vs vacc m3 Evb Hvs_ok Hvd Hvn Ho3. rewrite Eo2 in Hvn.
  set (n2 := set_val n1 vs vacc). apply wp_bind, (wp_update_node _ _ n1); [cbn; by rewrite lookup_insert_eq|].
  fold n2. set (map3 := set_node map2 a n2).
  assert (nodes map3 = <[a := n2]> (nodes map)) as En3 by (unfold map3, set_node; cbn [nodes set_nodes]; by rewrite En2, insert_insert_eq).
  assert (blocks_of a n2 = a :: buffer ks ++ buffer vs) as Eb2 by done.
  assert (node_ok c a n2 /\ pair_of n2 = (k, v)) as [Hok2 Ep2].
  { split; [|unfold pair_of, node_key, node_val; cbn; by rewrite Ekb, Evb]. split; cbn; [done|done| |].
    - unfold node_key. cbn. by rewrite Ekb.
    - rewrite Eb2. apply NoDup_cons. split.
      + intros [Hb|Hb]%elem_of_app; [apply Hkn in Hb|apply Hvn in Hb]; clear -Hb; set_solver.
      + apply NoDup_app. split_and!; [done| |done]. intros b Hb Hb'. apply Hvn in Hb'. set_solver. }
  assert (apart (nodes map3)) as Hap3.
  { rewrite En3. apply apart_insert; [done|]. rewrite Edel, Eb2. intros b [->|[Hb|Hb]%elem_of_app]%elem_of_cons; [done| |].
    - apply Hkn in Hb. clear -Hb. set_solver.
    - apply Hvn in Hb. clear -Hb. set_solver. }
  assert (owned (nodes map3) = {[a]} ∪ list_to_set (buffer ks) ∪ list_to_set (buffer vs) ∪ owned (nodes map)) as Eo3.
  { rewrite En3, owned_insert, Edel, Eb2. rewrite list_to_set_cons, list_to_set_app_L. union_tac. }
  assert (a ∉ es) as Hae by (intros Hin; destruct (Hdom a Hin); congruence).
  apply wp_bind, (wp_attach map3 es a n2).
  { destruct Hl as [Hl Hr]. split; [|done]. unfold refs. rewrite En3, fmap_insert. by apply dlist_insert. }
  { by apply NoDup_cons. }
  { rewrite En3. by rewrite lookup_insert_eq. }
  intros map4 Hf4 Enr4 Hl4.
  destruct (fmap_lookup_same no_refs (nodes map3) (nodes map4) a n2 Enr4) as (n4 & Hn4 & E4); [by rewrite En3, lookup_insert_eq|].
  apply wp_bind, (wp_update_node _ _ n4); [done|]. apply wp_ret.
  assert (set_next n4 None = n4) as ->.
  { assert (next n4 = next n2) as E by by apply (f_equal next) in E4. destruct n4. unfold set_next. cbn in *. by rewrite E. }
  assert (set_node map4 a n4 = map4) as ->.
  { unfold set_node. rewrite insert_id by done. by destruct map4. }
  destruct (no_refs_apart _ _ Enr4) as [Hap4 Eo4].
  assert (X ## owned (nodes map3)) as HX3.
  { rewrite Eo3. intros b Hb. rewrite !elem_of_union, elem_of_singleton, !elem_of_list_to_set.
    intros [[[->|Hb']|Hb']|Hb']; [done| | |by apply (HX b)]; [apply Hkn in Hb'|apply Hvn in Hb']; clear -Hb Hb'; set_solver. }
  apply HS.
  - split; [done| |done| |by apply Hap4].
    + eapply same_frame_trans; [|exact Hf4]. done.
    + exists n2. split_and!; [by rewrite Enr4, En3|done..].
  - by rewrite Eo4.
  - rewrite Eo4, Eo3. rewrite Eo2 in Ho3. owns_tac.
Qed.

(** *** Replacing a value *)
Lemma wp_read_live map p len bs m (Q : list Z -> mem -> Prop) :
  (forall b off, p = At b off -> b ∈ m_live m) -> resolve map p len = Some bs -> Q bs m -> wp (read_ptr map p len) m Q.
Proof.
  intros Hl Hr HQ. unfold read_ptr. apply wp_bind. destruct p as [l|b off]; [apply wp_ret|apply wp_touch; [by eapply Hl|]];
    by eapply wp_ub.
Qed.

(** A new storage for the value of a node. *)
Lemma val_update c map a n s acc : apart (nodes map) -> nodes map !! a = Some n -> node_ok c a n ->
  storage_ok a val_storage_offset s acc -> NoDup (buffer s) ->
  (forall b, b ∈ buffer s -> b ∉ owned (nodes map) ∖ list_to_set (buffer (val_storage n))) ->
  apart (nodes (set_node map a (set_val n s acc))) /\ node_ok c a (set_val n s acc) /\
  owned (nodes (set_node map a (set_val n s acc))) =
    list_to_set (buffer s) ∪ (owned (nodes map) ∖ list_to_set (buffer (val_storage n))).
Proof.
  intros Hap Hn Hok Hs Hd Hb. pose proof (owned_split _ _ _ Hap Hn) as Eo. pose proof (owned_delete _ _ _ Hap Hn) as Ed.
  pose proof Hok as [Hk _ Hv Hnd]. unfold blocks_of, buffers in *.
  assert (forall b, b ∈ buffer s -> b <> a /\ (b ∉ buffer (key_storage n)) /\ (b ∉ owned (delete a (nodes map)))) as Hb'.
  { intros b Hin. specialize (Hb b Hin). rewrite Eo in Hb. apply NoDup_cons in Hnd as [Ha Hnd]. apply NoDup_app in Hnd as (_ & Hnd & _).
    rewrite Ed in *. specialize (Hnd b). set_solver. }
  split_and!.
  - cbn. apply apart_insert; [done|]. unfold blocks_of, buffers. cbn. rewrite Ed. unfold blocks_of, buffers.
    intros b [->|[Hin|Hin]%elem_of_app]%elem_of_cons; [set_solver|set_solver|]. destruct (Hb' b Hin) as (_ & _ & H). by rewrite Ed in H.
  - split; [done|done|done|]. unfold blocks_of, buffers. cbn. apply NoDup_cons in Hnd as [Ha Hnd].
    apply NoDup_app in Hnd as (Hnd1 & _ & _). apply NoDup_cons. split.
    + intros [Hin|Hin]%elem_of_app; [set_solver|]. by apply Hb' in Hin as [? _].
    + apply NoDup_app. split_and!; [done| |done]. intros b Hin Hin'. by apply Hb' in Hin' as (_ & ? & _).
  - cbn. rewrite owned_insert, Ed. unfold blocks_of, buffers. cbn.
    rewrite Eo, Ed. unfold blocks_of, buffers. apply NoDup_cons in Hnd as [Ha Hnd]. apply NoDup_app in Hnd as (_ & Hnd & _).
    apply set_eq. intros b. specialize (Hnd b). rewrite !elem_of_union, !elem_of_difference, !elem_of_union.
    rewrite !elem_of_difference, elem_of_singleton, !elem_of_list_to_set, elem_of_cons, !elem_of_app.
    assert (b ∈ buffer s -> b <> a /\ (b ∉ buffer (key_storage n))) as H1 by (intros H; by apply Hb' in H as (? & ? & _)).
    assert (a ∉ buffer (val_storage n)) as H2 by set_solver. destruct (decide (b = a)) as [->|]; [tauto|].
    destruct (decide (b ∈ buffer s)), (decide (b ∈ buffer (key_storage n))), (decide (b ∈ buffer (val_storage n))); tauto.
Qed.

(** What is read outside the old value is there while the value changes. *)
Lemma resolve_val map a n s acc p size v old c : apart (nodes map) -> nodes map !! a = Some n -> node_ok c a n ->
  val_pair_accessor n = Some old -> ranges_overlap p size (pair_ptr old) (pair_size old) = false -> 1 <= size ->
  resolve map p size = Some v -> apart (nodes (set_node map a (set_val n s acc))) ->
  resolve (set_node map a (set_val n s acc)) p size = Some v.
Proof.
  intros Hap Hn Hok Eacc Hov Hsz Hr Hap'. revert Hr. apply resolve_keep; [done|done|].
  intros x nx b off Hx -> Hb. cbn. destruct (decide (x = a)) as [->|Hne]; [|rewrite lookup_insert_ne by done; by exists nx].
  rewrite lookup_insert_eq. rewrite Hn in Hx. injection Hx as <-. eexists. split; [done|].
  unfold node_bytes in *. cbn. destruct (storage_bytes a key_storage_offset _ _ _ _) eqn:Ek; [done|]. exfalso.
  pose proof (no_val _ _ _ Hok) as [_ Hv]. unfold ranges_overlap in Hov. unfold storage_bytes, within in Hb.
  destruct (val_storage n) as [d|[d|]]; [| |done]; destruct Hv as [_ Hv]; rewrite Eacc in Hv; injection Hv as ->; cbn in Hov.
  - destruct (decide (b = a)) as [->|]; [|by rewrite bool_decide_false in Hb].
    rewrite bool_decide_true in Hb, Hov by done. destruct (_ && _) eqn:Ew in Hb; [|done].
    apply andb_true_iff in Ew as [[Hw1%Z.leb_le Hw2%Z.leb_le]%andb_true_iff Hw3%Z.leb_le].
    destruct (Z.eqb_spec size 0), (Z.eqb_spec (zlen d) 0); try lia. cbn [orb andb] in Hov.
    apply andb_false_iff in Hov as [Hov%Z.ltb_ge|Hov%Z.ltb_ge]; lia.
  - destruct (decide (b = b_id d)) as [->|]; [|by rewrite bool_decide_false in Hb].
    rewrite bool_decide_true in Hb, Hov by done. destruct (_ && _) eqn:Ew in Hb; [|done].
    apply andb_true_iff in Ew as [[Hw1%Z.leb_le Hw2%Z.leb_le]%andb_true_iff Hw3%Z.leb_le].
    destruct (Z.eqb_spec size 0), (Z.eqb_spec (zlen (b_bytes d)) 0); try lia. cbn [orb andb] in Hov.
    apply andb_false_iff in Hov as [Hov%Z.ltb_ge|Hov%Z.ltb_ge]; lia.
Qed.

Definition revalued c map a n (v : list Z) map' : Prop := exists s acc,
  map' = set_node map a (set_val n s acc) /\ bytes_of s = v /\ node_ok c a (set_val n s acc) /\ apart (nodes map').

(** What every branch starts from: the value is read outside the old one. *)
Record replacing c map a n old src v X F m : Prop := Replacing {
  rp_apart : apart (nodes map);
  rp_node : nodes map !! a = Some n;
  rp_ok : node_ok c a n;
  rp_old : val_pair_accessor n = Some old;
  rp_len : 1 <= zlen v < two64;
  rp_src : resolve map src (zlen v) = Some v;
  rp_free : ranges_overlap src (zlen v) (pair_ptr old) (pair_size old) = false;
  rp_disj : X ## owned (nodes map);
  rp_owns : owns m (owned (nodes map) ∪ X) F;
}.

Lemma old_size c map a n old src v X F m : replacing c map a n old src v X F m -> pair_size old = zlen (node_val n).
Proof.
  intros Hr. pose proof (no_val _ _ _ (rp_ok _ _ _ _ _ _ _ _ _ _ Hr)) as [_ Hv]. pose proof (rp_old _ _ _ _ _ _ _ _ _ _ Hr) as Eo.
  unfold node_val. destruct (val_storage n) as [d|[d|]]; [| |done]; destruct Hv as [_ Hv]; rewrite Eo in Hv; by injection Hv as ->.
Qed.

(** A storage of the new value takes the old one's place. *)
Lemma replaced c map a n old src v X F m s acc m' : replacing c map a n old src v X F m ->
  bytes_of s = v -> storage_ok a val_storage_offset s acc -> NoDup (buffer s) ->
  (forall b, b ∈ buffer s -> (b ∉ owned (nodes map) ∖ list_to_set (buffer (val_storage n))) /\ (b ∉ X)) ->
  owns m' (list_to_set (buffer s) ∪ (owned (nodes map) ∖ list_to_set (buffer (val_storage n))) ∪ X) F ->
  let map' := set_node map a (set_val n s acc) in
  revalued c map a n v map' /\ X ## owned (nodes map') /\ owns m' (owned (nodes map') ∪ X) F.
Proof.
  intros [Hap Hn Hok _ _ _ _ HX _] Eb Hs Hd Hb Ho map'.
  destruct (val_update c map a n s acc) as (Hap' & Hok' & Eo'); [done..|intros b Hin; by apply Hb in Hin as [? _]|].
  split_and!; [by exists s, acc| |].
  - unfold map'. rewrite Eo'. intros b Hin. rewrite elem_of_union, elem_of_difference, elem_of_list_to_set.
    intros [Hin'|[Hin' _]]; [by apply Hb in Hin' as [_ ?]|by apply (HX b)].
  - unfold map'. by rewrite Eo'.
Qed.

Lemma wp_overwrite c map a n old src v X F m Q : replacing c map a n old src v X F m -> zlen v = pair_size old ->
  (forall map' m', revalued c map a n v map' -> X ## owned (nodes map') -> owns m' (owned (nodes map') ∪ X) F -> Q map' m') ->
  wp (overwrite_val map a old src (zlen v)) m Q.
Proof.
  intros Hr El HQ. pose proof (old_size _ _ _ _ _ _ _ _ _ _ Hr) as Eold. pose proof Hr as [Hap Hn Hok Eo Hl Hsrc Hov HX Ho].
  unfold overwrite_val. rewrite Hov. apply wp_bind. eapply wp_sc_read_ptr; [done..|]. apply wp_bind, (wp_node_at _ _ n); [done|].
  assert (forall d : list Z, zlen v = zlen d -> splice d 0 v = v) as Hsp.
  { intros d Ed. unfold splice. rewrite ztake_0, zdrop_all by lia. by rewrite app_nil_r. }
  pose proof (no_val _ _ _ Hok) as [Hvl Hv]. unfold node_val in Eold. rewrite Eold in El.
  apply wp_bind. destruct (val_storage n) as [d|[d|]] eqn:Es; [| |done]; cbn in El, Hv.
  - apply wp_bind, wp_memcpy_in; [lia|lia|]. rewrite Hsp by done. apply wp_ret, wp_ret.
    destruct (replaced _ _ _ _ _ _ _ _ _ _ (inline_data v) (val_pair_accessor n) m Hr) as (H1 & H2 & H3); try done.
    + split; [cbn; lia|]. cbn. by rewrite El.
    + cbn. constructor.
    + cbn. set_solver.
    + cbn. rewrite Es. cbn. owns_tac.
    + by apply HQ.
  - unfold copy_heap. apply wp_bind, wp_memcpy_in; [lia|lia|]. rewrite Hsp by done. apply wp_ret, wp_ret.
    assert (b_id d ∈ owned (nodes map)) as Hin.
    { apply elem_owned. exists a, n. split; [done|]. unfold blocks_of, buffers. rewrite Es. cbn. set_solver. }
    destruct (replaced _ _ _ _ _ _ _ _ _ _ (heap_ptr (Some (Block (b_id d) v))) (val_pair_accessor n) m Hr) as (H1 & H2 & H3); try done.
    + split; [cbn; lia|]. cbn. by rewrite El.
    + cbn. apply NoDup_singleton.
    + cbn. rewrite Es. intros b ->%list_elem_of_singleton. cbn. split; [set_solver|]. intros HX'. by apply (HX (b_id d)).
    + cbn. rewrite Es. cbn. apply (owns_change _ _ _ _ Ho). apply set_eq. intros b.
      rewrite !elem_of_union, elem_of_difference, elem_of_union, elem_of_singleton, elem_of_empty.
      destruct (decide (b = b_id d)) as [->|]; tauto.
    + by apply HQ.
Qed.

(** The old storage has a buffer when the old size says so. *)
Lemma old_buffer c map a n old src v X F m : replacing c map a n old src v X F m ->
  if pair_size old <=? INLINE_STORAGE_THRESHOLD then buffer (val_storage n) = []
  else exists b, val_storage n = heap_ptr (Some b) /\ b_id b ∈ owned (nodes map).
Proof.
  intros Hr. pose proof (old_size _ _ _ _ _ _ _ _ _ _ Hr) as ->. pose proof Hr as [_ Hn Hok _ _ _ _ _ _].
  pose proof (no_val _ _ _ Hok) as [_ Hv]. unfold node_val. destruct (val_storage n) as [d|[d|]] eqn:Es; [| |done]; cbn in *.
  - destruct (Z.leb_spec (zlen d) INLINE_STORAGE_THRESHOLD); [done|lia].
  - destruct (Z.leb_spec (zlen (b_bytes d)) INLINE_STORAGE_THRESHOLD); [lia|]. exists d. split; [done|].
    apply elem_owned. exists a, n. split; [done|]. unfold blocks_of, buffers. rewrite Es. cbn. set_solver.
Qed.

Lemma wp_to_inline c map a n old src v X F m (Q : bool * sep_chain_map -> mem -> Prop) :
  replacing c map a n old src v X F m -> zlen v <= INLINE_STORAGE_THRESHOLD ->
  (forall map' m', revalued c map a n v map' -> X ## owned (nodes map') -> owns m' (owned (nodes map') ∪ X) F -> Q (true, map') m') ->
  wp (_ ← (if negb (pair_size old <=? INLINE_STORAGE_THRESHOLD) then
             match val_storage n with heap_ptr (Some b) => _ccol_mem_free (b_id b) | _ => undefined end
           else mret tt);
      bytes ← read_ptr map src (zlen v);
      s ← copy_inline bytes;
      mret (true, set_node map a (set_val n s (Some (CmapPair (At a val_storage_offset) (zlen v)))))) m Q.
Proof.
  intros Hr Hle HQ. pose proof (old_buffer _ _ _ _ _ _ _ _ _ _ Hr) as Hb. pose proof Hr as [Hap Hn Hok Eo Hl Hsrc Hov HX Ho].
  set (acc := Some (CmapPair (At a val_storage_offset) (zlen v))).
  assert (storage_ok a val_storage_offset (inline_data v) acc) as Hs by (split; cbn; [lia|done]).
  destruct (val_update c map a n (inline_data v) acc) as (Hap' & Hok' & Eo'); [done..|constructor|cbn; set_solver|].
  pose proof (resolve_val map a n (inline_data v) acc src (zlen v) v old c Hap Hn Hok Eo Hov (proj1 Hl) Hsrc Hap') as Hsrc'.
  cbn [buffer] in Eo'. set (ns' := nodes (set_node map a (set_val n (inline_data v) acc))) in *.
  apply wp_bind.
  assert (forall m', owns m' (owned ns' ∪ X) F ->
    wp (bytes ← read_ptr map src (zlen v); s ← copy_inline bytes; mret (true, set_node map a (set_val n s acc))) m' Q) as Hrest.
  { intros m' Ho'. apply wp_bind, (wp_read_live map _ _ v); [|done|].
    - intros b off ->. rewrite (owns_live _ _ _ Ho'). apply elem_of_union_l, elem_of_union_l.
      pose proof Hsrc' as (x & nx & Hx & Hbx)%resolve_At; [|done]. apply elem_owned. exists x, nx. split; [done|]. by eapply node_bytes_owner.
    - apply wp_bind. unfold copy_inline. destruct (Z.leb_spec (zlen v) (INLINE_STORAGE_THRESHOLD + 1)); [|lia].
      apply wp_ret, wp_ret. destruct (replaced _ _ _ _ _ _ _ _ _ _ (inline_data v) acc m' Hr) as (H1 & H2 & H3); try done.
      + cbn. constructor.
      + cbn. set_solver.
      + rewrite Eo' in Ho'. cbn. owns_tac.
      + by apply HQ. }
  destruct (_ <=? _); cbn [negb].
  - apply wp_ret, Hrest. rewrite Eo', Hb. cbn. owns_tac.
  - destruct Hb as (b & Es & Hin). rewrite Es. apply (wp_free_owns _ _ _ _ _ Ho); [set_solver|]. intros m' Ho'. apply Hrest.
    rewrite Eo', Es. cbn. apply (owns_change _ _ _ _ Ho'). specialize (HX (b_id b)). set_solver.
Qed.

Lemma wp_to_heap c map a n old src v X F m (Q : bool * sep_chain_map -> mem -> Prop) :
  replacing c map a n old src v X F m -> INLINE_STORAGE_THRESHOLD < zlen v ->
  (forall m', owns m' (owned (nodes map) ∪ X) F -> Q (false, map) m') ->
  (forall map' m', revalued c map a n v map' -> X ## owned (nodes map') -> owns m' (owned (nodes map') ∪ X) F -> Q (true, map') m') ->
  wp (b ← (if pair_size old <=? INLINE_STORAGE_THRESHOLD then _ccol_mem_alloc (zlen v)
           else match val_storage n with heap_ptr (Some b) => _ccol_mem_realloc b (zlen v) | _ => undefined end);
      match b with
      | None => mret (false, map)
      | Some b =>
          let map := set_node map a (set_val n (heap_ptr (Some b)) (val_pair_accessor n)) in
          bytes ← read_ptr map src (zlen v);
          s ← copy_heap b bytes;
          mret (true, set_node map a (set_val n s (Some (CmapPair (At (b_id b) 0) (zlen v)))))
      end) m Q.
Proof.
  intros Hr Hgt HN HQ. pose proof (old_buffer _ _ _ _ _ _ _ _ _ _ Hr) as Hb. pose proof Hr as [Hap Hn Hok Eo Hl Hsrc Hov HX Ho].
  set (V := list_to_set (buffer (val_storage n)) : gset nat).
  apply wp_bind. eapply (wp_mono _ _ (fun (b : option block) m' => match b with
    | None => owns m' (owned (nodes map) ∪ X) F
    | Some b => owns m' ({[b_id b]} ∪ (owned (nodes map) ∖ V) ∪ X) F /\ (b_id b ∉ owned (nodes map) ∖ V) /\ (b_id b ∉ X) /\
        zlen (b_bytes b) = zlen v
    end)).
  - unfold V. destruct (_ <=? _).
    + rewrite Hb. cbn. apply (wp_alloc_owns _ _ _ F _ Ho); [lia|done|]. intros b m' Ho' Hb1 Hb2 Elb _.
      split_and!; [owns_tac|set_solver|set_solver|done].
    + destruct Hb as (b & Es & Hin). rewrite Es. cbn. apply (wp_realloc_owns _ _ _ _ F _ Ho); [set_solver|lia|done|].
      intros b' m' Ho' Hb1 Hb2 Elb _ _. split_and!; [|set_solver|set_solver|done].
      apply (owns_change _ _ _ _ Ho'). specialize (HX (b_id b)). set_solver.
  - intros [b|] m' H; [|by apply wp_ret, HN]. destruct H as (Ho' & Hb1 & HbX & Elb).
    set (n1 := set_val n (heap_ptr (Some b)) (val_pair_accessor n)). cbv zeta.
    set (acc := Some (CmapPair (At (b_id b) 0) (zlen v))).
    assert (forall bs, zlen bs = zlen v -> storage_ok a val_storage_offset (heap_ptr (Some (Block (b_id b) bs))) acc) as Hs.
    { intros bs Ebs. split; cbn; [lia|]. split; [lia|]. by rewrite Ebs. }
    assert (Block (b_id b) (b_bytes b) = b) as Eb by by destruct b.
    destruct (val_update c map a n (heap_ptr (Some b)) acc) as (Hap' & _ & Eo'); try done.
    { rewrite <- Eb. by apply Hs. }
    { cbn. apply NoDup_singleton. }
    { cbn. intros x ->%list_elem_of_singleton. done. }
    assert (apart (nodes (set_node map a n1)) /\ owned (nodes (set_node map a n1)) =
      {[b_id b]} ∪ (owned (nodes map) ∖ V)) as [Hap1 Eo1].
    { destruct (apart_blocks (nodes (set_node map a (set_val n (heap_ptr (Some b)) acc))) (nodes (set_node map a n1))) as [H1 H2].
      - cbn. by rewrite !fmap_insert.
      - split; [by apply H1|]. rewrite H2, Eo'. cbn. set_solver. }
    assert (resolve (set_node map a n1) src (zlen v) = Some v) as Hsrc1 by exact (resolve_val map a n _ _ src (zlen v) v old c Hap Hn Hok Eo Hov (proj1 Hl) Hsrc Hap1).
    apply wp_bind. eapply (wp_sc_read_ptr (set_node map a n1) src (zlen v) v m' X F); [done| |done|].
    { rewrite Eo1. owns_tac. }
    apply wp_bind. unfold copy_heap. apply wp_bind, wp_memcpy_in; [lia|lia|]. apply wp_ret, wp_ret.
    assert (splice (b_bytes b) 0 v = v) as ->.
    { unfold splice. rewrite ztake_0, zdrop_all by lia. by rewrite app_nil_r. }
    assert (set_node (set_node map a n1) a (set_val n (heap_ptr (Some (Block (b_id b) v))) acc) =
      set_node map a (set_val n (heap_ptr (Some (Block (b_id b) v))) acc)) as ->.
    { unfold set_node. cbn. by rewrite insert_insert_eq. }
    destruct (replaced _ _ _ _ _ _ _ _ _ _ (heap_ptr (Some (Block (b_id b) v))) acc m' Hr) as (H1 & H2 & H3); try done.
    + cbn. apply NoDup_singleton.
    + cbn. intros x ->%list_elem_of_singleton. by split.
    + cbn. fold V. owns_tac.
    + by apply HQ.
Qed.

Lemma resolve_foreign map (bs : list Z) : resolve map (Foreign bs) (zlen bs) = Some bs.
Proof. cbn. zlen_facts. destruct (Z.leb_spec 0 (zlen bs)), (Z.leb_spec (zlen bs) (zlen bs)); try lia. cbn. by rewrite ztake_all. Qed.

(** The three branches, for a source outside the old value. *)
Lemma wp_sc_replace c map a n old src v X F m (Q : bool * sep_chain_map -> mem -> Prop) :
  replacing c map a n old src v X F m ->
  (forall m', owns m' (owned (nodes map) ∪ X) F -> Q (false, map) m') ->
  (forall map' m', revalued c map a n v map' -> X ## owned (nodes map') -> owns m' (owned (nodes map') ∪ X) F -> Q (true, map') m') ->
  wp (if zlen v =? pair_size old then
        map ← overwrite_val map a old src (zlen v); mret (true, map)
      else if zlen v <=? INLINE_STORAGE_THRESHOLD then
        _ ← (if negb (pair_size old <=? INLINE_STORAGE_THRESHOLD) then
               match val_storage n with
               | heap_ptr (Some b) => _ccol_mem_free (b_id b)
               | _ => undefined
               end
             else mret tt);
        bytes ← read_ptr map src (zlen v);
        s ← copy_inline bytes;
        mret (true, set_node map a (set_val n s (Some (CmapPair (At a val_storage_offset) (zlen v)))))
      else
        b ← (if pair_size old <=? INLINE_STORAGE_THRESHOLD then _ccol_mem_alloc (zlen v)
             else match val_storage n with
                  | heap_ptr (Some b) => _ccol_mem_realloc b (zlen v)
                  | _ => undefined
                  end);
        match b with
        | None => mret (false, map)
        | Some b =>
            let map := set_node map a (set_val n (heap_ptr (Some b)) (val_pair_accessor n)) in
            bytes ← read_ptr map src (zlen v);
            s ← copy_heap b bytes;
            mret (true, set_node map a (set_val n s (Some (CmapPair (At (b_id b) 0) (zlen v)))))
        end) m Q.
Proof.
  intros Hr HN HQ. destruct (Z.eqb_spec (zlen v) (pair_size old)) as [E|_].
  { apply wp_bind. eapply wp_overwrite; [done..|]. intros map' m' H1 H2 H3. apply wp_ret. by apply HQ. }
  destruct (Z.leb_spec (zlen v) INLINE_STORAGE_THRESHOLD).
  - by apply (wp_to_inline c _ _ _ _ _ _ X F).
  - by apply (wp_to_heap c _ _ _ _ _ _ X F).
Qed.

Lemma wp_reset_val c map a n vp v m X F (Q : bool * sep_chain_map -> mem -> Prop) :
  apart (nodes map) -> nodes map !! a = Some n -> node_ok c a n -> gives map vp v ->
  X ## owned (nodes map) -> owns m (owned (nodes map) ∪ X) F ->
  (forall m', owns m' (owned (nodes map) ∪ X) F -> Q (false, map) m') ->
  (forall map' m', revalued c map a n v map' -> X ## owned (nodes map') -> owns m' (owned (nodes map') ∪ X) F -> Q (true, map') m') ->
  wp (sc_reset_val_of_llist_node map a vp) m Q.
Proof.
  intros Hap Hn Hok (Es & Hl & Hr) HX Ho HN HQ. unfold sc_reset_val_of_llist_node. rewrite Es in *.
  apply wp_bind, (wp_node_at _ _ n); [done|]. destruct (val_accessor c map a n Hap Hn Hok) as (p & Eo & Hp).
  rewrite Eo. cbn [ub]. apply wp_bind, wp_ret. set (old := CmapPair p (zlen (node_val n))) in *. cbv zeta.
  apply wp_bind. unfold val_snapshot. rewrite Es.
  destruct (ranges_overlap (pair_ptr vp) (zlen v) (pair_ptr old) (pair_size old)) eqn:Eov.
  - destruct (Z.leb_spec (zlen v) (INLINE_STORAGE_THRESHOLD + 1)).
    + apply wp_bind. eapply wp_sc_read_ptr; [done..|]. apply wp_ret, wp_bind. rewrite <- Eo.
      eapply (wp_sc_replace c map a n old (Foreign v) v X F m).
      * split; try done; [by apply resolve_foreign|]. unfold ranges_overlap. by destruct (_ || _).
      * intros m' Ho'. apply wp_bind, wp_ret, wp_ret. by apply HN.
      * intros map' m' H1 H2 H3. apply wp_bind, wp_ret, wp_ret. by apply HQ.
    + apply wp_bind, (wp_alloc_owns _ _ _ F _ Ho); [lia| |].
      { intros m' Ho' _. apply wp_ret, wp_ret. by apply HN. }
      intros b m1 Ho1 Hb1 Hb2 Elb _. apply wp_bind. eapply (wp_sc_read_ptr map _ _ v m1 ({[b_id b]} ∪ X) F); [done| |done|].
      { owns_tac. }
      apply wp_bind, wp_memcpy_in; [lia|lia|].
      assert (splice (b_bytes b) 0 v = v) as ->.
      { unfold splice. rewrite ztake_0, zdrop_all by lia. by rewrite app_nil_r. }
      apply wp_ret, wp_bind. rewrite <- Eo.
      apply not_elem_of_union in Hb1 as [Hbo HbX].
      assert (forall (ok : bool) map' m', b_id b ∉ owned (nodes map') ->
        owns m' (owned (nodes map') ∪ ({[b_id b]} ∪ X)) F -> (forall m'', owns m'' (owned (nodes map') ∪ X) F -> Q (ok, map') m'') ->
        wp (_ ← _ccol_mem_free (b_id b); mret (ok, map')) m' Q) as Hfree.
      { clear -HbX. intros ok map' m' Hb Ho' HQ'. apply wp_bind, (wp_free_owns _ _ _ _ _ Ho'); [set_solver|].
        intros m'' Ho''. apply wp_ret, HQ'. apply (owns_change _ _ _ _ Ho''). clear -HbX Hb. set_solver. }
      eapply (wp_sc_replace c map a n old (Foreign v) v ({[b_id b]} ∪ X) F m1).
      * split; try done; [by apply resolve_foreign| |clear -HX Hbo; set_solver|owns_tac]. unfold ranges_overlap. by destruct (_ || _).
      * intros m' Ho'. by apply Hfree; [| |].
      * intros map' m' H1 H2 H3. assert ((b_id b ∉ owned (nodes map')) /\ X ## owned (nodes map')) as [H4 H5] by (clear -H2; set_solver).
        apply Hfree; [done..|]. intros m'' Ho''. by apply HQ.
  - apply wp_ret, wp_bind. rewrite <- Eo. eapply (wp_sc_replace c map a n old (pair_ptr vp) v X F m).
    + by split.
    + intros m' Ho'. apply wp_bind, wp_ret, wp_ret. by apply HN.
    + intros map' m' H1 H2 H3. apply wp_bind, wp_ret, wp_ret. by apply HQ.
Qed.
End Nodes.
