(* ===== verification/CScRelink.v ===== *)
(** * Chains, buckets and relinking

    The buckets of a separate-chaining map as a list of chains, searching and
    unlinking in a chain, and the loops that link every node again: the
    switch to the keyed hash, the attempt at the fast one, and a resize. *)
From S2P Require Import Prelude Memory Values Common CHash COaMap CLinks CScMap CScRefine.
Import COaMap(chmap_hash_mode(..), cmap_pair(..), pair_ptr, pair_size, minimum_allowed_bucket_array_size,
  UINT16_MAX, CHMAP_WINDOW_START, _ccol_max_power_of_two_size_t).
Import CScMap.

(** ** Buckets *)
Definition is_buckets (C : Z) : Prop := exists k, 2 <= k <= 63 /\ C = 2 ^ k.

Lemma buckets_range C : is_buckets C -> 4 <= C <= 9223372036854775808.
Proof.
  intros (k & Hk & ->). split; [change 4 with (2 ^ 2)|change 9223372036854775808 with (2 ^ 63)];
    apply Z.pow_le_mono_r; lia.
Qed.

Lemma bucket_index h C : is_buckets C -> is_word h -> 0 <= hash_index_for h C < C.
Proof. intros (k & Hk & ->) Hh. apply hash_index_for_range; [done|lia]. Qed.

Definition home (ns : gmap nat llist_node) (size : Z) (x : nat) : Z :=
  hash_index_for (from_option hash_val 0 (ns !! x)) size.

(** The heads start the chains, and the nodes of each hash to its index;
    [xs] are all of them. *)
Record buckets (ns : gmap nat llist_node) (size : Z) (hs : list (option nat)) (xs : list nat) (chains : list (list nat)) : Prop := Buckets {
  bk_heads : hs = head <$> chains;
  bk_len : zlen chains = size;
  bk_chain : forall i c, zget chains i = Some c -> chain (next <$> ns) c;
  bk_home : forall i c x, zget chains i = Some c -> x ∈ c -> home ns size x = i;
  bk_all : concat chains ≡ₚ xs;
}.

Lemma zget_fmap {A B} (f : A -> B) (l : list A) i : zget (f <$> l) i = f <$> zget l i.
Proof. unfold zget. destruct (0 <=? i); [|done]. by rewrite list_lookup_fmap. Qed.

Lemma zget_elem {A} (l : list A) i x : zget l i = Some x -> x ∈ l.
Proof. unfold zget. destruct (0 <=? i); [|done]. apply list_elem_of_lookup_2. Qed.

Lemma elem_zget {A} (l : list A) x : x ∈ l -> exists i, 0 <= i < zlen l /\ zget l i = Some x.
Proof.
  intros (i & Hi)%list_elem_of_lookup. exists (Z.of_nat i). pose proof (lookup_lt_Some _ _ _ Hi).
  split; [unfold zlen; lia|]. unfold zget. destruct (Z.leb_spec 0 (Z.of_nat i)); [|lia]. by rewrite Nat2Z.id.
Qed.

Lemma elem_concat {A} (ls : list (list A)) x : x ∈ concat ls <-> exists l, l ∈ ls /\ x ∈ l.
Proof.
  rewrite list_elem_of_In, in_concat. split; intros (l & H1 & H2); exists l; by rewrite ?list_elem_of_In in *.
Qed.

Section Buckets.
Implicit Types (ns : gmap nat llist_node) (xs : list nat) (chains : list (list nat)).

(** The chain of a bucket. *)
Lemma buckets_at ns size hs xs chains i : buckets ns size hs xs chains -> 0 <= i < size ->
  exists c, zget chains i = Some c /\ zget hs i = Some (head c) /\ chain (next <$> ns) c /\ c ⊆ xs.
Proof.
  intros [-> Hl Hch _ Hall] Hi. destruct (zget_is_Some chains i ltac:(lia)) as [c Hc]. exists c.
  split_and!; [done|by rewrite zget_fmap, Hc|by eapply Hch|].
  intros x Hx. rewrite <- Hall. apply elem_concat. exists c. split; [by eapply zget_elem|done].
Qed.

Lemma concat_split {A} (ls : list (list A)) i c : zget ls i = Some c ->
  concat ls ≡ₚ c ++ concat (ztake i ls ++ zdrop (i + 1) ls).
Proof.
  intros H. rewrite (zget_split ls i c H) at 1. rewrite !concat_app. cbn [concat].
  rewrite app_assoc, (Permutation_app_comm (concat (ztake i ls)) c). by rewrite <- app_assoc.
Qed.

Lemma buckets_nodup ns size hs xs chains i c : buckets ns size hs xs chains -> NoDup xs -> zget chains i = Some c -> NoDup c.
Proof.
  intros [_ _ _ _ Hall] Hd Hc. rewrite <- Hall, (concat_split _ _ _ Hc) in Hd. by apply NoDup_app in Hd as [? _].
Qed.

(** A member of the buckets is in the chain of its home. *)
Lemma buckets_home ns size hs xs chains x : buckets ns size hs xs chains -> x ∈ xs ->
  exists c, zget chains (home ns size x) = Some c /\ x ∈ c.
Proof.
  intros [_ _ _ Hh Hall] Hx. rewrite <- Hall in Hx. apply elem_concat in Hx as (c & Hc & Hx).
  apply elem_zget in Hc as (i & _ & Hi). exists c. by rewrite (Hh i c x Hi Hx).
Qed.

(** Chains only depend on the links and the hashes of their members. *)
Lemma buckets_ext ns ns' size hs xs chains :
  (forall x, x ∈ xs -> (fun n => (next n, hash_val n)) <$> ns' !! x = (fun n => (next n, hash_val n)) <$> ns !! x) ->
  buckets ns size hs xs chains -> buckets ns' size hs xs chains.
Proof.
  intros He [Hhs Hl Hch Hh Hall]. assert (forall i c x, zget chains i = Some c -> x ∈ c -> x ∈ xs) as Hin.
  { intros i c x Hc Hx. rewrite <- Hall. apply elem_concat. exists c. split; [by eapply zget_elem|done]. }
  split; [done|done| | |done].
  - intros i c Hc. apply (chain_ext (next <$> ns)); [|by eapply Hch]. intros x Hx. specialize (He x (Hin i c x Hc Hx)).
    rewrite !lookup_fmap. destruct (ns' !! x), (ns !! x); cbn in *; [by injection He as -> _|done..].
  - intros i c x Hc Hx. rewrite <- (Hh i c x Hc Hx). specialize (He x (Hin i c x Hc Hx)).
    unfold home. destruct (ns' !! x), (ns !! x); cbn in *; [by injection He as _ ->|done..].
Qed.

Lemma buckets_none ns size : 0 <= size -> buckets ns size (no_chains size) [] (replicate (Z.to_nat size) []).
Proof.
  intros Hs. unfold no_chains. split.
  - by rewrite fmap_replicate.
  - by apply zlen_replicate.
  - intros i c H. apply zget_elem, elem_of_replicate in H as [-> _]. apply chain_nil.
  - intros i c x H. apply zget_elem, elem_of_replicate in H as [-> _]. set_solver.
  - induction (Z.to_nat size); [done|]. done.
Qed.

Lemma fmap_upd_list {A B} (f : A -> B) (l : list A) i x : f <$> <[i := x]> l = <[i := f x]> (f <$> l).
Proof. apply list_fmap_insert. Qed.

Lemma zget_upd {A} (l : list A) i j x y : zget (<[Z.to_nat i := x]> l) j = Some y -> 0 <= i ->
  (j = i /\ y = x /\ i < zlen l) \/ (j <> i /\ zget l j = Some y).
Proof.
  intros H Hi. destruct (decide (j = i)) as [->|Hne].
  - left. pose proof (zget_Some_lt _ _ _ H) as Hr. unfold zlen in Hr. rewrite length_insert in Hr.
    unfold zget in H. destruct (Z.leb_spec 0 i); [|lia]. rewrite list_lookup_insert_eq in H by lia.
    injection H as ->. split_and!; [done|done|unfold zlen; lia].
  - right. split; [done|]. unfold zget in *. destruct (Z.leb_spec 0 j); [|done].
    rewrite list_lookup_insert_ne in H; [done|lia].
Qed.

Lemma concat_upd {A} (ls : list (list A)) i c c' : zget ls i = Some c ->
  concat (<[Z.to_nat i := c']> ls) ≡ₚ c' ++ concat (ztake i ls ++ zdrop (i + 1) ls).
Proof.
  intros H. pose proof (zget_Some_lt _ _ _ H) as Hi.
  destruct (zset_is_Some ls i c' Hi) as [l' Hl']. pose proof (zset_split _ _ _ _ _ H Hl') as (l1 & l2 & -> & -> & ->).
  unfold zset in Hl'. destruct (_ && _); [|done]. injection Hl' as ->.
  rewrite ztake_app_exact by done. replace (l1 ++ c :: l2) with ((l1 ++ [c]) ++ l2) by (by rewrite <- app_assoc).
  rewrite zdrop_app_exact by zlia.
  rewrite !concat_app. cbn [concat]. rewrite app_assoc, (Permutation_app_comm (concat l1) c'). by rewrite <- app_assoc.
Qed.

(** A node goes to the front of the chain of its home. *)
Lemma buckets_push ns size hs xs chains a n c : buckets ns size hs xs chains -> a ∉ xs -> ns !! a = Some n ->
  let i := home ns size a in 0 <= i -> zget chains i = Some c ->
  buckets (<[a := set_next n (head c)]> ns) size (<[Z.to_nat i := Some a]> hs) (a :: xs) (<[Z.to_nat i := a :: c]> chains).
Proof.
  intros Hb Ha Hn i Hi Hc. pose proof Hb as [Hhs Hl Hch Hh Hall].
  assert (forall j d x, zget chains j = Some d -> x ∈ d -> x <> a) as Hne.
  { intros j d x Hd Hx ->. apply Ha. rewrite <- Hall. apply elem_concat. exists d. split; [by eapply zget_elem|done]. }
  assert (forall x, home (<[a := set_next n (head c)]> ns) size x = home ns size x) as Ehome.
  { intros x. unfold home. destruct (decide (x = a)) as [->|]; [|by rewrite lookup_insert_ne].
    by rewrite lookup_insert_eq, Hn. }
  split.
  - by rewrite fmap_upd_list, Hhs.
  - unfold zlen in *. by rewrite length_insert.
  - intros j d Hd. rewrite fmap_insert. cbn. apply zget_upd in Hd as [(-> & -> & _)|[_ Hd]]; [| |done].
    + apply chain_push; [|by eapply Hch]. intros Hin. by eapply (Hne i c a).
    + apply chain_insert; [|by eapply Hch]. intros Hin. by eapply (Hne j d a).
  - intros j d x Hd Hx. rewrite Ehome. apply zget_upd in Hd as [(-> & -> & _)|[_ Hd]]; [| |done].
    + apply elem_of_cons in Hx as [->|Hx]; [done|]. by eapply Hh.
    + by eapply Hh.
  - rewrite (concat_upd _ _ _ _ Hc). cbn. f_equiv. by rewrite <- (concat_split _ _ _ Hc).
Qed.
End Buckets.

(** ** Searching a chain *)
Section Chains.
Context {alloc : Allocator}.
Implicit Types (map : sep_chain_map) (m : mem) (xs : list nat).

Definition matches map (hash : Z) (key : list Z) (x : nat) : bool :=
  from_option (fun n => (hash_val n =? hash) && key_eq (conf map) (node_key n) key) false (nodes map !! x).

(** A chain of a map whose nodes are in order, and a key to look for. *)
Record search map xs (key : list Z) X F m : Prop := Search {
  se_apart : apart (nodes map);
  se_nodes : map_Forall (node_ok (conf map)) (nodes map);
  se_chain : chain (next <$> nodes map) xs;
  se_nodup : NoDup xs;
  se_len : zlen xs < two64;
  se_key : valid_key (conf map) key;
  se_owns : owns m (owned (nodes map) ∪ X) F;
}.

Lemma chain_fuel map xs : chain (next <$> nodes map) xs -> NoDup xs -> (length xs < S (size (nodes map)))%nat.
Proof.
  intros Hc Hd. apply le_n_S, NoDup_size; [done|]. intros x Hx. apply list_elem_of_split in Hx as (l1 & l2 & ->).
  pose proof (Hc l1 x l2 eq_refl) as H. rewrite lookup_fmap in H. by destruct (nodes map !! x).
Qed.

(** The test of one node, with either equality. *)
Lemma wp_match map x n hash key m X F (Q : bool -> mem -> Prop) (test : llist_node -> M bool) : apart (nodes map) ->
  map_Forall (node_ok (conf map)) (nodes map) -> valid_key (conf map) key -> owns m (owned (nodes map) ∪ X) F ->
  test = (match custom_key_equality_proc (conf map) with
          | Some e => custom_match map e hash key
          | None => builtin_match map hash key
          end) -> nodes map !! x = Some n -> Q (matches map hash key x) m -> wp (test n) m Q.
Proof.
  intros Hap Hns Hk Ho -> Hn HQ. pose proof (Hns x n Hn) as Hok. unfold matches in HQ. rewrite Hn in HQ. cbn in HQ.
  destruct (custom_key_equality_proc (conf map)) as [e|] eqn:Ee.
  - by eapply (wp_custom_match (conf map) map x n e).
  - by eapply (wp_builtin_match (conf map) map x n).
Qed.

Lemma wp_sc_find map xs hash key m X F (Q : option nat * Z -> mem -> Prop) : search map xs key X F m ->
  (forall x n, x ∈ xs -> nodes map !! x = Some n -> matches map hash key x = true -> Q (Some x, 0) m) ->
  ((forall x, x ∈ xs -> matches map hash key x = false) -> Q (None, zlen xs) m) ->
  wp (sc_find_in_llist map (head xs) hash key) m Q.
Proof.
  intros [Hap Hns Hch Hd Hlen Hk Ho] HS HN. pose proof (chain_fuel map xs Hch Hd) as Hfuel. unfold sc_find_in_llist.
  destruct (custom_key_equality_proc (conf map)) as [e|] eqn:Ee.
  - apply wp_bind. unfold sc_find_in_llist_custom_eq.
    apply (wp_loop_list (fun ys t m' => m' = m /\ t = head ys /\ exists pre, xs = pre ++ ys /\
      forall x, x ∈ pre -> matches map hash key x = false) xs); [| | |done].
    + intros t ? (-> & -> & pre & -> & Hpre). apply wp_ret. eexists. split; [done|].
      rewrite app_nil_r in *. apply wp_bind. unfold sc_chain_length.
      apply (wp_loop_list (fun ys '(t, l) m' => m' = m /\ t = head ys /\ exists p, pre = p ++ ys /\ l = zlen p) pre); [| | |done].
      * intros [t l] ? (-> & -> & p & -> & ->). apply wp_ret. eexists. split; [done|]. apply wp_ret.
        rewrite app_nil_r in *. by apply HN.
      * intros x ys [t l] ? (-> & -> & p & -> & ->). apply chain_app in Hch as (n & Hn & En & _)%chain_node.
        apply wp_bind, (wp_node_at _ _ n); [done|]. apply wp_ret. split_and!; [done|done|].
        exists (p ++ [x]). rewrite <- app_assoc. split; [done|]. rewrite !zlen_app, zlen_cons in Hlen. zlen_facts.
        rewrite zlen_app, zlen_cons, zlen_nil. by sz.
      * split_and!; [done|done|]. by exists [].
    + intros x ys t ? (-> & -> & pre & -> & Hpre). apply chain_app in Hch as (n & Hn & En & _)%chain_node.
      apply wp_bind, (wp_node_at _ _ n); [done|]. apply wp_bind.
      apply (wp_match map x n hash key m X F); [done..|by rewrite Ee|done|].
      apply wp_ret. destruct (matches map hash key x) eqn:Em.
      * apply wp_ret. eapply HS; [set_solver|done|done].
      * split_and!; [done|done|]. exists (pre ++ [x]). rewrite <- app_assoc. split; [done|].
        intros z [?| ->%list_elem_of_singleton]%elem_of_app; [by apply Hpre|done].
    + split_and!; [done|done|]. exists []. split; [done|]. set_solver.
  - apply (wp_loop_list (fun ys '(t, met) m' => m' = m /\ t = head ys /\ exists pre, xs = pre ++ ys /\ met = zlen pre /\
      forall x, x ∈ pre -> matches map hash key x = false) xs); [| | |done].
    + intros [t met] ? (-> & -> & pre & -> & -> & Hpre). apply wp_ret. eexists. split; [done|].
      rewrite app_nil_r in *. by apply HN.
    + intros x ys [t met] ? (-> & -> & pre & -> & -> & Hpre). apply chain_app in Hch as (n & Hn & En & _)%chain_node.
      apply wp_bind, (wp_node_at _ _ n); [done|]. apply wp_bind.
      apply (wp_match map x n hash key m X F); [done..|by rewrite Ee|done|].
      apply wp_ret. destruct (matches map hash key x) eqn:Em.
      * eapply HS; [set_solver|done|done].
      * split_and!; [done|done|]. exists (pre ++ [x]). rewrite <- app_assoc. rewrite !zlen_app, zlen_cons in Hlen. zlen_facts.
        split; [done|]. rewrite zlen_app, zlen_cons, zlen_nil. split; [by sz|].
        intros z [?| ->%list_elem_of_singleton]%elem_of_app; [by apply Hpre|done].
    + split_and!; [done|done|]. exists []. split_and!; [done|done|set_solver].
Qed.

(** *** Taking a node out *)

(** The chain around a node that leaves. *)
Definition unlink (l1 l2 : list nat) (ns : gmap nat llist_node) : gmap nat llist_node :=
  from_option (fun p => alter (fun n => set_next n (head l2)) p ns) ns (last l1).

Lemma unlink_fmap {A} (f : llist_node -> A) l1 l2 ns : (forall n x, f (set_next n x) = f n) -> f <$> unlink l1 l2 ns = f <$> ns.
Proof.
  intros Hf. unfold unlink. destruct (last l1) as [p|]; [|done]. cbn. apply map_eq. intros a. rewrite !lookup_fmap.
  destruct (decide (a = p)) as [->|]; [rewrite lookup_alter_eq|by rewrite lookup_alter_ne].
  destruct (ns !! p); cbn; [by rewrite Hf|done].
Qed.

Lemma unlink_nexts l1 l2 ns : next <$> unlink l1 l2 ns =
  from_option (fun p => if decide (is_Some (ns !! p)) then <[p := head l2]> (next <$> ns) else next <$> ns) (next <$> ns) (last l1).
Proof.
  unfold unlink. destruct (last l1) as [p|]; [|done]. cbn. apply map_eq. intros a. rewrite lookup_fmap.
  case_decide as Hp.
  - destruct (decide (a = p)) as [->|Hne]; [|by rewrite lookup_alter_ne, lookup_insert_ne, lookup_fmap by done].
    rewrite lookup_alter_eq, lookup_insert_eq. by destruct Hp as [n ->].
  - destruct (decide (a = p)) as [->|Hne]; [|by rewrite lookup_alter_ne, lookup_fmap by done].
    rewrite lookup_alter_eq, lookup_fmap. destruct (ns !! p); [by destruct Hp|done].
Qed.

(** The heap and the list a node can be taken out of. *)
Record holding map es X F m : Prop := Holding {
  hd_apart : apart (nodes map);
  hd_nodes : map_Forall (node_ok (conf map)) (nodes map);
  hd_listed : listed map es;
  hd_nodup : NoDup es;
  hd_disj : X ## owned (nodes map);
  hd_owns : owns m (owned (nodes map) ∪ X) F;
}.

Lemma no_refs_delete (x : nat) (ns ns' : gmap nat llist_node) :
  no_refs <$> ns' = no_refs <$> ns -> no_refs <$> delete x ns' = no_refs <$> delete x ns.
Proof. intros E. by rewrite !fmap_delete, E. Qed.

Lemma same_frame_delete map map1 x : same_frame map map1 -> same_frame map (set_nodes map1 (delete x (nodes map1))).
Proof. unfold same_frame. intros ->. done. Qed.

(** A node of the list is destroyed. *)
Lemma wp_destroy_listed map e1 x e2 m X F (Q : sep_chain_map -> mem -> Prop) : holding map (e1 ++ x :: e2) X F m ->
  (forall map' m', same_frame map map' -> no_refs <$> nodes map' = no_refs <$> delete x (nodes map) ->
     holding map' (e1 ++ e2) X F m' -> Q map' m') ->
  wp (sc_destroy_llist_node map true x) m Q.
Proof.
  intros [Hap Hns Hl Hd HX Ho] HQ. destruct (listed_node _ _ _ _ Hl) as (n & Hn & _).
  pose proof (Hns x n Hn) as Hok. pose proof Hok as [Hk Hv _ Hnd].
  eapply (wp_sc_destroy_node map true x n (fun map1 => listed map1 (e1 ++ e2))); try done; try (by eapply storage_accounted).
  { intros m0. eapply wp_detach; [done..|]. done. }
  intros map1 m' Hf Enr Hl1 Ho'. destruct (NoDup_middle _ _ _ Hd) as (Hx1 & Hx2 & Hd').
  assert (no_refs <$> delete x (nodes map1) = no_refs <$> delete x (nodes map)) as Enr' by by apply no_refs_delete.
  destruct (no_refs_apart _ _ Enr') as [Hap' Eo'].
  apply HQ; [by apply same_frame_delete|done|]. split; cbn.
  - by apply Hap', apart_delete.
  - intros y n' Hy. destruct (fmap_lookup_same no_refs _ _ y n' (eq_sym Enr') Hy) as (n0 & Hn0 & E0).
    apply lookup_delete_Some in Hn0 as [_ Hn0]. pose proof (Hns y n0 Hn0) as Hok0.
    assert (conf map1 = conf map) as -> by (rewrite Hf; done).
    destruct Hok0 as [H1 H2 H3 H4]. apply (f_equal (fun n => (key_storage n, val_storage n, key_pair_accessor n, val_pair_accessor n))) in E0.
    cbn in E0. injection E0 as E1 E2 E3 E4. unfold node_key, blocks_of, buffers in *.
    split; unfold node_key, blocks_of, buffers; by rewrite <- ?E1, <- ?E2, <- ?E3, <- ?E4.
  - destruct Hl1 as [Hl1 Hr1]. split; [|done]. unfold refs. cbn. rewrite fmap_delete.
    apply dlist_delete; [|done]. set_solver.
  - done.
  - rewrite Eo', (owned_delete _ _ n Hap Hn). set_solver.
  - by rewrite Eo'.
Qed.

Lemma wp_unlink_and_destroy map l1 x l2 e1 e2 m X F (Q : option nat * sep_chain_map -> mem -> Prop) :
  holding map (e1 ++ x :: e2) X F m -> chain (next <$> nodes map) (l1 ++ x :: l2) -> NoDup (l1 ++ x :: l2) ->
  (forall map' m', same_frame map map' -> no_refs <$> nodes map' = no_refs <$> delete x (unlink l1 l2 (nodes map)) ->
     holding map' (e1 ++ e2) X F m' -> Q (head (l1 ++ l2), map') m') ->
  wp (sc_unlink_and_destroy map (head (l1 ++ x :: l2)) (last l1) x) m Q.
Proof.
  intros Hh Hc Hd HQ. unfold sc_unlink_and_destroy.
  pose proof (chain_app _ _ _ Hc) as (n & Hn & En & _)%chain_node. apply wp_bind, (wp_node_at _ _ n); [done|]. rewrite En.
  apply wp_bind. destruct (last l1) as [p|] eqn:El.
  - pose proof El as [l' ->]%last_Some. rewrite <- app_assoc in Hc. pose proof (chain_app _ _ _ Hc) as (np & Hnp & _)%chain_node.
    apply wp_bind, (wp_update_node _ _ np); [done|]. apply wp_ret. apply wp_bind.
    set (map1 := set_node map p (set_next np (head l2))).
    assert (holding map1 (e1 ++ x :: e2) X F m) as Hh1.
    { destruct Hh as [Hap Hns Hl Hde HX Ho].
      destruct (apart_blocks (nodes map) (nodes map1)) as [H1 H2]; [by apply (fmap_upd _ _ _ np)|].
      split; [by apply H1| | |done|by rewrite H2|by rewrite H2].
      - intros y ny Hy. cbn in Hy. apply lookup_insert_Some in Hy as [[<- <-]|[_ Hy]]; [|by apply Hns].
        destruct (Hns p np Hnp). by split.
      - destruct Hl as [Hl Hr]. split; [|done]. unfold refs. cbn. by rewrite (fmap_upd _ _ _ np). }
    apply (wp_destroy_listed map1 e1 x e2 m X F); [done|]. intros map' m' Hf Enr Hh'. apply wp_ret.
    rewrite (head_app_cons (l' ++ [p])) by by destruct l'. rewrite <- (head_app_cons _ l2 x) by by destruct l'.
    replace (head ((l' ++ [p]) ++ x :: l2)) with (head ((l' ++ [p]) ++ l2)) by by destruct l'.
    apply HQ; [by apply (same_frame_trans _ map1)| |done]. rewrite Enr. unfold unlink. rewrite El. cbn.
    do 2 f_equal. unfold alter, map_alter. apply map_eq. intros y.
    destruct (decide (y = p)) as [->|Hne].
    + rewrite lookup_insert_eq. symmetry. change (partial_alter _ p (nodes map)) with (alter (fun n => set_next n (head l2)) p (nodes map)).
      by rewrite lookup_alter_eq, Hnp.
    + rewrite lookup_insert_ne by done. symmetry.
      change (partial_alter _ p (nodes map)) with (alter (fun n => set_next n (head l2)) p (nodes map)).
      by rewrite lookup_alter_ne.
  - apply last_None in El as ->. cbn [app] in *. apply wp_ret. apply wp_bind.
    apply (wp_destroy_listed map e1 x e2 m X F); [done|]. intros map' m' Hf Enr Hh'. apply wp_ret. by apply HQ.
Qed.

Lemma wp_delete_matching map xs es hash key test m X F (Q : option nat * bool * sep_chain_map -> mem -> Prop) :
  search map xs key X F m -> holding map es X F m -> xs ⊆ es ->
  test = (match custom_key_equality_proc (conf map) with
          | Some e => custom_match map e hash key
          | None => builtin_match map hash key
          end) ->
  ((forall x, x ∈ xs -> matches map hash key x = false) -> Q (head xs, false, map) m) ->
  (forall l1 x l2 e1 e2 map' m', xs = l1 ++ x :: l2 -> es = e1 ++ x :: e2 -> matches map hash key x = true ->
     same_frame map map' -> no_refs <$> nodes map' = no_refs <$> delete x (unlink l1 l2 (nodes map)) ->
     holding map' (e1 ++ e2) X F m' -> Q (head (l1 ++ l2), true, map') m') ->
  wp (delete_matching map (head xs) test) m Q.
Proof.
  intros Hs Hh Hsub Et HN HS. pose proof Hs as [Hap Hns Hch Hd Hlen Hk Ho]. unfold delete_matching.
  apply (wp_loop_list (fun ys '(t, p) m' => m' = m /\ t = head ys /\ exists pre, xs = pre ++ ys /\ p = last pre /\
    forall x, x ∈ pre -> matches map hash key x = false) xs); [| | |by apply chain_fuel].
  - intros [t p] ? (-> & -> & pre & E & -> & Hpre). apply wp_ret. eexists. split; [done|].
    apply HN. by rewrite E, app_nil_r.
  - intros x ys [t p] ? (-> & -> & pre & E & -> & Hpre). pose proof Hch as Hch'. rewrite E in Hch'.
    apply chain_app in Hch' as (n & Hn & En & _)%chain_node.
    apply wp_bind, (wp_node_at _ _ n); [done|]. apply wp_bind.
    apply (wp_match map x n hash key m X F); [done..|].
    destruct (matches map hash key x) eqn:Em.
    + assert (x ∈ es) as Hx by (apply Hsub; rewrite E; set_solver). apply list_elem_of_split in Hx as (e1 & e2 & Ee).
      apply wp_bind. rewrite E. rewrite Ee in Hh.
      apply (wp_unlink_and_destroy map pre x ys e1 e2 m X F); [done|by rewrite <- E|by rewrite <- E|].
      intros map' m' Hf Enr Hh'. apply wp_ret. by eapply HS.
    + apply wp_ret. split_and!; [done|done|]. exists (pre ++ [x]). rewrite <- app_assoc. split_and!; [done|by rewrite last_snoc|].
      intros z [?| ->%list_elem_of_singleton]%elem_of_app; [by apply Hpre|done].
  - split_and!; [done|done|]. exists []. split_and!; [done|done|set_solver].
Qed.
End Chains.

(** ** The invariant of a map *)
Definition bucket_blocks (map : sep_chain_map) : gset nat :=
  match array_blk (bucket_arr map) with Some b => {[b]} | None => ∅ end.

(** The nodes, their list and their keys; [es] are the nodes, newest first. *)
Record core (map : sep_chain_map) (es : list nat) : Prop := Core {
  co_conf : conf_ok (conf map);
  co_nodup : NoDup es;
  co_dom : forall x, x ∈ es <-> is_Some (nodes map !! x);
  co_listed : listed map es;
  co_apart : apart (nodes map);
  co_nodes : map_Forall (node_ok (conf map)) (nodes map);
  co_distinct : forall x y nx ny, nodes map !! x = Some nx -> nodes map !! y = Some ny ->
    key_eq (conf map) (node_key nx) (node_key ny) = true -> x = y;
  co_count : elem_count map = zlen es /\ zlen es <= ccol_max_elem_count;
}.

(** The size of the array, its block and the limits that go with it. *)
Record sized (map : sep_chain_map) : Prop := Sized {
  sz_size : is_buckets (bucket_arr_size map);
  sz_up : elem_count_to_scale_up map = bucket_arr_size map + bucket_arr_size map `div` 2 + 1;
  sz_down : elem_count_to_scale_down map = (bucket_arr_size map + 1) `div` 8;
  sz_inline : array_blk (bucket_arr map) = None -> bucket_arr_size map = inline_buckets (conf map);
  sz_apart : bucket_blocks map ## owned (nodes map);
}.

Definition hashed_as (secret : chmap_hash_secret) (map : sep_chain_map) (keyed : bool) (x : nat) : Prop :=
  exists n, nodes map !! x = Some n /\ hash_val n = key_hash secret (conf map) keyed (node_key n).

Definition short (keyed : bool) (chains : list (list nat)) : Prop :=
  keyed = false -> Forall (fun c => zlen c <= SC_CHAIN_CAP) chains.

Record repr (secret : chmap_hash_secret) (map : sep_chain_map) (es : list nat) : Prop := Repr {
  re_core : core map es;
  re_sized : sized map;
  re_hashed : forall x, x ∈ es -> hashed_as secret map (sc_keyed map) x;
  re_buckets : exists chains, buckets (nodes map) (bucket_arr_size map) (heads (bucket_arr map)) es chains /\
    short (sc_keyed map) chains;
}.

(** The pairs, in the order of their insertion. *)
Definition pair_at (map : sep_chain_map) (x : nat) : list Z * list Z := from_option pair_of ([], []) (nodes map !! x).
Definition content (map : sep_chain_map) (es : list nat) : list (list Z * list Z) := reverse (pair_at map <$> es).

(** Only links and hashes differ. *)
Definition relinked (map map' : sep_chain_map) : Prop :=
  no_links <$> nodes map' = no_links <$> nodes map /\ all_elems map' = all_elems map /\ conf map' = conf map /\
  elem_count map' = elem_count map.

Lemma relinked_refl map : relinked map map.
Proof. done. Qed.
Lemma relinked_trans map1 map2 map3 : relinked map1 map2 -> relinked map2 map3 -> relinked map1 map3.
Proof. intros (E1 & E2 & E3 & E4) (E1' & E2' & E3' & E4'). split_and!; congruence. Qed.

Lemma no_links_apart ns ns' : no_links <$> ns' = no_links <$> ns -> (apart ns -> apart ns') /\ owned ns' = owned ns.
Proof. intros E. apply apart_blocks. by apply (fmap_through no_links). Qed.

Lemma relinked_node map map' x n' : relinked map map' -> nodes map' !! x = Some n' ->
  exists n, nodes map !! x = Some n /\ no_links n' = no_links n.
Proof.
  intros (E & _) Hn. destruct (fmap_lookup_same no_links _ _ x n' (eq_sym E) Hn) as (n & Hn0 & E0). by exists n.
Qed.

Lemma no_links_same n n' : no_links n' = no_links n ->
  node_key n' = node_key n /\ pair_of n' = pair_of n /\ prev n' = prev n /\ next_ref n' = next_ref n /\
  (forall c x, node_ok c x n -> node_ok c x n').
Proof.
  intros E. apply (f_equal (fun n => (key_storage n, val_storage n, key_pair_accessor n, val_pair_accessor n, prev n, next_ref n))) in E.
  cbn in E. injection E as E1 E2 E3 E4 E5 E6. unfold pair_of, node_key, node_val. rewrite E1, E2.
  split_and!; [done..|]. intros c x [H1 H2 H3 H4]. unfold node_key, blocks_of, buffers in *.
  split; unfold node_key, blocks_of, buffers; by rewrite ?E1, ?E2, ?E3, ?E4.
Qed.

Lemma relinked_lookup map map' x : relinked map map' -> is_Some (nodes map' !! x) <-> is_Some (nodes map !! x).
Proof.
  intros (E & _). rewrite <- (fmap_is_Some no_links (nodes map !! x)), <- (fmap_is_Some no_links (nodes map' !! x)).
  by rewrite <- !lookup_fmap, E.
Qed.

Lemma relinked_pair map map' x : relinked map map' -> pair_at map' x = pair_at map x.
Proof.
  intros H. pose proof (relinked_lookup _ _ x H) as Hx. unfold pair_at. destruct (nodes map' !! x) as [n'|] eqn:Hn'.
  - destruct (relinked_node _ _ _ _ H Hn') as (n & -> & E). apply no_links_same in E as (_ & E & _). exact E.
  - destruct (nodes map !! x); [|done]. by destruct Hx as [_ [? Hx]].
Qed.

Lemma relinked_content map map' es : relinked map map' -> content map' es = content map es.
Proof. intros H. unfold content. f_equal. apply list_fmap_ext. intros i x _. by apply relinked_pair. Qed.

Lemma relinked_listed map map' es : relinked map map' -> listed map es -> listed map' es.
Proof.
  intros (E & Er & _) [Hl Hr]. split; [|by rewrite Er]. unfold refs.
  by rewrite (fmap_through no_links _ (nodes map) (nodes map')).
Qed.

Lemma relinked_core map map' es : relinked map map' -> core map es -> core map' es.
Proof.
  intros Hre [Hc Hd Hdom Hl Hap Hns Hdis Hcnt]. pose proof Hre as (E & Er & Ec & En).
  assert (forall x n', nodes map' !! x = Some n' -> exists n, nodes map !! x = Some n /\ no_links n' = no_links n) as Hnode.
  { intros x n'. by apply relinked_node. }
  split; rewrite ?Ec, ?En; try done.
  - intros x. rewrite Hdom. by rewrite (relinked_lookup _ _ x Hre).
  - by eapply relinked_listed.
  - by apply (no_links_apart _ _ E).
  - intros x n' Hn'. destruct (Hnode x n' Hn') as (n & Hn & E0). apply no_links_same in E0 as (_ & _ & _ & _ & Hok).
    apply Hok, Hns, Hn.
  - intros x y nx' ny' Hx Hy. destruct (Hnode x nx' Hx) as (nx & Hx0 & Ex), (Hnode y ny' Hy) as (ny & Hy0 & Ey).
    apply no_links_same in Ex as (-> & _), Ey as (-> & _). by apply Hdis.
Qed.

(** ** Linking nodes again *)
Section Relink.
Context {alloc : Allocator} (secret : chmap_hash_secret) (Hsecret : secret_ok secret).
Implicit Types (map : sep_chain_map) (m : mem) (es xs : list nat) (arr : list (option nat)) (chains : list (list nat)).

Lemma same_frame_node map a n : same_frame map (set_node map a n).
Proof. done. Qed.

Lemma relinked_set map a n n' : nodes map !! a = Some n -> no_links n' = no_links n -> relinked map (set_node map a n').
Proof. intros Hn E. split_and!; [|done..]. cbn. by apply (fmap_upd _ _ _ n). Qed.

(** A node goes to the front of its chain. *)
Lemma wp_link_front map arr size a n xs chains m (Q : sep_chain_map * list (option nat) -> mem -> Prop) :
  buckets (nodes map) size arr xs chains -> a ∉ xs -> nodes map !! a = Some n -> 0 <= home (nodes map) size a < size ->
  (forall c map' arr', zget chains (home (nodes map) size a) = Some c -> map' = set_node map a (set_next n (head c)) ->
     buckets (nodes map') size arr' (a :: xs) (<[Z.to_nat (home (nodes map) size a) := a :: c]> chains) -> Q (map', arr') m) ->
  wp (link_front map arr (home (nodes map) size a) a) m Q.
Proof.
  intros Hb Ha Hn Hi HQ. destruct (buckets_at _ _ _ _ _ _ Hb Hi) as (c & Hc & Hh & _). unfold link_front.
  rewrite Hh. cbn [ub]. apply wp_bind, wp_ret, wp_bind, (wp_update_node _ _ n); [done|].
  assert (zlen arr = size) as Hl by (rewrite (bk_heads _ _ _ _ _ Hb); rewrite zlen_fmap; by apply (bk_len _ _ _ _ _ Hb)).
  unfold zset. destruct (Z.leb_spec 0 (home (nodes map) size a)), (Z.ltb_spec (home (nodes map) size a) (zlen arr)); try lia.
  cbn [andb ub]. apply wp_bind, wp_ret, wp_ret. apply (HQ c); [done|done|]. apply buckets_push; [done..|lia|done].
Qed.

Lemma wp_hash_of_node map a n keyed m X F (Q : Z -> mem -> Prop) : conf_ok (conf map) -> apart (nodes map) ->
  nodes map !! a = Some n -> node_ok (conf map) a n -> owns m (owned (nodes map) ∪ X) F ->
  Q (key_hash secret (conf map) keyed (node_key n)) m -> wp (sc_hash_of_node secret map n keyed) m Q.
Proof.
  intros Hc Hap Hn Hok Ho HQ. unfold sc_hash_of_node. apply wp_bind. eapply wp_read_key; [done..|].
  unfold sc_hash. eapply wp_ub; [|exact HQ]. apply (sc_hash_key secret (conf map) Hsecret Hc). by apply no_valid in Hok.
Qed.

Lemma key_index map size n keyed : conf_ok (conf map) -> is_buckets size -> valid_key (conf map) (node_key n) ->
  0 <= hash_index_for (key_hash secret (conf map) keyed (node_key n)) size < size.
Proof. intros Hc Hs Hv. apply bucket_index; [done|]. by apply (sc_hash_key secret (conf map) Hsecret Hc). Qed.

(** The hash of a node changes, and the node goes to its new chain. *)
Lemma buckets_unhash map size arr xs chains a n hash : buckets (nodes map) size arr xs chains -> a ∉ xs ->
  nodes map !! a = Some n -> buckets (nodes (set_node map a (set_hash n hash))) size arr xs chains.
Proof.
  intros Hb Ha Hn. eapply buckets_ext; [|done]. intros x Hx. cbn. rewrite lookup_insert_ne; [done|set_solver].
Qed.

Lemma home_set map a n hash size : nodes map !! a = Some n ->
  home (nodes (set_node map a (set_hash n hash))) size a = hash_index_for hash size.
Proof. intros Hn. unfold home. cbn. by rewrite lookup_insert_eq. Qed.

(** *** The walk over all nodes, oldest first

    [e2] are in the new chains, [e1] as they were. *)
Record walking (map0 map : sep_chain_map) size arr es (e1 e2 : list nat) chains (keyed : bool) : Prop := Walking {
  wk_frame : same_frame map0 map;
  wk_relinked : relinked map0 map;
  wk_split : es = e1 ++ e2;
  wk_buckets : buckets (nodes map) size arr e2 chains;
  wk_done : forall x, x ∈ e2 -> hashed_as secret map keyed x;
  wk_rest : forall x, x ∈ e1 -> nodes map !! x = nodes map0 !! x;
}.

Lemma walking_start map size es keyed : 0 <= size ->
  walking map map size (no_chains size) es es [] (replicate (Z.to_nat size) []) keyed.
Proof.
  intros Hs. split; [apply same_frame_refl|done|by rewrite app_nil_r|by apply buckets_none|set_solver|done].
Qed.

(** What the walk knows of the next node. *)
Lemma walking_node map0 map size arr es e1 a e2 chains keyed : core map0 es ->
  walking map0 map size arr es (e1 ++ [a]) e2 chains keyed ->
  exists n n0, nodes map !! a = Some n /\ nodes map0 !! a = Some n0 /\ n = n0 /\ prev n = last e1 /\ (a ∉ e2) /\ core map es.
Proof.
  intros Hco [Hf Hre Hsp Hb Hd Hr]. pose proof (relinked_core _ _ _ Hre Hco) as Hco'.
  pose proof (co_listed _ _ Hco') as Hl. pose proof (co_nodup _ _ Hco) as Hnd. rewrite Hsp, <- app_assoc in Hl, Hnd.
  destruct (listed_node _ _ _ _ Hl) as (n & Hn & Ep & _). pose proof (Hr a ltac:(set_solver)) as Er.
  exists n, n. split_and!; [done|congruence|done|done| |done]. by apply NoDup_middle in Hnd as (_ & ? & _).
Qed.

(** One node more. *)
Lemma walking_step map0 map size arr es e1 a e2 chains keyed n hash c map' arr' : core map0 es ->
  walking map0 map size arr es (e1 ++ [a]) e2 chains keyed -> nodes map !! a = Some n ->
  hash = key_hash secret (conf map) keyed (node_key n) ->
  map' = set_node (set_node map a (set_hash n hash)) a (set_next (set_hash n hash) (head c)) ->
  buckets (nodes map') size arr' (a :: e2) (<[Z.to_nat (hash_index_for hash size) := a :: c]> chains) ->
  walking map0 map' size arr' es e1 (a :: e2) (<[Z.to_nat (hash_index_for hash size) := a :: c]> chains) keyed.
Proof.
  intros Hco Hw Hn Eh Em Hb'. pose proof (walking_node _ _ _ _ _ _ _ _ _ _ Hco Hw) as (n' & _ & Hn' & _ & _ & _ & Ha & _).
  destruct Hw as [Hf Hre Hsp Hb Hd Hr]. rewrite Hn in Hn'. injection Hn' as <-.
  assert (nodes map' = <[a := set_next (set_hash n hash) (head c)]> (nodes map)) as En by (rewrite Em; cbn; by rewrite insert_insert_eq).
  assert (conf map' = conf map) as Ec by by rewrite Em.
  split; [| | |done| |].
  - eapply same_frame_trans; [done|]. by rewrite Em.
  - eapply relinked_trans; [done|]. rewrite Em. split_and!; [|done..]. cbn. rewrite insert_insert_eq. by apply (fmap_upd _ _ _ n).
  - by rewrite Hsp, <- app_assoc.
  - intros x Hx. unfold hashed_as. rewrite En, Ec. destruct (decide (x = a)) as [->|Hne].
    + rewrite lookup_insert_eq. eexists. split; [done|]. cbn. done.
    + rewrite lookup_insert_ne by done. apply Hd. set_solver.
  - intros x Hx. rewrite En, lookup_insert_ne; [apply Hr; set_solver|].
    intros <-. rewrite Hsp, <- app_assoc in Hco. pose proof (co_nodup _ _ Hco) as Hnd.
    apply NoDup_middle in Hnd as (Hnd & _). set_solver.
Qed.

Lemma wp_rehash map0 map size arr es e1 a e2 chains keyed n m (Q : sep_chain_map * list (option nat) -> mem -> Prop) :
  core map0 es -> is_buckets size -> walking map0 map size arr es (e1 ++ [a]) e2 chains keyed -> nodes map !! a = Some n ->
  let hash := key_hash secret (conf map) keyed (node_key n) in
  (forall map' arr' chains', walking map0 map' size arr' es e1 (a :: e2) chains' keyed -> Q (map', arr') m) ->
  wp (rehash_node map arr size a hash) m Q.
Proof.
  intros Hco Hs Hw Hn hash HQ. pose proof (walking_node _ _ _ _ _ _ _ _ _ _ Hco Hw) as (n' & _ & Hn' & _ & _ & _ & Ha & Hco').
  unfold rehash_node. apply wp_bind, (wp_update_node _ _ n); [done|].
  rewrite <- (home_set map a n hash size Hn).
  eapply (wp_link_front _ arr size a (set_hash n hash) e2 chains); [|done|by cbn; rewrite lookup_insert_eq| |].
  - by apply buckets_unhash; [apply Hw| |].
  - rewrite home_set by done. apply key_index; [by apply co_conf in Hco'|done|]. by eapply no_valid, co_nodes.
  - intros c map' arr' Hc Em Hb'. rewrite home_set in Hb', Hc by done. eapply HQ.
    by apply (walking_step map0 map size arr es e1 a e2 chains keyed n hash c map' arr').
Qed.

Lemma es_fuel map es : core map es -> (length (reverse es) < S (base.size (nodes map)))%nat.
Proof.
  intros Hco. rewrite length_reverse. apply le_n_S, NoDup_size; [by eapply co_nodup|]. intros x Hx. by apply (co_dom _ _ Hco).
Qed.

Lemma relinked_owns map map' m X F : relinked map map' -> owns m (owned (nodes map) ∪ X) F -> owns m (owned (nodes map') ∪ X) F.
Proof. intros (E & _) Ho. by destruct (no_links_apart _ _ E) as [_ ->]. Qed.

Lemma reverse_cons_app (x : nat) ys e1 : x :: ys = reverse e1 -> e1 = reverse ys ++ [x].
Proof. intros E. rewrite <- (reverse_involutive e1), <- E. by rewrite reverse_cons. Qed.

Lemma walking_tail map0 map size arr es e1 e2 chains keyed : walking map0 map size arr es e1 e2 chains keyed -> conf map = conf map0.
Proof. intros [Hf _ _ _ _ _]. by rewrite Hf. Qed.

(** Every node gets its keyed hash. *)
Lemma wp_switch_walk map es size m X F (Q : sep_chain_map * list (option nat) -> mem -> Prop) : core map es -> is_buckets size ->
  owns m (owned (nodes map) ∪ X) F ->
  (forall map' arr chains, walking map map' size arr es [] es chains true -> Q (map', arr) m) ->
  wp (loop (S (base.size (nodes map))) (fun '(t, map, buckets) =>
    match t with
    | None => mret (inr (map, buckets))
    | Some a =>
        node ← node_at map a;
        hash ← sc_hash_of_node secret map node true;
        '(map, buckets) ← rehash_node map buckets size a hash;
        mret (inl (prev node, map, buckets))
    end) (dl_tail (all_elems map), map, no_chains size)) m Q.
Proof.
  intros Hco Hs Ho HQ. pose proof (buckets_range _ Hs).
  apply (wp_loop_list (fun ys '(t, map', arr) m' => m' = m /\ t = head ys /\ exists e2 chains,
    walking map map' size arr es (reverse ys) e2 chains true) (reverse es)); [| | |by eapply es_fuel].
  - intros [[t map'] arr] ? (-> & -> & e2 & chains & Hw). apply wp_ret. eexists. split; [done|].
    eapply HQ. pose proof (wk_split _ _ _ _ _ _ _ _ _ Hw) as Hsp. cbn in Hsp. rewrite Hsp in *. exact Hw.
  - intros a ys [[t map'] arr] ? (-> & -> & e2 & chains & Hw). rewrite reverse_cons in Hw.
    destruct (walking_node _ _ _ _ _ _ _ _ _ _ Hco Hw) as (n & _ & Hn & _ & _ & Ep & Ha & Hco').
    apply wp_bind, (wp_node_at _ _ n); [done|]. apply wp_bind.
    eapply (wp_hash_of_node map' a n true m X F); [by eapply co_conf|by eapply co_apart|done|by eapply co_nodes| |].
    { eapply relinked_owns; [by apply Hw|done]. }
    apply wp_bind. eapply (wp_rehash map map'); [done..|]. intros map2 arr2 chains2 Hw2. apply wp_ret.
    split_and!; [done| |by exists (a :: e2), chains2]. rewrite Ep. by rewrite last_reverse.
  - split_and!; [done| |].
    + destruct (co_listed _ _ Hco) as [_ ->]. cbn. by rewrite head_reverse.
    + rewrite reverse_involutive. do 2 eexists. apply walking_start. lia.
Qed.

Lemma frame_fields map map' : same_frame map map' ->
  elem_count map' = elem_count map /\ bucket_arr_size map' = bucket_arr_size map /\
  elem_count_to_scale_up map' = elem_count_to_scale_up map /\ elem_count_to_scale_down map' = elem_count_to_scale_down map /\
  bucket_arr map' = bucket_arr map /\ conf map' = conf map /\ hash_mode map' = hash_mode map.
Proof. intros ->. done. Qed.

(** Fields the links don't touch. *)
Lemma sized_same map map' : sized map -> relinked map map' -> bucket_arr_size map' = bucket_arr_size map ->
  elem_count_to_scale_up map' = elem_count_to_scale_up map -> elem_count_to_scale_down map' = elem_count_to_scale_down map ->
  array_blk (bucket_arr map') = array_blk (bucket_arr map) -> sized map'.
Proof.
  intros [H1 H2 H3 H4 H5] Hre E1 E2 E3 E4. pose proof Hre as (En & _ & Ec & _). destruct (no_links_apart _ _ En) as [_ Eo].
  unfold bucket_blocks in H5. split; unfold bucket_blocks; by rewrite ?E1, ?E2, ?E3, ?E4, ?Ec, ?Eo.
Qed.

Lemma wp_switch map es m X F (Q : sep_chain_map -> mem -> Prop) : core map es -> sized map ->
  owns m (owned (nodes map) ∪ X) F ->
  (forall map', repr secret map' es -> relinked map map' -> sc_keyed map' = true ->
     bucket_arr_size map' = bucket_arr_size map -> array_blk (bucket_arr map') = array_blk (bucket_arr map) -> Q map' m) ->
  wp (sc_switch_to_keyed secret map) m Q.
Proof.
  intros Hco Hsz Ho HQ. unfold sc_switch_to_keyed. set (map0 := set_mode map CHMAP_HASH_KEYED).
  assert (relinked map map0) as Hre0 by done. pose proof (relinked_core _ _ _ Hre0 Hco) as Hco0.
  apply wp_bind. eapply (wp_switch_walk map0 es (bucket_arr_size map) m X F); [done|by apply Hsz|done|].
  intros map1 arr chains Hw. apply wp_ret.
  set (map' := sc_window_restart _). pose proof (wk_relinked _ _ _ _ _ _ _ _ _ Hw) as Hre1.
  destruct (frame_fields _ _ (wk_frame _ _ _ _ _ _ _ _ _ Hw)) as (E1 & E2 & E3 & E4 & E5 & E6 & E7).
  assert (relinked map map') as Hre by by apply (relinked_trans _ map0), (relinked_trans _ map1).
  assert (sc_keyed map' = true) as Ek by (unfold sc_keyed, map'; cbn; by rewrite E7).
  apply HQ; [|done|done|done|cbn; by rewrite E5].
  split; [by eapply relinked_core| | |].
  - eapply sized_same; [done|done|done|done|done|]. cbn. by rewrite E5.
  - intros x Hx. rewrite Ek. apply (wk_done _ _ _ _ _ _ _ _ _ Hw x Hx).
  - exists chains. split; [apply (wk_buckets _ _ _ _ _ _ _ _ _ Hw)|]. intros E. congruence.
Qed.

(** *** The attempt at the fast hash *)
Lemma wp_chain_within_cap map c m (Q : Z -> mem -> Prop) : chain (next <$> nodes map) c ->
  Q (Z.min (zlen c) (SC_CHAIN_CAP - 1)) m -> wp (chain_within_cap map (head c)) m Q.
Proof.
  intros Hc HQ. unfold chain_within_cap, SC_CHAIN_CAP in *. change (Z.to_nat 20) with 20%nat.
  apply (wp_loop_list (fun ys '(t, k) m' => m' = m /\ exists pre rest, c = pre ++ ys ++ rest /\ take 19 c = pre ++ ys /\
    t = head (ys ++ rest) /\ k = zlen pre /\ zlen pre < 19) (take 19 c)).
  - intros [t k] ? (-> & pre & rest & E & Et & -> & -> & Hk). cbn [app] in *. rewrite app_nil_r in Et.
    assert (rest = []) as ->.
    { assert (length (take 19 c) = length pre) as El by by rewrite Et. rewrite length_take in El. unfold zlen in Hk.
      apply (f_equal length) in E. rewrite length_app in E. apply length_zero_iff_nil. lia. }
    apply wp_ret. eexists. split; [done|]. rewrite app_nil_r in E. subst pre. by rewrite Z.min_l in HQ by lia.
  - intros x ys [t k] ? (-> & pre & rest & E & Et & -> & -> & Hk). cbn [app head hd_error].
    zlen_facts. sz. destruct (Z.eqb_spec (zlen pre + 1) (20 - 1)) as [Ek|Hne].
    + apply wp_ret. replace (zlen pre + 1) with (Z.min (zlen c) (20 - 1)); [done|].
      rewrite E, zlen_app, <- app_comm_cons, zlen_cons. zlen_facts. lia.
    + rewrite E in Hc. apply chain_app in Hc. cbn [app] in Hc. apply chain_node in Hc as (n & Hn & En & _).
      apply wp_bind, (wp_node_at _ _ n); [done|]. apply wp_ret. split; [done|]. exists (pre ++ [x]), rest.
      rewrite <- !app_assoc. split_and!; [done|done|done|by rewrite zlen_app|rewrite zlen_app, zlen_cons, zlen_nil; lia].
  - split; [done|]. exists [], (drop 19 c). cbn [app]. rewrite take_drop. split_and!; done.
  - rewrite length_take. lia.
Qed.

Lemma wp_fast_links map es size m X F (Q : option nat * Z * sep_chain_map * list (option nat) -> mem -> Prop) :
  core map es -> is_buckets size -> owns m (owned (nodes map) ∪ X) F ->
  let limit := 2 * zlen es + SC_ATTEMPT_SLACK + SC_CHAIN_CAP - 1 in
  (forall work map' arr chains, walking map map' size arr es [] es chains false ->
     Forall (fun c => zlen c <= SC_CHAIN_CAP) chains -> 0 <= work <= limit -> Q (None, wrap work, map', arr) m) ->
  (forall a e1 e2 work map' arr, es = e1 ++ a :: e2 -> relinked map map' -> same_frame map map' ->
     (forall x, x ∈ e1 -> nodes map' !! x = nodes map !! x) -> 0 <= work <= limit -> Q (Some a, wrap work, map', arr) m) ->
  wp (fast_links secret map (no_chains size) size) m Q.
Proof.
  intros Hco Hs Ho limit HN HS. pose proof (buckets_range _ Hs). destruct (co_count _ _ Hco) as [En Hmax].
  unfold fast_links, limit, SC_ATTEMPT_SLACK, SC_CHAIN_CAP, ccol_max_elem_count in *. rewrite En. clear limit.
  pose proof (zlen_nonneg es). sz. cbv zeta.
  apply (wp_loop_list (fun ys '(t, walked, work, map', arr) m' => m' = m /\ t = head ys /\ exists e2 chains,
    walking map map' size arr es (reverse ys) e2 chains false /\ Forall (fun c => zlen c <= 20) chains /\
    0 <= walked <= zlen es + 64 /\ work = wrap (zlen e2 + walked)) (reverse es)); [| | |by eapply es_fuel].
  - intros [[[[t walked] work] map'] arr] ? (-> & -> & e2 & chains & Hw & Hsh & Hwk & ->). apply wp_ret. eexists. split; [done|].
    pose proof (wk_split _ _ _ _ _ _ _ _ _ Hw) as Hsp. cbn in Hsp. subst e2. eapply HN; [exact Hw|done|lia].
  - intros a ys [[[[t walked] work] map'] arr] ? (-> & -> & e2 & chains & Hw & Hsh & Hwk & ->). rewrite reverse_cons in Hw.
    destruct (walking_node _ _ _ _ _ _ _ _ _ _ Hco Hw) as (n & _ & Hn & _ & _ & Ep & Ha & Hco').
    apply wp_bind, (wp_node_at _ _ n); [done|]. apply wp_bind.
    eapply (wp_hash_of_node map' a n false m X F); [by eapply co_conf|by eapply co_apart|done|by eapply co_nodes| |].
    { eapply relinked_owns; [by apply Hw|done]. }
    set (hash := key_hash _ _ _ _). apply wp_bind, (wp_update_node _ _ n); [done|]. set (map1 := set_node map' a (set_hash n hash)).
    assert (home (nodes map1) size a = hash_index_for hash size) as Eh by by apply home_set.
    assert (0 <= home (nodes map1) size a < size) as Hi.
    { rewrite Eh. apply key_index; [by apply co_conf in Hco'|done|]. by eapply no_valid, co_nodes. }
    assert (buckets (nodes map1) size arr e2 chains) as Hb1 by (apply buckets_unhash; [by apply Hw|done|done]).
    rewrite <- Eh. destruct (buckets_at _ _ _ _ _ _ Hb1 Hi) as (c & Hc & Hhd & Hch & Hsub). rewrite Hhd. cbn [ub].
    apply wp_bind, wp_ret, wp_bind, wp_chain_within_cap; [done|]. unfold SC_CHAIN_CAP. set (k := Z.min (zlen c) (20 - 1)).
    assert (0 <= k <= 19) as Hk by (unfold k; zlen_facts; lia).
    assert (zlen e2 + 1 <= zlen es) as He2.
    { rewrite (wk_split _ _ _ _ _ _ _ _ _ Hw). rewrite !zlen_app, zlen_cons, zlen_nil. zlen_facts. lia. }
    assert (wrap (zlen e2 + walked) ⊕ wrap (1 + k) = wrap (zlen e2 + 1 + (walked + k))) as ->.
    { rewrite wrap_add_l, wrap_add_r. f_equal. lia. }
    pose proof (zlen_nonneg e2). rewrite !(wrap_small (walked + k)) by sz_in_range. cbv zeta. rewrite Z.gtb_ltb.
    destruct ((k =? 20 - 1) || (zlen es + 64 <? walked + k)) eqn:Estop.
    + apply wp_ret. apply (HS a (reverse ys) e2).
      * rewrite (wk_split _ _ _ _ _ _ _ _ _ Hw). by rewrite <- app_assoc.
      * eapply relinked_trans; [by apply Hw|]. by apply (relinked_set _ _ n).
      * eapply same_frame_trans; [by apply Hw|done].
      * intros x Hx. cbn. rewrite lookup_insert_ne; [apply (wk_rest _ _ _ _ _ _ _ _ _ Hw); set_solver|].
        intros <-. pose proof (co_nodup _ _ Hco) as Hnd. rewrite (wk_split _ _ _ _ _ _ _ _ _ Hw), <- app_assoc in Hnd.
        by apply NoDup_middle in Hnd as [? _].
      * lia.
    + apply orb_false_iff in Estop as [Hk19%Z.eqb_neq Hwk'%Z.ltb_ge].
      apply wp_bind. eapply (wp_link_front map1 arr size a (set_hash n hash) e2 chains); [done|done|unfold map1; cbn; by rewrite lookup_insert_eq|done|].
      intros c' map2 arr2 Hc' Em Hb2. rewrite Hc in Hc'. injection Hc' as <-. rewrite Eh in *.
      pose proof (walking_step map map' size arr es (reverse ys) a e2 chains false n hash c map2 arr2 Hco Hw Hn eq_refl Em Hb2) as Hw2.
      apply wp_ret. split_and!; [done|by rewrite Ep, last_reverse|]. exists (a :: e2). eexists. split; [exact Hw2|].
      split_and!; [|lia|lia|rewrite zlen_cons; f_equal; lia]. apply Forall_insert; [done|]. rewrite zlen_cons. unfold k in *. zlen_facts. lia.
  - split_and!; [done| |].
    + destruct (co_listed _ _ Hco) as [_ ->]. cbn. by rewrite head_reverse.
    + rewrite reverse_involutive. do 2 eexists. split_and!; [apply walking_start; lia| |lia|lia|done].
      apply Forall_replicate. apply Z.leb_le; reflexivity.
Qed.

(** The keyed hash again: the nodes after the one the attempt stopped at
    still have it. *)
Lemma wp_keyed_links map0 map es size a e1 e2 m X F (Q : sep_chain_map * list (option nat) -> mem -> Prop) :
  core map es -> is_buckets size -> owns m (owned (nodes map) ∪ X) F -> es = e1 ++ a :: e2 ->
  (forall x, x ∈ e1 -> hashed_as secret map0 true x) -> conf map0 = conf map -> (forall x, x ∈ e1 -> nodes map !! x = nodes map0 !! x) ->
  (forall map' arr chains, walking map map' size arr es [] es chains true -> Q (map', arr) m) ->
  wp (keyed_links secret map size a) m Q.
Proof.
  intros Hco Hs Ho Ees Hkeyed Ecf Hsame HQ. pose proof (buckets_range _ Hs). unfold keyed_links.
  apply (wp_loop_list (fun ys '(t, flag, map', arr) m' => m' = m /\ t = head ys /\ exists q chains,
    walking map map' size arr es (reverse ys) q chains true /\ (flag = false -> a ∈ q)) (reverse es)); [| | |by eapply es_fuel].
  - intros [[[t flag] map'] arr] ? (-> & -> & q & chains & Hw & Hf). apply wp_ret. eexists. split; [done|].
    pose proof (wk_split _ _ _ _ _ _ _ _ _ Hw) as Hsp. cbn in Hsp. subst q. eapply HQ. exact Hw.
  - intros x ys [[[t flag] map'] arr] ? (-> & -> & q & chains & Hw & Hf). rewrite reverse_cons in Hw.
    destruct (walking_node _ _ _ _ _ _ _ _ _ _ Hco Hw) as (n & _ & Hn & Hn0 & <- & Ep & Hx & Hco').
    apply wp_bind, (wp_node_at _ _ n); [done|]. apply wp_bind.
    eapply (wp_mono _ _ (fun h m' => m' = m /\ h = key_hash secret (conf map') true (node_key n))).
    { destruct flag.
      - eapply (wp_hash_of_node map' x n true m X F); [by eapply co_conf|by eapply co_apart|done|by eapply co_nodes| |done].
        eapply relinked_owns; [by apply Hw|done].
      - apply wp_ret. split; [done|]. specialize (Hf eq_refl).
        assert (x ∈ e1) as Hx1.
        { pose proof (wk_split _ _ _ _ _ _ _ _ _ Hw) as Hsp. rewrite <- app_assoc in Hsp. cbn [app] in Hsp.
          rewrite Ees in Hsp. pose proof (co_nodup _ _ Hco) as Hnd. rewrite Ees, Hsp in Hnd.
          destruct (split_app (reverse ys) (x :: q) e1 e2 a (eq_sym Hsp)) as [(k & E1 & E2)|(k & E1 & E2)].
          - exfalso. rewrite E1 in Hnd. apply NoDup_app in Hnd as (_ & Hnd & _). apply (Hnd a); set_solver.
          - rewrite E2. destruct k as [|z k]; cbn in E1; injection E1 as E1 E3; [|set_solver].
            exfalso. subst. by apply Hx in Hf. }
        destruct (Hkeyed x Hx1) as (n1 & Hn1 & Eh). rewrite <- Hsame, Hn0 in Hn1 by done. injection Hn1 as <-.
        rewrite Eh, Ecf. by rewrite (walking_tail _ _ _ _ _ _ _ _ _ Hw). }
    intros h ? [-> ->]. cbv zeta. apply wp_bind. eapply (wp_rehash map map'); [done..|].
    intros map2 arr2 chains2 Hw2. apply wp_ret. split_and!; [done|by rewrite Ep, last_reverse|].
    exists (x :: q), chains2. split; [done|]. case_bool_decide; [intros _; set_solver|]. intros E. set_solver.
  - split_and!; [done| |].
    + destruct (co_listed _ _ Hco) as [_ ->]. cbn. by rewrite head_reverse.
    + rewrite reverse_involutive. do 2 eexists. split; [apply walking_start; lia|done].
Qed.
End Relink.
