(* ===== verification/CScResize.v ===== *)
(** * Resizing the array of buckets

    The attempt at the fast hash and the merge or split of the old chains,
    and [sc_scale]: every pair keeps its place in the list of all nodes, and
    in the fast mode no chain of the new array is longer than the cap. *)
From S2P Require Import Prelude Memory Values Common CHash COaMap CLinks CScMap CScRefine CScRelink.
Import COaMap(chmap_hash_mode(..), cmap_pair(..), pair_ptr, pair_size, minimum_allowed_bucket_array_size,
  UINT16_MAX, CHMAP_WINDOW_START, _ccol_max_power_of_two_size_t).
Import CScMap.

(** ** Homes in arrays of different sizes *)

(** The top bits of the hash: the homes in a smaller array are those in the
    larger one divided by the ratio. *)
Lemma hash_index_ratio h k j : 0 <= j <= k -> k <= 63 -> is_word h ->
  hash_index_for h (2 ^ j) = hash_index_for h (2 ^ k) `div` 2 ^ (k - j).
Proof.
  intros Hj Hk Hh. unfold hash_index_for. rewrite !Z.log2_pow2 by lia.
  rewrite <- Z.shiftr_div_pow2 by lia. rewrite Z.shiftr_shiftr by lia. f_equal. lia.
Qed.

Lemma NoDup_length_le (l k : list nat) : NoDup l -> l ⊆ k -> zlen l <= zlen k.
Proof. intros Hd Hs. unfold zlen. apply inj_le, submseteq_length, NoDup_submseteq; [done|exact Hs]. Qed.

(** ** The longest merged chain *)

(** [cs] are the old chains, of which [r] go to one new bucket each. *)
Definition merging (cs : list (list nat)) (r i : Z) : list nat :=
  concat (slice cs (r * (i `div` r)) (i + 1 - r * (i `div` r))).

Definition tally (cs : list (list nat)) (r i merged longest : Z) : Prop :=
  (0 < i -> merged = zlen (merging cs r (i - 1))) /\ forall j, 0 <= j < i -> zlen (merging cs r j) <= longest.

Lemma slice_snoc {A} (l : list A) i n x : 0 <= i -> 0 <= n -> zget l (i + n) = Some x -> slice l i (n + 1) = slice l i n ++ [x].
Proof.
  intros Hi Hn Hx. pose proof (zget_Some_lt _ _ _ Hx) as Hl. unfold zget in Hx. destruct (Z.leb_spec 0 (i + n)); [|done].
  unfold slice, ztake, zdrop. replace (Z.to_nat (n + 1)) with (S (Z.to_nat n)) by lia.
  apply take_S_r. rewrite lookup_drop. by replace (Z.to_nat i + Z.to_nat n)%nat with (Z.to_nat (i + n)) by lia.
Qed.

Lemma merging_step cs r i c : 0 < r -> 0 <= i -> zget cs i = Some c ->
  merging cs r i = (if i `mod` r =? 0 then [] else merging cs r (i - 1)) ++ c.
Proof.
  intros Hr Hi Hc. unfold merging. pose proof (Z.div_mod i r ltac:(lia)). pose proof (Z.mod_pos_bound i r ltac:(lia)).
  assert (0 <= r * (i `div` r)) by (apply Z.mul_nonneg_nonneg; [lia|by apply Z.div_pos]).
  set (q := i `div` r) in *. destruct (Z.eqb_spec (i `mod` r) 0) as [E|E].
  - replace (i + 1 - r * q) with (0 + 1) by lia. rewrite (slice_snoc _ _ _ c) by (rewrite ?Z.add_0_r; try lia; by replace (r * q) with i by lia).
    rewrite concat_app. cbn. by rewrite app_nil_r.
  - assert ((i - 1) `div` r = q) as ->.
    { symmetry. apply (Z.div_unique_pos _ _ _ (i `mod` r - 1)); lia. }
    replace (i + 1 - r * q) with (i - r * q + 1) by lia.
    rewrite (slice_snoc _ _ _ c); [|lia|lia|by replace (r * q + (i - r * q)) with i by lia].
    rewrite concat_app. cbn. rewrite app_nil_r. by replace (i - 1 + 1 - r * q) with (i - r * q) by lia.
Qed.

Lemma tally_step cs r i merged longest c : 0 < r -> 0 <= i -> zget cs i = Some c -> tally cs r i merged longest ->
  let merged' := (if i `mod` r =? 0 then 0 else merged) + zlen c in
  tally cs r (i + 1) merged' (Z.max merged' longest).
Proof.
  intros Hr Hi Hc [Hm Hl] merged'.
  assert (merged' = zlen (merging cs r i)) as E.
  { rewrite (merging_step _ _ _ c), zlen_app by done. unfold merged'. destruct (Z.eqb_spec (i `mod` r) 0); [done|].
    rewrite Hm; [done|]. destruct (decide (i = 0)) as [->|]; [|lia]. rewrite Z.mod_0_l in n by lia. done. }
  split.
  - intros _. by replace (i + 1 - 1) with i by lia.
  - intros j Hj. destruct (decide (j = i)) as [->|]; [lia|]. specialize (Hl j ltac:(lia)). lia.
Qed.

Lemma concat_slice_sub (cs : list (list nat)) i n x c k : 0 <= i -> i <= k < i + n -> zget cs k = Some c -> x ∈ c -> x ∈ concat (slice cs i n).
Proof.
  intros Hi Hk Hc Hx. apply elem_concat. exists c. split; [|done]. unfold zget in Hc. destruct (Z.leb_spec 0 k); [|done].
  unfold slice, ztake, zdrop. apply list_elem_of_lookup. exists (Z.to_nat k - Z.to_nat i)%nat.
  rewrite lookup_take_lt by lia. rewrite lookup_drop. by replace (Z.to_nat i + (Z.to_nat k - Z.to_nat i))%nat with (Z.to_nat k) by lia.
Qed.

(** A chain of the smaller array is made of the chains that merge into it. *)
Lemma merged_short ns ns' k j hs hs' xs cs cs' longest : 0 <= j <= k -> k <= 63 -> NoDup xs ->
  buckets ns (2 ^ k) hs xs cs -> buckets ns' (2 ^ j) hs' xs cs' ->
  (forall x, x ∈ xs -> is_word (from_option hash_val 0 (ns !! x)) /\ hash_val <$> ns' !! x = hash_val <$> ns !! x) ->
  (exists merged, tally cs (2 ^ (k - j)) (2 ^ k) merged longest) ->
  Forall (fun c => zlen c <= longest) cs'.
Proof.
  intros Hj Hk Hd Hb Hb' Hh (merged & _ & Hl).
  apply Forall_forall. intros c Hc. apply elem_zget in Hc as (g & Hg & Hc). rewrite (bk_len _ _ _ _ _ Hb') in Hg.
  set (r := 2 ^ (k - j)). assert (0 < r) by (apply Z.pow_pos_nonneg; lia).
  assert (2 ^ k = r * 2 ^ j) as Ek by (unfold r; rewrite <- Z.pow_add_r by lia; f_equal; lia).
  assert ((g * r + r - 1) `div` r = g) as Eg by (symmetry; apply (Z.div_unique_pos _ _ _ (r - 1)); lia).
  etrans; [|apply (Hl (g * r + r - 1)); fold r; nia]. fold r. unfold merging. rewrite Eg.
  apply NoDup_length_le; [by eapply buckets_nodup|]. intros x Hx.
  assert (x ∈ xs) as Hxs.
  { rewrite <- (bk_all _ _ _ _ _ Hb'). apply elem_concat. exists c. split; [by eapply zget_elem|done]. }
  destruct (buckets_home _ _ _ _ _ _ Hb Hxs) as (d & Hd' & Hxd).
  eapply (concat_slice_sub _ _ _ _ d (home ns (2 ^ k) x)); [nia| |done|done].
  pose proof (bk_home _ _ _ _ _ Hb' g c x Hc Hx) as E. destruct (Hh x Hxs) as [Hw Eh]. unfold home in *.
  assert (from_option hash_val 0 (ns' !! x) = from_option hash_val 0 (ns !! x)) as Eh'.
  { destruct (ns' !! x), (ns !! x); cbn in *; congruence. }
  rewrite Eh', (hash_index_ratio _ k j) in E by done. fold r in E.
  pose proof (Z.div_mod (hash_index_for (from_option hash_val 0 (ns !! x)) (2 ^ k)) r ltac:(lia)).
  pose proof (Z.mod_pos_bound (hash_index_for (from_option hash_val 0 (ns !! x)) (2 ^ k)) r ltac:(lia)). nia.
Qed.

(** A chain of the larger array is part of one of the smaller. *)
Lemma split_short ns ns' k j hs hs' xs cs cs' cap : 0 <= j <= k -> k <= 63 -> NoDup xs ->
  buckets ns (2 ^ j) hs xs cs -> buckets ns' (2 ^ k) hs' xs cs' ->
  (forall x, x ∈ xs -> is_word (from_option hash_val 0 (ns !! x)) /\ hash_val <$> ns' !! x = hash_val <$> ns !! x) ->
  0 <= cap -> Forall (fun c => zlen c <= cap) cs -> Forall (fun c => zlen c <= cap) cs'.
Proof.
  intros Hj Hk Hd Hb Hb' Hh Hcap Hs. apply Forall_forall. intros c Hc. apply elem_zget in Hc as (g & Hg & Hc).
  rewrite (bk_len _ _ _ _ _ Hb') in Hg. destruct c as [|x0 c'] eqn:Ec; [done|]. rewrite <- Ec in *.
  assert (forall x, x ∈ c -> x ∈ xs) as Hin.
  { intros x Hx. rewrite <- (bk_all _ _ _ _ _ Hb'). apply elem_concat. exists c. split; [by eapply zget_elem|done]. }
  assert (forall x, x ∈ c -> home ns (2 ^ j) x = g `div` 2 ^ (k - j)) as Hhome.
  { intros x Hx. pose proof (bk_home _ _ _ _ _ Hb' g c x Hc Hx) as E. destruct (Hh x (Hin x Hx)) as [Hw Eh].
    unfold home in *. rewrite <- E, (hash_index_ratio _ k j) by done. do 2 f_equal.
    destruct (ns' !! x), (ns !! x); cbn in *; congruence. }
  assert (x0 ∈ c) as Hx0 by (rewrite Ec; set_solver).
  destruct (buckets_home _ _ _ _ _ _ Hb (Hin x0 Hx0)) as (d & Hd' & _). rewrite (Hhome x0 Hx0) in Hd'.
  rewrite Forall_forall in Hs. etrans; [|apply (Hs d); by eapply zget_elem].
  apply NoDup_length_le; [by eapply buckets_nodup|]. intros x Hx.
  destruct (buckets_home _ _ _ _ _ _ Hb (Hin x Hx)) as (d' & Hd'' & Hxd). rewrite (Hhome x Hx), Hd' in Hd''. by injection Hd'' as <-.
Qed.

(** ** The loops *)
Section Resize.
Context {alloc : Allocator} (secret : chmap_hash_secret) (Hsecret : secret_ok secret).
Implicit Types (map : sep_chain_map) (m : mem) (es xs : list nat) (arr : list (option nat)) (chains : list (list nat)).

(** All nodes are in the chains of [arr]. *)
Record rebuilt map map' size arr es chains (keyed : bool) : Prop := Rebuilt {
  rb_frame : same_frame map map';
  rb_relinked : relinked map map';
  rb_hashed : forall x, x ∈ es -> hashed_as secret map' keyed x;
  rb_buckets : buckets (nodes map') size arr es chains;
}.

Lemma walking_rebuilt map map' size arr es chains keyed :
  walking secret map map' size arr es [] es chains keyed -> rebuilt map map' size arr es chains keyed.
Proof. intros [H1 H2 _ H4 H5 _]. by split. Qed.

Lemma wp_relink_fast_attempt map es size m X F (Q : bool * sep_chain_map * list (option nat) -> mem -> Prop) :
  core map es -> is_buckets size -> owns m (owned (nodes map) ∪ X) F ->
  (forall x, x ∈ es -> hashed_as secret map true x) ->
  (forall fast map' arr chains, rebuilt map map' size arr es chains (negb fast) -> short (negb fast) chains ->
     Q (fast, map', arr) m) ->
  wp (sc_relink_fast_attempt secret map (no_chains size) size) m Q.
Proof.
  intros Hco Hs Ho Hk HQ. unfold sc_relink_fast_attempt. apply wp_bind.
  eapply (wp_fast_links secret Hsecret map es size m X F); [done..| |].
  - intros work map' arr chains Hw Hsh _. apply wp_ret. eapply (HQ true); [by apply walking_rebuilt|by intros _].
  - intros a e1 e2 work map1 arr1 Ees Hre Hf Hsame _. apply wp_bind.
    eapply (wp_keyed_links secret Hsecret map map1 es size a e1 e2 m X F); [by eapply relinked_core|done| |done| |symmetry; apply Hre|done|].
    { by eapply relinked_owns. }
    { intros x Hx. apply Hk. rewrite Ees. set_solver. }
    intros map' arr chains [H1 H2 _ H4 H5 _]. apply wp_ret. apply (HQ false _ _ chains); [|done].
    split; [by eapply same_frame_trans|by eapply relinked_trans|done|done].
Qed.

(** *** Merging and splitting the old chains *)
Definition no_next (n : llist_node) : llist_node := set_next n None.

(** [xs] are in the new chains; the others are as they were. *)
Record linking map0 map size arr xs chains : Prop := Linking {
  lk_frame : same_frame map0 map;
  lk_root : all_elems map = all_elems map0;
  lk_nodes : no_next <$> nodes map = no_next <$> nodes map0;
  lk_buckets : buckets (nodes map) size arr xs chains;
  lk_rest : forall x, x ∉ xs -> nodes map !! x = nodes map0 !! x;
}.

Lemma linking_hash map0 map size arr xs chains x : linking map0 map size arr xs chains ->
  hash_val <$> nodes map !! x = hash_val <$> nodes map0 !! x.
Proof.
  intros Hl. assert (hash_val <$> nodes map = hash_val <$> nodes map0) as E by by apply (fmap_through no_next), Hl.
  apply (f_equal (fun ns => ns !! x)) in E. by rewrite !lookup_fmap in E.
Qed.

Lemma linking_home map0 map size arr xs chains k x : linking map0 map size arr xs chains ->
  home (nodes map) k x = home (nodes map0) k x.
Proof.
  intros Hl. pose proof (linking_hash _ _ _ _ _ _ x Hl) as E. unfold home. f_equal.
  destruct (nodes map !! x), (nodes map0 !! x); cbn in *; congruence.
Qed.

Lemma linking_relinked map0 map size arr xs chains : linking map0 map size arr xs chains -> relinked map0 map.
Proof.
  intros [Hf Er En _ _]. split_and!; [by apply (fmap_through no_next)|done|by rewrite Hf|by rewrite Hf].
Qed.

Lemma wp_relink_chain map0 es map size arr xs chains c merged m (Q : sep_chain_map * list (option nat) * Z -> mem -> Prop) :
  core map0 es -> is_buckets size -> linking map0 map size arr xs chains -> chain (next <$> nodes map0) c -> NoDup (c ++ xs) ->
  c ⊆ es -> (forall x, x ∈ es -> is_word (from_option hash_val 0 (nodes map0 !! x))) -> 0 <= merged -> merged + zlen c < two64 ->
  (forall map' arr' chains', linking map0 map' size arr' (reverse c ++ xs) chains' -> Q (map', arr', merged + zlen c) m) ->
  wp (relink_chain map arr size (head c) merged) m Q.
Proof.
  intros Hco Hs Hl Hc Hd Hsub Hw Hm0 Hm HQ. unfold relink_chain.
  assert (zlen c < two64) as Hc64 by lia.
  apply (wp_loop_list (fun ys '(t, map', arr', k) m' => m' = m /\ t = head ys /\ exists pre chains', c = pre ++ ys /\
    linking map0 map' size arr' (reverse pre ++ xs) chains' /\ k = merged + zlen pre) c).
  - intros [[[t map'] arr'] k] ? (-> & -> & pre & chains' & E & Hl' & ->). apply wp_ret. eexists. split; [done|].
    rewrite app_nil_r in E. subst pre. by eapply HQ.
  - intros x ys [[[t map'] arr'] k] ? (-> & -> & pre & chains' & E & Hl' & ->). rewrite E in Hc, Hd, Hsub, Hm.
    apply chain_app, chain_node in Hc as (n0 & Hn0 & En & _).
    assert (x ∉ reverse pre ++ xs) as Hx.
    { rewrite <- app_assoc in Hd. cbn [app] in Hd. apply NoDup_middle in Hd as (H1 & H2 & _). rewrite elem_of_app, elem_of_reverse. set_solver. }
    pose proof (lk_rest _ _ _ _ _ _ Hl' x Hx) as Hn. rewrite Hn0 in Hn.
    apply wp_bind, (wp_node_at _ _ n0); [done|]. apply wp_bind.
    assert (hash_index_for (hash_val n0) size = home (nodes map') size x) as -> by (unfold home; by rewrite Hn).
    eapply (wp_link_front map' arr' size x n0 (reverse pre ++ xs) chains'); [by apply Hl'|done|done| |].
    { unfold home. rewrite Hn. cbn. apply bucket_index; [done|]. specialize (Hw x ltac:(set_solver)). by rewrite Hn0 in Hw. }
    intros d map2 arr2 Hdd Em Hb2. apply wp_ret. split_and!; [done|done|].
    exists (pre ++ [x]). eexists. rewrite <- app_assoc. split; [done|]. rewrite reverse_snoc. cbn [app].
    split; [|rewrite zlen_app, zlen_cons in Hm; rewrite zlen_app, zlen_cons, zlen_nil; pose proof (zlen_nonneg pre); pose proof (zlen_nonneg ys); by sz; lia].
    split; [| | |exact Hb2|].
    + eapply same_frame_trans; [by apply Hl'|]. by rewrite Em.
    + rewrite Em. by apply Hl'.
    + rewrite Em. cbn. etrans; [by apply (fmap_upd _ _ _ n0)|by apply Hl'].
    + intros y Hy. rewrite Em. cbn. rewrite lookup_insert_ne by set_solver. apply (lk_rest _ _ _ _ _ _ Hl'). set_solver.
  - split_and!; [done|done|]. exists [], chains. cbn. split_and!; [done|done|]. rewrite zlen_nil. lia.
  - assert (length c <= base.size (nodes map))%nat; [|lia].
    rewrite <- (map_size_fmap no_next), (lk_nodes _ _ _ _ _ _ Hl), map_size_fmap.
    apply NoDup_size; [by apply NoDup_app in Hd as [? _]|]. intros x Hx. apply (co_dom _ _ Hco). by apply Hsub.
Qed.

Lemma buckets_perm ns size hs xs xs' chains : xs ≡ₚ xs' -> buckets ns size hs xs chains -> buckets ns size hs xs' chains.
Proof. intros E [H1 H2 H3 H4 H5]. split; try done. by rewrite H5. Qed.

Lemma ztake_snoc {A} (l : list A) i x : zget l i = Some x -> ztake (i + 1) l = ztake i l ++ [x].
Proof.
  intros Hx. pose proof (zget_Some_lt _ _ _ Hx). rewrite (zget_split l i x Hx) at 1.
  replace (ztake i l ++ x :: zdrop (i + 1) l) with ((ztake i l ++ [x]) ++ zdrop (i + 1) l) by (by rewrite <- app_assoc).
  apply ztake_app_exact. rewrite zlen_app, zlen_ztake, zlen_cons, zlen_nil by lia. lia.
Qed.

Lemma low_bits i p : 0 <= p -> Z.land i (2 ^ p - 1) = i `mod` 2 ^ p.
Proof. intros Hp. rewrite <- Z.land_ones, Z.ones_equiv by done. by rewrite <- Z.sub_1_r. Qed.

Lemma wp_relink_buckets map es size cs p m X F (Q : sep_chain_map * list (option nat) * Z -> mem -> Prop) :
  core map es -> is_buckets (bucket_arr_size map) -> is_buckets size -> 0 <= p ->
  buckets (nodes map) (bucket_arr_size map) (heads (bucket_arr map)) es cs ->
  (forall x, x ∈ es -> is_word (from_option hash_val 0 (nodes map !! x))) ->
  owns m (owned (nodes map) ∪ X) F ->
  (forall map' arr chains merged longest, linking map map' size arr es chains ->
     tally cs (2 ^ p) (bucket_arr_size map) merged longest -> Q (map', arr, longest) m) ->
  wp (relink_buckets map (no_chains size) size (2 ^ p - 1)) m Q.
Proof.
  intros Hco HC Hs Hp Hb Hw Ho HQ. unfold relink_buckets. pose proof (buckets_range _ HC). pose proof (buckets_range _ Hs).
  destruct (co_count _ _ Hco) as [_ Hmax]. unfold ccol_max_elem_count in Hmax.
  pose proof (bk_len _ _ _ _ _ Hb) as Hlen. set (C := bucket_arr_size map) in *.
  assert (0 < 2 ^ p) by by apply Z.pow_pos_nonneg.
  apply wp_bind. apply (wp_while (fun '(i, map', arr, merged, longest) m' => m' = m /\ 0 <= i <= C /\ exists xs chains,
    xs ≡ₚ concat (ztake i cs) /\ linking map map' size arr xs chains /\ tally cs (2 ^ p) i merged longest /\
    0 <= merged <= zlen (concat (ztake i cs))) (fun '(i, _, _, _, _) => Z.to_nat (C - i))).
  - intros [[[[i map'] arr] merged] longest] ? (-> & Hi & xs & chains & Exs & Hl & Ht & Hmg) Hlt%Z.ltb_lt.
    destruct (buckets_at _ _ _ _ _ i Hb ltac:(lia)) as (c & Hc & Hhd & Hch & Hsub).
    pose proof (ztake_snoc _ _ _ Hc) as Esn. rewrite Hhd. cbn [ub]. apply wp_bind, wp_ret, wp_bind.
    assert (concat cs ≡ₚ concat (ztake i cs) ++ c ++ concat (zdrop (i + 1) cs)) as Ecs.
    { rewrite (zget_split _ _ _ Hc) at 1. by rewrite concat_app. }
    assert (NoDup (c ++ xs)) as Hnd.
    { pose proof (co_nodup _ _ Hco) as Hnd. rewrite <- (bk_all _ _ _ _ _ Hb), Ecs, <- Exs, app_assoc in Hnd.
      apply NoDup_app in Hnd as [Hnd _]. by rewrite Permutation_app_comm. }
    assert (zlen (concat (ztake i cs)) + zlen c <= zlen es) as Hcount.
    { unfold zlen. rewrite <- (Permutation_length (bk_all _ _ _ _ _ Hb)), (Permutation_length Ecs), !length_app. lia. }
    rewrite low_bits by done. set (mg := if _ =? 0 then 0 else merged).
    assert (0 <= mg <= merged) as Hmg' by (unfold mg; destruct (_ =? 0); lia).
    pose proof (tally_step cs (2 ^ p) i merged longest c ltac:(lia) ltac:(lia) Hc Ht) as Ht'. cbv zeta in Ht'. fold mg in Ht'.
    eapply (wp_relink_chain map es map' size arr xs chains c mg m); [done..|lia|sz_in_range|].
    intros map2 arr2 chains2 Hl2. apply wp_ret. rewrite wrap_small by sz_in_range. pose proof (zlen_nonneg c).
    split; [|lia]. split_and!; [done|lia|lia|]. exists (reverse c ++ xs), chains2.
    rewrite Esn, concat_app, zlen_app. cbn [concat]. rewrite app_nil_r.
    split_and!; [|done| |lia|lia].
    + by rewrite reverse_Permutation, Exs, Permutation_app_comm.
    + rewrite Z.gtb_ltb. destruct (Z.ltb_spec longest (mg + zlen c));
        [rewrite Z.max_l in Ht' by lia|rewrite Z.max_r in Ht' by lia]; done.
  - intros [[[[i map'] arr] merged] longest] ? (-> & Hi & xs & chains & Exs & Hl & Ht & Hmg) Hge%Z.ltb_ge.
    assert (i = C) as -> by lia. apply wp_ret. eapply (HQ _ _ chains); [|exact Ht].
    rewrite ztake_all in Exs by lia. rewrite (bk_all _ _ _ _ _ Hb) in Exs.
    destruct Hl as [L1 L2 L3 L4 L5]. split; [done..|by eapply buckets_perm|]. intros x Hx. apply L5. by rewrite Exs.
  - split; [done|]. split; [lia|]. exists [], (replicate (Z.to_nat size) []). rewrite ztake_0. cbn. split_and!; [done| | |done|done].
    + split; [apply same_frame_refl|done|done|apply buckets_none; lia|done].
    + split; [lia|]. intros j Hj. lia.
  - lia.
Qed.

(** ** [sc_scale] *)
Definition resized map blk arr size : sep_chain_map :=
  sc_window_restart (sc_set_scaling_limits (set_buckets map (BucketArray blk arr) size)).

Lemma resized_relinked map blk arr size : relinked map (resized map blk arr size).
Proof. done. Qed.

Definition block_set (blk : option nat) : gset nat := match blk with Some b => {[b]} | None => ∅ end.

(** The limits: half as many elements again as buckets and one more, and an
    eighth of the buckets. *)
Lemma scaling_limits C : is_buckets C ->
  (C ⊕ C `div` 2) ⊕ (if C `mod` 2 =? 0 then 1 else 2) = C + C `div` 2 + 1 /\ (C ⊕ 1) `div` 8 = (C + 1) `div` 8.
Proof.
  intros HC. pose proof (buckets_range _ HC). destruct HC as (k & Hk & E).
  assert (C `mod` 2 = 0) as ->.
  { rewrite E. replace k with (1 + (k - 1)) by lia. rewrite Z.pow_add_r by lia. rewrite Z.mul_comm. by apply Z.mod_mul. }
  assert (0 <= C `div` 2 <= 4611686018427387904) by (split; [apply Z.div_pos; lia|apply Z.div_le_upper_bound; lia]).
  cbn [Z.eqb]. sz. by split.
Qed.

Lemma resized_sized map blk arr size : is_buckets size -> (blk = None -> size = inline_buckets (conf map)) ->
  block_set blk ## owned (nodes map) -> sized (resized map blk arr size).
Proof. intros HC Hi Hd. destruct (scaling_limits _ HC) as [E1 E2]. split; [done|exact E1|exact E2|done|done]. Qed.

Lemma resized_repr map es blk arr size chains : core map es -> is_buckets size -> (blk = None -> size = inline_buckets (conf map)) ->
  block_set blk ## owned (nodes map) -> buckets (nodes map) size arr es chains -> short (sc_keyed map) chains ->
  (forall x, x ∈ es -> hashed_as secret map (sc_keyed map) x) -> repr secret (resized map blk arr size) es.
Proof.
  intros Hco HC Hi Hd Hb Hs Hh. split; [by apply (relinked_core map)|by apply resized_sized|exact Hh|]. by exists chains.
Qed.

(** Every block of a map. *)
Definition all_owned map : gset nat := owned (nodes map) ∪ bucket_blocks map.

Lemma hashed_word map es keyed x : core map es -> x ∈ es -> hashed_as secret map keyed x -> is_word (from_option hash_val 0 (nodes map !! x)).
Proof.
  intros Hco Hx (n & Hn & Eh). rewrite Hn. cbn. rewrite Eh. eapply (sc_hash_key secret (conf map)); [done|by eapply co_conf|].
  by eapply no_valid, co_nodes.
Qed.

Lemma linking_hashed map map' size arr es chains keyed x : linking map map' size arr es chains -> conf map' = conf map ->
  hashed_as secret map keyed x -> hashed_as secret map' keyed x.
Proof.
  intros Hl Ec (n & Hn & Eh). destruct (fmap_lookup_same no_next _ _ x n (lk_nodes _ _ _ _ _ _ Hl) Hn) as (n' & Hn' & E).
  exists n'. split; [done|]. rewrite Ec. apply (f_equal (fun n => (hash_val n, key_storage n))) in E. cbn in E.
  injection E as E1 E2. unfold node_key. by rewrite E1, E2.
Qed.

(** The chains of the new array, with no allocation left to make. *)
Lemma wp_scale_end map es map1 arr size chains blk sw X F m (Q : sep_chain_map -> mem -> Prop) :
  core map es -> relinked map map1 -> is_buckets size -> (blk = None -> size = inline_buckets (conf map1)) ->
  block_set blk ## owned (nodes map1) -> buckets (nodes map1) size arr es chains ->
  (sw = false -> short (sc_keyed map1) chains) -> (sw = true -> sc_keyed map1 = false) ->
  (forall x, x ∈ es -> hashed_as secret map1 (sc_keyed map1) x) ->
  X ## owned (nodes map1) ∪ block_set blk -> owns m (owned (nodes map1) ∪ block_set blk ∪ X) F ->
  (forall map' m', repr secret map' es -> relinked map map' -> X ## all_owned map' -> owns m' (all_owned map' ∪ X) F -> Q map' m') ->
  wp (if sw then sc_switch_to_keyed secret (resized map1 blk arr size) else mret (resized map1 blk arr size)) m Q.
Proof.
  intros Hco Hre HC Hi Hd Hb Hs Hsw Hh HX Ho HQ. pose proof (relinked_core _ _ _ Hre Hco) as Hco1.
  assert (relinked map (resized map1 blk arr size)) as Hre2 by (by eapply relinked_trans).
  destruct sw.
  - eapply (wp_switch secret Hsecret _ es m (block_set blk ∪ X) F); [by eapply relinked_core|by apply resized_sized| |].
    { cbn. owns_tac. }
    intros map' Hr Hre' _ _ Eblk. pose proof Hre' as (En & _). destruct (no_links_apart _ _ En) as [_ Eo].
    assert (all_owned map' = owned (nodes map1) ∪ block_set blk) as Eall by (unfold all_owned, bucket_blocks; by rewrite Eo, Eblk).
    apply HQ; [done|by eapply relinked_trans|by rewrite Eall|by rewrite Eall].
  - apply wp_ret, HQ; [|done|done|done]. eapply resized_repr; [done..|by apply Hs|done].
Qed.

Lemma wp_new_array map size m own F (Q : option (option nat) -> mem -> Prop) : owns m own F -> 0 <= size ->
  (forall m', owns m' own F -> Q None m') ->
  (forall blk m', block_set blk ## own -> owns m' (block_set blk ∪ own) F ->
     (blk = None -> size = inline_buckets (conf map)) -> Q (Some blk) m') ->
  wp (new_bucket_array map size) m Q.
Proof.
  intros Ho Hs HN HQ. unfold new_bucket_array. destruct (Z.eqb_spec size (inline_buckets (conf map))).
  - apply wp_ret, HQ; [set_solver|owns_tac|done].
  - apply wp_bind, (wp_calloc_owns _ _ _ _ F _ Ho); [lia|intros m' Ho' _; by apply wp_ret, HN|].
    intros b m' Ho' Hb _ _ _. apply wp_ret, HQ; [set_solver|owns_tac|done].
Qed.

Lemma wp_free_buckets (arr : bucket_array) m own F (Q : unit -> mem -> Prop) : owns m (block_set (array_blk arr) ∪ own) F ->
  block_set (array_blk arr) ## own -> (forall m', owns m' own F -> Q tt m') -> wp (free_buckets arr) m Q.
Proof.
  intros Ho Hd HQ. unfold free_buckets. destruct (array_blk arr) as [b|]; cbn in *.
  - apply (wp_free_owns _ _ _ _ _ Ho); [set_solver|]. intros m' Ho'. apply HQ. owns_tac.
  - apply wp_ret, HQ. owns_tac.
Qed.

(** The relinking of a resize: [j] and [k] are the logarithms of the sizes. *)
Lemma wp_scale_links map es (up : bool) k j m X F
    (Q : sep_chain_map * list (option nat) * Z -> mem -> Prop) : repr secret map es ->
  bucket_arr_size map = 2 ^ k -> 2 <= k <= 63 -> 2 <= j <= 63 -> (if up then k <= j else j <= k) ->
  owns m (owned (nodes map) ∪ X) F ->
  (forall map1 arr longest chains, relinked map map1 -> bucket_arr map1 = bucket_arr map ->
     buckets (nodes map1) (2 ^ j) arr es chains ->
     (forall x, x ∈ es -> hashed_as secret map1 (sc_keyed map1) x) ->
     (if up then short (sc_keyed map1) chains else Forall (fun c => zlen c <= longest) chains) ->
     Q (map1, arr, longest) m) ->
  wp (if up && sc_keyed map then
        '(fast, map, new_arr) ← sc_relink_fast_attempt secret map (no_chains (2 ^ j)) (2 ^ j);
        mret (if (fast : bool) then set_mode map CHMAP_HASH_FAST else map, new_arr, 0)
      else relink_buckets map (no_chains (2 ^ j)) (2 ^ j) (if up then 0 else 2 ^ (k - j) - 1)) m Q.
Proof.
  intros [Hco Hsz Hh (cs & Hb & Hs)] EC Hk Hj Hjk Ho HQ.
  assert (is_buckets (2 ^ j)) as HJ by by exists j. assert (is_buckets (bucket_arr_size map)) as HC by by exists k.
  destruct (up && sc_keyed map) eqn:Eu.
  - apply andb_true_iff in Eu as [-> Ek]. rewrite Ek in Hh. apply wp_bind.
    eapply (wp_relink_fast_attempt map es (2 ^ j)); [done..|]. intros fast map1 arr chains [Hf Hre Hh1 Hb1] Hs1. apply wp_ret.
    destruct (frame_fields _ _ Hf) as (_ & _ & _ & _ & E5 & _ & E7).
    destruct fast; cbn [negb] in *; apply (HQ _ _ _ chains); try done.
    + by unfold sc_keyed; rewrite E7; unfold sc_keyed in Ek; rewrite Ek.
    + by unfold sc_keyed; rewrite E7; unfold sc_keyed in Ek; rewrite Ek.
  - replace (if up then 0 else 2 ^ (k - j) - 1) with (2 ^ (if up then 0 else k - j) - 1) by by destruct up.
    assert (forall x, x ∈ es -> is_word (from_option hash_val 0 (nodes map !! x))) as Hw by (intros x Hx; eapply hashed_word; eauto).
    eapply (wp_relink_buckets map es (2 ^ j) cs (if up then 0 else k - j) m X F); try done; [destruct up; lia|].
    intros map1 arr chains merged longest Hl Ht. pose proof (linking_relinked _ _ _ _ _ _ Hl) as Hre. pose proof Hre as (_ & _ & Ec & _).
    destruct (frame_fields _ _ (lk_frame _ _ _ _ _ _ Hl)) as (_ & _ & _ & _ & E5 & _ & E7).
    assert (sc_keyed map1 = sc_keyed map) as Ek by (unfold sc_keyed; by rewrite E7).
    assert (forall x, x ∈ es -> is_word (from_option hash_val 0 (nodes map !! x)) /\ hash_val <$> nodes map1 !! x = hash_val <$> nodes map !! x) as Hboth.
    { intros x Hx. split; [by apply Hw|by eapply linking_hash]. }
    pose proof (co_nodup _ _ Hco) as Hnd. rewrite EC in *.
    apply (HQ _ _ _ chains); [done|done|by apply Hl|intros x Hx; rewrite Ek; eapply linking_hashed; eauto|].
    destruct up; cbn [andb] in *.
    + rewrite Ek, Eu. intros _. rewrite Eu in Hs.
      by eapply (split_short (nodes map) (nodes map1) j k _ _ es cs chains); [lia|lia|done|done|apply Hl|done|done|apply Hs].
    + eapply (merged_short (nodes map) (nodes map1) k j _ _ es cs chains); [lia|lia|done|done|apply Hl|done|by eexists].
Qed.

(** The logarithm of the new size. *)
Definition new_log (up : bool) (k : Z) : Z := if up then k + 2 else Z.max 4 (k - 2).

Lemma new_size_log map (up : bool) k : bucket_arr_size map = 2 ^ k -> 2 <= k <= 63 ->
  (if up then k <= 61 else minimum_allowed_bucket_array_size < 2 ^ k) ->
  let size := if up then bucket_arr_size map ⊗ scale_factor else bucket_arr_size map `div` scale_factor in
  (if negb up && (size <? minimum_allowed_bucket_array_size) then minimum_allowed_bucket_array_size else size) = 2 ^ new_log up k /\
  2 <= new_log up k <= 63 /\ (if up then k <= new_log up k else new_log up k <= k) /\
  (if up then 0 else bucket_arr_size map `div` 2 ^ new_log up k ⊖ 1) = (if up then 0 else 2 ^ (k - new_log up k) - 1).
Proof.
  intros -> Hk Hup. unfold minimum_allowed_bucket_array_size, scale_factor, new_log in *. destruct up; cbn [negb andb].
  - assert (2 ^ (k + 2) = 2 ^ k * 4) as E by by rewrite Z.pow_add_r by lia.
    assert (2 ^ (k + 2) <= 2 ^ 63) by (apply Z.pow_le_mono_r; lia). assert (0 < 2 ^ k) by (apply Z.pow_pos_nonneg; lia).
    change (2 ^ 63) with 9223372036854775808 in *. sz. split_and!; [done|lia|lia|lia|done].
  - assert (4 < k) as Hk4 by (apply (Z.pow_lt_mono_r_iff 2); lia).
    assert (2 ^ k `div` 4 = 2 ^ (k - 2)) as -> by (change 4 with (2 ^ 2); rewrite <- Z.pow_sub_r; lia).
    assert ((if 2 ^ (k - 2) <? 16 then 16 else 2 ^ (k - 2)) = 2 ^ Z.max 4 (k - 2)) as ->.
    { change 16 with (2 ^ 4). destruct (Z.ltb_spec (2 ^ (k - 2)) (2 ^ 4)) as [H|H].
      - apply Z.pow_lt_mono_r_iff in H; [|lia|lia]. by rewrite Z.max_l by lia.
      - apply Z.pow_le_mono_r_iff in H; [|lia|lia]. by rewrite Z.max_r by lia. }
    split_and!; [done|lia|lia|lia|]. rewrite <- Z.pow_sub_r by lia.
    set (d := k - Z.max 4 (k - 2)). assert (0 < 2 ^ d <= 2 ^ 63) as [? ?].
    { split; [apply Z.pow_pos_nonneg; unfold d; lia|apply Z.pow_le_mono_r; unfold d; lia]. }
    change (2 ^ 63) with 9223372036854775808 in *. by sz.
Qed.

Lemma wp_scale map es up m X F (Q : sep_chain_map -> mem -> Prop) : repr secret map es ->
  (up = false -> minimum_allowed_bucket_array_size < bucket_arr_size map) ->
  X ## all_owned map -> owns m (all_owned map ∪ X) F ->
  (forall map' m', repr secret map' es -> relinked map map' -> X ## all_owned map' -> owns m' (all_owned map' ∪ X) F -> Q map' m') ->
  wp (sc_scale secret map up) m Q.
Proof.
  intros Hr Hdown HX Ho HQ. pose proof Hr as [Hco [HC Hsu Hsd Hsi Hsap] Hh _]. pose proof HC as (k & Hk & EC). unfold sc_scale.
  destruct (up && _) eqn:Emax; [by apply wp_ret, HQ|].
  destruct (new_size_log map up k EC Hk) as (-> & Hj & Hjk & ->).
  { destruct up; [|rewrite <- EC; by apply Hdown]. cbn [andb] in Emax. rewrite Z.gtb_ltb in Emax. apply Z.ltb_ge in Emax.
    unfold _ccol_max_power_of_two_size_t, scale_factor in Emax. rewrite EC in Emax.
    change (9223372036854775808 `div` 4) with (2 ^ 61) in Emax. apply Z.pow_le_mono_r_iff in Emax; lia. }
  set (j := new_log up k) in *. assert (0 < 2 ^ j) by (apply Z.pow_pos_nonneg; lia).
  apply wp_bind, (wp_new_array map (2 ^ j) m _ F _ Ho); [lia|intros m' Ho'; by apply wp_ret, HQ|].
  intros blk m1 Hd Ho1 Hi. apply wp_bind. unfold all_owned in *.
  eapply (wp_scale_links map es up k j m1 (block_set blk ∪ bucket_blocks map ∪ X) F); [done..|owns_tac|].
  intros map1 arr longest chains Hre Earr Hb1 Hh1 Hs1. pose proof Hre as (En & _ & Ec & _).
  destruct (no_links_apart _ _ En) as [_ Eo].
  apply wp_bind. rewrite Earr. eapply (wp_free_buckets _ _ (owned (nodes map) ∪ block_set blk ∪ X) F).
  { eapply owns_change; [exact Ho1|]. change (bucket_blocks map) with (block_set (array_blk (bucket_arr map))). clear. set_solver. }
  { change (block_set (array_blk (bucket_arr map))) with (bucket_blocks map). clear -Hd Hsap HX. set_solver. }
  intros m2 Ho2. cbv zeta. fold (resized map1 blk arr (2 ^ j)).
  set (sw := negb up && _ && _).
  eapply (wp_scale_end map es map1 arr (2 ^ j) chains blk sw X F m2); [done|done|by exists j|by rewrite Ec|rewrite Eo; clear -Hd; set_solver|done| | |done|rewrite Eo; clear -Hd HX; set_solver|by rewrite Eo|done].
  - intros Esw. destruct up; [done|]. unfold sw in Esw. cbn [negb andb] in Esw. intros Ek.
    change (sc_keyed (resized map1 blk arr (2 ^ j))) with (sc_keyed map1) in Esw. rewrite Ek in Esw. cbn in Esw.
    rewrite andb_true_r, Z.geb_leb in Esw. apply Z.leb_gt in Esw. eapply Forall_impl; [done|]. cbn. lia.
  - intros Esw. unfold sw in Esw. apply andb_true_iff in Esw as [_ Esw]. by apply negb_true_iff in Esw.
Qed.
End Resize.
