(* ===== verification/CScOps.v ===== *)
(** * The operations of a separate-chaining map

    Insertion, lookup, deletion, creation, reset and destruction on a map
    that represents a list of pairs, in the order of their insertion. *)
From S2P Require Import Prelude Memory Values Common CHash COaMap CLinks CScMap CScRefine CScRelink CScResize.
Import COaMap(chmap_hash_mode(..), cmap_pair(..), pair_ptr, pair_size, minimum_allowed_bucket_array_size,
  UINT16_MAX, CHMAP_WINDOW_START, two32, CHMAP_WINDOW_STEP).
Import CScMap.

(** ** Association lists

    The first pair whose key is equal to the given one. *)
Section Assoc.
Context (same : list Z -> list Z -> bool).
Implicit Types (l : list (list Z * list Z)) (key v : list Z).

Fixpoint lookup_key key l : option (list Z) :=
  match l with [] => None | (k, v) :: l => if same k key then Some v else lookup_key key l end.

(** The stored key stays. *)
Fixpoint update_key key v l : list (list Z * list Z) :=
  match l with [] => [] | (k, v0) :: l => if same k key then (k, v) :: l else (k, v0) :: update_key key v l end.

Fixpoint remove_key key l : list (list Z * list Z) :=
  match l with [] => [] | (k, v0) :: l => if same k key then l else (k, v0) :: remove_key key l end.

Definition absent key l : Prop := Forall (fun p => same p.1 key = false) l.

Lemma lookup_absent key l : absent key l -> lookup_key key l = None.
Proof. induction 1 as [|[k v] l Hk _ IH]; [done|]. cbn in *. by rewrite Hk. Qed.

Lemma absent_iff key l : absent key l <-> lookup_key key l = None.
Proof.
  split; [apply lookup_absent|]. induction l as [|[k v] l IH]; [constructor|]. cbn.
  destruct (same k key) eqn:E; [done|]. intros H. constructor; [done|by apply IH].
Qed.

Lemma lookup_mid key l1 k v l2 : absent key l1 -> same k key = true -> lookup_key key (l1 ++ (k, v) :: l2) = Some v.
Proof. intros Ha Hk. induction Ha as [|[k' v'] l1 Hk' _ IH]; cbn in *; [by rewrite Hk|by rewrite Hk']. Qed.

Lemma update_mid key v l1 k v0 l2 : absent key l1 -> same k key = true ->
  update_key key v (l1 ++ (k, v0) :: l2) = l1 ++ (k, v) :: l2.
Proof. intros Ha Hk. induction Ha as [|[k' v'] l1 Hk' _ IH]; cbn in *; [by rewrite Hk|by rewrite Hk', IH]. Qed.

Lemma remove_mid key l1 k v0 l2 : absent key l1 -> same k key = true -> remove_key key (l1 ++ (k, v0) :: l2) = l1 ++ l2.
Proof. intros Ha Hk. induction Ha as [|[k' v'] l1 Hk' _ IH]; cbn in *; [by rewrite Hk|by rewrite Hk', IH]. Qed.

Lemma remove_absent key l : lookup_key key l = None -> remove_key key l = l.
Proof. intros H%absent_iff. induction H as [|[k v] l Hk _ IH]; [done|]. cbn in *. by rewrite Hk, IH. Qed.
End Assoc.

(** ** What an operation finds *)
Section Ops.
Context {alloc : Allocator} (secret : chmap_hash_secret) (Hsecret : secret_ok secret).
Implicit Types (map : sep_chain_map) (m : mem) (es xs : list nat) (key : list Z).

Lemma no_refs_same n n' : no_refs n' = no_refs n ->
  node_key n' = node_key n /\ pair_of n' = pair_of n /\ hash_val n' = hash_val n /\ next n' = next n /\
  (forall c x, node_ok c x n -> node_ok c x n').
Proof.
  intros E. apply (f_equal (fun n => (key_storage n, val_storage n, key_pair_accessor n, val_pair_accessor n, hash_val n, next n))) in E.
  cbn in E. injection E as E1 E2 E3 E4 E5 E6. unfold pair_of, node_key, node_val. rewrite E1, E2.
  split_and!; [done..|]. intros c x [H1 H2 H3 H4]. unfold node_key, blocks_of, buffers in *.
  split; unfold node_key, blocks_of, buffers; by rewrite ?E1, ?E2, ?E3, ?E4.
Qed.

Definition hash_of map key : Z := key_hash secret (conf map) (sc_keyed map) key.

(** The node of a key is the one the search meets. *)
Lemma matches_key map es x n key : repr secret map es -> nodes map !! x = Some n -> valid_key (conf map) key ->
  matches map (hash_of map key) key x = key_eq (conf map) (node_key n) key.
Proof.
  intros [Hco _ Hh _] Hn Hk. unfold matches. rewrite Hn. cbn. destruct (key_eq _ _ _) eqn:E; [|by rewrite andb_false_r].
  rewrite andb_true_r. destruct (Hh x) as (n' & Hn' & Eh); [by apply (co_dom _ _ Hco); rewrite Hn|].
  rewrite Hn in Hn'. injection Hn' as <-. rewrite Eh. apply Z.eqb_eq. eapply key_eq_hash; [by eapply co_conf| |done|done].
  by eapply no_valid, co_nodes.
Qed.

(** The chain an operation searches, and what being absent from it means. *)
Lemma repr_chain map es key : repr secret map es -> valid_key (conf map) key ->
  let i := hash_index_for (hash_of map key) (bucket_arr_size map) in
  exists chains c, buckets (nodes map) (bucket_arr_size map) (heads (bucket_arr map)) es chains /\
    short (sc_keyed map) chains /\ 0 <= i < bucket_arr_size map /\
    zget chains i = Some c /\ zget (heads (bucket_arr map)) i = Some (head c) /\
    (forall X F m, owns m (owned (nodes map) ∪ X) F -> search map c key X F m) /\ c ⊆ es /\
    (forall x n, nodes map !! x = Some n -> key_eq (conf map) (node_key n) key = true -> x ∈ c).
Proof.
  intros Hr Hk i. pose proof Hr as [Hco Hsz Hh (chains & Hb & Hs)].
  assert (0 <= i < bucket_arr_size map) as Hi.
  { apply bucket_index; [by apply Hsz|]. apply (sc_hash_key secret (conf map)); [done|by eapply co_conf|done]. }
  destruct (buckets_at _ _ _ _ _ _ Hb Hi) as (c & Hc & Hhd & Hch & Hsub). exists chains, c.
  split_and!; try done; [lia..| |].
  - intros X F m Ho. pose proof (buckets_nodup _ _ _ _ _ _ _ Hb (co_nodup _ _ Hco) Hc) as Hd.
    split; [by eapply co_apart|by eapply co_nodes|done|done| |done|done].
    destruct (co_count _ _ Hco) as [_ Hmax]. unfold ccol_max_elem_count in Hmax.
    pose proof (NoDup_length_le _ _ Hd Hsub). sz_in_range.
  - intros x n Hn E. assert (x ∈ es) as Hx by (apply (co_dom _ _ Hco); by rewrite Hn).
    destruct (buckets_home _ _ _ _ _ _ Hb Hx) as (d & Hd & Hxd).
    assert (home (nodes map) (bucket_arr_size map) x = i) as Eh; [|by rewrite Eh, Hc in Hd; injection Hd as <-].
    unfold home, i. rewrite Hn. cbn. f_equal. pose proof (matches_key map es x n key Hr Hn Hk) as Em. rewrite E in Em.
    unfold matches in Em. rewrite Hn in Em. cbn in Em. apply andb_true_iff in Em as [Em _]. by apply Z.eqb_eq.
Qed.

(** *** The content and its nodes *)
Lemma content_app map e1 e2 : content map (e1 ++ e2) = content map e2 ++ content map e1.
Proof. unfold content. by rewrite fmap_app, reverse_app. Qed.

Lemma content_cons map x es : content map (x :: es) = content map es ++ [pair_at map x].
Proof. unfold content. by rewrite fmap_cons, reverse_cons. Qed.

Lemma content_ext map map' es : (forall x, x ∈ es -> pair_at map' x = pair_at map x) -> content map' es = content map es.
Proof.
  intros H. unfold content. f_equal. apply list_fmap_ext. intros i x Hx. apply H. by eapply list_elem_of_lookup_2.
Qed.

Lemma absent_content map es key : core map es -> (forall x n, x ∈ es -> nodes map !! x = Some n -> key_eq (conf map) (node_key n) key = false) ->
  absent (key_eq (conf map)) key (content map es).
Proof.
  intros Hco H. apply Forall_forall. intros p Hp. unfold content in Hp. rewrite elem_of_reverse in Hp.
  apply list_elem_of_fmap in Hp as (x & -> & Hx). pose proof Hx as [n Hn]%(co_dom _ _ Hco). unfold pair_at. rewrite Hn. cbn. by eapply H.
Qed.

(** A key that a node has: the pairs before and after it. *)
Lemma content_split map e1 x e2 n key : core map (e1 ++ x :: e2) -> nodes map !! x = Some n -> valid_key (conf map) key ->
  key_eq (conf map) (node_key n) key = true ->
  content map (e1 ++ x :: e2) = content map e2 ++ (node_key n, node_val n) :: content map e1 /\
  absent (key_eq (conf map)) key (content map e2).
Proof.
  intros Hco Hn Hk E. split.
  - rewrite content_app, content_cons, <- app_assoc. cbn [app]. do 2 f_equal. unfold pair_at. by rewrite Hn.
  - apply Forall_forall. intros p Hp. unfold content in Hp. rewrite elem_of_reverse in Hp.
    apply list_elem_of_fmap in Hp as (y & -> & Hy). assert (y ∈ e1 ++ x :: e2) as Hy' by set_solver.
    apply (co_dom _ _ Hco) in Hy' as [ny Hny]. unfold pair_at. rewrite Hny. cbn. apply not_true_is_false. intros Ey.
    assert (y = x) as ->; [|pose proof (co_nodup _ _ Hco) as Hd; by apply NoDup_middle in Hd as (_ & ? & _)].
    pose proof (co_conf _ _ Hco) as Hc. assert (valid_key (conf map) (node_key n)) by (by eapply no_valid, co_nodes).
    assert (valid_key (conf map) (node_key ny)) by (by eapply no_valid, co_nodes).
    apply (co_distinct _ _ Hco y x ny n Hny Hn). eapply (key_eq_trans _ Hc _ key); [done..|]. by apply (key_eq_sym _ Hc).
Qed.

Lemma wp_sc_hash map es key m (Q : Z -> mem -> Prop) : core map es -> valid_key (conf map) key ->
  Q (hash_of map key) m -> wp (sc_hash secret map key (sc_keyed map)) m Q.
Proof.
  intros Hco Hk HQ. unfold sc_hash. eapply wp_ub; [|exact HQ].
  apply (sc_hash_key secret (conf map) Hsecret); [by eapply co_conf|done].
Qed.

(** An argument that is a key, in the caller's memory or in the map's. *)
Definition key_arg map (kp : cmap_pair) key : Prop := gives map kp key /\ valid_key (conf map) key.

Lemma wp_read_arg map es kp key m Y F (Q : list Z -> mem -> Prop) : core map es -> key_arg map kp key ->
  owns m (all_owned map ∪ Y) F -> Q key m -> wp (read_ptr map (pair_ptr kp) (pair_size kp)) m Q.
Proof.
  intros Hco [(Es & _ & Hr) _] Ho HQ. eapply (wp_sc_read_ptr map _ _ key m (bucket_blocks map ∪ Y) F); [by eapply co_apart| |done|done].
  unfold all_owned in *. owns_tac.
Qed.

(** The search of every operation: the node whose key is equal, or the
    length of a chain without one. *)
Lemma wp_search {A} map es key m Y F (k : option nat * Z -> M A) (Q : A -> mem -> Prop) : repr secret map es -> valid_key (conf map) key ->
  owns m (all_owned map ∪ Y) F ->
  (forall x n, nodes map !! x = Some n -> key_eq (conf map) (node_key n) key = true -> wp (k (Some x, 0)) m Q) ->
  (forall chains c, absent (key_eq (conf map)) key (content map es) ->
     buckets (nodes map) (bucket_arr_size map) (heads (bucket_arr map)) es chains -> short (sc_keyed map) chains ->
     zget chains (hash_index_for (hash_of map key) (bucket_arr_size map)) = Some c -> wp (k (None, zlen c)) m Q) ->
  wp (first ← ub (zget (heads (bucket_arr map)) (hash_index_for (hash_of map key) (bucket_arr_size map)));
      r ← sc_find_in_llist map first (hash_of map key) key; k r) m Q.
Proof.
  intros Hr Hk Ho HS HN. pose proof Hr as [Hco _ _ _].
  destruct (repr_chain map es key Hr Hk) as (chains & c & Hb & Hs & Hi & Hc & Hhd & Hse & Hsub & Hall).
  rewrite Hhd. cbn [ub]. apply wp_bind, wp_ret, wp_bind.
  eapply (wp_sc_find map c (hash_of map key) key m (bucket_blocks map ∪ Y) F).
  - apply Hse. unfold all_owned in *. owns_tac.
  - intros x n _ Hn Em. eapply HS; [done|]. by rewrite <- (matches_key map es x n key Hr Hn Hk).
  - intros Hno. eapply HN; [|done..]. apply absent_content; [done|]. intros x n Hx Hn. apply not_true_is_false. intros E.
    specialize (Hno x (Hall x n Hn E)). by rewrite (matches_key map es x n key Hr Hn Hk), E in Hno.
Qed.

(** ** Lookup *)
Lemma wp_find_accessor map es kp key m Y F (Q : ccol_retval_t * option nat -> mem -> Prop) : repr secret map es -> key_arg map kp key ->
  owns m (all_owned map ∪ Y) F ->
  (forall x n, nodes map !! x = Some n -> key_eq (conf map) (node_key n) key = true -> Q (ccol_success, Some x) m) ->
  (absent (key_eq (conf map)) key (content map es) -> Q (ccol_key_not_found, None) m) ->
  wp (sc_find_accessor secret map kp) m Q.
Proof.
  intros Hr Ha Ho HS HN. pose proof Hr as [Hco _ _ _]. unfold sc_find_accessor.
  apply wp_bind. eapply wp_read_arg; [done..|]. apply wp_bind. eapply wp_sc_hash; [done|apply Ha|].
  eapply wp_search; [done|apply Ha|done| |].
  - intros x n Hn E. apply wp_ret. by eapply HS.
  - intros chains c Hab _ _ _. apply wp_ret. by apply HN.
Qed.

(** The value the map stores for a key. *)
Lemma lookup_node map es x n key : core map es -> nodes map !! x = Some n -> valid_key (conf map) key ->
  key_eq (conf map) (node_key n) key = true -> lookup_key (key_eq (conf map)) key (content map es) = Some (node_val n).
Proof.
  intros Hco Hn Hk E. assert (x ∈ es) as (e1 & e2 & ->)%list_elem_of_split by (apply (co_dom _ _ Hco); by rewrite Hn).
  destruct (content_split map e1 x e2 n key Hco Hn Hk E) as [-> Hab]. by apply lookup_mid.
Qed.

(** ** Insertion *)

Lemma created_node map map1 es a k v hash : created (conf map) map map1 es a k v hash -> core map es ->
  (exists n, nodes map1 !! a = Some n /\ node_ok (conf map) a n /\ pair_of n = (k, v) /\ hash_val n = hash) /\
  (forall x, x <> a -> no_refs <$> nodes map1 !! x = no_refs <$> nodes map !! x) /\ (a ∉ es).
Proof.
  intros [Hfr _ _ (n0 & E & Hok & Ep & Eh) _] Hco. split_and!.
  - destruct (fmap_lookup_same no_refs _ _ a n0 E) as (n & Hn & En); [by rewrite lookup_insert_eq|].
    exists n. apply no_refs_same in En as (_ & En & Eh' & _ & Hok'). rewrite En, Eh'. by split_and!; [|apply Hok'| |].
  - intros x Hx. rewrite <- !lookup_fmap, E, !lookup_fmap. by rewrite lookup_insert_ne.
  - intros Ha%(co_dom _ _ Hco). rewrite Hfr in Ha. by destruct Ha.
Qed.

Lemma inserted_core map map1 map' es a k v hash : core map es -> elem_count map < ccol_max_elem_count ->
  created (conf map) map map1 es a k v hash -> absent (key_eq (conf map)) k (content map es) ->
  no_links <$> nodes map' = no_links <$> nodes map1 -> all_elems map' = all_elems map1 -> conf map' = conf map ->
  elem_count map' = elem_count map ⊕ 1 ->
  core map' (a :: es) /\ content map' (a :: es) = content map es ++ [(k, v)].
Proof.
  intros Hco Hlt Hcr Hab En Er Ec Ecnt. destruct (created_node _ _ _ _ _ _ _ Hcr Hco) as ((n & Hn & Hok & Ep & _) & Hother & Ha).
  set (map2 := set_count map1 (elem_count map')). assert (relinked map2 map') as Hre.
  { split_and!; [done|done| |done]. rewrite Ec. cbn. by rewrite (cr_frame _ _ _ _ _ _ _ _ Hcr). }
  pose proof Hco as [Hcf Hd Hdom Hl Hap Hns Hdis [Ecn Hmax]]. unfold ccol_max_elem_count in *. pose proof (zlen_nonneg es).
  assert (conf map2 = conf map) as Ec2 by (cbn; by rewrite (cr_frame _ _ _ _ _ _ _ _ Hcr)).
  assert (forall x nx, x <> a -> nodes map1 !! x = Some nx -> exists n0, nodes map !! x = Some n0 /\ no_refs nx = no_refs n0) as Hold.
  { intros x nx Hx Hnx. specialize (Hother x Hx). rewrite Hnx in Hother. destruct (nodes map !! x) as [n0|]; [|done].
    injection Hother as Hother. exists n0. split; [done|]. unfold no_refs, set_refs. congruence. }
  assert (forall x n0, x <> a -> nodes map !! x = Some n0 -> exists nx, nodes map1 !! x = Some nx /\ no_refs nx = no_refs n0) as Hnew.
  { intros x n0 Hx Hn0. specialize (Hother x Hx). rewrite Hn0 in Hother. destruct (nodes map1 !! x) as [nx|] eqn:E; [|done].
    exists nx. split; [done|]. injection Hother as Hother. unfold no_refs, set_refs. congruence. }
  assert (core map2 (a :: es)) as Hco2.
  { split; rewrite ?Ec2; try done.
    - by apply NoDup_cons.
    - intros x. cbn. rewrite elem_of_cons. destruct (decide (x = a)) as [->|Hx]; [rewrite Hn; split; [done|by left]|].
      rewrite Hdom. specialize (Hother x Hx). split.
      + intros [?|[n0 H0]]; [done|]. destruct (Hnew x n0 Hx H0) as (nx & -> & _). done.
      + intros [nx Hnx]. right. destruct (Hold x nx Hx Hnx) as (n0 & -> & _). done.
    - apply Hcr.
    - apply Hcr.
    - intros x nx Hnx. cbn in Hnx. destruct (decide (x = a)) as [->|Hx]; [by rewrite Hn in Hnx; injection Hnx as <-|].
      destruct (Hold x nx Hx Hnx) as (n0 & Hn0 & E0). apply no_refs_same in E0 as (_ & _ & _ & _ & Hk). by apply Hk, Hns.
    - assert (forall x nx, x <> a -> nodes map1 !! x = Some nx -> key_eq (conf map) (node_key nx) (node_key n) = true -> False) as Hno.
      { intros x nx Hx Hnx E. destruct (Hold x nx Hx Hnx) as (n0 & Hn0 & E0). apply no_refs_same in E0 as (E0 & _).
        rewrite E0 in E. assert (node_key n = k) as Ek by (by injection Ep). rewrite Ek in E.
        assert (valid_key (conf map) k) as Hvk by (rewrite <- Ek; by apply (no_valid _ _ _ Hok)).
        pose proof (lookup_node map es x n0 k Hco Hn0 Hvk E) as El. by rewrite (lookup_absent _ _ _ Hab) in El. }
      intros x y nx ny Hnx Hny E. cbn in Hnx, Hny. destruct (decide (x = a)) as [->|Hx], (decide (y = a)) as [->|Hy]; [done| | |].
      + rewrite Hn in Hnx. injection Hnx as <-. destruct (Hno y ny Hy Hny). apply key_eq_sym; [done| | |done].
        * by apply (no_valid _ _ _ Hok).
        * destruct (Hold y ny Hy Hny) as (n0 & Hn0 & E0). apply no_refs_same in E0 as (-> & _). by apply (no_valid _ _ _ (Hns y n0 Hn0)).
      + rewrite Hn in Hny. injection Hny as <-. by destruct (Hno x nx Hx Hnx).
      + destruct (Hold x nx Hx Hnx) as (nx0 & Hx0 & Ex), (Hold y ny Hy Hny) as (ny0 & Hy0 & Ey).
        apply no_refs_same in Ex as (Ex & _), Ey as (Ey & _). rewrite Ex, Ey in E. by eapply Hdis.
    - cbn. rewrite Ecnt, Ecn. unfold ccol_max_elem_count. rewrite zlen_cons. by sz; split; lia. }
  split; [by apply (relinked_core map2)|].
  rewrite (relinked_content map2 map' _ Hre), content_cons. f_equal.
  - apply content_ext. intros x Hx. assert (x <> a) as Hxa by by intros ->. unfold pair_at. cbn.
    pose proof Hx as [n0 Hn0]%Hdom. destruct (Hnew x n0 Hxa Hn0) as (nx & -> & E). rewrite Hn0. by apply no_refs_same in E as (_ & ? & _).
  - unfold pair_at. cbn. rewrite Hn. cbn. by rewrite Ep.
Qed.

(** The insert window is of no concern to what a map represents. *)
Lemma repr_window map es bound win : repr secret map es -> repr secret (set_window map bound win) es.
Proof. intros [H1 [Z1 Z2 Z3 Z4 Z5] H3 H4]. split; [by apply (relinked_core map)|by split|done|done]. Qed.

Lemma wp_switch_all map es m X F (Q : sep_chain_map -> mem -> Prop) : core map es -> sized map -> X ## all_owned map ->
  owns m (all_owned map ∪ X) F ->
  (forall map', repr secret map' es -> relinked map map' -> all_owned map' = all_owned map -> Q map' m) ->
  wp (sc_switch_to_keyed secret map) m Q.
Proof.
  intros Hco Hsz HX Ho HQ. eapply (wp_switch secret Hsecret map es m (bucket_blocks map ∪ X) F); [done|done| |].
  { unfold all_owned in *. owns_tac. }
  intros map' Hr Hre _ _ Eblk. apply HQ; [done|done|]. pose proof Hre as (En & _). destruct (no_links_apart _ _ En) as [_ Eo].
  unfold all_owned, bucket_blocks. by rewrite Eo, Eblk.
Qed.

Lemma wp_settle map es chains walk m X F (Q : sep_chain_map -> mem -> Prop) : core map es -> sized map ->
  (forall x, x ∈ es -> hashed_as secret map (sc_keyed map) x) ->
  buckets (nodes map) (bucket_arr_size map) (heads (bucket_arr map)) es chains ->
  (walk < SC_CHAIN_CAP -> short (sc_keyed map) chains) ->
  X ## all_owned map -> owns m (all_owned map ∪ X) F ->
  (forall map' m', repr secret map' es -> relinked map map' -> X ## all_owned map' -> owns m' (all_owned map' ∪ X) F -> Q map' m') ->
  wp (sc_settle secret map walk) m Q.
Proof.
  intros Hco Hsz Hh Hb Hs HX Ho HQ. unfold sc_settle. apply wp_bind.
  eapply (wp_mono _ _ (fun map1 m1 => m1 = m /\ repr secret map1 es /\ relinked map map1 /\ all_owned map1 = all_owned map)).
  { destruct (walk >=? SC_CHAIN_CAP) eqn:Ew; rewrite Z.geb_leb in Ew.
    - unfold sc_note_long_chain. destruct (sc_keyed map) eqn:Ek; cbn [negb].
      + apply wp_ret. split_and!; [done| |done..]. split; [done|done|by rewrite Ek|]. exists chains. split; [done|]. by rewrite Ek.
      + eapply wp_switch_all; [done..|]. intros map' Hr Hre Eo. done.
    - apply Z.leb_gt in Ew. apply wp_ret. split_and!; [done| |done..]. split; [done..|]. exists chains. split; [done|by apply Hs]. }
  intros map1 ? (-> & Hr1 & Hre1 & Eo1). destruct (sc_window_add map1 walk) as [ended map2] eqn:Ewin.
  unfold sc_window_add in Ewin. injection Ewin as <- <-. set (map2 := set_window _ _ _). apply wp_bind.
  assert (repr secret map2 es) as Hr2 by by apply repr_window.
  eapply (wp_mono _ _ (fun map3 m1 => m1 = m /\ repr secret map3 es /\ relinked map map3 /\ all_owned map3 = all_owned map)).
  { destruct (two32 <=? _); [|by apply wp_ret]. unfold sc_window_end. set (map3 := sc_window_restart map2). cbv zeta.
    assert (repr secret map3 es) as Hr3 by by apply repr_window.
    destruct (_ && _); [|by apply wp_ret]. eapply (wp_switch_all map3 es m X F); [apply Hr3|apply Hr3| | |].
    - change (X ## all_owned map1). by rewrite Eo1.
    - change (owns m (all_owned map1 ∪ X) F). by rewrite Eo1.
    - intros map' Hr' Hre' Eo'. split_and!; [done|done|by apply (relinked_trans _ map1)|]. rewrite Eo'. exact Eo1. }
  intros map3 ? (-> & Hr3 & Hre3 & Eo3). destruct (_ >=? _).
  - eapply (wp_scale secret Hsecret map3 es true m X F); [done|done|by rewrite Eo3|by rewrite Eo3|].
    intros map' m' Hr' Hre' HX' Ho'. apply HQ; [done|by eapply relinked_trans|done|done].
  - apply wp_ret, HQ; [done|done|by rewrite Eo3|by rewrite Eo3].
Qed.

(** A new value for a key. *)
Lemma revalued_repr map es a n key v map' : repr secret map es -> nodes map !! a = Some n -> valid_key (conf map) key ->
  key_eq (conf map) (node_key n) key = true -> revalued (conf map) map a n v map' -> bucket_blocks map ## owned (nodes map') ->
  repr secret map' es /\ content map' es = update_key (key_eq (conf map)) key v (content map es) /\ conf map' = conf map.
Proof.
  intros [Hco [Z1 Z2 Z3 Z4 Z5] Hh (chains & Hb & Hs)] Hn Hk E (s & acc & -> & Eb & Hok & Hap) HX.
  set (n' := set_val n s acc) in *. set (map' := set_node map a n') in *.
  assert (forall x, x <> a -> nodes map' !! x = nodes map !! x) as Hother by (intros x Hx; cbn; by rewrite lookup_insert_ne).
  assert (nodes map' !! a = Some n') as Hn' by (cbn; by rewrite lookup_insert_eq).
  assert (forall x nx', nodes map' !! x = Some nx' -> exists nx, nodes map !! x = Some nx /\ node_key nx' = node_key nx /\ hash_val nx' = hash_val nx) as Hold.
  { intros x nx' Hnx. destruct (decide (x = a)) as [->|Hx]; [|rewrite Hother in Hnx by done; by exists nx'].
    rewrite Hn' in Hnx. injection Hnx as <-. by exists n. }
  assert (core map' es) as Hco'.
  { pose proof Hco as [Hcf Hd Hdom [Hl Hroot] _ Hns Hdis Hcnt]. split; [done|done| | |done| | |done].
    - intros x. rewrite Hdom. destruct (decide (x = a)) as [->|Hx]; [by rewrite Hn, Hn'|by rewrite Hother].
    - split; [|done]. unfold refs. cbn. by rewrite (fmap_upd _ _ _ n).
    - intros x nx Hnx. destruct (decide (x = a)) as [->|Hx]; [by rewrite Hn' in Hnx; injection Hnx as <-|].
      rewrite Hother in Hnx by done. by apply Hns.
    - intros x y nx ny Hnx Hny. destruct (Hold x nx Hnx) as (nx0 & Hx0 & -> & _), (Hold y ny Hny) as (ny0 & Hy0 & -> & _). by apply Hdis. }
  split_and!; [|  |done].
  - split; [done|by split| |].
    + intros x Hx. destruct (Hh x Hx) as (nx & Hnx & Eh). destruct (decide (x = a)) as [->|Hxa].
      * exists n'. split; [done|]. rewrite Hn in Hnx. injection Hnx as <-. exact Eh.
      * exists nx. by rewrite Hother.
    + exists chains. split; [|done]. eapply buckets_ext; [|exact Hb]. intros x Hx. destruct (decide (x = a)) as [->|Hxa]; [by rewrite Hn, Hn'|by rewrite Hother].
  - assert (a ∈ es) as (e1 & e2 & ->)%list_elem_of_split by (apply (co_dom _ _ Hco); by rewrite Hn).
    destruct (content_split map e1 a e2 n key Hco Hn Hk E) as [-> Hab]. rewrite update_mid by done.
    destruct (content_split map' e1 a e2 n' key Hco' Hn' Hk E) as [-> _]. pose proof (co_nodup _ _ Hco) as (Ha1 & Ha2 & _)%NoDup_middle.
    rewrite !(content_ext map map') by (intros x Hx; unfold pair_at; rewrite Hother; [done|by intros ->]).
    do 2 f_equal. unfold node_val at 1. cbn. by rewrite Eb.
Qed.

(** The node of a pair, for the accessors handed out. *)
Definition slot map (out : option nat) (k v : list Z) : Prop :=
  exists a n, out = Some a /\ nodes map !! a = Some n /\ pair_of n = (k, v).

Definition insert_answer map es key v (slot_out : bool) : ccol_retval_t * option nat * sep_chain_map -> list nat -> Prop :=
  fun '(r, out, map') es' =>
    repr secret map' es' /\ conf map' = conf map /\
    match lookup_key (key_eq (conf map)) key (content map es) with
    | Some v0 =>
        es' = es /\
        if slot_out then r = ccol_key_already_present /\ map' = map /\ (exists k, key_eq (conf map) k key = true /\ slot map out k v0)
        else out = None /\
          ((r = ccol_key_already_present /\ content map' es = update_key (key_eq (conf map)) key v (content map es)) \/
           (r = ccol_not_enough_memory /\ map' = map))
    | None =>
        (r = ccol_success /\ content map' es' = content map es ++ [(key, v)] /\
           if slot_out then slot map' out key v else out = None) \/
        (r = ccol_not_enough_memory /\ out = None /\ map' = map /\ es' = es) \/
        (r = ccol_container_full /\ out = None /\ map' = map /\ es' = es /\ zlen (content map es) = ccol_max_elem_count)
    end.

Lemma content_len map es : zlen (content map es) = zlen es.
Proof. unfold content, zlen. by rewrite length_reverse, length_fmap. Qed.

(** The new node goes to the front of its chain. *)
Lemma wp_link_new map map1 es a k v c chains m (Q : sep_chain_map * list (option nat) -> mem -> Prop) :
  let i := hash_index_for (hash_of map k) (bucket_arr_size map) in
  core map es -> created (conf map) map map1 es a k v (hash_of map k) ->
  buckets (nodes map) (bucket_arr_size map) (heads (bucket_arr map)) es chains -> zget chains i = Some c ->
  0 <= i < bucket_arr_size map ->
  (forall map2 arr, no_links <$> nodes map2 = no_links <$> nodes map1 -> all_elems map2 = all_elems map1 ->
     same_frame map map2 -> (forall x, x ∈ a :: es -> hash_val <$> nodes map2 !! x = hash_val <$> nodes map1 !! x) ->
     buckets (nodes map2) (bucket_arr_size map) arr (a :: es) (<[Z.to_nat i := a :: c]> chains) -> Q (map2, arr) m) ->
  wp (link_front map1 (heads (bucket_arr map)) i a) m Q.
Proof.
  intros i Hco Hcr Hb Hc Hi HQ. destruct (created_node _ _ _ _ _ _ _ Hcr Hco) as ((n & Hn & _ & _ & Eh) & Hother & Ha).
  assert (i = home (nodes map1) (bucket_arr_size map) a) as Ei by (unfold home; rewrite Hn; cbn; by rewrite Eh).
  assert (buckets (nodes map1) (bucket_arr_size map) (heads (bucket_arr map)) es chains) as Hb1.
  { eapply buckets_ext; [|exact Hb]. intros x Hx. specialize (Hother x ltac:(by intros ->)).
    destruct (nodes map1 !! x) as [n1|], (nodes map !! x) as [n2|]; cbn [fmap option_fmap option_map] in *; try done.
    assert (no_refs n1 = no_refs n2) as (_ & _ & -> & -> & _)%no_refs_same by congruence. done. }
  rewrite Ei in Hi |- *. eapply wp_link_front; [exact Hb1|done|done|done|]. intros d map2 arr Hd Em Hb2. rewrite <- Ei in *.
  rewrite Hc in Hd. injection Hd as <-. apply HQ; [| | | |done]; rewrite Em.
  - cbn. by apply (fmap_upd _ _ _ n).
  - done.
  - eapply same_frame_trans; [by apply Hcr|]. done.
  - intros x _. cbn. destruct (decide (x = a)) as [->|]; [rewrite lookup_insert_eq, Hn|rewrite lookup_insert_ne by done]; done.
Qed.

(** The new pair, once its node exists. *)
Lemma wp_insert_new map map1 es a k v c chains Y m F (slot_out : bool)
    (Q : ccol_retval_t * option nat * sep_chain_map -> mem -> Prop) :
  let i := hash_index_for (hash_of map k) (bucket_arr_size map) in
  repr secret map es -> elem_count map < ccol_max_elem_count -> created (conf map) map map1 es a k v (hash_of map k) ->
  absent (key_eq (conf map)) k (content map es) ->
  buckets (nodes map) (bucket_arr_size map) (heads (bucket_arr map)) es chains -> short (sc_keyed map) chains ->
  zget chains i = Some c -> 0 <= i < bucket_arr_size map ->
  bucket_blocks map ∪ Y ## owned (nodes map1) -> Y ## bucket_blocks map -> owns m (owned (nodes map1) ∪ (bucket_blocks map ∪ Y)) F ->
  (forall map' m', repr secret map' (a :: es) -> conf map' = conf map -> content map' (a :: es) = content map es ++ [(k, v)] ->
     slot map' (Some a) k v -> Y ## all_owned map' -> owns m' (all_owned map' ∪ Y) F ->
     Q (ccol_success, if slot_out then Some a else None, map') m') ->
  wp ('(map2, arr) ← link_front map1 (heads (bucket_arr map1)) i a;
      let map2 := set_buckets map2 (BucketArray (array_blk (bucket_arr map2)) arr) (bucket_arr_size map2) in
      let map3 := set_count map2 (elem_count map2 ⊕ 1) in
      map4 ← sc_settle secret map3 (zlen c);
      mret (ccol_success, if slot_out then Some a else None, map4)) m Q.
Proof.
  intros i Hr Hlt Hcr Hab Hb Hs Hc Hi HX HY Ho HQ. pose proof Hr as [Hco [Z1 Z2 Z3 Z4 Z5] Hh _].
  destruct (created_node _ _ _ _ _ _ _ Hcr Hco) as ((n & Hn & Hok & Ep & Eh) & Hother & Ha).
  destruct (frame_fields _ _ (cr_frame _ _ _ _ _ _ _ _ Hcr)) as (_ & _ & _ & _ & -> & _).
  apply wp_bind. eapply (wp_link_new map map1 es a k v c chains); [done..|].
  intros map2 arr En Er Hf Ehash Hb2. cbv beta zeta.
  destruct (frame_fields _ _ Hf) as (E1 & E2 & E3 & E4 & E5 & Ecf & Emode). cbn [elem_count set_buckets]. rewrite E1, E2, E5.
  set (map3 := set_count (set_buckets map2 (BucketArray (array_blk (bucket_arr map)) arr) (bucket_arr_size map)) (elem_count map ⊕ 1)).
  destruct (inserted_core map map1 map3 es a k v _ Hco Hlt Hcr Hab En Er) as [Hco3 Hct3]; [by cbn; rewrite Hf|done|].
  assert (owned (nodes map3) = owned (nodes map1)) as Eo by by apply (no_links_apart _ _ En).
  assert (bucket_blocks map3 = bucket_blocks map) as Ebb by done.
  assert (sc_keyed map3 = sc_keyed map) as Ek by (unfold sc_keyed; cbn; by rewrite Emode).
  apply wp_bind. eapply (wp_settle map3 (a :: es) (<[Z.to_nat i := a :: c]> chains) (zlen c) m Y F); [done| | |done| | | |].
  - split; cbn; [done|by rewrite E3|by rewrite E4|by rewrite Ecf|]. rewrite Ebb. unfold map3 in Eo. cbn in Eo. rewrite Eo. clear -HX. set_solver.
  - intros x Hx. rewrite Ek. assert (exists n1, nodes map1 !! x = Some n1 /\ hash_val n1 = key_hash secret (conf map) (sc_keyed map) (node_key n1)) as (n1 & Hn1 & Eh1).
    { apply elem_of_cons in Hx as [->|Hx]; [exists n; split; [done|]; rewrite Eh; injection Ep as <- _; done|].
      destruct (Hh x Hx) as (n0 & Hn0 & Eh0). specialize (Hother x ltac:(by intros ->)). rewrite Hn0 in Hother.
      destruct (nodes map1 !! x) as [n1|]; [|done]. exists n1. split; [done|]. cbn [fmap option_fmap option_map] in Hother.
      assert (no_refs n1 = no_refs n0) as (-> & _ & -> & _)%no_refs_same by congruence. done. }
    destruct (fmap_lookup_same no_links _ _ x n1 En Hn1) as (n2 & Hn2 & El2). specialize (Ehash x Hx). rewrite Hn1, Hn2 in Ehash.
    cbn in Ehash. injection Ehash as Ehash. apply no_links_same in El2 as (Ekey & _). exists n2. split; [done|].
    rewrite Ehash, Ekey. change (conf map3) with (conf map2). by rewrite Ecf.
  - intros Hw Hkf. rewrite Ek in Hkf. apply Forall_insert; [by apply Hs|]. rewrite zlen_cons. lia.
  - unfold all_owned. rewrite Eo, Ebb. clear -HX HY. set_solver.
  - unfold all_owned. rewrite Eo, Ebb. owns_tac.
  - intros map4 m' Hr4 Hre HY4 Ho4. apply wp_ret. pose proof Hre as (_ & _ & Ec4 & _).
    apply HQ; [done| | | |done|done].
    + rewrite Ec4. exact Ecf.
    + by rewrite (relinked_content _ _ _ Hre).
    + destruct (fmap_lookup_same no_links _ _ a n En Hn) as (n2 & Hn2 & El2).
      pose proof (proj1 Hre) as En4. destruct (fmap_lookup_same no_links _ _ a n2 En4 Hn2) as (n4 & Hn4 & El4).
      exists a, n4. split; [done|]. split; [done|]. apply no_links_same in El4 as (_ & -> & _), El2 as (_ & -> & _). done.
Qed.

Lemma wp_insert_impl map es kp vp k v Y m F slot_out (Q : ccol_retval_t * option nat * sep_chain_map -> mem -> Prop) :
  repr secret map es -> key_arg map kp k -> gives map vp v -> Y ## all_owned map -> owns m (all_owned map ∪ Y) F ->
  (forall a es' m', insert_answer map es k v slot_out a es' -> Y ## all_owned (snd a) -> owns m' (all_owned (snd a) ∪ Y) F -> Q a m') ->
  wp (sc_insert_impl secret map kp vp slot_out) m Q.
Proof.
  intros Hr Hkp Hvp HY Ho HQ. pose proof Hr as [Hco Hsz _ _]. pose proof Hkp as [Hgk Hk]. unfold sc_insert_impl.
  pose proof (sz_apart _ Hsz) as Hbb.
  assert (owns m (owned (nodes map) ∪ (bucket_blocks map ∪ Y)) F) as Ho' by (unfold all_owned in *; owns_tac).
  assert (bucket_blocks map ∪ Y ## owned (nodes map)) as HX by (unfold all_owned in HY; clear -HY Hbb; set_solver).
  apply wp_bind. eapply wp_read_arg; [done..|]. apply wp_bind. eapply wp_sc_hash; [done..|].
  cbv zeta. eapply wp_search; [done|done|done| |].
  - intros a n Hn E. pose proof (lookup_node map es a n k Hco Hn Hk E) as El. destruct slot_out.
    + apply wp_ret. apply (HQ _ es); [|done|done]. split; [done|]. split; [done|]. rewrite El. split; [done|]. split_and!; [done|done|].
      exists (node_key n). split; [done|]. by exists a, n.
    + apply wp_bind. eapply (wp_reset_val (conf map) map a n vp v m (bucket_blocks map ∪ Y) F); [apply Hco|done|by eapply co_nodes|done..| |].
      * intros m' Ho1. apply wp_ret. apply (HQ _ es); [|done|cbn; unfold all_owned; owns_tac].
        split; [done|]. split; [done|]. rewrite El. split; [done|]. split; [done|]. by right.
      * intros map' m' Hrev HX' Ho1. apply wp_ret.
        assert (bucket_blocks map' = bucket_blocks map) as Ebb by by destruct Hrev as (s & acc & -> & _).
        destruct (revalued_repr map es a n k v map' Hr Hn Hk E Hrev) as (Hr' & Hct & Ecf); [clear -HX'; set_solver|].
        apply (HQ _ es); [|cbn; unfold all_owned; rewrite Ebb; unfold all_owned in HY; clear -HX' HY; set_solver|cbn; unfold all_owned; rewrite Ebb; owns_tac].
        split; [done|]. split; [done|]. rewrite El. split; [done|]. split; [done|]. by left.
  - intros chains c Hab Hb Hs Hc. pose proof (lookup_absent _ _ _ Hab) as El. destruct (co_count _ _ Hco) as [Ecnt Hmax].
    destruct (Z.eqb_spec (elem_count map) ccol_max_elem_count) as [Efull|Hnf].
    { apply wp_ret. apply (HQ _ es); [|done|done]. split; [done|]. split; [done|]. rewrite El. right. right. split_and!; [done..|].
      rewrite content_len. congruence. }
    apply wp_bind. eapply (wp_create_node (conf map) map es _ kp vp k v m (bucket_blocks map ∪ Y) F); [apply Hco|by eapply co_listed|by eapply co_nodup|by intros x ?%(co_dom _ _ Hco)|done|done|done|done|done| |].
    + intros m' Ho1. apply wp_ret. apply (HQ _ es); [|done|cbn; unfold all_owned; owns_tac].
      split; [done|]. split; [done|]. rewrite El. right. by left.
    + intros a map1 m' Hcr HX1 Ho1.
      assert (0 <= hash_index_for (hash_of map k) (bucket_arr_size map) < bucket_arr_size map) as Hi.
      { apply zget_Some_lt in Hc. by rewrite (bk_len _ _ _ _ _ Hb) in Hc. }
      eapply (wp_insert_new map map1 es a k v c chains Y m' F slot_out); [done|lia|done..| |done|].
      * unfold all_owned in HY. clear -HY. set_solver.
      * intros map' m2 Hr' Ecf Hct Hsl HY' Ho2. apply (HQ _ (a :: es)); [|done|done]. split; [done|]. split; [done|]. rewrite El.
        left. split_and!; [done|done|]. by destruct slot_out.
Qed.

(** ** Deletion *)
Lemma buckets_remove ns ns' size hs e1 x e2 chains l1 l2 i : buckets ns size hs (e1 ++ x :: e2) chains ->
  NoDup (e1 ++ x :: e2) -> zget chains i = Some (l1 ++ x :: l2) ->
  no_refs <$> ns' = no_refs <$> delete x (unlink l1 l2 ns) ->
  buckets ns' size (<[Z.to_nat i := head (l1 ++ l2)]> hs) (e1 ++ e2) (<[Z.to_nat i := l1 ++ l2]> chains).
Proof.
  intros Hb Hd Hc En. pose proof Hb as [Hhs Hl Hch Hh Hall]. pose proof (zget_Some_lt _ _ _ Hc) as Hi.
  pose proof (buckets_nodup _ _ _ _ _ _ _ Hb Hd Hc) as Hdc. pose proof (NoDup_middle _ _ _ Hdc) as (Hx1 & Hx2 & Hdc').
  pose proof (Hch i _ Hc) as Hchi.
  assert (next <$> ns' = delete x (next <$> unlink l1 l2 ns)) as Enx by (rewrite <- fmap_delete; by apply (fmap_through no_refs)).
  assert (hash_val <$> ns' = delete x (hash_val <$> ns)) as Ehv.
  { rewrite <- (unlink_fmap hash_val l1 l2 ns), <- fmap_delete by done. by apply (fmap_through no_refs). }
  assert (forall y, y <> x -> home ns' size y = home ns size y) as Ehome.
  { intros y Hy. apply (f_equal (fun h => h !! y)) in Ehv. rewrite lookup_delete_ne, !lookup_fmap in Ehv by done.
    unfold home. f_equal. destruct (ns' !! y), (ns !! y); cbn in *; congruence. }
  assert (forall y, y ∈ l1 ++ x :: l2 -> is_Some (ns !! y)) as Hin.
  { intros y (k1 & k2 & E)%list_elem_of_split. rewrite E in Hchi. apply chain_app, chain_node in Hchi as (n & -> & _). done. }
  assert (forall y, y ∉ l1 ++ x :: l2 -> (next <$> ns') !! y = (next <$> ns) !! y) as Hsame.
  { intros y Hy. rewrite Enx, lookup_delete_ne, unlink_nexts by set_solver. destruct (last l1) as [p|] eqn:Ep; [|done]. cbn.
    case_decide; [|done]. apply last_Some in Ep as (l' & ->). rewrite lookup_insert_ne; [done|set_solver]. }
  split.
  - by rewrite fmap_upd_list, Hhs.
  - unfold zlen in *. by rewrite length_insert.
  - intros j d Hd'. apply zget_upd in Hd' as [(-> & -> & _)|[Hj Hd']]; [| |lia].
    + rewrite Enx. apply chain_delete; [set_solver|]. pose proof (chain_unlink _ _ _ _ Hdc Hchi) as Hu. rewrite unlink_nexts.
      destruct (last l1) as [p|] eqn:Ep; [|done]. cbn in *. rewrite decide_True; [done|]. apply Hin. apply last_Some in Ep as (l' & ->). set_solver.
    + apply (chain_ext (next <$> ns)); [|by eapply Hch]. intros y Hy. apply Hsame. intros Hyi. apply Hj.
      by rewrite <- (Hh j d y Hd' Hy), <- (Hh i _ y Hc Hyi).
  - intros j d y Hd' Hy. apply zget_upd in Hd' as [(-> & -> & _)|[Hj Hd']]; [| |lia].
    + rewrite Ehome; [eapply Hh; [done|]; set_solver|]. intros ->. set_solver.
    + rewrite Ehome; [by eapply Hh|]. intros ->. apply Hj. rewrite <- (Hh j d x Hd' Hy), <- (Hh i _ x Hc); [done|set_solver].
  - rewrite (concat_upd _ _ _ _ Hc). apply (Permutation_cons_inv (a := x)). rewrite (Permutation_middle e1 e2 x).
    change (x :: (l1 ++ l2) ++ concat (ztake i chains ++ zdrop (i + 1) chains)) with ((x :: (l1 ++ l2)) ++ concat (ztake i chains ++ zdrop (i + 1) chains)).
    rewrite (Permutation_middle l1 l2 x), <- (concat_split _ _ _ Hc). done.
Qed.

(** The map with the node taken out. *)
Lemma removed_core map map' e1 x e2 l1 l2 : core map (e1 ++ x :: e2) ->
  no_refs <$> nodes map' = no_refs <$> delete x (unlink l1 l2 (nodes map)) -> listed map' (e1 ++ e2) ->
  conf map' = conf map -> elem_count map' = elem_count map ⊖ 1 ->
  core map' (e1 ++ e2) /\ (forall y, y <> x -> pair_at map' y = pair_at map y) /\
  (forall keyed y, y ∈ e1 ++ e2 -> hashed_as secret map keyed y -> hashed_as secret map' keyed y) /\
  owned (nodes map') ⊆ owned (nodes map).
Proof.
  intros [Hcf Hd Hdom Hl Hap Hns Hdis [Ecn Hmax]] En Hl' Ec Ecnt. pose proof (NoDup_middle _ _ _ Hd) as (Hx1 & Hx2 & Hd').
  set (view n := (no_next (no_refs n))). assert (view <$> nodes map' = delete x (view <$> nodes map)) as Ev.
  { rewrite <- (unlink_fmap view l1 l2 (nodes map)), <- fmap_delete by done. by apply (fmap_through no_refs). }
  assert (forall y n', nodes map' !! y = Some n' -> y <> x /\ exists n, nodes map !! y = Some n /\ view n' = view n) as Hold.
  { intros y n' Hn'. pose proof (f_equal (fun ns => ns !! y) Ev) as Ey. cbn beta in Ey. rewrite lookup_fmap, Hn' in Ey.
    destruct (decide (y = x)) as [->|Hyx]; [by rewrite lookup_delete_eq in Ey|]. split; [done|].
    rewrite lookup_delete_ne, lookup_fmap in Ey by done. destruct (nodes map !! y) as [n|]; [|done].
    exists n. split; [done|]. unfold view. cbn [fmap option_fmap option_map] in Ey. unfold view in Ey. congruence. }
  assert (forall y n, y <> x -> nodes map !! y = Some n -> exists n', nodes map' !! y = Some n' /\ view n' = view n) as Hnew.
  { intros y n Hyx Hn. pose proof (f_equal (fun ns => ns !! y) Ev) as Ey. cbn beta in Ey.
    rewrite lookup_delete_ne, !lookup_fmap, Hn in Ey by done. destruct (nodes map' !! y) as [n'|]; [|done].
    exists n'. split; [done|]. cbn [fmap option_fmap option_map] in Ey. unfold view in *. congruence. }
  assert (forall n n', view n' = view n -> node_key n' = node_key n /\ pair_of n' = pair_of n /\ hash_val n' = hash_val n /\
    (forall c y, node_ok c y n -> node_ok c y n')) as Hview.
  { intros n n' E. apply (f_equal (fun n => (key_storage n, val_storage n, key_pair_accessor n, val_pair_accessor n, hash_val n))) in E.
    cbn in E. injection E as E1 E2 E3 E4 E5. unfold pair_of, node_key, node_val. rewrite E1, E2. split_and!; [done..|].
    intros c y [H1 H2 H3 H4]. unfold node_key, blocks_of, buffers in *.
    split; unfold node_key, blocks_of, buffers; by rewrite ?E1, ?E2, ?E3, ?E4. }
  destruct (apart_blocks (delete x (nodes map)) (nodes map')) as [Hap' Eo'].
  { rewrite fmap_delete, <- (unlink_fmap _ l1 l2 (nodes map)), <- fmap_delete by done. by apply (fmap_through no_refs). }
  split_and!.
  - split; rewrite ?Ec; try done.
    + intros y. rewrite elem_of_app. destruct (decide (y = x)) as [->|Hyx].
      * split; [by intros [?|?]|]. intros [n' Hn']. by destruct (Hold x n' Hn').
      * specialize (Hdom y). rewrite elem_of_app, elem_of_cons in Hdom. split.
        -- intros Hy. assert (is_Some (nodes map !! y)) as [n Hn] by (apply Hdom; tauto). destruct (Hnew y n Hyx Hn) as (n' & -> & _). done.
        -- intros [n' Hn']. destruct (Hold y n' Hn') as (_ & n & Hn & _). assert (is_Some (nodes map !! y)) as Hs by by rewrite Hn. tauto.
    + by apply Hap', apart_delete.
    + intros y n' Hn'. destruct (Hold y n' Hn') as (_ & n & Hn & E). by apply (Hview _ _ E), Hns.
    + intros y z ny nz Hy Hz. destruct (Hold y ny Hy) as (_ & ny0 & Hy0 & Ey), (Hold z nz Hz) as (_ & nz0 & Hz0 & Ez).
      rewrite (proj1 (Hview _ _ Ey)), (proj1 (Hview _ _ Ez)). by apply Hdis.
    + rewrite Ecnt, Ecn. unfold ccol_max_elem_count in *. rewrite !zlen_app, zlen_cons in *. zlen_facts. by sz; split; lia.
  - intros y Hyx. unfold pair_at. destruct (nodes map !! y) as [n|] eqn:Hn.
    + destruct (Hnew y n Hyx Hn) as (n' & -> & E). by apply (Hview _ _ E).
    + destruct (nodes map' !! y) as [n'|] eqn:Hn'; [|done]. destruct (Hold y n' Hn') as (_ & n & Hn0 & _). congruence.
  - intros keyed y Hy (n & Hn & Eh). assert (y <> x) as Hyx by (intros ->; set_solver).
    destruct (Hnew y n Hyx Hn) as (n' & Hn' & E). exists n'. split; [done|]. destruct (Hview _ _ E) as (-> & _ & -> & _). by rewrite Ec.
  - rewrite Eo'. intros b. rewrite !elem_owned. intros (a & n & Hn & Hbn). apply lookup_delete_Some in Hn as [_ Hn]. by exists a, n.
Qed.

Definition delete_answer map es key : ccol_retval_t * sep_chain_map -> list nat -> Prop := fun '(r, map') es' =>
  repr secret map' es' /\ conf map' = conf map /\
  match lookup_key (key_eq (conf map)) key (content map es) with
  | Some _ => r = ccol_success /\ content map' es' = remove_key (key_eq (conf map)) key (content map es)
  | None => r = ccol_key_not_found /\ map' = map /\ es' = es
  end.

(** What is left of a deletion once the node is gone. *)
Lemma wp_delete_rest map map1 e1 x e2 l1 l2 chains n key Y m F (Q : ccol_retval_t * sep_chain_map -> mem -> Prop) :
  let i := hash_index_for (hash_of map key) (bucket_arr_size map) in
  repr secret map (e1 ++ x :: e2) -> valid_key (conf map) key -> nodes map !! x = Some n -> key_eq (conf map) (node_key n) key = true ->
  buckets (nodes map) (bucket_arr_size map) (heads (bucket_arr map)) (e1 ++ x :: e2) chains -> short (sc_keyed map) chains ->
  zget chains i = Some (l1 ++ x :: l2) -> same_frame map map1 ->
  no_refs <$> nodes map1 = no_refs <$> delete x (unlink l1 l2 (nodes map)) ->
  holding map1 (e1 ++ e2) (bucket_blocks map ∪ Y) F m -> Y ## bucket_blocks map ->
  (forall a es' m', delete_answer map (e1 ++ x :: e2) key a es' -> Y ## all_owned (snd a) -> owns m' (all_owned (snd a) ∪ Y) F -> Q a m') ->
  wp (arr ← ub (zset (heads (bucket_arr map)) i (head (l1 ++ l2)));
      let map2 := set_buckets map1 (BucketArray (array_blk (bucket_arr map1)) arr) (bucket_arr_size map1) in
      let map3 := set_count map2 (elem_count map2 ⊖ 1) in
      map4 ← (if (elem_count map3 <? elem_count_to_scale_down map3) &&
                 (bucket_arr_size map3 >? minimum_allowed_bucket_array_size)
              then sc_scale secret map3 false else mret map3);
      mret (ccol_success, map4)) m Q.
Proof.
  intros i Hr Hk Hn E Hb Hs Hc Hf En Hh HY HQ. pose proof Hr as [Hco [Z1 Z2 Z3 Z4 Z5] Hhash _].
  pose proof (zget_Some_lt _ _ _ Hc) as Hi. assert (zlen (heads (bucket_arr map)) = zlen chains) as Elen by (rewrite (bk_heads _ _ _ _ _ Hb); by rewrite zlen_fmap).
  pose proof (buckets_remove _ _ _ _ _ _ _ _ _ _ _ Hb (co_nodup _ _ Hco) Hc En) as Hb'.
  unfold zset. destruct (Z.leb_spec 0 i), (Z.ltb_spec i (zlen (heads (bucket_arr map)))); try lia. cbn [andb ub].
  apply wp_bind, wp_ret. destruct (frame_fields _ _ Hf) as (F1 & F2 & F3 & F4 & F5 & F6 & F7).
  cbv beta zeta. cbn [elem_count set_buckets]. rewrite F1, F2, F5.
  set (map3 := set_count _ _). destruct Hh as [Hap Hns Hl Hd HX Ho].
  destruct (removed_core map map3 e1 x e2 l1 l2 Hco En) as (Hco3 & Hpair & Hhashed & Hsub); [done|by cbn; rewrite F6|done|].
  assert (repr secret map3 (e1 ++ e2)) as Hr3.
  { split; [done| | |].
    - split; cbn; [done|by rewrite F3|by rewrite F4|by rewrite F6|]. change (bucket_blocks map3) with (bucket_blocks map).
      change (nodes map3) with (nodes map1) in Hsub. clear -Z5 Hsub. set_solver.
    - intros y Hy. assert (sc_keyed map3 = sc_keyed map) as -> by (unfold sc_keyed; cbn; by rewrite F7).
      apply Hhashed; [done|]. apply Hhash. set_solver.
    - exists (<[Z.to_nat i := l1 ++ l2]> chains). split; [done|]. unfold sc_keyed. cbn. rewrite F7. intros Ek. specialize (Hs Ek).
      apply Forall_insert; [done|]. rewrite Forall_forall in Hs. specialize (Hs _ (zget_elem _ _ _ Hc)).
      rewrite zlen_app, zlen_cons in Hs. rewrite zlen_app. lia. }
  assert (content map3 (e1 ++ e2) = remove_key (key_eq (conf map)) key (content map (e1 ++ x :: e2)) /\
    lookup_key (key_eq (conf map)) key (content map (e1 ++ x :: e2)) = Some (node_val n)) as [Hct Hlk].
  { destruct (content_split map e1 x e2 n key Hco Hn Hk E) as [-> Hab]. rewrite remove_mid, lookup_mid by done. split; [|done].
    pose proof (co_nodup _ _ Hco) as (Hx1 & Hx2 & _)%NoDup_middle. rewrite content_app.
    f_equal; apply content_ext; intros y Hy; apply Hpair; by intros ->. }
  assert (Y ## all_owned map3 /\ owns m (all_owned map3 ∪ Y) F) as [HY3 Ho3].
  { unfold all_owned. change (bucket_blocks map3) with (bucket_blocks map). split; [clear -HX HY; set_solver|]. cbn. owns_tac. }
  apply wp_bind. destruct ((elem_count map3 <? elem_count_to_scale_down map3) && _) eqn:Edown.
  - eapply (wp_scale secret Hsecret map3 (e1 ++ e2) false m Y F); [done| |done|done|].
    + intros _. apply andb_true_iff in Edown as [_ Ed]. rewrite Z.gtb_ltb in Ed. by apply Z.ltb_lt in Ed.
    + intros map' m' Hr' Hre' HY' Ho'. apply wp_ret, (HQ _ (e1 ++ e2)); [|done|done]. pose proof Hre' as (_ & _ & Ec & _).
      split; [done|]. split; [rewrite Ec; exact F6|]. rewrite Hlk. split; [done|]. by rewrite (relinked_content _ _ _ Hre').
  - apply wp_ret, wp_ret, (HQ _ (e1 ++ e2)); [|done|done]. split; [done|]. split; [exact F6|]. by rewrite Hlk.
Qed.

Lemma wp_sc_delete map es kp key Y m F (Q : ccol_retval_t * sep_chain_map -> mem -> Prop) :
  repr secret map es -> key_arg map kp key -> Y ## all_owned map -> owns m (all_owned map ∪ Y) F ->
  (forall a es' m', delete_answer map es key a es' -> Y ## all_owned (snd a) -> owns m' (all_owned (snd a) ∪ Y) F -> Q a m') ->
  wp (sc_delete secret map kp) m Q.
Proof.
  intros Hr Hkp HY Ho HQ. pose proof Hr as [Hco Hsz _ _]. pose proof Hkp as [_ Hk]. pose proof (sz_apart _ Hsz) as Hbb. unfold sc_delete.
  apply wp_bind. eapply wp_read_arg; [done..|]. apply wp_bind. eapply wp_sc_hash; [done..|]. cbv zeta.
  destruct (repr_chain map es key Hr Hk) as (chains & c & Hb & Hs & Hi & Hc & Hhd & Hse & Hsub & Hall). rewrite Hhd. cbn [ub].
  apply wp_bind, wp_ret, wp_bind. set (i := hash_index_for _ _) in *.
  assert (owns m (owned (nodes map) ∪ (bucket_blocks map ∪ Y)) F) as Ho' by (unfold all_owned in *; owns_tac).
  assert (holding map es (bucket_blocks map ∪ Y) F m) as Hh.
  { split; [by eapply co_apart|by eapply co_nodes|by eapply co_listed|by eapply co_nodup| |done]. unfold all_owned in HY. clear -HY Hbb. set_solver. }
  assert (sc_delete_from_llist map (head c) (hash_of map key) key =
    delete_matching map (head c) (match custom_key_equality_proc (conf map) with
      | Some e => custom_match map e (hash_of map key) key | None => builtin_match map (hash_of map key) key end)) as ->.
  { unfold sc_delete_from_llist. by destruct (custom_key_equality_proc (conf map)). }
  eapply (wp_delete_matching map c es (hash_of map key) key _ m _ F); [by apply Hse|done|done|done| |].
  - intros Hno. assert (zlen (heads (bucket_arr map)) = zlen chains) as Elen by (rewrite (bk_heads _ _ _ _ _ Hb); by rewrite zlen_fmap).
    rewrite (bk_len _ _ _ _ _ Hb) in Elen. unfold zset. destruct (Z.leb_spec 0 i), (Z.ltb_spec i (zlen (heads (bucket_arr map)))); try lia.
    cbn [andb ub]. apply wp_bind, wp_ret, wp_ret.
    assert (<[Z.to_nat i := head c]> (heads (bucket_arr map)) = heads (bucket_arr map)) as ->.
    { apply list_insert_id. unfold zget in Hhd. destruct (0 <=? i); [done|done]. }
    assert (set_buckets map (BucketArray (array_blk (bucket_arr map)) (heads (bucket_arr map))) (bucket_arr_size map) = map) as -> by (by destruct map as [? ? ? ? [] ? ? ? ? ? ?]).
    apply (HQ _ es); [|done|done]. split; [done|]. split; [done|]. rewrite lookup_absent; [done|].
    apply absent_content; [done|]. intros x n Hx Hn. apply not_true_is_false. intros E. specialize (Hno x (Hall x n Hn E)).
    by rewrite (matches_key map es x n key Hr Hn Hk), E in Hno.
  - intros l1 x l2 e1 e2 map1 m1 -> -> Em Hf En Hh1.
    assert (exists n, nodes map !! x = Some n) as [n Hn] by (apply (co_dom _ _ Hco); set_solver).
    rewrite (matches_key map _ x n key Hr Hn Hk) in Em.
    eapply (wp_delete_rest map map1 e1 x e2 l1 l2 chains n key Y m1 F); try done. unfold all_owned in HY. clear -HY. set_solver.
Qed.

(** ** Destruction *)

(** [map'] is [map] with only the nodes of [es] left. *)
Record remaining map map' es X F m : Prop := Remaining {
  rm_frame : same_frame map map';
  rm_holding : holding map' es X F m;
  rm_dom : forall x, x ∈ es <-> is_Some (nodes map' !! x);
  rm_same : forall x, x ∈ es -> no_refs <$> nodes map' !! x = no_refs <$> nodes map !! x;
}.

Lemma remaining_chain map map' es X F m c : remaining map map' es X F m -> c ⊆ es -> chain (next <$> nodes map) c ->
  chain (next <$> nodes map') c.
Proof.
  intros Hrm Hsub. apply chain_ext. intros x Hx. pose proof (rm_same _ _ _ _ _ _ Hrm x (Hsub x Hx)) as E. rewrite !lookup_fmap.
  destruct (nodes map' !! x) as [n'|], (nodes map !! x) as [n|]; cbn [fmap option_fmap option_map] in *; try done.
  assert (no_refs n' = no_refs n) as (_ & _ & _ & -> & _)%no_refs_same by congruence. done.
Qed.

Lemma wp_destroy_one map map' e1 x e2 X F m (Q : sep_chain_map -> mem -> Prop) : remaining map map' (e1 ++ x :: e2) X F m ->
  (forall map2 m2, remaining map map2 (e1 ++ e2) X F m2 -> Q map2 m2) ->
  wp (sc_destroy_llist_node map' true x) m Q.
Proof.
  intros [Hf Hh Hdom Hsame] HQ. pose proof (hd_nodup _ _ _ _ _ Hh) as (Hx1 & Hx2 & _)%NoDup_middle.
  eapply (wp_destroy_listed map' e1 x e2 m X F); [done|]. intros map2 m2 Hf2 En Hh2.
  assert (forall y, y <> x -> no_refs <$> nodes map2 !! y = no_refs <$> nodes map' !! y) as Hother.
  { intros y Hy. apply (f_equal (fun ns => ns !! y)) in En. rewrite !lookup_fmap, lookup_delete_ne in En by done. done. }
  apply HQ. split; [by eapply same_frame_trans|done| |].
  - intros y. rewrite elem_of_app. destruct (decide (y = x)) as [->|Hy].
    + split; [by intros [?|?]|]. apply (f_equal (fun ns => ns !! x)) in En. rewrite !lookup_fmap, lookup_delete_eq in En.
      intros [n Hn]. by rewrite Hn in En.
    + specialize (Hdom y). rewrite elem_of_app, elem_of_cons in Hdom. rewrite <- (fmap_is_Some no_refs), Hother, fmap_is_Some by done. tauto.
  - intros y Hy. assert (y <> x) as Hyx by (intros ->; set_solver). rewrite Hother by done. apply Hsame. set_solver.
Qed.

(** A chain, and then every chain. *)
Lemma wp_destroy_chain map map' c es X F m (Q : sep_chain_map -> mem -> Prop) : remaining map map' es X F m ->
  c ⊆ es -> chain (next <$> nodes map) c -> NoDup c ->
  (forall map2 m2 es2, es ≡ₚ c ++ es2 -> remaining map map2 es2 X F m2 -> Q map2 m2) ->
  wp (sc_destroy_the_whole_llist map' (head c)) m Q.
Proof.
  intros Hrm Hsub Hc Hd HQ. unfold sc_destroy_the_whole_llist.
  apply (wp_loop_list (fun ys '(t, map2) m2 => t = head ys /\ exists pre es2, c = pre ++ ys /\ es ≡ₚ pre ++ es2 /\
    remaining map map2 es2 X F m2) c).
  - intros [t map2] m2 (-> & pre & es2 & E & Ep & Hrm2). apply wp_ret. eexists. split; [done|]. rewrite app_nil_r in E. subst pre. by eapply HQ.
  - intros x ys [t map2] m2 (-> & pre & es2 & E & Ep & Hrm2). rewrite E in Hsub, Hc, Hd.
    assert (x :: ys ⊆ es2) as Hys.
    { intros y Hy. assert (y ∈ es) as Hyes by (apply Hsub; set_solver). rewrite Ep, elem_of_app in Hyes. destruct Hyes as [Hyes|]; [|done].
      apply NoDup_app in Hd as (_ & Hd & _). by destruct (Hd y Hyes). }
    pose proof (remaining_chain _ _ _ _ _ _ _ Hrm2 Hys (chain_app _ _ _ Hc)) as (n & Hn & En & _)%chain_node.
    apply wp_bind, (wp_node_at _ _ n); [done|]. assert (x ∈ es2) as (e1 & e2 & ->)%list_elem_of_split by set_solver.
    apply wp_bind. eapply wp_destroy_one; [done|]. intros map3 m3 Hrm3. apply wp_ret. split; [done|].
    exists (pre ++ [x]), (e1 ++ e2). split_and!; [by rewrite <- app_assoc| |done]. rewrite Ep, <- app_assoc. cbn. by rewrite Permutation_middle.
  - split; [done|]. by exists [], es.
  - apply le_n_S. apply NoDup_size; [done|]. intros x Hx. apply (rm_dom _ _ _ _ _ _ Hrm). by apply Hsub.
Qed.

Definition emptied map : sep_chain_map := set_root (set_nodes map ∅) (DllistRoot None None).

Lemma remaining_none map map' X F m : remaining map map' [] X F m -> map' = emptied map /\ owns m X F.
Proof.
  intros [Hf [_ _ [_ Hroot] _ _ Ho] Hdom _]. assert (nodes map' = ∅) as En.
  { apply map_empty. intros x. destruct (nodes map' !! x) as [n|] eqn:Hn; [|done].
    assert (x ∈ []) as Hx by (apply Hdom; by rewrite Hn). by apply not_elem_of_nil in Hx. }
  rewrite En in Ho. split; [rewrite Hf; unfold emptied; by rewrite En, Hroot|].
  apply (owns_change _ _ _ _ Ho). apply set_eq. intros b. rewrite elem_of_union, elem_owned. split; [|tauto].
  intros [(a & n & Hn & _)|]; [by rewrite lookup_empty in Hn|done].
Qed.

Lemma wp_destroy_chains map es Y m F (Q : sep_chain_map -> mem -> Prop) : repr secret map es -> Y ## all_owned map ->
  owns m (all_owned map ∪ Y) F -> (forall m', owns m' (bucket_blocks map ∪ Y) F -> Q (emptied map) m') ->
  wp (destroy_chains map) m Q.
Proof.
  intros [Hco Hsz _ (chains & Hb & _)] HY Ho HQ. unfold destroy_chains. pose proof (buckets_range _ (sz_size _ Hsz)).
  pose proof (sz_apart _ Hsz) as Hbb. set (X := bucket_blocks map ∪ Y) in *.
  assert (remaining map map es X F m) as Hrm0.
  { split; [apply same_frame_refl| |by eapply co_dom|done].
    split; [by eapply co_apart|by eapply co_nodes|by eapply co_listed|by eapply co_nodup| |].
    - unfold all_owned in HY. unfold X. clear -HY Hbb. set_solver.
    - unfold all_owned, X in *. owns_tac. }
  apply wp_bind. apply (wp_while (fun '(i, map') m' => 0 <= i <= bucket_arr_size map /\ exists es',
    es ≡ₚ concat (ztake i chains) ++ es' /\ remaining map map' es' X F m') (fun '(i, _) => Z.to_nat (bucket_arr_size map - i))).
  - intros [i map'] m' (Hi & es' & Ep & Hrm) Hlt%Z.ltb_lt.
    destruct (buckets_at _ _ _ _ _ i Hb ltac:(lia)) as (c & Hc & Hhd & Hch & Hsub). rewrite Hhd. cbn [ub]. apply wp_bind, wp_ret, wp_bind.
    pose proof (bk_all _ _ _ _ _ Hb) as Hall. rewrite (zget_split _ _ _ Hc), concat_app in Hall. cbn [concat] in Hall.
    pose proof (co_nodup _ _ Hco) as Hnd. rewrite <- Hall in Hnd.
    assert (c ⊆ es') as Hce.
    { intros x Hx. pose proof (Hsub x Hx) as Hxe. rewrite Ep, elem_of_app in Hxe. destruct Hxe as [Hxe|]; [|done].
      apply NoDup_app in Hnd as (_ & Hnd & _). destruct (Hnd x Hxe). set_solver. }
    eapply (wp_destroy_chain map map' c es' X F m'); [done..|by eapply buckets_nodup, Hc; [exact Hb|by eapply co_nodup]|].
    intros map2 m2 es2 Ep2 Hrm2. apply wp_ret. sz. split; [|lia]. split; [lia|]. exists es2. split; [|done].
    rewrite (ztake_snoc _ _ _ Hc), concat_app. cbn [concat]. by rewrite app_nil_r, <- app_assoc, <- Ep2.
  - intros [i map'] m' (Hi & es' & Ep & Hrm) Hge%Z.ltb_ge. apply wp_ret. pose proof (bk_len _ _ _ _ _ Hb).
    rewrite ztake_all, (bk_all _ _ _ _ _ Hb) in Ep by lia. assert (es' = []) as ->.
    { apply Permutation_length in Ep. rewrite length_app in Ep. apply length_zero_iff_nil. lia. }
    apply remaining_none in Hrm as [-> Ho']. by apply HQ.
  - split; [lia|]. by exists es.
  - lia.
Qed.

Lemma wp_sc_destroy map es m F (Q : unit -> mem -> Prop) : repr secret map es -> owns m (all_owned map) F ->
  (forall m', owns m' ∅ F -> Q tt m') -> wp (sc_destroy map) m Q.
Proof.
  intros Hr Ho HQ. unfold sc_destroy. apply wp_bind. eapply (wp_destroy_chains map es ∅ m F); [done|set_solver|owns_tac|].
  intros m1 Ho1. eapply (wp_free_buckets secret Hsecret (bucket_arr map) m1 ∅ F); [|set_solver|exact HQ].
  change (block_set (array_blk (bucket_arr map))) with (bucket_blocks map). owns_tac.
Qed.

(** ** Creation and reset *)
Lemma empty_core map : conf_ok (conf map) -> nodes map = ∅ -> all_elems map = DllistRoot None None -> elem_count map = 0 -> core map [].
Proof.
  intros Hc En Er Ecnt. split; rewrite ?En; try done.
  - constructor.
  - intros x. rewrite lookup_empty. split; [by intros ?%not_elem_of_nil|by intros []].
  - split; [apply dlist_nil|done].
Qed.

Lemma sc_empty_repr map blk size : conf_ok (conf map) -> nodes map = ∅ -> all_elems map = DllistRoot None None -> elem_count map = 0 ->
  is_buckets size -> (blk = None -> size = inline_buckets (conf map)) ->
  repr secret (resized map blk (no_chains size) size) [].
Proof.
  intros Hc En Er Ecnt HC Hi. pose proof (buckets_range _ HC).
  eapply (resized_repr secret map [] blk); [by apply empty_core|done|done| | | |by intros x ?%not_elem_of_nil].
  - rewrite En. intros b _. rewrite elem_owned. intros (a & n & Hn & _). by rewrite lookup_empty in Hn.
  - apply buckets_none. lia.
  - intros _. by apply Forall_replicate.
Qed.

Lemma empty_owned map blk arr size : nodes map = ∅ -> all_owned (resized map blk arr size) = block_set blk.
Proof.
  intros En. unfold all_owned. cbn. rewrite En. apply set_eq. intros b. rewrite elem_of_union, elem_owned. split; [|tauto].
  intros [(a & n & Hn & _)|]; [by rewrite lookup_empty in Hn|done].
Qed.

Lemma wp_init size c mode bound win m Y F (Q : option sep_chain_map -> mem -> Prop) : conf_ok c -> is_buckets size -> owns m Y F ->
  (forall m', owns m' Y F -> Q None m') ->
  (forall map m', repr secret map [] -> conf map = c -> bucket_arr_size map = size -> Y ## all_owned map -> owns m' (all_owned map ∪ Y) F -> Q (Some map) m') ->
  wp (sc_init size c mode bound win) m Q.
Proof.
  intros Hc HC Ho HN HQ. pose proof (buckets_range _ HC). unfold sc_init.
  set (map0 := SepChainMap 0 size 0 0 (BucketArray None []) (DllistRoot None None) c mode bound win ∅).
  apply wp_bind. eapply (wp_new_array secret Hsecret map0 size m Y F); [done|lia|intros m' Ho'; by apply wp_ret, HN|].
  intros blk m' Hd Ho' Hi. apply wp_ret. pose proof (empty_owned map0 blk (no_chains size) size eq_refl) as Eo.
  apply (HQ (resized map0 blk (no_chains size) size)); [by apply sc_empty_repr|done|done|rewrite Eo; clear -Hd; set_solver|by rewrite Eo].
Qed.

Definition reset_answer map size : ccol_retval_t * sep_chain_map -> Prop := fun '(r, map') =>
  repr secret map' [] /\ conf map' = conf map /\
  ((r = ccol_success /\ bucket_arr_size map' = (if size =? 0 then bucket_arr_size map else size)) \/
   (r = ccol_not_enough_memory /\ bucket_arr_size map' = bucket_arr_size map /\ size <> 0 /\ size <> bucket_arr_size map)).

Lemma wp_sc_reset map es size Y m F (Q : ccol_retval_t * sep_chain_map -> mem -> Prop) : repr secret map es -> size = 0 \/ is_buckets size ->
  Y ## all_owned map -> owns m (all_owned map ∪ Y) F ->
  (forall a m', reset_answer map size a -> Y ## all_owned (snd a) -> owns m' (all_owned (snd a) ∪ Y) F -> Q a m') ->
  wp (sc_reset map size) m Q.
Proof.
  intros Hr HC HY Ho HQ. pose proof Hr as [Hco Hsz _ _]. pose proof (co_conf _ _ Hco) as Hcf. unfold sc_reset.
  apply wp_bind. eapply (wp_destroy_chains map es Y m F); [done..|]. intros m1 Ho1. set (map0 := set_count (emptied map) 0).
  assert (forall blk n, sc_cleared (emptied map) blk n = resized map0 blk (no_chains n) n) as Ecl by done.
  assert (forall blk n, all_owned (resized map0 blk (no_chains n) n) = block_set blk) as Eown by (intros; by apply empty_owned).
  assert (forall blk n, is_buckets n -> (blk = None -> n = inline_buckets (conf map)) -> repr secret (resized map0 blk (no_chains n) n) []) as Hrep.
  { intros blk n Hn Hi. by apply sc_empty_repr. }
  assert (forall r m', (r = ccol_success /\ (size = 0 \/ size = bucket_arr_size map) \/ r = ccol_not_enough_memory /\ size <> 0 /\ size <> bucket_arr_size map) ->
    owns m' (bucket_blocks map ∪ Y) F -> Q (r, sc_cleared (emptied map) (array_blk (bucket_arr map)) (bucket_arr_size map)) m') as Hsame.
  { intros r m' Hcase Ho'. apply HQ; cbn [snd]; rewrite Ecl, ?Eown; [|unfold all_owned in HY; clear -HY; unfold bucket_blocks in HY; unfold block_set; set_solver|done].
    split; [apply Hrep; apply Hsz|]. split; [done|]. destruct Hcase as [[-> Hs]|[-> [H1 H2]]]; [left|by right]. split; [done|]. cbn.
    by destruct (Z.eqb_spec size 0), Hs. }
  cbv zeta. cbn [bucket_arr bucket_arr_size emptied set_root set_nodes conf]. destruct ((size >? 0) && _) eqn:Eg.
  2:{ apply wp_ret, Hsame; [|done]. left. split; [done|]. destruct HC as [|HC]; [by left|]. pose proof (buckets_range _ HC).
      right. destruct (Z.gtb_spec size 0); [|lia]. cbn in Eg. apply negb_false_iff in Eg. by apply Z.eqb_eq. }
  apply andb_true_iff in Eg as [Egt Ene%negb_true_iff%Z.eqb_neq]. rewrite Z.gtb_ltb in Egt. apply Z.ltb_lt in Egt.
  destruct HC as [|HC]; [lia|]. pose proof (buckets_range _ HC). rewrite Z.gtb_ltb.
  assert (ccol_not_enough_memory = ccol_not_enough_memory /\ size <> 0 /\ size <> bucket_arr_size map) as Hno by (split_and!; [done|lia|done]).
  destruct (Z.ltb_spec (SIZE_MAX `div` 8) size) as [|Hle]; [apply wp_ret, Hsame; [by right|done]|].
  change (SIZE_MAX `div` 8) with 2305843009213693951 in Hle. apply wp_bind.
  assert (forall blk m', block_set blk ## Y -> owns m' (block_set blk ∪ Y) F -> (blk = None -> size = inline_buckets (conf map)) ->
    Q (ccol_success, sc_cleared (emptied map) blk size) m') as Hnew.
  { intros blk m' Hd Ho' Hi. apply HQ; cbn [snd]; rewrite Ecl, ?Eown; [|clear -Hd; set_solver|done].
    split; [by apply Hrep|]. split; [done|]. left. split; [done|]. cbn. by destruct (Z.eqb_spec size 0); [lia|]. }
  assert (Y ## bucket_blocks map) as HYb by (unfold all_owned in HY; clear -HY; set_solver).
  destruct (Z.eqb_spec size (inline_buckets (conf map))) as [Einl|].
  - apply wp_bind. eapply (wp_free_buckets secret Hsecret (bucket_arr map) m1 Y F); [done|clear -HYb; unfold block_set; unfold bucket_blocks in HYb; set_solver|].
    intros m2 Ho2. apply wp_ret, wp_ret, Hnew; [set_solver|owns_tac|done].
  - apply wp_bind. unfold bucket_blocks in Ho1, HYb. destruct (array_blk (bucket_arr map)) as [b0|] eqn:Eb.
    + apply (wp_realloc_owns _ _ _ _ F _ Ho1); [cbn; set_solver|by sz; lia| |].
      { intros m' Ho' _. apply wp_ret, wp_ret, Hsame; [by right|]. unfold bucket_blocks. by rewrite Eb. }
      intros b m' Ho' Hb1 Hb2 _ _ _. cbn in Ho'. apply wp_ret, wp_ret, Hnew; [cbn; set_solver| |done].
      apply (owns_change _ _ _ _ Ho'). cbn. set_solver.
    + apply (wp_alloc_owns _ _ _ F _ Ho1); [by sz; lia| |].
      { intros m' Ho' _. apply wp_ret, wp_ret, Hsame; [by right|]. unfold bucket_blocks. by rewrite Eb. }
      intros b m' Ho' Hb1 Hb2 _ _. apply wp_ret, wp_ret, Hnew; [cbn; set_solver| |done]. apply (owns_change _ _ _ _ Ho'). cbn. set_solver.
Qed.
End Ops.
