(* ===== verification/CScSpec.v ===== *)
(** * Histories and bounds of the separate-chaining map

    The refinement of an association list in the order of insertion by any
    history of operations, and the exact values of the limits and bounds the
    map keeps to. *)
From S2P Require Import Prelude Memory Values Common CHash COaMap COaSpec CLinks CScMap CScRefine CScRelink CScResize CScOps.
Import COaMap(chmap_hash_mode(..), cmap_pair(..), pair_ptr, pair_size, minimum_allowed_bucket_array_size,
  UINT16_MAX, CHMAP_WINDOW_START, CHMAP_WINDOW_STEP, CHMAP_WINDOW_INSERTS, two32, chmap_load_q16).
Import CScMap.

Section History.
Context {alloc : Allocator} (secret : chmap_hash_secret) (Hsecret : secret_ok secret).
Implicit Types (map : sep_chain_map) (m : mem) (es : list nat).

(** [SInsertFrom k k2] inserts for [k] through the accessor [sc_get] gives
    for [k2], which points into the map; [SInsertOwn k] inserts the map's own
    key bytes as the value; [SWalk] reads every pair, oldest first. *)
Inductive sop :=
  | SInsert (k v : list Z)
  | SInsertFrom (k k2 : list Z)
  | SInsertOrGet (k v : list Z)
  | SEntry (k v : list Z)
  | SGet (k : list Z)
  | SDelete (k : list Z)
  | SReset (new_size : Z)
  | SCount
  | SWalk.

Inductive sres :=
  | SCode (r : ccol_retval_t)
  | SGot (r : ccol_retval_t) (v : option (list Z))
  | SGotEntry (r : ccol_retval_t) (kv : option (list Z * list Z))
  | SNum (n : Z)
  | SPairs (l : list (list Z * list Z)).

Definition arg (bs : list Z) : cmap_pair := CmapPair (Foreign bs) (zlen bs).

Definition read_out map (out : option cmap_pair) : M (option (list Z)) :=
  match out with None => mret None | Some p => v ← read_pair map (Some p); mret (Some v) end.

Definition read_entry map (a : nat) : M (list Z * list Z * option nat) :=
  '(k, v, next) ← sc_entry_read map a;
  k ← read_pair map k; v ← read_pair map v; mret (k, v, next).

Definition walk map : M (list (list Z * list Z)) :=
  loop (S (size (nodes map))) (fun '(entry, met) =>
    match entry with
    | None => mret (inr met)
    | Some a => '(k, v, next) ← read_entry map a; mret (inl (next, met ++ [(k, v)]))
    end) (sc_oldest_entry map, []).

Definition run_sop map (op : sop) : M (sres * sep_chain_map) :=
  match op with
  | SInsert k v => '(r, map) ← sc_insert secret map (arg k) (arg v); mret (SCode r, map)
  | SInsertFrom k k2 =>
      '(r, out) ← sc_get secret map (arg k2);
      match out with
      | Some p => '(r, map) ← sc_insert secret map (arg k) p; mret (SCode r, map)
      | None => mret (SCode r, map)
      end
  | SInsertOrGet k v =>
      '(r, out, map) ← sc_insert_or_get secret map (arg k) (arg v);
      v ← read_out map out; mret (SGot r v, map)
  | SEntry k v =>
      '(r, entry, map) ← sc_insert_or_get_entry secret map (arg k) (arg v);
      match entry with
      | Some a => '(k, v, _) ← read_entry map a; mret (SGotEntry r (Some (k, v)), map)
      | None => mret (SGotEntry r None, map)
      end
  | SGet k => '(r, out) ← sc_get secret map (arg k); v ← read_out map out; mret (SGot r v, map)
  | SDelete k => '(r, map) ← sc_delete secret map (arg k); mret (SCode r, map)
  | SReset n => '(r, map) ← sc_reset map n; mret (SCode r, map)
  | SCount => mret (SNum (elem_count map), map)
  | SWalk => l ← walk map; mret (SPairs l, map)
  end.

Fixpoint run_sops map (ops : list sop) : M (list sres * sep_chain_map) :=
  match ops with
  | [] => mret ([], map)
  | op :: ops =>
      '(r, map) ← run_sop map op;
      '(rs, map) ← run_sops map ops;
      mret (r :: rs, map)
  end.

(** The life of a map: created, used, destroyed. *)
Definition sc_life (size : Z) (c : sc_config) (ops : list sop) : M (option (list sres)) :=
  map ← sc_init size c CHMAP_HASH_FAST UINT16_MAX CHMAP_WINDOW_START;
  match map with
  | None => mret None
  | Some map => '(rs, map) ← run_sops map ops; sc_destroy map;; mret (Some rs)
  end.

(** The association list. *)
Abbreviation pairs := (list (list Z * list Z)).

Definition sinserted (same : list Z -> list Z -> bool) (L : pairs) (k v : list Z) (r : ccol_retval_t) (L' : pairs) : Prop :=
  match lookup_key same k L with
  | Some _ => (r = ccol_key_already_present /\ L' = update_key same k v L) \/ (r = ccol_not_enough_memory /\ L' = L)
  | None =>
      (r = ccol_success /\ L' = L ++ [(k, v)]) \/ (r = ccol_not_enough_memory /\ L' = L) \/
      (r = ccol_container_full /\ L' = L /\ zlen L = ccol_max_elem_count)
  end.

Definition sspec (same : list Z -> list Z -> bool) (L : pairs) (op : sop) (r : sres) (L' : pairs) : Prop :=
  match op, r with
  | SInsert k v, SCode r => sinserted same L k v r L'
  | SInsertFrom k k2, SCode r =>
      match lookup_key same k2 L with
      | Some v => sinserted same L k v r L'
      | None => r = ccol_key_not_found /\ L' = L
      end
  | SInsertOrGet k v, SGot r out =>
      match lookup_key same k L with
      | Some v0 => r = ccol_key_already_present /\ out = Some v0 /\ L' = L
      | None => sinserted same L k v r L' /\ out = if decide (r = ccol_success) then Some v else None
      end
  | SEntry k v, SGotEntry r out =>
      match lookup_key same k L with
      | Some v0 => r = ccol_key_already_present /\ L' = L /\ exists k0, out = Some (k0, v0) /\ same k0 k = true
      | None => sinserted same L k v r L' /\ out = if decide (r = ccol_success) then Some (k, v) else None
      end
  | SGet k, SGot r out =>
      L' = L /\ out = lookup_key same k L /\ r = match lookup_key same k L with Some _ => ccol_success | None => ccol_key_not_found end
  | SDelete k, SCode r =>
      L' = remove_key same k L /\ r = match lookup_key same k L with Some _ => ccol_success | None => ccol_key_not_found end
  | SReset n, SCode r => L' = [] /\ (r = ccol_success \/ r = ccol_not_enough_memory)
  | SCount, SNum n => L' = L /\ n = zlen L
  | SWalk, SPairs l => L' = L /\ l = L
  | _, _ => False
  end.

Inductive sspecs (same : list Z -> list Z -> bool) : pairs -> list sop -> list sres -> pairs -> Prop :=
  | sspecs_nil L : sspecs same L [] [] L
  | sspecs_cons L op r L1 ops rs L2 : sspec same L op r L1 -> sspecs same L1 ops rs L2 -> sspecs same L (op :: ops) (r :: rs) L2.

(** Keys are keys of the map, values have a byte at least, and a reset asks
    for a power of two the public function passes on, or 0. *)
Definition val_arg (v : list Z) : Prop := 1 <= zlen v < two64.

Definition sop_wf (c : sc_config) (op : sop) : Prop :=
  match op with
  | SInsert k v | SInsertOrGet k v | SEntry k v => valid_key c k /\ val_arg v
  | SInsertFrom k k2 => valid_key c k /\ valid_key c k2
  | SGet k | SDelete k => valid_key c k
  | SReset n => n = 0 \/ is_buckets n
  | SCount | SWalk => True
  end.

Lemma sc_arg_gives map bs : val_arg bs -> gives map (arg bs) bs.
Proof. intros H. split; [done|]. split; [done|]. apply resolve_foreign. Qed.

Lemma arg_key map k : valid_key (conf map) k -> key_arg map (arg k) k.
Proof. intros Hk. split; [|done]. apply sc_arg_gives. apply Hk. Qed.

Section Reading.
Context (map : sep_chain_map) (es : list nat) (m : mem) (F : gset nat) (Hr : repr secret map es) (Ho : owns m (all_owned map) F).

Lemma wp_read_val a n (Q : list Z -> mem -> Prop) : nodes map !! a = Some n -> Q (node_val n) m ->
  wp (read_pair map (val_pair_accessor n)) m Q.
Proof.
  pose proof (re_core _ _ _ Hr) as Hco. intros Hn HQ. destruct (val_accessor (conf map) map a n) as (p & -> & Hp); [by eapply co_apart|done|by eapply co_nodes|].
  unfold read_pair. cbn. by apply (wp_sc_read_ptr map p _ (node_val n) m (bucket_blocks map) F); [eapply co_apart| | |].
Qed.

Lemma wp_read_entry a n (Q : list Z * list Z * option nat -> mem -> Prop) : nodes map !! a = Some n ->
  Q (node_key n, node_val n, prev n) m -> wp (read_entry map a) m Q.
Proof.
  pose proof (re_core _ _ _ Hr) as Hco. intros Hn HQ. unfold read_entry, sc_entry_read. apply wp_bind, wp_bind, (wp_node_at _ _ n); [done|]. apply wp_ret, wp_bind.
  eapply (wp_read_key (conf map) map a n m (bucket_blocks map) F); [by eapply co_apart|done|by eapply co_nodes|done|].
  by apply wp_bind, (wp_read_val a n), wp_ret.
Qed.

(** The walk meets the pairs in the order of their insertion. *)
Lemma wp_walk (Q : list (list Z * list Z) -> mem -> Prop) : Q (content map es) m -> wp (walk map) m Q.
Proof.
  pose proof (re_core _ _ _ Hr) as Hco. intros HQ. unfold walk. destruct (co_listed _ _ Hco) as [_ Hroot].
  apply (wp_loop_list (fun ys '(t, met) m' => m' = m /\ t = head ys /\ exists e2, es = reverse ys ++ e2 /\ met = content map e2) (reverse es)).
  - intros [t met] ? (-> & -> & e2 & E & ->). apply wp_ret. eexists. split; [done|]. by rewrite E in HQ.
  - intros a ys [t met] ? (-> & -> & e2 & E & ->). rewrite reverse_cons, <- app_assoc in E. cbn [app] in E.
    pose proof (co_listed _ _ Hco) as Hl. rewrite E in Hl. destruct (listed_node _ _ _ _ Hl) as (n & Hn & Ep & _).
    apply wp_bind, (wp_read_entry a n); [done|]. apply wp_ret. split_and!; [done|by rewrite Ep, last_reverse|].
    exists (a :: e2). split; [done|]. rewrite content_cons. unfold pair_at. by rewrite Hn.
  - split_and!; [done|unfold sc_oldest_entry; rewrite Hroot; cbn; by rewrite head_reverse|]. exists []. by rewrite reverse_involutive, app_nil_r.
  - by apply es_fuel.
Qed.

Definition get_answer (key : list Z) : ccol_retval_t * option cmap_pair -> Prop := fun '(r, out) =>
  match lookup_key (key_eq (conf map)) key (content map es) with
  | Some v => r = ccol_success /\ exists p, out = Some p /\ gives map p v
  | None => r = ccol_key_not_found /\ out = None
  end.

(** A value accessor of the map can be an argument again. *)
Lemma sc_val_gives a n : nodes map !! a = Some n -> exists p, val_pair_accessor n = Some p /\ gives map p (node_val n).
Proof.
  pose proof (re_core _ _ _ Hr) as Hco. intros Hn. assert (node_ok (conf map) a n) as Hok by by eapply co_nodes.
  destruct (val_accessor (conf map) map a n) as (p & -> & Hp); [by eapply co_apart|done|done|].
  eexists. split; [done|]. split; [done|]. split; [by apply (no_val _ _ _ Hok)|done].
Qed.

Lemma wp_get kp key (Q : ccol_retval_t * option cmap_pair -> mem -> Prop) : key_arg map kp key ->
  (forall a, get_answer key a -> Q a m) -> wp (sc_get secret map kp) m Q.
Proof.
  pose proof (re_core _ _ _ Hr) as Hco. intros Hk HQ. unfold sc_get. apply wp_bind.
  eapply (wp_find_accessor secret Hsecret map es kp key m ∅ F); [done|done|owns_tac| |].
  - intros a n Hn E. apply wp_bind, (wp_node_at _ _ n); [done|]. apply wp_ret, HQ. unfold get_answer.
    rewrite (lookup_node secret Hsecret map es a n key Hco Hn (proj2 Hk) E). split; [done|].
    by apply (sc_val_gives a n).
  - intros Hab. apply wp_ret, HQ. unfold get_answer. by rewrite lookup_absent.
Qed.

Lemma wp_sc_read_out p v (Q : option (list Z) -> mem -> Prop) : gives map p v -> Q (Some v) m -> wp (read_out map (Some p)) m Q.
Proof.
  pose proof (re_core _ _ _ Hr) as Hco. intros (Es & _ & Hp) HQ. cbn. unfold read_pair. cbn. apply wp_bind.
  eapply (wp_sc_read_ptr map _ _ v m (bucket_blocks map) F); [by eapply co_apart|done|done|]. by apply wp_ret.
Qed.
End Reading.

(** What an insertion that asks for no accessor does to the list. *)
Lemma wp_sc_insert_op map es kp k v p m F (Q : ccol_retval_t * sep_chain_map -> mem -> Prop) : repr secret map es -> key_arg map kp k ->
  gives map p v -> owns m (all_owned map) F ->
  (forall r map' es' m', sinserted (key_eq (conf map)) (content map es) k v r (content map' es') -> repr secret map' es' ->
     conf map' = conf map -> owns m' (all_owned map') F -> Q (r, map') m') ->
  wp (sc_insert secret map kp p) m Q.
Proof.
  intros Hr Hk Hp Ho HQ. unfold sc_insert. apply wp_bind.
  eapply (wp_insert_impl secret Hsecret map es kp p k v ∅ m F false); [done|done|done|set_solver|owns_tac|].
  intros [[r out] map'] es' m' (Hr' & Ec & Ha) _ Ho'. cbn [snd] in Ho'. apply wp_ret.
  apply (HQ r map' es'); [|done|done|owns_tac]. unfold sinserted. destruct (lookup_key _ _ _) as [v0|].
  - destruct Ha as (-> & _ & [[-> Hct]|[-> ->]]); [left|right]; done.
  - destruct Ha as [(-> & Hct & _)|[(-> & _ & -> & ->)|(-> & _ & -> & -> & Hfull)]]; [by left|by right; left|right; by right].
Qed.

(** One that does. *)
Definition slot_result map es k v r (out : option nat) map' es' : Prop :=
  match lookup_key (key_eq (conf map)) k (content map es) with
  | Some v0 => r = ccol_key_already_present /\ map' = map /\ es' = es /\
      exists a n, out = Some a /\ nodes map !! a = Some n /\ key_eq (conf map) (node_key n) k = true /\ node_val n = v0
  | None => sinserted (key_eq (conf map)) (content map es) k v r (content map' es') /\
      if decide (r = ccol_success) then exists a n, out = Some a /\ nodes map' !! a = Some n /\ node_key n = k /\ node_val n = v
      else out = None
  end.

Lemma wp_insert_slot map es kp vp k v m F (Q : ccol_retval_t * option nat * sep_chain_map -> mem -> Prop) : repr secret map es -> key_arg map kp k ->
  gives map vp v -> owns m (all_owned map) F ->
  (forall r out map' es' m', slot_result map es k v r out map' es' -> repr secret map' es' -> conf map' = conf map ->
     owns m' (all_owned map') F -> Q (r, out, map') m') ->
  wp (sc_insert_impl secret map kp vp true) m Q.
Proof.
  intros Hr Hk Hv Ho HQ.
  eapply (wp_insert_impl secret Hsecret map es kp vp k v ∅ m F true); [done|done|done|set_solver|owns_tac|].
  intros [[r out] map'] es' m' (Hr' & Ec & Ha) _ Ho'. cbn [snd] in Ho'. apply (HQ r out map' es'); [|done|done|owns_tac].
  unfold slot_result, sinserted. destruct (lookup_key _ _ _) as [v0|].
  - destruct Ha as (-> & -> & -> & k0 & E & a & n & -> & Hn & Ep). split_and!; [done..|].
    exists a, n. injection Ep as <- <-. done.
  - destruct Ha as [(-> & Hct & a & n & -> & Hn & Ep)|[(-> & -> & -> & ->)|(-> & -> & -> & -> & Hfull)]].
    + split; [by left|]. cbn. exists a, n. injection Ep as <- <-. done.
    + split; [right; by left|]. done.
    + split; [right; by right|]. done.
Qed.

(** The two that ask for the accessors. *)
Lemma wp_insert_or_get_op map es k v m F (Q : sres * sep_chain_map -> mem -> Prop) : repr secret map es -> valid_key (conf map) k ->
  val_arg v -> owns m (all_owned map) F ->
  (forall r map' es' m', sspec (key_eq (conf map)) (content map es) (SInsertOrGet k v) r (content map' es') -> repr secret map' es' ->
     conf map' = conf map -> owns m' (all_owned map') F -> Q (r, map') m') ->
  wp (run_sop map (SInsertOrGet k v)) m Q.
Proof.
  intros Hr Hk Hv Ho HQ. cbn [run_sop]. unfold sc_insert_or_get. apply wp_bind, wp_bind.
  eapply (wp_insert_slot map es (arg k) (arg v) k v); [done|by apply arg_key|by apply sc_arg_gives|done|].
  intros r out map' es' m' Hsl Hr' Ec Ho'. unfold slot_result in Hsl. cbn [sspec] in HQ. destruct (lookup_key _ k _) as [v0|] eqn:E.
  - destruct Hsl as (-> & -> & -> & a & n & -> & Hn & _ & Ev). apply wp_bind, (wp_node_at _ _ n); [done|]. apply wp_ret, wp_bind.
    destruct (sc_val_gives map es Hr a n Hn) as (p & -> & Hp). eapply (wp_sc_read_out map es m' F); [done..|].
    apply wp_ret, (HQ _ _ es); [|done..]. cbn. by rewrite Ev.
  - destruct Hsl as [Hins Hout]. destruct (decide (r = ccol_success)) as [->|Hne].
    + destruct Hout as (a & n & -> & Hn & _ & Ev). apply wp_bind, (wp_node_at _ _ n); [done|]. apply wp_ret, wp_bind.
      destruct (sc_val_gives map' es' Hr' a n Hn) as (p & -> & Hp). eapply (wp_sc_read_out map' es' m' F); [done..|].
      apply wp_ret, (HQ _ _ es'); [|done..]. cbn. by rewrite Ev.
    + rewrite Hout. apply wp_ret, wp_bind, wp_ret, wp_ret, (HQ _ _ es'); [|done..]. cbn. by rewrite decide_False.
Qed.

Lemma wp_entry_op map es k v m F (Q : sres * sep_chain_map -> mem -> Prop) : repr secret map es -> valid_key (conf map) k ->
  val_arg v -> owns m (all_owned map) F ->
  (forall r map' es' m', sspec (key_eq (conf map)) (content map es) (SEntry k v) r (content map' es') -> repr secret map' es' ->
     conf map' = conf map -> owns m' (all_owned map') F -> Q (r, map') m') ->
  wp (run_sop map (SEntry k v)) m Q.
Proof.
  intros Hr Hk Hv Ho HQ. cbn [run_sop]. unfold sc_insert_or_get_entry. apply wp_bind.
  eapply (wp_insert_slot map es (arg k) (arg v) k v); [done|by apply arg_key|by apply sc_arg_gives|done|].
  intros r out map' es' m' Hsl Hr' Ec Ho'. unfold slot_result in Hsl. cbn [sspec] in HQ. destruct (lookup_key _ k _) as [v0|] eqn:E.
  - destruct Hsl as (-> & -> & -> & a & n & -> & Hn & Ek & Ev). apply wp_bind.
    eapply (wp_read_entry map es m' F); [done..|]. apply wp_ret, (HQ _ _ es); [|done..]. split_and!; [done|done|].
    exists (node_key n). by rewrite Ev.
  - destruct Hsl as [Hins Hout]. destruct (decide (r = ccol_success)) as [->|Hne].
    + destruct Hout as (a & n & -> & Hn & Ek & Ev). apply wp_bind. eapply (wp_read_entry map' es' m' F); [done..|].
      apply wp_ret, (HQ _ _ es'); [|done..]. cbn. by rewrite Ek, Ev.
    + rewrite Hout. apply wp_ret, (HQ _ _ es'); [|done..]. cbn. by rewrite decide_False.
Qed.

Lemma wp_sc_run_op map es op m F (Q : sres * sep_chain_map -> mem -> Prop) : repr secret map es -> sop_wf (conf map) op ->
  owns m (all_owned map) F ->
  (forall r map' es' m', sspec (key_eq (conf map)) (content map es) op r (content map' es') -> repr secret map' es' ->
     conf map' = conf map -> owns m' (all_owned map') F -> Q (r, map') m') ->
  wp (run_sop map op) m Q.
Proof.
  intros Hr Hwf Ho HQ. pose proof (re_core _ _ _ Hr) as Hco. destruct op; cbn [run_sop]; cbn in Hwf.
  - destruct Hwf as [Hk Hv]. apply wp_bind. eapply (wp_sc_insert_op map es (arg k) k v); [done|by apply arg_key|by apply sc_arg_gives|done|].
    intros r map' es' m' H1 H2 H3 H4. by apply wp_ret, (HQ _ _ es').
  - destruct Hwf as [Hk Hk2]. apply wp_bind. eapply (wp_get map es m F Hr Ho (arg k2) k2); [by apply arg_key|].
    intros [r out]. unfold get_answer. destruct (lookup_key _ k2 _) as [v|] eqn:E.
    + intros (-> & p & -> & Hp). apply wp_bind. eapply (wp_sc_insert_op map es (arg k) k v p); [done|by apply arg_key|done|done|]. intros r map' es' m' H1 H2 H3 H4.
      apply wp_ret, (HQ _ _ es'); [|done..]. cbn. by rewrite E.
    + intros [-> ->]. apply wp_ret, (HQ _ _ es); [|done..]. cbn. by rewrite E.
  - destruct Hwf as [Hk Hv]. by eapply (wp_insert_or_get_op map es k v).
  - destruct Hwf as [Hk Hv]. by eapply (wp_entry_op map es k v).
  - apply wp_bind. eapply (wp_get map es m F Hr Ho (arg k) k); [by apply arg_key|].
    intros [r out]. unfold get_answer. destruct (lookup_key _ k _) as [v|] eqn:E.
    + intros (-> & p & -> & Hp). apply wp_bind. eapply (wp_sc_read_out map es m F); [done..|]. apply wp_ret, (HQ _ _ es); [|done..]. cbn. by rewrite E.
    + intros [-> ->]. apply wp_bind, wp_ret, wp_ret, (HQ _ _ es); [|done..]. cbn. by rewrite E.
  - apply wp_bind. eapply (wp_sc_delete secret Hsecret map es (arg k) k ∅ m F); [done|by apply arg_key|set_solver|owns_tac|].
    intros [r map'] es' m' (Hr' & Ec & Ha) _ Ho'. cbn [snd] in Ho'. apply wp_ret, (HQ _ _ es'); [|done|done|owns_tac]. cbn.
    destruct (lookup_key _ _ _) eqn:E; [by destruct Ha as [-> ->]|]. destruct Ha as (-> & -> & ->). split; [|done].
    by rewrite remove_absent.
  - apply wp_bind. eapply (wp_sc_reset secret Hsecret map es new_size ∅ m F); [done|done|set_solver|owns_tac|].
    intros [r map'] m' (Hr' & Ec & Ha) _ Ho'. cbn [snd] in Ho'. apply wp_ret, (HQ _ _ []); [|done|done|owns_tac]. cbn.
    split; [done|]. destruct Ha as [[-> _]|[-> _]]; auto.
  - apply wp_ret, (HQ _ _ es); [|done..]. cbn. split; [done|]. rewrite content_len. apply Hco.
  - apply wp_bind. eapply (wp_walk map es m F); [done..|]. apply wp_ret, (HQ _ _ es); [|done..]. done.
Qed.
Lemma wp_sc_run_ops map es ops m F (Q : list sres * sep_chain_map -> mem -> Prop) : repr secret map es ->
  Forall (sop_wf (conf map)) ops -> owns m (all_owned map) F ->
  (forall rs map' es' m', sspecs (key_eq (conf map)) (content map es) ops rs (content map' es') -> repr secret map' es' ->
     owns m' (all_owned map') F -> Q (rs, map') m') ->
  wp (run_sops map ops) m Q.
Proof.
  revert map es m Q. induction ops as [|op ops IH]; intros map es m Q Hr Hwf Ho HQ; cbn [run_sops].
  { apply wp_ret, (HQ _ _ es); [constructor|done..]. }
  apply Forall_cons in Hwf as [Hop Hops]. apply wp_bind. eapply (wp_sc_run_op map es op); [done..|].
  intros r map1 es1 m1 Hs Hr1 Ec Ho1. apply wp_bind. rewrite <- Ec in Hops. eapply (IH map1 es1); [done..|].
  intros rs map2 es2 m2 Hss Hr2 Ho2. apply wp_ret, (HQ _ _ es2); [|done..]. rewrite Ec in Hss. by econstructor.
Qed.

(** C13: a separate-chaining map refines an association list in the order of
    insertion, through any history of insertions (the value given by the
    caller or through an accessor of the map itself), insert-or-gets, entry
    lookups, deletions, resets, counts and walks, whatever requests the
    allocator refuses, whichever equality and hash it is created with, and
    whenever it resizes, switches to the keyed hash or returns to the fast
    one: every answer is the list's, a new key goes to its end, an
    overwritten value leaves its key in place, a walk meets the pairs oldest
    first, an insertion fails only for want of memory or at the maximal
    count, and destroying the map gives back every block. *)
Theorem sc_history size c ops m F : conf_ok c -> is_buckets size -> Forall (sop_wf c) ops -> owns m ∅ F ->
  wp (sc_life size c ops) m (fun r m' => owns m' ∅ F /\
    match r with Some rs => exists L, sspecs (key_eq c) [] ops rs L | None => True end).
Proof.
  intros Hc HC Hwf Ho. unfold sc_life. apply wp_bind.
  eapply (wp_init secret Hsecret size c _ _ _ m ∅ F); [done..|by intros m' Ho'; apply wp_ret|].
  intros map m1 Hr Ec _ _ Ho1. apply wp_bind. rewrite <- Ec in Hwf.
  eapply (wp_sc_run_ops map [] ops m1 F); [done|done|owns_tac|]. intros rs map2 es2 m2 Hs Hr2 Ho2.
  apply wp_bind. eapply (wp_sc_destroy secret Hsecret map2 es2); [done|done|]. intros m3 Ho3. apply wp_ret. split; [done|].
  exists (content map2 es2). by rewrite <- Ec.
Qed.
End History.

(** ** What a switch and an attempt leave alone *)
Section Relinking.
Context {alloc : Allocator} (secret : chmap_hash_secret) (Hsecret : secret_ok secret).
Implicit Types (map : sep_chain_map) (m : mem) (es : list nat).

(** Everything but the hashes and the chain links: the accessors, what they
    point at, and the list of all nodes. *)
Definition nodes_stay map map' : Prop :=
  all_elems map' = all_elems map /\ dom (nodes map') = dom (nodes map) /\
  forall a n n', nodes map !! a = Some n -> nodes map' !! a = Some n' ->
    key_pair_accessor n' = key_pair_accessor n /\ val_pair_accessor n' = val_pair_accessor n /\
    pair_of n' = pair_of n /\ prev n' = prev n /\ next_ref n' = next_ref n.

Lemma relinked_stay map map' : relinked map map' -> nodes_stay map map'.
Proof.
  intros Hre. pose proof Hre as (En & Er & _). split; [done|]. split.
  - apply set_eq. intros a. rewrite !elem_of_dom. by apply relinked_lookup.
  - intros a n n' Hn Hn'. destruct (relinked_node _ _ _ _ Hre Hn') as (n0 & Hn0 & E). rewrite Hn in Hn0. injection Hn0 as <-.
    apply (f_equal (fun n => (key_storage n, val_storage n, key_pair_accessor n, val_pair_accessor n, prev n, next_ref n))) in E.
    cbn in E. injection E as E1 E2 E3 E4 E5 E6. unfold pair_of, node_key, node_val. by rewrite E1, E2.
Qed.

(** A map after any history, for what holds of every map. *)
Definition sc_after (size : Z) (c : sc_config) (ops : list sop) : M (option sep_chain_map) :=
  created ← sc_init size c CHMAP_HASH_FAST UINT16_MAX CHMAP_WINDOW_START;
  match created with
  | None => mret None
  | Some map => '(_, map) ← run_sops secret map ops; mret (Some map)
  end.

Lemma wp_after size c ops m F (Q : option sep_chain_map -> mem -> Prop) : conf_ok c -> is_buckets size -> Forall (sop_wf c) ops -> owns m ∅ F ->
  (forall m', Q None m') -> (forall map es m', repr secret map es -> owns m' (all_owned map) F -> Q (Some map) m') ->
  wp (sc_after size c ops) m Q.
Proof.
  intros Hc HC Hwf Ho HN HQ. unfold sc_after. apply wp_bind.
  eapply (wp_init secret Hsecret size c _ _ _ m ∅ F); [done..|by intros m' Ho'; apply wp_ret|].
  intros map m1 Hr Ec _ _ Ho1. apply wp_bind. rewrite <- Ec in Hwf.
  eapply (wp_sc_run_ops secret Hsecret map [] ops m1 F); [done|done|owns_tac|]. intros rs map2 es2 m2 _ Hr2 Ho2.
  apply wp_ret. by eapply HQ.
Qed.

(** C24: whatever history a map has, its switch to the keyed hash allocates
    and frees nothing and can't fail; every accessor keeps its address, its
    size and its bytes, the list of all nodes stays as it is, and the map is
    keyed and still represents pairs, so operations go on. *)
Theorem switch_keeps size c ops m F : conf_ok c -> is_buckets size -> Forall (sop_wf c) ops -> owns m ∅ F ->
  wp (sc_after size c ops) m (fun r m1 => match r with None => True | Some map =>
    wp (sc_switch_to_keyed secret map) m1 (fun map' m2 => m2 = m1 /\ sc_keyed map' = true /\ nodes_stay map map' /\
      exists es, repr secret map' es) end).
Proof.
  intros Hc HC Hwf Ho. apply (wp_after size c ops m F); [done..|]. intros map es m1 Hr Ho1. pose proof Hr as [Hco Hsz _ _].
  eapply (wp_switch secret Hsecret map es m1 (bucket_blocks map) F); [done..|].
  intros map' Hr' Hre Hk _ _. split_and!; [done|done|by apply relinked_stay|by exists es].
Qed.

(** Whatever history a map has, an attempt at the fast hash when it grows
    hashes at most the map's nodes and walks at most elem_count +
    SC_ATTEMPT_SLACK + SC_CHAIN_CAP - 1 chain nodes, so the work it reports is
    at most twice the count plus 83, whatever the keys are; it moves no node,
    and all it has changed when it stops are hashes and chain links. *)
Theorem attempt_work size c ops new_size m F : conf_ok c -> is_buckets size -> Forall (sop_wf c) ops -> owns m ∅ F -> is_buckets new_size ->
  wp (sc_after size c ops) m (fun r m1 => match r with None => True | Some map =>
    wp (fast_links secret map (no_chains new_size) new_size) m1 (fun '(stop, work, map', arr) m2 => m2 = m1 /\ nodes_stay map map' /\
      exists w, work = wrap w /\ 0 <= w <= 2 * elem_count map + SC_ATTEMPT_SLACK + SC_CHAIN_CAP - 1) end).
Proof.
  intros Hc HC Hwf Ho HN. apply (wp_after size c ops m F); [done..|]. intros map es m1 Hr Ho1. pose proof Hr as [Hco _ _ _].
  destruct (co_count _ _ Hco) as [-> _].
  eapply (wp_fast_links secret Hsecret map es new_size m1 (bucket_blocks map) F); [done..| |].
  - intros work map' arr chains Hw _ Hwk. pose proof (wk_relinked _ _ _ _ _ _ _ _ _ _ Hw) as Hre.
    split_and!; [done|by apply relinked_stay|by exists work].
  - intros a e1 e2 work map' arr _ Hre _ _ Hwk. split_and!; [done|by apply relinked_stay|by exists work].
Qed.

Lemma wp_chain_length map c m (Q : Z -> mem -> Prop) : chain (next <$> nodes map) c -> NoDup c -> zlen c < two64 ->
  Q (zlen c) m -> wp (sc_chain_length map (head c)) m Q.
Proof.
  intros Hc Hd Hlen HQ. unfold sc_chain_length.
  apply (wp_loop_list (fun ys '(t, l) m' => m' = m /\ t = head ys /\ exists p, c = p ++ ys /\ l = zlen p) c).
  - intros [t l] ? (-> & -> & p & -> & ->). apply wp_ret. eexists. split; [done|]. by rewrite app_nil_r in *.
  - intros x ys [t l] ? (-> & -> & p & -> & ->). apply chain_app in Hc as (n & Hn & En & _)%chain_node.
    apply wp_bind, (wp_node_at _ _ n); [done|]. apply wp_ret. split_and!; [done|done|].
    exists (p ++ [x]). rewrite <- app_assoc. split; [done|]. rewrite !zlen_app, zlen_cons in Hlen. zlen_facts.
    rewrite zlen_app, zlen_cons, zlen_nil. by sz.
  - split_and!; [done|done|]. by exists [].
  - by apply chain_fuel.
Qed.

(** Every bucket's chain, as the loop of the code counts it. *)
Definition short_chains map : Prop := sc_keyed map = false -> forall i first m,
  zget (heads (bucket_arr map)) i = Some first -> wp (sc_chain_length map first) m (fun n m' => m' = m /\ n <= SC_CHAIN_CAP).

Lemma repr_short map es : repr secret map es -> short_chains map.
Proof.
  intros Hr Hk i first m Hi. pose proof Hr as [Hco _ _ (chains & Hb & Hs)].
  assert (0 <= i < bucket_arr_size map) as Hib.
  { apply zget_Some_lt in Hi. rewrite (bk_heads _ _ _ _ _ Hb), zlen_fmap in Hi. by rewrite (bk_len _ _ _ _ _ Hb) in Hi. }
  destruct (buckets_at _ _ _ _ _ i Hb Hib) as (c & Hc & Hhd & Hch & Hsub). rewrite Hhd in Hi. injection Hi as <-.
  pose proof (buckets_nodup _ _ _ _ _ _ _ Hb (co_nodup _ _ Hco) Hc) as Hd. specialize (Hs Hk).
  rewrite Forall_forall in Hs. specialize (Hs c (zget_elem _ _ _ Hc)). unfold SC_CHAIN_CAP in *.
  apply wp_chain_length; [done|done|sz_in_range|done].
Qed.

(** C25: a map that hashes with the fast hash never holds a chain of more
    than SC_CHAIN_CAP nodes, whatever keys any history of operations put into
    it: an insertion or a shrink that would leave a longer one switches. *)
Theorem fast_chains_short size c ops m F : conf_ok c -> is_buckets size -> Forall (sop_wf c) ops -> owns m ∅ F ->
  wp (sc_after size c ops) m (fun r _ => match r with Some map => short_chains map | None => True end).
Proof. intros Hc HC Hwf Ho. apply (wp_after size c ops m F); [done..|]. intros map es m1 Hr _. by eapply repr_short. Qed.
End Relinking.

(** ** The bound of the insert window *)
Lemma load_q16 n C : is_buckets C -> 0 <= n <= 2 * C -> chmap_load_q16 n C = (n * 65536) `div` C.
Proof.
  intros HC Hn. pose proof (buckets_range _ HC). destruct HC as (k & Hk & ->). unfold chmap_load_q16.
  rewrite log2_pow2 by lia. rewrite Z.geb_leb. assert (2 ^ 16 = 65536) as E16 by done. destruct (Z.leb_spec 16 k).
  - rewrite Z.shiftr_div_pow2 by lia. replace (2 ^ k) with (2 ^ (k - 16) * 65536).
    + by rewrite Z.div_mul_cancel_r by (try apply Z.pow_nonzero; lia).
    + rewrite <- E16, <- Z.pow_add_r by lia. f_equal. lia.
  - rewrite Z.shiftl_mul_pow2 by lia. assert ((n * 65536) `div` 2 ^ k = n * 2 ^ (16 - k)) as ->.
    { rewrite <- E16. replace (2 ^ 16) with (2 ^ (16 - k) * 2 ^ k) by (rewrite <- Z.pow_add_r by lia; f_equal; lia).
      rewrite Z.mul_assoc. apply Z.div_mul. apply Z.pow_nonzero; lia. }
    apply wrap_small. assert (0 < 2 ^ (16 - k)) by (apply Z.pow_pos_nonneg; lia).
    assert (2 ^ k * 2 ^ (16 - k) = 65536) by (rewrite <- Z.pow_add_r by lia; rewrite <- E16; f_equal; lia). unfold two64. nia.
Qed.

(** The load the window is judged by. *)
Definition judged_count (start C : Z) : Z := Z.min (start + 256) (C + C `div` 2 + 1).

(** The real-valued bound 1152 * lambda + 128, times the number of buckets. *)
Definition real_bound (start C : Z) : Z := 1152 * judged_count start C + 128 * C.

(** The bound of a window of 256 insertions is within two counts and
    within one percent of 256 * (4.5 * lambda + 0.5), lambda being the
    highest load the window can have reached in entries per bucket: no
    intermediate wraps, the cap at 65535 never applies, and the bound is
    between 128 and 2144. *)
Theorem sc_window_bound_exact map : is_buckets (bucket_arr_size map) -> 0 <= elem_count map <= ccol_max_elem_count ->
  let C := bucket_arr_size map in
  let b := sc_window_bound (elem_count map) (elem_count_to_scale_up (sc_set_scaling_limits map)) C in
  b * C <= real_bound (elem_count map) C < (b + 2) * C /\
  100 * (real_bound (elem_count map) C - b * C) <= real_bound (elem_count map) C /\ 128 <= b <= 2144.
Proof.
  intros HC Hn C. pose proof (buckets_range _ HC) as HCr. destruct (scaling_limits _ HC) as [Eup _].
  cbn [elem_count_to_scale_up sc_set_scaling_limits set_limits]. rewrite Eup. fold C in HC, HCr |- *.
  set (n := elem_count map) in *. set (up := C + C `div` 2 + 1). unfold ccol_max_elem_count in Hn.
  assert (C <= 2 * (C `div` 2) + 1 /\ 2 * (C `div` 2) <= C) as [? ?].
  { pose proof (Z.div_mod C 2 ltac:(lia)). pose proof (Z.mod_pos_bound C 2 ltac:(lia)). lia. }
  unfold sc_window_bound, CHMAP_WINDOW_INSERTS.
  assert ((if (n <? up) && (up ⊖ n >? 256) then n ⊕ 256 else up) = judged_count n C) as ->.
  { unfold judged_count. fold up. destruct (Z.ltb_spec n up); cbn [andb]; [|lia]. subst up. sz. rewrite Z.gtb_ltb.
    destruct (Z.ltb_spec 256 (C + C `div` 2 + 1 - n)); lia. }
  assert (1 <= judged_count n C <= C + C `div` 2 + 1) as Hj by (unfold judged_count; lia).
  unfold real_bound. set (j := judged_count n C) in *. clearbody j. rewrite load_q16 by (done || lia).
  pose proof (Z.div_mod (j * 65536) C ltac:(lia)). pose proof (Z.mod_pos_bound (j * 65536) C ltac:(lia)).
  set (l := (j * 65536) `div` C) in *. assert (0 <= l <= 114688) as Hl by (split; [apply Z.div_pos; lia|apply Z.div_le_upper_bound; lia]).
  rewrite Z.shiftr_div_pow2 by lia. change (2 ^ 16) with 65536. sz.
  pose proof (Z.div_mod (1152 * l) 65536 ltac:(lia)). pose proof (Z.mod_pos_bound (1152 * l) 65536 ltac:(lia)).
  set (q := (1152 * l) `div` 65536) in *. assert (0 <= q <= 2016) as Hq by lia. sz. cbv zeta. unfold UINT16_MAX. rewrite Z.gtb_ltb.
  destruct (Z.ltb_spec 65535 (q + 128)); [lia|]. split_and!; nia.
Qed.

(** ** Witnesses *)
Definition config_ss : sc_config := ScConfig None None ccol_string ccol_string 16.
Definition config_even : sc_config :=
  ScConfig (Some (fun _ => 0)) (Some (fun a b => Bool.eqb (Z.even (le_unsigned a)) (Z.even (le_unsigned b)))) ccol_other_types ccol_int 4.
Definition secret1 : chmap_hash_secret := HashSecretOf (SipState 1 2 3 4) 5 6.

Lemma buckets_16 : is_buckets 16.
Proof. exists 4. split; [lia|done]. Qed.
Lemma buckets_4 : is_buckets 4.
Proof. exists 2. split; [lia|done]. Qed.
Lemma config_ss_ok : conf_ok config_ss.
Proof. by split. Qed.
Lemma config_even_ok : conf_ok config_even.
Proof.
  split; cbn; [|done|done|done]. split_and!.
  - intros a _. by destruct (Z.even _).
  - intros a b _ _. by destruct (Z.even (le_unsigned a)), (Z.even (le_unsigned b)).
  - intros a b d _ _ _. by destruct (Z.even (le_unsigned a)), (Z.even (le_unsigned b)), (Z.even (le_unsigned d)).
Qed.

Definition text (n : nat) (x : Z) : list Z := replicate n x.
Definition history : list sop :=
  [SInsert (text 3 65) (text 30 1); SInsert (text 40 66) (text 2 2); SInsertFrom (text 3 65) (text 3 65);
   SInsertFrom (text 5 67) (text 3 65); SInsertOrGet (text 40 66) (text 1 9); SEntry (text 1 68) (text 24 4);
   SDelete (text 3 65); SGet (text 5 67); SWalk; SCount; SReset 64; SGet (text 5 67)].

Lemma history_wf : Forall (sop_wf config_ss) history.
Proof.
  assert (forall n x, (1 <= n <= 100)%nat -> is_byte x -> valid_key config_ss (text n x) /\ val_arg (text n x)) as Ht.
  { intros n x Hn Hx. assert (zlen (text n x) = Z.of_nat n) as E by (unfold text, zlen; by rewrite length_replicate).
    unfold val_arg. rewrite E. split; [|sz_in_range]. split; [rewrite E; sz_in_range|]. split; [by apply Forall_replicate|by left]. }
  assert (forall n x, (1 <= n <= 100)%nat -> is_byte x -> valid_key config_ss (text n x)) as Hk by (intros n x Hn Hx; by apply (Ht n x Hn Hx)).
  unfold history. repeat apply Forall_cons_2; try apply Forall_nil_2; cbn [sop_wf]; try done;
    try (apply Hk; unfold is_byte; lia); try (split; first [apply Hk|apply Ht]; unfold is_byte; lia).
  right. exists 6. split; [lia|done].
Qed.

Lemma sc_history_witness :
  wp (@sc_life (grant_up_to 100000) secret1 16 config_ss history) mem0 (fun r m' => owns m' ∅ ∅ /\
    match r with Some rs => exists L, sspecs (key_eq config_ss) [] history rs L | None => True end).
Proof.
  apply (@sc_history (grant_up_to 100000) secret1 ltac:(done) 16 config_ss history mem0 ∅);
    [exact config_ss_ok|exact buckets_16|exact history_wf|exact owns_mem0].
Defined.

(** The same history, evaluated. *)
Definition bytes_found (r : sres) : option Z := match r with SGot _ (Some v) => Some (zlen v) | _ => None end.
Example sc_history_runs :
  (match @sc_life (grant_up_to 100000) secret1 16 config_ss history mem0 with
   | Done (Some rs) m => Some (rs, size (m_live m))
   | _ => None
   end) =
  Some ([SCode ccol_success; SCode ccol_success; SCode ccol_key_already_present; SCode ccol_success;
         SGot ccol_key_already_present (Some (text 2 2)); SGotEntry ccol_success (Some (text 1 68, text 24 4));
         SCode ccol_success; SGot ccol_success (Some (text 30 1));
         SPairs [(text 40 66, text 2 2); (text 5 67, text 30 1); (text 1 68, text 24 4)]; SNum 3;
         SCode ccol_success; SGot ccol_key_not_found None], 0%nat).
Proof. vm_compute. reflexivity. Qed.

(** Keys that are equal when their parity is, and a hash that is always 0. *)
Definition odd_even : list sop :=
  [SInsert (text 1 2) (le_bytes 4 10); SInsert (text 1 3) (le_bytes 4 11); SInsert (text 2 8) (le_bytes 4 12);
   SGet (text 1 6); SDelete (text 3 5); SWalk].

Lemma odd_even_wf : Forall (sop_wf config_even) odd_even.
Proof.
  assert (forall n x, (1 <= n <= 3)%nat -> is_byte x -> valid_key config_even (text n x)) as Hk.
  { intros n x Hn Hx. assert (zlen (text n x) = Z.of_nat n) as E by (unfold text, zlen; by rewrite length_replicate).
    split; [rewrite E; sz_in_range|]. split; [by apply Forall_replicate|by left]. }
  assert (forall n, val_arg (le_bytes 4 n)) as Hv by (intros n; by split).
  unfold odd_even. repeat apply Forall_cons_2; try apply Forall_nil_2; cbn [sop_wf]; try done;
    first [apply Hk; unfold is_byte; lia|split; [apply Hk; unfold is_byte; lia|apply Hv]].
Qed.

Lemma switch_keeps_witness :
  wp (@sc_after (grant_up_to 1000) secret1 4 config_even odd_even) mem0 (fun r m1 => match r with None => True | Some map =>
    wp (sc_switch_to_keyed secret1 map) m1 (fun map' m2 => m2 = m1 /\ sc_keyed map' = true /\ nodes_stay map map' /\
      exists es, repr secret1 map' es) end).
Proof.
  apply (@switch_keeps (grant_up_to 1000) secret1 ltac:(done) 4 config_even odd_even mem0 ∅);
    [exact config_even_ok|exact buckets_4|exact odd_even_wf|exact owns_mem0].
Defined.

Definition fill (n : nat) : list sop := (fun i => SInsert (text (S i) 1) (le_bytes 4 (Z.of_nat i))) <$> seq 0 n.

(** A map that grows; and one whose hash is constant, which switches to the
    keyed hash at the 21st node of its chain, and whose growths fail to return
    to the fast one. *)
Definition config_long : sc_config := ScConfig None None ccol_string ccol_int 4.
Definition config_zero : sc_config := ScConfig (Some (fun _ => 0)) None ccol_string ccol_int 4.
Definition summary (c : sc_config) (ops : list sop) : option (Z * Z * bool * Z) :=
  match @sc_after (grant_up_to 100000) secret1 4 c ops mem0 with
  | Done (Some map) m => Some (elem_count map, bucket_arr_size map, sc_keyed map, Z.of_nat (size (m_live m)))
  | _ => None
  end.
Example sc_grows : summary config_long (fill 40) = Some (40, 64, false, 58).
Proof. vm_compute. reflexivity. Qed.
Example sc_stays_fast : summary config_zero (fill 20) = Some (20, 16, false, 21).
Proof. vm_compute. reflexivity. Qed.
Example sc_switches : summary config_zero (fill 40) = Some (40, 64, true, 58).
Proof. vm_compute. reflexivity. Qed.

Lemma fill_wf n : (n <= 100)%nat -> Forall (sop_wf config_zero) (fill n).
Proof.
  intros Hn. unfold fill. apply Forall_fmap, Forall_forall. intros i Hi%elem_of_seq. cbn [sop_wf].
  assert (zlen (text (S i) 1) = Z.of_nat (S i)) as E by (unfold text, zlen; by rewrite length_replicate).
  split; [|split; done]. split; [rewrite E; sz_in_range|]. split; [|by left]. by apply Forall_replicate.
Qed.
Lemma config_zero_ok : conf_ok config_zero.
Proof. by split. Qed.

Lemma attempt_work_witness :
  wp (@sc_after (grant_up_to 100000) secret1 4 config_zero (fill 40)) mem0 (fun r m1 => match r with None => True | Some map =>
    wp (fast_links secret1 map (no_chains 256) 256) m1 (fun '(stop, work, map', arr) m2 => m2 = m1 /\ nodes_stay map map' /\
      exists w, work = wrap w /\ 0 <= w <= 2 * elem_count map + SC_ATTEMPT_SLACK + SC_CHAIN_CAP - 1) end).
Proof.
  apply (@attempt_work (grant_up_to 100000) secret1 ltac:(done) 4 config_zero (fill 40) 256 mem0 ∅);
    [exact config_zero_ok|exact buckets_4|apply fill_wf; lia|exact owns_mem0|by exists 8].
Defined.

Lemma fast_chains_short_witness :
  wp (@sc_after (grant_up_to 100000) secret1 4 config_zero (fill 20)) mem0
    (fun r _ => match r with Some map => short_chains map | None => True end).
Proof.
  apply (@fast_chains_short (grant_up_to 100000) secret1 ltac:(done) 4 config_zero (fill 20) mem0 ∅);
    [exact config_zero_ok|exact buckets_4|apply fill_wf; lia|exact owns_mem0].
Defined.

Definition map_16 : sep_chain_map := resized
  (SepChainMap 10 0 0 0 (BucketArray None []) (DllistRoot None None) config_ss CHMAP_HASH_FAST 0 0 ∅) None (no_chains 16) 16.
Lemma sc_window_bound_exact_witness :
  let C := bucket_arr_size map_16 in
  let b := sc_window_bound (elem_count map_16) (elem_count_to_scale_up (sc_set_scaling_limits map_16)) C in
  b * C <= real_bound (elem_count map_16) C < (b + 2) * C /\
  100 * (real_bound (elem_count map_16) C - b * C) <= real_bound (elem_count map_16) C /\ 128 <= b <= 2144.
Proof. apply (sc_window_bound_exact map_16); [exact buckets_16|by split]. Defined.
