(* ===== verification/CHashMap.v ===== *)
(** * The hash map ([src/chashmap.c])

    The functions a caller sees: the creation of a map with the backend its
    types select, the checks of the arguments, the dispatch to [COaMap] or
    [CScMap], the iterators and the walks. *)
From S2P Require Import Prelude Memory Values Common CVector CHash COaMap CLinks CScMap.
Import COaMap(open_addr_map, table, capacity, cmap_pair(..), pair_ptr, pair_size, minimum_allowed_bucket_array_size,
  should_use_open_addressing, get_type_size, UINT16_MAX, CHMAP_WINDOW_START, chmap_hash_mode(..)).
Import CScMap(sep_chain_map, compact_bucket_array_size, nodes, node_at).

Module CHashMap.
Section CHashMap.
Context {alloc : Allocator} (secret : chmap_hash_secret).

(** ** State

    [hashmap_impl_type] and the [impl] pointer are the constructor; the hash
    mode and the window are fields of the two backends' records. *)
Inductive hashmap_impl :=
  | IMPL_OPEN_ADDRESSING (oa : open_addr_map)
  | IMPL_SEPARATE_CHAINING (sc : sep_chain_map).

Record chashmap := Chashmap { chm_blk : nat; m_procs : CVector.procs_slot; impl : hashmap_impl }.

Definition sizeof_chashmap : Z := 104.

(** A pair as a caller passes it: [{NULL, n}] has no pointer. *)
Record user_pair := UserPair { u_ptr : option ptr; u_size : Z }.

(** The guard [!pair || !pair->ptr || pair->size == 0]. *)
Definition given (pair : option user_pair) : option cmap_pair :=
  match pair with
  | Some (UserPair (Some p) n) => if n =? 0 then None else Some (CmapPair p n)
  | _ => None
  end.

Definition set_impl (chm : chashmap) (i : hashmap_impl) : chashmap := Chashmap (chm_blk chm) (m_procs chm) i.

(** ** Creation *)
Inductive create_error :=
  | initial_bucket_array_size_is_zero | equality_needs_a_hashing_proc | null_memory_management_function
  | initial_bucket_array_size_is_too_big | failed_to_allocate_chashmap
  | failed_to_create_open_addressing_map | failed_to_create_separate_chaining_map.

(** The first bucket array, [None] when it is too big. *)
Definition initial_size (initial_bucket_array_size floor : Z) : option Z :=
  if initial_bucket_array_size <=? floor then Some floor else
  let size := Pow2._ccol_find_nearest_gte_power_of_two initial_bucket_array_size in
  if size >? ccol_max_elem_count then None else Some size.

Definition is_given {A} (p : option A) : bool := match p with Some _ => true | None => false end.

(** The copy of the procs, if the map makes one, is behind the bucket array
    in the map's own block.  [is_interned] is the answer of
    [ccol_procs_is_interned]. *)
Definition chmap_create_impl (initial_bucket_array_size : Z) (key_type val_type : ccol_data_type)
    (mmgmt_procs : option ccol_memmgmt_procs_t) (is_interned : bool)
    (custom_hashing_proc : option (list Z -> Z)) (custom_key_equality_proc : option (list Z -> list Z -> bool))
    (sc_min_buckets : Z) : M (chashmap + create_error) :=
  if initial_bucket_array_size =? 0 then mret (inr initial_bucket_array_size_is_zero) else
  if is_given custom_key_equality_proc && negb (is_given custom_hashing_proc)
  then mret (inr equality_needs_a_hashing_proc) else
  if negb (_ccol_verify_memmgmt_procs mmgmt_procs) then mret (inr null_memory_management_function) else
  let open_addressing := negb (is_given custom_key_equality_proc) && should_use_open_addressing key_type val_type in
  match initial_size initial_bucket_array_size
          (if open_addressing then minimum_allowed_bucket_array_size else sc_min_buckets) with
  | None => mret (inr initial_bucket_array_size_is_too_big)
  | Some size =>
      let inline_buckets :=
        if negb open_addressing && (size <=? minimum_allowed_bucket_array_size) then size else 0 in
      let copy_procs := is_given mmgmt_procs && negb is_interned in
      let procs_offset := sizeof_chashmap ⊕ (inline_buckets ⊗ 8) in
      chm ← _ccol_mem_alloc (procs_offset ⊕ (if copy_procs then CVector.sizeof_procs else 0));
      match chm with
      | None => mret (inr failed_to_allocate_chashmap)
      | Some chm =>
          let procs :=
            match mmgmt_procs with
            | None => CVector.procs_default
            | Some p => if copy_procs then CVector.procs_tail_copy p else CVector.procs_interned p
            end in
          if open_addressing then
            oa ← COaMap.oa_init size key_type val_type (get_type_size key_type) (get_type_size val_type)
                   custom_hashing_proc CHMAP_HASH_FAST UINT16_MAX CHMAP_WINDOW_START;
            match oa with
            | None => _ccol_mem_free (b_id chm);; mret (inr failed_to_create_open_addressing_map)
            | Some oa =>
                mret (inl (Chashmap (b_id chm) procs (IMPL_OPEN_ADDRESSING (COaMap.oa_window_restart oa))))
            end
          else
            sc ← CScMap.sc_init size
                   (CScMap.ScConfig custom_hashing_proc custom_key_equality_proc key_type val_type inline_buckets)
                   CHMAP_HASH_FAST UINT16_MAX CHMAP_WINDOW_START;
            match sc with
            | None => _ccol_mem_free (b_id chm);; mret (inr failed_to_create_separate_chaining_map)
            | Some sc => mret (inl (Chashmap (b_id chm) procs (IMPL_SEPARATE_CHAINING sc)))
            end
      end
  end.

Definition chashmap_create_full (initial_bucket_array_size : Z) (key_type val_type : ccol_data_type)
    (mmgmt_procs : option ccol_memmgmt_procs_t) (is_interned : bool)
    (custom_hashing_proc : option (list Z -> Z)) (custom_key_equality_proc : option (list Z -> list Z -> bool))
    : M (chashmap + create_error) :=
  chmap_create_impl initial_bucket_array_size key_type val_type mmgmt_procs is_interned
    custom_hashing_proc custom_key_equality_proc minimum_allowed_bucket_array_size.

Definition ccol_chmap_create_compact (key_type val_type : ccol_data_type)
    (mmgmt_procs : option ccol_memmgmt_procs_t) (is_interned : bool) : M (chashmap + create_error) :=
  chmap_create_impl compact_bucket_array_size key_type val_type mmgmt_procs is_interned
    None None compact_bucket_array_size.

(** ** The arguments *)
Definition chmap_key_type (chm : chashmap) : ccol_data_type :=
  match impl chm with
  | IMPL_OPEN_ADDRESSING oa => COaMap.key_type oa
  | IMPL_SEPARATE_CHAINING sc => CScMap.key_type (CScMap.conf sc)
  end.

Definition chmap_val_type (chm : chashmap) : ccol_data_type :=
  match impl chm with
  | IMPL_OPEN_ADDRESSING oa => COaMap.val_type oa
  | IMPL_SEPARATE_CHAINING sc => CScMap.val_type (CScMap.conf sc)
  end.

(** [n] bytes at an argument's pointer, in the caller's memory or the map's. *)
Definition read_arg (chm : chashmap) (p : ptr) (n : Z) : M (list Z) :=
  match impl chm with
  | IMPL_OPEN_ADDRESSING oa => COaMap.read_ptr (table oa) p n
  | IMPL_SEPARATE_CHAINING sc => CScMap.read_ptr sc p n
  end.

(** The eight bytes of [out_canon_buf] once the zero is canonical. *)
Definition canonical_zero (key_type : ccol_data_type) (buf : list Z) : list Z :=
  if bool_decide (key_type = ccol_float) then
    if le_unsigned (ztake 4 buf) =? 0x80000000 then splice buf 0 (replicate 4 0) else buf
  else if le_unsigned buf =? 0x8000000000000000 then replicate 8 0 else buf.

Definition canonicalize_key_pair_if_needed (read : ptr -> Z -> M (list Z)) (key_pair : cmap_pair)
    (key_type : ccol_data_type) : M cmap_pair :=
  if (negb (bool_decide (key_type = ccol_float)) && negb (bool_decide (key_type = ccol_double))) ||
     (pair_size key_pair >? 8) then mret key_pair else
  bytes ← read (pair_ptr key_pair) (pair_size key_pair);
  buf ← memcpy_in (replicate 8 0) 0 bytes;
  mret (CmapPair (Foreign (canonical_zero key_type buf)) (pair_size key_pair)).

(** A pointer into memory of the caller's own. *)
Definition read_foreign (p : ptr) (n : Z) : M (list Z) :=
  match p with
  | Foreign bs => if (0 <=? n) && (n <=? zlen bs) then mret (ztake n bs) else undefined
  | At _ _ => undefined
  end.

Definition ccol_chmap_hash_key (key_ptr : ptr) (key_size : Z) (key_type : ccol_data_type) : M Z :=
  key ← canonicalize_key_pair_if_needed read_foreign (CmapPair key_ptr key_size) key_type;
  bytes ← read_foreign (pair_ptr key) (pair_size key);
  ub (hash_key_data secret bytes (pair_size key) key_type None true (int_seed secret)).

Definition oa_val_size_matches (map : open_addr_map) (val_size : Z) : bool := val_size =? COaMap.val_size map.

Definition key_size_matches_type_if_fixed_width (key_type : ccol_data_type) (key_size : Z) : bool :=
  let fixed_width := ccol_fixed_width_data_type_size key_type in
  (fixed_width =? 0) || (key_size =? fixed_width).

Definition val_size_matches_type_if_fixed_width (val_type : ccol_data_type) (val_size : Z) : bool :=
  let fixed_width := ccol_fixed_width_data_type_size val_type in
  (fixed_width =? 0) || (val_size =? fixed_width).

(** The key an operation works on: [None] for arguments it refuses. *)
Definition checked_key (chm : option chashmap) (key_pair : option user_pair) : M (option (chashmap * cmap_pair)) :=
  match chm, given key_pair with
  | Some chm, Some key =>
      if negb (key_size_matches_type_if_fixed_width (chmap_key_type chm) (pair_size key)) then mret None else
      key ← canonicalize_key_pair_if_needed (read_arg chm) key (chmap_key_type chm);
      mret (Some (chm, key))
  | _, _ => mret None
  end.

(** ** Inserting *)

(** What the caller wants back, and what it gets: nothing, the value's pair
    or the entry, [None] standing for NULL. *)
Inductive wanted := want_nothing | want_slot | want_entry.

Inductive handed_out := no_out | slot_out (p : option cmap_pair) | entry_out (a : option nat).

Definition nothing_for (w : wanted) : handed_out :=
  match w with want_nothing => no_out | want_slot => slot_out None | want_entry => entry_out None end.

Definition chmap_insert_elem_impl (chm : option chashmap) (key_pair val_pair : option user_pair) (w : wanted)
    : M (ccol_retval_t * handed_out * option chashmap) :=
  match chm, given key_pair, given val_pair with
  | Some map, Some key, Some val =>
      if negb (key_size_matches_type_if_fixed_width (chmap_key_type map) (pair_size key))
      then mret (ccol_invalid_args, nothing_for w, chm) else
      if negb (val_size_matches_type_if_fixed_width (chmap_val_type map) (pair_size val))
      then mret (ccol_invalid_args, nothing_for w, chm) else
      if match impl map with
         | IMPL_OPEN_ADDRESSING oa => negb (oa_val_size_matches oa (pair_size val))
         | IMPL_SEPARATE_CHAINING _ => false
         end then mret (ccol_invalid_args, nothing_for w, chm) else
      key ← canonicalize_key_pair_if_needed (read_arg map) key (chmap_key_type map);
      match w, impl map with
      | want_entry, IMPL_SEPARATE_CHAINING sc =>
          '(r, entry, sc) ← CScMap.sc_insert_or_get_entry secret sc key val;
          mret (r, entry_out entry, Some (set_impl map (IMPL_SEPARATE_CHAINING sc)))
      | want_entry, IMPL_OPEN_ADDRESSING _ => undefined
      | want_slot, IMPL_OPEN_ADDRESSING oa =>
          '(r, out, oa) ← COaMap.oa_insert_or_get secret oa key val;
          mret (r, slot_out out, Some (set_impl map (IMPL_OPEN_ADDRESSING oa)))
      | want_slot, IMPL_SEPARATE_CHAINING sc =>
          '(r, out, sc) ← CScMap.sc_insert_or_get secret sc key val;
          mret (r, slot_out out, Some (set_impl map (IMPL_SEPARATE_CHAINING sc)))
      | want_nothing, IMPL_OPEN_ADDRESSING oa =>
          '(r, oa) ← COaMap.oa_insert secret oa key val;
          mret (r, no_out, Some (set_impl map (IMPL_OPEN_ADDRESSING oa)))
      | want_nothing, IMPL_SEPARATE_CHAINING sc =>
          '(r, sc) ← CScMap.sc_insert secret sc key val;
          mret (r, no_out, Some (set_impl map (IMPL_SEPARATE_CHAINING sc)))
      end
  | _, _, _ => mret (ccol_invalid_args, nothing_for w, chm)
  end.

(** Every operation returns the map as it leaves it. *)
Definition chashmap_insert_elem (chm : option chashmap) (key_pair val_pair : option user_pair)
    : M (ccol_retval_t * option chashmap) :=
  '(r, _, chm) ← chmap_insert_elem_impl chm key_pair val_pair want_nothing; mret (r, chm).

(** [has_slot]: [val_slot] is not NULL. *)
Definition ccol_chmap_insert_or_get_elem (chm : option chashmap) (key_pair val_pair : option user_pair)
    (has_slot : bool) : M (ccol_retval_t * option cmap_pair * option chashmap) :=
  if negb has_slot then mret (ccol_invalid_args, None, chm) else
  '(r, out, chm) ← chmap_insert_elem_impl chm key_pair val_pair want_slot;
  mret (r, match out with slot_out p => p | _ => None end, chm).

(** The backend of a map that chains. *)
Definition chained (chm : option chashmap) : option sep_chain_map :=
  match chm with
  | Some (Chashmap _ _ (IMPL_SEPARATE_CHAINING sc)) => Some sc
  | _ => None
  end.

(** [has_slots]: neither [key_slot] nor [val_slot] is NULL. *)
Definition ccol_chmap_insert_or_get_entry (chm : option chashmap) (key_pair val_pair : option user_pair)
    (has_slots : bool) : M (ccol_retval_t * option nat * option chashmap) :=
  if negb has_slots then mret (ccol_invalid_args, None, chm) else
  if negb (is_given (chained chm)) then mret (ccol_invalid_args, None, chm) else
  '(r, out, chm) ← chmap_insert_elem_impl chm key_pair val_pair want_entry;
  mret (r, match out with entry_out a => a | _ => None end, chm).

(** ** Looking up and deleting

    [has_val]: the out parameter is not NULL. *)
Definition chashmap_get_elem_ref (chm : option chashmap) (key_pair : option user_pair) (has_val : bool)
    : M (ccol_retval_t * option cmap_pair) :=
  if negb has_val then mret (ccol_invalid_args, None) else
  checked ← checked_key chm key_pair;
  match checked with
  | None => mret (ccol_invalid_args, None)
  | Some (map, key) =>
      match impl map with
      | IMPL_OPEN_ADDRESSING oa => COaMap.oa_get secret oa key
      | IMPL_SEPARATE_CHAINING sc => CScMap.sc_get secret sc key
      end
  end.

Definition _chashmap_get_val_accessor (chm : option chashmap) (key_pair : option user_pair) (has_accessor : bool)
    : M (ccol_retval_t * option nat) :=
  if negb has_accessor then mret (ccol_invalid_args, None) else
  match chained chm with
  | None => mret (ccol_invalid_args, None)
  | Some sc =>
      checked ← checked_key chm key_pair;
      match checked with
      | None => mret (ccol_invalid_args, None)
      | Some (_, key) => CScMap.sc_find_accessor secret sc key
      end
  end.

(** [target_buf] is [None] for NULL, and is returned as the call leaves it. *)
Definition chashmap_get_elem_copy (chm : option chashmap) (key_pair : option user_pair)
    (target_buf : option (list Z)) (target_buf_size : Z) : M (ccol_retval_t * option (list Z)) :=
  match target_buf with
  | None => mret (ccol_invalid_args, None)
  | Some buf =>
      if target_buf_size =? 0 then mret (ccol_invalid_args, Some buf) else
      '(ret, val_pair) ← chashmap_get_elem_ref chm key_pair true;
      if bool_decide (ret = ccol_success) then
        map ← ub chm;
        val ← ub val_pair;
        let copy_size := if pair_size val <? target_buf_size then pair_size val else target_buf_size in
        bytes ← read_arg map (pair_ptr val) copy_size;
        buf ← memcpy_in buf 0 bytes;
        buf ← (if pair_size val <? target_buf_size
               then memcpy_in buf (pair_size val) (replicate (Z.to_nat (target_buf_size ⊖ pair_size val)) 0)
               else mret buf);
        mret (ret, Some buf)
      else mret (ret, Some buf)
  end.

Definition chashmap_delete_elem (chm : option chashmap) (key_pair : option user_pair)
    : M (ccol_retval_t * option chashmap) :=
  checked ← checked_key chm key_pair;
  match checked with
  | None => mret (ccol_invalid_args, chm)
  | Some (map, key) =>
      match impl map with
      | IMPL_OPEN_ADDRESSING oa =>
          '(r, oa) ← COaMap.oa_delete secret oa key; mret (r, Some (set_impl map (IMPL_OPEN_ADDRESSING oa)))
      | IMPL_SEPARATE_CHAINING sc =>
          '(r, sc) ← CScMap.sc_delete secret sc key; mret (r, Some (set_impl map (IMPL_SEPARATE_CHAINING sc)))
      end
  end.

Definition chashmap_elem_count (chm : option chashmap) : M Z :=
  map ← deref chm;
  mret (match impl map with
  | IMPL_OPEN_ADDRESSING oa => COaMap.count oa
  | IMPL_SEPARATE_CHAINING sc => CScMap.elem_count sc
  end).

(** ** Resetting and destroying *)

(** The size a reset works with, and whether the one asked for is too big. *)
Definition reset_size (new_bucket_array_size : Z) : Z * bool :=
  if (new_bucket_array_size >? 0) && (new_bucket_array_size <? minimum_allowed_bucket_array_size)
  then (minimum_allowed_bucket_array_size, false)
  else if new_bucket_array_size >? 0 then
    let size := Pow2._ccol_find_nearest_gte_power_of_two new_bucket_array_size in
    if size >? ccol_max_elem_count then (0, true) else (size, false)
  else (new_bucket_array_size, false).

Definition chashmap_reset (chm : option chashmap) (new_bucket_array_size : Z)
    : M (ccol_retval_t * option chashmap) :=
  map ← deref chm;
  let '(new_size, requested_size_too_big) := reset_size new_bucket_array_size in
  '(r, i) ←
    (match impl map with
     | IMPL_OPEN_ADDRESSING oa =>
         '(r, oa) ← COaMap.oa_reset oa new_size; mret (r, IMPL_OPEN_ADDRESSING oa)
     | IMPL_SEPARATE_CHAINING sc =>
         '(r, sc) ← CScMap.sc_reset sc new_size; mret (r, IMPL_SEPARATE_CHAINING sc)
     end);
  mret (if requested_size_too_big then ccol_not_enough_memory else r, Some (set_impl map i)).

(** One allocator stands for the caller's and the default one, so the last
    free is the same in both arms. *)
Definition __chashmap_destroy (chm : option chashmap) : M unit :=
  match chm with
  | None => mret tt
  | Some map =>
      _ ← match impl map with
          | IMPL_OPEN_ADDRESSING oa => COaMap.oa_destroy oa
          | IMPL_SEPARATE_CHAINING sc => CScMap.sc_destroy sc
          end;
      _ccol_mem_free (chm_blk map)
  end.

(** The destructor of the values is the caller's: a function of the bytes of
    a value and of its context. *)
Section Dtor.
Context {D : Type} (val_dtor : list Z -> D -> D).

Definition oa_give_values (oa : open_addr_map) (ctx : D) : M D :=
  loop (S (Z.to_nat (capacity oa))) (fun '(i, ctx) =>
    if negb (i <? capacity oa) then mret (inr ctx) else
    occ ← COaMap.occupied (table oa) i;
    ctx ← (if (occ : bool) then
             let vp := COaMap.oa_fill_val_pair oa i in
             v ← COaMap.read_ptr (table oa) (pair_ptr vp) (pair_size vp); mret (val_dtor v ctx)
           else mret ctx);
    mret (inl (i ⊕ 1, ctx))) (0, ctx).

Definition sc_give_chain (sc : sep_chain_map) (first : option nat) (ctx : D) : M D :=
  loop (S (size (nodes sc))) (fun '(tracker, ctx) =>
    match tracker with
    | None => mret (inr ctx)
    | Some a =>
        n ← node_at sc a;
        v ← CScMap.read_pair sc (CScMap.val_pair_accessor n);
        mret (inl (CScMap.next n, val_dtor v ctx))
    end) (first, ctx).

Definition sc_give_values (sc : sep_chain_map) (ctx : D) : M D :=
  '(_, ctx) ← while (S (Z.to_nat (CScMap.bucket_arr_size sc)))
    (fun '(i, _) => i <? CScMap.bucket_arr_size sc)
    (fun '(i, ctx) =>
       first ← ub (zget (CScMap.heads (CScMap.bucket_arr sc)) i);
       ctx ← sc_give_chain sc first ctx;
       mret (i ⊕ 1, ctx)) (0, ctx);
  mret ctx.
End Dtor.

Definition chashmap_destroy_with_dtor {D} (chm : option chashmap) (val_dtor : option (list Z -> D -> D)) (dtor_ctx : D)
    : M D :=
  match chm, val_dtor with
  | None, _ => mret dtor_ctx
  | Some _, None => __chashmap_destroy chm;; mret dtor_ctx
  | Some map, Some val_dtor =>
      ctx ← match impl map with
            | IMPL_OPEN_ADDRESSING oa => oa_give_values val_dtor oa dtor_ctx
            | IMPL_SEPARATE_CHAINING sc => sc_give_values val_dtor sc dtor_ctx
            end;
      __chashmap_destroy chm;; mret ctx
  end.

(** ** Walks and iterators *)
Definition ccol_chmap_oldest_entry (chm : option chashmap) : option nat :=
  match chained chm with Some sc => CScMap.sc_oldest_entry sc | None => None end.

(** An entry of a map that chains: the accessors of its pair, and the next
    newer one. *)
Definition ccol_chmap_entry_read (sc : sep_chain_map) (entry : nat)
    : M (option cmap_pair * option cmap_pair * option nat) := CScMap.sc_entry_read sc entry.

Record ccol_chmap_walk := ChmapWalk { next_slot : Z; next_entry : option nat; started : bool }.

Definition walk_start : ccol_chmap_walk := ChmapWalk 0 None false.

(** The pointers to the bytes of the next pair, [None] when there is none. *)
Definition ccol_chmap_walk_next (chm : option chashmap) (walk : ccol_chmap_walk)
    : M (option (ptr * ptr) * ccol_chmap_walk) :=
  match chm with
  | None => mret (None, walk)
  | Some map =>
      match impl map with
      | IMPL_SEPARATE_CHAINING sc =>
          let walk := if started walk then walk
                      else ChmapWalk (next_slot walk) (ccol_chmap_oldest_entry chm) true in
          match next_entry walk with
          | None => mret (None, walk)
          | Some entry =>
              '(k, v, next) ← ccol_chmap_entry_read sc entry;
              k ← ub k; v ← ub v;
              mret (Some (pair_ptr k, pair_ptr v), ChmapWalk (next_slot walk) next (started walk))
          end
      | IMPL_OPEN_ADDRESSING oa =>
          i ← COaMap.next_occupied oa (next_slot walk);
          if i >=? capacity oa then mret (None, ChmapWalk i (next_entry walk) (started walk)) else
          mret (Some (At (COaMap.blk (table oa)) (COaMap.key_offset i), At (COaMap.blk (table oa)) (COaMap.val_offset i)),
                ChmapWalk (i ⊕ 1) (next_entry walk) (started walk))
      end
  end.

(** The pair of an iterator: its own pair, or the accessor of a node. *)
Inductive pair_ref :=
  | own_pair (p : cmap_pair)
  | key_accessor_of (a : nat)
  | val_accessor_of (a : nat).

Inductive iter_position := sc_tracker (a : nat) | oa_index (i : Z).

Record chmap_cmap_iterator := ChmapIterator {
  it_blk : nat;
  iter : iter_position;
  key_pair : pair_ref;
  val_pair : pair_ref;
}.

Definition sizeof_iterator : Z := 96.

Definition oa_positioned (oa : open_addr_map) (b : nat) (i : Z) : chmap_cmap_iterator :=
  ChmapIterator b (oa_index i)
    (own_pair (CmapPair (At (COaMap.blk (table oa)) (COaMap.key_offset i)) (COaMap.key_size oa)))
    (own_pair (CmapPair (At (COaMap.blk (table oa)) (COaMap.val_offset i)) (COaMap.val_size oa))).

Definition sc_positioned (b a : nat) : chmap_cmap_iterator :=
  ChmapIterator b (sc_tracker a) (key_accessor_of a) (val_accessor_of a).

(** The iterator, or whether the error is the iterator's allocation: an empty
    map reports none. *)
Definition chashmap_begin_iter (chm : option chashmap) : M (chmap_cmap_iterator + bool) :=
  match chm with
  | None => mret (inr false)
  | Some map =>
      match impl map with
      | IMPL_SEPARATE_CHAINING sc =>
          match CScMap.dl_head (CScMap.all_elems sc) with
          | None => mret (inr false)
          | Some tracker =>
              b ← _ccol_mem_calloc 1 sizeof_iterator;
              mret (match b with None => inr true | Some b => inl (sc_positioned (b_id b) tracker) end)
          end
      | IMPL_OPEN_ADDRESSING oa =>
          i ← COaMap.next_occupied oa 0;
          if i >=? capacity oa then mret (inr false) else
          b ← _ccol_mem_calloc 1 sizeof_iterator;
          mret (match b with None => inr true | Some b => inl (oa_positioned oa (b_id b) i) end)
      end
  end.

Definition __chashmap_iterator_destroy (it : option chmap_cmap_iterator) : M unit :=
  match it with Some it => _ccol_mem_free (it_blk it) | None => mret tt end.

(** [map] is the map [parent_map] points at. *)
Definition chmap_iter_next (map : chashmap) (it : chmap_cmap_iterator) : M (option chmap_cmap_iterator) :=
  match impl map, iter it with
  | IMPL_SEPARATE_CHAINING sc, sc_tracker a =>
      n ← node_at sc a;
      match CScMap.next_ref n with
      | Some a => mret (Some (sc_positioned (it_blk it) a))
      | None => __chashmap_iterator_destroy (Some it);; mret None
      end
  | IMPL_OPEN_ADDRESSING oa, oa_index i =>
      i ← COaMap.next_occupied oa (i ⊕ 1);
      if i >=? capacity oa then __chashmap_iterator_destroy (Some it);; mret None
      else mret (Some (oa_positioned oa (it_blk it) i))
  | _, _ => undefined
  end.
End CHashMap.
End CHashMap.
