(* ===== verification/CHashMapRefine.v ===== *)
(** * The operations of the hash map ([src/chashmap.c])

    One abstract map for both backends, a list of pairs, and what each
    function a caller sees does to it, whatever arguments it is given. *)
From S2P Require Import Prelude Memory Values Common CVector CHash COaProbe COaMap COaRefine COaSpec.
From S2P Require Import CLinks CScMap CScRefine CScRelink CScResize CScOps CScSpec CHashMap.
Import COaMap(open_addr_map, oa_slot(..), oa_block(..), blk, table, capacity, cmap_pair(..), pair_ptr, pair_size,
  minimum_allowed_bucket_array_size, should_use_open_addressing, get_type_size, UINT16_MAX, CHMAP_WINDOW_START,
  chmap_hash_mode(..), two32).
Import CScMap.
Import CHashMap.

Abbreviation pairs := (list (list Z * list Z)).

(** ** The list of pairs and the finite map of the open-addressing backend *)
Section Bridge.
Context (same : list Z -> list Z -> bool) (Hsame : forall a b, same a b = bool_decide (a = b)).
Implicit Types (L : pairs) (k v : list Z).

Lemma lookup_list_to_map k L : lookup_key same k L = (list_to_map L : gmap _ _) !! k.
Proof.
  induction L as [|[k' v'] L IH]; [done|]. cbn. rewrite Hsame. case_bool_decide as E.
  - subst. by rewrite lookup_insert_eq.
  - by rewrite lookup_insert_ne.
Qed.

Lemma update_list_to_map k v L v0 : lookup_key same k L = Some v0 ->
  (list_to_map (update_key same k v L) : gmap _ _) = <[k := v]> (list_to_map L) /\ (update_key same k v L).*1 = L.*1.
Proof.
  induction L as [|[k' v'] L IH]; [done|]. cbn. rewrite Hsame. case_bool_decide as E; cbn.
  - intros _. subst. split; [by rewrite insert_insert_eq|done].
  - intros Hl. destruct (IH Hl) as [IH1 IH2]. rewrite IH1, IH2. split; [by apply insert_insert_ne|done].
Qed.

Lemma append_list_to_map k v L : NoDup L.*1 -> lookup_key same k L = None ->
  (list_to_map (L ++ [(k, v)]) : gmap _ _) = <[k := v]> (list_to_map L) /\ NoDup (L ++ [(k, v)]).*1.
Proof.
  intros Hd Hl. rewrite lookup_list_to_map in Hl. apply not_elem_of_list_to_map in Hl.
  assert (NoDup (L ++ [(k, v)]).*1) as Hd2.
  { rewrite fmap_app. apply NoDup_app. split; [done|]. split; [|apply NoDup_singleton]. cbn. set_solver. }
  split; [|done]. change (<[k := v]> (list_to_map L)) with (list_to_map ((k, v) :: L) : gmap (list Z) (list Z)).
  apply list_to_map_proper; [done|]. by rewrite Permutation_app_comm.
Qed.

Lemma remove_keys k L : (remove_key same k L).*1 ⊆ L.*1.
Proof. induction L as [|[k' v'] L IH]; [done|]. cbn. destruct (same k' k); set_solver. Qed.

Lemma remove_list_to_map k L : NoDup L.*1 ->
  (list_to_map (remove_key same k L) : gmap _ _) = delete k (list_to_map L) /\ NoDup (remove_key same k L).*1.
Proof.
  induction L as [|[k' v'] L IH]; [intros Hd; cbn; by rewrite delete_empty|]. intros [Hk' Hd]%NoDup_cons. destruct (IH Hd) as [IH1 IH2].
  cbn. rewrite Hsame. case_bool_decide as E.
  - subst. split; [|done]. rewrite delete_insert_id; [done|]. by apply not_elem_of_list_to_map.
  - cbn. split; [by rewrite delete_insert_ne, IH1|]. apply NoDup_cons. split; [|done].
    intros Hin%remove_keys. done.
Qed.

Lemma length_list_to_map L : NoDup L.*1 -> Z.of_nat (size (list_to_map L : gmap (list Z) (list Z))) = zlen L.
Proof. intros Hd. rewrite <- length_map_to_list, map_to_list_to_map by done. done. Qed.
End Bridge.

(** ** What a map represents

    A configuration is the [sc_config] with the types and procedures of the
    map; how many buckets are inside the map's block is up to its creation. *)
Section Represents.
Context {alloc : Allocator} (secret : chmap_hash_secret) (Hsecret : secret_ok secret).
Implicit Types (c : sc_config) (L : pairs) (m : mem) (chm : chashmap) (oa : open_addr_map) (sc : sep_chain_map).

Definition uses_oa c : bool :=
  negb (is_given (custom_key_equality_proc c)) && should_use_open_addressing (key_type c) (val_type c).

Definition oa_config c : COaRefine.config :=
  COaRefine.Config (custom_hashing_proc c) (key_type c) (val_type c) (get_type_size (key_type c)) (get_type_size (val_type c)).

Definition with_inline c (n : Z) : sc_config :=
  ScConfig (custom_hashing_proc c) (custom_key_equality_proc c) (key_type c) (val_type c) n.

Definition impl_holds (i : hashmap_impl) c L m (F : gset nat) : Prop :=
  match i with
  | IMPL_OPEN_ADDRESSING oa =>
      uses_oa c = true /\ COaRefine.config_of oa = oa_config c /\ NoDup L.*1 /\
      COaRefine.repr secret oa (list_to_map L) /\ owns m {[blk (table oa)]} F
  | IMPL_SEPARATE_CHAINING sc =>
      uses_oa c = false /\ exists es n, conf sc = with_inline c n /\ L = content sc es /\
      repr secret sc es /\ owns m (all_owned sc) F
  end.

(** The map holds the pairs of [L], and its blocks. *)
Definition map_holds chm c L m (F : gset nat) : Prop :=
  (chm_blk chm ∉ F) /\ impl_holds (impl chm) c L m ({[chm_blk chm]} ∪ F).

Lemma oa_types c : uses_oa c = true -> custom_key_equality_proc c = None /\
  should_use_open_addressing (key_type c) (val_type c) = true /\
  get_type_size (key_type c) = ccol_fixed_width_data_type_size (key_type c) /\
  get_type_size (val_type c) = ccol_fixed_width_data_type_size (val_type c) /\
  1 <= get_type_size (key_type c) <= 8 /\ 1 <= get_type_size (val_type c) <= 8 /\ key_type c <> ccol_long_double.
Proof.
  unfold uses_oa. destruct (custom_key_equality_proc c); [done|]. cbn. intros H. split; [done|]. split; [done|].
  unfold should_use_open_addressing in H. destruct (key_type c); try done; destruct (val_type c); done.
Qed.

Lemma oa_config_ok c : conf_ok c -> uses_oa c = true -> COaRefine.config_ok (oa_config c).
Proof.
  intros Hc Hu. destruct (oa_types c Hu) as (_ & Ht & Ek & _ & Hk & _). split; [done..|]. cbn.
  pose proof (co_word c Hc) as Hw. destruct (custom_hashing_proc c); [|done]. cbn in *.
  intros key Hl Hb. apply Hw. split; [unfold two64; lia|]. split; [done|]. cbn. right. lia.
Qed.

Lemma oa_valid_key c key : uses_oa c = true -> valid_key c key -> COaRefine.valid_key (oa_config c) key.
Proof.
  intros Hu (Hl & Hb & Hw). destruct (oa_types c Hu) as (_ & _ & Ek & _ & Hk & _). split; [|done]. cbn in *. lia.
Qed.

Lemma oa_same c : uses_oa c = true -> forall a b, key_eq c a b = bool_decide (a = b).
Proof.
  intros Hu a b. destruct (oa_types c Hu) as (E & _ & _ & _ & _ & _ & Hld). unfold key_eq. rewrite E.
  destruct (Z.eqb_spec (zlen a) (zlen b)) as [El|El].
  - destruct (key_type c); done.
  - rewrite bool_decide_false; [done|]. by intros ->.
Qed.

(** ** Arguments

    A caller's pair: NULL, or a pointer into the caller's memory, NULL or
    not, with a size. *)
Definition carg : Type := option (option (list Z) * Z).

Definition to_pair (a : carg) : option user_pair := (fun '(p, n) => UserPair (Foreign <$> p) n) <$> a.

(** The bytes an argument gives: none if the functions refuse it. *)
Definition arg_bytes (a : carg) : option (list Z) :=
  match a with Some (Some bs, n) => if n =? 0 then None else Some (ztake n bs) | _ => None end.

(** The pointer has the bytes the size claims. *)
Definition carg_ok (a : carg) : Prop :=
  match a with Some (Some bs, n) => 0 <= n <= zlen bs /\ n < two64 /\ Forall is_byte bs | _ => True end.

(** The bytes of the negative zero become those of the positive one. *)
Definition canon (kt : ccol_data_type) (k : list Z) : list Z :=
  match kt with
  | ccol_float => if le_unsigned k =? 0x80000000 then replicate 4 0 else k
  | ccol_double => if le_unsigned k =? 0x8000000000000000 then replicate 8 0 else k
  | _ => k
  end.

Definition fits (type : ccol_data_type) (n : Z) : bool :=
  let w := ccol_fixed_width_data_type_size type in (w =? 0) || (n =? w).

(** The key and the value the map works with. *)
Definition arg_key c (a : carg) : option (list Z) :=
  k ← arg_bytes a; if fits (key_type c) (zlen k) then Some (canon (key_type c) k) else None.
Definition arg_val c (a : carg) : option (list Z) :=
  v ← arg_bytes a; if fits (val_type c) (zlen v) then Some v else None.

Lemma arg_bytes_given a k : carg_ok a -> arg_bytes a = Some k ->
  exists bs, given (to_pair a) = Some (CmapPair (Foreign bs) (zlen k)) /\ k = ztake (zlen k) bs /\
    zlen k <= zlen bs /\ 1 <= zlen k < two64 /\ Forall is_byte k.
Proof.
  destruct a as [[[bs|] n]|]; try done. cbn. intros (Hn & Hn64 & Hb). destruct (Z.eqb_spec n 0); [done|]. intros [= <-].
  exists bs. rewrite zlen_ztake by lia. rewrite Z.min_l by lia. split_and!; [done|done|lia|lia|lia|].
  by apply Forall_take.
Qed.

Lemma arg_bytes_none a : arg_bytes a = None -> given (to_pair a) = None.
Proof. destruct a as [[[bs|] n]|]; try done. cbn. by destruct (n =? 0). Qed.

(** The pair an operation passes to a backend. *)
Definition key_pair_of (p : cmap_pair) k : Prop :=
  pair_size p = zlen k /\ exists bs, pair_ptr p = Foreign bs /\ ztake (zlen k) bs = k /\ zlen k <= zlen bs.

Lemma key_pair_read chm p k m (Q : list Z -> mem -> Prop) : key_pair_of p k -> Q k m ->
  wp (read_arg chm (pair_ptr p) (pair_size p)) m Q.
Proof.
  intros (Es & bs & Ep & Ek & Hl) HQ. rewrite Es, Ep. zlen_facts. unfold read_arg. destruct (impl chm).
  - eapply wp_ub; [|exact HQ]. cbn. zcase; [|lia]. zcase; [|lia]. by rewrite Ek.
  - unfold read_ptr. apply wp_bind, wp_ret. eapply wp_ub; [|exact HQ]. cbn. zcase; [|lia]. zcase; [|lia]. by rewrite Ek.
Qed.

Lemma key_pair_oa oa p k : key_pair_of p k -> COaRefine.gives oa p (zlen k) k.
Proof.
  intros (Es & bs & Ep & Ek & Hl). zlen_facts. split; [done|]. rewrite Ep. rewrite <- Ek at 2. constructor. lia.
Qed.

Lemma key_pair_sc sc p k : 1 <= zlen k < two64 -> key_pair_of p k -> gives sc p k.
Proof.
  intros Hk (Es & bs & Ep & Ek & Hl). split; [done|]. split; [done|]. rewrite Es, Ep. cbn.
  zcase; [|lia]. zcase; [|lia]. by rewrite Ek.
Qed.

Lemma canon_ok kt k : Forall is_byte k -> fits kt (zlen k) = true ->
  zlen (canon kt k) = zlen k /\ Forall is_byte (canon kt k).
Proof.
  intros Hb Hf. unfold canon, fits in *. destruct kt; try (split; done); cbn in Hf; apply Z.eqb_eq in Hf;
    (destruct (_ =? _); [|done]); rewrite Hf; (split; [done|by repeat constructor]).
Qed.

Lemma key_valid c a k : carg_ok a -> arg_key c a = Some k -> valid_key c k.
Proof.
  intros Ha. unfold arg_key. destruct (arg_bytes a) as [k0|] eqn:E; [|done]. cbn.
  destruct (arg_bytes_given _ _ Ha E) as (_ & _ & _ & _ & Hk & Hb). destruct (fits _ _) eqn:Ef; [|done]. intros [= <-].
  destruct (canon_ok _ _ Hb Ef) as [El Hb']. split; [by rewrite El|]. split; [done|]. rewrite El.
  unfold fits in Ef. apply orb_true_iff in Ef as [?%Z.eqb_eq|?%Z.eqb_eq]; auto.
Qed.

(** The copy in the eight bytes of [canon_buf]. *)
Lemma canonical_zero_canon kt k : kt = ccol_float \/ kt = ccol_double -> Forall is_byte k -> fits kt (zlen k) = true ->
  zlen k <= zlen (canonical_zero kt (splice (replicate 8 0) 0 k)) /\
  ztake (zlen k) (canonical_zero kt (splice (replicate 8 0) 0 k)) = canon kt k.
Proof.
  intros Hkt Hb Hf. destruct Hkt as [-> | ->]; unfold fits in Hf; cbn in Hf; apply Z.eqb_eq in Hf; unfold canonical_zero, canon;
    rewrite Hf.
  - destruct k as [|a [|b [|d [|e [|]]]]]; try (exfalso; unfold zlen in Hf; cbn in Hf; lia).
    change (splice (replicate 8 0) 0 [a; b; d; e]) with [a; b; d; e; 0; 0; 0; 0]. rewrite bool_decide_true by done.
    change (ztake 4 [a; b; d; e; 0; 0; 0; 0]) with [a; b; d; e]. by destruct (_ =? _).
  - destruct k as [|a [|b [|d [|e [|f [|g [|h [|i [|]]]]]]]]]; try (exfalso; unfold zlen in Hf; cbn in Hf; lia).
    change (splice (replicate 8 0) 0 [a; b; d; e; f; g; h; i]) with [a; b; d; e; f; g; h; i].
    rewrite bool_decide_false by done. by destruct (_ =? _).
Qed.

(** A key a caller gives becomes a pair that stands for the key of the map. *)
Lemma wp_canonicalize read kt bs k m (Q : cmap_pair -> mem -> Prop) :
  (forall m (Q : list Z -> mem -> Prop), Q k m -> wp (read (Foreign bs) (zlen k)) m Q) ->
  k = ztake (zlen k) bs -> zlen k <= zlen bs -> Forall is_byte k -> fits kt (zlen k) = true ->
  (forall p, key_pair_of p (canon kt k) -> Q p m) ->
  wp (canonicalize_key_pair_if_needed read (CmapPair (Foreign bs) (zlen k)) kt) m Q.
Proof.
  intros Hread Ek Hl Hb Hf HQ. unfold canonicalize_key_pair_if_needed. cbn [pair_size pair_ptr].
  destruct (canon_ok kt k Hb Hf) as [El _].
  assert (kt = ccol_float \/ kt = ccol_double \/ (kt <> ccol_float /\ kt <> ccol_double)) as [Hk|[Hk|[H1 H2]]] by (destruct kt; auto).
  3: { rewrite !bool_decide_false by done. cbn. apply wp_ret, HQ.
       assert (canon kt k = k) as -> by (by destruct kt). split; [done|]. by exists bs. }
  all: assert (zlen k <= 8) as Hk8 by (rewrite Hk in Hf; unfold fits in Hf; cbn in Hf; apply Z.eqb_eq in Hf; lia).
  all: assert ((negb (bool_decide (kt = ccol_float)) && negb (bool_decide (kt = ccol_double))) || (zlen k >? 8) = false) as ->.
  1, 3: rewrite Hk; cbn; rewrite Z.gtb_ltb; by apply Z.ltb_ge.
  all: zlen_facts; apply wp_bind, Hread, wp_bind, wp_memcpy_in; [done|exact Hk8|]; apply wp_ret, HQ;
    destruct (canonical_zero_canon kt k ltac:(auto) Hb Hf) as [Hz1 Hz2]; split; [done|]; eexists; rewrite El; done.
Qed.

Lemma wp_checked_key chm c a m (Q : option (chashmap * cmap_pair) -> mem -> Prop) : carg_ok a -> chmap_key_type chm = key_type c ->
  (arg_key c a = None -> Q None m) ->
  (forall k p, arg_key c a = Some k -> valid_key c k -> key_pair_of p k -> Q (Some (chm, p)) m) ->
  wp (checked_key (Some chm) (to_pair a)) m Q.
Proof.
  intros Ha Ekt HN HS. unfold checked_key. pose proof (key_valid c a) as Hv. unfold arg_key in *.
  destruct (arg_bytes a) as [k|] eqn:E; cbn in *; [|rewrite (arg_bytes_none _ E); by apply wp_ret, HN].
  destruct (arg_bytes_given _ _ Ha E) as (bs & -> & Ek & Hl & Hk & Hb). cbn [pair_size]. rewrite Ekt.
  change (key_size_matches_type_if_fixed_width (key_type c) (zlen k)) with (fits (key_type c) (zlen k)).
  destruct (fits (key_type c) (zlen k)) eqn:Ef; cbn; [|by apply wp_ret, HN].
  apply wp_bind, wp_canonicalize; [|done..|].
  - intros m' Q' HQ'. apply (key_pair_read chm (CmapPair (Foreign bs) (zlen k)) k); [|done]. split; [done|]. by exists bs.
  - intros p Hp. apply wp_ret. by eapply HS; [|apply Hv|].
Qed.

Lemma holds_types chm c L m F : map_holds chm c L m F ->
  chmap_key_type chm = key_type c /\ chmap_val_type chm = val_type c.
Proof.
  intros [_ H]. unfold chmap_key_type, chmap_val_type. destruct (impl chm) as [oa|sc]; cbn in H.
  - destruct H as (_ & E & _). split; [by apply (f_equal COaRefine.c_key_type) in E|by apply (f_equal COaRefine.c_val_type) in E].
  - destruct H as (_ & es & n & -> & _). done.
Qed.

(** ** Values, given and handed out *)
Definition val_given chm (p : cmap_pair) v : Prop :=
  match impl chm with
  | IMPL_OPEN_ADDRESSING oa => pair_size p = zlen v /\ COaRefine.source (table oa) (pair_ptr p) (zlen v) v
  | IMPL_SEPARATE_CHAINING sc => gives sc p v
  end.

(** A value argument, of the caller or handed out by the map: [None] for one
    the map refuses. *)
Definition value_arg chm c (vp : option user_pair) (ov : option (list Z)) : Prop :=
  match ov with
  | None => given vp = None \/ exists p, given vp = Some p /\ fits (val_type c) (pair_size p) = false
  | Some v => exists p, given vp = Some p /\ fits (val_type c) (zlen v) = true /\ pair_size p = zlen v /\ val_given chm p v
  end.

Lemma carg_value chm c a : carg_ok a -> value_arg chm c (to_pair a) (arg_val c a).
Proof.
  intros Ha. unfold arg_val. destruct (arg_bytes a) as [v|] eqn:E; cbn; [|left; by apply arg_bytes_none].
  destruct (arg_bytes_given _ _ Ha E) as (bs & Eg & Ev & Hl & Hv & Hb). destruct (fits _ _) eqn:Ef; cbn; [|right; by eexists].
  eexists. split; [done|]. split; [done|]. split; [done|]. assert (key_pair_of (CmapPair (Foreign bs) (zlen v)) v) as Hp by (split; [done|by exists bs]).
  unfold val_given. destruct (impl chm); [by apply key_pair_oa|by apply key_pair_sc].
Qed.

Definition shows w chm (out : handed_out) k v : Prop :=
  match w, out with
  | want_slot, slot_out (Some p) => val_given chm p v
  | want_entry, entry_out (Some a) => exists sc n, impl chm = IMPL_SEPARATE_CHAINING sc /\ nodes sc !! a = Some n /\ node_key n = k /\ node_val n = v
  | _, _ => False
  end.

Definition insert_result c L k v w r (out : handed_out) chm L' : Prop :=
  match w with
  | want_nothing => out = no_out /\ sinserted (key_eq c) L k v r L'
  | _ =>
      match lookup_key (key_eq c) k L with
      | Some v0 => r = ccol_key_already_present /\ L' = L /\ exists k0, (w = want_entry -> key_eq c k0 k = true) /\ shows w chm out k0 v0
      | None => sinserted (key_eq c) L k v r L' /\
          if decide (r = ccol_success) then shows w chm out k v else out = nothing_for w
      end
  end.

(** *** The open-addressing backend *)
Lemma oa_inserted c L k v r oa M' : uses_oa c = true -> NoDup L.*1 ->
  match (list_to_map L : gmap _ _) !! k with
  | Some _ => r = ccol_key_already_present /\ COaRefine.repr secret oa (<[k := v]> (list_to_map L))
  | None =>
      (r = ccol_success /\ COaRefine.repr secret oa (<[k := v]> (list_to_map L))) \/
      (r = ccol_not_enough_memory /\ COaRefine.repr secret oa (list_to_map L)) \/
      (r = ccol_container_full /\ COaRefine.repr secret oa (list_to_map L) /\ Z.of_nat M' = ccol_max_elem_count)
  end -> M' = size (list_to_map L : gmap (list Z) (list Z)) ->
  exists L', sinserted (key_eq c) L k v r L' /\ NoDup L'.*1 /\ COaRefine.repr secret oa (list_to_map L').
Proof.
  intros Hu Hd H ->. pose proof (oa_same c Hu) as Hs. unfold sinserted. rewrite <- (lookup_list_to_map _ Hs k L) in H.
  destruct (lookup_key _ k L) as [v0|] eqn:E.
  - destruct H as [-> H]. destruct (update_list_to_map _ Hs k v L v0 E) as [E1 E2]. rewrite <- E1 in H.
    eexists. split; [by left|]. by rewrite E2.
  - destruct (append_list_to_map _ Hs k v L Hd E) as [E1 E2]. destruct H as [[-> H]|[[-> H]|(-> & H & Hm)]].
    + rewrite <- E1 in H. eexists. split; [by left|done].
    + exists L. split; [right; by left|done].
    + exists L. split; [|done]. right. right. split_and!; [done..|]. by rewrite <- length_list_to_map.
Qed.

Lemma points_given chm oa c v p : impl chm = IMPL_OPEN_ADDRESSING oa -> COaRefine.config_of oa = oa_config c ->
  COaRefine.points_to oa p v -> COaRefine.block_ok (capacity oa) (table oa) -> exists q, p = Some q /\ val_given chm q v.
Proof.
  intros Ei Ec (q & -> & Es & Hs) Hok. exists q. split; [done|]. unfold val_given. rewrite Ei.
  destruct (COaRefine.source_len _ _ _ _ _ Hok Hs) as [El _]. by rewrite El.
Qed.

Definition oa_slot_result c L k v (want : bool) r (out : option cmap_pair) oa L' : Prop :=
  if want then
    match lookup_key (key_eq c) k L with
    | Some v0 => r = ccol_key_already_present /\ L' = L /\ COaRefine.points_to oa out v0
    | None => sinserted (key_eq c) L k v r L' /\ if decide (r = ccol_success) then COaRefine.points_to oa out v else out = None
    end
  else sinserted (key_eq c) L k v r L'.

Lemma oa_arguments oa c k p v vp : uses_oa c = true -> COaRefine.config_of oa = oa_config c ->
  valid_key c k -> key_pair_of p k -> fits (val_type c) (zlen v) = true -> pair_size vp = zlen v ->
  COaRefine.source (table oa) (pair_ptr vp) (zlen v) v ->
  COaRefine.valid_key (COaRefine.config_of oa) k /\ COaRefine.gives oa p (COaMap.key_size oa) k /\
  COaRefine.gives oa vp (COaMap.val_size oa) v.
Proof.
  intros Hu Ec Hk Hp Hf Es Hs. destruct (oa_types c Hu) as (_ & _ & Ek & Ev & Hks & Hvs & _).
  pose proof (oa_valid_key c k Hu Hk) as Hk'. rewrite Ec. split; [done|].
  assert (COaMap.key_size oa = zlen k) as ->.
  { apply (f_equal COaRefine.c_key_size) in Ec. cbn in Ec. rewrite Ec. by destruct Hk' as [-> _]. }
  assert (COaMap.val_size oa = zlen v) as ->.
  { apply (f_equal COaRefine.c_val_size) in Ec. cbn in Ec. unfold fits in Hf. apply orb_true_iff in Hf as [?%Z.eqb_eq|?%Z.eqb_eq]; lia. }
  split; [by apply key_pair_oa|]. by split.
Qed.

Lemma wp_oa_backend_insert oa c L k p v vp want m F (Q : ccol_retval_t * option cmap_pair * open_addr_map -> mem -> Prop) :
  impl_holds (IMPL_OPEN_ADDRESSING oa) c L m F -> valid_key c k -> key_pair_of p k ->
  fits (val_type c) (zlen v) = true -> pair_size vp = zlen v -> COaRefine.source (table oa) (pair_ptr vp) (zlen v) v ->
  (forall r out oa' L' m', oa_slot_result c L k v want r out oa' L' -> impl_holds (IMPL_OPEN_ADDRESSING oa') c L' m' F -> Q (r, out, oa') m') ->
  wp (COaMap.oa_insert_impl secret oa p vp want) m Q.
Proof.
  intros (Hu & Ec & Hd & Hr & Ho) Hk Hp Hf Es Hs HQ. pose proof (oa_same c Hu) as Hsame.
  destruct (oa_arguments oa c k p v vp Hu Ec Hk Hp Hf Es Hs) as (Hk' & Hgk & Hgv).
  eapply wp_mono; [by apply (COaSpec.wp_oa_insert_impl secret Hsecret oa (list_to_map L) k v p vp m F want)|].
  intros [[r out] oa'] m' [[Ec' Ha] Ho']. cbn in Ho'. pose proof (lookup_list_to_map _ Hsame k L) as El. rewrite <- El in Ha.
  assert (forall L', NoDup L'.*1 -> COaRefine.repr secret oa' (list_to_map L') -> impl_holds (IMPL_OPEN_ADDRESSING oa') c L' m' F) as Hh.
  { intros L' Hd' Hr'. split_and!; [done|congruence|done..]. }
  destruct want.
  - destruct (lookup_key _ k L) as [v0|] eqn:E.
    + destruct Ha as (-> & -> & Hout). apply (HQ _ _ _ L); [|by apply Hh]. unfold oa_slot_result. by rewrite E.
    + destruct (append_list_to_map _ Hsame k v L Hd E) as [E1 E2].
      destruct Ha as [(-> & Hr' & Hout)|[(-> & -> & -> & _)|(-> & -> & -> & Hm)]].
      * apply (HQ _ _ _ (L ++ [(k, v)])); [|apply Hh; [done|by rewrite E1]]. unfold oa_slot_result, sinserted. rewrite E. split; [by left|done].
      * apply (HQ _ _ _ L); [|by apply Hh]. unfold oa_slot_result, sinserted. rewrite E. split; [right; by left|done].
      * apply (HQ _ _ _ L); [|by apply Hh]. unfold oa_slot_result, sinserted. rewrite E. split; [|done].
        right. right. rewrite <- length_list_to_map by done. done.
  - destruct (oa_inserted c L k v r oa' (size (list_to_map L : gmap (list Z) (list Z))) Hu Hd) as (L' & Hi & Hd' & Hr'); [|done|].
    + rewrite <- El. destruct (lookup_key _ k L) as [v0|]; [by destruct Ha as (-> & _ & ?)|].
      destruct Ha as [(-> & Hr' & _)|[(-> & _ & -> & _)|(-> & _ & -> & Hm)]]; auto.
    + apply (HQ _ _ _ L'); [done|by apply Hh].
Qed.

(** *** The separate-chaining backend *)
Lemma sc_key_arg sc c n k p : conf sc = with_inline c n -> valid_key c k -> key_pair_of p k -> key_arg sc p k.
Proof. intros Ec Hk Hp. split; [apply key_pair_sc; [apply Hk|done]|]. rewrite Ec. exact Hk. Qed.

Definition sc_slot_result c L k v (want : bool) r (out : option nat) sc L' : Prop :=
  if want then
    match lookup_key (key_eq c) k L with
    | Some v0 => r = ccol_key_already_present /\ L' = L /\
        exists a n, out = Some a /\ nodes sc !! a = Some n /\ key_eq c (node_key n) k = true /\ node_val n = v0
    | None => sinserted (key_eq c) L k v r L' /\
        if decide (r = ccol_success) then exists a n, out = Some a /\ nodes sc !! a = Some n /\ node_key n = k /\ node_val n = v
        else out = None
    end
  else sinserted (key_eq c) L k v r L'.

Lemma wp_sc_backend_insert sc c L k p v vp m F (Q : ccol_retval_t * sep_chain_map -> mem -> Prop) :
  impl_holds (IMPL_SEPARATE_CHAINING sc) c L m F -> valid_key c k -> key_pair_of p k -> gives sc vp v ->
  (forall r sc' L' m', sinserted (key_eq c) L k v r L' -> impl_holds (IMPL_SEPARATE_CHAINING sc') c L' m' F -> Q (r, sc') m') ->
  wp (sc_insert secret sc p vp) m Q.
Proof.
  intros (Hu & es & n & Ec & -> & Hr & Ho) Hk Hp Hv HQ.
  eapply (wp_sc_insert_op secret Hsecret sc es p k v vp m F); [done|by eapply sc_key_arg|done|done|].
  intros r sc' es' m' Hi Hr' Ec' Ho'. rewrite Ec in Hi, Ec'. apply (HQ _ _ (content sc' es')); [exact Hi|]. split; [done|]. by exists es', n.
Qed.

Lemma wp_sc_backend_slot sc c L k p v vp m F (Q : ccol_retval_t * option nat * sep_chain_map -> mem -> Prop) :
  impl_holds (IMPL_SEPARATE_CHAINING sc) c L m F -> valid_key c k -> key_pair_of p k -> gives sc vp v ->
  (forall r out sc' L' m', sc_slot_result c L k v true r out sc' L' -> impl_holds (IMPL_SEPARATE_CHAINING sc') c L' m' F -> Q (r, out, sc') m') ->
  wp (sc_insert_impl secret sc p vp true) m Q.
Proof.
  intros (Hu & es & n & Ec & -> & Hr & Ho) Hk Hp Hv HQ.
  eapply (wp_insert_slot secret Hsecret sc es p vp k v m F); [done|by eapply sc_key_arg|done|done|].
  intros r out sc' es' m' Hi Hr' Ec' Ho'. unfold slot_result in Hi. rewrite Ec in Hi, Ec'.
  apply (HQ _ _ _ (content sc' es')); [|split; [done|]; by exists es', n]. cbn.
  change (key_eq (with_inline c n)) with (key_eq c) in Hi. destruct (lookup_key _ _ _) as [v0|]; [|exact Hi].
  destruct Hi as (-> & -> & -> & Hout). done.
Qed.

(** ** The operations a caller sees *)
Lemma set_impl_holds chm i c L m F : (chm_blk chm ∉ F) -> impl_holds i c L m ({[chm_blk chm]} ∪ F) -> map_holds (set_impl chm i) c L m F.
Proof. by split. Qed.

Definition inserts chm c a vp ov w m F (Q : ccol_retval_t * handed_out * option chashmap -> mem -> Prop) L : Prop :=
  (arg_key c a = None \/ ov = None -> Q (ccol_invalid_args, nothing_for w, Some chm) m) ->
  (forall k v r out chm' L' m', arg_key c a = Some k -> ov = Some v -> insert_result c L k v w r out chm' L' ->
     map_holds chm' c L' m' F -> Q (r, out, Some chm') m') ->
  wp (chmap_insert_elem_impl secret (Some chm) (to_pair a) vp w) m Q.

Lemma wp_insert_oa_dispatch chm oa c L k p v vp w m F (Q : ccol_retval_t * handed_out * option chashmap -> mem -> Prop) :
  impl chm = IMPL_OPEN_ADDRESSING oa -> map_holds chm c L m F -> valid_key c k -> key_pair_of p k ->
  fits (val_type c) (zlen v) = true -> pair_size vp = zlen v -> val_given chm vp v -> w <> want_entry ->
  (forall r out chm' L' m', insert_result c L k v w r out chm' L' -> map_holds chm' c L' m' F -> Q (r, out, Some chm') m') ->
  wp (match w with
      | want_entry => undefined
      | want_slot => '(r, out, oa) ← COaMap.oa_insert_or_get secret oa p vp;
          mret (r, slot_out out, Some (set_impl chm (IMPL_OPEN_ADDRESSING oa)))
      | want_nothing => '(r, oa) ← COaMap.oa_insert secret oa p vp;
          mret (r, no_out, Some (set_impl chm (IMPL_OPEN_ADDRESSING oa)))
      end) m Q.
Proof.
  intros Ei [Hb Hi] Hk Hp Hf Es Hv Hw HQ. rewrite Ei in Hi. pose proof Hi as (Hu & Ec & _). unfold val_given in Hv. rewrite Ei in Hv.
  destruct Hv as [_ Hs]. destruct w; [| |done]; [unfold COaMap.oa_insert; apply wp_bind|unfold COaMap.oa_insert_or_get]; apply wp_bind.
  - apply (wp_oa_backend_insert oa c L k p v vp false m _ _ Hi Hk Hp Hf Es Hs). intros r out oa' L' m' Ha Hi'.
    do 2 apply wp_ret. apply (HQ _ _ _ L'); [by split|by apply set_impl_holds].
  - apply (wp_oa_backend_insert oa c L k p v vp true m _ _ Hi Hk Hp Hf Es Hs). intros r out oa' L' m' Ha Hi'.
    apply wp_ret. set (chm' := set_impl chm _). apply (HQ _ _ _ L'); [|by apply set_impl_holds].
    pose proof Hi' as (_ & Ec' & _ & Hr' & _). pose proof (COaRefine.ho_block _ _ _ _ (COaRefine.re_holds _ _ _ Hr')) as Hok'.
    unfold oa_slot_result, insert_result in *. destruct (lookup_key _ k L) as [v0|].
    + destruct Ha as (-> & -> & Hout). destruct (points_given chm' oa' c v0 out) as (q & -> & Hq); [done..|].
      split_and!; [done|done|]. by exists k.
    + destruct Ha as [Hin Hout]. split; [done|]. destruct (decide _); [|by rewrite Hout].
      destruct (points_given chm' oa' c v out) as (q & -> & Hq); [done..|]. done.
Qed.

Lemma wp_insert_sc_dispatch chm sc c L k p v vp w m F (Q : ccol_retval_t * handed_out * option chashmap -> mem -> Prop) :
  impl chm = IMPL_SEPARATE_CHAINING sc -> map_holds chm c L m F -> valid_key c k -> key_pair_of p k -> val_given chm vp v ->
  (forall r out chm' L' m', insert_result c L k v w r out chm' L' -> map_holds chm' c L' m' F -> Q (r, out, Some chm') m') ->
  wp (match w with
      | want_entry => '(r, entry, sc) ← CScMap.sc_insert_or_get_entry secret sc p vp;
          mret (r, entry_out entry, Some (set_impl chm (IMPL_SEPARATE_CHAINING sc)))
      | want_slot => '(r, out, sc) ← CScMap.sc_insert_or_get secret sc p vp;
          mret (r, slot_out out, Some (set_impl chm (IMPL_SEPARATE_CHAINING sc)))
      | want_nothing => '(r, sc) ← CScMap.sc_insert secret sc p vp;
          mret (r, no_out, Some (set_impl chm (IMPL_SEPARATE_CHAINING sc)))
      end) m Q.
Proof.
  intros Ei [Hb Hi] Hk Hp Hv HQ. rewrite Ei in Hi. unfold val_given in Hv. rewrite Ei in Hv.
  destruct w; [|unfold sc_insert_or_get; apply wp_bind|unfold sc_insert_or_get_entry]; apply wp_bind.
  - apply (wp_sc_backend_insert sc c L k p v vp m _ _ Hi Hk Hp Hv). intros r sc' L' m' Ha Hi'.
    apply wp_ret, (HQ _ _ _ L'); [by split|by apply set_impl_holds].
  - apply (wp_sc_backend_slot sc c L k p v vp m _ _ Hi Hk Hp Hv). intros r out sc' L' m' Ha Hi'.
    set (chm' := set_impl chm (IMPL_SEPARATE_CHAINING sc')). assert (map_holds chm' c L' m' F) as Hh' by by apply set_impl_holds.
    destruct Hi' as (_ & es' & n' & Ec' & -> & Hr' & Ho'). unfold sc_slot_result in Ha.
    destruct (lookup_key _ k L) as [v0|] eqn:El; [destruct Ha as (-> & EL & a & n & -> & Hn & Ek & <-)|destruct Ha as [Hin Hout]].
    + apply wp_bind, (wp_node_at _ _ n); [done|]. apply wp_ret, wp_ret.
      destruct (sc_val_gives secret sc' es' Hr' a n Hn) as (q & -> & Hq).
      apply (HQ _ _ _ (content sc' es')); [|done]. unfold insert_result. rewrite El. split_and!; [done|done|]. by exists (node_key n).
    + destruct (decide (r = ccol_success)) as [->|Hne]; [destruct Hout as (a & n & -> & Hn & <- & <-)|rewrite Hout].
      * apply wp_bind, (wp_node_at _ _ n); [done|]. apply wp_ret, wp_ret.
        destruct (sc_val_gives secret sc' es' Hr' a n Hn) as (q & -> & Hq).
        apply (HQ _ _ _ (content sc' es')); [|done]. unfold insert_result. rewrite El. by split.
      * apply wp_ret, wp_ret, (HQ _ _ _ (content sc' es')); [|done]. unfold insert_result. rewrite El. split; [done|]. by rewrite decide_False.
  - apply (wp_sc_backend_slot sc c L k p v vp m _ _ Hi Hk Hp Hv). intros r out sc' L' m' Ha Hi'.
    apply wp_ret, (HQ _ _ _ L'); [|by apply set_impl_holds]. unfold sc_slot_result, insert_result in *.
    destruct (lookup_key _ k L) as [v0|] eqn:El.
    + destruct Ha as (-> & -> & a & n & -> & Hn & Ek & Ev). split_and!; [done|done|]. exists (node_key n). split; [done|]. by exists sc', n.
    + destruct Ha as [Hin Hout]. split; [done|]. destruct (decide _); [|by rewrite Hout].
      destruct Hout as (a & n & -> & Hn & Ek & Ev). by exists sc', n.
Qed.

Lemma wp_chm_insert chm c L a vp ov w m F Q : map_holds chm c L m F -> carg_ok a -> value_arg chm c vp ov ->
  (w = want_entry -> uses_oa c = false) -> inserts chm c a vp ov w m F Q L.
Proof.
  intros Hh Ha Hv Hw HN HS. destruct (holds_types _ _ _ _ _ Hh) as [Ekt Evt]. unfold chmap_insert_elem_impl.
  destruct (given (to_pair a)) as [p0|] eqn:Eg.
  2: { apply wp_ret, HN. left. unfold arg_key. destruct (arg_bytes a) as [k|] eqn:E; [|done].
       destruct (arg_bytes_given _ _ Ha E) as (bs & Eg' & _). congruence. }
  destruct (arg_bytes a) as [k|] eqn:E; [|by rewrite (arg_bytes_none _ E) in Eg].
  destruct (arg_bytes_given _ _ Ha E) as (bs & Eg' & Ek & Hl & Hk & Hb). rewrite Eg in Eg'. injection Eg' as ->.
  destruct (given vp) as [p1|] eqn:Egv.
  2: { apply wp_ret, HN. destruct ov as [v|]; [|by right]. destruct Hv as (q & Hq & _). congruence. }
  cbn [pair_size]. rewrite Ekt, Evt. unfold arg_key in *. rewrite E in HN, HS. cbn in HN, HS.
  change (key_size_matches_type_if_fixed_width (key_type c) (zlen k)) with (fits (key_type c) (zlen k)).
  change (val_size_matches_type_if_fixed_width (val_type c) (pair_size p1)) with (fits (val_type c) (pair_size p1)).
  destruct (fits (key_type c) (zlen k)) eqn:Ef; cbn [negb]; [|by apply wp_ret, HN; left].
  destruct ov as [v|].
  2: { destruct Hv as [Hv|(q & Hq & Hf)]; [congruence|]. rewrite Egv in Hq. injection Hq as <-. rewrite Hf. by apply wp_ret, HN; right. }
  destruct Hv as (q & Hq & Hfv & Es & Hv). rewrite Egv in Hq. injection Hq as <-. rewrite Es, Hfv. cbn [negb].
  assert (valid_key c (canon (key_type c) k)) as Hkv by (apply (key_valid c a); [done|]; unfold arg_key; rewrite E; cbn; by rewrite Ef).
  assert (match impl chm with IMPL_OPEN_ADDRESSING oa => negb (oa_val_size_matches oa (zlen v)) | IMPL_SEPARATE_CHAINING _ => false end = false) as ->.
  { pose proof Hh as [_ Hi]. destruct (impl chm) as [oa|]; [|done]. destruct Hi as (Hu & Ec & _). apply negb_false_iff, Z.eqb_eq.
    apply (f_equal COaRefine.c_val_size) in Ec. cbn in Ec. destruct (oa_types c Hu) as (_ & _ & _ & Ev & _ & Hvs & _).
    unfold fits in Hfv. apply orb_true_iff in Hfv as [?%Z.eqb_eq|?%Z.eqb_eq]; lia. }
  apply wp_bind, (wp_canonicalize _ _ _ k); [|done..|].
  { intros m' Q' HQ'. apply (key_pair_read chm (CmapPair (Foreign bs) (zlen k)) k); [|done]. split; [done|]. by exists bs. }
  intros p Hp. pose proof Hh as [_ Hi]. destruct (impl chm) as [oa|sc] eqn:Ei.
  - assert (w <> want_entry) as Hw' by (intros ->; destruct Hi as (Hu & _); by rewrite Hw in Hu).
    pose proof (wp_insert_oa_dispatch chm oa c L _ p v p1 w m F Q Ei Hh Hkv Hp Hfv Es Hv Hw') as H.
    destruct w; [apply H|apply H|done]; intros; by eapply HS.
  - pose proof (wp_insert_sc_dispatch chm sc c L _ p v p1 w m F Q Ei Hh Hkv Hp Hv) as H.
    destruct w; apply H; intros; by eapply HS.
Qed.

(** *** Lookup *)
Definition ref_answer c L chm k r (out : option cmap_pair) : Prop :=
  match lookup_key (key_eq c) k L with
  | Some v => r = ccol_success /\ exists p, out = Some p /\ val_given chm p v
  | None => r = ccol_key_not_found /\ out = None
  end.

Lemma wp_get_elem_ref chm c L a has_val m F (Q : ccol_retval_t * option cmap_pair -> mem -> Prop) : map_holds chm c L m F -> carg_ok a ->
  (arg_key c a = None \/ has_val = false -> Q (ccol_invalid_args, None) m) ->
  (forall k r out, arg_key c a = Some k -> has_val = true -> ref_answer c L chm k r out -> Q (r, out) m) ->
  wp (chashmap_get_elem_ref secret (Some chm) (to_pair a) has_val) m Q.
Proof.
  intros Hh Ha HN HS. destruct (holds_types _ _ _ _ _ Hh) as [Ekt _]. unfold chashmap_get_elem_ref.
  destruct has_val; cbn [negb]; [|by apply wp_ret, HN; right]. apply wp_bind, (wp_checked_key chm c); [done|done|by intros; apply wp_ret, HN; left|].
  intros k p Ek Hk Hp. pose proof Hh as [_ Hi]. unfold ref_answer, val_given in HS. destruct (impl chm) as [oa|sc] eqn:Ei.
  - destruct Hi as (Hu & Ec & Hd & Hr & Ho). pose proof (oa_same c Hu) as Hsame.
    pose proof (COaRefine.ho_block _ _ _ _ (COaRefine.re_holds _ _ _ Hr)) as Hok.
    assert (COaMap.key_size oa = zlen k) as Eks.
    { apply (f_equal COaRefine.c_key_size) in Ec. cbn in Ec. rewrite Ec. by destruct (oa_valid_key c k Hu Hk) as [-> _]. }
    eapply wp_mono; [apply (COaSpec.wp_oa_get secret Hsecret oa (list_to_map L) k p m); [done|rewrite Ec; by apply oa_valid_key|rewrite Eks; by apply key_pair_oa]|].
    intros [r out] ? [-> Hans]. apply (HS k); [done..|]. unfold COaSpec.get_answer in Hans. rewrite <- (lookup_list_to_map _ Hsame k L) in Hans.
    destruct (lookup_key _ k L) as [v|]; [|done]. destruct Hans as (-> & q & -> & Es & Hs). split; [done|]. exists q.
    split; [done|]. destruct (COaRefine.source_len _ _ _ _ _ Hok Hs) as [El _]. rewrite El. by split.
  - destruct Hi as (_ & es & n & Ec & -> & Hr & Ho). eapply (wp_get secret Hsecret sc es m _ Hr Ho p k); [by eapply sc_key_arg|].
    intros [r out] Hans. apply (HS k); [done..|]. unfold get_answer in Hans. rewrite Ec in Hans. exact Hans.
Qed.

Lemma wp_read_given chm c L p v n m F (Q : list Z -> mem -> Prop) : map_holds chm c L m F -> val_given chm p v ->
  0 <= n <= zlen v -> Q (ztake n v) m -> wp (read_arg chm (pair_ptr p) n) m Q.
Proof.
  intros [_ Hi] Hv Hn HQ. unfold read_arg, val_given in *. destruct (impl chm) as [oa|sc].
  - destruct Hi as (_ & _ & _ & Hr & _). destruct Hv as [_ Hs]. pose proof (COaRefine.ho_block _ _ _ _ (COaRefine.re_holds _ _ _ Hr)) as Hok.
    eapply COaRefine.wp_read_source; [exact Hok| |exact HQ]. by apply (COaRefine.source_prefix (table oa) (pair_ptr p) (zlen v)).
  - destruct Hi as (_ & es & n' & _ & _ & Hr & Ho). pose proof (re_core _ _ _ Hr) as Hco. destruct Hv as (Es & _ & Hp).
    eapply (wp_sc_read_ptr sc (pair_ptr p) n (ztake n v) m (bucket_blocks sc)); [by eapply co_apart|done| |done].
    rewrite Es in Hp. eapply (resolve_prefix (conf sc) sc _ (zlen v)); [by eapply co_apart|by eapply co_nodes|done|done].
Qed.

(** *** The accessor and the copy of a value *)
Lemma wp_val_accessor chm c L a has m F (Q : ccol_retval_t * option nat -> mem -> Prop) : map_holds chm c L m F -> carg_ok a ->
  (arg_key c a = None \/ has = false \/ uses_oa c = true -> Q (ccol_invalid_args, None) m) ->
  (forall k, arg_key c a = Some k -> lookup_key (key_eq c) k L = None -> has = true -> uses_oa c = false -> Q (ccol_key_not_found, None) m) ->
  (forall k v sc x n, arg_key c a = Some k -> lookup_key (key_eq c) k L = Some v -> has = true -> uses_oa c = false ->
     impl chm = IMPL_SEPARATE_CHAINING sc -> nodes sc !! x = Some n -> node_val n = v -> Q (ccol_success, Some x) m) ->
  wp (_chashmap_get_val_accessor secret (Some chm) (to_pair a) has) m Q.
Proof.
  intros Hh Ha HN HA HS. destruct (holds_types _ _ _ _ _ Hh) as [Ekt _]. unfold _chashmap_get_val_accessor, chained.
  destruct has; cbn [negb]; [|by apply wp_ret, HN; right; left]. destruct chm as [b procs i]. pose proof Hh as [_ Hi]. cbn in Hi.
  destruct i as [oa|sc]; [apply wp_ret, HN; right; right; by destruct Hi|].
  apply wp_bind, (wp_checked_key _ c); [done|done|by intros; apply wp_ret, HN; left|].
  intros k p Ek Hk Hp. destruct Hi as (Hu & es & n0 & Ec & -> & Hr & Ho).
  eapply (wp_find_accessor secret Hsecret sc es p k m ∅ ({[b]} ∪ F)); [done|by eapply sc_key_arg|owns_tac| |].
  - intros x n Hn E. pose proof (lookup_node secret Hsecret sc es x n k (re_core _ _ _ Hr) Hn) as Hl.
    rewrite Ec in Hl, E. specialize (Hl Hk E). by eapply (HS k (node_val n) sc x n).
  - intros Hab%absent_iff. rewrite Ec in Hab. by apply (HA k).
Qed.

(** What a copy leaves in a buffer: the value cut off or filled up with
    zeroes, and the buffer behind the size the caller claims. *)
Definition copied (v buf : list Z) (n : Z) : list Z :=
  (if n <=? zlen v then ztake n v else v ++ replicate (Z.to_nat (n - zlen v)) 0) ++ zdrop n buf.

Lemma wp_get_elem_copy chm c L a (buf : option (list Z)) n m F (Q : ccol_retval_t * option (list Z) -> mem -> Prop) :
  map_holds chm c L m F -> carg_ok a -> 0 <= n < two64 -> from_option (fun b => n <= zlen b) True buf ->
  (arg_key c a = None \/ buf = None \/ n = 0 -> Q (ccol_invalid_args, buf) m) ->
  (forall k b, arg_key c a = Some k -> buf = Some b -> n <> 0 -> lookup_key (key_eq c) k L = None -> Q (ccol_key_not_found, buf) m) ->
  (forall k b v, arg_key c a = Some k -> buf = Some b -> n <> 0 -> lookup_key (key_eq c) k L = Some v -> Q (ccol_success, Some (copied v b n)) m) ->
  wp (chashmap_get_elem_copy secret (Some chm) (to_pair a) buf n) m Q.
Proof.
  intros Hh Ha Hn Hbuf HN HA HS. unfold chashmap_get_elem_copy. destruct buf as [b|]; [|by apply wp_ret, HN; right; left]. cbn in Hbuf.
  destruct (Z.eqb_spec n 0) as [->|Hn0]; [by apply wp_ret, HN; right; right|].
  apply wp_bind. eapply (wp_get_elem_ref chm c L a true m F); [done|done| |].
  { intros [?|?]; [|done]. apply wp_ret, HN. by left. }
  intros k r out Ek _. unfold ref_answer. destruct (lookup_key _ k L) as [v|] eqn:El; [|intros [-> ->]; cbn; apply wp_ret; by eapply HA].
  intros (-> & p & -> & Hp). cbn [bool_decide decide ub]. rewrite bool_decide_true by done. apply wp_bind, wp_ret, wp_bind, wp_ret.
  assert (pair_size p = zlen v /\ 1 <= zlen v < two64) as [Es Hv].
  { pose proof Hh as [_ Hi]. unfold val_given in Hp. destruct (impl chm) as [oa|]; [|by destruct Hp as (? & ? & _)].
    destruct Hp as [? Hs]. split; [done|]. destruct Hi as (Hu & Ec & Hd & Hr & _). pose proof (oa_same c Hu) as Hsame.
    rewrite (lookup_list_to_map _ Hsame) in El. apply (COaRefine.holds_find _ _ _ _ (COaRefine.re_config _ _ _ Hr) (COaRefine.re_holds _ _ _ Hr)) in El.
    destruct El as (j & s & Hc & _ & <- & _). destruct (oa_types c Hu) as (_ & _ & _ & _ & _ & Hvs & _). rewrite Ec.
    destruct (COaRefine.holds_entry _ _ _ _ (COaRefine.re_holds _ _ _ Hr) j s Hc) as [[_ Hw] _].
    unfold COaRefine.val_of. cbn. rewrite zlen_ztake by lia. unfold two64. lia. }
  rewrite Es. set (k0 := if zlen v <? n then zlen v else n).
  assert (0 <= k0 <= zlen v /\ k0 <= n /\ (n <= zlen v -> k0 = n) /\ (zlen v < n -> k0 = zlen v)) as (H1 & H2 & H3 & H4) by (unfold k0; zcase; lia).
  apply wp_bind, (wp_read_given chm c L p v k0 m F); [done|done|done|].
  apply wp_bind, wp_memcpy_in; [done|rewrite zlen_ztake by lia; lia|].
  assert (splice b 0 (ztake k0 v) = ztake k0 v ++ zdrop k0 b) as Espl by (unfold splice; rewrite ztake_0; cbn; do 2 f_equal; rewrite zlen_ztake by lia; lia).
  apply wp_bind. pose proof (HS k b v Ek eq_refl Hn0 El) as HQ. unfold copied in HQ.
  destruct (Z.ltb_spec (zlen v) n) as [Hlt|Hge].
  - destruct (Z.leb_spec n (zlen v)); [lia|]. rewrite H4 in * by lia. rewrite Espl, ztake_all by lia.
    assert (n ⊖ zlen v = n - zlen v) as -> by (apply wrap_small; lia).
    apply wp_memcpy_in; [lia|zlia|]. apply wp_ret. replace (splice _ _ _) with ((v ++ replicate (Z.to_nat (n - zlen v)) 0) ++ zdrop n b); [done|].
    rewrite <- app_assoc. unfold splice. rewrite ztake_app_exact by done. do 2 f_equal. rewrite zlen_replicate by lia.
    unfold zdrop, zlen in *. rewrite drop_app_ge by lia. rewrite drop_drop. f_equal. lia.
  - destruct (Z.leb_spec n (zlen v)); [|lia]. rewrite H3 in * by lia. rewrite Espl. by apply wp_ret, wp_ret.
Qed.

(** *** Deletion, count, reset and destruction *)
Lemma wp_chm_delete chm c L a m F (Q : ccol_retval_t * option chashmap -> mem -> Prop) : map_holds chm c L m F -> carg_ok a ->
  (arg_key c a = None -> Q (ccol_invalid_args, Some chm) m) ->
  (forall k chm' m', arg_key c a = Some k -> map_holds chm' c (remove_key (key_eq c) k L) m' F ->
     Q (match lookup_key (key_eq c) k L with Some _ => ccol_success | None => ccol_key_not_found end, Some chm') m') ->
  wp (chashmap_delete_elem secret (Some chm) (to_pair a)) m Q.
Proof.
  intros Hh Ha HN HS. destruct (holds_types _ _ _ _ _ Hh) as [Ekt _]. unfold chashmap_delete_elem.
  apply wp_bind, (wp_checked_key chm c); [done|done|by intros; apply wp_ret, HN|].
  intros k p Ek Hk Hp. pose proof Hh as [Hb Hi]. destruct (impl chm) as [oa|sc] eqn:Ei; apply wp_bind.
  - destruct Hi as (Hu & Ec & Hd & Hr & Ho). pose proof (oa_same c Hu) as Hsame.
    assert (COaMap.key_size oa = zlen k) as Eks.
    { apply (f_equal COaRefine.c_key_size) in Ec. cbn in Ec. rewrite Ec. by destruct (oa_valid_key c k Hu Hk) as [-> _]. }
    eapply wp_mono; [apply (COaSpec.wp_oa_delete secret Hsecret oa (list_to_map L) k p m); [done|rewrite Ec; by apply oa_valid_key|rewrite Eks; by apply key_pair_oa|done]|].
    intros [r oa'] m' [[Ec' Hans] Ho']. cbn in Ho'. rewrite <- (lookup_list_to_map _ Hsame k L) in Hans.
    destruct (remove_list_to_map _ Hsame k L Hd) as [E1 E2]. specialize (HS k (set_impl chm (IMPL_OPEN_ADDRESSING oa')) m' Ek).
    destruct (lookup_key _ k L) as [v|] eqn:El; destruct Hans as [-> Hans]; apply wp_ret, HS, set_impl_holds; try done;
      (split; [done|]; split; [congruence|]; split; [done|]; split; [|done]).
    + by rewrite E1.
    + by rewrite remove_absent, Hans.
  - destruct Hi as (Hu & es & n & Ec & -> & Hr & Ho).
    eapply (wp_sc_delete secret Hsecret sc es p k ∅ m ({[chm_blk chm]} ∪ F)); [done|by eapply sc_key_arg|set_solver|owns_tac|].
    intros [r sc'] es' m' (Hr' & Ec' & Hans) _ Ho'. cbn in Ho'. rewrite Ec in Hans, Ec'. change (key_eq (with_inline c n)) with (key_eq c) in Hans.
    apply wp_ret. specialize (HS k (set_impl chm (IMPL_SEPARATE_CHAINING sc')) m' Ek).
    destruct (lookup_key _ k _) as [v|] eqn:El.
    + destruct Hans as [-> E]. apply HS, set_impl_holds; [done|]. split; [done|]. exists es', n. split_and!; [done..|owns_tac].
    + destruct Hans as (-> & -> & ->). apply HS, set_impl_holds; [done|]. split; [done|]. exists es, n.
      split_and!; [done|by apply remove_absent|done|owns_tac].
Qed.

Lemma wp_chm_count chm c L m F (Q : Z -> mem -> Prop) : map_holds chm c L m F -> Q (zlen L) m ->
  wp (chashmap_elem_count (Some chm)) m Q.
Proof.
  intros [_ Hi] HQ. unfold chashmap_elem_count. apply wp_bind, wp_ret, wp_ret. destruct (impl chm) as [oa|sc].
  - destruct Hi as (_ & _ & Hd & Hr & _). by rewrite (COaRefine.re_count _ _ _ Hr), length_list_to_map.
  - destruct Hi as (_ & es & n & _ & -> & Hr & _). destruct (co_count _ _ (re_core _ _ _ Hr)) as [-> _]. by rewrite content_len in HQ.
Qed.
End Represents.
