(* ===== verification/CHashMapIter.v ===== *)
(** * Iterators, walks and value destructors of the hash map ([src/chashmap.c])

    Every way to visit the pairs of a map meets each of them exactly once:
    those of a map that chains in the order of their insertion, or the
    reverse, those of an open-addressing map in the order of the slots. *)
From S2P Require Import Prelude Memory Values Common CVector CHash COaProbe COaMap COaRefine COaSpec.
From S2P Require Import CLinks CScMap CScRefine CScRelink CScResize CScOps CScSpec CHashMap CHashMapRefine.
Import COaMap(open_addr_map, oa_slot(..), oa_block(..), blk, table, capacity, cmap_pair(..), pair_ptr, pair_size, key_offset, val_offset, slot_bytes).
Import CScMap.
Import CHashMap.

Section Iter.
Context {alloc : Allocator} (secret : chmap_hash_secret) (Hsecret : secret_ok secret).
Implicit Types (c : sc_config) (L : pairs) (m : mem) (chm : chashmap) (oa : open_addr_map) (sc : sep_chain_map).

(** ** The slots in order *)
Definition slot_pairs oa (cs : list (option oa_slot)) : pairs := COaRefine.pair_of (COaRefine.config_of oa) <$> entries cs.
Definition slot_order oa : pairs := slot_pairs oa (COaRefine.cells (table oa)).
Definition pairs_before oa (i : Z) : pairs := slot_pairs oa (ztake i (COaRefine.cells (table oa))).

Section Slots.
Context (oa : open_addr_map) (M : gmap (list Z) (list Z)) (Hr : COaRefine.repr secret oa M).
Local Abbreviation cs := (COaRefine.cells (table oa)).

Lemma slots_ok : COaRefine.block_ok (capacity oa) (table oa) /\ zlen cs = capacity oa /\ 16 <= capacity oa <= 9223372036854775808 /\
  COaRefine.config_ok (COaRefine.config_of oa).
Proof.
  pose proof (COaRefine.ho_block _ _ _ _ (COaRefine.re_holds _ _ _ Hr)) as Hok. split; [done|].
  split; [by apply COaRefine.zlen_cells|]. split; [apply capacity_range, (COaRefine.re_capacity _ _ _ Hr)|apply (COaRefine.re_config _ _ _ Hr)].
Qed.

Lemma slot_order_perm : slot_order oa ≡ₚ map_to_list M.
Proof. apply (COaRefine.ho_pairs _ _ _ _ (COaRefine.re_holds _ _ _ Hr)). Qed.

Lemma before_start : pairs_before oa 0 = [].
Proof. unfold pairs_before. by rewrite ztake_0. Qed.
Lemma before_end : pairs_before oa (capacity oa) = slot_order oa.
Proof. unfold pairs_before. destruct slots_ok as (_ & <- & _). by rewrite ztake_all. Qed.
Lemma before_next i : 0 <= i < capacity oa ->
  pairs_before oa (i + 1) = pairs_before oa i ++ option_list (COaRefine.pair_of (COaRefine.config_of oa) <$> cell cs i).
Proof.
  intros Hi. destruct slots_ok as (_ & El & _). unfold pairs_before, slot_pairs. rewrite entries_prefix by lia.
  rewrite fmap_app. by destruct (cell cs i).
Qed.

(** The scan for the next slot in use passes over free ones only. *)
Lemma wp_next_occupied i m (Q : Z -> mem -> Prop) : 0 <= i <= capacity oa ->
  (forall j s, i <= j < capacity oa -> cell cs j = Some s -> pairs_before oa j = pairs_before oa i -> Q j m) ->
  (slot_order oa = pairs_before oa i -> Q (capacity oa) m) ->
  wp (COaMap.next_occupied oa i) m Q.
Proof.
  intros Hi HS HN. destruct slots_ok as (Hok & El & HC & _). unfold COaMap.next_occupied.
  apply (wp_loop (fun j m' => m' = m /\ i <= j <= capacity oa /\ pairs_before oa j = pairs_before oa i) (fun j => Z.to_nat (capacity oa - j)));
    [|split_and!; done || lia|lia].
  intros j ? (-> & Hj & Eb). destruct (Z.ltb_spec j (capacity oa)) as [Hlt|Hge]; cbn [negb].
  - apply wp_bind, (COaRefine.wp_occupied (capacity oa)); [done|lia| |].
    + intros Hc. apply wp_ret. assert (j ⊕ 1 = j + 1) as -> by (apply wrap_small; unfold two64; lia).
      split; [|lia]. split_and!; [done|lia|lia|]. rewrite before_next by lia. rewrite Hc. cbn. by rewrite app_nil_r.
    + intros s Hc. apply wp_ret. apply (HS j s); [lia|done..].
  - apply wp_ret. replace j with (capacity oa) in * by lia. apply HN. by rewrite <- Eb, before_end.
Qed.

(** The pointers to the two words of a slot read its pair. *)
Lemma slot_sources j s : cell cs j = Some s ->
  COaRefine.source (table oa) (At (blk (table oa)) (key_offset j)) (COaMap.key_size oa) (COaRefine.key_of (COaRefine.config_of oa) s) /\
  COaRefine.source (table oa) (At (blk (table oa)) (val_offset j)) (COaMap.val_size oa) (COaRefine.val_of (COaRefine.config_of oa) s).
Proof.
  intros Hc. destruct slots_ok as (Hok & _ & _ & Hcfg). destruct (COaRefine.cells_wide _ _ _ _ Hok Hc) as [Hk Hv].
  destruct (COaRefine.type_sizes _ Hcfg) as (Hks & Hvs & _). cbn in Hks, Hvs.
  pose proof (COaRefine.source_slot (table oa) j s 0 (COaMap.key_size oa) Hc ltac:(lia) ltac:(lia) ltac:(lia)) as H1.
  pose proof (COaRefine.source_slot (table oa) j s 8 (COaMap.val_size oa) Hc ltac:(lia) ltac:(lia) ltac:(lia)) as H2.
  rewrite Z.add_0_r in H1. split; [|].
  - unfold slice, slot_bytes in H1. rewrite zdrop_0 in H1. unfold ztake in H1. rewrite take_app_le in H1; [exact H1|unfold zlen in Hk; lia].
  - unfold slice, slot_bytes in H2. by rewrite zdrop_app_exact in H2.
Qed.
End Slots.

(** ** Blocks *)
Definition impl_blocks (i : hashmap_impl) : gset nat :=
  match i with IMPL_OPEN_ADDRESSING oa => {[blk (table oa)]} | IMPL_SEPARATE_CHAINING sc => all_owned sc end.

Lemma holds_owns chm c L m F : map_holds secret chm c L m F -> owns m (impl_blocks (impl chm)) ({[chm_blk chm]} ∪ F).
Proof. intros [_ H]. destruct (impl chm); cbn in *; [by destruct H as (_ & _ & _ & _ & ?)|by destruct H as (_ & es & n & _ & _ & _ & ?)]. Qed.

Lemma holds_move chm c L m F m' F' : map_holds secret chm c L m F -> (chm_blk chm ∉ F') ->
  owns m' (impl_blocks (impl chm)) ({[chm_blk chm]} ∪ F') -> map_holds secret chm c L m' F'.
Proof.
  intros [_ H] Hb Ho. split; [done|]. destruct (impl chm); cbn in *.
  - destruct H as (H1 & H2 & H3 & H4 & _). by split_and!.
  - destruct H as (H1 & es & n & H2 & H3 & H4 & _). split; [done|]. by exists es, n.
Qed.

(** An allocation of the caller's next to the map, and its end. *)
Lemma wp_calloc_beside chm c L n m F (Q : option block -> mem -> Prop) : map_holds secret chm c L m F -> 0 <= n ->
  (forall m', map_holds secret chm c L m' F -> Q None m') ->
  (forall b m', map_holds secret chm c L m' ({[b_id b]} ∪ F) -> (b_id b ∉ F) -> Q (Some b) m') ->
  wp (_ccol_mem_calloc 1 n) m Q.
Proof.
  intros Hh Hn HN HS. pose proof (holds_owns _ _ _ _ _ Hh) as Ho. pose proof Hh as [Hb _].
  eapply (wp_calloc_owns 1 n m _ _ Q Ho); [lia|intros m' Ho' _; by eapply HN, holds_move|].
  intros b m' Ho' Hb1 Hb2 _ _. apply HS; [|set_solver]. eapply holds_move; [done|set_solver|].
  assert (owns m' (impl_blocks (impl chm)) ({[b_id b]} ∪ ({[chm_blk chm]} ∪ F))) as H by (apply owns_split; [owns_tac|set_solver]).
  by replace ({[chm_blk chm]} ∪ ({[b_id b]} ∪ F)) with ({[b_id b]} ∪ ({[chm_blk chm]} ∪ F)) by union_tac.
Qed.

Lemma wp_free_beside chm c L b m F (Q : unit -> mem -> Prop) : map_holds secret chm c L m ({[b]} ∪ F) -> (b ∉ F) ->
  (forall m', map_holds secret chm c L m' F -> Q tt m') -> wp (_ccol_mem_free b) m Q.
Proof.
  intros Hh Hb HQ. pose proof (holds_owns _ _ _ _ _ Hh) as Ho. pose proof Hh as [Hc _]. pose proof (owns_disj _ _ _ Ho) as Hd.
  replace ({[chm_blk chm]} ∪ ({[b]} ∪ F)) with ({[b]} ∪ ({[chm_blk chm]} ∪ F)) in Ho by union_tac.
  apply owns_join in Ho; [|set_solver]. eapply (wp_free_owns b m _ _ Q Ho); [set_solver|]. intros m' Ho'.
  apply HQ. eapply holds_move; [done|set_solver|]. apply (owns_change _ _ _ _ Ho'). set_solver.
Qed.

(** ** Iterators *)
Definition read_ref chm (r : pair_ref) : M (list Z) :=
  match r, impl chm with
  | own_pair p, _ => read_arg chm (pair_ptr p) (pair_size p)
  | key_accessor_of a, IMPL_SEPARATE_CHAINING sc => n ← node_at sc a; read_pair sc (key_pair_accessor n)
  | val_accessor_of a, IMPL_SEPARATE_CHAINING sc => n ← node_at sc a; read_pair sc (val_pair_accessor n)
  | _, _ => undefined
  end.

Definition iter_order chm L : pairs :=
  match impl chm with IMPL_OPEN_ADDRESSING oa => slot_order oa | IMPL_SEPARATE_CHAINING _ => reverse L end.

(** The iterator is at [kv], the pairs of [met] behind it. *)
Definition at_entry chm L (it : chmap_cmap_iterator) (met : pairs) (kv : list Z * list Z) : Prop :=
  match impl chm with
  | IMPL_OPEN_ADDRESSING oa => exists i s, it = oa_positioned oa (it_blk it) i /\
      cell (COaRefine.cells (table oa)) i = Some s /\ met = pairs_before oa i /\ kv = COaRefine.pair_of (COaRefine.config_of oa) s
  | IMPL_SEPARATE_CHAINING sc => exists e1 a e2, it = sc_positioned (it_blk it) a /\
      L = content sc (e1 ++ a :: e2) /\ repr secret sc (e1 ++ a :: e2) /\ met = pair_at sc <$> e1 /\ kv = pair_at sc a
  end.

Lemma content_reverse sc es : reverse (content sc es) = pair_at sc <$> es.
Proof. unfold content. apply reverse_involutive. Qed.

Lemma at_entry_order chm c L it met kv m F : map_holds secret chm c L m F -> at_entry chm L it met kv ->
  exists rest, iter_order chm L = met ++ kv :: rest.
Proof.
  intros [_ Hi]. unfold at_entry, iter_order. destruct (impl chm) as [oa|sc].
  - intros (i & s & _ & Hc & -> & ->). destruct Hi as (_ & _ & _ & Hr & _). destruct (slots_ok oa _ Hr) as (_ & El & _).
    pose proof (cell_Some _ _ _ Hc) as Hi. rewrite El in Hi. pose proof (before_next oa _ Hr i Hi) as E. rewrite Hc in E.
    exists (slot_pairs oa (zdrop (i + 1) (COaRefine.cells (table oa)))). change (COaRefine.pair_of (COaRefine.config_of oa) s :: ?l) with ([COaRefine.pair_of (COaRefine.config_of oa) s] ++ l).
    rewrite app_assoc. cbn in E. rewrite <- E. unfold pairs_before, slot_pairs. rewrite <- fmap_app, <- entries_app. by rewrite ztake_zdrop.
  - intros (e1 & a & e2 & _ & -> & _ & -> & ->). exists (pair_at sc <$> e2). rewrite content_reverse. by rewrite fmap_app.
Qed.

Lemma wp_read_entry_refs chm c L it met k v m F (Q : list Z -> list Z -> mem -> Prop) : map_holds secret chm c L m F -> at_entry chm L it met (k, v) ->
  Q k v m -> wp (read_ref chm (key_pair it)) m (fun k m => wp (read_ref chm (val_pair it)) m (fun v m => Q k v m)).
Proof.
  intros Hh Ha HQ. pose proof Hh as [_ Hi]. unfold at_entry, read_ref, read_arg in *. destruct (impl chm) as [oa|sc].
  - destruct Ha as (i & s & -> & Hc & -> & [= -> ->]). destruct Hi as (_ & _ & _ & Hr & _).
    destruct (slots_ok oa _ Hr) as (Hok & _). destruct (slot_sources oa _ Hr i s Hc) as [H1 H2]. cbn [key_pair val_pair oa_positioned pair_ptr pair_size].
    eapply COaRefine.wp_read_source; [done..|]. by eapply COaRefine.wp_read_source.
  - destruct Ha as (e1 & a & e2 & -> & -> & Hr & -> & E). destruct Hi as (_ & es & n' & _ & _ & _ & Ho).
    pose proof (re_core _ _ _ Hr) as Hco. destruct (listed_node _ _ _ _ (co_listed _ _ Hco)) as (n & Hn & _).
    unfold pair_at in E. rewrite Hn in E. injection E as -> ->. cbn [key_pair val_pair sc_positioned].
    apply wp_bind, (wp_node_at _ _ n); [done|]. eapply (wp_read_key (conf sc) sc a n m (bucket_blocks sc)); [by eapply co_apart|done|by eapply co_nodes|done|].
    apply wp_bind, (wp_node_at _ _ n); [done|]. by eapply (wp_read_val secret sc _ m _ Hr Ho a n).
Qed.

Lemma wp_begin_iter chm c L m F (Q : chmap_cmap_iterator + bool -> mem -> Prop) : map_holds secret chm c L m F ->
  (L = [] -> Q (inr false) m) -> (L <> [] -> forall m', map_holds secret chm c L m' F -> Q (inr true) m') ->
  (forall it kv m', map_holds secret chm c L m' ({[it_blk it]} ∪ F) -> (it_blk it ∉ F) -> at_entry chm L it [] kv -> Q (inl it) m') ->
  wp (chashmap_begin_iter (Some chm)) m Q.
Proof.
  intros Hh HE HF HS. pose proof Hh as [_ Hi]. unfold chashmap_begin_iter. unfold at_entry in HS. destruct (impl chm) as [oa|sc].
  - destruct Hi as (_ & _ & Hd & Hr & _). destruct (slots_ok oa _ Hr) as (Hok & El & HC & _).
    assert (slot_order oa ≡ₚ L) as Hp by (rewrite (slot_order_perm oa _ Hr); by apply map_to_list_to_map).
    apply wp_bind, (wp_next_occupied oa _ Hr); [lia| |].
    + intros j s Hj Hc Eb. rewrite Z.geb_leb. destruct (Z.leb_spec (capacity oa) j); [lia|].
      rewrite before_start in Eb. assert (L <> []) as Hne.
      { intros ->. apply Permutation_nil_r in Hp. 
        assert (COaRefine.pair_of (COaRefine.config_of oa) s ∈ slot_pairs oa (COaRefine.cells (table oa))) as Hin.
        { apply list_elem_of_fmap_2, elem_entries. by exists j. }
        unfold slot_order in Hp. rewrite Hp in Hin. set_solver. }
      apply wp_bind, (wp_calloc_beside chm c L _ m F); [done|done|intros m' Hh'; by apply wp_ret, HF|].
      intros b m' Hh' Hb. apply wp_ret. eapply HS; [done|done|]. by exists j, s.
    + intros E. rewrite Z.geb_leb. destruct (Z.leb_spec (capacity oa) (capacity oa)); [|lia].
      apply wp_ret, HE. rewrite before_start in E. rewrite E in Hp. by apply Permutation_nil_l in Hp.
  - destruct Hi as (_ & es & n & _ & -> & Hr & _). destruct (co_listed _ _ (re_core _ _ _ Hr)) as [_ Er]. rewrite Er. cbn [dl_head].
    destruct es as [|a es]; cbn [head]; [by apply wp_ret, HE|].
    apply wp_bind, (wp_calloc_beside chm c (content sc (a :: es)) _ m F); [done|done| |].
    { intros m' Hh'. apply wp_ret, HF; [|done]. rewrite content_cons. by destruct (content sc es). }
    intros b m' Hh' Hb. apply wp_ret. eapply HS; [done|done|]. by exists [], a, es.
Qed.

Lemma wp_iter_next chm c L it met kv m F (Q : option chmap_cmap_iterator -> mem -> Prop) :
  map_holds secret chm c L m ({[it_blk it]} ∪ F) -> (it_blk it ∉ F) -> at_entry chm L it met kv ->
  (iter_order chm L = met ++ [kv] -> forall m', map_holds secret chm c L m' F -> Q None m') ->
  (forall it' kv', it_blk it' = it_blk it -> at_entry chm L it' (met ++ [kv]) kv' -> Q (Some it') m) ->
  wp (chmap_iter_next chm it) m Q.
Proof.
  intros Hh Hb Ha HN HS. pose proof Hh as [_ Hi]. unfold chmap_iter_next. unfold at_entry, iter_order in *. destruct (impl chm) as [oa|sc].
  - destruct Ha as (i & s & -> & Hc & -> & ->). destruct Hi as (_ & _ & _ & Hr & _). destruct (slots_ok oa _ Hr) as (_ & El & HC & _).
    pose proof (cell_Some _ _ _ Hc) as Hi. rewrite El in Hi. cbn [iter oa_positioned it_blk] in *.
    assert (i ⊕ 1 = i + 1) as -> by (apply wrap_small; unfold two64; lia).
    pose proof (before_next oa _ Hr i Hi) as En. rewrite Hc in En. cbn in En. rewrite <- En in HN, HS.
    apply wp_bind, (wp_next_occupied oa _ Hr); [lia| |].
    + intros j s' Hj Hc' Eb. rewrite Z.geb_leb. destruct (Z.leb_spec (capacity oa) j); [lia|]. apply wp_ret. eapply HS; [done|].
      exists j, s'. by rewrite Eb.
    + intros E. rewrite Z.geb_leb. destruct (Z.leb_spec (capacity oa) (capacity oa)); [|lia].
      apply wp_bind, (wp_free_beside chm c L _ m F); [done|done|]. intros m' Hh'. by apply wp_ret, HN.
  - destruct Ha as (e1 & a & e2 & -> & EL & Hr & -> & ->). cbn [iter sc_positioned it_blk] in *.
    destruct (listed_node _ _ _ _ (co_listed _ _ (re_core _ _ _ Hr))) as (n & Hn & _ & En). apply wp_bind, (wp_node_at _ _ n); [done|].
    rewrite En. destruct e2 as [|a2 e2]; cbn [head].
    + apply wp_bind, (wp_free_beside chm c L _ m F); [done|done|]. intros m' Hh'. apply wp_ret, HN; [|done].
      by rewrite EL, content_reverse, fmap_app.
    + apply wp_ret. eapply HS; [done|]. exists (e1 ++ [a]), a2, e2. rewrite <- app_assoc. split_and!; [done..|by rewrite fmap_app|done].
Qed.

(** Visits [n] pairs at most, and destroys the iterator if some are left. *)
Fixpoint visit chm (n : nat) (it : chmap_cmap_iterator) (met : pairs) : M pairs :=
  match n with
  | O => __chashmap_iterator_destroy (Some it);; mret met
  | S n =>
      k ← read_ref chm (key_pair it);
      v ← read_ref chm (val_pair it);
      it ← chmap_iter_next chm it;
      match it with
      | Some it => visit chm n it (met ++ [(k, v)])
      | None => mret (met ++ [(k, v)])
      end
  end.

Definition iterate chm (n : nat) : M (option pairs) :=
  it ← chashmap_begin_iter (Some chm);
  match it with
  | inr failed => mret (if (failed : bool) then None else Some [])
  | inl it => met ← visit chm n it []; mret (Some met)
  end.

Lemma wp_visit chm c L n it met kv m F (Q : pairs -> mem -> Prop) :
  map_holds secret chm c L m ({[it_blk it]} ∪ F) -> (it_blk it ∉ F) -> at_entry chm L it met kv ->
  (forall m', map_holds secret chm c L m' F -> Q (met ++ take n (drop (length met) (iter_order chm L))) m') ->
  wp (visit chm n it met) m Q.
Proof.
  revert it met kv m. induction n as [|n IH]; intros it met [k v] m Hh Hb Ha HQ; cbn [visit].
  - apply wp_bind. cbn. eapply wp_free_beside; [done|done|]. intros m' Hh'. apply wp_ret. specialize (HQ m' Hh').
    cbn in HQ. by rewrite app_nil_r in HQ.
  - apply wp_bind. eapply wp_mono; [by apply (wp_read_entry_refs chm c L it met k v m _ (fun k' v' m' => k' = k /\ v' = v /\ m' = m) Hh Ha)|].
    cbn. intros k' m1 Hv. apply wp_bind. eapply wp_mono; [exact Hv|]. cbn. intros v' ? (-> & -> & ->). clear Hv.
    destruct (at_entry_order chm c L it met (k, v) m _ Hh Ha) as (rest & Eo). rewrite Eo in HQ. rewrite drop_app_length in HQ. cbn in HQ.
    apply wp_bind, (wp_iter_next chm c L it met (k, v) m F); [done..| |].
    + intros Eo2 m' Hh'. apply wp_ret. rewrite Eo in Eo2. apply app_inv_head in Eo2 as [= ->]. specialize (HQ m' Hh'). by rewrite take_nil in HQ.
    + intros it' kv' Eb Ha'. apply (IH it' (met ++ [(k, v)]) kv'); [by rewrite Eb|by rewrite Eb|done|].
      intros m' Hh'. specialize (HQ m' Hh'). rewrite Eo. change ((k, v) :: rest) with ([(k, v)] ++ rest).
      rewrite app_assoc, drop_app_length, <- app_assoc. exact HQ.
Qed.

(** An iteration meets a part of the order, all of it if it may: each pair
    once. *)
Lemma wp_chm_iterate chm c L n m F (Q : option pairs -> mem -> Prop) : map_holds secret chm c L m F ->
  (L <> [] -> forall m', map_holds secret chm c L m' F -> Q None m') ->
  (forall m', map_holds secret chm c L m' F -> Q (Some (take n (iter_order chm L))) m') ->
  wp (iterate chm n) m Q.
Proof.
  intros Hh HN HS. unfold iterate. apply wp_bind, (wp_begin_iter chm c L m F); [done| | |].
  - intros ->. apply wp_ret. specialize (HS m Hh). assert (iter_order chm [] = []) as E; [|by rewrite E, take_nil in HS].
    unfold iter_order. pose proof Hh as [_ Hi]. destruct (impl chm) as [oa|]; [|done]. destruct Hi as (_ & _ & _ & Hr & _).
    pose proof (slot_order_perm oa _ Hr) as Hp. cbn in Hp. rewrite map_to_list_empty in Hp. by apply Permutation_nil_r in Hp.
  - intros Hne m' Hh'. by apply wp_ret, HN.
  - intros it kv m' Hh' Hb Ha. apply wp_bind. eapply (wp_visit chm c L n it [] kv m' F); [done..|].
    intros m2 Hh2. apply wp_ret. by apply HS.
Qed.

Lemma iter_order_spec chm c L m F : map_holds secret chm c L m F ->
  if uses_oa c then iter_order chm L ≡ₚ L else iter_order chm L = reverse L.
Proof.
  intros [_ Hi]. unfold iter_order. destruct (impl chm) as [oa|sc].
  - destruct Hi as (-> & _ & Hd & Hr & _). rewrite (slot_order_perm oa _ Hr). by apply map_to_list_to_map.
  - by destruct Hi as (-> & _).
Qed.

(** ** Walks

    A walk gives pointers; the caller reads as many bytes through them as it
    knows the entry to have. *)
Definition walk_sizes chm (w : ccol_chmap_walk) : M (Z * Z) :=
  match impl chm with
  | IMPL_OPEN_ADDRESSING oa => mret (COaMap.key_size oa, COaMap.val_size oa)
  | IMPL_SEPARATE_CHAINING sc =>
      match (if started w then next_entry w else ccol_chmap_oldest_entry (Some chm)) with
      | None => mret (0, 0)
      | Some a => n ← node_at sc a; mret (acc_size (key_pair_accessor n), acc_size (val_pair_accessor n))
      end
  end.

Fixpoint walk_pairs chm (n : nat) (w : ccol_chmap_walk) (met : pairs) : M pairs :=
  match n with
  | O => mret met
  | S n =>
      '(ks, vs) ← walk_sizes chm w;
      '(out, w) ← ccol_chmap_walk_next (Some chm) w;
      match out with
      | None => mret met
      | Some (kp, vp) =>
          k ← read_arg chm kp ks;
          v ← read_arg chm vp vs;
          walk_pairs chm n w (met ++ [(k, v)])
      end
  end.

Definition walk_order chm L : pairs :=
  match impl chm with IMPL_OPEN_ADDRESSING oa => slot_order oa | IMPL_SEPARATE_CHAINING _ => L end.

Lemma wp_walk_chained chm sc c L n m F (Q : pairs -> mem -> Prop) : impl chm = IMPL_SEPARATE_CHAINING sc -> map_holds secret chm c L m F ->
  forall es e1 e2 w, L = content sc es -> repr secret sc es -> es = e1 ++ e2 ->
  (if started w then next_entry w else ccol_chmap_oldest_entry (Some chm)) = last e1 ->
  Q (content sc e2 ++ take n (content sc e1)) m -> wp (walk_pairs chm n w (content sc e2)) m Q.
Proof.
  intros Ei Hh es e1 e2 w -> Hr. revert e1 e2 w. pose proof Hh as [_ Hi]. rewrite Ei in Hi. destruct Hi as (_ & es' & n' & _ & _ & _ & Ho).
  pose proof (re_core _ _ _ Hr) as Hco. induction n as [|n IH]; intros e1 e2 w Ees Hw HQ; cbn [walk_pairs].
  { rewrite app_nil_r in HQ. by apply wp_ret. }
  unfold walk_sizes, ccol_chmap_walk_next, read_arg in *. rewrite Ei in *. rewrite Hw. set (w' := if started w then w else _).
  assert (next_entry w' = last e1 /\ started w' = true) as [Hw1 Hw2] by (unfold w'; destruct (started w) eqn:Es; done).
  rewrite Hw1. destruct e1 as [|a e1 _] using rev_ind; cbn [last].
  - apply wp_bind, wp_ret, wp_bind, wp_ret, wp_ret. change (content sc []) with (@nil (list Z * list Z)) in HQ. by rewrite app_nil_r in HQ.
  - rewrite last_snoc. assert (es = e1 ++ a :: e2) as E by (by rewrite Ees, <- app_assoc).
    pose proof (co_listed _ _ Hco) as Hl. rewrite E in Hl. destruct (listed_node _ _ _ _ Hl) as (nd & Hn & Ep & _).
    assert (node_ok (conf sc) a nd) as Hok by by eapply co_nodes. assert (apart (nodes sc)) as Hap by by eapply co_apart.
    destruct (key_accessor (conf sc) sc a nd Hap Hn Hok) as (kp & Ek & Hkp).
    destruct (val_accessor (conf sc) sc a nd Hap Hn Hok) as (vp & Ev & Hvp).
    apply wp_bind, wp_bind, (wp_node_at _ _ nd); [done|]. rewrite Ek, Ev. apply wp_ret. cbn [acc_size from_option pair_size].
    apply wp_bind. unfold ccol_chmap_entry_read, sc_entry_read. apply wp_bind, wp_bind, (wp_node_at _ _ nd); [done|]. rewrite Ek, Ev.
    apply wp_ret. cbn [ub pair_ptr]. apply wp_bind, wp_ret, wp_bind, wp_ret, wp_ret.
    apply wp_bind. eapply wp_sc_read_ptr; [done|exact Ho|exact Hkp|]. apply wp_bind. eapply wp_sc_read_ptr; [done|exact Ho|exact Hvp|].
    assert (content sc e2 ++ [(node_key nd, node_val nd)] = content sc (a :: e2)) as ->.
    { rewrite content_cons. unfold pair_at. by rewrite Hn. }
    apply (IH e1 (a :: e2)); [done|cbn; rewrite Hw2; by rewrite Ep|].
    rewrite content_app in HQ. rewrite content_cons, <- app_assoc. exact HQ.
Qed.

Lemma wp_walk_slots chm oa c L n m F (Q : pairs -> mem -> Prop) : impl chm = IMPL_OPEN_ADDRESSING oa -> map_holds secret chm c L m F ->
  forall i w, 0 <= i <= capacity oa -> next_slot w = i ->
  (forall rest, slot_order oa = pairs_before oa i ++ rest -> Q (pairs_before oa i ++ take n rest) m) ->
  wp (walk_pairs chm n w (pairs_before oa i)) m Q.
Proof.
  intros Ei Hh. pose proof Hh as [_ Hi]. rewrite Ei in Hi. destruct Hi as (_ & _ & _ & Hr & _). destruct (slots_ok oa _ Hr) as (Hok & El & HC & _).
  induction n as [|n IH]; intros i w Hi Hw HQ; cbn [walk_pairs].
  { apply wp_ret. specialize (HQ (slot_pairs oa (zdrop i (COaRefine.cells (table oa))))). rewrite app_nil_r in HQ. apply HQ.
    unfold slot_order, pairs_before, slot_pairs. rewrite <- fmap_app, <- entries_app. by rewrite ztake_zdrop. }
  unfold walk_sizes, ccol_chmap_walk_next, read_arg in *. rewrite Ei in *. apply wp_bind, wp_ret, wp_bind. rewrite Hw.
  apply wp_bind, (wp_next_occupied oa _ Hr); [done| |].
  - intros j s Hj Hc Eb. rewrite Z.geb_leb. destruct (Z.leb_spec (capacity oa) j); [lia|]. apply wp_ret.
    destruct (slot_sources oa _ Hr j s Hc) as [H1 H2]. apply wp_bind. eapply COaRefine.wp_read_source; [done..|].
    apply wp_bind. eapply COaRefine.wp_read_source; [done..|]. pose proof (before_next oa _ Hr j ltac:(lia)) as En. rewrite Hc, Eb in En. cbn in En.
    change (COaRefine.key_of ?cf s, COaRefine.val_of ?cf s) with (COaRefine.pair_of cf s). rewrite <- En. apply IH; [lia|apply wrap_small; unfold two64; lia|].
    intros rest Er. rewrite En, <- app_assoc. apply (HQ (COaRefine.pair_of (COaRefine.config_of oa) s :: rest)). by rewrite Er, En, <- app_assoc.
  - intros E. rewrite Z.geb_leb. destruct (Z.leb_spec (capacity oa) (capacity oa)); [|lia]. apply wp_ret, wp_ret.
    specialize (HQ []). rewrite take_nil, app_nil_r in HQ. by apply HQ.
Qed.

(** A walk meets the pairs, each once and as many as it is asked for. *)
Lemma wp_walk_pairs chm c L n m F (Q : pairs -> mem -> Prop) : map_holds secret chm c L m F ->
  Q (take n (walk_order chm L)) m -> wp (walk_pairs chm n walk_start []) m Q.
Proof.
  intros Hh HQ. unfold walk_order in HQ. pose proof Hh as [_ Hi]. destruct (impl chm) as [oa|sc] eqn:Ei.
  - destruct Hi as (_ & _ & _ & Hr & _). destruct (slots_ok oa _ Hr) as (_ & _ & HC & _). rewrite <- (before_start oa).
    eapply (wp_walk_slots chm oa c L n m F Q Ei Hh 0); [lia|done|]. intros rest Er. rewrite before_start in *. cbn in *. by rewrite <- Er.
  - destruct Hi as (_ & es & k & _ & -> & Hr & _). change (@nil (list Z * list Z)) with (content sc []).
    eapply (wp_walk_chained chm sc c _ n m F Q Ei Hh es es []); [done|done|by rewrite app_nil_r| |exact HQ].
    cbn. unfold ccol_chmap_oldest_entry, chained. destruct chm as [b procs i]. cbn in Ei. rewrite Ei. unfold sc_oldest_entry.
    by destruct (co_listed _ _ (re_core _ _ _ Hr)) as [_ ->].
Qed.

Lemma walk_order_spec chm c L m F : map_holds secret chm c L m F ->
  if uses_oa c then walk_order chm L ≡ₚ L else walk_order chm L = L.
Proof.
  intros Hh. pose proof (iter_order_spec chm c L m F Hh) as H. unfold iter_order, walk_order in *. destruct (uses_oa c) eqn:Hu; destruct Hh as [_ Hi];
    destruct (impl chm); [done|by destruct Hi as [Hu' _]; rewrite Hu in Hu'|by destruct Hi as [Hu' _]; rewrite Hu in Hu'|done].
Qed.

(** ** Destroying a map and what its values stand for *)
Section Dtor.
Context {D : Type} (val_dtor : list Z -> D -> D).

(** The context once the destructor has seen the values of the pairs. *)
Definition dtor_of (L : pairs) (ctx : D) : D := foldl (fun ctx p => val_dtor p.2 ctx) ctx L.

Lemma wp_oa_give chm oa c L ctx m F (Q : D -> mem -> Prop) : impl chm = IMPL_OPEN_ADDRESSING oa -> map_holds secret chm c L m F ->
  Q (dtor_of (slot_order oa) ctx) m -> wp (oa_give_values val_dtor oa ctx) m Q.
Proof.
  intros Ei [_ Hi] HQ. rewrite Ei in Hi. destruct Hi as (_ & _ & _ & Hr & _). destruct (slots_ok oa _ Hr) as (Hok & El & HC & _).
  unfold oa_give_values. apply (wp_loop (fun '(i, d) m' => m' = m /\ 0 <= i <= capacity oa /\ d = dtor_of (pairs_before oa i) ctx)
    (fun '(i, _) => Z.to_nat (capacity oa - i))).
  - intros [i d] ? (-> & Hi & ->). destruct (Z.ltb_spec i (capacity oa)) as [Hlt|Hge]; cbn [negb].
    2: { replace i with (capacity oa) in * by lia. apply wp_ret. by rewrite (before_end oa _ Hr). }
    pose proof (before_next oa _ Hr i ltac:(lia)) as En. assert (i ⊕ 1 = i + 1) as -> by (apply wrap_small; unfold two64; lia).
    apply wp_bind, (COaRefine.wp_occupied (capacity oa)); [done|lia| |].
    + intros Hc. rewrite Hc in En. cbn in En. apply wp_bind, wp_ret, wp_ret. rewrite En, app_nil_r. split; [|lia]. split_and!; [done|lia..|done].
    + intros s Hc. rewrite Hc in En. cbn in En. destruct (slot_sources oa _ Hr i s Hc) as [_ H2]. apply wp_bind, wp_bind.
      eapply COaRefine.wp_read_source; [done|exact H2|]. apply wp_ret, wp_ret. split; [|lia]. split_and!; [done|lia..|].
      rewrite En. unfold dtor_of. by rewrite foldl_app.
  - split_and!; [done|lia..|by rewrite before_start].
  - lia.
Qed.

Lemma wp_sc_give_chain sc es xs ctx m F (Q : D -> mem -> Prop) : repr secret sc es -> owns m (all_owned sc) F ->
  chain (next <$> nodes sc) xs -> NoDup xs -> xs ⊆ es -> Q (dtor_of (pair_at sc <$> xs) ctx) m ->
  wp (sc_give_chain val_dtor sc (head xs) ctx) m Q.
Proof.
  intros Hr Ho Hch Hd Hsub HQ. pose proof (re_core _ _ _ Hr) as Hco. unfold sc_give_chain.
  apply (wp_loop_list (fun ys '(t, d) m' => m' = m /\ t = head ys /\ exists pre, xs = pre ++ ys /\ d = dtor_of (pair_at sc <$> pre) ctx) xs).
  - intros [t d] ? (-> & -> & pre & E & ->). apply wp_ret. eexists. split; [done|]. rewrite app_nil_r in E. by rewrite <- E.
  - intros x ys [t d] ? (-> & -> & pre & E & ->). rewrite E in Hch. cbn [head].
    destruct (chain_node _ _ _ (chain_app _ _ _ Hch)) as (n & Hn & En & _). apply wp_bind, (wp_node_at _ _ n); [done|].
    apply wp_bind. eapply (wp_read_val secret sc es m F Hr Ho x n); [done|]. apply wp_ret. split_and!; [done|done|].
    exists (pre ++ [x]). split; [by rewrite <- app_assoc|]. rewrite fmap_app. unfold dtor_of. rewrite foldl_app. cbn.
    unfold pair_at. by rewrite Hn.
  - split_and!; [done|done|]. by exists [].
  - apply le_n_S, NoDup_size; [done|]. intros x Hx. apply (co_dom _ _ Hco). by apply Hsub.
Qed.

Lemma wp_sc_give sc es ctx m F (Q : D -> mem -> Prop) : repr secret sc es -> owns m (all_owned sc) F ->
  (forall order, order ≡ₚ content sc es -> Q (dtor_of order ctx) m) -> wp (sc_give_values val_dtor sc ctx) m Q.
Proof.
  intros Hr Ho HQ. pose proof Hr as [Hco Hsz _ (chains & Hb & _)]. pose proof (buckets_range _ (sz_size _ Hsz)).
  unfold sc_give_values. apply wp_bind. apply (wp_while (fun '(i, d) m' => m' = m /\ 0 <= i <= bucket_arr_size sc /\
    d = dtor_of (pair_at sc <$> concat (ztake i chains)) ctx) (fun '(i, _) => Z.to_nat (bucket_arr_size sc - i))).
  - intros [i d] ? (-> & Hi & ->) Hlt%Z.ltb_lt.
    destruct (buckets_at _ _ _ _ _ i Hb ltac:(lia)) as (xs & Hc & Hhd & Hch & Hsub). rewrite Hhd. cbn [ub]. apply wp_bind, wp_ret, wp_bind.
    eapply (wp_sc_give_chain sc es xs _ m F); [done..|by eapply buckets_nodup, Hc; [exact Hb|by eapply co_nodup]|done|].
    apply wp_ret. sz. split; [|lia]. split_and!; [done|lia..|].
    rewrite (ztake_snoc _ _ _ Hc), concat_app, fmap_app. cbn [concat]. rewrite app_nil_r. unfold dtor_of. by rewrite foldl_app.
  - intros [i d] ? (-> & Hi & ->) Hge%Z.ltb_ge. apply wp_ret. pose proof (bk_len _ _ _ _ _ Hb). rewrite ztake_all by lia.
    apply HQ. unfold content. rewrite reverse_Permutation. by rewrite (bk_all _ _ _ _ _ Hb).
  - split_and!; [done|lia..|done].
  - lia.
Qed.

Lemma wp_give_values chm c L ctx m F (Q : D -> mem -> Prop) : map_holds secret chm c L m F ->
  (forall order, order ≡ₚ L -> Q (dtor_of order ctx) m) ->
  wp (match impl chm with
      | IMPL_OPEN_ADDRESSING oa => oa_give_values val_dtor oa ctx
      | IMPL_SEPARATE_CHAINING sc => sc_give_values val_dtor sc ctx
      end) m Q.
Proof.
  intros Hh HQ. pose proof Hh as [_ Hi]. destruct (impl chm) as [oa|sc] eqn:Ei.
  - eapply wp_oa_give; [done..|]. apply HQ. destruct Hi as (_ & _ & Hd & Hr & _). rewrite (slot_order_perm oa _ Hr). by apply map_to_list_to_map.
  - destruct Hi as (_ & es & n & _ & -> & Hr & Ho). by eapply wp_sc_give.
Qed.
End Dtor.
End Iter.
