(* ===== verification/CHashMapSpec.v ===== *)
(** * Histories of the hash map ([src/chashmap.c])

    The life of a map from its creation to its destruction, its iterators and
    walks, and the refinement of a list of pairs by every history of the
    functions a caller sees. *)
From S2P Require Import Prelude Memory Values Common CVector CHash COaProbe COaMap COaRefine COaSpec.
From S2P Require Import CLinks CScMap CScRefine CScRelink CScResize CScOps CScSpec CHashMap CHashMapRefine CHashMapIter.
Import COaMap(open_addr_map, oa_slot(..), oa_block(..), blk, table, capacity, cmap_pair(..), pair_ptr, pair_size,
  minimum_allowed_bucket_array_size, should_use_open_addressing, get_type_size, UINT16_MAX, CHMAP_WINDOW_START,
  chmap_hash_mode(..), two32).
Import CScMap.
Import CHashMap.

(** ** Sizes *)
Lemma least_is_capacity n r : 16 <= n <= ccol_max_elem_count -> Pow2.least_pow2_above n r -> is_capacity r /\ is_buckets r.
Proof.
  unfold ccol_max_elem_count. intros Hn ((k & Hk & ->) & Hle & Hleast). specialize (Hleast 63 ltac:(lia) ltac:(lia)).
  change 16 with (2 ^ 4) in Hn. assert (2 ^ 4 <= 2 ^ k) as H4 by lia.
  apply Z.pow_le_mono_r_iff in Hleast; [|lia..]. apply Z.pow_le_mono_r_iff in H4; [|lia..].
  split; exists k; split; (done || lia).
Qed.

Lemma reset_size_ok n : 0 <= n < two64 ->
  let '(size, too_big) := reset_size n in
  (size = 0 \/ is_capacity size /\ is_buckets size) /\ (too_big = true -> size = 0) /\
  (too_big = true <-> ccol_max_elem_count < n) /\ (size = 0 -> n = 0 \/ too_big = true).
Proof.
  intros Hn. unfold reset_size, minimum_allowed_bucket_array_size. rewrite Z.gtb_ltb.
  destruct (Z.ltb_spec 0 n) as [H0|H0]; cbn [andb].
  2: { assert (n = 0) as -> by lia. split_and!; [by left|done|unfold ccol_max_elem_count; by split|by left]. }
  destruct (Z.ltb_spec n 16) as [H16|H16].
  { split_and!; [right; split; [exists 4|exists 4]; lia|done|unfold ccol_max_elem_count; split; [done|lia]|done]. }
  destruct (Z.le_gt_cases n ccol_max_elem_count) as [Hle|Hgt].
  - pose proof (Pow2.pow2_ok n ltac:(lia)) as Hp. destruct (least_is_capacity n _ ltac:(lia) Hp) as [Hc Hb].
    pose proof (capacity_range _ Hc). rewrite Z.gtb_ltb. destruct (Z.ltb_spec ccol_max_elem_count (Pow2._ccol_find_nearest_gte_power_of_two n)) as [H1|H1].
    { unfold ccol_max_elem_count in *. lia. }
    split_and!; [by right|done|split; [done|lia]|lia].
  - rewrite (Pow2.pow2_too_large n) by lia. cbn. split_and!; [by left|done|by split|by right].
Qed.

Lemma initial_size_ok n floor : 1 <= n < two64 -> 4 <= floor <= 16 -> is_buckets floor ->
  match initial_size n floor with
  | Some size => Pow2.least_pow2_above (Z.max n floor) size /\ is_buckets size /\ (floor = 16 -> is_capacity size)
  | None => ccol_max_elem_count < n
  end.
Proof.
  intros Hn Hf Hb. unfold initial_size. destruct (Z.leb_spec n floor) as [Hle|Hgt].
  { rewrite Z.max_r by lia. split_and!; [|done|intros ->; exists 4; lia]. destruct Hb as (k & Hk & ->).
    split; [exists k; lia|]. split; [lia|]. intros j Hj H. done. }
  rewrite Z.max_l by lia. destruct (Z.le_gt_cases n ccol_max_elem_count) as [Hle|Hgt2].
  - pose proof (Pow2.pow2_ok n ltac:(lia)) as Hp. pose proof Hp as ((k & Hk & E) & H1 & H2).
    specialize (H2 63 ltac:(lia)). change (2 ^ 63) with ccol_max_elem_count in H2. specialize (H2 Hle). rewrite Z.gtb_ltb.
    destruct (Z.ltb_spec ccol_max_elem_count (Pow2._ccol_find_nearest_gte_power_of_two n)) as [H3|_]; [lia|]. rewrite E in *.
    change ccol_max_elem_count with (2 ^ 63) in H2. apply Z.pow_le_mono_r_iff in H2; [|lia..].
    assert (2 ^ 2 < 2 ^ k) as H4 by (change (2 ^ 2) with 4; lia). apply Z.pow_lt_mono_r_iff in H4; [|lia..].
    split_and!; [done|exists k; lia|]. intros ->. assert (2 ^ 4 < 2 ^ k) as H5 by (change (2 ^ 4) with 16; lia).
    apply Z.pow_lt_mono_r_iff in H5; [|lia..]. exists k. lia.
  - rewrite (Pow2.pow2_too_large n) by lia. cbn. lia.
Qed.

(** ** Creation, reset and destruction *)
Section Life.
Context {alloc : Allocator} (secret : chmap_hash_secret) (Hsecret : secret_ok secret).
Implicit Types (c : sc_config) (L : pairs) (m : mem) (chm : chashmap) (oa : open_addr_map) (sc : sep_chain_map).
Local Abbreviation map_holds := (map_holds secret).
Local Abbreviation impl_holds := (impl_holds secret).

Definition bucket_count chm : Z :=
  match impl chm with IMPL_OPEN_ADDRESSING oa => capacity oa | IMPL_SEPARATE_CHAINING sc => bucket_arr_size sc end.

(** The error of arguments a creation refuses. *)
Definition refused (n : Z) c (procs : option ccol_memmgmt_procs_t) : option create_error :=
  if n =? 0 then Some initial_bucket_array_size_is_zero
  else if is_given (custom_key_equality_proc c) && negb (is_given (custom_hashing_proc c)) then Some equality_needs_a_hashing_proc
  else if negb (_ccol_verify_memmgmt_procs procs) then Some null_memory_management_function
  else if ccol_max_elem_count <? n then Some initial_bucket_array_size_is_too_big
  else None.

(** The first bucket array: the least power of two the size asks for. *)
Definition created_map n c (sc_min : Z) chm m F : Prop :=
  map_holds chm c [] m F /\ Pow2.least_pow2_above (Z.max n (if uses_oa c then 16 else sc_min)) (bucket_count chm).

Lemma wp_chmap_create n c procs interned sc_min m F (Q : chashmap + create_error -> mem -> Prop) :
  0 <= n < two64 -> (is_given (custom_key_equality_proc c) && negb (is_given (custom_hashing_proc c)) = false -> conf_ok c) ->
  4 <= sc_min <= 16 -> is_buckets sc_min -> owns m ∅ F ->
  (forall e, refused n c procs = Some e -> Q (inr e) m) ->
  (forall e m', refused n c procs = None -> owns m' ∅ F ->
     e = failed_to_allocate_chashmap \/ e = failed_to_create_open_addressing_map \/ e = failed_to_create_separate_chaining_map -> Q (inr e) m') ->
  (forall chm m', refused n c procs = None -> created_map n c sc_min chm m' F -> Q (inl chm) m') ->
  wp (chmap_create_impl n (key_type c) (val_type c) procs interned (custom_hashing_proc c) (custom_key_equality_proc c) sc_min) m Q.
Proof.
  intros Hn Hc Hm Hb Ho HR HE HS. unfold chmap_create_impl, refused in *. destruct (Z.eqb_spec n 0) as [->|Hn0]; [by apply wp_ret, HR|].
  destruct (is_given (custom_key_equality_proc c) && _) eqn:Eeq; [by apply wp_ret, HR|]. specialize (Hc eq_refl).
  destruct (_ccol_verify_memmgmt_procs procs); cbn [negb] in *; [|by apply wp_ret, HR].
  change (negb (is_given (custom_key_equality_proc c)) && should_use_open_addressing (key_type c) (val_type c)) with (uses_oa c).
  change minimum_allowed_bucket_array_size with 16. unfold created_map in HS. set (floor := if uses_oa c then 16 else sc_min) in *.
  assert (4 <= floor <= 16 /\ is_buckets floor) as [Hfl Hflb] by (unfold floor; destruct (uses_oa c); split; try done; exists 4; lia).
  pose proof (initial_size_ok n floor ltac:(lia) Hfl Hflb) as Hi. destruct (initial_size n floor) as [size|] eqn:Es.
  2: { apply wp_ret, HR. by destruct (Z.ltb_spec ccol_max_elem_count n); [|lia]. }
  destruct Hi as (Hleast & Hsb & Hcap). assert (n <= ccol_max_elem_count) as Hle.
  { destruct Hleast as (_ & H & _). pose proof (buckets_range _ Hsb). unfold ccol_max_elem_count. lia. }
  destruct (Z.ltb_spec ccol_max_elem_count n); [lia|]. clear HR. set (inl_b := if negb (uses_oa c) && (size <=? 16) then size else 0).
  apply wp_bind. eapply (wp_alloc_owns _ m ∅ F); [done| |intros; by apply wp_ret, HE; auto|].
  { apply Z.mod_pos_bound. unfold two64. lia. }
  intros b m1 Ho1 _ HbF _ _. set (procs' := match procs with None => _ | Some p => _ end).
  assert (owns m1 ∅ ({[b_id b]} ∪ F)) as Ho2 by (apply owns_split; [owns_tac|set_solver]).
  assert (forall m2 e, owns m2 ∅ ({[b_id b]} ∪ F) -> e = failed_to_create_open_addressing_map \/ e = failed_to_create_separate_chaining_map ->
    wp (_ccol_mem_free (b_id b);; mret (inr e)) m2 Q) as Hfree.
  { intros m2 e Ho3 He. apply wp_bind. eapply (wp_free_owns _ m2 (∅ ∪ {[b_id b]}) F); [by apply owns_join; [|set_solver]|set_solver|].
    intros m3 Ho4. apply wp_ret, HE; [done| |auto]. apply (owns_change _ _ _ _ Ho4). set_solver. }
  destruct (uses_oa c) eqn:Hu; apply wp_bind.
  - pose proof (oa_config_ok c Hc Hu) as Hcfg.
    eapply wp_mono; [apply (COaSpec.wp_oa_init secret Hsecret size (key_type c) (val_type c) _ _ _ _ _ _ m1 ({[b_id b]} ∪ F) (Hcap eq_refl) Hcfg); [done|exact Ho2]|].
    intros [oa|] m2; [|intros Ho3; by apply Hfree; auto]. intros (Hr & Ecap & Ec & Ho3). apply wp_ret, HS; [done|]. split.
    + split; [done|]. split; [done|]. split; [exact Ec|]. split; [constructor|]. split; [by apply COaRefine.set_window_repr|done].
    + by rewrite <- Ecap in Hleast.
  - eapply (wp_init secret Hsecret size (with_inline c inl_b) _ _ _ m1 ∅ ({[b_id b]} ∪ F)); [destruct Hc; by split|done|exact Ho2|intros m2 Ho3; by apply Hfree; auto|].
    intros sc m2 Hr Ec Esz _ Ho3. apply wp_ret, HS; [done|]. split; [|by rewrite <- Esz in Hleast].
    split; [done|]. split; [done|]. exists [], inl_b. split_and!; [done|done|done|]. apply (owns_change _ _ _ _ Ho3). set_solver.
Qed.

Lemma wp_chm_destroy chm c L m F (Q : unit -> mem -> Prop) : map_holds chm c L m F -> (forall m', owns m' ∅ F -> Q tt m') ->
  wp (__chashmap_destroy (Some chm)) m Q.
Proof.
  intros [Hb Hi] HQ. unfold __chashmap_destroy. apply wp_bind.
  assert (forall m', owns m' ∅ ({[chm_blk chm]} ∪ F) -> wp (_ccol_mem_free (chm_blk chm)) m' Q) as Hfree.
  { intros m' Ho. eapply (wp_free_owns _ m' (∅ ∪ {[chm_blk chm]}) F); [by apply owns_join; [|set_solver]|set_solver|].
    intros m2 Ho2. apply HQ, (owns_change _ _ _ _ Ho2). set_solver. }
  destruct (impl chm) as [oa|sc].
  - destruct Hi as (_ & _ & _ & Hr & Ho). eapply wp_mono; [by eapply COaSpec.wp_oa_destroy|]. intros [] m' Ho'. by apply Hfree.
  - destruct Hi as (_ & es & n & _ & _ & Hr & Ho). by eapply (wp_sc_destroy secret Hsecret sc es).
Qed.

Lemma wp_chm_reset chm c L n m F (Q : ccol_retval_t * option chashmap -> mem -> Prop) : map_holds chm c L m F -> 0 <= n < two64 ->
  (forall r chm' m', map_holds chm' c [] m' F -> r = ccol_success \/ r = ccol_not_enough_memory ->
     (n = 0 -> r = ccol_success) -> (ccol_max_elem_count < n -> r = ccol_not_enough_memory) -> Q (r, Some chm') m') ->
  wp (chashmap_reset (Some chm) n) m Q.
Proof.
  intros [Hb Hi] Hn HQ. unfold chashmap_reset. apply wp_bind, wp_ret. pose proof (reset_size_ok n Hn) as Hsz.
  destruct (reset_size n) as [size big] eqn:Esz. destruct Hsz as (Hs & Hbig & Hiff & H0).
  assert ((size = 0 \/ is_capacity size) /\ (size = 0 \/ is_buckets size)) as [Hs1 Hs2] by (destruct Hs as [->|[? ?]]; auto).
  assert (forall i r m', impl_holds i c [] m' ({[chm_blk chm]} ∪ F) -> r = ccol_success \/ (r = ccol_not_enough_memory /\ size <> 0) ->
    Q (if big then ccol_not_enough_memory else r, Some (set_impl chm i)) m') as Hend.
  { intros i r m' Hh Hor. apply HQ; [by apply set_impl_holds|destruct big; [by right|destruct Hor as [?|[? _]]; auto]| |].
    - intros ->. destruct big; [destruct Hiff as [Hi1 _]; specialize (Hi1 eq_refl); unfold ccol_max_elem_count in Hi1; lia|].
      destruct Hor as [->|[-> Hne]]; [done|]. exfalso. clear -Esz Hne. by injection Esz as <-.
    - intros Hgt. destruct Hiff as [_ Hi2]. by rewrite Hi2. }
  destruct (impl chm) as [oa|sc]; apply wp_bind, wp_bind.
  - destruct Hi as (Hu & Ec & Hd & Hr & Ho). eapply wp_mono; [apply (COaSpec.wp_oa_reset secret Hsecret oa _ size m ({[chm_blk chm]} ∪ F) Hr); done|].
    intros [r oa'] m' [(Hr' & Ec' & Hor) Ho']. cbn in Ho'. do 2 apply wp_ret. apply Hend; [|destruct Hor as [[-> _]|(-> & _ & ? & _)]; auto].
    split; [done|]. split; [congruence|]. split; [constructor|]. by split.
  - destruct Hi as (Hu & es & k & Ec & -> & Hr & Ho). eapply (wp_sc_reset secret Hsecret sc es size ∅ m ({[chm_blk chm]} ∪ F)); [done|done|set_solver| |].
    { apply (owns_change _ _ _ _ Ho). set_solver. }
    intros [r sc'] m' (Hr' & Ec' & Hor) _ Ho'. cbn in Ho'. do 2 apply wp_ret. apply Hend; [|destruct Hor as [[-> _]|(-> & _ & ? & _)]; auto].
    split; [done|]. exists [], k. split_and!; [congruence|done|done|]. apply (owns_change _ _ _ _ Ho'). set_solver.
Qed.
End Life.

(** ** Histories *)
Section History.
Context {alloc : Allocator} (secret : chmap_hash_secret) (Hsecret : secret_ok secret).
Implicit Types (c : sc_config) (L : pairs) (m : mem) (chm : chashmap).
Local Abbreviation map_holds := (map_holds secret).

(** [HInsertFrom k k2] inserts for [k] the value [chashmap_get_elem_ref] hands
    out for [k2]; the flags say whether an out parameter is given, [buf] and
    [n] are the buffer of a copy and its size, and a walk or an iteration
    stops after [n] pairs. *)
Inductive hop :=
  | HInsert (k v : carg)
  | HInsertFrom (k k2 : carg)
  | HInsertOrGet (k v : carg) (has_slot : bool)
  | HEntry (k v : carg) (has_slots : bool)
  | HRef (k : carg) (has_val : bool)
  | HAccessor (k : carg) (has_accessor : bool)
  | HCopy (k : carg) (buf : option (list Z)) (n : Z)
  | HDelete (k : carg)
  | HCount
  | HReset (n : Z)
  | HWalk (n : nat)
  | HIterate (n : nat).

Inductive hres :=
  | HCode (r : ccol_retval_t)
  | HVal (r : ccol_retval_t) (v : option (list Z))
  | HPair (r : ccol_retval_t) (kv : option (list Z * list Z))
  | HNum (n : Z)
  | HPairs (l : option pairs).

Definition read_slot chm (out : option cmap_pair) : M (option (list Z)) :=
  match out with Some p => v ← read_arg chm (pair_ptr p) (pair_size p); mret (Some v) | None => mret None end.

Definition read_accessor chm (out : option nat) : M (option (list Z * list Z)) :=
  match out with
  | Some a => sc ← ub (chained (Some chm)); '(k, v, _) ← read_entry sc a; mret (Some (k, v))
  | None => mret None
  end.

Definition run_hop chm (op : hop) : M (hres * chashmap) :=
  match op with
  | HInsert k v =>
      '(r, chm) ← chashmap_insert_elem secret (Some chm) (to_pair k) (to_pair v); chm ← ub chm; mret (HCode r, chm)
  | HInsertFrom k k2 =>
      '(r, out) ← chashmap_get_elem_ref secret (Some chm) (to_pair k2) true;
      match out with
      | Some p =>
          '(r, chm) ← chashmap_insert_elem secret (Some chm) (to_pair k) (Some (UserPair (Some (pair_ptr p)) (pair_size p)));
          chm ← ub chm; mret (HCode r, chm)
      | None => mret (HCode r, chm)
      end
  | HInsertOrGet k v has_slot =>
      '(r, out, chm) ← ccol_chmap_insert_or_get_elem secret (Some chm) (to_pair k) (to_pair v) has_slot;
      chm ← ub chm; v ← read_slot chm out; mret (HVal r v, chm)
  | HEntry k v has_slots =>
      '(r, out, chm) ← ccol_chmap_insert_or_get_entry secret (Some chm) (to_pair k) (to_pair v) has_slots;
      chm ← ub chm; kv ← read_accessor chm out; mret (HPair r kv, chm)
  | HRef k has_val =>
      '(r, out) ← chashmap_get_elem_ref secret (Some chm) (to_pair k) has_val; v ← read_slot chm out; mret (HVal r v, chm)
  | HAccessor k has_accessor =>
      '(r, out) ← _chashmap_get_val_accessor secret (Some chm) (to_pair k) has_accessor;
      kv ← read_accessor chm out; mret (HVal r (snd <$> kv), chm)
  | HCopy k buf n =>
      '(r, buf) ← chashmap_get_elem_copy secret (Some chm) (to_pair k) buf n; mret (HVal r buf, chm)
  | HDelete k =>
      '(r, chm) ← chashmap_delete_elem secret (Some chm) (to_pair k); chm ← ub chm; mret (HCode r, chm)
  | HCount => n ← chashmap_elem_count (Some chm); mret (HNum n, chm)
  | HReset n => '(r, chm) ← chashmap_reset (Some chm) n; chm ← ub chm; mret (HCode r, chm)
  | HWalk n => l ← walk_pairs chm n walk_start []; mret (HPairs (Some l), chm)
  | HIterate n => l ← iterate chm n; mret (HPairs l, chm)
  end.

Fixpoint run_hops chm (ops : list hop) : M (list hres * chashmap) :=
  match ops with
  | [] => mret ([], chm)
  | op :: ops =>
      '(r, chm) ← run_hop chm op;
      '(rs, chm) ← run_hops chm ops;
      mret (r :: rs, chm)
  end.

(** The life of a map: created, used, and destroyed with a destructor that
    collects the values. *)
Definition collect (v : list Z) (ctx : list (list Z)) : list (list Z) := ctx ++ [v].

Definition chm_life (n : Z) c (procs : option ccol_memmgmt_procs_t) (interned : bool) (ops : list hop)
    : M (list hres * list (list Z) + create_error) :=
  created ← chashmap_create_full n (key_type c) (val_type c) procs interned (custom_hashing_proc c) (custom_key_equality_proc c);
  match created with
  | inr e => mret (inr e)
  | inl chm =>
      '(rs, chm) ← run_hops chm ops;
      vs ← chashmap_destroy_with_dtor (Some chm) (Some collect) [];
      mret (inl (rs, vs))
  end.

(** *** The list of pairs

    A refused insertion, a key already there, a new key, and a failure. *)
Definition hinserted c L (k v : option (list Z)) (r : ccol_retval_t) L' : Prop :=
  match k, v with
  | Some k, Some v => sinserted (key_eq c) L k v r L'
  | _, _ => r = ccol_invalid_args /\ L' = L
  end.

Definition found_code c L k : ccol_retval_t :=
  match lookup_key (key_eq c) k L with Some _ => ccol_success | None => ccol_key_not_found end.

(** The pairs a visit meets: any order for an open-addressing map. *)
Definition met_in_order c L (order : pairs) : Prop := if uses_oa c then order ≡ₚ L else order = L.

Definition hspec c L (op : hop) (r : hres) L' : Prop :=
  match op, r with
  | HInsert k v, HCode r => hinserted c L (arg_key c k) (arg_val c v) r L'
  | HInsertFrom k k2, HCode r =>
      match arg_key c k2 with
      | None => r = ccol_invalid_args /\ L' = L
      | Some k2 =>
          match lookup_key (key_eq c) k2 L with
          | None => r = ccol_key_not_found /\ L' = L
          | Some v => hinserted c L (arg_key c k) (Some v) r L'
          end
      end
  | HInsertOrGet k v has_slot, HVal r out =>
      match arg_key c k, arg_val c v with
      | Some k, Some v =>
          if has_slot then
            match lookup_key (key_eq c) k L with
            | Some v0 => r = ccol_key_already_present /\ out = Some v0 /\ L' = L
            | None => sinserted (key_eq c) L k v r L' /\ out = if decide (r = ccol_success) then Some v else None
            end
          else r = ccol_invalid_args /\ out = None /\ L' = L
      | _, _ => r = ccol_invalid_args /\ out = None /\ L' = L
      end
  | HEntry k v has_slots, HPair r out =>
      match arg_key c k, arg_val c v with
      | Some k, Some v =>
          if has_slots && negb (uses_oa c) then
            match lookup_key (key_eq c) k L with
            | Some v0 => r = ccol_key_already_present /\ L' = L /\ exists k0, out = Some (k0, v0) /\ key_eq c k0 k = true
            | None => sinserted (key_eq c) L k v r L' /\ out = if decide (r = ccol_success) then Some (k, v) else None
            end
          else r = ccol_invalid_args /\ out = None /\ L' = L
      | _, _ => r = ccol_invalid_args /\ out = None /\ L' = L
      end
  | HRef k has_val, HVal r out =>
      L' = L /\ match arg_key c k with
      | Some k => if has_val then out = lookup_key (key_eq c) k L /\ r = found_code c L k else r = ccol_invalid_args /\ out = None
      | None => r = ccol_invalid_args /\ out = None
      end
  | HAccessor k has_accessor, HVal r out =>
      L' = L /\ match arg_key c k with
      | Some k => if has_accessor && negb (uses_oa c) then out = lookup_key (key_eq c) k L /\ r = found_code c L k
                  else r = ccol_invalid_args /\ out = None
      | None => r = ccol_invalid_args /\ out = None
      end
  | HCopy k buf n, HVal r out =>
      L' = L /\ match arg_key c k, buf with
      | Some k, Some b =>
          if n =? 0 then r = ccol_invalid_args /\ out = buf
          else r = found_code c L k /\ out = match lookup_key (key_eq c) k L with Some v => Some (copied v b n) | None => buf end
      | _, _ => r = ccol_invalid_args /\ out = buf
      end
  | HDelete k, HCode r =>
      match arg_key c k with
      | Some k => L' = remove_key (key_eq c) k L /\ r = found_code c L k
      | None => r = ccol_invalid_args /\ L' = L
      end
  | HCount, HNum n => L' = L /\ n = zlen L
  | HReset n, HCode r =>
      L' = [] /\ (r = ccol_success \/ r = ccol_not_enough_memory) /\ (n = 0 -> r = ccol_success) /\
      (ccol_max_elem_count < n -> r = ccol_not_enough_memory)
  | HWalk n, HPairs l => L' = L /\ exists order, met_in_order c L order /\ l = Some (take n order)
  | HIterate n, HPairs l =>
      L' = L /\ ((l = None /\ L <> []) \/ exists order, met_in_order c (reverse L) order /\ l = Some (take n order))
  | _, _ => False
  end.

Inductive hspecs c : pairs -> list hop -> list hres -> pairs -> Prop :=
  | hspecs_nil L : hspecs c L [] [] L
  | hspecs_cons L op r L1 ops rs L2 : hspec c L op r L1 -> hspecs c L1 ops rs L2 -> hspecs c L (op :: ops) (r :: rs) L2.

(** The pointers of the arguments have the bytes the sizes claim. *)
Definition hop_ok (op : hop) : Prop :=
  match op with
  | HInsert k v | HInsertOrGet k v _ | HEntry k v _ | HInsertFrom k v => carg_ok k /\ carg_ok v
  | HRef k _ | HAccessor k _ | HDelete k => carg_ok k
  | HCopy k buf n => carg_ok k /\ 0 <= n < two64 /\ from_option (fun b => n <= zlen b) True buf
  | HReset n => 0 <= n < two64
  | HCount | HWalk _ | HIterate _ => True
  end.

(** The values of the list have the size their type fixes. *)
Definition values_fit c L : Prop := Forall (fun p => fits (val_type c) (zlen p.2) = true) L.

Lemma values_update c L k v : values_fit c L -> fits (val_type c) (zlen v) = true -> values_fit c (update_key (key_eq c) k v L).
Proof. intros H Hv. induction H as [|[k' v'] L Hp HL IH]; [constructor|]. cbn. destruct (key_eq c k' k); by constructor. Qed.
Lemma values_remove c L k : values_fit c L -> values_fit c (remove_key (key_eq c) k L).
Proof. intros H. induction H as [|[k' v'] L Hp HL IH]; [constructor|]. cbn. destruct (key_eq c k' k); [done|by constructor]. Qed.
Lemma values_lookup c L k v : values_fit c L -> lookup_key (key_eq c) k L = Some v -> fits (val_type c) (zlen v) = true.
Proof. intros H. induction H as [|[k' v'] L Hp HL IH]; [done|]. cbn. destruct (key_eq c k' k); [by intros [= <-]|done]. Qed.
Lemma values_inserted c L k v r L' : values_fit c L -> fits (val_type c) (zlen v) = true -> sinserted (key_eq c) L k v r L' -> values_fit c L'.
Proof.
  intros H Hv. unfold sinserted. destruct (lookup_key _ k L).
  - intros [[_ ->]|[_ ->]]; [by apply values_update|done].
  - intros [[_ ->]|[[_ ->]|(_ & -> & _)]]; [|done..]. apply Forall_app. split; [done|]. by constructor.
Qed.
Lemma arg_val_fits c a v : arg_val c a = Some v -> fits (val_type c) (zlen v) = true.
Proof. unfold arg_val. destruct (arg_bytes a) as [b|]; [|done]. cbn. destruct (fits _ (zlen b)) eqn:E; [|done]. by intros [= <-]. Qed.

(** What every operation does to a map and its list. *)
Definition steps chm c L (op : hop) m F : Prop := forall Q : hres * chashmap -> mem -> Prop,
  (forall r chm' L' m', hspec c L op r L' -> map_holds chm' c L' m' F -> values_fit c L' -> Q (r, chm') m') ->
  wp (run_hop chm op) m Q.

Lemma wp_read_slot chm c L p v m F (Q : option (list Z) -> mem -> Prop) : map_holds chm c L m F -> val_given chm p v ->
  pair_size p = zlen v -> Q (Some v) m -> wp (read_slot chm (Some p)) m Q.
Proof.
  intros Hh Hv Es HQ. zlen_facts. cbn [read_slot]. apply wp_bind. rewrite Es. apply (wp_read_given secret chm c L p v (zlen v) m F); [done|done|lia|].
  rewrite ztake_all by done. by apply wp_ret.
Qed.

Lemma val_given_size chm p v : val_given chm p v -> pair_size p = zlen v.
Proof. unfold val_given. destruct (impl chm); [by intros [? _]|by intros (? & _)]. Qed.

Lemma wp_read_accessor chm c L sc a nd m F (Q : option (list Z * list Z) -> mem -> Prop) : map_holds chm c L m F ->
  impl chm = IMPL_SEPARATE_CHAINING sc -> nodes sc !! a = Some nd -> Q (Some (node_key nd, node_val nd)) m ->
  wp (read_accessor chm (Some a)) m Q.
Proof.
  intros [_ Hi] Ei Hn HQ. rewrite Ei in Hi. destruct Hi as (_ & es & n & _ & _ & Hr & Ho). unfold read_accessor, chained.
  destruct chm as [b procs i]. cbn in Ei. rewrite Ei. cbn [ub]. apply wp_bind, wp_ret, wp_bind.
  eapply (wp_read_entry secret sc es m); [done|done|exact Hn|]. by apply wp_ret.
Qed.

Section Steps.
Context chm c L m F (Hh : map_holds chm c L m F) (Hfit : values_fit c L).

Lemma step_insert k v : carg_ok k -> carg_ok v -> steps chm c L (HInsert k v) m F.
Proof.
  intros Hk Hv Q HQ. cbn [run_hop]. unfold chashmap_insert_elem. apply wp_bind, wp_bind.
  eapply (wp_chm_insert secret Hsecret chm c L k (to_pair v) (arg_val c v) want_nothing m F); [done|done|by apply carg_value|done| |].
  - intros Hn. apply wp_ret, wp_bind, wp_ret, wp_ret, (HQ _ _ L); [|done..]. cbn. unfold hinserted. destruct Hn as [-> | ->]; [done|by destruct (arg_key c k)].
  - intros k1 v1 r out chm' L' m' Ek Ev Hr Hh'. apply wp_ret, wp_bind, wp_ret, wp_ret. destruct Hr as [_ Hr].
    apply (HQ _ _ L'); [cbn; rewrite Ek, Ev; exact Hr|done|]. eapply values_inserted; [done|by eapply arg_val_fits|done].
Qed.

Lemma step_insert_from k k2 : carg_ok k -> carg_ok k2 -> steps chm c L (HInsertFrom k k2) m F.
Proof.
  intros Hk Hk2 Q HQ. cbn [run_hop]. apply wp_bind. eapply (wp_get_elem_ref secret Hsecret chm c L k2 true m F); [done|done| |].
  { intros [E|?]; [|done]. apply wp_ret, (HQ _ _ L); [|done..]. cbn. by rewrite E. }
  intros k2' r out Ek2 _. unfold ref_answer. destruct (lookup_key _ k2' L) as [v|] eqn:El.
  2: { intros [-> ->]. apply wp_ret, (HQ _ _ L); [|done..]. cbn. by rewrite Ek2, El. }
  intros (-> & p & -> & Hp). pose proof (values_lookup c L k2' v Hfit El) as Hf. pose proof (val_given_size _ _ _ Hp) as Es.
  assert (value_arg chm c (Some (UserPair (Some (pair_ptr p)) (pair_size p))) (Some v)) as Hv.
  { exists p. split_and!; [|done..]. cbn. destruct (Z.eqb_spec (pair_size p) 0) as [E0|_]; [|by destruct p].
    exfalso. pose proof Hh as [_ Hi]. unfold val_given in Hp. destruct (impl chm) as [oa|]; [|destruct Hp as (? & ? & _); lia].
    destruct Hi as (Hu & _). destruct (oa_types c Hu) as (_ & _ & _ & Ev & _ & Hvs & _).
    unfold fits in Hf. apply orb_true_iff in Hf as [?%Z.eqb_eq|?%Z.eqb_eq]; lia. }
  unfold chashmap_insert_elem. apply wp_bind, wp_bind.
  eapply (wp_chm_insert secret Hsecret chm c L k _ (Some v) want_nothing m F); [done|done|exact Hv|done| |].
  - intros [E|?]; [|done]. apply wp_ret, wp_bind, wp_ret, wp_ret, (HQ _ _ L); [|done..]. cbn. rewrite Ek2, El. unfold hinserted. by rewrite E.
  - intros k1 v1 r out chm' L' m' Ek [= <-] Hr Hh'. apply wp_ret, wp_bind, wp_ret, wp_ret. destruct Hr as [_ Hr].
    apply (HQ _ _ L'); [cbn; rewrite Ek2, El, Ek; exact Hr|done|]. by eapply values_inserted.
Qed.

Lemma step_insert_or_get k v has : carg_ok k -> carg_ok v -> steps chm c L (HInsertOrGet k v has) m F.
Proof.
  intros Hk Hv Q HQ. cbn [run_hop]. unfold ccol_chmap_insert_or_get_elem. destruct has; cbn [negb].
  2: { apply wp_bind, wp_ret, wp_bind, wp_ret, wp_bind, wp_ret, wp_ret, (HQ _ _ L); [|done..]. cbn. by destruct (arg_key c k), (arg_val c v). }
  apply wp_bind, wp_bind.
  eapply (wp_chm_insert secret Hsecret chm c L k (to_pair v) (arg_val c v) want_slot m F); [done|done|by apply carg_value|done| |].
  - intros Hn. apply wp_ret, wp_bind, wp_ret, wp_bind, wp_ret, wp_ret, (HQ _ _ L); [|done..]. cbn. destruct Hn as [-> | ->]; [done|by destruct (arg_key c k)].
  - intros k1 v1 r out chm' L' m' Ek Ev Hr Hh'. apply wp_ret, wp_bind, wp_ret, wp_bind. unfold insert_result in Hr. cbn [hspec] in HQ. rewrite Ek, Ev in HQ.
    destruct (lookup_key _ k1 L) as [v0|] eqn:El.
    + destruct Hr as (-> & -> & k0 & _ & Hs). destruct out as [|[p|]|[a|]]; try done; cbn in Hs.
      eapply (wp_read_slot chm' c L p v0 m' F); [done|done|by eapply val_given_size|]. by apply wp_ret, (HQ _ _ L).
    + destruct Hr as [Hin Hs]. assert (values_fit c L') as Hfit' by (eapply values_inserted; [done|by eapply arg_val_fits|done]).
      destruct (decide (r = ccol_success)) as [->|Hne].
      * destruct out as [|[p|]|[a|]]; try done; cbn in Hs. eapply (wp_read_slot chm' c L' p v1 m' F); [done|done|by eapply val_given_size|].
        by apply wp_ret, (HQ _ _ L').
      * rewrite Hs. cbn. apply wp_ret, wp_ret, (HQ _ _ L'); [|done..]. split; [done|]. by rewrite decide_False.
Qed.

Lemma chained_uses : chained (Some chm) = None <-> uses_oa c = true.
Proof.
  pose proof Hh as [_ Hi]. unfold chained. destruct chm as [b procs i]. cbn in *.
  destruct i; cbn in Hi; destruct Hi as [-> _]; by split.
Qed.

Lemma step_entry k v has : carg_ok k -> carg_ok v -> steps chm c L (HEntry k v has) m F.
Proof.
  intros Hk Hv Q HQ. cbn [run_hop hspec] in *. unfold ccol_chmap_insert_or_get_entry.
  assert (has && negb (uses_oa c) = false -> wp (chm ← ub (Some chm); kv ← read_accessor chm None; mret (HPair ccol_invalid_args kv, chm)) m Q) as Hno.
  { intros E. apply wp_bind, wp_ret, wp_bind, wp_ret, wp_ret, (HQ _ _ L); [|done..]. cbn. rewrite E. by destruct (arg_key c k), (arg_val c v). }
  destruct has; cbn [negb andb] in *; [|by apply wp_bind, wp_ret, Hno].
  pose proof chained_uses as Hch. destruct (chained (Some chm)) as [sc0|]; cbn [is_given negb].
  2: { apply wp_bind, wp_ret, Hno. by rewrite (proj1 Hch). }
  assert (uses_oa c = false) as Hu by (destruct (uses_oa c); [discriminate (proj2 Hch eq_refl)|done]). rewrite Hu in HQ. cbn [negb andb] in HQ.
  apply wp_bind, wp_bind.
  eapply (wp_chm_insert secret Hsecret chm c L k (to_pair v) (arg_val c v) want_entry m F); [done|done|by apply carg_value|done| |].
  - intros Hn. apply wp_ret, wp_bind, wp_ret, wp_bind, wp_ret, wp_ret, (HQ _ _ L); [|done..]. cbn. destruct Hn as [-> | ->]; [done|by destruct (arg_key c k)].
  - intros k1 v1 r out chm' L' m' Ek Ev Hr Hh'. apply wp_ret, wp_bind, wp_ret, wp_bind. unfold insert_result in Hr. rewrite Ek, Ev in HQ.
    destruct (lookup_key _ k1 L) as [v0|] eqn:El.
    + destruct Hr as (-> & -> & k0 & Heq & Hs). destruct out as [|[p|]|[a|]]; try done; cbn in Hs. destruct Hs as (sc & n & Ei & Hn & <- & <-).
      eapply (wp_read_accessor chm' c L sc a n m' F); [done..|]. apply wp_ret, (HQ _ _ L); [|done..].
      split_and!; [done..|]. exists (node_key n). split; [done|by apply Heq].
    + destruct Hr as [Hin Hs]. assert (values_fit c L') as Hfit' by (eapply values_inserted; [done|by eapply arg_val_fits|done]).
      destruct (decide (r = ccol_success)) as [->|Hne].
      * destruct out as [|[p|]|[a|]]; try done; cbn in Hs. destruct Hs as (sc & n & Ei & Hn & <- & <-).
        eapply (wp_read_accessor chm' c L' sc a n m' F); [done..|]. by apply wp_ret, (HQ _ _ L').
      * rewrite Hs. cbn. apply wp_ret, wp_ret, (HQ _ _ L'); [|done..]. split; [done|]. by rewrite decide_False.
Qed.

Lemma step_ref k has : carg_ok k -> steps chm c L (HRef k has) m F.
Proof.
  intros Hk Q HQ. cbn [run_hop]. apply wp_bind. eapply (wp_get_elem_ref secret Hsecret chm c L k has m F); [done|done| |].
  - intros Hn. apply wp_bind, wp_ret, wp_ret, (HQ _ _ L); [|done..]. cbn. split; [done|]. destruct Hn as [-> | ->]; [done|by destruct (arg_key c k)].
  - intros k1 r out Ek -> Hr. unfold ref_answer in Hr. cbn [hspec] in HQ. rewrite Ek in HQ. unfold found_code in HQ.
    destruct (lookup_key _ k1 L) as [v|]; apply wp_bind.
    + destruct Hr as (-> & p & -> & Hp). eapply (wp_read_slot chm c L p v m F); [done|done|by eapply val_given_size|]. by apply wp_ret, (HQ _ _ L).
    + destruct Hr as [-> ->]. by apply wp_ret, wp_ret, (HQ _ _ L).
Qed.

Lemma step_accessor k has : carg_ok k -> steps chm c L (HAccessor k has) m F.
Proof.
  intros Hk Q HQ. cbn [run_hop]. apply wp_bind. eapply (wp_val_accessor secret Hsecret chm c L k has m F); [done|done| | |].
  - intros Hn. apply wp_bind, wp_ret, wp_ret, (HQ _ _ L); [|done..]. cbn. split; [done|]. destruct Hn as [-> |[-> | ->]]; [done|by destruct (arg_key c k)|].
    rewrite andb_false_r. by destruct (arg_key c k).
  - intros k1 Ek El -> Hu. apply wp_bind, wp_ret, wp_ret, (HQ _ _ L); [|done..]. cbn. unfold found_code. by rewrite Ek, Hu, El.
  - intros k1 v sc x n Ek El -> Hu Ei Hn Ev. apply wp_bind. eapply (wp_read_accessor chm c L sc x n m F); [done..|].
    apply wp_ret, (HQ _ _ L); [|done..]. cbn. unfold found_code. by rewrite Ek, Hu, El, Ev.
Qed.

Lemma step_copy k buf n : carg_ok k -> 0 <= n < two64 -> from_option (fun b => n <= zlen b) True buf -> steps chm c L (HCopy k buf n) m F.
Proof.
  intros Hk Hn Hb Q HQ. cbn [run_hop]. apply wp_bind. eapply (wp_get_elem_copy secret Hsecret chm c L k buf n m F); [done..| | |].
  - intros Hno. apply wp_ret, (HQ _ _ L); [|done..]. cbn. split; [done|]. destruct Hno as [-> |[-> | ->]]; [done|by destruct (arg_key c k)|].
    by destruct (arg_key c k), buf.
  - intros k1 b Ek -> Hn0 El. apply wp_ret, (HQ _ _ L); [|done..]. cbn. unfold found_code. rewrite Ek, El. by destruct (Z.eqb_spec n 0).
  - intros k1 b v Ek -> Hn0 El. apply wp_ret, (HQ _ _ L); [|done..]. cbn. unfold found_code. rewrite Ek, El. by destruct (Z.eqb_spec n 0).
Qed.

Lemma step_delete k : carg_ok k -> steps chm c L (HDelete k) m F.
Proof.
  intros Hk Q HQ. cbn [run_hop]. apply wp_bind. eapply (wp_chm_delete secret Hsecret chm c L k m F); [done|done| |].
  - intros E. apply wp_bind, wp_ret, wp_ret, (HQ _ _ L); [|done..]. cbn. by rewrite E.
  - intros k1 chm' m' Ek Hh'. apply wp_bind, wp_ret, wp_ret. eapply HQ; [|done|by apply values_remove]. cbn. by rewrite Ek.
Qed.

Lemma step_visit op : match op with HCount | HReset _ | HWalk _ | HIterate _ => True | _ => False end -> hop_ok op -> steps chm c L op m F.
Proof.
  intros Hop Hok Q HQ. destruct op; try done; cbn [run_hop]; apply wp_bind.
  - eapply (wp_chm_count secret chm c L m F); [done|]. by apply wp_ret, (HQ _ _ L).
  - eapply (wp_chm_reset secret Hsecret chm c L n m F); [done|done|]. intros r chm' m' Hh' H1 H2 H3. apply wp_bind, wp_ret, wp_ret.
    apply (HQ _ _ []); [done|done|constructor].
  - eapply (wp_walk_pairs secret chm c L n m F); [done|]. apply wp_ret, (HQ _ _ L); [|done..]. cbn. split; [done|].
    eexists. split; [|done]. pose proof (walk_order_spec secret chm c L m F Hh) as H. unfold met_in_order. by destruct (uses_oa c).
  - eapply (wp_chm_iterate secret Hsecret chm c L n m F); [done| |].
    + intros Hne m' Hh'. apply wp_ret, (HQ _ _ L); [|done..]. cbn. split; [done|by left].
    + intros m' Hh'. apply wp_ret, (HQ _ _ L); [|done..]. cbn. split; [done|right]. eexists. split; [|done].
      pose proof (iter_order_spec secret chm c L m F Hh) as H. unfold met_in_order. destruct (uses_oa c); [by rewrite reverse_Permutation|done].
Qed.
End Steps.

Lemma wp_run_hop chm c L op m F : map_holds chm c L m F -> values_fit c L -> hop_ok op -> steps chm c L op m F.
Proof.
  intros Hh Hf Hok. destruct op; cbn in Hok; destruct_and?;
    [by apply step_insert|by apply step_insert_from|by apply step_insert_or_get|by apply step_entry|by apply step_ref|by apply step_accessor|
     by apply step_copy|by apply step_delete|by apply step_visit..].
Qed.

Lemma wp_run_hops chm c L ops m F (Q : list hres * chashmap -> mem -> Prop) : map_holds chm c L m F -> values_fit c L -> Forall hop_ok ops ->
  (forall rs chm' L' m', hspecs c L ops rs L' -> map_holds chm' c L' m' F -> Q (rs, chm') m') ->
  wp (run_hops chm ops) m Q.
Proof.
  revert chm L m Q. induction ops as [|op ops IH]; intros chm L m Q Hh Hf Hok HQ; cbn [run_hops].
  { apply wp_ret, (HQ _ _ L); [constructor|done]. }
  apply Forall_cons in Hok as [Hop Hops]. apply wp_bind, (wp_run_hop chm c L op m F Hh Hf Hop). intros r chm1 L1 m1 Hs Hh1 Hf1.
  apply wp_bind, (IH chm1 L1); [done..|]. intros rs chm2 L2 m2 Hss Hh2. apply wp_ret, (HQ _ _ L2); [by econstructor|done].
Qed.

Lemma collected L ctx : dtor_of collect L ctx = ctx ++ L.*2.
Proof.
  revert ctx. induction L as [|[k v] L IH]; intros ctx; [by rewrite app_nil_r|]. unfold dtor_of in *. cbn. rewrite IH.
  unfold collect. by rewrite <- app_assoc.
Qed.

(** C1: a hash map, whichever backend its types select, refines a list of
    pairs through any history of insertions, insert-or-gets, lookups by
    reference, accessor and copy, deletions, resets, counts, walks and
    iterations, with any arguments, NULLs and wrong sizes among them, and
    whatever requests the allocator refuses: arguments the map refuses change
    nothing, a negative zero is the key of the positive one, a copy is the
    value cut off or filled up with zeroes, an insertion fails only for want
    of memory or at the maximal count, a walk meets the pairs and an iterator
    their reverse in the order of insertion, or in any order for an
    open-addressing map, each once; a destruction gives the destructor the
    value of every pair once and gives back every block; and a creation fails
    for the arguments it refuses or for want of memory. *)
Theorem chm_history n c procs interned ops m F : 0 <= n < two64 -> conf_ok c -> Forall hop_ok ops -> owns m ∅ F ->
  wp (chm_life n c procs interned ops) m (fun r m' => owns m' ∅ F /\
    match r with
    | inl (rs, vs) => refused n c procs = None /\ exists L, hspecs c [] ops rs L /\ vs ≡ₚ L.*2
    | inr e => match refused n c procs with
               | Some e' => e = e' /\ m' = m
               | None => e = failed_to_allocate_chashmap \/ e = failed_to_create_open_addressing_map \/ e = failed_to_create_separate_chaining_map
               end
    end).
Proof.
  intros Hn Hc Hops Ho. unfold chm_life, chashmap_create_full. apply wp_bind.
  apply (wp_chmap_create secret Hsecret n c procs interned minimum_allowed_bucket_array_size m F); [done|done|done|by exists 4|done| | |].
  - intros e E. apply wp_ret. by rewrite E.
  - intros e m' E Ho' He. apply wp_ret. by rewrite E.
  - intros chm m1 E [Hh _]. apply wp_bind, (wp_run_hops chm c [] ops m1 F); [done|constructor|done|].
    intros rs chm2 L m2 Hs Hh2. apply wp_bind. unfold chashmap_destroy_with_dtor. apply wp_bind.
    apply (wp_give_values secret collect chm2 c L [] m2 F); [done|]. intros order Hp. apply wp_bind.
    apply (wp_chm_destroy secret Hsecret chm2 c L m2 F); [done|]. intros m3 Ho3. apply wp_ret, wp_ret. split; [done|]. split; [done|].
    exists L. split; [done|]. rewrite collected. cbn. by rewrite Hp.
Qed.
End History.

(** ** Creation and the hash of a key *)
Section More.
Context {alloc : Allocator} (secret : chmap_hash_secret) (Hsecret : secret_ok secret).

(** C30: a creation with any floor for the chained array, so both the public
    and the compact one, refuses a size of zero, an equality without a hash,
    procs with a function missing and a size above the maximum, in this
    order and without an allocation; otherwise it fails only for want of
    memory, giving everything back, or makes an empty map of the backend the
    types select, whose first array is the least power of two that is at
    least the size asked for and the floor. *)
Theorem chm_creation n c procs interned sc_min m F : 0 <= n < two64 ->
  (is_given (custom_key_equality_proc c) && negb (is_given (custom_hashing_proc c)) = false -> conf_ok c) ->
  4 <= sc_min <= 16 -> is_buckets sc_min -> owns m ∅ F ->
  wp (chmap_create_impl n (key_type c) (val_type c) procs interned (custom_hashing_proc c) (custom_key_equality_proc c) sc_min) m
    (fun r m' =>
      match refused n c procs with
      | Some e => r = inr e /\ m' = m
      | None =>
          match r with
          | inl chm => created_map secret n c sc_min chm m' F /\ is_given (chained (Some chm)) = negb (uses_oa c)
          | inr e => owns m' ∅ F /\
              (e = failed_to_allocate_chashmap \/ e = failed_to_create_open_addressing_map \/ e = failed_to_create_separate_chaining_map)
          end
      end).
Proof.
  intros Hn Hc Hm Hb Ho. apply (wp_chmap_create secret Hsecret n c procs interned sc_min m F); [done..| | |].
  - intros e ->. done.
  - intros e m' -> Ho' He. done.
  - intros chm m' -> Hcr. split; [done|]. pose proof Hcr as [[_ Hi] _]. unfold chained. destruct chm as [b sl i]. cbn in Hi.
    destruct i; cbn in Hi; by destruct Hi as [-> _].
Qed.

Lemma wp_hash_key kt bs m (Q : Z -> mem -> Prop) : Forall is_byte bs -> 1 <= zlen bs < two64 -> fits kt (zlen bs) = true ->
  Q (key_hash secret (ScConfig None None kt kt 0) true (canon kt bs)) m ->
  wp (ccol_chmap_hash_key secret (Foreign bs) (zlen bs) kt) m Q.
Proof.
  intros Hb Hl Hf HQ. set (c := ScConfig None None kt kt 0). destruct (canon_ok kt bs Hb Hf) as [El Hcb].
  assert (valid_key c (canon kt bs)) as Hk.
  { split; [by rewrite El|]. split; [done|]. rewrite El. unfold fits in Hf. apply orb_true_iff in Hf as [?%Z.eqb_eq|?%Z.eqb_eq]; auto. }
  assert (conf_ok c) as Hc by by split.
  unfold ccol_chmap_hash_key. apply wp_bind. apply (wp_canonicalize read_foreign kt bs bs); [|by rewrite ztake_all|done..|].
  { intros m' Q' HQ'. cbn. zcase; [|lia]. zcase; [|lia]. apply wp_ret. by rewrite ztake_all. }
  intros p (Es & bs' & -> & Eb & Hlb). rewrite Es. apply wp_bind. cbn [pair_ptr read_foreign]. rewrite El in *. zcase; [|lia]. zcase; [|lia]. apply wp_ret.
  rewrite Eb. rewrite <- El. eapply wp_ub; [|exact HQ]. by apply (sc_hash_key secret c Hsecret Hc _ true Hk).
Qed.

(** [ccol_chmap_hash_key] reads no byte but the key's, answers in 64 bits
    and gives two keys a map without procedures takes for one the same hash:
    the two zeroes of a floating type, the encodings of one long double, and
    equal bytes. *)
Theorem hash_key_agrees kt k1 k2 m : Forall is_byte k1 -> Forall is_byte k2 -> 1 <= zlen k1 < two64 -> 1 <= zlen k2 < two64 ->
  fits kt (zlen k1) = true -> fits kt (zlen k2) = true ->
  key_eq (ScConfig None None kt kt 0) (canon kt k1) (canon kt k2) = true ->
  wp (ccol_chmap_hash_key secret (Foreign k1) (zlen k1) kt) m (fun h1 m1 =>
    wp (ccol_chmap_hash_key secret (Foreign k2) (zlen k2) kt) m1 (fun h2 m2 => m2 = m /\ h1 = h2 /\ is_word h1)).
Proof.
  intros Hb1 Hb2 Hl1 Hl2 Hf1 Hf2 E. set (c := ScConfig None None kt kt 0) in *. assert (conf_ok c) as Hc by by split.
  assert (forall k, Forall is_byte k -> 1 <= zlen k < two64 -> fits kt (zlen k) = true -> valid_key c (canon kt k)) as Hv.
  { intros k Hb Hl Hf. destruct (canon_ok kt k Hb Hf) as [El Hcb]. split; [by rewrite El|]. split; [done|]. rewrite El.
    unfold fits in Hf. apply orb_true_iff in Hf as [?%Z.eqb_eq|?%Z.eqb_eq]; auto. }
  apply wp_hash_key; [done..|]. apply wp_hash_key; [done..|]. split; [done|]. split; [apply (key_eq_hash secret c); auto|].
  apply (sc_hash_key secret c); auto.
Qed.
End More.

(** ** Concrete instances *)
Definition config_di : sc_config := ScConfig None None ccol_double ccol_int 0.
Definition config_si : sc_config := ScConfig None None ccol_string ccol_int 0.
Definition of_bytes (bs : list Z) : carg := Some (Some bs, zlen bs).
Definition zero_pos : list Z := replicate 8 0.
Definition zero_neg : list Z := replicate 7 0 ++ [128].

(** Operations for either configuration: a negative zero, an update through
    the positive one, a refused size, a copy into a longer buffer, a walk. *)
Definition some_ops (k k2 : list Z) : list hop :=
  [HInsert (of_bytes k) (of_bytes [1; 2; 3; 4]); HInsertFrom (of_bytes k2) (of_bytes k); HInsert (of_bytes k2) (of_bytes [7]);
   HInsert (Some (None, 4)) (of_bytes k); HCopy (of_bytes k) (Some [9; 9; 9; 9; 9; 9]) 5; HCount; HWalk 5; HIterate 1;
   HDelete (of_bytes k2); HCount; HReset 100].

Lemma some_ops_ok k k2 : Forall is_byte k -> Forall is_byte k2 -> zlen k < two64 -> zlen k2 < two64 -> Forall hop_ok (some_ops k k2).
Proof.
  intros H1 H2 H3 H4. pose proof (zlen_nonneg k). pose proof (zlen_nonneg k2).
  assert (forall bs, Forall is_byte bs -> 0 <= zlen bs < two64 -> carg_ok (of_bytes bs)) as Hb by (intros bs ? ?; split; [lia|split; [lia|done]]).
  unfold some_ops. repeat (apply Forall_cons; split); cbn [hop_ok]; try exact I; try (split; [|]); try (apply Hb; [done|lia]); try done;
    try (apply Hb; [by repeat constructor|done]); split; done.
Qed.

Lemma config_di_ok : conf_ok config_di.
Proof. by split. Qed.
Lemma config_si_ok : conf_ok config_si.
Proof. by split. Qed.

Lemma chm_history_witness :
  wp (@chm_life (grant_up_to 100000) secret1 20 config_di None false (some_ops zero_neg zero_pos)) mem0 (fun r m' => owns m' ∅ ∅ /\
    match r with
    | inl (rs, vs) => refused 20 config_di None = None /\ exists L, hspecs config_di [] (some_ops zero_neg zero_pos) rs L /\ vs ≡ₚ L.*2
    | inr e => match refused 20 config_di None with
               | Some e' => e = e' /\ m' = mem0
               | None => e = failed_to_allocate_chashmap \/ e = failed_to_create_open_addressing_map \/ e = failed_to_create_separate_chaining_map
               end
    end).
Proof.
  eapply wp_mono; [apply (@chm_history (grant_up_to 100000) secret1 ltac:(done) 20 config_di None false (some_ops zero_neg zero_pos) mem0 ∅);
    [done|exact config_di_ok|by apply some_ops_ok; [repeat constructor|repeat constructor|..]|exact owns_mem0]|].
  intros [[rs vs]|e] m' H; exact H.
Defined.

Definition answers (n : Z) (c : sc_config) (ops : list hop) : option (list hres * list (list Z)) :=
  match @chm_life (grant_up_to 100000) secret1 n c None false ops mem0 with Done (inl r) _ => Some r | _ => None end.

(** The two zeroes are one key, so the second insertion writes to the first's
    pair; two strings are two. *)
Example chm_runs_doubles : answers 20 config_di (some_ops zero_neg zero_pos) = Some
  ([HCode ccol_success; HCode ccol_key_already_present; HCode ccol_invalid_args; HCode ccol_invalid_args;
    HVal ccol_success (Some [1; 2; 3; 4; 0; 9]); HNum 1; HPairs (Some [(zero_pos, [1; 2; 3; 4])]);
    HPairs (Some [(zero_pos, [1; 2; 3; 4])]); HCode ccol_success; HNum 0; HCode ccol_success], []).
Proof. vm_compute. reflexivity. Qed.

Example chm_runs_strings : answers 3 config_si (some_ops [65] [66; 66]) = Some
  ([HCode ccol_success; HCode ccol_success; HCode ccol_invalid_args; HCode ccol_invalid_args;
    HVal ccol_success (Some [1; 2; 3; 4; 0; 9]); HNum 2; HPairs (Some [([65], [1; 2; 3; 4]); ([66; 66], [1; 2; 3; 4])]);
    HPairs (Some [([66; 66], [1; 2; 3; 4])]); HCode ccol_success; HNum 1; HCode ccol_success], []).
Proof. vm_compute. reflexivity. Qed.

Lemma chm_creation_witness :
  wp (@chmap_create_impl (grant_up_to 100000) 100 ccol_string ccol_int None false None None 4) mem0
    (fun r m' =>
      match refused 100 config_si None with
      | Some e => r = inr e /\ m' = mem0
      | None =>
          match r with
          | inl chm => created_map secret1 100 config_si 4 chm m' ∅ /\ is_given (chained (Some chm)) = negb (uses_oa config_si)
          | inr e => owns m' ∅ ∅ /\
              (e = failed_to_allocate_chashmap \/ e = failed_to_create_open_addressing_map \/ e = failed_to_create_separate_chaining_map)
          end
      end).
Proof.
  apply (@chm_creation (grant_up_to 100000) secret1 ltac:(done) 100 config_si None false 4 mem0 ∅);
    [done|intros _; exact config_si_ok|lia|by exists 2|exact owns_mem0].
Defined.

Lemma hash_key_agrees_witness :
  wp (ccol_chmap_hash_key secret1 (Foreign zero_neg) 8 ccol_double) mem0 (fun h1 m1 =>
    wp (ccol_chmap_hash_key secret1 (Foreign zero_pos) 8 ccol_double) m1 (fun h2 m2 => m2 = mem0 /\ h1 = h2 /\ is_word h1)).
Proof.
  apply (hash_key_agrees secret1 ltac:(done) ccol_double zero_neg zero_pos mem0); [repeat constructor; done|repeat constructor; done|done..|by vm_compute].
Defined.
