(* ===== verification/CHttp1.v ===== *)
(** * The HTTP/1 parser ([chttp1_parser.c], [internal/chttp1_parser.h])

    The byte classes, the scanners of single lines, the state of a parser and
    its state machine, translated function by function.  The part of the file
    that reads and writes sockets ([chttp1_stream_t]) is not modelled.

    A span [s[0..len)] is a list of bytes, each in [[0, 256)]; a scanner that
    moves an index forward is a function on what is left of the span.  A loop
    that is not structural has a fuel, the length of the span plus one, and
    answers [None] when it runs out; [CHttp1Lines] proves it never does.

    The bytes of the line buffer that the parser may read are those below
    [line_len]: they are the field [line], and [line_len] is its length.  A
    read at or after [line_len] is [Undefined], and so is any access to the
    heap line buffer when its block is not live, or to [line_buf] once the
    line has moved to the heap. *)
From Stdlib Require Import Strings.Byte Strings.String.
From S2P Require Import Prelude Memory CText.

#[local] Open Scope size_scope.

(** The bytes of a string literal. *)
Definition lit (s : string) : list Z :=
  (fun b => Z.of_N (Byte.to_N b)) <$> list_byte_of_string s.

Definition UINT64_MAX : Z := 18446744073709551615.

(** ** Limits and flags *)
Definition CHTTP1_MAX_LINE_LEN : Z := 8192.
Definition CHTTP1_MAX_SPILL_LINE_LEN : Z := 64 * 1024.
Definition CHTTP1_MAX_HEADER_COUNT : Z := 100.
Definition CHTTP1_MAX_TOTAL_HEADER_BYTES : Z := 64 * 1024.
Definition CHTTP1_MAX_LEADING_BLANK_LINES : Z := 25.
Definition CHTTP1_MAX_CHUNK_OVERHEAD_EXCESS : Z := 16 * 1024.

Definition F_CHUNKED : Z := 1.
Definition F_CONTENT_LENGTH : Z := 2.
Definition F_TRANSFER_ENCODING : Z := 4.
Definition F_CONNECTION_CLOSE : Z := 8.
Definition F_CONNECTION_KEEP_ALIVE : Z := 16.
Definition F_EXPECT_100_CONTINUE : Z := 32.
Definition F_CHUNK_TOO_LARGE : Z := 64.
Definition F_CHUNKED_APPLIED : Z := 128.
Definition F_OTHER_CODING : Z := 256.
Definition F_HEADERS_DONE : Z := 512.

(** ** Byte classes *)
Definition is_digit (c : Z) : bool := (c >=? 48) && (c <=? 57).

Definition is_ows (c : Z) : bool := (c =? 32) || (c =? 9).

Definition is_alpha (c : Z) : bool :=
  ((c >=? 97) && (c <=? 122)) || ((c >=? 65) && (c <=? 90)).

Definition chttp1_is_tchar (c : Z) : bool :=
  if is_alpha c || is_digit c then true
  else existsb (Z.eqb c) (lit "!#$%&'*+-.^_`|~").

Definition is_invalid_value_byte (c : Z) : bool :=
  ((c <? 32) && negb (c =? 9)) || (c =? 127).

Definition is_invalid_target_byte (c : Z) : bool := (c <=? 32) || (c =? 127).

Definition is_hexdig (c : Z) : bool :=
  is_digit c || ((c >=? 97) && (c <=? 102)) || ((c >=? 65) && (c <=? 70)).

Definition is_unreserved_or_sub_delim (c : Z) : bool :=
  if is_alpha c || is_digit c then true
  else existsb (Z.eqb c) (lit "-._~!$&'()*+,;=").

(** ** Scanning

    [while (i < len && f(s[i])) i++]: what it passes over and what it leaves. *)
Fixpoint take_while (f : Z -> bool) (s : list Z) : list Z :=
  match s with [] => [] | c :: s' => if f c then c :: take_while f s' else [] end.
Fixpoint drop_while (f : Z -> bool) (s : list Z) : list Z :=
  match s with [] => [] | c :: s' => if f c then drop_while f s' else s end.

(** [while (end > start && is_ows(v[end - 1])) end--]. *)
Definition trim_end (s : list Z) : list Z := rev (drop_while is_ows (rev s)).

Definition is_byte (b c : Z) : bool := c =? b.
Definition is_nil (s : list Z) : bool := match s with [] => true | _ => false end.

(** [tok_len == n && ccol_ascii_ncasecmp(tok, literal, n) == 0], and
    [header_name_is]. *)
Definition header_name_is (name literal : list Z) : bool :=
  (zlen name =? zlen literal) &&
  (Ascii.ccol_ascii_ncasecmp name literal (length literal) =? 0).

(** ** Numbers *)
Fixpoint decimal_digits (v : Z) (s : list Z) : option Z :=
  match s with
  | [] => Some v
  | c :: s' =>
      if negb (is_digit c) then None else
      let d := c - 48 in
      if v >? UINT64_MAX `div` 10 then None else
      let v := v ⊗ 10 in
      if v >? UINT64_MAX - d then None else decimal_digits (v ⊕ d) s'
  end.

Definition parse_uint64_decimal (s : list Z) : option Z :=
  if is_nil s then None else decimal_digits 0 s.

Definition hex_value (c : Z) : option Z :=
  if (c >=? 48) && (c <=? 57) then Some (c - 48)
  else if (c >=? 97) && (c <=? 102) then Some (c - 97 + 10)
  else if (c >=? 65) && (c <=? 70) then Some (c - 65 + 10)
  else None.

Fixpoint hex_digits (v : Z) (s : list Z) : option Z :=
  match s with
  | [] => Some v
  | c :: s' =>
      d ← hex_value c;
      if v >? UINT64_MAX `div` 16 then None else
      let v := v ⊗ 16 in
      if v >? UINT64_MAX - d then None else hex_digits (v ⊕ d) s'
  end.

Definition parse_uint64_hex (s : list Z) : option Z :=
  if is_nil s then None else hex_digits 0 s.

(** ** The host *)

(** [IPvFuture]: what follows the [v]. *)
Definition ip_future_is_valid (s : list Z) : bool :=
  let hex := take_while is_hexdig s in
  match drop_while is_hexdig s with
  | dot :: s' =>
      negb (is_nil hex) && (dot =? 46) && negb (is_nil s') &&
      forallb (fun c => is_unreserved_or_sub_delim c || (c =? 58)) s'
  | [] => false
  end.

Definition ip_literal_is_valid (s : list Z) : bool :=
  match s with
  | [] => false
  | c :: s' =>
      if (c =? 118) || (c =? 86) then ip_future_is_valid s'
      else forallb (fun c => (c =? 58) || is_hexdig c || (c =? 46)) s &&
           existsb (is_byte 58) s
  end.

(** The [reg-name] loop: [None] refuses, [Some rest] stops at a [':'] or at
    the end. *)
Fixpoint reg_name (s : list Z) : option (list Z) :=
  match s with
  | [] => Some []
  | c :: s1 =>
      if c =? 58 then Some s
      else if c =? 37 then
        match s1 with
        | a :: b :: s2 => if is_hexdig a && is_hexdig b then reg_name s2 else None
        | _ => None
        end
      else if is_unreserved_or_sub_delim c then reg_name s1 else None
  end.

Definition port_is_valid (s : list Z) : bool :=
  match s with
  | [] => true
  | c :: digits => (c =? 58) && forallb is_digit digits
  end.

Definition host_value_is_valid (v : list Z) : bool :=
  match v with
  | [] => false
  | c :: v' =>
      if c =? 91 then
        match drop_while (fun c => negb (c =? 93)) v' with
        | [] => false
        | _ :: rest =>
            ip_literal_is_valid (take_while (fun c => negb (c =? 93)) v') &&
            port_is_valid rest
        end
      else
        match reg_name v with
        | None => false
        | Some rest => negb (c =? 58) && port_is_valid rest
        end
  end.

(** ** Lists of tokens *)
Definition not_comma (c : Z) : bool := negb (c =? 44).

Record te_scan := TeScan {
  te_count : Z; te_nonfinal : bool; te_last : bool; te_any : bool; te_other : bool;
}.

(** One element of the list: an empty one is ignored. *)
Definition te_token (st : te_scan) (tok : list Z) : te_scan :=
  if is_nil tok then st else
  let is_chunked := header_name_is tok (lit "chunked") in
  TeScan (if is_chunked && (te_count st <? 2) then te_count st + 1 else te_count st)
         (te_nonfinal st || te_last st) is_chunked true
         (te_other st || negb is_chunked).

Fixpoint te_loop (fuel : nat) (st : te_scan) (v : list Z) : option te_scan :=
  match fuel with
  | O => None
  | S fuel' =>
      if is_nil v then Some st else
      let tok := drop_while is_ows (trim_end (take_while not_comma v)) in
      te_loop fuel' (te_token st tok) (tail (drop_while not_comma v))
  end.

Definition transfer_encoding_scan (v : list Z) : option te_scan :=
  te_loop (S (length v)) (TeScan 0 false false false false) v.

(** [parse_connection_tokens] on the flags. *)
Definition connection_token (fl : Z) (tok : list Z) : Z :=
  if header_name_is tok (lit "close") then Z.lor fl F_CONNECTION_CLOSE
  else if header_name_is tok (lit "keep-alive") then Z.lor fl F_CONNECTION_KEEP_ALIVE
  else fl.

Fixpoint parse_connection_tokens (fuel : nat) (fl : Z) (v : list Z) : option Z :=
  match fuel with
  | O => None
  | S fuel' =>
      if is_nil v then Some fl else
      let v := drop_while (fun c => is_ows c || (c =? 44)) v in
      let tok := trim_end (take_while not_comma v) in
      parse_connection_tokens fuel' (connection_token fl tok) (drop_while not_comma v)
  end.

(** ** Chunk extensions *)

(** The [quoted-string] loop, after the opening quote: [Some rest] is what
    follows the closing one. *)
Fixpoint quoted_string (s : list Z) : option (list Z) :=
  match s with
  | [] => None
  | c :: s1 =>
      if c =? 34 then Some s1
      else if c =? 92 then
        match s1 with
        | [] => None
        | d :: s2 => if is_invalid_value_byte d then None else quoted_string s2
        end
      else if is_invalid_value_byte c then None else quoted_string s1
  end.

(** After the ['=']. *)
Definition chunk_ext_val (s : list Z) : option (list Z) :=
  let s0 := drop_while is_ows s in
  match s0 with
  | [] => None
  | c :: s1 =>
      if c =? 34 then quoted_string s1
      else if is_nil (take_while chttp1_is_tchar s0) then None
      else Some (drop_while chttp1_is_tchar s0)
  end.

(** One extension: [None] refuses. *)
Definition chunk_ext (s : list Z) : option (list Z) :=
  match drop_while is_ows s with
  | [] => None
  | c :: s1 =>
      if negb (c =? 59) then None else
      let s2 := drop_while is_ows s1 in
      if is_nil (take_while chttp1_is_tchar s2) then None else
      let after_name := drop_while chttp1_is_tchar s2 in
      match drop_while is_ows after_name with
      | e :: s3 => if e =? 61 then chunk_ext_val s3 else Some after_name
      | [] => Some after_name
      end
  end.

Fixpoint chunk_ext_is_valid (fuel : nat) (s : list Z) : option bool :=
  match fuel with
  | O => None
  | S fuel' =>
      if is_nil s then Some true else
      match chunk_ext s with
      | None => Some false
      | Some rest => chunk_ext_is_valid fuel' rest
      end
  end.

(** ** The parser *)
Inductive chttp1_errno_t :=
  CHTTP1_OK | CHTTP1_PAUSED | CHTTP1_USER | CHTTP1_ERROR | CHTTP1_HEADERS_ONLY.

Inductive chttp1_parser_type_t := CHTTP1_PARSE_RESPONSE | CHTTP1_PARSE_REQUEST.

Definition CHTTP1_HEADERS_HAS_BODY : Z := 0.
Definition CHTTP1_HEADERS_NO_BODY : Z := 1.
Definition CHTTP1_HEADERS_DIVERT_BODY : Z := 2.

Inductive chttp1__state_t :=
  | CHTTP1_ST_FIRST_LINE | CHTTP1_ST_HEADERS | CHTTP1_ST_BODY_CONTENT_LENGTH
  | CHTTP1_ST_BODY_CHUNK_SIZE | CHTTP1_ST_BODY_CHUNK_DATA | CHTTP1_ST_BODY_CHUNK_CRLF
  | CHTTP1_ST_BODY_CHUNK_TRAILERS | CHTTP1_ST_BODY_EOF | CHTTP1_ST_MESSAGE_DONE
  | CHTTP1_ST_DEAD.

Inductive chttp1__finish_state_t :=
  CHTTP1_FINISH_SAFE | CHTTP1_FINISH_SAFE_WITH_CB | CHTTP1_FINISH_UNSAFE.

Inductive line_result_t := LINE_NEED_MORE | LINE_READY | LINE_TOO_LONG | LINE_BAD_EOL.

Inductive ph_result_t := PH_OK | PH_ERROR | PH_USER.

#[export] Instance chttp1_errno_t_eq_dec : EqDecision chttp1_errno_t.
Proof. solve_decision. Defined.
#[export] Instance chttp1_parser_type_t_eq_dec : EqDecision chttp1_parser_type_t.
Proof. solve_decision. Defined.
#[export] Instance chttp1__state_t_eq_dec : EqDecision chttp1__state_t.
Proof. solve_decision. Defined.
#[export] Instance chttp1__finish_state_t_eq_dec : EqDecision chttp1__finish_state_t.
Proof. solve_decision. Defined.

(** [struct chttp1_parser].  [data] is the context of the callbacks, which
    they are given beside the parser; [settings] is an argument of the
    operations that call back; [line_spill_mp] is the allocator.  [line] is
    [line_len] and the bytes below it, and [line_spill] is the block of the
    heap line buffer. *)
Record chttp1_parser := Parser {
  status_code : Z;
  type : chttp1_parser_type_t;
  reason : option string;
  state : chttp1__state_t;
  finish_state : chttp1__finish_state_t;
  http_major : Z;
  http_minor : Z;
  flags : Z;
  content_length : Z;
  chunk_excess : Z;
  header_count : Z;
  total_header_bytes : Z;
  leading_blank_lines : Z;
  host_count : Z;
  line_spill_enabled : bool;
  max_header_count_override : Z;
  max_total_header_bytes_override : Z;
  max_chunk_size_override : Z;
  line : list Z;
  line_spill : option nat;
  consumed : Z;
}.

Definition set_status_code (x : Z) (p : chttp1_parser) : chttp1_parser := Parser x (type p) (reason
  p) (state p) (finish_state p) (http_major p) (http_minor p) (flags p) (content_length p)
  (chunk_excess p) (header_count p) (total_header_bytes p) (leading_blank_lines p) (host_count p)
  (line_spill_enabled p) (max_header_count_override p) (max_total_header_bytes_override p)
  (max_chunk_size_override p) (line p) (line_spill p) (consumed p).
Definition set_reason (x : option string) (p : chttp1_parser) : chttp1_parser := Parser (status_code
  p) (type p) x (state p) (finish_state p) (http_major p) (http_minor p) (flags p) (content_length
  p) (chunk_excess p) (header_count p) (total_header_bytes p) (leading_blank_lines p) (host_count p)
  (line_spill_enabled p) (max_header_count_override p) (max_total_header_bytes_override p)
  (max_chunk_size_override p) (line p) (line_spill p) (consumed p).
Definition set_state (x : chttp1__state_t) (p : chttp1_parser) : chttp1_parser := Parser
  (status_code p) (type p) (reason p) x (finish_state p) (http_major p) (http_minor p) (flags p)
  (content_length p) (chunk_excess p) (header_count p) (total_header_bytes p) (leading_blank_lines
  p) (host_count p) (line_spill_enabled p) (max_header_count_override p)
  (max_total_header_bytes_override p) (max_chunk_size_override p) (line p) (line_spill p) (consumed
  p).
Definition set_finish_state (x : chttp1__finish_state_t) (p : chttp1_parser) : chttp1_parser :=
  Parser (status_code p) (type p) (reason p) (state p) x (http_major p) (http_minor p) (flags p)
  (content_length p) (chunk_excess p) (header_count p) (total_header_bytes p) (leading_blank_lines
  p) (host_count p) (line_spill_enabled p) (max_header_count_override p)
  (max_total_header_bytes_override p) (max_chunk_size_override p) (line p) (line_spill p) (consumed
  p).
Definition set_http_major (x : Z) (p : chttp1_parser) : chttp1_parser := Parser (status_code p)
  (type p) (reason p) (state p) (finish_state p) x (http_minor p) (flags p) (content_length p)
  (chunk_excess p) (header_count p) (total_header_bytes p) (leading_blank_lines p) (host_count p)
  (line_spill_enabled p) (max_header_count_override p) (max_total_header_bytes_override p)
  (max_chunk_size_override p) (line p) (line_spill p) (consumed p).
Definition set_http_minor (x : Z) (p : chttp1_parser) : chttp1_parser := Parser (status_code p)
  (type p) (reason p) (state p) (finish_state p) (http_major p) x (flags p) (content_length p)
  (chunk_excess p) (header_count p) (total_header_bytes p) (leading_blank_lines p) (host_count p)
  (line_spill_enabled p) (max_header_count_override p) (max_total_header_bytes_override p)
  (max_chunk_size_override p) (line p) (line_spill p) (consumed p).
Definition set_flags (x : Z) (p : chttp1_parser) : chttp1_parser := Parser (status_code p) (type p)
  (reason p) (state p) (finish_state p) (http_major p) (http_minor p) x (content_length p)
  (chunk_excess p) (header_count p) (total_header_bytes p) (leading_blank_lines p) (host_count p)
  (line_spill_enabled p) (max_header_count_override p) (max_total_header_bytes_override p)
  (max_chunk_size_override p) (line p) (line_spill p) (consumed p).
Definition set_content_length (x : Z) (p : chttp1_parser) : chttp1_parser := Parser (status_code p)
  (type p) (reason p) (state p) (finish_state p) (http_major p) (http_minor p) (flags p) x
  (chunk_excess p) (header_count p) (total_header_bytes p) (leading_blank_lines p) (host_count p)
  (line_spill_enabled p) (max_header_count_override p) (max_total_header_bytes_override p)
  (max_chunk_size_override p) (line p) (line_spill p) (consumed p).
Definition set_chunk_excess (x : Z) (p : chttp1_parser) : chttp1_parser := Parser (status_code p)
  (type p) (reason p) (state p) (finish_state p) (http_major p) (http_minor p) (flags p)
  (content_length p) x (header_count p) (total_header_bytes p) (leading_blank_lines p) (host_count
  p) (line_spill_enabled p) (max_header_count_override p) (max_total_header_bytes_override p)
  (max_chunk_size_override p) (line p) (line_spill p) (consumed p).
Definition set_header_count (x : Z) (p : chttp1_parser) : chttp1_parser := Parser (status_code p)
  (type p) (reason p) (state p) (finish_state p) (http_major p) (http_minor p) (flags p)
  (content_length p) (chunk_excess p) x (total_header_bytes p) (leading_blank_lines p) (host_count
  p) (line_spill_enabled p) (max_header_count_override p) (max_total_header_bytes_override p)
  (max_chunk_size_override p) (line p) (line_spill p) (consumed p).
Definition set_total_header_bytes (x : Z) (p : chttp1_parser) : chttp1_parser := Parser (status_code
  p) (type p) (reason p) (state p) (finish_state p) (http_major p) (http_minor p) (flags p)
  (content_length p) (chunk_excess p) (header_count p) x (leading_blank_lines p) (host_count p)
  (line_spill_enabled p) (max_header_count_override p) (max_total_header_bytes_override p)
  (max_chunk_size_override p) (line p) (line_spill p) (consumed p).
Definition set_leading_blank_lines (x : Z) (p : chttp1_parser) : chttp1_parser := Parser
  (status_code p) (type p) (reason p) (state p) (finish_state p) (http_major p) (http_minor p)
  (flags p) (content_length p) (chunk_excess p) (header_count p) (total_header_bytes p) x
  (host_count p) (line_spill_enabled p) (max_header_count_override p)
  (max_total_header_bytes_override p) (max_chunk_size_override p) (line p) (line_spill p) (consumed
  p).
Definition set_host_count (x : Z) (p : chttp1_parser) : chttp1_parser := Parser (status_code p)
  (type p) (reason p) (state p) (finish_state p) (http_major p) (http_minor p) (flags p)
  (content_length p) (chunk_excess p) (header_count p) (total_header_bytes p) (leading_blank_lines
  p) x (line_spill_enabled p) (max_header_count_override p) (max_total_header_bytes_override p)
  (max_chunk_size_override p) (line p) (line_spill p) (consumed p).
Definition set_line_spill_enabled (x : bool) (p : chttp1_parser) : chttp1_parser := Parser
  (status_code p) (type p) (reason p) (state p) (finish_state p) (http_major p) (http_minor p)
  (flags p) (content_length p) (chunk_excess p) (header_count p) (total_header_bytes p)
  (leading_blank_lines p) (host_count p) x (max_header_count_override p)
  (max_total_header_bytes_override p) (max_chunk_size_override p) (line p) (line_spill p) (consumed
  p).
Definition set_line (x : list Z) (p : chttp1_parser) : chttp1_parser := Parser (status_code p) (type
  p) (reason p) (state p) (finish_state p) (http_major p) (http_minor p) (flags p) (content_length
  p) (chunk_excess p) (header_count p) (total_header_bytes p) (leading_blank_lines p) (host_count p)
  (line_spill_enabled p) (max_header_count_override p) (max_total_header_bytes_override p)
  (max_chunk_size_override p) x (line_spill p) (consumed p).
Definition set_line_spill (x : option nat) (p : chttp1_parser) : chttp1_parser := Parser
  (status_code p) (type p) (reason p) (state p) (finish_state p) (http_major p) (http_minor p)
  (flags p) (content_length p) (chunk_excess p) (header_count p) (total_header_bytes p)
  (leading_blank_lines p) (host_count p) (line_spill_enabled p) (max_header_count_override p)
  (max_total_header_bytes_override p) (max_chunk_size_override p) (line p) x (consumed p).
Definition set_consumed (x : Z) (p : chttp1_parser) : chttp1_parser := Parser (status_code p) (type
  p) (reason p) (state p) (finish_state p) (http_major p) (http_minor p) (flags p) (content_length
  p) (chunk_excess p) (header_count p) (total_header_bytes p) (leading_blank_lines p) (host_count p)
  (line_spill_enabled p) (max_header_count_override p) (max_total_header_bytes_override p)
  (max_chunk_size_override p) (line p) (line_spill p) x.

Definition line_len (p : chttp1_parser) : Z := zlen (line p).

(** [parser->flags & F]. *)
Definition has_flag (F : Z) (p : chttp1_parser) : bool := negb (Z.land (flags p) F =? 0).
Definition add_flag (F : Z) (p : chttp1_parser) : chttp1_parser :=
  set_flags (Z.lor (flags p) F) p.
(** [parser->flags &= (uint16_t)~F]. *)
Definition drop_flag (F : Z) (p : chttp1_parser) : chttp1_parser :=
  set_flags (Z.land (flags p) (65535 - F)) p.

Definition is_request (p : chttp1_parser) : bool :=
  match type p with CHTTP1_PARSE_REQUEST => true | CHTTP1_PARSE_RESPONSE => false end.

Definition is_1_1_or_later (p : chttp1_parser) : bool :=
  (http_major p >? 1) || ((http_major p =? 1) && (http_minor p >=? 1)).

Definition with_reason (r : string) (p : chttp1_parser) : chttp1_parser :=
  set_reason (Some r) p.

(** [fail], [fail_already_set] and [user_error]: the parser they leave. *)
Definition fail (r : string) (p : chttp1_parser) : chttp1_parser :=
  set_state CHTTP1_ST_DEAD (with_reason r p).
Definition fail_already_set (p : chttp1_parser) : chttp1_parser :=
  set_state CHTTP1_ST_DEAD p.
Definition user_error (p : chttp1_parser) : chttp1_parser :=
  let p := set_state CHTTP1_ST_DEAD p in
  match reason p with
  | Some _ => p
  | None => with_reason "Callback reported an error" p
  end.

(** A function that runs out of fuel. *)
Definition fueled {A} (o : option A) : M A :=
  match o with Some a => mret a | None => out_of_fuel end.

Definition effective_max_total_header_bytes (p : chttp1_parser) : Z :=
  if negb (max_total_header_bytes_override p =? 0)
  then max_total_header_bytes_override p else CHTTP1_MAX_TOTAL_HEADER_BYTES.

Definition effective_max_header_count (p : chttp1_parser) : Z :=
  if negb (max_header_count_override p =? 0)
  then max_header_count_override p else CHTTP1_MAX_HEADER_COUNT.

Definition header_spill_budget (p : chttp1_parser) : Z :=
  if negb (line_spill_enabled p) then 0 else
  let max := effective_max_total_header_bytes p in
  if max >? total_header_bytes p then max ⊖ total_header_bytes p else 0.

(** *** Lifecycle *)
Definition parser_init_common (t : chttp1_parser_type_t) : chttp1_parser :=
  Parser 0 t None CHTTP1_ST_FIRST_LINE CHTTP1_FINISH_UNSAFE 0 0 0 0 0 0 0 0 0 false 0 0 0 []
    None 0.

Definition chttp1_parser_init : chttp1_parser := parser_init_common CHTTP1_PARSE_RESPONSE.
Definition chttp1_parser_init_request : chttp1_parser := parser_init_common CHTTP1_PARSE_REQUEST.

(** The overrides a caller stores before the first byte. *)
Definition set_overrides (count bytes chunk : Z) (p : chttp1_parser) : chttp1_parser :=
  Parser (status_code p) (type p) (reason p) (state p) (finish_state p) (http_major p)
    (http_minor p) (flags p) (content_length p) (chunk_excess p) (header_count p)
    (total_header_bytes p) (leading_blank_lines p) (host_count p) (line_spill_enabled p) count
    bytes chunk (line p) (line_spill p) (consumed p).

Definition chttp1_parser_enable_line_spill (p : chttp1_parser) : bool * chttp1_parser :=
  if is_request p then (false, p) else (true, set_line_spill_enabled true p).

Definition chttp1_parser_release (p : chttp1_parser) : M chttp1_parser :=
  match line_spill p with
  | None => mret p
  | Some id => _ ← _ccol_mem_free id; mret (set_line_spill None p)
  end.

(** *** Callbacks

    A callback answers an [int] and leaves the caller's context.  It reads
    the parser and does not write it, as the callbacks of [chttpclient.c] and
    [chttpserver.c] do. *)
Record chttp1_settings_t (U : Type) := Settings {
  on_header : option (chttp1_parser -> list Z -> list Z -> U -> Z * U);
  on_trailer : option (chttp1_parser -> list Z -> list Z -> U -> Z * U);
  on_request_line : option (chttp1_parser -> list Z -> list Z -> U -> Z * U);
  on_headers_complete : option (chttp1_parser -> U -> Z * U);
  on_body : option (chttp1_parser -> list Z -> U -> Z * U);
  on_message_complete : option (chttp1_parser -> U -> Z * U);
}.
Arguments Settings {U}.
Arguments on_header {U}.
Arguments on_trailer {U}.
Arguments on_request_line {U}.
Arguments on_headers_complete {U}.
Arguments on_body {U}.
Arguments on_message_complete {U}.

Definition chttp1_settings_init {U} : chttp1_settings_t U := Settings None None None None None None.

(** *** The line buffer *)
Section Parser.
Context {alloc : Allocator}.

(** An access to the heap line buffer, which must be live. *)
Definition access_spill (p : chttp1_parser) : M unit := fun m =>
  match line_spill p with
  | None => Done tt m
  | Some id => if decide (id ∈ m_live m) then Done tt m else Undefined
  end.

(** The bytes at [line_ptr(parser)], below [line_len]. *)
Definition line_ptr (p : chttp1_parser) : M (list Z) := _ ← access_spill p; mret (line p).

(** The bytes at [parser->line_buf], below [line_len]. *)
Definition line_buf (p : chttp1_parser) : M (list Z) :=
  match line_spill p with None => mret (line p) | Some _ => undefined end.

(** The size of the buffer behind [line_ptr]. *)
Definition line_storage (p : chttp1_parser) : Z :=
  match line_spill p with
  | None => CHTTP1_MAX_LINE_LEN | Some _ => CHTTP1_MAX_SPILL_LINE_LEN
  end.

(** [buf[len++] = c]. *)
Definition put_char (c : Z) (p : chttp1_parser) : M chttp1_parser :=
  _ ← access_spill p;
  if line_len p <? line_storage p then mret (set_line (line p ++ [c]) p) else undefined.

(** [memcpy(heap, line_buf, line_len)] moves the line: its bytes stay those
    of [line]. *)
Definition line_spill_grow (header_budget_left : Z) (p : chttp1_parser) :
    M (bool * chttp1_parser) :=
  if negb (line_spill_enabled p) || bool_decide (is_Some (line_spill p)) then mret (false, p) else
  if header_budget_left <=? CHTTP1_MAX_LINE_LEN then mret (false, p) else
  heap ← _ccol_mem_alloc CHTTP1_MAX_SPILL_LINE_LEN;
  match heap with
  | None => mret (false, p)
  | Some b => _ ← memcpy_in (b_bytes b) 0 (line p); mret (true, set_line_spill (Some (b_id b)) p)
  end.

Definition spill_cap (spill_budget : Z) : Z :=
  if negb (spill_budget =? 0) && (spill_budget <? CHTTP1_MAX_SPILL_LINE_LEN)
  then spill_budget else CHTTP1_MAX_SPILL_LINE_LEN.

Definition line_full (spill_budget : Z) (p : chttp1_parser) : bool :=
  line_len p >=?
    match line_spill p with Some _ => spill_cap spill_budget | None => CHTTP1_MAX_LINE_LEN end.

(** The head of the loop: whether there is room for one more byte, once the
    line may have moved.  A line that has moved does not move again, so the
    [continue] comes back here at most once. *)
Definition make_room (spill_budget : Z) (p : chttp1_parser) : M (bool * chttp1_parser) :=
  if negb (line_full spill_budget p) then mret (true, p) else
  if spill_budget =? 0 then mret (false, p) else
  '(grown, p) ← line_spill_grow spill_budget p;
  mret ((grown : bool) && negb (line_full spill_budget p), p).

(** [accumulate_line] over the bytes of [[*pp, end)]; the last component is
    what it leaves of them. *)
Fixpoint accumulate_line (spill_budget : Z) (p : chttp1_parser) (data : list Z) :
    M (line_result_t * chttp1_parser * list Z) :=
  match data with
  | [] => mret (LINE_NEED_MORE, p, [])
  | c :: rest =>
      '(room, p) ← make_room spill_budget p;
      if negb room then mret (LINE_TOO_LONG, p, []) else
      p ← put_char c p;
      if c =? 10 then
        if line_len p <? 2 then mret (LINE_BAD_EOL, p, rest) else
        b ← ub (zget (line p) (line_len p - 2));
        if negb (b =? 13) then mret (LINE_BAD_EOL, p, rest)
        else mret (LINE_READY, set_line (ztake (line_len p - 2) (line p)) p, rest)
      else accumulate_line spill_budget p rest
  end.

(** *** First lines *)

(** [HTTP/d.d] at offset [i] of the line, eight bytes of which are there: the
    parser with the version it stores, or the parser it stores a reason in. *)
Definition parse_version (s : list Z) (i : Z) (p : chttp1_parser) : M (bool * chttp1_parser) :=
  let invalid p := mret (false, with_reason "Invalid HTTP version" p) in
  if (zlen s - i <? 8) || negb (bool_decide (slice s i 5 = lit "HTTP/")) then invalid p else
  major ← ub (zget s (i + 5));
  if negb (is_digit major) then invalid p else
  let p := set_http_major (major - 48) p in
  dot ← ub (zget s (i + 6));
  if negb (dot =? 46) then invalid p else
  minor ← ub (zget s (i + 7));
  if negb (is_digit minor) then invalid p else
  mret (true, set_http_minor (minor - 48) p).

Definition parse_status_line (p : chttp1_parser) : M (bool * chttp1_parser) :=
  s ← line_ptr p;
  let len := line_len p in
  '(ok, p) ← parse_version s 0 p;
  if negb (ok : bool) then mret (false, p) else
  if 8 >=? len then mret (false, with_reason "Invalid HTTP version" p) else
  sp ← ub (zget s 8);
  if negb (sp =? 32) then mret (false, with_reason "Invalid HTTP version" p) else
  if 12 >? len then mret (false, with_reason "Invalid status code" p) else
  d0 ← ub (zget s 9);
  d1 ← ub (zget s 10);
  d2 ← ub (zget s 11);
  if negb (is_digit d0) || negb (is_digit d1) || negb (is_digit d2)
  then mret (false, with_reason "Invalid status code" p) else
  let p := set_status_code ((d0 - 48) * 100 + (d1 - 48) * 10 + (d2 - 48)) p in
  if 12 <? len then
    sp ← ub (zget s 12);
    if negb (sp =? 32) then mret (false, with_reason "Invalid status line" p)
    else if existsb is_invalid_value_byte (zdrop 13 s)
    then mret (false, with_reason "Invalid character in reason phrase" p)
    else mret (true, p)
  else mret (true, p).

Section Run.
Context {U : Type} (settings : option (chttp1_settings_t U)).

(** [if (parser->settings && parser->settings->cb) err = cb(...)]: the answer
    is [dflt] when there is no callback. *)
Definition call {F} (cb : chttp1_settings_t U -> option F) (run : F -> U -> Z * U) (dflt : Z)
    (u : U) : Z * U :=
  match settings ≫= cb with Some f => run f u | None => (dflt, u) end.

Definition parse_request_line (p : chttp1_parser) (u : U) : M (ph_result_t * chttp1_parser * U) :=
  s ← line_buf p;
  let len := line_len p in
  let error r p := mret (PH_ERROR, with_reason r p, u) in
  let method := take_while (fun c => negb (c =? 32)) s in
  let i := zlen method in
  if (i =? 0) || (i >=? len) then error "Invalid request line"%string p else
  if negb (forallb chttp1_is_tchar method) then error "Invalid method"%string p else
  let target_start := i + 1 in
  let target := take_while (fun c => negb (c =? 32)) (zdrop target_start s) in
  let i := target_start + zlen target in
  if (zlen target =? 0) || (i >=? len) then error "Invalid request line"%string p else
  if existsb is_invalid_target_byte target
  then error "Invalid character in request target"%string p else
  let i := i + 1 in
  '(ok, p) ← parse_version s i p;
  if negb (ok : bool) then mret (PH_ERROR, p, u) else
  if negb (i + 8 =? len) then error "Invalid request line"%string p else
  let (err, u) := call on_request_line (fun f => f p method target) 0 u in
  mret (if negb (err =? 0) then PH_USER else PH_OK, p, u).

(** *** Header lines *)

(** The bookkeeping of an accepted line. *)
Definition charge_line (contribution : Z) (p : chttp1_parser) : chttp1_parser :=
  set_total_header_bytes (total_header_bytes p ⊕ contribution)
    (set_header_count (header_count p ⊕ 1) p).

Definition read_content_length (value : list Z) (p : chttp1_parser) : bool * chttp1_parser :=
  if has_flag F_CONTENT_LENGTH p then (false, with_reason "Duplicate Content-Length" p) else
  match parse_uint64_decimal value with
  | None => (false, with_reason "Invalid Content-Length" p)
  | Some v => (true, set_content_length v (add_flag F_CONTENT_LENGTH p))
  end.

Definition apply_codings (st : te_scan) (p : chttp1_parser) : bool * chttp1_parser :=
  let p := if te_other st then add_flag F_OTHER_CODING p else p in
  if (te_count st >? 1) || ((te_count st >? 0) && has_flag F_CHUNKED_APPLIED p)
  then (false, with_reason "chunked can't be applied more than once" p) else
  let p := if te_count st >? 0 then add_flag F_CHUNKED_APPLIED p else p in
  if is_request p && te_nonfinal st
  then (false, with_reason "chunked must be the last Transfer-Encoding token" p) else
  (true, if te_last st then add_flag F_CHUNKED p
         else if te_any st then drop_flag F_CHUNKED p else p).

Definition read_host (value : list Z) (p : chttp1_parser) : bool * chttp1_parser :=
  let p := if host_count p <? 2 then set_host_count (host_count p + 1) p else p in
  if negb (host_value_is_valid value) then (false, with_reason "Invalid Host header value" p)
  else (true, p).

(** The effect of one header on the framing and connection state. *)
Definition interpret_header (name value : list Z) (p : chttp1_parser) :
    M (bool * chttp1_parser) :=
  if header_name_is name (lit "content-length") then mret (read_content_length value p)
  else if header_name_is name (lit "transfer-encoding") then
    let p := add_flag F_TRANSFER_ENCODING p in
    st ← fueled (transfer_encoding_scan value);
    mret (apply_codings st p)
  else if is_request p && header_name_is name (lit "host") then mret (read_host value p)
  else if header_name_is name (lit "connection") then
    fl ← fueled (parse_connection_tokens (S (length value)) (flags p) value);
    mret (true, set_flags fl p)
  else if header_name_is name (lit "expect") && header_name_is value (lit "100-continue")
  then mret (true, add_flag F_EXPECT_100_CONTINUE p)
  else mret (true, p).

Definition process_header_line (is_trailer : bool) (p : chttp1_parser) (u : U) :
    M (ph_result_t * chttp1_parser * U) :=
  let contribution := line_len p ⊕ 2 in
  let error r p := mret (PH_ERROR, with_reason r p, u) in
  if header_count p ⊕ 1 >? effective_max_header_count p
  then error "Too many headers"%string p else
  if total_header_bytes p ⊕ contribution >? effective_max_total_header_bytes p
  then error "Header block too large"%string p else
  s ← line_ptr p;
  let name := take_while (fun c => negb (c =? 58)) s in
  match drop_while (fun c => negb (c =? 58)) s with
  | [] => error "Invalid header field"%string p
  | _ :: after =>
      if is_nil name then error "Invalid header field"%string p else
      if negb (forallb chttp1_is_tchar name) then error "Invalid header field char"%string p else
      let value := trim_end (drop_while is_ows after) in
      if existsb is_invalid_value_byte value
      then error "Invalid header value char"%string p else
      if is_trailer then
        let (err, u) := call on_trailer (fun f => f p name value) 0 u in
        if negb (err =? 0) then mret (PH_USER, p, u)
        else mret (PH_OK, charge_line contribution p, u)
      else
        '(ok, p) ← interpret_header name value p;
        if negb (ok : bool) then mret (PH_ERROR, p, u) else
        if has_flag F_CONTENT_LENGTH p && has_flag F_CHUNKED p
        then error "Content-Length can't be present with chunked Transfer-Encoding"%string p else
        let (err, u) := call on_header (fun f => f p name value) 0 u in
        if negb (err =? 0) then mret (PH_USER, p, u)
        else mret (PH_OK, charge_line contribution p, u)
  end.

(** *** Chunk sizes *)
Definition parse_chunk_size_line (p : chttp1_parser) : M (bool * chttp1_parser) :=
  s ← line_ptr p;
  let len := line_len p in
  let stop c := (c =? 59) || is_ows c in
  match parse_uint64_hex (take_while (fun c => negb (stop c)) s) with
  | None => mret (false, with_reason "Invalid chunk size" p)
  | Some v =>
      let rest := drop_while (fun c => negb (stop c)) s in
      let ext := if negb (is_request p) && is_nil (drop_while is_ows rest) then [] else rest in
      ok ← fueled (chunk_ext_is_valid (S (length ext)) ext);
      if negb ok then mret (false, with_reason "Invalid chunk extension" p) else
      if negb (max_chunk_size_override p =? 0) && (v >? max_chunk_size_override p)
      then mret (false, with_reason "Chunk size exceeds configured maximum"
                          (add_flag F_CHUNK_TOO_LARGE p)) else
      let excess := chunk_excess p ⊕ len ⊕ 4 in
      let earned := if v >? (UINT64_MAX - 16) `div` 2 then UINT64_MAX else 16 ⊕ 2 ⊗ v in
      let excess := if excess >? earned then excess ⊖ earned else 0 in
      if excess >? CHTTP1_MAX_CHUNK_OVERHEAD_EXCESS
      then mret (false, with_reason "Chunk framing exceeds its data" p)
      else mret (true, set_content_length v (set_chunk_excess excess p))
  end.

(** *** The state machine

    The outcome of one pass through the [switch]: back to the head of the
    loop with what is left of the data, or a return. *)
Inductive pass :=
  | Again (p : chttp1_parser) (u : U) (rest : list Z)
  | Return (code : chttp1_errno_t) (p : chttp1_parser) (u : U).

Definition complete_message (p : chttp1_parser) (u : U) (pos : Z) : pass :=
  let (err, u) := call on_message_complete (fun f => f p) 0 u in
  if negb (err =? 0) then Return CHTTP1_USER (user_error p) u
  else Return CHTTP1_PAUSED (set_state CHTTP1_ST_MESSAGE_DONE (set_consumed pos p)) u.

Definition body_pass (take : Z) (p : chttp1_parser) (u : U) (data : list Z)
    (next : chttp1_parser -> U -> list Z -> pass) : pass :=
  let (err, u) := if take >? 0 then call on_body (fun f => f p (ztake take data)) 0 u else (0, u) in
  if negb (err =? 0) then Return CHTTP1_USER (user_error p) u
  else next (set_content_length (content_length p ⊖ take) p) u (zdrop take data).

Definition first_line_pass (p : chttp1_parser) (u : U) (data : list Z) : M pass :=
  '(lr, p, data) ← accumulate_line 0 p data;
  match lr with
  | LINE_NEED_MORE => mret (Again p u data)
  | LINE_TOO_LONG =>
      mret (Return CHTTP1_ERROR
        (fail (if is_request p then "Request line too long" else "Status line too long") p) u)
  | LINE_BAD_EOL => mret (Return CHTTP1_ERROR (fail "Expected CRLF" p) u)
  | LINE_READY =>
      if is_request p && (line_len p =? 0) then
        let p := set_leading_blank_lines (leading_blank_lines p ⊕ 1) p in
        if leading_blank_lines p >? CHTTP1_MAX_LEADING_BLANK_LINES
        then mret (Return CHTTP1_ERROR (fail "Too many leading blank lines" p) u)
        else mret (Again (set_line [] p) u data)
      else
        let contribution := line_len p ⊕ 2 in
        if total_header_bytes p ⊕ contribution >? effective_max_total_header_bytes p
        then mret (Return CHTTP1_ERROR
          (fail (if is_request p then "Request line too large" else "Status line too large") p) u)
        else
          let p := set_total_header_bytes (total_header_bytes p ⊕ contribution) p in
          '(plr, p, u) ← if is_request p then parse_request_line p u
                         else ('(ok, p) ← parse_status_line p;
                               mret (if (ok : bool) then PH_OK else PH_ERROR, p, u));
          match plr with
          | PH_ERROR => mret (Return CHTTP1_ERROR (fail_already_set p) u)
          | PH_USER => mret (Return CHTTP1_USER (user_error p) u)
          | PH_OK =>
              mret (Again (set_state CHTTP1_ST_HEADERS
                (set_finish_state CHTTP1_FINISH_UNSAFE (set_line [] p))) u data)
          end
  end.

(** The checks on a request before [on_headers_complete]: the reason it is
    refused for. *)
Definition request_refused (p : chttp1_parser) : option string :=
  if negb (is_request p) then None
  else if host_count p >? 1 then Some "Duplicate Host header"%string
  else if (host_count p =? 0) && is_1_1_or_later p then Some "Missing Host header"%string
  else if has_flag F_TRANSFER_ENCODING p && negb (is_1_1_or_later p)
  then Some "Transfer-Encoding in an HTTP/1.0 request"%string
  else if has_flag F_TRANSFER_ENCODING p && negb (has_flag F_CHUNKED p)
  then Some "Transfer-Encoding present but final encoding is not chunked"%string
  else None.

(** The framing of the body, once the headers are done. *)
Definition frame_body (no_body want_divert : bool) (p : chttp1_parser) (u : U) (pos : Z)
    (data : list Z) : pass :=
  if no_body then complete_message (set_finish_state CHTTP1_FINISH_SAFE p) u pos
  else if has_flag F_CHUNKED p then
    let p := set_finish_state CHTTP1_FINISH_UNSAFE (set_state CHTTP1_ST_BODY_CHUNK_SIZE p) in
    if want_divert then Return CHTTP1_HEADERS_ONLY (set_consumed pos p) u else Again p u data
  else if has_flag F_CONTENT_LENGTH p then
    if content_length p =? 0
    then complete_message (set_finish_state CHTTP1_FINISH_SAFE p) u pos
    else
      let p := set_finish_state CHTTP1_FINISH_UNSAFE (set_state CHTTP1_ST_BODY_CONTENT_LENGTH p) in
      if want_divert then Return CHTTP1_HEADERS_ONLY (set_consumed pos p) u else Again p u data
  else if is_request p then complete_message (set_finish_state CHTTP1_FINISH_SAFE p) u pos
  else Again (set_finish_state CHTTP1_FINISH_SAFE_WITH_CB (set_state CHTTP1_ST_BODY_EOF p)) u data.

(** The blank line that ends the header block. *)
Definition headers_done (p : chttp1_parser) (u : U) (pos : Z) (data : list Z) : pass :=
  match request_refused p with
  | Some r => Return CHTTP1_ERROR (fail r p) u
  | None =>
      let p := add_flag F_HEADERS_DONE p in
      let (hint, u) := call on_headers_complete (fun f => f p) CHTTP1_HEADERS_HAS_BODY u in
      let want_divert := (hint =? CHTTP1_HEADERS_DIVERT_BODY) && is_request p in
      if negb (hint =? CHTTP1_HEADERS_HAS_BODY) && negb (hint =? CHTTP1_HEADERS_NO_BODY) &&
         negb want_divert
      then Return CHTTP1_USER (user_error p) u
      else
        let no_body := hint =? CHTTP1_HEADERS_NO_BODY in
        let no_body := no_body ||
          (negb (is_request p) &&
           (((status_code p >=? 100) && (status_code p <? 200)) ||
            (status_code p =? 204) || (status_code p =? 304))) in
        if negb no_body && has_flag F_TRANSFER_ENCODING p && negb (has_flag F_CHUNKED p) &&
           has_flag F_CONTENT_LENGTH p
        then Return CHTTP1_ERROR
          (fail "Content-Length can't be present with a non-chunked Transfer-Encoding" p) u
        else frame_body no_body want_divert p u pos data
  end.

(** A line of a header or trailer block: [blank] is what the blank line does. *)
Definition field_line_pass (is_trailer : bool) (too_long : string) (p : chttp1_parser) (u : U)
    (data : list Z) (blank : chttp1_parser -> list Z -> pass) : M pass :=
  '(lr, p, data) ← accumulate_line (header_spill_budget p) p data;
  match lr with
  | LINE_NEED_MORE => mret (Again p u data)
  | LINE_TOO_LONG => mret (Return CHTTP1_ERROR (fail too_long p) u)
  | LINE_BAD_EOL => mret (Return CHTTP1_ERROR (fail "Expected CRLF" p) u)
  | LINE_READY =>
      if line_len p =? 0 then mret (blank p data)
      else
        '(ph, p, u) ← process_header_line is_trailer p u;
        match ph with
        | PH_ERROR => mret (Return CHTTP1_ERROR (fail_already_set p) u)
        | PH_USER => mret (Return CHTTP1_USER (user_error p) u)
        | PH_OK => mret (Again (set_line [] p) u data)
        end
  end.

Definition chunk_size_pass (p : chttp1_parser) (u : U) (data : list Z) : M pass :=
  '(lr, p, data) ← accumulate_line 0 p data;
  match lr with
  | LINE_NEED_MORE => mret (Again p u data)
  | LINE_TOO_LONG => mret (Return CHTTP1_ERROR (fail "Chunk size line too long" p) u)
  | LINE_BAD_EOL => mret (Return CHTTP1_ERROR (fail "Expected CRLF" p) u)
  | LINE_READY =>
      '(ok, p) ← parse_chunk_size_line p;
      if negb (ok : bool) then mret (Return CHTTP1_ERROR (fail_already_set p) u) else
      let p := set_line [] p in
      mret (Again (set_state (if content_length p =? 0 then CHTTP1_ST_BODY_CHUNK_TRAILERS
                              else CHTTP1_ST_BODY_CHUNK_DATA) p) u data)
  end.

Definition chunk_crlf_pass (p : chttp1_parser) (u : U) (data : list Z) : M pass :=
  '(lr, p, data) ← accumulate_line 0 p data;
  match lr with
  | LINE_NEED_MORE => mret (Again p u data)
  | LINE_READY =>
      if negb (line_len p =? 0)
      then mret (Return CHTTP1_ERROR (fail "Expected CRLF after chunk data" p) u)
      else mret (Again (set_state CHTTP1_ST_BODY_CHUNK_SIZE p) u data)
  | LINE_TOO_LONG | LINE_BAD_EOL =>
      mret (Return CHTTP1_ERROR (fail "Expected CRLF after chunk data" p) u)
  end.

(** One pass of the loop: [len] is the length of the whole buffer, so the
    position in it is [len] less what is left. *)
Definition execute_pass (len : Z) (p : chttp1_parser) (u : U) (data : list Z) : M pass :=
  let pos data := len - zlen data in
  let take := if zlen data <? content_length p then zlen data else content_length p in
  match state p with
  | CHTTP1_ST_FIRST_LINE => first_line_pass p u data
  | CHTTP1_ST_HEADERS =>
      field_line_pass false "Header line too long" p u data
        (fun p data => headers_done p u (pos data) data)
  | CHTTP1_ST_BODY_CONTENT_LENGTH =>
      mret (body_pass take p u data (fun p u data =>
        if content_length p =? 0
        then complete_message (set_finish_state CHTTP1_FINISH_SAFE p) u (pos data)
        else Again p u data))
  | CHTTP1_ST_BODY_CHUNK_SIZE => chunk_size_pass p u data
  | CHTTP1_ST_BODY_CHUNK_DATA =>
      mret (body_pass take p u data (fun p u data =>
        Again (if content_length p =? 0 then set_state CHTTP1_ST_BODY_CHUNK_CRLF p else p) u data))
  | CHTTP1_ST_BODY_CHUNK_CRLF => chunk_crlf_pass p u data
  | CHTTP1_ST_BODY_CHUNK_TRAILERS =>
      field_line_pass true "Trailer line too long" p u data
        (fun p data => complete_message (set_finish_state CHTTP1_FINISH_SAFE p) u (pos data))
  | CHTTP1_ST_BODY_EOF =>
      let (err, u) := call on_body (fun f => f p data) 0 u in
      mret (if negb (err =? 0) then Return CHTTP1_USER (user_error p) u else Again p u [])
  | CHTTP1_ST_MESSAGE_DONE | CHTTP1_ST_DEAD => mret (Return CHTTP1_ERROR p u)
  end.

Definition execute_loop (fuel : nat) (len : Z) (p : chttp1_parser) (u : U) (data : list Z) :
    M (chttp1_errno_t * chttp1_parser * U) :=
  loop fuel (fun '(p, u, data) =>
    if is_nil data then mret (inr (CHTTP1_OK, p, u)) else
    r ← execute_pass len p u data;
    mret (match r with
          | Again p u data => inl (p, u, data)
          | Return code p u => inr (code, p, u)
          end)) (p, u, data).

(** Every pass consumes a byte, but for one that finds a chunk with nothing
    left of it. *)
Definition chttp1_parser_execute (p : chttp1_parser) (u : U) (data : list Z) :
    M (chttp1_errno_t * chttp1_parser * U) :=
  match state p with
  | CHTTP1_ST_DEAD | CHTTP1_ST_MESSAGE_DONE => mret (CHTTP1_ERROR, p, u)
  | _ => execute_loop (2 * length data + 2) (zlen data) p u data
  end.

Definition chttp1_parser_finish (p : chttp1_parser) (u : U) : chttp1_errno_t * chttp1_parser * U :=
  match state p with
  | CHTTP1_ST_DEAD => (CHTTP1_ERROR, p, u)
  | CHTTP1_ST_MESSAGE_DONE => (CHTTP1_OK, p, u)
  | _ =>
      match finish_state p with
      | CHTTP1_FINISH_SAFE => (CHTTP1_OK, p, u)
      | CHTTP1_FINISH_SAFE_WITH_CB =>
          let (err, u) := call on_message_complete (fun f => f p) 0 u in
          if negb (err =? 0) then (CHTTP1_USER, user_error p, u)
          else (CHTTP1_PAUSED, set_state CHTTP1_ST_MESSAGE_DONE p, u)
      | CHTTP1_FINISH_UNSAFE => (CHTTP1_ERROR, fail "Invalid EOF state" p, u)
      end
  end.
End Run.
End Parser.

(** *** Accessors *)
Definition chttp1_parser_consumed (p : chttp1_parser) : Z := consumed p.

Definition chttp1_parser_message_complete (p : chttp1_parser) : bool :=
  bool_decide (state p = CHTTP1_ST_MESSAGE_DONE).

Definition chttp1_parser_force_close (p : chttp1_parser) : chttp1_parser :=
  add_flag F_CONNECTION_CLOSE p.

Definition chttp1_should_keep_alive (p : chttp1_parser) : bool :=
  if has_flag F_CONNECTION_CLOSE p then false
  else if negb (is_1_1_or_later p) && negb (has_flag F_CONNECTION_KEEP_ALIVE p) then false
  else if negb (is_1_1_or_later p) && has_flag F_TRANSFER_ENCODING p then false
  else negb (bool_decide (finish_state p = CHTTP1_FINISH_SAFE_WITH_CB)).

Definition chttp1_expects_continue (p : chttp1_parser) : bool :=
  is_1_1_or_later p && has_flag F_EXPECT_100_CONTINUE p.

Definition chttp1_has_other_transfer_coding (p : chttp1_parser) : bool :=
  has_flag F_OTHER_CODING p.

Definition chttp1_has_content_length (p : chttp1_parser) : bool := has_flag F_CONTENT_LENGTH p.

Definition chttp1_declared_content_length (p : chttp1_parser) : Z := content_length p.

Definition chttp1_chunk_size_limit_exceeded (p : chttp1_parser) : bool :=
  has_flag F_CHUNK_TOO_LARGE p.

Definition chttp1_request_bytes_may_remain (p : chttp1_parser) : bool :=
  if bool_decide (state p = CHTTP1_ST_MESSAGE_DONE) then false
  else if negb (has_flag F_HEADERS_DONE p) then true
  else if has_flag F_CHUNKED p then true
  else has_flag F_CONTENT_LENGTH p && (content_length p >? 0).

Definition chttp1_body_bytes_still_expected (p : chttp1_parser) : Z :=
  match state p with
  | CHTTP1_ST_BODY_CONTENT_LENGTH | CHTTP1_ST_BODY_CHUNK_DATA => content_length p
  | _ => 0
  end.
