(* ===== verification/CHttp1Lines.v ===== *)
(** * Single lines of HTTP/1: numbers, token lists, chunk extensions

    What the scanners of [CHttp1] compute, against specifications that do not
    scan: the value of a string of digits, the list a header value and its
    successors merge to, and the grammar of chunk extensions. *)
From Stdlib Require Import Strings.String.
From S2P Require Import Prelude Memory CText CHttp1.

(** ** Scanning *)
Lemma take_drop_while f s : take_while f s ++ drop_while f s = s.
Proof. induction s as [|c s IH]; [done|]. cbn. destruct (f c); [|done]. cbn. by f_equal. Qed.

Lemma take_while_true f s : Forall (fun c => f c = true) (take_while f s).
Proof. induction s as [|c s IH]; [constructor|]. cbn. destruct (f c) eqn:E; by constructor. Qed.

Lemma drop_while_head f s c r : drop_while f s = c :: r -> f c = false.
Proof.
  induction s as [|x s IH]; [done|]. cbn. destruct (f x) eqn:E; [done|]. by intros [= -> ->].
Qed.

Lemma drop_while_length f s : (length (drop_while f s) <= length s)%nat.
Proof. induction s as [|c s IH]; [done|]. cbn. destruct (f c); cbn; lia. Qed.

Lemma take_while_app f a b : Forall (fun c => f c = true) a ->
  take_while f (a ++ b) = a ++ take_while f b.
Proof. induction 1 as [|c a Hc _ IH]; [done|]. cbn. rewrite Hc. cbn. by f_equal. Qed.

Lemma drop_while_app f a b : Forall (fun c => f c = true) a ->
  drop_while f (a ++ b) = drop_while f b.
Proof. induction 1 as [|c a Hc _ IH]; [done|]. cbn. by rewrite Hc. Qed.

(** What a scan finds when the span is made of bytes it passes and one it
    stops at. *)
Lemma take_while_stop f a c b : Forall (fun c => f c = true) a -> f c = false ->
  take_while f (a ++ c :: b) = a.
Proof. intros Ha Hc. rewrite take_while_app by done. cbn. rewrite Hc. apply app_nil_r. Qed.
Lemma drop_while_stop f a c b : Forall (fun c => f c = true) a -> f c = false ->
  drop_while f (a ++ c :: b) = c :: b.
Proof. intros Ha Hc. rewrite drop_while_app by done. cbn. by rewrite Hc. Qed.
Lemma take_while_all f a : Forall (fun c => f c = true) a -> take_while f a = a.
Proof. intros Ha. pose proof (take_while_app f a [] Ha) as H. by rewrite !app_nil_r in H. Qed.
Lemma drop_while_all f a : Forall (fun c => f c = true) a -> drop_while f a = [].
Proof. intros Ha. pose proof (drop_while_app f a [] Ha) as H. by rewrite app_nil_r in H. Qed.

Lemma drop_while_id f a : match a with [] => True | c :: _ => f c = false end -> drop_while f a = a.
Proof. destruct a as [|c a]; [done|]. cbn. by intros ->. Qed.

Lemma is_nil_true s : is_nil s = true -> s = [].
Proof. by destruct s. Qed.
Lemma is_nil_false s : is_nil s = false -> s <> [].
Proof. by destruct s. Qed.

Lemma forallb_Forall_true f (s : list Z) : forallb f s = true <-> Forall (fun c => f c = true) s.
Proof. induction s as [|c s IH]; cbn; [by split|]. by rewrite andb_true_iff, IH, Forall_cons. Qed.

Lemma existsb_false_Forall f (s : list Z) :
  existsb f s = false <-> Forall (fun c => f c = false) s.
Proof.
  induction s as [|c s IH]; cbn; [by split|]. rewrite orb_false_iff, IH, Forall_cons. done.
Qed.

(** ** Numbers *)
Fixpoint digits_value (base : Z) (digit : Z -> Z) (v : Z) (s : list Z) : Z :=
  match s with [] => v | c :: s' => digits_value base digit (v * base + digit c) s' end.

Definition decimal_value (s : list Z) : Z := digits_value 10 (fun c => c - 48) 0 s.
Definition hex_digit_value (c : Z) : Z := default 0 (hex_value c).
Definition hexadecimal_value (s : list Z) : Z := digits_value 16 hex_digit_value 0 s.

Lemma digits_value_ge base digit v s :
  1 <= base -> 0 <= v -> Forall (fun c => 0 <= digit c) s -> v <= digits_value base digit v s.
Proof.
  intros Hb Hv Hs. revert v Hv. induction Hs as [|c s Hc Hs IH]; intros v Hv; cbn; [lia|].
  etransitivity; [|apply IH]; nia.
Qed.

Lemma hex_value_range c d : hex_value c = Some d -> 0 <= d < 16 /\ hex_digit_value c = d.
Proof.
  intros E. unfold hex_digit_value. rewrite E. split; [|done]. revert E. unfold hex_value.
  repeat case_match; intros [= <-]; zbool; lia.
Qed.

Lemma is_digit_range c : is_digit c = true -> 48 <= c <= 57.
Proof. unfold is_digit. intros. zbool. lia. Qed.

Lemma decimal_digits_exact v s : 0 <= v <= UINT64_MAX ->
  decimal_digits v s =
    if forallb is_digit s && (digits_value 10 (fun c => c - 48) v s <=? UINT64_MAX)
    then Some (digits_value 10 (fun c => c - 48) v s) else None.
Proof.
  revert v. induction s as [|c s IH]; intros v Hv; cbn.
  - by destruct (Z.leb_spec v UINT64_MAX); [|lia].
  - destruct (is_digit c) eqn:Hc; [|done]. apply is_digit_range in Hc. cbn [negb andb].
    destruct (forallb is_digit s) eqn:Hs.
    2:{ repeat case_match; try done. rewrite IH by (apply wrap_range || unfold UINT64_MAX;
          pose proof (wrap_range (wrap (v * 10) + (c - 48))); unfold two64 in *; lia). done. }
    assert (Hge : v * 10 + (c - 48) <= digits_value 10 (fun c => c - 48) (v * 10 + (c - 48)) s).
    { apply digits_value_ge; [lia|lia|]. apply forallb_Forall_true in Hs.
      eapply Forall_impl; [exact Hs|]. intros d Hd%is_digit_range. lia. }
    unfold UINT64_MAX in *. change (18446744073709551615 `div` 10) with 1844674407370955161.
    destruct (Z.gtb_spec v 1844674407370955161).
    { cbn [andb]. by destruct (Z.leb_spec (digits_value 10 (fun c => c - 48) (v * 10 + (c - 48)) s)
        18446744073709551615); [lia|]. }
    rewrite (wrap_small (v * 10)) by (unfold two64; lia).
    destruct (Z.gtb_spec (v * 10) (18446744073709551615 - (c - 48))).
    { cbn [andb]. by destruct (Z.leb_spec (digits_value 10 (fun c => c - 48) (v * 10 + (c - 48)) s)
        18446744073709551615); [lia|]. }
    rewrite wrap_small by (unfold two64; lia). rewrite IH by lia. done.
Qed.

Lemma hex_digits_exact v s : 0 <= v <= UINT64_MAX ->
  hex_digits v s =
    if forallb is_hexdig s && (digits_value 16 hex_digit_value v s <=? UINT64_MAX)
    then Some (digits_value 16 hex_digit_value v s) else None.
Proof.
  assert (Hhex : forall c, is_hexdig c = bool_decide (is_Some (hex_value c))).
  { intros c. unfold is_hexdig, is_digit, hex_value. by repeat case_match; zbool. }
  revert v. induction s as [|c s IH]; intros v Hv; cbn.
  - by destruct (Z.leb_spec v UINT64_MAX); [|lia].
  - rewrite Hhex. destruct (hex_value c) as [d|] eqn:Hc; [|done].
    destruct (hex_value_range _ _ Hc) as [Hd ->]. rewrite bool_decide_true by eauto. cbn [andb].
    cbn [mbind option_bind].
    destruct (forallb is_hexdig s) eqn:Hs.
    2:{ repeat case_match; try done. rewrite IH by (unfold UINT64_MAX;
          pose proof (wrap_range (wrap (v * 16) + d)); unfold two64 in *; lia). done. }
    assert (Hge : v * 16 + d <= digits_value 16 hex_digit_value (v * 16 + d) s).
    { apply digits_value_ge; [lia|lia|]. apply Forall_forall. intros e _. unfold hex_digit_value.
      destruct (hex_value e) eqn:E; cbn; [|lia]. apply hex_value_range in E. lia. }
    unfold UINT64_MAX in *. change (18446744073709551615 `div` 16) with 1152921504606846975.
    destruct (Z.gtb_spec v 1152921504606846975).
    { cbn [andb]. by destruct (Z.leb_spec (digits_value 16 hex_digit_value (v * 16 + d) s)
        18446744073709551615); [lia|]. }
    rewrite (wrap_small (v * 16)) by (unfold two64; lia).
    destruct (Z.gtb_spec (v * 16) (18446744073709551615 - d)).
    { cbn [andb]. by destruct (Z.leb_spec (digits_value 16 hex_digit_value (v * 16 + d) s)
        18446744073709551615); [lia|]. }
    rewrite wrap_small by (unfold two64; lia). rewrite IH by lia. done.
Qed.

(** A decimal or hexadecimal number is read exactly: a span is refused when it
    is empty, holds a byte that is no digit, or has a value above [UINT64_MAX],
    and otherwise its value is the answer. *)
Lemma uint64_parsing_facts s :
  parse_uint64_decimal s =
    (if negb (is_nil s) && forallb is_digit s && (decimal_value s <=? UINT64_MAX)
     then Some (decimal_value s) else None) /\
  parse_uint64_hex s =
    (if negb (is_nil s) && forallb is_hexdig s && (hexadecimal_value s <=? UINT64_MAX)
     then Some (hexadecimal_value s) else None).
Proof.
  unfold parse_uint64_decimal, parse_uint64_hex. destruct (is_nil s); cbn [negb andb]; [done|].
  split; [apply decimal_digits_exact|apply hex_digits_exact]; done.
Qed.

(** ** Flags *)
Lemma has_flag_bit k p : 0 <= k -> has_flag (2 ^ k) p = Z.testbit (flags p) k.
Proof.
  intros Hk. unfold has_flag. rewrite Z.land_comm.
  destruct (Z.testbit (flags p) k) eqn:E.
  - apply negb_true_iff, Z.eqb_neq. intros H.
    assert (Z.testbit (Z.land (2 ^ k) (flags p)) k = false) as Hb by (rewrite H; apply Z.bits_0).
    by rewrite Z.land_spec, Z.pow2_bits_true, E in Hb.
  - apply negb_false_iff, Z.eqb_eq, Z.bits_inj'. intros n Hn.
    rewrite Z.land_spec, Z.pow2_bits_eqb, Z.bits_0 by done.
    by destruct (Z.eqb_spec k n) as [<-|].
Qed.

Lemma flag_chunked p : has_flag F_CHUNKED p = Z.testbit (flags p) 0.
Proof. by apply (has_flag_bit 0). Qed.
Lemma flag_content_length p : has_flag F_CONTENT_LENGTH p = Z.testbit (flags p) 1.
Proof. by apply (has_flag_bit 1). Qed.
Lemma flag_transfer_encoding p : has_flag F_TRANSFER_ENCODING p = Z.testbit (flags p) 2.
Proof. by apply (has_flag_bit 2). Qed.
Lemma flag_close p : has_flag F_CONNECTION_CLOSE p = Z.testbit (flags p) 3.
Proof. by apply (has_flag_bit 3). Qed.
Lemma flag_keep_alive p : has_flag F_CONNECTION_KEEP_ALIVE p = Z.testbit (flags p) 4.
Proof. by apply (has_flag_bit 4). Qed.
Lemma flag_chunked_applied p : has_flag F_CHUNKED_APPLIED p = Z.testbit (flags p) 7.
Proof. by apply (has_flag_bit 7). Qed.
Lemma flag_other_coding p : has_flag F_OTHER_CODING p = Z.testbit (flags p) 8.
Proof. by apply (has_flag_bit 8). Qed.
Lemma flag_headers_done p : has_flag F_HEADERS_DONE p = Z.testbit (flags p) 9.
Proof. by apply (has_flag_bit 9). Qed.

Create HintDb flags.
#[export] Hint Rewrite flag_chunked flag_content_length flag_transfer_encoding flag_close
  flag_keep_alive flag_chunked_applied flag_other_coding flag_headers_done
  Z.lor_spec Z.land_spec orb_false_r orb_true_r andb_true_r andb_false_r : flags.

(** The fields of a parser after the setters, and the flags as bits. *)
Ltac psimpl :=
  cbn [status_code type reason state finish_state http_major http_minor flags content_length
       chunk_excess header_count total_header_bytes leading_blank_lines host_count
       line_spill_enabled max_header_count_override max_total_header_bytes_override
       max_chunk_size_override line line_spill consumed
       set_status_code set_reason set_state set_finish_state set_http_major set_http_minor
       set_flags set_content_length set_chunk_excess set_header_count set_total_header_bytes
       set_leading_blank_lines set_host_count set_line_spill_enabled set_line set_line_spill
       set_consumed with_reason add_flag drop_flag fail fail_already_set charge_line] in *.
Ltac flag_bits :=
  psimpl; autorewrite with flags in *; psimpl; autorewrite with flags in *;
  cbn [Z.testbit F_CHUNKED F_CONTENT_LENGTH F_TRANSFER_ENCODING F_CONNECTION_CLOSE
       F_CONNECTION_KEEP_ALIVE F_EXPECT_100_CONTINUE F_CHUNK_TOO_LARGE F_CHUNKED_APPLIED
       F_OTHER_CODING F_HEADERS_DONE Pos.testbit Z.sub Z.add Z.opp Z.pos_sub Pos.pred_double
       Pos.pred_N Pos.pred] in *;
  autorewrite with flags in *.

(** ** Transfer codings

    The list that a header value stands for: the elements between commas,
    trimmed, empty ones dropped. *)
Fixpoint split_commas (s : list Z) : list (list Z) :=
  match s with
  | [] => [[]]
  | c :: s' =>
      if c =? 44 then [] :: split_commas s'
      else match split_commas s' with t :: ts => (c :: t) :: ts | [] => [[c]] end
  end.

Definition trim (s : list Z) : list Z := drop_while is_ows (trim_end s).

Definition codings (v : list Z) : list (list Z) :=
  filter (fun tok => is_nil tok = false) (trim <$> split_commas v).

Definition is_chunked (tok : list Z) : bool := header_name_is tok (lit "chunked").

Lemma split_commas_head s :
  split_commas s = take_while not_comma s ::
    match drop_while not_comma s with [] => [] | _ :: rest => split_commas rest end.
Proof.
  induction s as [|c s IH]; [done|]. cbn. unfold not_comma at 1 3.
  destruct (c =? 44); cbn [negb]; [done|]. by rewrite IH.
Qed.

Lemma split_commas_app a b : split_commas (a ++ 44 :: b) = split_commas a ++ split_commas b.
Proof.
  induction a as [|c a IH]; [done|]. cbn [app split_commas]. destruct (c =? 44); [by rewrite IH|].
  rewrite IH. destruct (split_commas a) eqn:E; [|done].
  rewrite split_commas_head in E. done.
Qed.

(** The merged list of two header lines is that of one line with a comma
    between them. *)
Lemma codings_app a b : codings (a ++ 44 :: b) = codings a ++ codings b.
Proof. unfold codings. by rewrite split_commas_app, fmap_app, filter_app. Qed.

Lemma te_tokens_nil st tok : is_nil tok = true -> te_token st tok = st.
Proof. unfold te_token. by intros ->. Qed.

Lemma te_loop_spec fuel st v : (length v < fuel)%nat ->
  te_loop fuel st v = Some (foldl te_token st (codings v)).
Proof.
  revert st v. induction fuel as [|fuel IH]; intros st v Hf; [lia|]. cbn [te_loop].
  destruct v as [|c v']; [done|]. set (v := c :: v') in *. cbn [is_nil].
  change (is_nil v) with false. cbn iota.
  assert (Hc : codings v = filter (fun tok => is_nil tok = false) [trim (take_while not_comma v)] ++
    codings (tail (drop_while not_comma v))).
  { unfold codings at 1. rewrite split_commas_head. rewrite fmap_cons.
    destruct (drop_while not_comma v) as [|x rest] eqn:E; cbn [tail fmap list_fmap].
    - unfold codings. cbn. by rewrite app_nil_r.
    - rewrite !filter_cons. by case_decide. }
  rewrite Hc, foldl_app. rewrite IH.
  - f_equal. unfold trim. fold (trim (take_while not_comma v)).
    rewrite filter_cons. case_decide as Hn; [done|].
    cbn. rewrite te_tokens_nil; [done|]. by apply not_false_iff_true in Hn.
  - pose proof (drop_while_length not_comma v).
    destruct (drop_while not_comma v) eqn:E; cbn [tail length] in *; unfold v in *; cbn [length] in *; lia.
Qed.

Lemma transfer_encoding_scan_spec v :
  transfer_encoding_scan v =
  Some (foldl te_token (TeScan 0 false false false false) (codings v)).
Proof. apply te_loop_spec. lia. Qed.

Definition chunked_count (cs : list (list Z)) : Z := zlen (filter (fun c => is_chunked c = true) cs).
Definition last_chunked (cs : list (list Z)) : bool :=
  match last cs with Some c => is_chunked c | None => false end.
Definition other_coding (cs : list (list Z)) : bool := existsb (fun c => negb (is_chunked c)) cs.

Lemma chunked_count_app a b : chunked_count (a ++ b) = chunked_count a + chunked_count b.
Proof. unfold chunked_count. rewrite filter_app. apply zlen_app. Qed.
Lemma chunked_count_one c : chunked_count [c] = if is_chunked c then 1 else 0.
Proof. unfold chunked_count. rewrite filter_cons. by destruct (is_chunked c). Qed.
Lemma chunked_count_nonneg cs : 0 <= chunked_count cs.
Proof. apply zlen_nonneg. Qed.
Lemma chunked_count_existsb cs : existsb is_chunked cs = (chunked_count cs >? 0).
Proof.
  induction cs as [|c cs IH]; [done|]. change (c :: cs) with ([c] ++ cs).
  rewrite chunked_count_app, chunked_count_one, existsb_app, IH. cbn.
  pose proof (chunked_count_nonneg cs). rewrite !Z.gtb_ltb.
  destruct (is_chunked c); cbn [orb]; repeat zcase; lia || done.
Qed.
Lemma last_chunked_snoc cs c : last_chunked (cs ++ [c]) = is_chunked c.
Proof. unfold last_chunked. by rewrite last_snoc. Qed.
Lemma last_chunked_app a b :
  last_chunked (a ++ b) = if decide (b = []) then last_chunked a else last_chunked b.
Proof.
  case_decide as Hb; [by rewrite Hb, app_nil_r|]. destruct (exists_last Hb) as (b' & c & ->).
  by rewrite app_assoc, !last_chunked_snoc.
Qed.

(** Only its end is a [chunked]. *)
Definition chunked_at_end (cs : list (list Z)) : Prop :=
  exists others c, cs = others ++ [c] /\ is_chunked c = true /\ chunked_count others = 0.

Lemma chunked_at_end_iff cs :
  chunked_at_end cs <-> chunked_count cs <= 1 /\ last_chunked cs = true.
Proof.
  split.
  - intros (others & c & -> & Hc & Ho). rewrite chunked_count_app, chunked_count_one, Hc, last_chunked_snoc.
    split; [lia|done].
  - intros [Hn Hl]. destruct cs as [|x cs] using rev_ind; [done|]. exists cs, x.
    rewrite last_chunked_snoc in Hl. rewrite chunked_count_app, chunked_count_one, Hl in Hn.
    pose proof (chunked_count_nonneg cs). repeat split; [done|lia].
Qed.

(** What the scan of one line knows of its codings. *)
Definition scan_of (cs : list (list Z)) : te_scan :=
  TeScan (Z.min 2 (chunked_count cs)) (existsb is_chunked (removelast cs)) (last_chunked cs)
         (negb (bool_decide (cs = []))) (other_coding cs).

Lemma codings_not_nil v : Forall (fun tok => is_nil tok = false) (codings v).
Proof. unfold codings. apply Forall_forall. intros x Hx. by apply list_elem_of_filter in Hx as [? _]. Qed.

Lemma removelast_snoc {A} (l : list A) x : removelast (l ++ [x]) = l.
Proof. apply removelast_last. Qed.

Lemma te_scan_of cs : Forall (fun tok => is_nil tok = false) cs ->
  foldl te_token (TeScan 0 false false false false) cs = scan_of cs.
Proof.
  induction cs as [|c cs IH] using rev_ind; [done|].
  rewrite Forall_app, Forall_singleton. intros [Hcs Hc]. rewrite foldl_snoc, IH by done.
  unfold te_token. rewrite Hc. unfold scan_of. cbn [te_count te_nonfinal te_last te_any te_other].
  fold (is_chunked c). rewrite removelast_snoc, last_chunked_snoc, bool_decide_false by (by destruct cs).
  unfold other_coding. rewrite existsb_app, chunked_count_app, chunked_count_one. cbn [existsb].
  rewrite orb_false_r. pose proof (chunked_count_nonneg cs). f_equal.
  - destruct (is_chunked c); cbn [andb]; [zcase|]; lia.
  - destruct cs as [|x cs _] using rev_ind; [done|].
    rewrite removelast_snoc, last_chunked_snoc, existsb_app. cbn [existsb]. by rewrite orb_false_r.
Qed.

Lemma scan_codings v : transfer_encoding_scan v = Some (scan_of (codings v)).
Proof. rewrite transfer_encoding_scan_spec, te_scan_of; [done|apply codings_not_nil]. Qed.

(** The flags of a parser that has read lines whose codings are [cs]. *)
Record codings_read (cs : list (list Z)) (p : chttp1_parser) : Prop := CodingsRead {
  cr_applied : has_flag F_CHUNKED_APPLIED p = (chunked_count cs >? 0);
  cr_chunked : has_flag F_CHUNKED p = last_chunked cs;
  cr_other : has_flag F_OTHER_CODING p = other_coding cs;
  cr_once : chunked_count cs <= 1;
}.

Lemma apply_codings_type st p : type (apply_codings st p).2 = type p.
Proof. unfold apply_codings. by repeat case_match. Qed.

(** One more line: it is refused exactly for a second [chunked], or in a
    request for a [chunked] that is not the line's last coding. *)
Lemma apply_codings_spec cs v p :
  codings_read cs p ->
  let '(ok, p') := apply_codings (scan_of (codings v)) (add_flag F_TRANSFER_ENCODING p) in
  (ok = true -> codings_read (cs ++ codings v) p' /\ has_flag F_TRANSFER_ENCODING p' = true) /\
  (ok = true <-> chunked_count (cs ++ codings v) <= 1 /\
                 (is_request p = true -> existsb is_chunked (removelast (codings v)) = false)).
Proof.
  intros [Ha Hc Ho H1]. unfold apply_codings, scan_of.
  cbn [te_count te_nonfinal te_last te_any te_other].
  rewrite chunked_count_app. set (n := chunked_count (codings v)) in *.
  pose proof (chunked_count_nonneg cs). assert (0 <= n) by apply chunked_count_nonneg.
  set (p1 := if other_coding (codings v) then add_flag F_OTHER_CODING (add_flag F_TRANSFER_ENCODING p)
             else add_flag F_TRANSFER_ENCODING p).
  assert (Hp1 : is_request p1 = is_request p /\ has_flag F_CHUNKED p1 = last_chunked cs /\
    has_flag F_CHUNKED_APPLIED p1 = (chunked_count cs >? 0) /\
    has_flag F_OTHER_CODING p1 = other_coding cs || other_coding (codings v) /\
    has_flag F_TRANSFER_ENCODING p1 = true).
  { rewrite <- Ha, <- Hc, <- Ho. unfold p1, is_request. destruct (other_coding (codings v)); flag_bits;
      rewrite ?orb_true_r, ?orb_false_r; done. }
  destruct Hp1 as (Ht & Hc1 & Ha1 & Ho1 & Hte). clearbody p1.
  destruct ((Z.min 2 n >? 1) || ((Z.min 2 n >? 0) && has_flag F_CHUNKED_APPLIED p1)) eqn:E.
  { split; [done|]. split; [done|]. intros [Hle _]. rewrite Ha1, !Z.gtb_ltb in E.
    revert E. repeat zcase; cbn; intros; try done; lia. }
  assert (Hle : chunked_count cs + n <= 1).
  { rewrite Ha1, !Z.gtb_ltb in E. revert E. repeat zcase; cbn; intros; try done; lia. }
  set (p2 := if Z.min 2 n >? 0 then add_flag F_CHUNKED_APPLIED p1 else p1).
  assert (Hp2 : is_request p2 = is_request p /\ has_flag F_CHUNKED p2 = last_chunked cs /\
    has_flag F_CHUNKED_APPLIED p2 = (chunked_count cs + n >? 0) /\
    has_flag F_OTHER_CODING p2 = other_coding cs || other_coding (codings v) /\
    has_flag F_TRANSFER_ENCODING p2 = true).
  { rewrite <- Ho1, <- Hte, <- Ht, <- Hc1. unfold p2, is_request. rewrite !Z.gtb_ltb in *.
    destruct (Z.ltb_spec 0 (Z.min 2 n)); [|replace n with 0 by lia; rewrite Z.add_0_r; done].
    flag_bits. repeat split; try done. by zcase; [|lia]. }
  destruct Hp2 as (Ht2 & Hc2 & Ha2 & Ho2 & Hte2). clearbody p2.
  destruct (is_request p2 && existsb is_chunked (removelast (codings v))) eqn:Er.
  { split; [done|]. split; [done|]. intros [_ Hr]. rewrite Ht2 in Er. apply andb_true_iff in Er as [Hq Hx].
    by rewrite Hr in Hx. }
  split; [intros _|].
  2:{ split; [intros _|done]. split; [lia|]. intros Hq. rewrite Ht2, Hq in Er. done. }
  assert (Hoc : other_coding (cs ++ codings v) = other_coding cs || other_coding (codings v))
    by apply existsb_app.
  assert (Hl : last_chunked (cs ++ codings v) =
    if last_chunked (codings v) then true
    else if negb (bool_decide (codings v = [])) then false else last_chunked cs).
  { rewrite last_chunked_app. destruct (decide (codings v = [])) as [->|Hn]; [done|].
    rewrite bool_decide_false by done. by destruct (last_chunked (codings v)). }
  split; [split|]; rewrite ?Hoc, ?chunked_count_app, ?Hl; fold n; [..|done|];
    destruct (last_chunked (codings v)), (negb (bool_decide (codings v = []))); flag_bits;
    rewrite ?andb_true_r; done.
Qed.

Lemma header_name_is_len name literal :
  header_name_is name literal = true -> zlen name = zlen literal.
Proof. unfold header_name_is. intros. by zbool. Qed.

Lemma header_name_other name literal other : header_name_is name literal = true ->
  zlen literal <> zlen other -> header_name_is name other = false.
Proof.
  intros Hl%header_name_is_len Hne. unfold header_name_is. by destruct (Z.eqb_spec (zlen name) (zlen other)); [congruence|].
Qed.

(** The lines [name: v] for the values [vs], as [process_header_line] reads
    them one after the other. *)
Fixpoint read_lines (name : list Z) (vs : list (list Z)) (p : chttp1_parser) :
    M (bool * chttp1_parser) :=
  match vs with
  | [] => mret (true, p)
  | v :: vs' =>
      '(ok, p) ← interpret_header name v p;
      if (ok : bool) then read_lines name vs' p else mret (false, p)
  end.

(** The value that the lines merge to. *)
Definition merged_value (vs : list (list Z)) : list Z :=
  foldr (fun v acc => v ++ 44 :: acc) [] vs.

Lemma interpret_transfer_encoding name v p m :
  header_name_is name (lit "transfer-encoding") = true ->
  interpret_header name v p m =
  Done (apply_codings (scan_of (codings v)) (add_flag F_TRANSFER_ENCODING p)) m.
Proof.
  intros Hn. unfold interpret_header. rewrite Hn, (header_name_other _ _ (lit "content-length") Hn) by done.
  by rewrite scan_codings.
Qed.

Lemma chunked_in_the_middle cs v more :
  existsb is_chunked (removelast v) = true -> ~ chunked_at_end (cs ++ v ++ more).
Proof.
  intros Hm. destruct v as [|x v _] using rev_ind; [done|]. rewrite removelast_snoc in Hm.
  rewrite chunked_at_end_iff, <- app_assoc, (app_assoc cs), chunked_count_app, last_chunked_app.
  rewrite chunked_count_app. rewrite chunked_count_existsb, Z.gtb_ltb in Hm. apply Z.ltb_lt in Hm.
  pose proof (chunked_count_nonneg cs). rewrite decide_False by (by destruct more).
  intros [Hn Hl]. destruct ([x] ++ more) as [|y l _] using rev_ind; [done|].
  rewrite last_chunked_snoc in Hl. rewrite chunked_count_app, chunked_count_one, Hl in Hn.
  pose proof (chunked_count_nonneg l). lia.
Qed.

Lemma read_codings name vs cs p m :
  header_name_is name (lit "transfer-encoding") = true -> codings_read cs p ->
  let all := cs ++ codings (merged_value vs) in
  exists ok p', read_lines name vs p m = Done (ok, p') m /\ type p' = type p /\
    (ok = true -> codings_read all p') /\
    (is_request p = false -> ok = true <-> chunked_count all <= 1) /\
    (ok = false -> ~ chunked_at_end all).
Proof.
  intros Hn. revert cs p. induction vs as [|v vs IH]; intros cs p Hcs; cbn zeta.
  - exists true, p. cbn [merged_value foldr]. unfold codings. cbn. rewrite app_nil_r.
    split; [done|]. split; [done|]. split; [done|]. split; [|done]. intros _.
    split; [intros _; apply Hcs|done].
  - cbn [read_lines merged_value foldr]. fold (merged_value vs). rewrite codings_app, app_assoc.
    pose proof (apply_codings_spec cs v p Hcs) as Hs.
    pose proof (apply_codings_type (scan_of (codings v)) (add_flag F_TRANSFER_ENCODING p)) as Ht.
    unfold mbind, M_bind. rewrite interpret_transfer_encoding by done.
    destruct (apply_codings _ _) as [ok p1]. cbn in Ht. destruct Hs as [Hok Hiff], ok.
    + destruct (IH (cs ++ codings v) p1 ltac:(by apply Hok)) as (ok & p2 & -> & Ht2 & H2 & H3 & H4).
      exists ok, p2. unfold is_request in *. rewrite Ht2, Ht in *. done.
    + exists false, p1. split; [done|]. split; [done|]. split; [done|].
      assert (Hbad : 1 < chunked_count (cs ++ codings v) \/
        is_request p = true /\ existsb is_chunked (removelast (codings v)) = true).
      { destruct (Z_le_gt_dec (chunked_count (cs ++ codings v)) 1) as [Hle|]; [right|lia].
        destruct (is_request p), (existsb is_chunked (removelast (codings v))); try done;
          assert (false = true) by (apply Hiff; split; [done|intros; done || congruence]); done. }
      rewrite chunked_at_end_iff, chunked_count_app.
      pose proof (chunked_count_nonneg (codings (merged_value vs))).
      split; [intros Hq|intros _].
      * split; [done|]. destruct Hbad as [|[? _]]; [lia|congruence].
      * destruct Hbad as [|[_ Hm]]; [lia|]. rewrite <- chunked_count_app, <- chunked_at_end_iff, <- app_assoc.
        by apply chunked_in_the_middle.
Qed.

(** C20: the [Transfer-Encoding] lines of a message are read as the one list
    they merge to, empty elements ignored.  A response is refused exactly when
    [chunked] occurs twice in it.  The lines of a request are accepted and
    frame it as chunked exactly when the list ends in its only [chunked]; and
    lines that are accepted leave the flags at what the merged list says. *)
Theorem transfer_codings_merge name vs p m :
  header_name_is name (lit "transfer-encoding") = true ->
  has_flag F_CHUNKED p = false -> has_flag F_CHUNKED_APPLIED p = false ->
  has_flag F_OTHER_CODING p = false ->
  let cs := codings (merged_value vs) in
  exists ok p', read_lines name vs p m = Done (ok, p') m /\
    (ok = true -> has_flag F_CHUNKED p' = last_chunked cs /\
                  chttp1_has_other_transfer_coding p' = other_coding cs) /\
    (is_request p = false -> ok = true <-> chunked_count cs <= 1) /\
    (is_request p = true ->
     ok = true /\ has_flag F_CHUNKED p' = true <-> chunked_at_end cs).
Proof.
  intros Hn Hc Ha Ho cs.
  destruct (read_codings name vs [] p m Hn) as (ok & p' & -> & _ & Hok & Hres & Hbad); [by split|].
  cbn [app] in *. fold cs in Hok, Hres, Hbad. exists ok, p'. split; [done|].
  split; [|split; [done|]].
  - intros Ht. destruct (Hok Ht). done.
  - intros _. rewrite chunked_at_end_iff in *. destruct ok.
    + destruct (Hok eq_refl) as [_ -> _ ?]. by split; intros [??].
    + split; [by intros [? _]|]. intros H. by destruct (Hbad eq_refl).
Qed.

Lemma transfer_codings_merge_witness :
  let p := chttp1_parser_init_request in
  exists ok p', read_lines (lit "Transfer-Encoding") [lit "gzip"; lit ", Chunked ,"; lit ""] p (Mem 0 ∅) =
      Done (ok, p') (Mem 0 ∅) /\ ok = true /\ has_flag F_CHUNKED p' = true.
Proof.
  destruct (transfer_codings_merge (lit "Transfer-Encoding") [lit "gzip"; lit ", Chunked ,"; lit ""]
    chttp1_parser_init_request (Mem 0 ∅)) as (ok & p' & H & _ & _ & Hr);
    [vm_compute; reflexivity|done|done|done|].
  exists ok, p'. split; [done|]. apply Hr; [done|]. apply chunked_at_end_iff. vm_compute. done.
Defined.
