(* ===== verification/CHttp1Grammar.v ===== *)
(** * The grammars of HTTP/1 header values

    The chunk extensions of RFC 9112 7.1.1 as an inductive grammar, and the
    proof that the check of the parser accepts exactly what it derives.  The
    host of RFC 9112 3.2 with its IPv6 addresses, and the grammar the parser
    checks instead, which reads an IPv6 address by its characters and wants a
    host that is not empty: the check accepts exactly the second, and the
    second takes in every host of the first that is not empty. *)
From Stdlib Require Import Strings.String.
From S2P Require Import Prelude Memory CText CHttp1 CHttp1Lines.

Abbreviation all f s := (Forall (fun c => f c = true) s).

(** ** Byte classes *)

(** A byte of a token, of white space and of a quoted string. *)
Lemma tchar_not c : chttp1_is_tchar c = true -> is_ows c = false /\ c <> 59 /\ c <> 61 /\ c <> 34.
Proof.
  intros H. assert (Hne : forall d, chttp1_is_tchar d = false -> c <> d) by (intros d Hd ->; congruence).
  unfold is_ows. destruct (Z.eqb_spec c 32); [by destruct (Hne 32)|].
  destruct (Z.eqb_spec c 9); [by destruct (Hne 9)|]. split; [done|]. split_and!; by apply Hne.
Qed.

Lemma ows_not c : is_ows c = true -> chttp1_is_tchar c = false /\ c <> 59 /\ c <> 61 /\ c <> 34.
Proof. unfold is_ows. intros [->%Z.eqb_eq| ->%Z.eqb_eq]%orb_true_iff; done. Qed.

Definition token (s : list Z) : Prop := s <> [] /\ all chttp1_is_tchar s.

(** [qdtext], and what may follow a backslash. *)
Definition qdtext (c : Z) : Prop := (c = 9 \/ 32 <= c) /\ c <> 127 /\ c <> 34 /\ c <> 92.
Definition quotable (c : Z) : Prop := (c = 9 \/ 32 <= c) /\ c <> 127.

Lemma invalid_value_byte c : is_invalid_value_byte c = false <-> quotable c.
Proof.
  unfold is_invalid_value_byte, quotable.
  destruct (Z.ltb_spec c 32), (Z.eqb_spec c 9), (Z.eqb_spec c 127); cbn; split; try done; lia.
Qed.

(** ** Chunk extensions *)

(** What follows the opening quote of a [quoted-string]. *)
Inductive quoted : list Z -> Prop :=
  | quoted_end : quoted [34]
  | quoted_text c s : qdtext c -> quoted s -> quoted (c :: s)
  | quoted_pair c s : quotable c -> quoted s -> quoted (92 :: c :: s).

Definition ext_val (s : list Z) : Prop := token s \/ exists q, s = 34 :: q /\ quoted q.

Inductive chunk_exts : list Z -> Prop :=
  | exts_none : chunk_exts []
  | exts_name b1 b2 name rest :
      all is_ows b1 -> all is_ows b2 -> token name -> chunk_exts rest ->
      chunk_exts (b1 ++ 59 :: b2 ++ name ++ rest)
  | exts_val b1 b2 name b3 b4 val rest :
      all is_ows b1 -> all is_ows b2 -> token name -> all is_ows b3 -> all is_ows b4 ->
      ext_val val -> chunk_exts rest ->
      chunk_exts (b1 ++ 59 :: b2 ++ name ++ b3 ++ 61 :: b4 ++ val ++ rest).

Lemma quoted_string_sound s rest : quoted_string s = Some rest ->
  exists q, s = q ++ rest /\ quoted q.
Proof.
  revert rest. induction s as [s IH] using (induction_ltof1 _ (@List.length Z)); unfold ltof in IH.
  intros rest. destruct s as [|c s1]; [done|]. cbn [quoted_string].
  destruct (Z.eqb_spec c 34) as [->|H34]; [intros [= ->]; exists [34]; split; [done|constructor]|].
  destruct (Z.eqb_spec c 92) as [->|H92].
  - destruct s1 as [|d s2]; [done|]. destruct (is_invalid_value_byte d) eqn:Ed; [done|]. intros E.
    apply invalid_value_byte in Ed. destruct (IH s2 ltac:(cbn; lia) rest E) as (q & -> & Hq).
    exists (92 :: d :: q). split; [done|by constructor].
  - destruct (is_invalid_value_byte c) eqn:Ec; [done|]. intros E. apply invalid_value_byte in Ec.
    destruct (IH s1 ltac:(cbn; lia) rest E) as (q & -> & Hq).
    exists (c :: q). split; [done|]. constructor; [|done]. split; [apply Ec|]. split; [apply Ec|done].
Qed.

Lemma quoted_string_complete q rest : quoted q -> quoted_string (q ++ rest) = Some rest.
Proof.
  induction 1 as [|c s (Hr & H127 & H34 & H92) Hs IH|c s Hc Hs IH]; cbn [app quoted_string]; [done|..].
  - destruct (Z.eqb_spec c 34); [done|]. destruct (Z.eqb_spec c 92); [done|].
    assert (is_invalid_value_byte c = false) as -> by by apply invalid_value_byte. done.
  - change (92 =? 34) with false. change (92 =? 92) with true. cbn iota.
    apply invalid_value_byte in Hc. by rewrite Hc.
Qed.

(** What a list of extensions starts with. *)
Lemma chunk_exts_head s : chunk_exts s ->
  match s with [] => True | c :: _ => chttp1_is_tchar c = false end /\
  match drop_while is_ows s with [] => True | c :: _ => c = 59 end.
Proof.
  assert (Hb : forall b t, all is_ows b ->
    match b ++ 59 :: t with [] => True | c :: _ => chttp1_is_tchar c = false end /\
    match drop_while is_ows (b ++ 59 :: t) with [] => True | c :: _ => c = 59 end).
  { intros b t Hb. split; [|by rewrite drop_while_stop].
    destruct Hb as [|c b Hc]; [done|]. by destruct (ows_not c Hc). }
  destruct 1; [done|by apply Hb..].
Qed.

Lemma token_scan name rest : token name ->
  match rest with [] => True | c :: _ => chttp1_is_tchar c = false end ->
  take_while chttp1_is_tchar (name ++ rest) = name /\
  drop_while chttp1_is_tchar (name ++ rest) = rest /\ is_nil name = false.
Proof.
  intros [Hne Ht] Hr. assert (is_nil name = false) by (by destruct name). destruct rest as [|c rest].
  - rewrite app_nil_r. by rewrite take_while_all, drop_while_all.
  - by rewrite take_while_stop, drop_while_stop.
Qed.

Lemma token_head name rest : token name -> exists c s, name ++ rest = c :: s /\
  chttp1_is_tchar c = true.
Proof. intros [Hne Ht]. destruct Ht as [|c name Hc Ht]; [done|]. by eexists _, _. Qed.

Lemma drop_ows_token b name rest : all is_ows b -> token name ->
  drop_while is_ows (b ++ name ++ rest) = name ++ rest.
Proof.
  intros Hb Hn. destruct (token_head name rest Hn) as (c & s & -> & Hc).
  apply drop_while_stop; [done|]. by destruct (tchar_not c Hc).
Qed.

Lemma chunk_ext_val_complete b4 val rest : all is_ows b4 -> ext_val val ->
  match rest with [] => True | c :: _ => chttp1_is_tchar c = false end ->
  chunk_ext_val (b4 ++ val ++ rest) = Some rest.
Proof.
  intros Hb Hv Hr. unfold chunk_ext_val. destruct Hv as [Ht|(q & -> & Hq)].
  - rewrite drop_ows_token by done. destruct (token_head val rest Ht) as (c & s & E & Hc).
    destruct (token_scan val rest Ht Hr) as (Hts & Hds & Hn). rewrite Hts, Hds, Hn, E.
    apply tchar_not in Hc as (_ & _ & _ & Hc). by destruct (Z.eqb_spec c 34).
  - cbn [app]. rewrite drop_while_stop by done. by apply quoted_string_complete.
Qed.

Lemma chunk_ext_complete s : chunk_exts s -> s <> [] ->
  exists rest, chunk_ext s = Some rest /\ chunk_exts rest.
Proof.
  destruct 1 as [|b1 b2 name rest Hb1 Hb2 Hn Hr|b1 b2 name b3 b4 val rest Hb1 Hb2 Hn Hb3 Hb4 Hv Hr];
    intros Hne; [done|..]; exists rest; (split; [|done]); unfold chunk_ext;
    rewrite drop_while_stop by done; change (negb (59 =? 59)) with false; cbn iota;
    rewrite drop_ows_token by done.
  - destruct (chunk_exts_head rest Hr) as [Hh Hd].
    destruct (token_scan name rest Hn Hh) as (-> & -> & ->).
    destruct (drop_while is_ows rest) as [|c r]; [done|]. by rewrite Hd.
  - assert (Hh : match b3 ++ 61 :: b4 ++ val ++ rest with [] => True | c :: _ => chttp1_is_tchar c = false end)
      by (destruct Hb3 as [|c b3 Hc]; [done|by destruct (ows_not c Hc)]).
    destruct (token_scan name _ Hn Hh) as (-> & -> & ->).
    rewrite drop_while_stop by done. apply chunk_ext_val_complete; [done|done|by apply chunk_exts_head].
Qed.

Lemma is_nil_take f s : is_nil (take_while f s) = false -> take_while f s <> [].
Proof. by destruct (take_while f s). Qed.

Lemma scanned_token s : is_nil (take_while chttp1_is_tchar s) = false ->
  token (take_while chttp1_is_tchar s).
Proof. intros H. split; [by apply is_nil_take|apply take_while_true]. Qed.

Lemma chunk_ext_val_sound s rest : chunk_ext_val s = Some rest ->
  exists b v, s = b ++ v ++ rest /\ all is_ows b /\ ext_val v.
Proof.
  unfold chunk_ext_val. intros E. pose proof (take_drop_while is_ows s) as Hs.
  exists (take_while is_ows s). pose proof (take_while_true is_ows s) as Ht.
  destruct (drop_while is_ows s) as [|c s1]; [done|]. destruct (Z.eqb_spec c 34) as [->|].
  - destruct (quoted_string_sound _ _ E) as (q & -> & Hq). exists (34 :: q).
    split; [by symmetry|]. split; [done|right; eauto].
  - destruct (is_nil _) eqn:Hn; [done|]. injection E as <-.
    exists (take_while chttp1_is_tchar (c :: s1)).
    split; [by rewrite take_drop_while|]. split; [done|left; by apply scanned_token].
Qed.

Lemma chunk_ext_sound s rest : chunk_ext s = Some rest -> chunk_exts rest -> chunk_exts s.
Proof.
  unfold chunk_ext. intros E Hr. rewrite <- (take_drop_while is_ows s).
  destruct (drop_while is_ows s) as [|c s1]; [done|]. destruct (Z.eqb_spec c 59) as [->|]; [|done].
  cbn [negb] in E. rewrite <- (take_drop_while is_ows s1). set (s2 := drop_while is_ows s1) in *.
  destruct (is_nil (take_while chttp1_is_tchar s2)) eqn:Hn; [done|]. apply scanned_token in Hn.
  rewrite <- (take_drop_while chttp1_is_tchar s2). set (s3 := drop_while chttp1_is_tchar s2) in *.
  assert (Hname : rest = s3 -> chunk_exts (take_while is_ows s ++ 59 :: take_while is_ows s1 ++
    take_while chttp1_is_tchar s2 ++ s3)).
  { intros <-. constructor; try done; apply take_while_true. }
  rewrite <- (take_drop_while is_ows s3). destruct (drop_while is_ows s3) as [|e s4] eqn:E3.
  { rewrite <- E3, take_drop_while. apply Hname. congruence. }
  destruct (Z.eqb_spec e 61) as [->|].
  2:{ rewrite <- E3, take_drop_while. apply Hname. congruence. }
  destruct (chunk_ext_val_sound _ _ E) as (b & v & -> & Hb & Hv).
  constructor; try done; apply take_while_true.
Qed.

Lemma quoted_string_length s rest : quoted_string s = Some rest -> (length rest < length s)%nat.
Proof.
  intros (q & -> & Hq)%quoted_string_sound. rewrite length_app. destruct Hq; cbn; lia.
Qed.

Lemma chunk_ext_length s rest : chunk_ext s = Some rest -> (length rest < length s)%nat.
Proof.
  unfold chunk_ext. pose proof (drop_while_length is_ows s) as H0.
  destruct (drop_while is_ows s) as [|c s1]; [done|]. cbn [length] in H0.
  destruct (negb (c =? 59)); [done|]. pose proof (drop_while_length is_ows s1).
  set (s2 := drop_while is_ows s1) in *. destruct (is_nil _); [done|].
  pose proof (drop_while_length chttp1_is_tchar s2). set (s3 := drop_while chttp1_is_tchar s2) in *.
  pose proof (drop_while_length is_ows s3) as H3.
  destruct (drop_while is_ows s3) as [|e s4]; [intros [= <-]; lia|]. cbn [length] in H3.
  destruct (e =? 61); [|intros [= <-]; lia].
  intros (b & v & -> & _ & Hv)%chunk_ext_val_sound. rewrite !length_app in H3.
  lia.
Qed.

Lemma chunk_ext_is_valid_iff fuel s : (length s < fuel)%nat ->
  exists b, chunk_ext_is_valid fuel s = Some b /\ (b = true <-> chunk_exts s).
Proof.
  revert s. induction fuel as [|fuel IH]; intros s Hf; [lia|]. cbn [chunk_ext_is_valid].
  destruct s as [|c s']; [exists true; split; [done|by split; [constructor|]]|].
  cbn [is_nil]. set (s := c :: s') in *. destruct (chunk_ext s) as [rest|] eqn:E.
  - pose proof (chunk_ext_length _ _ E). destruct (IH rest ltac:(lia)) as (b & -> & Hb).
    exists b. split; [done|]. rewrite Hb. split; [by apply chunk_ext_sound|].
    intros (rest' & E' & Hr)%chunk_ext_complete; [|done]. by assert (rest = rest') as -> by congruence.
  - exists false. split; [done|]. split; [done|]. intros (rest' & E' & _)%chunk_ext_complete; [|done].
    by rewrite E' in E.
Qed.

(** ** Hosts *)
Definition host_char (c : Z) : Prop := is_unreserved_or_sub_delim c = true.

Inductive reg_name_of : list Z -> Prop :=
  | reg_none : reg_name_of []
  | reg_char c s : host_char c -> reg_name_of s -> reg_name_of (c :: s)
  | reg_pct a b s : is_hexdig a = true -> is_hexdig b = true -> reg_name_of s ->
      reg_name_of (37 :: a :: b :: s).

Inductive ip_literal : list Z -> Prop :=
  | ip_future v hex rest : v = 118 \/ v = 86 -> hex <> [] -> all is_hexdig hex ->
      rest <> [] -> Forall (fun c => host_char c \/ c = 58) rest ->
      ip_literal (v :: hex ++ 46 :: rest)
  | ip_v6 s : Forall (fun c => is_hexdig c = true \/ c = 58 \/ c = 46) s -> 58 ∈ s ->
      ip_literal s.

(** The grammar of the check; [ip_v6] is wider than the RFC's. *)
Definition port_of (s : list Z) : Prop :=
  s = [] \/ exists digits, s = 58 :: digits /\ all is_digit digits.

Inductive host_of : list Z -> Prop :=
  | host_literal l port : ip_literal l -> port_of port -> host_of (91 :: l ++ 93 :: port)
  | host_name name port : name <> [] -> reg_name_of name -> port_of port -> host_of (name ++ port).

Lemma port_is_valid_iff s : port_is_valid s = true <-> port_of s.
Proof.
  unfold port_of. destruct s as [|c s]; cbn; [by split; [left|]|].
  rewrite andb_true_iff, forallb_Forall_true, Z.eqb_eq. split.
  - intros [-> Hd]. right. eauto.
  - intros [|(d & [= -> ->] & Hd)]; done.
Qed.

Lemma host_char_not c : host_char c -> c <> 58 /\ c <> 37 /\ c <> 91 /\ c <> 93.
Proof.
  unfold host_char. intros H.
  assert (Hne : forall d, is_unreserved_or_sub_delim d = false -> c <> d) by (intros d Hd ->; congruence).
  split_and!; by apply Hne.
Qed.

Lemma hexdig_not c : is_hexdig c = true -> c <> 46 /\ c <> 93 /\ c <> 118 /\ c <> 86 /\ c <> 58.
Proof.
  intros H. assert (Hne : forall d, is_hexdig d = false -> c <> d) by (intros d Hd ->; congruence).
  split_and!; by apply Hne.
Qed.

Lemma reg_name_sound s rest : reg_name s = Some rest ->
  exists name, s = name ++ rest /\ reg_name_of name /\
    match rest with [] => True | c :: _ => c = 58 end /\
    (forall c s', s = c :: s' -> c <> 58 -> name <> []).
Proof.
  revert rest. induction s as [s IH] using (induction_ltof1 _ (@List.length Z)); unfold ltof in IH.
  intros rest. destruct s as [|c s1]; cbn [reg_name].
  { intros [= <-]. exists []. split_and!; [done|constructor|done|done]. }
  destruct (Z.eqb_spec c 58) as [->|H58].
  { intros [= <-]. exists []. split_and!; [done|constructor|done|]. by intros ?? [= <- <-]. }
  destruct (Z.eqb_spec c 37) as [->|H37].
  - destruct s1 as [|a [|b s2]]; [done|done|]. destruct (is_hexdig a) eqn:Ha, (is_hexdig b) eqn:Hb; try done.
    intros E. destruct (IH s2 ltac:(cbn; lia) rest E) as (name & -> & Hn & Hr & _).
    exists (37 :: a :: b :: name). split_and!; [done|by constructor|done|done].
  - destruct (is_unreserved_or_sub_delim c) eqn:Hc; [|done]. intros E.
    destruct (IH s1 ltac:(cbn; lia) rest E) as (name & -> & Hn & Hr & _).
    exists (c :: name). split_and!; [done|by constructor|done|done].
Qed.

Lemma reg_name_complete name port : reg_name_of name -> port_of port ->
  reg_name (name ++ port) = Some port.
Proof.
  intros Hn Hp. induction Hn as [|c s Hc Hs IH|a b s Ha Hb Hs IH]; cbn [app reg_name].
  - destruct Hp as [->|(d & -> & _)]; done.
  - apply host_char_not in Hc as Hn. destruct (Z.eqb_spec c 58), (Z.eqb_spec c 37); try tauto.
    by rewrite Hc.
  - by rewrite Ha, Hb.
Qed.

Lemma ip_future_iff s : ip_future_is_valid s = true <->
  exists hex rest, s = hex ++ 46 :: rest /\ hex <> [] /\ all is_hexdig hex /\ rest <> [] /\
    Forall (fun c => host_char c \/ c = 58) rest.
Proof.
  assert (Hall : forall r, forallb (fun c => is_unreserved_or_sub_delim c || (c =? 58)) r = true <->
    Forall (fun c => host_char c \/ c = 58) r).
  { intros r. rewrite forallb_Forall_true. apply Forall_iff. intros c.
    by rewrite orb_true_iff, Z.eqb_eq. }
  unfold ip_future_is_valid. split.
  - pose proof (take_drop_while is_hexdig s) as Hs. pose proof (take_while_true is_hexdig s) as Ht.
    destruct (drop_while is_hexdig s) as [|dot rest]; [done|].
    rewrite !andb_true_iff, !negb_true_iff, Z.eqb_eq, Hall. intros [[[Hh ->] Hr] Ha].
    exists (take_while is_hexdig s), rest. split_and!; [done|by apply is_nil_false|done|by apply is_nil_false|done].
  - intros (hex & rest & -> & Hh & Hx & Hr & Ha). rewrite take_while_stop, drop_while_stop by done.
    rewrite !andb_true_iff, !negb_true_iff, Hall. split_and!; [by destruct hex|done|by destruct rest|done].
Qed.

Lemma ip_literal_iff s : ip_literal_is_valid s = true <-> ip_literal s.
Proof.
  assert (H6 : forallb (fun c => (c =? 58) || is_hexdig c || (c =? 46)) s && existsb (is_byte 58) s = true <->
    Forall (fun c => is_hexdig c = true \/ c = 58 \/ c = 46) s /\ 58 ∈ s).
  { rewrite andb_true_iff, forallb_Forall_true, existsb_exists.
    apply ZifyClasses.and_morph.
    - apply Forall_iff. intros c. rewrite !orb_true_iff, !Z.eqb_eq. tauto.
    - unfold is_byte. setoid_rewrite Z.eqb_eq. rewrite list_elem_of_In. naive_solver. }
  unfold ip_literal_is_valid. destruct s as [|c s1].
  { split; [done|]. inversion 1 as [|? _ Hin]; [done..|]. set_solver. }
  destruct ((c =? 118) || (c =? 86)) eqn:Ev.
  - rewrite orb_true_iff, !Z.eqb_eq in Ev. rewrite ip_future_iff. split.
    + intros (hex & rest & -> & Hh & Hx & Hr & Ha). by apply ip_future.
    + inversion 1 as [? hex rest|? Hf]; simplify_eq; [by eauto 10|].
      apply Forall_cons in Hf as [[Hh|Hh] _]; [apply hexdig_not in Hh|]; lia.
  - rewrite orb_false_iff, !Z.eqb_neq in Ev. rewrite H6. split.
    + intros [??]. by apply ip_v6.
    + inversion 1; simplify_eq; [lia|done].
Qed.

Lemma ip_literal_no_bracket s : ip_literal s -> all (fun c => negb (c =? 93)) s.
Proof.
  assert (Hh : forall c, is_hexdig c = true -> negb (c =? 93) = true).
  { intros c Hc%hexdig_not. by destruct (Z.eqb_spec c 93); [lia|]. }
  destruct 1 as [v hex rest Hv _ Hx _ Hr|s Hs _].
  - constructor; [by destruct Hv as [-> | ->]|]. apply Forall_app. split; [by eapply Forall_impl|].
    constructor; [done|]. eapply Forall_impl; [exact Hr|]. intros c [Hc%host_char_not| ->]; [|done].
    by destruct (Z.eqb_spec c 93); [lia|].
  - eapply Forall_impl; [exact Hs|]. intros c [Hc|[-> | ->]]; [by apply Hh|done..].
Qed.

Lemma host_value_iff v : host_value_is_valid v = true <-> host_of v.
Proof.
  unfold host_value_is_valid. split.
  - destruct v as [|c v']; [done|]. destruct (Z.eqb_spec c 91) as [->|H91].
    + set (nb := fun c => negb (c =? 93)). pose proof (take_drop_while nb v') as Hv.
      destruct (drop_while nb v') as [|x rest] eqn:E; [done|].
      apply drop_while_head in E. unfold nb in E. apply negb_false_iff, Z.eqb_eq in E as ->.
      rewrite andb_true_iff, ip_literal_iff, port_is_valid_iff. intros [Hl Hp].
      rewrite <- Hv. by constructor.
    + destruct (reg_name (c :: v')) as [rest|] eqn:E; [|done].
      rewrite andb_true_iff, negb_true_iff, Z.eqb_neq, port_is_valid_iff. intros [Hc Hp].
      apply reg_name_sound in E as (name & Heq & Hn & _ & Hne). rewrite Heq.
      apply host_name; [by eapply Hne|done..].
  - destruct 1 as [l port Hl Hp|name port Hne Hn Hp].
    + change (91 =? 91) with true. cbn iota. pose proof (ip_literal_no_bracket l Hl).
      rewrite take_while_stop, drop_while_stop by done.
      by rewrite andb_true_iff, ip_literal_iff, port_is_valid_iff.
    + pose proof (reg_name_complete name port Hn Hp) as E.
      assert (Hc : exists c s, name ++ port = c :: s /\ c <> 58 /\ c <> 91).
      { destruct Hn as [|c s Hc%host_char_not|]; [done|..]; eexists _, _; (split; [done|]); lia. }
      destruct Hc as (c & s & Hcs & H58 & H91). rewrite E, Hcs.
      destruct (Z.eqb_spec c 91), (Z.eqb_spec c 58); try done. by apply port_is_valid_iff.
Qed.

(** *** The hosts of the RFC

    [IPv6address] of RFC 3986 3.2.2: eight groups of sixteen bits, the last two
    of which may be an IPv4 address, with at most one run of groups left out
    for two colons. *)
Definition h16 (s : list Z) : Prop := 1 <= zlen s <= 4 /\ all is_hexdig s.

(** [n] times a group with its colon. *)
Inductive groups : nat -> list Z -> Prop :=
  | groups_none : groups 0 []
  | groups_more n g s : h16 g -> groups n s -> groups (S n) (g ++ 58 :: s).

(** The groups before the two colons: none, or [n] with a colon each and one
    more. *)
Inductive prefix : nat -> list Z -> Prop :=
  | prefix_none : prefix 0 []
  | prefix_some n s g : groups n s -> h16 g -> prefix (S n) (s ++ g).

(** A decimal from 0 to 255 without a leading zero. *)
Definition dec_octet (s : list Z) : Prop :=
  exists n, 0 <= n <= 255 /\
    s = if n <? 10 then [48 + n] else if n <? 100 then [48 + n / 10; 48 + n `mod` 10]
        else [48 + n / 100; 48 + (n / 10) `mod` 10; 48 + n `mod` 10].
Definition ipv4_address (s : list Z) : Prop :=
  exists a b c d, s = a ++ 46 :: b ++ 46 :: c ++ 46 :: d /\ dec_octet a /\ dec_octet b /\ dec_octet c /\ dec_octet d.

Definition ls32 (s : list Z) : Prop :=
  (exists a b, s = a ++ 58 :: b /\ h16 a /\ h16 b) \/ ipv4_address s.

Inductive ipv6_address : list Z -> Prop :=
  | ipv6_full s t : groups 6 s -> ls32 t -> ipv6_address (s ++ t)
  | ipv6_ls32 p n a s t : prefix p a -> groups n s -> ls32 t -> (p + n <= 5)%nat -> ipv6_address (a ++ 58 :: 58 :: s ++ t)
  | ipv6_h16 p a t : prefix p a -> h16 t -> (p <= 6)%nat -> ipv6_address (a ++ 58 :: 58 :: t)
  | ipv6_end p a : prefix p a -> (p <= 7)%nat -> ipv6_address (a ++ [58; 58]).

(** [uri-host \[ ":" port \]]; an IPv4 address is a registered name. *)
Inductive rfc_host : list Z -> Prop :=
  | rfc_ipv6 l port : ipv6_address l -> port_of port -> rfc_host (91 :: l ++ 93 :: port)
  | rfc_future v hex rest port : v = 118 \/ v = 86 -> hex <> [] -> all is_hexdig hex ->
      rest <> [] -> Forall (fun c => host_char c \/ c = 58) rest -> port_of port ->
      rfc_host (91 :: (v :: hex ++ 46 :: rest) ++ 93 :: port)
  | rfc_name name port : reg_name_of name -> port_of port -> rfc_host (name ++ port).

Definition ipv6_char (c : Z) : Prop := is_hexdig c = true \/ c = 58 \/ c = 46.

Lemma h16_chars s : h16 s -> Forall ipv6_char s.
Proof. intros [_ H]. eapply Forall_impl; [exact H|]. by left. Qed.

Lemma groups_chars n s : groups n s -> Forall ipv6_char s.
Proof.
  induction 1 as [|n g s Hg _ IH]; [constructor|]. apply Forall_app. split; [by apply h16_chars|].
  constructor; [by right; left|done].
Qed.

Lemma prefix_chars n s : prefix n s -> Forall ipv6_char s.
Proof. destruct 1 as [|n s g Hs Hg]; [constructor|]. apply Forall_app. split; [by eapply groups_chars|by apply h16_chars]. Qed.

Lemma digit_char n : 0 <= n <= 9 -> ipv6_char (48 + n).
Proof. intros Hn. left. unfold is_hexdig, is_digit. destruct (Z.leb_spec 48 (48 + n)), (Z.leb_spec (48 + n) 57); done || lia. Qed.

Lemma octet_chars s : dec_octet s -> Forall ipv6_char s.
Proof.
  intros (n & Hn & ->). pose proof (Z.mod_pos_bound n 10 ltac:(lia)). pose proof (Z.mod_pos_bound (n / 10) 10 ltac:(lia)).
  pose proof (Z.div_pos n 10 ltac:(lia) ltac:(lia)). pose proof (Z.div_pos n 100 ltac:(lia) ltac:(lia)).
  pose proof (Z.div_lt_upper_bound n 100 10 ltac:(lia) ltac:(lia)).
  destruct (Z.ltb_spec n 10); [|destruct (Z.ltb_spec n 100)];
    repeat first [apply List.Forall_cons | apply List.Forall_nil]; apply digit_char; try lia.
  pose proof (Z.div_lt_upper_bound n 10 10 ltac:(lia) ltac:(lia)). lia.
Qed.

Lemma ls32_chars s : ls32 s -> Forall ipv6_char s.
Proof.
  assert (ipv6_char 46) as Hdot by (by right; right).
  intros [(a & b & -> & Ha & Hb)|(a & b & c & d & -> & Ha & Hb & Hc & Hd)].
  - apply Forall_app. split; [by apply h16_chars|]. constructor; [by right; left|by apply h16_chars].
  - repeat (apply Forall_app; split; [by apply octet_chars|]; constructor; [done|]). by apply octet_chars.
Qed.

Lemma ipv6_literal s : ipv6_address s -> ip_literal s.
Proof.
  assert (ipv6_char 58) as Hcolon by (by right; left).
  intros H. apply ip_v6; destruct H as [s t Hs Ht|p n a s t Hp Hs Ht _|p a t Hp Ht _|p a Hp _];
    try (rewrite ?elem_of_app, ?elem_of_cons; tauto).
  - apply Forall_app. split; [by eapply groups_chars|by apply ls32_chars].
  - apply Forall_app. split; [by eapply prefix_chars|]. do 2 (constructor; [done|]).
    apply Forall_app. split; [by eapply groups_chars|by apply ls32_chars].
  - apply Forall_app. split; [by eapply prefix_chars|]. do 2 (constructor; [done|]). by apply h16_chars.
  - apply Forall_app. split; [by eapply prefix_chars|by repeat constructor].
  - inversion Hs; subst. rewrite !elem_of_app, elem_of_cons. tauto.
Qed.

(** A host with no name: nothing, or a port alone. *)
Lemma rfc_host_of s : rfc_host s -> host_of s \/ port_of s.
Proof.
  destruct 1 as [l port Hl Hp|v hex rest port Hv Hh Hx Hr Ha Hp|name port Hn Hp].
  - left. apply host_literal; [by apply ipv6_literal|done].
  - left. apply host_literal; [by apply ip_future|done].
  - destruct name as [|c name]; [by right|]. left. by apply host_name.
Qed.

(** C21: the parser accepts exactly the chunk extensions of RFC 9112, and the
    check ends.  It accepts exactly the [Host] values of its own grammar,
    which reads an IPv6 address by its characters; among them is every value
    the RFC derives, but for an empty host, with a port or without, which is
    refused. *)
Theorem values_follow_grammar s :
  (exists b, chunk_ext_is_valid (S (length s)) s = Some b /\ (b = true <-> chunk_exts s)) /\
  (host_value_is_valid s = true <-> host_of s) /\
  (rfc_host s -> host_value_is_valid s = negb (bool_decide (hd 58 s = 58))).
Proof.
  split; [apply chunk_ext_is_valid_iff; lia|]. split; [apply host_value_iff|]. intros H.
  destruct (rfc_host_of s H) as [Ho|Hp].
  - rewrite (proj2 (host_value_iff s) Ho). rewrite bool_decide_eq_false_2; [done|].
    destruct Ho as [l port _ _|name port Hne Hn _]; [done|].
    destruct Hn as [|c name Hc%host_char_not|]; [done|cbn; lia|done].
  - destruct Hp as [->|(d & -> & _)]; [done|]. rewrite bool_decide_eq_true_2 by done. done.
Qed.

(** The second grammar is wider: four colons are no address. *)
Lemma hexdig_head c s : is_hexdig c = true -> forall s', c :: s <> 58 :: s'.
Proof. intros Hc%hexdig_not s' [= -> _]. lia. Qed.

Lemma h16_head g s s' : h16 g -> g ++ s <> 58 :: s'.
Proof.
  intros [Hl Hh]. destruct g as [|c g]; [rewrite zlen_nil in Hl; lia|]. apply Forall_cons in Hh as [Hc _]. by apply hexdig_head.
Qed.

Lemma groups_head n g s s' : groups (S n) g -> g ++ s <> 58 :: s'.
Proof. inversion 1; subst. rewrite <- app_assoc. by apply h16_head. Qed.

Lemma prefix_head n a s s' : prefix (S n) a -> a ++ s <> 58 :: s'.
Proof.
  inversion 1 as [|? b g Hb Hg]; subst. rewrite <- app_assoc. destruct n; [inversion Hb; subst; cbn [app]; exact (h16_head g s s' Hg)|by eapply groups_head].
Qed.

Lemma ls32_head t s' : ls32 t -> t <> 58 :: s'.
Proof.
  intros [(a & b & -> & Ha & _)|(a & b & c & d & -> & (n & Hn & ->) & _)]; [by apply h16_head|].
  pose proof (Z.div_pos n 10 ltac:(lia) ltac:(lia)). pose proof (Z.div_pos n 100 ltac:(lia) ltac:(lia)).
  pose proof (Z.div_lt_upper_bound n 100 10 ltac:(lia) ltac:(lia)).
  destruct (Z.ltb_spec n 10); [|destruct (Z.ltb_spec n 100)]; intros [= E _]; try lia.
  pose proof (Z.div_lt_upper_bound n 10 10 ltac:(lia) ltac:(lia)). lia.
Qed.

Lemma colons_no_address : ~ ipv6_address [58; 58; 58; 58].
Proof.
  inversion 1 as [s t Hs Ht E|p n a s t Hp Hs Ht _ E|p a t Hp Ht _ E|p a Hp _ E].
  - by eapply groups_head in E.
  - destruct p; [inversion Hp; subst|by eapply prefix_head in E]. injection E as E.
    destruct n; [inversion Hs; subst; by eapply ls32_head in E|by eapply groups_head in E].
  - destruct p; [inversion Hp; subst|by eapply prefix_head in E]. injection E as E.
    rewrite <- (app_nil_r t) in E. by eapply h16_head in E.
  - destruct p; [inversion Hp; subst; done|by eapply prefix_head in E].
Qed.

Example literal_not_rfc : host_value_is_valid [91; 58; 58; 58; 58; 93] = true /\ ~ ipv6_address [58; 58; 58; 58].
Proof. split; [reflexivity|apply colons_no_address]. Qed.

(** The loopback address, with a port. *)
Lemma values_follow_grammar_witness :
  rfc_host [91; 58; 58; 49; 93; 58; 56; 48] /\ host_value_is_valid [91; 58; 58; 49; 93; 58; 56; 48] = true.
Proof.
  assert (rfc_host [91; 58; 58; 49; 93; 58; 56; 48]) as H.
  { apply (rfc_ipv6 [58; 58; 49] [58; 56; 48]); [|right; exists [56; 48]; by repeat constructor].
    apply (ipv6_h16 0 [] [49]); [constructor|split; [done|by repeat constructor]|lia]. }
  split; [exact H|]. apply (proj2 (proj2 (values_follow_grammar [91; 58; 58; 49; 93; 58; 56; 48])) H).
Defined.
