(* ===== verification/CHttp1Parser.v ===== *)
(** * The HTTP/1 parser: its invariant

    The states a parser can be in, what each promises about the framing of
    the message, the bounds on every counter, and that every pass of
    [chttp1_parser_execute] keeps them: no read of a byte that was not
    written, no write past the line buffer, no loop without an end, and no
    block leaked or freed twice. *)
From Stdlib Require Import Strings.String.
From S2P Require Import Prelude Memory CText CHttp1 CHttp1Lines CHttp1Grammar.
#[local] Open Scope size_scope.

(** ** The invariant *)

(** The block of the heap line buffer. *)
Definition spill_own (p : chttp1_parser) : gset nat :=
  match line_spill p with Some id => {[id]} | None => ∅ end.

(** The bounds that hold in every state. *)
Record bounded (p : chttp1_parser) : Prop := Bounded {
  bd_count_max : 0 <= max_header_count_override p <= ccol_max_elem_count;
  bd_bytes_max : 0 <= max_total_header_bytes_override p <= ccol_max_elem_count;
  bd_line : line_len p <= line_storage p;
  bd_spill : is_Some (line_spill p) -> line_spill_enabled p = true;
  bd_request : line_spill_enabled p = true -> is_request p = false;
  bd_count : 0 <= header_count p <= effective_max_header_count p;
  bd_bytes : 0 <= total_header_bytes p <= effective_max_total_header_bytes p;
  bd_blank : 0 <= leading_blank_lines p <= CHTTP1_MAX_LEADING_BLANK_LINES + 1;
  bd_host : 0 <= host_count p <= 2;
  bd_major : 0 <= http_major p <= 9;
  bd_minor : 0 <= http_minor p <= 9;
  bd_status : 0 <= status_code p <= 999;
  bd_content : 0 <= content_length p <= UINT64_MAX;
  bd_excess : 0 <= chunk_excess p <= CHTTP1_MAX_CHUNK_OVERHEAD_EXCESS;
}.

(** The header block is read, and a request passed the checks on it. *)
Definition headers_read (p : chttp1_parser) : Prop :=
  has_flag F_HEADERS_DONE p = true /\
  (is_request p = true ->
   host_count p <= 1 /\ (is_1_1_or_later p = true -> host_count p = 1) /\
   (has_flag F_TRANSFER_ENCODING p = true ->
    is_1_1_or_later p = true /\ has_flag F_CHUNKED p = true)).

Definition chunk_framed (p : chttp1_parser) : Prop :=
  has_flag F_CHUNKED p = true /\ has_flag F_TRANSFER_ENCODING p = true /\
  has_flag F_CONTENT_LENGTH p = false /\ finish_state p = CHTTP1_FINISH_UNSAFE /\ headers_read p.

(** What each state says of the framing. *)
Definition framed (p : chttp1_parser) : Prop :=
  match state p with
  | CHTTP1_ST_FIRST_LINE =>
      has_flag F_CHUNKED p = false /\ has_flag F_CONTENT_LENGTH p = false /\
      has_flag F_HEADERS_DONE p = false /\ finish_state p = CHTTP1_FINISH_UNSAFE /\
      leading_blank_lines p <= CHTTP1_MAX_LEADING_BLANK_LINES
  | CHTTP1_ST_HEADERS =>
      has_flag F_CONTENT_LENGTH p && has_flag F_CHUNKED p = false /\
      (has_flag F_CHUNKED p = true -> has_flag F_TRANSFER_ENCODING p = true) /\
      has_flag F_HEADERS_DONE p = false /\ finish_state p = CHTTP1_FINISH_UNSAFE
  | CHTTP1_ST_BODY_CONTENT_LENGTH =>
      has_flag F_CONTENT_LENGTH p = true /\ has_flag F_TRANSFER_ENCODING p = false /\
      0 < content_length p /\ finish_state p = CHTTP1_FINISH_UNSAFE /\ headers_read p
  | CHTTP1_ST_BODY_CHUNK_DATA => chunk_framed p /\ 0 < content_length p
  | CHTTP1_ST_BODY_CHUNK_SIZE | CHTTP1_ST_BODY_CHUNK_CRLF | CHTTP1_ST_BODY_CHUNK_TRAILERS =>
      chunk_framed p
  | CHTTP1_ST_BODY_EOF =>
      is_request p = false /\ has_flag F_CHUNKED p = false /\
      has_flag F_CONTENT_LENGTH p = false /\
      finish_state p = CHTTP1_FINISH_SAFE_WITH_CB /\ headers_read p
  | CHTTP1_ST_MESSAGE_DONE => finish_state p <> CHTTP1_FINISH_UNSAFE /\ headers_read p
  | CHTTP1_ST_DEAD => is_Some (reason p)
  end.

Record parser_ok (p : chttp1_parser) : Prop := ParserOk {
  ok_bounded : bounded p;
  ok_framed : framed p;
}.

(** What no call to [chttp1_parser_execute] changes. *)
Definition settled (p : chttp1_parser) :=
  (type p, line_spill_enabled p, max_header_count_override p, max_total_header_bytes_override p,
   max_chunk_size_override p).

Definition alive (p : chttp1_parser) : Prop :=
  state p <> CHTTP1_ST_DEAD /\ state p <> CHTTP1_ST_MESSAGE_DONE.

Section Invariant.
Context {alloc : Allocator}.

(** ** The line buffer *)
Lemma wp_access_spill p m F Q : owns m (spill_own p) F -> Q tt m -> wp (access_spill p) m Q.
Proof.
  intros Ho HQ. unfold wp, access_spill. destruct (line_spill p) as [id|] eqn:E; [|done].
  rewrite decide_True; [done|]. destruct Ho as [-> _ _]. unfold spill_own. rewrite E. set_solver.
Qed.

Lemma wp_line_ptr p m F Q : owns m (spill_own p) F -> Q (line p) m -> wp (line_ptr p) m Q.
Proof. intros. unfold line_ptr. apply wp_bind. by eapply wp_access_spill. Qed.

Lemma wp_line_buf p m Q : bounded p -> is_request p = true -> Q (line p) m -> wp (line_buf p) m Q.
Proof.
  intros Hb Hr HQ. unfold line_buf. destruct (line_spill p) eqn:E; [|done].
  pose proof (bd_request _ Hb (bd_spill _ Hb ltac:(rewrite E; eauto))). congruence.
Qed.

Lemma spill_cap_range b : 0 <= b -> 0 < spill_cap b <= CHTTP1_MAX_SPILL_LINE_LEN.
Proof.
  intros Hb. unfold spill_cap, CHTTP1_MAX_SPILL_LINE_LEN. cbn [negb].
  destruct (Z.eqb_spec b 0), (Z.ltb_spec b (64 * 1024)); cbn; lia.
Qed.

(** [p'] is [p] with another line in the buffer, which may have moved. *)
Definition line_changed (p p' : chttp1_parser) : Prop :=
  p' = set_line (line p') (set_line_spill (line_spill p') p) /\
  line_len p' <= line_storage p' /\
  (is_Some (line_spill p') -> line_spill_enabled p = true).

Lemma line_changed_refl p : bounded p -> line_changed p p.
Proof. intros Hb. split; [by destruct p|]. split; apply Hb. Qed.

Lemma line_changed_trans p q r : line_changed p q -> line_changed q r -> line_changed p r.
Proof.
  intros (Hq & _ & _) (Hr & Hl & Hs). split; [|split; [done|]].
  - rewrite Hr, Hq. by destruct p, q, r.
  - rewrite Hq in Hs. done.
Qed.

Lemma wp_line_spill_grow b p m F Q : line_len p <= line_storage p -> owns m (spill_own p) F ->
  (forall m', owns m' (spill_own p) F -> Q (false, p) m') ->
  (forall id m', line_spill p = None -> line_spill_enabled p = true ->
     owns m' {[id]} F -> Q (true, set_line_spill (Some id) p) m') ->
  wp (line_spill_grow b p) m Q.
Proof.
  intros Hl Ho Hno Hyes. unfold line_spill_grow.
  destruct (line_spill_enabled p) eqn:He; [|by apply Hno]. cbn [negb orb].
  case_bool_decide as Hs; [by apply Hno|]. destruct (line_spill p) eqn:E; [by destruct Hs|].
  destruct (b <=? CHTTP1_MAX_LINE_LEN); [by apply Hno|]. apply wp_bind.
  eapply wp_alloc_owns; [exact Ho|done|by intros; apply Hno|].
  intros h m' Ho' _ _ Hz _. apply wp_bind, wp_memcpy_in.
  - done.
  - unfold line_len, line_storage in Hl. rewrite E in Hl. rewrite Hz.
    unfold CHTTP1_MAX_LINE_LEN, CHTTP1_MAX_SPILL_LINE_LEN in *. lia.
  - apply Hyes; [done|done|]. unfold spill_own in Ho'. rewrite E, union_empty_r_L in Ho'. done.
Qed.

Lemma wp_make_room b p m F Q : 0 <= b -> bounded p -> owns m (spill_own p) F ->
  (forall m', owns m' (spill_own p) F -> Q (false, p) m') ->
  (forall room p' m', owns m' (spill_own p') F -> line p' = line p -> line_changed p p' ->
     (room = true -> line_len p < line_storage p') -> Q (room, p') m') ->
  wp (make_room b p) m Q.
Proof.
  intros Hb0 Hb Ho Hno Hyes. unfold make_room.
  assert (Hfull : forall q, line_full b q = false -> line_len q < line_storage q).
  { intros q. unfold line_full, line_storage. pose proof (spill_cap_range b Hb0).
    rewrite Z.geb_leb. destruct (line_spill q); intros Hq; apply Z.leb_gt in Hq; lia. }
  destruct (line_full b p) eqn:Ef; cbn [negb].
  2:{ apply wp_ret, Hyes; [done|done|by apply line_changed_refl|auto]. }
  destruct (b =? 0); [apply wp_ret; auto|]. apply wp_bind.
  eapply wp_line_spill_grow; [apply Hb|done|..].
  - intros m' Ho'. apply wp_ret. cbn [andb]. auto.
  - intros id m' E He Ho'. apply wp_ret. apply Hyes; [done|done|..].
    + split; [by destruct p|]. pose proof (bd_line _ Hb). unfold line_len, line_storage in *.
      rewrite E in *. psimpl. unfold CHTTP1_MAX_LINE_LEN, CHTTP1_MAX_SPILL_LINE_LEN in *. split; [lia|done].
    + cbn [andb]. intros Hf%negb_true_iff. by apply Hfull in Hf.
Qed.

Lemma bounded_line_changed p p' : bounded p -> line_changed p p' -> bounded p'.
Proof.
  intros Hb (-> & Hl & Hs). destruct Hb. constructor; try done; by psimpl.
Qed.

Lemma wp_put_char c p m F Q : line_len p < line_storage p -> owns m (spill_own p) F ->
  Q (set_line (line p ++ [c]) p) m -> wp (put_char c p) m Q.
Proof.
  intros Hl Ho HQ. unfold put_char. apply wp_bind. eapply wp_access_spill; [done|].
  by destruct (Z.ltb_spec (line_len p) (line_storage p)); [apply wp_ret|lia].
Qed.

Lemma line_put c p : line_len p < line_storage p -> (is_Some (line_spill p) -> line_spill_enabled p = true) ->
  line_changed p (set_line (line p ++ [c]) p).
Proof.
  intros Hl Hs. split; [by destruct p|]. split; [|done].
  unfold line_len, line_storage in *. psimpl. rewrite zlen_app. unfold zlen at 2. cbn [length]. lia.
Qed.

(** The loop ends, keeps to the buffer and leaves a shorter input. *)
Lemma wp_accumulate_line b data p m F Q : 0 <= b -> bounded p -> owns m (spill_own p) F ->
  (forall lr p' rest m', owns m' (spill_own p') F -> line_changed p p' -> bounded p' ->
     (length rest <= pred (length data))%nat ->
     (lr = LINE_NEED_MORE -> rest = []) ->
     (lr = LINE_READY -> line_len p' + 2 <= line_storage p') ->
     Q (lr, p', rest) m') ->
  wp (accumulate_line b p data) m Q.
Proof.
  intros Hb0. revert p m. induction data as [|c data IH]; intros p m Hb Ho HQ; cbn [accumulate_line].
  { apply wp_ret, HQ; try done. by apply line_changed_refl. }
  apply wp_bind. eapply wp_make_room; [done|done|done|..].
  { intros m' Ho'. apply wp_ret, HQ; try done; [by apply line_changed_refl|cbn; lia]. }
  intros room p1 m1 Ho1 Hline1 Hch1 Hroom. pose proof (bounded_line_changed _ _ Hb Hch1) as Hb1.
  destruct room; cbn [negb].
  2:{ apply wp_ret, HQ; try done; cbn; lia. }
  assert (Hl1 : line_len p1 < line_storage p1) by (unfold line_len in *; rewrite Hline1; auto).
  apply wp_bind. eapply wp_put_char; [done|done|].
  pose proof (line_put c p1 Hl1 (bd_spill _ Hb1)) as Hch2.
  set (p2 := set_line (line p1 ++ [c]) p1) in *.
  pose proof (line_changed_trans _ _ _ Hch1 Hch2) as Hch. pose proof (bounded_line_changed _ _ Hb Hch) as Hb2.
  assert (Ho2 : owns m1 (spill_own p2) F) by done.
  destruct (c =? 10).
  - destruct (Z.ltb_spec (line_len p2) 2).
    { apply wp_ret, HQ; try done; cbn; lia. }
    apply wp_bind. destruct (zget_is_Some (line p2) (line_len p2 - 2)) as [x Hx].
    { unfold line_len in *. lia. }
    rewrite Hx. apply wp_ret. destruct (x =? 13); cbn [negb].
    2:{ apply wp_ret, HQ; try done; cbn; lia. }
    assert (Hcut : line_len (set_line (ztake (line_len p2 - 2) (line p2)) p2) = line_len p2 - 2).
    { unfold line_len in *. psimpl. rewrite zlen_ztake by lia. lia. }
    assert (Hch3 : line_changed p2 (set_line (ztake (line_len p2 - 2) (line p2)) p2)).
    { split; [by destruct p2|]. split; [|apply Hb2]. rewrite Hcut. pose proof (bd_line _ Hb2).
      unfold line_storage in *. psimpl. lia. }
    apply wp_ret, HQ; try done.
    + by eapply line_changed_trans.
    + by eapply bounded_line_changed.
    + intros _. rewrite Hcut. pose proof (bd_line _ Hb2). unfold line_storage in *. psimpl. lia.
  - apply IH; [done|done|]. intros lr p' rest m' Ho' Hch' Hb' Hlen Hmore Hready.
    apply HQ; try done.
    + by eapply line_changed_trans.
    + cbn [length pred]. lia.
Qed.

(** ** First lines *)

(** What the two first-line parsers write. *)
Definition first_line_changed (p p' : chttp1_parser) : Prop :=
  exists r major minor code,
    p' = set_reason r (set_status_code code (set_http_minor minor (set_http_major major p))) /\
    0 <= major <= 9 /\ 0 <= minor <= 9 /\ 0 <= code <= 999.

Lemma first_line_refl p : bounded p -> first_line_changed p p.
Proof.
  intros Hb. exists (reason p), (http_major p), (http_minor p), (status_code p).
  split; [by destruct p|]. destruct Hb; lia.
Qed.
Lemma first_line_reason p r : bounded p -> first_line_changed p (with_reason r p).
Proof.
  intros Hb. exists (Some r), (http_major p), (http_minor p), (status_code p).
  split; [by destruct p|]. destruct Hb; lia.
Qed.
Lemma first_line_trans p q r : first_line_changed p q -> first_line_changed q r ->
  first_line_changed p r.
Proof.
  intros (r1 & a1 & b1 & c1 & -> & _) (r2 & a2 & b2 & c2 & -> & H).
  exists r2, a2, b2, c2. split; [by destruct p|done].
Qed.
Lemma bounded_first_line p p' : bounded p -> first_line_changed p p' -> bounded p'.
Proof. intros Hb (r & a & b & c & -> & Ha & Hc & Hd). destruct Hb. constructor; done. Qed.

Lemma wp_parse_version s i p m (Q : bool * chttp1_parser -> mem -> Prop) :
  0 <= i <= zlen s -> bounded p ->
  (forall ok p', first_line_changed p p' -> (ok = false -> is_Some (reason p')) ->
     (ok = true -> 8 <= zlen s - i) -> Q (ok, p') m) ->
  wp (parse_version s i p) m Q.
Proof.
  intros Hi Hb HQ. unfold parse_version.
  assert (Hno : forall q, first_line_changed p q -> bounded q ->
    wp (mret (false, with_reason "Invalid HTTP version" q)) m Q).
  { intros q Hq Hbq. apply wp_ret, HQ; [|by psimpl|done].
    eapply first_line_trans; [done|by apply first_line_reason]. }
  pose proof (first_line_refl p Hb) as Hr.
  destruct (Z.ltb_spec (zlen s - i) 8); [by apply Hno|]. cbn [orb].
  destruct (negb _); [by apply Hno|].
  destruct (zget_is_Some s (i + 5)) as [a Ha]; [lia|]. rewrite Ha. apply wp_bind, wp_ret.
  destruct (is_digit a) eqn:Hda; [|by apply Hno]. apply is_digit_range in Hda. cbn [negb].
  assert (H1 : first_line_changed p (set_http_major (a - 48) p)).
  { exists (reason p), (a - 48), (http_minor p), (status_code p). split; [by destruct p|].
    destruct Hb; lia. }
  pose proof (bounded_first_line _ _ Hb H1) as Hb1.
  destruct (zget_is_Some s (i + 6)) as [d Hd]; [lia|]. rewrite Hd. apply wp_bind, wp_ret.
  destruct (d =? 46); [|by apply Hno]. cbn [negb].
  destruct (zget_is_Some s (i + 7)) as [b Hb']; [lia|]. rewrite Hb'. apply wp_bind, wp_ret.
  destruct (is_digit b) eqn:Hdb; [|by apply Hno]. apply is_digit_range in Hdb. cbn [negb].
  apply wp_ret, HQ; [|done|done].
  exists (reason p), (a - 48), (b - 48), (status_code p). split; [by destruct p|].
  destruct Hb; lia.
Qed.

Lemma wp_parse_status_line p m F (Q : bool * chttp1_parser -> mem -> Prop) :
  bounded p -> owns m (spill_own p) F ->
  (forall ok p', first_line_changed p p' -> (ok = false -> is_Some (reason p')) -> Q (ok, p') m) ->
  wp (parse_status_line p) m Q.
Proof.
  intros Hb Ho HQ. unfold parse_status_line. apply wp_bind. eapply wp_line_ptr; [done|].
  pose proof (zlen_nonneg (line p)). unfold line_len. set (s := line p) in *.
  apply wp_bind, wp_parse_version; [lia|done|]. intros ok p1 H1 Hno1 Hlen.
  pose proof (bounded_first_line _ _ Hb H1) as Hb1.
  destruct ok; cbn [negb]; [|apply wp_ret, HQ; auto].
  assert (Hno : forall q r, first_line_changed p q -> bounded q ->
    wp (mret (false, with_reason r q)) m Q).
  { intros q r Hq Hbq. apply wp_ret, HQ; [|by psimpl].
    eapply first_line_trans; [done|by apply first_line_reason]. }
  rewrite Z.geb_leb. destruct (Z.leb_spec (zlen s) 8); [by apply Hno|].
  destruct (zget_is_Some s 8) as [x Hx]; [lia|]. rewrite Hx. apply wp_bind, wp_ret.
  destruct (x =? 32); [|by apply Hno]. cbn [negb].
  rewrite Z.gtb_ltb. destruct (Z.ltb_spec (zlen s) 12); [by apply Hno|].
  destruct (zget_is_Some s 9) as [d0 Hd0]; [lia|]. rewrite Hd0. apply wp_bind, wp_ret.
  destruct (zget_is_Some s 10) as [d1 Hd1]; [lia|]. rewrite Hd1. apply wp_bind, wp_ret.
  destruct (zget_is_Some s 11) as [d2 Hd2]; [lia|]. rewrite Hd2. apply wp_bind, wp_ret.
  destruct (is_digit d0) eqn:E0, (is_digit d1) eqn:E1, (is_digit d2) eqn:E2; cbn [negb orb];
    try by apply Hno.
  apply is_digit_range in E0, E1, E2.
  set (code := (d0 - 48) * 100 + (d1 - 48) * 10 + (d2 - 48)).
  assert (Hfl2 : first_line_changed p (set_status_code code p1)).
  { eapply first_line_trans; [done|]. exists (reason p1), (http_major p1), (http_minor p1), code.
    split; [by destruct p1|]. unfold code. destruct Hb1; lia. }
  pose proof (bounded_first_line _ _ Hb Hfl2) as Hb2.
  destruct (Z.ltb_spec 12 (zlen s)); [|by apply wp_ret, HQ].
  destruct (zget_is_Some s 12) as [y Hy]; [lia|]. rewrite Hy. apply wp_bind, wp_ret.
  destruct (y =? 32); [|by apply Hno]. cbn [negb].
  destruct (existsb _ _); [by apply Hno|by apply wp_ret, HQ].
Qed.

Section Callbacks.
Context {U : Type} (settings : option (chttp1_settings_t U)).

Lemma wp_parse_request_line p u m (Q : ph_result_t * chttp1_parser * U -> mem -> Prop) :
  bounded p -> is_request p = true ->
  (forall ph p' u', first_line_changed p p' -> (ph = PH_ERROR -> is_Some (reason p')) ->
     Q (ph, p', u') m) ->
  wp (parse_request_line settings p u) m Q.
Proof.
  intros Hb Hr HQ. unfold parse_request_line. apply wp_bind. apply wp_line_buf; [done|done|].
  assert (Hno : forall q r, first_line_changed p q -> bounded q ->
    wp (mret (PH_ERROR, with_reason r q, u)) m Q).
  { intros q r Hq Hbq. apply wp_ret, HQ; [|by psimpl].
    eapply first_line_trans; [done|by apply first_line_reason]. }
  pose proof (first_line_refl p Hb) as Hp. unfold line_len. set (s := line p) in *.
  set (method := take_while _ s). rewrite !Z.geb_leb.
  destruct (zlen method =? 0); [by apply Hno|].
  destruct (Z.leb_spec (zlen s) (zlen method)); [by apply Hno|]. cbn [orb].
  destruct (forallb chttp1_is_tchar method); [|by apply Hno]. cbn [negb].
  set (target := take_while _ (zdrop _ s)).
  destruct (zlen target =? 0); [by apply Hno|].
  destruct (Z.leb_spec (zlen s) (zlen method + 1 + zlen target)); [by apply Hno|]. cbn [orb].
  destruct (existsb _ _); [by apply Hno|].
  pose proof (zlen_nonneg method). pose proof (zlen_nonneg target).
  apply wp_bind, wp_parse_version; [lia|done|]. intros ok p1 Hfl1 Hno1 Hlen.
  pose proof (bounded_first_line _ _ Hb Hfl1) as Hb1.
  destruct ok; cbn [negb]; [|apply wp_ret, HQ; auto].
  destruct (negb _); [by apply Hno|].
  destruct (call _ _ _ _ u) as [err u']. apply wp_ret, HQ; [done|]. by destruct (negb (err =? 0)).
Qed.

(** ** Header lines *)

(** What the reading of one header writes: the flags keep what a header does
    not decide, and a chunked message has a [Transfer-Encoding]. *)
Definition interpreted (p p' : chttp1_parser) : Prop :=
  exists r fl cl hc,
    p' = set_reason r (set_flags fl (set_content_length cl (set_host_count hc p))) /\
    0 <= cl <= UINT64_MAX /\ 0 <= hc <= 2 /\
    has_flag F_HEADERS_DONE p' = has_flag F_HEADERS_DONE p /\
    (has_flag F_CHUNKED p' = true -> has_flag F_TRANSFER_ENCODING p' = true).

Definition chunked_has_te (p : chttp1_parser) : Prop :=
  has_flag F_CHUNKED p = true -> has_flag F_TRANSFER_ENCODING p = true.

Lemma interpreted_same p : bounded p -> chunked_has_te p -> interpreted p p.
Proof.
  intros Hb Hc. exists (reason p), (flags p), (content_length p), (host_count p).
  split; [by destruct p|]. destruct Hb. done.
Qed.
Lemma interpreted_reason p q r : interpreted p q -> interpreted p (with_reason r q).
Proof.
  intros (r0 & fl & cl & hc & -> & H). exists (Some r), fl, cl, hc. split; [by destruct p|]. done.
Qed.
(** Only the flags change. *)
Lemma interpreted_flags p fl : bounded p ->
  Z.testbit fl 9 = Z.testbit (flags p) 9 -> (Z.testbit fl 0 = true -> Z.testbit fl 2 = true) ->
  interpreted p (set_flags fl p).
Proof.
  intros Hb H9 H0. exists (reason p), fl, (content_length p), (host_count p).
  split; [by destruct p|]. flag_bits. destruct Hb. done.
Qed.
Lemma bounded_interpreted p p' : bounded p -> interpreted p p' -> bounded p'.
Proof. intros Hb (r & fl & cl & hc & -> & Hcl & Hhc & _). destruct Hb. constructor; done. Qed.

Lemma decimal_range s v : parse_uint64_decimal s = Some v -> 0 <= v <= UINT64_MAX.
Proof.
  rewrite (proj1 (uint64_parsing_facts s)). destruct (_ && _) eqn:E; [|done]. intros [= <-].
  zbool. unfold decimal_value. split; [|done]. apply digits_value_ge; [lia|lia|].
  match goal with H : forallb is_digit s = true |- _ => apply forallb_Forall_true in H;
    eapply Forall_impl; [exact H|] end. intros c Hc%is_digit_range. lia.
Qed.
Lemma hexadecimal_range s v : parse_uint64_hex s = Some v -> 0 <= v <= UINT64_MAX.
Proof.
  rewrite (proj2 (uint64_parsing_facts s)). destruct (_ && _) eqn:E; [|done]. intros [= <-].
  zbool. unfold hexadecimal_value. split; [|done]. apply digits_value_ge; [lia|lia|].
  apply Forall_forall. intros e _. unfold hex_digit_value.
  destruct (hex_value e) eqn:Eh; cbn; [|lia]. apply hex_value_range in Eh. lia.
Qed.

Lemma read_content_length_ok v p : bounded p -> chunked_has_te p ->
  let '(ok, p') := read_content_length v p in
  interpreted p p' /\ (ok = false -> is_Some (reason p')).
Proof.
  intros Hb Hc. unfold read_content_length.
  destruct (has_flag F_CONTENT_LENGTH p);
    [split; [by apply interpreted_reason, interpreted_same|by psimpl]|].
  destruct (parse_uint64_decimal v) as [n|] eqn:E;
    [|split; [by apply interpreted_reason, interpreted_same|by psimpl]].
  split; [|done]. exists (reason p), (Z.lor (flags p) 2), n, (host_count p).
  split; [by destruct p|]. split; [by eapply decimal_range|]. unfold chunked_has_te in Hc.
  flag_bits. destruct Hb. done.
Qed.

(** A change of flags after others. *)
Lemma interpreted_step p q fl : interpreted p q ->
  Z.testbit fl 9 = Z.testbit (flags q) 9 -> (Z.testbit fl 0 = true -> Z.testbit fl 2 = true) ->
  interpreted p (set_flags fl q).
Proof.
  intros (r & fl0 & cl & hc & -> & Hcl & Hhc & H9 & _) Hfl H0. exists r, fl, cl, hc.
  split; [by destruct p|]. flag_bits. rewrite Hfl. done.
Qed.

Lemma apply_codings_ok st p : bounded p -> has_flag F_TRANSFER_ENCODING p = true ->
  let '(ok, p') := apply_codings st p in
  interpreted p p' /\ (ok = false -> is_Some (reason p')).
Proof.
  intros Hb Ht. unfold apply_codings.
  assert (Hstep : forall q F, interpreted p q -> has_flag F_TRANSFER_ENCODING q = true ->
    F = F_OTHER_CODING \/ F = F_CHUNKED_APPLIED \/ F = F_CHUNKED ->
    interpreted p (add_flag F q) /\ has_flag F_TRANSFER_ENCODING (add_flag F q) = true).
  { intros q F Hq Hte HF. split.
    - apply interpreted_step; [done|..]; destruct HF as [->|[->| ->]]; flag_bits; done.
    - destruct HF as [->|[->| ->]]; flag_bits; done. }
  set (p1 := if te_other st then add_flag F_OTHER_CODING p else p).
  assert (H1 : interpreted p p1 /\ has_flag F_TRANSFER_ENCODING p1 = true).
  { unfold p1. pose proof (interpreted_same p Hb ltac:(by intros _)).
    destruct (te_other st); [apply Hstep; auto|done]. }
  clearbody p1. destruct ((te_count st >? 1) || _);
    [split; [apply interpreted_reason, H1|by psimpl]|].
  set (p2 := if te_count st >? 0 then add_flag F_CHUNKED_APPLIED p1 else p1).
  assert (H2 : interpreted p p2 /\ has_flag F_TRANSFER_ENCODING p2 = true).
  { unfold p2. destruct (te_count st >? 0); [apply Hstep; try apply H1; auto|done]. }
  clearbody p2. destruct (is_request p2 && te_nonfinal st);
    [split; [apply interpreted_reason, H2|by psimpl]|].
  split; [|done]. destruct (te_last st); [apply Hstep; try apply H2; auto|].
  destruct (te_any st); [|apply H2]. destruct H2 as [H2 Hte].
  apply interpreted_step; [done|..]; flag_bits; done.
Qed.

Lemma interpreted_trans p q r : interpreted p q -> interpreted q r -> interpreted p r.
Proof.
  intros (r1 & f1 & c1 & h1 & -> & _ & _ & H1 & _) (r2 & f2 & c2 & h2 & -> & Hc & Hh & H9 & H0).
  exists r2, f2, c2, h2. split; [by destruct p|]. split; [done|]. split; [done|]. split; [|done].
  rewrite <- H1. by rewrite H9.
Qed.

Lemma read_host_ok v p : bounded p -> chunked_has_te p ->
  let '(ok, p') := read_host v p in
  interpreted p p' /\ (ok = false -> is_Some (reason p')).
Proof.
  intros Hb Hc. unfold read_host.
  set (p1 := if host_count p <? 2 then _ else p).
  assert (H1 : interpreted p p1).
  { unfold p1. destruct (Z.ltb_spec (host_count p) 2); [|by apply interpreted_same].
    exists (reason p), (flags p), (content_length p), (host_count p + 1).
    split; [by destruct p|]. destruct Hb. split; [done|]. split; [lia|]. done. }
  clearbody p1. destruct (negb _); (split; [|by psimpl]); [by apply interpreted_reason|done].
Qed.

(** The [Connection] scan ends and touches its two flags only. *)
Lemma connection_tokens_spec fuel fl v : (length v < fuel)%nat ->
  exists fl', parse_connection_tokens fuel fl v = Some fl' /\
    forall k, k <> 3 -> k <> 4 -> Z.testbit fl' k = Z.testbit fl k.
Proof.
  revert fl v. induction fuel as [|fuel IH]; intros fl v Hf; [lia|]. cbn [parse_connection_tokens].
  destruct v as [|c v1]; [eauto|]. cbn [is_nil]. set (v := c :: v1) in *.
  set (skip := fun c => is_ows c || (c =? 44)). pose proof (drop_while_length skip v) as Hlen.
  assert (Hlt : (length (drop_while not_comma (drop_while skip v)) < length v)%nat).
  { destruct (drop_while skip v) as [|d w] eqn:E; [cbn; lia|].
    apply drop_while_head in E. cbn [drop_while]. unfold skip in E. apply orb_false_iff in E as [_ E].
    assert (not_comma d = true) as -> by (unfold not_comma; by rewrite E).
    pose proof (drop_while_length not_comma w). cbn [length] in Hlen. lia. }
  set (tok := trim_end _).
  destruct (IH (connection_token fl tok) (drop_while not_comma (drop_while skip v)) ltac:(lia))
    as (fl' & -> & Hfl).
  exists fl'. split; [done|]. intros k H3 H4. rewrite Hfl by done. unfold connection_token.
  assert (Hb : forall n, n = 3 \/ n = 4 -> Z.testbit (2 ^ n) k = false).
  { intros n Hn. destruct (Z_lt_le_dec k 0); [by apply Z.testbit_neg_r|].
    rewrite Z.pow2_bits_eqb by lia. apply Z.eqb_neq. lia. }
  destruct (header_name_is tok (lit "close")).
  { rewrite Z.lor_spec. change F_CONNECTION_CLOSE with (2 ^ 3). rewrite Hb by auto. apply orb_false_r. }
  destruct (header_name_is tok (lit "keep-alive")); [|done].
  rewrite Z.lor_spec. change F_CONNECTION_KEEP_ALIVE with (2 ^ 4). rewrite Hb by auto. apply orb_false_r.
Qed.

Lemma wp_interpret_header name value p m (Q : bool * chttp1_parser -> mem -> Prop) :
  bounded p -> chunked_has_te p ->
  (forall ok p', interpreted p p' -> (ok = false -> is_Some (reason p')) -> Q (ok, p') m) ->
  wp (interpret_header name value p) m Q.
Proof.
  intros Hb Hc HQ. unfold interpret_header.
  destruct (header_name_is name (lit "content-length")).
  { pose proof (read_content_length_ok value p Hb Hc) as H. destruct (read_content_length _ _).
    apply wp_ret, HQ; apply H. }
  destruct (header_name_is name (lit "transfer-encoding")).
  { rewrite scan_codings. apply wp_bind, wp_ret.
    assert (H1 : interpreted p (add_flag F_TRANSFER_ENCODING p)).
    { apply interpreted_flags; [done|..]; flag_bits; done. }
    pose proof (apply_codings_ok (scan_of (codings value)) (add_flag F_TRANSFER_ENCODING p)
      (bounded_interpreted _ _ Hb H1) ltac:(flag_bits; done)) as H.
    destruct (apply_codings _ _). apply wp_ret, HQ; [|apply H]. eapply interpreted_trans; [exact H1|apply H]. }
  destruct (is_request p && _).
  { pose proof (read_host_ok value p Hb Hc) as H. destruct (read_host _ _). apply wp_ret, HQ; apply H. }
  destruct (header_name_is name (lit "connection")).
  { destruct (connection_tokens_spec (S (length value)) (flags p) value) as (fl & -> & Hfl); [lia|].
    apply wp_bind, wp_ret, wp_ret, HQ; [|done]. apply interpreted_flags; [done|by apply Hfl|].
    rewrite !Hfl by done. unfold chunked_has_te in Hc. by flag_bits. }
  destruct (_ && _); apply wp_ret, HQ; try done; [|by apply interpreted_same].
  unfold chunked_has_te in Hc. apply interpreted_flags; [done|..]; by flag_bits.
Qed.

(** What a header or trailer line writes. *)
Definition field_read (p p' : chttp1_parser) : Prop :=
  exists q n t, interpreted p q /\ p' = set_total_header_bytes t (set_header_count n q) /\
    0 <= n <= effective_max_header_count p /\ 0 <= t <= effective_max_total_header_bytes p.

Lemma field_interpreted p q : bounded p -> interpreted p q -> field_read p q.
Proof.
  intros Hb Hq. exists q, (header_count q), (total_header_bytes q). split; [done|].
  split; [by destruct q|]. destruct Hq as (r & fl & cl & hc & -> & _). destruct Hb. done.
Qed.

Lemma bounded_field p p' : bounded p -> field_read p p' -> bounded p'.
Proof.
  intros Hb (q & n & t & Hq & -> & Hn & Ht). pose proof (bounded_interpreted _ _ Hb Hq) as Hbq.
  destruct Hq as (r & fl & cl & hc & -> & _). destruct Hbq. constructor; done.
Qed.

Lemma line_storage_max p : line_storage p <= CHTTP1_MAX_SPILL_LINE_LEN.
Proof. unfold line_storage. by destruct (line_spill p). Qed.

Lemma effective_max_bytes p : bounded p -> 0 <= effective_max_total_header_bytes p <= ccol_max_elem_count.
Proof.
  intros [_ H _ _ _ _ _ _ _ _ _ _ _ _]. unfold effective_max_total_header_bytes.
  by destruct (negb _).
Qed.
Lemma effective_max_count p : bounded p -> 0 <= effective_max_header_count p <= ccol_max_elem_count.
Proof.
  intros [H _ _ _ _ _ _ _ _ _ _ _ _ _]. unfold effective_max_header_count. by destruct (negb _).
Qed.

(** The flags, the length and the host count are those of [p]: what a trailer
    leaves alone. *)
Definition same_framing (p p' : chttp1_parser) : Prop :=
  flags p' = flags p /\ content_length p' = content_length p /\ host_count p' = host_count p.

Lemma wp_process_header_line tr p u m F Q :
  bounded p -> chunked_has_te p -> owns m (spill_own p) F -> line_len p + 2 <= line_storage p ->
  (forall ph p' u', field_read p p' -> (ph = PH_ERROR -> is_Some (reason p')) ->
     (tr = true -> same_framing p p') ->
     (ph = PH_OK -> tr = false -> has_flag F_CONTENT_LENGTH p' && has_flag F_CHUNKED p' = false) ->
     Q (ph, p', u') m) ->
  wp (process_header_line settings tr p u) m Q.
Proof.
  intros Hb Hc Ho Hl HQ. unfold process_header_line.
  pose proof (effective_max_bytes p Hb). pose proof (effective_max_count p Hb).
  pose proof (bd_count _ Hb). pose proof (bd_bytes _ Hb). pose proof (line_storage_max p).
  assert (0 <= line_len p) by apply zlen_nonneg.
  unfold CHTTP1_MAX_SPILL_LINE_LEN, ccol_max_elem_count in *. sz.
  pose proof (interpreted_same p Hb Hc) as Hp.
  assert (Hno : forall q r, interpreted p q -> (tr = true -> same_framing p q) ->
    wp (mret (PH_ERROR, with_reason r q, u)) m Q).
  { intros q r Hq Hs. apply wp_ret, HQ; [|by psimpl|done|done].
    apply field_interpreted; [done|by apply interpreted_reason]. }
  rewrite !Z.gtb_ltb. destruct (Z.ltb_spec (effective_max_header_count p) (header_count p + 1));
    [by apply Hno|].
  destruct (Z.ltb_spec (effective_max_total_header_bytes p) (total_header_bytes p + (line_len p + 2)));
    [by apply Hno|].
  assert (Hcharge : forall q, interpreted p q -> field_read p (charge_line (line_len p + 2) q)).
  { intros q Hq. exists q, (header_count p + 1), (total_header_bytes p + (line_len p + 2)).
    split; [done|]. destruct Hq as (r & fl & cl & hc & -> & _). unfold charge_line.
    split; [|lia]. psimpl. by sz. }
  apply wp_bind. eapply wp_line_ptr; [done|].
  destruct (drop_while _ (line p)) as [|x after]; [by apply Hno|].
  set (name := take_while _ (line p)). destruct (is_nil name); [by apply Hno|].
  destruct (forallb chttp1_is_tchar name); [|by apply Hno]. cbn [negb].
  set (value := trim_end _). destruct (existsb _ value); [by apply Hno|].
  destruct tr.
  - destruct (call _ _ _ _ u) as [err u']. destruct (negb (err =? 0)); apply wp_ret, HQ; try done.
    + by apply field_interpreted.
    + by apply Hcharge.
  - apply wp_bind, wp_interpret_header; [done|done|]. intros ok p1 Hi1 Hr1.
    destruct ok; cbn [negb].
    2:{ apply wp_ret, HQ; [by apply field_interpreted|auto|done|done]. }
    destruct (has_flag F_CONTENT_LENGTH p1 && has_flag F_CHUNKED p1) eqn:Ef; [by apply Hno|].
    destruct (call _ _ _ _ u) as [err u']. destruct (negb (err =? 0)); apply wp_ret, HQ; try done.
    + by apply field_interpreted.
    + by apply Hcharge.
Qed.
End Callbacks.
End Invariant.
