(* ===== verification/CHttp1Exec.v ===== *)
(** * The HTTP/1 parser: execution

    Every pass of the state machine keeps the invariant of [CHttp1Parser] and
    consumes input, so [chttp1_parser_execute] returns; what each of its
    answers means; and the life of a parser from its initialisation to its
    release. *)
From Stdlib Require Import Strings.String.
From S2P Require Import Prelude Memory CText CHttp1 CHttp1Lines CHttp1Grammar CHttp1Parser.
#[local] Open Scope size_scope.

Section Exec.
Context {alloc : Allocator} {U : Type} (settings : option (chttp1_settings_t U)).

(** ** Chunk sizes *)

(** The excess after a chunk of [v] bytes with a size line of [len]. *)
Definition excess_after (e len v : Z) : Z := Z.max 0 (e + len + 4 - Z.min UINT64_MAX (16 + 2 * v)).

(** What a chunk-size line writes: when it is accepted, its size and the
    framing bytes it is in excess. *)
Definition chunk_line_read (p : chttp1_parser) (ok : bool) (p' : chttp1_parser) : Prop :=
  if ok then
    exists v, 0 <= v <= UINT64_MAX /\
      excess_after (chunk_excess p) (line_len p) v <= CHTTP1_MAX_CHUNK_OVERHEAD_EXCESS /\
      p' = set_content_length v
             (set_chunk_excess (excess_after (chunk_excess p) (line_len p) v) p)
  else exists r fl, p' = set_reason (Some r) (set_flags fl p).

Lemma wp_parse_chunk_size_line p m F (Q : bool * chttp1_parser -> mem -> Prop) :
  bounded p -> owns m (spill_own p) F ->
  (forall ok p', chunk_line_read p ok p' -> Q (ok, p') m) ->
  wp (parse_chunk_size_line p) m Q.
Proof.
  intros Hb Ho HQ. unfold parse_chunk_size_line. apply wp_bind. eapply wp_line_ptr; [done|].
  set (stop := fun c => negb _).
  destruct (parse_uint64_hex (take_while stop (line p))) as [v|] eqn:Ev.
  2:{ apply wp_ret, HQ. exists "Invalid chunk size"%string, (flags p). by destruct p. }
  apply hexadecimal_range in Ev. match goal with |- context [chunk_ext_is_valid _ ?e] => set (ext := e) end.
  clearbody ext.
  destruct (chunk_ext_is_valid_iff (S (length ext)) ext) as (b & -> & _); [lia|].
  apply wp_bind, wp_ret. destruct b; cbn [negb].
  2:{ apply wp_ret, HQ. exists "Invalid chunk extension"%string, (flags p). by destruct p. }
  destruct (_ && _).
  { apply wp_ret, HQ. eexists _, (Z.lor (flags p) F_CHUNK_TOO_LARGE). by destruct p. }
  assert (0 <= line_len p) by apply zlen_nonneg.
  pose proof (bd_excess _ Hb). pose proof (bd_line _ Hb). pose proof (line_storage_max p).
  unfold CHTTP1_MAX_CHUNK_OVERHEAD_EXCESS, CHTTP1_MAX_SPILL_LINE_LEN in *. sz.
  set (earned := if v >? _ then _ else _).
  assert (He : earned = Z.min UINT64_MAX (16 + 2 * v)).
  { unfold earned, UINT64_MAX in *. change ((18446744073709551615 - 16) `div` 2) with 9223372036854775799.
    rewrite Z.gtb_ltb. destruct (Z.ltb_spec 9223372036854775799 v); [lia|]. sz. lia. }
  set (excess := if _ >? earned then _ else 0).
  assert (Hx : excess = excess_after (chunk_excess p) (line_len p) v).
  { unfold excess, excess_after. rewrite <- He, Z.gtb_ltb.
    destruct (Z.ltb_spec earned (chunk_excess p + line_len p + 4)); [|lia].
    unfold UINT64_MAX in *. sz. lia. }
  rewrite Hx, Z.gtb_ltb. destruct (Z.ltb_spec (16 * 1024) (excess_after (chunk_excess p) (line_len p) v)).
  - apply wp_ret, HQ. eexists _, (flags p). by destruct p.
  - apply wp_ret, HQ. exists v. split; [done|]. done.
Qed.

Lemma bounded_chunk_line p ok p' : bounded p -> chunk_line_read p ok p' -> bounded p'.
Proof.
  intros Hb Hr. destruct ok; cbn in Hr.
  - destruct Hr as (v & Hv & He & ->). destruct Hb. constructor; try done. unfold excess_after in *. psimpl. lia.
  - destruct Hr as (r & fl & ->). destruct Hb. constructor; done.
Qed.

(** ** One pass *)
Definition pass_measure (p : chttp1_parser) (rest : list Z) : nat :=
  2 * length rest + match state p with CHTTP1_ST_BODY_CHUNK_DATA => 1 | _ => 0 end.

(** The state each answer leaves. *)
Definition returned (code : chttp1_errno_t) (p : chttp1_parser) : Prop :=
  match code with
  | CHTTP1_OK => alive p
  | CHTTP1_PAUSED => state p = CHTTP1_ST_MESSAGE_DONE
  | CHTTP1_HEADERS_ONLY =>
      is_request p = true /\
      (state p = CHTTP1_ST_BODY_CONTENT_LENGTH \/ state p = CHTTP1_ST_BODY_CHUNK_SIZE)
  | CHTTP1_USER | CHTTP1_ERROR => state p = CHTTP1_ST_DEAD
  end.

Definition stops_inside (code : chttp1_errno_t) : bool :=
  match code with CHTTP1_PAUSED | CHTTP1_HEADERS_ONLY => true | _ => false end.

Definition pass_ok (len : Z) (p : chttp1_parser) (data : list Z) (F : gset nat)
    (r : @pass U) (m' : mem) : Prop :=
  match r with
  | Again p' _ rest =>
      parser_ok p' /\ alive p' /\ settled p' = settled p /\ owns m' (spill_own p') F /\
      (pass_measure p' rest < pass_measure p data)%nat /\ (length rest <= length data)%nat
  | Return code p' _ =>
      returned code p' /\ code <> CHTTP1_OK /\ parser_ok p' /\ settled p' = settled p /\
      owns m' (spill_own p') F /\
      (stops_inside code = true -> len - zlen data < consumed p' <= len)
  end.

Lemma settled_line p p' : line_changed p p' -> settled p' = settled p.
Proof. by intros (-> & _). Qed.
Lemma settled_field p p' : field_read p p' -> settled p' = settled p.
Proof. by intros (q & n & t & (r & fl & cl & hc & -> & _) & -> & _). Qed.
Lemma settled_first_line p p' : first_line_changed p p' -> settled p' = settled p.
Proof. by intros (r & a & b & c & -> & _). Qed.
Lemma settled_chunk_line p ok p' : chunk_line_read p ok p' -> settled p' = settled p.
Proof. destruct ok; [by intros (v & _ & _ & ->)|by intros (r & fl & ->)]. Qed.

(** A return that leaves the parser dead. *)
Lemma dead_ok len p data F code r fl m' u :
  code = CHTTP1_ERROR \/ code = CHTTP1_USER ->
  bounded r -> is_Some (reason fl) -> fl = set_reason (reason fl) (set_state CHTTP1_ST_DEAD r) ->
  settled r = settled p -> owns m' (spill_own r) F ->
  pass_ok len p data F (Return code fl u) m'.
Proof.
  intros Hc Hb Hr Hfl Hs Ho. cbn [pass_ok].
  assert (Hok : parser_ok fl).
  { rewrite Hfl. constructor; [destruct Hb; constructor; done|]. unfold framed. by psimpl. }
  assert (Hst : state fl = CHTTP1_ST_DEAD /\ settled fl = settled p /\ spill_own fl = spill_own r)
    by (rewrite Hfl; done).
  destruct Hst as (Hst & Hse & Hsp). destruct Hc as [-> | ->]; cbn [returned stops_inside];
    rewrite Hsp; done.
Qed.

Lemma fail_ok len p data F m' u r q : bounded q -> settled q = settled p ->
  owns m' (spill_own q) F -> pass_ok len p data F (Return CHTTP1_ERROR (fail r q) u) m'.
Proof.
  intros Hb Hs Ho. eapply dead_ok; [by left|exact Hb|by psimpl|by destruct q|done|done].
Qed.
Lemma fail_already_ok len p data F m' u q : bounded q -> is_Some (reason q) ->
  settled q = settled p -> owns m' (spill_own q) F ->
  pass_ok len p data F (Return CHTTP1_ERROR (fail_already_set q) u) m'.
Proof.
  intros Hb Hr Hs Ho. eapply dead_ok; [by left|exact Hb|by psimpl|by destruct q|done|done].
Qed.
Lemma user_error_ok len p data F m' u q : bounded q -> settled q = settled p ->
  owns m' (spill_own q) F -> pass_ok len p data F (Return CHTTP1_USER (user_error q) u) m'.
Proof.
  intros Hb Hs Ho. eapply dead_ok; [by right|exact Hb|..|done|done].
  - unfold user_error. psimpl. destruct (reason q) eqn:E; psimpl; [rewrite E|]; eauto.
  - unfold user_error. psimpl. destruct (reason q) eqn:E; psimpl; [|done]. destruct q; by psimpl; subst.
Qed.

(** Back to the loop, in the state [q] is in. *)
Lemma again_ok len p data F m' u q rest : parser_ok q -> alive q -> settled q = settled p ->
  owns m' (spill_own q) F -> (length rest < length data)%nat ->
  pass_ok len p data F (Again q u rest) m'.
Proof.
  intros Hok Ha Hs Ho Hl. cbn [pass_ok]. split_and!; try done; [|lia].
  unfold pass_measure. destruct (state q), (state p); lia.
Qed.

(** The same state with another line. *)
Lemma framed_line p p' : line_changed p p' -> framed p -> framed p'.
Proof. by intros (-> & _). Qed.

Lemma state_line p p' : line_changed p p' -> state p' = state p.
Proof. by intros (-> & _). Qed.

Lemma parser_ok_line p p' : parser_ok p -> line_changed p p' -> parser_ok p'.
Proof.
  intros [Hb Hf] Hl. split; [by eapply bounded_line_changed|by eapply framed_line].
Qed.

Lemma bounded_set_line p l : bounded p -> zlen l <= line_len p -> bounded (set_line l p).
Proof.
  intros Hb Hl. pose proof (bd_line _ Hb). destruct Hb. constructor; try done.
  unfold line_len, line_storage in *. psimpl. lia.
Qed.

(** A line that is not complete: the input is used up. *)
Lemma need_more_ok len p data F m' u q : parser_ok p -> alive p -> data <> [] ->
  line_changed p q -> owns m' (spill_own q) F ->
  pass_ok len p data F (Again q u []) m'.
Proof.
  intros Hok Ha Hd Hl Ho. apply again_ok.
  - by eapply parser_ok_line.
  - unfold alive. by rewrite (state_line _ _ Hl).
  - by apply settled_line.
  - done.
  - destruct data; [done|cbn; lia].
Qed.

Lemma rest_shorter {A} (rest data : list A) : data <> [] ->
  (length rest <= pred (length data))%nat -> (length rest < length data)%nat.
Proof. destruct data; cbn; [done|lia]. Qed.

Lemma wp_first_line_pass len p u data m F : parser_ok p -> state p = CHTTP1_ST_FIRST_LINE ->
  data <> [] -> owns m (spill_own p) F ->
  wp (first_line_pass settings p u data) m (pass_ok len p data F).
Proof.
  intros Hok Hst Hd Ho. pose proof (ok_bounded _ Hok) as Hb. unfold first_line_pass.
  apply wp_bind. eapply wp_accumulate_line; [done|done|done|].
  intros lr q rest m' Ho' Hch Hbq Hlen%rest_shorter Hmore Hready; [|done].
  pose proof (settled_line _ _ Hch) as Hs.
  assert (Hframe : framed p) by apply Hok. unfold framed in Hframe. rewrite Hst in Hframe.
  destruct lr.
  - rewrite (Hmore eq_refl). apply wp_ret, need_more_ok; try done. by unfold alive; rewrite Hst.
  - specialize (Hready eq_refl). pose proof (line_storage_max q). assert (0 <= line_len q) by apply zlen_nonneg.
    destruct Hch as (Hq & _ & _).
    assert (Hfq : has_flag F_CHUNKED q = false /\ has_flag F_CONTENT_LENGTH q = false /\
      has_flag F_HEADERS_DONE q = false /\ finish_state q = CHTTP1_FINISH_UNSAFE /\
      leading_blank_lines q <= CHTTP1_MAX_LEADING_BLANK_LINES /\ state q = CHTTP1_ST_FIRST_LINE)
      by (rewrite Hq; tauto).
    clear Hq Hframe. destruct Hfq as (F1 & F2 & F3 & F4 & F5 & F6).
    destruct (is_request q && (line_len q =? 0)).
    + pose proof (bd_blank _ Hbq). unfold CHTTP1_MAX_LEADING_BLANK_LINES in *. sz.
      set (q' := set_leading_blank_lines _ q).
      assert (Hbq' : bounded q') by (destruct Hbq; constructor; try done; unfold q'; psimpl;
        unfold CHTTP1_MAX_LEADING_BLANK_LINES; lia).
      rewrite Z.gtb_ltb. destruct (Z.ltb_spec 25 (leading_blank_lines q')).
      { by apply wp_ret, fail_ok. }
      apply wp_ret, again_ok; [|by unfold alive, q'; psimpl; rewrite F6|done|done|done].
      constructor; [apply bounded_set_line; [done|apply zlen_nonneg]|]. unfold framed, q' in *. psimpl. by rewrite F6.
    + pose proof (effective_max_bytes q Hbq). pose proof (bd_bytes _ Hbq).
      unfold ccol_max_elem_count, CHTTP1_MAX_SPILL_LINE_LEN in *. sz.
      rewrite Z.gtb_ltb. destruct (Z.ltb_spec (effective_max_total_header_bytes q) (total_header_bytes q + (line_len q + 2))).
      { by apply wp_ret, fail_ok. }
      set (q' := set_total_header_bytes _ q).
      assert (Ht : 0 <= total_header_bytes q + (line_len q + 2) <= effective_max_total_header_bytes q) by lia.
      assert (Hbq' : bounded q') by (destruct Hbq; by constructor).
      apply wp_bind.
      set (Post := fun (r : ph_result_t * chttp1_parser * U) (m1 : mem) =>
        m1 = m' /\ let '(ph, p', _) := r in first_line_changed q' p' /\
          (ph = PH_ERROR -> is_Some (reason p'))).
      apply (wp_mono _ _ Post).
      { destruct (is_request q') eqn:Er.
        - apply wp_parse_request_line; [done|done|]. intros ph p' u' Hp' Hr. done.
        - apply wp_bind. eapply wp_parse_status_line; [done|done|]. intros ok p' Hp' Hr.
          apply wp_ret. split; [done|]. split; [done|]. destruct ok; [done|auto]. }
      intros [[ph p'] u'] m1 (-> & Hp' & Hr). pose proof (bounded_first_line _ _ Hbq' Hp') as Hb'.
      assert (settled p' = settled p) by (by rewrite (settled_first_line _ _ Hp')).
      assert (spill_own p' = spill_own q) as Hsp by (by destruct Hp' as (r & a & b & c & -> & _)).
      rewrite <- Hsp in Ho'.
      destruct ph; [|by apply wp_ret, fail_already_ok; auto|by apply wp_ret, user_error_ok].
      apply wp_ret, again_ok; try done. constructor.
      * assert (Hbl : bounded (set_line [] p')) by (apply bounded_set_line; [done|apply zlen_nonneg]).
        destruct Hbl. by constructor.
      * destruct Hp' as (r & a & b & c & -> & _). unfold framed. psimpl.
        unfold q'. psimpl. unfold has_flag in *. psimpl. rewrite F1, F2, F3. done.
  - by apply wp_ret, fail_ok.
  - by apply wp_ret, fail_ok.
Qed.

(** ** The end of the headers, and of the message *)
Lemma complete_ok len p data F m' u q pos : bounded q -> headers_read q ->
  finish_state q <> CHTTP1_FINISH_UNSAFE -> settled q = settled p -> owns m' (spill_own q) F ->
  len - zlen data < pos <= len ->
  pass_ok len p data F (complete_message settings q u pos) m'.
Proof.
  intros Hb Hh Hf Hs Ho Hpos. unfold complete_message. destruct (call _ _ _ _ u) as [err u'].
  destruct (negb (err =? 0)); [by apply user_error_ok|].
  cbn [pass_ok returned stops_inside]. split_and!; try done.
  constructor; [destruct Hb; by constructor|]. done.
Qed.

Lemma bounded_flag F p : bounded p -> bounded (add_flag F p).
Proof. intros Hb. destruct Hb. by constructor. Qed.

Lemma request_checked p : request_refused p = None ->
  (is_request p = true ->
   host_count p <= 1 /\ (is_1_1_or_later p = true -> 0 <= host_count p -> host_count p = 1) /\
   (has_flag F_TRANSFER_ENCODING p = true ->
    is_1_1_or_later p = true /\ has_flag F_CHUNKED p = true)).
Proof.
  unfold request_refused. rewrite Z.gtb_ltb. intros H Hr. rewrite Hr in H. cbn [negb] in H.
  destruct (Z.ltb_spec 1 (host_count p)); [done|].
  destruct (Z.eqb_spec (host_count p) 0), (is_1_1_or_later p), (has_flag F_TRANSFER_ENCODING p),
    (has_flag F_CHUNKED p); try done; repeat split; try done; lia.
Qed.

Lemma frame_body_ok len p data F m' u q nb wd pos rest :
  bounded q -> headers_read q -> settled q = settled p -> owns m' (spill_own q) F ->
  len - zlen data < pos <= len -> (length rest < length data)%nat ->
  (wd = true -> is_request q = true) ->
  (nb = false -> has_flag F_CONTENT_LENGTH q = true -> has_flag F_TRANSFER_ENCODING q = false) ->
  (has_flag F_CHUNKED q = true -> has_flag F_TRANSFER_ENCODING q = true /\ has_flag F_CONTENT_LENGTH q = false) ->
  pass_ok len p data F (frame_body settings nb wd q u pos rest) m'.
Proof.
  intros Hb Hh Hs Ho Hpos Hrest Hwd Hte Hck. unfold frame_body.
  assert (Hsafe : forall q', q' = set_finish_state CHTTP1_FINISH_SAFE q ->
    pass_ok len p data F (complete_message settings q' u pos) m').
  { intros q' ->. apply complete_ok; try done. destruct Hb; by constructor. }
  assert (Hstate : forall st fs, bounded (set_finish_state fs (set_state st q)) /\
    bounded (set_consumed pos (set_finish_state fs (set_state st q)))).
  { intros. destruct Hb. by split; constructor. }
  destruct nb; [by apply Hsafe|]. destruct (has_flag F_CHUNKED q) eqn:Eck.
  - destruct (Hck eq_refl) as [Hte1 Hcl].
    destruct wd.
    + cbn [pass_ok returned stops_inside]. split_and!; try done; [auto|by right|].
      constructor; [apply Hstate|]. done.
    + apply again_ok; try done. constructor; [apply Hstate|]. done.
  - destruct (has_flag F_CONTENT_LENGTH q) eqn:Ecl.
    + destruct (Z.eqb_spec (content_length q) 0); [by apply Hsafe|].
      pose proof (bd_content _ Hb). assert (Hpos' : 0 < content_length q) by lia.
      assert (Hte' : has_flag F_TRANSFER_ENCODING q = false) by auto.
      destruct wd.
      * cbn [pass_ok returned stops_inside]. split_and!; try done; [auto|by left|].
        constructor; [apply Hstate|]. done.
      * apply again_ok; try done. constructor; [apply Hstate|]. done.
    + destruct (is_request q) eqn:Er; [by apply Hsafe|].
      apply again_ok; try done. constructor; [apply Hstate|]. done.
Qed.

Lemma headers_done_ok len p data F m' u q pos rest :
  bounded q -> framed q -> state q = CHTTP1_ST_HEADERS -> settled q = settled p ->
  owns m' (spill_own q) F ->
  len - zlen data < pos <= len -> (length rest < length data)%nat ->
  pass_ok len p data F (headers_done settings q u pos rest) m'.
Proof.
  intros Hb Hf Hst Hs Ho Hpos Hrest. unfold headers_done.
  destruct (request_refused q) eqn:Eref; [by apply fail_ok|].
  pose proof (request_checked q Eref) as Hreq. unfold framed in Hf. rewrite Hst in Hf.
  destruct Hf as (Hboth & Hte & _ & _).
  set (q1 := add_flag F_HEADERS_DONE q).
  assert (Hfl : has_flag F_CHUNKED q1 = has_flag F_CHUNKED q /\
    has_flag F_TRANSFER_ENCODING q1 = has_flag F_TRANSFER_ENCODING q /\
    has_flag F_CONTENT_LENGTH q1 = has_flag F_CONTENT_LENGTH q /\
    has_flag F_HEADERS_DONE q1 = true) by (unfold q1; flag_bits; done).
  destruct Hfl as (Fc & Ft & Fl & Fd).
  assert (Hb1 : bounded q1) by by apply bounded_flag.
  assert (Hh1 : headers_read q1).
  { split; [done|]. rewrite Fc, Ft. intros Hr. destruct (Hreq Hr) as (H1 & H2 & H3).
    split; [done|]. split; [|done]. intros Hv. apply H2; [done|]. apply Hb. }
  assert (Hs1 : settled q1 = settled p) by done.
  assert (Ho1 : owns m' (spill_own q1) F) by done.
  rewrite <- Ft, <- Fc, <- Fl in *. clear Fc Ft Fl Fd Hreq Eref. clearbody q1.
  destruct (call _ _ _ _ u) as [hint u'].
  match goal with |- context [if ?b then Return CHTTP1_USER _ _ else _] => destruct b end;
    [by apply user_error_ok|].
  set (nb := (hint =? CHTTP1_HEADERS_NO_BODY) || _). clearbody nb.
  destruct (negb nb && _ && _ && _) eqn:Ebad; [by apply fail_ok|].
  apply frame_body_ok; try done.
  - intros [_ ?]%andb_true_iff. done.
  - intros -> Hcl. rewrite Hcl in *. cbn in Hboth, Ebad. rewrite Hboth in Ebad. cbn in Ebad.
    rewrite !andb_true_r in Ebad. done.
  - intros Hc. rewrite Hc, andb_true_r in Hboth. split; [auto|done].
Qed.

(** ** Lines of headers, trailers and chunks *)
Lemma framed_chunked p : framed p -> state p = CHTTP1_ST_HEADERS \/ state p = CHTTP1_ST_BODY_CHUNK_TRAILERS ->
  chunked_has_te p.
Proof. unfold framed, chunked_has_te, chunk_framed. intros Hf [E|E]; rewrite E in Hf; tauto. Qed.

(** A header or trailer line leaves the message framed. *)
Lemma framed_field (tr : bool) p p' : framed p -> field_read p p' ->
  state p = (if tr then CHTTP1_ST_BODY_CHUNK_TRAILERS else CHTTP1_ST_HEADERS) ->
  (tr = true -> same_framing p p') ->
  (tr = false -> has_flag F_CONTENT_LENGTH p' && has_flag F_CHUNKED p' = false) ->
  framed p' /\ state p' = state p.
Proof.
  intros Hf (q & n & t & (r & fl & cl & hc & -> & _ & _ & Hd & Hte) & -> & _) Hst Hsame Hboth.
  split; [|done]. unfold framed in *. psimpl. rewrite Hst in *. destruct tr.
  - destruct (Hsame eq_refl) as (Hfl & Hcl & Hhc). psimpl. subst.
    unfold chunk_framed, headers_read, has_flag in *. psimpl. done.
  - destruct Hf as (_ & _ & Hhd & Hfs). unfold has_flag in *. psimpl. rewrite Hd.
    split; [by apply Hboth|]. done.
Qed.

Lemma header_spill_budget_nonneg p : 0 <= header_spill_budget p.
Proof.
  unfold header_spill_budget. destruct (negb _); [done|]. destruct (_ >? _); [|done]. apply wrap_range.
Qed.

Lemma wp_field_line_pass len (tr : bool) msg p u data m F blank : parser_ok p ->
  state p = (if tr then CHTTP1_ST_BODY_CHUNK_TRAILERS else CHTTP1_ST_HEADERS) ->
  data <> [] -> owns m (spill_own p) F ->
  (forall q rest m', bounded q -> framed q -> state q = state p -> settled q = settled p ->
     owns m' (spill_own q) F -> (length rest < length data)%nat ->
     pass_ok len p data F (blank q rest) m') ->
  wp (field_line_pass settings tr msg p u data blank) m (pass_ok len p data F).
Proof.
  intros [Hb Hf] Hst Hd Ho Hblank. unfold field_line_pass.
  apply wp_bind. eapply wp_accumulate_line; [apply header_spill_budget_nonneg|done|done|].
  intros lr q rest m' Ho' Hch Hbq Hlen%rest_shorter Hmore Hready; [|done].
  pose proof (settled_line _ _ Hch) as Hs. pose proof (state_line _ _ Hch) as Hsq.
  pose proof (framed_line _ _ Hch Hf) as Hfq.
  destruct lr; [|..|by apply wp_ret, fail_ok|by apply wp_ret, fail_ok].
  { rewrite (Hmore eq_refl). apply wp_ret, need_more_ok; try done.
    unfold alive. by rewrite Hst; destruct tr. }
  destruct (line_len q =? 0); [by apply wp_ret, Hblank|].
  apply wp_bind. eapply wp_process_header_line; [done| |done|by apply Hready|].
  { apply framed_chunked; [done|]. rewrite Hsq, Hst. destruct tr; auto. }
  intros ph q' u' Hfr Hr Hsame Hboth. pose proof (bounded_field _ _ Hbq Hfr) as Hbq'.
  assert (settled q' = settled p) by (by rewrite (settled_field _ _ Hfr)).
  assert (spill_own q' = spill_own q) as Hsp
    by (by destruct Hfr as (? & ? & ? & (? & ? & ? & ? & -> & _) & -> & _)).
  rewrite <- Hsp in Ho'.
  destruct ph; [|by apply wp_ret, fail_already_ok; auto|by apply wp_ret, user_error_ok].
  destruct (framed_field tr q q' Hfq Hfr) as [Hfq' Hsq']; [by rewrite Hsq|auto|auto|].
  apply wp_ret, again_ok; try done.
  - constructor; [|done]. apply bounded_set_line; [done|apply zlen_nonneg].
  - unfold alive. psimpl. by rewrite Hsq', Hsq, Hst; destruct tr.
Qed.

Lemma wp_chunk_size_pass len p u data m F : parser_ok p -> state p = CHTTP1_ST_BODY_CHUNK_SIZE ->
  data <> [] -> owns m (spill_own p) F ->
  wp (chunk_size_pass p u data) m (pass_ok len p data F).
Proof.
  intros [Hb Hf] Hst Hd Ho. unfold chunk_size_pass.
  apply wp_bind. eapply wp_accumulate_line; [done|done|done|].
  intros lr q rest m' Ho' Hch Hbq Hlen%rest_shorter Hmore Hready; [|done].
  pose proof (settled_line _ _ Hch) as Hs. pose proof (state_line _ _ Hch) as Hsq.
  pose proof (framed_line _ _ Hch Hf) as Hfq.
  destruct lr; [|..|by apply wp_ret, fail_ok|by apply wp_ret, fail_ok].
  { rewrite (Hmore eq_refl). apply wp_ret, need_more_ok; try done. unfold alive. by rewrite Hst. }
  apply wp_bind. eapply wp_parse_chunk_size_line; [done|done|]. intros ok q' Hq'.
  pose proof (bounded_chunk_line _ _ _ Hbq Hq') as Hbq'.
  assert (Hs' : settled q' = settled p) by (by rewrite (settled_chunk_line _ _ _ Hq')).
  destruct ok; cbn [negb chunk_line_read] in *.
  2:{ destruct Hq' as (r & fl & ->). by apply wp_ret, fail_already_ok. }
  destruct Hq' as (v & Hv & _ & ->). unfold framed in Hfq. rewrite Hsq, Hst in Hfq.
  pose proof (bounded_set_line _ [] Hbq' (zlen_nonneg _)) as Hbl.
  apply wp_ret, again_ok; try done.
  - constructor; [destruct Hbl; by constructor|]. unfold framed. psimpl.
    destruct (Z.eqb_spec v 0); [done|]. split; [done|]. lia.
  - unfold alive. psimpl. by destruct (v =? 0).
Qed.

Lemma wp_chunk_crlf_pass len p u data m F : parser_ok p -> state p = CHTTP1_ST_BODY_CHUNK_CRLF ->
  data <> [] -> owns m (spill_own p) F ->
  wp (chunk_crlf_pass p u data) m (pass_ok len p data F).
Proof.
  intros [Hb Hf] Hst Hd Ho. unfold chunk_crlf_pass.
  apply wp_bind. eapply wp_accumulate_line; [done|done|done|].
  intros lr q rest m' Ho' Hch Hbq Hlen%rest_shorter Hmore Hready; [|done].
  pose proof (settled_line _ _ Hch) as Hs. pose proof (state_line _ _ Hch) as Hsq.
  pose proof (framed_line _ _ Hch Hf) as Hfq.
  destruct lr; [|..|by apply wp_ret, fail_ok|by apply wp_ret, fail_ok].
  { rewrite (Hmore eq_refl). apply wp_ret, need_more_ok; try done. unfold alive. by rewrite Hst. }
  destruct (negb _); [by apply wp_ret, fail_ok|]. unfold framed in Hfq. rewrite Hsq, Hst in Hfq.
  apply wp_ret, again_ok; try done. constructor; [destruct Hbq; by constructor|done].
Qed.

(** ** Bodies *)
Lemma body_pass_ok len p data F m' u take next : bounded p -> owns m' (spill_own p) F ->
  0 <= take <= content_length p ->
  (forall u', pass_ok len p data F
     (next (set_content_length (content_length p - take) p) u' (zdrop take data)) m') ->
  pass_ok len p data F (body_pass settings take p u data next) m'.
Proof.
  intros Hb Ho Ht Hnext. unfold body_pass.
  destruct (if take >? 0 then _ else _) as [err u']. destruct (negb (err =? 0)); [by apply user_error_ok|].
  pose proof (bd_content _ Hb). unfold UINT64_MAX in *. sz. apply Hnext.
Qed.

Lemma wp_execute_pass len p u data m F : parser_ok p -> alive p -> data <> [] ->
  zlen data <= len -> owns m (spill_own p) F ->
  wp (execute_pass settings len p u data) m (pass_ok len p data F).
Proof.
  intros Hok [Ha1 Ha2] Hd Hlen Ho. pose proof (ok_bounded _ Hok) as Hb. pose proof (ok_framed _ Hok) as Hf.
  assert (Hz : 0 < zlen data) by (destruct data; [done|rewrite zlen_cons; pose proof (zlen_nonneg data); lia]).
  assert (Hpos : forall rest : list Z, (length rest < length data)%nat -> len - zlen data < len - zlen rest <= len).
  { intros rest Hr. unfold zlen. lia. }
  set (take := if zlen data <? content_length p then zlen data else content_length p).
  assert (Ht : take = Z.min (zlen data) (content_length p)).
  { unfold take. by destruct (Z.ltb_spec (zlen data) (content_length p)); lia. }
  unfold execute_pass. destruct (state p) eqn:Hst; try done; fold take.
  - by apply wp_first_line_pass.
  - apply wp_field_line_pass; try done. intros q rest m' Hbq Hfq Hsq Hs Ho' Hr.
    apply headers_done_ok; auto; congruence.
  - apply wp_ret. unfold framed in Hf. rewrite Hst in Hf. destruct Hf as (H1 & H2 & H3 & H4 & H5).
    apply body_pass_ok; [done|done|lia|]. intros u'. psimpl.
    assert (Hb' : bounded (set_content_length (content_length p - take) p)).
    { destruct Hb; constructor; try done. psimpl. unfold UINT64_MAX in *. lia. }
    assert (Hr : (length (zdrop take data) < length data)%nat).
    { unfold zdrop. rewrite length_drop. unfold zlen in *. lia. }
    destruct (Z.eqb_spec (content_length p - take) 0).
    + apply complete_ok; try done; [|by auto]. destruct Hb'; by constructor.
    + apply again_ok; try done; [|by unfold alive; psimpl; rewrite Hst].
      constructor; [done|]. unfold framed. psimpl. rewrite Hst. split_and!; try done. lia.
  - by apply wp_chunk_size_pass.
  - apply wp_ret. unfold framed in Hf. rewrite Hst in Hf. destruct Hf as [H1 H2].
    apply body_pass_ok; [done|done|lia|]. intros u'. psimpl.
    assert (Hb' : bounded (set_content_length (content_length p - take) p)).
    { destruct Hb; constructor; try done. psimpl. unfold UINT64_MAX in *. lia. }
    assert (Hr : (length (zdrop take data) < length data)%nat).
    { unfold zdrop. rewrite length_drop. unfold zlen in *. lia. }
    destruct (Z.eqb_spec (content_length p - take) 0).
    + apply again_ok; try done. constructor; [destruct Hb'; by constructor|done].
    + apply again_ok; try done; [|by unfold alive; psimpl; rewrite Hst].
      constructor; [done|]. unfold framed. psimpl. rewrite Hst. split; [done|]. lia.
  - by apply wp_chunk_crlf_pass.
  - apply wp_field_line_pass; try done. intros q rest m' Hbq Hfq Hsq Hs Ho' Hr.
    unfold framed in Hfq. rewrite Hsq, Hst in Hfq. destruct Hfq as (H1 & H2 & H3 & H4 & H5).
    apply complete_ok; try done; [|by auto]. destruct Hbq; by constructor.
  - destruct (call _ _ _ _ u) as [err u']. apply wp_ret.
    destruct (negb (err =? 0)); [by apply user_error_ok|].
    apply again_ok; try done; [by unfold alive; rewrite Hst|]. destruct data; [done|cbn; lia].
Qed.

(** ** Calls *)
Lemma wp_execute_loop fuel len p u data m F : parser_ok p -> alive p -> zlen data <= len ->
  owns m (spill_own p) F -> (pass_measure p data < fuel)%nat ->
  wp (execute_loop settings fuel len p u data) m (fun '(code, p', _) m' =>
    returned code p' /\ parser_ok p' /\ settled p' = settled p /\ owns m' (spill_own p') F /\
    (stops_inside code = true -> len - zlen data < consumed p' <= len)).
Proof.
  intros Hok Ha Hlen Ho Hfuel. unfold execute_loop.
  apply (wp_loop
    (fun '(q, _, rest) m1 => parser_ok q /\ alive q /\ settled q = settled p /\
       owns m1 (spill_own q) F /\ (length rest <= length data)%nat)
    (fun '(q, _, rest) => pass_measure q rest)); [|done|done].
  clear m Ho Hfuel. intros [[q v] rest] m (Hq & Hqa & Hs & Ho & Hl).
  destruct (is_nil rest) eqn:En; [by apply wp_ret|]. apply is_nil_false in En.
  apply wp_bind. eapply wp_mono; [apply (wp_execute_pass len q v rest m F Hq Hqa En); [|done]|].
  { unfold zlen in *. lia. }
  intros [q' v' rest'|code q' v'] m1; cbn [pass_ok].
  - intros (H1 & H2 & H3 & H4 & H5 & H6). apply wp_ret. split_and!; try done; [congruence|lia].
  - intros (H1 & _ & H2 & H3 & H4 & H5). apply wp_ret. split_and!; try done; [congruence|].
    intros Hc. specialize (H5 Hc). unfold zlen in *. lia.
Qed.

Lemma wp_execute p u data m F : parser_ok p -> owns m (spill_own p) F ->
  wp (chttp1_parser_execute settings p u data) m (fun '(code, p', _) m' =>
    (alive p -> returned code p') /\ parser_ok p' /\ settled p' = settled p /\
    owns m' (spill_own p') F /\
    (stops_inside code = true -> 0 < consumed p' <= zlen data)).
Proof.
  intros Hok Ho.
  assert (Hrun : alive p -> wp (execute_loop settings (2 * length data + 2) (zlen data) p u data) m
    (fun '(code, p', _) m' => (alive p -> returned code p') /\ parser_ok p' /\
       settled p' = settled p /\ owns m' (spill_own p') F /\
       (stops_inside code = true -> 0 < consumed p' <= zlen data))).
  { intros Ha. eapply wp_mono; [apply wp_execute_loop; [done|done|lia|done|]|].
    - unfold pass_measure. destruct (state p); lia.
    - intros [[code p'] u'] m' (H1 & H2 & H3 & H4 & H5). split_and!; try done.
      all: intros Hc; specialize (H5 Hc); lia. }
  unfold alive in *. unfold chttp1_parser_execute.
  destruct (state p) eqn:Hst; try (by apply Hrun); apply wp_ret; split_and!; try done; by intros [??].
Qed.

Lemma init_ok t count bytes chunk spill :
  0 <= count <= ccol_max_elem_count -> 0 <= bytes <= ccol_max_elem_count ->
  let p := set_overrides count bytes chunk (parser_init_common t) in
  let p := if (spill : bool) then (chttp1_parser_enable_line_spill p).2 else p in
  parser_ok p /\ alive p /\ spill_own p = ∅.
Proof.
  intros Hc Hb. cbn zeta. set (p := set_overrides _ _ _ _).
  assert (Hmax : 0 <= effective_max_header_count p /\ 0 <= effective_max_total_header_bytes p).
  { unfold effective_max_header_count, effective_max_total_header_bytes.
    change (max_header_count_override p) with count. change (max_total_header_bytes_override p) with bytes.
    destruct (negb (count =? 0)), (negb (bytes =? 0)); split; try done; lia. }
  assert (Hp : parser_ok p) by (constructor; [constructor; try done; first [by intros [? ?]|split; [done|apply Hmax]]|done]).
  destruct spill; [|done]. unfold chttp1_parser_enable_line_spill.
  destruct (is_request p) eqn:Er; [done|]. cbn [snd]. destruct Hp as [[] Hf].
  split; [|done]. constructor; [by constructor|done].
Qed.

(** Feeding buffers one after the other, while the message is not complete. *)
Fixpoint feed (p : chttp1_parser) (u : U) (datas : list (list Z)) :
    M (chttp1_errno_t * chttp1_parser * U) :=
  match datas with
  | [] => mret (CHTTP1_OK, p, u)
  | d :: ds =>
      '(code, p, u) ← chttp1_parser_execute settings p u d;
      match code with
      | CHTTP1_OK | CHTTP1_HEADERS_ONLY => feed p u ds
      | _ => mret (code, p, u)
      end
  end.

Lemma wp_feed datas p u m F : parser_ok p -> alive p -> owns m (spill_own p) F ->
  wp (feed p u datas) m (fun '(code, p', _) m' =>
    returned code p' /\ parser_ok p' /\ settled p' = settled p /\ owns m' (spill_own p') F).
Proof.
  revert p u m. induction datas as [|d ds IH]; intros p u m Hok Ha Ho; cbn [feed]; [by apply wp_ret|].
  apply wp_bind. eapply wp_mono; [by apply wp_execute|].
  intros [[code p'] u'] m' (H1 & H2 & H3 & H4 & _). specialize (H1 Ha). rewrite <- H3.
  destruct code; cbn [returned] in H1; try (by apply wp_ret); apply IH; try done.
  unfold alive. by destruct H1 as [_ [-> | ->]].
Qed.

Lemma finish_ok p u : parser_ok p ->
  let '(code, p', _) := chttp1_parser_finish settings p u in
  parser_ok p' /\ settled p' = settled p /\ spill_own p' = spill_own p.
Proof.
  intros Hok. pose proof (ok_bounded _ Hok) as Hb. pose proof (ok_framed _ Hok) as Hf.
  unfold chttp1_parser_finish.
  assert (Hdead : forall r, parser_ok (fail r p)).
  { intros r. constructor; [destruct Hb; by constructor|]. unfold framed. by psimpl. }
  assert (Huser : parser_ok (user_error p) /\ settled (user_error p) = settled p /\
    spill_own (user_error p) = spill_own p).
  { unfold user_error. psimpl. destruct (reason p) eqn:E; (split; [|done]);
      (constructor; [destruct Hb; by constructor|unfold framed; psimpl; rewrite ?E; eauto]). }
  destruct (state p) eqn:Hst; try done; destruct (finish_state p) eqn:Hfs; try done;
    destruct (call _ _ _ _ u) as [err u']; destruct (negb (err =? 0)); try done;
    (split; [|done]); (constructor; [destruct Hb; by constructor|]);
    unfold framed, chunk_framed in *; psimpl; rewrite Hst in Hf; destruct_and?; split; try done; congruence.
Qed.
End Exec.

(** A message from the initialisation of its parser to the release. *)
Definition lifetime `{Allocator} {U} (settings : option (chttp1_settings_t U)) (request spill : bool)
    (count bytes chunk : Z) (datas : list (list Z)) (u : U) :
    M (chttp1_errno_t * chttp1_parser * chttp1_errno_t) :=
  let p := set_overrides count bytes chunk
             (if request then chttp1_parser_init_request else chttp1_parser_init) in
  let p := if spill then (chttp1_parser_enable_line_spill p).2 else p in
  '(code, p, u) ← feed settings p u datas;
  let '(last, p', u) := chttp1_parser_finish settings p u in
  _ ← chttp1_parser_release p';
  mret (code, p, last).

(** C4: whatever bytes arrive, in whatever pieces, and whatever the callbacks
    answer, a parser with any limits runs from its initialisation to its
    release without reading a byte it did not store, writing outside its line
    buffer or looping, gives back every block, and stays within its limits on
    lines, header count and header bytes; each answer leaves the state that
    it announces. *)
Theorem http1_lifetime `{Allocator} {U} (settings : option (chttp1_settings_t U)) request spill
    count bytes chunk datas u m F :
  0 <= count <= ccol_max_elem_count -> 0 <= bytes <= ccol_max_elem_count -> owns m ∅ F ->
  wp (lifetime settings request spill count bytes chunk datas u) m (fun '(code, p, last) m' =>
    owns m' ∅ F /\ returned code p /\
    header_count p <= (if count =? 0 then CHTTP1_MAX_HEADER_COUNT else count) /\
    total_header_bytes p <= (if bytes =? 0 then CHTTP1_MAX_TOTAL_HEADER_BYTES else bytes) /\
    line_len p <= (if spill && negb request then CHTTP1_MAX_SPILL_LINE_LEN else CHTTP1_MAX_LINE_LEN) /\
    is_request p = request).
Proof.
  intros Hc Hb Ho. unfold lifetime. set (p0 := set_overrides _ _ _ _).
  set (p1 := if spill then _ else p0).
  destruct (init_ok (if request then CHTTP1_PARSE_REQUEST else CHTTP1_PARSE_RESPONSE) count bytes chunk
    spill Hc Hb) as (Hok & Ha & Hsp).
  assert (Hp0 : set_overrides count bytes chunk (parser_init_common
    (if request then CHTTP1_PARSE_REQUEST else CHTTP1_PARSE_RESPONSE)) = p0)
    by (unfold p0; by destruct request).
  rewrite Hp0 in Hok, Ha, Hsp. fold p1 in Hok, Ha, Hsp.
  apply wp_bind. eapply wp_mono; [apply (wp_feed settings datas p1 u m F Hok Ha); by rewrite Hsp|].
  intros [[code p] u'] m' (Hret & Hp & Hs & Ho').
  pose proof (finish_ok settings p u' Hp) as Hfin.
  destruct (chttp1_parser_finish settings p u') as [[last p'] u'']. destruct Hfin as (_ & _ & Hsp').
  rewrite <- Hsp' in Ho'. apply wp_bind.
  assert (Hpost : header_count p <= (if count =? 0 then CHTTP1_MAX_HEADER_COUNT else count) /\
    total_header_bytes p <= (if bytes =? 0 then CHTTP1_MAX_TOTAL_HEADER_BYTES else bytes) /\
    line_len p <= (if spill && negb request then CHTTP1_MAX_SPILL_LINE_LEN else CHTTP1_MAX_LINE_LEN) /\
    is_request p = request).
  { assert (Hset : type p = (if request then CHTTP1_PARSE_REQUEST else CHTTP1_PARSE_RESPONSE) /\
      line_spill_enabled p = spill && negb request /\ max_header_count_override p = count /\
      max_total_header_bytes_override p = bytes).
    { unfold settled in Hs. injection Hs as -> -> -> -> _. unfold p1, p0. by destruct spill, request. }
    destruct Hset as (Ht & He & Hmc & Hmb). destruct Hp as [Hbd _].
    pose proof (bd_count _ Hbd). pose proof (bd_bytes _ Hbd). pose proof (bd_line _ Hbd) as Hl.
    pose proof (bd_spill _ Hbd) as Hsp1.
    unfold effective_max_header_count, effective_max_total_header_bytes, line_storage, is_request in *.
    rewrite Hmc, Hmb, Ht, He in *.
    split_and!; [destruct (count =? 0); cbn in *; lia|destruct (bytes =? 0); cbn in *; lia| |by destruct request].
    destruct (line_spill p); [by rewrite Hsp1 by eauto|].
    unfold CHTTP1_MAX_SPILL_LINE_LEN, CHTTP1_MAX_LINE_LEN in *. destruct (spill && negb request); lia. }
  unfold chttp1_parser_release. unfold spill_own in Ho'. destruct (line_spill p') as [id|].
  - apply wp_bind. eapply wp_free_owns; [done|set_solver|]. intros m1 Ho1. apply wp_ret, wp_ret.
    split; [|done]. eapply owns_change; [done|set_solver].
  - by apply wp_ret, wp_ret.
Qed.

(** A callback of every kind that answers 0 and leaves a trace; it is additive
    in the pieces of the body. *)
Record message := Message {
  msg_line : list (list Z * list Z);
  msg_headers : list (list Z * list Z);
  msg_body : list Z;
  msg_trailers : list (list Z * list Z);
  msg_complete : Z;
}.

Definition no_message : message := Message [] [] [] [] 0.

Definition recorder : chttp1_settings_t message := Settings
  (Some (fun _ n v u => (0, Message (msg_line u) (msg_headers u ++ [(n, v)]) (msg_body u)
                              (msg_trailers u) (msg_complete u))))
  (Some (fun _ n v u => (0, Message (msg_line u) (msg_headers u) (msg_body u)
                              (msg_trailers u ++ [(n, v)]) (msg_complete u))))
  (Some (fun _ m t u => (0, Message (msg_line u ++ [(m, t)]) (msg_headers u) (msg_body u)
                              (msg_trailers u) (msg_complete u))))
  None
  (Some (fun _ b u => (0, Message (msg_line u) (msg_headers u) (msg_body u ++ b)
                            (msg_trailers u) (msg_complete u))))
  (Some (fun _ u => (0, Message (msg_line u) (msg_headers u) (msg_body u)
                          (msg_trailers u) (msg_complete u + 1)))).

#[local] Instance always_grant : Allocator := {| grant _ _ := true; junk _ _ := 0 |}.

Definition crlf : list Z := [13; 10].

Definition sample_request : list Z :=
  lit "POST /a HTTP/1.1" ++ crlf ++ lit "Host: x" ++ crlf ++ lit "Content-Length: 3" ++ crlf ++
  crlf ++ lit "abcGET".

Lemma owns_nothing : owns (Mem 0 ∅) ∅ ∅.
Proof. split; [done|done|intros k Hk; set_solver]. Qed.

Lemma http1_lifetime_witness :
  owns (Mem 0 ∅) ∅ ∅ /\
  wp (lifetime (Some recorder) true true 0 0 0 [lit "POST /a HTTP/1.1"; sample_request] no_message)
    (Mem 0 ∅) (fun '(_, p, _) m' => owns m' ∅ ∅ /\ is_request p = true).
Proof.
  split; [exact owns_nothing|]. eapply wp_mono.
  - by apply (http1_lifetime (Some recorder) true true 0 0 0 _ _ _ ∅), owns_nothing.
  - intros [[code p] last] m' H. split; apply H.
Defined.

(** C31: a connection that ends tells a whole message from a truncated one: a
    message read until the close is completed, once, and never keeps the
    connection; a completed one is left alone; every other is refused. *)
Theorem finish_meaning {U} (settings : option (chttp1_settings_t U)) p u :
  parser_ok p ->
  let '(code, p', u') := chttp1_parser_finish settings p u in
  match state p with
  | CHTTP1_ST_DEAD => code = CHTTP1_ERROR /\ p' = p
  | CHTTP1_ST_MESSAGE_DONE => code = CHTTP1_OK /\ p' = p /\ u' = u
  | CHTTP1_ST_BODY_EOF =>
      (code = CHTTP1_USER /\ state p' = CHTTP1_ST_DEAD) \/
      (code = CHTTP1_PAUSED /\ chttp1_parser_message_complete p' = true /\
       chttp1_should_keep_alive p' = false /\
       chttp1_parser_finish settings p' u' = (CHTTP1_OK, p', u'))
  | _ => code = CHTTP1_ERROR /\ state p' = CHTTP1_ST_DEAD /\ u' = u
  end.
Proof.
  intros Hok. pose proof (ok_framed _ Hok) as Hf. unfold framed, chunk_framed in Hf.
  unfold chttp1_parser_finish at 1. destruct (state p) eqn:Hst; destruct_and?;
    try done; try match goal with H : finish_state p = _ |- _ => rewrite H; done end.
  match goal with H : finish_state p = _ |- _ => rewrite H; rename H into Hfs end.
  destruct (call _ _ _ _ u) as [err u']. destruct (negb (err =? 0)); [left|right].
  - split; [done|]. unfold user_error. psimpl. by destruct (reason p).
  - split; [done|]. split; [done|]. split; [|done]. unfold chttp1_should_keep_alive.
    repeat case_match; try done. psimpl.
    rewrite bool_decide_true by done. done.
Qed.

Lemma finish_meaning_witness :
  let p := set_finish_state CHTTP1_FINISH_SAFE_WITH_CB
             (set_state CHTTP1_ST_BODY_EOF (add_flag F_HEADERS_DONE chttp1_parser_init)) in
  parser_ok p /\
  exists p' u', chttp1_parser_finish (Some recorder) p no_message = (CHTTP1_PAUSED, p', u') /\
    chttp1_should_keep_alive p' = false.
Proof.
  intros p. assert (Hok : parser_ok p).
  { constructor; [constructor; try done; by intros [? ?]|]. unfold framed, headers_read. cbn. done. }
  split; [done|]. pose proof (finish_meaning (Some recorder) p no_message Hok) as H.
  destruct (chttp1_parser_finish (Some recorder) p no_message) as [[code p'] u'] eqn:E.
  cbn in H. destruct H as [[-> _]|(-> & _ & Hk & _)]; [|by exists p', u'].
  by vm_compute in E.
Defined.

(** C19: past its header block a message has one framing: chunked without a
    Content-Length, a Content-Length without a Transfer-Encoding, or neither;
    only a response is then read until the close.  A request then has one
    Host at most, exactly one from HTTP/1.1 on, and a Transfer-Encoding only
    from HTTP/1.1 on and ending in chunked. *)
Theorem one_framing `{Allocator} {U} (settings : option (chttp1_settings_t U)) t datas u m F :
  owns m ∅ F ->
  wp (feed settings (parser_init_common t) u datas) m (fun '(_, p, _) _ =>
    alive p -> has_flag F_HEADERS_DONE p = true ->
    ((has_flag F_CHUNKED p = true /\ chttp1_has_content_length p = false) \/
     (chttp1_has_content_length p = true /\ has_flag F_TRANSFER_ENCODING p = false) \/
     (is_request p = false /\ has_flag F_CHUNKED p = false /\ chttp1_has_content_length p = false)) /\
    (is_request p = true ->
     host_count p <= 1 /\ (is_1_1_or_later p = true -> host_count p = 1) /\
     (has_flag F_TRANSFER_ENCODING p = true -> is_1_1_or_later p = true /\ has_flag F_CHUNKED p = true))).
Proof.
  intros Ho. destruct (init_ok t 0 0 0 false) as (Hok & Ha & Hsp); [done|done|].
  change (set_overrides 0 0 0 (parser_init_common t)) with (parser_init_common t) in *.
  eapply wp_mono; [apply (wp_feed settings datas _ u m F Hok Ha); by rewrite Hsp|].
  intros [[code p] u'] m' (_ & [_ Hf] & _) [Hd1 Hd2] Hh. unfold chttp1_has_content_length.
  unfold framed, chunk_framed, headers_read in Hf. destruct (state p).
  - destruct Hf as (_ & _ & Hno & _). congruence.
  - destruct Hf as (_ & _ & Hno & _). congruence.
  - destruct Hf as (Hcl & Hte & _ & _ & _ & Hr). split; [right; left; done|done].
  - destruct Hf as (Hc & _ & Hcl & _ & _ & Hr). split; [left; done|done].
  - destruct Hf as ((Hc & _ & Hcl & _ & _ & Hr) & _). split; [left; done|done].
  - destruct Hf as (Hc & _ & Hcl & _ & _ & Hr). split; [left; done|done].
  - destruct Hf as (Hc & _ & Hcl & _ & _ & Hr). split; [left; done|done].
  - destruct Hf as (Hq & Hc & Hcl & _ & _ & Hr). split; [right; right; done|done].
  - done.
  - done.
Qed.

Lemma one_framing_witness :
  owns (Mem 0 ∅) ∅ ∅ /\
  wp (feed (Some recorder) (parser_init_common CHTTP1_PARSE_REQUEST) no_message [ztake 60 sample_request])
    (Mem 0 ∅) (fun '(_, p, _) _ =>
      alive p -> has_flag F_HEADERS_DONE p = true -> is_request p = true -> host_count p <= 1).
Proof.
  split; [exact owns_nothing|]. eapply wp_mono.
  - by apply (one_framing (Some recorder) CHTTP1_PARSE_REQUEST _ _ _ ∅), owns_nothing.
  - intros [[code p] u'] m' H Ha Hh Hr. by apply H.
Defined.

(** ** The overhead of chunks *)
Fixpoint read_chunk_sizes `{Allocator} (p : chttp1_parser) (ls : list (list Z)) :
    M (option (list Z)) :=
  match ls with
  | [] => mret (Some [])
  | l :: ls' =>
      '(ok, p) ← parse_chunk_size_line (set_line l p);
      if (ok : bool) then sizes ← read_chunk_sizes p ls'; mret (cons (content_length p) <$> sizes)
      else mret None
  end.

Definition total (f : Z -> Z) (xs : list Z) : Z := foldr (fun x acc => f x + acc) 0 xs.

(** C37: the bytes that frame the chunks of a message, its size lines with two
    CRLFs each, exceed sixteen per chunk and twice the data by 16 KiB at most. *)
Theorem chunk_overhead_bounded `{Allocator} ls p m F :
  bounded p -> owns m (spill_own p) F -> Forall (fun l => zlen l <= line_storage p) ls ->
  wp (read_chunk_sizes p ls) m (fun sizes _ =>
    forall vs, sizes = Some vs -> length vs = length ls /\
      total (fun n => n + 4) (zlen <$> ls) <=
        total (fun v => 16 + 2 * v) vs + CHTTP1_MAX_CHUNK_OVERHEAD_EXCESS - chunk_excess p).
Proof.
  intros Hb Ho Hl. revert p Hb Ho Hl. induction ls as [|l ls IH]; intros p Hb Ho Hl; cbn [read_chunk_sizes].
  { apply wp_ret. intros vs [= <-]. split; [done|]. cbn. pose proof (bd_excess _ Hb). lia. }
  apply Forall_cons in Hl as [Hl1 Hl2].
  assert (Hbl : bounded (set_line l p)) by (destruct Hb; by constructor).
  apply wp_bind. eapply wp_parse_chunk_size_line; [done|done|]. intros ok q Hq.
  pose proof (bounded_chunk_line _ _ _ Hbl Hq) as Hbq.
  destruct ok; [|by apply wp_ret]. destruct Hq as (v & Hv & He & ->). psimpl.
  apply wp_bind. eapply wp_mono; [by apply IH|]. intros [vs|] m' Hvs; [|by apply wp_ret].
  apply wp_ret. intros vs' [= <-]. destruct (Hvs vs eq_refl) as [Hlen Hle]. psimpl. cbn [length fmap list_fmap total foldr] in *.
  split; [lia|]. unfold excess_after, line_len in *. psimpl. fold (total (fun n => n + 4) (zlen <$> ls)).
  fold (total (fun v => 16 + 2 * v) vs). lia.
Qed.

Lemma chunk_overhead_bounded_witness :
  let p := chttp1_parser_init_request in
  let ls := [lit "10;a=b"; lit "0"] in
  bounded p /\ wp (read_chunk_sizes p ls) (Mem 0 ∅) (fun sizes _ =>
    sizes = Some [16; 0] /\ total (fun n => n + 4) (zlen <$> ls) <= 64 + CHTTP1_MAX_CHUNK_OVERHEAD_EXCESS).
Proof.
  intros p ls. assert (Hb : bounded p) by (constructor; try done; by intros [? ?]).
  split; [done|].
  assert (Ho : owns (Mem 0 ∅) (spill_own p) ∅) by (split; [done|done|intros k Hk; set_solver]).
  pose proof (chunk_overhead_bounded ls p (Mem 0 ∅) ∅ Hb Ho ltac:(repeat constructor; done)) as H.
  assert (E : read_chunk_sizes p ls (Mem 0 ∅) = Done (Some [16; 0]) (Mem 0 ∅)) by (vm_compute; reflexivity).
  unfold wp in *. rewrite E in *. split; [done|]. destruct (H _ eq_refl) as [_ Hle].
  change (chunk_excess p) with 0 in Hle. change (total (fun v => 16 + 2 * v) [16; 0]) with 64 in Hle. lia.
Defined.

(** The comment on [parse_chunk_size_line] says that an extension shorter than
    12 bytes plus twice its chunk's data adds nothing to the excess.  With a
    size of two digits it can: 43 bytes around a chunk of 16 leave one. *)
Lemma short_extension_counts :
  let ext := lit ";aaaaaaaaaaaaaaaaaaaaaaaaaaaaaaaaaaaaaaaaaa" in
  zlen ext < 12 + 2 * 16 /\
  exists p', parse_chunk_size_line (set_line (lit "10" ++ ext) chttp1_parser_init_request) (Mem 0 ∅) =
      Done (true, p') (Mem 0 ∅) /\ content_length p' = 16 /\ chunk_excess p' = 1.
Proof. split; [done|]. eexists. split; [vm_compute; reflexivity|done]. Qed.
