(* ===== verification/CHttp1Split.v ===== *)
(** * The HTTP/1 parser: input in pieces

    A connection delivers a message in pieces that mean nothing.  Feeding a
    buffer in two pieces does what feeding it at once does, up to how often
    [on_body] is called; so the result of a parse depends on the bytes only. *)
From Stdlib Require Import Strings.String.
From S2P Require Import Prelude Memory CText CHttp1 CHttp1Lines CHttp1Parser CHttp1Exec.

Section Split.
Context {alloc : Allocator} {U : Type} (settings : option (chttp1_settings_t U)).

(** [on_body] as the state machine calls it. *)
Definition body_call (p : chttp1_parser) (d : list Z) (u : U) : Z * U :=
  call settings on_body (fun f => f p d) 0 u.

(** The bytes of a body may come in any pieces, and say nothing of the state
    of the parser. *)
Record additive_body : Prop := AdditiveBody {
  ab_parser p q d u : body_call p d u = body_call q d u;
  ab_split p a b u : a <> [] -> b <> [] ->
    body_call p (a ++ b) u =
      let (err, u') := body_call p a u in if err =? 0 then body_call p b u' else (err, u');
}.

(** ** More fuel *)
Lemma loop_more {S R} f1 f2 (body : S -> M (S + R)) s m x m' :
  loop f1 body s m = Done x m' -> (f1 <= f2)%nat -> loop f2 body s m = Done x m'.
Proof.
  revert f2 s m. induction f1 as [|f1 IH]; intros f2 s m E Hle; [done|].
  destruct f2 as [|f2]; [lia|]. cbn [loop] in *. unfold mbind, M_bind in *.
  destruct (body s m) as [[s'|r] m1| | |]; try done. apply IH; [done|lia].
Qed.

(** The loop with just enough fuel. *)
Definition exec (len : Z) (p : chttp1_parser) (u : U) (d : list Z) :
    M (chttp1_errno_t * chttp1_parser * U) :=
  execute_loop settings (S (pass_measure p d)) len p u d.

Definition ready (p : chttp1_parser) (m : mem) (F : gset nat) : Prop :=
  parser_ok p /\ alive p /\ owns m (spill_own p) F.

Lemma exec_done len p u d m F : ready p m F -> zlen d <= len ->
  exists x m', exec len p u d m = Done x m'.
Proof.
  intros (Hok & Ha & Ho) Hl.
  destruct (wp_run _ _ _ (wp_execute_loop settings (S (pass_measure p d)) len p u d m F Hok Ha Hl Ho
    ltac:(lia))) as (x & m' & E & _). by exists x, m'.
Qed.

Lemma exec_enough f len p u d m F : ready p m F -> zlen d <= len -> (pass_measure p d < f)%nat ->
  execute_loop settings f len p u d m = exec len p u d m.
Proof.
  intros Hr Hl Hf. destruct (exec_done len p u d m F Hr Hl) as (x & m' & E). rewrite E.
  eapply loop_more; [exact E|lia].
Qed.

Lemma exec_nil len p u m : exec len p u [] m = Done (CHTTP1_OK, p, u) m.
Proof. done. Qed.

Definition pass_done len p u d m F r m' : Prop :=
  execute_pass settings len p u d m = Done r m' /\ pass_ok len p d F r m'.

Lemma pass_runs len p u d m F : ready p m F -> d <> [] -> zlen d <= len ->
  exists r m', pass_done len p u d m F r m'.
Proof.
  intros (Hok & Ha & Ho) Hd Hl.
  destruct (wp_run _ _ _ (wp_execute_pass settings len p u d m F Hok Ha Hd Hl Ho)) as (r & m' & ? & ?).
  by exists r, m'.
Qed.

Definition continue len (r : @pass U) : M (chttp1_errno_t * chttp1_parser * U) :=
  match r with
  | Again p u d => exec len p u d
  | Return code p u => mret (code, p, u)
  end.

Lemma exec_pass len p u d m F r m' : d <> [] -> zlen d <= len ->
  pass_done len p u d m F r m' -> exec len p u d m = continue len r m'.
Proof.
  intros Hd Hl [E Hok]. unfold exec at 1, execute_loop. cbn [loop]. unfold mbind, M_bind.
  destruct d as [|c d']; [done|]. cbn [is_nil]. rewrite E. destruct r as [p' u' rest|code p' u']; [|done].
  destruct Hok as (H1 & H2 & _ & H3 & H4 & H5). cbn [mret M_ret continue].
  apply (exec_enough _ len p' u' rest m' F); [done|unfold zlen in *; lia|lia].
Qed.

(** ** Lines *)
Lemma accumulate_split B p a b m :
  accumulate_line B p (a ++ b) m =
  match accumulate_line B p a m with
  | Done (LINE_NEED_MORE, p', _) m' => accumulate_line B p' b m'
  | Done (LINE_TOO_LONG, p', _) m' => Done (LINE_TOO_LONG, p', []) m'
  | Done (lr, p', rest) m' => Done (lr, p', rest ++ b) m'
  | o => o
  end.
Proof.
  revert p m. induction a as [|c a IH]; intros p m; [done|]. cbn [app accumulate_line].
  unfold mbind, M_bind.
  destruct (make_room B p m) as [[room p1] m1| | |]; try done. destruct room; [|done]. cbn [negb].
  destruct (put_char c p1 m1) as [p2 m2| | |]; try done. destruct (c =? 10); [|apply IH].
  destruct (line_len p2 <? 2); [done|]. destruct (ub _ m2) as [x m3| | |]; try done.
  by destruct (negb (x =? 13)).
Qed.

Definition pass_app (b : list Z) (r : @pass U) : @pass U :=
  match r with Again p u rest => Again p u (rest ++ b) | _ => r end.

Definition app_out (b : list Z) (o : outcome (@pass U)) : outcome (@pass U) :=
  match o with
  | Done r m => Done (pass_app b r) m
  | Aborted => Aborted | Undefined => Undefined | OutOfFuel => OutOfFuel
  end.

(** What a pass does with the line it read, [k1] for the first piece alone and
    [k2] for both. *)
Record line_cont (u : U) (b : list Z) (k1 k2 : line_result_t * chttp1_parser * list Z -> M (@pass U)) :
    Prop := LineCont {
  lc_more p d : k1 (LINE_NEED_MORE, p, d) = mret (Again p u d);
  lc_long p d d' m : k2 (LINE_TOO_LONG, p, d) m = app_out b (k1 (LINE_TOO_LONG, p, d') m);
  lc_other lr p d m : lr = LINE_READY \/ lr = LINE_BAD_EOL ->
    k2 (lr, p, d ++ b) m = app_out b (k1 (lr, p, d) m);
}.

Lemma line_pass_split B u b k1 k2 p a m : line_cont u b k1 k2 ->
  ((accumulate_line B p (a ++ b) ≫= k2) m = app_out b ((accumulate_line B p a ≫= k1) m)) \/
  (exists p' rest m', accumulate_line B p a m = Done (LINE_NEED_MORE, p', rest) m' /\
     (accumulate_line B p a ≫= k1) m = Done (Again p' u rest) m' /\
     (accumulate_line B p (a ++ b) ≫= k2) m = (accumulate_line B p' b ≫= k2) m').
Proof.
  intros Hk. unfold mbind, M_bind. rewrite accumulate_split.
  destruct (accumulate_line B p a m) as [[[lr p'] rest] m'| | |]; [|by left..].
  destruct lr.
  - right. exists p', rest, m'. rewrite (lc_more _ _ _ _ Hk). done.
  - left. apply (lc_other _ _ _ _ Hk). by left.
  - left. apply (lc_long _ _ _ _ Hk).
  - left. apply (lc_other _ _ _ _ Hk). by right.
Qed.

(** Both sides take the same branches. *)
Ltac same_branches :=
  unfold mbind, M_bind, mret, M_ret;
  repeat (match goal with
  | |- context [match ?e with _ => _ end] =>
      lazymatch e with
      | context [match _ with _ => _ end] => fail
      | _ => destruct e
      end
  end; cbn [app_out pass_app]); done.

Lemma first_line_cont u b : exists k, line_cont u b k k /\
  forall p a, first_line_pass settings p u a = accumulate_line 0 p a ≫= k.
Proof.
  refine (ex_intro _ _ (conj _ (fun p a => eq_refl))). split; [done|done|].
  intros lr p d m [-> | ->]; [|done]. same_branches.
Qed.

Lemma field_line_cont tr msg u b (blank1 blank2 : chttp1_parser -> list Z -> @pass U) :
  (forall p d, blank2 p (d ++ b) = pass_app b (blank1 p d)) ->
  exists k1 k2, line_cont u b k1 k2 /\
    (forall p a, field_line_pass settings tr msg p u a blank1 =
       accumulate_line (header_spill_budget p) p a ≫= k1) /\
    (forall p a, field_line_pass settings tr msg p u a blank2 =
       accumulate_line (header_spill_budget p) p a ≫= k2).
Proof.
  intros Hb. refine (ex_intro _ _ (ex_intro _ _ (conj _ (conj (fun p a => eq_refl) (fun p a => eq_refl))))).
  split; [done|done|]. intros lr p d m [-> | ->]; [|done].
  destruct (line_len p =? 0); [by cbn; rewrite Hb|]. same_branches.
Qed.

Lemma chunk_size_cont u b : exists k, line_cont u b k k /\
  forall p a, chunk_size_pass p u a = accumulate_line 0 p a ≫= k.
Proof.
  refine (ex_intro _ _ (conj _ (fun p a => eq_refl))). split; [done|done|].
  intros lr p d m [-> | ->]; [|done]. same_branches.
Qed.

Lemma chunk_crlf_cont u b : exists k, line_cont u b k k /\
  forall p a, chunk_crlf_pass p u a = accumulate_line 0 p a ≫= k.
Proof.
  refine (ex_intro _ _ (conj _ (fun p a => eq_refl))). split; [done|done|].
  intros lr p d m [-> | ->]; [|done]. same_branches.
Qed.

Lemma complete_app b p u pos :
  pass_app b (complete_message settings p u pos) = complete_message settings p u pos.
Proof. unfold complete_message. by repeat case_match. Qed.

Lemma headers_done_app b p u pos d :
  headers_done settings p u pos (d ++ b) = pass_app b (headers_done settings p u pos d).
Proof.
  unfold headers_done, frame_body.
  repeat match goal with
  | |- context [complete_message] => rewrite !complete_app; done
  | |- _ => case_match; try done
  end.
Qed.

Lemma pos_app (len : Z) (d b : list Z) : len + zlen b - zlen (d ++ b) = len - zlen d.
Proof. rewrite zlen_app. lia. Qed.

(** ** One pass over two pieces *)

(** Equal, or a callback refused and the parsers, both dead, may differ. *)
Definition sim_pass (o1 o2 : outcome (@pass U)) : Prop :=
  o1 = o2 \/
  exists p1 p2 u m, o1 = Done (Return CHTTP1_USER p1 u) m /\ o2 = Done (Return CHTTP1_USER p2 u) m.

(** Either the first piece decides the pass, or it is used up and the pass
    goes on with the second. *)
Definition splits (len : Z) (p : chttp1_parser) (u : U) (a b : list Z) (m : mem) : Prop :=
  execute_pass settings (len + zlen b) p u (a ++ b) m =
    app_out b (execute_pass settings len p u a m) \/
  exists p' u' m', execute_pass settings len p u a m = Done (Again p' u' []) m' /\
    sim_pass (execute_pass settings (len + zlen b) p u (a ++ b) m)
             (execute_pass settings (len + zlen b) p' u' b m').

Lemma line_splits B (len : Z) p u a b m F k1 k2 :
  ready p m F -> line_cont u b k1 k2 ->
  0 <= B p -> (forall p', line_changed p p' -> B p' = B p) ->
  execute_pass settings len p u a = accumulate_line (B p) p a ≫= k1 ->
  (forall p' d, state p' = state p ->
     execute_pass settings (len + zlen b) p' u d = accumulate_line (B p') p' d ≫= k2) ->
  splits len p u a b m.
Proof.
  intros (Hok & _ & Ho) Hk HB HBs E1 E2. unfold splits. rewrite E1, E2 by done.
  destruct (line_pass_split (B p) u b k1 k2 p a m Hk) as [H|(p' & rest & m' & Ea & H1 & H2)]; [by left|].
  pose proof (wp_accumulate_line (B p) a p m F
    (fun '(lr, p', rest) _ => line_changed p p' /\ (lr = LINE_NEED_MORE -> rest = [])) HB (ok_bounded _ Hok) Ho) as Hwp.
  unfold wp in Hwp. rewrite Ea in Hwp.
  destruct Hwp as [Hch Hrest]; [by intros; split|]. rewrite (Hrest eq_refl) in H1.
  right. exists p', u, m'. split; [done|]. left. rewrite H2, E2 by by apply state_line. by rewrite (HBs p' Hch).
Qed.

Lemma budget_line p p' : line_changed p p' -> header_spill_budget p' = header_spill_budget p.
Proof. by intros (-> & _). Qed.

Lemma zsplit (n : Z) (a b : list Z) : n <= zlen a -> ztake n (a ++ b) = ztake n a /\
  zdrop n (a ++ b) = zdrop n a ++ b.
Proof.
  unfold ztake, zdrop, zlen. intros Hn. split; [apply take_app_le|apply drop_app_le]; lia.
Qed.
Lemma zsplit_past (n : Z) (a b : list Z) : zlen a <= n ->
  ztake n (a ++ b) = a ++ ztake (n - zlen a) b /\ zdrop n (a ++ b) = zdrop (n - zlen a) b.
Proof.
  unfold ztake, zdrop, zlen. intros Hn. rewrite take_app_ge, drop_app_ge by lia.
  by rewrite Z2Nat.inj_sub, Nat2Z.id by lia.
Qed.

Definition body_take (p : chttp1_parser) (d : list Z) : Z :=
  if zlen d <? content_length p then zlen d else content_length p.

Lemma body_take_min p d : body_take p d = Z.min (zlen d) (content_length p).
Proof. unfold body_take. destruct (Z.ltb_spec (zlen d) (content_length p)); lia. Qed.

(** A body of known length: the part in the first piece, then the rest. *)
Lemma body_pass_split (Hab : additive_body) p u a b n1 n2 : bounded p -> a <> [] -> b <> [] ->
  0 < content_length p ->
  (forall q v d, n2 q v (d ++ b) = pass_app b (n1 q v d)) ->
  (forall q v d, content_length q <> 0 -> n1 q v d = Again q v d) ->
  body_pass settings (body_take p (a ++ b)) p u (a ++ b) n2 =
    pass_app b (body_pass settings (body_take p a) p u a n1) \/
  exists p' u', body_pass settings (body_take p a) p u a n1 = Again p' u' [] /\
    p' = set_content_length (content_length p - zlen a) p /\ zlen a < content_length p /\
    (body_pass settings (body_take p (a ++ b)) p u (a ++ b) n2 =
       body_pass settings (body_take p' b) p' u' b n2 \/
     exists p1 p2 v, body_pass settings (body_take p (a ++ b)) p u (a ++ b) n2 = Return CHTTP1_USER p1 v /\
       body_pass settings (body_take p' b) p' u' b n2 = Return CHTTP1_USER p2 v).
Proof.
  intros Hb Ha Hbn Hc Happ Hn1. pose proof (bd_content _ Hb) as Hmax. unfold UINT64_MAX in Hmax.
  assert (Hza : 0 < zlen a) by (destruct a; [done|rewrite zlen_cons; pose proof (zlen_nonneg a); lia]).
  assert (Hzb : 0 < zlen b) by (destruct b; [done|rewrite zlen_cons; pose proof (zlen_nonneg b); lia]).
  rewrite !body_take_min, zlen_app. unfold body_pass, body_call.
  destruct (Z_le_gt_dec (content_length p) (zlen a)) as [Hle|Hgt].
  - left. rewrite !Z.min_r by lia. destruct (zsplit (content_length p) a b Hle) as [-> ->].
    destruct (if content_length p >? 0 then _ else _) as [err u'].
    destruct (negb (err =? 0)); [done|]. apply Happ.
  - rewrite (Z.min_l (zlen a)) by lia. set (n := Z.min (zlen a + zlen b) (content_length p)).
    destruct (zsplit_past n a b ltac:(lia)) as [-> ->]. set (b1 := ztake (n - zlen a) b).
    assert (Hb1 : b1 <> []).
    { intros E. assert (zlen b1 = 0) as Hz by by rewrite E. unfold b1 in Hz. rewrite zlen_ztake in Hz by lia. lia. }
    assert ((n >? 0) = true) as -> by (rewrite Z.gtb_ltb; apply Z.ltb_lt; lia).
    assert ((zlen a >? 0) = true) as -> by (rewrite Z.gtb_ltb; apply Z.ltb_lt; lia).
    rewrite (ztake_all a), (zdrop_all a) by lia.
    pose proof (ab_split Hab p a b1 u Ha Hb1) as Hs. unfold body_call in Hs. rewrite Hs. clear Hs.
    destruct (call settings on_body (fun f => f p a) 0 u) as [err u'].
    destruct (Z.eqb_spec err 0); cbn [negb].
    2:{ left. destruct (Z.eqb_spec err 0); [done|]. done. }
    right. sz. set (p' := set_content_length (content_length p - zlen a) p).
    exists p', u'. split; [apply Hn1; unfold p'; psimpl; lia|]. split; [done|]. split; [lia|].
    rewrite body_take_min. change (content_length p') with (content_length p - zlen a).
    assert (Z.min (zlen b) (content_length p - zlen a) = n - zlen a) as -> by lia.
    assert ((n - zlen a >? 0) = true) as -> by (rewrite Z.gtb_ltb; apply Z.ltb_lt; lia). fold b1.
    pose proof (ab_parser Hab p p' b1 u') as Hpp. unfold body_call in Hpp. rewrite <- Hpp.
    destruct (call settings on_body (fun f => f p b1) 0 u') as [err' v].
    destruct (negb (err' =? 0)); [right; by eauto|left].
    unfold p'. psimpl. sz. by replace (content_length p - zlen a - (n - zlen a)) with (content_length p - n) by lia.
Qed.

(** A body state: both [next]s leave the parser where it is while there is
    more to come. *)
Lemma body_splits (Hab : additive_body) len p u a b m n1 n2 : bounded p -> a <> [] -> b <> [] ->
  0 < content_length p ->
  (forall q v d, n2 q v (d ++ b) = pass_app b (n1 q v d)) ->
  (forall q v d, content_length q <> 0 -> n1 q v d = Again q v d) ->
  (forall q d, state q = state p -> settled q = settled p ->
     execute_pass settings len q u d = mret (body_pass settings (body_take q d) q u d n1)) ->
  (forall q v d, state q = state p -> settled q = settled p ->
     execute_pass settings (len + zlen b) q v d = mret (body_pass settings (body_take q d) q v d n2)) ->
  splits len p u a b m.
Proof.
  intros Hb Ha Hbn Hc Happ Hn1 E1 E2. unfold splits. rewrite E1, E2 by done.
  destruct (body_pass_split Hab p u a b n1 n2 Hb Ha Hbn Hc Happ Hn1)
    as [->|(p' & u' & H1 & Hp' & _ & Hcase)]; [by left|].
  right. exists p', u', m. rewrite H1. split; [done|]. rewrite E2 by by rewrite Hp'.
  destruct Hcase as [->|(p1 & p2 & v & -> & ->)]; [by left|]. right. by exists p1, p2, v, m.
Qed.

Lemma pass_splits (Hab : additive_body) len p u a b m F : ready p m F -> a <> [] -> b <> [] ->
  splits len p u a b m.
Proof.
  intros Hr Ha Hbn. pose proof Hr as ([Hb Hf] & [Ha1 Ha2] & Ho). unfold framed in Hf.
  destruct (state p) eqn:Hst; try done.
  - destruct (first_line_cont u b) as (k & Hk & E).
    apply (line_splits (fun _ => 0) len p u a b m F k k); try done.
    + unfold execute_pass. rewrite Hst. apply E.
    + intros p' d Hs. unfold execute_pass. rewrite Hs, Hst. apply E.
  - destruct (field_line_cont false "Header line too long" u b
      (fun p d => headers_done settings p u (len - zlen d) d)
      (fun p d => headers_done settings p u (len + zlen b - zlen d) d)) as (k1 & k2 & Hk & E1 & E2).
    { intros q d. by rewrite pos_app, headers_done_app. }
    apply (line_splits header_spill_budget len p u a b m F k1 k2); try done.
    + apply header_spill_budget_nonneg.
    + apply budget_line.
    + unfold execute_pass. rewrite Hst. apply E1.
    + intros p' d Hs. unfold execute_pass. rewrite Hs, Hst. apply E2.
  - destruct Hf as (_ & _ & Hc & _).
    apply (body_splits Hab len p u a b m
      (fun p u d => if content_length p =? 0
         then complete_message settings (set_finish_state CHTTP1_FINISH_SAFE p) u (len - zlen d)
         else Again p u d)
      (fun p u d => if content_length p =? 0
         then complete_message settings (set_finish_state CHTTP1_FINISH_SAFE p) u (len + zlen b - zlen d)
         else Again p u d)); try done.
    + intros q v d. rewrite pos_app. destruct (content_length q =? 0); [by rewrite complete_app|done].
    + intros q v d Hq. by destruct (Z.eqb_spec (content_length q) 0).
    + intros q d Hs _. unfold execute_pass. by rewrite Hs, Hst.
    + intros q v d Hs _. unfold execute_pass. by rewrite Hs, Hst.
  - destruct (chunk_size_cont u b) as (k & Hk & E).
    apply (line_splits (fun _ => 0) len p u a b m F k k); try done.
    + unfold execute_pass. rewrite Hst. apply E.
    + intros p' d Hs. unfold execute_pass. rewrite Hs, Hst. apply E.
  - destruct Hf as [_ Hc].
    set (next := fun p u d => Again (U:=U)
      (if content_length p =? 0 then set_state CHTTP1_ST_BODY_CHUNK_CRLF p else p) u d).
    apply (body_splits Hab len p u a b m next next); try done; unfold next.
    + intros q v d Hq. by destruct (Z.eqb_spec (content_length q) 0).
    + intros q d Hs _. unfold execute_pass. by rewrite Hs, Hst.
    + intros q v d Hs _. unfold execute_pass. by rewrite Hs, Hst.
  - destruct (chunk_crlf_cont u b) as (k & Hk & E).
    apply (line_splits (fun _ => 0) len p u a b m F k k); try done.
    + unfold execute_pass. rewrite Hst. apply E.
    + intros p' d Hs. unfold execute_pass. rewrite Hs, Hst. apply E.
  - destruct (field_line_cont true "Trailer line too long" u b
      (fun p d => complete_message settings (set_finish_state CHTTP1_FINISH_SAFE p) u (len - zlen d))
      (fun p d => complete_message settings (set_finish_state CHTTP1_FINISH_SAFE p) u (len + zlen b - zlen d)))
      as (k1 & k2 & Hk & E1 & E2).
    { intros q d. by rewrite pos_app, complete_app. }
    apply (line_splits header_spill_budget len p u a b m F k1 k2); try done.
    + apply header_spill_budget_nonneg.
    + apply budget_line.
    + unfold execute_pass. rewrite Hst. apply E1.
    + intros p' d Hs. unfold execute_pass. rewrite Hs, Hst. apply E2.
  - unfold splits, execute_pass. rewrite Hst.
    pose proof (ab_split Hab p a b u Ha Hbn) as Hs. unfold body_call in Hs. rewrite Hs. clear Hs.
    destruct (call settings on_body (fun f => f p a) 0 u) as [err u'].
    destruct (Z.eqb_spec err 0) as [->|]; cbn [negb].
    + right. exists p, u', m. rewrite Hst. split; [done|]. by left.
    + left. by destruct (Z.eqb_spec err 0).
Qed.

(** ** The whole call over two pieces *)
Definition result := outcome (chttp1_errno_t * chttp1_parser * U).

(** Equal results; when a callback refused, the dead parsers may differ. *)
Definition same_result (o1 o2 : result) : Prop :=
  o1 = o2 \/
  exists p1 p2 u m, o1 = Done (CHTTP1_USER, p1, u) m /\ o2 = Done (CHTTP1_USER, p2, u) m.

Lemma exec_split (Hab : additive_body) len a b p u m F : ready p m F -> b <> [] -> zlen a <= len ->
  same_result (exec (len + zlen b) p u (a ++ b) m)
    match exec len p u a m with
    | Done (CHTTP1_OK, p', u') m' => exec (len + zlen b) p' u' b m'
    | o => o
    end.
Proof.
  intros Hr Hb Hlen. remember (pass_measure p a) as n eqn:Hn. revert a p u m Hr Hlen Hn.
  induction n as [n IH] using lt_wf_ind. intros a p u m Hr Hlen ->.
  pose proof (zlen_nonneg b) as Hzb. pose proof (zlen_nonneg a) as Hza.
  destruct (decide (a = [])) as [->|Ha]; [by left|].
  destruct (pass_runs len p u a m F Hr Ha Hlen) as (r & m' & Hpass).
  rewrite (exec_pass _ _ _ _ _ _ _ _ Ha Hlen Hpass). pose proof Hpass as [E Hok].
  assert (Hab1 : a ++ b <> []) by (by destruct a).
  assert (Hlab : zlen (a ++ b) <= len + zlen b) by (rewrite zlen_app; lia).
  destruct (pass_runs (len + zlen b) p u (a ++ b) m F Hr Hab1 Hlab) as (r2 & m2 & Hpass2).
  rewrite (exec_pass _ _ _ _ _ _ _ _ Hab1 Hlab Hpass2). pose proof Hpass2 as [E2 _].
  destruct (pass_splits Hab len p u a b m F Hr Ha Hb) as [H|(p' & u' & m1 & H1 & Hsim)].
  - rewrite E, E2 in H. cbn [app_out] in H. injection H as -> ->.
    destruct r as [p' u' rest|code p' u']; cbn [pass_app continue].
    + destruct Hok as (H1 & H2 & _ & H3 & H4 & H5).
      apply (IH (pass_measure p' rest)); [done|done|unfold zlen in *; lia|done].
    + left. destruct Hok as (_ & Hc & _). cbn. by destruct code.
  - rewrite H1 in E. injection E as <- <-. destruct Hok as (K1 & K2 & _ & K3 & K4 & K5).
    cbn [continue]. rewrite exec_nil.
    assert (Hlb : zlen b <= len + zlen b) by lia.
    destruct (pass_runs (len + zlen b) p' u' b m1 F) as (r3 & m3 & Hpass3); [done|done|lia|].
    rewrite (exec_pass _ _ _ _ _ _ _ _ Hb Hlb Hpass3). destruct Hpass3 as [E3 _].
    rewrite E2, E3 in Hsim. destruct Hsim as [Hsim|(q1 & q2 & v & w & Hs1 & Hs2)].
    + injection Hsim as -> ->. by left.
    + injection Hs1 as -> ->. injection Hs2 as -> ->. right. by exists q1, q2, v, w.
Qed.

(** ** Positions *)

(** A position in the second piece, counted from the start of the first. *)
Definition shift_parser (k : Z) (code : chttp1_errno_t) (p : chttp1_parser) : chttp1_parser :=
  if stops_inside code then set_consumed (consumed p + k) p else p.

Definition shift (k : Z) (o : result) : result :=
  match o with
  | Done (code, p, u) m => Done (code, shift_parser k code p, u) m
  | _ => o
  end.

Definition shift_pass (k : Z) (r : @pass U) : @pass U :=
  match r with Return code p u => Return code (shift_parser k code p) u | _ => r end.

Definition shift_out (k : Z) (o : outcome (@pass U)) : outcome (@pass U) :=
  match o with
  | Done r m => Done (shift_pass k r) m
  | Aborted => Aborted | Undefined => Undefined | OutOfFuel => OutOfFuel
  end.

Lemma complete_shift k p u pos :
  complete_message settings p u (pos + k) = shift_pass k (complete_message settings p u pos).
Proof. unfold complete_message. by repeat case_match. Qed.

Lemma headers_done_shift k p u pos d :
  headers_done settings p u (pos + k) d = shift_pass k (headers_done settings p u pos d).
Proof.
  unfold headers_done, frame_body.
  repeat match goal with
  | |- context [complete_message] => rewrite complete_shift; done
  | |- _ => case_match; try done
  end.
Qed.

Lemma field_line_shift k tr msg p u d m (blank1 blank2 : chttp1_parser -> list Z -> @pass U) :
  (forall p d, blank2 p d = shift_pass k (blank1 p d)) ->
  field_line_pass settings tr msg p u d blank2 m =
    shift_out k (field_line_pass settings tr msg p u d blank1 m).
Proof.
  intros Hb. unfold field_line_pass, mbind, M_bind, mret, M_ret.
  destruct (accumulate_line _ p d m) as [[[lr p'] rest] m'| | |]; try done.
  destruct lr; try done. destruct (line_len p' =? 0); [by cbn; rewrite Hb|].
  destruct (process_header_line settings tr p' u m') as [[[ph p1] u1] m1| | |]; try done. by destruct ph.
Qed.

Lemma execute_pass_shift k len p u d m :
  execute_pass settings (len + k) p u d m = shift_out k (execute_pass settings len p u d m).
Proof.
  assert (Hpos : forall r : list Z, len + k - zlen r = len - zlen r + k) by (intros; lia).
  unfold execute_pass. destruct (state p); try done.
  - unfold first_line_pass. same_branches.
  - apply field_line_shift. intros q r. by rewrite Hpos, headers_done_shift.
  - unfold body_pass. destruct (if _ >? 0 then _ else _) as [err u'].
    destruct (negb (err =? 0)); [done|]. cbn. destruct (_ =? 0); [|done]. by rewrite Hpos, complete_shift.
  - unfold chunk_size_pass, mbind, M_bind, mret, M_ret.
    destruct (accumulate_line _ p d m) as [[[lr p'] rest] m'| | |]; try done. destruct lr; try done.
    destruct (parse_chunk_size_line p' m') as [[ok p1] m1| | |]; try done. by destruct ok.
  - unfold body_pass. destruct (if _ >? 0 then _ else _) as [err u']. by destruct (negb (err =? 0)).
  - unfold chunk_crlf_pass, mbind, M_bind, mret, M_ret.
    destruct (accumulate_line _ p d m) as [[[lr p'] rest] m'| | |]; try done. destruct lr; try done.
    by destruct (negb _).
  - apply field_line_shift. intros q r. by rewrite Hpos, complete_shift.
  - destruct (call settings on_body (fun f => f p d) 0 u) as [err u']. by destruct (negb _).
Qed.

Lemma execute_loop_shift f k len p u d m :
  execute_loop settings f (len + k) p u d m = shift k (execute_loop settings f len p u d m).
Proof.
  unfold execute_loop. revert p u d m. induction f as [|f IH]; intros p u d m; [done|].
  cbn [loop]. unfold mbind, M_bind in *. destruct (is_nil d); [done|].
  rewrite execute_pass_shift. destruct (execute_pass settings len p u d m) as [r m'| | |]; try done.
  destruct r as [p' u' d'|code p' u']; cbn; [apply IH|done].
Qed.

Lemma execute_exec p u d m F : ready p m F ->
  chttp1_parser_execute settings p u d m = exec (zlen d) p u d m.
Proof.
  intros Hr. assert (E : execute_loop settings (2 * length d + 2) (zlen d) p u d m = exec (zlen d) p u d m).
  { apply (exec_enough _ _ _ _ _ _ F); [done|lia|]. unfold pass_measure. destruct (state p); lia. }
  destruct Hr as (_ & [H1 H2] & _). unfold chttp1_parser_execute. by destruct (state p).
Qed.

(** Two buffers, one after the other. *)
Lemma execute_append p u a b m F :
  additive_body -> parser_ok p -> alive p -> owns m (spill_own p) F ->
  same_result (chttp1_parser_execute settings p u (a ++ b) m)
    match chttp1_parser_execute settings p u a m with
    | Done (CHTTP1_OK, p', u') m' => shift (zlen a) (chttp1_parser_execute settings p' u' b m')
    | o => o
    end.
Proof.
  intros Hab Hok Ha Ho. assert (Hr : ready p m F) by done.
  pose proof (wp_execute settings p u a m F Hok Ho) as Hwp. unfold wp in Hwp.
  rewrite (execute_exec p u a m F Hr), (execute_exec p u (a ++ b) m F Hr) in *.
  assert (Hnext : forall p' u' m', exec (zlen a) p u a m = Done (CHTTP1_OK, p', u') m' ->
    ready p' m' F /\
    shift (zlen a) (chttp1_parser_execute settings p' u' b m') = exec (zlen a + zlen b) p' u' b m').
  { intros p' u' m' E. rewrite E in Hwp. destruct Hwp as (H1 & H2 & _ & H3 & _). specialize (H1 Ha).
    assert (Hr' : ready p' m' F) by done. split; [done|].
    rewrite (execute_exec p' u' b m' F Hr'). unfold exec. rewrite (Z.add_comm (zlen a)).
    by rewrite execute_loop_shift. }
  destruct (decide (b = [])) as [->|Hb].
  - rewrite app_nil_r. left. destruct (exec (zlen a) p u a m) as [[[code p'] u'] m'| | |] eqn:E; try done.
    destruct code; try done. destruct (Hnext p' u' m' eq_refl) as [_ ->]. by rewrite exec_nil.
  - rewrite zlen_app. pose proof (exec_split Hab (zlen a) a b p u m F Hr Hb ltac:(lia)) as Hs.
    destruct (exec (zlen a) p u a m) as [[[code p'] u'] m'| | |] eqn:E; try done.
    destruct code; try done. destruct (Hnext p' u' m' eq_refl) as [_ ->]. done.
Qed.
End Split.

(** A message that one call completes is completed by any sequence of calls
    on its pieces, with the same calls back. *)
Lemma feed_pieces `{Allocator} {U} (settings : option (chttp1_settings_t U)) ds p u m F p' u' m' :
  additive_body settings -> parser_ok p -> alive p -> owns m (spill_own p) F ->
  chttp1_parser_execute settings p u (concat ds) m = Done (CHTTP1_PAUSED, p', u') m' ->
  exists p'', feed settings p u ds m = Done (CHTTP1_PAUSED, p'', u') m' /\
    chttp1_parser_message_complete p'' = true.
Proof.
  intros Hab. revert p u p' m. induction ds as [|d ds IH]; intros p u p' m Hok Ha Ho E.
  { cbn [concat] in E. destruct Ha as [Ha1 Ha2]. unfold chttp1_parser_execute in E. cbn in E.
    by destruct (state p). }
  cbn [concat feed] in *. unfold mbind, M_bind.
  pose proof (execute_append settings p u d (concat ds) m F Hab Hok Ha Ho) as Hs. rewrite E in Hs.
  pose proof (wp_execute settings p u d m F Hok Ho) as Hwp. unfold wp in Hwp.
  destruct Hs as [Hs|(q1 & q2 & v & w & Hs & _)]; [|done].
  destruct (chttp1_parser_execute settings p u d m) as [[[code q] v] w| | |]; try done.
  destruct Hwp as (Hret & Hq & _ & Hoq & _). destruct code; try done.
  - destruct (chttp1_parser_execute settings q v (concat ds) w) as [[[code q'] v'] w'| | |] eqn:E2; try done.
    cbn [shift] in Hs. injection Hs as <- _ <- <-. by eapply IH; [done|apply Hret|done|].
  - injection Hs as -> -> ->. exists q. split; [done|].
    unfold chttp1_parser_message_complete. by rewrite bool_decide_true by by apply Hret.
Qed.

(** C5: how the bytes are cut does not matter.  Feeding two buffers one after
    the other gives what feeding their concatenation gives: the same answer,
    calls and parser, and a position counted from the start; and a message
    that one call completes is completed, with the same calls, by any sequence
    of calls on its pieces.  This holds of every parser in the course of a
    message, for callbacks to which the body is a sequence of bytes; after a
    callback refused, only what is left of the dead parser may differ. *)
Theorem execute_split `{Allocator} {U} (settings : option (chttp1_settings_t U)) p u m F :
  additive_body settings -> parser_ok p -> alive p -> owns m (spill_own p) F ->
  (forall a b, same_result (chttp1_parser_execute settings p u (a ++ b) m)
     match chttp1_parser_execute settings p u a m with
     | Done (CHTTP1_OK, p', u') m' => shift (zlen a) (chttp1_parser_execute settings p' u' b m')
     | o => o
     end) /\
  (forall ds p' u' m',
     chttp1_parser_execute settings p u (concat ds) m = Done (CHTTP1_PAUSED, p', u') m' ->
     exists p'', feed settings p u ds m = Done (CHTTP1_PAUSED, p'', u') m' /\
       chttp1_parser_message_complete p'' = true).
Proof.
  intros Hab Hok Ha Ho. split; [intros a b; by apply (execute_append settings p u a b m F)|].
  intros ds p' u' m' E. by apply (feed_pieces settings ds p u m F p').
Qed.

#[local] Existing Instance always_grant.

Lemma recorder_additive : additive_body (Some recorder).
Proof. split; [done|]. intros p a b u _ _. unfold body_call, call. cbn. by rewrite app_assoc. Qed.

Lemma execute_split_witness :
  let p := chttp1_parser_init_request in
  let a := ztake 21 sample_request in
  let b := zdrop 21 sample_request in
  parser_ok p /\
  same_result (chttp1_parser_execute (Some recorder) p no_message sample_request (Mem 0 ∅))
    (shift 21 (chttp1_parser_execute (Some recorder)
       (set_line (lit "Hos") (set_state CHTTP1_ST_HEADERS (set_http_major 1 (set_http_minor 1
         (set_total_header_bytes 18 p))))) (Message [(lit "POST", lit "/a")] [] [] [] 0) b (Mem 0 ∅))).
Proof.
  intros p a b. destruct (init_ok CHTTP1_PARSE_REQUEST 0 0 0 false) as (Hok & Ha & _); [done|done|].
  split; [exact Hok|].
  pose proof (proj1 (execute_split (Some recorder) p no_message (Mem 0 ∅) ∅ recorder_additive Hok Ha
    owns_nothing) a b) as H.
  assert (E : chttp1_parser_execute (Some recorder) p no_message a (Mem 0 ∅) =
    Done (CHTTP1_OK, set_line (lit "Hos") (set_state CHTTP1_ST_HEADERS (set_http_major 1 (set_http_minor 1
         (set_total_header_bytes 18 p)))), Message [(lit "POST", lit "/a")] [] [] [] 0) (Mem 0 ∅))
    by (vm_compute; reflexivity).
  rewrite E in H. exact H.
Defined.
