(* ===== verification/CHttp1Wire.v ===== *)
(** * The HTTP/1 parser: requests round trip

    A request printed the way RFC 9112 frames it, with a body of known length,
    a chunked one with trailers, or none, is parsed back to what was printed:
    the request line, the headers, the body and the trailers reach the
    callbacks in order, and the parser stops at the last byte of the message. *)
From Stdlib Require Import Strings.String.
From S2P Require Import Prelude Memory CText CHttp1 CHttp1Lines CHttp1Grammar CHttp1Parser.
From S2P Require Import CHttp1Exec CHttp1Split.
#[local] Open Scope size_scope.

(** ** Printing *)
Definition header : Type := list Z * list Z.

Definition field_line (h : header) : list Z := h.1 ++ 58 :: 32 :: h.2.
Definition print_header (h : header) : list Z := field_line h ++ crlf.
Definition print_headers (hs : list header) : list Z := concat (print_header <$> hs).

Inductive framing :=
  | NoBody
  | Fixed (digits body : list Z)
  | Chunked (parts : list (list Z * list Z)) (last : list Z) (trailers : list header).

Record request := Request {
  rq_method : list Z;
  rq_target : list Z;
  rq_minor : Z;
  rq_host : list Z;
  rq_headers : list header;
  rq_framing : framing;
}.

Definition framing_header (f : framing) : list header :=
  match f with
  | NoBody => []
  | Fixed digits _ => [(lit "Content-Length", digits)]
  | Chunked _ _ _ => [(lit "Transfer-Encoding", lit "chunked")]
  end.

Definition all_headers (r : request) : list header :=
  (lit "Host", rq_host r) :: rq_headers r ++ framing_header (rq_framing r).

Definition trailers_of (f : framing) : list header :=
  match f with Chunked _ _ ts => ts | _ => [] end.

Definition body_of (f : framing) : list Z :=
  match f with
  | NoBody => []
  | Fixed _ body => body
  | Chunked parts _ _ => concat parts.*2
  end.

Definition print_part (c : list Z * list Z) : list Z := c.1 ++ crlf ++ c.2 ++ crlf.

Definition print_body (f : framing) : list Z :=
  match f with
  | NoBody => []
  | Fixed _ body => body
  | Chunked parts last ts =>
      concat (print_part <$> parts) ++ last ++ crlf ++ print_headers ts ++ crlf
  end.

Definition request_line (r : request) : list Z :=
  rq_method r ++ 32 :: rq_target r ++ 32 :: lit "HTTP/1." ++ [48 + rq_minor r].

Definition print_request (r : request) : list Z :=
  request_line r ++ crlf ++ print_headers (all_headers r) ++ crlf ++ print_body (rq_framing r).

(** What the callbacks are told. *)
Definition told (r : request) : message :=
  Message [(rq_method r, rq_target r)] (all_headers r) (body_of (rq_framing r))
    (trailers_of (rq_framing r)) 1.

(** ** Validity *)
Record valid_header (h : header) : Prop := ValidHeader {
  vh_name : token h.1;
  vh_value : all (fun c : Z => negb (is_invalid_value_byte c)) h.2;
  vh_trim_start : drop_while is_ows h.2 = h.2;
  vh_trim_end : trim_end h.2 = h.2;
  vh_len : zlen (print_header h) <= CHTTP1_MAX_LINE_LEN;
}.

(** A header that does not speak of the framing. *)
Record plain_header (h : header) : Prop := PlainHeader {
  pl_length : header_name_is h.1 (lit "content-length") = false;
  pl_coding : header_name_is h.1 (lit "transfer-encoding") = false;
  pl_host : header_name_is h.1 (lit "host") = false;
}.

Record valid_part (c : list Z * list Z) : Prop := ValidPart {
  vp_digits : all is_hexdig c.1;
  vp_len : 1 <= zlen c.1 <= 12;
  vp_value : hexadecimal_value c.1 = zlen c.2;
  vp_max : zlen c.2 <= UINT64_MAX;
}.

Definition valid_framing (f : framing) : Prop :=
  match f with
  | NoBody => True
  | Fixed digits body =>
      digits <> [] /\ all is_digit digits /\ decimal_value digits = zlen body /\
      zlen body <= UINT64_MAX /\ zlen (print_header (lit "Content-Length", digits)) <= CHTTP1_MAX_LINE_LEN
  | Chunked parts last ts =>
      Forall valid_part parts /\ Forall (fun c => c.2 <> []) parts /\ valid_part (last, []) /\
      Forall valid_header ts
  end.

Record valid_request (r : request) : Prop := ValidRequest {
  vr_method : token (rq_method r);
  vr_target : rq_target r <> [] /\ all (fun c : Z => negb (is_invalid_target_byte c)) (rq_target r);
  vr_minor : 1 <= rq_minor r <= 9;
  vr_line : zlen (request_line r) + 2 <= CHTTP1_MAX_LINE_LEN;
  vr_host : host_of (rq_host r) /\ valid_header (lit "Host", rq_host r);
  vr_headers : Forall valid_header (rq_headers r) /\ Forall plain_header (rq_headers r);
  vr_framing : valid_framing (rq_framing r);
  vr_count : zlen (all_headers r) + zlen (trailers_of (rq_framing r)) <= CHTTP1_MAX_HEADER_COUNT;
  vr_bytes : zlen (request_line r) + 2 + zlen (print_headers (all_headers r)) +
    zlen (print_headers (trailers_of (rq_framing r))) <= CHTTP1_MAX_TOTAL_HEADER_BYTES;
}.

(** ** Lines *)
Definition no_lf (s : list Z) : Prop := Forall (fun c => c <> 10) s.

Lemma token_no_lf s : token s -> no_lf s.
Proof. intros [_ Hs]. eapply Forall_impl; [exact Hs|]. intros c Hc ->. by vm_compute in Hc. Qed.
Lemma value_no_lf s : all (fun c : Z => negb (is_invalid_value_byte c)) s -> no_lf s.
Proof. intros Hs. eapply Forall_impl; [exact Hs|]. intros c Hc ->. by vm_compute in Hc. Qed.
Lemma target_no_lf s : all (fun c : Z => negb (is_invalid_target_byte c)) s -> no_lf s.
Proof. intros Hs. eapply Forall_impl; [exact Hs|]. intros c Hc ->. by vm_compute in Hc. Qed.
Lemma hexdig_no_lf s : all is_hexdig s -> no_lf s.
Proof. intros Hs. eapply Forall_impl; [exact Hs|]. intros c Hc ->. by vm_compute in Hc. Qed.

Section Wire.
Context {alloc : Allocator}.

Lemma accumulate_char B c p rest m : line_spill p = None -> line_len p < CHTTP1_MAX_LINE_LEN -> c <> 10 ->
  accumulate_line B p (c :: rest) m = accumulate_line B (set_line (line p ++ [c]) p) rest m.
Proof.
  intros Hs Hl Hc. cbn [accumulate_line]. unfold make_room, line_full, put_char, access_spill, line_storage.
  unfold mbind, M_bind, mret, M_ret. rewrite Hs, Z.geb_leb.
  destruct (Z.leb_spec CHTTP1_MAX_LINE_LEN (line_len p)); [lia|]. cbn [negb].
  rewrite Hs. destruct (Z.ltb_spec (line_len p) CHTTP1_MAX_LINE_LEN); [|lia].
  by destruct (Z.eqb_spec c 10).
Qed.

Lemma accumulate_lf B p l rest m : line_spill p = None -> line p = l ++ [13] ->
  line_len p < CHTTP1_MAX_LINE_LEN ->
  accumulate_line B p (10 :: rest) m = Done (LINE_READY, set_line l p, rest) m.
Proof.
  intros Hs Hp Hl. cbn [accumulate_line]. unfold make_room, line_full, put_char, access_spill, line_storage.
  unfold mbind, M_bind, mret, M_ret. rewrite Hs, Z.geb_leb.
  destruct (Z.leb_spec CHTTP1_MAX_LINE_LEN (line_len p)); [lia|]. cbn [negb].
  rewrite Hs. destruct (Z.ltb_spec (line_len p) CHTTP1_MAX_LINE_LEN); [|lia].
  change (10 =? 10) with true. cbn iota. unfold line_len. psimpl. rewrite Hp.
  assert (Hz : zlen ((l ++ [13]) ++ [10]) = zlen l + 2) by (rewrite !zlen_app; unfold zlen; cbn [length]; lia).
  rewrite Hz. destruct (Z.ltb_spec (zlen l + 2) 2); [pose proof (zlen_nonneg l); lia|].
  replace (zlen l + 2 - 2) with (zlen l) by lia. rewrite <- app_assoc. cbn [app].
  rewrite (zget_app_mid l 13 [10]) by done. cbn. by rewrite (ztake_app_exact l) by done.
Qed.

(** A line that fits is read as it was printed. *)
Lemma accumulate_exact B l p rest m : line_spill p = None -> no_lf l ->
  line_len p + zlen l + 2 <= CHTTP1_MAX_LINE_LEN ->
  accumulate_line B p (l ++ crlf ++ rest) m = Done (LINE_READY, set_line (line p ++ l) p, rest) m.
Proof.
  intros Hs Hl. revert p Hs. induction Hl as [|c l Hc Hl IH]; intros p Hs Hlen.
  - cbn [app crlf]. assert (Hz : zlen (@nil Z) = 0) by done.
    rewrite accumulate_char by (done || lia).
    rewrite (accumulate_lf B _ (line p)); psimpl; try done.
    + by rewrite app_nil_r.
    + unfold line_len in *. psimpl. rewrite zlen_app. change (zlen [13]) with 1. lia.
  - rewrite zlen_cons in Hlen. pose proof (zlen_nonneg l). cbn [app].
    rewrite accumulate_char by (done || lia). rewrite IH; psimpl.
    + by rewrite <- app_assoc.
    + done.
    + unfold line_len in *. psimpl. rewrite zlen_app. change (zlen [c]) with 1. lia.
Qed.

(** ** The request line *)
Lemma zget_tail (pre t : list Z) i : 0 <= i -> zget (pre ++ t) (zlen pre + i) = zget t i.
Proof. intros Hi. rewrite zget_app_r by lia. f_equal. lia. Qed.

Lemma parse_version_exact pre minor p m : 0 <= minor <= 9 ->
  parse_version (pre ++ lit "HTTP/1." ++ [48 + minor]) (zlen pre) p m =
  Done (true, set_http_minor minor (set_http_major 1 p)) m.
Proof.
  intros Hm. unfold parse_version. set (t := lit "HTTP/1." ++ [48 + minor]).
  assert (Hz : zlen (pre ++ t) - zlen pre = 8) by (rewrite zlen_app; change (zlen t) with 8; lia).
  rewrite Hz. change (8 <? 8) with false. cbn [orb].
  assert (Hs : slice (pre ++ t) (zlen pre) 5 = lit "HTTP/").
  { unfold slice. by rewrite zdrop_app_exact by done. }
  rewrite Hs, bool_decide_true by done. cbn [negb].
  rewrite !zget_tail by lia.
  assert (H7 : zget t 7 = Some (48 + minor)) by done.
  rewrite H7. change (zget t 5) with (Some 49). change (zget t 6) with (Some 46). cbn [ub].
  unfold mbind, M_bind, mret, M_ret. change (is_digit 49) with true. change (46 =? 46) with true. cbn [negb].
  assert (is_digit (48 + minor) = true) as -> by (unfold is_digit; rewrite Z.geb_leb;
    apply andb_true_iff; split; apply Z.leb_le; lia).
  cbn [negb]. by replace (48 + minor - 48) with minor by lia.
Qed.

Lemma no_space_token s : token s -> all (fun c : Z => negb (c =? 32)) s.
Proof. intros [_ Hs]. eapply Forall_impl; [exact Hs|]. intros c Hc. destruct (Z.eqb_spec c 32) as [->|]; [by vm_compute in Hc|done]. Qed.
Lemma no_space_target s : all (fun c : Z => negb (is_invalid_target_byte c)) s -> all (fun c : Z => negb (c =? 32)) s.
Proof. intros Hs. eapply Forall_impl; [exact Hs|]. intros c Hc. destruct (Z.eqb_spec c 32) as [->|]; [by vm_compute in Hc|done]. Qed.

Lemma not_invalid f s : all (fun c : Z => negb (f c)) s -> existsb f s = false.
Proof.
  intros Hs. apply existsb_false_Forall. eapply Forall_impl; [exact Hs|]. intros c Hc. by apply negb_true_iff.
Qed.

Definition with_line (u : message) (l : list Z * list Z) : message :=
  Message (msg_line u ++ [l]) (msg_headers u) (msg_body u) (msg_trailers u) (msg_complete u).
Definition with_header (u : message) (h : header) : message :=
  Message (msg_line u) (msg_headers u ++ [h]) (msg_body u) (msg_trailers u) (msg_complete u).
Definition with_trailer (u : message) (h : header) : message :=
  Message (msg_line u) (msg_headers u) (msg_body u) (msg_trailers u ++ [h]) (msg_complete u).
Definition with_body (u : message) (b : list Z) : message :=
  Message (msg_line u) (msg_headers u) (msg_body u ++ b) (msg_trailers u) (msg_complete u).
Definition completed (u : message) : message :=
  Message (msg_line u) (msg_headers u) (msg_body u) (msg_trailers u) (msg_complete u + 1).

Lemma parse_request_line_exact r p u m : token (rq_method r) ->
  rq_target r <> [] -> all (fun c : Z => negb (is_invalid_target_byte c)) (rq_target r) ->
  0 <= rq_minor r <= 9 -> line_spill p = None -> line p = request_line r ->
  parse_request_line (Some recorder) p u m =
  Done (PH_OK, set_http_minor (rq_minor r) (set_http_major 1 p),
        with_line u (rq_method r, rq_target r)) m.
Proof.
  intros Hm Htn Ht Hv Hs Hl. unfold parse_request_line, line_buf, line_len.
  rewrite Hs, Hl. unfold mbind at 1, M_bind at 1, mret at 1, M_ret at 1. unfold request_line.
  set (v := lit "HTTP/1." ++ [48 + rq_minor r]).
  set (method := rq_method r) in *. set (target := rq_target r) in *.
  rewrite take_while_stop by (done || by apply no_space_token).
  assert (Hmz : 0 < zlen method).
  { destruct Hm as [Hn _]. destruct method; [done|]. rewrite zlen_cons. pose proof (zlen_nonneg method). lia. }
  assert (Htz : 0 < zlen target).
  { destruct target; [done|]. rewrite zlen_cons. pose proof (zlen_nonneg target). lia. }
  assert (Hvz : zlen v = 8) by done.
  assert (Hz : zlen (method ++ 32 :: target ++ 32 :: v) = zlen method + 1 + zlen target + 1 + 8).
  { rewrite zlen_app, zlen_cons, zlen_app, zlen_cons, Hvz. lia. }
  rewrite Hz, !Z.geb_leb. destruct (Z.eqb_spec (zlen method) 0); [lia|].
  destruct (Z.leb_spec (zlen method + 1 + zlen target + 1 + 8) (zlen method)); [lia|]. cbn [orb].
  assert (forallb chttp1_is_tchar method = true) as -> by (apply forallb_Forall_true; apply Hm).
  cbn [negb].
  assert (zdrop (zlen method + 1) (method ++ 32 :: target ++ 32 :: v) = target ++ 32 :: v) as ->.
  { rewrite cons_middle, app_assoc. apply zdrop_app_exact. by rewrite zlen_app. }
  rewrite take_while_stop by (done || by apply no_space_target).
  destruct (Z.eqb_spec (zlen target) 0); [lia|].
  destruct (Z.leb_spec (zlen method + 1 + zlen target + 1 + 8) (zlen method + 1 + zlen target)); [lia|].
  cbn [orb]. rewrite (not_invalid _ _ Ht).
  assert (E : method ++ 32 :: target ++ 32 :: v = (method ++ 32 :: target ++ [32]) ++ v)
    by (rewrite <- app_assoc; cbn; by rewrite <- app_assoc).
  assert (Hpre : zlen method + 1 + zlen target + 1 = zlen (method ++ 32 :: target ++ [32])).
  { rewrite zlen_app, zlen_cons, zlen_app. change (zlen [32]) with 1. lia. }
  unfold mbind at 1, M_bind at 1. rewrite E, Hpre. unfold v. rewrite parse_version_exact by done.
  cbn [negb]. destruct (Z.eqb_spec (zlen (method ++ 32 :: target ++ [32]) + 8)
    (zlen (method ++ 32 :: target ++ [32]) + 8)); [|done].
  cbn [negb]. done.
Qed.

(** ** Header and trailer lines *)
Lemma no_colon_token s : token s -> all (fun c : Z => negb (c =? 58)) s.
Proof. intros [_ Hs]. eapply Forall_impl; [exact Hs|]. intros c Hc. destruct (Z.eqb_spec c 58) as [->|]; [by vm_compute in Hc|done]. Qed.

Lemma zlen_field h : zlen (print_header h) = zlen (field_line h) + 2.
Proof. unfold print_header. by rewrite zlen_app. Qed.

Lemma field_no_lf h : valid_header h -> no_lf (field_line h).
Proof.
  intros Hv. unfold field_line, no_lf. apply Forall_app. split; [by apply token_no_lf, Hv|].
  do 2 (constructor; [done|]). by apply value_no_lf, Hv.
Qed.

Lemma process_field_exact tr h p u m :
  valid_header h -> line p = field_line h -> line_spill p = None ->
  max_header_count_override p = 0 -> max_total_header_bytes_override p = 0 ->
  0 <= header_count p -> header_count p + 1 <= CHTTP1_MAX_HEADER_COUNT ->
  0 <= total_header_bytes p -> total_header_bytes p + zlen (print_header h) <= CHTTP1_MAX_TOTAL_HEADER_BYTES ->
  (forall q, (tr : bool) = false -> interpret_header h.1 h.2 p m = Done (true, q) m ->
     has_flag F_CONTENT_LENGTH q && has_flag F_CHUNKED q = false ->
     process_header_line (Some recorder) tr p u m =
       Done (PH_OK, charge_line (zlen (print_header h)) q, with_header u h) m) /\
  (tr = true -> process_header_line (Some recorder) tr p u m =
       Done (PH_OK, charge_line (zlen (print_header h)) p, with_trailer u h) m).
Proof.
  intros Hv Hl Hs Hmc Hmb Hc0 Hc Ht0 Ht. rewrite zlen_field in Ht.
  pose proof (zlen_nonneg (field_line h)) as Hf0.
  unfold CHTTP1_MAX_HEADER_COUNT, CHTTP1_MAX_TOTAL_HEADER_BYTES in *.
  assert (Hrun : forall X, process_header_line (Some recorder) tr p u m = X <->
    (if tr then mret (PH_OK, charge_line (zlen (print_header h)) p, with_trailer u h) else
       '(ok, p) ← interpret_header h.1 h.2 p;
       if negb ok then mret (PH_ERROR, p, u) else
       if has_flag F_CONTENT_LENGTH p && has_flag F_CHUNKED p
       then mret (PH_ERROR, with_reason "Content-Length can't be present with chunked Transfer-Encoding" p, u)
       else mret (PH_OK, charge_line (zlen (print_header h)) p, with_header u h)) m = X).
  { intros X. rewrite zlen_field. unfold process_header_line.
    assert (Hptr : line_ptr p m = Done (field_line h) m).
    { unfold line_ptr, access_spill, mbind, M_bind. by rewrite Hs, <- Hl. }
    assert (Hll : line_len p = zlen (field_line h)) by (unfold line_len; by rewrite Hl). rewrite Hll.
    unfold effective_max_header_count, effective_max_total_header_bytes. rewrite Hmc, Hmb.
    change (negb (0 =? 0)) with false. cbn iota.
    unfold CHTTP1_MAX_HEADER_COUNT, CHTTP1_MAX_TOTAL_HEADER_BYTES. sz. rewrite !Z.gtb_ltb.
    destruct (Z.ltb_spec 100 (header_count p + 1)); [lia|].
    destruct (Z.ltb_spec (64 * 1024) (total_header_bytes p + (zlen (field_line h) + 2))); [lia|].
    unfold mbind at 1, M_bind at 1. rewrite Hptr. cbn beta iota.
    assert (Htw : take_while (fun c => negb (c =? 58)) (field_line h) = h.1 /\
      drop_while (fun c => negb (c =? 58)) (field_line h) = 58 :: 32 :: h.2).
    { unfold field_line. split; [apply take_while_stop|apply drop_while_stop]; try done; apply no_colon_token, Hv. }
    destruct Htw as [-> ->].
    pose proof (vh_name _ Hv) as [Hn Hnt].
    assert (is_nil h.1 = false) as -> by (by destruct h.1).
    assert (forallb chttp1_is_tchar h.1 = true) as -> by by apply forallb_Forall_true.
    cbn [negb drop_while]. change (is_ows 32) with true. cbn iota.
    rewrite (vh_trim_start _ Hv), (vh_trim_end _ Hv), (not_invalid _ _ (vh_value _ Hv)).
    destruct h as [name value]. destruct tr; [done|]. cbn [fst snd].
    unfold mbind, M_bind. by destruct (interpret_header name value p m) as [[[] ?] ?| | |]. }
  split.
  - intros q -> Hi Hcl. apply Hrun. unfold mbind, M_bind. rewrite Hi. cbn [negb]. by rewrite Hcl.
  - intros ->. by apply Hrun.
Qed.

(** ** Steps of the run *)

(** A request parser at the start of a line of the block [st]. *)
Record at_line (st : chttp1__state_t) (p : chttp1_parser) (m : mem) (F : gset nat) (n t : Z) : Prop := AtLine {
  al_ready : ready p m F;
  al_state : state p = st;
  al_request : is_request p = true;
  al_line : line p = [];
  al_count_max : max_header_count_override p = 0;
  al_bytes_max : max_total_header_bytes_override p = 0;
  al_chunk_max : max_chunk_size_override p = 0;
  al_count : header_count p = n;
  al_total : total_header_bytes p = t;
  al_excess : chunk_excess p = 0;
  al_version : is_1_1_or_later p = true;
}.

Lemma request_no_spill p : parser_ok p -> is_request p = true -> line_spill p = None.
Proof.
  intros [Hb _] Hr. destruct (line_spill p) eqn:E; [|done].
  pose proof (bd_request _ Hb (bd_spill _ Hb ltac:(rewrite E; eauto))). congruence.
Qed.

Lemma exec_again len p u d m F p' u' d' : ready p m F -> d <> [] -> zlen d <= len ->
  execute_pass (Some recorder) len p u d m = Done (Again p' u' d') m ->
  exec (Some recorder) len p u d m = exec (Some recorder) len p' u' d' m /\ ready p' m F /\ zlen d' <= len.
Proof.
  intros Hr Hd Hl E. destruct (pass_runs (Some recorder) len p u d m F Hr Hd Hl) as (r & m' & Hp).
  rewrite (exec_pass _ _ _ _ _ _ _ _ _ Hd Hl Hp). destruct Hp as [E' Hok]. rewrite E in E'.
  injection E' as <- <-. destruct Hok as (H1 & H2 & _ & H3 & _ & H5).
  split; [done|]. split; [done|]. unfold zlen in *. lia.
Qed.

Lemma exec_return len p u d m F code p' u' : ready p m F -> d <> [] -> zlen d <= len ->
  execute_pass (Some recorder) len p u d m = Done (Return code p' u') m ->
  exec (Some recorder) len p u d m = Done (code, p', u') m.
Proof.
  intros Hr Hd Hl E. destruct (pass_runs (Some recorder) len p u d m F Hr Hd Hl) as (r & m' & Hp).
  rewrite (exec_pass _ _ _ _ _ _ _ _ _ Hd Hl Hp). destruct Hp as [E' Hok]. rewrite E in E'.
  by injection E' as <- <-.
Qed.

(** What the framing of a message reads. *)
Definition framing_state (p : chttp1_parser) :=
  (has_flag F_CHUNKED p, has_flag F_CONTENT_LENGTH p, has_flag F_TRANSFER_ENCODING p,
   has_flag F_CHUNKED_APPLIED p, host_count p, content_length p).

Lemma print_not_nil h (rest : list Z) : print_header h ++ rest <> [].
Proof. unfold print_header, field_line. destruct h.1; done. Qed.

Definition field_state (tr : bool) : chttp1__state_t :=
  if tr then CHTTP1_ST_BODY_CHUNK_TRAILERS else CHTTP1_ST_HEADERS.

Lemma accumulate_field B p h rest m : valid_header h -> line p = [] -> line_spill p = None ->
  accumulate_line B p (print_header h ++ rest) m = Done (LINE_READY, set_line (field_line h) p, rest) m.
Proof.
  intros Hv Hl Hs. unfold print_header. rewrite <- app_assoc, accumulate_exact.
  - by rewrite Hl.
  - done.
  - by apply field_no_lf.
  - pose proof (vh_len _ Hv) as Hz. rewrite zlen_field in Hz. unfold line_len. rewrite Hl. change (zlen (@nil Z)) with 0. lia.
Qed.

Lemma field_pass tr msg p u h rest m blank q u' c : valid_header h -> line p = [] -> line_spill p = None ->
  process_header_line (Some recorder) tr (set_line (field_line h) p) u m = Done (PH_OK, charge_line c q, u') m ->
  field_line_pass (Some recorder) tr msg p u (print_header h ++ rest) blank m =
    Done (Again (set_line [] (charge_line c q)) u' rest) m.
Proof.
  intros Hv Hl Hs Hp. unfold field_line_pass, mbind, M_bind. rewrite accumulate_field by done.
  assert (Hz : (line_len (set_line (field_line h) p) =? 0) = false).
  { apply Z.eqb_neq. unfold line_len. psimpl. unfold field_line. rewrite zlen_app, !zlen_cons.
    pose proof (zlen_nonneg h.1). pose proof (zlen_nonneg h.2). lia. }
  by rewrite Hz, Hp.
Qed.

Lemma header_step len p u h rest m F n t q :
  at_line CHTTP1_ST_HEADERS p m F n t -> valid_header h ->
  0 <= n -> n + 1 <= CHTTP1_MAX_HEADER_COUNT -> 0 <= t ->
  t + zlen (print_header h) <= CHTTP1_MAX_TOTAL_HEADER_BYTES ->
  zlen (print_header h ++ rest) <= len ->
  interpret_header h.1 h.2 (set_line (field_line h) p) m = Done (true, q) m ->
  has_flag F_CONTENT_LENGTH q && has_flag F_CHUNKED q = false ->
  exists p', exec (Some recorder) len p u (print_header h ++ rest) m =
      exec (Some recorder) len p' (with_header u h) rest m /\
    at_line CHTTP1_ST_HEADERS p' m F (n + 1) (t + zlen (print_header h)) /\
    framing_state p' = framing_state q /\ zlen rest <= len.
Proof.
  intros [Hr Hst Hq Hl Hcm Hbm Hkm Hn Ht Hx Hver] Hv Hn0 Hnmax Ht0 Htmax Hlen Hi Hcl. subst n t.
  pose proof (request_no_spill p ltac:(apply Hr) Hq) as Hs.
  set (p1 := set_line (field_line h) p) in *.
  assert (Hp : process_header_line (Some recorder) false p1 u m =
    Done (PH_OK, charge_line (zlen (print_header h)) q, with_header u h) m)
    by (by apply (process_field_exact false h p1 u m)).
  assert (Hint : interpreted p1 q).
  { assert (Hb : bounded p1).
    { destruct Hr as ([Hb _] & _). pose proof (vh_len _ Hv) as Hvl. rewrite zlen_field in Hvl.
      destruct Hb; constructor; try done. unfold p1, line_len, line_storage. psimpl. rewrite Hs. lia. }
    assert (Hc : chunked_has_te p1).
    { apply framed_chunked; [apply Hr|by left]. }
    pose proof (wp_interpret_header h.1 h.2 p1 m (fun '(_, q) _ => interpreted p1 q) Hb Hc) as Hw.
    unfold wp in Hw. rewrite Hi in Hw. apply Hw. done. }
  set (p' := set_line [] (charge_line (zlen (print_header h)) q)).
  destruct (exec_again len p u (print_header h ++ rest) m F p' (with_header u h) rest Hr
    (print_not_nil _ _) Hlen) as (-> & Hr' & Hl').
  { unfold execute_pass. rewrite Hst. by apply field_pass. }
  exists p'. split; [done|]. split; [|done].
  destruct Hint as (r & fl & cl & hc & -> & _).
  constructor; try done; unfold p', charge_line, p1; psimpl; sz; try done.
  - unfold CHTTP1_MAX_HEADER_COUNT in *. by sz.
  - unfold CHTTP1_MAX_TOTAL_HEADER_BYTES in *. pose proof (zlen_nonneg (print_header h)). by sz.
Qed.

Lemma interpret_plain h p m : plain_header h -> exists q,
  interpret_header h.1 h.2 p m = Done (true, q) m /\ framing_state q = framing_state p.
Proof.
  intros [H1 H2 H3]. unfold interpret_header. rewrite H1, H2, H3, andb_false_r.
  destruct (header_name_is h.1 (lit "connection")).
  - destruct (connection_tokens_spec (S (length h.2)) (flags p) h.2) as (fl & -> & Hfl); [lia|].
    exists (set_flags fl p). split; [done|]. unfold framing_state. autorewrite with flags. psimpl.
    by rewrite !Hfl.
  - destruct (_ && _); [|by exists p]. exists (add_flag F_EXPECT_100_CONTINUE p). split; [done|].
    unfold framing_state. by flag_bits.
Qed.

Lemma interpret_host v p m : host_of v -> is_request p = true -> host_count p = 0 ->
  interpret_header (lit "Host") v p m = Done (true, set_host_count 1 p) m.
Proof.
  intros Hv Hr Hc. unfold interpret_header.
  change (header_name_is (lit "Host") (lit "content-length")) with false.
  change (header_name_is (lit "Host") (lit "transfer-encoding")) with false.
  change (header_name_is (lit "Host") (lit "host")) with true. rewrite Hr. cbn [andb].
  unfold read_host. rewrite Hc. change (0 <? 2) with true. cbn iota.
  by rewrite (proj2 (host_value_iff v) Hv).
Qed.

Lemma decimal_read v n : v <> [] -> all is_digit v -> decimal_value v = n -> n <= UINT64_MAX ->
  parse_uint64_decimal v = Some n.
Proof.
  intros Hn Hd <- Hm. rewrite (proj1 (uint64_parsing_facts v)).
  assert (is_nil v = false) as -> by by destruct v.
  apply forallb_Forall_true in Hd. rewrite Hd. cbn [negb andb]. by destruct (Z.leb_spec (decimal_value v) UINT64_MAX); [|lia].
Qed.

Lemma interpret_length v n p m : parse_uint64_decimal v = Some n -> has_flag F_CONTENT_LENGTH p = false ->
  interpret_header (lit "Content-Length") v p m =
    Done (true, set_content_length n (add_flag F_CONTENT_LENGTH p)) m.
Proof.
  intros Hv Hc. unfold interpret_header.
  change (header_name_is (lit "Content-Length") (lit "content-length")) with true. cbn iota.
  unfold read_content_length. by rewrite Hc, Hv.
Qed.

Lemma interpret_chunked p m : has_flag F_CHUNKED_APPLIED p = false -> exists q,
  interpret_header (lit "Transfer-Encoding") (lit "chunked") p m = Done (true, q) m /\
  framing_state q = (true, has_flag F_CONTENT_LENGTH p, true, true, host_count p, content_length p).
Proof.
  intros Ha. rewrite interpret_transfer_encoding by by vm_compute.
  change (scan_of (codings (lit "chunked"))) with (TeScan 1 false true true false).
  unfold apply_codings. cbn [te_count te_nonfinal te_last te_any te_other].
  assert (Ha' : has_flag F_CHUNKED_APPLIED (add_flag F_TRANSFER_ENCODING p) = false) by by flag_bits.
  rewrite Ha'. change (1 >? 1) with false. change (1 >? 0) with true. cbn [orb andb]. cbn iota.
  rewrite andb_false_r. eexists. split; [done|]. unfold framing_state. by flag_bits.
Qed.

Lemma framing_field p h : framing_state (set_line (field_line h) p) = framing_state p.
Proof. done. Qed.

Lemma framing_length p q : framing_state q = framing_state p ->
  has_flag F_CONTENT_LENGTH q = has_flag F_CONTENT_LENGTH p.
Proof. intros H. by injection H. Qed.

Definition with_headers (u : message) (hs : list header) : message := foldl with_header u hs.
Definition with_trailers (u : message) (hs : list header) : message := foldl with_trailer u hs.

Lemma headers_step len hs p u rest m F n t :
  at_line CHTTP1_ST_HEADERS p m F n t -> Forall valid_header hs -> Forall plain_header hs ->
  0 <= n -> n + zlen hs <= CHTTP1_MAX_HEADER_COUNT -> 0 <= t ->
  t + zlen (print_headers hs) <= CHTTP1_MAX_TOTAL_HEADER_BYTES ->
  zlen (print_headers hs ++ rest) <= len ->
  has_flag F_CONTENT_LENGTH p = false ->
  exists p', exec (Some recorder) len p u (print_headers hs ++ rest) m =
      exec (Some recorder) len p' (with_headers u hs) rest m /\
    at_line CHTTP1_ST_HEADERS p' m F (n + zlen hs) (t + zlen (print_headers hs)) /\
    framing_state p' = framing_state p /\ zlen rest <= len.
Proof.
  intros Hp Hv Hpl. revert p u n t Hp. induction Hv as [|h hs Hh Hv IH]; intros p u n t Hp Hn0 Hn Ht0 Ht Hlen Hcl.
  { exists p. cbn. rewrite !Z.add_0_r. done. }
  apply Forall_cons in Hpl as [Hph Hpl].
  unfold print_headers in *. cbn [fmap list_fmap concat] in *. fold (print_headers hs) in *.
  rewrite <- app_assoc in *. rewrite zlen_cons in Hn. rewrite zlen_app in Ht. rewrite zlen_cons, zlen_app.
  pose proof (zlen_nonneg hs). pose proof (zlen_nonneg (print_headers hs)). pose proof (zlen_nonneg (print_header h)).
  destruct (interpret_plain h (set_line (field_line h) p) m Hph) as (q & Hi & Hq).
  destruct (header_step len p u h (print_headers hs ++ rest) m F n t q Hp Hh) as (p1 & -> & Hp1 & Hf1 & Hl1);
    try done; try lia.
  { rewrite framing_field in Hq. by rewrite (framing_length _ _ Hq), Hcl. }
  rewrite Hq, framing_field in Hf1.
  destruct (IH Hpl p1 (with_header u h) (n + 1) (t + zlen (print_header h)) Hp1) as (p2 & -> & Hp2 & Hf2 & Hl2);
    try lia; try done.
  { by rewrite (framing_length _ _ Hf1). }
  exists p2. split; [done|]. split; [|by rewrite Hf2].
  by replace (n + (1 + zlen hs)) with (n + 1 + zlen hs) by lia;
  replace (t + (zlen (print_header h) + zlen (print_headers hs)))
    with (t + zlen (print_header h) + zlen (print_headers hs)) by lia.
Qed.

(** ** The end of the header block *)
Lemma blank_pass tr msg p u rest m blank : line p = [] -> line_spill p = None ->
  field_line_pass (Some recorder) tr msg p u (crlf ++ rest) blank m = Done (blank (set_line [] p) rest) m.
Proof.
  intros Hl Hs. unfold field_line_pass, mbind, M_bind.
  pose proof (accumulate_exact (header_spill_budget p) [] p rest m Hs (Forall_nil_2 _)) as E.
  cbn [app] in E |- *. rewrite E by (unfold line_len; rewrite Hl; done). rewrite Hl. done.
Qed.

Lemma headers_done_exact p u pos rest :
  is_request p = true -> is_1_1_or_later p = true -> host_count p = 1 ->
  (has_flag F_TRANSFER_ENCODING p = true -> has_flag F_CHUNKED p = true) ->
  headers_done (Some recorder) p u pos rest =
    frame_body (Some recorder) false false (add_flag F_HEADERS_DONE p) u pos rest.
Proof.
  intros Hr Hv Hh Hte. unfold headers_done, request_refused. rewrite Hr, Hv, Hh.
  change (1 >? 1) with false. change (1 =? 0) with false. cbn [negb andb]. rewrite andb_false_r.
  assert (Hb : has_flag F_TRANSFER_ENCODING p && negb (has_flag F_CHUNKED p) = false).
  { destruct (has_flag F_TRANSFER_ENCODING p); [|done]. by rewrite Hte. }
  rewrite Hb. change (call (Some recorder) on_headers_complete (fun f => f (add_flag F_HEADERS_DONE p))
    CHTTP1_HEADERS_HAS_BODY u) with (CHTTP1_HEADERS_HAS_BODY, u).
  change (is_request (add_flag F_HEADERS_DONE p)) with (is_request p). rewrite Hr. cbn -[has_flag add_flag].
  assert (Hb' : has_flag F_TRANSFER_ENCODING (add_flag F_HEADERS_DONE p) &&
    negb (has_flag F_CHUNKED (add_flag F_HEADERS_DONE p)) = false) by (revert Hb; by flag_bits).
  rewrite Hb'. done.
Qed.

Lemma crlf_not_nil (rest : list Z) : crlf ++ rest <> [].
Proof. done. Qed.

(** A message that is complete at the end of its headers. *)
Lemma blank_completes len p u rest m F n t ck v ap :
  at_line CHTTP1_ST_HEADERS p m F n t -> zlen (crlf ++ rest) <= len ->
  framing_state p = (false, ck, false, ap, 1, v) -> (ck = true -> v = 0) ->
  exists p', exec (Some recorder) len p u (crlf ++ rest) m = Done (CHTTP1_PAUSED, p', completed u) m /\
    consumed p' = len - zlen rest.
Proof.
  intros [Hr Hst Hq Hl Hcm Hbm Hkm Hn Ht Hx Hver] Hlen Hf Hv. injection Hf as Hck Hcl Hte _ Hh Hc.
  pose proof (request_no_spill p ltac:(apply Hr) Hq) as Hs. eexists. split.
  - eapply exec_return; [done|done|done|]. unfold execute_pass. rewrite Hst, blank_pass by done.
    rewrite headers_done_exact by (done || (intros E; revert E Hte; flag_bits; congruence)).
    unfold frame_body. set (p1 := add_flag F_HEADERS_DONE (set_line [] p)).
    assert (has_flag F_CHUNKED p1 = false) as -> by (rewrite <- Hck; unfold p1; by flag_bits).
    assert (has_flag F_CONTENT_LENGTH p1 = ck) as -> by (rewrite <- Hcl; unfold p1; by flag_bits).
    change (content_length p1) with (content_length p). change (is_request p1) with (is_request p).
    rewrite Hc, Hq. destruct ck; [rewrite Hv by done|]; done.
  - done.
Qed.

(** A body follows: of known length, or chunked. *)
Lemma blank_to_body len p u rest m F n t ck cl te ap v :
  at_line CHTTP1_ST_HEADERS p m F n t -> zlen (crlf ++ rest) <= len ->
  framing_state p = (ck, cl, te, ap, 1, v) -> (te = true -> ck = true) ->
  ck = true \/ (cl = true /\ 0 < v) ->
  exists p', exec (Some recorder) len p u (crlf ++ rest) m = exec (Some recorder) len p' u rest m /\
    zlen rest <= len /\
    at_line (if ck then CHTTP1_ST_BODY_CHUNK_SIZE else CHTTP1_ST_BODY_CONTENT_LENGTH) p' m F n t /\
    content_length p' = v.
Proof.
  intros [Hr Hst Hq Hl Hcm Hbm Hkm Hn Ht Hx Hver] Hlen Hf Htc Hcase.
  injection Hf as Hck Hcl Hte _ Hh Hc.
  pose proof (request_no_spill p ltac:(apply Hr) Hq) as Hs.
  set (p1 := add_flag F_HEADERS_DONE (set_line [] p)).
  set (p2 := set_finish_state CHTTP1_FINISH_UNSAFE (set_state
    (if ck then CHTTP1_ST_BODY_CHUNK_SIZE else CHTTP1_ST_BODY_CONTENT_LENGTH) p1)).
  destruct (exec_again len p u (crlf ++ rest) m F p2 u rest Hr (crlf_not_nil _) Hlen) as (-> & Hr2 & Hl2).
  { unfold execute_pass. rewrite Hst, blank_pass by done.
    rewrite headers_done_exact; try done.
    2:{ change (has_flag F_TRANSFER_ENCODING (set_line [] p)) with (has_flag F_TRANSFER_ENCODING p).
        change (has_flag F_CHUNKED (set_line [] p)) with (has_flag F_CHUNKED p). by rewrite Hte, Hck. }
    unfold frame_body. fold p1.
    assert (has_flag F_CHUNKED p1 = ck) as -> by (rewrite <- Hck; unfold p1; by flag_bits).
    assert (has_flag F_CONTENT_LENGTH p1 = cl) as -> by (rewrite <- Hcl; unfold p1; by flag_bits).
    change (content_length p1) with (content_length p). rewrite Hc.
    destruct ck; [done|]. destruct Hcase as [|[-> Hv]]; [done|]. by destruct (Z.eqb_spec v 0); [lia|]. }
  exists p2. split; [done|]. split; [done|]. split; [by constructor|done].
Qed.

(** ** Bodies *)
Lemma fixed_body len p u body rest m F n t :
  at_line CHTTP1_ST_BODY_CONTENT_LENGTH p m F n t -> content_length p = zlen body -> body <> [] ->
  zlen (body ++ rest) <= len ->
  exists p', exec (Some recorder) len p u (body ++ rest) m =
      Done (CHTTP1_PAUSED, p', completed (with_body u body)) m /\ consumed p' = len - zlen rest.
Proof.
  intros [Hr Hst Hq Hl Hcm Hbm Hkm Hn Ht Hx Hver] Hc Hb Hlen.
  assert (Hz : 0 < zlen body) by (destruct body; [done|rewrite zlen_cons; pose proof (zlen_nonneg body); lia]).
  pose proof (zlen_nonneg rest). eexists. split.
  - eapply exec_return; [done|by destruct body|done|]. unfold execute_pass. rewrite Hst, Hc, zlen_app.
    assert ((if zlen body + zlen rest <? zlen body then zlen body + zlen rest else zlen body) = zlen body) as ->
      by (destruct (Z.ltb_spec (zlen body + zlen rest) (zlen body)); lia).
    unfold body_pass. rewrite (ztake_app_exact body), (zdrop_app_exact body) by done.
    assert ((zlen body >? 0) = true) as -> by (rewrite Z.gtb_ltb; apply Z.ltb_lt; lia).
    cbn. rewrite Hc, Z.sub_diag. cbn. done.
  - done.
Qed.

Lemma hex_not_stop s : all is_hexdig s -> all (fun c : Z => negb ((c =? 59) || is_ows c)) s.
Proof.
  intros Hs. eapply Forall_impl; [exact Hs|]. intros c Hc. apply negb_true_iff, orb_false_iff.
  assert (Hne : forall d, is_hexdig d = false -> c <> d) by (intros d Hd ->; congruence).
  unfold is_ows. split; [by apply Z.eqb_neq, Hne|]. apply orb_false_iff.
  split; by apply Z.eqb_neq, Hne.
Qed.

Lemma chunk_size_exact c p m : valid_part c -> line p = c.1 -> line_spill p = None ->
  max_chunk_size_override p = 0 -> chunk_excess p = 0 ->
  parse_chunk_size_line p m = Done (true, set_content_length (zlen c.2) (set_chunk_excess 0 p)) m.
Proof.
  intros [Hd Hlen Hv Hmax] Hl Hs Hk Hx. unfold parse_chunk_size_line.
  assert (Hptr : line_ptr p m = Done c.1 m).
  { unfold line_ptr, access_spill, mbind, M_bind. by rewrite Hs, <- Hl. }
  unfold mbind at 1, M_bind at 1. rewrite Hptr. cbn beta iota.
  assert (Hll : line_len p = zlen c.1) by (unfold line_len; by rewrite Hl). rewrite Hll.
  pose proof (hex_not_stop c.1 Hd) as Hns. rewrite (take_while_all _ _ Hns), (drop_while_all _ _ Hns).
  assert (Hhex : parse_uint64_hex c.1 = Some (zlen c.2)).
  { rewrite (proj2 (uint64_parsing_facts c.1)), Hv.
    assert (is_nil c.1 = false) as ->.
    { destruct (is_nil c.1) eqn:E; [|done]. apply is_nil_true in E. rewrite E, zlen_nil in Hlen. lia. }
    apply forallb_Forall_true in Hd. rewrite Hd. cbn [negb andb].
    by destruct (Z.leb_spec (zlen c.2) UINT64_MAX); [|lia]. }
  rewrite Hhex. cbn [drop_while is_nil]. rewrite andb_true_r.
  assert ((if negb (is_request p) then [] else []) = @nil Z) as -> by by destruct (negb _).
  cbn [length chunk_ext_is_valid is_nil fueled]. unfold mbind, M_bind, mret, M_ret. cbn [negb].
  rewrite Hk. change (negb (0 =? 0)) with false. cbn [andb].
  pose proof (zlen_nonneg c.2). rewrite Hx. unfold UINT64_MAX in *. sz.
  change ((18446744073709551615 - 16) `div` 2) with 9223372036854775799. rewrite !Z.gtb_ltb.
  destruct (Z.ltb_spec 9223372036854775799 (zlen c.2)).
  - destruct (Z.ltb_spec 18446744073709551615 (0 + zlen c.1 + 4)); [lia|]. done.
  - sz. destruct (Z.ltb_spec (16 + 2 * zlen c.2) (0 + zlen c.1 + 4)); [lia|]. done.
Qed.

Lemma chunk_size_step len p u c rest m F n t :
  at_line CHTTP1_ST_BODY_CHUNK_SIZE p m F n t -> valid_part c -> zlen (c.1 ++ crlf ++ rest) <= len ->
  exists p', exec (Some recorder) len p u (c.1 ++ crlf ++ rest) m = exec (Some recorder) len p' u rest m /\
    zlen rest <= len /\ content_length p' = zlen c.2 /\
    at_line (if zlen c.2 =? 0 then CHTTP1_ST_BODY_CHUNK_TRAILERS else CHTTP1_ST_BODY_CHUNK_DATA) p' m F n t.
Proof.
  intros [Hr Hst Hq Hl Hcm Hbm Hkm Hn Ht Hx Hver] Hv Hlen.
  pose proof (request_no_spill p ltac:(apply Hr) Hq) as Hs. pose proof (vp_len _ Hv) as Hvl.
  set (p1 := set_line c.1 p).
  set (p2 := set_state (if zlen c.2 =? 0 then CHTTP1_ST_BODY_CHUNK_TRAILERS else CHTTP1_ST_BODY_CHUNK_DATA)
    (set_line [] (set_content_length (zlen c.2) (set_chunk_excess 0 p1)))).
  destruct (exec_again len p u (c.1 ++ crlf ++ rest) m F p2 u rest Hr) as (-> & Hr2 & Hl2).
  { by destruct c.1. }
  { done. }
  { unfold execute_pass. rewrite Hst. unfold chunk_size_pass, mbind, M_bind.
    rewrite accumulate_exact; [|done|by apply hexdig_no_lf, Hv|].
    2:{ unfold line_len, CHTTP1_MAX_LINE_LEN. rewrite Hl. change (zlen (@nil Z)) with 0. lia. }
    rewrite Hl. cbn [app]. fold p1. by rewrite (chunk_size_exact c p1). }
  exists p2. split; [done|]. split; [done|]. split; [done|]. by constructor.
Qed.

Lemma chunk_step len p u c rest m F n t :
  at_line CHTTP1_ST_BODY_CHUNK_SIZE p m F n t -> valid_part c -> c.2 <> [] ->
  zlen (print_part c ++ rest) <= len ->
  exists p', exec (Some recorder) len p u (print_part c ++ rest) m =
      exec (Some recorder) len p' (with_body u c.2) rest m /\
    zlen rest <= len /\ at_line CHTTP1_ST_BODY_CHUNK_SIZE p' m F n t.
Proof.
  intros Hp Hv Hd Hlen. unfold print_part in *. rewrite <- !app_assoc in *.
  assert (Hz : 0 < zlen c.2) by (destruct c.2; [done|rewrite zlen_cons; pose proof (zlen_nonneg l); lia]).
  destruct (chunk_size_step len p u c (c.2 ++ crlf ++ rest) m F n t Hp Hv Hlen) as (p1 & -> & Hl1 & Hc1 & Hp1).
  destruct (Z.eqb_spec (zlen c.2) 0); [lia|].
  destruct Hp1 as [Hr Hst Hq Hl Hcm Hbm Hkm Hn Ht Hx Hver].
  pose proof (request_no_spill p1 ltac:(apply Hr) Hq) as Hs. pose proof (zlen_nonneg (crlf ++ rest)) as Hzr.
  set (p2 := set_state CHTTP1_ST_BODY_CHUNK_CRLF (set_content_length 0 p1)).
  destruct (exec_again len p1 u (c.2 ++ crlf ++ rest) m F p2 (with_body u c.2) (crlf ++ rest) Hr)
    as (-> & Hr2 & Hl2); [by destruct c.2|done| |].
  { unfold execute_pass. rewrite Hst, Hc1, (zlen_app c.2).
    assert ((if zlen c.2 + zlen (crlf ++ rest) <? zlen c.2 then zlen c.2 + zlen (crlf ++ rest) else zlen c.2) = zlen c.2) as ->
      by (destruct (Z.ltb_spec (zlen c.2 + zlen (crlf ++ rest)) (zlen c.2)); lia).
    unfold body_pass. rewrite (ztake_app_exact c.2), (zdrop_app_exact c.2) by done.
    assert ((zlen c.2 >? 0) = true) as -> by (rewrite Z.gtb_ltb; apply Z.ltb_lt; lia).
    cbn -[crlf]. rewrite Hc1, Z.sub_diag. done. }
  set (p3 := set_state CHTTP1_ST_BODY_CHUNK_SIZE (set_line [] p2)).
  destruct (exec_again len p2 (with_body u c.2) (crlf ++ rest) m F p3 (with_body u c.2) rest Hr2 (crlf_not_nil _) Hl2)
    as (-> & Hr3 & Hl3).
  { unfold execute_pass. change (state p2) with CHTTP1_ST_BODY_CHUNK_CRLF. unfold chunk_crlf_pass, mbind, M_bind.
    pose proof (accumulate_exact 0 [] p2 rest m Hs (Forall_nil_2 _)) as E. cbn [app] in E |- *.
    rewrite E by (unfold line_len; change (line p2) with (line p1); rewrite Hl; done).
    change (line p2) with (line p1). by rewrite Hl. }
  exists p3. split; [done|]. split; [done|]. by constructor.
Qed.

Definition with_bodies (u : message) (ds : list (list Z)) : message := foldl with_body u ds.

Lemma chunks_step len parts p u rest m F n t :
  at_line CHTTP1_ST_BODY_CHUNK_SIZE p m F n t -> Forall valid_part parts -> Forall (fun c => c.2 <> []) parts ->
  zlen (concat (print_part <$> parts) ++ rest) <= len ->
  exists p', exec (Some recorder) len p u (concat (print_part <$> parts) ++ rest) m =
      exec (Some recorder) len p' (with_bodies u parts.*2) rest m /\
    zlen rest <= len /\ at_line CHTTP1_ST_BODY_CHUNK_SIZE p' m F n t.
Proof.
  intros Hp Hv Hne. revert p u Hp. induction Hv as [|c parts Hc Hv IH]; intros p u Hp Hlen.
  { exists p. done. }
  apply Forall_cons in Hne as [Hcn Hne]. cbn [fmap list_fmap concat] in *. rewrite <- app_assoc in *.
  destruct (chunk_step len p u c _ m F n t Hp Hc Hcn Hlen) as (p1 & -> & Hl1 & Hp1).
  destruct (IH Hne p1 (with_body u c.2) Hp1 Hl1) as (p2 & -> & Hl2 & Hp2). by exists p2.
Qed.

(** ** Trailers *)
Lemma trailer_step len p u h rest m F n t :
  at_line CHTTP1_ST_BODY_CHUNK_TRAILERS p m F n t -> valid_header h ->
  0 <= n -> n + 1 <= CHTTP1_MAX_HEADER_COUNT -> 0 <= t ->
  t + zlen (print_header h) <= CHTTP1_MAX_TOTAL_HEADER_BYTES ->
  zlen (print_header h ++ rest) <= len ->
  exists p', exec (Some recorder) len p u (print_header h ++ rest) m =
      exec (Some recorder) len p' (with_trailer u h) rest m /\
    zlen rest <= len /\
    at_line CHTTP1_ST_BODY_CHUNK_TRAILERS p' m F (n + 1) (t + zlen (print_header h)).
Proof.
  intros [Hr Hst Hq Hl Hcm Hbm Hkm Hn Ht Hx Hver] Hv Hn0 Hnmax Ht0 Htmax Hlen. subst n t.
  pose proof (request_no_spill p ltac:(apply Hr) Hq) as Hs.
  set (p1 := set_line (field_line h) p) in *.
  assert (Hp : process_header_line (Some recorder) true p1 u m =
    Done (PH_OK, charge_line (zlen (print_header h)) p1, with_trailer u h) m)
    by (by apply (process_field_exact true h p1 u m)).
  set (p' := set_line [] (charge_line (zlen (print_header h)) p1)).
  destruct (exec_again len p u (print_header h ++ rest) m F p' (with_trailer u h) rest Hr
    (print_not_nil _ _) Hlen) as (-> & Hr' & Hl').
  { unfold execute_pass. rewrite Hst. by apply field_pass. }
  exists p'. split; [done|]. split; [done|].
  unfold CHTTP1_MAX_HEADER_COUNT, CHTTP1_MAX_TOTAL_HEADER_BYTES in *. pose proof (zlen_nonneg (print_header h)).
  constructor; try done; unfold p', charge_line, p1; psimpl; by sz.
Qed.

Lemma trailers_step len hs p u rest m F n t :
  at_line CHTTP1_ST_BODY_CHUNK_TRAILERS p m F n t -> Forall valid_header hs ->
  0 <= n -> n + zlen hs <= CHTTP1_MAX_HEADER_COUNT -> 0 <= t ->
  t + zlen (print_headers hs) <= CHTTP1_MAX_TOTAL_HEADER_BYTES ->
  zlen (print_headers hs ++ crlf ++ rest) <= len ->
  exists p', exec (Some recorder) len p u (print_headers hs ++ crlf ++ rest) m =
      Done (CHTTP1_PAUSED, p', completed (with_trailers u hs)) m /\ consumed p' = len - zlen rest.
Proof.
  intros Hp Hv. revert p u n t Hp. induction Hv as [|h hs Hh Hv IH]; intros p u n t Hp Hn0 Hn Ht0 Ht Hlen.
  - destruct Hp as [Hr Hst Hq Hl Hcm Hbm Hkm _ _ Hx Hver].
    pose proof (request_no_spill p ltac:(apply Hr) Hq) as Hs. eexists. split.
    + eapply exec_return; [done|done|done|]. unfold execute_pass. rewrite Hst.
      cbn [print_headers fmap list_fmap concat]. change ([] ++ crlf ++ rest) with (crlf ++ rest).
      by rewrite blank_pass.
    + done.
  - unfold print_headers in *. cbn [fmap list_fmap concat] in *. fold (print_headers hs) in *.
    rewrite <- app_assoc in *. rewrite zlen_cons in Hn. rewrite zlen_app in Ht.
    pose proof (zlen_nonneg hs). pose proof (zlen_nonneg (print_headers hs)). pose proof (zlen_nonneg (print_header h)).
    destruct (trailer_step len p u h (print_headers hs ++ crlf ++ rest) m F n t Hp Hh) as (p1 & -> & Hl1 & Hp1);
      try done; try lia.
    destruct (IH p1 (with_trailer u h) (n + 1) (t + zlen (print_header h)) Hp1) as (p2 & -> & Hc2); try lia; try done.
    by exists p2.
Qed.

(** ** Whole requests *)
Lemma with_headers_eq u hs : with_headers u hs =
  Message (msg_line u) (msg_headers u ++ hs) (msg_body u) (msg_trailers u) (msg_complete u).
Proof.
  revert u. induction hs as [|h hs IH]; intros u; cbn; [rewrite app_nil_r; by destruct u|].
  rewrite IH. cbn. by rewrite <- app_assoc.
Qed.
Lemma with_trailers_eq u hs : with_trailers u hs =
  Message (msg_line u) (msg_headers u) (msg_body u) (msg_trailers u ++ hs) (msg_complete u).
Proof.
  revert u. induction hs as [|h hs IH]; intros u; cbn; [rewrite app_nil_r; by destruct u|].
  rewrite IH. cbn. by rewrite <- app_assoc.
Qed.
Lemma with_bodies_eq u ds : with_bodies u ds =
  Message (msg_line u) (msg_headers u) (msg_body u ++ concat ds) (msg_trailers u) (msg_complete u).
Proof.
  revert u. induction ds as [|d ds IH]; intros u; cbn; [rewrite app_nil_r; by destruct u|].
  rewrite IH. cbn. by rewrite <- app_assoc.
Qed.

Lemma request_line_no_lf r : valid_request r -> no_lf (request_line r).
Proof.
  intros Hv. pose proof (vr_minor _ Hv). unfold no_lf, request_line.
  apply Forall_app. split; [apply token_no_lf, Hv|]. constructor; [done|].
  apply Forall_app. split; [apply target_no_lf, Hv|]. constructor; [done|].
  apply Forall_app. split; [repeat (constructor; [done|]); constructor|]. constructor; [lia|done].
Qed.

Lemma first_line_step len r rest m F : valid_request r -> owns m ∅ F ->
  zlen (request_line r ++ crlf ++ rest) <= len ->
  zlen (request_line r) + 2 <= CHTTP1_MAX_TOTAL_HEADER_BYTES ->
  exists p, exec (Some recorder) len chttp1_parser_init_request no_message (request_line r ++ crlf ++ rest) m =
      exec (Some recorder) len p (with_line no_message (rq_method r, rq_target r)) rest m /\
    zlen rest <= len /\
    at_line CHTTP1_ST_HEADERS p m F 0 (zlen (request_line r) + 2) /\
    framing_state p = (false, false, false, false, 0, 0).
Proof.
  intros Hv Ho Hlen Hmax. set (p0 := chttp1_parser_init_request).
  destruct (init_ok CHTTP1_PARSE_REQUEST 0 0 0 false) as (Hok & Ha & Hsp); [done|done|].
  assert (Hr : ready p0 m F) by (split; [exact Hok|split; [done|exact Ho]]).
  pose proof (zlen_nonneg (request_line r)) as Hz. pose proof (vr_line _ Hv) as Hll.
  pose proof (vr_minor _ Hv) as Hm. destruct (vr_target _ Hv) as [Htn Ht].
  set (p1 := set_total_header_bytes (zlen (request_line r) + 2) (set_line (request_line r) p0)).
  set (p2 := set_state CHTTP1_ST_HEADERS (set_finish_state CHTTP1_FINISH_UNSAFE (set_line []
    (set_http_minor (rq_minor r) (set_http_major 1 p1))))).
  destruct (exec_again len p0 no_message (request_line r ++ crlf ++ rest) m F p2
    (with_line no_message (rq_method r, rq_target r)) rest Hr) as (-> & Hr2 & Hl2).
  { unfold request_line. by destruct (rq_method r). }
  { done. }
  { change (state p0) with CHTTP1_ST_FIRST_LINE. unfold execute_pass.
    change (state p0) with CHTTP1_ST_FIRST_LINE. cbn iota. unfold first_line_pass.
    unfold mbind at 1, M_bind at 1.
    rewrite accumulate_exact; [|done|by apply request_line_no_lf|].
    2:{ change (line_len p0) with 0. lia. }
    cbn beta iota. change (line p0 ++ request_line r) with (request_line r).
    change (is_request (set_line (request_line r) p0)) with true.
    assert (Hl : line_len (set_line (request_line r) p0) = zlen (request_line r)) by done. rewrite Hl.
    assert (Hne : (zlen (request_line r) =? 0) = false).
    { apply Z.eqb_neq. unfold request_line. rewrite zlen_app, zlen_cons.
      pose proof (zlen_nonneg (rq_method r)). pose proof (zlen_nonneg (rq_target r ++ 32 :: lit "HTTP/1." ++ [48 + rq_minor r])). lia. }
    rewrite Hne. cbn [andb].
    change (total_header_bytes (set_line (request_line r) p0)) with 0.
    change (effective_max_total_header_bytes (set_line (request_line r) p0)) with CHTTP1_MAX_TOTAL_HEADER_BYTES.
    unfold CHTTP1_MAX_TOTAL_HEADER_BYTES in *. sz. rewrite Z.gtb_ltb.
    destruct (Z.ltb_spec (64 * 1024) (0 + (zlen (request_line r) + 2))); [lia|].
    rewrite Z.add_0_l. fold p1. change (is_request p1) with true. cbn iota.
    unfold mbind at 1, M_bind at 1.
    rewrite (parse_request_line_exact r p1 no_message m); try done; [apply Hv|lia]. }
  exists p2. split; [done|]. split; [done|]. split; [|done]. constructor; try done.
  unfold is_1_1_or_later, p2. psimpl. destruct (Z.geb_spec (rq_minor r) 1); [done|lia].
Qed.

Lemma print_headers_app a b : print_headers (a ++ b) = print_headers a ++ print_headers b.
Proof. unfold print_headers. by rewrite fmap_app, concat_app. Qed.
Lemma print_headers_one h : print_headers [h] = print_header h.
Proof. apply app_nil_r. Qed.

(** The headers of a request, up to its blank line. *)
Lemma request_headers_step len r p u rest m F t :
  valid_request r -> at_line CHTTP1_ST_HEADERS p m F 0 t ->
  framing_state p = (false, false, false, false, 0, 0) ->
  0 <= t -> t + zlen (print_headers (all_headers r)) <= CHTTP1_MAX_TOTAL_HEADER_BYTES ->
  zlen (print_headers (all_headers r) ++ rest) <= len ->
  exists p', exec (Some recorder) len p u (print_headers (all_headers r) ++ rest) m =
      exec (Some recorder) len p' (with_headers u (all_headers r)) rest m /\
    zlen rest <= len /\
    at_line CHTTP1_ST_HEADERS p' m F (zlen (all_headers r)) (t + zlen (print_headers (all_headers r))) /\
    framing_state p' =
      match rq_framing r with
      | NoBody => (false, false, false, false, 1, 0)
      | Fixed _ body => (false, true, false, false, 1, zlen body)
      | Chunked _ _ _ => (true, false, true, true, 1, 0)
      end.
Proof.
  intros Hv Hp Hf Ht0 Ht Hlen. destruct (vr_host _ Hv) as [Hhost Hhv]. destruct (vr_headers _ Hv) as [Hhs Hpl].
  pose proof (vr_count _ Hv) as Hcount. pose proof (zlen_nonneg (trailers_of (rq_framing r))) as Htr.
  unfold all_headers in *. set (host := (lit "Host", rq_host r)) in *.
  change (host :: rq_headers r ++ framing_header (rq_framing r))
    with ([host] ++ rq_headers r ++ framing_header (rq_framing r)) in *.
  rewrite !print_headers_app, print_headers_one in *. rewrite <- !app_assoc in *.
  rewrite !zlen_app in Hcount. change (zlen [host]) with 1 in Hcount. rewrite !zlen_app in Ht.
  pose proof (zlen_nonneg (rq_headers r)). pose proof (zlen_nonneg (framing_header (rq_framing r))).
  pose proof (zlen_nonneg (print_header host)). pose proof (zlen_nonneg (print_headers (rq_headers r))).
  pose proof (zlen_nonneg (print_headers (framing_header (rq_framing r)))).
  pose proof Hf as Hf0. injection Hf0 as F1 F2 F3 F4 F5 F6.
  destruct (header_step len p u host (print_headers (rq_headers r) ++ print_headers (framing_header (rq_framing r)) ++ rest)
    m F 0 t (set_host_count 1 (set_line (field_line host) p)) Hp Hhv) as (p1 & -> & Hp1 & Hf1 & Hl1); try done; try lia.
  { apply interpret_host; [done|apply Hp|done]. }
  { change (has_flag F_CONTENT_LENGTH (set_host_count 1 (set_line (field_line host) p))) with (has_flag F_CONTENT_LENGTH p). by rewrite F2. }
  assert (Hf1' : framing_state p1 = (false, false, false, false, 1, 0)).
  { rewrite Hf1. unfold framing_state. clear -F1 F2 F3 F4 F6.
    rewrite <- F1, <- F2, <- F3, <- F4, <- F6 at 1. reflexivity. }
  clear Hf1 F1 F2 F3 F4 F5 F6.
  destruct (headers_step len (rq_headers r) p1 (with_header u host) (print_headers (framing_header (rq_framing r)) ++ rest)
    m F 1 (t + zlen (print_header host)) Hp1 Hhs Hpl) as (p2 & -> & Hp2 & Hf2 & Hl2); try done; try lia.
  { by injection Hf1'. }
  rewrite Hf1' in Hf2. set (u2 := with_headers (with_header u host) (rq_headers r)).
  assert (Hu : forall hs, with_headers u ([host] ++ rq_headers r ++ hs) = with_headers u2 hs).
  { intros hs. unfold u2, with_headers. cbn [app foldl]. by rewrite foldl_app. }
  rewrite Hu, !zlen_app. change (zlen [host]) with 1.
  pose proof (vr_framing _ Hv) as Hfr. destruct (rq_framing r) as [|digits body|parts last ts] eqn:Efr.
  - exists p2. split; [done|]. split; [done|]. split; [|done].
    cbn [framing_header print_headers fmap list_fmap concat]. change (zlen (@nil header)) with 0. change (zlen (@nil Z)) with 0.
    by rewrite !Z.add_0_r, Z.add_assoc.
  - destruct Hfr as (Hdn & Hdd & Hdv & Hbm & Hdl).
    cbn [framing_header] in *. rewrite print_headers_one in *. change (zlen [_]) with 1 in *.
    set (h := (lit "Content-Length", digits)) in *.
    assert (Hvh : valid_header h).
    { assert (Hclean : all (fun c : Z => negb (is_invalid_value_byte c)) digits /\ all (fun c : Z => negb (is_ows c)) digits).
      { split; (eapply Forall_impl; [exact Hdd|]); intros c Hc%is_digit_range; apply negb_true_iff.
        - unfold is_invalid_value_byte. destruct (Z.ltb_spec c 32), (Z.eqb_spec c 127); try lia; done.
        - unfold is_ows. by destruct (Z.eqb_spec c 32), (Z.eqb_spec c 9); try lia. }
      destruct Hclean as [Hc1 Hc2].
      assert (Hnoows : forall l : list Z, all (fun c : Z => negb (is_ows c)) l -> drop_while is_ows l = l).
      { intros l Hl. apply drop_while_id. destruct Hl as [|c l Hc _]; [done|]. by apply negb_true_iff. }
      constructor; cbn [fst snd]; [|done|by apply Hnoows| |done].
      - split; [done|]. apply forallb_Forall_true. by vm_compute.
      - unfold trim_end. rewrite Hnoows, rev_involutive; [done|]. by apply Forall_rev. }
    destruct (header_step len p2 u2 h rest m F _ _ (set_content_length (zlen body) (add_flag F_CONTENT_LENGTH
      (set_line (field_line h) p2))) Hp2 Hvh) as (p3 & -> & Hp3 & Hf3 & Hl3); try done; try lia.
    { apply interpret_length; [by apply decimal_read|]. by injection Hf2. }
    { assert (has_flag F_CHUNKED (set_content_length (zlen body) (add_flag F_CONTENT_LENGTH (set_line (field_line h) p2)))
        = has_flag F_CHUNKED p2) as -> by by flag_bits.
      assert (has_flag F_CHUNKED p2 = false) as -> by by injection Hf2.
      apply andb_false_r. }
    exists p3. split; [done|]. split; [done|]. split.
    + by replace (1 + (zlen (rq_headers r) + 1)) with (1 + zlen (rq_headers r) + 1) by lia;
      replace (t + (zlen (print_header host) + (zlen (print_headers (rq_headers r)) + zlen (print_header h))))
        with (t + zlen (print_header host) + zlen (print_headers (rq_headers r)) + zlen (print_header h)) by lia.
    + rewrite Hf3. injection Hf2 as F1 F2 F3 F4 F5 F6. unfold framing_state. clear -F1 F3 F4 F5.
      repeat f_equal; [rewrite <- F1|..|rewrite <- F3|rewrite <- F4|exact F5]; by flag_bits.
  - cbn [framing_header] in *. rewrite print_headers_one in *. change (zlen [_]) with 1 in *.
    set (h := (lit "Transfer-Encoding", lit "chunked")) in *.
    assert (Hvh : valid_header h).
    { constructor; try done; cbn [fst snd].
      - split; [done|]. apply forallb_Forall_true. by vm_compute.
      - apply forallb_Forall_true. by vm_compute. }
    destruct (interpret_chunked (set_line (field_line h) p2) m) as (q & Hi & Hq).
    { by injection Hf2. }
    change (has_flag F_CONTENT_LENGTH (set_line (field_line h) p2)) with (has_flag F_CONTENT_LENGTH p2) in Hq.
    change (host_count (set_line (field_line h) p2)) with (host_count p2) in Hq.
    change (content_length (set_line (field_line h) p2)) with (content_length p2) in Hq.
    injection Hf2 as F1 F2 F3 F4 F5 F6. rewrite F2, F5, F6 in Hq.
    destruct (header_step len p2 u2 h rest m F _ _ q Hp2 Hvh) as (p3 & -> & Hp3 & Hf3 & Hl3); try done; try lia.
    { injection Hq as _ -> _ _ _ _. done. }
    exists p3. split; [done|]. split; [done|]. split; [|by rewrite Hf3].
    by replace (1 + (zlen (rq_headers r) + 1)) with (1 + zlen (rq_headers r) + 1) by lia;
    replace (t + (zlen (print_header host) + (zlen (print_headers (rq_headers r)) + zlen (print_header h))))
      with (t + zlen (print_header host) + zlen (print_headers (rq_headers r)) + zlen (print_header h)) by lia.
Qed.

(** The blank line that ends the headers, and the body. *)
Lemma request_body_step len r p u rest m F n t : valid_framing (rq_framing r) ->
  at_line CHTTP1_ST_HEADERS p m F n t ->
  framing_state p =
    match rq_framing r with
    | NoBody => (false, false, false, false, 1, 0)
    | Fixed _ body => (false, true, false, false, 1, zlen body)
    | Chunked _ _ _ => (true, false, true, true, 1, 0)
    end ->
  0 <= n -> n + zlen (trailers_of (rq_framing r)) <= CHTTP1_MAX_HEADER_COUNT ->
  0 <= t -> t + zlen (print_headers (trailers_of (rq_framing r))) <= CHTTP1_MAX_TOTAL_HEADER_BYTES ->
  zlen (crlf ++ print_body (rq_framing r) ++ rest) <= len ->
  exists p', exec (Some recorder) len p u (crlf ++ print_body (rq_framing r) ++ rest) m =
      Done (CHTTP1_PAUSED, p', completed (with_trailers (with_body u (body_of (rq_framing r)))
        (trailers_of (rq_framing r)))) m /\ consumed p' = len - zlen rest.
Proof.
  intros Hfr Hp Hf Hn0 Hn Ht0 Ht Hlen.
  destruct (rq_framing r) as [|digits body|parts last ts]; cbn [print_body body_of trailers_of] in *.
  - destruct (blank_completes len p u rest m F n t _ _ _ Hp Hlen Hf) as (p' & E & Hc); [done|].
    exists p'. cbn [app with_trailers foldl] in *. rewrite E. unfold with_body. rewrite app_nil_r. by destruct u.
  - rewrite with_trailers_eq. cbn [with_body msg_line msg_headers msg_body msg_trailers msg_complete].
    rewrite app_nil_r. destruct (decide (body = [])) as [->|Hb].
    + destruct (blank_completes len p u rest m F n t _ _ _ Hp Hlen Hf) as (p' & E & Hc); [done|].
      exists p'. cbn [app] in *. rewrite E, app_nil_r. by destruct u.
    + assert (0 < zlen body) by (destruct body; [done|rewrite zlen_cons; pose proof (zlen_nonneg body); lia]).
      destruct (blank_to_body len p u (body ++ rest) m F n t _ _ _ _ _ Hp Hlen Hf) as (p1 & -> & Hl1 & Hp1 & Hc1);
        [done|by right|].
      by apply (fixed_body len p1 u body rest m F n t).
  - destruct Hfr as (Hparts & Hne & Hlast & Hts). rewrite <- !app_assoc in *.
    destruct (blank_to_body len p u _ m F n t _ _ _ _ _ Hp Hlen Hf) as (p1 & -> & Hl1 & Hp1 & _); [done|by left|].
    destruct (chunks_step len parts p1 u _ m F n t Hp1 Hparts Hne Hl1) as (p2 & -> & Hl2 & Hp2).
    destruct (chunk_size_step len p2 (with_bodies u parts.*2) (last, []) _ m F n t Hp2 Hlast Hl2)
      as (p3 & E & Hl3 & _ & Hp3).
    cbn [fst] in E. rewrite E, with_bodies_eq. by apply (trailers_step len ts p3 _ rest m F n t).
Qed.
End Wire.

(** C6: a request that is printed as RFC 9112 frames it, with no body, a body
    of known length or a chunked one with trailers, is read back: in one call
    or in any pieces, the callbacks are told its request line, its headers,
    its body and its trailers, in order, and then that it is complete; the
    call stops at the last byte of the request, whatever follows it. *)
Theorem request_roundtrip `{Allocator} r m F : valid_request r -> owns m ∅ F ->
  (forall next, exists p,
     chttp1_parser_execute (Some recorder) chttp1_parser_init_request no_message (print_request r ++ next) m =
       Done (CHTTP1_PAUSED, p, told r) m /\
     consumed p = zlen (print_request r) /\ chttp1_parser_message_complete p = true) /\
  (forall ds, concat ds = print_request r -> exists p,
     feed (Some recorder) chttp1_parser_init_request no_message ds m = Done (CHTTP1_PAUSED, p, told r) m /\
     chttp1_parser_message_complete p = true).
Proof.
  intros Hv Ho. destruct (init_ok CHTTP1_PARSE_REQUEST 0 0 0 false) as (Hok & Ha & Hsp); [done|done|].
  assert (Hrun : forall next, exists p,
    chttp1_parser_execute (Some recorder) chttp1_parser_init_request no_message (print_request r ++ next) m =
      Done (CHTTP1_PAUSED, p, told r) m /\
    consumed p = zlen (print_request r) /\ chttp1_parser_message_complete p = true).
  { intros next. pose proof (wp_execute (Some recorder) chttp1_parser_init_request no_message
      (print_request r ++ next) m F Hok Ho) as Hwp. unfold wp in Hwp.
    rewrite (execute_exec _ _ _ _ _ F) in * by done.
    pose proof (vr_bytes _ Hv) as Hby. pose proof (vr_count _ Hv) as Hco.
    pose proof (zlen_nonneg (print_headers (all_headers r))). pose proof (zlen_nonneg (all_headers r)).
    pose proof (zlen_nonneg (print_headers (trailers_of (rq_framing r)))).
    pose proof (zlen_nonneg (request_line r)).
    set (len := zlen (print_request r ++ next)) in *.
    assert (Hcons : len - zlen next = zlen (print_request r)) by (unfold len; rewrite zlen_app; lia).
    assert (Hlen : zlen (print_request r ++ next) <= len) by done. clearbody len.
    rewrite <- Hcons. clear Hcons. unfold print_request in *. rewrite <- !app_assoc in *.
    destruct (first_line_step len r _ m F Hv Ho Hlen) as (p1 & E1 & Hl1 & Hp1 & Hf1); [lia|].
    rewrite E1 in *.
    destruct (request_headers_step len r p1 (with_line no_message (rq_method r, rq_target r))
      (crlf ++ print_body (rq_framing r) ++ next) m F _ Hv Hp1 Hf1)
      as (p2 & E2 & Hl2 & Hp2 & Hf2); [lia|lia|done|].
    rewrite E2 in *.
    destruct (request_body_step len r p2 (with_headers (with_line no_message (rq_method r, rq_target r))
      (all_headers r)) next m F _ _ (vr_framing _ Hv) Hp2 Hf2) as (p3 & E3 & Hc3); [lia|lia|lia|lia|done|].
    rewrite E3 in *. exists p3. rewrite with_headers_eq, with_trailers_eq. split; [done|]. split; [exact Hc3|].
    destruct Hwp as (Hret & _). unfold chttp1_parser_message_complete.
    by rewrite bool_decide_true by by apply Hret. }
  split; [exact Hrun|]. intros ds E. destruct (Hrun []) as (p & Hp & _). rewrite app_nil_r, <- E in Hp.
  by apply (feed_pieces (Some recorder) ds _ _ m F p); try apply recorder_additive.
Qed.

(** A chunked request with an extra header and a trailer. *)
Definition sample_chunked : request :=
  Request (lit "PUT") (lit "/a?b=c") 1 (lit "example.org:8080") [(lit "Accept", lit "*/*")]
    (Chunked [(lit "3", lit "abc"); (lit "02", lit "de")] (lit "0") [(lit "Digest", lit "x y")]).

#[local] Existing Instance always_grant.

Lemma request_roundtrip_witness :
  valid_request sample_chunked /\
  exists p,
    chttp1_parser_execute (Some recorder) chttp1_parser_init_request no_message
      (print_request sample_chunked ++ lit "GET / HTTP") (Mem 0 ∅) =
      Done (CHTTP1_PAUSED, p,
        Message [(lit "PUT", lit "/a?b=c")]
          [(lit "Host", lit "example.org:8080"); (lit "Accept", lit "*/*"); (lit "Transfer-Encoding", lit "chunked")]
          (lit "abcde") [(lit "Digest", lit "x y")] 1) (Mem 0 ∅) /\
    consumed p = zlen (print_request sample_chunked).
Proof.
  assert (Hv : valid_request sample_chunked).
  { assert (Hh : forall n v, token n -> forallb (fun c : Z => negb (is_invalid_value_byte c)) v = true ->
      drop_while is_ows v = v -> trim_end v = v -> (zlen n + zlen v <=? 1000) = true -> valid_header (n, v)).
    { intros n v Hn Hc Hs Ht Hl%Z.leb_le. constructor; try done; [by apply forallb_Forall_true|].
      unfold CHTTP1_MAX_LINE_LEN. rewrite zlen_field. unfold field_line. cbn [fst snd].
      rewrite zlen_app, !zlen_cons. lia. }
    assert (Htok : forall s, is_nil s = false -> forallb chttp1_is_tchar s = true -> token s).
    { intros s Hn Ht. split; [by destruct s|by apply forallb_Forall_true]. }
    assert (Hpart : forall d b, forallb is_hexdig d = true -> (1 <=? zlen d) && (zlen d <=? 12) = true ->
      hexadecimal_value d = zlen b -> (zlen b <=? UINT64_MAX) = true -> valid_part (d, b)).
    { intros d b Hd Hl Hx Hb%Z.leb_le. apply andb_true_iff in Hl as [?%Z.leb_le ?%Z.leb_le].
      constructor; try done. by apply forallb_Forall_true. }
    constructor; unfold sample_chunked; cbn [rq_method rq_target rq_minor rq_host rq_headers rq_framing valid_framing].
    - by apply Htok; vm_compute.
    - split; [done|]. apply forallb_Forall_true. by vm_compute.
    - done.
    - by vm_compute.
    - split; [apply host_value_iff; by vm_compute|]. apply Hh; try (by vm_compute). by apply Htok; vm_compute.
    - split; (constructor; [|constructor]); [apply Hh; try (by vm_compute); by apply Htok; vm_compute|].
      by constructor; vm_compute.
    - split_and!; repeat (constructor || apply Hpart || apply Hh || apply Htok); done || by vm_compute.
    - by vm_compute.
    - by vm_compute. }
  split; [exact Hv|].
  destruct (request_roundtrip sample_chunked (Mem 0 ∅) ∅ Hv owns_nothing) as [Hone _].
  destruct (Hone (lit "GET / HTTP")) as (p & Hp & Hc & _). exists p. split; [exact Hp|exact Hc].
Defined.
