(* ===== verification/CLruCache.v ===== *)
(** * The LRU cache ([src/clrucache.c])

    A segment of a cache as the threads see it that share it: its hash map
    from keys to entries, its entries, its eviction order and its mutex.  An
    operation is cut where the code releases the mutex: around the remote
    getter, the remote setter, a wait on an entry's condition variable and a
    free.  What happens between a lock and the next unlock is one function on
    the segment, and the functions of all threads interleave.  The map of a
    segment is the [chashmap] of [CHashMap], with the pointer to an entry as
    the eight bytes of a value.

    Not modelled: the table of handles with its pins, which is that of
    [CPinTable], and the hooks for tests. *)
From S2P Require Import Prelude Memory Values CHash COaMap CHashMap.
Import CHashMap.

Module LruCache.

(** ** State *)

(** A node of the eviction order: one of the sentinels of the segment, or an
    entry. *)
Inductive lru_node := lru_head | lru_tail | lru_entry (a : nat).

#[export] Instance lru_node_eq_dec : EqDecision lru_node.
Proof. solve_decision. Defined.
#[export] Instance lru_node_countable : Countable lru_node.
Proof.
  refine (inj_countable' (fun n => match n with lru_head => None | lru_tail => Some None | lru_entry a => Some (Some a) end)
    (fun n => match n with None => lru_head | Some None => lru_tail | Some (Some a) => lru_entry a end) _).
  by intros [].
Defined.

(** An entry, but for its [prev] and [next], which are fields of the segment
    below so that the sentinels, which are embedded in it, have them too.
    [cond] is the queue of the condition variable: the threads asleep on it. *)
Record ccache_entry := CacheEntry {
  e_key : option block;
  key_size : Z;
  value : option block;
  value_size : Z;
  cond : gset nat;
  fetch_in_progress : bool;
  set_in_progress : bool;
  evicted : bool;
  fetch_size_mismatch : bool;
  waiters : Z;
  in_lru : bool;
  fetch_failed : bool;
}.

(** A segment.  Of a callback it is known whether there is one: what remote
    callbacks answer is up to the environment, and [reported] is what the
    eviction callback was given. *)
Record ccache_shard := CacheShard {
  sh_blk : nat;
  map : chashmap;
  entries : gmap nat ccache_entry;
  prev : gmap lru_node (option lru_node);
  next : gmap lru_node (option lru_node);
  sh_capacity : Z;
  sh_size : Z;
  remote_getter : bool;
  remote_setter : bool;
  eviction_cb : bool;
  reported : list (list Z * list Z);
}.

Definition sizeof_ccache_entry : Z := 112.
Definition sizeof_ccache_shard : Z := 320.

Definition set_entry_key (b : option block) (n : Z) (e : ccache_entry) : ccache_entry :=
  CacheEntry b n (value e) (value_size e) (cond e) (fetch_in_progress e) (set_in_progress e) (evicted e)
    (fetch_size_mismatch e) (waiters e) (in_lru e) (fetch_failed e).
Definition set_value (b : option block) (n : Z) (e : ccache_entry) : ccache_entry :=
  CacheEntry (e_key e) (key_size e) b n (cond e) (fetch_in_progress e) (set_in_progress e) (evicted e)
    (fetch_size_mismatch e) (waiters e) (in_lru e) (fetch_failed e).
Definition set_cond (x : gset nat) (e : ccache_entry) : ccache_entry :=
  CacheEntry (e_key e) (key_size e) (value e) (value_size e) x (fetch_in_progress e) (set_in_progress e) (evicted e) (fetch_size_mismatch e) (waiters e) (in_lru e) (fetch_failed e).
Definition set_fetch_in_progress (x : bool) (e : ccache_entry) : ccache_entry :=
  CacheEntry (e_key e) (key_size e) (value e) (value_size e) (cond e) x (set_in_progress e) (evicted e) (fetch_size_mismatch e) (waiters e) (in_lru e) (fetch_failed e).
Definition set_set_in_progress (x : bool) (e : ccache_entry) : ccache_entry :=
  CacheEntry (e_key e) (key_size e) (value e) (value_size e) (cond e) (fetch_in_progress e) x (evicted e) (fetch_size_mismatch e) (waiters e) (in_lru e) (fetch_failed e).
Definition set_evicted (x : bool) (e : ccache_entry) : ccache_entry :=
  CacheEntry (e_key e) (key_size e) (value e) (value_size e) (cond e) (fetch_in_progress e) (set_in_progress e) x (fetch_size_mismatch e) (waiters e) (in_lru e) (fetch_failed e).
Definition set_fetch_size_mismatch (x : bool) (e : ccache_entry) : ccache_entry :=
  CacheEntry (e_key e) (key_size e) (value e) (value_size e) (cond e) (fetch_in_progress e) (set_in_progress e) (evicted e) x (waiters e) (in_lru e) (fetch_failed e).
Definition set_waiters (x : Z) (e : ccache_entry) : ccache_entry :=
  CacheEntry (e_key e) (key_size e) (value e) (value_size e) (cond e) (fetch_in_progress e) (set_in_progress e) (evicted e) (fetch_size_mismatch e) x (in_lru e) (fetch_failed e).
Definition set_in_lru (x : bool) (e : ccache_entry) : ccache_entry :=
  CacheEntry (e_key e) (key_size e) (value e) (value_size e) (cond e) (fetch_in_progress e) (set_in_progress e) (evicted e) (fetch_size_mismatch e) (waiters e) x (fetch_failed e).
Definition set_fetch_failed (x : bool) (e : ccache_entry) : ccache_entry :=
  CacheEntry (e_key e) (key_size e) (value e) (value_size e) (cond e) (fetch_in_progress e) (set_in_progress e) (evicted e) (fetch_size_mismatch e) (waiters e) (in_lru e) x.

Definition set_map (x : chashmap) (sh : ccache_shard) : ccache_shard :=
  CacheShard (sh_blk sh) x (entries sh) (prev sh) (next sh) (sh_capacity sh) (sh_size sh) (remote_getter sh) (remote_setter sh) (eviction_cb sh) (reported sh).
Definition set_entries (x : gmap nat ccache_entry) (sh : ccache_shard) : ccache_shard :=
  CacheShard (sh_blk sh) (map sh) x (prev sh) (next sh) (sh_capacity sh) (sh_size sh) (remote_getter sh) (remote_setter sh) (eviction_cb sh) (reported sh).
Definition set_prev (x : gmap lru_node (option lru_node)) (sh : ccache_shard) : ccache_shard :=
  CacheShard (sh_blk sh) (map sh) (entries sh) x (next sh) (sh_capacity sh) (sh_size sh) (remote_getter sh) (remote_setter sh) (eviction_cb sh) (reported sh).
Definition set_next (x : gmap lru_node (option lru_node)) (sh : ccache_shard) : ccache_shard :=
  CacheShard (sh_blk sh) (map sh) (entries sh) (prev sh) x (sh_capacity sh) (sh_size sh) (remote_getter sh) (remote_setter sh) (eviction_cb sh) (reported sh).
Definition set_sh_size (x : Z) (sh : ccache_shard) : ccache_shard :=
  CacheShard (sh_blk sh) (map sh) (entries sh) (prev sh) (next sh) (sh_capacity sh) x (remote_getter sh) (remote_setter sh) (eviction_cb sh) (reported sh).
Definition set_reported (x : list (list Z * list Z)) (sh : ccache_shard) : ccache_shard :=
  CacheShard (sh_blk sh) (map sh) (entries sh) (prev sh) (next sh) (sh_capacity sh) (sh_size sh) (remote_getter sh) (remote_setter sh) (eviction_cb sh) x.

(** What [calloc] leaves of an entry. *)
Definition fresh_entry : ccache_entry :=
  CacheEntry None 0 None 0 ∅ false false false false 0 false false.

Section Operations.
Context {alloc : Allocator} (secret : chmap_hash_secret).
Implicit Types (sh : ccache_shard) (e : ccache_entry) (a i : nat).

(** ** Access

    An entry that was freed is not there any more, and NULL has no fields. *)
Definition entry_at sh a : M ccache_entry := ub (entries sh !! a).

Definition update_entry a (f : ccache_entry -> ccache_entry) sh : M ccache_shard :=
  e ← entry_at sh a; mret (set_entries (<[a := f e]> (entries sh)) sh).

Definition prev_at sh (n : lru_node) : M lru_node := ub (mjoin (prev sh !! n)).
Definition next_at sh (n : lru_node) : M lru_node := ub (mjoin (next sh !! n)).

Definition store_prev (n : lru_node) (x : option lru_node) sh : M ccache_shard :=
  _ ← ub (prev sh !! n); mret (set_prev (<[n := x]> (prev sh)) sh).
Definition store_next (n : lru_node) (x : option lru_node) sh : M ccache_shard :=
  _ ← ub (next sh !! n); mret (set_next (<[n := x]> (next sh)) sh).

(** The first [n] bytes of a buffer. *)
Definition buffer_bytes (b : option block) (n : Z) : M (list Z) :=
  b ← ub b; read_bytes (b_bytes b) 0 n.

Definition free_buffer (b : option block) : M unit :=
  match b with Some b => _ccol_mem_free (b_id b) | None => mret tt end.

(** [memcpy] of the bytes of an argument into a new buffer. *)
Definition fill (b : block) (bytes : list Z) : M block :=
  bs ← memcpy_in (b_bytes b) 0 bytes; mret (Block (b_id b) bs).

Definition in_progress e : bool := fetch_in_progress e || set_in_progress e.

(** [entry->waiters++], an [int]. *)
Definition INT_MAX : Z := 2147483647.
Definition hold a sh : M ccache_shard :=
  e ← entry_at sh a; if waiters e >=? INT_MAX then undefined else update_entry a (set_waiters (waiters e + 1)) sh.
Definition release a sh : M ccache_shard :=
  e ← entry_at sh a; update_entry a (set_waiters (waiters e - 1)) sh.

Definition _ccol_cond_var_broadcast a sh : M ccache_shard := update_entry a (set_cond ∅) sh.

(** ** The eviction order *)
Definition lru_add_to_front sh a : M ccache_shard :=
  first ← next_at sh lru_head;
  sh ← store_next (lru_entry a) (Some first) sh;
  sh ← store_prev (lru_entry a) (Some lru_head) sh;
  sh ← store_prev first (Some (lru_entry a)) sh;
  sh ← store_next lru_head (Some (lru_entry a)) sh;
  update_entry a (set_in_lru true) sh.

Definition lru_remove sh a : M ccache_shard :=
  e ← entry_at sh a;
  if negb (in_lru e) then mret sh else
  p ← prev_at sh (lru_entry a);
  n ← next_at sh (lru_entry a);
  sh ← store_next p (Some n) sh;
  sh ← store_prev n (Some p) sh;
  sh ← store_prev (lru_entry a) None sh;
  sh ← store_next (lru_entry a) None sh;
  update_entry a (set_in_lru false) sh.

Definition lru_move_to_front sh a : M ccache_shard :=
  sh ← lru_remove sh a; lru_add_to_front sh a.

(** ** Entries

    [cond_ok]: the initialisation of the condition variable succeeds. *)
Definition entry_alloc (cond_ok : bool) sh : M (option nat * ccache_shard) :=
  b ← _ccol_mem_calloc 1 sizeof_ccache_entry;
  match b with
  | None => mret (None, sh)
  | Some b =>
      if negb cond_ok then _ccol_mem_free (b_id b);; mret (None, sh) else
      let a := b_id b in
      mret (Some a, set_next (<[lru_entry a := None]> (next sh))
        (set_prev (<[lru_entry a := None]> (prev sh)) (set_entries (<[a := fresh_entry]> (entries sh)) sh)))
  end.

(** Destroying a condition variable that has sleepers is undefined. *)
Definition entry_free sh a : M ccache_shard :=
  e ← entry_at sh a;
  free_buffer (e_key e);;
  free_buffer (value e);;
  (if decide (cond e = ∅) then mret tt else undefined);;
  _ccol_mem_free a;;
  mret (set_next (delete (lru_entry a) (next sh)) (set_prev (delete (lru_entry a) (prev sh))
    (set_entries (delete a (entries sh)) sh))).

(** ** The map of a segment *)
Definition pair_of_bytes (bytes : list Z) : option user_pair := Some (UserPair (Some (Foreign bytes)) (zlen bytes)).

(** The bytes of a pointer to an entry. *)
Definition address (a : nat) : list Z := le_bytes 8 (Z.of_nat a).

Definition map_lookup sh (key : list Z) : M (option nat) :=
  '(r, found) ← chashmap_get_elem_ref secret (Some (map sh)) (pair_of_bytes key) true;
  if negb (bool_decide (r = ccol_success)) then mret None else
  p ← ub found;
  bytes ← read_arg (map sh) (COaMap.pair_ptr p) 8;
  mret (Some (Z.to_nat (le_unsigned bytes))).

Definition map_upsert sh (key : list Z) a : M (ccol_retval_t * ccache_shard) :=
  '(r, m) ← chashmap_insert_elem secret (Some (map sh)) (pair_of_bytes key) (pair_of_bytes (address a));
  m ← ub m; mret (r, set_map m sh).

(** [chashmap_delete_elem] with the key of an entry. *)
Definition map_remove sh a : M ccache_shard :=
  e ← entry_at sh a;
  key ← buffer_bytes (e_key e) (key_size e);
  '(_, m) ← chashmap_delete_elem secret (Some (map sh)) (pair_of_bytes key);
  m ← ub m; mret (set_map m sh).

(** ** Eviction *)
Definition report sh a : M ccache_shard :=
  e ← entry_at sh a;
  match value e with
  | Some _ =>
      if eviction_cb sh then
        k ← buffer_bytes (e_key e) (key_size e);
        v ← buffer_bytes (value e) (value_size e);
        mret (set_reported (reported sh ++ [(k, v)]) sh)
      else mret sh
  | None => mret sh
  end.

Definition evict_lru sh : M (bool * ccache_shard) :=
  victim ← prev_at sh lru_tail;
  match victim with
  | lru_head => mret (false, sh)
  | lru_tail => undefined
  | lru_entry a =>
      sh ← report sh a;
      sh ← lru_remove sh a;
      let sh := set_sh_size (sh_size sh ⊖ 1) sh in
      e ← entry_at sh a;
      if set_in_progress e then
        free_buffer (value e);;
        sh ← update_entry a (set_value None 0) sh;
        mret (true, sh)
      else
        sh ← map_remove sh a;
        sh ← update_entry a (set_evicted true) sh;
        sh ← _ccol_cond_var_broadcast a sh;
        e ← entry_at sh a;
        if waiters e =? 0 then sh ← entry_free sh a; mret (true, sh) else mret (true, sh)
  end.

(** One turn of the loop for each entry in the order, and one more. *)
Definition make_room sh : M ccache_shard :=
  loop (S (Z.to_nat (sh_size sh))) (fun sh =>
    if sh_size sh >=? sh_capacity sh then
      '(evicted, sh) ← evict_lru sh;
      mret (if evicted : bool then inl sh else inr sh)
    else mret (inr sh)) sh.

(** ** Operations of threads

    A request with its key in the segment, and what a call hands back: the
    code, the copy of [clrucache_get_full] and the buffer
    [__clrucache_get_into] filled. *)
Inductive request :=
  | GetFull (key : list Z)
  | GetInto (key : list Z) (buf_size : Z)
  | SetFull (key val : list Z).

Record reply := Reply { code : ccol_retval_t; copy : option block; buf : option (list Z) }.
Definition failed (r : ccol_retval_t) : reply := Reply r None None.

(** What follows an [entry_free] outside the mutex: the return of the call,
    the lock again, or the free of the value that was to be set. *)
Inductive after :=
  | ThenReturn (r : reply)
  | ThenLock (q : request) (new_val : option block)
  | ThenFree (new_val : block) (r : reply).

(** Where a thread is, always without the mutex.  [new_val] is the copy of
    the value of a set. *)
Inductive pc :=
  | Idle
  | Locking (q : request) (new_val : option block)
  | Sleeping (q : request) (new_val : option block) (a : nat)
  | Fetching (q : request) (a : nat)
  | Setting (q : request) (new_val : block) (a : nat)
  | Freeing (a : nat) (k : after)
  | Leaving (val_to_free : option block) (a : option nat) (r : reply)
  | Finished (r : reply).

Definition request_key (q : request) : list Z :=
  match q with GetFull k | GetInto k _ | SetFull k _ => k end.

(** [should_free]. *)
Definition unreferenced e : bool := evicted e && (waiters e =? 0).

(** Unlock, free the entry if nobody else will, and return [r]. *)
Definition leave sh a (r : reply) : M (ccache_shard * pc) :=
  e ← entry_at sh a;
  mret (sh, if unreferenced e then Freeing a (ThenReturn r) else Finished r).

(** [_ccol_cond_var_wait] by thread [i]: it joins the queue and releases the
    mutex. *)
Definition cond_wait (i : nat) (q : request) (nv : option block) sh a : M (ccache_shard * pc) :=
  e ← entry_at sh a;
  sh ← update_entry a (set_cond ({[i]} ∪ cond e)) sh;
  mret (sh, Sleeping q nv a).

(** *** Gets *)

(** The end of a get that found a value: [clrucache_get_full] makes the
    caller's copy before it promotes the entry. *)
Definition settled_assertions e : M unit :=
  _ccol_assert (bool_decide (is_Some (value e)));;
  _ccol_assert (evicted e || in_lru e).

Definition promote sh a : M ccache_shard :=
  e ← entry_at sh a; if negb (evicted e) then lru_move_to_front sh a else mret sh.

Definition get_full_settled sh a : M (ccache_shard * pc) :=
  e ← entry_at sh a;
  settled_assertions e;;
  c ← _ccol_mem_alloc (value_size e);
  match c with
  | None => leave sh a (failed ccol_not_enough_memory)
  | Some c =>
      sh ← promote sh a;
      v ← buffer_bytes (value e) (value_size e);
      c ← fill c v;
      leave sh a (Reply ccol_success (Some c) None)
  end.

Definition get_into_settled (buf_size : Z) sh a : M (ccache_shard * pc) :=
  e ← entry_at sh a;
  settled_assertions e;;
  if negb (value_size e =? buf_size) then leave sh a (failed ccol_unexpected_failure) else
  sh ← promote sh a;
  v ← buffer_bytes (value e) (value_size e);
  leave sh a (Reply ccol_success None (Some v)).

Definition settled (q : request) sh a : M (ccache_shard * pc) :=
  match q with
  | GetFull _ => get_full_settled sh a
  | GetInto _ n => get_into_settled n sh a
  | SetFull _ _ => undefined
  end.

(** A miss: the placeholder, and the mutex released for the remote getter. *)
Definition get_miss (cond_ok : bool) (q : request) sh : M (ccache_shard * pc) :=
  if negb (remote_getter sh) then mret (sh, Finished (failed ccol_key_not_found)) else
  '(entry, sh) ← entry_alloc cond_ok sh;
  match entry with
  | None => mret (sh, Finished (failed ccol_not_enough_memory))
  | Some a =>
      let k := request_key q in
      b ← _ccol_mem_alloc (zlen k);
      match b with
      | None => mret (sh, Freeing a (ThenReturn (failed ccol_not_enough_memory)))
      | Some b =>
          b ← fill b k;
          sh ← update_entry a (set_entry_key (Some b) (zlen k)) sh;
          sh ← update_entry a (set_fetch_in_progress true) sh;
          '(ins, sh) ← map_upsert sh k a;
          if negb (bool_decide (ins = ccol_success)) && negb (bool_decide (ins = ccol_key_already_present))
          then mret (sh, Freeing a (ThenReturn (failed ins)))
          else sh ← hold a sh; mret (sh, Fetching q a)
      end
  end.

Definition get_locked (i : nat) (cond_ok : bool) (q : request) sh : M (ccache_shard * pc) :=
  found ← map_lookup sh (request_key q);
  match found with
  | None => get_miss cond_ok q sh
  | Some a =>
      e ← entry_at sh a;
      if in_progress e then sh ← hold a sh; cond_wait i q None sh a
      else settled q sh a
  end.

Definition clrucache_get_full_locked (i : nat) (cond_ok : bool) (key : list Z) : ccache_shard -> M (ccache_shard * pc) :=
  get_locked i cond_ok (GetFull key).
Definition clrucache_get_into_locked (i : nat) (cond_ok : bool) (key : list Z) (buf_size : Z)
    : ccache_shard -> M (ccache_shard * pc) :=
  get_locked i cond_ok (GetInto key buf_size).

(** A waiter has the mutex back.  A failed set sends it to its lookup again. *)
Definition get_woken (i : nat) (cond_ok : bool) (q : request) sh a : M (ccache_shard * pc) :=
  e ← entry_at sh a;
  if in_progress e then cond_wait i q None sh a else
  sh ← release a sh;
  e ← entry_at sh a;
  match value e with
  | None =>
      if negb (fetch_failed e) then
        if unreferenced e then mret (sh, Freeing a (ThenLock q None))
        else get_locked i cond_ok q sh
      else leave sh a (failed (if fetch_size_mismatch e then ccol_unexpected_failure else ccol_key_not_found))
  | Some _ => settled q sh a
  end.

(** The fetch failed: the placeholder leaves the map. *)
Definition fetch_fails (mismatch : bool) (r : ccol_retval_t) sh a : M (ccache_shard * pc) :=
  sh ← map_remove sh a;
  sh ← update_entry a (set_evicted true) sh;
  sh ← (if mismatch then update_entry a (set_fetch_size_mismatch true) sh else mret sh);
  sh ← update_entry a (set_fetch_failed true) sh;
  sh ← _ccol_cond_var_broadcast a sh;
  e ← entry_at sh a;
  mret (sh, if waiters e =? 0 then Freeing a (ThenReturn (failed r)) else Finished (failed r)).

(** The entry becomes live with what was fetched. *)
Definition fetch_stores (fetched : block) sh a : M ccache_shard :=
  sh ← make_room sh;
  sh ← update_entry a (set_value (Some fetched) (zlen (b_bytes fetched))) sh;
  sh ← lru_add_to_front sh a;
  mret (set_sh_size (sh_size sh ⊕ 1) sh).

(** The remote getter returned [fetch_ok] and left [fetched] in its pair, a
    block of the segment's allocator whose size is the pair's. *)
Definition fetch_returns (fetch_ok : bool) (fetched : option block) (q : request) sh a : M (ccache_shard * pc) :=
  sh ← release a sh;
  sh ← update_entry a (set_fetch_in_progress false) sh;
  match fetched with
  | Some v =>
      if fetch_ok && (zlen (b_bytes v) >? 0) then
        match q with
        | GetFull _ =>
            sh ← fetch_stores v sh a;
            c ← _ccol_mem_alloc (zlen (b_bytes v));
            match c with
            | None =>
                sh ← _ccol_cond_var_broadcast a sh;
                mret (sh, Finished (failed ccol_not_enough_memory))
            | Some c =>
                c ← fill c (b_bytes v);
                sh ← _ccol_cond_var_broadcast a sh;
                mret (sh, Finished (Reply ccol_success (Some c) None))
            end
        | GetInto _ n =>
            if negb (zlen (b_bytes v) =? n) then
              _ccol_mem_free (b_id v);;
              fetch_fails true ccol_unexpected_failure sh a
            else
              sh ← fetch_stores v sh a;
              sh ← _ccol_cond_var_broadcast a sh;
              mret (sh, Finished (Reply ccol_success None (Some (b_bytes v))))
        | SetFull _ _ => undefined
        end
      else
        _ccol_mem_free (b_id v);;
        fetch_fails false ccol_key_not_found sh a
  | None => fetch_fails false ccol_key_not_found sh a
  end.

(** *** Sets *)

(** The placeholder of a set, or the error with the entry that is to be freed
    with the mutex released. *)
Definition create_and_insert_placeholder (cond_ok : bool) sh (key : list Z)
    : M (ccache_shard * (nat + ccol_retval_t * option nat)) :=
  '(e, sh) ← entry_alloc cond_ok sh;
  match e with
  | None => mret (sh, inr (ccol_not_enough_memory, None))
  | Some a =>
      b ← _ccol_mem_alloc (zlen key);
      match b with
      | None => mret (sh, inr (ccol_not_enough_memory, Some a))
      | Some b =>
          b ← fill b key;
          sh ← update_entry a (set_entry_key (Some b) (zlen key)) sh;
          '(ins, sh) ← map_upsert sh key a;
          if negb (bool_decide (ins = ccol_success)) && negb (bool_decide (ins = ccol_key_already_present))
          then mret (sh, inr (ins, Some a))
          else mret (sh, inl a)
      end
  end.

Definition entry_store_value sh a (new_val : block) : M (option block * ccache_shard) :=
  e ← entry_at sh a;
  let old_val := value e in
  sh ← update_entry a (set_value (Some new_val) (zlen (b_bytes new_val))) sh;
  e ← entry_at sh a;
  if negb (in_lru e) then
    sh ← make_room sh;
    sh ← lru_add_to_front sh a;
    mret (old_val, set_sh_size (sh_size sh ⊕ 1) sh)
  else
    sh ← lru_move_to_front sh a;
    mret (old_val, sh).

(** The end of a set, from where the remote setter's answer is known. *)
Definition set_completes (remote_ok : bool) (new_val : block) sh a : M (ccache_shard * pc) :=
  '(val_to_free, sh) ← (if remote_ok then entry_store_value sh a new_val else mret (Some new_val, sh));
  e ← entry_at sh a;
  sh ← (if negb remote_ok && negb (in_lru e) then
          sh ← map_remove sh a; update_entry a (set_evicted true) sh
        else mret sh);
  sh ← update_entry a (set_set_in_progress false) sh;
  sh ← _ccol_cond_var_broadcast a sh;
  e ← entry_at sh a;
  mret (sh, Leaving val_to_free (if unreferenced e then Some a else None)
    (failed (if remote_ok then ccol_success else ccol_unexpected_failure))).

(** The thread owns the set slot of the key. *)
Definition set_owned (q : request) (new_val : block) sh a : M (ccache_shard * pc) :=
  sh ← update_entry a (set_set_in_progress true) sh;
  if remote_setter sh then sh ← hold a sh; mret (sh, Setting q new_val a)
  else set_completes true new_val sh a.

Definition set_locked (i : nat) (cond_ok : bool) (q : request) (new_val : block) sh : M (ccache_shard * pc) :=
  found ← map_lookup sh (request_key q);
  match found with
  | None =>
      '(sh, created) ← create_and_insert_placeholder cond_ok sh (request_key q);
      match created with
      | inl a => set_owned q new_val sh a
      | inr (err, None) => mret (sh, Leaving (Some new_val) None (failed err))
      | inr (err, Some a) => mret (sh, Freeing a (ThenFree new_val (failed err)))
      end
  | Some a =>
      e ← entry_at sh a;
      if in_progress e then sh ← hold a sh; cond_wait i q (Some new_val) sh a
      else set_owned q new_val sh a
  end.

Definition set_woken (i : nat) (cond_ok : bool) (q : request) (new_val : block) sh a : M (ccache_shard * pc) :=
  e ← entry_at sh a;
  if in_progress e then cond_wait i q (Some new_val) sh a else
  sh ← release a sh;
  e ← entry_at sh a;
  if negb (evicted e) then set_owned q new_val sh a
  else if waiters e =? 0 then mret (sh, Freeing a (ThenLock q (Some new_val)))
  else set_locked i cond_ok q new_val sh.

Definition set_returns (remote_ok : bool) (new_val : block) sh a : M (ccache_shard * pc) :=
  sh ← release a sh; set_completes remote_ok new_val sh a.

(** ** The threads

    What the environment decides for a step: the call an idle thread makes
    with its arguments as given, whether a condition variable can be
    initialised, and what the remote callbacks answer; the getter's value, if
    any, is in a block it allocates. *)
Inductive user_call :=
  | CallGetFull (key : option user_pair) (has_val_out : bool)
  | CallGetInto (key : option user_pair) (has_buf : bool) (buf_size : Z)
  | CallSetFull (key val : option user_pair).

Record env := Env {
  env_call : user_call;
  env_cond_ok : bool;
  env_fetch_ok : bool;
  env_fetched : option (list Z);
  env_remote_ok : bool;
}.

(** A key as [shard_for] lets it through to a segment. *)
Definition key_arg sh (key : option user_pair) : M (option (list Z)) :=
  match given key with
  | Some p =>
      if key_size_matches_type_if_fixed_width (chmap_key_type (map sh)) (COaMap.pair_size p)
      then k ← read_foreign (COaMap.pair_ptr p) (COaMap.pair_size p); mret (Some k)
      else mret None
  | None => mret None
  end.

Definition clrucache_get_full (key : option user_pair) (has_val_out : bool) sh : M pc :=
  if negb has_val_out then mret (Finished (failed ccol_invalid_args)) else
  k ← key_arg sh key;
  mret (match k with Some k => Locking (GetFull k) None | None => Finished (failed ccol_invalid_args) end).

Definition __clrucache_get_into (key : option user_pair) (has_buf : bool) (buf_size : Z) sh : M pc :=
  if negb has_buf || (buf_size =? 0) then mret (Finished (failed ccol_invalid_args)) else
  k ← key_arg sh key;
  mret (match k with Some k => Locking (GetInto k buf_size) None | None => Finished (failed ccol_invalid_args) end).

(** The copy of the value is made before the mutex is locked. *)
Definition clrucache_set_full (key val : option user_pair) sh : M pc :=
  match given val with
  | None => mret (Finished (failed ccol_invalid_args))
  | Some v =>
      k ← key_arg sh key;
      match k with
      | None => mret (Finished (failed ccol_invalid_args))
      | Some k =>
          b ← _ccol_mem_alloc (COaMap.pair_size v);
          match b with
          | None => mret (Finished (failed ccol_not_enough_memory))
          | Some b =>
              bytes ← read_foreign (COaMap.pair_ptr v) (COaMap.pair_size v);
              b ← fill b bytes;
              mret (Locking (SetFull k bytes) (Some b))
          end
      end
  end.

(** One step of thread [i] from [p].  The last lets the caller free the copy
    it was given, before it calls again. *)
Definition run_pc (i : nat) (v : env) (p : pc) sh : M (ccache_shard * pc) :=
  match p with
  | Idle =>
      p ← match env_call v with
          | CallGetFull k out => clrucache_get_full k out sh
          | CallGetInto k b n => __clrucache_get_into k b n sh
          | CallSetFull k x => clrucache_set_full k x sh
          end;
      mret (sh, p)
  | Locking q nv =>
      match nv with
      | None => get_locked i (env_cond_ok v) q sh
      | Some b => set_locked i (env_cond_ok v) q b sh
      end
  | Sleeping q nv a =>
      match nv with
      | None => get_woken i (env_cond_ok v) q sh a
      | Some b => set_woken i (env_cond_ok v) q b sh a
      end
  | Fetching q a =>
      fetched ← match env_fetched v with
                | None => mret None
                | Some bytes =>
                    b ← _ccol_mem_alloc (zlen bytes);
                    match b with None => mret None | Some b => b ← fill b bytes; mret (Some b) end
                end;
      fetch_returns (env_fetch_ok v) fetched q sh a
  | Setting q b a => set_returns (env_remote_ok v) b sh a
  | Freeing a k =>
      sh ← entry_free sh a;
      mret (sh, match k with
                | ThenReturn r => Finished r
                | ThenLock q nv => Locking q nv
                | ThenFree b r => Leaving (Some b) None r
                end)
  | Leaving b a r =>
      free_buffer b;;
      match a with
      | Some a => mret (sh, Freeing a (ThenReturn r))
      | None => mret (sh, Finished r)
      end
  | Finished r => free_buffer (copy r);; mret (sh, Idle)
  end.

(** The segment, the memory and the threads that share them.  A thread asleep
    on a condition variable only runs once it is out of its queue: after a
    broadcast, or because the system lets it wake up without one.  [legal]
    restricts what the environment may decide. *)
Record config := Config { cf_mem : mem; cf_shard : ccache_shard; cf_threads : list pc }.

Definition asleep (i : nat) (p : pc) sh : Prop :=
  match p with
  | Sleeping _ _ a => exists e, entries sh !! a = Some e /\ i ∈ cond e
  | _ => False
  end.

Inductive step (legal : env -> Prop) : config -> config -> Prop :=
  | step_run m sh ts i v p sh' p' m' :
      legal v -> ts !! i = Some p -> ~ asleep i p sh ->
      run_pc i v p sh m = Done (sh', p') m' ->
      step legal (Config m sh ts) (Config m' sh' (<[i := p']> ts))
  | step_wake m sh ts i q nv a e :
      ts !! i = Some (Sleeping q nv a) -> entries sh !! a = Some e ->
      step legal (Config m sh ts) (Config m (set_entries (<[a := set_cond (cond e ∖ {[i]}) e]> (entries sh)) sh) ts).

(** ** Creation and destruction of a segment *)
Definition CHMAP_DEFAULT_INITIAL_BUCKET_ARRAY_SIZE : Z := 16.

(** [mutex_ok]: the mutex can be initialised. *)
Definition shard_create (capacity : Z) (key_type : ccol_data_type) (getter setter cb : bool)
    (procs : option ccol_memmgmt_procs_t) (is_interned mutex_ok : bool) : M (option ccache_shard) :=
  b ← _ccol_mem_calloc 1 sizeof_ccache_shard;
  match b with
  | None => mret None
  | Some b =>
      created ← chashmap_create_full CHMAP_DEFAULT_INITIAL_BUCKET_ARRAY_SIZE key_type ccol_pointer procs is_interned None None;
      match created with
      | inr _ => _ccol_mem_free (b_id b);; mret None
      | inl m =>
          if negb mutex_ok then __chashmap_destroy (Some m);; _ccol_mem_free (b_id b);; mret None else
          mret (Some (CacheShard (b_id b) m ∅
            (<[lru_tail := Some lru_head]> {[lru_head := None]}) (<[lru_head := Some lru_tail]> {[lru_tail := None]})
            capacity 0 getter setter cb []))
      end
  end.

(** The last value is what the eviction callback was given in all. *)
Definition shard_destroy sh : M (list (list Z * list Z)) :=
  sh ← loop (S (size (entries sh))) (fun sh =>
    '(evicted, sh) ← evict_lru sh; mret (if evicted : bool then inl sh else inr sh)) sh;
  __chashmap_destroy (Some (map sh));;
  _ccol_mem_free (sh_blk sh);;
  mret (reported sh).
End Operations.
End LruCache.
