(* ===== verification/CLruSpec.v ===== *)
(** * What a segment promises: a cache with a least-recently-used order

    The contents of a segment as a list of pairs, the most recently used first,
    and what a get and a set do to it.  [same] tells when two keys are one. *)
From S2P Require Import Prelude.

Abbreviation pair_list := (list (list Z * list Z)).

(** The pairs that stay and go when one more is to fit in [cap]. *)
Definition spare {A} (cap : Z) (l : list A) : list A := ztake (cap - 1) l.
Definition spent {A} (cap : Z) (l : list A) : list A := zdrop (cap - 1) l.

Section Spec.
Context (same : list Z -> list Z -> bool).
Implicit Types (k v : list Z) (C : pair_list).

Fixpoint find_pair k C : option (list Z * list Z) :=
  match C with [] => None | p :: C => if same p.1 k then Some p else find_pair k C end.
Definition lru_find k C : option (list Z) := snd <$> find_pair k C.

Definition drop_key k C : pair_list := List.filter (fun p => negb (same p.1 k)) C.

(** A get of a key that is there. *)
Definition lru_use k C : pair_list :=
  match find_pair k C with Some p => p :: drop_key k C | None => C end.

(** A set, or a fetch: the pairs after it, and those evicted. *)
Definition lru_put cap k v C : pair_list :=
  match find_pair k C with Some p => (p.1, v) :: drop_key k C | None => (k, v) :: spare cap C end.
Definition lru_out cap k C : pair_list :=
  match find_pair k C with Some _ => [] | None => spent cap C end.

(** ** Where a key is *)
Definition apart k C : Prop := Forall (fun p => same p.1 k = false) C.

Lemma drop_apart k C : apart k C -> drop_key k C = C.
Proof. induction 1 as [|p C Hp _ IH]; [done|]. cbn. rewrite Hp. cbn. by f_equal. Qed.
Lemma drop_app k C1 C2 : drop_key k (C1 ++ C2) = drop_key k C1 ++ drop_key k C2.
Proof. apply List.filter_app. Qed.

Lemma find_apart k C : apart k C -> find_pair k C = None.
Proof. induction 1 as [|p C Hp _ IH]; [done|]. cbn. by rewrite Hp. Qed.
Lemma find_mid k C1 p C2 : apart k C1 -> same p.1 k = true -> find_pair k (C1 ++ p :: C2) = Some p.
Proof. intros H Hp. induction H as [|q C1 Hq _ IH]; cbn; [by rewrite Hp|by rewrite Hq]. Qed.
Lemma drop_mid k C1 p C2 : apart k C1 -> apart k C2 -> same p.1 k = true -> drop_key k (C1 ++ p :: C2) = C1 ++ C2.
Proof.
  intros H1 H2 Hp. rewrite drop_app, (drop_apart k C1 H1). unfold drop_key at 1. cbn. rewrite Hp. cbn. f_equal.
  exact (drop_apart k C2 H2).
Qed.

Lemma use_mid k C1 p C2 : apart k C1 -> apart k C2 -> same p.1 k = true -> lru_use k (C1 ++ p :: C2) = p :: C1 ++ C2.
Proof. intros H1 H2 Hp. unfold lru_use. by rewrite (find_mid k C1 p C2 H1 Hp), (drop_mid k C1 p C2 H1 H2 Hp). Qed.
Lemma put_mid cap k v C1 p C2 : apart k C1 -> apart k C2 -> same p.1 k = true ->
  lru_put cap k v (C1 ++ p :: C2) = (p.1, v) :: C1 ++ C2 /\ lru_out cap k (C1 ++ p :: C2) = [].
Proof. intros H1 H2 Hp. unfold lru_put, lru_out. by rewrite (find_mid k C1 p C2 H1 Hp), (drop_mid k C1 p C2 H1 H2 Hp). Qed.
Lemma put_apart cap k v C : apart k C -> lru_put cap k v C = (k, v) :: spare cap C /\ lru_out cap k C = spent cap C.
Proof. intros H. unfold lru_put, lru_out. by rewrite (find_apart k C H). Qed.
End Spec.
