(* ===== verification/CLruSegment.v ===== *)
(** * A segment of the LRU cache and its map ([src/clrucache.c])

    What a segment's map promises to the operations of the segment: the keys
    of a list of pairs, each with the address of its entry; and how the blocks
    of the segment, of its entries and of the threads lie beside it. *)
From S2P Require Import Prelude Memory Values CHash COaMap CScMap CScRefine CScOps CScSpec CHashMap.
From S2P Require Import CHashMapRefine CHashMapIter CLruCache.
Import CHashMap.
Import LruCache.

Section Map.
Context {alloc : Allocator} (secret : chmap_hash_secret) (Hsecret : secret_ok secret) (kt : ccol_data_type).
Implicit Types (sh : ccache_shard) (a : nat) (k : list Z) (K : list (list Z * nat)) (X : list nat) (F : gset nat).

(** The configuration of a segment's map: a pointer for each key. *)
Definition seg_config : CScMap.sc_config := CScMap.ScConfig None None kt ccol_pointer 0.

Lemma seg_config_ok : conf_ok seg_config.
Proof. by split. Qed.

(** A key the map takes, and when two are one key. *)
Record key_ok k : Prop := KeyOk {
  ko_bytes : Forall is_byte k;
  ko_len : 1 <= zlen k < two64;
  ko_fits : fits kt (zlen k) = true;
}.

Definition same_key (k1 k2 : list Z) : bool := key_eq seg_config (canon kt k1) (canon kt k2).
#[local] Arguments same_key : simpl never.

Lemma canon_valid k : key_ok k -> valid_key seg_config (canon kt k).
Proof.
  intros [Hb Hl Hf]. destruct (canon_ok kt k Hb Hf) as [El Hcb]. split; [by rewrite El|]. split; [done|]. rewrite El.
  unfold fits in Hf. apply orb_true_iff in Hf as [?%Z.eqb_eq|?%Z.eqb_eq]; auto.
Qed.

Lemma same_refl k : key_ok k -> same_key k k = true.
Proof. intros H. by apply key_eq_refl; [apply seg_config_ok|apply canon_valid]. Qed.
Lemma same_sym k1 k2 : key_ok k1 -> key_ok k2 -> same_key k1 k2 = true -> same_key k2 k1 = true.
Proof. intros H1 H2. apply key_eq_sym; [apply seg_config_ok|by apply canon_valid..]. Qed.
Lemma same_trans k1 k2 k3 : key_ok k1 -> key_ok k2 -> key_ok k3 ->
  same_key k1 k2 = true -> same_key k2 k3 = true -> same_key k1 k3 = true.
Proof. intros H1 H2 H3. apply key_eq_trans; [apply seg_config_ok|by apply canon_valid..]. Qed.

(** ** Keys and addresses *)

(** A list of keys with entries as the pairs of the map. *)
Definition as_pairs K : pairs := (fun '(k, a) => (canon kt k, address a)) <$> K.

Fixpoint find_key k K : option nat :=
  match K with [] => None | (k', a) :: K' => if same_key k' k then Some a else find_key k K' end.

(** Addresses fit 64 bits, and no two keys are one. *)
Fixpoint keys_apart K : Prop :=
  match K with [] => True | (k, _) :: K' => Forall (fun p => same_key k p.1 = false) K' /\ keys_apart K' end.

Record keys_ok K : Prop := KeysOk {
  kk_keys : Forall (fun p => key_ok p.1) K;
  kk_addresses : Forall (fun p => Z.of_nat p.2 < two64) K;
  kk_apart : keys_apart K;
}.

Lemma address_len a : zlen (address a) = 8.
Proof. done. Qed.
Lemma le_bytes_read n x : 0 <= x -> le_unsigned (le_bytes n x) = x `mod` 256 ^ Z.of_nat n.
Proof.
  revert x. induction n as [|n IH]; intros x Hx; cbn [le_bytes le_unsigned].
  - by rewrite Z.mod_1_r.
  - rewrite IH by (apply Z.div_pos; lia). rewrite Nat2Z.inj_succ, Z.pow_succ_r by lia.
    rewrite Z.rem_mul_r by lia. done.
Qed.
Lemma address_read a : Z.of_nat a < two64 -> Z.to_nat (le_unsigned (address a)) = a.
Proof.
  intros Ha. unfold address. rewrite le_bytes_read by lia. change (256 ^ Z.of_nat 8) with two64.
  rewrite Z.mod_small by (unfold two64 in *; lia). lia.
Qed.

Lemma lookup_as_pairs k K : lookup_key (key_eq seg_config) (canon kt k) (as_pairs K) = address <$> find_key k K.
Proof. 
  induction K as [|[k' a] K IH]; [done|]. cbn [as_pairs fmap list_fmap lookup_key find_key].
  change (key_eq seg_config (canon kt k') (canon kt k)) with (same_key k' k).
  destruct (same_key k' k); [done|exact IH].
Qed.

Lemma find_key_some k K a : find_key k K = Some a -> exists k', (k', a) ∈ K /\ same_key k' k = true.
Proof.
  induction K as [|[k' b] K IH]; [done|]. cbn. destruct (same_key k' k) eqn:E.
  - intros [= ->]. exists k'. split; [by left|done].
  - intros H. destruct (IH H) as (k2 & ? & ?). exists k2. split; [by right|done].
Qed.

Lemma find_key_in k k' K a : keys_ok K -> key_ok k -> (k', a) ∈ K -> same_key k' k = true -> find_key k K = Some a.
Proof.
  intros [Hk _ Ha] Hok Hin Hs. induction K as [|[k2 b] K IH]; [by apply not_elem_of_nil in Hin|].
  apply Forall_cons in Hk as [Hk2 Hk]. destruct Ha as [Hb Ha]. cbn. cbn in Hk2.
  apply elem_of_cons in Hin as [[= <- <-]|Hin]; [by rewrite Hs|].
  destruct (same_key k2 k) eqn:E; [|by apply IH]. exfalso.
  rewrite Forall_forall in Hk, Hb. pose proof (Hk _ Hin) as Hk'. pose proof (Hb _ Hin) as Hf. cbn in Hk', Hf.
  assert (same_key k2 k' = true); [|congruence]. apply (same_trans _ k); try done. by apply same_sym.
Qed.

Lemma find_key_none k K : find_key k K = None -> Forall (fun p => same_key p.1 k = false) K.
Proof.
  induction K as [|[k' a] K IH]; [constructor|]. cbn. destruct (same_key k' k) eqn:E; [done|].
  intros H. constructor; [done|by apply IH].
Qed.

Lemma keys_apart_app K1 K2 : keys_apart (K1 ++ K2) <->
  keys_apart K1 /\ keys_apart K2 /\ Forall (fun p => Forall (fun q => same_key p.1 q.1 = false) K2) K1.
Proof.
  induction K1 as [|[k a] K1 IH]; cbn [app keys_apart].
  - split; [intros H; split; [done|]; split; [done|constructor]|by intros (_ & H & _)].
  - rewrite IH, Forall_app, Forall_cons. cbn [fst]. tauto.
Qed.

Lemma keys_ok_add K k a : keys_ok K -> key_ok k -> Z.of_nat a < two64 -> find_key k K = None -> keys_ok (K ++ [(k, a)]).
Proof.
  intros [H1 H2 H3] Hk Ha Hf%find_key_none. constructor.
  - apply Forall_app. split; [done|]. constructor; [done|constructor].
  - apply Forall_app. split; [done|]. constructor; [done|constructor].
  - apply keys_apart_app. split; [done|]. split; [split; [constructor|done]|].
    eapply Forall_impl; [exact Hf|]. intros p Hp. constructor; [done|constructor].
Qed.

Lemma keys_ok_remove K1 k a K2 : keys_ok (K1 ++ (k, a) :: K2) -> keys_ok (K1 ++ K2).
Proof.
  intros [H1 H2 H3]. apply Forall_app in H1 as [H1 [_ H1']%Forall_cons]. apply Forall_app in H2 as [H2 [_ H2']%Forall_cons].
  apply keys_apart_app in H3 as (H3 & [_ H3'] & H3''). constructor; [by apply Forall_app|by apply Forall_app|].
  apply keys_apart_app. split; [done|]. split; [done|]. eapply Forall_impl; [exact H3''|]. by intros p [_ ?]%Forall_cons.
Qed.

Lemma remove_as_pairs K1 k a K2 : keys_ok (K1 ++ (k, a) :: K2) ->
  remove_key (key_eq seg_config) (canon kt k) (as_pairs (K1 ++ (k, a) :: K2)) = as_pairs (K1 ++ K2).
Proof.
  intros [H1 _ H3]. unfold as_pairs. rewrite !fmap_app. cbn [fmap list_fmap]. apply remove_mid.
  - apply keys_apart_app in H3 as (_ & _ & H3). apply Forall_app in H1 as [H1 Hk].
    apply Forall_fmap. eapply Forall_impl; [exact H3|]. intros [k2 b] [Hp _]%Forall_cons. exact Hp.
  - apply Forall_app in H1 as [_ [Hk _]%Forall_cons]. by apply same_refl.
Qed.

(** ** The blocks beside the map *)
Definition beside (chm : chashmap) K m X F : Prop :=
  map_holds secret chm seg_config (as_pairs K) m (list_to_set X ∪ F) /\ NoDup X /\ (forall x, x ∈ X -> x ∉ F).

Lemma beside_perm chm K m X Y F : beside chm K m X F -> X ≡ₚ Y -> beside chm K m Y F.
Proof.
  intros (Hh & Hd & Hf) E. split; [|split; [by rewrite <- E|intros x; rewrite <- E; apply Hf]].
  by replace (list_to_set Y : gset nat) with (list_to_set X : gset nat) by (by rewrite E).
Qed.

Lemma beside_owns chm K m X F : beside chm K m X F ->
  owns m (impl_blocks (impl chm)) ({[chm_blk chm]} ∪ (list_to_set X ∪ F)) /\ (chm_blk chm ∉ X) /\ (chm_blk chm ∉ F).
Proof. intros (Hh & _). pose proof Hh as [Hb _]. split; [by eapply holds_owns|]. set_solver. Qed.

Lemma beside_change chm K m m' X Y F : beside chm K m X F ->
  owns m' (impl_blocks (impl chm)) ({[chm_blk chm]} ∪ (list_to_set Y ∪ F)) -> (chm_blk chm ∉ Y) ->
  NoDup Y -> (forall y, y ∈ Y -> y ∉ F) -> beside chm K m' Y F.
Proof.
  intros Hb Ho Hc Hd Hf. pose proof (beside_owns _ _ _ _ _ Hb) as (_ & _ & HcF). destruct Hb as (Hh & _).
  split; [|done]. eapply holds_move; [done|set_solver|exact Ho].
Qed.


Section Blocks.
Variables (chm : chashmap) (K : list (list Z * nat)) (m : mem) (X : list nat) (F : gset nat).
Hypothesis Hb : beside chm K m X F.

Lemma granted_beside (b : nat) m' :
  owns m' ({[b]} ∪ impl_blocks (impl chm)) ({[chm_blk chm]} ∪ (list_to_set X ∪ F)) ->
  b ∉ impl_blocks (impl chm) -> b ∉ {[chm_blk chm]} ∪ (list_to_set X ∪ F) -> beside chm K m' (b :: X) F.
Proof.
  intros Ho Hn Hf. pose proof Hb as (_ & Hd & HF). pose proof (beside_owns _ _ _ _ _ Hb) as (_ & Hc & _).
  rewrite !not_elem_of_union, elem_of_list_to_set in Hf. destruct Hf as (Hbc & HbX & HbF).
  eapply beside_change; [exact Hb| |set_solver|by constructor|intros y [->|Hy]%elem_of_cons; [done|by apply HF]].
  assert (owns m' (impl_blocks (impl chm)) ({[b]} ∪ ({[chm_blk chm]} ∪ (list_to_set X ∪ F)))) as H by (apply owns_split; [owns_tac|set_solver]).
  by replace ({[chm_blk chm]} ∪ (list_to_set (b :: X) ∪ F)) with ({[b]} ∪ ({[chm_blk chm]} ∪ (list_to_set X ∪ F))) by (cbn [list_to_set]; union_tac).
Qed.

Lemma refused_beside m' : owns m' (impl_blocks (impl chm)) ({[chm_blk chm]} ∪ (list_to_set X ∪ F)) -> beside chm K m' X F.
Proof.
  intros Ho. pose proof Hb as (_ & Hd & HF). pose proof (beside_owns _ _ _ _ _ Hb) as (_ & Hc & _).
  by eapply beside_change.
Qed.

Lemma wp_alloc_beside n (Q : option block -> mem -> Prop) : 0 <= n ->
  (forall m', beside chm K m' X F -> Q None m') ->
  (forall b m', beside chm K m' (b_id b :: X) F -> zlen (b_bytes b) = n -> (exists n', grant (b_id b) n' = true) ->
     Q (Some b) m') ->
  wp (_ccol_mem_alloc n) m Q.
Proof.
  intros Hn HN HS. pose proof (beside_owns _ _ _ _ _ Hb) as (Ho & _).
  assert (wp (_ccol_mem_alloc n) m (fun r _ => forall b, r = Some b -> exists n', grant (b_id b) n' = true)) as Hg.
  { apply wp_alloc; [done|]. intros Hg b [= <-]. by eexists. }
  assert (wp (_ccol_mem_alloc n) m (fun r m' => (forall b, r = Some b -> exists n', grant (b_id b) n' = true) -> Q r m')) as H.
  { eapply (wp_alloc_owns n m _ _ _ Ho Hn); [intros m' Ho' _ _; by apply HN, refused_beside|].
    intros b m' Ho' H1 H2 Hz _ Hgr. apply HS; [by apply granted_beside|done|by apply Hgr]. }
  unfold wp in *. destruct (_ccol_mem_alloc n m) as [r m'| | |]; [by apply H|done..].
Qed.

Lemma wp_entry_calloc (Q : option block -> mem -> Prop) :
  (forall m', beside chm K m' X F -> Q None m') ->
  (forall b m', beside chm K m' (b_id b :: X) F -> (exists n', grant (b_id b) n' = true) -> Q (Some b) m') ->
  wp (_ccol_mem_calloc 1 sizeof_ccache_entry) m Q.
Proof.
  intros HN HS. pose proof (beside_owns _ _ _ _ _ Hb) as (Ho & _).
  assert (wp (_ccol_mem_calloc 1 sizeof_ccache_entry) m (fun r _ => forall b, r = Some b -> exists n', grant (b_id b) n' = true)) as Hg.
  { apply wp_calloc; [done|]. intros Hg b [= <-]. by eexists. }
  assert (wp (_ccol_mem_calloc 1 sizeof_ccache_entry) m (fun r m' => (forall b, r = Some b -> exists n', grant (b_id b) n' = true) -> Q r m')) as H.
  { eapply (wp_calloc_owns 1 _ m _ _ _ Ho); [done|intros m' Ho' _ _; by apply HN, refused_beside|].
    intros b m' Ho' H1 H2 Hz _ Hgr. apply HS; [by apply granted_beside|by apply Hgr]. }
  unfold wp in *. destruct (_ccol_mem_calloc 1 sizeof_ccache_entry m) as [r m'| | |]; [by apply H|done..].
Qed.
End Blocks.

Lemma wp_free_beside_block chm K m b X F (Q : unit -> mem -> Prop) : beside chm K m (b :: X) F ->
  (forall m', beside chm K m' X F -> Q tt m') -> wp (_ccol_mem_free b) m Q.
Proof.
  intros Hb HQ. pose proof Hb as (_ & [Hn Hd]%NoDup_cons & HF). pose proof (beside_owns _ _ _ _ _ Hb) as (Ho & Hc & _).
  pose proof (owns_disj _ _ _ Ho) as Hdj.
  replace ({[chm_blk chm]} ∪ (list_to_set (b :: X) ∪ F)) with ({[b]} ∪ ({[chm_blk chm]} ∪ (list_to_set X ∪ F))) in Ho
    by (cbn [list_to_set]; union_tac).
  assert (b ∉ F) as HbF by (apply HF; by left).
  apply owns_join in Ho; [|set_solver]. eapply (wp_free_owns b m _ _ Q Ho); [set_solver|]. intros m' Ho'.
  apply HQ. eapply beside_change; [exact Hb| |set_solver|done|intros y Hy; apply HF; by right].
  apply (owns_change _ _ _ _ Ho'). set_solver.
Qed.

(** ** The operations on the map *)
Lemma key_arg_ok k : key_ok k -> carg_ok (Some (Some k, zlen k)) /\ arg_key seg_config (Some (Some k, zlen k)) = Some (canon kt k).
Proof.
  intros [Hb Hl Hf]. split; [split; [lia|]; split; [lia|done]|]. unfold arg_key, arg_bytes.
  destruct (Z.eqb_spec (zlen k) 0); [lia|]. rewrite ztake_all by lia. cbn. by rewrite Hf.
Qed.

Lemma wp_map_lookup sh K k m X F (Q : option nat -> mem -> Prop) : beside (map sh) K m X F -> keys_ok K -> key_ok k ->
  Q (find_key k K) m -> wp (map_lookup secret sh k) m Q.
Proof.
  intros (Hh & _) HK Hk HQ. destruct (key_arg_ok k Hk) as [Ha Ek]. unfold map_lookup. apply wp_bind.
  change (pair_of_bytes k) with (to_pair (Some (Some k, zlen k))).
  eapply (wp_get_elem_ref secret Hsecret _ seg_config (as_pairs K) _ true m _); [exact Hh|done|intros [?|?]; congruence|].
  intros k' r out Ek' _ Hans. rewrite Ek in Ek'. injection Ek' as <-. unfold ref_answer in Hans. rewrite lookup_as_pairs in Hans.
  destruct (find_key k K) as [a|] eqn:Ef; cbn in Hans.
  - destruct Hans as (-> & p & -> & Hp). cbn [negb bool_decide]. rewrite bool_decide_true by done. cbn [negb]. apply wp_bind, wp_ret, wp_bind.
    eapply (wp_read_given secret _ seg_config _ p (address a) 8); [exact Hh|done|done|]. apply wp_ret.
    rewrite ztake_all by done. rewrite address_read; [done|].
    apply find_key_some in Ef as (k' & Hin & _). pose proof (kk_addresses _ HK) as H. rewrite Forall_forall in H. by apply (H (k', a)).
  - destruct Hans as [-> ->]. rewrite bool_decide_false by done. by apply wp_ret.
Qed.

Lemma wp_map_upsert sh K k a m X F (Q : ccol_retval_t * ccache_shard -> mem -> Prop) : beside (map sh) K m X F -> key_ok k ->
  find_key k K = None ->
  (forall chm m', beside chm (K ++ [(k, a)]) m' X F -> Q (ccol_success, set_map chm sh) m') ->
  (forall r chm m', r = ccol_not_enough_memory \/ r = ccol_container_full -> beside chm K m' X F -> Q (r, set_map chm sh) m') ->
  wp (map_upsert secret sh k a) m Q.
Proof.
  intros (Hh & Hd & HF) Hk Hf HS HN. destruct (key_arg_ok k Hk) as [Ha Ek]. unfold map_upsert, chashmap_insert_elem. apply wp_bind, wp_bind.
  change (pair_of_bytes k) with (to_pair (Some (Some k, zlen k))).
  assert (carg_ok (Some (Some (address a), zlen (address a)))) as Hva by (split; [done|]; split; [done|]; apply le_bytes_bytes).
  pose proof (carg_value (map sh) seg_config _ Hva) as Hv.
  assert (arg_val seg_config (Some (Some (address a), zlen (address a))) = Some (address a)) as Eva by done. rewrite Eva in Hv.
  eapply (wp_chm_insert secret Hsecret _ seg_config (as_pairs K) _ _ _ want_nothing m _); [exact Hh|done|exact Hv|done|intros [?|?]; congruence|].
  intros k' v r out chm' L' m' Ek' [= <-] [-> Hins] Hh'. rewrite Ek in Ek'. injection Ek' as <-.
  apply wp_ret, wp_bind, wp_ret, wp_ret. unfold sinserted in Hins. rewrite lookup_as_pairs, Hf in Hins. cbn in Hins.
  destruct Hins as [[-> ->]|[[-> ->]|(-> & -> & _)]].
  - apply HS. split; [|done]. unfold as_pairs in *. by rewrite fmap_app.
  - apply HN; [by left|done].
  - apply HN; [by right|done].
Qed.

Lemma wp_map_delete chm K1 k a K2 m X F (Q : ccol_retval_t * option chashmap -> mem -> Prop) :
  beside chm (K1 ++ (k, a) :: K2) m X F -> keys_ok (K1 ++ (k, a) :: K2) ->
  (forall r chm' m', beside chm' (K1 ++ K2) m' X F -> Q (r, Some chm') m') ->
  wp (chashmap_delete_elem secret (Some chm) (pair_of_bytes k)) m Q.
Proof.
  intros (Hh & Hd & HF) HK HQ. assert (key_ok k) as Hk.
  { pose proof (kk_keys _ HK) as H. by apply Forall_app in H as [_ [H _]%Forall_cons]. }
  destruct (key_arg_ok k Hk) as [Ha Ek]. change (pair_of_bytes k) with (to_pair (Some (Some k, zlen k))).
  eapply (wp_chm_delete secret Hsecret _ seg_config _ _ m _); [exact Hh|done|congruence|].
  intros k' chm' m' Ek' Hh'. rewrite Ek in Ek'. injection Ek' as <-. rewrite remove_as_pairs in Hh' by done. by apply HQ.
Qed.
End Map.
