(* ===== verification/CLruOrder.v ===== *)
(** * The eviction order of a segment ([src/clrucache.c])

    The doubly linked list between the two sentinels of a segment, as the list
    of the entries in it, the most recently used first. *)
From S2P Require Import Prelude Memory Values CHash COaMap CHashMap CLruCache.
Import CHashMap.
Import LruCache.

Abbreviation nodes := (gmap lru_node (option lru_node)).

(** ** Links between neighbours *)
Section Links.
Implicit Types (pv nx : nodes) (x y : lru_node) (l : list lru_node).

Fixpoint linked_from pv nx x l : Prop :=
  match l with
  | [] => True
  | y :: l => nx !! x = Some (Some y) /\ pv !! y = Some (Some x) /\ linked_from pv nx y l
  end.

Definition linked pv nx l : Prop := match l with [] => True | x :: l => linked_from pv nx x l end.

Lemma linked_app pv nx l1 y l2 : linked pv nx (l1 ++ y :: l2) <-> linked pv nx (l1 ++ [y]) /\ linked pv nx (y :: l2).
Proof.
  destruct l1 as [|x l1]; cbn [app linked]; [split; [by split|by intros [_ ?]]|].
  revert x. induction l1 as [|z l1 IH]; intros x; cbn [app linked_from]; [tauto|]. rewrite IH. tauto.
Qed.

Lemma linked_ext pv nx pv' nx' l y : linked pv nx (l ++ [y]) ->
  (forall z, z ∈ l -> nx' !! z = nx !! z) -> (forall z, z ∈ l ++ [y] -> pv' !! z = pv !! z) -> linked pv' nx' (l ++ [y]).
Proof.
  destruct l as [|x l]; [done|]. cbn [app linked]. revert x. induction l as [|z l IH]; intros x H Hn Hp.
  - destruct H as (H1 & H2 & _). cbn. rewrite Hn, Hp by set_solver. done.
  - destruct H as (H1 & H2 & H3). cbn [app linked_from]. rewrite Hn, Hp by set_solver. split; [done|]. split; [done|].
    apply IH; [done|set_solver|set_solver].
Qed.

Lemma linked_ext_all pv nx pv' nx' l : linked pv nx l ->
  (forall z, z ∈ l -> nx' !! z = nx !! z) -> (forall z, z ∈ l -> pv' !! z = pv !! z) -> linked pv' nx' l.
Proof.
  destruct (decide (l = [])) as [->|Hl]; [done|]. destruct (exists_last Hl) as (l' & y & ->).
  intros H Hn Hp. apply (linked_ext pv nx); [done| |done]. intros z Hz. apply Hn. set_solver.
Qed.

(** The head of a list is not the second of any pair. *)
Lemma linked_ext_head pv nx pv' nx' x l : linked pv nx (x :: l) ->
  (forall z, z ∈ x :: l -> nx' !! z = nx !! z) -> (forall z, z ∈ l -> pv' !! z = pv !! z) -> linked pv' nx' (x :: l).
Proof.
  destruct l as [|y l]; [done|]. intros (H1 & H2 & H3) Hn Hp. cbn. rewrite Hn, Hp by set_solver.
  split; [done|]. split; [done|]. apply (linked_ext_all pv nx _ _ (y :: l)); [done|set_solver|set_solver].
Qed.

Lemma linked_insert pv nx h e y l : NoDup (h :: e :: y :: l) -> linked pv nx (h :: y :: l) ->
  linked (<[y := Some e]> (<[e := Some h]> pv)) (<[h := Some e]> (<[e := Some y]> nx)) (h :: e :: y :: l).
Proof.
  intros (Hh & (He & (Hy & Hd)%NoDup_cons)%NoDup_cons)%NoDup_cons (H1 & H2 & H3).
  cbn [linked linked_from].
  split; [by rewrite lookup_insert_eq|]. split; [rewrite lookup_insert_ne by set_solver; by rewrite lookup_insert_eq|].
  split; [rewrite lookup_insert_ne by set_solver; by rewrite lookup_insert_eq|]. split; [by rewrite lookup_insert_eq|].
  apply (linked_ext_head pv nx _ _ y l); [done| |].
  - intros z Hz. rewrite !lookup_insert_ne; [done|set_solver|set_solver].
  - intros z Hz. rewrite !lookup_insert_ne; [done|set_solver|set_solver].
Qed.

Lemma linked_remove pv nx l1 p e n l2 : NoDup (l1 ++ p :: e :: n :: l2) -> linked pv nx (l1 ++ p :: e :: n :: l2) ->
  linked (<[e := None]> (<[n := Some p]> pv)) (<[e := None]> (<[p := Some n]> nx)) (l1 ++ p :: n :: l2).
Proof.
  intros Hd (H1 & (_ & _ & H2 & _ & H3))%linked_app.
  apply NoDup_app in Hd as (_ & Hd1 & (Hp & (He & (Hn & _)%NoDup_cons)%NoDup_cons)%NoDup_cons).
  apply linked_app. split.
  - apply (linked_ext pv nx); [done| |].
    + intros z Hz. pose proof (Hd1 z Hz). rewrite !lookup_insert_ne; [done|set_solver|set_solver].
    + intros z [Hz|Hz]%elem_of_app.
      * pose proof (Hd1 z Hz). rewrite !lookup_insert_ne; [done|set_solver|set_solver].
      * apply list_elem_of_singleton in Hz as ->. rewrite !lookup_insert_ne; [done|set_solver|set_solver].
  - cbn [linked linked_from]. split; [rewrite lookup_insert_ne by set_solver; by rewrite lookup_insert_eq|].
    split; [rewrite lookup_insert_ne by set_solver; by rewrite lookup_insert_eq|].
    apply (linked_ext_head pv nx _ _ n l2); [done| |].
    + intros z Hz. rewrite !lookup_insert_ne; [done|set_solver|set_solver].
    + intros z Hz. rewrite !lookup_insert_ne; [done|set_solver|set_solver].
Qed.
End Links.

(** ** The list of a segment *)
Definition ring (order : list nat) : list lru_node := lru_head :: (lru_entry <$> order) ++ [lru_tail].

Definition same_nodes (p p' : nodes) : Prop := forall n, is_Some (p' !! n) <-> is_Some (p !! n).

Lemma same_nodes_insert p p' n x : same_nodes p p' -> is_Some (p !! n) -> same_nodes p (<[n := x]> p').
Proof.
  intros H Hn k. rewrite lookup_insert_is_Some. rewrite (H k). destruct (decide (n = k)) as [->|Hk]; tauto.
Qed.

Lemma ring_nodup order : NoDup order -> NoDup (ring order).
Proof.
  intros Hd. unfold ring. apply NoDup_cons. split; [|apply NoDup_app; split_and!].
  - rewrite elem_of_app, list_elem_of_fmap, list_elem_of_singleton. intros [(? & ? & _)|?]; done.
  - apply NoDup_fmap_2; [by intros ?? [= ->]|done].
  - intros x (a & -> & _)%list_elem_of_fmap. by rewrite list_elem_of_singleton.
  - apply NoDup_singleton.
Qed.

Section Order.
Context {alloc : Allocator}.
Implicit Types (sh : ccache_shard) (order : list nat) (e : ccache_entry) (a : nat).

(** A segment whose links and one entry changed. *)
Definition relinked (pv nx : nodes) a e sh : ccache_shard :=
  set_entries (<[a := e]> (entries sh)) (set_next nx (set_prev pv sh)).

Definition linked_sh sh order : Prop := linked (prev sh) (next sh) (ring order).

Lemma wp_store_prev n x sh m (Q : ccache_shard -> mem -> Prop) : is_Some (prev sh !! n) ->
  Q (set_prev (<[n := x]> (prev sh)) sh) m -> wp (store_prev n x sh) m Q.
Proof. intros [y Hy] HQ. unfold store_prev. apply wp_bind, (wp_ub _ y); [done|by apply wp_ret]. Qed.
Lemma wp_store_next n x sh m (Q : ccache_shard -> mem -> Prop) : is_Some (next sh !! n) ->
  Q (set_next (<[n := x]> (next sh)) sh) m -> wp (store_next n x sh) m Q.
Proof. intros [y Hy] HQ. unfold store_next. apply wp_bind, (wp_ub _ y); [done|by apply wp_ret]. Qed.
Lemma wp_prev_at sh n x m (Q : lru_node -> mem -> Prop) : prev sh !! n = Some (Some x) -> Q x m -> wp (prev_at sh n) m Q.
Proof. intros H HQ. unfold prev_at. by apply (wp_ub _ x); [rewrite H|]. Qed.
Lemma wp_next_at sh n x m (Q : lru_node -> mem -> Prop) : next sh !! n = Some (Some x) -> Q x m -> wp (next_at sh n) m Q.
Proof. intros H HQ. unfold next_at. by apply (wp_ub _ x); [rewrite H|]. Qed.

Lemma wp_update_entry a f sh e m (Q : ccache_shard -> mem -> Prop) : entries sh !! a = Some e ->
  Q (set_entries (<[a := f e]> (entries sh)) sh) m -> wp (update_entry a f sh) m Q.
Proof. intros He HQ. unfold update_entry. apply wp_bind, (wp_ub _ e); [done|by apply wp_ret]. Qed.
Lemma wp_entry_at a sh e m (Q : ccache_entry -> mem -> Prop) : entries sh !! a = Some e -> Q e m -> wp (entry_at sh a) m Q.
Proof. intros He HQ. by apply (wp_ub _ e). Qed.

Lemma ring_cons a order : ring (a :: order) = lru_head :: lru_entry a :: (lru_entry <$> order) ++ [lru_tail].
Proof. done. Qed.
Lemma ring_first order : exists y l, (lru_entry <$> order) ++ [lru_tail] = y :: l.
Proof. destruct order; cbn; eauto. Qed.

Lemma wp_lru_add_to_front sh order a e m (Q : ccache_shard -> mem -> Prop) : linked_sh sh order -> NoDup (a :: order) ->
  entries sh !! a = Some e -> is_Some (prev sh !! lru_entry a) -> is_Some (next sh !! lru_entry a) ->
  (forall pv nx, linked pv nx (ring (a :: order)) -> same_nodes (prev sh) pv -> same_nodes (next sh) nx ->
     Q (relinked pv nx a (set_in_lru true e) sh) m) ->
  wp (lru_add_to_front sh a) m Q.
Proof.
  intros Hl Hd%ring_nodup He Hp Hn HQ. unfold linked_sh in Hl. rewrite ring_cons in *. unfold ring in Hl.
  destruct (ring_first order) as (y & l & E). rewrite E in *. pose proof Hl as (Hy & Hpy & _).
  pose proof (linked_insert _ _ _ _ _ _ Hd Hl) as Hl'.
  apply NoDup_cons in Hd as [Hh [Ha Hd]%NoDup_cons].
  unfold lru_add_to_front. apply wp_bind, (wp_next_at _ _ y); [done|]. apply wp_bind, wp_store_next; [done|].
  apply wp_bind, wp_store_prev; [done|]. apply wp_bind, wp_store_prev.
  { cbn. rewrite lookup_insert_ne by set_solver. by rewrite Hpy. }
  apply wp_bind, wp_store_next; [cbn; rewrite lookup_insert_ne by set_solver; by rewrite Hy|].
  eapply wp_update_entry; [exact He|]. apply HQ; [exact Hl'| |].
  - apply same_nodes_insert; [apply same_nodes_insert; [done|done]|by rewrite Hpy].
  - apply same_nodes_insert; [apply same_nodes_insert; [done|done]|by rewrite Hy].
Qed.

Lemma ring_split o1 a o2 : exists l1 p n l2, ring (o1 ++ a :: o2) = l1 ++ p :: lru_entry a :: n :: l2 /\
  ring (o1 ++ o2) = l1 ++ p :: n :: l2.
Proof.
  destruct (ring_first o2) as (n & l2 & E).
  assert (exists l1 p, lru_head :: (lru_entry <$> o1) = l1 ++ [p]) as (l1 & p & E1).
  { destruct (exists_last (l := lru_head :: (lru_entry <$> o1))) as (l1 & p & ?); [done|]. by exists l1, p. }
  exists l1, p, n, l2. unfold ring. rewrite !fmap_app. cbn [fmap list_fmap].
  rewrite <- !app_assoc. cbn [app]. fold (fmap (M := list) lru_entry). rewrite E.
  rewrite !app_comm_cons, !E1, <- !app_assoc. done.
Qed.

Lemma wp_lru_remove sh o1 a o2 e m (Q : ccache_shard -> mem -> Prop) : linked_sh sh (o1 ++ a :: o2) -> NoDup (o1 ++ a :: o2) ->
  entries sh !! a = Some e -> in_lru e = true ->
  (forall pv nx, linked pv nx (ring (o1 ++ o2)) -> same_nodes (prev sh) pv -> same_nodes (next sh) nx ->
     Q (relinked pv nx a (set_in_lru false e) sh) m) ->
  wp (lru_remove sh a) m Q.
Proof.
  intros Hl Hd%ring_nodup He Hi HQ. unfold linked_sh in Hl. destruct (ring_split o1 a o2) as (l1 & p & n & l2 & E & E').
  rewrite E in *. rewrite E' in HQ. pose proof Hl as (_ & (H1 & H2 & H3 & H4 & _))%linked_app.
  pose proof (linked_remove _ _ _ _ _ _ _ Hd Hl) as Hl'.
  apply NoDup_app in Hd as (_ & _ & Hd). apply NoDup_cons in Hd as [Hp [Ha Hd]%NoDup_cons].
  unfold lru_remove. apply wp_bind, (wp_entry_at _ _ e); [done|]. rewrite Hi. cbn [negb].
  apply wp_bind, (wp_prev_at _ _ p); [done|]. apply wp_bind, (wp_next_at _ _ n); [done|].
  apply wp_bind, wp_store_next; [by rewrite H1|]. apply wp_bind, wp_store_prev; [cbn; by rewrite H4|].
  apply wp_bind, wp_store_prev; [cbn; rewrite lookup_insert_ne by set_solver; by rewrite H2|].
  apply wp_bind, wp_store_next; [cbn; rewrite lookup_insert_ne by set_solver; by rewrite H3|].
  eapply wp_update_entry; [exact He|]. apply HQ; [exact Hl'| |].
  - apply same_nodes_insert; [apply same_nodes_insert; [done|by rewrite H4]|by rewrite H2].
  - apply same_nodes_insert; [apply same_nodes_insert; [done|by rewrite H1]|by rewrite H3].
Qed.

Lemma set_in_lru_same e b : in_lru e = b -> set_in_lru b e = e.
Proof. intros <-. by destruct e. Qed.

(** A move to the front changes the links only. *)
Lemma wp_lru_move_to_front sh o1 a o2 e m (Q : ccache_shard -> mem -> Prop) : linked_sh sh (o1 ++ a :: o2) -> NoDup (o1 ++ a :: o2) ->
  entries sh !! a = Some e -> in_lru e = true -> is_Some (prev sh !! lru_entry a) -> is_Some (next sh !! lru_entry a) ->
  (forall pv nx, linked pv nx (ring (a :: o1 ++ o2)) -> same_nodes (prev sh) pv -> same_nodes (next sh) nx ->
     Q (relinked pv nx a e sh) m) ->
  wp (lru_move_to_front sh a) m Q.
Proof.
  intros Hl Hd He Hi Hp Hn HQ. unfold lru_move_to_front. apply wp_bind.
  eapply wp_lru_remove; [done..|]. intros pv nx Hl1 Hp1 Hn1.
  assert (NoDup (a :: o1 ++ o2)) as Hd' by (rewrite Permutation_middle; done).
  eapply wp_lru_add_to_front; [exact Hl1|done|by cbn; rewrite lookup_insert_eq|by apply Hp1|by apply Hn1|].
  intros pv2 nx2 Hl2 Hp2 Hn2. specialize (HQ pv2 nx2 Hl2).
  assert (relinked pv2 nx2 a (set_in_lru true (set_in_lru false e)) (relinked pv nx a (set_in_lru false e) sh) =
    relinked pv2 nx2 a e sh) as ->.
  { unfold relinked. cbn. unfold set_entries, set_next, set_prev. cbn. rewrite insert_insert_eq. f_equal.
    f_equal. rewrite <- (set_in_lru_same e true Hi) at 2. done. }
  apply HQ; intros k; [rewrite (Hp2 k); apply Hp1|rewrite (Hn2 k); apply Hn1].
Qed.

(** The sentinels see the first and the last entry. *)
Lemma ring_last sh order : linked_sh sh order ->
  prev sh !! lru_tail = Some (Some (match last order with Some a => lru_entry a | None => lru_head end)).
Proof.
  unfold linked_sh, ring. destruct (decide (order = [])) as [->|Ho]; [by intros (_ & H & _)|].
  destruct (exists_last Ho) as (o & a & ->). rewrite last_snoc, fmap_app. cbn [fmap list_fmap]. rewrite <- app_assoc. cbn [app].
  rewrite app_comm_cons. by intros (_ & (_ & H & _))%linked_app.
Qed.
End Order.
#[global] Arguments linked_sh : simpl never.
