(* ===== verification/CLruInv.v ===== *)
(** * The invariant of a segment ([src/clrucache.c])

    What a thread holds of a segment while it does not hold the mutex is a
    list of tokens: references to entries, the fetch or the set slot of an
    entry, the duty to free an entry, blocks.  The invariant relates the
    counters and flags of the entries to the tokens of all threads. *)
From S2P Require Import Prelude Memory Values CHash COaMap CHashMap CHashMapRefine CHashMapIter.
From S2P Require Import CLruCache CLruSegment CLruOrder.
Import CHashMap.
Import LruCache.

(** ** Tokens *)
Inductive token :=
  | TRef (a : nat)
  | TSleep (i a : nat)
  | TFetch (a : nat)
  | TSet (a : nat)
  | TFree (a : nat)
  | TBlock (b : nat).

#[export] Instance token_eq_dec : EqDecision token.
Proof. solve_decision. Defined.

Definition about (t : token) : option nat :=
  match t with TRef a | TSleep _ a | TFetch a | TSet a | TFree a => Some a | TBlock _ => None end.
Definition block_of (t : token) : option nat := match t with TBlock b => Some b | _ => None end.

Definition is_ref (t : token) : bool := match t with TRef _ | TSleep _ _ => true | _ => false end.
Definition is_fetch (t : token) : bool := match t with TFetch _ => true | _ => false end.
Definition is_set (t : token) : bool := match t with TSet _ => true | _ => false end.
Definition is_free (t : token) : bool := match t with TFree _ => true | _ => false end.

Fixpoint count (f : token -> bool) (T : list token) : Z :=
  match T with [] => 0 | t :: T => (if f t then 1 else 0) + count f T end.

(** The tokens about one entry. *)
Fixpoint at_entry (a : nat) (T : list token) : list token :=
  match T with
  | [] => []
  | t :: T => if decide (about t = Some a) then t :: at_entry a T else at_entry a T
  end.

Definition token_blocks (T : list token) : list nat := omap block_of T.

Section Tokens.
Implicit Types (T : list token) (a : nat).

Lemma count_nonneg f T : 0 <= count f T.
Proof. induction T as [|t T IH]; cbn; [done|]. destruct (f t); lia. Qed.
Lemma count_perm f T T' : T ≡ₚ T' -> count f T = count f T'.
Proof. induction 1; cbn; lia. Qed.
Lemma count_app f T1 T2 : count f (T1 ++ T2) = count f T1 + count f T2.
Proof. induction T1; cbn; lia. Qed.
Lemma count_in f t T : t ∈ T -> f t = true -> 0 < count f T.
Proof.
  induction T as [|u T IH]; [by intros ?%not_elem_of_nil|]. intros [->|Hin]%elem_of_cons Hf; cbn.
  - rewrite Hf. pose proof (count_nonneg f T). lia.
  - specialize (IH Hin Hf). destruct (f u); lia.
Qed.

Lemma at_entry_perm a T T' : T ≡ₚ T' -> at_entry a T ≡ₚ at_entry a T'.
Proof.
  induction 1 as [|t T T' _ IH|t u T|T1 T2 T3 _ IH1 _ IH2]; cbn; [done| | |by rewrite IH1].
  - destruct (decide _); by rewrite ?IH.
  - destruct (decide _), (decide _); try done. by apply Permutation_swap.
Qed.
Lemma at_entry_app a T1 T2 : at_entry a (T1 ++ T2) = at_entry a T1 ++ at_entry a T2.
Proof. induction T1 as [|t T1 IH]; cbn; [done|]. destruct (decide _); cbn; by rewrite IH. Qed.
Lemma at_entry_in a t T : t ∈ at_entry a T <-> t ∈ T /\ about t = Some a.
Proof.
  induction T as [|u T IH]; cbn; [set_solver|]. destruct (decide _) as [E|E]; [|set_solver].
  rewrite !elem_of_cons, IH. naive_solver.
Qed.

Lemma token_blocks_perm T T' : T ≡ₚ T' -> token_blocks T ≡ₚ token_blocks T'.
Proof. intros H. unfold token_blocks. by rewrite H. Qed.
Lemma token_blocks_app T1 T2 : token_blocks (T1 ++ T2) = token_blocks T1 ++ token_blocks T2.
Proof. apply omap_app. Qed.
End Tokens.

(** ** The blocks of the entries *)
Definition id_of (b : option block) : list nat := match b with Some b => [b_id b] | None => [] end.
Definition blocks_of_entry (a : nat) (e : ccache_entry) : list nat := a :: id_of (e_key e) ++ id_of (value e).
Definition entry_blocks (es : gmap nat ccache_entry) : list nat :=
  concat ((fun '(a, e) => blocks_of_entry a e) <$> map_to_list es).

Lemma entry_blocks_insert es a e : es !! a = None -> entry_blocks (<[a := e]> es) ≡ₚ blocks_of_entry a e ++ entry_blocks es.
Proof. intros H. unfold entry_blocks. by rewrite (map_to_list_insert es a e H). Qed.
Lemma entry_blocks_delete es a e : es !! a = Some e -> entry_blocks es ≡ₚ blocks_of_entry a e ++ entry_blocks (delete a es).
Proof. intros H. rewrite <- (insert_delete_id es a e H) at 1. apply entry_blocks_insert, lookup_delete_eq. Qed.
Lemma entry_blocks_update es a e : entry_blocks (<[a := e]> es) ≡ₚ blocks_of_entry a e ++ entry_blocks (delete a es).
Proof. rewrite <- insert_delete_eq. apply entry_blocks_insert, lookup_delete_eq. Qed.

(** ** What holds of an entry *)
Definition flag (b : bool) : Z := if b then 1 else 0.

(** In the map: live, or a placeholder with one operation in progress. *)
Record published_ok (T : list token) (e : ccache_entry) : Prop := PublishedOk {
  po_free : count is_free T = 0;
  po_evicted : evicted e = false;
  po_failed : fetch_failed e = false /\ fetch_size_mismatch e = false;
  po_fetch : count is_fetch T = flag (fetch_in_progress e);
  po_set : count is_set T = flag (set_in_progress e);
  po_state : if in_lru e then is_Some (value e) /\ fetch_in_progress e = false
             else value e = None /\ fetch_in_progress e = negb (set_in_progress e);
}.

(** Out of the map: the last thread that holds it frees it. *)
Record evicted_ok (T : list token) (e : ccache_entry) : Prop := EvictedOk {
  eo_lru : in_lru e = false;
  eo_flags : fetch_in_progress e = false /\ set_in_progress e = false;
  eo_ops : count is_fetch T = 0 /\ count is_set T = 0;
  eo_free : count is_free T = if waiters e =? 0 then 1 else 0;
}.

(** Not yet in the map: one thread has it. *)
Record private_ok (T : list token) (e : ccache_entry) : Prop := PrivateOk {
  vo_lru : in_lru e = false;
  vo_value : value e = None;
  vo_failed : fetch_failed e = false /\ fetch_size_mismatch e = false;
  vo_tokens : count is_ref T = 0 /\ count is_fetch T = 0 /\ count is_set T = 0 /\ count is_free T = 1;
}.

(** [there]: whether the map has it.  A thread that sleeps does so for an
    operation in progress. *)
Record entry_ok (there : Prop) (T : list token) (a : nat) (e : ccache_entry) : Prop := EntryOk {
  en_waiters : waiters e = count is_ref T;
  en_cond : forall i, i ∈ cond e -> TSleep i a ∈ T;
  en_wakes : cond e = ∅ \/ in_progress e = true;
  en_published : there -> published_ok T e;
  en_evicted : ~ there -> evicted e = true -> evicted_ok T e;
  en_private : ~ there -> evicted e = false -> private_ok T e;
}.

Lemma entry_ok_tokens there there' T T' a e : (there <-> there') -> T ≡ₚ T' -> entry_ok there T a e -> entry_ok there' T' a e.
Proof.
  intros Ht E [H1 H2 H3 H4 H5 H6]. constructor.
  - by rewrite <- (count_perm _ _ _ E).
  - intros i Hi. rewrite <- E. by apply H2.
  - done.
  - intros H%Ht. destruct (H4 H). constructor; try done; by rewrite <- (count_perm _ _ _ E).
  - intros H He. destruct H5 as [? ? [? ?] ?]; [by rewrite Ht|done|]. constructor; try done; rewrite <- ?(count_perm _ _ _ E); done.
  - intros H He. destruct H6 as [? ? ? (? & ? & ? & ?)]; [by rewrite Ht|done|]. constructor; try done; rewrite <- ?(count_perm _ _ _ E); done.
Qed.

(** ** The segment *)
Ltac open_inv H := pose proof H as [Hcap Hsize Hlk Hnd Hpv0 Hnx0 Hord Hkeys Hhas Hsz0 Hen Htok Hmem].

Section Inv.
Context {alloc : Allocator} (secret : chmap_hash_secret) (kt : ccol_data_type).
Implicit Types (sh : ccache_shard) (a : nat) (e : ccache_entry) (k : list Z) (K : list (list Z * nat)) (order : list nat)
  (T : list token) (F : gset nat) (D : option nat).

Definition node_there sh (n : lru_node) : Prop :=
  match n with lru_entry a => is_Some (entries sh !! a) | _ => True end.

Record sizes_ok a e : Prop := SizesOk {
  so_key : from_option (fun b => key_size e = zlen (b_bytes b)) True (e_key e);
  so_value : from_option (fun b => value_size e = zlen (b_bytes b)) True (value e);
  so_address : Z.of_nat a < two64;
}.

(** The entry of a key of the map. *)
Definition has_key sh k a : Prop :=
  exists e b, entries sh !! a = Some e /\ e_key e = Some b /\ b_bytes b = k.

(** [D] is the entry the running thread is in the middle of, if any. *)
Record seg_inv D sh K order T m F : Prop := SegInv {
  si_capacity : 1 <= sh_capacity sh < two64;
  si_size : sh_size sh = zlen order /\ zlen order <= sh_capacity sh;
  si_linked : linked_sh sh order;
  si_nodup : NoDup order;
  si_prev : forall n, is_Some (prev sh !! n) <-> node_there sh n;
  si_next : forall n, is_Some (next sh !! n) <-> node_there sh n;
  si_order : forall a, a ∈ order <-> exists e, entries sh !! a = Some e /\ in_lru e = true;
  si_keys : keys_ok kt K /\ NoDup K.*2;
  si_has : forall k a, (k, a) ∈ K -> has_key sh k a;
  si_sizes : forall a e, entries sh !! a = Some e -> sizes_ok a e;
  si_entries : forall a e, entries sh !! a = Some e -> D <> Some a -> entry_ok (a ∈ K.*2) (at_entry a T) a e;
  si_tokens : forall t a, t ∈ T -> about t = Some a -> is_Some (entries sh !! a);
  si_mem : beside secret kt (map sh) K m (sh_blk sh :: entry_blocks (entries sh) ++ token_blocks T) F;
}.

Lemma seg_inv_perm D sh K order T T' m F : T ≡ₚ T' -> seg_inv D sh K order T m F -> seg_inv D sh K order T' m F.
Proof.
  intros E H. open_inv H. constructor; try done.
  - intros a e He HD. eapply entry_ok_tokens; [done|by apply at_entry_perm, E|by apply Hen].
  - intros t a. rewrite <- E. apply Htok.
  - eapply beside_perm; [done|]. by rewrite (token_blocks_perm _ _ E).
Qed.

(** The contents: the live pairs, the most recently used first. *)
Definition entry_pair e : option (list Z * list Z) :=
  match e_key e, value e with Some k, Some v => Some (b_bytes k, b_bytes v) | _, _ => None end.
Definition content sh order : list (list Z * list Z) := omap (fun a => entries sh !! a ≫= entry_pair) order.

Lemma lru_content_ext sh sh' order : (forall a, a ∈ order -> entries sh' !! a = entries sh !! a) -> content sh' order = content sh order.
Proof.
  unfold content. induction order as [|a o IH]; intros H; [done|]. cbn. rewrite H by set_solver.
  destruct (_ ≫= _); by rewrite IH by set_solver.
Qed.

(** ** One entry changes *)
Lemma about_entry_in a t T : t ∈ T -> about t = Some a -> t ∈ at_entry a T.
Proof. intros. by apply at_entry_in. Qed.

(** The tokens about the other entries stay. *)
Definition others_same a T T' : Prop := forall b, b <> a -> at_entry b T' ≡ₚ at_entry b T.

Lemma others_same_refl a T : others_same a T T.
Proof. by intros b _. Qed.
Lemma others_same_app a T1 T2 T : (forall t, t ∈ T1 ++ T2 -> about t = Some a \/ about t = None) ->
  others_same a (T1 ++ T) (T2 ++ T).
Proof.
  intros H b Hb. rewrite !at_entry_app. apply Permutation_app_tail.
  assert (forall T0, (forall t, t ∈ T0 -> about t = Some a \/ about t = None) -> at_entry b T0 = []) as Hnil.
  { induction T0 as [|t T0 IH]; intros Ht; [done|]. cbn. rewrite decide_False; [apply IH; set_solver|].
    destruct (Ht t ltac:(by left)); congruence. }
  by rewrite !Hnil by set_solver.
Qed.

Section Change.
Variables (D D' : option nat) (sh : ccache_shard) (K : list (list Z * nat)) (order : list nat) (T T' : list token)
  (m : mem) (F : gset nat) (a : nat) (e e' : ccache_entry).
Hypothesis Hinv : seg_inv D sh K order T m F.
Hypothesis He : entries sh !! a = Some e.
Hypothesis HD : forall b, b <> a -> D' <> Some b -> D <> Some b.
Hypothesis HT : others_same a T T'.
Hypothesis Hsizes : sizes_ok a e'.

Lemma inv_change chm pv nx sz rep K' order' m' :
  sz = zlen order' -> zlen order' <= sh_capacity sh ->
  linked pv nx (ring order') -> NoDup order' -> same_nodes (prev sh) pv -> same_nodes (next sh) nx ->
  (forall b, b <> a -> b ∈ order' <-> b ∈ order) -> (a ∈ order' <-> in_lru e' = true) ->
  keys_ok kt K' -> NoDup K'.*2 -> (forall k b, (k, b) ∈ K' -> b <> a -> (k, b) ∈ K) ->
  (forall b, b <> a -> b ∈ K'.*2 <-> b ∈ K.*2) ->
  (forall k, (k, a) ∈ K' -> exists b, e_key e' = Some b /\ b_bytes b = k) ->
  (D' <> Some a -> entry_ok (a ∈ K'.*2) (at_entry a T') a e') ->
  beside secret kt chm K' m' (sh_blk sh :: entry_blocks (<[a := e']> (entries sh)) ++ token_blocks T') F ->
  seg_inv D' (CacheShard (sh_blk sh) chm (<[a := e']> (entries sh)) pv nx (sh_capacity sh) sz (remote_getter sh)
    (remote_setter sh) (eviction_cb sh) rep) K' order' T' m' F.
Proof.
  intros Hsz Hlen Hl Hd Hpv Hnx Ho Hoa Hk Hkd Hsub Hin Hha Hok Hm. open_inv Hinv.
  assert (Hthere : forall b, is_Some (<[a := e']> (entries sh) !! b) <-> is_Some (entries sh !! b)).
  { intros b. rewrite lookup_insert_is_Some. destruct (decide (a = b)) as [<-|]; [rewrite He|]; naive_solver. }
  constructor; cbn; try done.
  - intros n. rewrite (Hpv n), Hpv0. destruct n; cbn; [done..|]. symmetry. apply Hthere.
  - intros n. rewrite (Hnx n), Hnx0. destruct n; cbn; [done..|]. symmetry. apply Hthere.
  - intros b. destruct (decide (b = a)) as [->|Hb].
    + rewrite Hoa, lookup_insert_eq. naive_solver.
    + rewrite Ho, Hord, lookup_insert_ne by done. done.
  - intros k b Hkb. destruct (decide (b = a)) as [->|Hb].
    + destruct (Hha k Hkb) as (x & ? & ?). exists e', x. cbn. by rewrite lookup_insert_eq.
    + destruct (Hhas k b) as (x & y & ? & ? & ?); [by apply Hsub|]. exists x, y. cbn. by rewrite lookup_insert_ne.
  - intros b x. destruct (decide (b = a)) as [->|Hb]; [rewrite lookup_insert_eq; by intros [= <-]|].
    rewrite lookup_insert_ne by done. apply Hsz0.
  - intros b x. destruct (decide (b = a)) as [->|Hb]; [rewrite lookup_insert_eq; by intros [= <-]|].
    rewrite lookup_insert_ne by done. intros Hx HDb.
    eapply entry_ok_tokens; [symmetry; by apply Hin|symmetry; by apply HT|]. by apply Hen; [|apply HD].
  - intros t b Ht Hab. apply Hthere. destruct (decide (b = a)) as [->|Hb]; [by rewrite He|].
    pose proof (about_entry_in b t T' Ht Hab) as Hat. rewrite (HT b Hb) in Hat. apply at_entry_in in Hat as [Hat _].
    by apply (Htok t b).
Qed.

(** The entry and the tokens. *)
Lemma inv_entry : in_lru e' = in_lru e -> e_key e' = e_key e ->
  (D' <> Some a -> entry_ok (a ∈ K.*2) (at_entry a T') a e') ->
  blocks_of_entry a e' ++ token_blocks T' ≡ₚ blocks_of_entry a e ++ token_blocks T ->
  seg_inv D' (set_entries (<[a := e']> (entries sh)) sh) K order T' m F.
Proof.
  intros Hl Hk Hok Hb. open_inv Hinv.
  apply inv_change; try done; try (by destruct_and?); try (by intros ?); try (by intros k b).
  - rewrite Hord, Hl, He. split; [by intros (x & [= <-] & ?)|by exists e].
  - intros k Hka. destruct (Hhas k a Hka) as (x & b & Hx & Hy & Hz). rewrite He in Hx. injection Hx as <-.
    exists b. by rewrite Hk.
  - eapply beside_perm; [exact Hmem|]. apply Permutation_skip.
    rewrite entry_blocks_update, (entry_blocks_delete _ _ _ He).
    rewrite (Permutation_app_comm (blocks_of_entry a e)), (Permutation_app_comm (blocks_of_entry a e')), <- !app_assoc.
    by rewrite Hb.
Qed.

(** The entry, the tokens and the map. *)
Lemma inv_mapped chm K' m' : in_lru e' = in_lru e ->
  keys_ok kt K' -> NoDup K'.*2 -> (forall k b, (k, b) ∈ K' -> b <> a -> (k, b) ∈ K) ->
  (forall b, b <> a -> b ∈ K'.*2 <-> b ∈ K.*2) ->
  (forall k, (k, a) ∈ K' -> exists b, e_key e' = Some b /\ b_bytes b = k) ->
  (D' <> Some a -> entry_ok (a ∈ K'.*2) (at_entry a T') a e') ->
  beside secret kt chm K' m' (sh_blk sh :: entry_blocks (<[a := e']> (entries sh)) ++ token_blocks T') F ->
  seg_inv D' (set_map chm (set_entries (<[a := e']> (entries sh)) sh)) K' order T' m' F.
Proof.
  intros Hl Hk Hkd Hsub Hin Hha Hok Hm. open_inv Hinv.
  apply inv_change; try done; try (by destruct_and?); try (by intros ?); try (by intros k b).
  rewrite Hord, Hl, He. split; [by intros (x & [= <-] & ?)|by exists e].
Qed.

(** The entry, the tokens and the links. *)
Lemma inv_relinked pv nx sz rep order' : e_key e' = e_key e ->
  sz = zlen order' -> zlen order' <= sh_capacity sh ->
  linked pv nx (ring order') -> NoDup order' -> same_nodes (prev sh) pv -> same_nodes (next sh) nx ->
  (forall b, b <> a -> b ∈ order' <-> b ∈ order) -> (a ∈ order' <-> in_lru e' = true) ->
  (D' <> Some a -> entry_ok (a ∈ K.*2) (at_entry a T') a e') ->
  blocks_of_entry a e' ++ token_blocks T' ≡ₚ blocks_of_entry a e ++ token_blocks T ->
  seg_inv D' (set_reported rep (set_sh_size sz (relinked pv nx a e' sh))) K order' T' m F.
Proof.
  intros Hk Hsz Hlen Hl Hd Hpv Hnx Ho Hoa Hok Hb. open_inv Hinv.
  apply inv_change; try done; try (by destruct_and?); try (by intros ?); try (by intros k b).
  - intros k Hka. destruct (Hhas k a Hka) as (x & b & Hx & Hy & Hz). rewrite He in Hx. injection Hx as <-.
    exists b. by rewrite Hk.
  - eapply beside_perm; [exact Hmem|]. apply Permutation_skip.
    rewrite entry_blocks_update, (entry_blocks_delete _ _ _ He).
    rewrite (Permutation_app_comm (blocks_of_entry a e)), (Permutation_app_comm (blocks_of_entry a e')), <- !app_assoc.
    by rewrite Hb.
Qed.
End Change.
End Inv.
