(* ===== verification/CLruPrims.v ===== *)
(** * Steps inside a critical section ([src/clrucache.c])

    The creation and the free of an entry, the map and the blocks of the
    running thread, each with what it does to the invariant and to the tokens
    of that thread. *)
From S2P Require Import Prelude Memory Values CHash COaMap CHashMap CHashMapRefine CHashMapIter.
From S2P Require Import CLruCache CLruSegment CLruOrder CLruInv.
Import CHashMap.
Import LruCache.

Section Prims.
Context {alloc : Allocator} (Hspace : forall k n, grant k n = true -> Z.of_nat k < two64).
Context (secret : chmap_hash_secret) (Hsecret : secret_ok secret) (kt : ccol_data_type).
Implicit Types (sh : ccache_shard) (a : nat) (e : ccache_entry) (k : list Z) (K : list (list Z * nat)) (order : list nat)
  (T : list token) (F : gset nat) (D : option nat).
Local Abbreviation seg_inv := (seg_inv secret kt).
Local Abbreviation beside := (beside secret kt).

(** ** Counting tokens *)
Lemma count_at_entry_cons f a t T : about t = Some a -> count f (at_entry a (t :: T)) = (if f t then 1 else 0) + count f (at_entry a T).
Proof. intros H. cbn. by rewrite decide_True. Qed.

Lemma at_entry_nil a T : count is_ref (at_entry a T) = 0 -> count is_fetch (at_entry a T) = 0 ->
  count is_set (at_entry a T) = 0 -> count is_free (at_entry a T) = 0 -> at_entry a T = [].
Proof.
  intros H1 H2 H3 H4. destruct (at_entry a T) as [|t T'] eqn:E; [done|exfalso].
  assert (about t = Some a) as Ha by (apply (at_entry_in a t T); rewrite E; by left).
  cbn in *. pose proof (count_nonneg is_ref T'). pose proof (count_nonneg is_fetch T').
  pose proof (count_nonneg is_set T'). pose proof (count_nonneg is_free T').
  destruct t; cbn in *; try done; lia.
Qed.

(** An entry somebody is to free is out of the map and nobody holds it. *)
Lemma free_token there T a e : entry_ok there (TFree a :: T) a e ->
  ~ there /\ waiters e = 0 /\ cond e = ∅ /\ in_lru e = false /\ count is_ref T = 0 /\ count is_fetch T = 0 /\
  count is_set T = 0 /\ count is_free T = 0.
Proof.
  intros [Hw Hc _ Hp He Hv]. cbn in Hw. pose proof (count_nonneg is_free T) as Hn. pose proof (count_nonneg is_ref T) as Hnr.
  assert (~ there) as Ht by (intros H%Hp; destruct H as [H _ _ _ _ _]; cbn in H; lia).
  assert (waiters e = 0 /\ in_lru e = false /\ count is_fetch T = 0 /\ count is_set T = 0 /\ count is_free T = 0) as (H1 & H2 & H3 & H4 & H5).
  { destruct (evicted e) eqn:Ee.
    - destruct (He Ht eq_refl) as [? _ [? ?] Hf]. cbn in *. destruct (Z.eqb_spec (waiters e) 0); [split_and!; done || lia|lia].
    - destruct (Hv Ht eq_refl) as [? _ _ (? & ? & ? & ?)]. cbn in *. split_and!; done || lia. }
  split_and!; try done; [|lia]. apply set_eq. intros i. split; [|set_solver]. intros Hi%Hc. exfalso.
  apply elem_of_cons in Hi as [|Hi]; [done|]. pose proof (count_in is_ref _ _ Hi eq_refl). lia.
Qed.

(** ** Frees *)
Lemma wp_free_buffer chm K b m X F (Q : unit -> mem -> Prop) : beside chm K m (id_of b ++ X) F ->
  (forall m', beside chm K m' X F -> Q tt m') -> wp (free_buffer b) m Q.
Proof.
  intros Hb HQ. destruct b as [b|]; cbn in *; [|by apply wp_ret, HQ]. by eapply (wp_free_beside_block secret Hsecret kt).
Qed.

Definition without a sh : ccache_shard :=
  set_next (delete (lru_entry a) (next sh)) (set_prev (delete (lru_entry a) (prev sh)) (set_entries (delete a (entries sh)) sh)).

Lemma linked_delete pv nx a l : linked pv nx l -> lru_entry a ∉ l ->
  linked (delete (lru_entry a) pv) (delete (lru_entry a) nx) l.
Proof. intros H Ha. eapply linked_ext_all; [exact H| |]; intros z Hz; apply lookup_delete_ne; set_solver. Qed.

Lemma ring_entry a order : lru_entry a ∈ ring order <-> a ∈ order.
Proof.
  unfold ring. rewrite elem_of_cons, elem_of_app, list_elem_of_singleton, list_elem_of_fmap. split.
  - intros [?|[(b & [= ->] & ?)|?]]; done.
  - intros H. right. left. by exists a.
Qed.

Lemma inv_without D sh K order T a e m m' F : seg_inv D sh K order (TFree a :: T) m F -> D <> Some a -> entries sh !! a = Some e ->
  beside (map sh) K m' (sh_blk sh :: entry_blocks (delete a (entries sh)) ++ token_blocks T) F ->
  seg_inv D (without a sh) K order T m' F.
Proof.
  intros Hi HD He Hm. open_inv Hi. pose proof (Hen a e He HD) as Hok. cbn [at_entry] in Hok.
  rewrite decide_True in Hok by done.
  destruct (free_token _ _ _ _ Hok) as (Hk & _ & _ & Hl & H1 & H2 & H3 & H4). pose proof (at_entry_nil _ _ H1 H2 H3 H4) as Hnil.
  assert (Hnot : a ∉ order) by (intros (x & Hx & Hxl)%Hord; congruence).
  constructor; cbn; try done.
  - unfold linked_sh. apply linked_delete; [done|by rewrite ring_entry].
  - intros n. destruct n as [| |b]; cbn; [rewrite lookup_delete_ne by done; apply (Hpv0 lru_head)
      |rewrite lookup_delete_ne by done; apply (Hpv0 lru_tail)|].
    rewrite !lookup_delete_is_Some. pose proof (Hpv0 (lru_entry b)) as Hb. cbn in Hb. naive_solver.
  - intros n. destruct n as [| |b]; cbn; [rewrite lookup_delete_ne by done; apply (Hnx0 lru_head)
      |rewrite lookup_delete_ne by done; apply (Hnx0 lru_tail)|].
    rewrite !lookup_delete_is_Some. pose proof (Hnx0 (lru_entry b)) as Hb. cbn in Hb. naive_solver.
  - intros b. rewrite Hord. split.
    + intros (x & Hx & Hxl). exists x. split; [|done]. rewrite lookup_delete_ne; [done|]. intros <-. congruence.
    + intros (x & [_ Hx]%lookup_delete_Some & Hxl). by exists x.
  - intros k b Hkb. destruct (Hhas k b Hkb) as (x & y & Hx & ? & ?). exists x, y. cbn. rewrite lookup_delete_ne; [done|].
    intros <-. apply Hk, list_elem_of_fmap. by exists (k, a).
  - intros b x [_ Hx]%lookup_delete_Some. by apply Hsz0.
  - intros b x [Hab Hx]%lookup_delete_Some HDb. specialize (Hen b x Hx HDb). cbn [at_entry] in Hen.
    rewrite decide_False in Hen; [done|]. cbn. congruence.
  - intros t b Ht Htb. assert (b <> a) as Hba.
    { intros ->. assert (t ∈ at_entry a T) as Hin by by apply at_entry_in. by rewrite Hnil in Hin; apply not_elem_of_nil in Hin. }
    rewrite lookup_delete_ne by done. apply (Htok t); [by right|done].
Qed.

Lemma wp_entry_free D sh K order T a m F (Q : ccache_shard -> mem -> Prop) : seg_inv D sh K order (TFree a :: T) m F -> D <> Some a ->
  (forall m', seg_inv D (without a sh) K order T m' F -> Q (without a sh) m') ->
  wp (entry_free sh a) m Q.
Proof.
  intros Hi HD HQ. open_inv Hi. destruct (Htok (TFree a) a) as [e He]; [by left|done|].
  pose proof (Hen a e He HD) as Hok. cbn [at_entry] in Hok. rewrite decide_True in Hok by done.
  destruct (free_token _ _ _ _ Hok) as (_ & _ & Hc & _).
  assert (beside (map sh) K m (id_of (e_key e) ++ id_of (value e) ++ a :: sh_blk sh :: entry_blocks (delete a (entries sh)) ++ token_blocks T) F) as Hb.
  { eapply beside_perm; [exact Hmem|]. cbn [token_blocks omap list_omap block_of].
    rewrite (entry_blocks_delete _ _ _ He). unfold blocks_of_entry. solve_Permutation. }
  unfold entry_free. apply wp_bind, (wp_entry_at _ _ e); [done|].
  apply wp_bind, (wp_free_buffer _ _ _ _ _ _ _ Hb). intros m1 Hb1.
  apply wp_bind, (wp_free_buffer _ _ _ _ _ _ _ Hb1). intros m2 Hb2.
  apply wp_bind. rewrite decide_True by done. apply wp_ret, wp_bind.
  eapply (wp_free_beside_block secret Hsecret kt); [exact Hb2|]. intros m3 Hb3. apply wp_ret, HQ. by eapply inv_without.
Qed.

(** ** A new entry *)
Definition with_fresh a sh : ccache_shard :=
  set_next (<[lru_entry a := None]> (next sh)) (set_prev (<[lru_entry a := None]> (prev sh))
    (set_entries (<[a := fresh_entry]> (entries sh)) sh)).

Lemma in_entry_blocks es a e : es !! a = Some e -> a ∈ entry_blocks es.
Proof. intros H. rewrite (entry_blocks_delete _ _ _ H). by left. Qed.

Lemma wp_entry_alloc ok D sh K order T m F (Q : option nat * ccache_shard -> mem -> Prop) : seg_inv D sh K order T m F ->
  (forall b, D = Some b -> is_Some (entries sh !! b)) ->
  (forall m', seg_inv D sh K order T m' F -> Q (None, sh) m') ->
  (forall a m', seg_inv D (with_fresh a sh) K order (TFree a :: T) m' F -> (a ∉ K.*2) -> entries sh !! a = None ->
     Q (Some a, with_fresh a sh) m') ->
  wp (entry_alloc ok sh) m Q.
Proof.
  intros Hi HD HN HS. open_inv Hi. unfold entry_alloc. apply wp_bind.
  eapply (wp_entry_calloc secret Hsecret kt); [exact Hmem| |].
  { intros m' Hb. apply wp_ret, HN. by constructor. }
  intros b m' Hb [n0 Hg]. destruct ok; cbn [negb].
  2: { apply wp_bind. eapply (wp_free_beside_block secret Hsecret kt); [exact Hb|]. intros m2 Hb2. apply wp_ret, HN. by constructor. }
  apply wp_ret. set (a := b_id b) in *. pose proof Hb as (_ & [Hfresh _]%NoDup_cons & _).
  rewrite elem_of_cons, elem_of_app in Hfresh.
  assert (Hnone : entries sh !! a = None).
  { destruct (entries sh !! a) as [e|] eqn:E; [|done]. apply in_entry_blocks in E. naive_solver. }
  assert (Hk : a ∉ K.*2).
  { intros ([k a'] & Ea & Hin)%list_elem_of_fmap. cbn in Ea. subst a'. destruct (Hhas k a Hin) as (x & y & Hx & _). congruence. }
  assert (HT : at_entry a T = []).
  { destruct (at_entry a T) as [|t T'] eqn:E; [done|exfalso]. assert (t ∈ at_entry a T) as Ht by (rewrite E; by left).
    apply at_entry_in in Ht as [Ht Hta]. destruct (Htok t a Ht Hta). congruence. }
  apply HS; [|done|done]. constructor; cbn; try done.
  - unfold linked_sh. eapply linked_ext_all; [exact Hlk| |]; intros z Hz; apply lookup_insert_ne; intros <-;
      apply ring_entry, Hord in Hz as (x & ? & _); congruence.
  - intros n. rewrite lookup_insert_is_Some. destruct n as [| |x]; cbn; [by rewrite (Hpv0 lru_head); cbn; split; auto
      |by rewrite (Hpv0 lru_tail); cbn; split; auto|].
    rewrite lookup_insert_is_Some. pose proof (Hpv0 (lru_entry x)) as Hx. cbn in Hx. naive_solver.
  - intros n. rewrite lookup_insert_is_Some. destruct n as [| |x]; cbn; [by rewrite (Hnx0 lru_head); cbn; split; auto
      |by rewrite (Hnx0 lru_tail); cbn; split; auto|].
    rewrite lookup_insert_is_Some. pose proof (Hnx0 (lru_entry x)) as Hx. cbn in Hx. naive_solver.
  - intros x. rewrite Hord. split.
    + intros (e & He & Hl). exists e. split; [|done]. rewrite lookup_insert_ne; [done|]. intros <-. congruence.
    + intros (e & [[<- <-]|[_ He]]%lookup_insert_Some & Hl); [done|by exists e].
  - intros k x Hkx. destruct (Hhas k x Hkx) as (e & y & He & ? & ?). exists e, y. cbn. rewrite lookup_insert_ne; [done|].
    intros <-. congruence.
  - intros x e [[<- <-]|[_ He]]%lookup_insert_Some; [|by apply Hsz0]. constructor; [done|done|by eapply Hspace].
  - intros x e [[<- <-]|[Hx He]]%lookup_insert_Some HDx.
    + rewrite decide_True by done. rewrite HT. constructor; cbn.
      * done.
      * set_solver.
      * by left.
      * done.
      * done.
      * intros _ _. by constructor.
    + rewrite decide_False by (cbn; congruence). by apply Hen.
  - intros t x [->|Ht]%elem_of_cons Hx.
    + injection Hx as <-. by rewrite lookup_insert_eq.
    + rewrite lookup_insert_is_Some'. right. by apply (Htok t).
  - eapply beside_perm; [exact Hb|]. rewrite entry_blocks_insert by done. cbn. solve_Permutation.
Qed.
End Prims.
