(* ===== verification/CLruEvict.v ===== *)
(** * Eviction ([src/clrucache.c])

    The eviction of the last entry of the order and the loop that makes room,
    each with what it does to the invariant, to the contents and to what the
    eviction callback was given. *)
From S2P Require Import Prelude Memory Values CHash COaMap CHashMap CHashMapRefine CHashMapIter.
From S2P Require Import CLruCache CLruSpec CLruSegment CLruOrder CLruInv CLruPrims.
Import CHashMap.
Import LruCache.

Section Evict.
Context (secret : chmap_hash_secret) (kt : ccol_data_type).
Implicit Types (sh : ccache_shard) (a : nat) (e : ccache_entry) (k : list Z) (K : list (list Z * nat)) (order : list nat)
  (T : list token) (F : gset nat) (D : option nat).
Local Abbreviation seg_inv := (seg_inv secret kt).
Local Abbreviation beside := (beside secret kt).

(** ** Live entries *)
Lemma keys_split K k a : (k, a) ∈ K -> NoDup K.*2 -> exists K1 K2, K = K1 ++ (k, a) :: K2 /\ (a ∉ (K1 ++ K2).*2).
Proof.
  intros (K1 & K2 & ->)%list_elem_of_split Hd. exists K1, K2. split; [done|]. rewrite fmap_app in *.
  cbn [fmap list_fmap snd] in Hd. fold (fmap (M := list) (@snd (list Z) nat)) in *.
  apply NoDup_app in Hd as (_ & H1 & [H2 _]%NoDup_cons).
  intros [H|H]%elem_of_app; [|done]. apply (H1 _ H). by left.
Qed.

Lemma keys_without K1 k a K2 : NoDup (K1 ++ (k, a) :: K2).*2 -> NoDup (K1 ++ K2).*2 /\
  (forall b, b <> a -> b ∈ (K1 ++ K2).*2 <-> b ∈ (K1 ++ (k, a) :: K2).*2) /\
  (forall p, p ∈ K1 ++ K2 -> p ∈ K1 ++ (k, a) :: K2).
Proof.
  rewrite !fmap_app. cbn [fmap list_fmap snd]. fold (fmap (M := list) (@snd (list Z) nat)). intros Hd.
  split; [|split; [set_solver|set_solver]].
  apply NoDup_app in Hd as (H1 & H2 & [H3 H4]%NoDup_cons). apply NoDup_app. split; [done|]. split; [|done].
  intros x Hx. specialize (H2 x Hx). set_solver.
Qed.

(** A live entry is in the map. *)
Lemma live_published there T a e : entry_ok there T a e -> in_lru e = true -> ~ ~ there.
Proof.
  intros H Hl Ht. destruct (evicted e) eqn:E.
  - destruct (en_evicted _ _ _ _ H Ht E). congruence.
  - destruct (en_private _ _ _ _ H Ht E). congruence.
Qed.

Lemma inv_live D sh K order T m F a : seg_inv D sh K order T m F -> D <> Some a -> a ∈ order ->
  exists e kb vb, entries sh !! a = Some e /\ in_lru e = true /\ e_key e = Some kb /\ value e = Some vb /\
    (b_bytes kb, a) ∈ K /\ entry_ok (a ∈ K.*2) (at_entry a T) a e /\ published_ok (at_entry a T) e.
Proof.
  intros Hi HD Ha. open_inv Hi. apply Hord in Ha as (e & He & Hl). pose proof (Hen a e He HD) as Hok.
  destruct (decide (a ∈ K.*2)) as [Hin|Hnin]; [|by destruct (live_published _ _ _ _ Hok Hl)].
  pose proof (en_published _ _ _ _ Hok Hin) as Hp. pose proof (po_state _ _ Hp) as Hst. rewrite Hl in Hst.
  destruct Hst as [[vb Hv] _]. pose proof Hin as ([k b] & Eb & Hka)%list_elem_of_fmap. cbn in Eb. subst b.
  destruct (Hhas k a Hka) as (x & kb & Hx & Ek & Ebk). rewrite He in Hx. injection Hx as <-. subst k.
  by exists e, kb, vb.
Qed.

Lemma lru_content_app sh o1 o2 : content sh (o1 ++ o2) = content sh o1 ++ content sh o2.
Proof. apply omap_app. Qed.

Lemma live_pair D sh K order T m F a : seg_inv D sh K order T m F -> D <> Some a -> a ∈ order ->
  exists e p, entries sh !! a = Some e /\ entry_pair e = Some p /\ content sh [a] = [p].
Proof.
  intros Hi HD Ha. destruct (inv_live _ _ _ _ _ _ _ a Hi HD Ha) as (e & kb & vb & He & _ & Ek & Ev & _).
  exists e, (b_bytes kb, b_bytes vb). unfold content, entry_pair. cbn. rewrite He. cbn. unfold entry_pair. by rewrite Ek, Ev.
Qed.

Lemma lru_content_len D sh K order T m F o : seg_inv D sh K order T m F -> (forall a, D = Some a -> a ∉ order) ->
  (forall a, a ∈ o -> a ∈ order) -> zlen (content sh o) = zlen o.
Proof.
  intros Hi HD. induction o as [|a o IH]; intros Ho; [done|]. change (a :: o) with ([a] ++ o). rewrite lru_content_app.
  destruct (live_pair _ _ _ _ _ _ _ a Hi) as (e & p & _ & _ & E); [intros H; apply (HD a H), Ho; by left|apply Ho; by left|].
  rewrite E, !zlen_app, IH by set_solver. done.
Qed.

Context {alloc : Allocator} (Hspace : forall (b : nat) n, grant b n = true -> Z.of_nat b < two64) (Hsecret : secret_ok secret).

(** ** The callback *)
Definition fixed sh := (sh_blk sh, sh_capacity sh, remote_getter sh, remote_setter sh, eviction_cb sh).

Lemma set_reported_same sh : set_reported (reported sh) sh = sh.
Proof. by destruct sh. Qed.

Lemma wp_buffer_bytes b n m (Q : list Z -> mem -> Prop) : n = zlen (b_bytes b) -> Q (b_bytes b) m ->
  wp (buffer_bytes (Some b) n) m Q.
Proof.
  intros -> HQ. unfold buffer_bytes. apply wp_bind, wp_ret. zlen_facts. apply wp_read_bytes; [done|done|lia|].
  unfold slice. by rewrite zdrop_0, ztake_all.
Qed.

Definition reports sh e : list (list Z * list Z) :=
  if eviction_cb sh then option_list (entry_pair e) else [].

Lemma wp_report sh a e kb vb m (Q : ccache_shard -> mem -> Prop) : entries sh !! a = Some e -> sizes_ok a e ->
  e_key e = Some kb -> value e = Some vb -> Q (set_reported (reported sh ++ reports sh e) sh) m -> wp (report sh a) m Q.
Proof.
  intros He [Hk Hv _] Ek Ev HQ. unfold report, reports, entry_pair in *. rewrite Ek, Ev in *. cbn in Hk, Hv, HQ.
  apply wp_bind, (wp_entry_at _ _ e); [done|]. rewrite Ev. destruct (eviction_cb sh).
  - rewrite Ek. apply wp_bind, wp_buffer_bytes; [done|]. apply wp_bind, wp_buffer_bytes; [done|]. by apply wp_ret.
  - rewrite app_nil_r, set_reported_same in HQ. by apply wp_ret.
Qed.

Lemma wp_map_remove sh K m X F a e kb (Q : ccache_shard -> mem -> Prop) : keys_ok kt K -> NoDup K.*2 ->
  (b_bytes kb, a) ∈ K -> entries sh !! a = Some e -> e_key e = Some kb -> sizes_ok a e -> beside (map sh) K m X F ->
  (forall K1 K2 chm m', K = K1 ++ (b_bytes kb, a) :: K2 -> (a ∉ (K1 ++ K2).*2) ->
     beside chm (K1 ++ K2) m' X F -> Q (set_map chm sh) m') ->
  wp (map_remove secret sh a) m Q.
Proof.
  intros Hko Hkd Hin He Hk Hsz Hb HQ. destruct (keys_split _ _ _ Hin Hkd) as (K1 & K2 & -> & Hn).
  unfold map_remove. apply wp_bind, (wp_entry_at _ _ e); [done|]. rewrite Hk. apply wp_bind, wp_buffer_bytes.
  { pose proof (so_key _ _ Hsz) as H. by rewrite Hk in H. }
  apply wp_bind. eapply (wp_map_delete secret Hsecret kt); [exact Hb|done|].
  intros r chm m' Hb'. apply wp_bind, wp_ret, wp_ret. by apply (HQ K1 K2).
Qed.

(** ** One eviction *)

(** What an eviction of [v], the last of [o ++ [v]], leaves. *)
Record evicted_last D sh K o v T F sh' K' m' : Prop := EvictedLast {
  el_inv : seg_inv D sh' K' o T m' F;
  el_entries : forall b, b <> v -> entries sh' !! b = entries sh !! b;
  el_key : forall e e', entries sh !! v = Some e -> entries sh' !! v = Some e' -> e_key e' = e_key e;
  el_keys : forall b, b <> v -> b ∈ K'.*2 <-> b ∈ K.*2;
  el_sub : forall p, p ∈ K' -> p ∈ K;
  el_reported : exists e, entries sh !! v = Some e /\ reported sh' = reported sh ++ reports sh e;
  el_fixed : fixed sh' = fixed sh;
}.

Section Victim.
Variables (D : option nat) (sh : ccache_shard) (K : list (list Z * nat)) (o : list nat) (v : nat) (T : list token)
  (m : mem) (F : gset nat) (e : ccache_entry) (kb vb : block) (pv nx : nodes).
Hypothesis Hi : seg_inv D sh K (o ++ [v]) T m F.
Hypothesis HD : D <> Some v.
Hypothesis He : entries sh !! v = Some e.
Hypothesis Hl : in_lru e = true.
Hypothesis Ek : e_key e = Some kb.
Hypothesis Ev : value e = Some vb.
Hypothesis Hka : (b_bytes kb, v) ∈ K.
Hypothesis Hok : entry_ok (v ∈ K.*2) (at_entry v T) v e.
Hypothesis Hp : published_ok (at_entry v T) e.
Hypothesis Hlinks : linked pv nx (ring o).
Hypothesis Hpv : same_nodes (prev sh) pv.
Hypothesis Hnx : same_nodes (next sh) nx.

Definition victim_sh chm e' : ccache_shard :=
  CacheShard (sh_blk sh) chm (<[v := e']> (entries sh)) pv nx (sh_capacity sh) (zlen o) (remote_getter sh)
    (remote_setter sh) (eviction_cb sh) (reported sh ++ reports sh e).

Lemma victim_order : NoDup o /\ (v ∉ o) /\ zlen o + 1 = sh_size sh /\ zlen o + 1 <= sh_capacity sh.
Proof.
  open_inv Hi. destruct Hsize as [Esz Hlen]. rewrite zlen_app in Esz, Hlen. change (zlen [v]) with 1 in *.
  apply NoDup_app in Hnd as (Hndo & Hvo & _). split; [done|]. split; [intros H; apply (Hvo v H); by left|]. lia.
Qed.

Lemma victim_inv chm K' T' m' e' : sizes_ok v e' -> in_lru e' = false -> e_key e' = e_key e -> others_same v T T' ->
  keys_ok kt K' -> NoDup K'.*2 -> (forall p, p ∈ K' -> p ∈ K) -> (forall b, b <> v -> b ∈ K'.*2 <-> b ∈ K.*2) ->
  entry_ok (v ∈ K'.*2) (at_entry v T') v e' ->
  beside chm K' m' (sh_blk sh :: entry_blocks (<[v := e']> (entries sh)) ++ token_blocks T') F ->
  seg_inv D (victim_sh chm e') K' o T' m' F.
Proof.
  intros Hsz' Hl' Hk' HT Hko Hkd Hsub Hin Hok' Hm. pose proof victim_order as (Hndo & Hvo & _ & Hlen). open_inv Hi.
  apply (inv_change secret kt D D sh K (o ++ [v]) T T' m F v e e' Hi He); try done.
  - lia.
  - intros b Hb. set_solver.
  - rewrite Hl'. by split.
  - intros k b Hkb _. by apply Hsub.
  - intros k Hk%Hsub. destruct (Hhas k v Hk) as (x & y & Hx & Hy & Hz). rewrite He in Hx. injection Hx as <-.
    exists y. by rewrite Hk'.
Qed.

(** With a set in progress it stays in the map, as a placeholder. *)
Lemma victim_kept m' : set_in_progress e = true ->
  let e' := set_value None 0 (set_in_lru false e) in
  beside (map sh) K m' (sh_blk sh :: entry_blocks (<[v := e']> (entries sh)) ++ token_blocks T) F ->
  evicted_last D sh K o v T F (victim_sh (map sh) e') K m'.
Proof.
  intros Esp e' Hb. open_inv Hi. destruct Hok as [Hw Hc Hwk _ _ _]. destruct Hp as [Hpf Hpe Hpff Hpt Hps Hpst].
  rewrite Hl in Hpst. destruct Hpst as [_ Hff]. destruct Hkeys. constructor; try done.
  - apply victim_inv; try done; try apply others_same_refl.
    + constructor; [apply (Hsz0 v e He)|done|apply (Hsz0 v e He)].
    + constructor; cbn; [done|done| | |intros _ ?; congruence|].
      * right. unfold in_progress. cbn. by rewrite Esp, orb_true_r.
      * intros _. constructor; cbn; try done. split; [done|]. by rewrite Hff, Esp.
      * intros Hn. exfalso. apply Hn, list_elem_of_fmap. by exists (b_bytes kb, v).
  - intros b Hb2. cbn. by rewrite lookup_insert_ne.
  - intros x x'. cbn. rewrite He, lookup_insert_eq. by intros [= <-] [= <-].
  - by exists e.
Qed.

(** Without one it leaves the map; whoever is last to hold it frees it, which
    is the eviction if nobody holds it. *)
Lemma victim_dropped K1 K2 chm m' : set_in_progress e = false -> K = K1 ++ (b_bytes kb, v) :: K2 -> (v ∉ (K1 ++ K2).*2) ->
  let e' := set_cond ∅ (set_evicted true (set_in_lru false e)) in
  let T' := if waiters e =? 0 then TFree v :: T else T in
  beside chm (K1 ++ K2) m' (sh_blk sh :: entry_blocks (entries sh) ++ token_blocks T) F ->
  seg_inv D (victim_sh chm e') (K1 ++ K2) o T' m' F.
Proof.
  intros Esp EK Hn e' T' Hb. open_inv Hi. destruct Hok as [Hw _ _ _ _ _]. destruct Hp as [Hpf _ _ Hpt Hps Hpst].
  rewrite Hl in Hpst. destruct Hpst as [_ Hff]. destruct Hkeys as [Hko Hkd]. rewrite EK in Hko, Hkd.
  destruct (keys_without _ _ _ _ Hkd) as (Hkd' & Hin & Hsub). rewrite <- EK in Hin, Hsub.
  apply victim_inv; try done.
  - constructor; apply (Hsz0 v e He).
  - unfold T'. destruct (waiters e =? 0); [|by apply others_same_refl].
    apply (others_same_app v [] [TFree v] T). intros t ->%list_elem_of_singleton. by left.
  - by eapply keys_ok_remove.
  - constructor; cbn; try done.
    + unfold T'. destruct (waiters e =? 0); [|done]. by rewrite count_at_entry_cons.
    + set_solver.
    + intros _ _. rewrite Hff in Hpt. rewrite Esp in Hps. cbn in Hpt, Hps. unfold T'. constructor; cbn; try done.
      * destruct (waiters e =? 0); rewrite ?count_at_entry_cons by done; cbn; split; lia.
      * destruct (waiters e =? 0); rewrite ?count_at_entry_cons by done; cbn; lia.
  - eapply beside_perm; [exact Hb|]. apply Permutation_skip.
    rewrite entry_blocks_update, (entry_blocks_delete _ _ _ He).
    replace (token_blocks T') with (token_blocks T) by (unfold T'; by destruct (waiters e =? 0)). done.
Qed.
End Victim.

Lemma wp_victim_leaves D sh K o v T m F e kb vb pv nx (Q : bool * ccache_shard -> mem -> Prop) :
  seg_inv D sh K (o ++ [v]) T m F -> D <> Some v -> entries sh !! v = Some e -> in_lru e = true -> e_key e = Some kb ->
  value e = Some vb -> (b_bytes kb, v) ∈ K -> entry_ok (v ∈ K.*2) (at_entry v T) v e -> published_ok (at_entry v T) e ->
  linked pv nx (ring o) -> same_nodes (prev sh) pv -> same_nodes (next sh) nx -> set_in_progress e = false ->
  (forall sh' K' m', evicted_last D sh K o v T F sh' K' m' -> Q (true, sh') m') ->
  wp (sh ← map_remove secret (victim_sh sh o v e pv nx (map sh) (set_in_lru false e)) v;
      sh ← update_entry v (set_evicted true) sh;
      sh ← _ccol_cond_var_broadcast v sh;
      e ← entry_at sh v;
      if waiters e =? 0 then sh ← entry_free sh v; mret (true, sh) else mret (true, sh)) m Q.
Proof.
  intros Hi HD He Hl Ek Ev Hka Hok Hp Hlinks Hpv Hnx Esp HQ. open_inv Hi. pose proof (Hsz0 v e He) as Hsz.
  destruct Hkeys as [Hko Hkd].
  apply wp_bind. eapply wp_map_remove; [done|done|exact Hka|cbn; by rewrite lookup_insert_eq|done|constructor; apply Hsz|exact Hmem|].
  intros K1 K2 chm m' EK Hn Hb.
  apply wp_bind. eapply wp_update_entry; [cbn; by rewrite lookup_insert_eq|].
  apply wp_bind. eapply wp_update_entry; [cbn; by rewrite lookup_insert_eq|].
  set (e' := set_cond ∅ (set_evicted true (set_in_lru false e))).
  match goal with |- wp (e ← entry_at ?s v; _) _ _ => replace s with (victim_sh sh o v e pv nx chm e') end.
  2: { unfold victim_sh, set_entries, set_map. cbn. by rewrite !insert_insert_eq. }
  pose proof (victim_dropped D sh K o v T m F e kb vb pv nx Hi HD He Hl Ek Ev Hka Hok Hp Hlinks Hpv Hnx K1 K2 chm m' Esp EK Hn Hb) as Hi'.
  cbn zeta in Hi'. fold e' in Hi'.
  rewrite EK in Hkd. destruct (keys_without _ _ _ _ Hkd) as (_ & Hin & Hsub). rewrite <- EK in Hin, Hsub.
  apply wp_bind, (wp_entry_at _ _ e'); [cbn; by rewrite lookup_insert_eq|].
  change (waiters e') with (waiters e). destruct (waiters e =? 0).
  - apply wp_bind. eapply (wp_entry_free Hspace secret Hsecret kt); [exact Hi'|done|]. intros m2 Hi2. apply wp_ret.
    eapply HQ. constructor; [exact Hi2| | |done|done|by exists e|done].
    + intros b Hb2. cbn. by rewrite lookup_delete_ne, lookup_insert_ne by done.
    + intros x x'. cbn. by rewrite lookup_delete_eq.
  - apply wp_ret. eapply HQ. constructor; [exact Hi'| | |done|done|by exists e|done].
    + intros b Hb2. cbn. by rewrite lookup_insert_ne by done.
    + intros x x'. cbn. rewrite He, lookup_insert_eq. by intros [= <-] [= <-].
Qed.

Lemma wp_evict_lru D sh K order T m F (Q : bool * ccache_shard -> mem -> Prop) : seg_inv D sh K order T m F ->
  (forall a, D = Some a -> a ∉ order) ->
  (order = [] -> Q (false, sh) m) ->
  (forall o v sh' K' m', order = o ++ [v] -> evicted_last D sh K o v T F sh' K' m' -> Q (true, sh') m') ->
  wp (evict_lru secret sh) m Q.
Proof.
  intros Hi HD HN HS. open_inv Hi. unfold evict_lru. apply wp_bind. pose proof (ring_last _ _ Hlk) as Hlast.
  eapply wp_prev_at; [exact Hlast|]. destruct (decide (order = [])) as [E|Hne].
  { rewrite E. cbn. by apply wp_ret, HN. }
  destruct (exists_last Hne) as (o & v & E). subst order. rewrite last_snoc.
  assert (v ∈ o ++ [v]) as Hv by set_solver.
  assert (D <> Some v) as HDv by (intros H; by apply (HD v H)).
  destruct (inv_live _ _ _ _ _ _ _ v Hi HDv Hv) as (e & kb & vb & He & Hl & Ek & Ev & Hka & Hok & Hp).
  destruct (victim_order D sh K o v T m F Hi) as (Hndo & Hvo & Esz & Hlen). pose proof (zlen_nonneg o) as Ho0.
  apply wp_bind, (wp_report _ _ e kb vb); [done..|by apply Hsz0|done|done|]. apply wp_bind.
  eapply (wp_lru_remove _ o v []); [exact Hlk|exact Hnd|exact He|done|]. rewrite app_nil_r. intros pv nx Hl1 Hpv Hnx.
  assert (sh_size sh ⊖ 1 = zlen o) as Esz' by (rewrite <- Esz; sz; lia).
  apply wp_bind, (wp_entry_at _ _ (set_in_lru false e)); [cbn; by rewrite lookup_insert_eq|]. cbn [set_in_progress set_in_lru].
  change (sh_size (relinked _ _ _ _ _)) with (sh_size sh). rewrite Esz'.
  change (set_sh_size (zlen o) _) with (victim_sh sh o v e pv nx (map sh) (set_in_lru false e)).
  destruct (set_in_progress e) eqn:Esp; [|by eapply wp_victim_leaves; eauto].
  apply wp_bind. cbn [value set_in_lru]. rewrite Ev. set (e' := set_value None 0 (set_in_lru false e)).
  assert (beside (map sh) K m (id_of (Some vb) ++ sh_blk sh :: entry_blocks (<[v := e']> (entries sh)) ++ token_blocks T) F) as Hb.
  { eapply beside_perm; [exact Hmem|]. rewrite entry_blocks_update, (entry_blocks_delete _ _ _ He).
    unfold blocks_of_entry. cbn. rewrite Ev. cbn. solve_Permutation. }
  eapply (wp_free_buffer secret Hsecret kt); [exact Hb|]. intros m' Hb'.
  apply wp_bind. eapply wp_update_entry; [cbn; by rewrite lookup_insert_eq|]. apply wp_ret.
  match goal with |- Q (true, ?s) _ => replace s with (victim_sh sh o v e pv nx (map sh) e') end.
  2: { unfold victim_sh, set_entries. cbn. by rewrite insert_insert_eq. }
  eapply (HS o v); [done|]. by eapply (victim_kept D sh K o v T m F e kb).
Qed.

(** ** Room for one more *)

(** Where both have an entry, a key it has stays. *)
Definition keys_stay sh sh' : Prop := forall b e e' kb, entries sh !! b = Some e -> entries sh' !! b = Some e' ->
  e_key e = Some kb -> e_key e' = Some kb.

Definition told sh (l : list (list Z * list Z)) : list (list Z * list Z) := if eviction_cb sh then l else [].

Record made_room D sh K order T F sh' K' m' : Prop := MadeRoom {
  mr_inv : seg_inv D sh' K' (spare (sh_capacity sh) order) T m' F;
  mr_entries : forall b, b ∉ spent (sh_capacity sh) order -> entries sh' !! b = entries sh !! b;
  mr_stay : keys_stay sh sh';
  mr_keys : forall b, b ∉ spent (sh_capacity sh) order -> b ∈ K'.*2 <-> b ∈ K.*2;
  mr_sub : forall p, p ∈ K' -> p ∈ K;
  mr_content : content sh' (spare (sh_capacity sh) order) = spare (sh_capacity sh) (content sh order);
  mr_reported : reported sh' = reported sh ++ told sh (spent (sh_capacity sh) (content sh order));
  mr_fixed : fixed sh' = fixed sh;
}.

Lemma made_room_already D sh K order T m F : seg_inv D sh K order T m F -> (forall a, D = Some a -> a ∉ order) ->
  zlen order < sh_capacity sh -> made_room D sh K order T F sh K m.
Proof.
  intros Hi HD Hlt. pose proof (lru_content_len _ _ _ _ _ _ _ order Hi HD ltac:(done)) as Hc.
  assert (spent (sh_capacity sh) (content sh order) = []) as Ed by (unfold spent; rewrite zdrop_all; [done|lia]).
  constructor; unfold spare; rewrite ?Ed, ?ztake_all by lia; try done.
  - intros b e e' kb H1 H2. congruence.
  - unfold told. destruct (eviction_cb sh); by rewrite app_nil_r.
Qed.

Lemma made_room_evicted D sh K o v T m F sh' K' m' : seg_inv D sh K (o ++ [v]) T m F ->
  (forall a, D = Some a -> a ∉ o ++ [v]) -> sh_capacity sh = zlen o + 1 ->
  evicted_last D sh K o v T F sh' K' m' -> made_room D sh K (o ++ [v]) T F sh' K' m'.
Proof.
  intros Hi HD Hcap [E1 E2 E3 E4 E5 E6 E7].
  destruct (live_pair _ _ _ _ _ _ _ v Hi) as (e & p & He & Ep & Ec); [intros H; apply (HD v H); set_solver|set_solver|].
  pose proof (lru_content_len _ _ _ _ _ _ _ o Hi HD ltac:(set_solver)) as Hc.
  assert (spare (sh_capacity sh) (o ++ [v]) = o) as Eo by (apply ztake_app_exact; lia).
  assert (spent (sh_capacity sh) (o ++ [v]) = [v]) as Ev by (apply zdrop_app_exact; lia).
  destruct (victim_order _ _ _ _ _ _ _ _ Hi) as (_ & Hvo & _).
  constructor; rewrite ?Eo, ?Ev; try done.
  - intros b Hb. apply E2. set_solver.
  - intros b x x' kb Hx Hx' Hk. destruct (decide (b = v)) as [->|Hb]; [rewrite <- Hk; by apply (E3 x x')|].
    rewrite E2, Hx in Hx' by done. by injection Hx' as <-.
  - intros b Hb. apply E4. set_solver.
  - rewrite lru_content_app. unfold spare. rewrite ztake_app_exact by lia. apply lru_content_ext. intros a Ha. apply E2. by intros ->.
  - rewrite lru_content_app, Ec. unfold spent. rewrite zdrop_app_exact by lia. destruct E6 as (x & Hx & ->).
    rewrite He in Hx. injection Hx as <-. unfold reports, told. by rewrite Ep.
Qed.

Lemma wp_lru_make_room D sh K order T m F (Q : ccache_shard -> mem -> Prop) : seg_inv D sh K order T m F ->
  (forall a, D = Some a -> a ∉ order) ->
  (forall sh' K' m', made_room D sh K order T F sh' K' m' -> Q sh' m') -> wp (make_room secret sh) m Q.
Proof.
  intros Hi HD HQ. open_inv Hi. destruct Hsize as [Esz Hle]. unfold make_room. cbn [loop]. apply wp_bind.
  rewrite Z.geb_leb. destruct (Z.leb_spec (sh_capacity sh) (sh_size sh)) as [Hfull|Hroom].
  2: { apply wp_ret, wp_ret, (HQ sh K m), made_room_already; [done..|lia]. }
  apply wp_bind. eapply wp_evict_lru; [exact Hi|done| |].
  { intros ->. change (zlen []) with 0 in *. lia. }
  intros o v sh' K' m' -> Hev. apply wp_ret. cbn beta iota.
  destruct (Z.to_nat (sh_size sh)) as [|n] eqn:En; [pose proof (zlen_nonneg o); lia|]. cbn [loop]. apply wp_bind.
  pose proof (si_size _ _ _ _ _ _ _ _ _ (el_inv _ _ _ _ _ _ _ _ _ _ Hev)) as [Esz' _].
  pose proof (el_fixed _ _ _ _ _ _ _ _ _ _ Hev) as Hfix. unfold fixed in Hfix. injection Hfix as _ Hc _ _ _.
  rewrite zlen_app in *. change (zlen [v]) with 1 in *. rewrite Z.geb_leb.
  destruct (Z.leb_spec (sh_capacity sh') (sh_size sh')); [lia|]. apply wp_ret, wp_ret. eapply HQ.
  eapply made_room_evicted; [exact Hi|done|lia|exact Hev].
Qed.
End Evict.
