(* ===== verification/CLruOpen.v ===== *)
(** * Inside a critical section ([src/clrucache.c])

    The running thread has one entry open: what must hold of it is put off to
    the end of the section.  The steps that sections are made of, on an open
    entry. *)
From S2P Require Import Prelude Memory Values CHash COaMap CHashMap CHashMapRefine CHashMapIter.
From S2P Require Import CLruCache CLruSpec CLruSegment CLruOrder CLruInv CLruPrims CLruEvict.
Import CHashMap.
Import LruCache.

Section Open.
Context {alloc : Allocator} (Hspace : forall k n, grant k n = true -> Z.of_nat k < two64).
Context (secret : chmap_hash_secret) (Hsecret : secret_ok secret) (kt : ccol_data_type).
Implicit Types (sh : ccache_shard) (a : nat) (e : ccache_entry) (k : list Z) (K : list (list Z * nat)) (order : list nat)
  (T : list token) (F : gset nat) (D : option nat).
Local Abbreviation seg_inv := (seg_inv secret kt).
Local Abbreviation beside := (beside secret kt).

(** ** Open and close *)
Lemma inv_open sh K order T m F a : seg_inv None sh K order T m F -> seg_inv (Some a) sh K order T m F.
Proof. intros H. open_inv H. constructor; try done. intros b e He _. by apply Hen. Qed.

Lemma inv_close sh K order T m F a e : seg_inv (Some a) sh K order T m F -> entries sh !! a = Some e ->
  entry_ok (a ∈ K.*2) (at_entry a T) a e -> seg_inv None sh K order T m F.
Proof.
  intros H He Hok. open_inv H. constructor; try done. intros b x Hx _.
  destruct (decide (b = a)) as [->|Hb]; [by rewrite He in Hx; injection Hx as <-|]. apply Hen; [done|congruence].
Qed.

(** The tokens about the open entry are free to change. *)
Lemma inv_tokens sh K order T T' m F a : seg_inv (Some a) sh K order T m F -> is_Some (entries sh !! a) ->
  others_same a T T' -> token_blocks T' ≡ₚ token_blocks T -> seg_inv (Some a) sh K order T' m F.
Proof.
  intros H Ha HT Hb. open_inv H. constructor; try done.
  - intros b x Hx HD. assert (b <> a) as Hne by congruence.
    eapply entry_ok_tokens; [done|symmetry; by apply HT|by apply Hen].
  - intros t b Ht Htb. destruct (decide (b = a)) as [->|Hne]; [done|].
    pose proof (about_entry_in b t T' Ht Htb) as Hat. rewrite (HT b Hne) in Hat. apply at_entry_in in Hat as [Hat _].
    by apply (Htok t b).
  - eapply beside_perm; [exact Hmem|]. by rewrite Hb.
Qed.

Lemma inv_take sh K order T m F a t : seg_inv (Some a) sh K order T m F -> is_Some (entries sh !! a) -> about t = Some a ->
  seg_inv (Some a) sh K order (t :: T) m F.
Proof.
  intros H Ha Ht. eapply inv_tokens; [done..| |].
  - apply (others_same_app a [] [t] T). intros u ->%list_elem_of_singleton. by left.
  - destruct t; try done; discriminate Ht.
Qed.
Lemma inv_drop sh K order T m F a t : seg_inv (Some a) sh K order (t :: T) m F -> is_Some (entries sh !! a) -> about t = Some a ->
  seg_inv (Some a) sh K order T m F.
Proof.
  intros H Ha Ht. eapply inv_tokens; [done..| |].
  - apply (others_same_app a [t] [] T). intros u ->%list_elem_of_singleton. by left.
  - destruct t; try done; discriminate Ht.
Qed.

(** ** The open entry changes *)
Definition with_entry a e sh : ccache_shard := set_entries (<[a := e]> (entries sh)) sh.

Lemma entry_with a e sh : entries (with_entry a e sh) !! a = Some e.
Proof. apply lookup_insert_eq. Qed.
Lemma entry_with_ne a b e sh : b <> a -> entries (with_entry a e sh) !! b = entries sh !! b.
Proof. intros. by apply lookup_insert_ne. Qed.
Lemma with_entry_twice a e e' sh : with_entry a e' (with_entry a e sh) = with_entry a e' sh.
Proof. unfold with_entry, set_entries. cbn. by rewrite insert_insert_eq. Qed.
Lemma with_entry_same a e sh : entries sh !! a = Some e -> with_entry a e sh = sh.
Proof. intros H. unfold with_entry, set_entries. rewrite insert_id by done. by destruct sh. Qed.

Lemma wp_lru_update a f sh e m (Q : ccache_shard -> mem -> Prop) : entries sh !! a = Some e -> Q (with_entry a (f e) sh) m ->
  wp (update_entry a f sh) m Q.
Proof. apply wp_update_entry. Qed.

Lemma inv_with sh K order T m F a e e' : seg_inv (Some a) sh K order T m F -> entries sh !! a = Some e ->
  sizes_ok a e' -> in_lru e' = in_lru e -> e_key e' = e_key e -> value e' = value e ->
  seg_inv (Some a) (with_entry a e' sh) K order T m F.
Proof.
  intros H He Hs Hl Hk Hv.
  apply (inv_entry secret kt (Some a) (Some a) sh K order T T m F a e e'); try done; try apply others_same_refl.
  unfold blocks_of_entry. by rewrite Hk, Hv.
Qed.

(** A block of the thread goes into the entry as its value. *)
Lemma inv_install sh K order T m F a e vb : seg_inv (Some a) sh K order (TBlock (b_id vb) :: T) m F -> entries sh !! a = Some e ->
  let T' := match value e with Some b => TBlock (b_id b) :: T | None => T end in
  seg_inv (Some a) (with_entry a (set_value (Some vb) (zlen (b_bytes vb)) e) sh) K order T' m F.
Proof.
  intros H He T'. pose proof (si_sizes _ _ _ _ _ _ _ _ _ H a e He) as [Hk Hv Ha].
  apply (inv_entry secret kt (Some a) (Some a) sh K order (TBlock (b_id vb) :: T) T' m F a e); try done.
  - intros b _. unfold T'. by destruct (value e).
  - unfold T', blocks_of_entry. cbn. destruct (value e); cbn; solve_Permutation.
Qed.

(** ** The map *)
Lemma inv_unmap sh K order T m F a e kb (Q : ccache_shard -> mem -> Prop) : seg_inv (Some a) sh K order T m F ->
  entries sh !! a = Some e -> e_key e = Some kb -> (b_bytes kb, a) ∈ K ->
  (forall K' chm m', seg_inv (Some a) (set_map chm sh) K' order T m' F -> (a ∉ K'.*2) -> (forall p, p ∈ K' -> p ∈ K) ->
     Q (set_map chm sh) m') ->
  wp (map_remove secret sh a) m Q.
Proof.
  intros H He Hk Hka HQ. open_inv H. destruct Hkeys as [Hko Hkd].
  eapply (wp_map_remove secret kt Hsecret); [done..|by apply Hsz0|exact Hmem|]. intros K1 K2 chm m' EK Hn Hb.
  rewrite EK in Hkd, Hko. destruct (keys_without _ _ _ _ Hkd) as (Hkd' & Hin & Hsub). rewrite <- EK in Hin, Hsub.
  apply (HQ (K1 ++ K2)); [|done|done].
  replace (set_map chm sh) with (set_map chm (with_entry a e sh)) by (by rewrite with_entry_same).
  apply (inv_mapped secret kt (Some a) (Some a) sh K order T T m F a e e); try done.
  - apply others_same_refl.
  - by apply Hsz0.
  - by eapply keys_ok_remove.
  - intros k b Hkb _. by apply Hsub.
  - intros k Hka'. destruct Hn. apply list_elem_of_fmap. by exists (k, a).
  - by rewrite insert_id.
Qed.

Lemma inv_map sh K order T m F a e kb (Q : ccol_retval_t * ccache_shard -> mem -> Prop) : seg_inv (Some a) sh K order T m F ->
  entries sh !! a = Some e -> e_key e = Some kb -> (a ∉ K.*2) -> key_ok kt (b_bytes kb) -> find_key kt (b_bytes kb) K = None ->
  (forall chm m', seg_inv (Some a) (set_map chm sh) (K ++ [(b_bytes kb, a)]) order T m' F -> Q (ccol_success, set_map chm sh) m') ->
  (forall r chm m', r = ccol_not_enough_memory \/ r = ccol_container_full -> seg_inv (Some a) (set_map chm sh) K order T m' F ->
     Q (r, set_map chm sh) m') ->
  wp (map_upsert secret sh (b_bytes kb) a) m Q.
Proof.
  intros H He Hk Hn Hok Hf HS HN. open_inv H. destruct Hkeys as [Hko Hkd].
  assert (forall chm K' m', keys_ok kt K' -> NoDup K'.*2 -> (forall k b, (k, b) ∈ K' -> b <> a -> (k, b) ∈ K) ->
    (forall b, b <> a -> b ∈ K'.*2 <-> b ∈ K.*2) -> (forall k, (k, a) ∈ K' -> k = b_bytes kb) ->
    beside chm K' m' (sh_blk sh :: entry_blocks (entries sh) ++ token_blocks T) F ->
    seg_inv (Some a) (set_map chm sh) K' order T m' F) as Hmap.
  { intros chm K' m' Hko' Hkd' Hsub Hin Ha Hb.
    replace (set_map chm sh) with (set_map chm (with_entry a e sh)) by (by rewrite with_entry_same).
    apply (inv_mapped secret kt (Some a) (Some a) sh K order T T m F a e e); try done.
    - apply others_same_refl.
    - by apply Hsz0.
    - intros k Hka. exists kb. split; [done|]. symmetry. by apply Ha.
    - by rewrite insert_id. }
  assert (forall k, (k, a) ∈ K -> False) as Hna by (intros k Hka; apply Hn, list_elem_of_fmap; by exists (k, a)).
  eapply (wp_map_upsert secret Hsecret kt); [exact Hmem|done|done| |].
  - intros chm m' Hb. apply HS, Hmap; try done.
    + apply keys_ok_add; try done. apply (so_address _ _ (Hsz0 a e He)).
    + rewrite fmap_app. apply NoDup_app. split; [done|]. split; [|apply NoDup_singleton].
      intros x Hx. cbn. rewrite list_elem_of_singleton. by intros ->.
    + intros k b [?|[= -> ->]%list_elem_of_singleton]%elem_of_app ?; done.
    + intros b Hb2. rewrite fmap_app, elem_of_app. cbn. rewrite list_elem_of_singleton. tauto.
    + intros k [Hka|[= ->]%list_elem_of_singleton]%elem_of_app; [by destruct (Hna k)|done].
  - intros r chm m' Hr Hb. apply HN; [done|]. apply Hmap; try done. intros k Hka. by destruct (Hna k).
Qed.

(** ** The contents around the open entry *)
Local Abbreviation apart := (apart (same_key kt)).

Lemma content_single sh a e kb vb : entries sh !! a = Some e -> e_key e = Some kb -> value e = Some vb ->
  content sh [a] = [(b_bytes kb, b_bytes vb)].
Proof. intros He Hk Hv. unfold content, entry_pair. cbn. rewrite He. cbn. unfold entry_pair. by rewrite Hk, Hv. Qed.

(** Another entry has another key. *)
Lemma content_apart sh K order T m F a k ka o : seg_inv (Some a) sh K order T m F -> key_ok kt k -> (ka, a) ∈ K ->
  same_key kt ka k = true -> (forall b, b ∈ o -> b ∈ order /\ b <> a) -> apart k (content sh o).
Proof.
  intros Hi Hk Hka Hs. induction o as [|b o IH]; intros Ho; [constructor|].
  change (b :: o) with ([b] ++ o). rewrite lru_content_app. apply Forall_app. split; [|apply IH; intros c Hc; apply Ho; by right].
  destruct (Ho b) as [Hb Hne]; [by left|].
  destruct (inv_live _ _ _ _ _ _ _ _ _ b Hi) as (e & kb & vb & He & _ & Ek & Ev & Hkb & _); [congruence|done|].
  rewrite (content_single sh b e kb vb He Ek Ev). constructor; [|constructor]. cbn.
  destruct (same_key kt (b_bytes kb) k) eqn:E; [exfalso|done]. destruct (si_keys _ _ _ _ _ _ _ _ _ Hi) as [HK _].
  pose proof (find_key_in kt k _ _ _ HK Hk Hka Hs). pose proof (find_key_in kt k _ _ _ HK Hk Hkb E). congruence.
Qed.

Lemma content_absent sh K order T m F k : seg_inv None sh K order T m F -> find_key kt k K = None -> apart k (content sh order).
Proof.
  intros Hi Hf. apply find_key_none in Hf. apply Forall_forall. intros [k' v] Hin.
  unfold content in Hin. apply list_elem_of_omap in Hin as (b & Hb & Hp).
  destruct (inv_live _ _ _ _ _ _ _ _ _ b Hi) as (e & kb & vb & He & _ & Ek & Ev & Hkb & _); [done|done|].
  rewrite He in Hp. cbn in Hp. unfold entry_pair in Hp. rewrite Ek, Ev in Hp. injection Hp as <- <-.
  exact (proj1 (Forall_forall _ _) Hf _ Hkb).
Qed.
End Open.
