(* ===== verification/CLruMoves.v ===== *)
(** * Parts of critical sections ([src/clrucache.c])

    The copies a section makes, moves in the eviction order, references taken
    and given back, and the last lines of a call. *)
From S2P Require Import Prelude Memory Values CHash COaMap CHashMap CHashMapRefine CHashMapIter.
From S2P Require Import CLruCache CLruSpec CLruSegment CLruOrder CLruInv CLruPrims CLruEvict CLruOpen.
Import CHashMap.
Import LruCache.

Section Moves.
Context (secret : chmap_hash_secret) (kt : ccol_data_type).
Context {alloc : Allocator} (Hspace : forall (b : nat) n, grant b n = true -> Z.of_nat b < two64) (Hsecret : secret_ok secret).
Implicit Types (sh : ccache_shard) (a : nat) (e : ccache_entry) (k : list Z) (K : list (list Z * nat)) (order : list nat)
  (T : list token) (F : gset nat) (D : option nat).
Local Abbreviation seg_inv := (seg_inv secret kt).
Local Abbreviation beside := (beside secret kt).
Local Abbreviation same := (same_key kt).

(** ** Blocks *)
Lemma inv_blocks D sh K order T T' m m' F : seg_inv D sh K order T m F -> (forall a, at_entry a T' = at_entry a T) ->
  (forall t a, t ∈ T' -> about t = Some a -> t ∈ T) ->
  beside (map sh) K m' (sh_blk sh :: entry_blocks (entries sh) ++ token_blocks T') F -> seg_inv D sh K order T' m' F.
Proof.
  intros H HT Hin Hb. open_inv H. constructor; try done.
  - intros a e. rewrite HT. apply Hen.
  - intros t a Ht Ha. apply (Htok t a); [by eapply Hin|done].
Qed.

Lemma wp_alloc_token D sh K order T m F n (Q : option block -> mem -> Prop) : seg_inv D sh K order T m F -> 0 <= n ->
  (forall m', seg_inv D sh K order T m' F -> Q None m') ->
  (forall b m', seg_inv D sh K order (TBlock (b_id b) :: T) m' F -> zlen (b_bytes b) = n -> Q (Some b) m') ->
  wp (_ccol_mem_alloc n) m Q.
Proof.
  intros Hi Hn HN HS. open_inv Hi. eapply (wp_alloc_beside secret Hsecret kt); [exact Hmem|done| |].
  - intros m' Hb. apply HN. by eapply inv_blocks.
  - intros b m' Hb Hl _. apply HS; [|done]. eapply inv_blocks; [done|done| |].
    + intros t a [->|Ht]%elem_of_cons; [done|done].
    + eapply beside_perm; [exact Hb|]. cbn. solve_Permutation.
Qed.

Lemma wp_free_token D sh K order T m F b (Q : unit -> mem -> Prop) : seg_inv D sh K order (TBlock b :: T) m F ->
  (forall m', seg_inv D sh K order T m' F -> Q tt m') -> wp (_ccol_mem_free b) m Q.
Proof.
  intros Hi HQ. open_inv Hi.
  assert (beside (map sh) K m (b :: sh_blk sh :: entry_blocks (entries sh) ++ token_blocks T) F) as Hb.
  { eapply beside_perm; [exact Hmem|]. cbn. solve_Permutation. }
  eapply (wp_free_beside_block secret Hsecret kt); [exact Hb|]. intros m' Hb'. apply HQ.
  eapply inv_blocks; [exact Hi|done| |exact Hb']. intros t a Ht _. by right.
Qed.

Lemma wp_lru_fill b bytes m (Q : block -> mem -> Prop) : zlen (b_bytes b) = zlen bytes -> Q (Block (b_id b) bytes) m ->
  wp (fill b bytes) m Q.
Proof.
  intros Hl HQ. unfold fill. apply wp_bind, wp_memcpy_in; [done|lia|]. apply wp_ret.
  unfold splice. rewrite ztake_0 by done. rewrite Z.add_0_l, zdrop_all by lia. by rewrite app_nil_r.
Qed.

(** ** Moves in the eviction order *)

(** A move changes neither the entries nor the map nor anything fixed. *)
Record only_order sh sh' : Prop := OnlyOrder {
  oo_entries : entries sh' = entries sh;
  oo_reported : reported sh' = reported sh;
  oo_fixed : fixed sh' = fixed sh;
}.

Lemma open_there sh K order T m F a e : seg_inv (Some a) sh K order T m F -> entries sh !! a = Some e ->
  is_Some (prev sh !! lru_entry a) /\ is_Some (next sh !! lru_entry a).
Proof. intros H He. open_inv H. split; [apply Hpv0|apply Hnx0]; cbn; by rewrite He. Qed.

Lemma wp_move_front sh K o1 a o2 T m F e (Q : ccache_shard -> mem -> Prop) : seg_inv (Some a) sh K (o1 ++ a :: o2) T m F ->
  entries sh !! a = Some e -> in_lru e = true ->
  (forall sh', seg_inv (Some a) sh' K (a :: o1 ++ o2) T m F -> only_order sh sh' -> Q sh' m) ->
  wp (lru_move_to_front sh a) m Q.
Proof.
  intros Hi He Hl HQ. destruct (open_there _ _ _ _ _ _ _ _ Hi He) as [Hp Hn]. open_inv Hi. destruct Hsize as [Esz Hle].
  assert (zlen (a :: o1 ++ o2) = zlen (o1 ++ a :: o2)) as Elen by zlia.
  eapply wp_lru_move_to_front; [exact Hlk|done|done|done|done|done|]. intros pv nx Hl' Hpv Hnx. apply HQ.
  - replace (relinked pv nx a e sh) with (set_reported (reported sh) (set_sh_size (zlen (a :: o1 ++ o2)) (relinked pv nx a e sh))).
    2: { unfold relinked, set_reported, set_sh_size, set_entries, set_next, set_prev. cbn. f_equal. lia. }
    apply (inv_relinked secret kt (Some a) (Some a) sh K (o1 ++ a :: o2) T T m F a e e); try done.
    + apply others_same_refl.
    + by apply Hsz0.
    + lia.
    + by rewrite (Permutation_middle o1 o2 a).
    + intros b Hb. set_solver.
    + split; [done|intros _; by left].
  - constructor; [cbn; by rewrite insert_id|done|done].
Qed.

(** The open entry joins the order at its front and is counted. *)
Lemma wp_join_front sh K order a T m F e (Q : ccache_shard -> mem -> Prop) : seg_inv (Some a) sh K order T m F ->
  entries sh !! a = Some e -> in_lru e = false -> zlen order < sh_capacity sh ->
  (forall sh', let sh2 := set_sh_size (sh_size sh' ⊕ 1) sh' in seg_inv (Some a) sh2 K (a :: order) T m F ->
     entries sh2 = <[a := set_in_lru true e]> (entries sh) -> reported sh2 = reported sh -> fixed sh2 = fixed sh -> Q sh' m) ->
  wp (lru_add_to_front sh a) m Q.
Proof.
  intros Hi He Hl Hroom HQ. destruct (open_there _ _ _ _ _ _ _ _ Hi He) as [Hp Hn]. open_inv Hi. destruct Hsize as [Esz Hle].
  pose proof (zlen_nonneg order) as H0.
  assert (a ∉ order) as Hnot by (intros (x & Hx & Hxl)%Hord; congruence).
  assert (NoDup (a :: order)) as Hnd' by (by apply NoDup_cons).
  eapply wp_lru_add_to_front; [exact Hlk|done|done|done|done|]. intros pv nx Hl' Hpv Hnx. apply HQ; try done.
  change (sh_size (relinked _ _ _ _ _)) with (sh_size sh).
  assert (sh_size sh ⊕ 1 = zlen (a :: order)) as -> by (rewrite zlen_cons, Esz; sz; lia).
  change (set_sh_size ?n ?x) with (set_reported (reported sh) (set_sh_size n x)).
  apply (inv_relinked secret kt (Some a) (Some a) sh K order T T m F a e (set_in_lru true e)); try done.
  - apply others_same_refl.
  - constructor; apply (Hsz0 a e He).
  - rewrite zlen_cons. lia.
  - intros b Hb. set_solver.
  - split; [done|intros _; by left].
Qed.
End Moves.
