(* ===== verification/CLruCalls.v ===== *)
(** * What a critical section does ([src/clrucache.c])

    The tokens of a thread in each state, and what a critical section
    guarantees: the invariant with the tokens of the new state, the keys of the
    entries other threads hold, and the change of the contents as
    [CLruSpec] has it together with the reply. *)
From S2P Require Import Prelude Memory Values CHash COaMap CHashMap CHashMapRefine CHashMapIter.
From S2P Require Import CLruCache CLruSpec CLruSegment CLruOrder CLruInv CLruPrims CLruEvict CLruOpen CLruMoves.
Import CHashMap.
Import LruCache.

(** ** Threads *)
Definition block_tokens (b : option block) : list token := match b with Some b => [TBlock (b_id b)] | None => [] end.
Definition reply_tokens (r : reply) : list token := block_tokens (copy r).
Definition after_tokens (k : after) : list token :=
  match k with
  | ThenReturn r => reply_tokens r
  | ThenLock _ nv => block_tokens nv
  | ThenFree b r => TBlock (b_id b) :: reply_tokens r
  end.

Definition pc_tokens (i : nat) (p : pc) : list token :=
  match p with
  | Idle => []
  | Locking _ nv => block_tokens nv
  | Sleeping _ nv a => TSleep i a :: block_tokens nv
  | Fetching _ a => [TRef a; TFetch a]
  | Setting _ b a => [TRef a; TSet a; TBlock (b_id b)]
  | Freeing a k => TFree a :: after_tokens k
  | Leaving v a r => block_tokens v ++ (match a with Some a => [TFree a] | None => [] end) ++ reply_tokens r
  | Finished r => reply_tokens r
  end.

Definition reply_of (p : pc) : option reply :=
  match p with
  | Finished r | Freeing _ (ThenReturn r) | Freeing _ (ThenFree _ r) | Leaving _ _ r => Some r
  | _ => None
  end.

(** What a successful get hands back. *)
Definition handed (r : reply) : option (list Z) :=
  match copy r with Some b => Some (b_bytes b) | None => buf r end.

Definition is_get (q : request) : bool := match q with SetFull _ _ => false | _ => true end.

Section Calls.
Context (secret : chmap_hash_secret) (kt : ccol_data_type).
Implicit Types (sh : ccache_shard) (a : nat) (e : ccache_entry) (k : list Z) (K : list (list Z * nat)) (order : list nat)
  (T : list token) (F : gset nat) (D : option nat) (q : request) (p : pc) (C : pair_list).
Local Abbreviation seg_inv := (seg_inv secret kt).
Local Abbreviation same := (same_key kt).

Definition request_ok q (nv : option block) : Prop :=
  key_ok kt (request_key q) /\
  match q, nv with
  | SetFull _ v, Some b => b_bytes b = v
  | SetFull _ _, None => False
  | _, None => True
  | _, Some _ => False
  end.

Definition keyed sh k a : Prop := exists e kb, entries sh !! a = Some e /\ e_key e = Some kb /\ same (b_bytes kb) k = true.

Definition pc_ok sh p : Prop :=
  match p with
  | Locking q nv | Freeing _ (ThenLock q nv) => request_ok q nv
  | Sleeping q nv a => request_ok q nv /\ keyed sh (request_key q) a
  | Fetching q a => request_ok q None /\ keyed sh (request_key q) a
  | Setting q b a => request_ok q (Some b) /\ keyed sh (request_key q) a
  | _ => True
  end.

(** ** The outcome of a section *)

(** A value that was evicted while its entry is still held. *)
Definition evicted_value sh (v : list Z) : Prop :=
  exists a e vb, entries sh !! a = Some e /\ evicted e = true /\ value e = Some vb /\ b_bytes vb = v.

(** [C] becomes [C'], and [out] was evicted: nothing happened yet or an error
    is reported; a hit; a value evicted since the operation that was waited
    for stored it; what the remote getter returned; what a set stored. *)
Inductive outcome sh C q p' : pair_list -> pair_list -> Prop :=
  | oc_pending : reply_of p' = None -> outcome sh C q p' C []
  | oc_error r : reply_of p' = Some (failed r) -> r <> ccol_success -> outcome sh C q p' C []
  | oc_hit r v : is_get q = true -> reply_of p' = Some r -> code r = ccol_success -> handed r = Some v ->
      lru_find same (request_key q) C = Some v -> outcome sh C q p' (lru_use same (request_key q) C) []
  | oc_late r v : is_get q = true -> reply_of p' = Some r -> code r = ccol_success -> handed r = Some v ->
      evicted_value sh v -> outcome sh C q p' C []
  | oc_fetched r k v : is_get q = true -> reply_of p' = Some r -> same k (request_key q) = true ->
      (code r = ccol_success /\ handed r = Some v) \/ r = failed ccol_not_enough_memory ->
      outcome sh C q p' (lru_put same (sh_capacity sh) k v C) (lru_out same (sh_capacity sh) k C)
  | oc_stored k k0 v : q = SetFull k0 v -> reply_of p' = Some (failed ccol_success) -> same k k0 = true ->
      outcome sh C q p' (lru_put same (sh_capacity sh) k v C) (lru_out same (sh_capacity sh) k C).

(** The keys of the entries other threads hold. *)
Definition keys_kept T sh sh' : Prop := forall t b e kb, t ∈ T -> about t = Some b -> entries sh !! b = Some e ->
  e_key e = Some kb -> exists e', entries sh' !! b = Some e' /\ e_key e' = Some kb.

Lemma keys_kept_trans T sh1 sh2 sh3 : keys_kept T sh1 sh2 -> keys_kept T sh2 sh3 -> keys_kept T sh1 sh3.
Proof. intros H1 H2 t b e kb Ht Hb He Hk. destruct (H1 t b e kb Ht Hb He Hk) as (e' & He' & Hk'). by apply (H2 t b e' kb). Qed.

Lemma keys_kept_stay D sh sh' K order T U m F : keys_stay sh sh' -> seg_inv D sh' K order (U ++ T) m F -> keys_kept T sh sh'.
Proof.
  intros Hs H t b e kb Ht Hb He Hk. destruct (si_tokens _ _ _ _ _ _ _ _ _ H t b) as [e' He']; [set_solver|done|].
  exists e'. split; [done|]. by apply (Hs b e).
Qed.
Lemma keys_kept_same T sh sh' : entries sh' = entries sh -> keys_kept T sh sh'.
Proof. intros E t b e kb _ _ He Hk. exists e. by rewrite E. Qed.

Lemma keys_kept_with T sh sh' a e e' : entries sh !! a = Some e -> e_key e' = e_key e \/ e_key e = None ->
  entries sh' = <[a := e']> (entries sh) -> keys_kept T sh sh'.
Proof.
  intros He Hk E t b x kb _ _ Hx Hkx. rewrite E. destruct (decide (b = a)) as [->|Hne].
  - rewrite lookup_insert_eq. exists e'. split; [done|]. rewrite He in Hx. injection Hx as <-. destruct Hk; congruence.
  - exists x. by rewrite lookup_insert_ne.
Qed.

Record section_done i q T sh order F sh' p' m' K' order' out : Prop := SectionDone {
  sd_inv : seg_inv None sh' K' order' (pc_tokens i p' ++ T) m' F;
  sd_kept : keys_kept T sh sh';
  sd_fixed : fixed sh' = fixed sh;
  sd_ok : pc_ok sh' p';
  sd_reported : reported sh' = reported sh ++ told sh out;
  sd_outcome : outcome sh (content sh order) q p' (content sh' order') out;
}.

Definition done_with i q T sh order F (r : ccache_shard * pc) m' : Prop :=
  exists K' order' out, section_done i q T sh order F r.1 r.2 m' K' order' out.

Lemma told_nil sh : told sh [] = [].
Proof. unfold told. by destruct (eviction_cb sh). Qed.

(** Steps before, which nobody can see. *)
Record quiet T sh sh1 order : Prop := Quiet {
  qu_kept : keys_kept T sh sh1;
  qu_fixed : fixed sh1 = fixed sh;
  qu_reported : reported sh1 = reported sh;
  qu_content : content sh1 order = content sh order;
  qu_evicted : forall v, evicted_value sh1 v -> evicted_value sh v;
}.

Lemma done_quiet i q T sh sh1 order F r m' : quiet T sh sh1 order -> done_with i q T sh1 order F r m' ->
  done_with i q T sh order F r m'.
Proof.
  intros [H1 H2 H3 H4 H5] (K' & order' & out & [D1 D2 D3 D4 D5 D6]). exists K', order', out.
  pose proof H2 as Hf. unfold fixed in Hf. injection Hf as _ Hc _ _ Hcb.
  constructor; try done.
  - by eapply keys_kept_trans.
  - by rewrite D3.
  - rewrite D5, H3. unfold told. by rewrite Hcb.
  - rewrite H4 in D6. destruct D6; try rewrite Hc in *; try (by econstructor; eauto).
Qed.

(** A change of the open entry nobody can see. *)
Lemma quiet_with T sh sh1 order a e e' : entries sh !! a = Some e -> e_key e' = e_key e \/ e_key e = None ->
  value e' = value e -> (evicted e' = true -> evicted e = true) ->
  (a ∈ order -> e_key e' = e_key e) -> entries sh1 = <[a := e']> (entries sh) -> fixed sh1 = fixed sh ->
  reported sh1 = reported sh -> quiet T sh sh1 order.
Proof.
  intros He Hk Hv Hev Ho E Hf Hr. constructor; try done.
  - by eapply keys_kept_with.
  - unfold content. apply list_omap_ext, Forall_Forall2_diag, Forall_forall. intros b Hb. rewrite E. destruct (decide (b = a)) as [->|Hne].
    + rewrite lookup_insert_eq, He. cbn. unfold entry_pair. by rewrite Hv, Ho.
    + by rewrite lookup_insert_ne.
  - intros v (b & x & vb & Hx & Hxe & Hxv & Hb). rewrite E in Hx. destruct (decide (b = a)) as [->|Hne].
    + rewrite lookup_insert_eq in Hx. injection Hx as <-. exists a, e, vb. rewrite Hv in Hxv. auto.
    + rewrite lookup_insert_ne in Hx by done. by exists b, x, vb.
Qed.
End Calls.
