(* ===== verification/CLruGets.v ===== *)
(** * Gets ([src/clrucache.c])

    The critical sections of [clrucache_get_full] and [__clrucache_get_into]:
    the lookup, the wait, the miss and what follows the remote getter. *)
From S2P Require Import Prelude Memory Values CHash COaMap CHashMap CHashMapRefine CHashMapIter.
From S2P Require Import CLruCache CLruSpec CLruSegment CLruOrder CLruInv CLruPrims CLruEvict CLruOpen CLruMoves CLruCalls.
Import CHashMap.
Import LruCache.

Section Gets.
Context (secret : chmap_hash_secret) (kt : ccol_data_type).
Context {alloc : Allocator} (Hspace : forall (b : nat) n, grant b n = true -> Z.of_nat b < two64) (Hsecret : secret_ok secret).
Implicit Types (sh : ccache_shard) (a : nat) (e : ccache_entry) (k : list Z) (K : list (list Z * nat)) (order : list nat)
  (T : list token) (F : gset nat) (D : option nat) (q : request) (p : pc).
Local Abbreviation seg_inv := (seg_inv secret kt).
Local Abbreviation same := (same_key kt).
Local Abbreviation done_with := (done_with secret kt).

(** ** The end of a call *)

(** The open entry is as it should be, if the thread frees an entry that
    nobody refers to. *)
Definition loose (there : Prop) T a e : Prop :=
  entry_ok there ((if unreferenced e then [TFree a] else []) ++ at_entry a T) a e.

Lemma at_entry_reply a r T : at_entry a (reply_tokens r ++ T) = at_entry a T.
Proof. unfold reply_tokens. by destruct (copy r). Qed.

Lemma wp_leave i sh K order T m F a e r (Q : ccache_shard * pc -> mem -> Prop) :
  seg_inv (Some a) sh K order (reply_tokens r ++ T) m F -> entries sh !! a = Some e -> loose (a ∈ K.*2) T a e ->
  (forall p', reply_of p' = Some r -> pc_ok kt sh p' -> seg_inv None sh K order (pc_tokens i p' ++ T) m F -> Q (sh, p') m) ->
  wp (leave sh a r) m Q.
Proof.
  intros Hi He Hok HQ. unfold leave. apply wp_bind, (wp_entry_at _ _ e); [done|]. apply wp_ret. unfold loose in Hok.
  destruct (unreferenced e); apply HQ; try done; cbn [pc_tokens after_tokens].
  - eapply inv_close; [by eapply (inv_take _ _ _ _ _ _ _ _ a (TFree a)); [exact Hi| |]|exact He|].
    cbn [at_entry app]. rewrite decide_True by done. rewrite at_entry_reply. exact Hok.
  - eapply inv_close; [exact Hi|exact He|]. rewrite at_entry_reply. exact Hok.
Qed.

(** ** A value that is there *)
Lemma wp_promote sh K order T m F a e (Q : ccache_shard -> mem -> Prop) : seg_inv (Some a) sh K order T m F ->
  entries sh !! a = Some e -> (evicted e = false -> in_lru e = true) ->
  (evicted e = true -> Q sh m) ->
  (forall o1 o2 sh', evicted e = false -> order = o1 ++ a :: o2 -> seg_inv (Some a) sh' K (a :: o1 ++ o2) T m F ->
     only_order sh sh' -> Q sh' m) ->
  wp (promote sh a) m Q.
Proof.
  intros Hi He Hl HE HL. unfold promote. apply wp_bind, (wp_entry_at _ _ e); [done|].
  destruct (evicted e) eqn:Eev; cbn [negb]; [apply wp_ret; by apply HE|].
  assert (a ∈ order) as Ha by (apply (si_order _ _ _ _ _ _ _ _ _ Hi); exists e; auto).
  apply list_elem_of_split in Ha as (o1 & o2 & ->).
  eapply (wp_move_front secret kt Hspace Hsecret); [exact Hi|exact He|by apply Hl|]. intros sh' Hi' Ho. by eapply HL.
Qed.

Lemma content_used sh K o1 o2 T m F a e k kb vb : seg_inv (Some a) sh K (o1 ++ a :: o2) T m F -> entries sh !! a = Some e ->
  e_key e = Some kb -> value e = Some vb -> (b_bytes kb, a) ∈ K -> key_ok kt k -> same (b_bytes kb) k = true ->
  lru_find same k (content sh (o1 ++ a :: o2)) = Some (b_bytes vb) /\
  content sh (a :: o1 ++ o2) = lru_use same k (content sh (o1 ++ a :: o2)).
Proof.
  intros Hi He Hk Hv Hka Hok Hs. pose proof (si_nodup _ _ _ _ _ _ _ _ _ Hi) as Hd.
  apply NoDup_app in Hd as (_ & Hd1 & [Hd2 _]%NoDup_cons).
  assert (apart same k (content sh o1)) as A1.
  { eapply (content_apart secret kt); [exact Hi|done|exact Hka|done|]. intros b Hb. split; [set_solver|].
    intros ->. apply (Hd1 a Hb). by left. }
  assert (apart same k (content sh o2)) as A2.
  { eapply (content_apart secret kt); [exact Hi|done|exact Hka|done|]. intros b Hb. split; [set_solver|].
    intros ->. by apply Hd2. }
  change (a :: o1 ++ o2) with ([a] ++ o1 ++ o2). change (a :: o2) with ([a] ++ o2). rewrite !lru_content_app.
  rewrite (content_single _ _ _ _ _ He Hk Hv). cbn [app]. unfold lru_find.
  rewrite (find_mid _ k _ (b_bytes kb, b_bytes vb)), use_mid by done. done.
Qed.

Lemma only_order_content sh sh' o : only_order sh sh' -> content sh' o = content sh o.
Proof. intros [E _ _]. apply lru_content_ext. intros. by rewrite E. Qed.

Lemma wp_value_bytes e vb m (Q : list Z -> mem -> Prop) a : sizes_ok a e -> value e = Some vb -> Q (b_bytes vb) m ->
  wp (buffer_bytes (value e) (value_size e)) m Q.
Proof. intros [_ Hs _] Hv HQ. rewrite Hv in *. by apply wp_buffer_bytes. Qed.

(** An entry whose value a get may hand back. *)
Record readable K e a kb vb : Prop := Readable {
  rd_key : e_key e = Some kb;
  rd_value : value e = Some vb;
  rd_live : evicted e = false -> in_lru e = true /\ (b_bytes kb, a) ∈ K;
}.

(** From a promotion on, a get hands back what was there. *)
Lemma done_settled i q sh K order T m F a e kb vb r : seg_inv (Some a) sh K order (reply_tokens r ++ T) m F ->
  entries sh !! a = Some e -> readable K e a kb vb -> loose (a ∈ K.*2) T a e -> key_ok kt (request_key q) ->
  same (b_bytes kb) (request_key q) = true -> is_get q = true -> code r = ccol_success -> handed r = Some (b_bytes vb) ->
  wp (promote sh a) m (fun sh' m => entries sh' = entries sh /\ wp (leave sh' a r) m (done_with i q T sh order F)).
Proof.
  intros Hi He [Hk Hv Hl] Hok Hkey Hs Hq Hc Hh.
  eapply wp_promote; [exact Hi|done|by intros []%Hl| |].
  - intros Eev. split; [done|]. eapply (wp_leave i); [exact Hi|done|done|]. intros p' Hr Hp Hi'. exists K, order, [].
    constructor; try done; [by apply keys_kept_same|by rewrite told_nil, app_nil_r|].
    eapply oc_late; try done. by exists a, e, vb.
  - intros o1 o2 sh' Eev -> Hi' Ho. destruct (Hl Eev) as [_ Hka].
    destruct (content_used _ _ _ _ _ _ _ _ _ _ _ _ Hi He Hk Hv Hka Hkey Hs) as [Hf Hu]. pose proof Ho as [Ee Er Ef].
    split; [done|]. eapply (wp_leave i); [exact Hi'|by rewrite Ee|done|]. intros p' Hr Hp Hi2. exists K, (a :: o1 ++ o2), [].
    constructor; try done; [by apply keys_kept_same|by rewrite told_nil, app_nil_r|]. cbn [fst snd].
    rewrite (only_order_content _ _ _ Ho), Hu. by eapply oc_hit.
Qed.

Lemma wp_settled_assertions e m (Q : unit -> mem -> Prop) : is_Some (value e) -> (evicted e = false -> in_lru e = true) -> Q tt m ->
  wp (settled_assertions e) m Q.
Proof.
  intros Hv Hl HQ. unfold settled_assertions. apply wp_bind, wp_assert; [by apply bool_decide_eq_true|]. apply wp_assert; [|done].
  destruct (evicted e); [done|by apply Hl].
Qed.

Lemma done_leave_failed i q sh K order T m F a e r : seg_inv (Some a) sh K order T m F -> entries sh !! a = Some e ->
  loose (a ∈ K.*2) T a e -> r <> ccol_success -> wp (leave sh a (failed r)) m (done_with i q T sh order F).
Proof.
  intros Hi He Hok Hr. eapply (wp_leave i); [exact Hi|done|done|]. intros p' Hp Hpc Hi'. exists K, order, [].
  constructor; try done; [by apply keys_kept_same|by rewrite told_nil, app_nil_r|by eapply oc_error].
Qed.

Lemma wp_settled i q sh K order T m F a e kb vb : seg_inv (Some a) sh K order T m F -> entries sh !! a = Some e ->
  readable K e a kb vb -> loose (a ∈ K.*2) T a e -> key_ok kt (request_key q) -> same (b_bytes kb) (request_key q) = true ->
  is_get q = true -> wp (settled q sh a) m (done_with i q T sh order F).
Proof.
  intros Hi He Hrd Hok Hkey Hs Hq. pose proof Hrd as [Hk Hv Hl]. pose proof (si_sizes _ _ _ _ _ _ _ _ _ Hi a e He) as Hsz.
  assert (value_size e = zlen (b_bytes vb)) as Evs by (pose proof (so_value _ _ Hsz) as H; by rewrite Hv in H).
  destruct q as [k|k n|]; [| |done]; cbn [settled].
  - unfold get_full_settled. apply wp_bind, (wp_entry_at _ _ e); [done|].
    apply wp_bind, wp_settled_assertions; [by rewrite Hv|by intros []%Hl|]. apply wp_bind. rewrite Evs.
    eapply (wp_alloc_token secret kt Hsecret); [exact Hi|by apply zlen_nonneg| |].
    { intros m' Hi'. by eapply done_leave_failed. }
    intros c m' Hi' Hc. apply wp_bind. set (r := Reply ccol_success (Some (Block (b_id c) (b_bytes vb))) None).
    eapply wp_mono; [by eapply (done_settled i (GetFull k) sh K order T m' F a e kb vb r)|]. intros sh' m2 [Ee Hw]. cbn beta.
    apply wp_bind. rewrite <- Evs. eapply wp_value_bytes; [exact Hsz|done|]. by apply wp_bind, wp_lru_fill.
  - unfold get_into_settled. apply wp_bind, (wp_entry_at _ _ e); [done|].
    apply wp_bind, wp_settled_assertions; [by rewrite Hv|by intros []%Hl|].
    destruct (negb (value_size e =? n)); [by eapply done_leave_failed|].
    apply wp_bind. set (r := Reply ccol_success None (Some (b_bytes vb))).
    eapply wp_mono; [by eapply (done_settled i (GetInto k n) sh K order T m F a e kb vb r)|]. intros sh' m2 [Ee Hw]. cbn beta.
    apply wp_bind. eapply wp_value_bytes; [exact Hsz|done|exact Hw].
Qed.

(** ** Waiting *)
Lemma wp_hold a e sh m (Q : ccache_shard -> mem -> Prop) : entries sh !! a = Some e -> waiters e < INT_MAX ->
  Q (with_entry a (set_waiters (waiters e + 1) e) sh) m -> wp (hold a sh) m Q.
Proof.
  intros He Hw HQ. unfold hold. apply wp_bind, (wp_entry_at _ _ e); [done|]. rewrite Z.geb_leb.
  destruct (Z.leb_spec INT_MAX (waiters e)); [lia|]. by eapply wp_lru_update.
Qed.

Lemma count_at_entry_le f a T : count f (at_entry a T) <= count f T.
Proof.
  induction T as [|t T IH]; [done|]. cbn. destruct (decide _); cbn; [lia|]. destruct (f t); lia.
Qed.

Lemma inv_held sh K order T m F a e t : seg_inv None sh K order T m F -> entries sh !! a = Some e -> a ∈ K.*2 ->
  about t = Some a -> is_ref t = true ->
  seg_inv None (with_entry a (set_waiters (waiters e + 1) e) sh) K order (t :: T) m F.
Proof.
  intros Hi He Ha Ht Hr. pose proof (si_entries _ _ _ _ _ _ _ _ _ Hi a e He ltac:(done)) as [Hw Hc Hk Hp _ _].
  pose proof (si_sizes _ _ _ _ _ _ _ _ _ Hi a e He) as Hsz. destruct (Hp Ha) as [P1 P2 P3 P4 P5 P6].
  assert (is_free t = false /\ is_fetch t = false /\ is_set t = false) as (N1 & N2 & N3) by (by destruct t).
  eapply inv_close; [|apply entry_with|].
  - apply inv_take; [|by rewrite entry_with|done]. eapply inv_with; [by apply inv_open|done|destruct Hsz; by constructor|done..].
  - constructor; rewrite ?count_at_entry_cons by done; cbn [waiters set_waiters cond]; rewrite ?Hr.
    + lia.
    + intros i Hi2. cbn [at_entry]. rewrite decide_True by done. right. by apply Hc.
    + exact Hk.
    + intros _. constructor; rewrite ?count_at_entry_cons by done; rewrite ?N1, ?N2, ?N3; cbn; try done; lia.
    + intros Hn. by destruct Hn.
    + intros Hn. by destruct Hn.
Qed.

Lemma inv_asleep sh K order T m F i a e : seg_inv None sh K order (TSleep i a :: T) m F -> entries sh !! a = Some e ->
  in_progress e = true ->
  seg_inv None (with_entry a (set_cond ({[i]} ∪ cond e) e) sh) K order (TSleep i a :: T) m F.
Proof.
  intros Hi He Hip. pose proof (si_entries _ _ _ _ _ _ _ _ _ Hi a e He ltac:(done)) as [Hw Hc Hk Hp Hev Hpr].
  pose proof (si_sizes _ _ _ _ _ _ _ _ _ Hi a e He) as Hsz.
  eapply inv_close; [|apply entry_with|].
  - eapply inv_with; [by apply inv_open|done|destruct Hsz; by constructor|done..].
  - constructor; try done.
    + intros j. cbn [cond set_cond]. rewrite elem_of_union, elem_of_singleton. intros [->|Hj]; [|by apply Hc].
      cbn [at_entry]. rewrite decide_True by done. by left.
    + by right.
    + intros H. destruct (Hp H). by constructor.
    + intros H H2. destruct (Hev H H2). by constructor.
    + intros H H2. destruct (Hpr H H2). by constructor.
Qed.

(** The thread goes to sleep, with a reference it takes or has. *)
Lemma wp_cond_wait i q nv sh K order T m F a e : seg_inv None sh K order (TSleep i a :: block_tokens nv ++ T) m F ->
  entries sh !! a = Some e -> in_progress e = true -> request_ok kt q nv -> keyed kt sh (request_key q) a ->
  wp (cond_wait i q nv sh a) m (done_with i q T sh order F).
Proof.
  intros Hi He Hip Hq (x & kb & Hx & Hk & Hs). rewrite He in Hx. injection Hx as <-.
  unfold cond_wait. apply wp_bind, (wp_entry_at _ _ e); [done|]. apply wp_bind. eapply wp_lru_update; [exact He|]. apply wp_ret.
  set (e' := set_cond ({[i]} ∪ cond e) e). exists K, order, [].
  assert (quiet T sh (with_entry a e' sh) order) as [Q1 _ _ Q2 _] by (by apply (quiet_with T sh _ order a e e'); auto).
  constructor; try done.
  - by apply inv_asleep.
  - split; [done|]. exists e', kb. split; [apply entry_with|done].
  - by rewrite told_nil, app_nil_r.
  - cbn [fst snd]. rewrite Q2. by apply oc_pending.
Qed.

Lemma wp_wait i q nv sh K order T m F a e : seg_inv None sh K order (block_tokens nv ++ T) m F ->
  entries sh !! a = Some e -> in_progress e = true -> a ∈ K.*2 -> count is_ref T < INT_MAX -> request_ok kt q nv ->
  keyed kt sh (request_key q) a ->
  wp (sh ← hold a sh; cond_wait i q nv sh a) m (done_with i q T sh order F).
Proof.
  intros Hi He Hip Ha Hfew Hq Hk. pose proof (si_entries _ _ _ _ _ _ _ _ _ Hi a e He ltac:(done)) as Hok.
  apply wp_bind, (wp_hold a e); [done| |].
  { rewrite (en_waiters _ _ _ _ Hok). replace (at_entry a (block_tokens nv ++ T)) with (at_entry a T) by (by destruct nv).
    pose proof (count_at_entry_le is_ref a T). lia. }
  pose proof (inv_held _ _ _ _ _ _ a e (TSleep i a) Hi He Ha eq_refl eq_refl) as Hi'.
  set (e' := set_waiters (waiters e + 1) e) in *. destruct Hk as (x & kb & Hx & Hkx & Hs). rewrite He in Hx. injection Hx as <-.
  eapply wp_mono; [eapply wp_cond_wait; [exact Hi'|by rewrite entry_with|done|done|]|].
  { exists e', kb. split; [apply entry_with|done]. }
  intros r m' Hd. eapply done_quiet; [|exact Hd]. by apply (quiet_with T sh _ order a e e'); auto.
Qed.

(** A reference is given back while nothing is in progress. *)
Lemma inv_released sh K order t T m F a e : seg_inv None sh K order (t :: T) m F -> entries sh !! a = Some e ->
  about t = Some a -> is_ref t = true -> in_progress e = false ->
  let e' := set_waiters (waiters e - 1) e in
  seg_inv (Some a) (with_entry a e' sh) K order T m F /\ loose (a ∈ K.*2) T a e' /\ (evicted e = false -> a ∈ K.*2).
Proof.
  intros Hi He Ht Hr Hip e'. pose proof (si_entries _ _ _ _ _ _ _ _ _ Hi a e He ltac:(done)) as [Hw Hc Hk Hp Hev Hpr].
  pose proof (si_sizes _ _ _ _ _ _ _ _ _ Hi a e He) as Hsz. rewrite count_at_entry_cons, Hr in Hw by done.
  pose proof (count_nonneg is_ref (at_entry a T)) as H0.
  assert (is_free t = false /\ is_fetch t = false /\ is_set t = false) as (N1 & N2 & N3) by (by destruct t).
  assert (cond e = ∅) as Hce by (destruct Hk; congruence).
  assert (evicted e = false -> a ∈ K.*2) as Hin.
  { intros E. destruct (decide (a ∈ K.*2)) as [|Hn]; [done|]. destruct (Hpr Hn E) as [_ _ _ (Hz & _)].
    rewrite count_at_entry_cons, Hr in Hz by done. lia. }
  split; [|split; [|done]].
  - eapply inv_with; [|done|destruct Hsz; by constructor|done..].
    eapply (inv_drop _ _ _ _ _ _ _ _ a t); [by apply inv_open|by rewrite He|done].
  - unfold loose, unreferenced. cbn [evicted waiters set_waiters e']. constructor.
    + rewrite count_app. cbn [waiters set_waiters e']. destruct (evicted e && _); cbn; lia.
    + intros j. cbn [cond set_waiters e']. rewrite Hce. set_solver.
    + by left.
    + intros H. destruct (Hp H) as [P1 P2 P3 P4 P5 P6]. rewrite count_at_entry_cons in P1, P4, P5 by done.
      rewrite N1 in P1. rewrite N2 in P4. rewrite N3 in P5.
      rewrite P2. constructor; cbn in *; try done; lia.
    + intros H E. cbn [evicted set_waiters e'] in E. destruct (Hev H E) as [E1 E2 [E3 E4] E5].
      rewrite count_at_entry_cons in E3, E4, E5 by done.
      rewrite N2 in E3. rewrite N3 in E4. rewrite N1 in E5. rewrite E. cbn [andb].
      destruct (Z.eqb_spec (waiters e) 0) as [|_]; [lia|].
      constructor; rewrite ?count_app; cbn [in_lru fetch_in_progress set_in_progress waiters set_waiters e']; try done.
      * destruct (_ =? 0); cbn; split; lia.
      * destruct (_ =? 0); cbn; lia.
    + intros H E. by destruct H; apply Hin.
Qed.

(** ** The lookup *)
Lemma key_in sh K order D T m F a e kb : seg_inv D sh K order T m F -> entries sh !! a = Some e -> e_key e = Some kb ->
  a ∈ K.*2 -> (b_bytes kb, a) ∈ K.
Proof.
  intros Hi He Hk ([k b] & Eb & Hka)%list_elem_of_fmap. cbn in Eb. subst b.
  destruct (si_has _ _ _ _ _ _ _ _ _ Hi k a Hka) as (x & y & Hx & Hy & <-). rewrite He in Hx. injection Hx as <-. congruence.
Qed.

(** What a lookup finds is live, or an operation is in progress on it. *)
Lemma found_readable sh K order T m F k a : seg_inv None sh K order T m F -> find_key kt k K = Some a ->
  exists e kb, entries sh !! a = Some e /\ e_key e = Some kb /\ same (b_bytes kb) k = true /\ a ∈ K.*2 /\
    (in_progress e = false -> exists vb, readable K e a kb vb /\ loose (a ∈ K.*2) T a e).
Proof.
  intros Hi (k' & Hka & Hs)%find_key_some. destruct (si_has _ _ _ _ _ _ _ _ _ Hi k' a Hka) as (e & kb & He & Hk & <-).
  exists e, kb. assert (a ∈ K.*2) as Ha by (apply list_elem_of_fmap; by exists (b_bytes kb, a)).
  split_and!; try done. intros Hip. pose proof (si_entries _ _ _ _ _ _ _ _ _ Hi a e He ltac:(done)) as Hok.
  destruct (en_published _ _ _ _ Hok Ha) as [P1 P2 P3 P4 P5 P6]. apply orb_false_iff in Hip as [Hf Hst].
  destruct (in_lru e) eqn:El; [|destruct P6 as [_ P6]; rewrite Hf, Hst in P6; done].
  destruct P6 as [[vb Hv] _]. exists vb. split; [by constructor|]. unfold loose, unreferenced. by rewrite P2.
Qed.

(** ** A miss *)
Lemma at_entry_absent D sh K order T m F a : seg_inv D sh K order T m F -> entries sh !! a = None -> at_entry a T = [].
Proof.
  intros Hi Hn. destruct (at_entry a T) as [|t T'] eqn:E; [done|exfalso]. assert (t ∈ at_entry a T) as Ht by (rewrite E; by left).
  apply at_entry_in in Ht as [Ht Hta]. destruct (si_tokens _ _ _ _ _ _ _ _ _ Hi t a Ht Hta). congruence.
Qed.

Lemma inv_set_key sh K order T m F a e b : seg_inv (Some a) sh K order (TBlock (b_id b) :: T) m F -> entries sh !! a = Some e ->
  e_key e = None -> (a ∉ K.*2) ->
  seg_inv (Some a) (with_entry a (set_entry_key (Some b) (zlen (b_bytes b)) e) sh) K order T m F.
Proof.
  intros Hi He Hk Hn. open_inv Hi. destruct Hkeys as [Hko Hkd].
  change (with_entry ?x ?y sh) with (set_map (map sh) (set_entries (<[x := y]> (entries sh)) sh)).
  apply (inv_mapped secret kt (Some a) (Some a) sh K order (TBlock (b_id b) :: T) T m F a e); try done.
  - by intros x _.
  - destruct (Hsz0 a e He). by constructor.
  - intros k Hka. destruct Hn. apply list_elem_of_fmap. by exists (k, a).
  - eapply beside_perm; [exact Hmem|]. apply Permutation_skip. cbn [token_blocks omap list_omap block_of].
    rewrite entry_blocks_update, (entry_blocks_delete _ _ _ He). unfold blocks_of_entry. cbn. rewrite Hk. cbn.
    fold (token_blocks T). solve_Permutation.
Qed.

(** Only an entry that was not there before is new. *)
Definition only_new a sh sh' : Prop := entries sh !! a = None /\ (forall b, b <> a -> entries sh' !! b = entries sh !! b) /\
  fixed sh' = fixed sh /\ reported sh' = reported sh.

Lemma done_new i q sh sh' K K' order T U m m' F a p' : seg_inv None sh K order U m F -> only_new a sh sh' ->
  seg_inv None sh' K' order (pc_tokens i p' ++ T) m' F -> pc_ok kt sh' p' ->
  reply_of p' = None \/ (exists r, reply_of p' = Some (failed r) /\ r <> ccol_success) ->
  done_with i q T sh order F (sh', p') m'.
Proof.
  intros Hi (Hn & Hne & Hf & Hr) Hi' Hok Hp. exists K', order, []. constructor; try done; cbn [fst snd].
  - intros t b e kb _ _ He Hk. exists e. rewrite Hne; [done|]. intros ->. congruence.
  - by rewrite told_nil, app_nil_r.
  - assert (content sh' order = content sh order) as ->.
    { apply lru_content_ext. intros b Hb. apply Hne. intros ->. apply (si_order _ _ _ _ _ _ _ _ _ Hi) in Hb as (x & Hx & _). congruence. }
    destruct Hp as [Hp|(r & Hp & Hr2)]; [by apply oc_pending|by eapply oc_error].
Qed.

(** An entry with nothing but its key, and perhaps its fetch announced. *)
Definition keyed_entry (b : block) (f : bool) : ccache_entry :=
  set_fetch_in_progress f (set_entry_key (Some b) (zlen (b_bytes b)) fresh_entry).

Record unpublished sh0 K order T F a b f sh m : Prop := Unpublished {
  up_inv : seg_inv (Some a) sh K order (TFree a :: T) m F;
  up_entry : entries sh !! a = Some (keyed_entry b f);
  up_new : only_new a sh0 sh;
  up_absent : a ∉ K.*2;
  up_tokens : at_entry a T = [];
}.

Lemma only_new_with a sh sh1 e : only_new a sh sh1 -> only_new a sh (with_entry a e sh1).
Proof. intros (H1 & H2 & H3 & H4). split; [done|]. split; [|done]. intros b Hb. rewrite entry_with_ne by done. by apply H2. Qed.
Lemma only_new_map a sh sh1 chm : only_new a sh sh1 -> only_new a sh (set_map chm sh1).
Proof. done. Qed.

Lemma unpublished_closed sh0 K order T F a b f sh m : unpublished sh0 K order T F a b f sh m ->
  seg_inv None sh K order (TFree a :: T) m F.
Proof.
  intros [Hi He _ Hn HT]. eapply inv_close; [exact Hi|exact He|]. cbn [at_entry]. rewrite decide_True, HT by done.
  constructor; cbn; try done. by left.
Qed.

(** The copy of the key goes into a new entry. *)
Lemma unpublished_keyed sh0 K order T F a b sh m : seg_inv None sh K order (TBlock (b_id b) :: TFree a :: T) m F ->
  entries sh !! a = Some fresh_entry -> only_new a sh0 sh -> (a ∉ K.*2) -> at_entry a T = [] ->
  unpublished sh0 K order T F a b false (with_entry a (keyed_entry b false) sh) m.
Proof.
  intros Hi He Hnew Hn HT. constructor; [|apply entry_with|by apply only_new_with|done|done].
  apply (inv_set_key sh K order (TFree a :: T) m F a fresh_entry b); try done. by apply inv_open.
Qed.

Lemma wp_lru_publish sh0 K order T F a b f sh m (Q : ccol_retval_t * ccache_shard -> mem -> Prop) :
  unpublished sh0 K order T F a b f sh m -> key_ok kt (b_bytes b) -> find_key kt (b_bytes b) K = None ->
  (forall chm m', seg_inv (Some a) (set_map chm sh) (K ++ [(b_bytes b, a)]) order (TFree a :: T) m' F ->
     Q (ccol_success, set_map chm sh) m') ->
  (forall r chm m', r = ccol_not_enough_memory \/ r = ccol_container_full -> unpublished sh0 K order T F a b f (set_map chm sh) m' ->
     Q (r, set_map chm sh) m') ->
  wp (map_upsert secret sh (b_bytes b) a) m Q.
Proof.
  intros [Hi He Hnew Hn HT] Hk Hf HS HN. eapply (inv_map secret Hsecret); [exact Hi|exact He|done|done|done|done|exact HS|].
  intros r chm m' Hr Hi'. by apply HN.
Qed.

Lemma wp_get_miss i ok q sh K order T m F : seg_inv None sh K order T m F -> request_ok kt q None -> is_get q = true ->
  find_key kt (request_key q) K = None -> wp (get_miss secret ok q sh) m (done_with i q T sh order F).
Proof.
  intros Hi [Hkey _] Hq Hf. unfold get_miss.
  assert (forall m' r, seg_inv None sh K order T m' F -> r <> ccol_success -> done_with i q T sh order F (sh, Finished (failed r)) m') as Hfin.
  { intros m' r Hi' Hr. exists K, order, []. constructor; try done; [by apply keys_kept_same|by rewrite told_nil, app_nil_r|by eapply oc_error]. }
  destruct (remote_getter sh); cbn [negb]; [|by apply wp_ret, Hfin].
  apply wp_bind. eapply (wp_entry_alloc Hspace secret Hsecret kt); [exact Hi|done|by intros; apply wp_ret, Hfin|].
  intros a m1 Hi1 Hn Hnone. pose proof (at_entry_absent _ _ _ _ _ _ _ _ Hi Hnone) as HT.
  assert (only_new a sh (with_fresh a sh)) as Hnew by (split_and!; try done; intros b Hb; by apply lookup_insert_ne).
  assert (entries (with_fresh a sh) !! a = Some fresh_entry) as He by apply lookup_insert_eq.
  apply wp_bind. eapply (wp_alloc_token secret kt Hsecret); [exact Hi1|apply zlen_nonneg| |].
  { intros m2 Hi2. apply wp_ret. eapply done_new; [exact Hi|exact Hnew|exact Hi2|done|]. right. by eexists. }
  intros b m2 Hi2 Hlen. apply wp_bind, wp_lru_fill; [done|].
  set (kb := Block (b_id b) (request_key q)). change (b_id b) with (b_id kb) in Hi2.
  pose proof (unpublished_keyed _ _ _ _ _ _ _ _ _ Hi2 He Hnew Hn HT) as Hup.
  apply wp_bind. eapply wp_lru_update; [exact He|]. apply wp_bind. eapply wp_lru_update; [apply entry_with|].
  rewrite with_entry_twice. change (set_fetch_in_progress true _) with (keyed_entry kb true).
  set (sh2 := with_entry a (keyed_entry kb true) (with_fresh a sh)).
  assert (unpublished sh K order T F a kb true sh2 m2) as Hup2.
  { destruct Hup as [U1 U2 U3 U4 U5]. constructor; [|apply entry_with|by apply only_new_with|done|done].
    unfold sh2. rewrite <- (with_entry_twice a (keyed_entry kb false)). eapply inv_with; [exact U1|exact U2| |done..].
    by destruct (si_sizes _ _ _ _ _ _ _ _ _ U1 a _ U2); constructor. }
  apply wp_bind. eapply (wp_lru_publish sh K order T F a kb true); [exact Hup2|done|done| |].
  2: { intros r chm m3 Hr Hup3. assert (r <> ccol_success /\ r <> ccol_key_already_present) as [R1 R2] by (destruct Hr; subst; done).
    rewrite !bool_decide_false by done. cbn [andb negb]. apply wp_ret.
    eapply done_new; [exact Hi|exact (up_new _ _ _ _ _ _ _ _ _ _ Hup3)|by eapply (unpublished_closed _ _ _ _ _ _ _ _ _ _ Hup3)|done|].
    right. by eexists. }
  intros chm m3 Hi3. rewrite bool_decide_true by done. cbn [andb negb].
  apply wp_bind. eapply wp_hold; [apply entry_with|done|]. apply wp_ret.
  eapply done_new; [exact Hi|apply only_new_with, only_new_map, (up_new _ _ _ _ _ _ _ _ _ _ Hup2)| | |by left].
  - eapply inv_close; [|apply entry_with|].
    + eapply inv_with; [|apply entry_with|by destruct (si_sizes _ _ _ _ _ _ _ _ _ Hi3 a _ (entry_with _ _ _)); constructor|done..].
      cbn [pc_tokens app]. apply inv_take; [|eexists; apply entry_with|done]. apply inv_take; [|eexists; apply entry_with|done].
      eapply (inv_drop _ _ _ _ _ _ _ _ a (TFree a)); [exact Hi3|eexists; apply entry_with|done].
    + cbn [pc_tokens app at_entry]. rewrite !decide_True, HT by done. constructor; cbn; try done; [by left|].
      intros Hn2. exfalso. apply Hn2. rewrite fmap_app. set_solver.
  - split; [split; [done|by destruct q]|]. eexists _, kb. split; [apply entry_with|]. split; [done|]. by apply same_refl.
Qed.

(** ** The sections of a get *)
Lemma wp_get_locked i ok q sh K order T m F : seg_inv None sh K order T m F -> request_ok kt q None -> is_get q = true ->
  count is_ref T < INT_MAX -> wp (get_locked secret i ok q sh) m (done_with i q T sh order F).
Proof.
  intros Hi Hreq Hq Hfew. pose proof Hreq as [Hkey _]. unfold get_locked. apply wp_bind. open_inv Hi.
  eapply (wp_map_lookup secret Hsecret kt); [exact Hmem|by destruct Hkeys|done|].
  destruct (find_key kt (request_key q) K) as [a|] eqn:Ef; [|by eapply wp_get_miss].
  destruct (found_readable _ _ _ _ _ _ _ _ Hi Ef) as (e & kb & He & Hk & Hs & Ha & Hrd).
  apply wp_bind, (wp_entry_at _ _ e); [done|]. destruct (in_progress e) eqn:Eip.
  - eapply (wp_wait i q None); [exact Hi|done|done|done|done|done|]. by exists e, kb.
  - destruct (Hrd eq_refl) as (vb & Hr & Hl). eapply wp_settled; [by apply inv_open|exact He|exact Hr|done..].
Qed.

Lemma wp_get_woken i ok q sh K order T m F a : seg_inv None sh K order (TSleep i a :: T) m F -> request_ok kt q None ->
  is_get q = true -> keyed kt sh (request_key q) a -> count is_ref T < INT_MAX ->
  wp (get_woken secret i ok q sh a) m (done_with i q T sh order F).
Proof.
  intros Hi Hreq Hq Hkeyed Hfew. pose proof Hkeyed as (e & kb & He & Hk & Hs). pose proof Hreq as [Hkey _].
  unfold get_woken. apply wp_bind, (wp_entry_at _ _ e); [done|]. destruct (in_progress e) eqn:Eip.
  { by eapply (wp_cond_wait i q None). }
  destruct (inv_released _ _ _ _ _ _ _ _ _ Hi He eq_refl eq_refl Eip) as (Hi1 & Hl & Hin). set (e' := set_waiters (waiters e - 1) e) in *.
  set (sh1 := with_entry a e' sh) in *.
  assert (quiet T sh sh1 order) as Hquiet by (by apply (quiet_with T sh _ order a e e'); auto).
  assert (entries sh1 !! a = Some e') as He1 by apply entry_with.
  unfold release. apply wp_bind, wp_bind, (wp_entry_at _ _ e); [done|]. eapply wp_lru_update; [exact He|]. fold e' sh1.
  apply wp_bind, (wp_entry_at _ _ e'); [done|]. eapply wp_mono; [|intros r m'; by apply (done_quiet _ _ _ _ _ _ sh1)].
  destruct (value e') as [vb|] eqn:Ev.
  { eapply wp_settled; [exact Hi1|exact He1| |exact Hl|done|exact Hs|done]. constructor; [done|done|]. intros Eev.
    pose proof (Hin Eev) as Ha. pose proof (en_published _ _ _ _ (si_entries _ _ _ _ _ _ _ _ _ Hi a e He ltac:(done)) Ha) as Hp.
    split; [|by eapply (key_in sh1)]. pose proof (po_state _ _ Hp) as Hst. cbn in Ev |- *.
    destruct (in_lru e); [done|]. destruct Hst. congruence. }
  destruct (fetch_failed e') eqn:Eff; cbn [negb].
  { eapply done_leave_failed; [exact Hi1|exact He1|exact Hl|]. by destruct (fetch_size_mismatch e'). }
  destruct (unreferenced e') eqn:Eun.
  - apply wp_ret. exists K, order, []. constructor; try done; [|by apply keys_kept_same|by rewrite told_nil, app_nil_r|by apply oc_pending].
    cbn [fst snd pc_tokens after_tokens block_tokens app]. eapply inv_close; [|exact He1|].
    + apply inv_take; [exact Hi1|by rewrite He1|done].
    + unfold loose in Hl. rewrite Eun in Hl. cbn [at_entry]. by rewrite decide_True.
  - eapply wp_get_locked; [|done|done|done]. eapply inv_close; [exact Hi1|exact He1|].
    unfold loose in Hl. by rewrite Eun in Hl.
Qed.
End Gets.
