(* ===== verification/CLruStores.v ===== *)
(** * Stores ([src/clrucache.c])

    What follows the remote getter, and sets: the sections that store a value
    or take back a placeholder. *)
From S2P Require Import Prelude Memory Values CHash COaMap CHashMap CHashMapRefine CHashMapIter.
From S2P Require Import CLruCache CLruSpec CLruSegment CLruOrder CLruInv CLruPrims CLruEvict CLruOpen CLruMoves CLruCalls CLruGets.
Import CHashMap.
Import LruCache.

Section Stores.
Context (secret : chmap_hash_secret) (kt : ccol_data_type).
Context {alloc : Allocator} (Hspace : forall (b : nat) n, grant b n = true -> Z.of_nat b < two64) (Hsecret : secret_ok secret).
Implicit Types (sh : ccache_shard) (a : nat) (e : ccache_entry) (k : list Z) (K : list (list Z * nat)) (order : list nat)
  (T : list token) (F : gset nat) (D : option nat) (q : request) (p : pc).
Local Abbreviation seg_inv := (seg_inv secret kt).
Local Abbreviation same := (same_key kt).
Local Abbreviation done_with := (done_with secret kt).

(** The open entry of the thread that does the operation in progress on it,
    which is about to end: [T] are the tokens of the others. *)
Record owned (there : Prop) T a e : Prop := Owned {
  ow_there : there;
  ow_waiters : waiters e = count is_ref (at_entry a T);
  ow_cond : forall i, i ∈ cond e -> TSleep i a ∈ at_entry a T;
  ow_evicted : evicted e = false;
  ow_failed : fetch_failed e = false /\ fetch_size_mismatch e = false;
  ow_free : count is_free (at_entry a T) = 0;
  ow_ops : count is_fetch (at_entry a T) = 0 /\ count is_set (at_entry a T) = 0;
  ow_fetch : fetch_in_progress e = false;
  ow_state : if in_lru e then is_Some (value e) else value e = None;
}.

(** ** A value becomes live *)
Record stored sh order T F a kb v e sh' K' order' m' : Prop := Stored {
  st_inv : seg_inv (Some a) sh' K' order' T m' F;
  st_entry : entries sh' !! a = Some (set_in_lru true (set_value (Some v) (zlen (b_bytes v)) e));
  st_there : a ∈ K'.*2;
  st_kept : keys_kept T sh sh';
  st_fixed : fixed sh' = fixed sh;
  st_content : content sh' order' = lru_put same (sh_capacity sh) (b_bytes kb) (b_bytes v) (content sh order);
  st_reported : reported sh' = reported sh ++ told sh (lru_out same (sh_capacity sh) (b_bytes kb) (content sh order));
}.

Lemma key_is_ok D sh K order T m F k a : seg_inv D sh K order T m F -> (k, a) ∈ K -> key_ok kt k.
Proof.
  intros Hi Hka. destruct (si_keys _ _ _ _ _ _ _ _ _ Hi) as [[Hk _ _] _].
  exact (proj1 (Forall_forall _ _) Hk _ Hka).
Qed.

(** The entry joins the order, where there is room. *)
Lemma wp_joins sh order T F a kb v e sh1 K1 m : 
  seg_inv (Some a) sh1 K1 (spare (sh_capacity sh) order) T m F ->
  entries sh1 !! a = Some (set_value (Some v) (zlen (b_bytes v)) e) -> e_key e = Some kb -> in_lru e = false -> a ∈ K1.*2 ->
  keys_kept T sh sh1 -> fixed sh1 = fixed sh -> 1 <= sh_capacity sh ->
  content sh1 (spare (sh_capacity sh) order) = spare (sh_capacity sh) (content sh order) ->
  reported sh1 = reported sh ++ told sh (spent (sh_capacity sh) (content sh order)) ->
  apart same (b_bytes kb) (content sh order) ->
  wp (lru_add_to_front sh1 a) m (fun sh' m' =>
    exists order', stored sh order T F a kb v e (set_sh_size (sh_size sh' ⊕ 1) sh') K1 order' m').
Proof.
  intros Hi He Hk Hl Ha Hkept Hf Hcap Hc Hr Hap. pose proof Hf as Hf'. unfold fixed in Hf'. injection Hf' as _ Ecap _ _ _.
  eapply (wp_join_front secret kt Hspace Hsecret); [exact Hi|exact He|done| |].
  { rewrite Ecap. unfold spare. rewrite zlen_ztake by lia. lia. }
  intros sh' sh2 Hi2 He2 Hr2 Hf2. destruct (put_apart same (sh_capacity sh) (b_bytes kb) (b_bytes v) _ Hap) as [Ep Eo].
  exists (a :: spare (sh_capacity sh) order). fold sh2. constructor; try done.
  - rewrite He2. by apply lookup_insert_eq.
  - eapply keys_kept_trans; [exact Hkept|]. eapply keys_kept_with; [exact He| |exact He2]. by left.
  - by rewrite Hf2.
  - rewrite Ep. change (a :: ?o) with ([a] ++ o). rewrite lru_content_app, <- Hc.
    rewrite (content_single sh2 a _ kb v (eq_trans (f_equal (lookup a) He2) (lookup_insert_eq _ _ _)) Hk eq_refl). cbn [app]. f_equal.
    unfold content. apply list_omap_ext, Forall_Forall2_diag, Forall_forall. intros b Hb. rewrite He2.
    destruct (decide (b = a)) as [->|Hne]; [exfalso|by rewrite lookup_insert_ne].
    apply (si_order _ _ _ _ _ _ _ _ _ Hi) in Hb as (x & Hx & Hxl). rewrite He in Hx. injection Hx as <-. cbn in Hxl. congruence.
  - by rewrite Hr2, Eo.
Qed.

Lemma not_in_order D sh K order T m F a e : seg_inv D sh K order T m F -> entries sh !! a = Some e -> in_lru e = false -> a ∉ order.
Proof. intros Hi He Hl (x & Hx & Hxl)%(si_order _ _ _ _ _ _ _ _ _ Hi). congruence. Qed.

Lemma spent_in {A} cap (l : list A) x : x ∈ spent cap l -> x ∈ l.
Proof. unfold spent, zdrop. intros Hx%list_elem_of_In. apply list_elem_of_In. rewrite <- (take_drop (Z.to_nat (cap - 1)) l). apply in_or_app. by right. Qed.

Lemma wp_fetch_stores sh K order T m F a kb v e : seg_inv (Some a) sh K order (TBlock (b_id v) :: T) m F ->
  entries sh !! a = Some e -> e_key e = Some kb -> in_lru e = false -> value e = None -> a ∈ K.*2 ->
  wp (fetch_stores secret v sh a) m (fun sh' m' => exists K' order', stored sh order T F a kb v e sh' K' order' m').
Proof.
  intros Hi He Hk Hl Hv Ha. pose proof (not_in_order _ _ _ _ _ _ _ _ _ Hi He Hl) as Hno. unfold fetch_stores.
  pose proof (key_in _ _ _ _ _ _ _ _ _ _ _ _ Hi He Hk Ha) as Hka.
  assert (apart same (b_bytes kb) (content sh order)) as Hap.
  { eapply content_apart; [exact Hi|by eapply key_is_ok|exact Hka|by apply same_refl; eapply key_is_ok|].
    intros b Hb. split; [done|]. by intros ->. }
  apply wp_bind. eapply (wp_lru_make_room secret kt Hspace Hsecret); [exact Hi|by intros x [= <-]|].
  intros sh1 K1 m1 [R1 R2 R3 R4 R5 R6 R7 R8]. assert (a ∉ spent (sh_capacity sh) order) as Hns by (by intros H%spent_in).
  assert (entries sh1 !! a = Some e) as He1 by (rewrite R2; done).
  apply wp_bind. eapply wp_lru_update; [exact He1|]. pose proof (inv_install _ _ _ _ _ _ _ _ _ _ _ R1 He1) as Hi2. cbn zeta in Hi2. rewrite Hv in Hi2.
  set (e1 := set_value (Some v) (zlen (b_bytes v)) e) in *. apply wp_bind. eapply wp_mono.
  - eapply (wp_joins sh order T F a kb v e); [exact Hi2|apply entry_with|done|done|by apply R4| |done|by apply (si_capacity _ _ _ _ _ _ _ _ _ Hi)| |done|done].
    + eapply keys_kept_trans; [eapply (keys_kept_stay secret kt _ _ _ _ _ _ [TBlock (b_id v)]); [exact R3|exact R1]|].
      eapply (keys_kept_with _ _ _ a e e1); [exact He1|by left|done].
    + rewrite <- R6. apply lru_content_ext. intros b Hb. apply entry_with_ne. intros ->.
      by apply (not_in_order _ _ _ _ _ _ _ _ _ R1 He1 Hl).
  - intros sh' m' (order' & Hst). apply wp_ret. by exists K1, order'.
Qed.

(** ** The end of an operation *)

(** The entry is live. *)
Lemma inv_settles sh K order T m F a e : seg_inv (Some a) sh K order T m F -> entries sh !! a = Some e ->
  owned (a ∈ K.*2) T a e -> in_lru e = true -> set_in_progress e = false ->
  seg_inv None (with_entry a (set_cond ∅ e) sh) K order T m F.
Proof.
  intros Hi He [O1 O2 O3 O4 O5 O6 [O7 O8] O9 O10] Hl Hs. pose proof (si_sizes _ _ _ _ _ _ _ _ _ Hi a e He) as Hsz. rewrite Hl in O10.
  eapply inv_close; [eapply inv_with; [exact Hi|exact He|destruct Hsz; by constructor|done..]|apply entry_with|].
  constructor; cbn; try done; [by left|..]; try congruence.
  intros _. constructor; cbn; rewrite ?O9, ?Hs, ?Hl; try done.
Qed.

(** The entry is out of the map; the thread frees it if nobody waits. *)
Lemma inv_leaves sh K order T m F a e : seg_inv (Some a) sh K order T m F -> entries sh !! a = Some e -> (a ∉ K.*2) ->
  waiters e = count is_ref (at_entry a T) -> cond e = ∅ -> evicted e = true -> in_lru e = false ->
  fetch_in_progress e = false -> set_in_progress e = false -> count is_free (at_entry a T) = 0 ->
  count is_fetch (at_entry a T) = 0 /\ count is_set (at_entry a T) = 0 ->
  seg_inv None sh K order ((if waiters e =? 0 then [TFree a] else []) ++ T) m F.
Proof.
  intros Hi He Hn Hw Hc Hev Hl Hf Hs Hfree [Hcf Hcs].
  assert (entry_ok (a ∈ K.*2) ((if waiters e =? 0 then [TFree a] else []) ++ at_entry a T) a e) as Hok.
  { constructor.
    - rewrite count_app. destruct (waiters e =? 0); cbn; lia.
    - rewrite Hc. set_solver.
    - by left.
    - intros H. by destruct Hn.
    - intros _ _. constructor; rewrite ?count_app; try done; destruct (waiters e =? 0); cbn; try split; lia.
    - congruence. }
  destruct (waiters e =? 0); cbn [app] in *.
  - eapply inv_close; [by apply inv_take; [exact Hi|rewrite He|]|exact He|]. cbn [at_entry]. by rewrite decide_True.
  - by eapply inv_close.
Qed.

(** ** After the remote getter *)
Lemma wp_fetch_fails i q mismatch r sh K order T m F a e kb : seg_inv (Some a) sh K order T m F -> entries sh !! a = Some e ->
  owned (a ∈ K.*2) T a e -> in_lru e = false -> set_in_progress e = false -> e_key e = Some kb -> r <> ccol_success ->
  wp (fetch_fails secret mismatch r sh a) m (done_with i q T sh order F).
Proof.
  intros Hi He [O1 O2 O3 O4 O5 O6 O7 O8 O9] Hl Hs Hk Hr. pose proof (si_sizes _ _ _ _ _ _ _ _ _ Hi a e He) as Hsz. unfold fetch_fails.
  apply wp_bind. eapply (inv_unmap secret Hsecret); [exact Hi|exact He|exact Hk|by eapply (key_in _ _ sh)|].
  intros K' chm m' Hi' Hn Hsub. apply wp_bind. eapply wp_lru_update; [exact He|].
  set (e1 := set_evicted true e).
  apply wp_bind, (wp_mono _ _ (fun s m2 => s = with_entry a (if mismatch then set_fetch_size_mismatch true e1 else e1) (set_map chm sh) /\ m2 = m')).
  { destruct mismatch; [eapply wp_lru_update; [apply entry_with|]; by rewrite with_entry_twice|by apply wp_ret]. }
  intros s m2 [-> ->]. apply wp_bind. eapply wp_lru_update; [apply entry_with|]. apply wp_bind. eapply wp_lru_update; [apply entry_with|].
  rewrite !with_entry_twice.
  set (e' := set_cond ∅ (set_fetch_failed true (if mismatch then set_fetch_size_mismatch true e1 else e1))).
  apply wp_bind. eapply wp_entry_at; [apply entry_with|]. apply wp_ret.
  assert (waiters e' = waiters e /\ cond e' = ∅ /\ evicted e' = true /\ in_lru e' = in_lru e /\ e_key e' = e_key e /\ value e' = value e /\
    fetch_in_progress e' = fetch_in_progress e /\ set_in_progress e' = set_in_progress e /\ sizes_ok a e') as (W & C1 & E1 & L1 & K1 & V1 & F1 & S1 & Z1).
  { destruct Hsz. by destruct mismatch. }
  assert (seg_inv (Some a) (with_entry a e' (set_map chm sh)) K' order T m' F) as Hi2 by (by eapply inv_with).
  pose proof (inv_leaves _ _ _ _ _ _ _ _ Hi2 (entry_with _ _ _) Hn ltac:(by rewrite W) C1 E1 ltac:(by rewrite L1) ltac:(by rewrite F1)
    ltac:(by rewrite S1) O6 O7) as Hi3.
  exists K', order, []. constructor; cbn [fst snd].
  - by destruct (waiters e' =? 0).
  - eapply (keys_kept_with _ _ _ a e e'); [exact He|by left|done].
  - done.
  - by destruct (waiters e' =? 0).
  - by rewrite told_nil, app_nil_r.
  - assert (content (with_entry a e' (set_map chm sh)) order = content sh order) as ->.
    { apply lru_content_ext. intros b Hb. apply (entry_with_ne a b e' (set_map chm sh)). intros ->.
      by apply (not_in_order _ _ _ _ _ _ _ _ _ Hi He Hl). }
    destruct (waiters e' =? 0); by eapply oc_error.
Qed.

(** The flag is cleared and the reference given back. *)
Lemma inv_fetch_ends sh K order T m F a e : seg_inv None sh K order (TRef a :: TFetch a :: T) m F -> entries sh !! a = Some e ->
  let e' := set_fetch_in_progress false (set_waiters (waiters e - 1) e) in
  seg_inv (Some a) (with_entry a e' sh) K order T m F /\ owned (a ∈ K.*2) T a e' /\
  in_lru e = false /\ value e = None /\ set_in_progress e = false.
Proof.
  intros Hi He e'. pose proof (si_entries _ _ _ _ _ _ _ _ _ Hi a e He ltac:(done)) as [Hw Hc Hk Hp Hev Hpr].
  pose proof (si_sizes _ _ _ _ _ _ _ _ _ Hi a e He) as Hsz. cbn [at_entry about] in *. rewrite !decide_True in * by done.
  cbn [count is_ref is_fetch is_set is_free] in *.
  pose proof (count_nonneg is_ref (at_entry a T)) as H0. pose proof (count_nonneg is_fetch (at_entry a T)) as H1.
  assert (a ∈ K.*2) as Ha.
  { destruct (decide (a ∈ K.*2)) as [|Hn]; [done|exfalso]. destruct (evicted e) eqn:Eev.
    - destruct (Hev Hn eq_refl) as [_ _ [Hz _] _]. cbn in Hz. lia.
    - destruct (Hpr Hn eq_refl) as [_ _ _ (Hz & _)]. cbn in Hz. lia. }
  destruct (Hp Ha) as [P1 P2 P3 P4 P5 P6]. cbn [count is_ref is_fetch is_set is_free] in *.
  assert (fetch_in_progress e = true /\ count is_fetch (at_entry a T) = 0) as [Ef Cf] by (destruct (fetch_in_progress e); cbn in P4; [split; [done|lia]|lia]).
  rewrite Ef in P6. destruct (in_lru e) eqn:El; [by destruct P6|]. destruct P6 as [Hv Hs]. symmetry in Hs. apply negb_true_iff in Hs.
  rewrite Hs in P5. cbn in P5. split; [|split; [|done]].
  - eapply inv_with; [|exact He|destruct Hsz; by constructor|done..].
    eapply (inv_drop _ _ _ _ _ _ _ _ a (TFetch a)); [|by rewrite He|done].
    eapply (inv_drop _ _ _ _ _ _ _ _ a (TRef a)); [by apply inv_open|by rewrite He|done].
  - constructor; cbn; rewrite ?El; try done; try lia.
    intros j Hj. specialize (Hc j Hj). set_solver.
Qed.

Lemma owned_blocks there T a e b : owned there T a e -> owned there (block_tokens b ++ T) a e.
Proof. destruct b; [|done]. intros [O1 O2 O3 O4 O5 O6 O7 O8 O9]. by constructor. Qed.

Lemma owned_stored there there' T a e v : owned there T a e -> there' ->
  owned there' T a (set_in_lru true (set_value (Some v) (zlen (b_bytes v)) e)).
Proof. intros [O1 O2 O3 O4 O5 O6 O7 O8 O9] H. constructor; try done. by eexists. Qed.

Lemma done_fetched i q sh K order T F a kb v e sh2 K2 o2 m0 m r : stored sh order T F a kb v e sh2 K2 o2 m0 ->
  seg_inv (Some a) sh2 K2 o2 (reply_tokens r ++ T) m F -> owned (a ∈ K.*2) T a e -> set_in_progress e = false ->
  is_get q = true -> same (b_bytes kb) (request_key q) = true ->
  (code r = ccol_success /\ handed r = Some (b_bytes v)) \/ r = failed ccol_not_enough_memory ->
  wp (sh ← _ccol_cond_var_broadcast a sh2; mret (sh, Finished r)) m (done_with i q T sh order F).
Proof.
  intros [S1 S2 S3 S4 S5 S6 S7] Hi2 Ho Hsp Hq Hs Hr. apply wp_bind. eapply wp_lru_update; [exact S2|]. apply wp_ret.
  set (e2 := set_in_lru true (set_value (Some v) (zlen (b_bytes v)) e)) in *.
  exists K2, o2, (lru_out same (sh_capacity sh) (b_bytes kb) (content sh order)). constructor; cbn [fst snd]; try done.
  - apply inv_settles; try done. apply owned_blocks. by eapply owned_stored.
  - eapply keys_kept_trans; [exact S4|]. eapply (keys_kept_with _ _ _ a e2); [exact S2| |done]. by left.
  - assert (content (with_entry a (set_cond ∅ e2) sh2) o2 = content sh2 o2) as ->.
    { apply (quiet_with T sh2 _ o2 a e2 (set_cond ∅ e2)); auto. }
    rewrite S6. by eapply (oc_fetched _ _ _ _ _ r).
Qed.

(** The value stays, whether or not the caller gets its copy. *)
Lemma wp_fetch_succeeds i q sh K order T m F a e kb v : seg_inv (Some a) sh K order (TBlock (b_id v) :: T) m F ->
  entries sh !! a = Some e -> owned (a ∈ K.*2) T a e -> in_lru e = false -> value e = None -> set_in_progress e = false ->
  e_key e = Some kb -> is_get q = true -> same (b_bytes kb) (request_key q) = true ->
  wp (sh ← fetch_stores secret v sh a;
      match q with
      | GetFull _ =>
          c ← _ccol_mem_alloc (zlen (b_bytes v));
          match c with
          | None => sh ← _ccol_cond_var_broadcast a sh; mret (sh, Finished (failed ccol_not_enough_memory))
          | Some c => c ← fill c (b_bytes v);
                      sh ← _ccol_cond_var_broadcast a sh; mret (sh, Finished (Reply ccol_success (Some c) None))
          end
      | _ => sh ← _ccol_cond_var_broadcast a sh; mret (sh, Finished (Reply ccol_success None (Some (b_bytes v))))
      end) m (done_with i q T sh order F).
Proof.
  intros Hi He Ho Hl Hv Hsp Hk Hq Hs. apply wp_bind.
  eapply wp_mono; [eapply wp_fetch_stores; [exact Hi|exact He|exact Hk|done|done|by destruct Ho]|].
  intros sh2 m2 (K2 & o2 & Hst). cbn beta. destruct q as [k|k n|]; [| |done].
  - apply wp_bind. eapply (wp_alloc_token secret kt Hsecret); [exact (st_inv _ _ _ _ _ _ _ _ _ _ _ _ Hst)|apply zlen_nonneg| |].
    + intros m3 Hi3. eapply done_fetched; [exact Hst|exact Hi3|exact Ho|done|done|exact Hs|by right].
    + intros c m3 Hi3 Hc. apply wp_bind, wp_lru_fill; [done|].
      eapply done_fetched; [exact Hst|exact Hi3|exact Ho|done|done|exact Hs|by left].
  - eapply done_fetched; [exact Hst|exact (st_inv _ _ _ _ _ _ _ _ _ _ _ _ Hst)|exact Ho|done|done|exact Hs|by left].
Qed.

Lemma wp_fetch_returns i ok fetched q sh K order T m F a : seg_inv None sh K order (TRef a :: TFetch a :: block_tokens fetched ++ T) m F ->
  is_get q = true -> keyed kt sh (request_key q) a ->
  wp (fetch_returns secret ok fetched q sh a) m (done_with i q T sh order F).
Proof.
  intros Hi Hq (e & kb & He & Hk & Hs). destruct (inv_fetch_ends _ _ _ _ _ _ _ _ Hi He) as (Hi1 & Ho & Hl & Hv & Hsp).
  set (e' := set_fetch_in_progress false (set_waiters (waiters e - 1) e)) in *. set (sh1 := with_entry a e' sh) in *.
  assert (quiet T sh sh1 order) as Hquiet by (by apply (quiet_with T sh _ order a e e'); auto).
  assert (entries sh1 !! a = Some e') as He1 by apply entry_with.
  assert (owned (a ∈ K.*2) T a e') as Ho1 by (destruct fetched; [destruct Ho; by constructor|done]).
  assert (forall m2 mm r, seg_inv (Some a) sh1 K order T m2 F -> r <> ccol_success ->
    wp (fetch_fails secret mm r sh1 a) m2 (done_with i q T sh order F)) as Hfail.
  { intros m2 mm r Hi2 Hr. eapply wp_mono; [|intros x m'; by apply (done_quiet _ _ _ _ _ _ sh1)].
    by eapply wp_fetch_fails. }
  unfold fetch_returns, release. apply wp_bind, wp_bind, (wp_entry_at _ _ e); [done|]. eapply wp_lru_update; [exact He|].
  apply wp_bind. eapply wp_lru_update; [apply entry_with|]. rewrite with_entry_twice. fold e' sh1.
  destruct fetched as [v|]; [|by apply Hfail].
  destruct (ok && (zlen (b_bytes v) >? 0)).
  2: { apply wp_bind. eapply (wp_free_token secret kt Hsecret); [exact Hi1|]. intros m2 Hi2. by apply Hfail. }
  pose proof (fun x => wp_fetch_succeeds i q sh1 K order T m F a e' kb v Hi1 He1 Ho1 x Hv Hsp Hk Hq Hs) as Hok.
  specialize (Hok Hl). destruct q as [k|k n|]; [| |done].
  - eapply wp_mono; [exact Hok|]. intros x m'. by apply (done_quiet _ _ _ _ _ _ sh1).
  - destruct (negb (zlen (b_bytes v) =? n)).
    + apply wp_bind. eapply (wp_free_token secret kt Hsecret); [exact Hi1|]. intros m2 Hi2. by apply Hfail.
    + eapply wp_mono; [exact Hok|]. intros x m'. by apply (done_quiet _ _ _ _ _ _ sh1).
Qed.
End Stores.
