(* ===== verification/CLruSets.v ===== *)
(** * Sets ([src/clrucache.c])

    The critical sections of [clrucache_set_full]: the lookup and the
    placeholder, the wait for the slot of a key, and the end of a set. *)
From S2P Require Import Prelude Memory Values CHash COaMap CHashMap CHashMapRefine CHashMapIter.
From S2P Require Import CLruCache CLruSpec CLruSegment CLruOrder CLruInv CLruPrims CLruEvict CLruOpen CLruMoves CLruCalls CLruGets CLruStores.
Import CHashMap.
Import LruCache.

Section Sets.
Context (secret : chmap_hash_secret) (kt : ccol_data_type).
Context {alloc : Allocator} (Hspace : forall (b : nat) n, grant b n = true -> Z.of_nat b < two64) (Hsecret : secret_ok secret).
Implicit Types (sh : ccache_shard) (a : nat) (e : ccache_entry) (k : list Z) (K : list (list Z * nat)) (order : list nat)
  (T : list token) (F : gset nat) (D : option nat) (q : request) (p : pc).
Local Abbreviation seg_inv := (seg_inv secret kt).
Local Abbreviation same := (same_key kt).
Local Abbreviation done_with := (done_with secret kt).

(** ** The value is stored *)
Lemma content_put sh sh' K o1 o2 T m F a e kb vb v cap : seg_inv (Some a) sh K (o1 ++ a :: o2) T m F -> entries sh !! a = Some e ->
  e_key e = Some kb -> value e = Some vb -> (b_bytes kb, a) ∈ K ->
  (forall b, b <> a -> entries sh' !! b = entries sh !! b) -> content sh' [a] = [(b_bytes kb, v)] ->
  content sh' (a :: o1 ++ o2) = lru_put same cap (b_bytes kb) v (content sh (o1 ++ a :: o2)) /\
  lru_out same cap (b_bytes kb) (content sh (o1 ++ a :: o2)) = [].
Proof.
  intros Hi He Hk Hv Hka Hne Ha. pose proof (si_nodup _ _ _ _ _ _ _ _ _ Hi) as Hd.
  pose proof (key_is_ok _ _ _ _ _ _ _ _ _ _ _ Hi Hka) as Hok.
  assert (same (b_bytes kb) (b_bytes kb) = true) as Hs by by apply same_refl.
  apply NoDup_app in Hd as (_ & Hd1 & [Hd2 _]%NoDup_cons).
  assert (a ∉ o1) as Hd1' by (intros H; apply (Hd1 a H); by left).
  assert (forall o, (a ∉ o) -> (forall b, b ∈ o -> b ∈ o1 ++ a :: o2) ->
    apart same (b_bytes kb) (content sh o) /\ content sh' o = content sh o) as Ho.
  { intros o Hno Hin. split.
    - eapply content_apart; [exact Hi|done|exact Hka|done|]. intros b Hb. split; [by apply Hin|by intros ->].
    - apply lru_content_ext. intros b Hb. apply Hne. by intros ->. }
  destruct (Ho o1 Hd1' ltac:(set_solver)) as [A1 E1]. destruct (Ho o2 Hd2 ltac:(set_solver)) as [A2 E2].
  change (a :: o1 ++ o2) with ([a] ++ o1 ++ o2). change (a :: o2) with ([a] ++ o2). rewrite !lru_content_app, Ha, E1, E2.
  rewrite (content_single _ _ _ _ _ He Hk Hv). cbn [app].
  destruct (put_mid same cap (b_bytes kb) v (content sh o1) (b_bytes kb, b_bytes vb) (content sh o2) A1 A2 Hs) as [-> ->]. done.
Qed.

Lemma wp_store_value sh K order T m F a kb v e : seg_inv (Some a) sh K order (TBlock (b_id v) :: T) m F ->
  entries sh !! a = Some e -> e_key e = Some kb -> a ∈ K.*2 -> (if in_lru e then is_Some (value e) else value e = None) ->
  wp (entry_store_value secret sh a v) m (fun r m' => r.1 = value e /\
    exists K' order', stored secret kt sh order (block_tokens (value e) ++ T) F a kb v e r.2 K' order' m').
Proof.
  intros Hi He Hk Ha Hst. pose proof (key_in _ _ _ _ _ _ _ _ _ _ _ _ Hi He Hk Ha) as Hka.
  pose proof (si_capacity _ _ _ _ _ _ _ _ _ Hi) as Hcap. set (e1 := set_value (Some v) (zlen (b_bytes v)) e).
  pose proof (inv_install _ _ _ _ _ _ _ _ _ _ _ Hi He) as Hi1. cbn zeta in Hi1. fold e1 in Hi1.
  set (sh1 := with_entry a e1 sh) in *. assert (entries sh1 !! a = Some e1) as He1 by apply entry_with.
  unfold entry_store_value. apply wp_bind, (wp_entry_at _ _ e); [done|]. apply wp_bind. eapply wp_lru_update; [exact He|]. fold e1 sh1.
  apply wp_bind, (wp_entry_at _ _ e1); [done|]. change (in_lru e1) with (in_lru e). destruct (in_lru e) eqn:El; cbn [negb].
  - destruct Hst as [vb Hv]. rewrite Hv in Hi1.
    assert (a ∈ order) as Hao by (apply (si_order _ _ _ _ _ _ _ _ _ Hi); by exists e).
    apply list_elem_of_split in Hao as (o1 & o2 & ->).
    apply wp_bind. eapply (wp_move_front secret kt Hspace Hsecret); [exact Hi1|exact He1|exact El|].
    intros sh2 Hi2 [E2 R2 F2]. apply wp_ret. rewrite Hv. split; [done|]. exists K, (a :: o1 ++ o2). cbn [snd block_tokens app].
    destruct (content_put sh sh2 K o1 o2 _ m F a e kb vb (b_bytes v) (sh_capacity sh) Hi He Hk Hv Hka) as [Cp Co].
    { intros b Hb. rewrite E2. by apply entry_with_ne. }
    { apply (content_single _ _ e1); [by rewrite E2|done|done]. }
    constructor; try done.
    + rewrite E2, He1. f_equal. symmetry. by apply (set_in_lru_same e1 true).
    + eapply (keys_kept_with _ _ _ a e e1); [exact He|by left|exact E2].
    + rewrite R2, Co, told_nil. by rewrite app_nil_r.
  - rewrite Hst in *. cbn [block_tokens app]. pose proof (not_in_order _ _ _ _ _ _ _ _ _ _ _ Hi1 He1 El) as Hno.
    assert (apart same (b_bytes kb) (content sh order)) as Hap.
    { eapply content_apart; [exact Hi|by eapply key_is_ok|exact Hka|by apply same_refl; eapply key_is_ok|].
      intros b Hb. split; [done|]. by intros ->. }
    assert (content sh1 order = content sh order) as Ec by (apply lru_content_ext; intros b Hb; apply entry_with_ne; by intros ->).
    apply wp_bind. eapply (wp_lru_make_room secret kt Hspace Hsecret); [exact Hi1|by intros x [= <-]|].
    intros sh2 K2 m2 [R1 R2 R3 R4 R5 R6 R7 R8]. change (sh_capacity sh1) with (sh_capacity sh) in *. rewrite Ec in *.
    assert (a ∉ spent (sh_capacity sh) order) as Hns by (by intros H%spent_in).
    assert (entries sh2 !! a = Some e1) as He2 by (rewrite R2; done).
    apply wp_bind. eapply wp_mono.
    + eapply (wp_joins secret kt Hspace Hsecret sh order T F a kb v e); [exact R1|exact He2|done|done|by apply R4| |done|lia|done|done|done].
      apply (keys_kept_trans T sh sh1 sh2); [eapply (keys_kept_with _ _ _ a e e1); [exact He|by left|done]|].
      eapply (keys_kept_stay secret kt _ _ _ _ _ _ []); [exact R3|exact R1].
    + intros sh' m' (order' & Hs). apply wp_ret. split; [done|]. by exists K2, order'.
Qed.

(** ** The end of a set *)

(** The last lines: the slot is given back and who waits is woken. *)
Lemma wp_set_ends sh K order T m F a e vtf r (Q : ccache_shard * pc -> mem -> Prop) : seg_inv (Some a) sh K order (block_tokens vtf ++ T) m F ->
  entries sh !! a = Some e -> owned (a ∈ K.*2) T a e -> in_lru e = true ->
  (forall sh', seg_inv None sh' K order (pc_tokens 0 (Leaving vtf None (failed r)) ++ T) m F -> quiet T sh sh' order ->
   Q (sh', Leaving vtf None (failed r)) m) ->
  wp (sh ← update_entry a (set_set_in_progress false) sh;
      sh ← _ccol_cond_var_broadcast a sh;
      e ← entry_at sh a;
      mret (sh, Leaving vtf (if unreferenced e then Some a else None) (failed r))) m Q.
Proof.
  intros Hi He Ho Hl HQ. pose proof Ho as [O1 O2 O3 O4 O5 O6 O7 O8 O9].
  apply wp_bind. eapply wp_lru_update; [exact He|]. apply wp_bind. eapply wp_lru_update; [apply entry_with|]. rewrite with_entry_twice.
  set (e' := set_cond ∅ (set_set_in_progress false e)) in *.
  apply wp_bind. eapply wp_entry_at; [apply entry_with|]. apply wp_ret. unfold unreferenced. cbn [evicted e' set_cond set_set_in_progress].
  rewrite O4. cbn [andb]. apply HQ.
  - cbn [pc_tokens failed reply_tokens copy block_tokens app]. rewrite app_nil_r.
    rewrite <- (with_entry_twice a (set_set_in_progress false e)).
    eapply inv_settles; [eapply inv_with; [exact Hi|exact He|by destruct (si_sizes _ _ _ _ _ _ _ _ _ Hi a e He); constructor|done..]
      |apply entry_with| |done|done].
    apply owned_blocks. by constructor.
  - apply (quiet_with T sh _ order a e e'); auto.
Qed.

(** A set is stored. *)
Lemma done_stored i q sh K order T m F a kb v e k : seg_inv (Some a) sh K order (TBlock (b_id v) :: T) m F -> entries sh !! a = Some e ->
  owned (a ∈ K.*2) T a e -> e_key e = Some kb -> q = SetFull k (b_bytes v) -> same (b_bytes kb) k = true ->
  wp (set_completes secret true v sh a) m (done_with i q T sh order F).
Proof.
  intros Hi He Ho Hk -> Hs. unfold set_completes. apply wp_bind.
  eapply wp_mono; [eapply wp_store_value; [exact Hi|exact He|exact Hk|apply Ho|apply Ho]|].
  intros [old sh2] m2 [Eold (K2 & o2 & Hst)]. cbn [fst snd] in Eold, Hst. subst old. pose proof Hst as [S1 S2 S3 S4 S5 S6 S7].
  set (e2 := set_in_lru true (set_value (Some v) (zlen (b_bytes v)) e)) in *.
  apply wp_bind, (wp_entry_at _ _ e2); [done|]. apply wp_bind. cbn [negb andb]. apply wp_ret.
  eapply wp_set_ends; [exact S1|exact S2|by eapply owned_stored|done|]. intros sh3 Hi3 [Q1 Q2 Q3 Q4 Q5].
  exists K2, o2, (lru_out same (sh_capacity sh) (b_bytes kb) (content sh order)). constructor; cbn [fst snd]; try done.
  - eapply keys_kept_trans; [|exact Q1]. intros t b x kx Ht. apply (S4 t). apply elem_of_app. by right.
  - by rewrite Q2.
  - by rewrite Q3.
  - rewrite Q4, S6. by eapply (oc_stored _ _ _ _ _ _ k).
Qed.

(** A set failed: a live entry is as it was, a placeholder leaves. *)
Lemma done_not_stored i q sh K order T m F a kb v e : seg_inv (Some a) sh K order (TBlock (b_id v) :: T) m F -> entries sh !! a = Some e ->
  owned (a ∈ K.*2) T a e -> e_key e = Some kb ->
  wp (set_completes secret false v sh a) m (done_with i q T sh order F).
Proof.
  intros Hi He Ho Hk. pose proof Ho as [O1 O2 O3 O4 O5 O6 O7 O8 O9]. unfold set_completes. apply wp_bind, wp_ret.
  apply wp_bind, (wp_entry_at _ _ e); [done|]. cbn [negb andb]. destruct (in_lru e) eqn:El; cbn [negb].
  - apply wp_bind, wp_ret. eapply (wp_set_ends _ _ _ _ _ _ _ _ (Some v)); [exact Hi|exact He|exact Ho|done|].
    intros sh3 Hi3 [Q1 Q2 Q3 Q4 Q5]. exists K, order, []. constructor; cbn [fst snd]; try done.
    + by rewrite told_nil, app_nil_r.
    + rewrite Q4. by eapply oc_error.
  - pose proof (si_sizes _ _ _ _ _ _ _ _ _ Hi a e He) as Hsz. pose proof (not_in_order _ _ _ _ _ _ _ _ _ _ _ Hi He El) as Hno.
    apply wp_bind, wp_bind. eapply (inv_unmap secret Hsecret); [exact Hi|exact He|exact Hk|by eapply key_in|].
    intros K' chm m' Hi' Hn _. eapply wp_lru_update; [exact He|]. apply wp_bind. eapply wp_lru_update; [apply entry_with|].
    apply wp_bind. eapply wp_lru_update; [apply entry_with|]. rewrite !with_entry_twice.
    set (e' := set_cond ∅ (set_set_in_progress false (set_evicted true e))).
    apply wp_bind. eapply wp_entry_at; [apply entry_with|]. apply wp_ret.
    assert (seg_inv (Some a) (with_entry a e' (set_map chm sh)) K' order (TBlock (b_id v) :: T) m' F) as Hi2.
    { eapply inv_with; [exact Hi'|exact He|destruct Hsz; by constructor|done..]. }
    pose proof (inv_leaves secret kt Hspace Hsecret _ _ _ _ _ _ _ _ Hi2 (entry_with _ _ _) Hn O2 eq_refl eq_refl El O8 eq_refl O6 O7) as Hi3.
    exists K', order, []. constructor; cbn [fst snd]; try done.
    + unfold unreferenced. cbn [evicted e' set_cond set_set_in_progress set_evicted andb].
      eapply seg_inv_perm; [|exact Hi3]. cbn [pc_tokens block_tokens]. destruct (waiters e' =? 0); cbn; [by apply Permutation_swap|done].
    + eapply (keys_kept_with _ _ _ a e e'); [exact He|by left|done].
    + by rewrite told_nil, app_nil_r.
    + assert (content (with_entry a e' (set_map chm sh)) order = content sh order) as ->.
      { apply lru_content_ext. intros b Hb. apply (entry_with_ne a b e' (set_map chm sh)). by intros ->. }
      by eapply oc_error.
Qed.

(** ** The slot of a key *)
Lemma wp_set_owned i q sh K order T m F a kb v e k : seg_inv (Some a) sh K order (TBlock (b_id v) :: T) m F -> entries sh !! a = Some e ->
  owned (a ∈ K.*2) T a e -> e_key e = Some kb -> q = SetFull k (b_bytes v) -> key_ok kt k -> same (b_bytes kb) k = true ->
  count is_ref T < INT_MAX -> wp (set_owned secret q v sh a) m (done_with i q T sh order F).
Proof.
  intros Hi He Ho Hk Eq Hkey Hs Hfew. pose proof Ho as [O1 O2 O3 O4 O5 O6 [O7 O7'] O8 O9]. unfold set_owned.
  pose proof (si_sizes _ _ _ _ _ _ _ _ _ Hi a e He) as Hsz.
  apply wp_bind. eapply wp_lru_update; [exact He|]. set (e1 := set_set_in_progress true e). set (sh1 := with_entry a e1 sh).
  assert (quiet T sh sh1 order) as Hquiet by (by apply (quiet_with T sh _ order a e e1); auto).
  assert (seg_inv (Some a) sh1 K order (TBlock (b_id v) :: T) m F) as Hi1 by (eapply inv_with; [exact Hi|exact He|destruct Hsz; by constructor|done..]).
  eapply wp_mono; [|intros x m'; by apply (done_quiet _ _ _ _ _ _ sh1)].
  destruct (remote_setter sh1); [|eapply done_stored; [exact Hi1|apply entry_with|by constructor|exact Hk|exact Eq|done]].
  apply wp_bind. eapply (wp_hold a e1); [apply entry_with| |].
  { change (waiters e1) with (waiters e). rewrite O2. pose proof (count_at_entry_le is_ref a T). lia. }
  apply wp_ret. set (e2 := set_waiters (waiters e1 + 1) e1).
  assert (quiet T sh1 (with_entry a e2 sh1) order) as [Q1 _ _ Q2 _] by (apply (quiet_with T sh1 _ order a e1 e2); try done; [apply entry_with|by left]).
  exists K, order, []. constructor; cbn [fst snd]; try done.
  - eapply inv_close; [|apply entry_with|].
    + eapply inv_with; [|apply entry_with|destruct Hsz; by constructor|done..]. cbn [pc_tokens app].
      apply inv_take; [|eexists; apply entry_with|done]. apply inv_take; [exact Hi1|eexists; apply entry_with|done].
    + cbn [pc_tokens app at_entry]. rewrite !decide_True by done. rewrite decide_False by done.
      constructor; cbn [waiters e2 set_waiters e1 set_set_in_progress count is_ref cond]; try congruence.
      * change (waiters e1) with (waiters e). lia.
      * intros j Hj. specialize (O3 j Hj). set_solver.
      * right. unfold in_progress. cbn. by rewrite orb_true_r.
      * intros _. constructor; cbn; try done; [rewrite O8; cbn; lia|lia|]. rewrite O8. by destruct (in_lru e).
  - subst q. split; [done|]. exists e2, kb. split; [apply entry_with|done].
  - by rewrite told_nil, app_nil_r.
  - rewrite Q2. by apply oc_pending.
Qed.

Lemma owned_published there T a e : entry_ok there (at_entry a T) a e -> there -> in_progress e = false -> owned there T a e.
Proof.
  intros [Hw Hc _ Hp _ _] Ht [Hf Hs]%orb_false_iff. destruct (Hp Ht) as [P1 P2 P3 P4 P5 P6]. rewrite Hf in P4. rewrite Hs in P5.
  constructor; try done. destruct (in_lru e); by destruct P6.
Qed.

Lemma at_entry_blocks a b T : at_entry a (block_tokens b ++ T) = at_entry a T.
Proof. by destruct b. Qed.

(** The remote setter has answered. *)
Lemma inv_set_returns sh K order T m F a e : seg_inv None sh K order (TRef a :: TSet a :: T) m F -> entries sh !! a = Some e ->
  let e' := set_waiters (waiters e - 1) e in
  seg_inv (Some a) (with_entry a e' sh) K order T m F /\ owned (a ∈ K.*2) T a e'.
Proof.
  intros Hi He e'. pose proof (si_entries _ _ _ _ _ _ _ _ _ Hi a e He ltac:(done)) as [Hw Hc Hk Hp Hev Hpr].
  pose proof (si_sizes _ _ _ _ _ _ _ _ _ Hi a e He) as Hsz. cbn [at_entry about] in *. rewrite !decide_True in * by done.
  cbn [count is_ref is_fetch is_set is_free] in *.
  pose proof (count_nonneg is_ref (at_entry a T)) as H0. pose proof (count_nonneg is_set (at_entry a T)) as H1.
  assert (a ∈ K.*2) as Ha.
  { destruct (decide (a ∈ K.*2)) as [|Hn]; [done|exfalso]. destruct (evicted e) eqn:Eev.
    - destruct (Hev Hn eq_refl) as [_ _ [_ Hz] _]. cbn in Hz. lia.
    - destruct (Hpr Hn eq_refl) as [_ _ _ (Hz & _)]. cbn in Hz. lia. }
  destruct (Hp Ha) as [P1 P2 P3 P4 P5 P6]. cbn [count is_ref is_fetch is_set is_free] in *.
  assert (set_in_progress e = true /\ count is_set (at_entry a T) = 0) as [Es Cs] by (destruct (set_in_progress e); cbn in P5; [split; [done|lia]|lia]).
  assert (fetch_in_progress e = false) as Ef by (destruct (in_lru e); destruct P6 as [_ P6]; [done|by rewrite Es in P6]).
  rewrite Ef in P4. cbn in P4. split.
  - eapply inv_with; [|exact He|destruct Hsz; by constructor|done..].
    eapply (inv_drop _ _ _ _ _ _ _ _ a (TSet a)); [|by rewrite He|done].
    eapply (inv_drop _ _ _ _ _ _ _ _ a (TRef a)); [by apply inv_open|by rewrite He|done].
  - constructor; cbn; try done; try lia; [|by destruct (in_lru e); destruct P6].
    intros j Hj. specialize (Hc j Hj). set_solver.
Qed.

Lemma wp_set_returns i ok q sh K order T m F a v k : seg_inv None sh K order (TRef a :: TSet a :: TBlock (b_id v) :: T) m F ->
  q = SetFull k (b_bytes v) -> keyed kt sh k a ->
  wp (set_returns secret ok v sh a) m (done_with i q T sh order F).
Proof.
  intros Hi Eq (e & kb & He & Hk & Hs). destruct (inv_set_returns _ _ _ _ _ _ _ _ Hi He) as [Hi1 Ho].
  set (e' := set_waiters (waiters e - 1) e) in *. set (sh1 := with_entry a e' sh) in *.
  assert (quiet T sh sh1 order) as Hquiet by (by apply (quiet_with T sh _ order a e e'); auto).
  assert (owned (a ∈ K.*2) T a e') as Ho1 by (destruct Ho; by constructor).
  unfold set_returns, release. apply wp_bind, wp_bind, (wp_entry_at _ _ e); [done|]. eapply wp_lru_update; [exact He|]. fold e' sh1.
  eapply wp_mono; [|intros x m'; by apply (done_quiet _ _ _ _ _ _ sh1)]. destruct ok.
  - by eapply done_stored; [exact Hi1|apply entry_with|exact Ho1| | |].
  - by eapply done_not_stored; [exact Hi1|apply entry_with|exact Ho1|].
Qed.

(** ** The sections of a set *)
Lemma wp_placeholder ok sh K order T m F k (Q : ccache_shard * (nat + ccol_retval_t * option nat) -> mem -> Prop) :
  seg_inv None sh K order T m F -> key_ok kt k -> find_key kt k K = None ->
  (forall a kb sh' m', seg_inv (Some a) sh' (K ++ [(k, a)]) order T m' F -> entries sh' !! a = Some (keyed_entry kb false) ->
     b_bytes kb = k -> at_entry a T = [] -> only_new a sh sh' -> Q (sh', inl a) m') ->
  (forall err m', seg_inv None sh K order T m' F -> err <> ccol_success -> Q (sh, inr (err, None)) m') ->
  (forall err a sh' m', seg_inv None sh' K order (TFree a :: T) m' F -> err <> ccol_success -> only_new a sh sh' ->
     Q (sh', inr (err, Some a)) m') ->
  wp (create_and_insert_placeholder secret ok sh k) m Q.
Proof.
  intros Hi Hkey Hf HS HN HE. unfold create_and_insert_placeholder.
  apply wp_bind. eapply (wp_entry_alloc Hspace secret Hsecret kt); [exact Hi|done|intros; apply wp_ret; by apply HN|].
  intros a m1 Hi1 Hn Hnone. pose proof (at_entry_absent _ _ _ _ _ _ _ _ _ _ Hi Hnone) as HT.
  assert (only_new a sh (with_fresh a sh)) as Hnew by (split_and!; try done; intros b Hb; by apply lookup_insert_ne).
  assert (entries (with_fresh a sh) !! a = Some fresh_entry) as He by apply lookup_insert_eq.
  apply wp_bind. eapply (wp_alloc_token secret kt Hsecret); [exact Hi1|apply zlen_nonneg|intros; apply wp_ret; by apply HE|].
  intros b m2 Hi2 Hlen. apply wp_bind, wp_lru_fill; [done|]. set (kb := Block (b_id b) k). change (b_id b) with (b_id kb) in Hi2.
  pose proof (unpublished_keyed _ _ _ _ _ _ _ _ _ _ _ Hi2 He Hnew Hn HT) as Hup.
  apply wp_bind. eapply wp_lru_update; [exact He|]. change (set_entry_key (Some kb) (zlen k) fresh_entry) with (keyed_entry kb false).
  apply wp_bind. eapply (wp_lru_publish secret kt Hsecret sh K order T F a kb false); [exact Hup|done|done| |].
  2: { intros r chm m3 Hr Hup3. assert (r <> ccol_success /\ r <> ccol_key_already_present) as [R1 R2] by (destruct Hr; subst; done).
    rewrite !bool_decide_false by done. cbn [andb negb]. apply wp_ret.
    apply HE; [by eapply (unpublished_closed _ _ _ _ _ _ _ _ _ _ _ _ Hup3)|done|exact (up_new _ _ _ _ _ _ _ _ _ _ _ _ Hup3)]. }
  intros chm m3 Hi3. rewrite bool_decide_true by done. cbn [andb negb]. apply wp_ret. eapply (HS a kb); [|apply entry_with|done|done|].
  - eapply (inv_drop _ _ _ _ _ _ _ _ a (TFree a)); [exact Hi3|eexists; apply entry_with|done].
  - apply only_new_map, only_new_with, Hnew.
Qed.

Lemma quiet_new D T sh sh' K order U m F a e : seg_inv D sh K order U m F -> only_new a sh sh' -> entries sh' !! a = Some e -> evicted e = false ->
  quiet T sh sh' order.
Proof.
  intros Hi (Hn & Hne & Hf & Hr) He Hev. constructor; try done.
  - intros t b x kb _ _ Hx Hk. exists x. rewrite Hne; [done|]. intros ->. congruence.
  - apply lru_content_ext. intros b Hb. apply Hne. intros ->. apply (si_order _ _ _ _ _ _ _ _ _ Hi) in Hb as (x & Hx & _). congruence.
  - intros v (b & x & vb & Hx & Hxe & Hxv & Hb). exists b, x, vb. rewrite Hne in Hx; [done|]. intros ->. congruence.
Qed.

Lemma wp_set_locked i ok q v sh K order T m F : seg_inv None sh K order (TBlock (b_id v) :: T) m F -> request_ok kt q (Some v) ->
  count is_ref T < INT_MAX -> wp (set_locked secret i ok q v sh) m (done_with i q T sh order F).
Proof.
  intros Hi Hreq Hfew. pose proof Hreq as [Hkey Hq]. destruct q as [| |k x]; [done..|]. subst x. cbn [request_key] in *.
  unfold set_locked. cbn [request_key]. apply wp_bind. open_inv Hi.
  eapply (wp_map_lookup secret Hsecret kt); [exact Hmem|by destruct Hkeys|done|].
  destruct (find_key kt k K) as [a|] eqn:Ef.
  - destruct (found_readable _ _ _ _ _ _ _ _ _ _ Hi Ef) as (e & kb & He & Hk & Hs & Ha & _).
    apply wp_bind, (wp_entry_at _ _ e); [done|]. destruct (in_progress e) eqn:Eip.
    + eapply (wp_wait secret kt i _ (Some v)); [exact Hi|done|done|done|done|done|]. by exists e, kb.
    + eapply wp_set_owned; [by apply inv_open|exact He| |exact Hk|done|done|done|done].
      apply owned_published; try done. by apply Hen.
  - apply wp_bind. eapply wp_placeholder; [exact Hi|done|done| | |].
    + intros a kb sh' m' Hi' He Hkb HT Hnew. eapply wp_mono.
      * eapply wp_set_owned; [exact Hi'|exact He| |done|done|done|by rewrite Hkb; apply same_refl|done].
        cbn [at_entry about] in HT. rewrite decide_False in HT by done.
        constructor; cbn; rewrite ?HT; try done. rewrite fmap_app. set_solver.
      * intros r m2. apply (done_quiet _ _ _ _ _ _ sh'). by eapply quiet_new.
    + intros err m' Hi' Herr. apply wp_ret. exists K, order, []. constructor; try done; [by apply keys_kept_same|by rewrite told_nil, app_nil_r|by eapply oc_error].
    + intros err a sh' m' Hi' Herr Hnew. apply wp_ret. eapply done_new; [exact Hi|exact Hnew|exact Hi'|done|]. right. by eexists.
Qed.

Lemma wp_set_woken i ok q v sh K order T m F a : seg_inv None sh K order (TSleep i a :: TBlock (b_id v) :: T) m F ->
  request_ok kt q (Some v) -> keyed kt sh (request_key q) a -> count is_ref T < INT_MAX ->
  wp (set_woken secret i ok q v sh a) m (done_with i q T sh order F).
Proof.
  intros Hi Hreq Hkeyed Hfew. pose proof Hkeyed as (e & kb & He & Hk & Hs). pose proof Hreq as [Hkey Hq].
  unfold set_woken. apply wp_bind, (wp_entry_at _ _ e); [done|]. destruct (in_progress e) eqn:Eip.
  { by eapply (wp_cond_wait secret kt i q (Some v)). }
  destruct (inv_released secret kt Hspace Hsecret _ _ _ _ _ _ _ _ _ Hi He eq_refl eq_refl Eip) as (Hi1 & Hl & Hin).
  set (e' := set_waiters (waiters e - 1) e) in *. set (sh1 := with_entry a e' sh) in *.
  assert (quiet T sh sh1 order) as Hquiet by (by apply (quiet_with T sh _ order a e e'); auto).
  assert (entries sh1 !! a = Some e') as He1 by apply entry_with.
  unfold release. apply wp_bind, wp_bind, (wp_entry_at _ _ e); [done|]. eapply wp_lru_update; [exact He|]. fold e' sh1.
  apply wp_bind, (wp_entry_at _ _ e'); [done|]. eapply wp_mono; [|intros r m'; by apply (done_quiet _ _ _ _ _ _ sh1)].
  unfold loose, unreferenced in Hl. change (evicted e') with (evicted e) in *. destruct (evicted e) eqn:Eev; cbn [negb].
  - destruct (waiters e' =? 0); cbn [andb app] in Hl.
    + apply wp_ret. exists K, order, []. constructor; try done; [|by apply keys_kept_same|by rewrite told_nil, app_nil_r|by apply oc_pending].
      cbn [fst snd pc_tokens after_tokens block_tokens app]. eapply inv_close; [|exact He1|].
      * apply inv_take; [exact Hi1|by rewrite He1|done].
      * cbn [at_entry]. by rewrite decide_True.
    + eapply wp_set_locked; [|done|done]. by eapply inv_close.
  - destruct q as [| |k x]; [done..|]. subst x. eapply wp_set_owned; [exact Hi1|exact He1| |exact Hk|done|done|done|done].
    apply owned_published; [exact Hl|by apply Hin|done].
Qed.
End Sets.
