(* ===== verification/CLruThreads.v ===== *)
(** * The threads of a segment ([src/clrucache.c])

    One step of one thread, with the tokens of the other threads as what it
    may rely on, and the invariant of the whole. *)
From S2P Require Import Prelude Memory Values CHash COaMap CScMap CHashMap CHashMapRefine CHashMapIter.
From S2P Require Import CLruCache CLruSpec CLruSegment CLruOrder CLruInv CLruPrims CLruEvict CLruOpen CLruMoves CLruCalls CLruGets CLruStores CLruSets.
Import CHashMap.
Import LruCache.

(** ** Calls *)

(** A call whose pointers have the bytes their sizes claim. *)
Definition pair_ok (p : option user_pair) : Prop := exists c, p = to_pair c /\ carg_ok c.
Definition env_ok (v : env) : Prop :=
  match env_call v with
  | CallGetFull k _ => pair_ok k
  | CallGetInto k _ _ => pair_ok k
  | CallSetFull k x => pair_ok k /\ pair_ok x
  end.

Definition request_of (p : pc) : option request :=
  match p with Locking q _ | Sleeping q _ _ | Fetching q _ | Setting q _ _ => Some q | _ => None end.

(** Outside the critical sections of the cache a thread only checks
    arguments, frees and returns. *)
Definition goes_on (p p' : pc) : Prop :=
  match p with
  | Idle => reply_of p' = None \/ exists r, reply_of p' = Some (failed r) /\ r <> ccol_success
  | Finished _ => p' = Idle
  | _ => reply_of p' = reply_of p
  end.

Section Thread.
Context (secret : chmap_hash_secret) (kt : ccol_data_type).
Context {alloc : Allocator} (Hspace : forall (b : nat) n, grant b n = true -> Z.of_nat b < two64) (Hsecret : secret_ok secret).
Implicit Types (sh : ccache_shard) (a : nat) (e : ccache_entry) (k : list Z) (K : list (list Z * nat)) (order : list nat)
  (T : list token) (F : gset nat) (D : option nat) (q : request) (p : pc).
Local Abbreviation seg_inv := (seg_inv secret kt).
Local Abbreviation same := (same_key kt).

(** What a step of a thread does to the contents, and what is evicted. *)
Inductive effect sh C p p' : pair_list -> pair_list -> Prop :=
  | ef_call q C' out : request_of p = Some q -> outcome kt sh C q p' C' out -> effect sh C p p' C' out
  | ef_other : request_of p = None -> goes_on p p' -> effect sh C p p' C [].

Record thread_done i p T sh order F sh' p' m' K' order' out : Prop := ThreadDone {
  td_inv : seg_inv None sh' K' order' (pc_tokens i p' ++ T) m' F;
  td_kept : keys_kept T sh sh';
  td_fixed : fixed sh' = fixed sh;
  td_ok : pc_ok kt sh' p';
  td_reported : reported sh' = reported sh ++ told sh out;
  td_effect : effect sh (content sh order) p p' (content sh' order') out;
}.
Definition thread_step i p T sh order F (r : ccache_shard * pc) m' : Prop :=
  exists K' order' out, thread_done i p T sh order F r.1 r.2 m' K' order' out.

Lemma call_step i p q T sh order F r m' : request_of p = Some q -> done_with secret kt i q T sh order F r m' ->
  thread_step i p T sh order F r m'.
Proof. intros Hq (K' & o' & out & [D1 D2 D3 D4 D5 D6]). exists K', o', out. constructor; try done. by eapply ef_call. Qed.

Lemma other_step i p T sh K order F p' m' : request_of p = None -> goes_on p p' -> pc_ok kt sh p' ->
  seg_inv None sh K order (pc_tokens i p' ++ T) m' F -> thread_step i p T sh order F (sh, p') m'.
Proof.
  intros Hp Hg Hok Hi. exists K, order, []. constructor; try done; [by apply keys_kept_same|by rewrite told_nil, app_nil_r|by apply ef_other].
Qed.

(** ** The start of a call *)
Lemma wp_given_bytes c (p : COaMap.cmap_pair) m (Q : list Z -> mem -> Prop) : carg_ok c -> given (to_pair c) = Some p ->
  (forall bs, Forall is_byte bs -> zlen bs = COaMap.pair_size p -> 1 <= zlen bs < two64 -> Q bs m) ->
  wp (read_foreign (COaMap.pair_ptr p) (COaMap.pair_size p)) m Q.
Proof.
  intros Hc Hg HQ. destruct c as [[[bs|] n]|]; [| |done]; cbn in Hg; [|done].
  destruct (Z.eqb_spec n 0) as [|Hn]; [done|]. injection Hg as <-. cbn [COaMap.pair_ptr COaMap.pair_size] in *.
  destruct Hc as (Hl & Hn2 & Hb). cbn [read_foreign]. zcase; [|lia]. zcase; [|lia]. apply wp_ret.
  apply HQ; rewrite ?zlen_ztake by lia; try lia. by apply Forall_take.
Qed.

Lemma wp_key_arg sh K X F key m (Q : option (list Z) -> mem -> Prop) : beside secret kt (map sh) K m X F -> pair_ok key ->
  Q None m -> (forall k, key_ok kt k -> Q (Some k) m) -> wp (key_arg sh key) m Q.
Proof.
  intros (Hh & _) (c & -> & Hc) HN HS. unfold key_arg. destruct (given (to_pair c)) as [p|] eqn:Eg; [|by apply wp_ret].
  rewrite (proj1 (holds_types _ _ _ _ _ _ Hh)). change (CScMap.key_type _) with kt.
  destruct (key_size_matches_type_if_fixed_width kt (COaMap.pair_size p)) eqn:Ek; [|by apply wp_ret].
  apply wp_bind, (wp_given_bytes c); [done|done|]. intros bs Hb El Hl. apply wp_ret, HS. constructor; try done.
  by rewrite El.
Qed.

Lemma wp_idle i v sh K order T m F : seg_inv None sh K order T m F -> env_ok v ->
  wp (run_pc secret i v Idle sh) m (thread_step i Idle T sh order F).
Proof.
  intros Hi Hv. open_inv Hi. cbn [run_pc]. apply wp_bind.
  assert (forall r, r <> ccol_success -> wp (mret (Finished (failed r)) : M pc) m (fun p' m' =>
    wp (mret (sh, p') : M (ccache_shard * pc)) m' (thread_step i Idle T sh order F))) as Hfail.
  { intros r Hr. apply wp_ret, wp_ret, (other_step _ _ _ _ K); [done|right; by eexists|done|done]. }
  unfold env_ok in Hv. destruct (env_call v) as [k out|k b n|k x].
  - unfold clrucache_get_full. destruct (negb out); [by apply Hfail|]. apply wp_bind.
    eapply wp_key_arg; [exact Hmem|done|by apply Hfail|]. intros k' Hk. apply wp_ret, wp_ret, (other_step _ _ _ _ K); [done|by left| |done].
    by split.
  - unfold __clrucache_get_into. destruct (_ || _); [by apply Hfail|]. apply wp_bind.
    eapply wp_key_arg; [exact Hmem|done|by apply Hfail|]. intros k' Hk. apply wp_ret, wp_ret, (other_step _ _ _ _ K); [done|by left| |done].
    by split.
  - destruct Hv as [Hk (c & -> & Hc)]. unfold clrucache_set_full. destruct (given (to_pair c)) as [p|] eqn:Eg; [|by apply Hfail].
    apply wp_bind. eapply wp_key_arg; [exact Hmem|done|by apply Hfail|]. intros k' Hk'. apply wp_bind.
    assert (exists bs n, c = Some (Some bs, n) /\ COaMap.pair_size p = n /\ 0 <= n) as (bs & n & -> & En & Hn).
    { destruct c as [[[bs|] n]|]; [|done..]. exists bs, n. cbn in Eg. destruct (n =? 0); [done|]. injection Eg as <-. cbn. destruct Hc. split_and!; done || lia. }
    eapply (wp_alloc_token secret kt Hsecret); [exact Hi|lia| |].
    + intros m' Hi'. apply wp_ret, wp_ret, (other_step _ _ _ _ K); [done|right; by eexists|done|done].
    + intros b m' Hi' Hl. apply wp_bind, (wp_given_bytes _ _ _ _ Hc Eg). intros bytes Hb El _.
      apply wp_bind, wp_lru_fill; [lia|]. apply wp_ret, wp_ret, (other_step _ _ _ _ K); [done|by left|by split|done].
Qed.

(** ** Any step *)
Lemma without_step i p K sh order T U m m' F a p' : seg_inv None sh K order (TFree a :: U) m F -> request_of p = None -> goes_on p p' ->
  pc_ok kt (without a sh) p' -> seg_inv None (without a sh) K order (pc_tokens i p' ++ T) m' F ->
  thread_step i p T sh order F (without a sh, p') m'.
Proof.
  intros Hi Hp Hg Hok Hi'. exists K, order, []. constructor; try done; cbn [fst snd].
  - intros t b e kb Ht Hb He Hk. exists e. split; [|done].
    destruct (si_tokens _ _ _ _ _ _ _ _ _ Hi' t b) as [x Hx]; [set_solver|done|]. cbn in Hx |- *.
    apply lookup_delete_Some in Hx as [Hne _]. by rewrite lookup_delete_ne.
  - by rewrite told_nil, app_nil_r.
  - assert (content (without a sh) order = content sh order) as ->; [|by apply ef_other].
    apply lru_content_ext. intros b Hb. apply (si_order _ _ _ _ _ _ _ _ _ Hi') in Hb as (x & Hx & _). cbn in Hx |- *.
    apply lookup_delete_Some in Hx as [Hne Hx]. by rewrite lookup_delete_ne.
Qed.

Lemma wp_run_pc i v p sh K order T m F : seg_inv None sh K order (pc_tokens i p ++ T) m F -> pc_ok kt sh p -> env_ok v ->
  count is_ref T < INT_MAX -> wp (run_pc secret i v p sh) m (thread_step i p T sh order F).
Proof.
  intros Hi Hok Hv Hfew. destruct p as [|q nv|q nv a|q a|q b a|a k|b a r|r].
  - by eapply wp_idle.
  - cbn [run_pc]. eapply wp_mono; [|intros x m'; by apply (call_step i (Locking q nv) q)].
    destruct nv as [b|]; [by eapply wp_set_locked|]. eapply wp_get_locked; try done. by destruct q, Hok.
  - cbn [run_pc]. destruct Hok as [Hq Hk]. eapply wp_mono; [|intros x m'; by apply (call_step i (Sleeping q nv a) q)].
    destruct nv as [b|]; [by eapply wp_set_woken|]. eapply wp_get_woken; try done. by destruct q, Hq.
  - cbn [run_pc]. destruct Hok as [Hq Hk]. assert (is_get q = true) as Hg by (by destruct q, Hq). apply wp_bind.
    assert (forall f m', seg_inv None sh K order (TRef a :: TFetch a :: block_tokens f ++ T) m' F ->
      wp (fetch_returns secret (env_fetch_ok v) f q sh a) m' (thread_step i (Fetching q a) T sh order F)) as Hret.
    { intros f m' Hi'. eapply wp_mono; [by eapply wp_fetch_returns|]. intros x m2. by apply (call_step i (Fetching q a) q). }
    destruct (env_fetched v) as [bytes|]; [|by apply wp_ret, Hret]. apply wp_bind.
    eapply (wp_alloc_token secret kt Hsecret); [exact Hi|apply zlen_nonneg|intros; by apply wp_ret, Hret|].
    intros b m' Hi' Hl. apply wp_bind, wp_lru_fill; [done|]. apply wp_ret, (Hret (Some (Block (b_id b) bytes))).
    eapply seg_inv_perm; [|exact Hi']. cbn. solve_Permutation.
  - cbn [run_pc]. destruct Hok as [[Hkey Hq] Hk]. destruct q as [| |k x]; [done..|]. subst x.
    eapply wp_mono; [eapply (wp_set_returns secret kt Hspace Hsecret i _ (SetFull k (b_bytes b))); [exact Hi|done|exact Hk]|]. intros x m2. by apply (call_step i (Setting (SetFull k (b_bytes b)) b a) (SetFull k (b_bytes b))).
  - cbn [run_pc]. apply wp_bind. eapply (wp_entry_free Hspace secret Hsecret kt); [exact Hi|done|]. intros m' Hi'. apply wp_ret.
    eapply without_step; [exact Hi|done| | |].
    + by destruct k.
    + by destruct k.
    + destruct k as [r|q nv|b r]; [done|done|]. cbn [pc_tokens after_tokens block_tokens app] in *. done.
  - cbn [run_pc]. apply wp_bind. cbn [pc_tokens] in Hi.
    assert (forall m', seg_inv None sh K order ((match a with Some a => [TFree a] | None => [] end) ++ reply_tokens r ++ T) m' F ->
      wp (match a with Some a => mret (sh, Freeing a (ThenReturn r)) | None => mret (sh, Finished r) end) m'
        (thread_step i (Leaving b a r) T sh order F)) as Hret.
    { intros m' Hi'. destruct a as [a|]; by apply wp_ret, (other_step _ _ _ _ K). }
    rewrite <- !app_assoc in Hi. destruct b as [b|]; cbn [free_buffer]; [|apply wp_ret; by apply Hret].
    eapply (wp_free_token secret kt Hsecret); [exact Hi|]. by intros; apply Hret.
  - cbn [run_pc]. apply wp_bind. cbn [pc_tokens] in Hi. unfold reply_tokens in Hi. destruct (copy r) as [b|] eqn:Ec; cbn [free_buffer].
    + eapply (wp_free_token secret kt Hsecret); [exact Hi|]. intros m' Hi'. by apply wp_ret, (other_step _ _ _ _ K).
    + by apply wp_ret, wp_ret, (other_step _ _ _ _ K).
Qed.
End Thread.
