(* ===== verification/CLruSystem.v ===== *)
(** * The segment as a whole ([src/clrucache.c])

    The invariant of a segment with all its threads, from the creation of the
    segment over any interleaving of their steps to its destruction. *)
From S2P Require Import Prelude Memory Values CHash COaMap CScMap CScRefine CScOps CScSpec CHashMap CHashMapRefine CHashMapIter CHashMapSpec.
From S2P Require Import CLruCache CLruSpec CLruSegment CLruOrder CLruInv CLruPrims CLruEvict CLruOpen CLruMoves CLruCalls CLruGets CLruStores CLruSets CLruThreads.
Import CHashMap.
Import LruCache.

(** ** The tokens of all threads *)
Fixpoint thread_tokens (i : nat) (ts : list pc) : list token :=
  match ts with [] => [] | p :: ts => pc_tokens i p ++ thread_tokens (S i) ts end.

Section Tokens.
Implicit Types (ts : list pc) (p : pc).

Lemma tokens_set j ts i p p' : ts !! i = Some p ->
  thread_tokens j (<[i := p']> ts) ≡ₚ pc_tokens (j + i) p' ++ thread_tokens j (<[i := Idle]> ts).
Proof.
  revert j i. induction ts as [|x ts IH]; intros j [|i]; [done..| |].
  - intros _. cbn. by rewrite Nat.add_0_r.
  - intros Hi. cbn. rewrite (IH (S j) i Hi). replace (S j + i)%nat with (j + S i)%nat by lia. solve_Permutation.
Qed.

Lemma tokens_split ts i p : ts !! i = Some p -> thread_tokens 0 ts ≡ₚ pc_tokens i p ++ thread_tokens 0 (<[i := Idle]> ts).
Proof. intros Hi. rewrite <- (list_insert_id ts i p Hi) at 1. by eapply tokens_set. Qed.

Lemma tokens_in ts i p t : ts !! i = Some p -> t ∈ pc_tokens i p -> t ∈ thread_tokens 0 ts.
Proof. intros Hi Ht. rewrite (tokens_split ts i p Hi). apply elem_of_app. by left. Qed.

Lemma tokens_from j ts t : t ∈ thread_tokens j ts -> exists i p, ts !! i = Some p /\ t ∈ pc_tokens (j + i) p.
Proof.
  revert j. induction ts as [|x ts IH]; intros j; cbn; [by intros ?%not_elem_of_nil|].
  intros [Ht|Ht]%elem_of_app; [exists 0%nat, x; by rewrite Nat.add_0_r|].
  destruct (IH _ Ht) as (i & p & Hi & Hp). exists (S i), p. split; [done|]. by replace (j + S i)%nat with (S j + i)%nat by lia.
Qed.

Lemma block_tokens_refs f b : f = is_ref \/ f = is_fetch \/ f = is_set -> count f (block_tokens b) = 0.
Proof. intros [->|[->| ->]]; by destruct b. Qed.

Lemma pc_refs i p : count is_ref (pc_tokens i p) <= 1.
Proof.
  destruct p as [|q nv|q nv a|q a|q b a|a k|b a r|r]; cbn [pc_tokens].
  - done.
  - by rewrite block_tokens_refs by auto.
  - cbn. rewrite block_tokens_refs by auto. done.
  - done.
  - done.
  - cbn. destruct k as [r|q nv|b r]; cbn; unfold reply_tokens; by rewrite block_tokens_refs by auto.
  - rewrite !count_app. unfold reply_tokens. rewrite !block_tokens_refs by auto. by destruct a.
  - unfold reply_tokens. by rewrite block_tokens_refs by auto.
Qed.

Lemma thread_refs j ts : count is_ref (thread_tokens j ts) <= zlen ts.
Proof.
  revert j. induction ts as [|p ts IH]; intros j; [done|]. cbn [thread_tokens]. rewrite count_app, zlen_cons.
  pose proof (pc_refs j p). specialize (IH (S j)). lia.
Qed.

(** A thread adds one reference at most to those of the others. *)
Lemma other_refs ts i p : ts !! i = Some p -> count is_ref (thread_tokens 0 (<[i := Idle]> ts)) < zlen ts.
Proof.
  intros Hi. pose proof (thread_refs 0 (<[i := Fetching (GetFull []) 0]> ts)) as H.
  rewrite (count_perm _ _ _ (tokens_set 0 ts i p (Fetching (GetFull []) 0) Hi)), count_app in H.
  unfold zlen in *. rewrite length_insert in H. cbn [pc_tokens count is_ref] in H. lia.
Qed.
End Tokens.

(** ** The invariant *)
Section System.
Context (secret : chmap_hash_secret) (kt : ccol_data_type).
Context {alloc : Allocator} (Hspace : forall (b : nat) n, grant b n = true -> Z.of_nat b < two64) (Hsecret : secret_ok secret).
Implicit Types (sh : ccache_shard) (a i : nat) (e : ccache_entry) (k : list Z) (K : list (list Z * nat)) (order : list nat)
  (T : list token) (F : gset nat) (q : request) (p : pc) (ts : list pc) (c : config).
Local Abbreviation seg_inv := (seg_inv secret kt).
Local Abbreviation same := (same_key kt).

Record config_inv K order F c : Prop := ConfigInv {
  ci_seg : seg_inv None (cf_shard c) K order (thread_tokens 0 (cf_threads c)) (cf_mem c) F;
  ci_pcs : forall i p, cf_threads c !! i = Some p -> pc_ok kt (cf_shard c) p;
  ci_few : zlen (cf_threads c) <= INT_MAX;
}.

Lemma keyed_kept T sh sh' k a t : keyed kt sh k a -> keys_kept T sh sh' -> t ∈ T -> about t = Some a -> keyed kt sh' k a.
Proof. intros (e & kb & He & Hk & Hs) HT Ht Ha. destruct (HT t a e kb Ht Ha He Hk) as (e' & He' & Hk'). by exists e', kb. Qed.

Lemma pc_ok_kept j T sh sh' p : pc_ok kt sh p -> keys_kept T sh sh' -> (forall t, t ∈ pc_tokens j p -> t ∈ T) -> pc_ok kt sh' p.
Proof.
  intros Hok HT Hin. destruct p as [|q nv|q nv a|q a|q b a|a [r|q nv|b r]|b a r|r]; cbn in *; try done.
  - destruct Hok as [? Hk]. split; [done|]. eapply (keyed_kept _ _ _ _ _ (TSleep j a)); [done..|apply Hin; by left|done].
  - destruct Hok as [? Hk]. split; [done|]. eapply (keyed_kept _ _ _ _ _ (TRef a)); [done..|apply Hin; by left|done].
  - destruct Hok as [? Hk]. split; [done|]. eapply (keyed_kept _ _ _ _ _ (TRef a)); [done..|apply Hin; by left|done].
Qed.

(** What the running thread sees of the others. *)
Lemma config_run K order F m sh ts i p v : config_inv K order F (Config m sh ts) -> ts !! i = Some p -> env_ok v ->
  wp (run_pc secret i v p sh) m (thread_step secret kt i p (thread_tokens 0 (<[i := Idle]> ts)) sh order F).
Proof.
  intros [Hi Hp Hf] Hts Hv. cbn in *. eapply (wp_run_pc secret kt Hspace Hsecret); [|by eapply Hp|done|].
  - eapply seg_inv_perm; [|exact Hi]. by apply tokens_split.
  - pose proof (other_refs ts i p Hts). lia.
Qed.

Lemma config_ran K order F m sh ts i p v sh' p' m' : config_inv K order F (Config m sh ts) -> ts !! i = Some p -> env_ok v ->
  run_pc secret i v p sh m = Done (sh', p') m' ->
  exists K' order' out, config_inv K' order' F (Config m' sh' (<[i := p']> ts)) /\ fixed sh' = fixed sh /\
    reported sh' = reported sh ++ told sh out /\ effect kt sh (content sh order) p p' (content sh' order') out.
Proof.
  intros Hc Hts Hv Hrun. pose proof (config_run _ _ _ _ _ _ _ _ _ Hc Hts Hv) as Hw. unfold wp in Hw. rewrite Hrun in Hw.
  destruct Hw as (K' & order' & out & [D1 D2 D3 D4 D5 D6]). destruct Hc as [Hi Hp Hf]. cbn in *.
  exists K', order', out. split; [|done]. constructor; cbn.
  - eapply seg_inv_perm; [|exact D1]. symmetry. by apply (tokens_set 0 ts i p p').
  - intros j pj Hj. destruct (decide (j = i)) as [->|Hne].
    + rewrite list_lookup_insert_eq in Hj by (by eapply lookup_lt_Some). by injection Hj as <-.
    + rewrite list_lookup_insert_ne in Hj by done. eapply pc_ok_kept; [by eapply Hp|exact D2|].
      intros t Ht. eapply (tokens_in _ j pj); [by rewrite list_lookup_insert_ne|exact Ht].
  - unfold zlen in *. by rewrite length_insert.
Qed.

(** A wake-up without a broadcast. *)
Lemma config_woke K order F m sh ts i q nv a e : config_inv K order F (Config m sh ts) -> ts !! i = Some (Sleeping q nv a) ->
  entries sh !! a = Some e ->
  let sh' := set_entries (<[a := set_cond (cond e ∖ {[i]}) e]> (entries sh)) sh in
  config_inv K order F (Config m sh' ts) /\ content sh' order = content sh order.
Proof.
  intros [Hi Hp Hf] Hts He sh'. cbn in *. set (e' := set_cond (cond e ∖ {[i]}) e).
  pose proof (si_entries _ _ _ _ _ _ _ _ _ Hi a e He ltac:(done)) as [Hw Hc Hk Hpub Hev Hpr].
  pose proof (si_sizes _ _ _ _ _ _ _ _ _ Hi a e He) as Hsz.
  assert (quiet (thread_tokens 0 ts) sh sh' order) as [Q1 _ _ Q2 _] by (by apply (quiet_with _ sh _ order a e e'); auto).
  split; [|exact Q2]. constructor; cbn; [| |done].
  - change sh' with (with_entry a e' sh). eapply inv_close; [|apply entry_with|].
    + eapply inv_with; [by apply inv_open|done|destruct Hsz; by constructor|done..].
    + constructor; try done.
      * intros j. cbn. intros [Hj _]%elem_of_difference. by apply Hc.
      * cbn. destruct Hk as [->|Hk]; [left; set_solver|by right].
      * intros H. destruct (Hpub H). by constructor.
      * intros H H2. destruct (Hev H H2). by constructor.
      * intros H H2. destruct (Hpr H H2). by constructor.
  - intros j pj Hj. eapply pc_ok_kept; [by eapply Hp|exact Q1|]. intros t Ht. by eapply tokens_in.
Qed.

Lemma config_step K order F c c' : config_inv K order F c -> step secret env_ok c c' -> exists K' order', config_inv K' order' F c'.
Proof.
  intros Hc Hs. destruct Hs as [m sh ts i v p sh' p' m' Hv Hts _ Hrun|m sh ts i q nv a e Hts He].
  - destruct (config_ran _ _ _ _ _ _ _ _ _ _ _ _ Hc Hts Hv Hrun) as (K' & o' & out & Hc' & _). by exists K', o'.
  - exists K, order. by eapply config_woke.
Qed.

Lemma config_steps K order F c c' : config_inv K order F c -> rtc (step secret env_ok) c c' -> exists K' order', config_inv K' order' F c'.
Proof.
  intros Hc Hs. revert K order Hc. induction Hs as [|c1 c2 c3 Hs _ IH]; intros K order Hc; [by exists K, order|].
  destruct (config_step _ _ _ _ _ Hc Hs) as (K' & o' & Hc'). by eapply IH.
Qed.
End System.
