(* ===== verification/CLruMain.v ===== *)
(** * What a segment guarantees its threads ([src/clrucache.c])

    The theorems: no thread runs into undefined behaviour or a failed
    assertion, whatever the interleaving; sleepers are woken; a key has one
    remote operation at a time; the bounds; the contents are those of a cache
    with a least-recently-used order; and the destruction gives everything
    back. *)
From S2P Require Import Prelude Memory Values CHash COaMap CScMap CScRefine CScOps CScSpec CHashMap CHashMapRefine CHashMapIter CHashMapSpec.
From S2P Require Import CLruCache CLruSpec CLruSegment CLruOrder CLruInv CLruPrims CLruEvict CLruOpen CLruMoves CLruCalls CLruGets CLruStores CLruSets CLruThreads CLruSystem.
Import CHashMap.
Import LruCache.

(** The thread has the remote getter or setter of an entry running. *)
Definition operates (p : pc) (a : nat) : Prop :=
  match p with Fetching _ b | Setting _ _ b => b = a | _ => False end.

Section Facts.
Context (secret : chmap_hash_secret) (kt : ccol_data_type).
Implicit Types (sh : ccache_shard) (a i j : nat) (e : ccache_entry) (k : list Z) (K : list (list Z * nat)) (order : list nat)
  (T : list token) (F : gset nat) (q : request) (p : pc) (ts : list pc) (c : config).
Local Abbreviation config_inv := (config_inv secret kt).

(** ** Operations in progress *)
Definition is_op (t : token) : bool := is_fetch t || is_set t.

Lemma count_ops T : count is_op T = count is_fetch T + count is_set T.
Proof. induction T as [|[] T IH]; cbn in *; lia. Qed.

Lemma count_pos f T : 0 < count f T -> exists t, t ∈ T /\ f t = true.
Proof.
  induction T as [|t T IH]; cbn; [lia|]. destruct (f t) eqn:E; [exists t; split; [by left|done]|].
  intros H. destruct IH as (u & Hu & Hf); [lia|]. exists u. split; [by right|done].
Qed.

Lemma block_token_in t b : t ∈ block_tokens b -> exists n, t = TBlock n.
Proof. destruct b as [b|]; cbn; [|by intros ?%not_elem_of_nil]. intros ->%list_elem_of_singleton. by eexists. Qed.

Lemma op_token i p t a : t ∈ pc_tokens i p -> is_op t = true -> about t = Some a -> operates p a.
Proof.
  intros Ht Hop Ha. assert (forall b, t ∉ block_tokens b) as Hb by (intros b (n & ->)%block_token_in; discriminate).
  destruct p as [|q nv|q nv b|q b|q v b|b k|v b r|r]; cbn [pc_tokens] in Ht; cbn [operates].
  - by apply not_elem_of_nil in Ht.
  - by destruct (Hb nv).
  - apply elem_of_cons in Ht as [->|Ht]; [done|by destruct (Hb nv)].
  - repeat (apply elem_of_cons in Ht as [->|Ht]; [cbn in *; by try (injection Ha as ->)|]). by apply not_elem_of_nil in Ht.
  - repeat (apply elem_of_cons in Ht as [->|Ht]; [cbn in *; by try (injection Ha as ->)|]). by apply not_elem_of_nil in Ht.
  - apply elem_of_cons in Ht as [->|Ht]; [done|]. destruct k as [r|q nv|v r]; cbn in Ht; [by destruct (Hb (copy r))|by destruct (Hb nv)|].
    apply elem_of_cons in Ht as [->|Ht]; [done|by destruct (Hb (copy r))].
  - apply elem_of_app in Ht as [Ht|[Ht|Ht]%elem_of_app]; [by destruct (Hb v)| |by destruct (Hb (copy r))].
    destruct b; [apply list_elem_of_singleton in Ht as ->; done|by apply not_elem_of_nil in Ht].
  - by destruct (Hb (copy r)).
Qed.

Lemma operates_token i p a : operates p a -> 1 <= count is_op (at_entry a (pc_tokens i p)) /\ TRef a ∈ pc_tokens i p.
Proof. destruct p; cbn; try done; intros ->; rewrite !decide_True by done; try rewrite decide_False by done; by split; [|left]. Qed.

(** An operation in progress on an entry is one thread's. *)
Lemma in_progress_operates K order F c a e : config_inv K order F c -> entries (cf_shard c) !! a = Some e ->
  published_ok (at_entry a (thread_tokens 0 (cf_threads c))) e -> in_progress e = true ->
  exists j p, cf_threads c !! j = Some p /\ operates p a.
Proof.
  intros [Hi _ _] He [P1 P2 P3 P4 P5 P6] Hip.
  assert (0 < count is_op (at_entry a (thread_tokens 0 (cf_threads c)))) as Hc.
  { rewrite count_ops, P4, P5. unfold in_progress in Hip. destruct (fetch_in_progress e), (set_in_progress e); cbn in *; done || lia. }
  destruct (count_pos _ _ Hc) as (t & [Ht Ha]%at_entry_in & Hop). destruct (tokens_from _ _ _ Ht) as (j & p & Hj & Hp).
  exists j, p. split; [done|]. by eapply op_token.
Qed.

Lemma operates_published K order F c i p a : config_inv K order F c -> cf_threads c !! i = Some p -> operates p a ->
  exists e, entries (cf_shard c) !! a = Some e /\ a ∈ K.*2 /\ published_ok (at_entry a (thread_tokens 0 (cf_threads c))) e.
Proof.
  intros [Hi _ _] Hp Ho. destruct (operates_token i p a Ho) as [H1 H2].
  destruct (si_tokens _ _ _ _ _ _ _ _ _ Hi (TRef a) a) as [e He]; [by eapply tokens_in|done|]. exists e. split; [done|].
  pose proof (si_entries _ _ _ _ _ _ _ _ _ Hi a e He ltac:(done)) as [_ _ _ Hpub Hev Hpr].
  set (T := at_entry a (thread_tokens 0 (cf_threads c))) in *.
  assert (1 <= count is_fetch T + count is_set T) as Hc.
  { unfold T. rewrite <- count_ops, (count_perm _ _ _ (at_entry_perm a _ _ (tokens_split _ _ _ Hp))), at_entry_app, count_app.
    pose proof (count_nonneg is_op (at_entry a (thread_tokens 0 (<[i := Idle]> (cf_threads c))))). lia. }
  destruct (decide (a ∈ K.*2)) as [Ha|Hn]; [by split; [|apply Hpub]|exfalso]. destruct (evicted e) eqn:E.
  - destruct (Hev Hn eq_refl) as [_ _ [? ?] _]. lia.
  - destruct (Hpr Hn eq_refl) as [_ _ _ (_ & ? & ? & _)]. lia.
Qed.

Lemma operates_once K order F c i j p p' a : config_inv K order F c -> cf_threads c !! i = Some p -> cf_threads c !! j = Some p' ->
  operates p a -> operates p' a -> i = j.
Proof.
  intros Hc Hp Hp' Ho Ho'. destruct (decide (i = j)) as [|Hne]; [done|exfalso].
  destruct (operates_published _ _ _ _ _ _ _ Hc Hp Ho) as (e & He & Ha & [P1 P2 P3 P4 P5 P6]).
  assert (2 <= count is_op (at_entry a (thread_tokens 0 (cf_threads c)))) as H2.
  { rewrite (count_perm _ _ _ (at_entry_perm a _ _ (tokens_split _ _ _ Hp))), at_entry_app, count_app.
    assert (<[i := Idle]> (cf_threads c) !! j = Some p') as Hj by (by rewrite list_lookup_insert_ne).
    rewrite (count_perm _ (at_entry a (thread_tokens 0 (<[i := Idle]> (cf_threads c)))) _ (at_entry_perm a _ _ (tokens_split _ _ _ Hj))), at_entry_app, count_app.
    pose proof (operates_token i p a Ho) as [H _]. pose proof (operates_token j p' a Ho') as [H' _].
    pose proof (count_nonneg is_op (at_entry a (thread_tokens 0 (<[j := Idle]> (<[i := Idle]> (cf_threads c)))))). lia. }
  rewrite count_ops, P4, P5 in H2. destruct (in_lru e), (fetch_in_progress e), (set_in_progress e); cbn in *; destruct P6; done || lia.
Qed.

(** A thread sleeps only for an operation in progress. *)
Lemma sleeper_operates K order F c i p a q nv : config_inv K order F c -> cf_threads c !! i = Some p -> p = Sleeping q nv a ->
  asleep i p (cf_shard c) -> exists j p', cf_threads c !! j = Some p' /\ operates p' a.
Proof.
  intros Hc Hp -> (e & He & Hi). pose proof Hc as [Hs _ _].
  pose proof (si_entries _ _ _ _ _ _ _ _ _ Hs a e He ltac:(done)) as [Hw Hcd Hk Hpub Hev Hpr].
  destruct Hk as [Hk|Hip]; [by rewrite Hk in Hi; apply not_elem_of_empty in Hi|].
  assert (0 < count is_ref (at_entry a (thread_tokens 0 (cf_threads c)))) as Hr by (eapply count_in; [by apply Hcd|done]).
  eapply (in_progress_operates K order F c a e); [done|done| |done].
  destruct (decide (a ∈ K.*2)) as [Ha|Hn]; [by apply Hpub|exfalso]. destruct (evicted e) eqn:E.
  - destruct (Hev Hn eq_refl) as [_ [Hf Hst] _ _]. unfold in_progress in Hip. by rewrite Hf, Hst in Hip.
  - destruct (Hpr Hn eq_refl) as [_ _ _ (Hz & _)]. lia.
Qed.

(** ** One operation for a key *)
Lemma operates_key K order F c i p a : config_inv K order F c -> cf_threads c !! i = Some p -> operates p a ->
  exists q, request_of p = Some q /\ key_ok kt (request_key q) /\ find_key kt (request_key q) K = Some a.
Proof.
  intros Hc Hp Ho. destruct (operates_published _ _ _ _ _ _ _ Hc Hp Ho) as (e & He & Ha & _).
  pose proof (ci_pcs _ _ _ _ _ _ Hc i p Hp) as Hok.
  assert (exists q, request_of p = Some q /\ key_ok kt (request_key q) /\ keyed kt (cf_shard c) (request_key q) a) as (q & Hq & Hkey & Hk).
  { destruct p as [| | |q b|q v b| | |]; try done; cbn in Ho; subst b; destruct Hok as [[? ?] ?]; by exists q. }
  exists q. split; [done|]. split; [done|]. destruct Hk as (x & kb & Hx & Hkx & Hs). rewrite He in Hx. injection Hx as <-.
  pose proof (ci_seg _ _ _ _ _ _ Hc) as Hi. destruct (si_keys _ _ _ _ _ _ _ _ _ Hi) as [HK _].
  eapply find_key_in; [done|done|by eapply (key_in secret kt)|done].
Qed.

Lemma find_key_same k1 k2 K a1 a2 : keys_ok kt K -> key_ok kt k1 -> key_ok kt k2 -> same_key kt k1 k2 = true ->
  find_key kt k1 K = Some a1 -> find_key kt k2 K = Some a2 -> a1 = a2.
Proof.
  intros HK H1 H2 Hs E1 E2. destruct (find_key_some _ _ _ _ E1) as (k' & Hin & Hk').
  assert (key_ok kt k') as Hok' by (destruct HK as [Hk _ _]; exact (proj1 (Forall_forall _ _) Hk _ Hin)).
  assert (find_key kt k2 K = Some a1) as E by (eapply find_key_in; [done|done|exact Hin|by apply (same_trans kt k' k1 k2)]).
  congruence.
Qed.
End Facts.

(** ** The contents as the links have them

    The entries from the first sentinel to the last; [None] when the links do
    not lead there.  One step for each entry and one more are enough, unless
    the links run in a circle. *)
Fixpoint walk (fuel : nat) (nx : nodes) (n : lru_node) : option (list nat) :=
  match fuel with
  | O => None
  | S fuel =>
      match mjoin (nx !! n) with
      | Some (lru_entry a) => cons a <$> walk fuel nx (lru_entry a)
      | Some lru_tail => Some []
      | _ => None
      end
  end.
Definition lru_order (sh : ccache_shard) : option (list nat) := walk (S (size (entries sh))) (next sh) lru_head.
Definition contents (sh : ccache_shard) : pair_list := content sh (default [] (lru_order sh)).
#[global] Arguments lru_order : simpl never.
#[global] Arguments contents : simpl never.

Lemma walk_linked pv nx n order fuel : linked_from pv nx n ((lru_entry <$> order) ++ [lru_tail]) -> (length order < fuel)%nat ->
  walk fuel nx n = Some order.
Proof.
  revert n fuel. induction order as [|a o IH]; intros n [|fuel]; cbn [length]; try lia; cbn; intros (H1 & _ & H2) Hf; rewrite H1; [done|].
  cbn. rewrite (IH (lru_entry a) fuel H2) by lia. done.
Qed.

Section Walk.
Context (secret : chmap_hash_secret) (kt : ccol_data_type).
Local Abbreviation seg_inv := (seg_inv secret kt).

Lemma order_size D sh K order T m F : seg_inv D sh K order T m F -> (length order <= size (entries sh))%nat.
Proof.
  intros Hi. rewrite <- (size_dom (D := gset nat)). rewrite <- (size_list_to_set (C := gset nat)) by apply (si_nodup _ _ _ _ _ _ _ _ _ Hi).
  apply subseteq_size. intros a Ha%elem_of_list_to_set. apply (si_order _ _ _ _ _ _ _ _ _ Hi) in Ha as (e & He & _).
  apply elem_of_dom. by exists e.
Qed.

Lemma order_walked D sh K order T m F : seg_inv D sh K order T m F -> lru_order sh = Some order.
Proof.
  intros Hi. eapply walk_linked; [exact (si_linked _ _ _ _ _ _ _ _ _ Hi)|]. pose proof (order_size _ _ _ _ _ _ _ Hi). lia.
Qed.

Lemma contents_walked D sh K order T m F : seg_inv D sh K order T m F -> contents sh = content sh order.
Proof. intros Hi. unfold contents. by rewrite (order_walked _ _ _ _ _ _ _ Hi). Qed.
End Walk.

(** ** Creation *)
Section Life.
Context (secret : chmap_hash_secret) (kt : ccol_data_type).
Context {alloc : Allocator} (Hspace : forall (b : nat) n, grant b n = true -> Z.of_nat b < two64) (Hsecret : secret_ok secret).
Implicit Types (sh : ccache_shard) (a i j : nat) (e : ccache_entry) (k : list Z) (K : list (list Z * nat)) (order : list nat)
  (T : list token) (F : gset nat) (q : request) (p : pc) (ts : list pc) (c : config).
Local Abbreviation seg_inv := (seg_inv secret kt).
Local Abbreviation config_inv := (config_inv secret kt).
Local Abbreviation same := (same_key kt).

Lemma wp_free_last b m F (Q : unit -> mem -> Prop) : owns m ∅ ({[b]} ∪ F) -> (b ∉ F) -> (forall m', owns m' ∅ F -> Q tt m') ->
  wp (_ccol_mem_free b) m Q.
Proof.
  intros Ho Hb HQ. apply (wp_free_owns b m (∅ ∪ {[b]}) F); [apply owns_join; [done|set_solver]|set_solver|].
  intros m' Ho'. apply HQ. apply (owns_change _ _ _ _ Ho'). set_solver.
Qed.

Lemma wp_shard_create capacity getter setter cb procs interned mutex_ok m F : 1 <= capacity < two64 -> owns m ∅ F ->
  wp (shard_create capacity kt getter setter cb procs interned mutex_ok) m (fun r m' =>
    match r with
    | None => owns m' ∅ F
    | Some sh => seg_inv None sh [] [] [] m' F /\ sh_capacity sh = capacity /\ reported sh = []
    end).
Proof.
  intros Hcap Ho. unfold shard_create. apply wp_bind. apply (wp_calloc_owns 1 _ m ∅ F); [done|done| |].
  { intros m' Ho' _. by apply wp_ret. }
  intros b m1 Ho1 _ HbF _ _. assert (owns m1 ∅ ({[b_id b]} ∪ F)) as Ho2 by (apply owns_split; [owns_tac|set_solver]).
  assert (forall m', owns m' ∅ ({[b_id b]} ∪ F) -> wp (_ccol_mem_free (b_id b);; mret None) m' (fun (r : option ccache_shard) m' =>
    match r with None => owns m' ∅ F | Some sh => seg_inv None sh [] [] [] m' F /\ sh_capacity sh = capacity /\ reported sh = [] end)) as Hfail.
  { intros m' Ho'. apply wp_bind, (wp_free_last _ _ F); [done|done|]. intros m2 H2. by apply wp_ret. }
  apply wp_bind. unfold chashmap_create_full.
  apply (wp_chmap_create secret Hsecret CHMAP_DEFAULT_INITIAL_BUCKET_ARRAY_SIZE (seg_config kt) procs interned
    _ m1 ({[b_id b]} ∪ F)); [done|intros _; apply seg_config_ok|done|by exists 4|exact Ho2| | |].
  - intros err _. by apply Hfail.
  - intros err m' _ Ho' _. by apply Hfail.
  - intros chm m' _ [Hh _]. destruct mutex_ok; cbn [negb].
    2: { apply wp_bind. eapply (wp_chm_destroy secret Hsecret); [exact Hh|]. intros m2 H2. by apply Hfail. }
    apply wp_ret. split; [|done]. constructor; cbn; try done.
    + split; [done|]. change (zlen []) with 0. lia.
    + constructor.
    + intros n. rewrite lookup_insert_is_Some. destruct n as [| |a]; cbn; [|naive_solver|].
      * split; [done|]. intros _. right. split; [done|]. by rewrite lookup_singleton_eq.
      * split; [|by intros []]. intros [?|[_ [x Hx]]]; [done|]. by apply lookup_singleton_Some in Hx as [? _].
    + intros n. rewrite lookup_insert_is_Some. destruct n as [| |a]; cbn; [naive_solver| |].
      * split; [done|]. intros _. right. split; [done|]. by rewrite lookup_singleton_eq.
      * split; [|by intros []]. intros [?|[_ [x Hx]]]; [done|]. by apply lookup_singleton_Some in Hx as [? _].
    + intros a. split; [by intros ?%not_elem_of_nil|]. intros (x & Hx & _). by rewrite lookup_empty in Hx.
    + split; [constructor; constructor|constructor].
    + by intros k a ?%not_elem_of_nil.
    + by intros t a ?%not_elem_of_nil.
    + split; [|split; [apply NoDup_singleton|intros x ->%list_elem_of_singleton; done]].
      cbn. change (list_to_set (entry_blocks ∅ ++ []) : gset nat) with (∅ : gset nat). by rewrite union_empty_r_L.
Qed.
(** ** Destruction *)
(** Without a call under way there are only live entries. *)
Lemma idle_live sh K order m F a e : seg_inv None sh K order [] m F -> entries sh !! a = Some e -> a ∈ order.
Proof.
  intros Hi He. pose proof (si_entries _ _ _ _ _ _ _ _ _ Hi a e He ltac:(done)) as [Hw _ _ Hp Hev Hpr]. cbn in Hw.
  destruct (decide (a ∈ K.*2)) as [Ha|Hn].
  - destruct (Hp Ha) as [_ _ _ P4 P5 P6]. cbn in P4, P5. apply (si_order _ _ _ _ _ _ _ _ _ Hi). exists e. split; [done|].
    destruct (in_lru e); [done|]. destruct P6 as [_ P6]. by destruct (fetch_in_progress e), (set_in_progress e).
  - exfalso. destruct (evicted e).
    + destruct (Hev Hn eq_refl) as [_ _ _ E]. by rewrite Hw in E.
    + by destruct (Hpr Hn eq_refl) as [_ _ _ (_ & _ & _ & ?)].
Qed.

Lemma told_app sh l1 l2 : told sh (l1 ++ l2) = told sh l1 ++ told sh l2.
Proof. unfold told. by destruct (eviction_cb sh). Qed.

Lemma told_last sh sh' K K' o v T m m' F : seg_inv None sh K (o ++ [v]) T m F -> evicted_last secret kt None sh K o v T F sh' K' m' ->
  reported sh' ++ told sh' (rev (content sh' o)) = reported sh ++ told sh (rev (content sh (o ++ [v]))).
Proof.
  intros Hi [E1 E2 E3 E4 E5 (e & He & E6) E7]. destruct (live_pair _ _ _ _ _ _ _ _ _ v Hi) as (x & p & Hx & Hp & Hc); [done|set_solver|].
  rewrite He in Hx. injection Hx as <-. unfold fixed in E7. injection E7 as _ _ _ _ Ecb.
  rewrite lru_content_app, Hc, rev_app_distr, E6, <- app_assoc. f_equal. cbn [rev app].
  assert (content sh' o = content sh o) as ->.
  { apply lru_content_ext. intros b Hb. apply E2. intros ->. pose proof (si_nodup _ _ _ _ _ _ _ _ _ Hi) as Hd.
    apply NoDup_app in Hd as (_ & Hd & _). apply (Hd v Hb). by left. }
  unfold reports, told. rewrite Ecb. destruct (eviction_cb sh); [|done]. by rewrite Hp.
Qed.

Lemma wp_shard_destroy sh K order m F (Q : pair_list -> mem -> Prop) : seg_inv None sh K order [] m F ->
  (forall m', owns m' ∅ F -> Q (reported sh ++ told sh (rev (content sh order))) m') -> wp (shard_destroy secret sh) m Q.
Proof.
  intros Hi HQ. unfold shard_destroy. apply wp_bind. set (total := reported sh ++ told sh (rev (content sh order))) in *.
  apply (wp_loop (fun s m => exists K o, seg_inv None s K o [] m F /\ reported s ++ told s (rev (content s o)) = total)
    (fun s => Z.to_nat (sh_size s))).
  2: { by exists K, order. }
  2: { rewrite (proj1 (si_size _ _ _ _ _ _ _ _ _ Hi)). unfold zlen. rewrite Nat2Z.id. pose proof (order_size _ _ _ _ _ _ _ _ _ Hi). lia. }
  clearbody total. clear K order m Hi. intros s m (K & o & Hi & Et). apply wp_bind. eapply (wp_evict_lru secret kt Hspace Hsecret); [exact Hi|done| |].
  - intros ->. apply wp_ret. cbn beta iota.
    assert (forall a, entries s !! a = None) as Hne.
    { intros a. destruct (entries s !! a) as [e|] eqn:E; [|done]. by apply (idle_live _ _ _ _ _ _ _ Hi), not_elem_of_nil in E. }
    assert (K = []) as ->.
    { destruct K as [|[k a] K]; [done|]. destruct (si_has _ _ _ _ _ _ _ _ _ Hi k a) as (e & _ & He & _); [by left|]. by rewrite Hne in He. }
    assert (entries s = ∅) as Ee by (apply map_eq; intros a; by rewrite Hne, lookup_empty).
    destruct (si_mem _ _ _ _ _ _ _ _ _ Hi) as (Hh & Hd & HF). rewrite Ee in Hh, Hd, HF.
    change (entry_blocks ∅ ++ token_blocks []) with (@nil nat) in *.
    apply wp_bind. eapply (wp_chm_destroy secret Hsecret); [exact Hh|]. intros m1 Ho1. apply wp_bind, (wp_free_last _ _ F).
    + apply (eq_rect _ (fun X => owns m1 ∅ X) Ho1). cbn. set_solver.
    + apply HF. by left.
    + intros m2 Ho2. apply wp_ret. change (content s []) with (@nil (list Z * list Z)) in Et. cbn [rev] in Et.
      rewrite told_nil, app_nil_r in Et. rewrite Et. by apply HQ.
  - intros o' v s' K' m' -> Hev. apply wp_ret. cbn beta iota. pose proof (el_inv _ _ _ _ _ _ _ _ _ _ _ _ Hev) as Hi'. split.
    + exists K', o'. split; [done|]. rewrite <- Et. by eapply told_last.
    + rewrite (proj1 (si_size _ _ _ _ _ _ _ _ _ Hi)), (proj1 (si_size _ _ _ _ _ _ _ _ _ Hi')). unfold zlen.
      rewrite length_app. cbn. lia.
Qed.
End Life.

(** ** Any interleaving

    [always P]: a segment is created, [n] threads use it, and [P] holds of
    every state any interleaving of their steps reaches. *)
Section Theorems.
Context (secret : chmap_hash_secret) (kt : ccol_data_type).
Context {alloc : Allocator} (Hspace : forall (b : nat) n, grant b n = true -> Z.of_nat b < two64) (Hsecret : secret_ok secret).
Context (capacity : Z) (getter setter cb : bool) (procs : option ccol_memmgmt_procs_t) (interned mutex_ok : bool).
Context (n : nat) (m0 : mem) (F : gset nat).
Local Abbreviation config_inv := (config_inv secret kt).
Local Abbreviation run_pc := (run_pc secret).

Definition always (P : config -> Prop) : Prop :=
  wp (shard_create capacity kt getter setter cb procs interned mutex_ok) m0 (fun r m =>
    match r with
    | None => owns m ∅ F
    | Some sh => forall c, rtc (step secret env_ok) (Config m sh (replicate n Idle)) c -> P c
    end).

Hypothesis Hcap : 1 <= capacity < two64.
Hypothesis Hthreads : Z.of_nat n <= INT_MAX.
Hypothesis Hmem : owns m0 ∅ F.

Lemma idle_tokens j k : thread_tokens j (replicate k Idle) = [].
Proof. revert j. induction k as [|k IH]; intros j; [done|]. cbn. apply IH. Qed.

Lemma config_steps_cap K order c c' : config_inv K order F c -> rtc (step secret env_ok) c c' ->
  exists K' order', config_inv K' order' F c' /\ sh_capacity (cf_shard c') = sh_capacity (cf_shard c).
Proof.
  intros Hc Hs. revert K order Hc. induction Hs as [c|c1 c2 c3 Hs _ IH]; intros K order Hc; [by exists K, order|].
  assert (exists K' o', config_inv K' o' F c2 /\ sh_capacity (cf_shard c2) = sh_capacity (cf_shard c1)) as (K' & o' & Hc2 & E).
  { destruct Hs as [m sh ts i v p sh' p' m' Hv Hts _ Hrun|m sh ts i q nv a e Hts He].
    - destruct (config_ran secret kt Hspace Hsecret _ _ _ _ _ _ _ _ _ _ _ _ Hc Hts Hv Hrun) as (K' & o' & out & Hc' & Hf & _).
      exists K', o'. split; [done|]. unfold fixed in Hf. by injection Hf.
    - exists K, order. split; [|done]. by eapply config_woke. }
  destruct (IH _ _ Hc2) as (K2 & o2 & Hc3 & E2). exists K2, o2. split; [done|congruence].
Qed.

Lemma always_intro (P : config -> Prop) :
  (forall c K order, config_inv K order F c -> sh_capacity (cf_shard c) = capacity -> P c) -> always P.
Proof.
  intros HP. unfold always. eapply wp_mono; [by eapply (wp_shard_create secret kt)|]. intros [sh|] m; [|done].
  intros (Hi & Ec & _) c Hc. destruct (config_steps_cap [] [] (Config m sh (replicate n Idle)) c) as (K & o & Hinv & E); [|done|].
  - constructor; cbn.
    + by rewrite idle_tokens.
    + intros i p Hp. by apply lookup_replicate in Hp as [-> _].
    + unfold zlen. by rewrite length_replicate.
  - apply (HP c K o Hinv). by rewrite E.
Qed.

(** C2: whatever the interleaving of fewer than 2^31 threads, whatever the
    remote callbacks answer and whatever allocations and condition variables
    fail, no step of a call to the cache touches a freed entry or buffer, fails
    an assertion, destroys a condition variable somebody waits on or loops for
    ever: it runs to the next point where the mutex is free. *)
Theorem segment_safe : always (fun c => forall i p v, cf_threads c !! i = Some p -> env_ok v ->
  exists sh' p' m', run_pc i v p (cf_shard c) (cf_mem c) = Done (sh', p') m').
Proof.
  apply always_intro. intros [m sh ts] K order Hc _ i p v Hp Hv. cbn in *.
  pose proof (config_run secret kt Hspace Hsecret _ _ _ _ _ _ _ _ _ Hc Hp Hv) as Hw. unfold wp in Hw.
  destruct (run_pc i v p sh m) as [[sh' p'] m'| | |]; [by exists sh', p', m'|done..].
Qed.

(** ** Remote operations *)

(** C8: two threads never have a remote operation for one key running. *)
Theorem one_operation : always (fun c => forall i j p p' a a' q q',
  cf_threads c !! i = Some p -> cf_threads c !! j = Some p' -> operates p a -> operates p' a' ->
  request_of p = Some q -> request_of p' = Some q' -> same_key kt (request_key q) (request_key q') = true -> i = j).
Proof.
  apply always_intro. intros c K order Hc _ i j p p' a a' q q' Hp Hp' Ho Ho' Hq Hq' Hs.
  destruct (operates_key _ _ _ _ _ _ _ _ _ Hc Hp Ho) as (x & Hx & Hok & Hf). rewrite Hq in Hx. injection Hx as <-.
  destruct (operates_key _ _ _ _ _ _ _ _ _ Hc Hp' Ho') as (y & Hy & Hok' & Hf'). rewrite Hq' in Hy. injection Hy as <-.
  destruct (si_keys _ _ _ _ _ _ _ _ _ (ci_seg _ _ _ _ _ _ Hc)) as [HK _].
  assert (a = a') as <- by by eapply (find_key_same kt (request_key q) (request_key q')).
  by eapply operates_once.
Qed.

(** The results of a computation. *)
Definition ensures {A} (x : M A) (P : A -> Prop) : Prop := forall m r m', x m = Done r m' -> P r.
Lemma ensures_ret {A} (r : A) (P : A -> Prop) : P r -> ensures (mret r) P.
Proof. by intros HP m r' m' [= <- _]. Qed.
Lemma ensures_bind {A B} (x : M A) (f : A -> M B) (P : B -> Prop) : (forall a, ensures (f a) P) -> ensures (x ≫= f) P.
Proof. intros H m r m' E. unfold mbind, M_bind in E. destruct (x m) as [a m1| | |] eqn:Ex; [|done..]. by apply (H a m1 r m'). Qed.
Lemma ensures_undefined {A} (P : A -> Prop) : ensures undefined P.
Proof. by intros m r m'. Qed.

Definition replied (r : ccache_shard * pc) : Prop := is_Some (reply_of r.2).

Ltac ensure :=
  repeat first [apply ensures_bind; intros | apply ensures_undefined | apply ensures_ret; by eexists
    | apply ensures_ret; unfold replied; cbn; match goal with |- context [if ?b then _ else _] => destruct b end; by eexists
    | match goal with |- ensures (if ?b then _ else _) _ => destruct b end
    | match goal with |- ensures (match ?x with _ => _ end) _ => destruct x end].

Lemma operation_replies i v p sh a : operates p a -> ensures (run_pc i v p sh) replied.
Proof.
  destruct p as [| | |q b|q b a'| | |]; cbn [operates LruCache.run_pc]; try done; intros ->.
  - unfold fetch_returns. ensure.
  - unfold set_returns, set_completes. ensure.
Qed.

(** C7: a thread asleep waits for one that runs a remote operation and is not
    asleep; the step after that operation wakes it. *)
Theorem sleepers_woken : always (fun c => forall i q nv a, cf_threads c !! i = Some (Sleeping q nv a) ->
  asleep i (Sleeping q nv a) (cf_shard c) ->
  exists j p, j <> i /\ cf_threads c !! j = Some p /\ operates p a /\ ~ asleep j p (cf_shard c) /\
    forall v sh' p' m', env_ok v -> run_pc j v p (cf_shard c) (cf_mem c) = Done (sh', p') m' ->
      ~ asleep i (Sleeping q nv a) sh').
Proof.
  apply always_intro. intros [m sh ts] K order Hc _ i q nv a Hi Has.
  destruct (sleeper_operates _ _ _ _ _ _ _ _ _ _ _ Hc Hi eq_refl Has) as (j & p & Hj & Ho). cbn in *.
  exists j, p. assert (j <> i) as Hne by (intros ->; rewrite Hi in Hj; by injection Hj as <-).
  split_and!; [done|done|done|destruct p; cbn in *; tauto|]. intros v sh' p' m' Hv Hrun Has'.
  pose proof (operation_replies j v p sh a Ho m (sh', p') m' Hrun) as [r Hr]. cbn in Hr.
  destruct (config_ran secret kt Hspace Hsecret _ _ _ _ _ _ _ _ _ _ _ _ Hc Hj Hv Hrun) as (K' & o' & out & Hc' & _).
  assert (<[j := p']> ts !! i = Some (Sleeping q nv a)) as Hi' by (by rewrite list_lookup_insert_ne).
  destruct (sleeper_operates _ _ _ _ _ _ _ _ _ _ _ Hc' Hi' eq_refl Has') as (x & px & Hx & Hox). cbn in Hx.
  destruct (decide (x = j)) as [->|Hxj].
  - rewrite list_lookup_insert_eq in Hx by (by eapply lookup_lt_Some). injection Hx as <-. by destruct p'; cbn in *.
  - rewrite list_lookup_insert_ne in Hx by done. apply Hxj. by eapply (operates_once secret kt K order F (Config m sh ts)).
Qed.

(** ** The contents *)
Fixpoint all_apart (same : list Z -> list Z -> bool) (C : pair_list) : Prop :=
  match C with [] => True | p :: C => apart same p.1 C /\ all_apart same C end.

(** C16: in every reachable state the links lead from the first sentinel of a
    segment to the last, through each live entry once and no other; these
    entries are as many as the segment counts and at most its capacity, each
    with a key and a value, and no key is there twice. *)
Theorem segment_bounds : always (fun c => let sh := cf_shard c in
  exists order, lru_order sh = Some order /\ NoDup order /\
    (forall a, a ∈ order <-> exists e, entries sh !! a = Some e /\ in_lru e = true) /\
    sh_capacity sh = capacity /\ sh_size sh = zlen order /\ zlen order <= capacity /\
    zlen (contents sh) = zlen order /\ all_apart (same_key kt) (contents sh)).
Proof.
  apply always_intro. intros c K order Hc Ecap. pose proof (ci_seg _ _ _ _ _ _ Hc) as Hi. cbn zeta.
  exists order. rewrite (contents_walked _ _ _ _ _ _ _ _ _ Hi). destruct (si_size _ _ _ _ _ _ _ _ _ Hi) as [Es Hle].
  rewrite (lru_content_len _ _ _ _ _ _ _ _ _ order Hi) by done. split_and!; [by eapply order_walked|apply (si_nodup _ _ _ _ _ _ _ _ _ Hi)|apply (si_order _ _ _ _ _ _ _ _ _ Hi)|done|done|lia|done|].
  assert (forall o, (forall a, a ∈ o -> a ∈ order) -> NoDup o -> all_apart (same_key kt) (content (cf_shard c) o)) as Hall.
  { induction o as [|a o IH]; intros Ho Hd; [done|]. apply NoDup_cons in Hd as [Hna Hd]. change (a :: o) with ([a] ++ o). rewrite lru_content_app.
    destruct (inv_live _ _ _ _ _ _ _ _ _ a Hi ltac:(done) ltac:(apply Ho; by left)) as (e & kb & vb & He & _ & Ek & Ev & Hka & _).
    rewrite (content_single _ _ _ _ _ He Ek Ev). cbn [app all_apart fst]. split; [|apply IH; [set_solver|done]].
    assert (key_ok kt (b_bytes kb)) as Hok by by eapply key_is_ok.
    eapply (content_apart secret kt); [by apply inv_open|done|exact Hka|by apply same_refl|].
    intros b Hb. split; [apply Ho; by right|by intros ->]. }
  apply Hall; [done|]. apply (si_nodup _ _ _ _ _ _ _ _ _ Hi).
Qed.

(** C3: each step changes the contents as [CLruSpec] says, and what falls out is
    what the eviction callback is told. *)
Theorem contents_step : always (fun c => forall i p v sh' p' m', cf_threads c !! i = Some p -> env_ok v ->
  run_pc i v p (cf_shard c) (cf_mem c) = Done (sh', p') m' ->
  exists out, effect kt (cf_shard c) (contents (cf_shard c)) p p' (contents sh') out /\
    reported sh' = reported (cf_shard c) ++ told (cf_shard c) out).
Proof.
  apply always_intro. intros [m sh ts] K order Hc _ i p v sh' p' m' Hp Hv Hrun. cbn in *.
  destruct (config_ran secret kt Hspace Hsecret _ _ _ _ _ _ _ _ _ _ _ _ Hc Hp Hv Hrun) as (K' & o' & out & Hc' & _ & Hr & He).
  exists out. split; [|done]. pose proof (contents_walked _ _ _ sh _ _ _ _ _ (ci_seg _ _ _ _ _ _ Hc)) as E.
  pose proof (contents_walked _ _ _ sh' _ _ _ _ _ (ci_seg _ _ _ _ _ _ Hc')) as E'. by rewrite E, E'.
Qed.

(** C18: once every call has returned, the destruction tells the callback what is
    left, the least recently used first, and gives every block back. *)
Theorem segment_destroyed : always (fun c => Forall (eq Idle) (cf_threads c) ->
  wp (shard_destroy secret (cf_shard c)) (cf_mem c) (fun r m =>
    owns m ∅ F /\ r = reported (cf_shard c) ++ told (cf_shard c) (rev (contents (cf_shard c))))).
Proof.
  apply always_intro. intros c K order Hc _ Hidle. pose proof (ci_seg _ _ _ _ _ _ Hc) as Hi.
  assert (forall j ts, Forall (eq Idle) ts -> thread_tokens j ts = []) as Ht.
  { intros j ts H. revert j. induction H as [|p ts <- _ IH]; intros j; [done|]. cbn. apply IH. }
  rewrite Ht in Hi by done. eapply (wp_shard_destroy secret kt Hspace Hsecret); [exact Hi|].
  intros m Ho. split; [done|]. by rewrite (contents_walked _ _ _ _ _ _ _ _ _ Hi).
Qed.
End Theorems.

(** ** Schedules, to run interleavings *)
Section Schedules.
Context {alloc : Allocator} (secret : chmap_hash_secret).

Definition asleepb (i : nat) (p : pc) (sh : ccache_shard) : bool :=
  match p with
  | Sleeping _ _ a => match entries sh !! a with Some e => bool_decide (i ∈ cond e) | None => false end
  | _ => false
  end.

Definition run_step (c : config) (iv : nat * env) : option config :=
  p ← cf_threads c !! iv.1;
  if asleepb iv.1 p (cf_shard c) then None else
  match run_pc secret iv.1 iv.2 p (cf_shard c) (cf_mem c) with
  | Done (sh', p') m' => Some (Config m' sh' (<[iv.1 := p']> (cf_threads c)))
  | _ => None
  end.

Fixpoint run_steps (l : list (nat * env)) (c : config) : option config :=
  match l with [] => Some c | iv :: l => c ← run_step c iv; run_steps l c end.

Lemma asleep_asleepb i p sh : asleep i p sh -> asleepb i p sh = true.
Proof. destruct p; try done. intros (e & He & Hi). cbn. rewrite He. by apply bool_decide_eq_true. Qed.

Lemma run_steps_reach l c c' : Forall (fun iv => env_ok iv.2) l -> run_steps l c = Some c' -> rtc (step secret env_ok) c c'.
Proof.
  intros Hl. revert c. induction Hl as [|[i v] l Hv Hl IH]; intros c; cbn [run_steps]; [by intros [= ->]|].
  intros (c1 & E & Hr)%bind_Some. apply bind_Some in E as (p & Hp & E). destruct c as [m sh ts]. cbn in *.
  destruct (asleepb i p sh) eqn:Ea; [done|]. destruct (run_pc secret i v p sh m) as [[sh' p'] m'| | |] eqn:Er; [|done..].
  injection E as <-. eapply rtc_l; [|by apply IH]. eapply step_run; [done|done| |done].
  intros Ha%asleep_asleepb. congruence.
Qed.
End Schedules.

(** ** Samples *)
Definition small_space : Allocator := {| grant b n := Z.of_nat b <? 1000; junk _ _ := 170 |}.

Lemma small_space_ok (b : nat) n : @grant small_space b n = true -> Z.of_nat b < two64.
Proof. intros H%Z.ltb_lt. cbn in H. unfold two64. lia. Qed.

Local Abbreviation sample_always := (@always secret1 ccol_int small_space 2 true true true None false true 2 mem0 ∅).

Lemma segment_safe_witness : sample_always (fun c => forall i p v, cf_threads c !! i = Some p -> env_ok v ->
  exists sh' p' m', @run_pc small_space secret1 i v p (cf_shard c) (cf_mem c) = Done (sh', p') m').
Proof. by apply (@segment_safe secret1 ccol_int small_space small_space_ok ltac:(done) 2 true true true None false true 2 mem0 ∅); [..|apply owns_mem0]. Defined.

Lemma one_operation_witness : sample_always (fun c => forall i j p p' a a' q q',
  cf_threads c !! i = Some p -> cf_threads c !! j = Some p' -> operates p a -> operates p' a' ->
  request_of p = Some q -> request_of p' = Some q' -> same_key ccol_int (request_key q) (request_key q') = true -> i = j).
Proof. by apply (@one_operation secret1 ccol_int small_space small_space_ok ltac:(done) 2 true true true None false true 2 mem0 ∅); [..|apply owns_mem0]. Defined.

Lemma sleepers_woken_witness : sample_always (fun c => forall i q nv a, cf_threads c !! i = Some (Sleeping q nv a) ->
  asleep i (Sleeping q nv a) (cf_shard c) ->
  exists j p, j <> i /\ cf_threads c !! j = Some p /\ operates p a /\ ~ asleep j p (cf_shard c) /\
    forall v sh' p' m', env_ok v -> @run_pc small_space secret1 j v p (cf_shard c) (cf_mem c) = Done (sh', p') m' ->
      ~ asleep i (Sleeping q nv a) sh').
Proof. by apply (@sleepers_woken secret1 ccol_int small_space small_space_ok ltac:(done) 2 true true true None false true 2 mem0 ∅); [..|apply owns_mem0]. Defined.

Lemma segment_bounds_witness : sample_always (fun c => let sh := cf_shard c in
  exists order, lru_order sh = Some order /\ NoDup order /\
    (forall a, a ∈ order <-> exists e, entries sh !! a = Some e /\ in_lru e = true) /\
    sh_capacity sh = 2 /\ sh_size sh = zlen order /\ zlen order <= 2 /\
    zlen (contents sh) = zlen order /\ all_apart (same_key ccol_int) (contents sh)).
Proof. by apply (@segment_bounds secret1 ccol_int small_space small_space_ok ltac:(done) 2 true true true None false true 2 mem0 ∅); [..|apply owns_mem0]. Defined.

Lemma contents_step_witness : sample_always (fun c => forall i p v sh' p' m', cf_threads c !! i = Some p -> env_ok v ->
  @run_pc small_space secret1 i v p (cf_shard c) (cf_mem c) = Done (sh', p') m' ->
  exists out, effect ccol_int (cf_shard c) (contents (cf_shard c)) p p' (contents sh') out /\
    reported sh' = reported (cf_shard c) ++ told (cf_shard c) out).
Proof. by apply (@contents_step secret1 ccol_int small_space small_space_ok ltac:(done) 2 true true true None false true 2 mem0 ∅); [..|apply owns_mem0]. Defined.

Lemma segment_destroyed_witness : sample_always (fun c => Forall (eq Idle) (cf_threads c) ->
  wp (@shard_destroy small_space secret1 (cf_shard c)) (cf_mem c) (fun r m =>
    owns m ∅ ∅ /\ r = reported (cf_shard c) ++ told (cf_shard c) (rev (contents (cf_shard c))))).
Proof. by apply (@segment_destroyed secret1 ccol_int small_space small_space_ok ltac:(done) 2 true true true None false true 2 mem0 ∅); [..|apply owns_mem0]. Defined.

(** Two threads miss one key: the first runs the getter, the second sleeps and
    then takes a copy of what the first stored. *)
Definition get_of (k : list Z) (fetched : option (list Z)) : env := Env (CallGetFull (to_pair (of_bytes k)) true) true true fetched true.
Definition miss_twice : list (nat * env) :=
  let v := get_of [1; 0; 0; 0] (Some [7; 8]) in [(0%nat, v); (1%nat, v); (0%nat, v); (1%nat, v)].

Definition started : option config :=
  match @shard_create small_space 2 ccol_int true true true None false true mem0 with
  | Done (Some sh) m => Some (Config m sh (replicate 2 Idle))
  | _ => None
  end.

Definition answer_of (p : pc) : option (ccol_retval_t * list Z) :=
  r ← reply_of p; b ← copy r; Some (code r, b_bytes b).

Example one_fetch_two_answers :
  (c ← started; c ← @run_steps small_space secret1 miss_twice c; Some (cf_threads c)) =
    Some [Fetching (GetFull [1; 0; 0; 0]) 3; Sleeping (GetFull [1; 0; 0; 0]) None 3] /\
  (c ← started; c ← @run_steps small_space secret1 (miss_twice ++ [(0%nat, get_of [] (Some [7; 8])); (1%nat, get_of [] None)]) c;
   Some (answer_of <$> cf_threads c, contents (cf_shard c))) =
    Some ([Some (ccol_success, [7; 8]); Some (ccol_success, [7; 8])], [([1; 0; 0; 0], [7; 8])]).
Proof. split; vm_compute; reflexivity. Qed.
