(* ===== verification/CLruRouter.v ===== *)
(** * A cache and its segments ([src/clrucache.c])

    A cache splits its capacity over segments with a lock each and sends a key
    to one of them.  Of the handle of a cache only its publication is modelled,
    as an answer of the environment: the table behind it is that of
    [CPinTable].  The pins of a handle keep its cache while a call uses it, so
    [__clrucache_destroy] is modelled from where they have drained. *)
From S2P Require Import Prelude Memory Values CHash COaMap CScMap CScRefine CScOps CScSpec CHashMap CHashMapRefine CHashMapIter CHashMapSpec.
From S2P Require Import CLruCache CLruSpec CLruSegment CLruOrder CLruInv CLruPrims CLruEvict CLruOpen CLruMoves CLruCalls CLruGets CLruStores CLruSets CLruThreads CLruSystem CLruMain.
Import CHashMap.
Import LruCache.

Module LruRouter.
Record clrucache := Clrucache {
  r_blk : nat;
  shards_blk : nat;
  shards : list ccache_shard;
  shard_count : Z;
  key_type : ccol_data_type;
  key_fixed_width : Z;
  capacity : Z;
}.
Definition sizeof_clrucache : Z := 88.

Definition CCACHE_MAX_SHARDS : Z := 16.
Definition CCACHE_MIN_ENTRIES_PER_SHARD : Z := 64.

Definition shard_count_for (capacity : Z) : Z :=
  let n := capacity / CCACHE_MIN_ENTRIES_PER_SHARD in
  let n := if n >? CCACHE_MAX_SHARDS then CCACHE_MAX_SHARDS else n in
  if n =? 0 then 1 else n.

Definition ccache_reduce (h shard_count : Z) : Z :=
  let h := Z.lxor h (Z.shiftr h 33) in
  let h := h ⊗ 0xff51afd7ed558ccd in
  let h := Z.lxor h (Z.shiftr h 33) in
  let h := h ⊗ 0xc4ceb9fe1a85ec53 in
  let h := Z.lxor h (Z.shiftr h 33) in
  h `mod` shard_count.

(** The capacity of segment [i]: the remainder goes to the first ones. *)
Definition segment_capacity (capacity shard_count i : Z) : Z :=
  capacity / shard_count + (if i <? capacity `mod` shard_count then 1 else 0).

Section Router.
Context {alloc : Allocator} (secret : chmap_hash_secret).

(** The index of the segment of a key that is not NULL. *)
Definition shard_for (r : clrucache) (key_pair : COaMap.cmap_pair) : M (option Z) :=
  if negb (key_fixed_width r =? 0) && negb (COaMap.pair_size key_pair =? key_fixed_width r) then mret None
  else if shard_count r =? 1 then mret (Some 0)
  else h ← ccol_chmap_hash_key secret (COaMap.pair_ptr key_pair) (COaMap.pair_size key_pair) (key_type r);
       mret (Some (ccache_reduce h (shard_count r))).

Definition router_free_self (r_blk : nat) (shards_blk : option nat) : M unit :=
  (match shards_blk with Some b => _ccol_mem_free b | None => mret tt end);; _ccol_mem_free r_blk.

(** What the eviction callback was given in all, by segment. *)
Fixpoint router_destroy_shards (shards : list ccache_shard) : M (list pair_list) :=
  match shards with
  | [] => mret []
  | sh :: shards => told ← shard_destroy secret sh; rest ← router_destroy_shards shards; mret (told :: rest)
  end.

(** [mutex_ok i]: the mutex of segment [i] can be initialised; [handle_ok]:
    the table of handles has a slot. *)
Definition clrucache_create_full (capacity : Z) (key_type : ccol_data_type) (getter setter cb : bool)
    (procs : option ccol_memmgmt_procs_t) (is_interned : bool) (mutex_ok : Z -> bool) (handle_ok : bool) : M (option clrucache) :=
  if capacity =? 0 then mret None else
  if negb (_ccol_verify_memmgmt_procs procs) then mret None else
  r ← _ccol_mem_calloc 1 sizeof_clrucache;
  match r with
  | None => mret None
  | Some r =>
      let count := shard_count_for capacity in
      s ← _ccol_mem_calloc count 8;
      match s with
      | None => router_free_self (b_id r) None;; mret None
      | Some s =>
          created ← loop (S (Z.to_nat count)) (fun shards =>
            if zlen shards <? count then
              sh ← shard_create (segment_capacity capacity count (zlen shards)) key_type getter setter cb procs is_interned
                     (mutex_ok (zlen shards));
              mret (match sh with Some sh => inl (shards ++ [sh]) | None => inr (false, shards) end)
            else mret (inr (true, shards))) [];
          let '(ok, shards) := created in
          if ok && handle_ok
          then mret (Some (Clrucache (b_id r) (b_id s) shards count key_type (ccol_fixed_width_data_type_size key_type) capacity))
          else router_destroy_shards shards;; router_free_self (b_id r) (Some (b_id s));; mret None
      end
  end.

Definition __clrucache_destroy (r : clrucache) : M (list pair_list) :=
  told ← router_destroy_shards (shards r);
  router_free_self (r_blk r) (Some (shards_blk r));;
  mret told.

Definition clrucache_size (r : clrucache) : Z := fold_left (fun total sh => total ⊕ sh_size sh) (shards r) 0.
Definition clrucache_capacity (r : clrucache) : Z := capacity r.
End Router.
End LruRouter.
Import LruRouter.

(** ** The split of the capacity *)
Definition sum_of (f : ccache_shard -> Z) (l : list ccache_shard) : Z := fold_right (fun sh n => f sh + n) 0 l.

Lemma shard_count_bounds cap : 1 <= cap -> 1 <= shard_count_for cap <= 16 /\ shard_count_for cap <= cap.
Proof.
  intros Hc. unfold shard_count_for, CCACHE_MAX_SHARDS, CCACHE_MIN_ENTRIES_PER_SHARD.
  pose proof (Z.div_pos cap 64 ltac:(lia) ltac:(lia)). pose proof (Z.mul_div_le cap 64 ltac:(lia)).
  rewrite Z.gtb_ltb. destruct (Z.ltb_spec 16 (cap / 64)); cbn; [lia|]. destruct (Z.eqb_spec (cap / 64) 0); lia.
Qed.

(** The capacities of the first [i] segments. *)
Lemma split_sum cap n i : 0 < n -> 0 <= i <= n ->
  i * (cap / n) + Z.min i (cap `mod` n) + segment_capacity cap n i = (i + 1) * (cap / n) + Z.min (i + 1) (cap `mod` n).
Proof.
  intros Hn Hi. unfold segment_capacity. pose proof (Z.mod_pos_bound cap n Hn). rewrite Z.mul_add_distr_r.
  destruct (Z.ltb_spec i (cap `mod` n)); lia.
Qed.

Lemma segment_capacity_pos cap n i : 1 <= cap < two64 -> 1 <= n <= cap -> 0 <= i -> 1 <= segment_capacity cap n i < two64.
Proof.
  intros Hc Hn Hi. unfold segment_capacity. assert (1 <= cap / n) by (apply Z.div_le_lower_bound; lia).
  pose proof (Z.mul_div_le cap n ltac:(lia)). pose proof (Z.mod_pos_bound cap n ltac:(lia)).
  pose proof (Z.div_mod cap n ltac:(lia)). destruct (Z.ltb_spec i (cap `mod` n)); nia.
Qed.

Lemma shard_count_exact cap : 0 <= cap ->
  shard_count_for cap = Z.min CCACHE_MAX_SHARDS (Z.max 1 (cap / CCACHE_MIN_ENTRIES_PER_SHARD)).
Proof.
  intros Hc. unfold shard_count_for, CCACHE_MAX_SHARDS, CCACHE_MIN_ENTRIES_PER_SHARD.
  pose proof (Z.div_pos cap 64 ltac:(lia) ltac:(lia)). rewrite Z.gtb_ltb.
  destruct (Z.ltb_spec 16 (cap / 64)); cbn [Z.eqb]; [lia|]. destruct (Z.eqb_spec (cap / 64) 0); lia.
Qed.

(** ** Segments side by side *)
Section Segments.
Context (secret : chmap_hash_secret) (kt : ccol_data_type).
Context {alloc : Allocator} (Hspace : forall (b : nat) n, grant b n = true -> Z.of_nat b < two64) (Hsecret : secret_ok secret).
Local Abbreviation seg_inv := (seg_inv secret kt).

Definition seg_blocks (sh : ccache_shard) : gset nat :=
  impl_blocks (impl (map sh)) ∪ ({[chm_blk (map sh)]} ∪ list_to_set (sh_blk sh :: entry_blocks (entries sh))).

Fixpoint all_blocks (l : list ccache_shard) : gset nat :=
  match l with [] => ∅ | sh :: l => seg_blocks sh ∪ all_blocks l end.

(** Nobody is in a call of a segment. *)
Definition quiescent (sh : ccache_shard) (m : mem) (F : gset nat) : Prop := exists K order, seg_inv None sh K order [] m F.

Lemma apart_from (b : nat) (X : list nat) F : (b ∉ F) -> (forall x, x ∈ X -> x ∉ F) -> {[b]} ∪ (list_to_set X : gset nat) ## F.
Proof. clear. set_solver. Qed.

Lemma apart_parts (I : gset nat) (b : nat) (X : list nat) F F' : I ## {[b]} ∪ (list_to_set X ∪ F) -> I ∪ ({[b]} ∪ list_to_set X) ## F' ->
  (forall x, x ∈ X -> x ∉ F') /\ (b ∉ F') /\ I ## {[b]} ∪ list_to_set X.
Proof. clear. intros H1 H2. split_and!; set_solver. Qed.

Lemma quiescent_owns sh m F : quiescent sh m F -> owns m (seg_blocks sh) F.
Proof.
  intros (K & o & Hi). pose proof (si_mem _ _ _ _ _ _ _ _ _ Hi) as Hb. pose proof (beside_owns _ Hsecret _ _ _ _ _ _ Hb) as (Ho & Hc & HcF).
  destruct Hb as (_ & _ & HF). cbn [token_blocks omap list_omap] in *. rewrite app_nil_r in *. unfold seg_blocks.
  revert Ho HF Hc. generalize (sh_blk sh :: entry_blocks (entries sh)). intros X Ho HF Hc.
  apply owns_join; [|by apply apart_from]. by rewrite <- union_assoc_L.
Qed.

Lemma quiescent_move sh m m' F F' : quiescent sh m F -> owns m' (seg_blocks sh) F' -> quiescent sh m' F'.
Proof.
  intros (K & o & Hi) Ho. exists K, o. open_inv Hi. constructor; try done. clear Hi Hcap Hsize Hlk Hnd Hpv0 Hnx0 Hord Hkeys Hhas Hsz0 Hen Htok.
  pose proof (beside_owns _ Hsecret _ _ _ _ _ _ Hmem) as (Ho1 & Hc & HcF).
  pose proof (owns_disj _ _ _ Ho) as Hdj. pose proof (owns_disj _ _ _ Ho1) as Hdj1. unfold seg_blocks in *.
  cbn [token_blocks omap list_omap] in *. rewrite app_nil_r in *. revert Hmem Ho Ho1 Hc Hdj Hdj1.
  generalize (sh_blk sh :: entry_blocks (entries sh)). intros X Hmem Ho Ho1 Hc Hdj Hdj1. destruct Hmem as (Hh & Hd & HF).
  assert ((forall x, x ∈ X -> x ∉ F') /\ (chm_blk (map sh) ∉ F') /\ impl_blocks (impl (map sh)) ## {[chm_blk (map sh)]} ∪ list_to_set X) as (HF' & Hc' & Hi).
  { by apply (apart_parts _ _ _ F). }
  split; [|done]. eapply (holds_move _ _ _ _ _ _ _ (list_to_set X ∪ F')); [exact Hh| |].
  - rewrite not_elem_of_union, elem_of_list_to_set. by split.
  - apply owns_split in Ho; [|done]. by rewrite <- union_assoc_L in Ho.
Qed.

Fixpoint all_quiescent (l : list ccache_shard) (m : mem) (F : gset nat) : Prop :=
  match l with
  | [] => owns m ∅ F
  | sh :: l => quiescent sh m (all_blocks l ∪ F) /\ all_quiescent l m (seg_blocks sh ∪ F)
  end.

Lemma all_owns l m F : all_quiescent l m F -> owns m (all_blocks l) F.
Proof.
  revert F. induction l as [|sh l IH]; intros F; [done|]. cbn. intros [Hq Hl]. pose proof (quiescent_owns _ _ _ Hq) as Ho.
  pose proof (owns_disj _ _ _ (IH _ Hl)) as Hd. apply owns_join; [done|set_solver].
Qed.

Lemma all_move l m m' F F' : all_quiescent l m F -> owns m' (all_blocks l) F' -> all_quiescent l m' F'.
Proof.
  revert F F'. induction l as [|sh l IH]; intros F F'; [done|]. cbn. intros [Hq Hl] Ho.
  pose proof (owns_disj _ _ _ (quiescent_owns _ _ _ Hq)) as [Hd _]%disjoint_union_r. split.
  - eapply quiescent_move; [exact Hq|]. by apply owns_split.
  - eapply IH; [exact Hl|]. apply owns_split; [|done]. by rewrite (union_comm_L (all_blocks l)).
Qed.

Lemma all_snoc l sh m F : all_quiescent l m (seg_blocks sh ∪ F) -> quiescent sh m (all_blocks l ∪ F) -> all_quiescent (l ++ [sh]) m F.
Proof.
  revert F. induction l as [|s l IH]; intros F; cbn.
  - intros Ho Hq. split; [done|done].
  - intros [Hs Hl] Hq. assert (all_blocks (l ++ [sh]) = all_blocks l ∪ seg_blocks sh) as E.
    { clear. induction l as [|s l IH]; cbn; [set_solver|]. rewrite IH. set_solver. }
    split.
    + rewrite E. by replace (all_blocks l ∪ seg_blocks sh ∪ F) with (all_blocks l ∪ (seg_blocks sh ∪ F)) by union_tac.
    + apply IH.
      * by replace (seg_blocks sh ∪ (seg_blocks s ∪ F)) with (seg_blocks s ∪ (seg_blocks sh ∪ F)) by union_tac.
      * by replace (all_blocks l ∪ (seg_blocks s ∪ F)) with (seg_blocks s ∪ all_blocks l ∪ F) by union_tac.
Qed.

(** Blocks put aside while something else runs, and taken back. *)
Lemma owns_aside m (X F : gset nat) : owns m X F -> owns m ∅ (X ∪ F).
Proof. clear. intros Ho. apply owns_split; [|set_solver]. apply (owns_change _ _ _ _ Ho). set_solver. Qed.
Lemma owns_back m (X F : gset nat) : owns m ∅ (X ∪ F) -> X ## F -> owns m X F.
Proof. clear. intros Ho Hd. apply (owns_change _ (∅ ∪ X)); [|set_solver]. by apply owns_join. Qed.

(** A segment created beside others. *)
Lemma wp_create_beside l cap getter setter cb procs interned ok m F (Q : option ccache_shard -> mem -> Prop) :
  1 <= cap < two64 -> all_quiescent l m F ->
  (forall m', all_quiescent l m' F -> Q None m') ->
  (forall sh m', all_quiescent (l ++ [sh]) m' F -> sh_capacity sh = cap -> contents sh = [] /\ reported sh = [] -> Q (Some sh) m') ->
  wp (shard_create cap kt getter setter cb procs interned ok) m Q.
Proof.
  intros Hcap Hl HN HS. pose proof (all_owns _ _ _ Hl) as Ho.
  eapply wp_mono; [apply (wp_shard_create secret kt Hspace Hsecret _ _ _ _ _ _ _ m (all_blocks l ∪ F)); [done|]|].
  { by apply owns_aside. }
  intros [sh|] m'.
  - intros (Hi & Hc & Hr). assert (contents sh = [] /\ reported sh = []) as Hempty.
    { split; [|done]. by rewrite (contents_walked _ _ _ _ _ _ _ _ _ Hi). }
    assert (quiescent sh m' (all_blocks l ∪ F)) as Hq by by exists [], [].
    pose proof (quiescent_owns _ _ _ Hq) as Ho2. pose proof (owns_disj _ _ _ Ho) as Hd. pose proof (owns_disj _ _ _ Ho2) as [Hd2 _]%disjoint_union_r.
    apply HS; [|done..]. apply all_snoc; [|done]. eapply all_move; [exact Hl|]. apply owns_split; [|done].
    rewrite (union_comm_L (all_blocks l)). by apply owns_join.
  - intros Ho2. apply HN. eapply all_move; [exact Hl|]. apply owns_back; [done|]. exact (owns_disj _ _ _ Ho).
Qed.

(** What the callback has heard of a segment once it is destroyed. *)
Definition heard (sh : ccache_shard) : pair_list := reported sh ++ told sh (rev (contents sh)).

Lemma wp_destroy_shards l m F (Q : list pair_list -> mem -> Prop) : all_quiescent l m F ->
  (forall m', owns m' ∅ F -> Q (heard <$> l) m') -> wp (router_destroy_shards secret l) m Q.
Proof.
  revert m Q. induction l as [|sh l IH]; intros m Q; cbn [router_destroy_shards all_quiescent]; [intros; by apply wp_ret; auto|].
  intros [Hq Hl] HQ. apply wp_bind. pose proof Hq as (K & o & Hi). eapply (wp_shard_destroy secret kt Hspace Hsecret); [exact Hi|].
  intros m1 Ho1. apply wp_bind. pose proof (owns_disj _ _ _ (all_owns _ _ _ Hl)) as [_ Hd]%disjoint_union_r. apply IH.
  - eapply all_move; [exact Hl|]. by apply owns_back.
  - intros m2 Ho2. apply wp_ret. cbn in HQ. unfold heard in HQ. rewrite (contents_walked _ _ _ _ _ _ _ _ _ Hi) in HQ. by apply HQ.
Qed.

Lemma wp_free_self a b m F (Q : unit -> mem -> Prop) : owns m ∅ ({[a]} ∪ ({[b]} ∪ F)) -> (a ∉ {[b]} ∪ F) -> (b ∉ F) ->
  (forall m', owns m' ∅ F -> Q tt m') -> wp (router_free_self a (Some b)) m Q.
Proof.
  intros Ho Ha Hb HQ. unfold router_free_self. apply wp_bind. apply (wp_free_last secret Hspace Hsecret b m ({[a]} ∪ F)).
  - by replace ({[b]} ∪ ({[a]} ∪ F)) with ({[a]} ∪ ({[b]} ∪ F)) by union_tac.
  - clear - Ha Hb. set_solver.
  - intros m1 Ho1. apply (wp_free_last secret Hspace Hsecret a m1 F); [done|clear - Ha; set_solver|done].
Qed.

(** ** A cache between calls *)
Record cache_ok (r : clrucache) (m : mem) (F : gset nat) : Prop := CacheOk {
  ca_segments : all_quiescent (shards r) m ({[r_blk r]} ∪ ({[shards_blk r]} ∪ F));
  ca_blocks : (r_blk r ∉ {[shards_blk r]} ∪ F) /\ (shards_blk r ∉ F);
  ca_type : key_type r = kt;
  ca_width : key_fixed_width r = ccol_fixed_width_data_type_size kt;
  ca_count : shard_count r = zlen (shards r);
  ca_some : 1 <= shard_count r <= CCACHE_MAX_SHARDS;
  ca_capacity : 1 <= clrucache_capacity r < two64;
  ca_split : sum_of sh_capacity (shards r) = clrucache_capacity r;
}.

(** Each segment has its share, the remainder one by one on the first. *)
Definition shares (cap : Z) (l : list ccache_shard) : Prop :=
  forall i sh, l !! i = Some sh -> sh_capacity sh = segment_capacity cap (shard_count_for cap) (Z.of_nat i).

Lemma sum_snoc f l sh : sum_of f (l ++ [sh]) = sum_of f l + f sh.
Proof. unfold sum_of. induction l as [|s l IH]; cbn [app fold_right]; lia. Qed.

Lemma shares_sum cap l : 1 <= cap -> shares cap l -> zlen l <= shard_count_for cap ->
  sum_of sh_capacity l = zlen l * (cap / shard_count_for cap) + Z.min (zlen l) (cap `mod` shard_count_for cap).
Proof.
  intros Hc. pose proof (shard_count_bounds cap Hc) as [Hn _]. set (n := shard_count_for cap) in *.
  pose proof (Z.mod_pos_bound cap n ltac:(lia)). induction l as [|sh l IH] using rev_ind; intros Hs Hl.
  - change (zlen (@nil ccache_shard)) with 0. unfold sum_of. cbn [fold_right]. lia.
  - rewrite sum_snoc, zlen_app in *. change (zlen [sh]) with 1 in *. pose proof (zlen_nonneg l).
    rewrite IH by (try lia; intros i s Hi; apply Hs; by apply lookup_app_l_Some).
    rewrite (Hs (length l) sh) by (by apply list_lookup_middle). fold (zlen l). rewrite <- (split_sum cap n) by lia. fold n. lia.
Qed.

Lemma shares_all cap l : 1 <= cap -> shares cap l -> zlen l = shard_count_for cap -> sum_of sh_capacity l = cap.
Proof.
  intros Hc Hs Hl. pose proof (shard_count_bounds cap Hc) as [Hn _]. rewrite (shares_sum cap) by (done || lia). rewrite Hl.
  pose proof (Z.mod_pos_bound cap (shard_count_for cap) ltac:(lia)). pose proof (Z.div_mod cap (shard_count_for cap) ltac:(lia)). lia.
Qed.

(** ** Creation *)
Lemma wp_create_segments a b cap getter setter cb procs interned mutex_ok m F (Q : bool * list ccache_shard -> mem -> Prop) :
  1 <= cap < two64 -> owns m ∅ ({[a]} ∪ ({[b]} ∪ F)) ->
  (forall ok l m', all_quiescent l m' ({[a]} ∪ ({[b]} ∪ F)) -> shares cap l -> (ok = true -> zlen l = shard_count_for cap) ->
     Forall (fun sh => contents sh = [] /\ reported sh = []) l -> Q (ok, l) m') ->
  wp (loop (S (Z.to_nat (shard_count_for cap))) (fun shards =>
            if zlen shards <? shard_count_for cap then
              sh ← shard_create (segment_capacity cap (shard_count_for cap) (zlen shards)) kt getter setter cb procs interned
                     (mutex_ok (zlen shards));
              mret (match sh with Some sh => inl (shards ++ [sh]) | None => inr (false, shards) end)
            else mret (inr (true, shards))) []) m Q.
Proof.
  intros Hc Ho HQ. pose proof (shard_count_bounds cap ltac:(lia)) as [Hn Hle]. set (n := shard_count_for cap) in *.
  apply (wp_loop (fun l m => all_quiescent l m ({[a]} ∪ ({[b]} ∪ F)) /\ shares cap l /\ zlen l <= n /\
    Forall (fun sh => contents sh = [] /\ reported sh = []) l) (fun l => Z.to_nat (n - zlen l))).
  2: { split_and!; [done|by intros [|i] sh|change (zlen (@nil ccache_shard)) with 0; lia|done]. }
  2: { change (zlen (@nil ccache_shard)) with 0. lia. }
  clear m Ho. intros l m (Hl & Hs & Hlen & Hf). pose proof (zlen_nonneg l). destruct (Z.ltb_spec (zlen l) n) as [Hlt|Hge].
  2: { apply wp_ret, HQ; [done..| |done]. intros _. lia. }
  apply wp_bind, (wp_create_beside l _ _ _ _ _ _ _ m ({[a]} ∪ ({[b]} ∪ F))); [apply segment_capacity_pos; lia|done| |].
  - intros m' Hl'. by apply wp_ret, HQ.
  - intros sh m' Hl' Hcap Hempty. apply wp_ret. rewrite zlen_app. change (zlen [sh]) with 1. split; [|lia]. split_and!; [done| |lia|].
    + intros i s [Hi|[Hi Hx]]%lookup_app_Some; [by apply Hs|]. apply list_lookup_singleton_Some in Hx as [Hx ->].
      replace (Z.of_nat i) with (zlen l) by (unfold zlen; lia). done.
    + apply Forall_app. by split; [|constructor].
Qed.

(** Whatever fails, nothing is left behind. *)
Lemma wp_create_full cap getter setter cb procs interned mutex_ok handle_ok m F : 0 <= cap < two64 -> owns m ∅ F ->
  wp (clrucache_create_full secret cap kt getter setter cb procs interned mutex_ok handle_ok) m (fun r m' =>
    match r with
    | None => owns m' ∅ F
    | Some r => cache_ok r m' F /\ clrucache_capacity r = cap /\ shard_count r = shard_count_for cap /\ shares cap (shards r) /\
        Forall (fun sh => contents sh = [] /\ reported sh = []) (shards r)
    end).
Proof.
  intros Hc Ho. unfold clrucache_create_full. destruct (Z.eqb_spec cap 0); [by apply wp_ret|].
  destruct (_ccol_verify_memmgmt_procs procs); cbn [negb]; [|by apply wp_ret].
  pose proof (shard_count_bounds cap ltac:(lia)) as [Hn Hle].
  apply wp_bind. apply (wp_calloc_owns 1 sizeof_clrucache m ∅ F); [done|done| |].
  { intros m' Ho' _. by apply wp_ret. }
  intros a m1 Ho1 _ Ha _ _. rewrite union_empty_r_L in Ho1. apply owns_aside in Ho1.
  apply wp_bind. apply (wp_calloc_owns _ _ m1 ∅ ({[b_id a]} ∪ F)); [done|lia| |].
  { intros m2 Ho2 _. unfold router_free_self. apply wp_bind, wp_bind, wp_ret.
    apply (wp_free_last secret Hspace Hsecret _ _ F); [done..|]. intros m3 Ho3. by apply wp_ret. }
  intros b m2 Ho2 _ Hb _ _. rewrite union_empty_r_L in Ho2. apply owns_aside in Ho2.
  apply not_elem_of_union in Hb as [Hab Hb]. rewrite not_elem_of_singleton in Hab.
  assert (owns m2 ∅ ({[b_id a]} ∪ ({[b_id b]} ∪ F))) as Ho3.
  { by replace ({[b_id a]} ∪ ({[b_id b]} ∪ F)) with ({[b_id b]} ∪ ({[b_id a]} ∪ F)) by union_tac. }
  assert (b_id a ∉ {[b_id b]} ∪ F) as Ha' by (rewrite not_elem_of_union, not_elem_of_singleton; auto).
  apply wp_bind, (wp_create_segments (b_id a) (b_id b) cap getter setter cb procs interned mutex_ok m2 F); [lia|done|].
  intros ok l m3 Hl Hs Hlen Hf. cbn beta iota. destruct (ok && handle_ok) eqn:E.
  - apply andb_true_iff in E as [-> _]. specialize (Hlen eq_refl). apply wp_ret. split; [|done].
    constructor; cbn; [done|done|done|done|done|done|lia|by apply shares_all; [lia|..]].
  - apply wp_bind. eapply wp_destroy_shards; [exact Hl|]. intros m4 Ho4. apply wp_bind, (wp_free_self _ _ _ F); [done..|].
    intros m5 Ho5. by apply wp_ret.
Qed.

(** ** Calls to a segment *)
Lemma owns_swap m (X Y F : gset nat) : owns m X (Y ∪ F) -> Y ## F -> owns m Y (X ∪ F).
Proof.
  clear. intros Ho Hd. pose proof (owns_disj _ _ _ Ho) as [Hx _]%disjoint_union_r. apply owns_split; [|done].
  rewrite (union_comm_L Y). by apply owns_join.
Qed.

Lemma all_use l i sh m F : all_quiescent l m F -> l !! i = Some sh -> exists X, quiescent sh m (X ∪ F) /\
  forall sh' m', quiescent sh' m' (X ∪ F) -> all_quiescent (<[i := sh']> l) m' F.
Proof.
  revert i F. induction l as [|s l IH]; intros [|i] F; [done..| |]; cbn [all_quiescent]; intros [Hq Hl] Hi.
  - injection Hi as ->. exists (all_blocks l). split; [done|]. intros sh' m' Hq'. cbn. split; [done|].
    eapply all_move; [exact Hl|]. apply owns_swap; [by apply quiescent_owns|].
    by pose proof (owns_disj _ _ _ (all_owns _ _ _ Hl)) as [_ ?]%disjoint_union_r.
  - destruct (IH i _ Hl Hi) as (X & Hs & Hback). exists (X ∪ seg_blocks s). rewrite <- union_assoc_L. split; [done|].
    intros sh' m' Hq'. pose proof (Hback _ _ Hq') as Hl'. cbn. split; [|done]. eapply quiescent_move; [exact Hq|].
    apply owns_swap; [by apply all_owns|]. by pose proof (owns_disj _ _ _ (quiescent_owns _ _ _ Hq)) as [_ ?]%disjoint_union_r.
Qed.

Lemma sum_insert f l i sh sh' : l !! i = Some sh -> f sh' = f sh -> sum_of f (<[i := sh']> l) = sum_of f l.
Proof.
  unfold sum_of. revert i. induction l as [|s l IH]; intros [|i] Hi E; [done..| |].
  - injection Hi as ->. cbn. by rewrite E.
  - change (<[S i := sh']> (s :: l)) with (s :: <[i := sh']> l). cbn [fold_right]. by rewrite (IH i).
Qed.

Lemma all_lookup l i sh m F : all_quiescent l m F -> l !! i = Some sh -> exists X, quiescent sh m X.
Proof. intros Hl Hi. destruct (all_use _ _ _ _ _ Hl Hi) as (X & Hq & _). by eexists. Qed.

Lemma quiescent_size sh m F : quiescent sh m F -> sh_size sh = zlen (contents sh) /\ zlen (contents sh) <= sh_capacity sh.
Proof.
  intros (K & o & Hi). rewrite (contents_walked _ _ _ _ _ _ _ _ _ Hi). destruct (si_size _ _ _ _ _ _ _ _ _ Hi) as [Es Hle].
  rewrite (lru_content_len _ _ _ _ _ _ _ _ _ o Hi) by done. split; [done|lia].
Qed.

(** The sum of the sizes stays below the capacity, so it does not wrap. *)
Lemma sizes_sum l n : 0 <= n -> Forall (fun sh => sh_size sh = zlen (contents sh) /\ zlen (contents sh) <= sh_capacity sh) l ->
  n + sum_of sh_capacity l < two64 ->
  fold_left (fun total sh => total ⊕ sh_size sh) l n = n + sum_of (fun sh => zlen (contents sh)) l /\
  sum_of (fun sh => zlen (contents sh)) l <= sum_of sh_capacity l.
Proof.
  intros Hn Hl. revert n Hn. induction Hl as [|sh l [Es Hle] Hl IH]; intros n Hn Hb; unfold sum_of in *; cbn [fold_left fold_right] in *; [lia|].
  pose proof (zlen_nonneg (contents sh)) as Hz.
  assert (0 <= fold_right (fun sh n => sh_capacity sh + n) 0 l) as Hp.
  { clear - Hl. induction Hl as [|s l [_ Hle] Hl IH]; cbn; [lia|]. pose proof (zlen_nonneg (contents s)). lia. }
  rewrite Es, wrap_small by lia. destruct (IH (n + zlen (contents sh))) as [-> ?]; lia.
Qed.

Lemma all_sizes l m F : all_quiescent l m F -> Forall (fun sh => sh_size sh = zlen (contents sh) /\ zlen (contents sh) <= sh_capacity sh) l.
Proof.
  intros Hl. apply Forall_forall. intros sh [i Hi]%list_elem_of_lookup. destruct (all_lookup _ _ _ _ _ Hl Hi) as [X Hq].
  by eapply quiescent_size.
Qed.

Lemma empty_size r m F : all_quiescent (shards r) m F -> Forall (fun sh => contents sh = []) (shards r) -> clrucache_size r = 0.
Proof.
  intros Hl He. pose proof (all_sizes _ _ _ Hl) as Hs. unfold clrucache_size. clear Hl. induction Hs as [|sh l [Es _] Hs IH]; [done|].
  cbn. apply Forall_cons in He as [E He]. rewrite Es, E. by apply IH.
Qed.

(** ** The segment of a key *)
Definition key_pair (k : list Z) : COaMap.cmap_pair := COaMap.CmapPair (Foreign k) (zlen k).

Lemma reduce_bounds h n : 0 < n -> 0 <= ccache_reduce h n < n.
Proof. intros Hn. by apply Z.mod_pos_bound. Qed.

Lemma wp_shard_for r k m F (Q : option Z -> mem -> Prop) : cache_ok r m F -> key_ok kt k ->
  Q (Some (if shard_count r =? 1 then 0 else ccache_reduce (key_hash secret (seg_config kt) true (canon kt k)) (shard_count r))) m ->
  wp (shard_for secret r (key_pair k)) m Q.
Proof.
  intros [H1 H2 H3 H4 H5 H6 H7 H8] [Hb Hl Hf] HQ. unfold shard_for. cbn [COaMap.pair_size COaMap.pair_ptr key_pair]. rewrite H3, H4.
  assert (negb (ccol_fixed_width_data_type_size kt =? 0) && negb (zlen k =? ccol_fixed_width_data_type_size kt) = false) as ->.
  { unfold fits in Hf. destruct (ccol_fixed_width_data_type_size kt =? 0); [done|]. cbn in *. by rewrite Hf. }
  destruct (shard_count r =? 1); [by apply wp_ret|]. apply wp_bind, wp_hash_key; [done..|]. by apply wp_ret.
Qed.
End Segments.

(** ** The theorems *)
Section RouterTheorems.
Context (secret : chmap_hash_secret) (kt : ccol_data_type).
Context {alloc : Allocator} (Hspace : forall (b : nat) n, grant b n = true -> Z.of_nat b < two64) (Hsecret : secret_ok secret).
Local Abbreviation cache_ok := (cache_ok secret kt).

(** C29: a cache is created with a segment for each sixty-four entries of its
    capacity, but one at least and sixteen at most; the segments' capacities
    differ by one at most, none is zero, and they add up to the capacity asked
    for.  When anything fails, nothing is left behind. *)
Theorem cache_created cap getter setter cb procs interned mutex_ok handle_ok m F : 0 <= cap < two64 -> owns m ∅ F ->
  wp (clrucache_create_full secret cap kt getter setter cb procs interned mutex_ok handle_ok) m (fun r m' =>
    match r with
    | None => owns m' ∅ F
    | Some r => cache_ok r m' F /\ clrucache_capacity r = cap /\ clrucache_size r = 0 /\
        zlen (shards r) = Z.min CCACHE_MAX_SHARDS (Z.max 1 (cap / CCACHE_MIN_ENTRIES_PER_SHARD)) /\
        sum_of sh_capacity (shards r) = cap /\
        forall sh sh', sh ∈ shards r -> sh' ∈ shards r -> 1 <= sh_capacity sh /\ sh_capacity sh <= sh_capacity sh' + 1
    end).
Proof.
  intros Hc Ho. eapply wp_mono; [by apply (wp_create_full secret kt Hspace Hsecret cap)|]. intros [r|] m'; [|done].
  intros (Hok & Ec & En & Hs & Hf). pose proof Hok as [H1 H2 H3 H4 H5 H6 H7 H8]. rewrite Ec in *. rewrite <- H5.
  pose proof (shard_count_bounds cap ltac:(lia)) as [Hn Hle]. split_and!; [done|done| | |apply shares_all; [lia|done|congruence]|].
  - apply (empty_size secret kt Hspace Hsecret _ _ _ H1). by eapply Forall_impl; [exact Hf|intros sh [? _]].
  - rewrite En. apply shard_count_exact. lia.
  - intros sh sh' [i Hi]%list_elem_of_lookup [j Hj]%list_elem_of_lookup. rewrite (Hs i sh Hi), (Hs j sh' Hj).
    split; [apply segment_capacity_pos; lia|]. unfold segment_capacity. zcase; zcase; lia.
Qed.

(** C28: two keys that a segment takes for one go to one segment, whatever
    their bytes: the two zeroes of a floating type, the encodings of a long
    double. *)
Theorem keys_to_segments r m F k1 k2 : cache_ok r m F -> key_ok kt k1 -> key_ok kt k2 -> same_key kt k1 k2 = true ->
  exists i, 0 <= i < zlen (shards r) /\
    shard_for secret r (key_pair k1) m = Done (Some i) m /\ shard_for secret r (key_pair k2) m = Done (Some i) m.
Proof.
  intros Hc H1 H2 Hs. pose proof Hc as [_ _ _ _ E5 E6 _ _].
  exists (if shard_count r =? 1 then 0 else ccache_reduce (key_hash secret (seg_config kt) true (canon kt k1)) (shard_count r)). split.
  { rewrite <- E5. destruct (shard_count r =? 1); [lia|]. apply reduce_bounds. lia. }
  pose proof (key_eq_hash secret (seg_config kt) (seg_config_ok kt) _ _ true (canon_valid kt _ H1) (canon_valid kt _ H2) Hs) as Eh.
  assert (forall k, key_ok kt k -> wp (shard_for secret r (key_pair k)) m (fun i m' => i = Some (if shard_count r =? 1 then 0
    else ccache_reduce (key_hash secret (seg_config kt) true (canon kt k)) (shard_count r)) /\ m' = m)) as Hw.
  { intros k Hk. by eapply (wp_shard_for secret kt Hsecret). }
  pose proof (Hw k1 H1) as W1. pose proof (Hw k2 H2) as W2. unfold wp in W1, W2. rewrite <- Eh in W2.
  destruct (shard_for secret r (key_pair k1) m); [|done..]. destruct (shard_for secret r (key_pair k2) m); [|done..].
  destruct W1 as [-> ->], W2 as [-> ->]. done.
Qed.

Lemma config_idle K order F c : config_inv secret kt K order F c -> Forall (eq Idle) (cf_threads c) -> quiescent secret kt (cf_shard c) (cf_mem c) F.
Proof.
  intros Hc Hidle. exists K, order. pose proof (ci_seg _ _ _ _ _ _ Hc) as Hi.
  assert (forall j ts, Forall (eq Idle) ts -> thread_tokens j ts = []) as Ht.
  { intros j ts H. revert j. induction H as [|p ts <- _ IH]; intros j; [done|]. cbn. apply IH. }
  by rewrite Ht in Hi.
Qed.

(** C17: once the calls of fewer than 2^31 threads to a segment have returned,
    the cache is as sound as before them, its size is the number of its
    entries and at most its capacity, and its destruction tells the callback
    what is left, segment by segment, and gives every block back. *)
Theorem cache_calls r m F i sh n c : cache_ok r m F -> shards r !! i = Some sh -> Z.of_nat n <= INT_MAX ->
  rtc (step secret env_ok) (Config m sh (replicate n Idle)) c -> Forall (eq Idle) (cf_threads c) ->
  let r' := Clrucache (r_blk r) (shards_blk r) (<[i := cf_shard c]> (shards r)) (shard_count r) (key_type r) (key_fixed_width r) (capacity r) in
  cache_ok r' (cf_mem c) F /\
  clrucache_size r' = sum_of (fun sh => zlen (contents sh)) (shards r') /\ clrucache_size r' <= clrucache_capacity r' /\
  wp (__clrucache_destroy secret r') (cf_mem c) (fun told m' => owns m' ∅ F /\ told = heard <$> shards r').
Proof.
  intros Hc Hi Hn Hsteps Hidle r'. pose proof Hc as [H1 H2 H3 H4 H5 H6 H7 H8].
  destruct (all_use secret kt Hspace Hsecret _ _ _ _ _ H1 Hi) as (X & (K & o & Hq) & Hback).
  destruct (config_steps_cap secret kt Hspace Hsecret (X ∪ ({[r_blk r]} ∪ ({[shards_blk r]} ∪ F))) K o (Config m sh (replicate n Idle)) c) as (K' & o' & Hinv & Ecap); [|done|].
  { constructor; cbn; [by rewrite idle_tokens|intros j p Hp; by apply lookup_replicate in Hp as [-> _]|unfold zlen; by rewrite length_replicate]. }
  assert (cache_ok r' (cf_mem c) F) as Hok.
  { constructor; cbn; try done.
    - apply Hback. by eapply config_idle.
    - unfold zlen. by rewrite length_insert.
    - exact (eq_trans (sum_insert _ _ _ _ _ Hi Ecap) H8). }
  split; [done|]. pose proof Hok as [J1 J2 _ _ _ _ J7 J8].
  destruct (sizes_sum (shards r') 0) as [Es Hle]; [done|by eapply (all_sizes secret kt Hspace Hsecret)|lia|].
  unfold clrucache_size in *. rewrite Es. split; [done|]. split; [lia|].
  unfold __clrucache_destroy. apply wp_bind. eapply (wp_destroy_shards secret kt Hspace Hsecret); [exact J1|]. intros m1 Ho1.
  apply wp_bind, (wp_free_self secret Hspace Hsecret _ _ _ F); [done|apply J2..|]. intros m2 Ho2. by apply wp_ret.
Qed.

End RouterTheorems.

(** ** Samples *)
Definition sample_cache (kt : ccol_data_type) : option (clrucache * mem) :=
  match @clrucache_create_full small_space secret1 200 kt true true true None false (fun _ => true) true mem0 with
  | Done (Some r) m => Some (r, m)
  | _ => None
  end.

Lemma sample_ok kt r m : sample_cache kt = Some (r, m) -> cache_ok secret1 kt r m ∅.
Proof.
  pose proof (@wp_create_full secret1 kt small_space small_space_ok ltac:(done) 200 true true true None false (fun _ => true) true mem0 ∅
    ltac:(done) owns_mem0) as H.
  unfold sample_cache, wp in *. destruct (clrucache_create_full _ _ _ _ _ _ _ _ _ _ mem0) as [[r'|] m'| | |]; [|done..].
  intros [= -> ->]. by destruct H.
Qed.

(** Two hundred entries make three segments. *)
Example sample_segments : (p ← sample_cache ccol_int; Some (sh_capacity <$> shards p.1)) = Some [67; 67; 66].
Proof. vm_compute. reflexivity. Qed.

Lemma cache_created_witness :
  wp (@clrucache_create_full small_space secret1 200 ccol_int true true true None false (fun _ => true) true) mem0 (fun r m' =>
    match r with
    | None => owns m' ∅ ∅
    | Some r => cache_ok secret1 ccol_int r m' ∅ /\ clrucache_capacity r = 200 /\ clrucache_size r = 0 /\
        zlen (shards r) = Z.min CCACHE_MAX_SHARDS (Z.max 1 (200 / CCACHE_MIN_ENTRIES_PER_SHARD)) /\
        sum_of sh_capacity (shards r) = 200 /\
        forall sh sh', sh ∈ shards r -> sh' ∈ shards r -> 1 <= sh_capacity sh /\ sh_capacity sh <= sh_capacity sh' + 1
    end).
Proof.
  apply (@cache_created secret1 ccol_int small_space small_space_ok ltac:(done) 200 true true true None false (fun _ => true) true mem0 ∅);
    [done|exact owns_mem0].
Defined.

Lemma keys_to_segments_witness :
  match sample_cache ccol_double with
  | Some (r, m) => exists i, 0 <= i < zlen (shards r) /\
      shard_for secret1 r (key_pair zero_neg) m = Done (Some i) m /\ shard_for secret1 r (key_pair zero_pos) m = Done (Some i) m
  | None => False
  end.
Proof.
  assert (is_Some (sample_cache ccol_double)) as Hs by (vm_compute; by eexists).
  destruct (sample_cache ccol_double) as [[r m]|] eqn:E; [|by destruct Hs].
  apply (@keys_to_segments secret1 ccol_double ltac:(done) r m ∅); [by apply sample_ok|split; [by repeat constructor|done|done]..|by vm_compute].
Defined.

Definition two_gets : list (nat * env) :=
  let v := get_of [1; 0; 0; 0] (Some [7; 8]) in
  miss_twice ++ [(0%nat, v); (1%nat, v); (0%nat, v); (1%nat, v)].

Lemma cache_calls_witness :
  match sample_cache ccol_int with
  | Some (r, m) =>
      match shards r !! 1%nat with
      | Some sh =>
          match @run_steps small_space secret1 two_gets (Config m sh (replicate 2 Idle)) with
          | Some c =>
              let r' := Clrucache (r_blk r) (shards_blk r) (<[1%nat := cf_shard c]> (shards r)) (shard_count r) (key_type r) (key_fixed_width r) (capacity r) in
              cache_ok secret1 ccol_int r' (cf_mem c) ∅ /\
              clrucache_size r' = sum_of (fun sh => zlen (contents sh)) (shards r') /\ clrucache_size r' <= clrucache_capacity r' /\
              wp (@__clrucache_destroy small_space secret1 r') (cf_mem c) (fun told m' => owns m' ∅ ∅ /\ told = heard <$> shards r')
          | None => False
          end
      | None => False
      end
  | None => False
  end.
Proof.
  assert ((p ← sample_cache ccol_int; sh ← shards p.1 !! 1%nat;
    c ← @run_steps small_space secret1 two_gets (Config p.2 sh (replicate 2 Idle)); Some (cf_threads c)) = Some [Idle; Idle]) as Hs
    by (vm_compute; reflexivity).
  destruct (sample_cache ccol_int) as [[r m]|] eqn:E; [|done]. cbn [mbind option_bind fst snd] in Hs.
  destruct (shards r !! 1%nat) as [sh|] eqn:Esh; [|done]. cbn [mbind option_bind] in Hs.
  destruct (run_steps secret1 two_gets (Config m sh (replicate 2 Idle))) as [c|] eqn:Ec; [|done]. injection Hs as Hidle.
  apply (@cache_calls secret1 ccol_int small_space small_space_ok ltac:(done) r m ∅ 1 sh 2 c);
    [by apply sample_ok|done|done| |rewrite Hidle; by repeat constructor].
  eapply (run_steps_reach secret1); [|exact Ec].
  assert (pair_ok (to_pair (of_bytes [1; 0; 0; 0]))) as Hp by (eexists; split; [done|]; by repeat constructor).
  by repeat constructor.
Defined.
